(* ===== verification/_CoqProject ===== *)
-Q . S2P
Prelude.v
Errors.v
Bytes.v
Device.v
Disk.v
BlockCache.v
Features.v
Superblock.v
Hash.v
Checksum.v
Bgd.v
Extent.v
ExtentMut.v
ExtentTree.v
DeepInsert.v
FileMut.v
TruncateTree.v
Inode.v
Indirect.v
IndirectMut.v
Dir.v
Xattr.v
Acl.v
InlineData.v
InlineMut.v
Htree.v
HtreeMut.v
HtreeIndex.v
Alloc.v
Filesystem.v
InodeEdit.v
FileIo.v
EaInode.v
Path.v
PathSafety.v
BlockBuffer.v
FsRead.v
FreeCounts.v
AllocRefine.v
Jbd2.v
Journal.v
Transaction.v
JournalApply.v
LogReplay.v
JournalWriter.v
CrashSafety.v
Mount.v
MountSafety.v
Stage.v
DirEdit.v
Namespace.v
FileWrite.v
Operations.v
Lifecycle.v
OperationSafety.v
DirRefine.v
NamespaceSafety.v
ContentRefine.v
