(* ===== verification/Prelude.v ===== *)
(** * A verification of the ext2/3/4 driver under src/

    The driver is a Rust library that reads and writes ext2, ext3 and ext4
    volumes through a block device.  This development translates its core into
    Rocq functions and proves what makes them correct.  Every definition keeps
    the name of the function it models, and each file opens with a comment
    naming its source.

    ** The program and where it is modelled

    - Errors (error.rs): the [Error] type with its errno table, and the result
      monad every operation runs in.  [Panic] (an index out of range, an
      [unwrap] of nothing) and [OutOfFuel] (a loop that did not end) are
      results of their own, so that their absence is a theorem.
    - Bytes: reading and writing fields of buffers, little and big endian.
    - Device (block_io.rs): the [BlockDevice] trait as a class, the contract
      [DeviceSpec] its clients rely on, [FileDevice] and [AlignedDevice].
      BlockCache (block_cache.rs): the caching device with its pinned blocks.
      Disk: a device that loses unflushed writes; it models no file, and is the
      environment of the crash theorems.
    - Features, Superblock, Bgd, Inode (features.rs, superblock.rs, bgd.rs,
      inode.rs): decoding and validating the volume's metadata.
      Checksum (checksum.rs): every checksum recipe over the external crate
      [crc32c], which is the class [Crc32c].
    - Extent (extent.rs): extent trees as the lookups see them.  ExtentMut and
      ExtentTree (extent_mut.rs): the planners that change them; DeepInsert
      proves the one that inserts below the root.  FileMut (file_mut.rs): the
      planners of truncation and growth; TruncateTree proves the truncation of
      a whole tree.  Indirect and IndirectMut (indirect.rs, indirect_mut.rs):
      the pointer trees of ext2 and ext3 files, read and written.
    - Dir (dir.rs): directory blocks.  Hash, Htree, HtreeMut, HtreeIndex
      (hash.rs, htree.rs, htree_mut.rs): hashed directories: the hashes, the
      lookup, the leaf split, and the two composed.
    - Xattr, EaInode, Acl (xattr.rs, ea_inode.rs, acl.rs): extended attributes
      in the inode, in their block and in inodes of their own, and the ACLs
      they hold.  InlineData and InlineMut (inline_data.rs, inline_mut.rs):
      files and directories kept inside the inode.
    - FileIo (file_io.rs): the readers of file content.  Path (path.rs): the
      walk over a path's components; PathSafety proves that it ends.
    - Alloc (alloc.rs): the planners over the block and inode bitmaps.
      Filesystem and BlockBuffer (fs.rs): what a mount keeps, and the staged
      transaction a mutating operation builds: bitmaps, descriptors and
      superblock counts edited in a buffer of dirty blocks.  FreeCounts and
      AllocRefine prove what those edits keep.  FsRead (fs.rs): the reading
      calls, the listings and the orphan chain.
    - Jbd2, Journal, Transaction, JournalApply, JournalWriter (jbd2.rs,
      journal.rs, transaction.rs, journal_apply.rs, journal_writer.rs): the
      journal: its format, the walk of the log, the serialiser, the replay and
      the four fenced steps of a commit.  LogReplay and CrashSafety compose
      them.
    - The mounted file system (fs.rs).  Mount: the mutable state of a mount,
      its guards and its commits; MountSafety proves them.  Lifecycle: the
      mount sequence.  InodeEdit: what is done to the bytes of one inode.
      Stage, DirEdit, Namespace and FileWrite: the programs a mutating call
      runs over a staged buffer: extended attributes, truncation and orphans;
      directory entries; names; content.  Operations: the calls themselves.
      OperationSafety, DirRefine, NamespaceSafety and ContentRefine prove what
      these promise.

    The components meet where the program's do: operations take what a mount
    keeps (the superblock, the descriptors, the checksummer) as arguments;
    anything that only reads takes a [reader], anything that writes runs in
    [dev_m], a state-passing monad over a [BlockDevice]; a planner given an
    [FnMut() -> Result<u64>] takes the caller's state with a function
    [alloc : A -> res (Z * A)].  A mutating call is a program in [tx], the
    state monad over the staged buffer and the allocation state, which
    [Operations.transact] runs over a new buffer and commits.

    ** What the theorems show

    - The journal.  A commit is atomic across power failures: whatever prefix
      and subset of its writes a failure keeps, mounting afterwards leaves
      either the old volume or the new one (CrashSafety); once it returns, the
      new one.  Walking a log of serialised transactions yields the writes no
      later revoke cancels (LogReplay), and the walk of any image whatever ends
      without a panic (Journal).
    - Mounts.  An unjournaled commit writes in its order and a failure never
      leaves a later stage without the earlier ones; a failed commit retires
      the mount; the state word read at mount comes back at the end
      (MountSafety).
    - Calls.  With a journal any mutating call is atomic across power failures,
      and one whose program fails leaves the device alone; the chunks a long
      write is cut into fit the log, and cutting ends (OperationSafety).
      Adding or removing a directory entry changes the listing of the whole
      directory by that entry, and searches agree with the listing (DirRefine);
      a rename refused by the cycle check is exactly one that would cut the
      tree (NamespaceSafety); punching a hole zeroes the range, keeps the rest
      and frees exactly the blocks inside (ContentRefine).
    - Space.  Staging an allocation or a release implements taking and
      returning blocks of an abstract set, and keeps the free counts of the
      descriptors and of the superblock equal to the clear bits of the bitmaps
      (FreeCounts, AllocRefine).  The planners hand out only free blocks and
      inodes in range, never one already handed out (Alloc).
    - Files.  Extent lookups agree with the list of extents of the tree, and
      end on any image (Extent); each planner's result denotes the block map
      it should (ExtentMut); a repacked tree reads back as the same extents over
      the file's own blocks, allocating none when the tree did not grow
      (ExtentTree); an insertion into a tree of any depth, splits and root
      promotion included, leaves a tree that maps one extent more (DeepInsert);
      a truncation leaves the tree of the extents cut at the new size
      (TruncateTree).  The pointer trees of block-mapped files are read, built
      and released consistently (Indirect, IndirectMut).  A read returns the
      bytes of the blocks the file maps, zeros in its holes (FileIo).
    - Directories.  Adding and removing an entry changes the listing of a block
      by exactly that entry (Dir); names stay reachable through a leaf split
      (HtreeIndex); a path lookup ends on any image (PathSafety, FsRead).
    - Attributes and inline data.  Setting an attribute changes the map from
      names to values at that name alone (Xattr); what is stored inline reads
      back (InlineMut).
    - Metadata.  What is patched verifies, what parses is in bounds (Checksum,
      Superblock, Bgd, Inode); a new inode parses as what was asked for, with a
      valid checksum, and an attribute change touches its field alone
      (InodeEdit).
    - Devices.  The aligned and the cached device are indistinguishable from
      the device below (Device, BlockCache).

    ** Conventions

    A machine word is a [Z] with its wrap-around written where the source
    computes ([as_u16], [as_u32], [as_u64]): the release build's wrapping
    arithmetic.  A buffer is a list of bytes in [Z].  A loop that is not
    structural takes fuel, and a theorem shows the fuel its caller passes is
    enough: the walk of the log is given the length of the ring, the extent and
    pointer walks the depth the root claims, the scans the length of what they
    scan, the climb to the root the number of inodes, a write cut into chunks
    one level.  [descend_to_leaf] of extent_mut.rs alone has no bound in the
    source, and its model leaves the fuel to the caller.  The clock and the
    generation counter of a call are arguments.

    ** Not modelled

    Formatting and logging, the clock and opening files.  The mutexes around
    the journal writer and the allocation state of a mount are left out:
    operations are modelled one at a time.  casefold.rs, which needs Unicode
    tables, has no callers: lookups compare bytes, and a write to the index of
    a casefolded or encrypted directory is refused or drops the index, which
    is modelled (DirEdit.hashed_otherwise).  The checker, the deep verification and the
    formatter (fsck.rs, verify.rs, mkfs.rs) only read a volume or write a fresh
    one.  capi.rs, the command line and the host bridge wrap the library. *)

(** This file: shared notation, generic list and integer lemmas and automation. *)
From stdpp Require Export base numbers list gmap strings.
From Stdlib Require Export ZArith Lia.

#[global] Open Scope Z_scope.

(** ** Buffers

    A Rust [&[u8]] / [Vec<u8>] is a list of integers in [0, 256). *)
Abbreviation bytes := (list Z).

(** [l.len()], as an integer. *)
Definition zlen {A} (l : list A) : Z := Z.of_nat (length l).

(** The elements [off .. off+len] of [l] (no bounds check: see [slice]). *)
Definition sub {A} (l : list A) (off len : Z) : list A :=
  take (Z.to_nat len) (drop (Z.to_nat off) l).

(** [l] with [src] written over the elements from [off] on. *)
Definition splice {A} (l : list A) (off : Z) (src : list A) : list A :=
  take (Z.to_nat off) l ++ src ++ drop (Z.to_nat off + length src)%nat l.

(** [vec![x; n]] *)
Definition zrep {A} (n : Z) (x : A) : list A := replicate (Z.to_nat n) x.

(** A list whose elements are bytes. *)
Definition bytes_ok (l : bytes) : Prop := Forall (λ b, 0 ≤ b < 256) l.

#[global] Instance bytes_ok_dec l : Decision (bytes_ok l).
Proof. unfold bytes_ok. apply _. Defined.

(** ** Machine integers: the casts [x as uN] / [x as iN] *)
Definition as_u8 (x : Z) : Z := x mod 2 ^ 8.
Definition as_u16 (x : Z) : Z := x mod 2 ^ 16.
Definition as_u32 (x : Z) : Z := x mod 2 ^ 32.
Definition as_u64 (x : Z) : Z := x mod 2 ^ 64.
(** [!x] at [u32] *)
Definition lnot32 (x : Z) : Z := 2 ^ 32 - 1 - x.
Definition as_i32 (x : Z) : Z := (x + 2 ^ 31) mod 2 ^ 32 - 2 ^ 31.
Definition as_i64 (x : Z) : Z := (x + 2 ^ 63) mod 2 ^ 64 - 2 ^ 63.

Definition u8_ok (x : Z) : Prop := 0 ≤ x < 2 ^ 8.
Definition u16_ok (x : Z) : Prop := 0 ≤ x < 2 ^ 16.
Definition u32_ok (x : Z) : Prop := 0 ≤ x < 2 ^ 32.
Definition u64_ok (x : Z) : Prop := 0 ≤ x < 2 ^ 64.

Definition u8_max : Z := 2 ^ 8 - 1.
Definition u16_max : Z := 2 ^ 16 - 1.
Definition u32_max : Z := 2 ^ 32 - 1.
Definition u64_max : Z := 2 ^ 64 - 1.

(** [x.checked_add(y)], [x.checked_mul(y)], [x.checked_sub(y)] at [u64];
    [x.saturating_sub(y)]. *)
Definition checked_add64 (x y : Z) : option Z :=
  if decide (x + y < 2 ^ 64) then Some (x + y) else None.
Definition checked_mul64 (x y : Z) : option Z :=
  if decide (x * y < 2 ^ 64) then Some (x * y) else None.
Definition checked_sub (x y : Z) : option Z :=
  if decide (y ≤ x) then Some (x - y) else None.
Definition saturating_sub (x y : Z) : Z := Z.max 0 (x - y).
(** [x.div_ceil(y)], [x.is_power_of_two()], [x.is_multiple_of(y)] *)
Definition div_ceil (x y : Z) : Z := (x + y - 1) / y.
Definition is_power_of_two (x : Z) : bool :=
  bool_decide (0 < x) && bool_decide (Z.land x (x - 1) = 0).
Definition is_multiple_of (x y : Z) : bool :=
  if decide (y = 0) then bool_decide (x = 0) else bool_decide (x mod y = 0).

(** [l.chunks(n)]; each round takes at least one element. *)
Fixpoint chunks_loop {A} (fuel : nat) (n : nat) (l : list A) : list (list A) :=
  match fuel, l with
  | O, _ | _, [] => []
  | S fuel, _ => take n l :: chunks_loop fuel n (drop n l)
  end.
Definition chunks {A} (n : Z) (l : list A) : list (list A) :=
  chunks_loop (length l) (Z.to_nat n) l.

(** ** Endianness: [to_le_bytes] / [from_le_bytes] and the BE pair *)
Fixpoint le_split (n : nat) (v : Z) : bytes :=
  match n with
  | O => []
  | S n => v mod 256 :: le_split n (v / 256)
  end.

Fixpoint le_combine (l : bytes) : Z :=
  match l with
  | [] => 0
  | b :: l => b + 256 * le_combine l
  end.

Definition be_split (n : nat) (v : Z) : bytes := rev (le_split n v).
Definition be_combine (l : bytes) : Z := le_combine (rev l).

(** ** Automation *)

Create HintDb ext4 discriminated.

(** Normalise lengths, then [lia]. *)
Create Rewrite HintDb zlen.

Lemma zlen_nil {A} : zlen (@nil A) = 0.
Proof. done. Qed.
Lemma zlen_cons {A} (x : A) l : zlen (x :: l) = 1 + zlen l.
Proof. unfold zlen; simpl; lia. Qed.
Lemma zlen_app {A} (l k : list A) : zlen (l ++ k) = zlen l + zlen k.
Proof. unfold zlen; rewrite length_app; lia. Qed.
Lemma zlen_nonneg {A} (l : list A) : 0 ≤ zlen l.
Proof. unfold zlen; lia. Qed.
Lemma zlen_rev {A} (l : list A) : zlen (rev l) = zlen l.
Proof. unfold zlen; by rewrite length_rev. Qed.
Lemma zlen_fmap {A B} (f : A → B) (l : list A) : zlen (f <$> l) = zlen l.
Proof. unfold zlen; by rewrite length_fmap. Qed.
Lemma zlen_le_split n v : zlen (le_split n v) = Z.of_nat n.
Proof. revert v; induction n; intros v; simpl; [done|]. rewrite zlen_cons, IHn. lia. Qed.
Lemma zlen_be_split n v : zlen (be_split n v) = Z.of_nat n.
Proof. unfold be_split; rewrite zlen_rev; apply zlen_le_split. Qed.
Lemma zlen_sub {A} (l : list A) off len :
  zlen (sub l off len) = Z.min (Z.max 0 len) (Z.max 0 (zlen l - Z.max 0 off)).
Proof. unfold zlen, sub; rewrite length_take, length_drop; lia. Qed.
Lemma zlen_zrep {A} n (x : A) : zlen (zrep n x) = Z.max 0 n.
Proof. unfold zlen, zrep; rewrite length_replicate; lia. Qed.
Lemma zlen_splice_gen {A} (l : list A) off src :
  zlen (splice l off src)
  = Z.min (Z.max 0 off) (zlen l) + zlen src + Z.max 0 (zlen l - Z.max 0 off - zlen src).
Proof.
  unfold zlen, splice. rewrite !length_app, length_take, length_drop. lia.
Qed.
Lemma zlen_splice {A} (l : list A) off src :
  0 ≤ off → off + zlen src ≤ zlen l → zlen (splice l off src) = zlen l.
Proof. intros; rewrite zlen_splice_gen. pose proof (zlen_nonneg src). lia. Qed.

#[export] Hint Rewrite @zlen_nil @zlen_cons @zlen_app @zlen_rev @zlen_fmap
  @zlen_le_split @zlen_be_split @zlen_sub @zlen_zrep : zlen.

(** Decide a closed proposition by evaluation. *)
Ltac by_compute :=
  match goal with
  | |- ?P => refine (bool_decide_eq_true_1 P _); vm_compute; reflexivity
  end.

(** Arithmetic goals about lengths of spliced, sliced and encoded buffers. *)
Ltac zl := repeat (rewrite ?zlen_splice_gen; autorewrite with zlen); lia.

Lemma div_ceil_nonneg x y : 0 ≤ x → 0 < y → 0 ≤ div_ceil x y.
Proof. intros. unfold div_ceil. apply Z.div_pos; lia. Qed.

Lemma div_ceil_mono x y d : 0 < d → x ≤ y → div_ceil x d ≤ div_ceil y d.
Proof. intros. unfold div_ceil. apply Z.div_le_mono; lia. Qed.

Lemma div_ceil_mult x d k : 0 < d → x ≤ k * d → div_ceil x d ≤ k.
Proof. intros. unfold div_ceil. assert ((x + d - 1) / d < k + 1); [|lia]. apply Z.div_lt_upper_bound; nia. Qed.

Lemma div_ceil_covers x d : 0 < d → x ≤ div_ceil x d * d.
Proof. intros Hd. unfold div_ceil. pose proof (Z.mod_pos_bound (x + d - 1) d Hd). pose proof (Z.div_mod (x + d - 1) d). lia. Qed.

Lemma div_ceil_anti x d d' : 0 ≤ x → 0 < d → d ≤ d' → div_ceil x d' ≤ div_ceil x d.
Proof.
  intros Hx Hd Hdd. apply div_ceil_mult; [lia|]. pose proof (div_ceil_covers x d Hd).
  pose proof (div_ceil_nonneg x d Hx Hd). nia.
Qed.

(** ** Chunks *)

Lemma chunks_loop_spec {A} fuel n (l : list A) : (1 ≤ n)%nat → (length l ≤ fuel)%nat →
  concat (chunks_loop fuel n l) = l ∧ Forall (λ c, c ≠ [] ∧ (length c ≤ n)%nat) (chunks_loop fuel n l).
Proof.
  intros Hn. revert l. induction fuel as [|fuel IH]; intros l Hl.
  { destruct l; [by split|simpl in Hl; lia]. }
  destruct l as [|x l]; [by split|]. cbn [chunks_loop].
  destruct (IH (drop n (x :: l))) as [IH1 IH2]; [rewrite length_drop; simpl in *; lia|].
  split; [cbn [concat]; by rewrite IH1, take_drop|]. constructor; [|done]. split.
  - destruct n; [lia|done].
  - rewrite length_take. lia.
Qed.

Lemma chunks_spec {A} n (l : list A) : 1 ≤ n →
  concat (chunks n l) = l ∧ Forall (λ c, c ≠ [] ∧ zlen c ≤ n) (chunks n l).
Proof.
  intros Hn. destruct (chunks_loop_spec (length l) (Z.to_nat n) l) as [H1 H2]; [lia|lia|].
  split; [done|]. eapply Forall_impl; [exact H2|]. intros c [Hc Hl]. split; [done|unfold zlen; lia].
Qed.

(** ** Runs of one element *)

Lemma zrep_app {A} n m (x : A) : 0 ≤ n → 0 ≤ m → zrep (n + m) x = zrep n x ++ zrep m x.
Proof. intros. unfold zrep. by rewrite Z2Nat.inj_add, replicate_add by lia. Qed.

Lemma zrep_split {A} n r (x : A) : 0 ≤ n ≤ r → zrep r x = zrep n x ++ zrep (r - n) x.
Proof. intros. rewrite <-zrep_app by lia. f_equal. lia. Qed.

Lemma zrep_0 {A} (x : A) : zrep 0 x = [].
Proof. done. Qed.
