(* ===== verification/Errors.v ===== *)
(** Errors: the driver's [Error] type with its errno table (src/src/error.rs),
    and the result monad every fallible operation of the development runs in.
    Besides [Ok] and [Err], a run can [Panic] (a slice out of range, an
    [unwrap] of [None]) or exhaust the fuel of a loop; the two extra outcomes
    are separate constructors so that their absence is a theorem. *)
From S2P Require Import Prelude.

(** ** [Error] *)

(** [Io] carries the raw OS error of the wrapped [io::Error], if it has one. *)
Inductive Error :=
  | Io (raw_os_error : option Z)
  | BadMagic (found expected : Z)
  | BadChecksum (what : string)
  | UnsupportedIncompat (bits : Z)
  | UnsupportedRoCompat (bits : Z)
  | NotFound
  | NotADirectory
  | IsADirectory
  | AlreadyExists
  | DirectoryNotEmpty
  | ReadOnly
  | NameTooLong
  | NoSpaceLeftOnDevice
  | InvalidArgument (msg : string)
  | InvalidInode (n : Z)
  | InvalidBlock (n : Z)
  | OutOfBounds
  | CorruptExtentTree (msg : string)
  | CorruptDirEntry (msg : string)
  | Corrupt (msg : string)
  | TooManyLinks
  | Unsupported (msg : string)
  | JournalNotReplayed
  | Stale.

#[global] Instance Error_eq_dec : EqDecision Error.
Proof. solve_decision. Defined.

Module errno.
Definition ENOENT := 2.
Definition EIO := 5.
Definition EEXIST := 17.
Definition ENOTDIR := 20.
Definition EISDIR := 21.
Definition EINVAL := 22.
Definition EROFS := 30.
Definition EMLINK := 31.
Definition ENOSPC := 28.
Definition ENAMETOOLONG := 63.
Definition ENOTSUP := 45.
Definition ENOTEMPTY := 66.
Definition ESTALE := 70.
End errno.
Import errno.

Definition to_errno (e : Error) : Z :=
  match e with
  | Io raw => default EIO raw
  | NotFound => ENOENT
  | NotADirectory => ENOTDIR
  | IsADirectory => EISDIR
  | AlreadyExists => EEXIST
  | DirectoryNotEmpty => ENOTEMPTY
  | ReadOnly | JournalNotReplayed => EROFS
  | NameTooLong => ENAMETOOLONG
  | NoSpaceLeftOnDevice => ENOSPC
  | TooManyLinks => EMLINK
  | InvalidArgument _ => EINVAL
  | InvalidInode _ | InvalidBlock _ | OutOfBounds => EINVAL
  | BadMagic _ _ | BadChecksum _ | CorruptExtentTree _ | CorruptDirEntry _
  | Corrupt _ => EIO
  | UnsupportedIncompat _ | UnsupportedRoCompat _ | Unsupported _ => ENOTSUP
  | Stale => ESTALE
  end.

(** ** The result monad *)

Inductive res (A : Type) : Type :=
  | Ok (a : A)
  | Err (e : Error)
  | Panic
  | OutOfFuel.
Arguments Ok {A} a.
Arguments Err {A} e.
Arguments Panic {A}.
Arguments OutOfFuel {A}.

#[global] Instance res_eq_dec `{EqDecision A} : EqDecision (res A).
Proof. solve_decision. Defined.

#[global] Instance res_ret : MRet res := λ A a, Ok a.
#[global] Instance res_bind : MBind res := λ A B f m,
  match m with
  | Ok a => f a
  | Err e => Err e
  | Panic => Panic
  | OutOfFuel => OutOfFuel
  end.
#[global] Instance res_fmap : FMap res := λ A B f m, m ≫= λ a, Ok (f a).

(** [o.ok_or(e)?] and [o.unwrap()] / [o.expect(..)] *)
Definition ok_or {A} (o : option A) (e : Error) : res A :=
  match o with Some a => Ok a | None => Err e end.
Definition unwrap {A} (o : option A) : res A :=
  match o with Some a => Ok a | None => Panic end.
(** [r.is_ok()] *)
Definition is_ok {A} (m : res A) : bool := match m with Ok _ => true | _ => false end.

(** Outcomes a caller can see: a value or an error, never a panic and never
    an exhausted loop. *)
Definition returns {A} (m : res A) : Prop :=
  match m with Ok _ | Err _ => True | Panic | OutOfFuel => False end.

(** [for x in l { .. }] with a fallible body and an accumulator. *)
Fixpoint foldM {A B} (f : B → A → res B) (b : B) (l : list A) : res B :=
  match l with
  | [] => Ok b
  | x :: l => b ← f b x; foldM f b l
  end.

(** [.map(f).collect::<Result<Vec<_>>>()], and the loop that pushes. *)
Fixpoint traverse {A B} (f : A → res B) (l : list A) : res (list B) :=
  match l with
  | [] => Ok []
  | x :: l => y ← f x; ys ← traverse f l; Ok (y :: ys)
  end.

(** ** Lemmas *)

Lemma bind_Ok {A B} (a : A) (f : A → res B) : (Ok a ≫= f) = f a.
Proof. done. Qed.
Lemma bind_ok_inv {A B} (m : res A) (f : A → res B) b :
  (m ≫= f) = Ok b → ∃ a, m = Ok a ∧ f a = Ok b.
Proof. destruct m; simpl; intros; try discriminate; eauto. Qed.
Lemma bind_returns {A B} (m : res A) (f : A → res B) :
  returns m → (∀ a, m = Ok a → returns (f a)) → returns (m ≫= f).
Proof. destruct m; simpl; auto. Qed.
Lemma ok_or_returns {A} (o : option A) e : returns (ok_or o e).
Proof. by destruct o. Qed.
Lemma ok_or_ok {A} (o : option A) e a : ok_or o e = Ok a → o = Some a.
Proof. destruct o; simpl; congruence. Qed.

Lemma foldM_app {A B} (f : B → A → res B) b l k :
  foldM f b (l ++ k) = (foldM f b l ≫= λ b', foldM f b' k).
Proof.
  revert b; induction l as [|x l IH]; intros b; simpl; [done|].
  destruct (f b x); simpl; auto.
Qed.

Lemma foldM_returns {A B} (P : B → Prop) (f : B → A → res B) l :
  (∀ b x, x ∈ l → P b → returns (f b x) ∧ ∀ b', f b x = Ok b' → P b') →
  ∀ b, P b → returns (foldM f b l) ∧ ∀ b', foldM f b l = Ok b' → P b'.
Proof.
  induction l as [|x l IH]; intros Hf b Hb; simpl.
  { split; [done|]. intros b' [= <-]. done. }
  destruct (Hf b x ltac:(set_solver) Hb) as [Hr Hp].
  destruct (f b x) as [b1|e| |] eqn:E; simpl in *; try done.
  apply IH; [|by apply Hp]. intros b0 y Hy. apply Hf. set_solver.
Qed.

(** Loops over a range of integers, by an invariant indexed by the counter. *)
Lemma foldM_seqZ_ok {B} (P : Z → B → Prop) (f : B → Z → res B) a n b0 :
  0 ≤ n → P a b0 →
  (∀ k b, a ≤ k < a + n → P k b → ∃ b', f b k = Ok b' ∧ P (k + 1) b') →
  ∃ b', foldM f b0 (seqZ a n) = Ok b' ∧ P (a + n) b'.
Proof.
  intros Hn. revert a b0. pattern n. apply natlike_ind; [| |done].
  { intros a b0 H0 _. exists b0. rewrite seqZ_nil by lia. by rewrite Z.add_0_r. }
  clear n Hn. intros n Hn IH a b0 H0 Hstep.
  rewrite seqZ_cons by lia. simpl. replace (Z.pred (Z.succ n)) with n by lia.
  destruct (Hstep a b0 ltac:(lia) H0) as (b1 & E & H1). rewrite E. simpl.
  replace (Z.succ a) with (a + 1) by lia.
  destruct (IH (a + 1) b1 H1) as (b' & E' & H').
  { intros k b Hk. apply Hstep. lia. }
  exists b'. split; [done|]. replace (a + Z.succ n) with (a + 1 + n) by lia. done.
Qed.

Lemma foldM_seqZ_returns {B} (P : Z → B → Prop) (f : B → Z → res B) a n b0 :
  0 ≤ n → P a b0 →
  (∀ k b, a ≤ k < a + n → P k b → returns (f b k) ∧ ∀ b', f b k = Ok b' → P (k + 1) b') →
  returns (foldM f b0 (seqZ a n)) ∧ ∀ b', foldM f b0 (seqZ a n) = Ok b' → P (a + n) b'.
Proof.
  intros Hn. revert a b0. pattern n. apply natlike_ind; [| |done].
  { intros a b0 H0 _. rewrite seqZ_nil by lia. split; [done|]. intros b' [= <-].
    by rewrite Z.add_0_r. }
  clear n Hn. intros n Hn IH a b0 H0 Hstep.
  rewrite seqZ_cons by lia. simpl. replace (Z.pred (Z.succ n)) with n by lia.
  destruct (Hstep a b0 ltac:(lia) H0) as [Hr Hp].
  destruct (f b0 a) as [b1|e| |]; simpl in *; try done.
  replace (Z.succ a) with (a + 1) by lia. replace (a + Z.succ n) with (a + 1 + n) by lia.
  apply IH; [by apply Hp|]. intros k b Hk. apply Hstep. lia.
Qed.

Lemma traverse_app {A B} (f : A → res B) l k :
  traverse f (l ++ k) = (ys ← traverse f l; zs ← traverse f k; Ok (ys ++ zs)).
Proof.
  induction l as [|x l IH]; simpl.
  { by destruct (traverse f k). }
  destruct (f x); simpl; auto. rewrite IH.
  destruct (traverse f l); simpl; auto. by destruct (traverse f k).
Qed.

Lemma traverse_ok {A B} (f : A → res B) (g : A → B) l :
  (∀ x, x ∈ l → f x = Ok (g x)) → traverse f l = Ok (g <$> l).
Proof.
  induction l as [|x l IH]; intros H; simpl; [done|].
  rewrite H by set_solver. simpl. rewrite IH by set_solver. done.
Qed.

Lemma traverse_seqZ {B} (f : Z → res B) a (l : list B) :
  (∀ k x, l !! k = Some x → f (a + Z.of_nat k) = Ok x) → traverse f (seqZ a (zlen l)) = Ok l.
Proof.
  revert a. induction l as [|x l IH]; intros a H; [done|].
  rewrite zlen_cons, seqZ_cons by (pose proof (zlen_nonneg l); lia). simpl.
  pose proof (H 0%nat x eq_refl) as H0. rewrite Z.add_0_r in H0. rewrite H0. simpl.
  replace (Z.pred (1 + zlen l)) with (zlen l) by lia. rewrite IH; [done|].
  intros k y Hk. rewrite <-(H (S k) y Hk). f_equal. lia.
Qed.

Lemma traverse_ok_inv {A B} (f : A → res B) l ys :
  traverse f l = Ok ys → Forall2 (λ x y, f x = Ok y) l ys.
Proof.
  revert ys; induction l as [|x l IH]; intros ys; simpl; [intros [= <-]; constructor|].
  intros (y & Hy & H)%bind_ok_inv. apply bind_ok_inv in H as (ys' & H & [= <-]).
  constructor; auto.
Qed.

Lemma traverse_returns {A B} (f : A → res B) l :
  (∀ x, x ∈ l → returns (f x)) → returns (traverse f l).
Proof.
  induction l as [|x l IH]; intros H; simpl; [done|].
  apply bind_returns; [apply H; set_solver|]. intros y _.
  apply bind_returns; [apply IH; set_solver|]. done.
Qed.

(** ** Supplies

    What [k] calls of a closure [FnMut() -> Result<u64>] hand out, and the state
    they leave it in. *)
Fixpoint draw {A} (alloc : A → res (Z * A)) (k : nat) (a : A) : res (list Z * A) :=
  match k with
  | O => Ok ([], a)
  | S k => '(b, a) ← alloc a; '(blks, a) ← draw alloc k a; Ok (b :: blks, a)
  end.

Lemma draw_split {A} (alloc : A → res (Z * A)) k1 k2 a blks a' : draw alloc (k1 + k2) a = Ok (blks, a') →
  ∃ b1 b2 am, draw alloc k1 a = Ok (b1, am) ∧ draw alloc k2 am = Ok (b2, a') ∧ blks = b1 ++ b2.
Proof.
  revert a blks. induction k1 as [|k1 IH]; intros a blks H; [by exists [], blks, a|].
  cbn [Nat.add draw] in *. destruct (alloc a) as [[b a1]| | |]; try done. cbn [mbind res_bind] in *.
  destruct (draw alloc (k1 + k2) a1) as [[r a2]| | |] eqn:E; try done. cbn [mbind res_bind] in H. injection H as <- ->.
  destruct (IH a1 r E) as (b1 & b2 & am & -> & H2 & ->). by exists (b :: b1), b2, am.
Qed.

Lemma draw_join {A} (alloc : A → res (Z * A)) k1 k2 a b1 b2 am a' : draw alloc k1 a = Ok (b1, am) →
  draw alloc k2 am = Ok (b2, a') → draw alloc (k1 + k2) a = Ok (b1 ++ b2, a').
Proof.
  revert a b1. induction k1 as [|k1 IH]; intros a b1 H1 H2; [by injection H1 as <- <-|].
  cbn [Nat.add draw] in *. destruct (alloc a) as [[b a1]| | |]; try done. cbn [mbind res_bind] in *.
  destruct (draw alloc k1 a1) as [[r a2]| | |] eqn:E; try done. cbn [mbind res_bind] in H1. injection H1 as <- ->.
  rewrite (IH a1 r E H2). done.
Qed.

Lemma draw_one {A} (alloc : A → res (Z * A)) a b a' : alloc a = Ok (b, a') → draw alloc 1 a = Ok ([b], a').
Proof. intros E. cbn [draw]. by rewrite E. Qed.

Lemma draw_length {A} (alloc : A → res (Z * A)) k a blks a' : draw alloc k a = Ok (blks, a') → length blks = k.
Proof.
  revert a blks. induction k as [|k IH]; intros a blks H; [by injection H as <- <-|].
  cbn [draw] in *. destruct (alloc a) as [[b a1]| | |]; try done. cbn [mbind res_bind] in *.
  destruct (draw alloc k a1) as [[r a2]| | |] eqn:E; try done. cbn [mbind res_bind] in H. injection H as <- ->.
  simpl. by rewrite (IH a1 r E).
Qed.

(** Peel the binds and tests of a computation known to return [Ok]. *)
Ltac res_inv :=
  repeat match goal with
  | H : (_ ≫= _) = Ok _ |- _ =>
      let a := fresh "a" in let Ha := fresh "Ha" in
      apply bind_ok_inv in H as (a & Ha & H)
  | H : Ok _ = Ok _ |- _ => injection H as H; subst
  | H : Err _ = Ok _ |- _ => discriminate H
  | H : Panic = Ok _ |- _ => discriminate H
  | H : OutOfFuel = Ok _ |- _ => discriminate H
  | H : ok_or _ _ = Ok _ |- _ => apply ok_or_ok in H
  | H : (if decide _ then _ else _) = Ok _ |- _ => case_decide
  | H : (if bool_decide _ then _ else _) = Ok _ |- _ => case_bool_decide
  end.

#[export] Hint Resolve ok_or_returns : ext4.

(** errno is never zero except through a raw OS error of zero: an error
    always surfaces as a failure. *)
Lemma to_errno_pos e :
  (∀ r, e = Io (Some r) → 0 < r) → 0 < to_errno e.
Proof. intros H. destruct e as [[r|]| | | | | | | | | | | | | | | | | | | | | | |]; simpl; auto; done. Qed.
