(* ===== verification/Bytes.v ===== *)
(** Bytes: reading and writing fields of byte buffers.  [slice], [get] and
    [put] are the checked accesses [&b[off..off+len]], [b[i]] and
    [b[off..off+n].copy_from_slice(..)]: out of range they panic.  The pure
    counterparts [sub], [splice], [le16].. and the lemmas relating the two
    carry every codec round trip of the development. *)
From S2P Require Import Prelude Errors.

(** ** Checked accesses *)

Definition slice {A} (l : list A) (off len : Z) : res (list A) :=
  if decide (0 ≤ off ∧ 0 ≤ len ∧ off + len ≤ zlen l) then Ok (sub l off len) else Panic.

Definition get {A} (l : list A) (i : Z) : res A :=
  if decide (0 ≤ i) then unwrap (l !! Z.to_nat i) else Panic.

Definition put {A} (l : list A) (off : Z) (src : list A) : res (list A) :=
  if decide (0 ≤ off ∧ off + zlen src ≤ zlen l) then Ok (splice l off src) else Panic.

(** Fields, unchecked. *)
Definition le16 (b : bytes) (off : Z) : Z := le_combine (sub b off 2).
Definition le32 (b : bytes) (off : Z) : Z := le_combine (sub b off 4).
Definition le64 (b : bytes) (off : Z) : Z := le_combine (sub b off 8).
Definition be16 (b : bytes) (off : Z) : Z := be_combine (sub b off 2).
Definition be32 (b : bytes) (off : Z) : Z := be_combine (sub b off 4).
Definition be64 (b : bytes) (off : Z) : Z := be_combine (sub b off 8).
Definition byte_at (b : bytes) (off : Z) : Z := default 0 (b !! Z.to_nat off).

(** [uN::from_le_bytes(b[off..off+n].try_into().unwrap())] *)
Definition u16_le (b : bytes) (off : Z) : res Z := s ← slice b off 2; Ok (le_combine s).
Definition u32_le (b : bytes) (off : Z) : res Z := s ← slice b off 4; Ok (le_combine s).
Definition u64_le (b : bytes) (off : Z) : res Z := s ← slice b off 8; Ok (le_combine s).
Definition u16_be (b : bytes) (off : Z) : res Z := s ← slice b off 2; Ok (be_combine s).
Definition u32_be (b : bytes) (off : Z) : res Z := s ← slice b off 4; Ok (be_combine s).
Definition u64_be (b : bytes) (off : Z) : res Z := s ← slice b off 8; Ok (be_combine s).

(** [b[off..off+n].copy_from_slice(&v.to_le_bytes())] *)
Definition put_u16 (b : bytes) (off v : Z) : res bytes := put b off (le_split 2 v).
Definition put_u32 (b : bytes) (off v : Z) : res bytes := put b off (le_split 4 v).
Definition put_u64 (b : bytes) (off v : Z) : res bytes := put b off (le_split 8 v).
Definition put_be16 (b : bytes) (off v : Z) : res bytes := put b off (be_split 2 v).
Definition put_be32 (b : bytes) (off v : Z) : res bytes := put b off (be_split 4 v).
Definition put_be64 (b : bytes) (off v : Z) : res bytes := put b off (be_split 8 v).

(** ** [sub] and [splice] by position *)

Lemma lookup_sub {A} (l : list A) off len i :
  sub l off len !! i =
    if decide (Z.of_nat i < len) then l !! (Z.to_nat off + i)%nat else None.
Proof.
  unfold sub. case_decide.
  - rewrite lookup_take_lt by lia. apply lookup_drop.
  - apply lookup_take_ge. lia.
Qed.

Lemma lookup_splice {A} (l : list A) off src i :
  0 ≤ off → off + zlen src ≤ zlen l →
  splice l off src !! i =
    if decide (off ≤ Z.of_nat i < off + zlen src)
    then src !! (i - Z.to_nat off)%nat else l !! i.
Proof.
  unfold splice, zlen. intros H1 H2.
  assert (Hl : length (take (Z.to_nat off) l) = Z.to_nat off) by (rewrite length_take; lia).
  destruct (decide (Z.of_nat i < off)).
  { rewrite lookup_app_l by lia. rewrite lookup_take_lt by lia.
    rewrite decide_False by lia. done. }
  rewrite lookup_app_r by lia. rewrite Hl.
  case_decide.
  - by rewrite lookup_app_l by lia.
  - rewrite lookup_app_r by lia. rewrite lookup_drop. f_equal. lia.
Qed.

Ltac by_pos :=
  apply list_eq; intros ?i;
  repeat (rewrite lookup_sub || rewrite lookup_splice by (rewrite ?zlen_splice by lia; lia));
  repeat case_decide; try done; try lia; try (f_equal; lia).

Lemma lookup_lt_zlen {A} (l : list A) i x : l !! i = Some x → Z.of_nat i < zlen l.
Proof. intros H%lookup_lt_Some. unfold zlen. lia. Qed.
Lemma lookup_ge_zlen {A} (l : list A) i : zlen l ≤ Z.of_nat i → l !! i = None.
Proof. unfold zlen. intros. apply lookup_ge_None. lia. Qed.

Lemma sub_splice_same {A} (l : list A) off src :
  0 ≤ off → off + zlen src ≤ zlen l → sub (splice l off src) off (zlen src) = src.
Proof.
  intros. by_pos. symmetry. apply lookup_ge_zlen. lia.
Qed.

Lemma sub_splice_same_len {A} (l : list A) off src n :
  n = zlen src → 0 ≤ off → off + n ≤ zlen l → sub (splice l off src) off n = src.
Proof. intros ->. apply sub_splice_same. Qed.

Lemma sub_splice_disjoint {A} (l : list A) off src o n :
  0 ≤ off → off + zlen src ≤ zlen l → 0 ≤ o →
  o + n ≤ off ∨ off + zlen src ≤ o → sub (splice l off src) o n = sub l o n.
Proof. intros. by_pos. Qed.

(** A read inside the written range sees the source. *)
Lemma sub_splice_inside {A} (l : list A) off src o n :
  0 ≤ off → off + zlen src ≤ zlen l → off ≤ o → 0 ≤ n → o + n ≤ off + zlen src →
  sub (splice l off src) o n = sub src (o - off) n.
Proof. intros. by_pos. Qed.

Lemma sub_sub {A} (l : list A) o1 n1 o2 n2 :
  0 ≤ o1 → 0 ≤ o2 → o2 + n2 ≤ n1 → sub (sub l o1 n1) o2 n2 = sub l (o1 + o2) n2.
Proof. intros. by_pos. Qed.

Lemma sub_all {A} (l : list A) n : zlen l ≤ n → sub l 0 n = l.
Proof. intros. unfold sub. simpl. rewrite drop_0. apply take_ge. unfold zlen in *. lia. Qed.

Lemma sub_0 {A} (l : list A) off n : n ≤ 0 → sub l off n = [].
Proof. intros. unfold sub. by replace (Z.to_nat n) with O by lia. Qed.

Lemma sub_app_l {A} (l k : list A) off n :
  0 ≤ off → off + n ≤ zlen l → sub (l ++ k) off n = sub l off n.
Proof.
  intros H1 H2. apply list_eq. intros i. rewrite !lookup_sub. case_decide; [|done].
  apply lookup_app_l. unfold zlen in *. lia.
Qed.

Lemma sub_app_r {A} (l k : list A) off n :
  zlen l ≤ off → sub (l ++ k) off n = sub k (off - zlen l) n.
Proof.
  intros H1. apply list_eq. intros i. rewrite !lookup_sub. case_decide; [|done].
  rewrite lookup_app_r by (unfold zlen in *; lia). f_equal. unfold zlen in *. lia.
Qed.

(** A buffer read in two adjacent pieces. *)
Lemma sub_split {A} (l : list A) off n m :
  0 ≤ off → 0 ≤ n → 0 ≤ m → sub l off (n + m) = sub l off n ++ sub l (off + n) m.
Proof.
  intros. unfold sub.
  replace (Z.to_nat (n + m)) with (Z.to_nat n + Z.to_nat m)%nat by lia.
  rewrite <-(take_take_drop (drop _ l)). rewrite drop_drop.
  do 3 f_equal. lia.
Qed.

Lemma splice_all {A} (l src : list A) : zlen src = zlen l → splice l 0 src = src.
Proof.
  intros H. unfold splice. simpl. rewrite drop_ge by (unfold zlen in H; lia).
  apply app_nil_r.
Qed.

Lemma splice_comm {A} (l : list A) o1 s1 o2 s2 :
  0 ≤ o1 → 0 ≤ o2 → o1 + zlen s1 ≤ zlen l → o2 + zlen s2 ≤ zlen l →
  o1 + zlen s1 ≤ o2 ∨ o2 + zlen s2 ≤ o1 →
  splice (splice l o1 s1) o2 s2 = splice (splice l o2 s2) o1 s1.
Proof.
  intros. apply list_eq. intros i.
  rewrite !lookup_splice by (rewrite ?zlen_splice by lia; lia).
  repeat case_decide; try done; lia.
Qed.

Lemma splice_overwrite {A} (l : list A) off s1 s2 :
  0 ≤ off → off + zlen s2 ≤ zlen l → zlen s1 = zlen s2 →
  splice (splice l off s1) off s2 = splice l off s2.
Proof.
  intros. apply list_eq. intros i.
  rewrite !lookup_splice by (rewrite ?zlen_splice by lia; lia).
  repeat case_decide; try done; lia.
Qed.

Lemma bytes_ok_sub l off n : bytes_ok l → bytes_ok (sub l off n).
Proof. intros. by apply Forall_take, Forall_drop. Qed.
Lemma bytes_ok_splice l off src : bytes_ok l → bytes_ok src → bytes_ok (splice l off src).
Proof.
  intros. unfold splice. apply Forall_app; split; [by apply Forall_take|].
  apply Forall_app; split; [done|by apply Forall_drop].
Qed.
Lemma bytes_ok_app l k : bytes_ok (l ++ k) ↔ bytes_ok l ∧ bytes_ok k.
Proof. apply Forall_app. Qed.
Lemma bytes_ok_zrep n x : 0 ≤ x < 256 → bytes_ok (zrep n x).
Proof. intros. by apply Forall_replicate. Qed.
Lemma bytes_ok_le_split n v : bytes_ok (le_split n v).
Proof.
  revert v; induction n; intros v; simpl; constructor; [|apply IHn].
  apply Z.mod_pos_bound. lia.
Qed.
Lemma bytes_ok_rev l : bytes_ok l → bytes_ok (rev l).
Proof. unfold bytes_ok. rewrite !Forall_forall. intros H x Hx. apply H. by apply in_rev_iff || (apply list_elem_of_In in Hx; apply list_elem_of_In; by apply in_rev). Qed.

Lemma bytes_ok_be n v : bytes_ok (be_split n v).
Proof. apply bytes_ok_rev, bytes_ok_le_split. Qed.

#[export] Hint Resolve bytes_ok_sub bytes_ok_splice bytes_ok_le_split bytes_ok_rev bytes_ok_be
  bytes_ok_zrep : ext4.

(** ** Little- and big-endian codecs *)

Lemma le_combine_bound l : bytes_ok l → 0 ≤ le_combine l < 256 ^ zlen l.
Proof.
  induction 1 as [|b l Hb Hl IH]; simpl; [done|].
  rewrite zlen_cons, Z.pow_add_r by (pose proof (zlen_nonneg l); lia). lia.
Qed.

Lemma le_combine_split n v : 0 ≤ v < 256 ^ Z.of_nat n → le_combine (le_split n v) = v.
Proof.
  revert v; induction n as [|n IH]; intros v Hv; simpl; [simpl in Hv; lia|].
  replace (Z.of_nat (S n)) with (1 + Z.of_nat n) in Hv by lia.
  rewrite Z.pow_add_r in Hv by lia.
  rewrite IH; [pose proof (Z.div_mod v 256); lia|].
  split; [apply Z.div_pos; lia|apply Z.div_lt_upper_bound; lia].
Qed.

(** Writing truncates: the bytes of [v] are those of [v mod 256^n]. *)
Lemma le_combine_split_mod n v : le_combine (le_split n v) = v mod 256 ^ Z.of_nat n.
Proof.
  revert v; induction n as [|n IH]; intros v; simpl.
  { by rewrite Z.mod_1_r. }
  rewrite IH. replace (256 ^ Z.of_nat (S n)) with (256 * 256 ^ Z.of_nat n).
  2:{ replace (Z.of_nat (S n)) with (1 + Z.of_nat n) by lia. rewrite Z.pow_add_r; lia. }
  rewrite Z.rem_mul_r by (try apply Z.pow_pos_nonneg; lia). done.
Qed.

Lemma le_split_combine l : bytes_ok l → le_split (length l) (le_combine l) = l.
Proof.
  induction 1 as [|b l Hb Hl IH]; simpl; [done|].
  assert (E : b + 256 * le_combine l = b + le_combine l * 256) by lia.
  rewrite E, Z.mod_add, Z.mod_small by lia.
  rewrite Z.div_add, Z.div_small by lia. by rewrite Z.add_0_l, IH.
Qed.

Lemma le_split_combine_len n l : bytes_ok l → zlen l = Z.of_nat n → le_split n (le_combine l) = l.
Proof.
  intros H Hl. rewrite <-(le_split_combine l) at 2 by done. f_equal. unfold zlen in Hl. lia.
Qed.

Lemma be_combine_split n v : 0 ≤ v < 256 ^ Z.of_nat n → be_combine (be_split n v) = v.
Proof. unfold be_combine, be_split. rewrite rev_involutive. apply le_combine_split. Qed.

Lemma le16_range b off : bytes_ok b → 0 ≤ le16 b off < 2 ^ 16.
Proof.
  intros H. pose proof (le_combine_bound (sub b off 2) ltac:(auto with ext4)) as Hb.
  assert (zlen (sub b off 2) ≤ 2) by (rewrite zlen_sub; lia).
  assert (256 ^ zlen (sub b off 2) ≤ 256 ^ 2) by (apply Z.pow_le_mono_r; lia).
  unfold le16. change (2 ^ 16) with (256 ^ 2). lia.
Qed.
Lemma le32_range b off : bytes_ok b → 0 ≤ le32 b off < 2 ^ 32.
Proof.
  intros H. pose proof (le_combine_bound (sub b off 4) ltac:(auto with ext4)) as Hb.
  assert (zlen (sub b off 4) ≤ 4) by (rewrite zlen_sub; lia).
  assert (256 ^ zlen (sub b off 4) ≤ 256 ^ 4) by (apply Z.pow_le_mono_r; lia).
  unfold le32. change (2 ^ 32) with (256 ^ 4). lia.
Qed.
Lemma le64_range b off : bytes_ok b → 0 ≤ le64 b off < 2 ^ 64.
Proof.
  intros H. pose proof (le_combine_bound (sub b off 8) ltac:(auto with ext4)) as Hb.
  assert (zlen (sub b off 8) ≤ 8) by (rewrite zlen_sub; lia).
  assert (256 ^ zlen (sub b off 8) ≤ 256 ^ 8) by (apply Z.pow_le_mono_r; lia).
  unfold le64. change (2 ^ 64) with (256 ^ 8). lia.
Qed.
Lemma be32_range b off : bytes_ok b → 0 ≤ be32 b off < 2 ^ 32.
Proof.
  intros H. pose proof (le_combine_bound (rev (sub b off 4)) ltac:(auto with ext4)) as Hb.
  assert (zlen (rev (sub b off 4)) ≤ 4) by (rewrite zlen_rev, zlen_sub; lia).
  assert (256 ^ zlen (rev (sub b off 4)) ≤ 256 ^ 4) by (apply Z.pow_le_mono_r; lia).
  unfold be32, be_combine. change (2 ^ 32) with (256 ^ 4). lia.
Qed.

Lemma byte_at_range b off : bytes_ok b → 0 ≤ byte_at b off < 256.
Proof.
  intros H. unfold byte_at. destruct (b !! _) eqn:E; simpl; [|lia].
  by apply (Forall_lookup_1 _ _ _ _ H E).
Qed.

(** ** The checked accesses, when in range *)

Lemma slice_ok {A} (l : list A) off len :
  0 ≤ off → 0 ≤ len → off + len ≤ zlen l → slice l off len = Ok (sub l off len).
Proof. intros. unfold slice. by rewrite decide_True by lia. Qed.
Lemma slice_panic {A} (l : list A) off len :
  zlen l < off + len → slice l off len = Panic.
Proof. intros. unfold slice. by rewrite decide_False by lia. Qed.
Lemma slice_inv {A} (l : list A) off len s :
  slice l off len = Ok s → 0 ≤ off ∧ 0 ≤ len ∧ off + len ≤ zlen l ∧ s = sub l off len.
Proof. unfold slice. case_decide; [|done]. intros [= <-]. lia || naive_solver. Qed.
Lemma put_ok {A} (l : list A) off src :
  0 ≤ off → off + zlen src ≤ zlen l → put l off src = Ok (splice l off src).
Proof. intros. unfold put. by rewrite decide_True by lia. Qed.
Lemma put_inv {A} (l : list A) off src l' :
  put l off src = Ok l' → 0 ≤ off ∧ off + zlen src ≤ zlen l ∧ l' = splice l off src.
Proof. unfold put. case_decide; [|done]. intros [= <-]. naive_solver. Qed.
Lemma get_ok {A} (l : list A) i x : 0 ≤ i → l !! Z.to_nat i = Some x → get l i = Ok x.
Proof. intros H E. unfold get. rewrite decide_True by lia. by rewrite E. Qed.
Lemma get_byte b i : 0 ≤ i < zlen b → get b i = Ok (byte_at b i).
Proof.
  intros H. unfold get, byte_at. rewrite decide_True by lia.
  destruct (b !! Z.to_nat i) eqn:E; [done|].
  apply lookup_ge_None in E. unfold zlen in *. lia.
Qed.
Lemma get_inv {A} (l : list A) i x :
  get l i = Ok x → 0 ≤ i < zlen l ∧ l !! Z.to_nat i = Some x.
Proof.
  unfold get. case_decide; [|done]. destruct (l !! Z.to_nat i) eqn:E; simpl; [|done].
  intros [= <-]. apply lookup_lt_zlen in E as ?. split; [lia|done].
Qed.

Lemma u16_le_ok b off : 0 ≤ off → off + 2 ≤ zlen b → u16_le b off = Ok (le16 b off).
Proof. intros. unfold u16_le. by rewrite slice_ok by lia. Qed.
Lemma u32_le_ok b off : 0 ≤ off → off + 4 ≤ zlen b → u32_le b off = Ok (le32 b off).
Proof. intros. unfold u32_le. by rewrite slice_ok by lia. Qed.
Lemma u64_le_ok b off : 0 ≤ off → off + 8 ≤ zlen b → u64_le b off = Ok (le64 b off).
Proof. intros. unfold u64_le. by rewrite slice_ok by lia. Qed.
Lemma u32_be_ok b off : 0 ≤ off → off + 4 ≤ zlen b → u32_be b off = Ok (be32 b off).
Proof. intros. unfold u32_be. by rewrite slice_ok by lia. Qed.
Lemma u16_be_ok b off : 0 ≤ off → off + 2 ≤ zlen b → u16_be b off = Ok (be16 b off).
Proof. intros. unfold u16_be. by rewrite slice_ok by lia. Qed.
Lemma u64_be_ok b off : 0 ≤ off → off + 8 ≤ zlen b → u64_be b off = Ok (be64 b off).
Proof. intros. unfold u64_be. by rewrite slice_ok by lia. Qed.
Lemma put_be16_ok b off v : 0 ≤ off → off + 2 ≤ zlen b → put_be16 b off v = Ok (splice b off (be_split 2 v)).
Proof. intros. unfold put_be16. rewrite put_ok; autorewrite with zlen; auto; lia. Qed.
Lemma put_be64_ok b off v : 0 ≤ off → off + 8 ≤ zlen b → put_be64 b off v = Ok (splice b off (be_split 8 v)).
Proof. intros. unfold put_be64. rewrite put_ok; autorewrite with zlen; auto; lia. Qed.
Lemma put_u16_ok b off v : 0 ≤ off → off + 2 ≤ zlen b → put_u16 b off v = Ok (splice b off (le_split 2 v)).
Proof. intros. unfold put_u16. rewrite put_ok; autorewrite with zlen; auto; lia. Qed.
Lemma put_u32_ok b off v : 0 ≤ off → off + 4 ≤ zlen b → put_u32 b off v = Ok (splice b off (le_split 4 v)).
Proof. intros. unfold put_u32. rewrite put_ok; autorewrite with zlen; auto; lia. Qed.
Lemma put_u64_ok b off v : 0 ≤ off → off + 8 ≤ zlen b → put_u64 b off v = Ok (splice b off (le_split 8 v)).
Proof. intros. unfold put_u64. rewrite put_ok; autorewrite with zlen; auto; lia. Qed.
Lemma put_be32_ok b off v : 0 ≤ off → off + 4 ≤ zlen b → put_be32 b off v = Ok (splice b off (be_split 4 v)).
Proof. intros. unfold put_be32. rewrite put_ok; autorewrite with zlen; auto; lia. Qed.

(** Resolve every checked access of the goal whose bounds [lia] can see. *)
Ltac io :=
  repeat first
    [ rewrite u16_le_ok by (autorewrite with zlen; lia)
    | rewrite u32_le_ok by (autorewrite with zlen; lia)
    | rewrite u64_le_ok by (autorewrite with zlen; lia)
    | rewrite u32_be_ok by (autorewrite with zlen; lia)
    | rewrite u16_be_ok by (autorewrite with zlen; lia)
    | rewrite u64_be_ok by (autorewrite with zlen; lia)
    | rewrite put_be16_ok by (autorewrite with zlen; lia)
    | rewrite put_be64_ok by (autorewrite with zlen; lia)
    | rewrite put_u16_ok by (autorewrite with zlen; lia)
    | rewrite put_u32_ok by (autorewrite with zlen; lia)
    | rewrite put_u64_ok by (autorewrite with zlen; lia)
    | rewrite put_be32_ok by (autorewrite with zlen; lia)
    | rewrite slice_ok by (autorewrite with zlen; lia)
    | rewrite put_ok by (autorewrite with zlen; lia)
    | rewrite get_byte by (autorewrite with zlen; lia)
    | progress rewrite ?bind_Ok ].

(** ** Fields of a buffer after a write *)

Lemma le16_splice b off v :
  0 ≤ off → off + 2 ≤ zlen b → 0 ≤ v < 2 ^ 16 → le16 (splice b off (le_split 2 v)) off = v.
Proof.
  intros. unfold le16. rewrite sub_splice_same_len by (autorewrite with zlen; lia).
  by apply le_combine_split.
Qed.
Lemma le32_splice b off v :
  0 ≤ off → off + 4 ≤ zlen b → 0 ≤ v < 2 ^ 32 → le32 (splice b off (le_split 4 v)) off = v.
Proof.
  intros. unfold le32. rewrite sub_splice_same_len by (autorewrite with zlen; lia).
  by apply le_combine_split.
Qed.
Lemma le64_splice b off v :
  0 ≤ off → off + 8 ≤ zlen b → 0 ≤ v < 2 ^ 64 → le64 (splice b off (le_split 8 v)) off = v.
Proof.
  intros. unfold le64. rewrite sub_splice_same_len by (autorewrite with zlen; lia).
  by apply le_combine_split.
Qed.
Lemma be32_splice b off v :
  0 ≤ off → off + 4 ≤ zlen b → 0 ≤ v < 2 ^ 32 → be32 (splice b off (be_split 4 v)) off = v.
Proof.
  intros. unfold be32. rewrite sub_splice_same_len by (autorewrite with zlen; lia).
  by apply be_combine_split.
Qed.

Lemma le16_splice_ne b off src o :
  0 ≤ off → off + zlen src ≤ zlen b → 0 ≤ o → o + 2 ≤ off ∨ off + zlen src ≤ o →
  le16 (splice b off src) o = le16 b o.
Proof. intros. unfold le16. by rewrite sub_splice_disjoint by lia. Qed.
Lemma le32_splice_ne b off src o :
  0 ≤ off → off + zlen src ≤ zlen b → 0 ≤ o → o + 4 ≤ off ∨ off + zlen src ≤ o →
  le32 (splice b off src) o = le32 b o.
Proof. intros. unfold le32. by rewrite sub_splice_disjoint by lia. Qed.
Lemma le64_splice_ne b off src o :
  0 ≤ off → off + zlen src ≤ zlen b → 0 ≤ o → o + 8 ≤ off ∨ off + zlen src ≤ o →
  le64 (splice b off src) o = le64 b o.
Proof. intros. unfold le64. by rewrite sub_splice_disjoint by lia. Qed.

Lemma le16_sub b off n o : 0 ≤ off → 0 ≤ o → o + 2 ≤ n → le16 (sub b off n) o = le16 b (off + o).
Proof. intros. unfold le16. by rewrite sub_sub by lia. Qed.
Lemma le32_sub b off n o : 0 ≤ off → 0 ≤ o → o + 4 ≤ n → le32 (sub b off n) o = le32 b (off + o).
Proof. intros. unfold le32. by rewrite sub_sub by lia. Qed.

(** ** Joining the halves of a wide field: [(hi << 32) | lo] *)

Definition join32 (hi lo : Z) : Z := Z.lor (Z.shiftl hi 32) lo.

Lemma lor_shiftl_add hi lo n : 0 ≤ n → 0 ≤ lo < 2 ^ n → Z.lor (Z.shiftl hi n) lo = hi * 2 ^ n + lo.
Proof.
  intros Hn Hlo. rewrite Z.shiftl_mul_pow2 by lia.
  assert (E : Z.land (hi * 2 ^ n) lo = 0).
  { apply Z.bits_inj'. intros i Hi. rewrite Z.land_spec, Z.bits_0.
    destruct (decide (i < n)); [by rewrite Z.mul_pow2_bits_low by lia|].
    replace lo with (lo mod 2 ^ n) by (apply Z.mod_small; lia).
    rewrite Z.mod_pow2_bits_high by lia. apply andb_false_r. }
  rewrite <-Z.lxor_lor by done. symmetry. by apply Z.add_nocarry_lxor.
Qed.

Lemma join32_eq hi lo : 0 ≤ lo < 2 ^ 32 → join32 hi lo = hi * 2 ^ 32 + lo.
Proof. intros. unfold join32. apply lor_shiftl_add; lia. Qed.

Lemma land_ones_mod x n : 0 ≤ n → Z.land x (2 ^ n - 1) = x mod 2 ^ n.
Proof. intros. rewrite <-Z.land_ones by done. by rewrite Z.ones_equiv, Z.sub_1_r. Qed.

(** ** Accesses inside the middle part of a buffer *)

Lemma sub_mid {A} (pre c post : list A) o n :
  0 ≤ o → o + n ≤ zlen c → sub (pre ++ c ++ post) (zlen pre + o) n = sub c o n.
Proof.
  intros. rewrite sub_app_r by lia. replace (zlen pre + o - zlen pre) with o by lia.
  apply sub_app_l; lia.
Qed.

Lemma splice_mid {A} (pre c post : list A) o s :
  0 ≤ o → o + zlen s ≤ zlen c →
  splice (pre ++ c ++ post) (zlen pre + o) s = pre ++ splice c o s ++ post.
Proof.
  intros Ho Hs. unfold splice, zlen in *.
  replace (Z.to_nat (Z.of_nat (length pre) + o)) with (length pre + Z.to_nat o)%nat by lia.
  rewrite take_app_add. rewrite take_app_le by lia.
  rewrite <-Nat.add_assoc, drop_app_add. rewrite drop_app_le by lia. by rewrite <-!app_assoc.
Qed.

Lemma byte_at_mid pre c post o :
  0 ≤ o < zlen c → byte_at (pre ++ c ++ post) (zlen pre + o) = byte_at c o.
Proof.
  intros Ho. unfold byte_at, zlen in *.
  replace (Z.to_nat (Z.of_nat (length pre) + o)) with (length pre + Z.to_nat o)%nat by lia.
  rewrite lookup_app_r by lia. rewrite lookup_app_l by lia. do 2 f_equal. lia.
Qed.

Lemma put_mid {A} (pre c post : list A) o s :
  0 ≤ o → o + zlen s ≤ zlen c →
  put (pre ++ c ++ post) (zlen pre + o) s = Ok (pre ++ splice c o s ++ post).
Proof.
  intros. pose proof (zlen_nonneg pre). pose proof (zlen_nonneg post).
  rewrite put_ok by (rewrite ?zlen_app; lia). by rewrite splice_mid.
Qed.

Lemma u16_le_mid pre c post o :
  0 ≤ o → o + 2 ≤ zlen c → u16_le (pre ++ c ++ post) (zlen pre + o) = Ok (le16 c o).
Proof.
  intros. pose proof (zlen_nonneg pre). pose proof (zlen_nonneg post).
  rewrite u16_le_ok by (rewrite ?zlen_app; lia). unfold le16. by rewrite sub_mid.
Qed.

Lemma u32_le_mid pre c post o :
  0 ≤ o → o + 4 ≤ zlen c → u32_le (pre ++ c ++ post) (zlen pre + o) = Ok (le32 c o).
Proof.
  intros. pose proof (zlen_nonneg pre). pose proof (zlen_nonneg post).
  rewrite u32_le_ok by (rewrite ?zlen_app; lia). unfold le32. by rewrite sub_mid.
Qed.

Lemma get_mid pre c post o :
  0 ≤ o < zlen c → get (pre ++ c ++ post) (zlen pre + o) = Ok (byte_at c o).
Proof.
  intros. pose proof (zlen_nonneg pre). pose proof (zlen_nonneg post).
  rewrite get_byte by (rewrite ?zlen_app; lia). by rewrite byte_at_mid.
Qed.

Lemma slice_mid {A} (pre c post : list A) o n :
  0 ≤ o → 0 ≤ n → o + n ≤ zlen c → slice (pre ++ c ++ post) (zlen pre + o) n = Ok (sub c o n).
Proof.
  intros. pose proof (zlen_nonneg pre). pose proof (zlen_nonneg post).
  rewrite slice_ok by (rewrite ?zlen_app; lia). by rewrite sub_mid.
Qed.

(** ** Buffers built as concatenations *)

Lemma slice_app_r {A} (a b : list A) k n :
  zlen a ≤ k → slice (a ++ b) k n = slice b (k - zlen a) n.
Proof.
  intros H. pose proof (zlen_nonneg a). unfold slice. rewrite zlen_app.
  destruct (decide _), (decide _); try lia; [|done]. f_equal. by apply sub_app_r.
Qed.

Lemma slice_app_l {A} (a b : list A) k n :
  0 ≤ n → k + n ≤ zlen a → slice (a ++ b) k n = slice a k n.
Proof.
  intros Hn H. pose proof (zlen_nonneg b). unfold slice. rewrite zlen_app.
  destruct (decide _), (decide _); try lia; [|done]. f_equal. apply sub_app_l; lia.
Qed.

Lemma slice_head {A} (a b : list A) n : n = zlen a → slice (a ++ b) 0 n = Ok a.
Proof.
  intros ->. pose proof (zlen_nonneg a). rewrite slice_app_l by lia.
  rewrite slice_ok by lia. by rewrite sub_all by lia.
Qed.

Lemma u16_be_head v b : 0 ≤ v < 2 ^ 16 → u16_be (be_split 2 v ++ b) 0 = Ok v.
Proof. intros. unfold u16_be. rewrite slice_head by zl. simpl. by rewrite be_combine_split. Qed.
Lemma u32_be_head v b : 0 ≤ v < 2 ^ 32 → u32_be (be_split 4 v ++ b) 0 = Ok v.
Proof. intros. unfold u32_be. rewrite slice_head by zl. simpl. by rewrite be_combine_split. Qed.
Lemma u64_be_head v b : 0 ≤ v < 2 ^ 64 → u64_be (be_split 8 v ++ b) 0 = Ok v.
Proof. intros. unfold u64_be. rewrite slice_head by zl. simpl. by rewrite be_combine_split. Qed.
Lemma u16_be_app_r a b k : zlen a ≤ k → u16_be (a ++ b) k = u16_be b (k - zlen a).
Proof. intros. unfold u16_be. by rewrite slice_app_r. Qed.
Lemma u32_be_app_r a b k : zlen a ≤ k → u32_be (a ++ b) k = u32_be b (k - zlen a).
Proof. intros. unfold u32_be. by rewrite slice_app_r. Qed.
Lemma u64_be_app_r a b k : zlen a ≤ k → u64_be (a ++ b) k = u64_be b (k - zlen a).
Proof. intros. unfold u64_be. by rewrite slice_app_r. Qed.

#[global] Arguments le_split : simpl never.
#[global] Arguments le_combine : simpl never.
#[global] Arguments sub : simpl never.
#[global] Arguments splice : simpl never.
#[global] Arguments seqZ : simpl never.
