(* ===== verification/Device.v ===== *)
(** Device: the [BlockDevice] trait (src/src/block_io.rs) as a class of
    state-passing operations, the contract [DeviceSpec] its implementations
    promise to their clients, and the implementations [FileDevice] and
    [AlignedDevice] with the proofs that they keep it. *)
From S2P Require Import Prelude Errors Bytes.

(** ** Operations on a device

    The trait's methods take [&self] and mutate behind a lock; each becomes a
    function from a device state to an outcome and the next state.  A read of
    [buf.len() = n] bytes returns the bytes it put in [buf]. *)
Definition dev_m (D A : Type) : Type := D → res A * D.

#[global] Instance dev_ret D : MRet (dev_m D) := λ A a d, (Ok a, d).
#[global] Instance dev_bind D : MBind (dev_m D) := λ A B f m d,
  match m d with
  | (Ok a, d') => f a d'
  | (Err e, d') => (Err e, d')
  | (Panic, d') => (Panic, d')
  | (OutOfFuel, d') => (OutOfFuel, d')
  end.
Definition dev_lift {D A} (r : res A) : dev_m D A := λ d, (r, d).

Class BlockDevice (D : Type) := {
  read_at : Z → Z → dev_m D bytes;
  size_bytes : D → Z;
  write_at : Z → bytes → dev_m D unit;
  flush : dev_m D unit;
  is_writable : D → bool;
  populate_cache : Z → bytes → D → D;
  unpin_all : D → D;
  invalidate_cache : dev_m D unit;
}.

(** The trait's default methods. *)
Definition default_write_at {D} (_off : Z) (_buf : bytes) : dev_m D unit :=
  dev_lift (Err (Corrupt "block device is read-only (no write_at impl)")).
Definition default_flush {D} : dev_m D unit := mret ().
Definition default_populate_cache {D} (_block : Z) (_bytes : bytes) (d : D) : D := d.
Definition default_unpin_all {D} (d : D) : D := d.
Definition default_invalidate_cache {D} : dev_m D unit := mret ().

(** What a device with request granularity [g] promises: a request whose
    offset and length are multiples of [g] and that lies inside the image is
    served from, or applied to, that image.  [dev_wf] is the implementation's
    own invariant. *)
Class DeviceSpec (g : Z) (D : Type) `{BlockDevice D} := {
  image : D → bytes;
  dev_wf : D → Prop;
  spec_size d : dev_wf d → size_bytes d = zlen (image d);
  spec_bytes d : dev_wf d → bytes_ok (image d);
  spec_read d off n :
    dev_wf d → 0 ≤ off → 0 < n → off + n ≤ zlen (image d) → (g | off) → (g | n) →
    ∃ d', read_at off n d = (Ok (sub (image d) off n), d') ∧
          dev_wf d' ∧ image d' = image d ∧ is_writable d' = is_writable d;
  spec_write d off b :
    dev_wf d → is_writable d = true → bytes_ok b →
    0 ≤ off → 0 < zlen b → off + zlen b ≤ zlen (image d) → (g | off) → (g | zlen b) →
    ∃ d', write_at off b d = (Ok (), d') ∧
          dev_wf d' ∧ image d' = splice (image d) off b ∧ is_writable d' = true;
}.

(** ** [FileDevice] *)
Module FileDevice.

Record t := mk { contents : bytes; size : Z; writable : bool }.

(** What [read_exact] reports when the file ends early: an [io::Error] of
    kind [UnexpectedEof], which carries no OS error. *)
Definition unexpected_eof : Error := Io None.

Definition read_at (off n : Z) : dev_m t bytes := λ f,
  if decide (off + n ≤ zlen (contents f) ∨ n = 0)
  then (Ok (sub (contents f) off n), f) else (Err unexpected_eof, f).

(** A write past the end of a regular file extends it, zero-filling the gap. *)
Definition file_write (c : bytes) (off : Z) (b : bytes) : bytes :=
  splice (c ++ zrep (off + zlen b - zlen c) 0) off b.

Definition write_at (off : Z) (b : bytes) : dev_m t unit := λ f,
  if writable f then
    if decide (b = []) then (Ok (), f) else
    (Ok (), mk (file_write (contents f) off b) (size f) (writable f))
  else (Err (Corrupt "FileDevice opened read-only"), f).

(** [flush] hands the file's own buffers to the OS and syncs: the contents do
    not change. *)
Definition flush : dev_m t unit := λ f, (Ok (), f).

Definition open (c : bytes) : t := mk c (zlen c) false.
Definition open_rw (c : bytes) : t := mk c (zlen c) true.

End FileDevice.

#[global] Instance FileDevice_BlockDevice : BlockDevice FileDevice.t := {
  read_at := FileDevice.read_at;
  size_bytes := FileDevice.size;
  write_at := FileDevice.write_at;
  flush := FileDevice.flush;
  is_writable := FileDevice.writable;
  populate_cache := default_populate_cache;
  unpin_all := default_unpin_all;
  invalidate_cache := default_invalidate_cache;
}.

Definition FileDevice_wf (f : FileDevice.t) : Prop :=
  FileDevice.size f = zlen (FileDevice.contents f) ∧ bytes_ok (FileDevice.contents f).

#[global] Program Instance FileDevice_spec g : DeviceSpec g FileDevice.t := {
  image := FileDevice.contents;
  dev_wf := FileDevice_wf;
}.
Next Obligation. intros g d [H _]. exact H. Qed.
Next Obligation. intros g d [_ H]. exact H. Qed.
Next Obligation.
  intros g d off n Hwf H1 H2 H3 _ _. exists d. simpl. unfold FileDevice.read_at.
  rewrite decide_True by lia. done.
Qed.
Next Obligation.
  intros g [c sz w] off b [Hs Hb] Hw Hbb H1 H0 H2 _ _; simpl in *; subst. simpl.
  unfold FileDevice.write_at; simpl. case_decide as Hnil.
  { subst b. eexists; split; [done|]. split; [done|]. split; [|done]. simpl.
    apply list_eq. intros i. rewrite lookup_splice by done.
    rewrite zlen_nil. by rewrite decide_False by lia. }
  eexists; split; [done|]. unfold FileDevice_wf; simpl.
  assert (E : FileDevice.file_write c off b = splice c off b).
  { unfold FileDevice.file_write, zrep. replace (Z.to_nat _) with O by lia.
    by rewrite app_nil_r. }
  rewrite E. split; [split|done].
  - by rewrite zlen_splice by lia.
  - auto with ext4.
Qed.

(** ** [AlignedDevice] *)
Module AlignedDevice.
Section aligned.
Context {D : Type} `{BlockDevice D}.

Record t := mk { inner : D; sector : Z }.

(** [AlignedDevice::new]: the assertion on the sector size. *)
Definition new (d : D) (s : Z) : res t :=
  if is_power_of_two s then Ok (mk d s) else Panic.

Definition on_inner {A} (m : dev_m D A) : dev_m t A := λ a,
  let '(r, d) := m (inner a) in (r, mk d (sector a)).

Definition is_aligned (a : t) (off len : Z) : bool :=
  let mask := sector a - 1 in
  bool_decide (Z.land off mask = 0) && bool_decide (Z.land len mask = 0).

(** The aligned span [start, end) enclosing [len] bytes at [off]. *)
Definition span (a : t) (off len : Z) : res (Z * Z) :=
  let mask := sector a - 1 in
  e ← ok_or (e ← checked_add64 off len; checked_add64 e mask)
            (Corrupt "device request overflows u64");
  let e := Z.ldiff e mask in
  if decide (size_bytes (inner a) < e)
  then Err (Corrupt "device request past the end of the device")
  else Ok (Z.ldiff off mask, e).

Definition read_at (off n : Z) : dev_m t bytes := λ a,
  if is_aligned a off n then on_inner (read_at off n) a else
  ('(start, e) ← dev_lift (span a off n);
   bounce ← on_inner (read_at start (e - start));
   let head := off - start in
   dev_lift (slice bounce head n)) a.

(** Read the [n] bytes at [start + o] of the device into [bounce[o..o + n]]. *)
Definition fill (start : Z) (bounce : bytes) (o n : Z) : dev_m t bytes :=
  b ← on_inner (Device.read_at (start + o) n); dev_lift (put bounce o b).

Definition write_at (off : Z) (buf : bytes) : dev_m t unit := λ a,
  if is_aligned a off (zlen buf) then on_inner (write_at off buf) a else
  ('(start, e) ← dev_lift (span a off (zlen buf));
   let sector := sector a in
   let bounce := zrep (e - start) 0 in
   let head := off - start in
   let tail := head + zlen buf in
   bounce ← (if decide (head ≠ 0) then fill start bounce 0 sector else mret bounce);
   let last := zlen bounce - sector in
   bounce ← (if decide (is_multiple_of tail sector = false ∧ (last ≠ 0 ∨ head = 0))
             then fill start bounce last (zlen bounce - last) else mret bounce);
   bounce ← dev_lift (put bounce head buf);
   on_inner (Device.write_at start bounce)) a.

Definition flush : dev_m t unit := on_inner flush.
Definition populate_cache (block : Z) (b : bytes) (a : t) : t :=
  mk (populate_cache block b (inner a)) (sector a).
Definition unpin_all (a : t) : t := mk (unpin_all (inner a)) (sector a).
Definition invalidate_cache : dev_m t unit := on_inner invalidate_cache.

End aligned.
Arguments t D : clear implicits.
End AlignedDevice.

#[global] Instance AlignedDevice_BlockDevice `{BlockDevice D} :
  BlockDevice (AlignedDevice.t D) := {
  read_at := AlignedDevice.read_at;
  size_bytes a := size_bytes (AlignedDevice.inner a);
  write_at := AlignedDevice.write_at;
  flush := AlignedDevice.flush;
  is_writable a := is_writable (AlignedDevice.inner a);
  populate_cache := AlignedDevice.populate_cache;
  unpin_all := AlignedDevice.unpin_all;
  invalidate_cache := AlignedDevice.invalidate_cache;
}.

Section aligned_proofs.
Context {g : Z} {D : Type} `{HD : DeviceSpec g D}.

Definition AlignedDevice_image (a : AlignedDevice.t D) : bytes := image (AlignedDevice.inner a).

(** The sector is the granularity of the device below, a power of two that
    divides the device, and no span overflows a [u64]. *)
Definition AlignedDevice_wf (a : AlignedDevice.t D) : Prop :=
  dev_wf (AlignedDevice.inner a) ∧ AlignedDevice.sector a = g ∧
  (∃ k, 0 ≤ k ∧ g = 2 ^ k) ∧ (g | zlen (AlignedDevice_image a)) ∧
  zlen (AlignedDevice_image a) + g ≤ 2 ^ 64.

Definition round_down (x : Z) : Z := x / g * g.

Lemma ldiff_mask x k : 0 ≤ k → g = 2 ^ k → Z.ldiff x (g - 1) = round_down x.
Proof.
  intros Hk Hg. unfold round_down. rewrite Hg.
  replace (2 ^ k - 1) with (Z.ones k) by (rewrite Z.ones_equiv; lia).
  rewrite Z.ldiff_ones_r by lia. rewrite Z.shiftr_div_pow2, Z.shiftl_mul_pow2 by lia. done.
Qed.

Lemma is_aligned_spec a off len :
  AlignedDevice_wf a → 
  AlignedDevice.is_aligned a off len = true ↔ (g | off) ∧ (g | len).
Proof.
  intros (_ & Hs & (k & Hk & Hg) & _). unfold AlignedDevice.is_aligned. rewrite Hs, Hg.
  rewrite !land_ones_mod by lia. rewrite andb_true_iff, !bool_decide_eq_true.
  rewrite !Z.mod_divide by (apply Z.pow_nonzero; lia). reflexivity.
Qed.

Lemma round_down_bounds x : 0 < g → round_down x ≤ x < round_down x + g.
Proof. intros. unfold round_down. pose proof (Z.div_mod x g). pose proof (Z.mod_pos_bound x g). lia. Qed.

Lemma round_down_divide x : (g | round_down x).
Proof. exists (x / g). done. Qed.

Lemma span_ok a off len :
  AlignedDevice_wf a → 0 ≤ off → 0 ≤ len → off + len ≤ zlen (AlignedDevice_image a) →
  AlignedDevice.span a off len = Ok (round_down off, round_down (off + len + (g - 1))) ∧
  0 < g ∧ 0 ≤ round_down off ≤ off ∧ off < round_down off + g ∧
  off + len ≤ round_down (off + len + (g - 1)) < off + len + g ∧
  round_down (off + len + (g - 1)) ≤ zlen (AlignedDevice_image a).
Proof.
  intros (Hwf & Hs & (k & Hk & Hg) & [q Hq] & Hsz) H1 H2 H3.
  assert (0 < g) by (rewrite Hg; apply Z.pow_pos_nonneg; lia).
  pose proof (round_down_bounds off ltac:(done)).
  pose proof (round_down_bounds (off + len + (g - 1)) ltac:(done)).
  assert (0 ≤ round_down off).
  { unfold round_down. pose proof (Z.div_pos off g). nia. }
  assert (Hle : round_down (off + len + (g - 1)) ≤ zlen (AlignedDevice_image a)).
  { unfold round_down. rewrite Hq. apply Z.mul_le_mono_nonneg_r; [lia|].
    apply Z.lt_succ_r. apply Z.div_lt_upper_bound; lia. }
  split; [|lia]. unfold AlignedDevice.span. rewrite Hs.
  unfold checked_add64. rewrite decide_True by lia. simpl.
  rewrite decide_True by lia. simpl.
  rewrite spec_size by done. unfold AlignedDevice_image in *.
  rewrite !(ldiff_mask _ k) by done. by rewrite decide_False by lia.
Qed.

Lemma on_inner_read a off n :
  AlignedDevice_wf a → 0 ≤ off → 0 < n → off + n ≤ zlen (AlignedDevice_image a) →
  (g | off) → (g | n) →
  ∃ a', AlignedDevice.on_inner (read_at off n) a = (Ok (sub (AlignedDevice_image a) off n), a')
        ∧ AlignedDevice_wf a' ∧ AlignedDevice_image a' = AlignedDevice_image a
        ∧ is_writable a' = is_writable a.
Proof.
  intros (Hwf & Hs & Hg & Hdiv & Hsz) H1 H2 H3 H4 H5.
  destruct (spec_read _ off n Hwf H1 H2 H3 H4 H5) as (d' & E & Hwf' & Him & Hw).
  exists (AlignedDevice.mk d' (AlignedDevice.sector a)).
  unfold AlignedDevice.on_inner. rewrite E.
  split; [done|]. unfold AlignedDevice_wf, AlignedDevice_image in *; simpl. by rewrite Him.
Qed.

Lemma on_inner_write a off b :
  AlignedDevice_wf a → is_writable a = true → bytes_ok b →
  0 ≤ off → 0 < zlen b → off + zlen b ≤ zlen (AlignedDevice_image a) → (g | off) → (g | zlen b) →
  ∃ a', AlignedDevice.on_inner (write_at off b) a = (Ok (), a')
        ∧ AlignedDevice_wf a' ∧ AlignedDevice_image a' = splice (AlignedDevice_image a) off b
        ∧ is_writable a' = true.
Proof.
  intros (Hwf & Hs & Hg & Hdiv & Hsz) Hw Hb H1 H0 H2 H4 H5.
  destruct (spec_write _ off b Hwf Hw Hb H1 H0 H2 H4 H5) as (d' & E & Hwf' & Him & Hw').
  exists (AlignedDevice.mk d' (AlignedDevice.sector a)).
  unfold AlignedDevice.on_inner. rewrite E.
  split; [done|]. unfold AlignedDevice_wf, AlignedDevice_image in *; simpl.
  rewrite Him, zlen_splice by done. done.
Qed.

Lemma aligned_read a off n :
  AlignedDevice_wf a → 0 ≤ off → 0 < n → off + n ≤ zlen (AlignedDevice_image a) →
  ∃ a', AlignedDevice.read_at off n a = (Ok (sub (AlignedDevice_image a) off n), a')
        ∧ AlignedDevice_wf a' ∧ AlignedDevice_image a' = AlignedDevice_image a
        ∧ is_writable a' = is_writable a.
Proof.
  intros Hwf H1 H2 H3. unfold AlignedDevice.read_at.
  destruct (AlignedDevice.is_aligned a off n) eqn:Ha.
  { apply is_aligned_spec in Ha as [? ?]; [|done]. by apply on_inner_read. }
  destruct (span_ok a off n Hwf H1 ltac:(lia) H3) as (Hsp & Hg & Hd & Hd' & Hu & Hu').
  set (s := round_down off) in *. set (e := round_down (off + n + (g - 1))) in *.
  destruct (on_inner_read a s (e - s)) as (a' & E & Hwf' & Him & Hw); try done; try lia.
  { apply round_down_divide. }
  { apply Z.divide_sub_r; apply round_down_divide. }
  exists a'. split; [|done].
  unfold mbind, dev_bind, dev_lift. rewrite Hsp, E.
  rewrite slice_ok by (autorewrite with zlen; lia).
  rewrite sub_sub by lia. do 2 f_equal. f_equal. lia.
Qed.

(** What the bounce buffer holds before the caller's bytes are patched in:
    the image, outside [head, tail). *)
Definition bounce_ok (img : bytes) (s head tail len : Z) (bounce : bytes) : Prop :=
  zlen bounce = len ∧ bytes_ok bounce ∧
  ∀ i, Z.of_nat i < head ∨ tail ≤ Z.of_nat i < len → bounce !! i = img !! (Z.to_nat s + i)%nat.

Lemma splice_bounce img s head len bounce buf :
  0 ≤ s → 0 ≤ head → s + len ≤ zlen img → head + zlen buf ≤ len →
  bounce_ok img s head (head + zlen buf) len bounce →
  splice img s (splice bounce head buf) = splice img (s + head) buf.
Proof.
  intros H1 H2 H3 H4 (Hl & _ & Hi). apply list_eq. intros i.
  rewrite !lookup_splice by (rewrite ?zlen_splice by lia; pose proof (zlen_nonneg buf); lia).
  rewrite zlen_splice by lia.
  destruct (decide (s ≤ Z.of_nat i < s + zlen bounce)).
  2:{ rewrite decide_False; [done|]. lia. }
  destruct (decide (s + head ≤ Z.of_nat i < s + head + zlen buf)).
  - rewrite decide_True by lia. f_equal. lia.
  - rewrite decide_False by lia. rewrite Hi by lia. f_equal. lia.
Qed.

Lemma on_inner_fill a s bounce o :
  AlignedDevice_wf a → 0 ≤ s → 0 ≤ o → o + g ≤ zlen bounce → 0 < g →
  s + zlen bounce ≤ zlen (AlignedDevice_image a) → (g | s) → (g | o) → bytes_ok bounce →
  ∃ b a', AlignedDevice.fill s bounce o g a = (Ok b, a') ∧ AlignedDevice_wf a' ∧
    AlignedDevice_image a' = AlignedDevice_image a ∧ is_writable a' = is_writable a ∧
    zlen b = zlen bounce ∧ bytes_ok b ∧
    ∀ i, b !! i = if decide (o ≤ Z.of_nat i < o + g)
                  then AlignedDevice_image a !! (Z.to_nat s + i)%nat else bounce !! i.
Proof.
  intros Hwf H1 H2 H3 H4 H5 H6 H7 Hb. set (img := AlignedDevice_image a) in *.
  destruct (on_inner_read a (s + o) g) as (a' & E & Hwf' & Him & Hw); try done; try lia.
  { fold img; lia. } { by apply Z.divide_add_r. }
  assert (Hz : zlen (sub img (s + o) g) = g) by (autorewrite with zlen; lia).
  assert (bytes_ok img) by apply (spec_bytes _ (proj1 Hwf)).
  exists (splice bounce o (sub img (s + o) g)), a'.
  unfold AlignedDevice.fill, mbind, dev_bind, dev_lift. rewrite E, put_ok by (fold img; lia).
  repeat (split; [done|]). split; [rewrite zlen_splice; lia|]. split; [auto with ext4|].
  intros i. rewrite lookup_splice, Hz by lia. case_decide; [|done].
  rewrite lookup_sub, decide_True by lia. f_equal. lia.
Qed.

(** The two reads of the enclosing span's first and last sectors leave a
    bounce buffer that holds the image around the caller's bytes. *)
Lemma aligned_bounce a s head tail len b0 :
  AlignedDevice_wf a → 0 ≤ s → 0 < g → (g | s) → (g | len) → g ≤ len →
  zlen b0 = len → bytes_ok b0 → s + len ≤ zlen (AlignedDevice_image a) →
  0 ≤ head < g → len - g < tail ≤ len →
  ∃ b1 a1 b2 a2,
    (if decide (head ≠ 0) then AlignedDevice.fill s b0 0 g else mret b0) a = (Ok b1, a1) ∧
    zlen b1 = len ∧
    (if decide (is_multiple_of tail g = false ∧ (len - g ≠ 0 ∨ head = 0))
     then AlignedDevice.fill s b1 (len - g) (len - (len - g)) else mret b1) a1 = (Ok b2, a2) ∧
    AlignedDevice_wf a2 ∧ AlignedDevice_image a2 = AlignedDevice_image a ∧
    is_writable a2 = is_writable a ∧ bounce_ok (AlignedDevice_image a) s head tail len b2.
Proof.
  intros Hwf H1 H2 Hds Hdl Hge Hl Hb Him Hhead Htail.
  replace (len - (len - g)) with g by lia.
  assert (Hlast : (g | len - g)) by (apply Z.divide_sub_r; [done|apply Z.divide_refl]).
  assert (∃ b1 a1, (if decide (head ≠ 0) then AlignedDevice.fill s b0 0 g else mret b0) a = (Ok b1, a1)
     ∧ AlignedDevice_wf a1 ∧ AlignedDevice_image a1 = AlignedDevice_image a
     ∧ is_writable a1 = is_writable a ∧ zlen b1 = len ∧ bytes_ok b1 ∧
     ∀ i, head ≠ 0 → Z.of_nat i < g → b1 !! i = AlignedDevice_image a !! (Z.to_nat s + i)%nat)
    as (b1 & a1 & E1 & Hwf1 & Him1 & Hw1 & Hl1 & Hb1 & Hc1).
  { case_decide; [|by eexists _, _].
    destruct (on_inner_fill a s b0 0) as (b & a' & E & ? & ? & ? & ? & ? & Hi); try done; try lia.
    { apply Z.divide_0_r. }
    exists b, a'. rewrite E. repeat (split; [by try lia|]). intros i _ ?. rewrite Hi.
    by rewrite decide_True by lia. }
  exists b1, a1. rewrite <-Him1, <-Hw1.
  destruct (decide (is_multiple_of tail g = false ∧ (len - g ≠ 0 ∨ head = 0))) as [Hd|Hd].
  - destruct (on_inner_fill a1 s b1 (len - g)) as (b & a' & E & ? & ? & ? & ? & ? & Hi);
      rewrite ?Him1; try done; try lia.
    exists b, a'. unfold bounce_ok. split_and!; try done; [congruence|lia|].
    intros i Hi'. rewrite Hi.
    destruct (decide (len - g ≤ Z.of_nat i < len - g + g)); rewrite ?Him1; [done|].
    apply Hc1; lia.
  - exists b1, a1. unfold bounce_ok. split_and!; try done. intros i [Hi|Hi]; [rewrite Him1; apply Hc1; lia|].
    destruct (is_multiple_of tail g) eqn:Hm.
    + exfalso. unfold is_multiple_of in Hm. rewrite decide_False in Hm by lia.
      apply bool_decide_eq_true, Z.mod_divide in Hm; [|lia].
      assert (g ≤ len - tail) by (apply Z.divide_pos_le; [lia|]; by apply Z.divide_sub_r). lia.
    + rewrite Him1. apply Hc1; [|lia]. intros ->. apply Hd. auto.
Qed.

Lemma aligned_write a off b :
  AlignedDevice_wf a → is_writable a = true → bytes_ok b →
  0 ≤ off → 0 < zlen b → off + zlen b ≤ zlen (AlignedDevice_image a) →
  ∃ a', AlignedDevice.write_at off b a = (Ok (), a')
        ∧ AlignedDevice_wf a' ∧ AlignedDevice_image a' = splice (AlignedDevice_image a) off b
        ∧ is_writable a' = true.
Proof.
  intros Hwf Hw Hb H1 H0 H2. unfold AlignedDevice.write_at.
  destruct (AlignedDevice.is_aligned a off (zlen b)) eqn:Ha.
  { apply is_aligned_spec in Ha as [? ?]; [|done]. by apply on_inner_write. }
  destruct (span_ok a off (zlen b) Hwf H1 (zlen_nonneg b) H2) as (Hsp & Hg & Hd & Hd' & Hu & Hu').
  assert (Hsec : AlignedDevice.sector a = g) by apply Hwf.
  set (s := round_down off) in *. set (e := round_down (off + zlen b + (g - 1))) in *.
  assert (Hds : (g | s)) by apply round_down_divide.
  assert (Hdl : (g | e - s)) by (apply Z.divide_sub_r; [apply round_down_divide|done]).
  assert (Hlen : s < e).
  { pose proof (zlen_nonneg b). destruct (decide (s = e)); [|lia]. exfalso.
    assert (off = s ∧ zlen b = 0) as [? Hz] by lia.
    apply not_true_iff_false in Ha. apply Ha. apply is_aligned_spec; [done|].
    split; [congruence|]. rewrite Hz. apply Z.divide_0_r. }
  assert (Hge : g ≤ e - s) by (apply Z.divide_pos_le; [lia|done]).
  destruct (aligned_bounce a s (off - s) (off - s + zlen b) (e - s) (zrep (e - s) 0))
    as (b1 & a1 & b2 & a2 & E1 & Hl1 & E2 & Hwf2 & Him2 & Hw2 & Hok);
    rewrite ?zlen_zrep; try done; try lia; [apply bytes_ok_zrep; lia|].
  unfold mbind, dev_bind, dev_lift, mret, dev_ret in *. rewrite Hsp, Hsec.
  cbv beta iota zeta. rewrite E1, Hl1, E2.
  pose proof Hok as (Hl2 & Hb2 & _). rewrite put_ok by lia.
  destruct (on_inner_write a2 s (splice b2 (off - s) b)) as (a' & E & Hwf' & Him & Hw');
    rewrite ?zlen_splice, ?Him2 by lia; try done; try lia.
  { by rewrite Hw2. } { by apply bytes_ok_splice. } { by rewrite Hl2. }
  exists a'. split; [exact E|]. split; [done|]. split; [|done].
  rewrite Him, Him2, (splice_bounce _ s (off - s) (e - s)) by (try done; lia).
  f_equal. lia.
Qed.

(** The adaptor turns a device of granularity [g] into a byte-granular one. *)
#[global] Program Instance AlignedDevice_spec : DeviceSpec 1 (AlignedDevice.t D) := {
  image := AlignedDevice_image;
  dev_wf := AlignedDevice_wf;
}.
Next Obligation. intros a Hwf. by apply (spec_size _ (proj1 Hwf)). Qed.
Next Obligation. intros a Hwf. apply (spec_bytes _ (proj1 Hwf)). Qed.
Next Obligation. intros a off n Hwf H1 H2 H3 _ _. by apply aligned_read. Qed.
Next Obligation. intros a off b Hwf Hw Hb H1 H0 H2 _ _. by apply aligned_write. Qed.

End aligned_proofs.

(** ** Clients of the contract

    A client's requests as a trace; [run] executes it on a device, [replay]
    on a bare image. *)
Inductive dev_op :=
  | OpRead (off n : Z)
  | OpWrite (off : Z) (b : bytes).

Definition op_ok (len : Z) (op : dev_op) : Prop :=
  match op with
  | OpRead off n => 0 ≤ off ∧ 0 < n ∧ off + n ≤ len
  | OpWrite off b => 0 ≤ off ∧ 0 < zlen b ∧ off + zlen b ≤ len ∧ bytes_ok b
  end.

#[global] Instance op_ok_dec len op : Decision (op_ok len op).
Proof. destruct op; simpl; apply _. Defined.

Definition run_op `{BlockDevice D} (op : dev_op) : dev_m D bytes :=
  match op with
  | OpRead off n => read_at off n
  | OpWrite off b => _ ← write_at off b; mret []
  end.

Fixpoint run `{BlockDevice D} (ops : list dev_op) (d : D) : list (res bytes) * D :=
  match ops with
  | [] => ([], d)
  | op :: ops =>
      let '(r, d) := run_op op d in
      let '(rs, d) := run ops d in (r :: rs, d)
  end.

Fixpoint replay (ops : list dev_op) (img : bytes) : list (res bytes) * bytes :=
  match ops with
  | [] => ([], img)
  | OpRead off n :: ops =>
      let '(rs, img') := replay ops img in (Ok (sub img off n) :: rs, img')
  | OpWrite off b :: ops =>
      let '(rs, img') := replay ops (splice img off b) in (Ok [] :: rs, img')
  end.

Lemma run_replay `{DeviceSpec 1 D} ops (d : D) :
  dev_wf d → is_writable d = true → Forall (op_ok (zlen (image d))) ops →
  fst (run ops d) = fst (replay ops (image d)) ∧
  image (snd (run ops d)) = snd (replay ops (image d)) ∧ dev_wf (snd (run ops d)).
Proof.
  revert d. induction ops as [|op ops IH]; intros d Hwf Hw Hok; simpl; [done|].
  apply Forall_cons in Hok as [Hop Hok]. destruct op as [off n|off b]; simpl in *.
  - destruct Hop as (? & ? & ?).
    destruct (spec_read d off n) as (d' & E & Hwf' & Him & Hw'); try done; try apply Z.divide_1_l.
    rewrite E. specialize (IH d' Hwf' ltac:(congruence)). rewrite Him in IH.
    specialize (IH Hok). destruct (run ops d'), (replay ops (image d)); simpl in *. naive_solver.
  - destruct Hop as (? & ? & ? & ?).
    destruct (spec_write d off b) as (d' & E & Hwf' & Him & Hw'); try done; try apply Z.divide_1_l.
    unfold mbind, dev_bind. rewrite E. simpl. specialize (IH d' Hwf' Hw').
    rewrite Him, zlen_splice in IH by done. specialize (IH Hok).
    destruct (run ops d'), (replay ops (splice (image d) off b)); simpl in *. naive_solver.
Qed.

(** C37: [AlignedDevice] hides the sector size.  Over any device that only
    promises to serve requests whose offset and length are multiples of its
    power-of-two sector [g], the adaptor serves every in-range request, at any
    byte offset and length, exactly as the bare image would: reads return the
    image's bytes and a write changes the written bytes and no others. *)
Theorem aligned_device_trace {g D} `{DeviceSpec g D} (a : AlignedDevice.t D) ops :
  AlignedDevice_wf a → is_writable a = true →
  Forall (op_ok (zlen (AlignedDevice_image a))) ops →
  fst (run ops a) = fst (replay ops (AlignedDevice_image a)) ∧
  AlignedDevice_image (snd (run ops a)) = snd (replay ops (AlignedDevice_image a)) ∧
  AlignedDevice_wf (snd (run ops a)).
Proof. exact (run_replay (D := AlignedDevice.t D) ops a). Qed.

Lemma aligned_device_trace_witness :
  let a := AlignedDevice.mk (FileDevice.open_rw (zrep 16 7)) 4 in
  let ops := [OpWrite 3 [1; 2; 3; 4; 5; 6]; OpRead 2 9; OpWrite 0 [8; 8; 8; 8]; OpRead 3 1] in
  fst (run ops a) = [Ok []; Ok [7; 1; 2; 3; 4; 5; 6; 7; 7]; Ok []; Ok [8]].
Proof.
  simpl. set (ops := [OpWrite 3 [1; 2; 3; 4; 5; 6]; OpRead 2 9; OpWrite 0 [8; 8; 8; 8]; OpRead 3 1]).
  destruct (aligned_device_trace (g := 4) (AlignedDevice.mk (FileDevice.open_rw (zrep 16 7)) 4) ops)
    as (E & _).
  - split; [split; [reflexivity|by_compute]|]. split; [reflexivity|].
    split; [exists 2; split; [lia|reflexivity]|]. split; [exists 4; reflexivity|vm_compute; discriminate].
  - reflexivity.
  - by_compute.
  - etransitivity; [exact E|]. vm_compute. reflexivity.
Defined.

(** ** Read-only clients

    A tree walk or a lookup only reads.  Reads leave the image as it was, so
    such a client sees one fixed function of offset and length: the reader of
    the device's state when it starts. *)
Record reader := mkReader { rd_read : Z → Z → res bytes; rd_size : Z }.

Definition snapshot `{BlockDevice D} (d : D) : reader :=
  mkReader (λ off n, fst (read_at off n d)) (size_bytes d).

(** The reader of a bare image. *)
Definition image_reader (img : bytes) : reader :=
  mkReader (λ off n, if decide (0 ≤ off ∧ off + n ≤ zlen img) then Ok (sub img off n)
                     else Err FileDevice.unexpected_eof) (zlen img).

(** What a walker relies on: a read that succeeds returns exactly the bytes
    asked for, and no read panics. *)
Class ReaderOk (r : reader) : Prop := {
  rd_len off n b : rd_read r off n = Ok b → 0 ≤ n → zlen b = n;
  rd_bytes off n b : rd_read r off n = Ok b → bytes_ok b;
  rd_returns off n : returns (rd_read r off n);
}.

#[global] Instance image_reader_ok (img : bytes) :
  bytes_ok img → ReaderOk (image_reader img).
Proof.
  intros Hb. split; simpl; intros off n; case_decide; try done.
  - intros b [= <-] Hn. zl.
  - intros b [= <-]. auto with ext4.
Qed.

(** Reading does not disturb later reads. *)
Lemma snapshot_stable `{DeviceSpec 1 D} (d : D) off n :
  dev_wf d → 0 ≤ off → 0 < n → off + n ≤ zlen (image d) →
  let d' := snd (read_at off n d) in
  ∀ off' n', 0 ≤ off' → 0 < n' → off' + n' ≤ zlen (image d) →
    rd_read (snapshot d') off' n' = rd_read (snapshot d) off' n'.
Proof.
  intros Hwf H1 H2 H3 d' off' n' H1' H2' H3'. unfold d', snapshot; simpl.
  destruct (spec_read d off n) as (d1 & E & Hwf1 & Him & _); try done; try apply Z.divide_1_l.
  rewrite E. simpl.
  destruct (spec_read d off' n') as (d2 & E2 & _); try done; try apply Z.divide_1_l.
  destruct (spec_read d1 off' n') as (d3 & E3 & _);
    rewrite ?Him; try done; try apply Z.divide_1_l.
  by rewrite E2, E3, Him.
Qed.
