(* ===== verification/Disk.v ===== *)
(** Disk: a block device with a volatile write cache, the environment in which
    the crash theorems are stated.  It records the writes and flushes it was
    sent; a power failure keeps every write made before the last flush and any
    subset, in order, of the writes after it.  It is an instance of the
    [BlockDevice] class of Device.v and models no file of the driver. *)
From S2P Require Import Prelude Errors Bytes Device.

Module Disk.

Inductive event := EvWrite (off : Z) (b : bytes) | EvFlush.

(** [base] is the image when recording began. *)
Record t := mk { base : bytes; events : list event }.

Definition apply_write (img : bytes) (w : Z * bytes) : bytes := splice img (fst w) (snd w).
Definition apply_writes (img : bytes) (ws : list (Z * bytes)) : bytes := foldl apply_write img ws.

Definition write_of (e : event) : list (Z * bytes) :=
  match e with EvWrite off b => [(off, b)] | EvFlush => [] end.
Definition writes_of (es : list event) : list (Z * bytes) := concat (write_of <$> es).

(** What a read sees: every write so far. *)
Definition contents (d : t) : bytes := apply_writes (base d) (writes_of (events d)).

Definition start (img : bytes) : t := mk img [].

Definition record (e : event) (d : t) : t := mk (base d) (events d ++ [e]).

Definition read_at (off n : Z) : dev_m t bytes := λ d,
  (if decide (0 ≤ off ∧ off + n ≤ zlen (base d)) then Ok (sub (contents d) off n)
   else Err FileDevice.unexpected_eof, d).

Definition write_at (off : Z) (b : bytes) : dev_m t unit := λ d,
  if decide (0 ≤ off ∧ off + zlen b ≤ zlen (base d)) then (Ok (), record (EvWrite off b) d)
  else (Err FileDevice.unexpected_eof, d).

Definition flush : dev_m t unit := λ d, (Ok (), record EvFlush d).

#[global] Instance disk_device : BlockDevice t := {
  Device.read_at := read_at;
  Device.size_bytes d := zlen (base d);
  Device.write_at := write_at;
  Device.flush := flush;
  Device.is_writable _ := true;
  Device.populate_cache := default_populate_cache;
  Device.unpin_all := default_unpin_all;
  Device.invalidate_cache := default_invalidate_cache;
}.

(** ** Power failure *)

(** The durable image and the writes since the last flush. *)
Definition step (st : bytes * list (Z * bytes)) (e : event) : bytes * list (Z * bytes) :=
  match e with
  | EvWrite off b => (fst st, snd st ++ [(off, b)])
  | EvFlush => (apply_writes (fst st) (snd st), [])
  end.

(** [c] may be on the medium after a power failure at some point of [es]. *)
Definition crash (img : bytes) (es : list event) (c : bytes) : Prop :=
  ∃ k kept, let '(durable, pending) := foldl step (img, []) (take k es) in
    kept `sublist_of` pending ∧ c = apply_writes durable kept.

(** [c] may be on the medium when the power fails now, after everything the
    device has been sent: the writes since the last flush are still at risk. *)
Definition survives (d : t) (c : bytes) : Prop :=
  ∃ kept, let '(durable, pending) := foldl step (base d, []) (events d) in
    kept `sublist_of` pending ∧ c = apply_writes durable kept.

(** ** Lemmas *)

Lemma apply_writes_app img a b : apply_writes img (a ++ b) = apply_writes (apply_writes img a) b.
Proof. apply foldl_app. Qed.

Lemma writes_of_app a b : writes_of (a ++ b) = writes_of a ++ writes_of b.
Proof. unfold writes_of. by rewrite fmap_app, concat_app. Qed.

Lemma contents_record e d : contents (record e d) = apply_writes (contents d) (write_of e).
Proof.
  unfold contents, record. cbn [base events]. rewrite writes_of_app, apply_writes_app. unfold writes_of. cbn.
  by rewrite app_nil_r.
Qed.

Definition epoch (ws : list (Z * bytes)) : list event := ((λ w, EvWrite (fst w) (snd w)) <$> ws) ++ [EvFlush].

Lemma writes_of_fmap ws : writes_of ((λ w, EvWrite (fst w) (snd w)) <$> ws) = ws.
Proof. unfold writes_of. induction ws as [|[o b] ws IH]; [done|]. cbn. by rewrite IH. Qed.

Lemma writes_of_epoch ws : writes_of (epoch ws) = ws.
Proof. unfold epoch. rewrite writes_of_app, writes_of_fmap. unfold writes_of. cbn. apply app_nil_r. Qed.

Lemma step_writes st ws :
  foldl step st ((λ w, EvWrite (fst w) (snd w)) <$> ws) = (fst st, snd st ++ ws).
Proof.
  revert st. induction ws as [|[o b] ws IH]; intros [d p]; cbn; [by rewrite app_nil_r|].
  rewrite IH. cbn. by rewrite <-app_assoc.
Qed.

(** A failure during the first epoch keeps a subset of its writes; a later one
    happens on the image the epoch leaves behind. *)
Lemma crash_epoch img ws es c : crash img (epoch ws ++ es) c →
  (∃ kept, kept `sublist_of` ws ∧ c = apply_writes img kept) ∨ crash (apply_writes img ws) es c.
Proof.
  intros (k & kept & Hc). destruct (decide (k ≤ length ws)%nat) as [Hk|Hk].
  - left. unfold epoch in Hc. rewrite <-app_assoc, take_app_le in Hc by (rewrite length_fmap; lia).
    rewrite <-fmap_take, step_writes in Hc. destruct Hc as [Hsub ->]. cbn in *.
    exists kept. split; [|done]. etransitivity; [exact Hsub|]. apply sublist_take.
  - right. exists (k - length (epoch ws))%nat, kept.
    rewrite take_app_ge, foldl_app in Hc by (unfold epoch; rewrite length_app, length_fmap; cbn; lia).
    unfold epoch in Hc at 1. rewrite foldl_app, step_writes in Hc. exact Hc.
Qed.

Lemma step_contents es : ∀ img pending,
  let st := foldl step (img, pending) es in
  apply_writes (fst st) (snd st) = apply_writes (apply_writes img pending) (writes_of es).
Proof.
  induction es as [|e es IH]; intros img pending; [done|]. cbn [foldl].
  change (writes_of (e :: es)) with (write_of e ++ writes_of es). rewrite apply_writes_app.
  destruct e as [off b|]; cbn [step fst snd]; cbv zeta; rewrite IH; [by rewrite apply_writes_app|done].
Qed.

(** Nothing is at risk right after a flush. *)
Lemma survives_flush img es c : survives (mk img (es ++ [EvFlush])) c → c = contents (mk img (es ++ [EvFlush])).
Proof.
  unfold survives, contents. cbn [base events]. rewrite foldl_app, writes_of_app, apply_writes_app. cbn [foldl].
  pose proof (step_contents es img []) as E. cbv zeta in E. destruct (foldl step (img, []) es) as [d p]. cbn [fst snd step] in *.
  intros (kept & Hk & ->). apply sublist_nil_r in Hk as ->. exact E.
Qed.

Lemma crash_nil img c : crash img [] c → c = img.
Proof.
  intros (k & kept & Hc). rewrite take_nil in Hc. cbn in Hc. destruct Hc as [Hs ->].
  by apply sublist_nil_r in Hs as ->.
Qed.

Lemma read_disk off n d : 0 ≤ off → off + n ≤ zlen (base d) →
  Device.read_at off n d = (Ok (sub (contents d) off n), d).
Proof. intros. cbn. unfold read_at. by rewrite decide_True by lia. Qed.

Lemma write_disk off b d : 0 ≤ off → off + zlen b ≤ zlen (base d) →
  Device.write_at off b d = (Ok (), record (EvWrite off b) d).
Proof. intros. cbn. unfold write_at. by rewrite decide_True by lia. Qed.

Lemma zlen_apply_writes img ws :
  Forall (λ w, 0 ≤ fst w ∧ fst w + zlen (snd w) ≤ zlen img) ws → zlen (apply_writes img ws) = zlen img.
Proof.
  revert img. induction ws as [|[o b] ws IH]; intros img Hws; [done|].
  apply Forall_cons in Hws as [[H1 H2] Hws].
  assert (Hz : zlen (apply_write img (o, b)) = zlen img) by (by apply zlen_splice).
  change (apply_writes img ((o, b) :: ws)) with (apply_writes (apply_write img (o, b)) ws).
  rewrite <-Hz in Hws |- *. by apply IH.
Qed.

(** ** An image as its blocks *)

Definition blk (bs : Z) (img : bytes) (b : Z) : bytes := sub img (b * bs) bs.

Section blocks.
Context (bs : Z) (Hbs : 0 < bs).

Lemma blk_write img b d b' : 0 ≤ b → 0 ≤ b' → zlen d = bs → (b + 1) * bs ≤ zlen img →
  blk bs (splice img (b * bs) d) b' = if decide (b = b') then d else blk bs img b'.
Proof using Hbs.
  intros H0 H0' Hd Hb. unfold blk. case_decide as Hbb.
  - subst b'. rewrite sub_splice_same_len; [done|lia|nia|lia].
  - apply sub_splice_disjoint; [nia|lia|nia|]. destruct (decide (b < b')); [right|left]; nia.
Qed.

(** Writes of whole blocks. *)
Definition block_writes (ws : list (Z * bytes)) : list (Z * bytes) := (λ w, (fst w * bs, snd w)) <$> ws.

Definition ws_ok (img : bytes) (ws : list (Z * bytes)) : Prop :=
  Forall (λ w, 0 ≤ fst w ∧ (fst w + 1) * bs ≤ zlen img ∧ zlen (snd w) = bs) ws.

(** The block a sequence of writes leaves at [b]. *)
Definition put_block (m : Z → bytes) (w : Z * bytes) : Z → bytes :=
  λ b, if decide (fst w = b) then snd w else m b.

Lemma blk_writes img ws b : 0 ≤ b → ws_ok img ws →
  blk bs (apply_writes img (block_writes ws)) b = foldl put_block (blk bs img) ws b.
Proof using Hbs.
  intros Hb. revert img. induction ws as [|[b0 d] ws IH] using rev_ind; intros img Hws; [done|].
  apply Forall_app in Hws as [Hws Hw]. apply Forall_cons in Hw as [(H1 & H2 & H3) _]. cbn in *.
  unfold block_writes. rewrite fmap_app, apply_writes_app, foldl_snoc. fold (block_writes ws).
  assert (Hz : zlen (apply_writes img (block_writes ws)) = zlen img).
  { apply zlen_apply_writes. apply Forall_fmap. eapply Forall_impl; [exact Hws|].
    intros [b1 d1] (? & ? & ?). cbn in *. nia. }
  change (blk bs (splice (apply_writes img (block_writes ws)) (b0 * bs) d) b
    = put_block (foldl put_block (blk bs img) ws) (b0, d) b).
  rewrite blk_write by (rewrite ?Hz; done). unfold put_block at 1. cbn. case_decide; [done|]. by apply IH.
Qed.
End blocks.

(** The blocks not written are kept, and the last write to a block wins. *)
Lemma put_blocks_other ws m b : b ∉ fst <$> ws → foldl put_block m ws b = m b.
Proof.
  revert m. induction ws as [|w ws IH]; intros m Hb; [done|]. cbn in *. rewrite IH by set_solver.
  unfold put_block. rewrite decide_False; [done|]. set_solver.
Qed.

Lemma put_blocks_hit ws m m' b : b ∈ fst <$> ws → foldl put_block m ws b = foldl put_block m' ws b.
Proof.
  revert m m'. induction ws as [|w ws IH] using rev_ind; intros m m' Hb; [by apply elem_of_nil in Hb|].
  rewrite !foldl_snoc. unfold put_block at 1 3. case_decide as Hw; [done|].
  apply IH. rewrite fmap_app in Hb. set_solver.
Qed.

(** Replaying a sequence over an image that already holds part of it. *)
Lemma put_blocks_agree ws m m' b : (b ∉ fst <$> ws → m b = m' b) →
  foldl put_block m ws b = foldl put_block m' ws b.
Proof.
  intros Hm. destruct (decide (b ∈ fst <$> ws)) as [Hb|Hb]; [by apply put_blocks_hit|].
  rewrite !put_blocks_other by done. auto.
Qed.

Lemma put_blocks_cases ws m b : foldl put_block m ws b = m b ∨ (b, foldl put_block m ws b) ∈ ws.
Proof.
  induction ws as [|[k x] ws IH] using rev_ind; [by left|]. rewrite foldl_snoc. unfold put_block at 1 3. cbn [fst snd].
  case_decide as Hk; [right; set_solver|]. destruct IH as [IH|IH]; [by left|right; set_solver].
Qed.

Lemma put_blocks_nodup ws m b x : NoDup ws.*1 → (b, x) ∈ ws → foldl put_block m ws b = x.
Proof.
  revert m. induction ws as [|[k y] ws IH]; intros m Hnd Hin; [by apply elem_of_nil in Hin|].
  cbn in *. apply NoDup_cons in Hnd as [Hk Hnd]. apply elem_of_cons in Hin as [[= -> ->]|Hin]; [|by apply IH].
  rewrite put_blocks_other by done. unfold put_block. by rewrite decide_True.
Qed.

Lemma block_writes_sublist bs ws kept : kept `sublist_of` block_writes bs ws →
  ∃ ws', ws' `sublist_of` ws ∧ kept = block_writes bs ws'.
Proof.
  unfold block_writes. revert kept. induction ws as [|x ws IH]; intros kept Hs.
  - apply sublist_nil_r in Hs as ->. by exists [].
  - cbn in Hs. apply sublist_cons_r in Hs as [Hs|(k' & -> & Hs)]; destruct (IH _ Hs) as (ws' & Hws & ->).
    + exists ws'. split; [by constructor|done].
    + exists (x :: ws'). split; [by constructor|done].
Qed.
End Disk.
