(* ===== verification/BlockCache.v ===== *)
(** BlockCache: [CacheState] and [CachedDevice] (src/src/block_cache.rs), and
    the proof that a cached device keeps the [DeviceSpec] contract over the
    image in which pinned blocks shadow the inner device. *)
From S2P Require Import Prelude Errors Bytes Device.

(** ** [CacheState] *)
Module CacheState.

Record t := mk {
  capacity : Z;
  entries : gmap Z (bytes * Z);   (* clean blocks, with their LRU sequence number *)
  pinned : gmap Z bytes;
  next_seq : Z;
  hits : Z;
  misses : Z;
}.

Definition new (capacity : Z) : t := mk capacity ∅ ∅ 0 0 0.

Definition take_seq (s : t) : Z * t :=
  (next_seq s,
   mk (capacity s) (entries s) (pinned s) (as_u64 (next_seq s + 1)) (hits s) (misses s)).

Definition set_entries (e : gmap Z (bytes * Z)) (s : t) : t :=
  mk (capacity s) e (pinned s) (next_seq s) (hits s) (misses s).
Definition set_pinned (p : gmap Z bytes) (s : t) : t :=
  mk (capacity s) (entries s) p (next_seq s) (hits s) (misses s).
Definition hit (s : t) : t :=
  mk (capacity s) (entries s) (pinned s) (next_seq s) (as_u64 (hits s + 1)) (misses s).
Definition miss (s : t) : t :=
  mk (capacity s) (entries s) (pinned s) (next_seq s) (hits s) (as_u64 (misses s + 1)).

(** Look up [block]: pinned wins over the LRU. *)
Definition get (block : Z) (s : t) : option bytes * t :=
  match pinned s !! block with
  | Some b => (Some b, hit s)
  | None =>
      let '(seq, s) := take_seq s in
      match entries s !! block with
      | Some (b, _) => (Some b, hit (set_entries (<[block := (b, seq)]> (entries s)) s))
      | None => (None, miss s)
      end
  end.

(** [entries.iter().min_by_key(|(_, (_, seq))| *seq)]: the first minimum in
    iteration order. *)
Definition older (best : option (Z * Z)) (kv : Z * (bytes * Z)) : option (Z * Z) :=
  match best with
  | Some (k, seq) => if decide (kv.2.2 < seq) then Some (kv.1, kv.2.2) else Some (k, seq)
  | None => Some (kv.1, kv.2.2)
  end.
Definition victim (e : gmap Z (bytes * Z)) : option Z :=
  fst <$> foldl older None (map_to_list e).

(** The clean-entry insertion shared by [put] and [unpin_all]: evict when
    full, then insert under a fresh sequence number. *)
Definition insert_clean (block : Z) (b : bytes) (s : t) : t :=
  if decide (capacity s = 0) then s else
  let s := if decide (capacity s ≤ Z.of_nat (size (entries s))) then
             match victim (entries s) with
             | Some v => set_entries (delete v (entries s)) s
             | None => s
             end
           else s in
  let '(seq, s) := take_seq s in
  set_entries (<[block := (b, seq)]> (entries s)) s.

Definition put (block : Z) (b : bytes) (s : t) : t :=
  match pinned s !! block with
  | Some _ => set_pinned (<[block := b]> (pinned s)) s
  | None => insert_clean block b s
  end.

Definition pin (block : Z) (b : bytes) (s : t) : t :=
  let s := set_entries (delete block (entries s)) s in
  set_pinned (<[block := b]> (pinned s)) s.

(** The drain order of a hash map is unspecified; [drain] takes it as a list. *)
Definition drain (order : list (Z * bytes)) (s : t) : t :=
  foldl (λ s kb, insert_clean kb.1 kb.2 s) (set_pinned ∅ s) order.
Definition unpin_all (s : t) : t := drain (map_to_list (pinned s)) s.

End CacheState.

(** ** [CachedDevice] *)
Module CachedDevice.
Section cached.
Context {D : Type} `{BlockDevice D}.

Record t := mk { inner : D; block_size : Z; state : CacheState.t }.

Definition new (d : D) (bs capacity : Z) : t := mk d bs (CacheState.new capacity).
Definition stats (c : t) : Z * Z := (CacheState.hits (state c), CacheState.misses (state c)).
Definition pinned_blocks (c : t) : Z := Z.of_nat (size (CacheState.pinned (state c))).

Definition on_inner {A} (m : dev_m D A) : dev_m t A := λ c,
  let '(r, d) := m (inner c) in (r, mk d (block_size c) (state c)).
Definition on_state {A} (f : CacheState.t → A * CacheState.t) : dev_m t A := λ c,
  let '(r, s) := f (state c) in (Ok r, mk (inner c) (block_size c) s).
Definition the_state : dev_m t CacheState.t := λ c, (Ok (state c), c).

(** One step of laying pinned blocks over a multi-block read. *)
Definition lay_pinned (bs off e : Z) (pinned : gmap Z bytes) (buf : bytes) (block : Z) : res bytes :=
  match pinned !! block with
  | None => Ok buf
  | Some img =>
      let block_start := block * bs in
      let from := Z.max off block_start in
      let to := Z.min e (block_start + bs) in
      src ← slice img (from - block_start) (to - from);
      put buf (from - off) src
  end.

Definition read_at (off len : Z) : dev_m t bytes := λ c,
  let bs := block_size c in
  let block := off / bs in
  let off_in_block := off mod bs in
  (if decide (off_in_block + len ≤ bs) then
     o ← on_state (CacheState.get block);
     match o with
     | Some blk => dev_lift (slice blk off_in_block len)
     | None =>
         blk ← on_inner (read_at (block * bs) bs);
         buf ← dev_lift (slice blk off_in_block len);
         _ ← on_state (λ s, (tt, CacheState.put block blk s));
         mret buf
     end
   else
     buf ← on_inner (Device.read_at off len);
     s ← the_state;
     if decide (CacheState.pinned s = ∅) then mret buf else
     let e := off + len in
     dev_lift (foldM (lay_pinned bs off e (CacheState.pinned s)) buf
                 (seqZ (off / bs) (div_ceil e bs - off / bs)))) c.

(** One step of an unaligned write over the cached blocks it touches. *)
Definition patch_block (bs off : Z) (buf : bytes) (s : CacheState.t) (b : Z) : res CacheState.t :=
  let block_start := b * bs in
  let block_end := block_start + bs in
  let write_start := Z.max off block_start in
  let write_end := Z.min (off + zlen buf) block_end in
  let in_block_off := write_start - block_start in
  let buf_start := write_start - off in
  let buf_end := write_end - off in
  s ← (match CacheState.pinned s !! b with
       | Some img =>
           src ← slice buf buf_start (buf_end - buf_start);
           img ← put img in_block_off src;
           Ok (CacheState.set_pinned (<[b := img]> (CacheState.pinned s)) s)
       | None => Ok s
       end);
  Ok (CacheState.set_entries (delete b (CacheState.entries s)) s).

Definition write_at (off : Z) (buf : bytes) : dev_m t unit := λ c,
  let bs := block_size c in
  (_ ← on_inner (write_at off buf);
   let off_in_block := off mod bs in
   if decide (off_in_block = 0 ∧ zlen buf = bs) then
     on_state (λ s, (tt, CacheState.put (off / bs) buf s))
   else
     let first_block := off / bs in
     let last_block := saturating_sub (off + zlen buf) 1 / bs in
     s ← the_state;
     s ← dev_lift (foldM (patch_block bs off buf) s
                     (seqZ first_block (last_block - first_block + 1)));
     on_state (λ _, (tt, s))) c.

Definition flush : dev_m t unit := on_inner flush.
Definition populate_cache (block : Z) (b : bytes) (c : t) : t :=
  mk (inner c) (block_size c) (CacheState.pin block b (state c)).
Definition unpin_all (c : t) : t :=
  mk (inner c) (block_size c) (CacheState.unpin_all (state c)).

Definition invalidate_cache : dev_m t unit :=
  s ← the_state;
  if decide (CacheState.pinned s ≠ ∅)
  then dev_lift (Err (Corrupt "cache contains uncheckpointed journal metadata"))
  else _ ← on_inner Device.invalidate_cache;
       on_state (λ s, (tt, CacheState.set_entries ∅ s)).

End cached.
Arguments t D : clear implicits.
End CachedDevice.

#[global] Instance CachedDevice_BlockDevice `{BlockDevice D} :
  BlockDevice (CachedDevice.t D) := {
  read_at := CachedDevice.read_at;
  size_bytes c := size_bytes (CachedDevice.inner c);
  write_at := CachedDevice.write_at;
  flush := CachedDevice.flush;
  is_writable c := is_writable (CachedDevice.inner c);
  populate_cache := CachedDevice.populate_cache;
  unpin_all := CachedDevice.unpin_all;
  invalidate_cache := CachedDevice.invalidate_cache;
}.

(** ** The image a cached device shows *)

(** [img] with every pinned block laid over it. *)
Definition overlay (bs : Z) (img : bytes) (p : gmap Z bytes) : bytes :=
  imap (λ i x, match p !! (Z.of_nat i / bs) with
               | Some b => default x (b !! Z.to_nat (Z.of_nat i mod bs))
               | None => x
               end) img.

Definition pins_ok (bs : Z) (img : bytes) (p : gmap Z bytes) : Prop :=
  ∀ k b, p !! k = Some b → 0 ≤ k ∧ (k + 1) * bs ≤ zlen img ∧ zlen b = bs ∧ bytes_ok b.

Definition clean_ok (bs : Z) (img : bytes) (e : gmap Z (bytes * Z)) : Prop :=
  ∀ k b seq, e !! k = Some (b, seq) →
    0 ≤ k ∧ (k + 1) * bs ≤ zlen img ∧ b = sub img (k * bs) bs.

Definition bounded (s : CacheState.t) : Prop :=
  Z.of_nat (size (CacheState.entries s)) ≤ CacheState.capacity s.

Definition cache_ok (bs : Z) (img : bytes) (s : CacheState.t) : Prop :=
  pins_ok bs img (CacheState.pinned s) ∧ clean_ok bs img (CacheState.entries s) ∧
  (∀ k b, CacheState.pinned s !! k = Some b → CacheState.entries s !! k = None) ∧ bounded s.

(** As [cache_ok], but the clean entry of block [k] may be stale: the state
    between a write to the device and the matching [put]. *)
Definition cache_ok_but (k : Z) (bs : Z) (img : bytes) (s : CacheState.t) : Prop :=
  pins_ok bs img (CacheState.pinned s) ∧
  (∀ k' b seq, k' ≠ k → CacheState.entries s !! k' = Some (b, seq) →
     0 ≤ k' ∧ (k' + 1) * bs ≤ zlen img ∧ b = sub img (k' * bs) bs) ∧
  (∀ k' b, CacheState.pinned s !! k' = Some b → CacheState.entries s !! k' = None) ∧ bounded s.

Lemma cache_ok_weaken k bs img s : cache_ok bs img s → cache_ok_but k bs img s.
Proof. intros (? & Hc & ? & ?). split_and!; try done. intros k' b seq _. apply Hc. Qed.

Section overlay.
Context (bs : Z) (Hbs : 0 < bs).

Lemma zlen_overlay img p : zlen (overlay bs img p) = zlen img.
Proof. unfold zlen, overlay. by rewrite length_imap. Qed.

Lemma div_block x k : x / bs = k ↔ k * bs ≤ x < (k + 1) * bs.
Proof.
  split; [intros <-; pose proof (Z.div_mod x bs); pose proof (Z.mod_pos_bound x bs); lia|].
  intros. symmetry. apply (Z.div_unique_pos x bs k (x - k * bs)); lia.
Qed.

Lemma lookup_overlay img p i :
  pins_ok bs img p → Z.of_nat i < zlen img →
  overlay bs img p !! i =
    match p !! (Z.of_nat i / bs) with
    | Some b => b !! Z.to_nat (Z.of_nat i - Z.of_nat i / bs * bs)
    | None => img !! i
    end.
Proof.
  intros Hp Hi. unfold overlay. rewrite list_lookup_imap.
  destruct (img !! i) as [x|] eqn:Ex; [|apply lookup_ge_None in Ex; unfold zlen in Hi; lia].
  simpl. destruct (p !! _) as [b|] eqn:Eb; [|done].
  destruct (Hp _ _ Eb) as (_ & _ & Hl & _).
  replace (Z.of_nat i mod bs) with (Z.of_nat i - Z.of_nat i / bs * bs)
    by (rewrite Z.mod_eq; lia).
  pose proof (proj1 (div_block (Z.of_nat i) _) eq_refl).
  destruct (b !! _) eqn:E; [done|]. apply lookup_ge_None in E. unfold zlen in Hl. lia.
Qed.

Lemma overlay_empty img : overlay bs img ∅ = img.
Proof.
  apply list_eq. intros i. destruct (decide (Z.of_nat i < zlen img)).
  - rewrite lookup_overlay; [by rewrite lookup_empty| |done]. intros k b. by rewrite lookup_empty.
  - rewrite !lookup_ge_zlen; rewrite ?zlen_overlay; lia || done.
Qed.

Lemma bytes_ok_overlay img p : pins_ok bs img p → bytes_ok img → bytes_ok (overlay bs img p).
Proof.
  intros Hp Hi. apply Forall_lookup. intros i x Hx.
  assert (Z.of_nat i < zlen img) by (rewrite <-(zlen_overlay img p); by eapply lookup_lt_zlen).
  rewrite lookup_overlay in Hx by done. destruct (p !! _) as [b|] eqn:E.
  - destruct (Hp _ _ E) as (_ & _ & _ & Hb). by eapply Forall_lookup_1 in Hx; [|exact Hb].
  - by eapply Forall_lookup_1 in Hx; [|exact Hi].
Qed.

(** Two images are equal when they agree position by position. *)
Lemma bytes_pos_eq (l k : bytes) :
  zlen l = zlen k → (∀ i, Z.of_nat i < zlen l → l !! i = k !! i) → l = k.
Proof.
  intros Hl H. apply list_eq. intros i. destruct (decide (Z.of_nat i < zlen l)); [by apply H|].
  by rewrite !lookup_ge_zlen by lia.
Qed.

Lemma sub_overlay img p k o n :
  pins_ok bs img p → 0 ≤ k → (k + 1) * bs ≤ zlen img → 0 ≤ o → o + n ≤ bs →
  sub (overlay bs img p) (k * bs + o) n =
    match p !! k with Some b => sub b o n | None => sub img (k * bs + o) n end.
Proof.
  intros Hp Hk Hz Ho Hn. apply list_eq. intros i.
  rewrite lookup_sub. case_decide as Hi.
  2:{ destruct (p !! k); by rewrite lookup_sub, decide_False by done. }
  assert (Hq : Z.of_nat (Z.to_nat (k * bs + o) + i) / bs = k) by (apply div_block; lia).
  rewrite lookup_overlay by (try done; lia). rewrite Hq.
  destruct (p !! k) as [b|] eqn:Eb; rewrite lookup_sub, decide_True by done; [|done].
  f_equal. lia.
Qed.

(** ** The cache operations keep [cache_ok] *)

Lemma get_spec img s k r s' :
  cache_ok bs img s → CacheState.get k s = (r, s') →
  cache_ok bs img s' ∧ CacheState.pinned s' = CacheState.pinned s ∧
  match r with
  | Some b => (CacheState.pinned s !! k = Some b) ∨
      (CacheState.pinned s !! k = None ∧ 0 ≤ k ∧ (k + 1) * bs ≤ zlen img ∧ b = sub img (k * bs) bs)
  | None => CacheState.pinned s !! k = None
  end.
Proof.
  intros (Hp & Hc & Hd & Hb). unfold CacheState.get.
  destruct (CacheState.pinned s !! k) as [b|] eqn:E.
  { intros [= <- <-]. split_and!; try done. by left. }
  simpl. destruct (CacheState.entries s !! k) as [[b seq]|] eqn:E2; intros [= <- <-].
  - destruct (Hc _ _ _ E2) as (? & ? & ?). split_and!; [|done|by right].
    split_and!; simpl; [done| | |].
    + intros k' b' seq' Hl. destruct (decide (k' = k)) as [->|].
      * rewrite lookup_insert in Hl. rewrite decide_True in Hl by done. naive_solver.
      * rewrite lookup_insert_ne in Hl by done. by eapply Hc.
    + intros k' b' Hl. destruct (decide (k' = k)) as [->|]; [congruence|].
      rewrite lookup_insert_ne by done. by eapply Hd.
    + unfold bounded in *; simpl. by rewrite map_size_insert_Some by done.
  - split_and!; done.
Qed.

Lemma victim_in e : e ≠ ∅ → ∃ v, CacheState.victim e = Some v ∧ is_Some (e !! v).
Proof.
  intros He. unfold CacheState.victim.
  assert (G : ∀ l best, (∀ k q, best = Some (k, q) → is_Some (e !! k)) →
    (∀ kv, kv ∈ l → is_Some (e !! kv.1)) → l ≠ [] ∨ is_Some best →
    ∃ k q, foldl CacheState.older best l = Some (k, q) ∧ is_Some (e !! k)).
  { induction l as [|kv l IH]; intros best Hb Hl Hn; simpl.
    - destruct Hn as [?|[[k q] ->]]; [done|]. exists k, q. split; [done|]. by eapply Hb.
    - apply IH; [| |right].
      + intros k q. unfold CacheState.older. destruct best as [[k0 q0]|].
        * case_decide; intros [= <- <-]; [apply Hl; set_solver|by eapply Hb].
        * intros [= <- <-]. apply Hl; set_solver.
      + intros kv' H. apply Hl. set_solver.
      + unfold CacheState.older. destruct best as [[k0 q0]|]; [case_decide|]; by eexists. }
  destruct (G (map_to_list e) None) as (k & q & E & Hk).
  - done.
  - intros [k [b q]] H. apply elem_of_map_to_list in H. by eexists.
  - left. intros H. apply map_to_list_empty_iff in H. done.
  - rewrite E. simpl. by exists k.
Qed.

Lemma insert_clean_spec img s k :
  cache_ok_but k bs img s → CacheState.pinned s !! k = None → 0 ≤ k → (k + 1) * bs ≤ zlen img →
  cache_ok bs img (CacheState.insert_clean k (sub img (k * bs) bs) s) ∧
  CacheState.pinned (CacheState.insert_clean k (sub img (k * bs) bs) s) = CacheState.pinned s.
Proof.
  intros (Hp & Hc & Hd & Hb) Hk H1 H2. unfold CacheState.insert_clean.
  case_decide as Hcap.
  { split; [|done]. split_and!; try done. unfold bounded in Hb.
    assert (CacheState.entries s = ∅) as E by (apply map_size_empty_iff; lia).
    intros k' b seq. by rewrite E, lookup_empty. }
  set (s1 := if decide (CacheState.capacity s ≤ _) then _ else s).
  assert (Hs1 : CacheState.pinned s1 = CacheState.pinned s ∧
    CacheState.capacity s1 = CacheState.capacity s ∧
    CacheState.entries s1 ⊆ CacheState.entries s ∧
    Z.of_nat (size (CacheState.entries s1)) < CacheState.capacity s).
  { subst s1. unfold bounded in Hb. case_decide as Hfull; [|split_and!; try done; lia].
    destruct (victim_in (CacheState.entries s)) as (v & -> & w & Hv).
    { intros E. rewrite E, map_size_empty in *. lia. }
    simpl. split_and!; try done; [apply delete_subseteq|].
    rewrite map_size_delete_Some by by eexists. 
    assert (size (CacheState.entries s) ≠ 0%nat).
    { intros E. apply map_size_empty_iff in E. rewrite E, lookup_empty in Hv. done. }
    lia. }
  clearbody s1. destruct Hs1 as (E1 & E2 & E3 & E4). unfold CacheState.take_seq. simpl.
  split; [|done]. split_and!; simpl.
  - by rewrite E1.
  - intros k' b' seq' Hl. destruct (decide (k' = k)) as [->|].
    + rewrite lookup_insert, decide_True in Hl by done. naive_solver.
    + rewrite lookup_insert_ne in Hl by done. eapply Hc; [done|]. by eapply lookup_weaken.
  - intros k' b'. rewrite E1. intros Hl. destruct (decide (k' = k)) as [->|]; [congruence|].
    rewrite lookup_insert_ne by done. apply Hd in Hl. by eapply lookup_weaken_None.
  - unfold bounded; simpl. rewrite E2.
    rewrite map_size_insert. destruct (CacheState.entries s1 !! k); simpl; lia.
Qed.

(** [put] of the bytes the device now holds for a clean block, or of the new
    bytes of a pinned one. *)
Lemma put_spec img s k b :
  cache_ok_but k bs img s → 0 ≤ k → (k + 1) * bs ≤ zlen img → bytes_ok b → zlen b = bs →
  (CacheState.pinned s !! k = None → b = sub img (k * bs) bs) →
  cache_ok bs img (CacheState.put k b s) ∧
  CacheState.pinned (CacheState.put k b s) =
    match CacheState.pinned s !! k with
    | Some _ => <[k := b]> (CacheState.pinned s) | None => CacheState.pinned s end.
Proof.
  intros Hok H1 H2 Hb Hl Heq. unfold CacheState.put.
  destruct (CacheState.pinned s !! k) as [b0|] eqn:E.
  2:{ rewrite Heq by done. by apply insert_clean_spec. }
  split; [|done]. destruct Hok as (Hp & Hc & Hd & Hsz). split_and!; simpl; try done.
  - intros k' b'. destruct (decide (k' = k)) as [->|].
    + rewrite lookup_insert, decide_True by done. intros [= <-]. done.
    + rewrite lookup_insert_ne by done. apply Hp.
  - intros k' b' seq Hl'. destruct (decide (k' = k)) as [->|]; [|by eapply Hc].
    apply Hd in E. congruence.
  - intros k' b'. destruct (decide (k' = k)) as [->|].
    + intros _. by eapply Hd.
    + rewrite lookup_insert_ne by done. apply Hd.
Qed.

Lemma pin_spec img s k b :
  cache_ok bs img s → 0 ≤ k → (k + 1) * bs ≤ zlen img → zlen b = bs → bytes_ok b →
  cache_ok bs img (CacheState.pin k b s) ∧
  CacheState.pinned (CacheState.pin k b s) = <[k := b]> (CacheState.pinned s).
Proof.
  intros (Hp & Hc & Hd & Hsz) H1 H2 Hl Hb. split; [|done].
  split_and!; simpl.
  - intros k' b'. destruct (decide (k' = k)) as [->|].
    + rewrite lookup_insert, decide_True by done. intros [= <-]. done.
    + rewrite lookup_insert_ne by done. apply Hp.
  - intros k' b' seq Hlk. apply lookup_delete_Some in Hlk as [_ Hlk]. by eapply Hc.
  - intros k' b'. destruct (decide (k' = k)) as [->|].
    + intros _. apply lookup_delete_eq.
    + rewrite lookup_insert_ne by done. intros Hlk.
      rewrite lookup_delete_ne by done. by eapply Hd.
  - unfold bounded in *; simpl in *. rewrite map_size_delete.
    destruct (CacheState.entries s !! k); simpl; lia.
Qed.

Lemma drain_spec img s order :
  cache_ok bs img s → CacheState.pinned s = ∅ →
  (∀ k b, (k, b) ∈ order → 0 ≤ k ∧ (k + 1) * bs ≤ zlen img ∧ b = sub img (k * bs) bs) →
  cache_ok bs img (foldl (λ s kb, CacheState.insert_clean kb.1 kb.2 s) s order) ∧
  CacheState.pinned (foldl (λ s kb, CacheState.insert_clean kb.1 kb.2 s) s order) = ∅.
Proof.
  revert s. induction order as [|[k b] order IH]; intros s Hok Hp Ho; simpl; [done|].
  destruct (Ho k b ltac:(set_solver)) as (H1 & H2 & ->).
  destruct (insert_clean_spec img s k) as [Hok' Hp']; [by apply cache_ok_weaken| |done|done|].
  { by rewrite Hp, lookup_empty. }
  apply IH; [done|congruence|]. intros. apply Ho. set_solver.
Qed.

(** A write to the device below, seen through the overlay: every pinned block
    the write touches must be patched the same way. *)
Lemma overlay_splice img p p' off buf :
  pins_ok bs img p → pins_ok bs (splice img off buf) p' →
  0 ≤ off → off + zlen buf ≤ zlen img →
  (∀ k, p !! k = None ↔ p' !! k = None) →
  (∀ k b b' i, p !! k = Some b → p' !! k = Some b' → 0 ≤ i < bs →
     b' !! Z.to_nat i = if decide (off ≤ k * bs + i < off + zlen buf)
                        then buf !! Z.to_nat (k * bs + i - off) else b !! Z.to_nat i) →
  overlay bs (splice img off buf) p' = splice (overlay bs img p) off buf.
Proof.
  intros Hp Hp' H1 H2 Hdom Hpatch.
  apply bytes_pos_eq; [rewrite zlen_overlay, !zlen_splice; rewrite ?zlen_overlay; lia|].
  intros i. rewrite zlen_overlay, zlen_splice by lia. intros Hi.
  rewrite lookup_overlay by (try done; rewrite zlen_splice; lia).
  rewrite (lookup_splice (overlay bs img p)) by (rewrite ?zlen_overlay; lia).
  rewrite lookup_overlay by done.
  set (k := Z.of_nat i / bs). pose proof (proj1 (div_block (Z.of_nat i) k) eq_refl).
  destruct (p !! k) as [b|] eqn:E, (p' !! k) as [b'|] eqn:E'.
  - rewrite (Hpatch k b b') by (done || lia).
    replace (k * bs + (Z.of_nat i - k * bs)) with (Z.of_nat i) by lia.
    case_decide; [|done]. f_equal. lia.
  - apply Hdom in E'. congruence.
  - apply Hdom in E. congruence.
  - by rewrite lookup_splice by lia.
Qed.

(** Clean entries survive a write that does not meet their block. *)
Lemma sub_splice_block (img : bytes) off buf k :
  0 ≤ off → off + zlen buf ≤ zlen img → 0 ≤ k →
  (k + 1) * bs ≤ off ∨ off + zlen buf ≤ k * bs →
  sub (splice img off buf) (k * bs) bs = sub img (k * bs) bs.
Proof. intros. apply sub_splice_disjoint; nia. Qed.

Lemma lay_pinned_spec (img : bytes) p off len (buf : bytes) k :
  pins_ok bs img p → 0 ≤ off → off + len ≤ zlen img → 0 < len →
  off / bs ≤ k < div_ceil (off + len) bs →
  zlen buf = len →
  (∀ i, Z.of_nat i < len → buf !! i =
     if decide ((off + Z.of_nat i) / bs < k) then overlay bs img p !! Z.to_nat (off + Z.of_nat i)
     else img !! Z.to_nat (off + Z.of_nat i)) →
  ∃ buf', CachedDevice.lay_pinned bs off (off + len) p buf k = Ok buf' ∧ zlen buf' = len ∧
    ∀ i, Z.of_nat i < len → buf' !! i =
     if decide ((off + Z.of_nat i) / bs < k + 1) then overlay bs img p !! Z.to_nat (off + Z.of_nat i)
     else img !! Z.to_nat (off + Z.of_nat i).
Proof.
  intros Hp H1 H2 H3 Hk Hl Hi. unfold CachedDevice.lay_pinned.
  assert (Hq : ∀ i, (off + Z.of_nat i) / bs < k + 1 → ¬ (off + Z.of_nat i) / bs < k →
    (off + Z.of_nat i) / bs = k) by lia.
  assert (Hov : ∀ i, Z.of_nat i < len → (off + Z.of_nat i) / bs = k →
    overlay bs img p !! Z.to_nat (off + Z.of_nat i) =
    match p !! k with Some b => b !! Z.to_nat (off + Z.of_nat i - k * bs)
                    | None => img !! Z.to_nat (off + Z.of_nat i) end).
  { intros i ? E. rewrite lookup_overlay by (try done; lia).
    rewrite Z2Nat.id by lia. by rewrite E. }
  destruct (p !! k) as [b|] eqn:E.
  2:{ exists buf. split_and!; try done. intros i Hlt. rewrite Hi by done.
      destruct (decide ((off + Z.of_nat i) / bs < k)); [by rewrite decide_True by lia|].
      case_decide; [|done]. by rewrite Hov by auto. }
  destruct (Hp _ _ E) as (Hk0 & Hk1 & Hlb & Hbb).
  assert (off / bs ≤ k ∧ k * bs < off + len) as [Hlo Hhi].
  { split; [lia|]. destruct Hk as [_ Hk]. unfold div_ceil in Hk.
    pose proof (Z.mul_div_le (off + len + bs - 1) bs ltac:(lia)). nia. }
  assert (off < (k + 1) * bs).
  { pose proof (Z.mul_succ_div_gt off bs ltac:(lia)). nia. }
  rewrite slice_ok by lia. simpl. rewrite put_ok by (autorewrite with zlen; lia).
  eexists; split; [done|]. split; [rewrite zlen_splice; autorewrite with zlen; lia|].
  intros i Hlt. rewrite lookup_splice by (autorewrite with zlen; lia).
  rewrite zlen_sub, lookup_sub.
  pose proof (div_block (off + Z.of_nat i)) as Hd.
  destruct (decide ((off + Z.of_nat i) / bs = k)) as [Ek|Ek].
  - pose proof (proj1 (Hd k) Ek). rewrite !decide_True by lia.
    rewrite Hov by done. f_equal. lia.
  - rewrite decide_False.
    + rewrite Hi by done. destruct (decide ((off + Z.of_nat i) / bs < k)).
      * by rewrite decide_True by lia.
      * by rewrite decide_False by lia.
    + intros Hr. apply Ek, Hd. lia.
Qed.
End overlay.

(** How far an unaligned write has got when the blocks below [k] are patched. *)
Record patched (bs off : Z) (buf : bytes) (s : CacheState.t) (k : Z) (s1 : CacheState.t) : Prop := {
  patched_bounded : bounded s1;
  patched_entries : CacheState.entries s1 ⊆ CacheState.entries s;
  patched_gone j : off / bs ≤ j < k → CacheState.entries s1 !! j = None;
  patched_none j : CacheState.pinned s !! j = None → CacheState.pinned s1 !! j = None;
  patched_some j b : CacheState.pinned s !! j = Some b →
    ∃ b', CacheState.pinned s1 !! j = Some b' ∧ zlen b' = bs ∧ bytes_ok b' ∧
    ∀ i, 0 ≤ i < bs → b' !! Z.to_nat i =
      if decide (off / bs ≤ j < k ∧ off ≤ j * bs + i < off + zlen buf)
      then buf !! Z.to_nat (j * bs + i - off) else b !! Z.to_nat i;
}.

Lemma patched_entries_delete bs off buf s k s1 p :
  patched bs off buf s k s1 →
  let s2 := CacheState.set_entries (delete k (CacheState.entries s1)) (CacheState.set_pinned p s1) in
  bounded s2 ∧ CacheState.entries s2 ⊆ CacheState.entries s ∧
  ∀ j, off / bs ≤ j < k + 1 → CacheState.entries s2 !! j = None.
Proof.
  intros [Hb He Hg _ _]; simpl. split_and!.
  - unfold bounded in *; simpl. rewrite map_size_delete.
    destruct (CacheState.entries s1 !! k); simpl; lia.
  - etrans; [apply delete_subseteq|done].
  - intros j Hj. destruct (decide (j = k)) as [->|]; [apply lookup_delete_eq|].
    rewrite lookup_delete_ne by done. apply Hg. lia.
Qed.

Lemma patch_block_spec bs off (buf : bytes) s k s1 :
  0 < bs → 0 ≤ off → 0 < zlen buf → bytes_ok buf →
  off / bs ≤ k → k * bs < off + zlen buf →
  patched bs off buf s k s1 →
  ∃ s2, CachedDevice.patch_block bs off buf s1 k = Ok s2 ∧ patched bs off buf s (k + 1) s2.
Proof.
  intros Hbs H1 H2 Hbuf Hk1 Hk2 HP. unfold CachedDevice.patch_block.
  assert (Hk3 : off < (k + 1) * bs) by (pose proof (Z.mul_succ_div_gt off bs ltac:(lia)); nia).
  destruct (CacheState.pinned s1 !! k) as [b1|] eqn:E.
  - destruct (CacheState.pinned s !! k) as [b|] eqn:E0;
      [|apply (patched_none _ _ _ _ _ _ HP) in E0; congruence].
    destruct (patched_some _ _ _ _ _ _ HP _ _ E0) as (b1' & E1 & Hl & Hb1 & Hi).
    assert (b1' = b1) as -> by congruence.
    rewrite slice_ok by lia. simpl. rewrite put_ok by (autorewrite with zlen; lia). simpl.
    eexists; split; [done|].
    destruct (patched_entries_delete _ _ _ _ _ _
      (<[k := splice b1 (Z.max off (k * bs) - k * bs)
         (sub buf (Z.max off (k * bs) - off)
            (Z.min (off + zlen buf) (k * bs + bs) - off - (Z.max off (k * bs) - off)))]>
       (CacheState.pinned s1)) HP) as (? & ? & ?).
    split; try done; simpl.
    + intros j Hj. rewrite lookup_insert_ne by congruence. by apply (patched_none _ _ _ _ _ _ HP).
    + intros j bj Hj. destruct (decide (j = k)) as [->|Hne].
      * rewrite lookup_insert, decide_True by done. eexists; split; [done|].
        split; [rewrite zlen_splice; autorewrite with zlen; lia|].
        split; [auto with ext4|]. intros i Hlt. assert (bj = b) as -> by congruence.
        rewrite lookup_splice by (autorewrite with zlen; lia). rewrite zlen_sub.
        destruct (decide (off ≤ k * bs + i < off + zlen buf)).
        -- rewrite decide_True by lia. rewrite lookup_sub, !decide_True by lia. f_equal. lia.
        -- rewrite decide_False by lia. rewrite Hi by done.
           by rewrite !decide_False by lia.
      * rewrite lookup_insert_ne by done.
        destruct (patched_some _ _ _ _ _ _ HP _ _ Hj) as (bj' & Ej & ? & ? & Hij).
        exists bj'. split_and!; try done. intros i Hlt. rewrite Hij by done.
        apply decide_ext; naive_solver lia.
  - eexists; split; [done|].
    destruct (patched_entries_delete _ _ _ _ _ _ (CacheState.pinned s1) HP) as (? & ? & ?).
    split; try done; simpl.
    + apply HP.
    + intros j bj Hj. destruct (patched_some _ _ _ _ _ _ HP _ _ Hj) as (bj' & Ej & ? & ? & Hij).
      assert (j ≠ k) by congruence.
      exists bj'. split_and!; try done. intros i Hlt. rewrite Hij by done.
      apply decide_ext; naive_solver lia.
Qed.

Section cached_proofs.
Context {D : Type} `{HD : DeviceSpec 1 D}.

Definition CachedDevice_image (c : CachedDevice.t D) : bytes :=
  overlay (CachedDevice.block_size c) (image (CachedDevice.inner c))
    (CacheState.pinned (CachedDevice.state c)).

(** The device below is a whole number of blocks, and the cache is coherent
    with it. *)
Definition CachedDevice_wf (c : CachedDevice.t D) : Prop :=
  let bs := CachedDevice.block_size c in
  let img := image (CachedDevice.inner c) in
  dev_wf (CachedDevice.inner c) ∧ 0 < bs ∧ (bs | zlen img) ∧
  cache_ok bs img (CachedDevice.state c).

Lemma whole_block bs (img : bytes) off :
  0 < bs → (bs | zlen img) → 0 ≤ off < zlen img →
  0 ≤ off / bs ∧ (off / bs + 1) * bs ≤ zlen img.
Proof.
  intros Hbs [q Hq] Ho. pose proof (Z.div_pos off bs ltac:(lia) Hbs).
  pose proof (Z.mul_div_le off bs Hbs).
  assert (off / bs < q) by (apply Z.div_lt_upper_bound; lia). nia.
Qed.

Abbreviation served d bs s off n r :=
  (∃ c', r = (Ok (sub (overlay bs (image d) (CacheState.pinned s)) off n), c') ∧
    CachedDevice_wf c' ∧ CachedDevice_image c' = overlay bs (image d) (CacheState.pinned s) ∧
    is_writable c' = is_writable d).

(** A read inside one block goes through the cache. *)
Lemma cached_read_single d bs s off n :
  CachedDevice_wf (CachedDevice.mk d bs s) → 0 ≤ off → 0 < n → off + n ≤ zlen (image d) →
  off mod bs + n ≤ bs →
  served d bs s off n (CachedDevice.read_at off n (CachedDevice.mk d bs s)).
Proof.
  unfold CachedDevice_image, CachedDevice_wf; simpl.
  intros (Hwf & Hbs & Hdiv & Hok) H1 H2 H3 Hsingle.
  unfold CachedDevice.read_at, mbind, dev_bind; simpl. rewrite decide_True by done.
  pose proof (Z.div_mod off bs ltac:(lia)) as Hdm. pose proof (Z.mod_pos_bound off bs Hbs).
  destruct (whole_block bs (image d) off Hbs Hdiv ltac:(lia)) as [Hk0 Hk1].
  pose proof Hok as (Hpins & Hrest).
  assert (Hsub : sub (overlay bs (image d) (CacheState.pinned s)) off n =
     match CacheState.pinned s !! (off / bs) with
     | Some b => sub b (off mod bs) n
     | None => sub (image d) (off / bs * bs + off mod bs) n end).
  { replace off with (off / bs * bs + off mod bs) at 1 by lia. apply sub_overlay; try done; lia. }
  rewrite Hsub. unfold CachedDevice.on_state; simpl.
  destruct (CacheState.get (off / bs) s) as [r s'] eqn:Eg.
  destruct (get_spec bs _ _ _ _ _ Hok Eg) as (Hok' & Hp' & Hr).
  destruct r as [b|].
  - exists (CachedDevice.mk d bs s'). simpl. rewrite Hp'. split_and!; try done. unfold dev_lift.
    f_equal. destruct Hr as [Hr|(Hr & _ & _ & ->)]; rewrite Hr.
    + destruct (Hpins _ _ Hr) as (_ & _ & Hl & _). by rewrite slice_ok by lia.
    + rewrite slice_ok by (autorewrite with zlen; lia). f_equal. rewrite sub_sub by lia. done.
  - rewrite Hr. unfold CachedDevice.on_inner; simpl.
    destruct (spec_read d (off / bs * bs) bs) as (d' & E & Hwf' & Him & Hw);
      try done; try lia; try apply Z.divide_1_l.
    rewrite E. simpl. unfold dev_lift.
    rewrite slice_ok by (autorewrite with zlen; lia). simpl. rewrite sub_sub by lia.
    destruct (put_spec bs Hbs (image d) s' (off / bs) (sub (image d) (off / bs * bs) bs))
      as [Hok'' Hp'']; try done; try lia; [by apply cache_ok_weaken| | |].
    { apply bytes_ok_sub. by apply spec_bytes. } { autorewrite with zlen. lia. }
    rewrite Hp', Hr in Hp''.
    eexists; split; [done|]. simpl. rewrite Him, Hp''. done.
Qed.

(** A longer read passes through and lays the pinned blocks over the bytes. *)
Lemma cached_read_multi d bs s off n :
  CachedDevice_wf (CachedDevice.mk d bs s) → 0 ≤ off → 0 < n → off + n ≤ zlen (image d) →
  ¬ off mod bs + n ≤ bs →
  served d bs s off n (CachedDevice.read_at off n (CachedDevice.mk d bs s)).
Proof.
  unfold CachedDevice_image, CachedDevice_wf; simpl.
  intros (Hwf & Hbs & Hdiv & Hok) H1 H2 H3 Hmulti.
  unfold CachedDevice.read_at, mbind, dev_bind; simpl. rewrite decide_False by done.
  pose proof Hok as (Hpins & Hrest). unfold CachedDevice.on_inner; simpl.
  destruct (spec_read d off n) as (d' & E & Hwf' & Him & Hw);
    try done; try lia; try apply Z.divide_1_l.
  rewrite E. simpl. case_decide as Hemp.
  { eexists; split; [by rewrite Hemp, overlay_empty|].
    unfold CachedDevice_wf, CachedDevice_image; simpl. rewrite Him. done. }
  unfold dev_lift.
  destruct (foldM_seqZ_ok (λ k buf, zlen buf = n ∧ ∀ i, Z.of_nat i < n → buf !! i =
       if decide ((off + Z.of_nat i) / bs < k)
       then overlay bs (image d) (CacheState.pinned s) !! Z.to_nat (off + Z.of_nat i)
       else image d !! Z.to_nat (off + Z.of_nat i))
     (CachedDevice.lay_pinned bs off (off + n) (CacheState.pinned s)) (off / bs)
     (div_ceil (off + n) bs - off / bs) (sub (image d) off n))
    as (buf & Efold & Hlbuf & Hbuf).
  { unfold div_ceil. pose proof (Z.div_le_mono off (off + n + bs - 1) bs Hbs). lia. }
  { split; [autorewrite with zlen; lia|]. intros i Hi. rewrite lookup_sub, decide_True by lia.
    rewrite decide_False by (pose proof (Z.div_le_mono off (off + Z.of_nat i) bs Hbs); lia).
    f_equal. lia. }
  { intros k b Hk [Hl Hb]. apply (lay_pinned_spec bs Hbs (image d)); try done; lia. }
  rewrite Efold. exists (CachedDevice.mk d' bs s); split; [|unfold CachedDevice_wf, CachedDevice_image; simpl; rewrite Him; done].
  do 2 f_equal. apply bytes_pos_eq; [autorewrite with zlen; rewrite zlen_overlay; lia|].
  intros i Hi. rewrite lookup_sub, decide_True, Hbuf by lia.
  rewrite decide_True; [f_equal; lia|].
  replace (off / bs + (div_ceil (off + n) bs - off / bs)) with (div_ceil (off + n) bs) by lia.
  unfold div_ceil. apply Z.div_lt_upper_bound; [lia|].
  pose proof (Z.mul_succ_div_gt (off + n + bs - 1) bs ltac:(lia)). lia.
Qed.

Lemma cached_read c off n :
  CachedDevice_wf c → 0 ≤ off → 0 < n → off + n ≤ zlen (CachedDevice_image c) →
  ∃ c', CachedDevice.read_at off n c = (Ok (sub (CachedDevice_image c) off n), c') ∧
    CachedDevice_wf c' ∧ CachedDevice_image c' = CachedDevice_image c ∧
    is_writable c' = is_writable c.
Proof.
  destruct c as [d bs s]. unfold CachedDevice_image at 1 2. simpl. rewrite zlen_overlay.
  intros. destruct (decide (off mod bs + n ≤ bs));
    [by apply cached_read_single|by apply cached_read_multi].
Qed.

Abbreviation wrote d bs s off buf r :=
  (∃ c', r = (Ok (), c') ∧ CachedDevice_wf c' ∧
    CachedDevice_image c' = splice (overlay bs (image d) (CacheState.pinned s)) off buf ∧
    is_writable c' = true).

(** A write of one whole block. *)
Lemma cached_write_block d bs s off buf :
  CachedDevice_wf (CachedDevice.mk d bs s) → is_writable d = true → bytes_ok buf →
  0 ≤ off → 0 < zlen buf → off + zlen buf ≤ zlen (image d) →
  off mod bs = 0 ∧ zlen buf = bs →
  wrote d bs s off buf (CachedDevice.write_at off buf (CachedDevice.mk d bs s)).
Proof.
  intros (Hwf & Hbs & Hdiv & Hok) Hw Hb H1 H2 H3 [Hm Hl]; simpl in *.
  unfold CachedDevice.write_at, mbind, dev_bind, CachedDevice.on_inner; simpl.
  destruct (spec_write d off buf) as (d' & E & Hwf' & Him & Hw'); try done; try apply Z.divide_1_l.
  rewrite E, decide_True by done. unfold CachedDevice.on_state; simpl.
  assert (Hk : off = off / bs * bs) by (pose proof (Z.div_mod off bs); lia).
  set (k := off / bs) in *. clearbody k. subst off.
  assert (0 ≤ k) by nia.
  assert (Hnew : sub (image d') (k * bs) bs = buf).
  { rewrite Him. apply sub_splice_same_len; lia. }
  assert (Hz : zlen (image d') = zlen (image d)) by (rewrite Him, zlen_splice; lia).
  destruct (put_spec bs Hbs (image d') s k buf) as [Hok' Hp']; try done; try lia.
  { destruct Hok as (Hp & Hc & Hd & Hsz). split_and!; try done.
    - intros k' b' Hl'. rewrite Hz. by apply Hp.
    - intros k' b' seq Hne Hl'. rewrite Hz. destruct (Hc _ _ _ Hl') as (? & ? & ->).
      split_and!; try done. rewrite Him. symmetry. apply sub_splice_block; nia. }
  eexists; split; [done|]. unfold CachedDevice_wf, CachedDevice_image; simpl.
  split; [by rewrite Hz|]. split; [|done].
  assert (Hp0 : pins_ok bs (image d) (CacheState.pinned s)) by apply Hok.
  rewrite Him. apply overlay_splice; try done.
  - rewrite <-Him. apply Hok'.
  - intros j. rewrite Hp'. destruct (CacheState.pinned s !! k) eqn:Ek; [|done].
    destruct (decide (j = k)) as [->|]; [rewrite lookup_insert, decide_True by done; naive_solver|].
    by rewrite lookup_insert_ne by done.
  - intros j b b' i Hj Hj' Hi. rewrite Hp' in Hj'. destruct (decide (j = k)) as [->|].
    + rewrite Hj, lookup_insert, decide_True in Hj' by done. rewrite decide_True by lia.
      simplify_eq. f_equal. lia.
    + assert (Hsame : b' = b).
      { destruct (CacheState.pinned s !! k); [rewrite lookup_insert_ne in Hj' by done|]; congruence. }
      rewrite Hsame. rewrite decide_False by nia. done.
Qed.

(** Any other write: patch the pinned blocks, drop the clean ones. *)
Lemma cached_write_partial d bs s off buf :
  CachedDevice_wf (CachedDevice.mk d bs s) → is_writable d = true → bytes_ok buf →
  0 ≤ off → 0 < zlen buf → off + zlen buf ≤ zlen (image d) →
  ¬ (off mod bs = 0 ∧ zlen buf = bs) →
  wrote d bs s off buf (CachedDevice.write_at off buf (CachedDevice.mk d bs s)).
Proof.
  intros (Hwf & Hbs & Hdiv & Hok) Hw Hb H1 H2 H3 Hpart; simpl in *.
  unfold CachedDevice.write_at, mbind, dev_bind, CachedDevice.on_inner; simpl.
  destruct (spec_write d off buf) as (d' & E & Hwf' & Him & Hw'); try done; try apply Z.divide_1_l.
  rewrite E, decide_False by done. unfold CachedDevice.on_state, dev_lift; simpl.
  unfold saturating_sub. rewrite Z.max_r by lia.
  pose proof Hok as (Hp & Hc & Hd & Hsz).
  pose proof (Z.mul_div_le (off + zlen buf - 1) bs Hbs) as Hlast.
  pose proof (Z.mul_succ_div_gt (off + zlen buf - 1) bs ltac:(lia)) as Hlast'.
  pose proof (Z.div_le_mono off (off + zlen buf - 1) bs Hbs ltac:(lia)) as Hfl.
  set (last := (off + zlen buf - 1) / bs) in *.
  destruct (foldM_seqZ_ok (patched bs off buf s) (CachedDevice.patch_block bs off buf)
    (off / bs) (last - off / bs + 1) s) as (s' & Ef & HP).
  { lia. }
  { split; try done; [intros; lia|]. intros j b Hj. exists b.
    destruct (Hp _ _ Hj) as (_ & _ & ? & ?). split_and!; try done. intros i Hi.
    by rewrite decide_False by lia. }
  { intros k s1 Hk HP. apply patch_block_spec; try done; try lia. nia. }
  rewrite Ef. replace (off / bs + (last - off / bs + 1)) with (last + 1) in HP by lia.
  destruct HP as [Hb' He Hg Hn Hs].
  assert (Hz : zlen (image d') = zlen (image d)) by (rewrite Him, zlen_splice; lia).
  eexists; split; [done|]. unfold CachedDevice_wf, CachedDevice_image; simpl.
  assert (Hp' : pins_ok bs (image d') (CacheState.pinned s')).
  { intros j b' Hj. destruct (CacheState.pinned s !! j) as [b|] eqn:E0; [|by rewrite Hn in Hj].
    destruct (Hs _ _ E0) as (b'' & ? & ? & ? & _). destruct (Hp _ _ E0) as (? & ? & _).
    rewrite Hz. naive_solver. }
  split; [|split; [|done]].
  - rewrite Hz. split_and!; try done. unfold cache_ok. split_and!; try done.
    + intros j b seq Hj. destruct (decide (off / bs ≤ j < last + 1)) as [Hin|Hout].
      { by rewrite Hg in Hj. }
      destruct (Hc j b seq) as (? & ? & ->); [by eapply lookup_weaken|].
      rewrite Hz. split_and!; try done. rewrite Him. symmetry. apply sub_splice_block; try done.
      pose proof (Z.mul_div_le off bs Hbs). nia.
    + intros j b' Hj. destruct (CacheState.pinned s !! j) as [b|] eqn:E0; [|by rewrite Hn in Hj].
      eapply lookup_weaken_None; [by eapply Hd|done].
  - rewrite Him. apply overlay_splice; try done; [by rewrite <-Him| |].
    + intros j. split; [apply Hn|]. intros Hj. destruct (CacheState.pinned s !! j) eqn:E0; [|done].
      destruct (Hs _ _ E0) as (? & ? & _). congruence.
    + intros j b b' i Hj Hj' Hi. destruct (Hs _ _ Hj) as (b'' & ? & _ & _ & Hi').
      assert (b'' = b') as -> by congruence. rewrite Hi' by done.
      apply decide_ext. split; [lia|]. intros Hr. split; [|done].
      pose proof (Z.mul_succ_div_gt off bs ltac:(lia)). split; [|nia].
      apply Z.lt_succ_r. apply Z.div_lt_upper_bound; nia.
Qed.

(** A cached device is a byte-granular device over the overlaid image. *)
#[global] Program Instance CachedDevice_spec : DeviceSpec 1 (CachedDevice.t D) := {
  image := CachedDevice_image;
  dev_wf := CachedDevice_wf;
}.
Next Obligation.
  intros c Hwf. unfold CachedDevice_image. rewrite zlen_overlay. apply (spec_size (CachedDevice.inner c)), Hwf.
Qed.
Next Obligation.
  intros c (Hwf & Hbs & _ & Hok). apply bytes_ok_overlay; [done|apply Hok|by apply spec_bytes].
Qed.
Next Obligation. intros c off n Hwf H1 H2 H3 _ _. by apply cached_read. Qed.
Next Obligation.
  intros [d bs s] off b Hwf Hw Hb H1 H2 H3 _ _. unfold CachedDevice_image in H3.
  rewrite zlen_overlay in H3. simpl in *.
  destruct (decide (off mod bs = 0 ∧ zlen b = bs));
    [by apply cached_write_block|by apply cached_write_partial].
Qed.

End cached_proofs.

(** ** Properties *)

(** A fresh cache is coherent with any device. *)
Lemma new_cached_wf `{DeviceSpec 1 D} (d : D) bs capacity :
  dev_wf d → 0 < bs → (bs | zlen (image d)) → 0 ≤ capacity →
  CachedDevice_wf (CachedDevice.new d bs capacity) ∧
  CachedDevice_image (CachedDevice.new d bs capacity) = image d.
Proof.
  intros. unfold CachedDevice_wf, CachedDevice_image; simpl.
  rewrite overlay_empty by done. split; [|done]. split_and!; try done.
Qed.

(** Reads and writes pin nothing. *)
Definition unpinned {D} (c : CachedDevice.t D) : Prop := CacheState.pinned (CachedDevice.state c) = ∅.

Lemma pinned_insert_clean k b s : CacheState.pinned (CacheState.insert_clean k b s) = CacheState.pinned s.
Proof. unfold CacheState.insert_clean. case_decide; [done|]. case_decide; [|done]. by destruct (CacheState.victim _). Qed.

Lemma pinned_get k s : CacheState.pinned (snd (CacheState.get k s)) = CacheState.pinned s.
Proof.
  unfold CacheState.get, CacheState.take_seq. destruct (CacheState.pinned s !! k); [done|]. cbn [CacheState.entries].
  by destruct (CacheState.entries s !! k) as [[]|].
Qed.

Lemma pinned_put k b s : CacheState.pinned s = ∅ → CacheState.pinned (CacheState.put k b s) = ∅.
Proof. intros Hp. unfold CacheState.put. rewrite Hp, lookup_empty. by rewrite pinned_insert_clean. Qed.

Lemma pinned_patch bs off buf s ls s' : CacheState.pinned s = ∅ →
  foldM (CachedDevice.patch_block bs off buf) s ls = Ok s' → CacheState.pinned s' = ∅.
Proof.
  revert s. induction ls as [|l ls IH]; intros s Hp; cbn [foldM]; [by intros [= <-]|].
  intros E. apply bind_ok_inv in E as (s1 & E1 & E). unfold CachedDevice.patch_block in E1. rewrite Hp, lookup_empty in E1.
  cbn in E1. injection E1 as <-. by eapply IH; [|exact E].
Qed.

Section unpinned.
Context `{BlockDevice D}.

Lemma unpinned_inner {A} (m : dev_m D A) c : unpinned c → unpinned (snd (CachedDevice.on_inner m c)).
Proof. unfold CachedDevice.on_inner. by destruct (m (CachedDevice.inner c)). Qed.

Lemma unpinned_bind {A B} (m : dev_m (CachedDevice.t D) A) (k : A → dev_m (CachedDevice.t D) B) c :
  unpinned (snd (m c)) → (∀ a c', m c = (Ok a, c') → unpinned c' → unpinned (snd (k a c'))) → unpinned (snd ((m ≫= k) c)).
Proof. unfold mbind, dev_bind. destruct (m c) as [[a|e| |] c'] eqn:E; cbn; auto. Qed.

Lemma unpinned_read off n c : unpinned c → unpinned (snd (CachedDevice.read_at off n c)).
Proof.
  intros Hu. unfold CachedDevice.read_at. cbv zeta. case_decide.
  - apply unpinned_bind; [by unfold CachedDevice.on_state, unpinned; destruct (CacheState.get _ _) eqn:E;
      pose proof (pinned_get (off / CachedDevice.block_size c) (CachedDevice.state c)) as Hg; rewrite E in Hg; cbn in *; rewrite Hg|].
    intros [blk|] c1 _ Hu1; [done|]. apply unpinned_bind; [by apply unpinned_inner|]. intros blk c2 _ Hu2.
    apply unpinned_bind; [done|]. intros buf c3 [= _ <-] _. apply unpinned_bind; [by apply pinned_put|]. by intros [] c4 _ ?.
  - apply unpinned_bind; [by apply unpinned_inner|]. intros buf c1 _ Hu1. apply unpinned_bind; [done|].
    intros s c2 [= <- <-] _. by case_decide.
Qed.

Lemma unpinned_write off buf c : unpinned c → unpinned (snd (CachedDevice.write_at off buf c)).
Proof.
  intros Hu. unfold CachedDevice.write_at. cbv zeta. apply unpinned_bind; [by apply unpinned_inner|]. intros [] c1 _ Hu1.
  case_decide; [by apply pinned_put|]. apply unpinned_bind; [done|]. intros s c2 [= <- <-] _.
  unfold mbind, dev_bind, dev_lift. destruct (foldM _ _ _) eqn:E; try done. cbn. by eapply pinned_patch.
Qed.

Lemma unpinned_run ops : ∀ c, unpinned c → unpinned (snd (run ops c)).
Proof.
  induction ops as [|op ops IH]; intros c Hu; [done|]. cbn [run].
  assert (Ho : unpinned (snd (run_op op c))).
  { destruct op as [off n|off b]; [by apply unpinned_read|]. apply unpinned_bind; [by apply unpinned_write|]. by intros [] c' _ ?. }
  destruct (run_op op c) as [r c']. cbn in Ho. specialize (IH c' Ho). by destruct (run ops c').
Qed.
End unpinned.

(** C38: a cache is invisible.  Whatever its capacity, and whatever sequence of
    in-range requests a client makes, a [CachedDevice] over a device image of
    whole blocks answers every read as the device itself does, and the device
    below it ends with the same contents. *)
Theorem cached_device_transparent (c : bytes) bs capacity ops :
  bytes_ok c → 0 < bs → (bs | zlen c) → 0 ≤ capacity → Forall (op_ok (zlen c)) ops →
  let dev := FileDevice.open_rw c in
  let cached := CachedDevice.new dev bs capacity in
  fst (run ops cached) = fst (run ops dev) ∧
  FileDevice.contents (CachedDevice.inner (snd (run ops cached))) = FileDevice.contents (snd (run ops dev)).
Proof.
  intros Hb Hbs Hdiv Hcap Hok dev cached.
  assert (Hwf : FileDevice_wf dev) by done.
  destruct (new_cached_wf dev bs capacity) as [Hwf' Him]; try done.
  assert (Hw : is_writable cached = true) by done.
  assert (Hup : unpinned (snd (run ops cached))) by by apply unpinned_run.
  fold cached in Hwf', Him. clearbody cached.
  destruct (run_replay ops cached) as (E1 & E2 & _); [done| | |].
  { done. }
  { change (Forall (op_ok (zlen (CachedDevice_image cached))) ops). by rewrite Him. }
  destruct (run_replay ops dev) as (F1 & F2 & _); try done.
  assert (Him' : @image 1 _ _ _ cached = @image 1 _ _ _ dev) by exact Him.
  rewrite Him' in E1, E2. split; [by rewrite E1, F1|].
  assert (E3 : CachedDevice_image (snd (run ops cached)) = FileDevice.contents (snd (run ops dev)))
    by (etrans; [exact E2|]; symmetry; exact F2).
  rewrite <-E3. unfold CachedDevice_image. rewrite Hup. unfold overlay.
  apply list_eq. intros i. rewrite list_lookup_imap. change (image _) with (FileDevice.contents (CachedDevice.inner (snd (run ops cached)))).
  destruct (_ !! i); cbn; by rewrite ?lookup_empty.
Qed.

Lemma cached_device_transparent_witness :
  let c := zrep 8 7 in
  let ops := [OpRead 1 2; OpWrite 3 [1; 2; 3]; OpRead 2 5; OpWrite 4 [9; 9; 9; 9]; OpRead 0 8] in
  fst (run ops (CachedDevice.new (FileDevice.open_rw c) 4 1)) = fst (run ops (FileDevice.open_rw c)) ∧
  fst (run ops (FileDevice.open_rw c))
    = [Ok [7; 7]; Ok []; Ok [7; 1; 2; 3; 7]; Ok []; Ok [7; 7; 7; 1; 9; 9; 9; 9]].
Proof.
  split; [|vm_compute; reflexivity].
  apply (cached_device_transparent (zrep 8 7) 4 1
    [OpRead 1 2; OpWrite 3 [1; 2; 3]; OpRead 2 5; OpWrite 4 [9; 9; 9; 9]; OpRead 0 8]).
  - by_compute.
  - lia.
  - exists 2. reflexivity.
  - lia.
  - by_compute.
Defined.

(** Pinned blocks shadow the device until they are checkpointed.  A
    pinned block reads back as the bytes it was pinned with, every other
    block reads as before, [invalidate_cache] is refused while anything is
    pinned, and once the device holds the pinned bytes [unpin_all] changes no
    read, leaves nothing pinned and keeps the cache within its capacity. *)
Lemma pinned_blocks_shadow `{DeviceSpec 1 D} (c : CachedDevice.t D) k b :
  CachedDevice_wf c → 0 ≤ k →
  (k + 1) * CachedDevice.block_size c ≤ zlen (image (CachedDevice.inner c)) →
  zlen b = CachedDevice.block_size c → bytes_ok b →
  let c' := CachedDevice.populate_cache k b c in
  CachedDevice_wf c' ∧
  CachedDevice_image c' = splice (CachedDevice_image c) (k * CachedDevice.block_size c) b ∧
  image (CachedDevice.inner c') = image (CachedDevice.inner c) ∧
  fst (CachedDevice.invalidate_cache c')
    = Err (Corrupt "cache contains uncheckpointed journal metadata") ∧
  (CachedDevice_image c' = image (CachedDevice.inner c') →
   let c'' := CachedDevice.unpin_all c' in
   CachedDevice_wf c'' ∧ CachedDevice_image c'' = CachedDevice_image c' ∧
   CachedDevice.pinned_blocks c'' = 0 ∧ bounded (CachedDevice.state c'')).
Proof.
  destruct c as [d bs s]. unfold CachedDevice_wf, CachedDevice_image; simpl.
  intros (Hwf & Hbs & Hdiv & Hok) Hk Hk' Hl Hb.
  destruct (pin_spec bs (image d) s k b Hok Hk Hk' Hl Hb) as [Hok' Hp].
  pose proof Hok as (Hpins & _). pose proof Hok' as (Hpins' & _).
  split; [done|]. split.
  { apply bytes_pos_eq; [rewrite zlen_splice; rewrite ?zlen_overlay; lia|].
    intros i. rewrite zlen_overlay. intros Hi.
    rewrite lookup_splice by (rewrite ?zlen_overlay; lia).
    rewrite !lookup_overlay by done. set (q := Z.of_nat i / bs).
    pose proof (proj1 (div_block bs Hbs (Z.of_nat i) q) eq_refl).
    destruct (decide (q = k)) as [->|Hne].
    - rewrite lookup_insert, !decide_True by (done || lia). f_equal. lia.
    - rewrite lookup_insert_ne by done. rewrite decide_False; [done|]. nia. }
  split; [done|]. split.
  { unfold CachedDevice.invalidate_cache, mbind, dev_bind; simpl.
    rewrite decide_True; [done|]. apply insert_non_empty. }
  intros Hsame.
  destruct (drain_spec bs Hbs (image d) (CacheState.set_pinned ∅ (CacheState.pin k b s))
    (map_to_list (CacheState.pinned (CacheState.pin k b s)))) as [Hok'' Hp''].
  - destruct Hok' as (_ & Hc & _ & Hsz). split_and!; try done.
  - done.
  - intros j bj Hj. apply elem_of_map_to_list in Hj.
    destruct (Hpins' _ _ Hj) as (? & ? & ? & ?). split_and!; try done.
    simpl in Hj. rewrite <-Hsame. replace (j * bs) with (j * bs + 0) by lia.
    rewrite sub_overlay by (try done; lia). rewrite Hj. symmetry. apply sub_all. lia.
  - unfold CachedDevice.pinned_blocks. simpl. fold CacheState.drain in *.
    unfold CacheState.unpin_all, CacheState.drain. rewrite Hp''.
    split; [done|]. split; [by rewrite overlay_empty by done|]. split; [done|]. apply Hok''.
Qed.

Lemma pinned_blocks_shadow_witness :
  let c := CachedDevice.new (FileDevice.open_rw (zrep 8 7)) 4 2 in
  CachedDevice_image (CachedDevice.populate_cache 1 [1; 2; 3; 4] c) = [7; 7; 7; 7; 1; 2; 3; 4].
Proof.
  destruct (pinned_blocks_shadow (CachedDevice.new (FileDevice.open_rw (zrep 8 7)) 4 2) 1 [1; 2; 3; 4])
    as (_ & E & _).
  - apply new_cached_wf; [split; [reflexivity|]|lia|exists 2; reflexivity|lia].
    by_compute.
  - lia.
  - vm_compute. discriminate.
  - reflexivity.
  - by_compute.
  - simpl. rewrite E. vm_compute. reflexivity.
Defined.
