(* ===== verification/Features.v ===== *)
(** Features: the COMPAT / INCOMPAT / RO_COMPAT bits, the sets of bits a mount
    accepts and a write keeps correct, and the filesystem flavour
    (src/src/features.rs). *)
From S2P Require Import Prelude Errors.

Module Compat.
Definition DIR_PREALLOC := 0x0001.
Definition IMAGIC_INODES := 0x0002.
Definition HAS_JOURNAL := 0x0004.
Definition EXT_ATTR := 0x0008.
Definition RESIZE_INODE := 0x0010.
Definition DIR_INDEX := 0x0020.
Definition LAZY_BG := 0x0040.
Definition SPARSE_SUPER2 := 0x0200.
Definition FAST_COMMIT := 0x0400.
Definition ORPHAN_FILE := 0x1000.
End Compat.

Module Incompat.
Definition COMPRESSION := 0x00001.
Definition FILETYPE := 0x00002.
Definition RECOVER := 0x00004.
Definition JOURNAL_DEV := 0x00008.
Definition META_BG := 0x00010.
Definition EXTENTS := 0x00040.
Definition BIT64 := 0x00080.
Definition MMP := 0x00100.
Definition FLEX_BG := 0x00200.
Definition EA_INODE := 0x00400.
Definition DIRDATA := 0x01000.
Definition CSUM_SEED := 0x02000.
Definition LARGEDIR := 0x04000.
Definition INLINE_DATA := 0x08000.
Definition ENCRYPT := 0x10000.
Definition CASEFOLD := 0x20000.
End Incompat.

Module RoCompat.
Definition SPARSE_SUPER := 0x0001.
Definition LARGE_FILE := 0x0002.
Definition BTREE_DIR := 0x0004.
Definition HUGE_FILE := 0x0008.
Definition GDT_CSUM := 0x0010.
Definition DIR_NLINK := 0x0020.
Definition EXTRA_ISIZE := 0x0040.
Definition HAS_SNAPSHOT := 0x0080.
Definition QUOTA := 0x0100.
Definition BIGALLOC := 0x0200.
Definition METADATA_CSUM := 0x0400.
Definition REPLICA := 0x0800.
Definition READONLY := 0x1000.
Definition PROJECT := 0x2000.
Definition VERITY := 0x8000.
Definition ORPHAN_PRESENT := 0x10000.
End RoCompat.

(** [a | b | ..] and [x & !m] at 32 bits; [x & m != 0]. *)
Definition bits_or (l : list Z) : Z := foldl Z.lor 0 l.
Definition without (x m : Z) : Z := Z.ldiff x m.
Definition has_bits (x m : Z) : bool := bool_decide (Z.land x m ≠ 0).

Definition SUPPORTED_INCOMPAT : Z := bits_or
  [Incompat.FILETYPE; Incompat.EXTENTS; Incompat.BIT64; Incompat.FLEX_BG; Incompat.CSUM_SEED;
   Incompat.META_BG; Incompat.ENCRYPT; Incompat.RECOVER; Incompat.MMP; Incompat.INLINE_DATA;
   Incompat.LARGEDIR; Incompat.EA_INODE; Incompat.CASEFOLD].

Definition WRITE_BREAKING_INCOMPAT : Z := bits_or [Incompat.MMP; Incompat.CASEFOLD; Incompat.ENCRYPT].

Definition write_breaking_incompat (feature_incompat : Z) : Z :=
  Z.land feature_incompat WRITE_BREAKING_INCOMPAT.

Definition SUPPORTED_RO_COMPAT : Z := bits_or
  [RoCompat.SPARSE_SUPER; RoCompat.LARGE_FILE; RoCompat.HUGE_FILE; RoCompat.GDT_CSUM;
   RoCompat.DIR_NLINK; RoCompat.EXTRA_ISIZE; RoCompat.QUOTA; RoCompat.METADATA_CSUM;
   RoCompat.PROJECT; RoCompat.ORPHAN_PRESENT; RoCompat.BIGALLOC].

Inductive FsFlavor := Ext2 | Ext3 | Ext4.

Module FsFlavor.
Definition detect (feature_compat feature_incompat : Z) : FsFlavor :=
  match has_bits feature_incompat Incompat.EXTENTS, has_bits feature_compat Compat.HAS_JOURNAL with
  | true, _ => Ext4
  | false, true => Ext3
  | false, false => Ext2
  end.
Definition uses_extents (f : FsFlavor) : bool := match f with Ext4 => true | _ => false end.
Definition has_journal (f : FsFlavor) : bool := match f with Ext3 | Ext4 => true | Ext2 => false end.
Definition name (f : FsFlavor) : string :=
  match f with Ext2 => "ext2" | Ext3 => "ext3" | Ext4 => "ext4" end.
(** (inode_size, desc_size, csum_enabled, dir_csum_tail) *)
Definition geometry (f : FsFlavor) : Z * Z * bool * Z :=
  match f with Ext4 => (256, 64, true, 12) | _ => (128, 32, false, 0) end.
End FsFlavor.

Definition READ_BREAKING_RO_COMPAT : Z := 0.

Definition MAINTAINED_RO_COMPAT : Z := bits_or
  [RoCompat.SPARSE_SUPER; RoCompat.LARGE_FILE; RoCompat.HUGE_FILE; RoCompat.DIR_NLINK;
   RoCompat.EXTRA_ISIZE; RoCompat.GDT_CSUM; RoCompat.METADATA_CSUM].

Definition unmaintained_ro_compat (feature_ro_compat : Z) : Z :=
  without feature_ro_compat MAINTAINED_RO_COMPAT.

Definition check_mountable (feature_incompat feature_ro_compat : Z) : res unit :=
  let unsupported := without feature_incompat SUPPORTED_INCOMPAT in
  if decide (unsupported ≠ 0) then Err (UnsupportedIncompat unsupported) else
  let breaking := Z.land feature_ro_compat READ_BREAKING_RO_COMPAT in
  if decide (breaking ≠ 0) then Err (UnsupportedRoCompat breaking) else Ok ().

(** A set of bits is empty exactly when no position carries one. *)
Lemma zero_no_bits x : x = 0 ↔ ∀ i, 0 ≤ i → Z.testbit x i = false.
Proof.
  split; [intros -> i _; apply Z.testbit_0_l|].
  intros Hb. apply Z.bits_inj'. intros i Hi. by rewrite Hb, Z.testbit_0_l.
Qed.

(** A mount is accepted exactly when every INCOMPAT bit of the volume is
    one the driver supports (unknown RO_COMPAT bits never prevent one), and
    the refusal names precisely the unsupported bits; a volume that is both
    mountable and free of write-breaking and unmaintained bits carries only
    feature bits from the two maintained sets. *)
Lemma check_mountable_spec feature_incompat feature_ro_compat :
  (check_mountable feature_incompat feature_ro_compat = Ok () ↔
     ∀ i, 0 ≤ i → Z.testbit feature_incompat i = true → Z.testbit SUPPORTED_INCOMPAT i = true) ∧
  (check_mountable feature_incompat feature_ro_compat ≠ Ok () →
     ∃ bits, check_mountable feature_incompat feature_ro_compat = Err (UnsupportedIncompat bits) ∧
       bits ≠ 0 ∧
       ∀ i, 0 ≤ i → Z.testbit bits i =
         Z.testbit feature_incompat i && negb (Z.testbit SUPPORTED_INCOMPAT i)) ∧
  (write_breaking_incompat feature_incompat = 0 → unmaintained_ro_compat feature_ro_compat = 0 →
     ∀ i, 0 ≤ i →
       (Z.testbit feature_incompat i = true → Z.testbit WRITE_BREAKING_INCOMPAT i = false) ∧
       (Z.testbit feature_ro_compat i = true →
          Z.testbit MAINTAINED_RO_COMPAT i = true ∧ Z.testbit SUPPORTED_RO_COMPAT i = true)).
Proof.
  unfold check_mountable, READ_BREAKING_RO_COMPAT. rewrite Z.land_0_r.
  destruct (decide (0 ≠ 0)) as [|_]; [done|].
  set (u := without feature_incompat SUPPORTED_INCOMPAT).
  assert (Hu : ∀ i, 0 ≤ i → Z.testbit u i =
    Z.testbit feature_incompat i && negb (Z.testbit SUPPORTED_INCOMPAT i)).
  { intros i Hi. apply Z.ldiff_spec. }
  split; [|split].
  - case_decide as Hz.
    + split; [done|]. intros Hall. destruct Hz. apply zero_no_bits. intros i Hi.
      rewrite Hu by done. specialize (Hall i Hi).
      destruct (Z.testbit feature_incompat i); [by rewrite Hall|done].
    + split; [|done]. intros _ i Hi Hb.
      pose proof (proj1 (zero_no_bits u) Hz i Hi) as E. rewrite Hu, Hb in E by done.
      by destruct (Z.testbit SUPPORTED_INCOMPAT i).
  - case_decide as Hz; [|done]. intros _. by exists u.
  - intros Hw Hm i Hi. split.
    + intros Hb. pose proof (proj1 (zero_no_bits _) Hw i Hi) as E.
      unfold write_breaking_incompat in E. rewrite Z.land_spec, Hb in E. done.
    + intros Hb. pose proof (proj1 (zero_no_bits _) Hm i Hi) as E.
      unfold unmaintained_ro_compat, without in E. rewrite Z.ldiff_spec, Hb in E.
      apply negb_false_iff in E. split; [done|].
      assert (Hsub : Z.land MAINTAINED_RO_COMPAT SUPPORTED_RO_COMPAT = MAINTAINED_RO_COMPAT)
        by reflexivity.
      rewrite <-Hsub, Z.land_spec in E. apply andb_prop in E. apply E.
Qed.

Lemma check_mountable_spec_witness :
  write_breaking_incompat 0x2C2 = 0 ∧ unmaintained_ro_compat 0x40 = 0 ∧
  check_mountable 0x2C2 0x40 = Ok () ∧ check_mountable 0x1002 0 = Err (UnsupportedIncompat 0x1000).
Proof.
  split; [reflexivity|]. split; [reflexivity|]. split.
  - apply (proj1 (check_mountable_spec 0x2C2 0x40)). intros i Hi Hb.
    assert (Hsub : Z.land 0x2C2 SUPPORTED_INCOMPAT = 0x2C2) by reflexivity.
    rewrite <-Hsub, Z.land_spec in Hb. apply andb_prop in Hb. apply Hb.
  - destruct (proj1 (proj2 (check_mountable_spec 0x1002 0))) as (b & E & _); [vm_compute; discriminate|].
    vm_compute. reflexivity.
Defined.
