(* ===== verification/Superblock.v ===== *)
(** Superblock: parsing and validation of the superblock and the group
    geometry it defines (src/src/superblock.rs). *)
From S2P Require Import Prelude Errors Bytes Device Features.

Module Superblock.

Definition SUPERBLOCK_OFFSET : Z := 1024.
Definition SUPERBLOCK_SIZE : Z := 1024.
Definition EXT4_MAGIC : Z := 0xEF53.
Definition EXT4_VALID_FS : Z := 0x0001.
Definition EXT4_ERROR_FS : Z := 0x0002.
Definition MAX_LOG_BLOCK_SIZE : Z := 6.
Definition MAX_LOG_CLUSTER_SIZE : Z := 20.
Definition GOOD_OLD_FIRST_INODE : Z := 11.

(** The two names are kept as the bytes before the first NUL; the code renders
    them with [String::from_utf8_lossy] for display. *)
Record t := mk {
  inodes_count : Z;
  blocks_count : Z;
  free_blocks_count : Z;
  free_inodes_count : Z;
  r_blocks_count : Z;
  first_data_block : Z;
  log_block_size : Z;
  blocks_per_group : Z;
  inodes_per_group : Z;
  magic : Z;
  state : Z;
  errors_behavior : Z;
  minor_rev_level : Z;
  rev_level : Z;
  inode_size : Z;
  first_inode : Z;
  feature_compat : Z;
  feature_incompat : Z;
  feature_ro_compat : Z;
  uuid : bytes;
  volume_name : bytes;
  last_mounted : bytes;
  desc_size : Z;
  reserved_gdt_blocks : Z;
  backup_bgs : list Z;
  hash_seed : list Z;
  default_hash_version : Z;
  checksum_seed : Z;
  journal_inode : Z;
  last_orphan : Z;
  mtime : Z;
  wtime : Z;
  mnt_count : Z;
  max_mnt_count : Z;
  lastcheck : Z;
  checkinterval : Z;
  creator_os : Z;
  def_resuid : Z;
  def_resgid : Z;
  raw : bytes;
}.

(** ** Validation *)

Definition check_group_fits_bitmap (raw : bytes) (log_block_size blocks_per_group : Z)
    (bigalloc : bool) : res unit :=
  let bitmap_bits := Z.shiftl 8 (10 + log_block_size) in
  if negb bigalloc then
    if decide (bitmap_bits < blocks_per_group)
    then Err (Corrupt "superblock: blocks_per_group exceeds the bits in one bitmap block")
    else Ok ()
  else
    log_cluster_size ← u32_le raw 0x1C;
    if decide (log_cluster_size < log_block_size ∨ MAX_LOG_CLUSTER_SIZE < log_cluster_size)
    then Err (Corrupt "superblock: bigalloc cluster is smaller than a block or larger than ext4 allows")
    else
    clusters_per_group ← u32_le raw 0x24;
    if decide (clusters_per_group = 0 ∨ bitmap_bits < clusters_per_group)
    then Err (Corrupt "superblock: clusters_per_group is zero or exceeds the bits in one bitmap block")
    else
    let cluster_ratio_log := log_cluster_size - log_block_size in
    if decide (as_u64 (Z.shiftl clusters_per_group cluster_ratio_log) ≠ blocks_per_group)
    then Err (Corrupt "superblock: blocks_per_group is not clusters_per_group clusters")
    else Ok ().

(** The bytes before the first NUL. *)
Fixpoint until_nul (l : bytes) : bytes :=
  match l with
  | [] => []
  | b :: l => if decide (b = 0) then [] else b :: until_nul l
  end.

(** A field that exists from revision 1 on. *)
Definition dynamic (rev_level : Z) (read : res Z) (dflt : Z) : res Z :=
  if decide (1 ≤ rev_level) then read else Ok dflt.

Definition check_desc_size (feature_incompat desc_size : Z) : res Z :=
  if has_bits feature_incompat Incompat.BIT64 then
    if decide (¬ (64 ≤ desc_size ≤ 1024) ∨ is_power_of_two desc_size = false)
    then Err (Corrupt "superblock: desc_size is not a group descriptor size")
    else Ok desc_size
  else Ok 32.

Definition refuse_when (P : Prop) `{Decision P} (msg : string) : res unit :=
  if decide P then Err (Corrupt msg) else Ok ().

Definition parse (raw : bytes) : res t :=
  if decide (zlen raw < SUPERBLOCK_SIZE) then Err (Corrupt "superblock buffer too small") else
  magic ← u16_le raw 0x38;
  if decide (magic ≠ EXT4_MAGIC) then Err (BadMagic magic EXT4_MAGIC) else
  inodes_count ← u32_le raw 0x00;
  blocks_count_lo ← u32_le raw 0x04;
  r_blocks_count_lo ← u32_le raw 0x08;
  free_blocks_count_lo ← u32_le raw 0x0C;
  free_inodes_count ← u32_le raw 0x10;
  first_data_block ← u32_le raw 0x14;
  log_block_size ← u32_le raw 0x18;
  blocks_per_group ← u32_le raw 0x20;
  inodes_per_group ← u32_le raw 0x28;
  mtime ← u32_le raw 0x2C;
  wtime ← u32_le raw 0x30;
  mnt_count ← u16_le raw 0x34;
  max_mnt_count ← u16_le raw 0x36;
  state ← u16_le raw 0x3A;
  errors_behavior ← u16_le raw 0x3C;
  minor_rev_level ← u16_le raw 0x3E;
  lastcheck ← u32_le raw 0x40;
  checkinterval ← u32_le raw 0x44;
  creator_os ← u32_le raw 0x48;
  rev_level ← u32_le raw 0x4C;
  def_resuid ← u16_le raw 0x50;
  def_resgid ← u16_le raw 0x52;
  first_inode ← dynamic rev_level (v ← u32_le raw 0x54; Ok (Z.max v GOOD_OLD_FIRST_INODE))
                        GOOD_OLD_FIRST_INODE;
  inode_size ← dynamic rev_level (u16_le raw 0x58) 128;
  feature_compat ← dynamic rev_level (u32_le raw 0x5C) 0;
  feature_incompat ← dynamic rev_level (u32_le raw 0x60) 0;
  feature_ro_compat ← dynamic rev_level (u32_le raw 0x64) 0;
  reserved_gdt_blocks ← dynamic rev_level (u16_le raw 0xCE) 0;
  backup_bgs ← (if decide (1 ≤ rev_level ∧ 0x254 ≤ zlen raw)
                then a ← u32_le raw 0x24C; b ← u32_le raw 0x250; Ok [a; b]
                else Ok [0; 0]);
  uuid ← slice raw 0x68 16;
  volume_name ← slice raw 0x78 16;
  last_mounted ← slice raw 0x88 64;
  desc_size ← u16_le raw 0xFE;
  let desc_size := if decide (desc_size = 0) then 32 else desc_size in
  hash_seed ← traverse (λ i, u32_le raw (0xEC + i * 4)) (seqZ 0 4);
  default_hash_version ← get raw 0xFC;
  blocks_count_hi ← u32_le raw 0x150;
  r_blocks_count_hi ← u32_le raw 0x154;
  free_blocks_count_hi ← u32_le raw 0x158;
  let blocks_count := join32 blocks_count_hi blocks_count_lo in
  let r_blocks_count := join32 r_blocks_count_hi r_blocks_count_lo in
  let free_blocks_count := join32 free_blocks_count_hi free_blocks_count_lo in
  checksum_seed ← u32_le raw 0x270;
  journal_inode ← u32_le raw 0xE0;
  last_orphan ← u32_le raw 0xE8;
  _ ← refuse_when (blocks_per_group = 0) "superblock: blocks_per_group == 0";
  _ ← refuse_when (inodes_per_group = 0) "superblock: inodes_per_group == 0";
  _ ← refuse_when (inode_size = 0) "superblock: inode_size == 0";
  _ ← refuse_when (MAX_LOG_BLOCK_SIZE < log_block_size)
        "superblock: log_block_size exceeds the largest ext4 block";
  _ ← check_group_fits_bitmap raw log_block_size blocks_per_group
        (has_bits feature_ro_compat RoCompat.BIGALLOC);
  desc_size ← check_desc_size feature_incompat desc_size;
  _ ← refuse_when (blocks_count = 0) "superblock: blocks_count == 0";
  _ ← refuse_when (blocks_count ≤ first_data_block)
        "superblock: first_data_block is at or past the end of the filesystem";
  _ ← refuse_when (first_data_block = 0 ∧ log_block_size = 0 ∧
                   has_bits feature_ro_compat RoCompat.BIGALLOC = false)
        "superblock: a 1 KiB-block filesystem's first data block is 0, not 1";
  Ok {| inodes_count := inodes_count; blocks_count := blocks_count;
        free_blocks_count := free_blocks_count; free_inodes_count := free_inodes_count;
        r_blocks_count := r_blocks_count; first_data_block := first_data_block;
        log_block_size := log_block_size; blocks_per_group := blocks_per_group;
        inodes_per_group := inodes_per_group; magic := magic; state := state;
        errors_behavior := errors_behavior; minor_rev_level := minor_rev_level;
        rev_level := rev_level; inode_size := inode_size; first_inode := first_inode;
        feature_compat := feature_compat; feature_incompat := feature_incompat;
        feature_ro_compat := feature_ro_compat; uuid := uuid;
        volume_name := until_nul volume_name; last_mounted := until_nul last_mounted;
        desc_size := desc_size; reserved_gdt_blocks := reserved_gdt_blocks;
        backup_bgs := backup_bgs; hash_seed := hash_seed;
        default_hash_version := default_hash_version; checksum_seed := checksum_seed;
        journal_inode := journal_inode; last_orphan := last_orphan; mtime := mtime;
        wtime := wtime; mnt_count := mnt_count; max_mnt_count := max_mnt_count;
        lastcheck := lastcheck; checkinterval := checkinterval; creator_os := creator_os;
        def_resuid := def_resuid; def_resgid := def_resgid; raw := raw |}.

(** [Superblock::read]: the 1024 bytes at offset 1024 of the device. *)
Definition read `{BlockDevice D} : dev_m D t :=
  buf ← read_at SUPERBLOCK_OFFSET SUPERBLOCK_SIZE; dev_lift (parse buf).

(** ** Geometry *)

Definition is_clean (sb : t) : bool := has_bits (state sb) EXT4_VALID_FS.

(** [while g % base == 0 { g /= base }; g == 1]: [fuel] bounds the divisions. *)
Fixpoint is_power_of (fuel : nat) (g base : Z) : res bool :=
  match fuel with
  | O => OutOfFuel
  | S fuel => if is_multiple_of g base then is_power_of fuel (g / base) base
              else Ok (bool_decide (g = 1))
  end.

Definition power_fuel (g : Z) : nat := S (Z.to_nat (Z.log2 g)).

Definition classic_sparse_super (g : Z) : res bool :=
  if decide (g ≤ 1) then Ok true else
  p3 ← is_power_of (power_fuel g) g 3;
  if p3 : bool then Ok true else
  p5 ← is_power_of (power_fuel g) g 5;
  if p5 : bool then Ok true else
  is_power_of (power_fuel g) g 7.

Definition group_has_super (sb : t) (g : Z) : res bool :=
  if decide (g = 0) then Ok true else
  if has_bits (feature_compat sb) Compat.SPARSE_SUPER2 then Ok (bool_decide (g ∈ backup_bgs sb)) else
  if negb (has_bits (feature_ro_compat sb) RoCompat.SPARSE_SUPER) then Ok true else
  classic_sparse_super g.

(** [1024u32 << log_block_size] (the shift amount wraps at 32 bits). *)
Definition block_size (sb : t) : Z := as_u32 (Z.shiftl 1024 (log_block_size sb mod 32)).

Definition descs_per_block (sb : t) : Z := block_size sb / Z.max (desc_size sb) 1.

Definition first_meta_bg (sb : t) : Z :=
  if negb (has_bits (feature_incompat sb) Incompat.META_BG) then 0 else
  if decide (0x108 ≤ zlen (raw sb)) then le32 (raw sb) 0x104 else 0.

Definition primary_superblock_block (sb : t) : Z := SUPERBLOCK_OFFSET / block_size sb.

Definition first_block_of_group (sb : t) (group : Z) : Z :=
  as_u64 (first_data_block sb + as_u64 (group * blocks_per_group sb)).

Definition meta_group_holding (sb : t) (group : Z) : option Z :=
  if negb (has_bits (feature_incompat sb) Incompat.META_BG) then None else
  let meta_group := group / descs_per_block sb in
  if decide (first_meta_bg sb ≤ meta_group) then Some meta_group else None.

Definition group_count (blocks_count first_data_block blocks_per_group : Z) : Z :=
  div_ceil (saturating_sub blocks_count first_data_block) (Z.max blocks_per_group 1).

Definition block_group_count (sb : t) : Z :=
  group_count (blocks_count sb) (first_data_block sb) (blocks_per_group sb).

Definition shared_descriptor_run (sb : t) : Z :=
  if has_bits (feature_incompat sb) Incompat.META_BG then first_meta_bg sb
  else div_ceil (block_group_count sb) (descs_per_block sb).

(** [u64::from(b)] *)
Definition of_bool (b : bool) : Z := if b then 1 else 0.

Definition descriptor_location (sb : t) (group : Z) : res (Z * Z) :=
  let per_block := descs_per_block sb in
  let offset := group mod per_block * desc_size sb in
  block ← (match meta_group_holding sb group with
           | None => Ok (primary_superblock_block sb + 1 + group / per_block)
           | Some meta_group =>
               let head_group := as_u64 (meta_group * per_block) in
               if decide (head_group = 0) then Ok (primary_superblock_block sb + 1)
               else has ← group_has_super sb head_group;
                    Ok (as_u64 (first_block_of_group sb head_group + of_bool has))
           end);
  Ok (block, offset).

Definition group_head_metadata_blocks (sb : t) (group : Z) : res Z :=
  has ← group_has_super sb group;
  let superblock := of_bool has in
  match meta_group_holding sb group with
  | Some meta_group =>
      let per_block := descs_per_block sb in
      let place := group - as_u64 (meta_group * per_block) in
      let holds := bool_decide (place = 0 ∨ place = 1 ∨ place = per_block - 1) in
      Ok (superblock + of_bool holds)
  | None =>
      if decide (superblock = 1)
      then Ok (1 + shared_descriptor_run sb + reserved_gdt_blocks sb)
      else Ok 0
  end.

Definition unsigned_hash (sb : t) : bool :=
  bool_decide (0x164 ≤ zlen (raw sb)) && has_bits (le32 (raw sb) 0x160) 0x2.

Definition filesystem_bytes (sb : t) : option Z :=
  checked_mul64 (blocks_count sb) (block_size sb).

Definition check_fits_device (sb : t) (device_bytes : Z) : res unit :=
  match filesystem_bytes sb with
  | Some n => if decide (n ≤ device_bytes) then Ok ()
              else Err (Corrupt "superblock: blocks_count makes the filesystem larger than the device")
  | None => Err (Corrupt "superblock: blocks_count makes the filesystem larger than the device")
  end.

Definition is_64bit (sb : t) : bool := has_bits (feature_incompat sb) Incompat.BIT64.

(** ** Lemmas *)

(** What [parse] establishes of the geometry. *)
Record geometry_ok (sb : t) : Prop := {
  geo_raw : bytes_ok (raw sb) ∧ SUPERBLOCK_SIZE ≤ zlen (raw sb);
  geo_log : 0 ≤ log_block_size sb ≤ 6;
  geo_bpg : 0 < blocks_per_group sb < 2 ^ 32;
  geo_bitmap : has_bits (feature_ro_compat sb) RoCompat.BIGALLOC = false →
               blocks_per_group sb ≤ 8 * block_size sb;
  geo_ipg : 0 < inodes_per_group sb < 2 ^ 32;
  geo_inode_size : 0 < inode_size sb < 2 ^ 16;
  geo_inodes : 0 ≤ inodes_count sb < 2 ^ 32;
  geo_first_ino : 11 ≤ first_inode sb < 2 ^ 32;
  geo_first : 0 ≤ first_data_block sb < blocks_count sb;
  geo_blocks : blocks_count sb < 2 ^ 64;
  geo_desc : (is_64bit sb = false ∧ desc_size sb = 32) ∨
             (is_64bit sb = true ∧ 64 ≤ desc_size sb ≤ 1024 ∧ is_power_of_two (desc_size sb) = true);
  geo_reserved : 0 ≤ reserved_gdt_blocks sb;
  geo_first_1k : first_data_block sb = 0 → log_block_size sb = 0 →
                 has_bits (feature_ro_compat sb) RoCompat.BIGALLOC = true;
}.

Lemma block_size_eq sb :
  0 ≤ log_block_size sb ≤ 6 → block_size sb = 1024 * 2 ^ log_block_size sb.
Proof.
  intros H. unfold block_size. rewrite Z.mod_small by lia. rewrite Z.shiftl_mul_pow2 by lia.
  unfold as_u32. apply Z.mod_small.
  assert (2 ^ log_block_size sb ≤ 2 ^ 6) by (apply Z.pow_le_mono_r; lia).
  assert (0 < 2 ^ log_block_size sb) by (apply Z.pow_pos_nonneg; lia). lia.
Qed.

Lemma block_size_range sb : 0 ≤ log_block_size sb ≤ 6 → 1024 ≤ block_size sb ≤ 65536.
Proof.
  intros H. rewrite block_size_eq by done.
  assert (2 ^ log_block_size sb ≤ 2 ^ 6) by (apply Z.pow_le_mono_r; lia).
  assert (0 < 2 ^ log_block_size sb) by (apply Z.pow_pos_nonneg; lia). lia.
Qed.

Lemma u16_le_range b off v : bytes_ok b → u16_le b off = Ok v → 0 ≤ v < 2 ^ 16.
Proof.
  unfold u16_le. intros Hb H. res_inv. apply slice_inv in Ha as (_ & _ & _ & ->).
  by apply (le16_range b off).
Qed.
Lemma u32_le_range b off v : bytes_ok b → u32_le b off = Ok v → 0 ≤ v < 2 ^ 32.
Proof.
  unfold u32_le. intros Hb H. res_inv. apply slice_inv in Ha as (_ & _ & _ & ->).
  by apply (le32_range b off).
Qed.

Lemma dynamic_inv rev r d v : dynamic rev r d = Ok v → r = Ok v ∨ v = d.
Proof. unfold dynamic. case_decide; [by left|]. intros [= <-]. by right. Qed.
Lemma refuse_when_inv P `{Decision P} msg u : refuse_when P msg = Ok u → ¬ P.
Proof. unfold refuse_when. by case_decide. Qed.

Lemma join32_range hi lo : 0 ≤ hi < 2 ^ 32 → 0 ≤ lo < 2 ^ 32 → 0 ≤ join32 hi lo < 2 ^ 64.
Proof. intros. rewrite join32_eq by lia. lia. Qed.

Lemma check_group_fits_bitmap_inv raw log bpg big u :
  0 ≤ log ≤ 6 → check_group_fits_bitmap raw log bpg big = Ok u →
  big = false → bpg ≤ 8 * (1024 * 2 ^ log).
Proof.
  unfold check_group_fits_bitmap. intros Hl H ->. simpl in H. case_decide; [done|].
  rewrite Z.shiftl_mul_pow2, Z.pow_add_r in * by lia. lia.
Qed.

Lemma check_desc_size_inv inc d v : check_desc_size inc d = Ok v →
  (has_bits inc Incompat.BIT64 = false ∧ v = 32) ∨
  (has_bits inc Incompat.BIT64 = true ∧ 64 ≤ v ≤ 1024 ∧ is_power_of_two v = true).
Proof.
  unfold check_desc_size. destruct (has_bits inc Incompat.BIT64).
  - case_decide as Hd; [done|]. intros [= <-]. right. split; [done|].
    destruct (is_power_of_two d); [lia|]. exfalso. apply Hd. by right.
  - intros [= <-]. by left.
Qed.

Lemma dynamic_inode_size raw rev v :
  bytes_ok raw → dynamic rev (u16_le raw 0x58) 128 = Ok v → 0 ≤ v < 2 ^ 16.
Proof. intros Hb [H%u16_le_range| ->]%dynamic_inv; done || lia. Qed.
Lemma dynamic_reserved raw rev v :
  bytes_ok raw → dynamic rev (u16_le raw 0xCE) 0 = Ok v → 0 ≤ v < 2 ^ 16.
Proof. intros Hb [H%u16_le_range| ->]%dynamic_inv; done || lia. Qed.
Lemma dynamic_first_inode raw rev v :
  bytes_ok raw →
  dynamic rev (v ← u32_le raw 0x54; Ok (Z.max v GOOD_OLD_FIRST_INODE)) GOOD_OLD_FIRST_INODE = Ok v →
  11 ≤ v < 2 ^ 32.
Proof.
  intros Hb H. unfold GOOD_OLD_FIRST_INODE in H. apply dynamic_inv in H as [H| ->]; [|lia].
  apply bind_ok_inv in H as (w & Hw & [= <-]). apply u32_le_range in Hw; [lia|done].
Qed.

Lemma parse_geometry raw0 sb : bytes_ok raw0 → parse raw0 = Ok sb → geometry_ok sb.
Proof.
  intros Hb H. unfold parse in H. case_decide as Hlen; [done|].
  apply bind_ok_inv in H as (mg & _ & H). case_decide; [done|].
  res_inv; (* twice, over the two outcomes for the backup groups *)
  repeat match goal with
  | H : u16_le _ _ = Ok _ |- _ => apply (u16_le_range _ _ _ Hb) in H
  | H : u32_le _ _ = Ok _ |- _ => apply (u32_le_range _ _ _ Hb) in H
  | H : refuse_when _ _ = Ok _ |- _ => apply refuse_when_inv in H
  | H : check_desc_size _ _ = Ok _ |- _ => apply check_desc_size_inv in H
  end;
  match goal with
  | H1 : dynamic _ (u16_le raw0 0x58) _ = Ok ?isz,
    H2 : dynamic _ (_ ← u32_le raw0 0x54; _) _ = Ok ?fi,
    H3 : dynamic _ (u16_le raw0 0xCE) _ = Ok ?rs |- _ =>
      apply (dynamic_reserved _ _ _ Hb) in H3;
      apply (dynamic_inode_size _ _ _ Hb) in H1; apply (dynamic_first_inode _ _ _ Hb) in H2
  end;
  unfold MAX_LOG_BLOCK_SIZE, SUPERBLOCK_SIZE in *;
  match goal with
  | |- geometry_ok {| blocks_count := join32 ?hi ?lo |} =>
      pose proof (join32_range hi lo ltac:(lia) ltac:(lia))
  end;
  (constructor; simpl; try lia; try done;
   [ split; [done|unfold SUPERBLOCK_SIZE; lia]
   | intros Hbig; rewrite block_size_eq by (simpl; lia); simpl;
     eapply check_group_fits_bitmap_inv; [|done|done]; lia
   | intros -> ->; match goal with |- ?b = true => destruct b eqn:?; [done|] end;
     match goal with H : ¬ (_ ∧ _ ∧ _) |- _ => destruct H; auto end ]).
Qed.

(** [parse] never panics, whatever the buffer. *)
Lemma check_group_fits_bitmap_returns raw log bpg big :
  SUPERBLOCK_SIZE ≤ zlen raw → returns (check_group_fits_bitmap raw log bpg big).
Proof.
  unfold check_group_fits_bitmap, SUPERBLOCK_SIZE. intros H. io.
  destruct big; simpl; repeat (case_decide; simpl); done.
Qed.

Lemma sb_parse_returns raw : returns (parse raw).
Proof.
  unfold parse. case_decide as Hlen; [done|]. unfold SUPERBLOCK_SIZE in Hlen.
  io. case_decide; [done|].
  repeat (apply bind_returns;
    [first [solve [unfold dynamic, refuse_when, check_desc_size; repeat case_match; io; done]
           |apply check_group_fits_bitmap_returns; unfold SUPERBLOCK_SIZE; lia
           |apply traverse_returns; intros i Hi%elem_of_seqZ; io; done]|intros ? _]).
  done.
Qed.

(** ** Group geometry *)

Lemma group_count_nonneg sb : 0 ≤ block_group_count sb.
Proof.
  unfold block_group_count, group_count. apply div_ceil_nonneg; unfold saturating_sub; lia.
Qed.

Lemma group_count_covers blocks first bpg b :
  0 < bpg → 0 ≤ first → first ≤ b < blocks →
  0 ≤ (b - first) / bpg < group_count blocks first bpg.
Proof.
  intros H1 H2 H3. unfold group_count, div_ceil, saturating_sub.
  rewrite Z.max_r, Z.max_l by lia. split; [apply Z.div_pos; lia|].
  apply Z.div_lt_upper_bound; [lia|].
  pose proof (Z.mul_succ_div_gt (blocks - first + bpg - 1) bpg ltac:(lia)). lia.
Qed.

(** The last group is not empty: no phantom group past the end. *)
Lemma group_count_tight blocks first bpg :
  0 < bpg → 0 ≤ first < blocks → (group_count blocks first bpg - 1) * bpg + first < blocks.
Proof.
  intros H1 H2. unfold group_count, div_ceil, saturating_sub. rewrite Z.max_r, Z.max_l by lia.
  pose proof (Z.mul_div_le (blocks - first + bpg - 1) bpg ltac:(lia)). lia.
Qed.

Lemma descs_per_block_pos sb : geometry_ok sb →
  0 < descs_per_block sb ∧ descs_per_block sb * desc_size sb ≤ block_size sb ∧ 32 ≤ desc_size sb.
Proof.
  intros [_ Hl _ _ _ _ _ _ _ _ Hd _ _]. pose proof (block_size_range sb Hl).
  assert (32 ≤ desc_size sb ≤ 1024) by lia. unfold descs_per_block. rewrite Z.max_l by lia.
  pose proof (Z.mul_div_le (block_size sb) (desc_size sb) ltac:(lia)).
  split; [apply Z.div_str_pos; lia|lia].
Qed.

Lemma is_power_of_spec fuel g base :
  2 ≤ base → 1 ≤ g → Z.log2 g < Z.of_nat fuel →
  ∃ b, is_power_of fuel g base = Ok b ∧ (b = true ↔ ∃ k, 0 ≤ k ∧ g = base ^ k).
Proof.
  intros Hbase. revert g. induction fuel as [|fuel IH]; intros g Hg Hf.
  { pose proof (Z.log2_nonneg g). lia. }
  simpl. unfold is_multiple_of. rewrite decide_False by lia. case_bool_decide as Hm.
  - apply Z.mod_divide in Hm as [q ->]; [|lia]. rewrite Z.div_mul by lia.
    assert (1 ≤ q) by nia.
    destruct (IH q) as (b & -> & Hb); [lia| |].
    { assert (Z.log2 (q * 2 ^ 1) ≤ Z.log2 (q * base)) by (apply Z.log2_le_mono; nia).
      rewrite Z.log2_mul_pow2 in * by lia. lia. }
    exists b. split; [done|]. rewrite Hb. split.
    + intros (k & Hk & ->). exists (k + 1). split; [lia|]. rewrite Z.pow_add_r by lia. lia.
    + intros (k & Hk & E). destruct (decide (k = 0)) as [->|]; [simpl in E; nia|].
      exists (k - 1). split; [lia|]. replace k with (k - 1 + 1) in E by lia.
      rewrite Z.pow_add_r in E by lia. nia.
  - exists (bool_decide (g = 1)). split; [done|]. rewrite bool_decide_eq_true. split.
    + intros ->. by exists 0.
    + intros (k & Hk & ->). destruct (decide (k = 0)) as [->|]; [done|]. exfalso.
      apply Hm. apply Z.mod_divide; [lia|]. exists (base ^ (k - 1)).
      replace k with (k - 1 + 1) at 1 by lia. rewrite Z.pow_add_r by lia. lia.
Qed.

Lemma power_fuel_enough g : 1 ≤ g → Z.log2 g < Z.of_nat (power_fuel g).
Proof. intros. unfold power_fuel. pose proof (Z.log2_nonneg g). lia. Qed.

Definition sparse_group (g : Z) : Prop :=
  g = 0 ∨ ∃ k, 0 ≤ k ∧ (g = 3 ^ k ∨ g = 5 ^ k ∨ g = 7 ^ k).

Lemma classic_sparse_super_ok g : 0 ≤ g →
  ∃ b, classic_sparse_super g = Ok b ∧ (b = true ↔ sparse_group g).
Proof.
  intros Hg. unfold classic_sparse_super, sparse_group. case_decide.
  { exists true. split; [done|]. split; [|done]. intros _.
    destruct (decide (g = 0)); [by left|]. right. exists 0. lia. }
  pose proof (power_fuel_enough g ltac:(lia)).
  destruct (is_power_of_spec (power_fuel g) g 3) as (b3 & -> & H3); try lia.
  destruct (is_power_of_spec (power_fuel g) g 5) as (b5 & -> & H5); try lia.
  destruct (is_power_of_spec (power_fuel g) g 7) as (b7 & -> & H7); try lia.
  simpl. destruct b3; simpl.
  { exists true. split; [done|]. split; [|done]. intros _. right.
    destruct (proj1 H3 eq_refl) as (k & ? & ?). exists k. auto. }
  destruct b5; simpl.
  { exists true. split; [done|]. split; [|done]. intros _. right.
    destruct (proj1 H5 eq_refl) as (k & ? & ?). exists k. auto. }
  exists b7. split; [done|]. rewrite H7. split; [intros (k & ? & ?); right; exists k; auto|].
  intros [->|(k & Hk & [E|[E|E]])]; [lia|exfalso|exfalso|by exists k].
  - assert (false = true) by (apply H3; by exists k). done.
  - assert (false = true) by (apply H5; by exists k). done.
Qed.

Lemma group_has_super_ok sb g : 0 ≤ g → ∃ b, group_has_super sb g = Ok b.
Proof.
  intros. unfold group_has_super. case_decide; [by eexists|].
  destruct (has_bits _ _); [by eexists|]. destruct (has_bits _ _); simpl; [|by eexists].
  destruct (classic_sparse_super_ok g) as (b & -> & _); [done|by eexists].
Qed.

Lemma descriptor_slot sb group : geometry_ok sb → 0 ≤ group →
  ∃ block off, descriptor_location sb group = Ok (block, off) ∧ 0 ≤ off ∧
    off + desc_size sb ≤ block_size sb.
Proof.
  intros Hgeo Hg. destruct (descs_per_block_pos sb Hgeo) as (Hpos & Hfit & Hmin).
  assert (Hblock : ∃ block, descriptor_location sb group
     = Ok (block, group mod descs_per_block sb * desc_size sb)).
  { unfold descriptor_location. destruct (meta_group_holding sb group); simpl; [|by eexists].
    case_decide; simpl; [by eexists|].
    destruct (group_has_super_ok sb (as_u64 (z * descs_per_block sb))) as [h ->].
    { unfold as_u64. apply Z.mod_pos_bound. lia. }
    simpl. by eexists. }
  destruct Hblock as [block E]. exists block, (group mod descs_per_block sb * desc_size sb).
  pose proof (Z.mod_pos_bound group (descs_per_block sb) Hpos).
  split; [done|]. split; nia.
Qed.

(** ** Properties *)

(** C40: parsing a superblock never panics, and an accepted superblock has a
    usable geometry: the block size is 1024..65536, no size or per-group count
    that later code divides by is zero, a group's blocks fit its one bitmap
    block (without bigalloc), the descriptor size is 32 or a 64-bit power of
    two, the first group starts inside the filesystem, every block from there
    on lies in an existing group, and no group is empty. *)
Theorem parse_sound raw0 :
  returns (parse raw0) ∧
  ∀ sb, bytes_ok raw0 → parse raw0 = Ok sb →
    geometry_ok sb ∧ 1024 ≤ block_size sb ≤ 65536 ∧ 0 < descs_per_block sb ∧
    (∀ b, first_data_block sb ≤ b < blocks_count sb →
       0 ≤ (b - first_data_block sb) / blocks_per_group sb < block_group_count sb) ∧
    (block_group_count sb - 1) * blocks_per_group sb + first_data_block sb < blocks_count sb.
Proof.
  split; [apply sb_parse_returns|]. intros sb Hb H.
  pose proof (parse_geometry raw0 sb Hb H) as Hgeo. pose proof Hgeo as [_ Hl Hbpg _ _ _ _ _ Hf _ _ _ _].
  split; [done|]. split; [by apply block_size_range|]. split; [by apply descs_per_block_pos|].
  split; [intros b Hb'; apply group_count_covers; lia|apply group_count_tight; lia].
Qed.

(** A small sound image: 1 KiB blocks, 8192 blocks to a group, 16385 blocks. *)
Definition sample_raw : bytes :=
  let set w off v b := splice b off (le_split w v) in
  set 2%nat 0x38 EXT4_MAGIC (set 4%nat 0x4C 1 (set 2%nat 0x58 128 (set 4%nat 0x28 16
    (set 4%nat 0x20 8192 (set 4%nat 0x14 1 (set 4%nat 0x04 16385 (set 4%nat 0x00 32
    (zrep 1024 0)))))))).

Lemma parse_sound_witness :
  ∃ sb, parse sample_raw = Ok sb ∧ block_group_count sb = 2 ∧ block_size sb = 1024 ∧ geometry_ok sb.
Proof.
  destruct (parse_sound sample_raw) as [_ Hs].
  destruct (parse sample_raw) as [sb| | |] eqn:E; [|vm_compute in E; discriminate..].
  exists sb. split; [reflexivity|].
  destruct (Hs sb) as (Hg & _); [by_compute|reflexivity|].
  vm_compute in E. injection E as <-.
  split; [vm_compute; reflexivity|]. split; [vm_compute; reflexivity|]. exact Hg.
Defined.

(** The sparse-superblock rule always terminates, and picks exactly group 0
    and the powers of 3, 5 and 7 (group 1 among them). *)
Lemma classic_sparse_super_spec g :
  0 ≤ g →
  ∃ b, classic_sparse_super g = Ok b ∧
    (b = true ↔ g = 0 ∨ ∃ k, 0 ≤ k ∧ (g = 3 ^ k ∨ g = 5 ^ k ∨ g = 7 ^ k)).
Proof. apply classic_sparse_super_ok. Qed.

Lemma classic_sparse_super_spec_witness :
  classic_sparse_super 343 = Ok true ∧ classic_sparse_super 15 = Ok false.
Proof.
  split; [|vm_compute; reflexivity].
  destruct (classic_sparse_super_spec 343) as (b & E & Hb); [lia|].
  rewrite E. f_equal. apply Hb. right. exists 3. split; [lia|]. right; right. reflexivity.
Defined.

(** With an accepted superblock, a group's descriptor lies inside one block
    (so slicing [desc_size] bytes at the returned offset is in range), and
    without META_BG two groups never share a descriptor slot, the table
    starting in the block after the primary superblock. *)
Lemma descriptor_location_spec sb group :
  geometry_ok sb → 0 ≤ group →
  ∃ block off, descriptor_location sb group = Ok (block, off) ∧
    0 ≤ off ∧ off + desc_size sb ≤ block_size sb ∧
    (has_bits (feature_incompat sb) Incompat.META_BG = false →
       primary_superblock_block sb < block ∧
       ∀ group', 0 ≤ group' → descriptor_location sb group' = Ok (block, off) → group' = group).
Proof.
  intros Hgeo Hg. destruct (descs_per_block_pos sb Hgeo) as (Hpos & Hfit & Hmin).
  destruct (descriptor_slot sb group Hgeo Hg) as (block & off & E & Ho & Hfit').
  exists block, off. split; [done|]. split; [done|]. split; [done|]. intros Hmeta.
  assert (Hloc : ∀ g, descriptor_location sb g = Ok
    (primary_superblock_block sb + 1 + g / descs_per_block sb, g mod descs_per_block sb * desc_size sb)).
  { intros g. unfold descriptor_location, meta_group_holding. by rewrite Hmeta. }
  rewrite Hloc in E. injection E as <- <-. split.
  { pose proof (Z.div_pos group (descs_per_block sb) Hg Hpos). lia. }
  intros g' Hg'. rewrite Hloc. intros [= E1 E2].
  rewrite (Z.div_mod g' (descs_per_block sb)), (Z.div_mod group (descs_per_block sb)) by lia.
  assert (g' / descs_per_block sb = group / descs_per_block sb) as -> by lia.
  assert (g' mod descs_per_block sb = group mod descs_per_block sb) as -> by nia. done.
Qed.

Lemma descriptor_location_spec_witness :
  ∃ sb, parse sample_raw = Ok sb ∧ descriptor_location sb 33 = Ok (3, 32).
Proof.
  destruct (parse sample_raw) as [sb| | |] eqn:E; [|vm_compute in E; discriminate..].
  exists sb. split; [reflexivity|].
  destruct (descriptor_location_spec sb 33) as (b & o & E' & _).
  - apply (parse_geometry sample_raw); [by_compute|exact E].
  - lia.
  - rewrite E'. vm_compute in E. injection E as <-. vm_compute in E'. symmetry. exact E'.
Defined.

End Superblock.
