(* ===== verification/Hash.v ===== *)
(** Hash: the directory index's name hashes (src/src/hash.rs): legacy, half
    MD4 and TEA, signed and unsigned, and what the index relies on of them. *)
From S2P Require Import Prelude.

Inductive HashVersion := Legacy | HalfMd4 | Tea | LegacyUnsigned | HalfMd4Unsigned | TeaUnsigned.
#[global] Instance HashVersion_eq_dec : EqDecision HashVersion.
Proof. solve_decision. Defined.

Module HashVersion.
Definition from_u8 (v : Z) : option HashVersion :=
  match v with
  | 0 => Some Legacy | 1 => Some HalfMd4 | 2 => Some Tea
  | 3 => Some LegacyUnsigned | 4 => Some HalfMd4Unsigned | 5 => Some TeaUnsigned
  | _ => None
  end.
Definition is_unsigned (v : HashVersion) : bool :=
  match v with LegacyUnsigned | HalfMd4Unsigned | TeaUnsigned => true | _ => false end.
End HashVersion.

(** ** Bytes into words *)

Inductive ByteWidening := SignExtend | ZeroExtend.

Definition byte_widening (v : HashVersion) : ByteWidening :=
  if HashVersion.is_unsigned v then ZeroExtend else SignExtend.

(** [byte as i8 as i32 as u32], or [u32::from(byte)] *)
Definition widen (w : ByteWidening) (byte : Z) : Z :=
  match w with
  | SignExtend => as_u32 (if decide (128 ≤ byte) then byte - 256 else byte)
  | ZeroExtend => byte
  end.

(** [x << n] and [x.rotate_left(n)] at [u32] *)
Definition shl32 (x n : Z) : Z := as_u32 (Z.shiftl x n).
Definition rotl32 (x n : Z) : Z := Z.lor (shl32 x n) (Z.shiftr x (32 - n)).
Definition wrapping_add32 (x y : Z) : Z := as_u32 (x + y).

Definition fill_word (remaining : Z) : Z :=
  let r := as_u32 remaining in
  Z.lor (Z.lor (Z.lor r (shl32 r 8)) (shl32 r 16)) (shl32 r 24).

Definition pack (w : ByteWidening) (bs : bytes) (fill : Z) : Z :=
  foldl (λ word b, wrapping_add32 (shl32 word 8) (widen w b)) fill bs.

(** The block [WordFeeder::<N>::next] makes of the bytes still unconsumed. *)
Definition next_block (N : nat) (w : ByteWidening) (rest : bytes) : list Z :=
  let fill := fill_word (zlen rest) in
  let groups := chunks 4 (take (4 * N) rest) in
  imap (λ i word, match groups !! i with Some bs => pack w bs fill | None => word end) (replicate N fill).

(** The blocks the iterator yields; each consumes at least one byte. *)
Fixpoint feed_loop (fuel : nat) (N : nat) (w : ByteWidening) (rest : bytes) : list (list Z) :=
  match fuel, rest with
  | O, _ | _, [] => []
  | S fuel, _ => next_block N w rest :: feed_loop fuel N w (drop (4 * N) rest)
  end.
Definition feed (N : nat) (w : ByteWidening) (name : bytes) : list (list Z) :=
  feed_loop (length name) N w name.

(** ** Block mixers *)

(** What a mixer folds into the state, and the words it reports. *)
Record BlockMixer := mkMixer {
  block_words : nat;
  absorb : list Z → list Z → list Z;
  report : list Z → Z * Z
}.

Definition RFC1320_INITIAL_STATE : list Z := [0x67452301; 0xEFCDAB89; 0x98BADCFE; 0x10325476].

Definition starting_state (seed : list Z) : list Z :=
  if forallb (Z.eqb 0) seed then RFC1320_INITIAL_STATE else seed.

Definition chain_blocks (M : BlockMixer) (name : bytes) (w : ByteWidening) (seed : list Z) : Z * Z :=
  report M (foldl (absorb M) (starting_state seed) (feed (block_words M) w name)).

(** A word of an array whose length the type fixes. *)
Definition word (l : list Z) (i : nat) : Z := default 0 (l !! i).

(** *** Half MD4 *)

Definition rfc1320_f (x y z : Z) : Z := Z.lor (Z.land x y) (Z.land (lnot32 x) z).
Definition rfc1320_g (x y z : Z) : Z := Z.lor (Z.lor (Z.land x y) (Z.land x z)) (Z.land y z).
Definition rfc1320_h (x y z : Z) : Z := Z.lxor (Z.lxor x y) z.
Definition RFC1320_ROUND2_CONSTANT : Z := 0x5A827999.
Definition RFC1320_ROUND3_CONSTANT : Z := 0x6ED9EBA1.

Record Md4Round := mkRound {
  mix : Z → Z → Z → Z; constant : Z; words : list nat; rotations : list Z
}.

Definition HALF_MD4_ROUNDS : list Md4Round := [
  mkRound rfc1320_f 0 [0; 1; 2; 3; 4; 5; 6; 7]%nat [3; 7; 11; 19];
  mkRound rfc1320_g RFC1320_ROUND2_CONSTANT [1; 3; 5; 7; 0; 2; 4; 6]%nat [3; 5; 9; 13];
  mkRound rfc1320_h RFC1320_ROUND3_CONSTANT [3; 7; 2; 6; 1; 5; 0; 4]%nat [3; 9; 11; 15]].

(** One step of a round: [step] counts from 0, [w] is the word it reads. *)
Definition md4_step (round : Md4Round) (block : list Z) (reg : list Z) (sw : nat * nat) : list Z :=
  let '(step, w) := sw in
  let target := ((4 - step mod 4) mod 4)%nat in
  let x := word reg ((target + 1) mod 4) in
  let y := word reg ((target + 2) mod 4) in
  let z := word reg ((target + 3) mod 4) in
  let v := wrapping_add32 (word reg target) (mix round x y z) in
  let v := wrapping_add32 v (word block w) in
  let v := wrapping_add32 v (constant round) in
  <[target := rotl32 v (word (rotations round) (step mod 4))]> reg.

Definition md4_round (block : list Z) (reg : list Z) (round : Md4Round) : list Z :=
  foldl (md4_step round block) reg (zip (seq 0 8) (words round)).

Definition Md4HalfRounds : BlockMixer := mkMixer 8
  (λ state block, zip_with wrapping_add32 state (foldl (md4_round block) state HALF_MD4_ROUNDS))
  (λ state, (word state 1, word state 2)).

(** *** TEA *)

Definition TEA_DELTA : Z := 0x9E3779B9.
Definition TEA_CYCLES : nat := 16.

(** One half of a cycle: [y += (z << 4) + k0 ^ z + sum ^ (z >> 5) + k1]. *)
Definition tea_half (y z sum k0 k1 : Z) : Z :=
  wrapping_add32 y
    (Z.lxor (Z.lxor (wrapping_add32 (shl32 z 4) k0) (wrapping_add32 z sum))
       (wrapping_add32 (Z.shiftr z 5) k1)).

Definition tea_cycle (key : list Z) (st : Z * Z * Z) : Z * Z * Z :=
  let '(y, z, sum) := st in
  let sum := wrapping_add32 sum TEA_DELTA in
  let y := tea_half y z sum (word key 0) (word key 1) in
  let z := tea_half z y sum (word key 2) (word key 3) in
  (y, z, sum).

Definition tea_encipher (plain : Z * Z) (key : list Z) (cycles : nat) : Z * Z :=
  let '(y, z, _) := Nat.iter cycles (tea_cycle key) (plain, 0) in (y, z).

Definition TeaCipher : BlockMixer := mkMixer 4
  (λ state block,
    let '(y, z) := tea_encipher (word state 0, word state 1) block TEA_CYCLES in
    let state := <[0%nat := wrapping_add32 (word state 0) y]> state in
    <[1%nat := wrapping_add32 (word state 1) z]> state)
  (λ state, (word state 0, word state 1)).

(** *** Legacy *)

Module LegacyRecurrence.
Definition MULTIPLIER : Z := 0x006D22F5.
Definition FIRST_TERMS : Z * Z := (0x37ABE8F9, 0x12A3FE2D).
Definition REDUCTION : Z := 0x7FFFFFFF.

Definition step (w : ByteWidening) (terms : Z * Z) (byte : Z) : Z * Z :=
  let '(older, newer) := terms in
  let scaled := as_u32 (widen w byte * MULTIPLIER) in
  let next := wrapping_add32 older (Z.lxor newer scaled) in
  let next := if decide (Z.land next 0x80000000 ≠ 0) then as_u32 (next - REDUCTION) else next in
  (newer, next).

Definition digest (name : bytes) (w : ByteWidening) : Z :=
  let '(_, newest) := foldl (step w) FIRST_TERMS name in shl32 newest 1.
End LegacyRecurrence.

(** ** The name hash *)

Record NameHash := mkHash { major : Z; minor : Z }.

Definition END_OF_DIRECTORY_MAJOR : Z := 0xFFFFFFFE.

Definition name_hash (name : bytes) (version : HashVersion) (seed : list Z) : NameHash :=
  let w := byte_widening version in
  let '(major, minor) :=
    match version with
    | Legacy | LegacyUnsigned => (LegacyRecurrence.digest name w, 0)
    | HalfMd4 | HalfMd4Unsigned => chain_blocks Md4HalfRounds name w seed
    | Tea | TeaUnsigned => chain_blocks TeaCipher name w seed
    end in
  let major := Z.land major (lnot32 1) in
  let major := if decide (major = END_OF_DIRECTORY_MAJOR) then END_OF_DIRECTORY_MAJOR - 2 else major in
  mkHash major minor.

Definition effective_version (root_version : HashVersion) (unsigned_hash : bool) : HashVersion :=
  if negb unsigned_hash then root_version else
  match root_version with
  | Legacy => LegacyUnsigned | HalfMd4 => HalfMd4Unsigned | Tea => TeaUnsigned
  | already_unsigned => already_unsigned
  end.

(** ** Against e2fsprogs: the vectors of src/tests/htree_hash_vectors.rs *)

Definition ascii_bytes (s : string) : bytes :=
  (λ a, Z.of_nat (Ascii.nat_of_ascii a)) <$> String.list_ascii_of_string s.
Definition zero_seed : list Z := [0; 0; 0; 0].
Definition fixture_seed : list Z := [0x5B558AAA; 0x3ADD11F1; 0xA09A21E0; 0xD773837E].
Definition cafe : bytes := ascii_bytes "caf" ++ [0xC3; 0xA9].

(** Seed, version, name, major, minor. *)
Definition vectors : list (list Z * HashVersion * bytes * Z * Z) := [
  (zero_seed, Legacy, ascii_bytes "a", 0xE74B53E2, 0);
  (zero_seed, Legacy, ascii_bytes "seventeen_bytes_x", 0x4294E10A, 0);
  (zero_seed, Legacy, [], 0x2547FC5A, 0);
  (zero_seed, Legacy, cafe, 0x96CA5A2C, 0);
  (zero_seed, LegacyUnsigned, cafe, 0x6DDE4230, 0);
  (zero_seed, HalfMd4, ascii_bytes "a", 0xD5FA7D7A, 0xACB48187);
  (zero_seed, HalfMd4, ascii_bytes "abcde", 0x5821840E, 0x1CE8A82C);
  (zero_seed, HalfMd4, ascii_bytes "forty_byte_name_forty_byte_name_forty_bx", 0x3A089372, 0x0E5D629D);
  (zero_seed, HalfMd4, [], 0xEFCDAB88, 0x98BADCFE);
  (zero_seed, HalfMd4, cafe, 0xFB9C5E5C, 0x0573E8B8);
  (zero_seed, HalfMd4Unsigned, cafe, 0x9D72AED6, 0xF6138C6A);
  (fixture_seed, HalfMd4, cafe, 0xE180DCAE, 0xF6655F53);
  (zero_seed, Tea, ascii_bytes "abcd", 0x5A24112E, 0x95442076);
  (zero_seed, Tea, ascii_bytes "seventeen_bytes_x", 0xF350332E, 0xB9EECF7F);
  (zero_seed, Tea, cafe, 0x105842EA, 0xFB9165CA);
  (zero_seed, TeaUnsigned, cafe, 0x6621F032, 0xF86699C6);
  (fixture_seed, Tea, [0xFF; 0x80; 0x7F], 0x0B2BDA42, 0x67A61515);
  (fixture_seed, LegacyUnsigned, [0xFF; 0x80; 0x7F], 0xB32A9ECC, 0)].

Example vectors_agree :
  (λ '(seed, v, name, _, _), name_hash name v seed) <$> vectors
  = (λ '(_, _, _, ma, mi), mkHash ma mi) <$> vectors.
Proof. vm_compute. reflexivity. Qed.

(** ** Properties *)

Lemma land_even x : Z.land x (lnot32 1) = 2 * ((x / 2) mod 2 ^ 31).
Proof.
  change (lnot32 1) with (Z.shiftl (Z.ones 31) 1).
  transitivity (Z.shiftl (Z.land (Z.shiftr x 1) (Z.ones 31)) 1).
  2: { rewrite Z.shiftl_mul_pow2, Z.land_ones, Z.shiftr_div_pow2 by lia. change (2 ^ 1) with 2. lia. }
  apply Z.bits_inj'. intros n Hn. rewrite Z.land_spec, !Z.shiftl_spec, Z.land_spec by lia.
  destruct (decide (n = 0)) as [->|].
  - rewrite !(Z.testbit_neg_r _ (0 - 1)) by lia. apply andb_false_r.
  - rewrite Z.shiftr_spec by lia. by replace (n - 1 + 1) with n by lia.
Qed.

(** What the index relies on of a major hash.  Whatever the name, version
    and seed, [name_hash] gives an even 32-bit major hash, and never the value
    0xFFFFFFFE that ends a directory. *)
Lemma name_hash_major name version seed :
  let h := major (name_hash name version seed) in
  0 ≤ h < END_OF_DIRECTORY_MAJOR ∧ Z.land h 1 = 0.
Proof.
  cbv zeta. unfold name_hash.
  match goal with |- context [let '(_, _) := ?p in _] => destruct p as [m mi] end. cbn [major].
  rewrite land_even. set (k := (m / 2) mod 2 ^ 31).
  assert (Hk : 0 ≤ k < 2 ^ 31) by (apply Z.mod_pos_bound; lia). unfold END_OF_DIRECTORY_MAJOR.
  case_decide as Hd; [by vm_compute|]. split; [lia|].
  change 1 with (Z.ones 1). rewrite Z.land_ones by lia. rewrite Z.mul_comm. by apply Z.mod_mul.
Qed.

(** *** Signed and unsigned *)

Lemma widen_ascii b : 0 ≤ b < 128 → widen SignExtend b = widen ZeroExtend b.
Proof. intros Hb. cbn. rewrite decide_False by lia. unfold as_u32. apply Z.mod_small. lia. Qed.

(** ASCII bytes. *)
Definition narrow (bs : bytes) : Prop := Forall (λ b, 0 ≤ b < 128) bs.

Lemma pack_ascii bs fill : narrow bs → pack SignExtend bs fill = pack ZeroExtend bs fill.
Proof.
  unfold pack. revert fill. induction bs as [|b bs IH]; intros fill Hb; [done|].
  apply Forall_cons in Hb as [Hb Hbs]. cbn [foldl]. rewrite widen_ascii by done. by apply IH.
Qed.

Lemma next_block_ascii N rest : narrow rest → next_block N SignExtend rest = next_block N ZeroExtend rest.
Proof.
  intros Hr. unfold next_block. apply imap_ext. intros i x _.
  destruct (chunks 4 (take (4 * N) rest) !! i) as [bs|] eqn:E; [|done]. apply pack_ascii.
  destruct (chunks_spec 4 (take (4 * N) rest)) as [Hc _]; [lia|].
  apply Forall_take with (n := (4 * N)%nat) in Hr. rewrite <-Hc in Hr.
  rewrite Forall_concat, Forall_forall in Hr. apply Hr. by eapply list_elem_of_lookup_2.
Qed.

Lemma feed_ascii N name : narrow name → feed N SignExtend name = feed N ZeroExtend name.
Proof.
  unfold feed. generalize (length name). intros fuel. revert name.
  induction fuel as [|fuel IH]; intros name Hn; [done|]. destruct name as [|b name]; [done|].
  cbn [feed_loop]. rewrite next_block_ascii by done. f_equal. apply IH. by apply Forall_drop.
Qed.

Lemma digest_ascii name : narrow name → LegacyRecurrence.digest name SignExtend = LegacyRecurrence.digest name ZeroExtend.
Proof.
  intros Hn. unfold LegacyRecurrence.digest.
  assert (E : ∀ st, foldl (LegacyRecurrence.step SignExtend) st name = foldl (LegacyRecurrence.step ZeroExtend) st name).
  { induction Hn as [|b name Hb Hn IH]; intros [o n]; [done|]. cbn [foldl]. unfold LegacyRecurrence.step at 2 4.
    by rewrite widen_ascii, IH by done. }
  by rewrite E.
Qed.

(** On ASCII names the signed and unsigned hashes agree.  Where every byte
    of the name is below 0x80, the version that [effective_version] picks for a
    filesystem with the unsigned-hash flag gives the same hash as the version
    the root records, so the flag only matters for other names. *)
Lemma ascii_hash_agrees name version unsigned_hash seed : narrow name →
  name_hash name (effective_version version unsigned_hash) seed = name_hash name version seed.
Proof.
  intros Hn. destruct unsigned_hash; [|done]. unfold name_hash, chain_blocks.
  destruct version; cbn [effective_version negb byte_widening HashVersion.is_unsigned]; try done;
    unfold byte_widening; cbn [HashVersion.is_unsigned];
    by rewrite ?(feed_ascii _ name Hn), ?(digest_ascii name Hn).
Qed.

Lemma ascii_hash_agrees_witness :
  name_hash (ascii_bytes "document.txt") (effective_version HalfMd4 true) zero_seed = mkHash 0xAEC4DABA 0xE3CC0BB9.
Proof.
  etransitivity; [apply (ascii_hash_agrees (ascii_bytes "document.txt") HalfMd4 true zero_seed); by_compute|].
  vm_compute. reflexivity.
Defined.
