(* ===== verification/Checksum.v ===== *)
(** Checksum: metadata checksums (src/src/checksum.rs).  The [crc32c] crate is
    a parameter, the class [Crc32c]; everything the driver builds on it (the
    chaining form, the recipe of each structure, where each checksum is stored)
    is defined here, with the theorems that what a write patches a read
    verifies. *)
From S2P Require Import Prelude Errors Bytes Features Superblock.

(** [crc32c::crc32c_append(crc, data)]: a [u32] of a [u32] and bytes. *)
Class Crc32c := {
  crc32c_append : Z → bytes → Z;
  crc32c_append_range c d : 0 ≤ crc32c_append c d < 2 ^ 32;
  (* it is a streaming checksum *)
  crc32c_append_app c a b : 0 ≤ c < 2 ^ 32 → bytes_ok a → bytes_ok b →
    crc32c_append (crc32c_append c a) b = crc32c_append c (a ++ b);
}.

(** The published CRC-32C (Castagnoli, reflected, inverted at both ends), to
    evaluate the definitions on concrete bytes. *)
Module Castagnoli.
Definition step (c : Z) : Z :=
  if Z.testbit c 0 then Z.lxor (Z.shiftr c 1) 0x82F63B78 else Z.shiftr c 1.
Definition byte (c b : Z) : Z := Nat.iter 8 step (Z.lxor c b).
Definition append (c : Z) (d : bytes) : Z :=
  (2 ^ 32 - 1 - foldl byte (2 ^ 32 - 1 - c) d) mod 2 ^ 32.
End Castagnoli.

Lemma range_bits x n : 0 ≤ n → 0 ≤ x → (∀ i, n ≤ i → Z.testbit x i = false) → x < 2 ^ n.
Proof.
  intros Hn Hx Hb. assert (E : x mod 2 ^ n = x).
  { apply Z.bits_inj'. intros i Hi. destruct (decide (i < n)).
    - by rewrite Z.mod_pow2_bits_low by lia.
    - rewrite Z.mod_pow2_bits_high by lia. by rewrite Hb by lia. }
  rewrite <-E. apply Z.mod_pos_bound. lia.
Qed.

Lemma bits_above x n i : 0 ≤ n → 0 ≤ x < 2 ^ n → n ≤ i → Z.testbit x i = false.
Proof.
  intros Hn Hx Hi. rewrite <-(Z.mod_small x (2 ^ n)) by lia. by apply Z.mod_pow2_bits_high; lia.
Qed.

Lemma lxor_range a b n : 0 ≤ n → 0 ≤ a < 2 ^ n → 0 ≤ b < 2 ^ n → 0 ≤ Z.lxor a b < 2 ^ n.
Proof.
  intros Hn Ha Hb. assert (0 ≤ Z.lxor a b) by (apply Z.lxor_nonneg; lia). split; [done|].
  apply range_bits; [done|done|]. intros i Hi.
  by rewrite Z.lxor_spec, !(bits_above _ n) by lia.
Qed.

Lemma shiftr1_range a n : 0 ≤ a < 2 ^ n → 0 ≤ Z.shiftr a 1 < 2 ^ n.
Proof.
  intros Ha. rewrite Z.shiftr_div_pow2 by lia. change (2 ^ 1) with 2.
  split; [apply Z.div_pos; lia|]. apply Z.le_lt_trans with a; [|lia].
  apply Z.div_le_upper_bound; lia.
Qed.

Lemma castagnoli_iter_range k x :
  0 ≤ x < 2 ^ 32 → 0 ≤ Nat.iter k Castagnoli.step x < 2 ^ 32.
Proof.
  intros Hx. induction k as [|k IH]; simpl; [done|].
  unfold Castagnoli.step at 1 3. destruct (Z.testbit _ 0); [|by apply shiftr1_range].
  apply lxor_range; [lia|by apply shiftr1_range|lia].
Qed.

Lemma castagnoli_byte_range c b : 0 ≤ c < 2 ^ 32 → 0 ≤ b < 256 → 0 ≤ Castagnoli.byte c b < 2 ^ 32.
Proof. intros Hc Hb. apply castagnoli_iter_range, lxor_range; lia. Qed.

Lemma castagnoli_fold_range d c : bytes_ok d → 0 ≤ c < 2 ^ 32 → 0 ≤ foldl Castagnoli.byte c d < 2 ^ 32.
Proof.
  intros Hd. revert c. induction Hd as [|b d Hb Hd IH]; intros c Hc; simpl; [done|].
  apply IH. by apply castagnoli_byte_range.
Qed.

Lemma castagnoli_append_app c a b : 0 ≤ c < 2 ^ 32 → bytes_ok a → bytes_ok b →
  Castagnoli.append (Castagnoli.append c a) b = Castagnoli.append c (a ++ b).
Proof.
  intros Hc Ha Hb. unfold Castagnoli.append. rewrite foldl_app.
  pose proof (castagnoli_fold_range a (2 ^ 32 - 1 - c) Ha ltac:(lia)).
  rewrite (Z.mod_small (2 ^ 32 - 1 - foldl Castagnoli.byte (2 ^ 32 - 1 - c) a)) by lia.
  do 3 f_equal. lia.
Qed.

Definition castagnoli : Crc32c :=
  {| crc32c_append := Castagnoli.append;
     crc32c_append_range := λ c d, Z.mod_pos_bound _ (2 ^ 32) ltac:(lia);
     crc32c_append_app := castagnoli_append_app |}.

Example castagnoli_check :
  Castagnoli.append 0 [0x31; 0x32; 0x33; 0x34; 0x35; 0x36; 0x37; 0x38; 0x39] = 0xE3069283.
Proof. vm_compute. reflexivity. Qed.

(** [!0] on a [u16] / [u32] *)
Definition u16_ones : Z := 2 ^ 16 - 1.
Definition u32_ones : Z := 2 ^ 32 - 1.

(** ** crc16 *)

Definition crc16_bit (crc : Z) : Z :=
  if decide (Z.land crc 1 ≠ 0) then Z.lxor (Z.shiftr crc 1) 0xA001 else Z.shiftr crc 1.
Definition crc16_byte (crc b : Z) : Z := Nat.iter 8 crc16_bit (Z.lxor crc b).
Definition crc16 (crc : Z) (data : bytes) : Z := foldl crc16_byte crc data.

Definition DIR_ENTRY_TAIL_FILE_TYPE : Z := 0xDE.
Definition GOOD_OLD_INODE_SIZE : Z := 128.

Definition checksum_hi_fits (inode_raw : bytes) : res bool :=
  if decide (0x84 ≤ zlen inode_raw) then v ← u16_le inode_raw 0x80; Ok (bool_decide (4 ≤ v))
  else Ok false.

Section crc.
Context `{Crc32c}.

Definition linux_crc32c (seed : Z) (data : bytes) : Z :=
  lnot32 (crc32c_append (lnot32 seed) data).

(** ** [Checksummer] *)
Record Checksummer := mkChecksummer { seed : Z; enabled : bool }.

Definition from_superblock (sb : Superblock.t) : Checksummer :=
  let enabled := has_bits (Superblock.feature_ro_compat sb) RoCompat.METADATA_CSUM in
  let seed := if has_bits (Superblock.feature_incompat sb) Incompat.CSUM_SEED
              then Superblock.checksum_seed sb
              else linux_crc32c u32_ones (Superblock.uuid sb) in
  mkChecksummer seed enabled.

Definition crc (s : Checksummer) (data : bytes) : Z := linux_crc32c (seed s) data.
Definition crc_with_prefix (s : Checksummer) (prefix : Z) (data : bytes) : Z :=
  let mid := linux_crc32c (seed s) (le_split 4 prefix) in linux_crc32c mid data.

(** The inode number and generation folded into the seed. *)
Definition ino_gen (s : Checksummer) (ino generation : Z) : Z :=
  let c := linux_crc32c (seed s) (le_split 4 ino) in linux_crc32c c (le_split 4 generation).

Definition group_desc_csum (sb : Superblock.t) (csum : Checksummer) (group : Z) (desc : bytes)
    : res (option Z) :=
  let n := Superblock.desc_size sb in
  if decide (zlen desc < n ∨ n < 0x20) then Ok None else
  let le_group := le_split 4 group in
  head ← slice desc 0 0x1E;
  rest ← slice desc 0x20 (n - 0x20);
  if has_bits (Superblock.feature_ro_compat sb) RoCompat.METADATA_CSUM then
    let c := linux_crc32c (seed csum) le_group in
    let c := linux_crc32c c head in
    let c := linux_crc32c c [0; 0] in
    let c := linux_crc32c c rest in
    Ok (Some (as_u16 c))
  else if negb (has_bits (Superblock.feature_ro_compat sb) RoCompat.GDT_CSUM) then Ok None
  else
    let c := crc16 u16_ones (Superblock.uuid sb) in
    let c := crc16 c le_group in
    let c := crc16 c head in
    let c := if has_bits (Superblock.feature_incompat sb) Incompat.BIT64 then crc16 c rest else c in
    Ok (Some c).

Definition verify_superblock (s : Checksummer) (sb_raw : bytes) : res bool :=
  if negb (enabled s) then Ok true else
  if decide (zlen sb_raw < 1024) then Ok false else
  stored ← u32_le sb_raw 0x3FC;
  body ← slice sb_raw 0 0x3FC;
  Ok (bool_decide (stored = linux_crc32c u32_ones body)).

Definition verify_bgd (s : Checksummer) (group_no : Z) (bgd_raw : bytes) (desc_size : Z) : res bool :=
  if negb (enabled s) then Ok true else
  let n := desc_size in
  if decide (zlen bgd_raw < n ∨ n < 0x20) then Ok false else
  stored ← u16_le bgd_raw 0x1E;
  tmp ← slice bgd_raw 0 n;
  tmp ← put tmp 0x1E [0; 0];
  let computed16 := as_u16 (crc_with_prefix s group_no tmp) in
  Ok (bool_decide (computed16 = stored)).

(** *** Directory-block tail *)

Definition verify_dir_entry_tail (s : Checksummer) (ino generation : Z) (block : bytes) : res bool :=
  if negb (enabled s) then Ok true else
  if decide (zlen block < 12) then Ok false else
  let e := zlen block in
  stored ← u32_le block (e - 4);
  body ← slice block 0 (e - 12);
  Ok (bool_decide (linux_crc32c (ino_gen s ino generation) body = stored)).

Definition patch_dir_entry_tail (s : Checksummer) (ino generation : Z) (block : bytes)
    : res (bool * bytes) :=
  if decide (enabled s = false ∨ zlen block < 12) then Ok (false, block) else
  let e := zlen block in
  block ← put_u32 block (e - 12) 0;
  block ← put_u16 block (e - 8) 12;
  block ← put block (e - 6) [0];
  block ← put block (e - 5) [DIR_ENTRY_TAIL_FILE_TYPE];
  body ← slice block 0 (e - 12);
  let c := linux_crc32c (ino_gen s ino generation) body in
  block ← put_u32 block (e - 4) c;
  Ok (true, block).

(** *** htree node tail *)

Definition patch_dx_tail (s : Checksummer) (ino generation : Z) (block : bytes) (count_offset : Z)
    : res (bool * bytes) :=
  if decide (enabled s = false ∨ zlen block < count_offset + 4) then Ok (false, block) else
  limit ← u16_le block count_offset;
  count ← u16_le block (count_offset + 2);
  let tail := count_offset + limit * 8 in
  if decide (limit < count ∨ zlen block < tail + 8) then Ok (false, block) else
  used ← slice block 0 (count_offset + count * 8);
  reserved ← slice block tail 4;
  let c := linux_crc32c (ino_gen s ino generation) used in
  let c := linux_crc32c c reserved in
  let c := linux_crc32c c [0; 0; 0; 0] in
  block ← put_u32 block (tail + 4) c;
  Ok (true, block).

Definition verify_dx_tail (s : Checksummer) (ino generation : Z) (block : bytes) (count_offset : Z)
    : res (option bool) :=
  '(patched, copy) ← patch_dx_tail s ino generation block count_offset;
  if (patched : bool) then Ok (Some (bool_decide (copy = block))) else Ok None.

(** *** Extent-block tail *)

Definition verify_extent_tail (s : Checksummer) (ino generation : Z) (block : bytes) : res bool :=
  if negb (enabled s) then Ok true else
  if decide (zlen block < 4) then Ok false else
  let e := zlen block in
  stored ← u32_le block (e - 4);
  body ← slice block 0 (e - 4);
  Ok (bool_decide (linux_crc32c (ino_gen s ino generation) body = stored)).

Definition patch_extent_tail (s : Checksummer) (ino generation : Z) (block : bytes)
    : res (bool * bytes) :=
  if decide (enabled s = false ∨ zlen block < 4) then Ok (false, block) else
  let e := zlen block in
  body ← slice block 0 (e - 4);
  block ← put_u32 block (e - 4) (linux_crc32c (ino_gen s ino generation) body);
  Ok (true, block).

(** *** Inode *)

Definition compute_inode_checksum (s : Checksummer) (ino generation : Z) (inode_raw : bytes)
    : res (option (Z * Z)) :=
  if decide (enabled s = false ∨ zlen inode_raw < GOOD_OLD_INODE_SIZE) then Ok None else
  fits_hi ← checksum_hi_fits inode_raw;
  tmp ← put inode_raw 0x7C [0; 0];
  tmp ← (if fits_hi : bool then put tmp 0x82 [0; 0] else Ok tmp);
  let c := linux_crc32c (ino_gen s ino generation) tmp in
  let lo := Z.land c 0xFFFF in
  let hi := if fits_hi : bool then Z.land (Z.shiftr c 16) 0xFFFF else 0 in
  Ok (Some (lo, hi)).

Definition join16 (hi lo : Z) : Z := Z.lor (Z.shiftl hi 16) lo.

Definition verify_inode (s : Checksummer) (ino generation : Z) (inode_raw : bytes) : res bool :=
  if negb (enabled s) then Ok true else
  if decide (zlen inode_raw < GOOD_OLD_INODE_SIZE) then Ok false else
  stored_lo ← u16_le inode_raw 0x7C;
  fits ← checksum_hi_fits inode_raw;
  stored_hi ← (if fits : bool then u16_le inode_raw 0x82 else Ok 0);
  let stored := join16 stored_hi stored_lo in
  o ← compute_inode_checksum s ino generation inode_raw;
  match o with
  | Some (lo, hi) => Ok (bool_decide (join16 hi lo = stored))
  | None => Ok true
  end.

Definition patch_inode_checksum (s : Checksummer) (ino generation : Z) (inode_raw : bytes) : res bytes :=
  o ← compute_inode_checksum s ino generation inode_raw;
  match o with
  | Some (lo, hi) =>
      inode_raw ← put_u16 inode_raw 0x7C lo;
      fits ← checksum_hi_fits inode_raw;
      if fits : bool then put_u16 inode_raw 0x82 hi else Ok inode_raw
  | None => Ok inode_raw
  end.

(** *** External xattr block *)

Definition compute_xattr_block_csum (s : Checksummer) (block_nr : Z) (block : bytes) : res Z :=
  let c := linux_crc32c (seed s) (le_split 8 block_nr) in
  head ← slice block 0x00 0x10;
  let c := linux_crc32c c head in
  let c := linux_crc32c c (le_split 4 0) in
  rest ← slice block 0x14 (zlen block - 0x14);
  Ok (linux_crc32c c rest).

Definition verify_xattr_block (s : Checksummer) (block_nr : Z) (block : bytes) : res bool :=
  if negb (enabled s) then Ok true else
  if decide (zlen block < 0x20) then Ok false else
  stored ← u32_le block 0x10;
  computed ← compute_xattr_block_csum s block_nr block;
  Ok (bool_decide (stored = computed)).

Definition patch_xattr_block (s : Checksummer) (block_nr : Z) (block : bytes) : res (bool * bytes) :=
  if decide (enabled s = false ∨ zlen block < 0x20) then Ok (false, block) else
  csum ← compute_xattr_block_csum s block_nr block;
  block ← put_u32 block 0x10 csum;
  Ok (true, block).

(** ** Lemmas *)

Lemma linux_crc32c_range sd d : 0 ≤ linux_crc32c sd d < 2 ^ 32.
Proof.
  unfold linux_crc32c, lnot32. pose proof (crc32c_append_range (2 ^ 32 - 1 - sd) d). lia.
Qed.

Lemma checksum_hi_fits_splice raw off src :
  0 ≤ off → off + zlen src ≤ zlen raw → off + zlen src ≤ 0x80 ∨ 0x82 ≤ off →
  checksum_hi_fits (splice raw off src) = checksum_hi_fits raw.
Proof.
  intros. unfold checksum_hi_fits. rewrite zlen_splice by lia. case_decide; [|done].
  rewrite !u16_le_ok by (rewrite ?zlen_splice by lia; lia).
  by rewrite le16_splice_ne by lia.
Qed.

Lemma checksum_hi_fits_ok raw : ∃ b, checksum_hi_fits raw = Ok b ∧ (b = true → 0x84 ≤ zlen raw).
Proof.
  unfold checksum_hi_fits. case_decide; [|by exists false]. io. by eexists.
Qed.

Lemma compute_inode_checksum_ok s ino gen raw :
  enabled s = true → GOOD_OLD_INODE_SIZE ≤ zlen raw →
  ∃ fits, checksum_hi_fits raw = Ok fits ∧ (fits = true → 0x84 ≤ zlen raw) ∧
  let tmp := splice raw 0x7C [0; 0] in
  let tmp := if fits then splice tmp 0x82 [0; 0] else tmp in
  let c := linux_crc32c (ino_gen s ino gen) tmp in
  compute_inode_checksum s ino gen raw =
    Ok (Some (Z.land c 0xFFFF, if fits then Z.land (Z.shiftr c 16) 0xFFFF else 0)).
Proof.
  unfold GOOD_OLD_INODE_SIZE. intros He Hl. unfold compute_inode_checksum, GOOD_OLD_INODE_SIZE.
  rewrite decide_False by (rewrite He; intros [|]; [done|lia]).
  destruct (checksum_hi_fits_ok raw) as (fits & E & Hf). exists fits. split; [done|]. split; [done|].
  rewrite E. simpl. rewrite put_ok by (autorewrite with zlen; lia). simpl.
  destruct fits; [|done].
  rewrite put_ok by (rewrite ?zlen_splice by (autorewrite with zlen; lia);
    autorewrite with zlen; specialize (Hf eq_refl); lia). done.
Qed.

Lemma join16_eq hi lo : 0 ≤ lo < 2 ^ 16 → join16 hi lo = hi * 2 ^ 16 + lo.
Proof. intros. unfold join16. apply lor_shiftl_add; lia. Qed.

Lemma land_0xFFFF x : Z.land x 0xFFFF = x mod 2 ^ 16.
Proof. apply (land_ones_mod x 16). lia. Qed.

Lemma dir_tail_verifies s ino gen block :
  enabled s = true →
  12 ≤ zlen block → ∃ b', patch_dir_entry_tail s ino gen block = Ok (true, b') ∧
     verify_dir_entry_tail s ino gen b' = Ok true ∧ zlen b' = zlen block ∧
     sub b' 0 (zlen block - 12) = sub block 0 (zlen block - 12).
Proof.
  intros He Hl. unfold patch_dir_entry_tail.
  rewrite decide_False by (rewrite He; intros [|]; [done|lia]).
  rewrite put_u32_ok by lia. simpl. rewrite put_u16_ok by zl. simpl.
  rewrite put_ok by zl. simpl. rewrite put_ok by zl. simpl.
  set (b2 := splice (splice (splice (splice block _ _) _ _) _ _) _ _).
  assert (Hl2 : zlen b2 = zlen block) by (unfold b2; zl).
  assert (Hs2 : sub b2 0 (zlen block - 12) = sub block 0 (zlen block - 12)).
  { unfold b2. rewrite !sub_splice_disjoint by zl. done. }
  clearbody b2. rewrite slice_ok by lia. simpl. rewrite put_u32_ok by lia. simpl.
  eexists; split; [done|].
  assert (Hs3 : ∀ v, sub (splice b2 (zlen block - 4) (le_split 4 v)) 0 (zlen block - 12)
     = sub block 0 (zlen block - 12)) by (intros; by rewrite sub_splice_disjoint by zl).
  split; [|split; [zl|apply Hs3]].
  unfold verify_dir_entry_tail. rewrite He. simpl.
  rewrite zlen_splice, Hl2 by zl. rewrite decide_False by lia.
  rewrite u32_le_ok, slice_ok by zl. simpl.
  rewrite Hs3, le32_splice by (try lia; apply linux_crc32c_range). rewrite Hs2.
  by rewrite bool_decide_true.
Qed.

Lemma extent_tail_verifies s ino gen block :
  enabled s = true →
  4 ≤ zlen block → ∃ b', patch_extent_tail s ino gen block = Ok (true, b') ∧
     verify_extent_tail s ino gen b' = Ok true ∧ zlen b' = zlen block ∧
     sub b' 0 (zlen block - 4) = sub block 0 (zlen block - 4).
Proof.
  intros He.
  intros Hl. unfold patch_extent_tail.
  rewrite decide_False by (rewrite He; intros [|]; [done|lia]).
  rewrite slice_ok by lia. simpl. rewrite put_u32_ok by lia. simpl. eexists; split; [done|].
  assert (Hs : ∀ v, sub (splice block (zlen block - 4) (le_split 4 v)) 0 (zlen block - 4)
                    = sub block 0 (zlen block - 4)).
  { intros. rewrite sub_splice_disjoint; autorewrite with zlen; try lia. done. }
  split; [|split; [rewrite zlen_splice; autorewrite with zlen; lia|apply Hs]].
  unfold verify_extent_tail. rewrite He, zlen_splice by (autorewrite with zlen; lia). simpl.
  rewrite decide_False by lia.
  rewrite u32_le_ok, slice_ok by (rewrite ?zlen_splice; autorewrite with zlen; lia). simpl.
  rewrite Hs, le32_splice by (try lia; apply linux_crc32c_range). by rewrite bool_decide_true.
Qed.

Lemma xattr_block_verifies s nr block :
  enabled s = true →
  0x20 ≤ zlen block → ∃ b', patch_xattr_block s nr block = Ok (true, b') ∧
     verify_xattr_block s nr b' = Ok true ∧ zlen b' = zlen block ∧
     sub b' 0 0x10 = sub block 0 0x10 ∧ sub b' 0x14 (zlen block) = sub block 0x14 (zlen block).
Proof.
  intros He.
  intros Hl. unfold patch_xattr_block, compute_xattr_block_csum.
  rewrite decide_False by (rewrite He; intros [|]; [done|lia]).
  rewrite !slice_ok by lia. simpl. rewrite put_u32_ok by lia. simpl. eexists; split; [done|].
  assert (Hs : ∀ v, sub (splice block 0x10 (le_split 4 v)) 0 0x10 = sub block 0 0x10).
  { intros. rewrite sub_splice_disjoint; autorewrite with zlen; try lia. done. }
  assert (Hr : ∀ v n, sub (splice block 0x10 (le_split 4 v)) 0x14 n = sub block 0x14 n).
  { intros. rewrite sub_splice_disjoint; autorewrite with zlen; try lia. done. }
  split; [|split; [rewrite zlen_splice; autorewrite with zlen; lia|split; [apply Hs|apply Hr]]].
  unfold verify_xattr_block, compute_xattr_block_csum.
  rewrite He, zlen_splice by (autorewrite with zlen; lia). simpl. rewrite decide_False by lia.
  rewrite u32_le_ok, !slice_ok by (rewrite ?zlen_splice; autorewrite with zlen; lia). simpl.
  rewrite Hs, Hr, le32_splice by (try lia; apply linux_crc32c_range). by rewrite bool_decide_true.
Qed.

Definition dx_tail_csum (s : Checksummer) (ino gen : Z) (block : bytes) (co : Z) : Z :=
  linux_crc32c (linux_crc32c (linux_crc32c (ino_gen s ino gen)
    (sub block 0 (co + le16 block (co + 2) * 8))) (sub block (co + le16 block co * 8) 4)) [0; 0; 0; 0].

Lemma patch_dx_tail_eq s ino gen block co :
  0 ≤ co → bytes_ok block →
  patch_dx_tail s ino gen block co =
    Ok (if decide (enabled s = true ∧ co + 4 ≤ zlen block ∧ le16 block (co + 2) ≤ le16 block co ∧
                   co + le16 block co * 8 + 8 ≤ zlen block)
        then (true, splice block (co + le16 block co * 8 + 4)
                      (le_split 4 (dx_tail_csum s ino gen block co)))
        else (false, block)).
Proof.
  intros Hco Hb. unfold patch_dx_tail.
  pose proof (le16_range block co Hb). pose proof (le16_range block (co + 2) Hb).
  destruct (enabled s).
  2:{ rewrite decide_True by auto. by rewrite decide_False by naive_solver. }
  destruct (decide (zlen block < co + 4)).
  { rewrite decide_True by auto. by rewrite decide_False by lia. }
  rewrite decide_False by naive_solver. io. case_decide.
  { by rewrite decide_False by lia. }
  io. by rewrite decide_True by lia.
Qed.

Lemma dx_tail_verifies s ino gen block co b' :
  0 ≤ co → bytes_ok block → patch_dx_tail s ino gen block co = Ok (true, b') →
  verify_dx_tail s ino gen b' co = Ok (Some true) ∧ zlen b' = zlen block.
Proof.
  intros Hco Hb. rewrite patch_dx_tail_eq by done. case_decide as Hd; [|done]. intros [= <-].
  destruct Hd as (He & H1 & H2 & H3). pose proof (le16_range block co Hb).
  pose proof (le16_range block (co + 2) Hb).
  set (v := dx_tail_csum s ino gen block co).
  set (b' := splice block _ (le_split 4 v)).
  assert (Hz : zlen b' = zlen block) by (unfold b'; zl). split; [|done].
  assert (Hlim : le16 b' co = le16 block co) by (unfold b'; by rewrite le16_splice_ne by zl).
  assert (Hcnt : le16 b' (co + 2) = le16 block (co + 2))
    by (unfold b'; by rewrite le16_splice_ne by zl).
  assert (Hv : dx_tail_csum s ino gen b' co = v).
  { unfold dx_tail_csum, v. rewrite Hlim, Hcnt. unfold b'. by rewrite !sub_splice_disjoint by zl. }
  unfold verify_dx_tail. rewrite patch_dx_tail_eq by (try done; unfold b'; auto with ext4).
  rewrite Hlim, Hcnt, Hz, Hv, decide_True by done. simpl.
  assert (splice b' (co + le16 block co * 8 + 4) (le_split 4 v) = b') as ->
    by (unfold b'; by rewrite splice_overwrite by zl).
  by rewrite bool_decide_true.
Qed.

(** ** Properties *)

(** What a write patches, a read verifies.  With checksums enabled, planting
    the directory tail, the extent-block tail, the htree node tail or the
    xattr-block checksum in a large enough block always succeeds, makes the
    corresponding verification succeed, keeps the block's length, and changes
    no byte outside the tail (or checksum field) it owns. *)
Lemma patched_block_verifies s ino gen nr block :
  enabled s = true →
  (12 ≤ zlen block → ∃ b', patch_dir_entry_tail s ino gen block = Ok (true, b') ∧
     verify_dir_entry_tail s ino gen b' = Ok true ∧ zlen b' = zlen block ∧
     sub b' 0 (zlen block - 12) = sub block 0 (zlen block - 12)) ∧
  (4 ≤ zlen block → ∃ b', patch_extent_tail s ino gen block = Ok (true, b') ∧
     verify_extent_tail s ino gen b' = Ok true ∧ zlen b' = zlen block ∧
     sub b' 0 (zlen block - 4) = sub block 0 (zlen block - 4)) ∧
  (0x20 ≤ zlen block → ∃ b', patch_xattr_block s nr block = Ok (true, b') ∧
     verify_xattr_block s nr b' = Ok true ∧ zlen b' = zlen block ∧
     sub b' 0 0x10 = sub block 0 0x10 ∧ sub b' 0x14 (zlen block) = sub block 0x14 (zlen block)) ∧
  (∀ co b', 0 ≤ co → bytes_ok block → patch_dx_tail s ino gen block co = Ok (true, b') →
     verify_dx_tail s ino gen b' co = Ok (Some true) ∧ zlen b' = zlen block).
Proof.
  intros He. split; [by apply dir_tail_verifies|]. split; [by apply extent_tail_verifies|].
  split; [by apply xattr_block_verifies|]. intros co b'. apply dx_tail_verifies.
Qed.

(** Patching an inode's checksum always succeeds on an inode of at least 128
    bytes, makes [verify_inode] succeed, and changes only the checksum slots:
    the low half, and the high half only when [i_extra_isize] covers it. *)
Lemma patched_inode_verifies s ino gen raw :
  enabled s = true → bytes_ok raw → GOOD_OLD_INODE_SIZE ≤ zlen raw →
  ∃ raw' fits, patch_inode_checksum s ino gen raw = Ok raw' ∧ verify_inode s ino gen raw' = Ok true ∧
    zlen raw' = zlen raw ∧ checksum_hi_fits raw = Ok fits ∧
    ∀ o n, 0 ≤ o → o + n ≤ 0x7C ∨ (0x7E ≤ o ∧ o + n ≤ 0x82) ∨ (0x7E ≤ o ∧ fits = false) ∨ 0x84 ≤ o →
      sub raw' o n = sub raw o n.
Proof.
  intros He Hb Hl.
  destruct (compute_inode_checksum_ok s ino gen raw He Hl) as (fits & Ef & Hf & E).
  unfold GOOD_OLD_INODE_SIZE in Hl.
  cbv zeta in E.
  set (tmp := if fits then splice (splice raw 0x7C [0; 0]) 0x82 [0; 0] else splice raw 0x7C [0; 0]) in E.
  set (c := linux_crc32c (ino_gen s ino gen) tmp) in E.
  pose proof (linux_crc32c_range (ino_gen s ino gen) tmp) as Hc. fold c in Hc.
  pose proof (land_0xFFFF c) as Hlo. pose proof (land_0xFFFF (Z.shiftr c 16)) as Hhi.
  pose proof (Z.mod_pos_bound c (2 ^ 16) ltac:(lia)).
  pose proof (Z.mod_pos_bound (Z.shiftr c 16) (2 ^ 16) ltac:(lia)).
  set (lo := Z.land c 0xFFFF) in *.
  set (hi := if fits then Z.land (Z.shiftr c 16) 0xFFFF else 0) in *.
  set (raw1 := splice raw 0x7C (le_split 2 lo)).
  set (raw2 := if fits then splice raw1 0x82 (le_split 2 hi) else raw1).
  assert (Hf1 : checksum_hi_fits raw1 = Ok fits)
    by (unfold raw1; rewrite checksum_hi_fits_splice by zl; done).
  assert (Hl2 : zlen raw2 = zlen raw) by (unfold raw2, raw1; destruct fits; [specialize (Hf eq_refl)|]; zl).
  assert (Hp : patch_inode_checksum s ino gen raw = Ok raw2).
  { unfold patch_inode_checksum. rewrite E. simpl. rewrite put_u16_ok by lia. simpl. fold raw1.
    rewrite Hf1. simpl. unfold raw2. destruct fits; [|done].
    specialize (Hf eq_refl). by rewrite put_u16_ok by (unfold raw1; zl). }
  exists raw2, fits. split; [done|].
  assert (Hf2 : checksum_hi_fits raw2 = Ok fits).
  { unfold raw2. destruct fits; [|done]. specialize (Hf eq_refl).
    rewrite checksum_hi_fits_splice by (unfold raw1; zl). done. }
  assert (Htmp : (if fits then splice (splice raw2 0x7C [0; 0]) 0x82 [0; 0]
                  else splice raw2 0x7C [0; 0]) = tmp).
  { unfold tmp, raw2, raw1. destruct fits.
    - specialize (Hf eq_refl). rewrite (splice_comm _ 0x82 _ 0x7C) by zl.
      rewrite splice_overwrite by zl. rewrite splice_overwrite by zl. done.
    - by rewrite splice_overwrite by zl. }
  split; [|split; [done|split; [done|]]].
  - unfold verify_inode, GOOD_OLD_INODE_SIZE. rewrite He. cbn [negb]. rewrite decide_False by lia.
    rewrite (u16_le_ok raw2 0x7C), bind_Ok, Hf2, bind_Ok by lia.
    destruct (compute_inode_checksum_ok s ino gen raw2 He) as (f2 & Ef2 & _ & E2).
    { unfold GOOD_OLD_INODE_SIZE. lia. }
    rewrite Hf2 in Ef2. injection Ef2 as <-. rewrite E2. cbv zeta. rewrite Htmp. fold c lo hi.
    assert (Hlo2 : le16 raw2 0x7C = lo).
    { unfold raw2, raw1. destruct fits; [specialize (Hf eq_refl); rewrite le16_splice_ne by zl|];
        rewrite le16_splice by lia; done. }
    rewrite Hlo2. destruct fits.
    + specialize (Hf eq_refl). rewrite u16_le_ok, !bind_Ok by lia.
      unfold raw2. rewrite le16_splice by (unfold raw1; first [zl|lia]). by rewrite bool_decide_true.
    + rewrite !bind_Ok. by rewrite bool_decide_true.
  - intros o n Ho Hr. unfold raw2, raw1. destruct fits.
    + specialize (Hf eq_refl). rewrite !sub_splice_disjoint; try done; try zl.
    + rewrite sub_splice_disjoint; try done; zl.
Qed.

Lemma linux_crc32c_app sd a b : 0 ≤ sd < 2 ^ 32 → bytes_ok a → bytes_ok b →
  linux_crc32c (linux_crc32c sd a) b = linux_crc32c sd (a ++ b).
Proof.
  intros. unfold linux_crc32c, lnot32.
  replace (2 ^ 32 - 1 - (2 ^ 32 - 1 - crc32c_append (2 ^ 32 - 1 - sd) a))
    with (crc32c_append (2 ^ 32 - 1 - sd) a) by lia.
  by rewrite crc32c_append_app by (done || lia).
Qed.

(** The two group-descriptor checksum routines agree: under METADATA_CSUM,
    a descriptor passes [verify_bgd] exactly when its stored checksum is the
    one [group_desc_csum] asks for, which does not depend on the stored field
    itself; without METADATA_CSUM and GDT_CSUM no checksum is asked for. *)
Lemma group_desc_csum_verify_bgd sb s group desc :
  bytes_ok desc → 0 ≤ seed s < 2 ^ 32 →
  0x20 ≤ Superblock.desc_size sb ≤ zlen desc → enabled s = true →
  (has_bits (Superblock.feature_ro_compat sb) RoCompat.METADATA_CSUM = true →
   ∃ want, group_desc_csum sb s group desc = Ok (Some want) ∧ 0 ≤ want < 2 ^ 16 ∧
     verify_bgd s group desc (Superblock.desc_size sb) = Ok (bool_decide (want = le16 desc 0x1E)) ∧
     ∀ v, group_desc_csum sb s group (splice desc 0x1E (le_split 2 v)) = Ok (Some want)) ∧
  (has_bits (Superblock.feature_ro_compat sb) RoCompat.METADATA_CSUM = false →
   has_bits (Superblock.feature_ro_compat sb) RoCompat.GDT_CSUM = false →
   group_desc_csum sb s group desc = Ok None).
Proof.
  intros Hb Hs Hn He. set (n := Superblock.desc_size sb) in *. split.
  2:{ intros Hm Hg. unfold group_desc_csum. fold n. rewrite decide_False by lia.
      rewrite !slice_ok by lia. rewrite !bind_Ok, Hm, Hg. done. }
  intros Hm. eexists.
  split; [unfold group_desc_csum; fold n; rewrite decide_False by lia; rewrite !slice_ok by lia;
    rewrite !bind_Ok, Hm; reflexivity|].
  split; [unfold as_u16; apply Z.mod_pos_bound; lia|]. split.
  - unfold verify_bgd. rewrite He. cbn [negb]. rewrite decide_False by lia.
    rewrite u16_le_ok, slice_ok, !bind_Ok by lia. rewrite put_ok, bind_Ok by zl.
    unfold crc_with_prefix. do 3 f_equal.
    assert (bytes_ok [0; 0]) by (repeat constructor; lia).
    assert (Hr : ∀ c d, 0 ≤ linux_crc32c c d < 2 ^ 32) by (intros; apply linux_crc32c_range).
    rewrite (linux_crc32c_app _ (sub desc 0 0x1E)) by (try apply Hr; auto with ext4).
    rewrite (linux_crc32c_app _ (sub desc 0 0x1E ++ [0; 0]))
      by (try apply Hr; try (apply bytes_ok_app; split); auto using bytes_ok_sub).
    assert (Esplice : splice (sub desc 0 n) 0x1E [0; 0]
      = (sub desc 0 0x1E ++ [0; 0]) ++ sub desc 0x20 (n - 0x20)).
    { unfold splice. rewrite <-app_assoc. f_equal; [|f_equal].
      - unfold sub. rewrite !drop_0, take_take. f_equal. lia.
      - unfold sub. rewrite drop_0. simpl length. rewrite skipn_firstn_comm. f_equal. lia. }
    by rewrite Esplice.
  - intros v. unfold group_desc_csum. fold n. rewrite zlen_splice by zl.
    rewrite decide_False by lia. rewrite !slice_ok by zl. rewrite !bind_Ok, Hm.
    by rewrite !sub_splice_disjoint by zl.
Qed.

End crc.

Lemma patched_block_verifies_witness :
  let s := @mkChecksummer 7 true in
  ∃ b', @patch_dir_entry_tail castagnoli s 12 3 (zrep 24 5) = Ok (true, b') ∧
        @verify_dir_entry_tail castagnoli s 12 3 b' = Ok true.
Proof.
  intros s. destruct (@patched_block_verifies castagnoli s 12 3 9 (zrep 24 5)) as ((b' & E & V & _) & _).
  - reflexivity.
  - vm_compute. discriminate.
  - exists b'. split; [exact E|exact V].
Defined.

Lemma patched_inode_verifies_witness :
  let s := @mkChecksummer 7 true in
  ∃ raw', @patch_inode_checksum castagnoli s 12 3 (zrep 256 1) = Ok raw' ∧
          @verify_inode castagnoli s 12 3 raw' = Ok true.
Proof.
  intros s. destruct (@patched_inode_verifies castagnoli s 12 3 (zrep 256 1)) as (r & f & E & V & _).
  - reflexivity.
  - apply bytes_ok_zrep. lia.
  - vm_compute. discriminate.
  - exists r. split; [exact E|exact V].
Defined.

(** [Superblock.sample_raw] with METADATA_CSUM set. *)
Definition csum_raw : bytes :=
  splice Superblock.sample_raw 0x64 (le_split 4 RoCompat.METADATA_CSUM).

Lemma group_desc_csum_verify_bgd_witness :
  ∃ sb want, Superblock.parse csum_raw = Ok sb ∧
    @group_desc_csum castagnoli sb (mkChecksummer 7 true) 3 (zrep 32 9) = Ok (Some want).
Proof.
  destruct (Superblock.parse csum_raw) as [sb| | |] eqn:E; [|vm_compute in E; discriminate..].
  vm_compute in E. injection E as <-.
  match goal with |- ∃ _ _, Ok ?sb = _ ∧ _ =>
    destruct (@group_desc_csum_verify_bgd castagnoli sb (mkChecksummer 7 true) 3 (zrep 32 9)) as (Hm & _)
  end.
  - apply bytes_ok_zrep. lia.
  - simpl. lia.
  - vm_compute. split; discriminate.
  - reflexivity.
  - destruct Hm as (want & E & _); [vm_compute; reflexivity|]. eexists _, want.
    split; [reflexivity|exact E].
Defined.
