(* ===== verification/Bgd.v ===== *)
(** Bgd: block group descriptors: decoding one, reading and checking the whole
    table, and locating an inode (src/src/bgd.rs). *)
From S2P Require Import Prelude Errors Bytes Device Features Superblock Checksum.

Module Bgd.

Record t := mk {
  block_bitmap : Z;
  inode_bitmap : Z;
  inode_table : Z;
  free_blocks_count : Z;
  free_inodes_count : Z;
  used_dirs_count : Z;
  flags : Z;
  itable_unused : Z;
  block_bitmap_csum : Z;
  inode_bitmap_csum : Z;
  checksum : Z;
}.

Definition OFF_FREE_BLOCKS_LO : Z := 0x0C.
Definition OFF_FREE_INODES_LO : Z := 0x0E.
Definition OFF_USED_DIRS_LO : Z := 0x10.
Definition OFF_FREE_BLOCKS_HI : Z := 0x2C.
Definition OFF_FREE_INODES_HI : Z := 0x2E.
Definition OFF_USED_DIRS_HI : Z := 0x30.

Definition INODE_UNINIT : Z := 0x0001.
Definition BLOCK_UNINIT : Z := 0x0002.
Definition ITABLE_ZEROED : Z := 0x0004.

Definition parse (buf : bytes) (desc_size : Z) : res t :=
  if decide (zlen buf < desc_size) then Err (Corrupt "bgd buffer too small") else
  block_bitmap_lo ← u32_le buf 0x00;
  inode_bitmap_lo ← u32_le buf 0x04;
  inode_table_lo ← u32_le buf 0x08;
  free_blocks_lo ← u16_le buf OFF_FREE_BLOCKS_LO;
  free_inodes_lo ← u16_le buf OFF_FREE_INODES_LO;
  used_dirs_lo ← u16_le buf OFF_USED_DIRS_LO;
  flags ← u16_le buf 0x12;
  block_bitmap_csum_lo ← u16_le buf 0x18;
  inode_bitmap_csum_lo ← u16_le buf 0x1A;
  itable_unused_lo ← u16_le buf 0x1C;
  checksum ← u16_le buf 0x1E;
  let wide {A} (m : res A) (z : A) : res A := if decide (64 ≤ desc_size) then m else Ok z in
  block_bitmap_hi ← wide (u32_le buf 0x20) 0;
  inode_bitmap_hi ← wide (u32_le buf 0x24) 0;
  inode_table_hi ← wide (u32_le buf 0x28) 0;
  free_blocks_hi ← wide (u16_le buf OFF_FREE_BLOCKS_HI) 0;
  free_inodes_hi ← wide (u16_le buf OFF_FREE_INODES_HI) 0;
  used_dirs_hi ← wide (u16_le buf OFF_USED_DIRS_HI) 0;
  itable_unused_hi ← wide (u16_le buf 0x32) 0;
  block_bitmap_csum_hi ← wide (u16_le buf 0x38) 0;
  inode_bitmap_csum_hi ← wide (u16_le buf 0x3A) 0;
  Ok {| block_bitmap := join32 block_bitmap_hi block_bitmap_lo;
        inode_bitmap := join32 inode_bitmap_hi inode_bitmap_lo;
        inode_table := join32 inode_table_hi inode_table_lo;
        free_blocks_count := join16 free_blocks_hi free_blocks_lo;
        free_inodes_count := join16 free_inodes_hi free_inodes_lo;
        used_dirs_count := join16 used_dirs_hi used_dirs_lo;
        flags := flags;
        itable_unused := join16 itable_unused_hi itable_unused_lo;
        block_bitmap_csum := join16 block_bitmap_csum_hi block_bitmap_csum_lo;
        inode_bitmap_csum := join16 inode_bitmap_csum_hi inode_bitmap_csum_lo;
        checksum := checksum |}.

(** Blocks the inode table of a group spans. *)
Definition table_blocks (sb : Superblock.t) : Z :=
  div_ceil (Superblock.inodes_per_group sb * Superblock.inode_size sb) (Superblock.block_size sb).

Definition check_pointers_within (sb : Superblock.t) (group : Z) (bgd : t) (table_blocks : Z) : res unit :=
  let superblock_block := Superblock.SUPERBLOCK_OFFSET / Superblock.block_size sb in
  head ← Superblock.group_head_metadata_blocks sb 0;
  let group0_metadata_end := superblock_block + head in
  let table_last := inode_table bgd + Z.max table_blocks 1 - 1 in
  if decide (block_bitmap bgd < group0_metadata_end ∨ inode_bitmap bgd < group0_metadata_end ∨
             inode_table bgd < group0_metadata_end)
  then Err (Corrupt "a block group descriptor points into group 0's superblock or descriptor table")
  else
  if has_bits (Superblock.feature_incompat sb) Incompat.FLEX_BG then Ok () else
  let first := Superblock.first_block_of_group sb group in
  let last := Z.min (Z.min (first + Superblock.blocks_per_group sb) u64_max)
                    (Superblock.blocks_count sb) - 1 in
  let within b := first ≤ b ≤ last in
  if decide (¬ (within (block_bitmap bgd) ∧ within (inode_bitmap bgd) ∧ within (inode_table bgd)) ∨
             last < table_last)
  then Err (Corrupt "a block group descriptor points outside its own group, without flex_bg")
  else Ok ().

(** [usize] is 64 bits. *)
Definition table_len (group_count : Z) : res Z :=
  if decide (group_count ≤ u64_max) then Ok group_count
  else Err (Corrupt "superblock: the group count does not fit in this target's address space").

Section read.
Context `{Crc32c} (dev : reader).

(** The descriptor-table block [block], unless it is the one already held. *)
Definition load_table_block (block_size : Z) (held : option (Z * bytes)) (block : Z) : res bytes :=
  if decide ((fst <$> held) = Some block) then unwrap (snd <$> held) else
  e ← ok_or (b ← checked_add64 block 1; checked_mul64 b block_size)
        (Corrupt "superblock: the group descriptor table's extent overflows");
  if decide (rd_size dev < e)
  then Err (Corrupt "superblock: the group descriptor table reaches past the end of the device")
  else rd_read dev (block * block_size) block_size.

Definition check_descriptor (sb : Superblock.t) (csum : Checksummer) (i : Z) (raw : bytes) : res t :=
  stored ← u16_le raw 0x1E;
  want ← group_desc_csum sb csum (as_u32 i) raw;
  if match want with Some w => bool_decide (w ≠ stored) | None => false end
  then Err (BadChecksum "block group descriptor") else
  bgd ← parse raw (Superblock.desc_size sb);
  let tb := table_blocks sb in
  let past_the_end :=
    Superblock.blocks_count sb ≤ block_bitmap bgd ∨
    Superblock.blocks_count sb ≤ inode_bitmap bgd ∨
    ¬ (inode_table bgd + tb < 2 ^ 64 ∧ inode_table bgd + tb ≤ Superblock.blocks_count sb) in
  if decide past_the_end
  then Err (Corrupt "a block group descriptor points outside the filesystem") else
  _ ← check_pointers_within sb i bgd tb;
  Ok bgd.

Definition read_one (sb : Superblock.t) (csum : Checksummer)
    (st : option (Z * bytes) * list t) (i : Z) : res (option (Z * bytes) * list t) :=
  let block_size := Superblock.block_size sb in
  '(block, off) ← Superblock.descriptor_location sb i;
  bytes ← load_table_block block_size (fst st) block;
  raw ← slice bytes off (Superblock.desc_size sb);
  bgd ← check_descriptor sb csum i raw;
  Ok (Some (block, bytes), snd st ++ [bgd]).

Definition read_all (sb : Superblock.t) (csum : Checksummer) : res (list t) :=
  let group_count := Superblock.block_group_count sb in
  total_bytes ← ok_or (checked_mul64 group_count (Superblock.desc_size sb))
    (Corrupt "superblock: the group descriptor table's size overflows");
  if decide (rd_size dev < total_bytes)
  then Err (Corrupt "superblock: the group descriptor table reaches past the end of the device")
  else
  group_count ← table_len group_count;
  '(_, groups) ← foldM (read_one sb csum) (None, []) (seqZ 0 group_count);
  Ok groups.
End read.

Definition locate_inode (sb : Superblock.t) (groups : list t) (ino : Z) : res (Z * Z) :=
  if decide (ino = 0 ∨ Superblock.inodes_count sb < ino) then Err (InvalidInode ino) else
  if decide (Superblock.inodes_per_group sb = 0 ∨ Superblock.inode_size sb = 0)
  then Err (Corrupt "superblock: zero inodes_per_group or inode_size") else
  let group_idx := (ino - 1) / Superblock.inodes_per_group sb in
  let local_idx := (ino - 1) mod Superblock.inodes_per_group sb in
  bgd ← ok_or (groups !! Z.to_nat group_idx) (InvalidInode ino);
  let block_size := Superblock.block_size sb in
  let inode_size := Superblock.inode_size sb in
  if decide (block_size < inode_size) then Err (Corrupt "superblock: inode_size larger than block_size")
  else
  let inodes_per_block := block_size / inode_size in
  if decide (inodes_per_block = 0) then Err (Corrupt "superblock: inode_size exceeds block_size") else
  block ← ok_or (checked_add64 (inode_table bgd) (local_idx / inodes_per_block))
    (Corrupt "inode table block number overflow");
  let off_bytes := local_idx mod inodes_per_block * inode_size in
  offset ← (if decide (off_bytes < 2 ^ 32) then Ok off_bytes
            else Err (Corrupt "inode offset exceeds u32"));
  Ok (block, offset).

(** ** Lemmas *)

(** The pointers of an accepted descriptor. *)
Definition pointers_ok (sb : Superblock.t) (bgd : t) : Prop :=
  let head := Superblock.SUPERBLOCK_OFFSET / Superblock.block_size sb in
  head < block_bitmap bgd < Superblock.blocks_count sb ∧
  head < inode_bitmap bgd < Superblock.blocks_count sb ∧
  head < inode_table bgd ∧ inode_table bgd + table_blocks sb ≤ Superblock.blocks_count sb.

Lemma group_head_0 sb : Superblock.geometry_ok sb →
  ∃ h, Superblock.group_head_metadata_blocks sb 0 = Ok h ∧ 1 ≤ h.
Proof.
  intros Hgeo. unfold Superblock.group_head_metadata_blocks.
  change (Superblock.group_has_super sb 0) with (Ok (A := bool) true). rewrite bind_Ok.
  destruct (Superblock.meta_group_holding sb 0) eqn:E.
  - eexists; split; [done|]. simpl. unfold Superblock.of_bool. case_bool_decide; lia.
  - rewrite decide_True by done. eexists; split; [done|].
    assert (0 ≤ Superblock.shared_descriptor_run sb).
    { unfold Superblock.shared_descriptor_run, Superblock.first_meta_bg.
      pose proof (Superblock.descs_per_block_pos sb Hgeo).
      destruct (has_bits _ _); simpl.
      - case_decide; [|lia]. apply le32_range. apply (Superblock.geo_raw sb Hgeo).
      - apply div_ceil_nonneg; [apply Superblock.group_count_nonneg|lia]. }
    pose proof (Superblock.geo_reserved sb Hgeo). lia.
Qed.

Lemma bind_Err {A B} e (f : A → res B) : (Err e ≫= f) = Err e.
Proof. done. Qed.

Lemma check_pointers_within_inv sb group bgd tb u :
  Superblock.geometry_ok sb → check_pointers_within sb group bgd tb = Ok u →
  let head := Superblock.SUPERBLOCK_OFFSET / Superblock.block_size sb in
  head < block_bitmap bgd ∧ head < inode_bitmap bgd ∧ head < inode_table bgd.
Proof.
  intros Hgeo H. destruct (group_head_0 sb Hgeo) as (h & E & Hh).
  unfold check_pointers_within in H. rewrite E, bind_Ok in H. case_decide; [done|]. simpl. lia.
Qed.

Lemma check_pointers_within_returns sb group bgd tb :
  Superblock.geometry_ok sb → returns (check_pointers_within sb group bgd tb).
Proof.
  intros Hgeo. destruct (group_head_0 sb Hgeo) as (h & E & Hh).
  unfold check_pointers_within. rewrite E, bind_Ok. case_decide; [done|].
  destruct (has_bits _ _); [done|]. by case_decide.
Qed.

Lemma bgd_parse_returns buf n : 32 ≤ n → returns (parse buf n).
Proof.
  intros Hn. unfold parse. case_decide; [done|].
  unfold OFF_FREE_BLOCKS_LO, OFF_FREE_INODES_LO, OFF_USED_DIRS_LO,
    OFF_FREE_BLOCKS_HI, OFF_FREE_INODES_HI, OFF_USED_DIRS_HI. io.
  cbv zeta. destruct (decide (64 ≤ n)); io; done.
Qed.

Section read_proofs.
Context `{Crc32c} (dev : reader) {Hdev : ReaderOk dev}.

Lemma group_desc_csum_returns sb csum g raw :
  0x20 ≤ Superblock.desc_size sb → returns (group_desc_csum sb csum g raw).
Proof.
  intros Hn. unfold group_desc_csum. case_decide; [done|]. io.
  destruct (has_bits _ _); [done|]. by destruct (has_bits _ _).
Qed.

Lemma check_descriptor_spec sb csum i raw :
  Superblock.geometry_ok sb → zlen raw = Superblock.desc_size sb →
  returns (check_descriptor sb csum i raw) ∧
  ∀ bgd, check_descriptor sb csum i raw = Ok bgd → pointers_ok sb bgd.
Proof.
  intros Hgeo Hl. destruct (Superblock.descs_per_block_pos sb Hgeo) as (_ & _ & Hmin).
  unfold check_descriptor. split.
  - rewrite u16_le_ok, bind_Ok by lia.
    apply bind_returns; [by apply group_desc_csum_returns|]. intros want _.
    destruct (match want with Some _ => _ | None => _ end); [done|].
    apply bind_returns; [apply bgd_parse_returns; lia|]. intros bgd _. case_decide; [done|].
    apply bind_returns; [by apply check_pointers_within_returns|done].
  - intros bgd Hok. res_inv.
    destruct (match a0 with Some _ => _ | None => _ end); [done|]. res_inv.
    apply check_pointers_within_inv in Ha2; [|done]. unfold pointers_ok. simpl in Ha2. lia.
Qed.

Lemma load_table_block_spec bs held block :
  0 < bs → (∀ b data, held = Some (b, data) → zlen data = bs) →
  returns (load_table_block dev bs held block) ∧
  ∀ data, load_table_block dev bs held block = Ok data → zlen data = bs.
Proof.
  intros Hbs Hheld. unfold load_table_block. case_decide as Hh.
  - destruct held as [[b data]|]; [|done]. simpl. split; [done|].
    intros d [= <-]. by eapply Hheld.
  - destruct (ok_or _ _) eqn:E; simpl; try done.
    + case_decide; [done|]. split; [apply rd_returns|]. intros d Hd.
      by apply (rd_len _ _ _ Hd); lia.
    + by destruct (_ ≫= _) in E.
    + by destruct (_ ≫= _) in E.
Qed.

Definition read_inv (sb : Superblock.t) (i : Z) (st : option (Z * bytes) * list t) : Prop :=
  (∀ b data, fst st = Some (b, data) → zlen data = Superblock.block_size sb) ∧
  zlen (snd st) = i ∧ Forall (pointers_ok sb) (snd st).

Lemma read_one_spec sb csum st i :
  Superblock.geometry_ok sb → 0 ≤ i → read_inv sb i st →
  returns (read_one dev sb csum st i) ∧
  ∀ st', read_one dev sb csum st i = Ok st' → read_inv sb (i + 1) st'.
Proof.
  intros Hgeo Hi (Hheld & Hlen & Hall). unfold read_one.
  destruct (Superblock.descriptor_slot sb i Hgeo Hi) as (block & off & E & Ho & Hfit).
  rewrite E, bind_Ok.
  pose proof (Superblock.block_size_range sb (Superblock.geo_log sb Hgeo)).
  destruct (load_table_block_spec (Superblock.block_size sb) (fst st) block) as [Hr Hok]; [lia|done|].
  destruct (load_table_block _ _ _ _) as [data|e| |]; simpl in *; try done.
  specialize (Hok data eq_refl).
  destruct (Superblock.descs_per_block_pos sb Hgeo) as (_ & _ & Hmin).
  rewrite slice_ok, bind_Ok by lia.
  destruct (check_descriptor_spec sb csum i (sub data off (Superblock.desc_size sb))) as [Hr' Hp];
    [done|zl|].
  destruct (check_descriptor _ _ _ _) as [bgd|e| |]; simpl in *; try done.
  split; [done|]. intros st' [= <-]. unfold read_inv; simpl. split_and!.
  - intros b d [= <- <-]. done.
  - zl.
  - apply Forall_app. split; [done|]. constructor; [by apply Hp|done].
Qed.

Lemma read_all_groups sb csum :
  Superblock.geometry_ok sb →
  returns (read_all dev sb csum) ∧
  ∀ groups, read_all dev sb csum = Ok groups →
    zlen groups = Superblock.block_group_count sb ∧ Forall (pointers_ok sb) groups.
Proof.
  intros Hgeo. unfold read_all. set (n := Superblock.block_group_count sb).
  pose proof (Superblock.group_count_nonneg sb) as Hn. fold n in Hn.
  destruct (ok_or _ _) as [total|e| |] eqn:E; simpl; try done;
    try (by destruct (checked_mul64 _ _) in E).
  case_decide; [done|]. unfold table_len. case_decide; simpl; [|done].
  destruct (foldM_seqZ_returns (read_inv sb) (read_one dev sb csum) 0 n (None, [])) as [Hr Hp].
  - done.
  - by split_and!.
  - intros k b Hk Hb. by apply read_one_spec; [|lia|].
  - destruct (foldM _ _ _) as [[held groups]|e| |]; simpl in *; try done.
    split; [done|]. intros g [= <-]. destruct (Hp _ eq_refl) as (_ & Hl & Hf). done.
Qed.
(** Reading the group descriptors of a volume with an accepted superblock
    never panics, and when it succeeds there is one descriptor per group and
    each points inside the filesystem: both bitmaps and the whole inode table
    (as [inodes_per_group * inode_size] bytes) end before [blocks_count] and
    start after the block of the primary superblock. *)
Lemma read_all_sound sb csum :
  Superblock.geometry_ok sb →
  returns (read_all dev sb csum) ∧
  ∀ groups, read_all dev sb csum = Ok groups →
    zlen groups = Superblock.block_group_count sb ∧ Forall (pointers_ok sb) groups.
Proof. apply read_all_groups. Qed.
End read_proofs.


Lemma div_ceil_mul x y : 0 < y → x ≤ div_ceil x y * y.
Proof.
  intros. unfold div_ceil. pose proof (Z.mul_succ_div_gt (x + y - 1) y ltac:(lia)). lia.
Qed.

(** The slot of the inode [ino], when the inode size divides the block size. *)
Lemma locate_inode_eq sb groups ino g :
  Superblock.geometry_ok sb → (Superblock.inode_size sb | Superblock.block_size sb) →
  1 ≤ ino ≤ Superblock.inodes_count sb →
  groups !! Z.to_nat ((ino - 1) / Superblock.inodes_per_group sb) = Some g → pointers_ok sb g →
  let ipb := Superblock.block_size sb / Superblock.inode_size sb in
  let local := (ino - 1) mod Superblock.inodes_per_group sb in
  0 < ipb ∧ local / ipb < table_blocks sb ∧
  (local mod ipb + 1) * Superblock.inode_size sb ≤ Superblock.block_size sb ∧
  locate_inode sb groups ino =
    Ok (inode_table g + local / ipb, local mod ipb * Superblock.inode_size sb).
Proof.
  intros Hgeo [k Hk] Hino Hg (Hp1 & Hp2 & Hp3 & Hp4) ipb local.
  pose proof (Superblock.block_size_range sb (Superblock.geo_log sb Hgeo)) as Hbs.
  pose proof (Superblock.geo_inode_size sb Hgeo) as Hisz.
  pose proof (Superblock.geo_ipg sb Hgeo) as Hipg.
  pose proof (Superblock.geo_blocks sb Hgeo) as Hblocks.
  assert (Hipb : ipb = k) by (unfold ipb; rewrite Hk; apply Z.div_mul; lia).
  assert (0 < k) by nia. clearbody ipb. subst ipb.
  assert (Hlocal : 0 ≤ local < Superblock.inodes_per_group sb) by (apply Z.mod_pos_bound; lia).
  pose proof (Z.mod_pos_bound local k ltac:(lia)) as Hmod.
  pose proof (Z.mul_div_le local k ltac:(lia)) as Hdiv.
  pose proof (Z.div_pos local k ltac:(lia) ltac:(lia)) as Hdiv0.
  assert (Hq : local / k < table_blocks sb).
  { pose proof (div_ceil_mul (Superblock.inodes_per_group sb * Superblock.inode_size sb)
      (Superblock.block_size sb) ltac:(lia)) as Ht. fold (table_blocks sb) in Ht. nia. }
  assert (Hfit : (local mod k + 1) * Superblock.inode_size sb ≤ Superblock.block_size sb) by nia.
  split; [done|]. split; [done|]. split; [done|].
  assert (Eq : Superblock.block_size sb / Superblock.inode_size sb = k)
    by (rewrite Hk; apply Z.div_mul; lia).
  unfold locate_inode. rewrite decide_False by lia. rewrite decide_False by lia.
  rewrite Hg. cbn [ok_or]. rewrite bind_Ok. fold local. rewrite Eq.
  rewrite decide_False by nia. rewrite decide_False by lia.
  assert (E : checked_add64 (inode_table g) (local / k) = Some (inode_table g + local / k))
    by (unfold checked_add64; by rewrite decide_True by lia).
  rewrite E. cbn [ok_or]. rewrite bind_Ok. by rewrite decide_True by nia.
Qed.

Section locate.
Context `{Crc32c} (dev : reader) {Hdev : ReaderOk dev}.

(** The inode numbers that exist: those the superblock counts, in the groups
    there are.  No check of the source makes the two bounds agree. *)
Definition inode_exists (sb : Superblock.t) (groups : list t) (ino : Z) : Prop :=
  1 ≤ ino ≤ Z.min (Superblock.inodes_count sb) (zlen groups * Superblock.inodes_per_group sb).

(** C39: on a volume whose group descriptors were accepted and whose inode size
    divides the block size, an inode number is located exactly when it is
    counted by the superblock and lies in one of the groups: in its group's
    inode table, in a block inside the filesystem and past the primary
    superblock, at an offset that leaves room for a whole inode, and two
    inodes of a group never overlap.  Any other number, 0 included, is refused
    as [InvalidInode]. *)
Theorem locate_inode_sound sb csum groups ino :
  Superblock.geometry_ok sb → read_all dev sb csum = Ok groups →
  (Superblock.inode_size sb | Superblock.block_size sb) → 0 ≤ ino →
  (¬ inode_exists sb groups ino → locate_inode sb groups ino = Err (InvalidInode ino)) ∧
  (inode_exists sb groups ino →
   ∃ g block off, groups !! Z.to_nat ((ino - 1) / Superblock.inodes_per_group sb) = Some g ∧
     locate_inode sb groups ino = Ok (block, off) ∧
     inode_table g ≤ block < inode_table g + table_blocks sb ∧
     Superblock.SUPERBLOCK_OFFSET / Superblock.block_size sb < block < Superblock.blocks_count sb ∧
     0 ≤ off ∧ off + Superblock.inode_size sb ≤ Superblock.block_size sb ∧
     ∀ ino', inode_exists sb groups ino' →
       (ino' - 1) / Superblock.inodes_per_group sb = (ino - 1) / Superblock.inodes_per_group sb →
       ∀ off', locate_inode sb groups ino' = Ok (block, off') →
         off' < off + Superblock.inode_size sb → off < off' + Superblock.inode_size sb → ino' = ino).
Proof.
  unfold inode_exists. intros Hgeo Hread Hdiv H0.
  destruct (read_all_groups dev sb csum Hgeo) as [_ Hg]. destruct (Hg groups Hread) as [_ Hall].
  split.
  { intros Hout. unfold locate_inode. case_decide as Hr; [done|]. apply Decidable.not_or in Hr as [Hr1 Hr2].
    pose proof (Superblock.geo_ipg sb Hgeo) as Hipg. pose proof (Superblock.geo_inode_size sb Hgeo) as Hisz.
    rewrite decide_False by lia. cbv zeta. rewrite lookup_ge_None_2; [done|].
    assert (zlen groups ≤ (ino - 1) / Superblock.inodes_per_group sb) by (apply Z.div_le_lower_bound; lia).
    unfold zlen in *. lia. }
  intros Hino. pose proof (Superblock.geo_ipg sb Hgeo) as Hipg.
  assert (Hlook : ∀ i, 1 ≤ i ≤ Z.min (Superblock.inodes_count sb) (zlen groups * Superblock.inodes_per_group sb) →
    ∃ g, groups !! Z.to_nat ((i - 1) / Superblock.inodes_per_group sb) = Some g ∧ pointers_ok sb g).
  { intros i Hi. assert (0 ≤ (i - 1) / Superblock.inodes_per_group sb) by (apply Z.div_pos; lia).
    assert ((i - 1) / Superblock.inodes_per_group sb < zlen groups)
      by (apply Z.div_lt_upper_bound; lia).
    destruct (lookup_lt_is_Some_2 groups (Z.to_nat ((i - 1) / Superblock.inodes_per_group sb))) as [g Eg].
    { unfold zlen in *. lia. }
    exists g. split; [done|]. by eapply Forall_lookup_1. }
  destruct (Hlook ino Hino) as (g & Eg & Hpg).
  destruct (locate_inode_eq sb groups ino g Hgeo Hdiv ltac:(lia) Eg Hpg) as (Hk & Hq & Hfit & E).
  destruct Hpg as (_ & _ & Hp3 & Hp4).
  set (k := Superblock.block_size sb / Superblock.inode_size sb) in *.
  pose proof (Superblock.geo_inode_size sb Hgeo) as Hisz.
  pose proof (Z.mod_pos_bound (ino - 1) (Superblock.inodes_per_group sb) ltac:(lia)) as Hloc.
  pose proof (Z.div_pos ((ino - 1) mod Superblock.inodes_per_group sb) k ltac:(lia) Hk).
  pose proof (Z.mod_pos_bound ((ino - 1) mod Superblock.inodes_per_group sb) k Hk).
  eexists g, _, _. split; [exact Eg|]. split; [exact E|]. split; [lia|]. split; [lia|]. split; [nia|]. split; [nia|].
  intros ino' Hino' Hsame off' E' Ho1 Ho2.
  destruct (Hlook ino' Hino') as (g' & Eg' & Hpg'). rewrite Hsame, Eg in Eg'. injection Eg' as <-.
  destruct (locate_inode_eq sb groups ino' g Hgeo Hdiv ltac:(lia)) as (_ & _ & _ & E2);
    [by rewrite Hsame|done|].
  fold k in E2. rewrite E2 in E'. injection E' as Eb Eo.
  set (l := (ino - 1) mod _) in *. set (l' := (ino' - 1) mod _) in *.
  assert (l' mod k = l mod k) as Em by nia. assert (l' / k = l / k) as Ed by lia.
  assert (l' = l) as El by (rewrite (Z.div_mod l' k), (Z.div_mod l k) by lia; congruence).
  unfold l, l' in El.
  pose proof (Z.div_mod (ino - 1) (Superblock.inodes_per_group sb) ltac:(lia)).
  pose proof (Z.div_mod (ino' - 1) (Superblock.inodes_per_group sb) ltac:(lia)).
  rewrite Hsame, El in *. lia.
Qed.
End locate.

(** ** Concrete volumes *)

(** A one-group volume of 1 KiB blocks with [isz]-byte inodes: superblock at
    1024, descriptor in block 2 naming bitmaps 3 and 4 and an inode table at
    10. *)
Definition sample_volume (isz blocks : Z) : bytes :=
  let set w off v b := splice b off (le_split w v) in
  set 4%nat (1024 + 0x1C) 0 (
  set 2%nat (1024 + 0x38) Superblock.EXT4_MAGIC (set 4%nat (1024 + 0x4C) 1
  (set 2%nat (1024 + 0x58) isz (set 4%nat (1024 + 0x28) 64 (set 4%nat (1024 + 0x20) 8192
  (set 4%nat (1024 + 0x14) 1 (set 4%nat (1024 + 0x04) blocks (set 4%nat (1024 + 0x00) 64
  (set 4%nat (1024 + 0x64) 1
  (set 4%nat 2048 3 (set 4%nat 2052 4 (set 4%nat 2056 10 (zrep (blocks * 1024) 0))))))))))))).

Definition sample_sb (isz blocks : Z) : res Superblock.t :=
  Superblock.parse (sub (sample_volume isz blocks) 1024 1024).

(** The bound [read_all] puts on an inode table does not bound what
    [locate_inode] returns when the inode size does not divide the block size,
    which the superblock checks accept: on this 50-block volume of 600-byte
    inodes, every check at mount passes, and the last inode is located in
    block 73, past the end of the filesystem. *)
Lemma locate_inode_escapes_odd_inode_size :
  ∃ sb groups,
    sample_sb 600 50 = Ok sb ∧
    @read_all castagnoli (image_reader (sample_volume 600 50)) sb (mkChecksummer 0 false) = Ok groups ∧
    Superblock.check_fits_device sb (zlen (sample_volume 600 50)) = Ok () ∧
    Superblock.blocks_count sb = 50 ∧ Superblock.inodes_count sb = 64 ∧
    locate_inode sb groups 64 = Ok (73, 0).
Proof.
  destruct (sample_sb 600 50) as [sb| | |] eqn:E; [|vm_compute in E; discriminate..].
  vm_compute in E. injection E as <-. eexists _, _. split; [reflexivity|].
  split; [vm_compute; reflexivity|]. vm_compute. repeat split.
Qed.

Lemma read_all_sound_witness :
  ∃ sb groups, sample_sb 128 50 = Ok sb ∧
    @read_all castagnoli (image_reader (sample_volume 128 50)) sb (mkChecksummer 0 false) = Ok groups ∧
    zlen groups = 1 ∧ Forall (pointers_ok sb) groups.
Proof.
  destruct (sample_sb 128 50) as [sb| | |] eqn:E; [|vm_compute in E; discriminate..].
  assert (Hgeo : Superblock.geometry_ok sb).
  { apply (Superblock.parse_geometry (sub (sample_volume 128 50) 1024 1024)); [by_compute|exact E]. }
  assert (Hok : ReaderOk (image_reader (sample_volume 128 50))) by (apply image_reader_ok; by_compute).
  destruct (@read_all_sound castagnoli (image_reader (sample_volume 128 50)) Hok sb
    (mkChecksummer 0 false) Hgeo) as [_ Hs].
  destruct (@read_all castagnoli (image_reader (sample_volume 128 50)) sb (mkChecksummer 0 false))
    as [groups| | |] eqn:Er.
  - exists sb, groups. split; [reflexivity|]. split; [exact Er|].
    destruct (Hs groups eq_refl) as [Hl Hf]. split; [|exact Hf]. rewrite Hl.
    clear - E. vm_compute in E. injection E as <-. vm_compute. reflexivity.
  - clear - E Er. vm_compute in E. injection E as <-. vm_compute in Er. discriminate.
  - clear - E Er. vm_compute in E. injection E as <-. vm_compute in Er. discriminate.
  - clear - E Er. vm_compute in E. injection E as <-. vm_compute in Er. discriminate.
Defined.

Lemma locate_inode_sound_witness :
  ∃ sb groups, sample_sb 128 50 = Ok sb ∧
    @read_all castagnoli (image_reader (sample_volume 128 50)) sb (mkChecksummer 0 false) = Ok groups ∧
    locate_inode sb groups 0 = Err (InvalidInode 0) ∧
    ∃ block off, locate_inode sb groups 12 = Ok (block, off) ∧ 1 < block < 50 ∧ 0 ≤ off ∧ off + 128 ≤ 1024.
Proof.
  destruct (sample_sb 128 50) as [sb| | |] eqn:E; [|vm_compute in E; discriminate..].
  assert (Hgeo : Superblock.geometry_ok sb).
  { apply (Superblock.parse_geometry (sub (sample_volume 128 50) 1024 1024)); [by_compute|exact E]. }
  assert (Hok : ReaderOk (image_reader (sample_volume 128 50))) by (apply image_reader_ok; by_compute).
  destruct (@read_all castagnoli (image_reader (sample_volume 128 50)) sb (mkChecksummer 0 false))
    as [g| | |] eqn:Er.
  - exists sb, g. split; [reflexivity|]. split; [exact Er|]. split.
    + apply (@locate_inode_sound castagnoli _ Hok sb (mkChecksummer 0 false) g 0 Hgeo Er).
      * clear - E. vm_compute in E. injection E as <-. exists 8. reflexivity.
      * lia.
      * unfold inode_exists. lia.
    + destruct (@locate_inode_sound castagnoli _ Hok sb (mkChecksummer 0 false) g 12 Hgeo Er) as [_ Hin].
      * clear - E. vm_compute in E. injection E as <-. exists 8. reflexivity.
      * lia.
      * assert (Hex : inode_exists sb g 12).
        { clear - E Er. vm_compute in E. injection E as <-. vm_compute in Er. injection Er as <-. split; vm_compute; discriminate. }
        destruct (Hin Hex) as (_ & block & off & _ & El & _ & Hb & Ho & Hroom & _). exists block, off.
        split; [exact El|]. revert Hb Hroom. clear - E Ho. vm_compute in E. injection E as <-.
        split; [exact Hb|]. split; [exact Ho|exact Hroom].
  - clear - E Er. vm_compute in E. injection E as <-. vm_compute in Er. discriminate.
  - clear - E Er. vm_compute in E. injection E as <-. vm_compute in Er. discriminate.
  - clear - E Er. vm_compute in E. injection E as <-. vm_compute in Er. discriminate.
Defined.

End Bgd.
