(* ===== verification/Extent.v ===== *)
(** Extent: extent-tree nodes and their traversal (src/src/extent.rs): decoding
    headers, leaf entries and index entries, looking one logical block up, and
    collecting a whole tree.  The specification is a tree predicate relating a
    root node on a device to the sorted list of extents it stands for. *)
From S2P Require Import Prelude Errors Bytes Device Features Superblock Checksum.

Definition EXT4_EXT_MAGIC : Z := 0xF30A.
Definition EXT_INIT_MAX_LEN : Z := 32768.
Definition EXT4_EXT_NODE_SIZE : Z := 12.
Definition EXT4_EXT_MAX_DEPTH : Z := 5.

Module ExtentHeader.
Record t := mk { magic : Z; entries : Z; max : Z; depth : Z; generation : Z }.

Definition parse (raw : bytes) : res t :=
  if decide (zlen raw < EXT4_EXT_NODE_SIZE) then Err (CorruptExtentTree "header buffer too small") else
  magic ← u16_le raw 0x00;
  entries ← u16_le raw 0x02;
  max ← u16_le raw 0x04;
  depth ← u16_le raw 0x06;
  generation ← u32_le raw 0x08;
  if decide (magic ≠ EXT4_EXT_MAGIC) then Err (CorruptExtentTree "bad extent header magic") else
  if decide (max < entries) then Err (CorruptExtentTree "entries > max") else
  Ok (mk magic entries max depth generation).

Definition is_leaf (h : t) : bool := bool_decide (depth h = 0).
End ExtentHeader.

Module Extent.
Record t := mk { logical_block : Z; length : Z; physical_block : Z; uninitialized : bool }.

#[global] Instance t_eq_dec : EqDecision t.
Proof. solve_decision. Defined.

Definition parse (raw : bytes) : res t :=
  if decide (zlen raw < EXT4_EXT_NODE_SIZE)
  then Err (CorruptExtentTree "leaf extent buffer too small") else
  logical_block ← u32_le raw 0x00;
  ee_len ← u16_le raw 0x04;
  start_hi ← u16_le raw 0x06;
  start_lo ← u32_le raw 0x08;
  let '(length, uninitialized) :=
    if decide (EXT_INIT_MAX_LEN < ee_len) then (ee_len - EXT_INIT_MAX_LEN, true) else (ee_len, false) in
  Ok (mk logical_block length (join32 start_hi start_lo) uninitialized).

Definition contains (e : t) (logical : Z) : bool :=
  let start := logical_block e in
  let stop := start + length e in
  bool_decide (start ≤ logical) && bool_decide (logical < stop).

Definition map (e : t) (logical : Z) : Z := physical_block e + (logical - logical_block e).
End Extent.

Module ExtentIdx.
Record t := mk { logical_block : Z; leaf_block : Z }.

Definition parse (raw : bytes) : res t :=
  if decide (zlen raw < EXT4_EXT_NODE_SIZE)
  then Err (CorruptExtentTree "index entry buffer too small") else
  logical_block ← u32_le raw 0x00;
  leaf_lo ← u32_le raw 0x04;
  leaf_hi ← u16_le raw 0x08;
  Ok (mk logical_block (join32 leaf_hi leaf_lo)).
End ExtentIdx.

(** Where entry [i] of a node starts. *)
Definition entry_off (i : Z) : Z := EXT4_EXT_NODE_SIZE * (1 + i).

Definition leaf_entry (node : bytes) (i : Z) : res Extent.t :=
  let off := entry_off i in
  if decide (zlen node < off + EXT4_EXT_NODE_SIZE)
  then Err (CorruptExtentTree "leaf entry out of range") else
  raw ← slice node off EXT4_EXT_NODE_SIZE;
  Extent.parse raw.

Definition index_entry (node : bytes) (i : Z) : res ExtentIdx.t :=
  let off := entry_off i in
  if decide (zlen node < off + EXT4_EXT_NODE_SIZE)
  then Err (CorruptExtentTree "index entry out of range") else
  raw ← slice node off EXT4_EXT_NODE_SIZE;
  ExtentIdx.parse raw.

(** The linear walk over a leaf, entries [ks]: stop at the first extent that
    contains [logical] or starts past it. *)
Fixpoint scan_leaf (node : bytes) (logical : Z) (ks : list Z) : res (option Extent.t) :=
  match ks with
  | [] => Ok None
  | i :: ks =>
      ext ← leaf_entry node i;
      if Extent.contains ext logical then Ok (Some ext)
      else if decide (logical < Extent.logical_block ext) then Ok None
      else scan_leaf node logical ks
  end.

(** The walk over an index node: the last entry whose key is at most
    [logical], and the first entry of all. *)
Fixpoint scan_index (node : bytes) (logical : Z) (ks : list Z)
    (chosen first : option ExtentIdx.t) : res (option ExtentIdx.t * option ExtentIdx.t) :=
  match ks with
  | [] => Ok (chosen, first)
  | i :: ks =>
      idx ← index_entry node i;
      let first := match first with None => Some idx | _ => first end in
      if decide (ExtentIdx.logical_block idx ≤ logical)
      then scan_index node logical ks (Some idx) first
      else Ok (chosen, first)
  end.

(** [a.or(b)] *)
Definition or_else {A} (a b : option A) : option A := match a with Some _ => a | None => b end.

Record ExtentVerifyCtx := mkCtx { ino : Z; generation : Z; csum : Checksummer }.
Definition active (c : ExtentVerifyCtx) : bool := enabled (csum c).

Section walk.
Context `{Crc32c} (dev : reader) (block_size : Z).

Definition read_node (block : Z) (what : string) : res bytes :=
  off ← ok_or (checked_mul64 block block_size) (CorruptExtentTree what);
  rd_read dev off block_size.

Definition verify_node (ctx : option ExtentVerifyCtx) (buf : bytes) : res unit :=
  match ctx with
  | Some c =>
      if active c then
        ok ← verify_extent_tail (csum c) (ino c) (generation c) buf;
        if (ok : bool) then Ok () else Err (BadChecksum "extent block")
      else Ok ()
  | None => Ok ()
  end.

(** The descent: [descents] counts the child reads the root's depth allows. *)
Fixpoint lookup_loop (ctx : option ExtentVerifyCtx) (logical : Z) (descents : nat)
    (cursor : bytes) (header : ExtentHeader.t) : res (option Extent.t) :=
  if ExtentHeader.is_leaf header then
    scan_leaf cursor logical (seqZ 0 (ExtentHeader.entries header))
  else
    '(chosen, first) ← scan_index cursor logical (seqZ 0 (ExtentHeader.entries header)) None None;
    idx ← ok_or (or_else chosen first) (CorruptExtentTree "index node holds no entries");
    buf ← read_node (ExtentIdx.leaf_block idx) "extent index: child block offset overflow";
    _ ← verify_node ctx buf;
    header ← ExtentHeader.parse buf;
    match descents with
    | O => Err (CorruptExtentTree "extent tree descended past claimed depth")
    | S descents => lookup_loop ctx logical descents buf header
    end.

Definition check_depth (header : ExtentHeader.t) : res unit :=
  if decide (EXT4_EXT_MAX_DEPTH < ExtentHeader.depth header)
  then Err (CorruptExtentTree "extent tree depth exceeds spec maximum") else Ok ().

Definition lookup_verified (root : bytes) (logical : Z) (ctx : option ExtentVerifyCtx)
    : res (option Extent.t) :=
  header ← ExtentHeader.parse root;
  _ ← check_depth header;
  lookup_loop ctx logical (Z.to_nat (ExtentHeader.depth header)) root header.

Definition lookup (root : bytes) (logical : Z) : res (option Extent.t) :=
  lookup_verified root logical None.

(** [out] and [nodes] are the vectors the walk pushes to. *)
Fixpoint walk (descents_remaining : nat) (node : bytes) (header : ExtentHeader.t)
    (acc : list Extent.t * list Z) : res (list Extent.t * list Z) :=
  if ExtentHeader.is_leaf header then
    foldM (λ acc i, e ← leaf_entry node i; Ok (fst acc ++ [e], snd acc)) acc
      (seqZ 0 (ExtentHeader.entries header))
  else
    match descents_remaining with
    | O => Err (CorruptExtentTree "extent tree descended past claimed depth")
    | S d =>
        foldM (λ acc i,
          idx ← index_entry node i;
          buf ← read_node (ExtentIdx.leaf_block idx) "extent walk: child block offset overflow";
          let acc := (fst acc, snd acc ++ [ExtentIdx.leaf_block idx]) in
          child_header ← ExtentHeader.parse buf;
          walk d buf child_header acc) acc (seqZ 0 (ExtentHeader.entries header))
    end.

Definition collect_all_with_nodes (root : bytes) : res (list Extent.t * list Z) :=
  header ← ExtentHeader.parse root;
  _ ← check_depth header;
  walk (Z.to_nat (ExtentHeader.depth header)) root header ([], []).

Definition collect_all (root : bytes) : res (list Extent.t) :=
  '(out, _) ← collect_all_with_nodes root; Ok out.

Definition map_logical_verified (root : bytes) (logical : Z) (ctx : option ExtentVerifyCtx)
    : res (option Z) :=
  o ← lookup_verified root logical ctx;
  match o with
  | Some ext => if negb (Extent.uninitialized ext) then Ok (Some (Extent.map ext logical)) else Ok None
  | None => Ok None
  end.

Definition map_logical (root : bytes) (logical : Z) : res (option Z) :=
  map_logical_verified root logical None.

End walk.

(** ** Specification: the tree a root stands for *)

(** Extents in increasing order, inside [lo, hi), none overlapping the next. *)
Fixpoint exts_in (lo hi : Z) (exts : list Extent.t) : Prop :=
  match exts with
  | [] => lo ≤ hi
  | e :: exts =>
      lo ≤ Extent.logical_block e ∧ 0 ≤ Extent.length e ∧
      exts_in (Extent.logical_block e + Extent.length e) hi exts
  end.

Definition find_ext (logical : Z) (exts : list Extent.t) : option Extent.t :=
  List.find (λ e, Extent.contains e logical) exts.

Section tree.
Context `{Crc32c} (dev : reader) (block_size : Z) (ctx : option ExtentVerifyCtx).

(** The child block of an index entry, readable and passing its checksum. *)
Definition child (idx : ExtentIdx.t) (buf : bytes) : Prop :=
  (∀ what, read_node dev block_size (ExtentIdx.leaf_block idx) what = Ok buf) ∧
  verify_node ctx buf = Ok ().

(** The subtrees below index [i] and its right siblings [rest], which between
    them cover [lo, hi): each sibling's key splits the range. *)
Fixpoint children (T : bytes → Z → Z → list Extent.t → list Z → Prop)
    (i : ExtentIdx.t) (rest : list ExtentIdx.t) (lo hi : Z) (exts : list Extent.t) (nodes : list Z) : Prop :=
  match rest with
  | [] => ∃ buf ns, child i buf ∧ T buf lo hi exts ns ∧ nodes = ExtentIdx.leaf_block i :: ns
  | j :: rest =>
      ∃ buf e1 e2 ns1 ns2, child i buf ∧ T buf lo (ExtentIdx.logical_block j) e1 ns1 ∧
        ExtentIdx.logical_block i < ExtentIdx.logical_block j ∧
        children T j rest (ExtentIdx.logical_block j) hi e2 ns2 ∧
        exts = e1 ++ e2 ∧ nodes = ExtentIdx.leaf_block i :: ns1 ++ ns2
  end.

(** [tree n node lo hi exts nodes]: the node heads a tree of height at most [n]
    whose leaves hold exactly [exts], in order and within [lo, hi); [nodes]
    lists the blocks below it, parents first. *)
Fixpoint tree (n : nat) (node : bytes) (lo hi : Z) (exts : list Extent.t) (nodes : list Z) : Prop :=
  ∃ h, ExtentHeader.parse node = Ok h ∧
    if ExtentHeader.is_leaf h then
      traverse (leaf_entry node) (seqZ 0 (ExtentHeader.entries h)) = Ok exts ∧
      exts_in lo hi exts ∧ nodes = []
    else
      match n with
      | O => False
      | S n => ∃ i rest,
          traverse (index_entry node) (seqZ 0 (ExtentHeader.entries h)) = Ok (i :: rest) ∧
          children (tree n) i rest lo hi exts nodes
      end.

(** ** Lemmas *)

Lemma exts_in_le lo hi exts : exts_in lo hi exts → lo ≤ hi.
Proof.
  revert lo. induction exts as [|e exts IH]; intros lo; simpl; [done|].
  intros (H1 & H2 & H3). apply IH in H3. lia.
Qed.

Lemma contains_true e l : Extent.contains e l = true ↔
  Extent.logical_block e ≤ l < Extent.logical_block e + Extent.length e.
Proof. unfold Extent.contains. rewrite andb_true_iff, !bool_decide_eq_true. done. Qed.

Lemma find_below lo hi exts l : exts_in lo hi exts → l < lo → find_ext l exts = None.
Proof.
  unfold find_ext. revert lo. induction exts as [|e exts IH]; intros lo; simpl; [done|].
  intros (H1 & H2 & H3) Hl. destruct (Extent.contains e l) eqn:E.
  - apply contains_true in E. lia.
  - apply (IH _ H3). lia.
Qed.

Lemma find_above lo hi exts l : exts_in lo hi exts → hi ≤ l → find_ext l exts = None.
Proof.
  unfold find_ext. revert lo. induction exts as [|e exts IH]; intros lo; simpl; [done|].
  intros (H1 & H2 & H3) Hl. destruct (Extent.contains e l) eqn:E.
  - apply contains_true in E. apply exts_in_le in H3. lia.
  - by apply (IH _ H3).
Qed.

Lemma find_ext_app l e1 e2 :
  find_ext l (e1 ++ e2) = match find_ext l e1 with Some e => Some e | None => find_ext l e2 end.
Proof.
  unfold find_ext. induction e1 as [|e e1 IH]; simpl; [done|]. by destruct (Extent.contains e l).
Qed.

Lemma exts_in_app lo mid hi e1 e2 :
  exts_in lo mid e1 → exts_in mid hi e2 → exts_in lo hi (e1 ++ e2).
Proof.
  revert lo. induction e1 as [|e e1 IH]; intros lo; simpl.
  - intros H1 H2. destruct e2; simpl in *; [lia|]. destruct H2 as (? & ? & ?). split_and!; try done; lia.
  - intros (? & ? & ?) ?. split_and!; try done. by apply IH.
Qed.

Lemma scan_leaf_spec node l ks exts lo hi :
  traverse (leaf_entry node) ks = Ok exts → exts_in lo hi exts →
  scan_leaf node l ks = Ok (find_ext l exts).
Proof.
  revert exts lo. induction ks as [|k ks IH]; intros exts lo; simpl.
  { by intros [= <-]. }
  intros (e & Ee & Hr)%bind_ok_inv. apply bind_ok_inv in Hr as (es & Hes & [= <-]).
  rewrite Ee. simpl. intros (H1 & H2 & H3).
  change (find_ext l (e :: es)) with (if Extent.contains e l then Some e else find_ext l es).
  destruct (Extent.contains e l); [done|]. case_decide.
  - by rewrite (find_below _ _ _ l H3) by lia.
  - by apply (IH es _ Hes H3).
Qed.

(** What the index scan chooses, as a function of the entries. *)
Fixpoint choose (l : Z) (idxs : list ExtentIdx.t) (c : option ExtentIdx.t) : option ExtentIdx.t :=
  match idxs with
  | [] => c
  | i :: idxs => if decide (ExtentIdx.logical_block i ≤ l) then choose l idxs (Some i) else c
  end.

Lemma scan_index_spec node l ks idxs c f :
  traverse (index_entry node) ks = Ok idxs →
  scan_index node l ks c f = Ok (choose l idxs c, or_else f (head idxs)).
Proof.
  revert idxs c f. induction ks as [|k ks IH]; intros idxs c f; simpl.
  { intros [= <-]. simpl. by destruct f. }
  intros (i & Ei & Hr)%bind_ok_inv. apply bind_ok_inv in Hr as (js & His & [= <-]).
  rewrite Ei. simpl. case_decide; [rewrite (IH js) by done|]; by destruct f.
Qed.

Fixpoint sel (l : Z) (i : ExtentIdx.t) (rest : list ExtentIdx.t) : ExtentIdx.t :=
  match rest with
  | [] => i
  | j :: rest => if decide (l < ExtentIdx.logical_block j) then i else sel l j rest
  end.

Lemma choose_sel l i rest : choose l rest (Some i) = Some (sel l i rest).
Proof.
  revert i. induction rest as [|j rest IH]; intros i; simpl; [done|].
  case_decide; [by rewrite decide_False by lia|by rewrite decide_True by lia].
Qed.

Lemma children_sorted T i rest lo hi exts nodes :
  children T i rest lo hi exts nodes →
  match rest with [] => True | j :: _ => ExtentIdx.logical_block i < ExtentIdx.logical_block j end.
Proof. destruct rest; [done|]. by intros (? & ? & ? & ? & ? & ? & ? & ? & _). Qed.

Lemma chosen_sel T l i rest lo hi exts nodes :
  children T i rest lo hi exts nodes →
  or_else (choose l (i :: rest) None) (head (i :: rest)) = Some (sel l i rest).
Proof.
  intros Hc%children_sorted. simpl. case_decide; [by rewrite choose_sel|]. simpl.
  destruct rest as [|j rest]; simpl; [done|]. by rewrite decide_True by lia.
Qed.

(** The chosen child is the one whose range holds [l]; the extents of its
    siblings do not matter. *)
Lemma children_sel (T : bytes → Z → Z → list Extent.t → list Z → Prop) l i rest lo hi exts nodes :
  (∀ buf lo hi exts ns, T buf lo hi exts ns → exts_in lo hi exts) →
  children T i rest lo hi exts nodes →
  exts_in lo hi exts ∧
  ∃ buf lo' hi' exts' ns', child (sel l i rest) buf ∧ T buf lo' hi' exts' ns' ∧
    find_ext l exts = find_ext l exts'.
Proof.
  intros HT. revert i lo exts nodes. induction rest as [|j rest IH]; intros i lo exts nodes; simpl.
  - intros (buf & ns & Hch & Ht & ->). split; [by eapply HT|]. by exists buf, lo, hi, exts, ns.
  - intros (buf & e1 & e2 & ns1 & ns2 & Hch & Ht & Hlt & Hrest & -> & ->).
    destruct (IH _ _ _ _ Hrest) as (Hin2 & buf2 & lo2 & hi2 & ex2 & nss & Hch2 & Ht2 & Hf2).
    pose proof (HT _ _ _ _ _ Ht) as Hin1. split; [by eapply exts_in_app|].
    rewrite find_ext_app. case_decide.
    + exists buf, lo, (ExtentIdx.logical_block j), e1, ns1. split_and!; try done.
      rewrite (find_below _ _ e2 l Hin2) by done. by destruct (find_ext l e1).
    + exists buf2, lo2, hi2, ex2, nss. split_and!; try done.
      by rewrite (find_above _ _ e1 l Hin1) by lia.
Qed.

Lemma tree_exts_in n node lo hi exts nodes : tree n node lo hi exts nodes → exts_in lo hi exts.
Proof.
  revert node lo hi exts nodes. induction n as [|n IH]; intros node lo hi exts nodes; simpl;
    intros (h & Hh & Ht); destruct (ExtentHeader.is_leaf h); try done; try by destruct Ht as (_ & ? & _).
  destruct Ht as (i & rest & _ & Hc). by apply (children_sel (tree n) 0) in Hc as [? _].
Qed.

Lemma lookup_loop_spec n l node h lo hi exts nodes :
  ExtentHeader.parse node = Ok h → tree n node lo hi exts nodes →
  lookup_loop dev block_size ctx l n node h = Ok (find_ext l exts).
Proof.
  revert node h lo hi exts nodes.
  induction n as [|n IH]; intros node h lo hi exts nodes Hh; simpl;
    intros (h' & Hh' & Ht); assert (h' = h) as -> by congruence;
    destruct (ExtentHeader.is_leaf h);
    try (destruct Ht as (Htr & Hin & _); by eapply scan_leaf_spec).
  - done.
  - destruct Ht as (i & rest & Htr & Hc).
    rewrite (scan_index_spec _ _ _ _ _ _ Htr). rewrite bind_Ok. cbv beta iota.
    change (or_else None (head (i :: rest))) with (head (i :: rest)).
    rewrite (chosen_sel _ l _ _ _ _ _ _ Hc). simpl ok_or. rewrite bind_Ok.
    destruct (children_sel (tree n) l _ _ _ _ _ _ (tree_exts_in n) Hc)
      as (_ & buf & lo' & hi' & exts' & ns' & [Hread Hver] & Ht' & ->).
    rewrite Hread, bind_Ok, Hver, bind_Ok.
    assert (∃ hc, ExtentHeader.parse buf = Ok hc) as [hc Hhc].
    { destruct n; destruct Ht' as (hc & ? & _); by exists hc. }
    rewrite Hhc, bind_Ok. by eapply IH.
Qed.

Lemma walk_leaf_spec node ks exts (acc : list Extent.t * list Z) :
  traverse (leaf_entry node) ks = Ok exts →
  foldM (λ acc i, e ← leaf_entry node i; Ok (fst acc ++ [e], snd acc)) acc ks
    = Ok (fst acc ++ exts, snd acc).
Proof.
  revert exts acc. induction ks as [|k ks IH]; intros exts acc; simpl.
  { intros [= <-]. rewrite app_nil_r. by destruct acc. }
  intros (e & Ee & Hr)%bind_ok_inv. apply bind_ok_inv in Hr as (es & Hes & [= <-]).
  rewrite Ee. simpl. rewrite (IH es) by done. simpl. by rewrite <-app_assoc.
Qed.

Lemma walk_children_spec n node :
  (∀ buf h lo hi exts nodes acc, ExtentHeader.parse buf = Ok h → tree n buf lo hi exts nodes →
     walk dev block_size n buf h acc = Ok (fst acc ++ exts, snd acc ++ nodes)) →
  ∀ ks i rest lo hi exts nodes acc,
  traverse (index_entry node) ks = Ok (i :: rest) → children (tree n) i rest lo hi exts nodes →
  foldM (λ acc i,
    idx ← index_entry node i;
    buf ← read_node dev block_size (ExtentIdx.leaf_block idx) "extent walk: child block offset overflow";
    let acc := (fst acc, snd acc ++ [ExtentIdx.leaf_block idx]) in
    child_header ← ExtentHeader.parse buf;
    walk dev block_size n buf child_header acc) acc ks = Ok (fst acc ++ exts, snd acc ++ nodes).
Proof.
  intros HT. induction ks as [|k ks IH]; intros i rest lo hi exts nodes acc; [done|].
  intros Htr Hc. simpl in Htr. apply bind_ok_inv in Htr as (i' & Ei & Hr).
  apply bind_ok_inv in Hr as (js & Hjs & [= <- <-]).
  cbn [foldM]. rewrite Ei, bind_Ok.
  assert (Hhd : ∀ buf lo hi exts ns, tree n buf lo hi exts ns → ∃ hc, ExtentHeader.parse buf = Ok hc).
  { intros ? ? ? ? ? Ht. destruct n; destruct Ht as (hc & ? & _); by exists hc. }
  destruct js as [|j js]; simpl in Hc.
  - destruct Hc as (buf & ns & [Hread _] & Ht & ->). destruct (Hhd _ _ _ _ _ Ht) as [hc Hhc].
    rewrite Hread, bind_Ok. cbv zeta. rewrite Hhc, bind_Ok, (HT _ _ _ _ _ _ _ Hhc Ht), bind_Ok.
    destruct ks as [|k2 ks]; [|simpl in Hjs; apply bind_ok_inv in Hjs as (? & _ & Hjs);
      by apply bind_ok_inv in Hjs as (? & _ & [=])].
    simpl. by rewrite <-app_assoc.
  - destruct Hc as (buf & e1 & e2 & ns1 & ns2 & [Hread _] & Ht & _ & Hrest & -> & ->).
    destruct (Hhd _ _ _ _ _ Ht) as [hc Hhc].
    rewrite Hread, bind_Ok. cbv zeta. rewrite Hhc, bind_Ok, (HT _ _ _ _ _ _ _ Hhc Ht), bind_Ok.
    rewrite (IH _ _ _ _ _ _ _ Hjs Hrest). simpl. by rewrite <-!app_assoc.
Qed.

Lemma walk_spec n node h lo hi exts nodes acc :
  ExtentHeader.parse node = Ok h → tree n node lo hi exts nodes →
  walk dev block_size n node h acc = Ok (fst acc ++ exts, snd acc ++ nodes).
Proof.
  revert node h lo hi exts nodes acc.
  induction n as [|n IH]; intros node h lo hi exts nodes acc Hh; simpl;
    intros (h' & Hh' & Ht); assert (h' = h) as -> by congruence;
    destruct (ExtentHeader.is_leaf h);
    try (destruct Ht as (Htr & _ & ->); rewrite (walk_leaf_spec _ _ _ _ Htr); by rewrite app_nil_r).
  - done.
  - destruct Ht as (i & rest & Htr & Hc). eapply walk_children_spec; [|done|done].
    intros. by eapply IH.
Qed.

Lemma lookup_verified_spec root h lo hi exts nodes l :
  ExtentHeader.parse root = Ok h → ExtentHeader.depth h ≤ EXT4_EXT_MAX_DEPTH →
  tree (Z.to_nat (ExtentHeader.depth h)) root lo hi exts nodes →
  lookup_verified dev block_size root l ctx = Ok (find_ext l exts).
Proof.
  intros Hh Hd Ht. unfold lookup_verified, check_depth. rewrite Hh, bind_Ok, decide_False by lia.
  rewrite bind_Ok. by eapply lookup_loop_spec.
Qed.

Lemma collect_spec root h lo hi exts nodes :
  ExtentHeader.parse root = Ok h → ExtentHeader.depth h ≤ EXT4_EXT_MAX_DEPTH →
  tree (Z.to_nat (ExtentHeader.depth h)) root lo hi exts nodes →
  collect_all_with_nodes dev block_size root = Ok (exts, nodes).
Proof.
  intros Hh Hd Ht. unfold collect_all_with_nodes, check_depth.
  rewrite Hh, bind_Ok, decide_False by lia. rewrite bind_Ok. by rewrite (walk_spec _ _ _ _ _ _ _ _ Hh Ht).
Qed.
End tree.

(** *** No panics *)

Lemma header_parse_returns raw : returns (ExtentHeader.parse raw).
Proof.
  unfold ExtentHeader.parse, EXT4_EXT_NODE_SIZE. case_decide; [done|]. io.
  case_decide; [done|]. by case_decide.
Qed.
Lemma leaf_entry_returns node i : 0 ≤ i → returns (leaf_entry node i).
Proof.
  intros. unfold leaf_entry, entry_off, EXT4_EXT_NODE_SIZE. case_decide; [done|]. io.
  unfold Extent.parse, EXT4_EXT_NODE_SIZE. case_decide; [done|]. io. by case_decide.
Qed.
Lemma index_entry_returns node i : 0 ≤ i → returns (index_entry node i).
Proof.
  intros. unfold index_entry, entry_off, EXT4_EXT_NODE_SIZE. case_decide; [done|]. io.
  unfold ExtentIdx.parse, EXT4_EXT_NODE_SIZE. case_decide; [done|]. io. done.
Qed.

Lemma scan_leaf_safe node l ks :
  Forall (λ i, 0 ≤ i) ks →
  returns (scan_leaf node l ks) ∧
  ∀ e, scan_leaf node l ks = Ok (Some e) → Extent.contains e l = true.
Proof.
  induction 1 as [|k ks Hk _ IH]; simpl; [done|].
  pose proof (leaf_entry_returns node k Hk). destruct (leaf_entry node k) as [e|?| |]; simpl; try done.
  destruct (Extent.contains e l) eqn:E; [split; [done|]; by intros e' [= <-]|].
  by case_decide.
Qed.

Lemma scan_index_returns node l ks c f :
  Forall (λ i, 0 ≤ i) ks → returns (scan_index node l ks c f).
Proof.
  intros H. revert c f. induction H as [|k ks Hk _ IH]; intros c f; simpl; [done|].
  apply bind_returns; [by apply index_entry_returns|]. intros idx _. case_decide; [apply IH|done].
Qed.

Lemma verify_extent_tail_returns `{Crc32c} s i g b : returns (verify_extent_tail s i g b).
Proof.
  unfold verify_extent_tail. destruct (negb _); [done|]. case_decide; [done|]. io. done.
Qed.

Lemma verify_node_returns `{Crc32c} ctx buf : returns (verify_node ctx buf).
Proof.
  unfold verify_node. destruct ctx as [c|]; [|done]. destruct (active c); [|done].
  apply bind_returns; [apply verify_extent_tail_returns|]. by intros [].
Qed.

Lemma read_node_returns dev `{ReaderOk dev} bs b w : returns (read_node dev bs b w).
Proof. unfold read_node. apply bind_returns; [apply ok_or_returns|]. intros. apply rd_returns. Qed.

Lemma seqZ_nonneg n : Forall (λ i, 0 ≤ i) (seqZ 0 n).
Proof. apply Forall_forall. intros i Hi%elem_of_seqZ. lia. Qed.

Lemma lookup_loop_safe `{Crc32c} dev `{ReaderOk dev} bs ctx l n node h :
  returns (lookup_loop dev bs ctx l n node h) ∧
  ∀ e, lookup_loop dev bs ctx l n node h = Ok (Some e) → Extent.contains e l = true.
Proof.
  revert node h. induction n as [|n IH]; intros node h; simpl;
    destruct (ExtentHeader.is_leaf h); try (apply scan_leaf_safe, seqZ_nonneg).
  all: pose proof (scan_index_returns node l _ None None (seqZ_nonneg (ExtentHeader.entries h))) as Hr;
    destruct (scan_index _ _ _ _ _) as [[c f]|?| |]; simpl in *; try done;
    destruct (or_else c f) as [idx|]; simpl; try done;
    pose proof (read_node_returns dev bs (ExtentIdx.leaf_block idx)
      "extent index: child block offset overflow") as Hrd;
    destruct (read_node _ _ _ _) as [buf|?| |]; simpl in *; try done;
    pose proof (verify_node_returns ctx buf) as Hv;
    destruct (verify_node ctx buf) as [[]|?| |]; simpl in *; try done;
    pose proof (header_parse_returns buf) as Hh;
    destruct (ExtentHeader.parse buf); simpl in *; try done.
Qed.

(** ** Properties *)

(** C26: on a well-formed extent tree of depth at most 5, on any device and with
    or without checksum verification, looking a block up finds exactly the
    extent that a linear search of the whole sorted extent list finds (a
    leading hole below every key and a hole between extents are [None]), and
    the full walk returns that list and every node block, parents first. *)
Theorem lookup_agrees_with_collect `{Crc32c} dev block_size ctx root lo hi exts nodes h :
  ExtentHeader.parse root = Ok h → ExtentHeader.depth h ≤ EXT4_EXT_MAX_DEPTH →
  tree dev block_size ctx (Z.to_nat (ExtentHeader.depth h)) root lo hi exts nodes →
  (∀ l, lookup_verified dev block_size root l ctx = Ok (find_ext l exts)) ∧
  collect_all_with_nodes dev block_size root = Ok (exts, nodes) ∧
  collect_all dev block_size root = Ok exts ∧
  (∀ l, map_logical_verified dev block_size root l ctx =
     Ok (match find_ext l exts with
         | Some e => if Extent.uninitialized e then None else Some (Extent.map e l)
         | None => None end)).
Proof.
  intros Hh Hd Ht.
  assert (Hl : ∀ l, lookup_verified dev block_size root l ctx = Ok (find_ext l exts))
    by (intros; by eapply lookup_verified_spec).
  pose proof (collect_spec _ _ _ _ _ _ _ _ _ Hh Hd Ht) as Hc.
  split; [done|]. split; [done|]. split; [unfold collect_all; by rewrite Hc|].
  intros l. unfold map_logical_verified. rewrite Hl, bind_Ok.
  destruct (find_ext l exts) as [e|]; [|done]. by destruct (Extent.uninitialized e).
Qed.

(** Whatever bytes the root and the blocks below it hold (cyclic child
    pointers, bad counts, truncated nodes), a lookup terminates after at most
    [depth + 1] node reads without panicking, and any extent it returns covers
    the block asked for. *)
Lemma lookup_safe `{Crc32c} dev `{ReaderOk dev} block_size root l ctx :
  returns (lookup_verified dev block_size root l ctx) ∧
  ∀ e, lookup_verified dev block_size root l ctx = Ok (Some e) → Extent.contains e l = true.
Proof.
  unfold lookup_verified, check_depth. pose proof (header_parse_returns root).
  destruct (ExtentHeader.parse root) as [h|?| |]; simpl; try done.
  case_decide; simpl; [done|]. by apply lookup_loop_safe.
Qed.

(** A depth-1 tree over 64-byte blocks: the root's two index entries (keys 10
    and 20) name blocks 1 and 2; extents at 12 (uninitialised), 15 and 21. *)
Definition sample_header (entries depth : Z) : bytes :=
  le_split 2 EXT4_EXT_MAGIC ++ le_split 2 entries ++ le_split 2 4 ++ le_split 2 depth ++ le_split 4 0.
Definition sample_leaf (lb len start : Z) : bytes :=
  le_split 4 lb ++ le_split 2 len ++ le_split 2 0 ++ le_split 4 start.
Definition sample_index (lb leaf : Z) : bytes :=
  le_split 4 lb ++ le_split 4 leaf ++ le_split 2 0 ++ le_split 2 0.
Definition sample_root : bytes :=
  sample_header 2 1 ++ sample_index 10 1 ++ sample_index 20 2 ++ zrep 24 0.
Definition sample_disk : bytes :=
  zrep 64 0 ++
  (sample_header 2 0 ++ sample_leaf 12 32770 100 ++ sample_leaf 15 3 200 ++ zrep 28 0) ++
  (sample_header 1 0 ++ sample_leaf 21 4 300 ++ zrep 40 0).
Definition sample_exts : list Extent.t :=
  [Extent.mk 12 2 100 true; Extent.mk 15 3 200 false; Extent.mk 21 4 300 false].

Lemma sample_tree : @tree castagnoli (image_reader sample_disk) 64 None 1 sample_root 0 100 sample_exts [1; 2].
Proof.
  eexists; split; [vm_compute; reflexivity|]. cbn [ExtentHeader.is_leaf].
  exists (ExtentIdx.mk 10 1), [ExtentIdx.mk 20 2]. split; [vm_compute; reflexivity|].
  cbn [children]. eexists _, [Extent.mk 12 2 100 true; Extent.mk 15 3 200 false],
    [Extent.mk 21 4 300 false], [], [2].
  split; [split; [intros; vm_compute; reflexivity|reflexivity]|].
  split; [eexists; split; [vm_compute; reflexivity|]; split; [vm_compute; reflexivity|]; split;
    [|reflexivity]; simpl; lia|].
  split; [simpl; lia|]. split; [|split; reflexivity].
  eexists _, []. split; [split; [intros; vm_compute; reflexivity|reflexivity]|].
  split; [|reflexivity].
  eexists; split; [vm_compute; reflexivity|]. split; [vm_compute; reflexivity|]. split; [|reflexivity].
  simpl; lia.
Qed.

Lemma lookup_agrees_with_collect_witness :
  @lookup_verified castagnoli (image_reader sample_disk) 64 sample_root 16 None
    = Ok (Some (Extent.mk 15 3 200 false)) ∧
  @lookup_verified castagnoli (image_reader sample_disk) 64 sample_root 5 None = Ok None ∧
  @collect_all (image_reader sample_disk) 64 sample_root = Ok sample_exts.
Proof.
  destruct (@lookup_agrees_with_collect castagnoli (image_reader sample_disk) 64 None sample_root 0 100
    sample_exts [1; 2] (ExtentHeader.mk EXT4_EXT_MAGIC 2 4 1 0)) as (Hl & _ & Hc & _).
  - vm_compute. reflexivity.
  - vm_compute. discriminate.
  - exact sample_tree.
  - split; [exact (Hl 16)|]. split; [exact (Hl 5)|exact Hc].
Defined.

Lemma lookup_safe_witness :
  (* an index node whose only child is itself *)
  let loop := sample_header 1 1 ++ sample_index 0 0 ++ zrep 40 0 in
  @lookup_verified castagnoli (image_reader loop) 64 loop 7 None
    = Err (CorruptExtentTree "extent tree descended past claimed depth") ∧
  returns (@lookup_verified castagnoli (image_reader loop) 64 loop 7 None).
Proof.
  intros loop. split; [vm_compute; reflexivity|].
  apply (@lookup_safe castagnoli (image_reader loop)). apply image_reader_ok. by_compute.
Defined.
