(* ===== verification/ExtentMut.v ===== *)
(** ExtentMut: planning changes to an extent tree (src/src/extent_mut.rs):
    encoding nodes, inserting with merging, splitting, freeing, initialising a
    range, promoting a full root, and laying a whole tree out again.  The
    specification is the block map an extent list denotes. *)
From S2P Require Import Prelude Errors Bytes Device Features Superblock Checksum Extent.

Definition HDR_MAGIC_OFF : Z := 0.
Definition HDR_ENTRIES_OFF : Z := 2.
Definition HDR_MAX_OFF : Z := 4.
Definition HDR_DEPTH_OFF : Z := 6.
Definition HDR_GEN_OFF : Z := 8.

Definition extent_entry_offset (i : Z) : Z := EXT4_EXT_NODE_SIZE * (1 + i).

Definition split_phys_block (block : Z) : Z * Z :=
  (Z.land (Z.shiftr block 32) 0xFFFF, Z.land block 0xFFFFFFFF).

Inductive ExtentMutation :=
  | WriteRoot (bs : bytes)
  | WriteTreeBlock (block : Z) (bs : bytes)
  | AllocLeafBlock (bs : bytes)
  | FreeLeafBlock (block : Z)
  | FreePhysicalRun (start len : Z).

(** ** Encoding nodes *)

Definition encode_extent (e : Extent.t) : bytes :=
  let buf := zrep EXT4_EXT_NODE_SIZE 0 in
  let buf := splice buf 0 (le_split 4 (Extent.logical_block e)) in
  let ee_len := if Extent.uninitialized e then as_u16 (Extent.length e + EXT_INIT_MAX_LEN)
                else Extent.length e in
  let buf := splice buf 4 (le_split 2 ee_len) in
  let '(phys_hi, phys_lo) := split_phys_block (Extent.physical_block e) in
  let buf := splice buf 6 (le_split 2 phys_hi) in
  splice buf 8 (le_split 4 phys_lo).

Definition encode_index (logical_block child_phys : Z) : bytes :=
  let buf := zrep EXT4_EXT_NODE_SIZE 0 in
  let '(leaf_hi, leaf_lo) := split_phys_block child_phys in
  let buf := splice buf 0 (le_split 4 logical_block) in
  let buf := splice buf 4 (le_split 4 leaf_lo) in
  splice buf 8 (le_split 2 leaf_hi).

(** [for (i, x) in xs.iter().enumerate() { out[off..off+12].copy_from_slice(..) }] *)
Fixpoint put_entries (out : bytes) (i : Z) (encoded : list bytes) : res bytes :=
  match encoded with
  | [] => Ok out
  | e :: encoded => out ← put out (extent_entry_offset i) e; put_entries out (i + 1) encoded
  end.

(** A zeroed node of [len] bytes with its header and entries written. *)
Definition build_node (len entries max depth generation : Z) (encoded : list bytes) : res bytes :=
  let out := zrep len 0 in
  out ← put out HDR_MAGIC_OFF (le_split 2 EXT4_EXT_MAGIC);
  out ← put out HDR_ENTRIES_OFF (le_split 2 entries);
  out ← put out HDR_MAX_OFF (le_split 2 max);
  out ← put out HDR_DEPTH_OFF (le_split 2 depth);
  out ← put out HDR_GEN_OFF (le_split 4 generation);
  put_entries out 0 encoded.

Definition build_root (header : ExtentHeader.t) (extents : list Extent.t) (root_len : Z) : res bytes :=
  build_node root_len (as_u16 (zlen extents)) (ExtentHeader.max header) (ExtentHeader.depth header)
    (ExtentHeader.generation header) (encode_extent <$> extents).

(** *** Reading back *)

Definition parse_leaf_entries (node : bytes) (header : ExtentHeader.t) : res (list Extent.t) :=
  traverse (leaf_entry node) (seqZ 0 (ExtentHeader.entries header)).

Definition parse_index_entries (node : bytes) (header : ExtentHeader.t) : res (list ExtentIdx.t) :=
  traverse (index_entry node) (seqZ 0 (ExtentHeader.entries header)).

Definition read_leaf_entries (root : bytes) : res (ExtentHeader.t * list Extent.t) :=
  header ← ExtentHeader.parse root;
  if negb (ExtentHeader.is_leaf header)
  then Err (CorruptExtentTree "extent_mut: multi-level tree mutation not yet supported") else
  out ← parse_leaf_entries root header;
  Ok (header, out).

(** ** Merging *)

Definition max_extent_len (uninitialized : bool) : Z :=
  if uninitialized then EXT_INIT_MAX_LEN - 1 else EXT_INIT_MAX_LEN.

Definition are_contiguous (a b : Extent.t) : bool :=
  if negb (Bool.eqb (Extent.uninitialized a) (Extent.uninitialized b)) then false else
  if decide (max_extent_len (Extent.uninitialized a) < Extent.length a + Extent.length b) then false else
  let a_log_end := Extent.logical_block a + Extent.length a in
  let a_phys_end := Extent.physical_block a + Extent.length a in
  bool_decide (a_log_end = Extent.logical_block b) && bool_decide (a_phys_end = Extent.physical_block b).

(** [e.length += n] on a [u16] *)
Definition grow (e : Extent.t) (n : Z) : Extent.t :=
  Extent.mk (Extent.logical_block e) (as_u16 (Extent.length e + n)) (Extent.physical_block e)
    (Extent.uninitialized e).

(** [entries.insert(pos, x)], [entries.iter().position(p).unwrap_or(d)] *)
Definition insert_at {A} (pos : nat) (x : A) (l : list A) : list A := take pos l ++ x :: drop pos l.
Definition position_or {A} (p : A → bool) (d : nat) (l : list A) : nat :=
  default d (fst <$> list_find p l).

(** If entries [i] and [i + 1] exist and are contiguous, fuse them: the [remove]
    and [length +=] of every merge in the file. *)
Definition merge_at (i : nat) (l : list Extent.t) : list Extent.t :=
  match l !! i, l !! S i with
  | Some a, Some b =>
      if are_contiguous a b then take i l ++ grow a (Extent.length b) :: drop (S (S i)) l else l
  | _, _ => l
  end.

Definition starts_after (new e : Extent.t) : bool :=
  bool_decide (Extent.logical_block new < Extent.logical_block e).
Definition holds_start (new e : Extent.t) : bool :=
  bool_decide (Extent.logical_block e = Extent.logical_block new) ||
  (bool_decide (Extent.logical_block e < Extent.logical_block new) &&
   bool_decide (Extent.logical_block new < Extent.logical_block e + Extent.length e)).

Definition insert_into_leaf_sorted (entries : list Extent.t) (new : Extent.t) : list Extent.t :=
  let pos := position_or (starts_after new) (length entries) entries in
  let entries := insert_at pos new entries in
  let entries := match pos with O => entries | S p => merge_at p entries end in
  let merged_pos := position_or (holds_start new) (pred (length entries)) entries in
  merge_at merged_pos entries.

Definition overlaps (new e : Extent.t) : bool :=
  let e_end := Extent.logical_block e + Extent.length e in
  let n_end := Extent.logical_block new + Extent.length new in
  negb (bool_decide (n_end ≤ Extent.logical_block e) || bool_decide (e_end ≤ Extent.logical_block new)).

Definition check_no_overlap (entries : list Extent.t) (new : Extent.t) : res unit :=
  if existsb (overlaps new) entries
  then Err (CorruptExtentTree "extent overlaps existing") else Ok ().

(** ** Plans on an inline root *)

Definition plan_insert_extent (root : bytes) (new : Extent.t) : res (list ExtentMutation) :=
  '(header, entries) ← read_leaf_entries root;
  _ ← check_no_overlap entries new;
  let entries := insert_into_leaf_sorted entries new in
  if decide (ExtentHeader.max header < as_u16 (zlen entries))
  then Err (CorruptExtentTree "LEAF_FULL_NEEDS_PROMOTION: root has no slot for new extent") else
  new_root ← build_root header entries (zlen root);
  Ok [WriteRoot new_root].

Definition plan_split_extent (root : bytes) (idx : Z) (split_at : Z) : res (list ExtentMutation) :=
  '(header, entries) ← read_leaf_entries root;
  e ← ok_or (entries !! Z.to_nat idx) (CorruptExtentTree "split idx out of range");
  let start := Extent.logical_block e in
  let stop := as_u32 (start + Extent.length e) in
  if decide (split_at ≤ start ∨ stop ≤ split_at)
  then Err (CorruptExtentTree "split point outside extent") else
  let left := Extent.mk start (as_u16 (split_at - start)) (Extent.physical_block e)
                (Extent.uninitialized e) in
  let right := Extent.mk split_at (as_u16 (stop - split_at))
                 (Extent.physical_block e + (split_at - start)) (Extent.uninitialized e) in
  let entries := insert_at (S (Z.to_nat idx)) right (<[Z.to_nat idx := left]> entries) in
  if decide (ExtentHeader.max header < as_u16 (zlen entries))
  then Err (CorruptExtentTree "LEAF_FULL_NEEDS_PROMOTION: split exceeds root capacity") else
  new_root ← build_root header entries (zlen root);
  Ok [WriteRoot new_root].

Definition plan_merge_adjacent (root : bytes) (i : Z) : res (list ExtentMutation) :=
  '(header, entries) ← read_leaf_entries root;
  if decide (zlen entries ≤ i + 1) then Err (CorruptExtentTree "merge idx out of range") else
  a ← unwrap (entries !! Z.to_nat i);
  b ← unwrap (entries !! S (Z.to_nat i));
  if negb (are_contiguous a b) then Ok [] else
  new_root ← build_root header (merge_at (Z.to_nat i) entries) (zlen root);
  Ok [WriteRoot new_root].

Definition plan_free_extent (root : bytes) (idx : Z) : res (list ExtentMutation) :=
  '(header, entries) ← read_leaf_entries root;
  removed ← ok_or (entries !! Z.to_nat idx) (CorruptExtentTree "free idx out of range");
  let entries := delete (Z.to_nat idx) entries in
  new_root ← build_root header entries (zlen root);
  Ok [WriteRoot new_root; FreePhysicalRun (Extent.physical_block removed) (Extent.length removed)].

(** The pieces an extent falls into, and the blocks of it that change state. *)
Definition initialize_one (first stop : Z) (e : Extent.t) : list Extent.t * list Z :=
  let el := Extent.logical_block e in
  let er := as_u32 (el + Extent.length e) in
  if decide (Extent.uninitialized e = false ∨ er ≤ first ∨ stop ≤ el) then ([e], []) else
  let lo := Z.max el first in
  let hi := Z.min er stop in
  let piece from to uninit :=
    Extent.mk from (as_u16 (to - from)) (Extent.physical_block e + (from - el)) uninit in
  ((if decide (el < lo) then [piece el lo true] else []) ++ [piece lo hi false] ++
   (if decide (hi < er) then [piece hi er true] else []),
   seqZ lo (hi - lo)).

(** The merging loop: fold each piece into the last one when contiguous. *)
Definition push_merged (merged : list Extent.t) (e : Extent.t) : list Extent.t :=
  match last merged with
  | Some prev => if are_contiguous prev e
                 then take (pred (length merged)) merged ++ [grow prev (Extent.length e)]
                 else merged ++ [e]
  | None => merged ++ [e]
  end.

Definition plan_initialize_range (root : bytes) (first stop : Z) : res (bytes * list Z) :=
  '(header, entries) ← read_leaf_entries root;
  let parts := initialize_one first stop <$> entries in
  let out := concat (fst <$> parts) in
  let converted := concat (snd <$> parts) in
  let merged := foldl push_merged [] out in
  if decide (ExtentHeader.max header < as_u16 (zlen merged))
  then Err (CorruptExtentTree
    "LEAF_FULL_NEEDS_PROMOTION: initializing part of an extent exceeds root capacity") else
  new_root ← build_root header merged (zlen root);
  Ok (new_root, converted).

(** ** Promotion of a full root *)

Definition tail_bytes (reserved_tail_csum : bool) : Z := if reserved_tail_csum then 4 else 0.

Definition build_leaf_block (generation : Z) (extents : list Extent.t) (block_size : Z)
    (reserved_tail_csum : bool) : res bytes :=
  let header_body_len := saturating_sub block_size (tail_bytes reserved_tail_csum) in
  let max_entries := as_u16 ((header_body_len - EXT4_EXT_NODE_SIZE) / EXT4_EXT_NODE_SIZE) in
  build_node block_size (as_u16 (zlen extents)) max_entries 0 generation (encode_extent <$> extents).

Definition build_depth1_index_root (generation leaf_phys : Z) : res bytes :=
  build_node 60 1 4 1 generation [encode_index 0 leaf_phys].

Record PromotionPlan := mkPromotion { leaf_bytes : bytes; new_root_bytes : bytes }.

Definition plan_promote_leaf (root : bytes) (new : Extent.t) (block_size new_leaf_phys : Z)
    (reserved_tail_csum : bool) : res PromotionPlan :=
  '(header, entries) ← read_leaf_entries root;
  _ ← check_no_overlap entries new;
  let entries := insert_into_leaf_sorted entries new in
  let leaf_capacity_bytes := saturating_sub block_size (tail_bytes reserved_tail_csum) in
  let leaf_max := as_u16 ((leaf_capacity_bytes - EXT4_EXT_NODE_SIZE) / EXT4_EXT_NODE_SIZE) in
  if decide (leaf_max < as_u16 (zlen entries))
  then Err (CorruptExtentTree "plan_promote_leaf: entry count exceeds leaf capacity") else
  leaf ← build_leaf_block (ExtentHeader.generation header) entries block_size reserved_tail_csum;
  new_root ← build_depth1_index_root (ExtentHeader.generation header) new_leaf_phys;
  Ok (mkPromotion leaf new_root).

(** ** Laying a tree out again *)

Definition node_max_entries (block_size : Z) : Z :=
  as_u16 ((block_size - EXT4_EXT_NODE_SIZE - 4) / EXT4_EXT_NODE_SIZE).

Definition build_full_leaf_block (generation : Z) (extents : list Extent.t) (block_size : Z) : res bytes :=
  build_node block_size (as_u16 (zlen extents)) (node_max_entries block_size) 0 generation
    (encode_extent <$> extents).

Definition build_full_index_block (generation depth : Z) (indices : list (Z * Z)) (block_size : Z)
    : res bytes :=
  build_node block_size (as_u16 (zlen indices)) (node_max_entries block_size) depth generation
    ((λ p, encode_index (fst p) (snd p)) <$> indices).

Definition build_inline_index_root (generation depth : Z) (indices : list (Z * Z)) : res bytes :=
  build_node 60 (as_u16 (zlen indices)) 4 depth generation
    ((λ p, encode_index (fst p) (snd p)) <$> indices).

Definition build_inline_leaf_root (generation : Z) (extents : list Extent.t) : res bytes :=
  build_root (ExtentHeader.mk EXT4_EXT_MAGIC (as_u16 (zlen extents)) 4 0 generation) extents 60.

(** ** The block map an extent list denotes *)

(** Where a logical block lives, and whether it is still uninitialised. *)
Definition blockmap (exts : list Extent.t) (l : Z) : option (Z * bool) :=
  match find_ext l exts with
  | Some e => Some (Extent.map e l, Extent.uninitialized e)
  | None => None
  end.

Definition ext_ok (e : Extent.t) : Prop :=
  0 ≤ Extent.logical_block e < 2 ^ 32 ∧
  1 ≤ Extent.length e ≤ max_extent_len (Extent.uninitialized e) ∧
  0 ≤ Extent.physical_block e < 2 ^ 48.

#[global] Instance ext_ok_dec e : Decision (ext_ok e).
Proof. unfold ext_ok. apply _. Defined.

#[global] Instance exts_in_dec lo hi exts : Decision (exts_in lo hi exts).
Proof. revert lo. induction exts as [|e exts IH]; intros lo; simpl; apply _. Defined.

(** A leaf's extents: sorted, disjoint, each encodable. *)
Definition leaf_ok (lo hi : Z) (exts : list Extent.t) : Prop :=
  exts_in lo hi exts ∧ Forall ext_ok exts.

Lemma max_extent_len_range u : 32767 ≤ max_extent_len u ≤ 32768.
Proof. destruct u; unfold max_extent_len, EXT_INIT_MAX_LEN; lia. Qed.

Lemma find_ext_cons e exts l :
  find_ext l (e :: exts) = if Extent.contains e l then Some e else find_ext l exts.
Proof. done. Qed.

Lemma blockmap_cons e exts l :
  blockmap (e :: exts) l = if Extent.contains e l
    then Some (Extent.map e l, Extent.uninitialized e) else blockmap exts l.
Proof. unfold blockmap. rewrite find_ext_cons. by destruct (Extent.contains e l). Qed.

Lemma blockmap_app e1 e2 l :
  blockmap (e1 ++ e2) l = match blockmap e1 l with Some x => Some x | None => blockmap e2 l end.
Proof. unfold blockmap. rewrite find_ext_app. by destruct (find_ext l e1). Qed.

Lemma blockmap_below lo hi exts l : exts_in lo hi exts → l < lo → blockmap exts l = None.
Proof. intros H1 H2. unfold blockmap. by rewrite (find_below lo hi). Qed.

Lemma contains_false e l : Extent.contains e l = false ↔
  l < Extent.logical_block e ∨ Extent.logical_block e + Extent.length e ≤ l.
Proof. rewrite <-not_true_iff_false, contains_true. lia. Qed.

(** Fusing a contiguous pair is invisible in the block map. *)
Lemma grow_contains a b l :
  ext_ok a → ext_ok b → are_contiguous a b = true →
  Extent.contains (grow a (Extent.length b)) l = Extent.contains a l || Extent.contains b l.
Proof.
  intros (_ & Ha & _) (_ & Hb & _). unfold are_contiguous.
  destruct (negb _); [done|]. case_decide as Hlen; [done|].
  rewrite andb_true_iff, !bool_decide_eq_true. intros [He _].
  pose proof (max_extent_len_range (Extent.uninitialized a)).
  assert (E : as_u16 (Extent.length a + Extent.length b) = Extent.length a + Extent.length b)
    by (unfold as_u16; apply Z.mod_small; lia).
  apply eq_true_iff_eq. rewrite orb_true_iff, !contains_true. unfold grow; simpl. rewrite E. lia.
Qed.

Lemma are_contiguous_inv a b : are_contiguous a b = true →
  Extent.uninitialized a = Extent.uninitialized b ∧
  Extent.length a + Extent.length b ≤ max_extent_len (Extent.uninitialized a) ∧
  Extent.logical_block a + Extent.length a = Extent.logical_block b ∧
  Extent.physical_block a + Extent.length a = Extent.physical_block b.
Proof.
  unfold are_contiguous. destruct (negb _) eqn:Eu; [done|]. case_decide as Hlen; [done|].
  rewrite andb_true_iff, !bool_decide_eq_true. intros [H1 H2].
  apply negb_false_iff, Bool.eqb_prop in Eu. split_and!; try done. lia.
Qed.

Lemma grow_ok a b : ext_ok a → ext_ok b → are_contiguous a b = true →
  ext_ok (grow a (Extent.length b)) ∧
  Extent.length (grow a (Extent.length b)) = Extent.length a + Extent.length b.
Proof.
  intros (Ha1 & Ha2 & Ha3) (Hb1 & Hb2 & Hb3) (Hu & Hl & _)%are_contiguous_inv.
  pose proof (max_extent_len_range (Extent.uninitialized a)).
  assert (E : as_u16 (Extent.length a + Extent.length b) = Extent.length a + Extent.length b)
    by (unfold as_u16; apply Z.mod_small; lia).
  unfold ext_ok, grow; simpl. rewrite E. lia.
Qed.

Lemma merge_pair_spec lo hi a b exts :
  leaf_ok lo hi (a :: b :: exts) → are_contiguous a b = true →
  leaf_ok lo hi (grow a (Extent.length b) :: exts) ∧
  ∀ l, blockmap (grow a (Extent.length b) :: exts) l = blockmap (a :: b :: exts) l.
Proof.
  intros [(H1 & H2 & H3 & H4 & H5) Hok] Hc. apply Forall_cons in Hok as [Ha Hok].
  apply Forall_cons in Hok as [Hb Hok]. destruct (grow_ok a b Ha Hb Hc) as [Hg Hgl].
  pose proof (are_contiguous_inv a b Hc) as (Hu & _ & Hlog & Hphys). split.
  - split; [|by constructor]. simpl. simpl in Hgl. rewrite Hgl.
    split_and!; [done|lia|].
    by replace (Extent.logical_block a + (Extent.length a + Extent.length b))
      with (Extent.logical_block b + Extent.length b) by lia.
  - intros l. rewrite !blockmap_cons, grow_contains by done.
    destruct (Extent.contains a l) eqn:Ea; simpl; [done|].
    destruct (Extent.contains b l) eqn:Eb; [|done].
    unfold Extent.map, grow; simpl. rewrite Hu. do 2 f_equal. lia.
Qed.

Lemma exts_in_app_inv lo hi e1 e2 : exts_in lo hi (e1 ++ e2) →
  ∃ mid, exts_in lo mid e1 ∧ exts_in mid hi e2.
Proof.
  revert lo. induction e1 as [|e e1 IH]; intros lo; simpl.
  - intros H. exists lo. split; [lia|done].
  - intros (H1 & H2 & H3). destruct (IH _ H3) as (mid & ? & ?). exists mid. done.
Qed.

Lemma merge_at_spec lo hi i exts :
  leaf_ok lo hi exts →
  leaf_ok lo hi (merge_at i exts) ∧ ∀ l, blockmap (merge_at i exts) l = blockmap exts l.
Proof.
  intros Hok. unfold merge_at.
  destruct (exts !! i) as [a|] eqn:Ea; [|done]. destruct (exts !! S i) as [b|] eqn:Eb; [|done].
  destruct (are_contiguous a b) eqn:Hc; [|done].
  assert (E : exts = take i exts ++ a :: b :: drop (S (S i)) exts).
  { rewrite <-(take_drop i exts) at 1. f_equal. rewrite (drop_S _ _ _ Ea). f_equal.
    by rewrite (drop_S _ _ _ Eb). }
  set (l1 := take i exts) in *. set (l2 := drop (S (S i)) exts) in *. clearbody l1 l2. subst exts.
  destruct Hok as [Hin Hall]. apply exts_in_app_inv in Hin as (mid & Hin1 & Hin2).
  apply Forall_app in Hall as [Hall1 Hall2].
  destruct (merge_pair_spec mid hi a b l2 (conj Hin2 Hall2) Hc) as [[Hin' Hall'] Hmap].
  split.
  - split; [by eapply exts_in_app|by apply Forall_app].
  - intros l. by rewrite !blockmap_app, Hmap.
Qed.

(** ** Sorted insertion *)

Fixpoint sorted_insert (new : Extent.t) (exts : list Extent.t) : list Extent.t :=
  match exts with
  | [] => [new]
  | e :: exts => if starts_after new e then new :: e :: exts else e :: sorted_insert new exts
  end.

Lemma insert_at_position new exts :
  insert_at (position_or (starts_after new) (length exts) exts) new exts = sorted_insert new exts.
Proof.
  unfold insert_at, position_or. induction exts as [|e exts IH]; simpl; [done|].
  case_decide as Hs.
  - simpl. by destruct (starts_after new e).
  - destruct (starts_after new e); [done|].
    destruct (list_find _ exts) as [[n x]|]; simpl in *; by f_equal.
Qed.

Lemma overlaps_false new e : ext_ok new → ext_ok e → overlaps new e = false ↔
  Extent.logical_block new + Extent.length new ≤ Extent.logical_block e ∨
  Extent.logical_block e + Extent.length e ≤ Extent.logical_block new.
Proof.
  intros _ _. unfold overlaps. rewrite negb_false_iff, orb_true_iff, !bool_decide_eq_true. done.
Qed.

Lemma sorted_insert_spec lo hi new exts :
  leaf_ok lo hi exts → ext_ok new → existsb (overlaps new) exts = false →
  lo ≤ Extent.logical_block new → Extent.logical_block new + Extent.length new ≤ hi →
  leaf_ok lo hi (sorted_insert new exts) ∧
  ∀ l, blockmap (sorted_insert new exts) l =
    if Extent.contains new l then Some (Extent.map new l, Extent.uninitialized new)
    else blockmap exts l.
Proof.
  intros [Hin Hall] Hnew. revert lo Hin. induction Hall as [|e exts He Hall IH]; intros lo Hin Hov Hlo Hhi.
  { simpl. split; [|intros l; apply blockmap_cons].
    split; [|by constructor]. destruct Hnew as (? & ? & ?). simpl. lia. }
  simpl in Hov. apply orb_false_iff in Hov as [Hov1 Hov2].
  apply overlaps_false in Hov1; [|done|done]. destruct Hin as (H1 & H2 & H3). simpl.
  pose proof Hnew as (? & ? & ?). pose proof He as (? & ? & ?).
  unfold starts_after. case_bool_decide as Hs.
  - split; [|intros l; apply blockmap_cons]. split; [|by constructor; [|constructor]]. simpl.
    split_and!; try done; lia.
  - destruct (IH _ H3 Hov2 ltac:(lia) Hhi) as [[Hin' Hall'] Hmap]. split.
    + split; [|by constructor]. simpl. done.
    + intros l. rewrite !blockmap_cons, Hmap. destruct (Extent.contains e l) eqn:Ec; [|done].
      apply contains_true in Ec. destruct (Extent.contains new l) eqn:En; [|done].
      apply contains_true in En. lia.
Qed.

(** The effect of [insert_into_leaf_sorted]: the sorted list of the old extents
    and the new one, up to merging. *)
Lemma insert_into_leaf_sorted_spec lo hi new exts :
  leaf_ok lo hi exts → ext_ok new → existsb (overlaps new) exts = false →
  lo ≤ Extent.logical_block new → Extent.logical_block new + Extent.length new ≤ hi →
  leaf_ok lo hi (insert_into_leaf_sorted exts new) ∧
  ∀ l, blockmap (insert_into_leaf_sorted exts new) l =
    if Extent.contains new l then Some (Extent.map new l, Extent.uninitialized new)
    else blockmap exts l.
Proof.
  intros Hok Hnew Hov Hlo Hhi. unfold insert_into_leaf_sorted. rewrite insert_at_position.
  destruct (sorted_insert_spec lo hi new exts Hok Hnew Hov Hlo Hhi) as [Hok1 Hm1].
  set (s := match position_or _ _ _ with O => _ | S p => _ end).
  assert (Hs : leaf_ok lo hi s ∧ ∀ l, blockmap s l = blockmap (sorted_insert new exts) l).
  { unfold s. destruct (position_or _ _ _); [done|]. by apply merge_at_spec. }
  destruct Hs as [Hok2 Hm2].
  destruct (merge_at_spec lo hi (position_or (holds_start new) (pred (length s)) s) s Hok2) as [Hok3 Hm3].
  split; [done|]. intros l. by rewrite Hm3, Hm2, Hm1.
Qed.

(** ** Codec round trips *)

Lemma split_join_phys b : 0 ≤ b < 2 ^ 48 →
  join32 (fst (split_phys_block b)) (snd (split_phys_block b)) = b ∧
  0 ≤ fst (split_phys_block b) < 2 ^ 16 ∧ 0 ≤ snd (split_phys_block b) < 2 ^ 32.
Proof.
  intros Hb. unfold split_phys_block; simpl fst; simpl snd.
  rewrite (land_ones_mod _ 16), (land_ones_mod _ 32), Z.shiftr_div_pow2 by lia.
  pose proof (Z.mod_pos_bound b (2 ^ 32) ltac:(lia)).
  assert (0 ≤ b / 2 ^ 32 < 2 ^ 16).
  { split; [apply Z.div_pos; lia|apply Z.div_lt_upper_bound; lia]. }
  rewrite (Z.mod_small (b / 2 ^ 32)) by lia. rewrite join32_eq by lia.
  split; [|lia]. pose proof (Z.div_mod b (2 ^ 32) ltac:(lia)). lia.
Qed.

Lemma zlen_encode_extent e : zlen (encode_extent e) = 12.
Proof. unfold encode_extent, EXT4_EXT_NODE_SIZE. destruct (split_phys_block _). zl. Qed.
Lemma zlen_encode_index l c : zlen (encode_index l c) = 12.
Proof. unfold encode_index, EXT4_EXT_NODE_SIZE. destruct (split_phys_block _). zl. Qed.

Lemma parse_encode_extent e : ext_ok e → Extent.parse (encode_extent e) = Ok e.
Proof.
  intros (Hl & Hlen & Hp). unfold Extent.parse. rewrite zlen_encode_extent.
  unfold EXT4_EXT_NODE_SIZE. rewrite decide_False by lia.
  rewrite u32_le_ok, u16_le_ok, u16_le_ok, u32_le_ok by (rewrite ?zlen_encode_extent; lia).
  rewrite !bind_Ok. pose proof (max_extent_len_range (Extent.uninitialized e)).
  destruct (split_join_phys _ Hp) as (Hj & Hhi & Hlo). unfold encode_extent, EXT4_EXT_NODE_SIZE.
  destruct (split_phys_block (Extent.physical_block e)) as [hi lo]; simpl fst in *; simpl snd in *.
  set (ee := if Extent.uninitialized e then _ else _).
  assert (Hee : ee = if Extent.uninitialized e then Extent.length e + EXT_INIT_MAX_LEN
                     else Extent.length e).
  { unfold ee, as_u16, EXT_INIT_MAX_LEN. destruct (Extent.uninitialized e); [|done].
    unfold max_extent_len, EXT_INIT_MAX_LEN in Hlen. apply Z.mod_small. lia. }
  assert (0 ≤ ee < 2 ^ 16).
  { rewrite Hee. unfold max_extent_len, EXT_INIT_MAX_LEN in *.
    destruct (Extent.uninitialized e); lia. }
  rewrite (le32_splice_ne _ 8 _ 0), (le32_splice_ne _ 6 _ 0), (le32_splice_ne _ 4 _ 0) by zl.
  rewrite le32_splice by (first [zl|lia]).
  rewrite (le16_splice_ne _ 8 _ 4), (le16_splice_ne _ 6 _ 4) by zl.
  rewrite le16_splice by (first [zl|lia]).
  rewrite (le16_splice_ne _ 8 _ 6) by zl. rewrite le16_splice by (first [zl|lia]).
  rewrite le32_splice by (first [zl|lia]). rewrite Hj, Hee.
  unfold max_extent_len, EXT_INIT_MAX_LEN in *. destruct e as [lb len pb []]; simpl in *.
  - rewrite decide_True by lia. do 2 f_equal. lia.
  - by rewrite decide_False by lia.
Qed.

Lemma parse_encode_index l c : 0 ≤ l < 2 ^ 32 → 0 ≤ c < 2 ^ 48 →
  ExtentIdx.parse (encode_index l c) = Ok (ExtentIdx.mk l c).
Proof.
  intros Hl Hc. unfold ExtentIdx.parse. rewrite zlen_encode_index.
  unfold EXT4_EXT_NODE_SIZE. rewrite decide_False by lia.
  rewrite u32_le_ok, u32_le_ok, u16_le_ok by (rewrite ?zlen_encode_index; lia). rewrite !bind_Ok.
  destruct (split_join_phys _ Hc) as (Hj & Hhi & Hlo). unfold encode_index, EXT4_EXT_NODE_SIZE.
  destruct (split_phys_block c) as [hi lo]; simpl fst in *; simpl snd in *.
  rewrite (le32_splice_ne _ 8 _ 0), (le32_splice_ne _ 4 _ 0) by zl.
  rewrite le32_splice by (first [zl|lia]).
  rewrite (le32_splice_ne _ 8 _ 4) by zl. rewrite le32_splice by (first [zl|lia]).
  rewrite le16_splice by (first [zl|lia]). by rewrite Hj.
Qed.

(** [put_entries] writes its entries one after the other and nothing else. *)
Lemma put_entries_spec enc out i :
  Forall (λ e, zlen e = 12) enc → 0 ≤ i →
  extent_entry_offset (i + zlen enc) ≤ zlen out →
  ∃ out', put_entries out i enc = Ok out' ∧ zlen out' = zlen out ∧
    (bytes_ok out → Forall bytes_ok enc → bytes_ok out') ∧
    (∀ o n, 0 ≤ o → o + n ≤ extent_entry_offset i → sub out' o n = sub out o n) ∧
    (∀ k e, enc !! k = Some e → sub out' (extent_entry_offset (i + Z.of_nat k)) 12 = e).
Proof.
  intros Hall. revert out i. induction Hall as [|e enc He Hall IH]; intros out i Hi Hfit; simpl.
  { exists out. split_and!; try done. }
  unfold extent_entry_offset, EXT4_EXT_NODE_SIZE in *. rewrite zlen_cons in Hfit.
  pose proof (zlen_nonneg enc). rewrite put_ok by lia. rewrite bind_Ok.
  destruct (IH (splice out (12 * (1 + i)) e) (i + 1)) as (out' & E & Hl & Hb & Hpre & Hent);
    [lia|rewrite zlen_splice; lia|].
  rewrite zlen_splice in Hl by lia. exists out'. rewrite E. split; [done|]. split; [done|].
  split; [|split].
  - intros Ho He'. apply Forall_cons in He' as [? ?]. apply Hb; auto with ext4.
  - intros o n Ho Hn. rewrite Hpre by lia. by rewrite sub_splice_disjoint by lia.
  - intros [|k] e' Hk; simpl in Hk.
    + injection Hk as <-. rewrite Z.add_0_r, Hpre by lia. by rewrite sub_splice_same_len by lia.
    + rewrite <-(Hent k e' Hk). f_equal. lia.
Qed.

Record node_spec (out : bytes) (len entries max depth gen : Z) (enc : list bytes) : Prop := {
  node_len : zlen out = len;
  node_bytes : Forall bytes_ok enc → bytes_ok out;
  node_header : entries ≤ max → ExtentHeader.parse out =
    Ok (ExtentHeader.mk EXT4_EXT_MAGIC entries max depth gen);
  node_entry k e : enc !! k = Some e → sub out (extent_entry_offset (Z.of_nat k)) 12 = e;
}.

Lemma build_node_spec len entries max depth gen enc :
  Forall (λ e, zlen e = 12) enc → extent_entry_offset (zlen enc) ≤ len →
  0 ≤ entries < 2 ^ 16 → 0 ≤ max < 2 ^ 16 → 0 ≤ depth < 2 ^ 16 → 0 ≤ gen < 2 ^ 32 →
  ∃ out, build_node len entries max depth gen enc = Ok out ∧
    node_spec out len entries max depth gen enc.
Proof.
  intros Henc Hfit H1 H2 H3 H4. unfold build_node.
  unfold HDR_MAGIC_OFF, HDR_ENTRIES_OFF, HDR_MAX_OFF, HDR_DEPTH_OFF, HDR_GEN_OFF.
  unfold extent_entry_offset, EXT4_EXT_NODE_SIZE in Hfit. pose proof (zlen_nonneg enc).
  do 5 (rewrite put_ok by zl; rewrite bind_Ok).
  set (h := splice _ 8 _). assert (Hh : zlen h = len) by (unfold h; zl).
  destruct (put_entries_spec enc h 0 Henc ltac:(lia)) as (out & E & Hl & Hb & Hpre & Hent).
  { unfold extent_entry_offset, EXT4_EXT_NODE_SIZE. lia. }
  exists out. split; [done|]. rewrite Hh in Hl. split; [done| | |].
  - intros. apply Hb; [|done]. unfold h.
    repeat (apply bytes_ok_splice; [|apply bytes_ok_le_split]). apply bytes_ok_zrep. lia.
  - intros Hmax. unfold ExtentHeader.parse, EXT4_EXT_NODE_SIZE. rewrite decide_False by lia.
    assert (Hp16 : ∀ o, 0 ≤ o ≤ 10 → le16 out o = le16 h o).
    { intros o Ho. unfold le16. rewrite Hpre; [done|lia|].
      unfold extent_entry_offset, EXT4_EXT_NODE_SIZE. lia. }
    assert (Hp32 : le32 out 8 = le32 h 8).
    { unfold le32. rewrite Hpre; [done|lia|]. unfold extent_entry_offset, EXT4_EXT_NODE_SIZE. lia. }
    rewrite !u16_le_ok, u32_le_ok by lia. rewrite !bind_Ok, !Hp16, Hp32 by lia.
    assert (M : le16 h 0 = EXT4_EXT_MAGIC).
    { unfold h. rewrite !le16_splice_ne by zl. rewrite le16_splice by (unfold EXT4_EXT_MAGIC; first [zl|lia]). done. }
    assert (E2 : le16 h 2 = entries).
    { unfold h. rewrite !(le16_splice_ne _ _ _ 2) by zl. rewrite le16_splice by (first [zl|lia]). done. }
    assert (E4 : le16 h 4 = max).
    { unfold h. rewrite !(le16_splice_ne _ _ _ 4) by zl. rewrite le16_splice by (first [zl|lia]). done. }
    assert (E6 : le16 h 6 = depth).
    { unfold h. rewrite !(le16_splice_ne _ _ _ 6) by zl. rewrite le16_splice by (first [zl|lia]). done. }
    assert (E8 : le32 h 8 = gen) by (unfold h; rewrite le32_splice by (first [zl|lia]); done).
    rewrite M, E2, E4, E6, E8. rewrite decide_False by auto. by rewrite decide_False by lia.
  - intros k e Hk. apply (Hent k e Hk).
Qed.

Lemma node_leaf_entries out len max depth gen exts :
  node_spec out len (zlen exts) max depth gen (encode_extent <$> exts) →
  extent_entry_offset (zlen exts) ≤ len → Forall ext_ok exts →
  traverse (leaf_entry out) (seqZ 0 (zlen exts)) = Ok exts.
Proof.
  intros Hn Hfit Hok. apply traverse_seqZ. intros k e Hk. rewrite Z.add_0_l.
  pose proof (lookup_lt_zlen _ _ _ Hk) as Hlt.
  unfold leaf_entry, entry_off, extent_entry_offset, EXT4_EXT_NODE_SIZE in *.
  rewrite (node_len _ _ _ _ _ _ _ Hn), decide_False by lia.
  rewrite slice_ok by (rewrite ?(node_len _ _ _ _ _ _ _ Hn); lia). rewrite bind_Ok.
  pose proof (node_entry _ _ _ _ _ _ _ Hn k (encode_extent e)) as He.
  unfold extent_entry_offset, EXT4_EXT_NODE_SIZE in He. rewrite He.
  - apply parse_encode_extent. by eapply Forall_lookup_1.
  - by rewrite list_lookup_fmap, Hk.
Qed.

Lemma node_index_entries out len max depth gen (idxs : list (Z * Z)) :
  node_spec out len (zlen idxs) max depth gen ((λ p, encode_index (fst p) (snd p)) <$> idxs) →
  extent_entry_offset (zlen idxs) ≤ len →
  Forall (λ p, 0 ≤ fst p < 2 ^ 32 ∧ 0 ≤ snd p < 2 ^ 48) idxs →
  traverse (index_entry out) (seqZ 0 (zlen idxs)) =
    Ok ((λ p, ExtentIdx.mk (fst p) (snd p)) <$> idxs).
Proof.
  intros Hn Hfit Hok.
  replace (zlen idxs) with (zlen ((λ p, ExtentIdx.mk (fst p) (snd p)) <$> idxs)) by zl.
  apply traverse_seqZ. intros k i Hk. rewrite Z.add_0_l.
  rewrite list_lookup_fmap in Hk. destruct (idxs !! k) as [p|] eqn:Ep; [|done].
  injection Hk as <-. pose proof (lookup_lt_zlen _ _ _ Ep) as Hlt.
  unfold index_entry, entry_off, extent_entry_offset, EXT4_EXT_NODE_SIZE in *.
  rewrite (node_len _ _ _ _ _ _ _ Hn), decide_False by lia.
  rewrite slice_ok by (rewrite ?(node_len _ _ _ _ _ _ _ Hn); lia). rewrite bind_Ok.
  pose proof (node_entry _ _ _ _ _ _ _ Hn k (encode_index (fst p) (snd p))) as He.
  unfold extent_entry_offset, EXT4_EXT_NODE_SIZE in He. rewrite He.
  - pose proof (Forall_lookup_1 _ _ _ _ Hok Ep) as [? ?]. by apply parse_encode_index.
  - by rewrite list_lookup_fmap, Ep.
Qed.

Lemma encoded_len exts : Forall (λ e, zlen e = 12) (encode_extent <$> exts).
Proof. apply Forall_fmap, Forall_true. intros. apply zlen_encode_extent. Qed.
Lemma encoded_index_len (idxs : list (Z * Z)) :
  Forall (λ e, zlen e = 12) ((λ p, encode_index (fst p) (snd p)) <$> idxs).
Proof. apply Forall_fmap, Forall_true. intros. apply zlen_encode_index. Qed.

Lemma encoded_bytes_ok exts : Forall bytes_ok (encode_extent <$> exts).
Proof.
  apply Forall_fmap, Forall_true. intros e. unfold compose, encode_extent, EXT4_EXT_NODE_SIZE.
  destruct (split_phys_block _).
  repeat (apply bytes_ok_splice; [|apply bytes_ok_le_split]). apply bytes_ok_zrep. lia.
Qed.

(** What a parsed header's fields range over. *)
Lemma header_parse_inv raw h : bytes_ok raw → ExtentHeader.parse raw = Ok h →
  ExtentHeader.magic h = EXT4_EXT_MAGIC ∧ 0 ≤ ExtentHeader.entries h ≤ ExtentHeader.max h ∧
  ExtentHeader.max h < 2 ^ 16 ∧ 0 ≤ ExtentHeader.depth h < 2 ^ 16 ∧
  0 ≤ ExtentHeader.generation h < 2 ^ 32 ∧ 12 ≤ zlen raw.
Proof.
  intros Hb. unfold ExtentHeader.parse, EXT4_EXT_NODE_SIZE. case_decide; [done|]. io.
  case_decide as Hm; [done|]. case_decide; [done|]. intros [= <-]; simpl.
  pose proof (le16_range raw 0 Hb). pose proof (le16_range raw 2 Hb). pose proof (le16_range raw 4 Hb).
  pose proof (le16_range raw 6 Hb). pose proof (le32_range raw 8 Hb).
  split; [done|]. lia.
Qed.

(** A root that reads back as [entries], with room for [max] of them. *)
Definition root_ok (root : bytes) (h : ExtentHeader.t) (entries : list Extent.t) : Prop :=
  bytes_ok root ∧ zlen root ≤ 65536 ∧ read_leaf_entries root = Ok (h, entries) ∧
  extent_entry_offset (ExtentHeader.max h) ≤ zlen root ∧ leaf_ok 0 (2 ^ 32) entries.

Lemma root_ok_inv root h entries : root_ok root h entries →
  ExtentHeader.magic h = EXT4_EXT_MAGIC ∧ ExtentHeader.depth h = 0 ∧
  zlen entries = ExtentHeader.entries h ∧ zlen entries ≤ ExtentHeader.max h < 2 ^ 16 - 1 ∧
  0 ≤ ExtentHeader.generation h < 2 ^ 32.
Proof.
  intros (Hb & Hl & Hr & Hfit & _). unfold read_leaf_entries in Hr.
  apply bind_ok_inv in Hr as (h' & Hh & Hr). unfold ExtentHeader.is_leaf in Hr.
  destruct (negb _) eqn:En in Hr; [done|]. apply bind_ok_inv in Hr as (es & He & [= -> ->]).
  destruct (header_parse_inv _ _ Hb Hh) as (? & ? & ? & ? & ? & ?).
  apply negb_false_iff, bool_decide_eq_true in En.
  apply traverse_ok_inv, Forall2_length in He.
  assert (zlen entries = ExtentHeader.entries h).
  { unfold zlen. rewrite <-He, length_seqZ. lia. }
  unfold extent_entry_offset, EXT4_EXT_NODE_SIZE in Hfit. split_and!; try done; lia.
Qed.

(** Writing a list of extents back to a root it fits in. *)
Lemma build_root_ok root h entries exts :
  root_ok root h entries → leaf_ok 0 (2 ^ 32) exts → zlen exts ≤ ExtentHeader.max h →
  ∃ root', build_root h exts (zlen root) = Ok root' ∧ zlen root' = zlen root ∧
    root_ok root' (ExtentHeader.mk EXT4_EXT_MAGIC (zlen exts) (ExtentHeader.max h) 0
                     (ExtentHeader.generation h)) exts.
Proof.
  intros Hr Hexts Hmax. destruct (root_ok_inv _ _ _ Hr) as (Hmag & Hd & Hn & Hm & Hg).
  destruct Hr as (Hb & Hl & _ & Hfit & _). pose proof (zlen_nonneg exts).
  unfold extent_entry_offset, EXT4_EXT_NODE_SIZE in Hfit.
  unfold build_root, as_u16. rewrite Z.mod_small, Hd by lia.
  destruct (build_node_spec (zlen root) (zlen exts) (ExtentHeader.max h) 0 (ExtentHeader.generation h)
    (encode_extent <$> exts)) as (out & E & Hs); try lia.
  { apply encoded_len. } { unfold extent_entry_offset, EXT4_EXT_NODE_SIZE. zl. }
  exists out. rewrite E. split; [done|]. pose proof (node_len _ _ _ _ _ _ _ Hs) as Hlen.
  split; [done|]. unfold root_ok. rewrite Hlen.
  split; [apply (node_bytes _ _ _ _ _ _ _ Hs), encoded_bytes_ok|]. split; [done|].
  split; [|split; [unfold extent_entry_offset, EXT4_EXT_NODE_SIZE; simpl; lia|done]].
  unfold read_leaf_entries. rewrite (node_header _ _ _ _ _ _ _ Hs) by lia. rewrite bind_Ok.
  change (negb (ExtentHeader.is_leaf _)) with false. cbv beta iota.
  unfold parse_leaf_entries. simpl ExtentHeader.entries.
  rewrite (node_leaf_entries _ _ _ _ _ _ Hs); [done| |apply Hexts].
  unfold extent_entry_offset, EXT4_EXT_NODE_SIZE. lia.
Qed.

Lemma length_merge_at i exts : (length (merge_at i exts) ≤ length exts)%nat.
Proof.
  unfold merge_at. destruct (exts !! i) eqn:E1; [|done]. destruct (exts !! S i) eqn:E2; [|done].
  destruct (are_contiguous _ _); [|done]. apply lookup_lt_Some in E1, E2.
  rewrite length_app, length_take. simpl. rewrite length_drop. lia.
Qed.

Lemma length_sorted_insert new exts : length (sorted_insert new exts) = S (length exts).
Proof. induction exts as [|e exts IH]; simpl; [done|]. destruct (starts_after new e); simpl; lia. Qed.

Lemma zlen_insert_into_leaf_sorted new exts :
  zlen (insert_into_leaf_sorted exts new) ≤ zlen exts + 1.
Proof.
  unfold insert_into_leaf_sorted, zlen. rewrite insert_at_position.
  set (s := match position_or _ _ _ with O => _ | S p => _ end).
  assert (length s ≤ S (length exts))%nat.
  { unfold s. rewrite <-(length_sorted_insert new exts).
    destruct (position_or _ _ _); [done|]. apply length_merge_at. }
  pose proof (length_merge_at (position_or (holds_start new) (pred (length s)) s) s). lia.
Qed.

(** ** Splitting, freeing and initialising *)

Lemma split_pair_spec lo hi e at_ exts :
  leaf_ok lo hi (e :: exts) →
  Extent.logical_block e < at_ < Extent.logical_block e + Extent.length e →
  let left := Extent.mk (Extent.logical_block e) (at_ - Extent.logical_block e)
                (Extent.physical_block e) (Extent.uninitialized e) in
  let right := Extent.mk at_ (Extent.logical_block e + Extent.length e - at_)
                 (Extent.physical_block e + (at_ - Extent.logical_block e)) (Extent.uninitialized e) in
  at_ < 2 ^ 32 → Extent.physical_block e + Extent.length e ≤ 2 ^ 48 →
  leaf_ok lo hi (left :: right :: exts) ∧
  ∀ l, blockmap (left :: right :: exts) l = blockmap (e :: exts) l.
Proof.
  intros [(H1 & H2 & H3) Hall] Hat left right Hat32 Hp. apply Forall_cons in Hall as [He Hall].
  pose proof He as (He1 & He2 & He3). split.
  - split.
    + simpl. split_and!; try done; try lia.
      by replace (at_ + (Extent.logical_block e + Extent.length e - at_))
        with (Extent.logical_block e + Extent.length e) by lia.
    + repeat (apply Forall_cons; split); [| |done]; unfold ext_ok; simpl; lia.
  - intros l. rewrite !blockmap_cons. unfold Extent.contains, Extent.map; simpl.
    destruct (decide (Extent.logical_block e ≤ l < Extent.logical_block e + Extent.length e)) as [Hin|Hin].
    + rewrite (bool_decide_true (Extent.logical_block e ≤ l)) by lia.
      rewrite (bool_decide_true (l < Extent.logical_block e + Extent.length e)) by lia.
      destruct (decide (l < at_)).
      * rewrite bool_decide_true by lia. done.
      * rewrite bool_decide_false by lia. simpl. rewrite !bool_decide_true by lia. simpl.
        do 2 f_equal. lia.
    + replace (bool_decide (Extent.logical_block e ≤ l) &&
        bool_decide (l < Extent.logical_block e + Extent.length e)) with false
        by (symmetry; apply andb_false_iff; rewrite !bool_decide_eq_false; lia).
      replace (bool_decide (Extent.logical_block e ≤ l) && _) with false
        by (symmetry; apply andb_false_iff; rewrite !bool_decide_eq_false; lia).
      replace (bool_decide (at_ ≤ l) && _) with false
        by (symmetry; apply andb_false_iff; rewrite !bool_decide_eq_false; lia). done.
Qed.

(** The three parts of a list around position [i]. *)
Lemma leaf_ok_split lo hi exts i e :
  leaf_ok lo hi exts → exts !! i = Some e →
  ∃ mid, exts = take i exts ++ e :: drop (S i) exts ∧
    leaf_ok lo mid (take i exts) ∧ leaf_ok mid hi (e :: drop (S i) exts).
Proof.
  intros [Hin Hall] He.
  assert (E : exts = take i exts ++ e :: drop (S i) exts)
    by (by rewrite <-(drop_S _ _ _ He), take_drop).
  rewrite E in Hin. apply exts_in_app_inv in Hin as (mid & H1 & H2).
  exists mid. split; [done|]. split; (split; [done|]).
  - by apply Forall_take.
  - rewrite <-(drop_S _ _ _ He). by apply Forall_drop.
Qed.

Lemma leaf_ok_app lo mid hi e1 e2 :
  leaf_ok lo mid e1 → leaf_ok mid hi e2 → leaf_ok lo hi (e1 ++ e2).
Proof. intros [? ?] [? ?]. split; [by eapply exts_in_app|by apply Forall_app]. Qed.

Lemma leaf_ok_le lo lo' hi exts : lo ≤ lo' → leaf_ok lo' hi exts → leaf_ok lo hi exts.
Proof.
  intros H [Hin Hall]. split; [|done]. destruct exts as [|e exts]; simpl in *; [lia|].
  destruct Hin as (? & ? & ?). split_and!; try done; lia.
Qed.

(** The stretch [a, b) of [e], in state [u], and its block map. *)
Definition piece_of (e : Extent.t) (a b : Z) (u : bool) : Extent.t :=
  Extent.mk a (b - a) (Extent.physical_block e + (a - Extent.logical_block e)) u.

Lemma blockmap_piece e a b u l : a < b →
  blockmap [piece_of e a b u] l =
  if bool_decide (a ≤ l < b) then Some (Extent.map e l, u) else None.
Proof.
  intros Hab. rewrite blockmap_cons. change (blockmap [] l) with (None (A := Z * bool)).
  unfold piece_of, Extent.contains, Extent.map; simpl.
  replace (a + (b - a)) with b by lia. rewrite <-bool_decide_and.
  case_bool_decide; [|done]. do 2 f_equal. lia.
Qed.

Lemma blockmap_pieces e el er lo hi l : el ≤ lo → lo < hi → hi ≤ er →
  blockmap ((if decide (el < lo) then [piece_of e el lo true] else []) ++ [piece_of e lo hi false] ++
            (if decide (hi < er) then [piece_of e hi er true] else [])) l =
  if bool_decide (el ≤ l < er) then Some (Extent.map e l, negb (bool_decide (lo ≤ l < hi))) else None.
Proof.
  intros H1 H2 H3. rewrite !blockmap_app, blockmap_piece by done.
  replace (blockmap (if decide (el < lo) then _ else _) l)
    with (if bool_decide (el ≤ l < lo) then Some (Extent.map e l, true) else None)
    by (case_decide; [by rewrite blockmap_piece|by rewrite bool_decide_false by lia]).
  replace (blockmap (if decide (hi < er) then _ else _) l)
    with (if bool_decide (hi ≤ l < er) then Some (Extent.map e l, true) else None)
    by (case_decide; [by rewrite blockmap_piece|by rewrite bool_decide_false by lia]).
  repeat case_bool_decide; try done; lia.
Qed.

Lemma leaf_ok_pieces e lo hi :
  ext_ok e → Extent.uninitialized e = true → Extent.physical_block e + Extent.length e ≤ 2 ^ 48 →
  let el := Extent.logical_block e in let er := el + Extent.length e in
  el ≤ lo → lo < hi → hi ≤ er → er < 2 ^ 32 →
  leaf_ok el er ((if decide (el < lo) then [piece_of e el lo true] else []) ++ [piece_of e lo hi false] ++
            (if decide (hi < er) then [piece_of e hi er true] else [])).
Proof.
  intros (H1 & H2 & H3) Hu Hp el er ????. rewrite Hu in H2.
  unfold max_extent_len, EXT_INIT_MAX_LEN in H2. split.
  - do 2 case_decide; simpl; fold el; split_and?; lia.
  - do 2 case_decide; repeat (apply Forall_cons; split); try (by constructor);
      unfold ext_ok, max_extent_len, EXT_INIT_MAX_LEN, piece_of; simpl; fold el; lia.
Qed.

(** Each piece of [initialize_one] maps like the extent, except that the blocks
    it reports become initialised. *)
Lemma initialize_one_spec first stop e :
  ext_ok e → Extent.logical_block e + Extent.length e < 2 ^ 32 →
  Extent.physical_block e + Extent.length e ≤ 2 ^ 48 → 0 ≤ first < stop →
  leaf_ok (Extent.logical_block e) (Extent.logical_block e + Extent.length e)
    (fst (initialize_one first stop e)) ∧
  (∀ l, blockmap (fst (initialize_one first stop e)) l = match blockmap [e] l with
     | Some (p, u) => Some (p, u && negb (bool_decide (first ≤ l < stop))) | None => None end) ∧
  (∀ l, l ∈ snd (initialize_one first stop e) ↔
     (∃ p, blockmap [e] l = Some (p, true)) ∧ first ≤ l < stop).
Proof.
  intros He H32 H48 Hf. pose proof He as (H1 & H2 & H3). unfold initialize_one, as_u32.
  rewrite Z.mod_small by lia. set (el := Extent.logical_block e) in *.
  set (er := el + Extent.length e) in *. pose proof (max_extent_len_range (Extent.uninitialized e)).
  assert (Hb : ∀ l, blockmap [e] l = if bool_decide (el ≤ l < er)
    then Some (Extent.map e l, Extent.uninitialized e) else None).
  { intros l. rewrite blockmap_cons. unfold Extent.contains. by rewrite <-bool_decide_and. }
  destruct (decide (_ ∨ _)) as [Hskip|Hskip]; simpl fst; simpl snd.
  - split; [split; [simpl; lia|by constructor]|]. setoid_rewrite Hb.
    split; [intros l|intros l; split; [by intros ?%not_elem_of_nil|]].
    + case_bool_decide; [|done]. destruct (Extent.uninitialized e); [|done].
      rewrite bool_decide_false; [done|]. destruct Hskip as [|[|]]; [done|lia|lia].
    + case_bool_decide; intros [[? [=]] ?]. destruct Hskip as [|[|]]; [congruence|lia|lia].
  - assert (Hu : Extent.uninitialized e = true) by (destruct (Extent.uninitialized e); tauto).
    assert (Hcut : first < er ∧ el < stop) by lia. clear Hskip.
    set (lo := Z.max el first). set (hi := Z.min er stop).
    assert (el ≤ lo < hi ∧ hi ≤ er) by (unfold lo, hi; lia). unfold as_u16.
    rewrite (Z.mod_small (lo - el)), (Z.mod_small (hi - lo)), (Z.mod_small (er - hi)) by lia.
    split; [apply leaf_ok_pieces; try done; lia|]. setoid_rewrite Hb. rewrite Hu. split.
    + intros l. etrans; [apply (blockmap_pieces e el er lo hi); lia|].
      case_bool_decide; [|done]. simpl. do 3 f_equal. apply bool_decide_ext. lia.
    + intros l. rewrite elem_of_seqZ. case_bool_decide; split.
      * intros. split; [by eexists|lia].
      * lia.
      * lia.
      * by intros [[? ?] ?].
Qed.

(** [push_merged] is [merge_at] at the end of the list. *)
Lemma push_merged_merge_at m e : push_merged m e = merge_at (pred (length m)) (m ++ [e]).
Proof.
  unfold push_merged. destruct (last m) as [prev|] eqn:Hlast.
  - apply last_Some in Hlast as [m' ->]. rewrite length_app; simpl.
    replace (pred (length m' + 1)) with (length m') by lia. unfold merge_at.
    rewrite <-app_assoc; simpl app. rewrite list_lookup_middle by done.
    rewrite lookup_app_r by lia. replace (S (length m') - length m')%nat with 1%nat by lia. simpl.
    rewrite take_app_length, take_app_length. rewrite drop_app_ge by lia.
    replace (S (S (length m')) - length m')%nat with 2%nat by lia. done.
  - apply last_None in Hlast as ->. done.
Qed.

Lemma foldl_push_merged_spec lo mid hi m exts :
  leaf_ok lo mid m → leaf_ok mid hi exts →
  leaf_ok lo hi (foldl push_merged m exts) ∧
  ∀ l, blockmap (foldl push_merged m exts) l = blockmap (m ++ exts) l.
Proof.
  revert mid m. induction exts as [|e exts IH]; intros mid m Hm Hexts; simpl.
  { split; [|by intros; rewrite app_nil_r]. rewrite <-(app_nil_r m).
    by eapply leaf_ok_app. }
  rewrite push_merged_merge_at. destruct Hexts as [(H1 & H2 & H3) Hall].
  apply Forall_cons in Hall as [He Hall].
  set (mid' := Extent.logical_block e + Extent.length e) in *.
  assert (Hme : leaf_ok lo mid' (m ++ [e])).
  { eapply leaf_ok_app; [done|]. split; [simpl; split_and!; [done|done|unfold mid'; lia]|by constructor]. }
  destruct (merge_at_spec lo mid' (pred (length m)) _ Hme) as [Hok Hmap].
  destruct (IH mid' _ Hok (conj H3 Hall)) as [Hok' Hmap']. split; [done|].
  intros l. rewrite Hmap', (cons_middle e m exts), (app_assoc m), !(blockmap_app _ exts).
  by rewrite Hmap.
Qed.

Definition phys_ok (e : Extent.t) : Prop := Extent.physical_block e + Extent.length e ≤ 2 ^ 48.

(** The pieces of a whole leaf. *)
Lemma initialize_all_spec first stop lo hi exts :
  leaf_ok lo hi exts → hi < 2 ^ 32 → Forall phys_ok exts → 0 ≤ first < stop →
  let parts := initialize_one first stop <$> exts in
  leaf_ok lo hi (concat (fst <$> parts)) ∧
  (∀ l, blockmap (concat (fst <$> parts)) l = match blockmap exts l with
     | Some (p, u) => Some (p, u && negb (bool_decide (first ≤ l < stop))) | None => None end) ∧
  (∀ l, l ∈ concat (snd <$> parts) ↔ (∃ p, blockmap exts l = Some (p, true)) ∧ first ≤ l < stop).
Proof.
  intros [Hin Hall] Hhi Hp Hf. revert lo Hin.
  induction Hall as [|e exts He Hall IH]; intros lo Hin; simpl.
  { split; [split; [done|constructor]|]. split; [done|]. intros l.
    split; [by intros ?%not_elem_of_nil|by intros [[? [=]] ?]]. }
  destruct Hin as (H1 & H2 & H3). apply Forall_cons in Hp as [Hpe Hp].
  destruct (IH Hp _ H3) as ([Hin' Hall'] & Hmap & Hconv). clear IH.
  destruct (initialize_one_spec first stop e He) as (Hok1 & Hmap1 & Hconv1); try done.
  { apply exts_in_le in H3. lia. }
  split; [|split].
  - eapply leaf_ok_le; [exact H1|]. by eapply leaf_ok_app.
  - intros l. rewrite blockmap_app, Hmap1, Hmap, (blockmap_cons e exts), blockmap_cons.
    by destruct (Extent.contains e l).
  - intros l. rewrite elem_of_app, Hconv1, Hconv, (blockmap_cons e exts), blockmap_cons.
    change (blockmap [] l) with (None (A := Z * bool)).
    destruct (Extent.contains e l) eqn:Ec.
    + assert (blockmap exts l = None) as ->.
      { eapply blockmap_below; [exact H3|]. apply contains_true in Ec. lia. }
      split; [by intros [?|[[? [=]] ?]]|by left].
    + split; [by intros [[[? [=]] ?]|?]|by right].
Qed.

Lemma zlen_initialize_all first stop exts :
  zlen (concat (fst <$> (initialize_one first stop <$> exts))) ≤ 3 * zlen exts.
Proof.
  induction exts as [|e exts IH]; [done|]. rewrite !fmap_cons; cbn [concat]. rewrite zlen_app, zlen_cons.
  enough (zlen (fst (initialize_one first stop e)) ≤ 3) by lia.
  unfold initialize_one, zlen. case_decide; [simpl; lia|]. cbn [fst]. repeat case_decide; simpl; lia.
Qed.

Lemma zlen_foldl_push_merged m exts : zlen (foldl push_merged m exts) ≤ zlen m + zlen exts.
Proof.
  revert m. induction exts as [|e exts IH]; intros m; cbn [foldl]; [change (zlen []) with 0; lia|].
  specialize (IH (push_merged m e)). rewrite zlen_cons.
  enough (zlen (push_merged m e) ≤ zlen m + 1) by lia.
  rewrite push_merged_merge_at. unfold zlen.
  pose proof (length_merge_at (pred (length m)) (m ++ [e])) as Hl. rewrite length_app in Hl. simpl in Hl. lia.
Qed.

(** A range overlaps a leaf exactly when one of its blocks is mapped. *)
Lemma overlaps_mapped new exts :
  ext_ok new → Forall ext_ok exts →
  existsb (overlaps new) exts = true ↔ ∃ l, Extent.contains new l = true ∧ blockmap exts l ≠ None.
Proof.
  intros Hnew Hall. pose proof Hnew as (_ & ? & _). split.
  - intros (e & Hin & Ho)%existsb_exists. exists (Z.max (Extent.logical_block new) (Extent.logical_block e)).
    apply list_elem_of_In in Hin. rewrite Forall_forall in Hall. pose proof (Hall _ Hin) as He.
    pose proof He as (_ & ? & _).
    apply not_false_iff_true in Ho. rewrite overlaps_false in Ho by done.
    split; [apply contains_true; lia|]. unfold blockmap, find_ext.
    destruct (List.find _ exts) eqn:E; [done|].
    apply List.find_none with (x := e) in E; [|by apply list_elem_of_In].
    simpl in E. apply contains_false in E. lia.
  - intros (l & Hl & Hm). unfold blockmap, find_ext in Hm.
    destruct (List.find _ exts) as [e|] eqn:E; [|done]. apply find_some in E as [Hin Hc].
    apply existsb_exists. exists e. split; [done|]. apply not_false_iff_true.
    apply list_elem_of_In in Hin. rewrite Forall_forall in Hall. pose proof (Hall _ Hin) as He.
    rewrite overlaps_false by done. apply contains_true in Hl, Hc. lia.
Qed.

Lemma check_no_overlap_spec new exts :
  ext_ok new → Forall ext_ok exts →
  (check_no_overlap exts new = Ok () ∧ existsb (overlaps new) exts = false ∧
     ∀ l, Extent.contains new l = true → blockmap exts l = None) ∨
  (check_no_overlap exts new = Err (CorruptExtentTree "extent overlaps existing") ∧
     ∃ l, Extent.contains new l = true ∧ blockmap exts l ≠ None).
Proof.
  intros Hnew Hall. pose proof (overlaps_mapped new exts Hnew Hall) as Ho. unfold check_no_overlap.
  destruct (existsb _ _); [right; split; [done|]; exact (proj1 Ho eq_refl)|left]. split; [done|]. split; [done|].
  intros l Hl. destruct (blockmap exts l) eqn:E; [|done].
  enough (false = true) by done. apply (proj2 Ho). exists l. by rewrite E.
Qed.

Lemma insert_at_split {A} (l1 l2 : list A) e a b :
  insert_at (S (length l1)) b (<[length l1 := a]> (l1 ++ e :: l2)) = l1 ++ a :: b :: l2.
Proof.
  unfold insert_at. rewrite insert_app_r_alt, Nat.sub_diag by lia. simpl.
  rewrite (cons_middle a l1 l2), app_assoc.
  replace (S (length l1)) with (length (l1 ++ [a])) by (rewrite length_app; simpl; lia).
  rewrite take_app_length, drop_app_length. by rewrite <-app_assoc.
Qed.

(** [root'] is [root] with its extent list replaced. *)
Definition rewrites (root : bytes) (h : ExtentHeader.t) (root' : bytes) (exts : list Extent.t) : Prop :=
  zlen root' = zlen root ∧
  root_ok root' (ExtentHeader.mk EXT4_EXT_MAGIC (zlen exts) (ExtentHeader.max h) 0
                   (ExtentHeader.generation h)) exts.

Lemma root_ok_leaf root h exts : root_ok root h exts → leaf_ok 0 (2 ^ 32) exts.
Proof. by intros (_ & _ & _ & _ & ?). Qed.
Lemma root_ok_read root h exts : root_ok root h exts → read_leaf_entries root = Ok (h, exts).
Proof. by intros (_ & _ & ? & _). Qed.

Lemma root_ok_count root h entries (exts : list Extent.t) : root_ok root h entries →
  zlen exts ≤ zlen entries + 1 → as_u16 (zlen exts) = zlen exts.
Proof.
  intros Hr Hl. destruct (root_ok_inv _ _ _ Hr) as (_ & _ & _ & ? & _). pose proof (zlen_nonneg exts).
  apply Z.mod_small. lia.
Qed.

(** ** Properties *)

(** Inserting an extent into an inline leaf root (its capacity within the
    node): a range with a mapped block is refused, a list that outgrows the
    root is refused with the error that asks for promotion, and otherwise the
    one planned write is a root of the same size, capacity and generation,
    sorted and well formed, whose block map is the old one with exactly the new
    range added.  It never panics. *)
Lemma plan_insert_extent_spec root h entries new :
  root_ok root h entries → ext_ok new → Extent.logical_block new + Extent.length new ≤ 2 ^ 32 →
  match plan_insert_extent root new with
  | Ok muts => (∀ l, Extent.contains new l = true → blockmap entries l = None) ∧
      ∃ root' entries', muts = [WriteRoot root'] ∧ rewrites root h root' entries' ∧
        ∀ l, blockmap entries' l = if Extent.contains new l
          then Some (Extent.map new l, Extent.uninitialized new) else blockmap entries l
  | Err e =>
      (e = CorruptExtentTree "extent overlaps existing" ∧
       ∃ l, Extent.contains new l = true ∧ blockmap entries l ≠ None) ∨
      (e = CorruptExtentTree "LEAF_FULL_NEEDS_PROMOTION: root has no slot for new extent" ∧
       (∀ l, Extent.contains new l = true → blockmap entries l = None) ∧
       ExtentHeader.max h < zlen (insert_into_leaf_sorted entries new))
  | _ => False
  end.
Proof.
  intros Hr Hnew Hend. unfold plan_insert_extent. rewrite (root_ok_read _ _ _ Hr), bind_Ok.
  destruct (root_ok_leaf _ _ _ Hr) as [Hin Hall].
  destruct (check_no_overlap_spec new entries Hnew Hall) as [(-> & Ho & Hfree)|[-> Hov]];
    [rewrite bind_Ok|by left].
  rewrite (root_ok_count _ _ _ _ Hr) by apply zlen_insert_into_leaf_sorted. case_decide; [by right|].
  destruct (insert_into_leaf_sorted_spec 0 (2 ^ 32) new entries (conj Hin Hall) Hnew Ho) as [Hok Hmap];
    [apply Hnew|done|].
  destruct (build_root_ok root h entries _ Hr Hok ltac:(lia)) as (root' & -> & Hrw).
  split; [done|]. by exists root', (insert_into_leaf_sorted entries new).
Qed.

(** Splitting an extent of an inline root at a block inside it (its physical
    run below 2^48) is invisible to every reader: one more entry, the same
    block map; a cut outside the extent, an index out of range and a full root
    are refused. *)
Lemma plan_split_extent_spec root h entries idx e at_ :
  root_ok root h entries → 0 ≤ idx → entries !! Z.to_nat idx = Some e → 0 ≤ at_ →
  Extent.logical_block e + Extent.length e < 2 ^ 32 → phys_ok e →
  match plan_split_extent root idx at_ with
  | Ok muts => Extent.logical_block e < at_ < Extent.logical_block e + Extent.length e ∧
      ∃ root' entries', muts = [WriteRoot root'] ∧ rewrites root h root' entries' ∧
        zlen entries' = zlen entries + 1 ∧ ∀ l, blockmap entries' l = blockmap entries l
  | Err er =>
      (er = CorruptExtentTree "split point outside extent" ∧
       ¬ Extent.logical_block e < at_ < Extent.logical_block e + Extent.length e) ∨
      (er = CorruptExtentTree "LEAF_FULL_NEEDS_PROMOTION: split exceeds root capacity" ∧
       zlen entries = ExtentHeader.max h)
  | _ => False
  end.
Proof.
  intros Hr Hidx He Hat Hend Hp. unfold plan_split_extent. rewrite (root_ok_read _ _ _ Hr), bind_Ok, He.
  simpl ok_or. rewrite bind_Ok. cbv zeta. pose proof (root_ok_leaf _ _ _ Hr) as Hleaf.
  pose proof (Forall_lookup_1 _ _ _ _ (proj2 Hleaf) He) as (H1 & H2 & H3).
  pose proof (max_extent_len_range (Extent.uninitialized e)).
  unfold as_u32. rewrite Z.mod_small by lia. case_decide; [left; split; [done|lia]|].
  set (a := Extent.mk _ (as_u16 (at_ - _)) _ _). set (b := Extent.mk at_ _ _ _).
  destruct (leaf_ok_split 0 (2 ^ 32) entries _ e Hleaf He) as (mid & Ee & Hl & Hrest).
  destruct (split_pair_spec mid (2 ^ 32) e at_ _ Hrest) as [Hok Hmap]; [lia|lia|exact Hp|].
  set (i := Z.to_nat idx) in *. set (l1 := take i entries) in *. set (l2 := drop (S i) entries) in *.
  assert (Hi : i = length l1) by (unfold l1; rewrite length_take; apply lookup_lt_Some in He; lia).
  clearbody l1 l2 i. subst entries i. rewrite insert_at_split.
  assert (Ea : a = Extent.mk (Extent.logical_block e) (at_ - Extent.logical_block e)
    (Extent.physical_block e) (Extent.uninitialized e)).
  { unfold a, as_u16. rewrite Z.mod_small by lia. done. }
  assert (Eb : b = Extent.mk at_ (Extent.logical_block e + Extent.length e - at_)
    (Extent.physical_block e + (at_ - Extent.logical_block e)) (Extent.uninitialized e)).
  { unfold b, as_u16. rewrite Z.mod_small by lia. done. }
  rewrite <-Ea, <-Eb in Hok, Hmap. clearbody a b.
  assert (Hlen : zlen (l1 ++ a :: b :: l2) = zlen (l1 ++ e :: l2) + 1) by zl.
  destruct (root_ok_inv _ _ _ Hr) as (_ & _ & _ & ? & _).
  rewrite (root_ok_count _ _ _ _ Hr), Hlen by lia. case_decide; [right; split; [done|lia]|].
  destruct (build_root_ok root h _ (l1 ++ a :: b :: l2) Hr) as (root' & -> & Hrw);
    [by eapply leaf_ok_app|lia|].
  split; [lia|]. eexists root', _. split; [done|]. split; [exact Hrw|]. split; [done|].
  intros l. by rewrite !blockmap_app, Hmap.
Qed.

(** Merging entries [i] and [i + 1] of an inline root never changes the
    block map: either they are not contiguous and nothing is planned, or one
    root with an entry less is. *)
Lemma plan_merge_adjacent_spec root h entries i :
  root_ok root h entries → 0 ≤ i →
  match plan_merge_adjacent root i with
  | Ok [] => ∃ a b, entries !! Z.to_nat i = Some a ∧ entries !! S (Z.to_nat i) = Some b ∧
      are_contiguous a b = false
  | Ok muts => ∃ root' entries', muts = [WriteRoot root'] ∧ rewrites root h root' entries' ∧
      zlen entries' = zlen entries - 1 ∧ ∀ l, blockmap entries' l = blockmap entries l
  | Err e => e = CorruptExtentTree "merge idx out of range" ∧ zlen entries ≤ i + 1
  | _ => False
  end.
Proof.
  intros Hr Hi. unfold plan_merge_adjacent. rewrite (root_ok_read _ _ _ Hr), bind_Ok.
  case_decide as Hlen; [done|]. unfold zlen in Hlen.
  destruct (lookup_lt_is_Some_2 entries (Z.to_nat i)) as [a Ha]; [lia|].
  destruct (lookup_lt_is_Some_2 entries (S (Z.to_nat i))) as [b Hb]; [lia|].
  rewrite Ha, Hb. simpl unwrap. rewrite !bind_Ok.
  destruct (are_contiguous a b) eqn:Hc; [cbn [negb]|by exists a, b].
  destruct (merge_at_spec 0 (2 ^ 32) (Z.to_nat i) entries (root_ok_leaf _ _ _ Hr)) as [Hok Hmap].
  destruct (root_ok_inv _ _ _ Hr) as (_ & _ & _ & ? & _).
  assert (Hlm : zlen (merge_at (Z.to_nat i) entries) = zlen entries - 1).
  { unfold merge_at, zlen. rewrite Ha, Hb, Hc, length_app, length_take. simpl. rewrite length_drop. lia. }
  destruct (build_root_ok root h entries _ Hr Hok ltac:(lia)) as (root' & -> & Hrw).
  rewrite bind_Ok. by exists root', (merge_at (Z.to_nat i) entries).
Qed.

(** Freeing an extent of an inline root unmaps exactly its blocks and
    reports exactly its physical run for release. *)
Lemma plan_free_extent_spec root h entries idx :
  root_ok root h entries → 0 ≤ idx →
  match plan_free_extent root idx with
  | Ok muts => ∃ e root' entries', entries !! Z.to_nat idx = Some e ∧
      muts = [WriteRoot root'; FreePhysicalRun (Extent.physical_block e) (Extent.length e)] ∧
      rewrites root h root' entries' ∧
      ∀ l, blockmap entries' l = if Extent.contains e l then None else blockmap entries l
  | Err er => er = CorruptExtentTree "free idx out of range" ∧ zlen entries ≤ idx
  | _ => False
  end.
Proof.
  intros Hr Hidx. unfold plan_free_extent. rewrite (root_ok_read _ _ _ Hr), bind_Ok.
  destruct (entries !! Z.to_nat idx) as [e|] eqn:He; simpl ok_or; [|simpl].
  2:{ apply lookup_ge_None in He. split; [done|]. unfold zlen. lia. }
  rewrite bind_Ok. pose proof (root_ok_leaf _ _ _ Hr) as Hleaf.
  destruct (leaf_ok_split 0 (2 ^ 32) entries _ e Hleaf He) as (mid & Ee & Hl & Hrest).
  assert (Hdel : delete (Z.to_nat idx) entries = take (Z.to_nat idx) entries ++ drop (S (Z.to_nat idx)) entries)
    by apply delete_take_drop.
  destruct Hrest as [(H1 & H2 & H3) Hall]. apply Forall_cons in Hall as [He' Hall].
  destruct (root_ok_inv _ _ _ Hr) as (_ & _ & _ & ? & _).
  destruct (build_root_ok root h entries (delete (Z.to_nat idx) entries) Hr) as (root' & -> & Hrw).
  { rewrite Hdel. eapply leaf_ok_app; [exact Hl|]. eapply leaf_ok_le; [|by split]. lia. }
  { unfold zlen in *. rewrite length_delete by done. lia. }
  rewrite bind_Ok. eexists e, root', _. split; [done|]. split; [done|]. split; [exact Hrw|].
  intros l. rewrite Hdel. rewrite Ee at 3. rewrite !blockmap_app, blockmap_cons.
  destruct (Extent.contains e l) eqn:Ec; [|done]. apply contains_true in Ec.
  rewrite (blockmap_below _ _ _ l H3) by lia. unfold blockmap.
  rewrite (find_above _ _ _ l (proj1 Hl)) by lia. done.
Qed.

(** Marking a range initialised in an inline root (extents below block
    2^32 - 1, physical runs below 2^48) keeps every mapping and changes the
    state of exactly the uninitialised blocks of the range; the block list it
    returns is exactly those. *)
Lemma plan_initialize_range_spec root h entries first stop hi :
  root_ok root h entries → leaf_ok 0 hi entries → hi < 2 ^ 32 → Forall phys_ok entries →
  0 ≤ first < stop →
  match plan_initialize_range root first stop with
  | Ok (root', converted) => ∃ entries', rewrites root h root' entries' ∧
      (∀ l, blockmap entries' l = match blockmap entries l with
         | Some (p, u) => Some (p, u && negb (bool_decide (first ≤ l < stop))) | None => None end) ∧
      (∀ l, l ∈ converted ↔ (∃ p, blockmap entries l = Some (p, true)) ∧ first ≤ l < stop)
  | Err er => er = CorruptExtentTree
      "LEAF_FULL_NEEDS_PROMOTION: initializing part of an extent exceeds root capacity"
  | _ => False
  end.
Proof.
  intros Hr Hleaf Hhi Hp Hf. unfold plan_initialize_range. rewrite (root_ok_read _ _ _ Hr), bind_Ok.
  cbv zeta. destruct (initialize_all_spec first stop 0 hi entries Hleaf Hhi Hp Hf) as (Hok & Hmap & Hconv).
  destruct (foldl_push_merged_spec 0 0 hi [] _ (conj (Z.le_refl 0) (Forall_nil_2 _)) Hok) as [Hok' Hmap'].
  set (merged := foldl _ _ _) in *. case_decide as Hn; [done|].
  assert (zlen merged ≤ 3 * zlen entries).
  { pose proof (zlen_initialize_all first stop entries) as Hl1. cbv zeta in Hl1.
    pose proof (zlen_foldl_push_merged [] (concat (fst <$> (initialize_one first stop <$> entries)))) as Hl2.
    fold merged in Hl2. change (zlen []) with 0 in Hl2. lia. }
  destruct (root_ok_inv _ _ _ Hr) as (_ & _ & _ & ? & _). pose proof (zlen_nonneg merged).
  assert (Hcap : extent_entry_offset (ExtentHeader.max h) ≤ 65536) by (destruct Hr as (_ & ? & _ & ? & _); lia).
  unfold extent_entry_offset, EXT4_EXT_NODE_SIZE, as_u16 in *. rewrite Z.mod_small in Hn by lia.
  destruct (build_root_ok root h entries merged Hr) as (root' & -> & Hrw); [|lia|].
  { rewrite <-(app_nil_r merged). eapply leaf_ok_app; [exact Hok'|]. split; [simpl; lia|constructor]. }
  rewrite bind_Ok. exists merged. split; [exact Hrw|]. split; [|exact Hconv].
  intros l. rewrite Hmap'. apply Hmap.
Qed.

(** A node's bytes past its entries (the checksum tail) do not matter. *)
Lemma node_tail out buf len entries max depth gen enc k :
  node_spec out len entries max depth gen enc → bytes_ok buf → zlen buf = len →
  sub buf 0 k = sub out 0 k → extent_entry_offset (zlen enc) ≤ k → k ≤ len →
  node_spec buf len entries max depth gen enc.
Proof.
  intros Hn Hb Hl Hk Hfit Hkl. pose proof (zlen_nonneg enc).
  unfold extent_entry_offset, EXT4_EXT_NODE_SIZE in Hfit.
  pose proof (node_len _ _ _ _ _ _ _ Hn) as Hlo.
  assert (Hs : ∀ o n, 0 ≤ o → 0 ≤ n → o + n ≤ k → sub buf o n = sub out o n).
  { intros o n Ho Hn' Hon. pose proof (sub_sub buf 0 k o n) as E1. pose proof (sub_sub out 0 k o n) as E2.
    rewrite Hk in E1. rewrite E1 in E2 by lia. apply E2; lia. }
  split; [done|done| |].
  - intros Hmax. rewrite <-(node_header _ _ _ _ _ _ _ Hn Hmax).
    unfold ExtentHeader.parse, EXT4_EXT_NODE_SIZE. rewrite Hl, Hlo. case_decide; [done|].
    rewrite !u16_le_ok, !u32_le_ok by lia. unfold le16, le32. by rewrite !Hs by lia.
  - intros j e He. rewrite <-(node_entry _ _ _ _ _ _ _ Hn j e He).
    pose proof (lookup_lt_zlen _ _ _ He). apply Hs; unfold extent_entry_offset, EXT4_EXT_NODE_SIZE; lia.
Qed.

(** A block that [build_node] laid out as a leaf heads a tree with its extents. *)
Lemma leaf_node_tree `{Crc32c} dev bs ctx n out len max gen lo hi exts :
  node_spec out len (zlen exts) max 0 gen (encode_extent <$> exts) →
  zlen exts ≤ max → extent_entry_offset (zlen exts) ≤ len → leaf_ok lo hi exts →
  tree dev bs ctx n out lo hi exts [].
Proof.
  intros Hn Hmax Hfit [Hin Hall].
  assert (Ht : traverse (leaf_entry out) (seqZ 0 (zlen exts)) = Ok exts)
    by (eapply node_leaf_entries; eauto).
  destruct n; simpl; eexists; (split; [by apply (node_header _ _ _ _ _ _ _ Hn)|]);
    (split; [exact Ht|by split]).
Qed.

Lemma build_leaf_block_spec gen exts bs (tail : bool) :
  1024 ≤ bs ≤ 65536 → 0 ≤ gen < 2 ^ 32 →
  let leaf_max := as_u16 ((saturating_sub bs (tail_bytes tail) - EXT4_EXT_NODE_SIZE) / EXT4_EXT_NODE_SIZE) in
  zlen exts ≤ leaf_max →
  extent_entry_offset (zlen exts) ≤ bs - tail_bytes tail ∧
  ∃ out, build_leaf_block gen exts bs tail = Ok out ∧
    node_spec out bs (zlen exts) leaf_max 0 gen (encode_extent <$> exts).
Proof.
  intros Hbs Hg leaf_max Hmax. unfold leaf_max, as_u16 in Hmax. pose proof (zlen_nonneg exts).
  assert (Ht : saturating_sub bs (tail_bytes tail) = bs - tail_bytes tail ∧ 0 ≤ tail_bytes tail ≤ 4)
    by (unfold saturating_sub, tail_bytes; destruct tail; lia).
  destruct Ht as [Ht Htb]. rewrite Ht in *. unfold EXT4_EXT_NODE_SIZE in *.
  set (m := (bs - tail_bytes tail - 12) / 12) in *.
  assert (0 ≤ m < 2 ^ 16 ∧ 12 * m ≤ bs - tail_bytes tail - 12) as [Hm Hm12].
  { unfold m. pose proof (Z.mul_div_le (bs - tail_bytes tail - 12) 12). split; [split|].
    - apply Z.div_pos; lia.
    - apply Z.div_lt_upper_bound; lia.
    - lia. }
  rewrite Z.mod_small in Hmax by lia.
  assert (Hoff : extent_entry_offset (zlen exts) ≤ bs - tail_bytes tail)
    by (unfold extent_entry_offset, EXT4_EXT_NODE_SIZE; lia).
  split; [done|]. unfold build_leaf_block, leaf_max. rewrite Ht. fold m.
  unfold EXT4_EXT_NODE_SIZE. fold m. unfold as_u16. rewrite !(Z.mod_small _ (2 ^ 16)) by lia.
  apply build_node_spec; try lia; [apply encoded_len|].
  rewrite zlen_fmap. lia.
Qed.

(** Promoting a full inline root (block size 1 KiB to 64 KiB): unless the
    range overlaps a mapped block or the leaf cannot hold the list, the plan is
    a leaf block and a depth-1 root such that, once the leaf is on disk at the
    block promised (its reserved tail holding whatever checksum passes), every
    lookup through the new root answers as the old map with the new range
    added. *)
Lemma plan_promote_leaf_spec `{Crc32c} dev ctx root h entries new bs phys tail :
  root_ok root h entries → ext_ok new → Extent.logical_block new + Extent.length new ≤ 2 ^ 32 →
  1024 ≤ bs ≤ 65536 → 0 ≤ phys < 2 ^ 48 →
  match plan_promote_leaf root new bs phys tail with
  | Ok plan => zlen (leaf_bytes plan) = bs ∧ zlen (new_root_bytes plan) = 60 ∧
      ∃ entries',
      (∀ l, blockmap entries' l = if Extent.contains new l
         then Some (Extent.map new l, Extent.uninitialized new) else blockmap entries l) ∧
      (∀ buf, bytes_ok buf → sub buf 0 (bs - tail_bytes tail) = sub (leaf_bytes plan) 0 (bs - tail_bytes tail) →
       zlen buf = bs → rd_read dev (phys * bs) bs = Ok buf → verify_node ctx buf = Ok () →
       ∀ l, lookup_verified dev bs (new_root_bytes plan) l ctx = Ok (find_ext l entries'))
  | Err e =>
      (e = CorruptExtentTree "extent overlaps existing" ∧
       ∃ l, Extent.contains new l = true ∧ blockmap entries l ≠ None) ∨
      (e = CorruptExtentTree "plan_promote_leaf: entry count exceeds leaf capacity" ∧
       bs - tail_bytes tail < extent_entry_offset (zlen entries + 1))
  | _ => False
  end.
Proof.
  intros Hr Hnew Hend Hbs Hp. unfold plan_promote_leaf. rewrite (root_ok_read _ _ _ Hr), bind_Ok.
  destruct (root_ok_leaf _ _ _ Hr) as [Hin Hall].
  destruct (root_ok_inv _ _ _ Hr) as (_ & _ & _ & _ & Hg).
  destruct (check_no_overlap_spec new entries Hnew Hall) as [(-> & Ho & Hfree)|[-> Hov]];
    [rewrite bind_Ok|by left].
  pose proof (zlen_insert_into_leaf_sorted new entries) as Hlen.
  rewrite (root_ok_count _ _ _ _ Hr) by done. cbv zeta.
  destruct (insert_into_leaf_sorted_spec 0 (2 ^ 32) new entries (conj Hin Hall) Hnew Ho) as [Hok Hmap];
    [apply Hnew|done|].
  set (exts := insert_into_leaf_sorted entries new) in *. clearbody exts.
  case_decide as Hcap.
  { right. split; [done|]. unfold extent_entry_offset, EXT4_EXT_NODE_SIZE, as_u16, saturating_sub in *.
    assert (0 ≤ tail_bytes tail ≤ 4) by (unfold tail_bytes; destruct tail; lia).
    rewrite Z.max_r in Hcap by lia.
    pose proof (Z.div_lt_upper_bound (bs - tail_bytes tail - 12) 12 65536).
    pose proof (Z.div_pos (bs - tail_bytes tail - 12) 12). rewrite Z.mod_small in Hcap by lia.
    pose proof (Z.mul_succ_div_gt (bs - tail_bytes tail - 12) 12). lia. }
  destruct (build_leaf_block_spec (ExtentHeader.generation h) exts bs tail) as (Hfit & leaf & -> & Hleaf); try lia.
  rewrite bind_Ok. unfold build_depth1_index_root.
  destruct (build_node_spec 60 1 4 1 (ExtentHeader.generation h) [encode_index 0 phys]) as (nr & -> & Hroot); try lia.
  { constructor; [apply zlen_encode_index|constructor]. } { by vm_compute. }
  rewrite bind_Ok. simpl. split; [apply (node_len _ _ _ _ _ _ _ Hleaf)|].
  split; [apply (node_len _ _ _ _ _ _ _ Hroot)|]. exists exts. split; [done|].
  intros buf Hb Hsame Hbl Hread Hver l. eapply (lookup_verified_spec _ _ _ nr _ 0 (2 ^ 32) exts [phys]).
  { apply (node_header _ _ _ _ _ _ _ Hroot). lia. } { by vm_compute. }
  change (Z.to_nat _) with 1%nat. eexists. split; [apply (node_header _ _ _ _ _ _ _ Hroot); lia|].
  change (ExtentHeader.is_leaf _) with false. cbv iota beta. exists (ExtentIdx.mk 0 phys), [].
  split.
  { apply (node_index_entries nr 60 4 1 (ExtentHeader.generation h) [(0, phys)]);
      [exact Hroot|by vm_compute|by apply Forall_singleton]. }
  exists buf, []. split; [|split; [|done]].
  - split; [|done]. intros what. unfold read_node, checked_mul64. cbn [ExtentIdx.leaf_block].
    rewrite decide_True by nia. done.
  - assert (0 ≤ tail_bytes tail) by (unfold tail_bytes; destruct tail; lia).
    eapply (leaf_node_tree dev bs ctx 0 buf bs); [|apply Z.nlt_ge, Hcap|lia|exact Hok].
    eapply node_tail; [exact Hleaf|done|done|exact Hsame| |lia]. by rewrite zlen_fmap.
Qed.

(** An inline root whose [eh_max] claims more entries than its 60 bytes hold
    (nothing bounds [eh_max] by the node) is accepted when read, and the insert
    that would need the missing slot panics while writing the fifth entry
    instead of asking for promotion. *)
Lemma plan_insert_extent_panics_on_oversized_max :
  ∃ root h entries new, zlen root = 60 ∧ read_leaf_entries root = Ok (h, entries) ∧
    zlen entries = 4 ∧ ExtentHeader.max h = 5 ∧ leaf_ok 0 100 entries ∧ ext_ok new ∧
    (∀ l, Extent.contains new l = true → blockmap entries l = None) ∧
    plan_insert_extent root new = Panic.
Proof.
  set (es := (λ i, Extent.mk (2 * i) 1 (1000 + i) false) <$> seqZ 0 4).
  set (new := Extent.mk 20 1 5000 false).
  exists (le_split 2 EXT4_EXT_MAGIC ++ le_split 2 4 ++ le_split 2 5 ++ le_split 2 0 ++ le_split 4 0 ++
    concat (encode_extent <$> es)), (ExtentHeader.mk EXT4_EXT_MAGIC 4 5 0 0), es, new.
  assert (Hall : Forall ext_ok es) by by_compute. assert (Hn : ext_ok new) by by_compute.
  split; [reflexivity|]. split; [vm_compute; reflexivity|]. split; [reflexivity|]. split; [reflexivity|].
  split; [by split; [vm_compute; by_compute|]|]. split; [done|]. split; [|vm_compute; reflexivity].
  destruct (check_no_overlap_spec new es Hn Hall) as [(_ & _ & H)|[H _]]; [exact H|].
  vm_compute in H. discriminate.
Qed.

(** *** Witnesses *)

Definition sample_entries : list Extent.t := [Extent.mk 0 4 100 false; Extent.mk 10 6 200 true].
Definition sample_inline : bytes :=
  le_split 2 EXT4_EXT_MAGIC ++ le_split 2 2 ++ le_split 2 4 ++ le_split 2 0 ++ le_split 4 7 ++
  concat (encode_extent <$> sample_entries) ++ zrep 24 0.
Definition sample_hdr : ExtentHeader.t := ExtentHeader.mk EXT4_EXT_MAGIC 2 4 0 7.

Lemma sample_leaf_ok : leaf_ok 0 16 sample_entries.
Proof. split; by_compute. Qed.

Lemma sample_inline_ok : root_ok sample_inline sample_hdr sample_entries.
Proof.
  split; [by_compute|]. split; [by_compute|]. split; [vm_compute; reflexivity|].
  split; [by_compute|]. split; by_compute.
Qed.

Lemma plan_insert_extent_spec_witness :
  ∃ root' entries', plan_insert_extent sample_inline (Extent.mk 4 2 104 false) = Ok [WriteRoot root'] ∧
    rewrites sample_inline sample_hdr root' entries' ∧ blockmap entries' 5 = Some (105, false).
Proof.
  pose proof (plan_insert_extent_spec sample_inline sample_hdr sample_entries (Extent.mk 4 2 104 false)
    sample_inline_ok ltac:(by_compute) ltac:(by_compute)) as H.
  destruct (plan_insert_extent _ _) as [muts|e| |] eqn:E; try (vm_compute in E; discriminate).
  destruct H as (_ & root' & entries' & -> & Hrw & Hmap). exists root', entries'.
  split; [reflexivity|]. split; [exact Hrw|]. rewrite (Hmap 5). vm_compute. reflexivity.
Defined.

Lemma plan_split_extent_spec_witness :
  ∃ root' entries', plan_split_extent sample_inline 1 12 = Ok [WriteRoot root'] ∧
    rewrites sample_inline sample_hdr root' entries' ∧ zlen entries' = 3 ∧
    blockmap entries' 13 = Some (203, true).
Proof.
  pose proof (plan_split_extent_spec sample_inline sample_hdr sample_entries 1 (Extent.mk 10 6 200 true) 12
    sample_inline_ok ltac:(by_compute) eq_refl ltac:(by_compute) ltac:(by_compute)
    ltac:(unfold phys_ok; by_compute)) as H.
  destruct (plan_split_extent _ _ _) as [muts|e| |] eqn:E; try (vm_compute in E; discriminate).
  destruct H as (_ & root' & entries' & -> & Hrw & Hn & Hmap). exists root', entries'.
  split; [reflexivity|]. split; [exact Hrw|]. split; [rewrite Hn; reflexivity|].
  rewrite (Hmap 13). vm_compute. reflexivity.
Defined.

Lemma plan_merge_adjacent_spec_witness : plan_merge_adjacent sample_inline 0 = Ok [].
Proof.
  pose proof (plan_merge_adjacent_spec sample_inline sample_hdr sample_entries 0
    sample_inline_ok ltac:(by_compute)) as H.
  destruct (plan_merge_adjacent _ _) as [muts|e| |] eqn:E; try (vm_compute in E; discriminate).
  destruct muts as [|m muts]; [reflexivity|]. vm_compute in E. discriminate.
Defined.

Lemma plan_free_extent_spec_witness :
  ∃ root' entries', plan_free_extent sample_inline 1 = Ok [WriteRoot root'; FreePhysicalRun 200 6] ∧
    rewrites sample_inline sample_hdr root' entries' ∧ blockmap entries' 12 = None ∧
    blockmap entries' 3 = Some (103, false).
Proof.
  pose proof (plan_free_extent_spec sample_inline sample_hdr sample_entries 1
    sample_inline_ok ltac:(by_compute)) as H.
  destruct (plan_free_extent _ _) as [muts|e| |] eqn:E; try (vm_compute in E; discriminate).
  destruct H as (e & root' & entries' & He & -> & Hrw & Hmap). injection He as <-.
  exists root', entries'. split; [reflexivity|]. split; [exact Hrw|]. split; rewrite Hmap; vm_compute; reflexivity.
Defined.

Lemma plan_initialize_range_spec_witness :
  ∃ root' converted entries', plan_initialize_range sample_inline 8 13 = Ok (root', converted) ∧
    rewrites sample_inline sample_hdr root' entries' ∧
    blockmap entries' 12 = Some (202, false) ∧ blockmap entries' 13 = Some (203, true) ∧ 12 ∈ converted.
Proof.
  pose proof (plan_initialize_range_spec sample_inline sample_hdr sample_entries 8 13 16
    sample_inline_ok sample_leaf_ok ltac:(by_compute)
    ltac:(apply Forall_cons; split; [unfold phys_ok; by_compute|apply Forall_singleton; unfold phys_ok; by_compute])
    ltac:(by_compute)) as H.
  destruct (plan_initialize_range _ _ _) as [[root' converted]|e| |] eqn:E; try (vm_compute in E; discriminate).
  destruct H as (entries' & Hrw & Hmap & Hconv). exists root', converted, entries'.
  split; [reflexivity|]. split; [exact Hrw|]. split; [rewrite Hmap; vm_compute; reflexivity|].
  split; [rewrite Hmap; vm_compute; reflexivity|]. apply Hconv. split; [exists 202; vm_compute; reflexivity|lia].
Defined.

Lemma plan_promote_leaf_spec_witness :
  ∃ plan entries', plan_promote_leaf sample_inline (Extent.mk 30 1 900 false) 1024 5 true = Ok plan ∧
    zlen (leaf_bytes plan) = 1024 ∧ blockmap entries' 30 = Some (900, false) ∧
    let disk := zrep (5 * 1024) 0 ++ leaf_bytes plan in
    @lookup_verified castagnoli (image_reader disk) 1024 (new_root_bytes plan) 30 None
      = Ok (find_ext 30 entries').
Proof.
  destruct (plan_promote_leaf sample_inline (Extent.mk 30 1 900 false) 1024 5 true) as [plan|e| |] eqn:E;
    try (vm_compute in E; discriminate).
  set (disk := zrep (5 * 1024) 0 ++ leaf_bytes plan).
  pose proof (@plan_promote_leaf_spec castagnoli (image_reader disk) None sample_inline sample_hdr sample_entries
    (Extent.mk 30 1 900 false) 1024 5 true sample_inline_ok ltac:(by_compute) ltac:(by_compute)
    ltac:(by_compute) ltac:(by_compute)) as H.
  rewrite E in H. destruct H as (Hl & _ & entries' & Hmap & Hlook).
  exists plan, entries'. split; [reflexivity|]. split; [exact Hl|].
  split; [rewrite Hmap; vm_compute; reflexivity|].
  apply (Hlook (leaf_bytes plan)); [|reflexivity|exact Hl| |reflexivity];
    unfold disk; clear - E; vm_compute in E; injection E as <-; [by_compute|vm_compute; reflexivity].
Defined.
