(* ===== verification/ExtentTree.v ===== *)
(** ExtentTree: the planners that change extent trees of more than one level
    (src/src/extent_mut.rs): laying a tree out again over blocks the file owns
    ([plan_repack_tree]) and inserting into a leaf below the root
    ([plan_insert_extent_deep]); then the abstract trees they are specified by
    and the correctness of the repacking. *)
From S2P Require Import Prelude Errors Bytes Device Features Superblock Checksum Extent ExtentMut.

(** ** Repacking *)

Record RepackedTree := mkRepacked {
  rp_new_root : bytes;
  rp_block_writes : list (Z * bytes);
  rp_used_nodes : list Z;
  rp_allocated_blocks : list Z;
}.

Section plans.
Context {A : Type} (alloc : A → res (Z * A)).

(** The planner's locals: the file's blocks not yet used, those used, those the
    caller allocated, the writes, and the caller's allocator. *)
Record repacking := mkRepacking {
  supply : list Z;
  used : list Z;
  fresh : list Z;
  rwrites : list (Z * bytes);
  allocator : A;
}.

(** The next block: the file's own while they last. *)
Definition take_block (st : repacking) : res (Z * repacking) :=
  match supply st with
  | block :: rest => Ok (block, mkRepacking rest (used st ++ [block]) (fresh st) (rwrites st) (allocator st))
  | [] =>
      '(block, a) ← alloc (allocator st);
      Ok (block, mkRepacking [] (used st) (fresh st ++ [block]) (rwrites st) a)
  end.

(** One level: a block for each chunk, and the index entries naming them.
    [key x] is the first logical block below an element, [build] its block. *)
Definition pack_level {E} (key : E → Z) (build : list E → res bytes) (chunks : list (list E)) (st : repacking)
    : res (list (Z * Z) * repacking) :=
  foldM (λ '(above, st) chunk,
    '(block, st) ← take_block st;
    bs ← build chunk;
    first ← unwrap (head chunk);
    Ok (above ++ [(key first, block)],
        mkRepacking (supply st) (used st) (fresh st) (rwrites st ++ [(block, bs)]) (allocator st)))
    ([], st) chunks.

(** [while indices.len() > 4 { .. }] *)
Fixpoint pack_up (fuel : nat) (generation block_size depth : Z) (indices : list (Z * Z)) (st : repacking)
    : res (Z * list (Z * Z) * repacking) :=
  if decide (zlen indices ≤ 4) then Ok (depth, indices, st) else
  match fuel with
  | O => OutOfFuel
  | S fuel =>
      '(above, st) ← pack_level fst (λ chunk, build_full_index_block generation depth chunk block_size)
                       (chunks (node_max_entries block_size) indices) st;
      pack_up fuel generation block_size (as_u16 (depth + 1)) above st
  end.

Definition plan_repack_tree (generation : Z) (entries : list Extent.t) (block_size : Z) (nodes : list Z) (a : A)
    : res (RepackedTree * A) :=
  if decide (zlen entries ≤ 4) then
    root ← build_inline_leaf_root generation entries;
    Ok (mkRepacked root [] [] [], a)
  else
  let cap := node_max_entries block_size in
  if decide (cap = 0) then Panic else
  '(indices, st) ← pack_level Extent.logical_block (λ chunk, build_full_leaf_block generation chunk block_size)
                     (chunks cap entries) (mkRepacking nodes [] [] [] a);
  '(depth, indices, st) ← pack_up (length indices) generation block_size 1 indices st;
  root ← build_inline_index_root generation depth indices;
  Ok (mkRepacked root (rwrites st) (used st) (fresh st), allocator st).

(** ** Deep insertion *)

Record DeepInsertPlan := mkDeep {
  new_root : bytes;
  block_writes : list (Z * bytes);
  allocated_blocks : list Z;
}.

Record PathFrame := mkFrame { block : Z; frame_bytes : bytes }.

Definition insert_into_index_sorted (entries : list (Z * Z)) (new_logical new_child : Z) : list (Z * Z) :=
  insert_at (position_or (λ p, bool_decide (new_logical < fst p)) (length entries) entries)
    (new_logical, new_child) entries.

Record PropagatedSplit := mkSplit { new_logical : Z; new_child : Z }.

Context (block_size : Z) (read_block : Z → res bytes).

(** The last entry of the leading ones whose key is at most [target]. *)
Fixpoint chosen_index (target : Z) (entries : list ExtentIdx.t) (chosen : option ExtentIdx.t) : option ExtentIdx.t :=
  match entries with
  | idx :: entries =>
      if decide (ExtentIdx.logical_block idx ≤ target) then chosen_index target entries (Some idx) else chosen
  | [] => chosen
  end.

(** The descent, [path] holding the frames above [frame] with the nearest first. *)
Fixpoint descend_loop (fuel : nat) (target : Z) (path : list PathFrame) (frame : PathFrame)
    : res (PathFrame * list PathFrame) :=
  match fuel with
  | O => OutOfFuel
  | S fuel =>
      header ← ExtentHeader.parse (frame_bytes frame);
      if ExtentHeader.is_leaf header then Ok (frame, path) else
      if decide (ExtentHeader.entries header = 0)
      then Err (CorruptExtentTree "internal node with zero index entries") else
      entries ← parse_index_entries (frame_bytes frame) header;
      first ← unwrap (head entries);
      let idx := default first (chosen_index target entries None) in
      child ← read_block (ExtentIdx.leaf_block idx);
      descend_loop fuel target (frame :: path) (mkFrame (ExtentIdx.leaf_block idx) child)
  end.

Definition descend_to_leaf (fuel : nat) (root_bytes : bytes) (target : Z) : res (PathFrame * list PathFrame) :=
  root_header ← ExtentHeader.parse root_bytes;
  if decide (EXT4_EXT_MAX_DEPTH < ExtentHeader.depth root_header)
  then Err (CorruptExtentTree "extent tree depth exceeds spec maximum") else
  descend_loop fuel target [] (mkFrame 0 root_bytes).

(** The planner's locals on the way up. *)
Record climbing := mkClimb {
  propagated : option PropagatedSplit;
  correction : option (Z * Z);
  writes : list (Z * bytes);
  allocated : list Z;
  alloc_state : A;
}.

Definition alloc_block (st : climbing) : res (Z * climbing) :=
  '(b, a) ← alloc (alloc_state st);
  Ok (b, mkClimb (propagated st) (correction st) (writes st) (allocated st ++ [b]) a).

Definition push_writes (ws : list (Z * bytes)) (st : climbing) : climbing :=
  mkClimb (propagated st) (correction st) (writes st ++ ws) (allocated st) (alloc_state st).

Definition finish (root : bytes) (st : climbing) : res (DeepInsertPlan * A) :=
  Ok (mkDeep root (writes st) (allocated st), alloc_state st).

(** Naming a child by its new first key; the pair passed up, when it is this
    node's own first key. *)
Definition apply_correction (frame_block : Z) (indices : list (Z * Z)) (c : option (Z * Z))
    : res (list (Z * Z) * option (Z * Z)) :=
  match c with
  | None => Ok (indices, None)
  | Some (child, key) =>
      '(at_, p) ← ok_or (list_find (λ p, snd p = child) indices)
        (CorruptExtentTree "the index entry naming a child this insert changed is missing");
      Ok (<[at_ := (key, snd p)]> indices,
          if decide (at_ = O ∧ frame_block ≠ 0) then Some (frame_block, key) else None)
  end.

Definition absorb_split (indices : list (Z * Z)) (p : option PropagatedSplit) : list (Z * Z) :=
  match p with
  | Some s => insert_into_index_sorted indices (new_logical s) (new_child s)
  | None => indices
  end.

(** Splitting the inline index root over two new blocks. *)
Definition promote_index_root (generation depth : Z) (indices : list (Z * Z)) (st : climbing)
    : res (DeepInsertPlan * A) :=
  let new_depth := as_u16 (depth + 1) in
  if decide (EXT4_EXT_MAX_DEPTH < new_depth)
  then Err (CorruptExtentTree "extent tree depth would exceed spec maximum") else
  let mid := Nat.div2 (length indices) in
  let right := drop mid indices in
  let left := take mid indices in
  '(left_first, _) ← unwrap (head left);
  '(right_first, _) ← unwrap (head right);
  '(left_block, st) ← alloc_block st;
  '(right_block, st) ← alloc_block st;
  left_bytes ← build_full_index_block generation depth left block_size;
  right_bytes ← build_full_index_block generation depth right block_size;
  root ← build_inline_index_root generation new_depth [(left_first, left_block); (right_first, right_block)];
  finish root (push_writes [(left_block, left_bytes); (right_block, right_bytes)] st).

(** Splitting the index node of [frame], whose right half becomes a new sibling. *)
Definition split_index (generation depth frame_block : Z) (indices : list (Z * Z)) (st : climbing)
    : res climbing :=
  let mid := Nat.div2 (length indices) in
  let right := drop mid indices in
  let left := take mid indices in
  '(right_first, _) ← unwrap (head right);
  '(right_block, st) ← alloc_block st;
  left_bytes ← build_full_index_block generation depth left block_size;
  right_bytes ← build_full_index_block generation depth right block_size;
  let st := push_writes [(frame_block, left_bytes); (right_block, right_bytes)] st in
  Ok (mkClimb (Some (mkSplit right_first right_block)) (correction st) (writes st) (allocated st) (alloc_state st)).

Definition read_indices (frame : PathFrame) : res (ExtentHeader.t * list (Z * Z)) :=
  header ← ExtentHeader.parse (frame_bytes frame);
  entries ← parse_index_entries (frame_bytes frame) header;
  Ok (header, fmap (M := list) (λ i, (ExtentIdx.logical_block i, ExtentIdx.leaf_block i)) entries).

(** [while let Some(frame) = path.pop() { .. }] *)
Fixpoint climb (root_bytes : bytes) (generation : Z) (path : list PathFrame) (st : climbing)
    : res (DeepInsertPlan * A) :=
  match path with
  | [] => Err (CorruptExtentTree "deep insert: unexpected path exhaustion")
  | frame :: path =>
      '(header, indices) ← read_indices frame;
      '(indices, corr) ← apply_correction (block frame) indices (correction st);
      let indices := absorb_split indices (propagated st) in
      let st := mkClimb None corr (writes st) (allocated st) (alloc_state st) in
      let is_root_here := bool_decide (path = []) in
      let cap := if is_root_here then 4 else node_max_entries block_size in
      if decide (as_u16 (zlen indices) ≤ cap) then
        if is_root_here then
          root ← build_inline_index_root generation (ExtentHeader.depth header) indices;
          finish root st
        else
          bs ← build_full_index_block generation (ExtentHeader.depth header) indices block_size;
          let st := push_writes [(block frame, bs)] st in
          match correction st with
          | Some _ => climb root_bytes generation path st
          | None => finish root_bytes st
          end
      else
        if is_root_here then promote_index_root generation (ExtentHeader.depth header) indices st
        else
          st ← split_index generation (ExtentHeader.depth header) (block frame) indices st;
          climb root_bytes generation path st
  end.

(** The leaf's half once it overflows. *)
Definition split_leaf (generation leaf_block : Z) (first_key_before : option Z) (entries : list Extent.t) (st : climbing)
    : res climbing :=
  let mid := Nat.div2 (length entries) in
  let right := drop mid entries in
  let left := take mid entries in
  right_first ← unwrap (head right);
  '(right_block, st) ← alloc_block st;
  left_bytes ← build_full_leaf_block generation left block_size;
  right_bytes ← build_full_leaf_block generation right block_size;
  let st := push_writes [(leaf_block, left_bytes); (right_block, right_bytes)] st in
  left_first ← unwrap (head left);
  let left_key := Extent.logical_block left_first in
  let corr := if decide (first_key_before = Some left_key) then None else Some (leaf_block, left_key) in
  Ok (mkClimb (Some (mkSplit (Extent.logical_block right_first) right_block)) corr
        (writes st) (allocated st) (alloc_state st)).

Definition promote_leaf_root (generation : Z) (entries : list Extent.t) (st : climbing) : res (DeepInsertPlan * A) :=
  '(leaf, st) ← alloc_block st;
  bs ← build_full_leaf_block generation entries block_size;
  first ← unwrap (head entries);
  root ← build_inline_index_root generation 1 [(Extent.logical_block first, leaf)];
  finish root (push_writes [(leaf, bs)] st).

(** The insertion once the leaf and the path to it are known. *)
Definition insert_at_leaf (root_bytes : bytes) (generation : Z) (new : Extent.t)
    (leaf_frame : PathFrame) (path : list PathFrame) (a : A) : res (DeepInsertPlan * A) :=
  leaf_header ← ExtentHeader.parse (frame_bytes leaf_frame);
  leaf_entries ← parse_leaf_entries (frame_bytes leaf_frame) leaf_header;
  _ ← check_no_overlap leaf_entries new;
  let first_key_before := Extent.logical_block <$> head leaf_entries in
  let leaf_entries := insert_into_leaf_sorted leaf_entries new in
  let is_root_leaf := bool_decide (path = []) in
  let leaf_cap := if is_root_leaf then 4 else node_max_entries block_size in
  let st := mkClimb None None [] [] a in
  if decide (as_u16 (zlen leaf_entries) ≤ leaf_cap) then
    if is_root_leaf then
      root ← build_inline_leaf_root generation leaf_entries;
      finish root st
    else
      bs ← build_full_leaf_block generation leaf_entries block_size;
      let st := push_writes [(block leaf_frame, bs)] st in
      first ← unwrap (head leaf_entries);
      let first_key := Extent.logical_block first in
      if decide (first_key_before = Some first_key) then finish root_bytes st else
      climb root_bytes generation path
        (mkClimb None (Some (block leaf_frame, first_key)) (writes st) (allocated st) (alloc_state st))
  else
    if is_root_leaf then promote_leaf_root generation leaf_entries st
    else
      st ← split_leaf generation (block leaf_frame) first_key_before leaf_entries st;
      climb root_bytes generation path st.

Definition plan_insert_extent_deep (fuel : nat) (root_bytes : bytes) (new : Extent.t) (a : A)
    : res (DeepInsertPlan * A) :=
  if decide (zlen root_bytes < 12) then Err (CorruptExtentTree "root buffer too small") else
  root_header ← ExtentHeader.parse root_bytes;
  '(leaf_frame, path) ← descend_to_leaf fuel root_bytes (Extent.logical_block new);
  insert_at_leaf root_bytes (ExtentHeader.generation root_header) new leaf_frame path a.
End plans.
Arguments repacking : clear implicits.
Arguments climbing : clear implicits.

(** ** Nodes by their contents *)

Definition leaf_node (buf : bytes) (exts : list Extent.t) : Prop :=
  ∃ h, ExtentHeader.parse buf = Ok h ∧ ExtentHeader.depth h = 0 ∧
    traverse (leaf_entry buf) (seqZ 0 (ExtentHeader.entries h)) = Ok exts.

Definition index_node (buf : bytes) (depth : Z) (names : list (Z * Z)) : Prop :=
  ∃ h, ExtentHeader.parse buf = Ok h ∧ ExtentHeader.depth h = depth ∧
    traverse (index_entry buf) (seqZ 0 (ExtentHeader.entries h)) = Ok ((λ p, ExtentIdx.mk (fst p) (snd p)) <$> names).

Lemma traverse_zlen {B} (f : Z → res B) n ys : traverse f (seqZ 0 n) = Ok ys → zlen ys = Z.max 0 n.
Proof. intros H%traverse_ok_inv%Forall2_length. rewrite length_seqZ in H. unfold zlen. lia. Qed.

Lemma sub_prefix {A} (a b : list A) m o n : sub a 0 m = sub b 0 m → 0 ≤ o → 0 ≤ n → o + n ≤ m →
  sub a o n = sub b o n.
Proof.
  intros H Ho Hn Hm. pose proof (sub_sub a 0 m o n) as E1. pose proof (sub_sub b 0 m o n) as E2.
  rewrite H in E1. rewrite E1 in E2 by lia. apply E2; lia.
Qed.

(** The reads of a node stay inside its header and entries. *)
Lemma parse_prefix a b m h : ExtentHeader.parse a = Ok h → sub a 0 m = sub b 0 m → 12 ≤ m → m ≤ zlen a → m ≤ zlen b →
  ExtentHeader.parse b = Ok h.
Proof.
  intros H E Hm Ha Hb. rewrite <-H. unfold ExtentHeader.parse, EXT4_EXT_NODE_SIZE.
  rewrite !decide_False by lia. rewrite !u16_le_ok, !u32_le_ok by lia. unfold le16, le32.
  by rewrite !(sub_prefix a b m) by (done || lia).
Qed.

Lemma entries_prefix {B} (entry : bytes → Z → res B) a b n ys m :
  (∀ i, 0 ≤ i → entry_off i + 12 ≤ m → entry b i = entry a i) →
  traverse (entry a) (seqZ 0 n) = Ok ys → entry_off (zlen ys) ≤ m → traverse (entry b) (seqZ 0 n) = Ok ys.
Proof.
  intros He H Hm. pose proof (traverse_zlen _ _ _ H) as Hz. rewrite <-H.
  assert (Hext : ∀ l, (∀ i, i ∈ l → entry b i = entry a i) → traverse (entry b) l = traverse (entry a) l).
  { induction l as [|i l IH]; intros Hl; [done|]. cbn [traverse]. rewrite Hl by set_solver. by rewrite IH by set_solver. }
  apply Hext. intros i Hi%elem_of_seqZ. apply He; [lia|]. unfold entry_off, EXT4_EXT_NODE_SIZE in *. lia.
Qed.

Lemma leaf_entry_prefix a b m i : sub a 0 m = sub b 0 m → m ≤ zlen a → m ≤ zlen b → 0 ≤ i → entry_off i + 12 ≤ m →
  leaf_entry b i = leaf_entry a i.
Proof.
  intros E Ha Hb Hi Hm. unfold leaf_entry, EXT4_EXT_NODE_SIZE.
  assert (0 ≤ entry_off i) by (unfold entry_off, EXT4_EXT_NODE_SIZE; lia).
  rewrite !decide_False by lia. rewrite !slice_ok by lia. by rewrite (sub_prefix a b m) by (done || lia).
Qed.

Lemma index_entry_prefix a b m i : sub a 0 m = sub b 0 m → m ≤ zlen a → m ≤ zlen b → 0 ≤ i → entry_off i + 12 ≤ m →
  index_entry b i = index_entry a i.
Proof.
  intros E Ha Hb Hi Hm. unfold index_entry, EXT4_EXT_NODE_SIZE.
  assert (0 ≤ entry_off i) by (unfold entry_off, EXT4_EXT_NODE_SIZE; lia).
  rewrite !decide_False by lia. rewrite !slice_ok by lia. by rewrite (sub_prefix a b m) by (done || lia).
Qed.

Lemma leaf_node_prefix a b m exts : leaf_node a exts → sub a 0 m = sub b 0 m → m ≤ zlen a → m ≤ zlen b →
  entry_off (zlen exts) ≤ m → leaf_node b exts.
Proof.
  intros (h & Hh & Hd & Ht) E Ha Hb Hm. pose proof (zlen_nonneg exts). exists h.
  assert (12 ≤ m) by (unfold entry_off, EXT4_EXT_NODE_SIZE in Hm; lia).
  split; [by eapply parse_prefix|]. split; [done|].
  eapply entries_prefix; [|exact Ht|exact Hm]. intros. by apply (leaf_entry_prefix a b m).
Qed.

Lemma index_node_prefix a b m depth names : index_node a depth names → sub a 0 m = sub b 0 m → m ≤ zlen a → m ≤ zlen b →
  entry_off (zlen names) ≤ m → index_node b depth names.
Proof.
  intros (h & Hh & Hd & Ht) E Ha Hb Hm. pose proof (zlen_nonneg names). exists h.
  assert (12 ≤ m) by (unfold entry_off, EXT4_EXT_NODE_SIZE in Hm; lia).
  split; [by eapply parse_prefix|]. split; [done|].
  eapply entries_prefix; [|exact Ht|by rewrite zlen_fmap]. intros. by apply (index_entry_prefix a b m).
Qed.

Lemma leaf_entry_sub b i : 0 ≤ i → entry_off i + 12 ≤ zlen b → leaf_entry b i = Extent.parse (sub b (entry_off i) 12).
Proof.
  intros Hi Hb. assert (0 ≤ entry_off i) by (unfold entry_off, EXT4_EXT_NODE_SIZE; lia).
  unfold leaf_entry, EXT4_EXT_NODE_SIZE. rewrite decide_False by lia. by rewrite slice_ok by lia.
Qed.
Lemma index_entry_sub b i : 0 ≤ i → entry_off i + 12 ≤ zlen b → index_entry b i = ExtentIdx.parse (sub b (entry_off i) 12).
Proof.
  intros Hi Hb. assert (0 ≤ entry_off i) by (unfold entry_off, EXT4_EXT_NODE_SIZE; lia).
  unfold index_entry, EXT4_EXT_NODE_SIZE. rewrite decide_False by lia. by rewrite slice_ok by lia.
Qed.

(** A parsed node holds its entries. *)
Lemma leaf_node_fits buf exts : leaf_node buf exts → 0 < zlen exts → entry_off (zlen exts) ≤ zlen buf.
Proof.
  intros (h & _ & _ & Ht) Hn. pose proof (traverse_zlen _ _ _ Ht) as Hz.
  apply traverse_ok_inv in Ht. destruct (exts !! (length exts - 1)%nat) as [e|] eqn:E.
  2:{ apply lookup_ge_None in E. unfold zlen in Hn. lia. }
  destruct (Forall2_lookup_r _ _ _ _ _ Ht E) as (i & Hi & He). apply lookup_seqZ in Hi as [-> _].
  unfold leaf_entry in He. res_inv. unfold entry_off, EXT4_EXT_NODE_SIZE, zlen in *. lia.
Qed.

Lemma index_node_fits buf d names : index_node buf d names → 0 < zlen names → entry_off (zlen names) ≤ zlen buf.
Proof.
  intros (h & _ & _ & Ht) Hn. pose proof (traverse_zlen _ _ _ Ht) as Hz. rewrite zlen_fmap in Hz.
  apply traverse_ok_inv in Ht. destruct (((λ p, ExtentIdx.mk (fst p) (snd p)) <$> names) !! (length names - 1)%nat) as [e|] eqn:E.
  2:{ apply lookup_ge_None in E. rewrite length_fmap in E. unfold zlen in Hn. lia. }
  destruct (Forall2_lookup_r _ _ _ _ _ Ht E) as (i & Hi & He). apply lookup_seqZ in Hi as [-> _].
  unfold index_entry in He. res_inv. unfold entry_off, EXT4_EXT_NODE_SIZE, zlen in *. lia.
Qed.

(** ** Building nodes *)

Definition block_size_ok (bs : Z) : Prop := 1024 ≤ bs ≤ 65536.
Definition name_ok (p : Z * Z) : Prop := 0 ≤ fst p < 2 ^ 32 ∧ 0 ≤ snd p < 2 ^ 48.

Lemma node_max_range bs : block_size_ok bs → 84 ≤ node_max_entries bs ≤ 5460 ∧ entry_off (node_max_entries bs) ≤ bs - 4.
Proof.
  intros Hbs. unfold node_max_entries, entry_off, EXT4_EXT_NODE_SIZE, block_size_ok in *.
  pose proof (Z.div_le_lower_bound (bs - 12 - 4) 12 84). pose proof (Z.div_le_upper_bound (bs - 12 - 4) 12 5460).
  pose proof (Z.mul_div_le (bs - 12 - 4) 12). unfold as_u16. rewrite Z.mod_small by lia. lia.
Qed.

Lemma encoded_names_ok (idxs : list (Z * Z)) : Forall bytes_ok ((λ p, encode_index (fst p) (snd p)) <$> idxs).
Proof.
  apply Forall_fmap, Forall_true. intros e. unfold compose, encode_index, EXT4_EXT_NODE_SIZE.
  destruct (split_phys_block _).
  repeat (apply bytes_ok_splice; [|apply bytes_ok_le_split]). apply bytes_ok_zrep. lia.
Qed.

Lemma full_leaf_ok bs gen exts : block_size_ok bs → 0 ≤ gen < 2 ^ 32 → zlen exts ≤ node_max_entries bs → Forall ext_ok exts →
  ∃ out, build_full_leaf_block gen exts bs = Ok out ∧ zlen out = bs ∧ bytes_ok out ∧ leaf_node (sub out 0 (bs - 4)) exts.
Proof.
  intros Hbs Hg Hn Hok. destruct (node_max_range bs Hbs) as [Hm Hfit]. pose proof (zlen_nonneg exts).
  unfold block_size_ok in Hbs. unfold build_full_leaf_block, as_u16. rewrite Z.mod_small by lia.
  unfold entry_off, EXT4_EXT_NODE_SIZE in Hfit.
  destruct (build_node_spec bs (zlen exts) (node_max_entries bs) 0 gen (encode_extent <$> exts)) as (out & -> & Hs);
    [apply encoded_len|rewrite zlen_fmap; unfold extent_entry_offset, EXT4_EXT_NODE_SIZE; lia|lia..|].
  exists out. split; [done|]. split; [apply (node_len _ _ _ _ _ _ _ Hs)|].
  split; [apply (node_bytes _ _ _ _ _ _ _ Hs), encoded_bytes_ok|].
  apply (leaf_node_prefix out _ (bs - 4)).
  - eexists. split; [apply (node_header _ _ _ _ _ _ _ Hs); lia|]. split; [done|].
    eapply node_leaf_entries; [exact Hs| |exact Hok]. unfold extent_entry_offset, EXT4_EXT_NODE_SIZE. lia.
  - rewrite sub_sub by lia. done.
  - rewrite (node_len _ _ _ _ _ _ _ Hs). lia.
  - rewrite zlen_sub, (node_len _ _ _ _ _ _ _ Hs). lia.
  - unfold entry_off, EXT4_EXT_NODE_SIZE. lia.
Qed.

Lemma full_index_ok bs gen depth names : block_size_ok bs → 0 ≤ gen < 2 ^ 32 → 0 ≤ depth < 2 ^ 16 →
  zlen names ≤ node_max_entries bs → Forall name_ok names →
  ∃ out, build_full_index_block gen depth names bs = Ok out ∧ zlen out = bs ∧ bytes_ok out ∧
    index_node (sub out 0 (bs - 4)) depth names.
Proof.
  intros Hbs Hg Hd Hn Hok. destruct (node_max_range bs Hbs) as [Hm Hfit]. pose proof (zlen_nonneg names).
  unfold block_size_ok in Hbs. unfold build_full_index_block, as_u16. rewrite Z.mod_small by lia.
  unfold entry_off, EXT4_EXT_NODE_SIZE in Hfit.
  destruct (build_node_spec bs (zlen names) (node_max_entries bs) depth gen ((λ p, encode_index (fst p) (snd p)) <$> names))
    as (out & -> & Hs);
    [apply encoded_index_len|rewrite zlen_fmap; unfold extent_entry_offset, EXT4_EXT_NODE_SIZE; lia|lia..|].
  exists out. split; [done|]. split; [apply (node_len _ _ _ _ _ _ _ Hs)|].
  split; [apply (node_bytes _ _ _ _ _ _ _ Hs), encoded_names_ok|].
  apply (index_node_prefix out _ (bs - 4)).
  - eexists. split; [apply (node_header _ _ _ _ _ _ _ Hs); lia|]. split; [done|].
    eapply node_index_entries; [exact Hs| |exact Hok]. unfold extent_entry_offset, EXT4_EXT_NODE_SIZE. lia.
  - rewrite sub_sub by lia. done.
  - rewrite (node_len _ _ _ _ _ _ _ Hs). lia.
  - rewrite zlen_sub, (node_len _ _ _ _ _ _ _ Hs). lia.
  - unfold entry_off, EXT4_EXT_NODE_SIZE. lia.
Qed.

Lemma inline_leaf_ok gen exts : 0 ≤ gen < 2 ^ 32 → zlen exts ≤ 4 → Forall ext_ok exts →
  ∃ out, build_inline_leaf_root gen exts = Ok out ∧ zlen out = 60 ∧ bytes_ok out ∧ leaf_node out exts.
Proof.
  intros Hg Hn Hok. pose proof (zlen_nonneg exts). unfold build_inline_leaf_root, build_root. cbn [ExtentHeader.max ExtentHeader.depth ExtentHeader.generation].
  unfold as_u16. rewrite Z.mod_small by lia.
  destruct (build_node_spec 60 (zlen exts) 4 0 gen (encode_extent <$> exts)) as (out & -> & Hs);
    [apply encoded_len|rewrite zlen_fmap; unfold extent_entry_offset, EXT4_EXT_NODE_SIZE; lia|lia..|].
  exists out. split; [done|]. split; [apply (node_len _ _ _ _ _ _ _ Hs)|].
  split; [apply (node_bytes _ _ _ _ _ _ _ Hs), encoded_bytes_ok|].
  eexists. split; [apply (node_header _ _ _ _ _ _ _ Hs); lia|]. split; [done|].
  eapply node_leaf_entries; [exact Hs| |exact Hok]. unfold extent_entry_offset, EXT4_EXT_NODE_SIZE. lia.
Qed.

Lemma inline_index_ok gen depth names : 0 ≤ gen < 2 ^ 32 → 0 ≤ depth < 2 ^ 16 → zlen names ≤ 4 → Forall name_ok names →
  ∃ out, build_inline_index_root gen depth names = Ok out ∧ zlen out = 60 ∧ bytes_ok out ∧ index_node out depth names.
Proof.
  intros Hg Hd Hn Hok. pose proof (zlen_nonneg names). unfold build_inline_index_root, as_u16. rewrite Z.mod_small by lia.
  destruct (build_node_spec 60 (zlen names) 4 depth gen ((λ p, encode_index (fst p) (snd p)) <$> names)) as (out & -> & Hs);
    [apply encoded_index_len|rewrite zlen_fmap; unfold extent_entry_offset, EXT4_EXT_NODE_SIZE; lia|lia..|].
  exists out. split; [done|]. split; [apply (node_len _ _ _ _ _ _ _ Hs)|].
  split; [apply (node_bytes _ _ _ _ _ _ _ Hs), encoded_names_ok|].
  eexists. split; [apply (node_header _ _ _ _ _ _ _ Hs); lia|]. split; [done|].
  eapply node_index_entries; [exact Hs| |exact Hok]. unfold extent_entry_offset, EXT4_EXT_NODE_SIZE. lia.
Qed.

(** ** Abstract trees

    A tree of depth [d]: the extents of a leaf, or the children of an index
    node, each under its key and the block that holds it. *)
Fixpoint ntree (d : nat) : Type :=
  match d with O => list Extent.t | S d => list (Z * Z * ntree d) end.

Definition names {T} (kids : list (Z * Z * T)) : list (Z * Z) := fst <$> kids.

Fixpoint flat (d : nat) : ntree d → list Extent.t :=
  match d with O => λ t, t | S d => λ kids, concat ((λ k, flat d (snd k)) <$> kids) end.

(** The blocks below a node, parents first. *)
Fixpoint blocks (d : nat) : ntree d → list Z :=
  match d with O => λ _, [] | S d => λ kids, concat ((λ k, snd (fst k) :: blocks d (snd k)) <$> kids) end.

Definition first_key (d : nat) : ntree d → option Z :=
  match d with O => λ t, Extent.logical_block <$> head t | S d => λ kids, fst ∘ fst <$> head kids end.

(** No node is empty, and every key is the first logical block below it. *)
Fixpoint keyed (d : nat) : ntree d → Prop :=
  match d with
  | O => λ t, t ≠ []
  | S d => λ kids, kids ≠ [] ∧ Forall (λ k, keyed d (snd k) ∧ first_key d (snd k) = Some (fst (fst k))) kids
  end.

(** Every node but the one at the top is within a block's capacity, and every
    block number fits its 48 bits. *)
Definition width (d : nat) : ntree d → Z := match d with O => zlen | S d => zlen end.
Fixpoint capped (cap : Z) (d : nat) : ntree d → Prop :=
  match d with
  | O => λ _, True
  | S d => λ kids, Forall (λ k, width d (snd k) ≤ cap ∧ 0 ≤ snd (fst k) < 2 ^ 48 ∧ capped cap d (snd k)) kids
  end.

(** [buf] holds the tree, [V] saying what the blocks hold. *)
Fixpoint repr (V : Z → bytes → Prop) (d : nat) (buf : bytes) : ntree d → Prop :=
  match d with
  | O => λ t, leaf_node buf t
  | S d => λ kids, index_node buf (Z.of_nat (S d)) (names kids) ∧
      Forall (λ k, ∃ cbuf, V (snd (fst k)) cbuf ∧ repr V d cbuf (snd k)) kids
  end.

Lemma repr_mono (V V' : Z → bytes → Prop) d : ∀ buf (t : ntree d),
  (∀ b c, b ∈ blocks d t → V b c → V' b c) → repr V d buf t → repr V' d buf t.
Proof.
  induction d as [|d IH]; intros buf t HV; [done|]. cbn [repr]. intros [Hi Hk]. split; [done|].
  rewrite Forall_forall in *. intros [[k b] t'] Hin. destruct (Hk _ Hin) as (c & Hc & Hr). cbn [fst snd] in *.
  assert (Hsub : ∀ x, x ∈ b :: blocks d t' → x ∈ blocks (S d) t).
  { intros x Hx. cbn [blocks]. apply list_elem_of_In, in_concat. exists (b :: blocks d t').
    split; [|by apply list_elem_of_In]. apply list_elem_of_In, list_elem_of_fmap. by exists (k, b, t'). }
  exists c. split; [apply HV; [apply Hsub; set_solver|done]|]. apply IH; [|done].
  intros x cx Hx. apply HV, Hsub. set_solver.
Qed.

(** The key of a node is the first block its extents map. *)
Lemma first_key_flat d : ∀ t : ntree d, keyed d t →
  ∃ e rest, flat d t = e :: rest ∧ first_key d t = Some (Extent.logical_block e).
Proof.
  induction d as [|d IH]; intros t Hk.
  - destruct t as [|e t]; [done|]. by exists e, t.
  - cbn [keyed] in Hk. destruct Hk as [Hne Hk]. destruct t as [|[[k b] t'] rest]; [done|].
    apply Forall_cons in Hk as [[Hk1 Hk2] _]. cbn [fst snd] in *.
    destruct (IH t' Hk1) as (e & es & E1 & E2). rewrite E2 in Hk2. injection Hk2 as <-.
    cbn [flat]. rewrite fmap_cons. cbn [concat snd]. rewrite E1. by eexists e, _.
Qed.

Lemma keyed_cons d (k : Z * Z * ntree d) (kids : list (Z * Z * ntree d)) : kids ≠ [] →
  keyed (S d) (k :: kids) ↔ keyed d (snd k) ∧ first_key d (snd k) = Some (fst (fst k)) ∧ keyed (S d) kids.
Proof. intros. cbn [keyed]. rewrite Forall_cons. naive_solver. Qed.

Lemma exts_in_cut lo hi e1 e e2 : exts_in lo hi (e1 ++ e :: e2) →
  exts_in lo (Extent.logical_block e) e1 ∧ exts_in (Extent.logical_block e) hi (e :: e2).
Proof.
  revert lo. induction e1 as [|x e1 IH]; intros lo; cbn [app exts_in].
  - intros (H1 & H2 & H3). split; [done|]. split; [lia|]. done.
  - intros (H1 & H2 & H3). destruct (IH _ H3) as [H4 H5]. done.
Qed.

Lemma exts_in_nil_le lo hi exts : exts_in lo hi exts → lo ≤ hi.
Proof. apply exts_in_le. Qed.

(** The abstract tree is a tree in the sense of the lookups. *)
Section on_device.
Context `{Crc32c} (dev : reader) (bs : Z) (ctx : option ExtentVerifyCtx).

(** The block [b] can be read, passes its checksum and starts with [pre]. *)
Definition on_disk (b : Z) (pre : bytes) : Prop :=
  ∃ buf, (∀ what, read_node dev bs b what = Ok buf) ∧ verify_node ctx buf = Ok () ∧
    zlen buf = bs ∧ sub buf 0 (bs - 4) = pre.

Lemma repr_node_prefix V d pre buf (t : ntree d) m : repr V d pre t → sub buf 0 m = pre → m ≤ zlen buf → 0 ≤ m →
  keyed d t → repr V d buf t.
Proof.
  intros Hr E Hm Hm0 Hk. assert (Hz : zlen pre = m) by (subst pre; zl).
  assert (Ep : sub pre 0 m = sub buf 0 m) by (subst pre; rewrite sub_sub by lia; done).
  destruct d as [|d].
  - cbn [repr keyed] in *. eapply (leaf_node_prefix pre buf m); [done|done|lia|lia|].
    rewrite <-Hz. apply leaf_node_fits; [done|]. destruct t as [|e t]; [done|]. rewrite zlen_cons. pose proof (zlen_nonneg t). lia.
  - cbn [repr keyed] in *. destruct Hr as [Hi Hkids]. split; [|done].
    eapply (index_node_prefix pre buf m); [done|done|lia|lia|].
    rewrite <-Hz. eapply index_node_fits; [done|]. unfold names. rewrite zlen_fmap. destruct Hk as [Hne _].
    destruct t as [|k t]; [done|]. unfold zlen. simpl. lia.
Qed.

Lemma repr_tree d : ∀ buf (t : ntree d) lo hi, 12 ≤ bs →
  repr on_disk d buf t → keyed d t → leaf_ok lo hi (flat d t) →
  tree dev bs ctx d buf lo hi (flat d t) (blocks d t).
Proof.
  induction d as [|d IH]; intros buf t lo hi Hbs Hr Hk Hok.
  - cbn [repr] in Hr. destruct Hr as (h & Hh & Hd & Ht). cbn [tree]. exists h. split; [done|].
    unfold ExtentHeader.is_leaf. rewrite bool_decide_true by done. split; [done|]. split; [apply Hok|done].
  - cbn [repr] in Hr. destruct Hr as [(h & Hh & Hd & Ht) Hkids]. cbn [tree]. exists h. split; [done|].
    unfold ExtentHeader.is_leaf. rewrite bool_decide_false by lia.
    destruct t as [|k0 rest0]; [by destruct Hk|].
    exists (ExtentIdx.mk (fst (fst k0)) (snd (fst k0))), ((λ p, ExtentIdx.mk (fst p) (snd p)) <$> names rest0).
    split; [exact Ht|]. clear Ht Hd Hh h.
    revert k0 lo Hkids Hk Hok. induction rest0 as [|j rest IHr]; intros k0 lo Hkids Hk Hok;
      apply Forall_cons in Hkids as [Hc Hkids]; destruct Hc as (pre & (cbuf & Hread & Hver & Hz & Hpre) & Hrep).
    + destruct Hk as [_ Hk]. apply Forall_singleton in Hk as [Hk1 Hk2]. cbn [children names fmap list_fmap].
      cbn [flat blocks] in *. rewrite !fmap_cons in *. cbn [fmap list_fmap concat] in *. rewrite !app_nil_r in *.
      exists cbuf, (blocks d (snd k0)). split; [done|]. split; [|done].
      apply IH; [done| |done|done]. eapply (repr_node_prefix _ _ pre); [done|exact Hpre|lia|lia|done].
    + apply keyed_cons in Hk as (Hk1 & Hk2 & Hk); [|done].
      destruct (first_key_flat (S d) (j :: rest) Hk) as (e2 & f2 & Ef & Ekey).
      assert (Hflat : flat (S d) (k0 :: j :: rest) = flat d (snd k0) ++ flat (S d) (j :: rest)) by done.
      rewrite Hflat in *. destruct Hok as [Hin Hall]. rewrite Ef in Hin.
      apply exts_in_cut in Hin as [Hin1 Hin2]. rewrite <-Ef in Hin2. apply Forall_app in Hall as [Hall1 Hall2].
      cbn [first_key head fmap option_fmap option_map compose] in Ekey. injection Ekey as Ekey. rewrite <-Ekey in *.
      cbn [names fmap list_fmap children].
      exists cbuf, (flat d (snd k0)), (flat (S d) (j :: rest)), (blocks d (snd k0)), (blocks (S d) (j :: rest)).
      split; [done|]. split; [apply IH; [done| |done|done]; eapply (repr_node_prefix _ _ pre); [done|exact Hpre|lia|lia|done]|].
      split.
      { destruct (first_key_flat d (snd k0) Hk1) as (e1 & f1 & E1 & Ek1). rewrite Ek1 in Hk2. injection Hk2 as Hk2.
        cbn [ExtentIdx.logical_block]. rewrite <-Hk2. rewrite E1 in Hin1, Hall1. cbn [exts_in] in Hin1.
        destruct Hin1 as (_ & _ & Hle%exts_in_le). apply Forall_cons in Hall1 as [(_ & Hlen & _) _].
        eapply Z.lt_le_trans; [|exact Hle]. lia. }
      split; [|split; [done|]].
      * apply IHr; [done|done|split; [exact Hin2|exact Hall2]].
      * cbn [blocks]. rewrite !fmap_cons. cbn [concat]. done.
Qed.
End on_device.

(** ** Correctness of the repacking *)
Section repack.
Context {A : Type} (alloc : A → res (Z * A)) (bs : Z) (Hbs : block_size_ok bs).
Local Abbreviation cap := (node_max_entries bs).

(** What [ws] puts at the front of block [b]. *)
Definition wrote (ws : list (Z * bytes)) (b : Z) (pre : bytes) : Prop :=
  ∃ buf, (b, buf) ∈ ws ∧ zlen buf = bs ∧ sub buf 0 (bs - 4) = pre.

Lemma wrote_app_l ws1 ws2 b pre : wrote ws1 b pre → wrote (ws1 ++ ws2) b pre.
Proof. intros (buf & H & ?). exists buf. split; [set_solver|done]. Qed.
Lemma wrote_app_r ws1 ws2 b pre : wrote ws2 b pre → wrote (ws1 ++ ws2) b pre.
Proof. intros (buf & H & ?). exists buf. split; [set_solver|done]. Qed.

(** The blocks still on offer are [rest], the file's own before the caller's [drawn]. *)
Record feed (nodes drawn : list Z) (a' : A) (st : repacking A) (rest : list Z) : Prop := {
  feed_used : used st ++ supply st = nodes;
  feed_fresh : ∃ dr, fresh st ++ dr = drawn ∧ rest = supply st ++ dr ∧
                     draw alloc (length dr) (allocator st) = Ok (dr, a');
  feed_order : supply st = [] ∨ fresh st = [];
}.

Definition consumed (st : repacking A) : list Z := used st ++ fresh st.

Lemma take_block_ok nodes drawn a' st b rest : feed nodes drawn a' st (b :: rest) →
  ∃ st', take_block alloc st = Ok (b, st') ∧ feed nodes drawn a' st' rest ∧
    consumed st' = consumed st ++ [b] ∧ rwrites st' = rwrites st.
Proof.
  intros [Hu (dr & Hf & Hr & Hd) Ho]. unfold take_block. destruct (supply st) as [|s sup] eqn:Es.
  - cbn [app] in Hr. subst dr. cbn [length draw] in Hd.
    destruct (alloc (allocator st)) as [[b' ab]| | |]; try done. cbn [mbind res_bind] in *.
    destruct (draw alloc (length rest) ab) as [[r' a2]| | |] eqn:Ed; try done. cbn [mbind res_bind] in Hd.
    injection Hd as -> -> ->. eexists. split; [done|]. split; [|split; [|done]].
    + split; cbn [used supply fresh rwrites allocator]; [done| |by left].
      exists rest. rewrite <-app_assoc. done.
    + unfold consumed. cbn [used fresh]. by rewrite app_assoc.
  - destruct Ho as [|Hfr]; [done|]. cbn [app] in Hr. injection Hr as -> ->.
    eexists. split; [done|]. split; [|split; [|done]].
    + split; cbn [used supply fresh rwrites allocator]; [by rewrite <-app_assoc| |by right].
      exists dr. done.
    + unfold consumed. cbn [used fresh]. rewrite Hfr, !app_nil_r. done.
Qed.

(** One level of blocks, each built from its chunk. *)
Lemma pack_level_ok {E T} (key : E → Z) (build : list E → res bytes) (P : bytes → T → Prop) nodes drawn a' :
  ∀ (cs : list (list E)) (kids : list (Z * Z * T)) st rest above,
  Forall2 (λ c k, key <$> head c = Some (fst (fst k)) ∧
    ∃ buf, build c = Ok buf ∧ zlen buf = bs ∧ P (sub buf 0 (bs - 4)) (snd k)) cs kids →
  feed nodes drawn a' st ((snd ∘ fst <$> kids) ++ rest) →
  ∃ st' ws, foldM (λ '(above, st) chunk,
      '(block, st) ← take_block alloc st;
      bs ← build chunk;
      first ← unwrap (head chunk);
      Ok (above ++ [(key first, block)],
          mkRepacking (supply st) (used st) (fresh st) (rwrites st ++ [(block, bs)]) (allocator st)))
      (above, st) cs = Ok (above ++ names kids, st') ∧
    feed nodes drawn a' st' rest ∧ rwrites st' = rwrites st ++ ws ∧ ws.*1 = (snd ∘ fst <$> kids) ∧
    consumed st' = consumed st ++ (snd ∘ fst <$> kids) ∧
    Forall (λ k, ∃ pre, wrote ws (snd (fst k)) pre ∧ P pre (snd k)) kids.
Proof.
  intros cs kids st rest above H. revert st above. induction H as [|c [[k b] t] cs kids (Hk & buf & Hb & Hz & HP) H IH];
    intros st above Hf.
  { exists st, []. cbn [foldM names fmap list_fmap] in *. rewrite !app_nil_r. done. }
  rewrite fmap_cons in *. cbn [compose fst snd] in *.
  destruct (take_block_ok _ _ _ _ _ _ Hf) as (st1 & E1 & Hf1 & Hc1 & Hw1).
  cbn [foldM]. rewrite E1. cbn [mbind res_bind]. rewrite Hb. cbn [mbind res_bind].
  destruct (head c) as [x|]; [|done]. injection Hk as Hk. cbn [unwrap mbind res_bind].
  set (st2 := mkRepacking _ _ _ _ _).
  destruct (IH st2 (above ++ [(key x, b)])) as (st' & ws & -> & Hf' & Hw & Hw' & Hc & Hall).
  { destruct Hf1 as [H1 H2 H3]. split; [exact H1|exact H2|exact H3]. }
  exists st', ((b, buf) :: ws). split; [|split; [exact Hf'|split; [|split; [|split]]]].
  - rewrite <-app_assoc. unfold names. rewrite fmap_cons. cbn [fst app]. by rewrite Hk.
  - rewrite Hw. unfold st2. cbn [rwrites]. rewrite Hw1, <-app_assoc. done.
  - rewrite fmap_cons. cbn [fst]. by rewrite Hw'.
  - rewrite Hc. unfold st2, consumed in *. cbn [used fresh]. rewrite Hc1, <-app_assoc. done.
  - constructor.
    + exists (sub buf 0 (bs - 4)). split; [|exact HP]. exists buf. cbn [fst snd]. split; [set_solver|done].
    + eapply Forall_impl; [exact Hall|]. intros k' (pre & Hpre & HP'). exists pre. split; [|exact HP'].
      apply (wrote_app_r [_]). exact Hpre.
Qed.

(** How many blocks packing [n] entries full takes. *)
Fixpoint packed (fuel : nat) (n : Z) : Z :=
  if decide (n ≤ 4) then 0 else
  match fuel with O => 0 | S fuel => div_ceil n cap + packed fuel (div_ceil n cap) end.

(** ** Chunks *)

Lemma chunks_fmap {E F} (f : E → F) n (l : list E) : chunks n (f <$> l) = (fmap (M:=list) f) <$> chunks n l.
Proof.
  unfold chunks. rewrite length_fmap. generalize (length l) as fuel. intros fuel. revert l.
  induction fuel as [|fuel IH]; intros l; [done|]. destruct l as [|x l]; [done|].
  rewrite fmap_cons. cbn [chunks_loop]. change (f x :: (f <$> l)) with (f <$> (x :: l)).
  rewrite (fmap_cons (fmap (M:=list) f)). by rewrite <-fmap_take, <-fmap_drop, IH.
Qed.

Lemma chunks_loop_length {E} n : (1 ≤ n)%nat → ∀ fuel (l : list E), (length l ≤ fuel)%nat →
  Z.of_nat (length (chunks_loop fuel n l)) = div_ceil (zlen l) (Z.of_nat n).
Proof.
  intros Hn. induction fuel as [|fuel IH]; intros l Hl.
  { destruct l; [|simpl in Hl; lia]. unfold div_ceil. rewrite Z.div_small by (unfold zlen; simpl; lia). done. }
  destruct l as [|x l]; [unfold div_ceil; rewrite Z.div_small by (unfold zlen; simpl; lia); done|].
  cbn [chunks_loop length]. rewrite Nat2Z.inj_succ, IH by (rewrite length_drop; simpl in *; lia).
  unfold div_ceil, zlen. rewrite length_drop. set (m := length (x :: l)). assert (1 ≤ m)%nat by (unfold m; simpl; lia).
  destruct (decide (n ≤ m)%nat) as [Hle|Hle].
  - replace (Z.of_nat m + Z.of_nat n - 1) with (Z.of_nat (m - n) + Z.of_nat n - 1 + 1 * Z.of_nat n) by lia.
    rewrite Z.div_add by lia. lia.
  - replace (Z.of_nat (m - n)) with 0 by lia. rewrite (Z.div_small (0 + Z.of_nat n - 1)) by lia.
    apply (Z.div_unique _ _ 1 (Z.of_nat m - 1)); lia.
Qed.

Lemma chunks_length {E} n (l : list E) : 1 ≤ n → zlen (chunks n l) = div_ceil (zlen l) n.
Proof. intros. unfold chunks, zlen at 1. rewrite chunks_loop_length by lia. by rewrite Z2Nat.id by lia. Qed.

(** ** Levels *)

(** [kids] are the nodes of one level: full trees over what [ws] writes. *)
Definition level (ws : list (Z * bytes)) (d : nat) (kids : list (Z * Z * ntree d)) : Prop :=
  Forall (λ k, keyed d (snd k) ∧ first_key d (snd k) = Some (fst (fst k)) ∧
    width d (snd k) ≤ cap ∧ capped cap d (snd k) ∧
    ∃ pre, wrote ws (snd (fst k)) pre ∧ repr (wrote ws) d pre (snd k)) kids.

Lemma level_mono ws1 ws2 d kids : level ws1 d kids → level (ws1 ++ ws2) d kids.
Proof.
  intros H. eapply Forall_impl; [exact H|]. intros k (H1 & H2 & H3 & H4 & pre & H5 & H6). do 4 (split; [done|]).
  exists pre. split; [by apply wrote_app_l|]. eapply repr_mono; [|exact H6]. intros. by apply wrote_app_l.
Qed.

(** The first blocks mapped below the nodes are [u32]s, as in any sorted list of extents. *)
Lemma first_key_range d (t : ntree d) k : keyed d t → Forall ext_ok (flat d t) → first_key d t = Some k → 0 ≤ k < 2 ^ 32.
Proof.
  intros Hk Hok E. destruct (first_key_flat d t Hk) as (e & rest & Ef & Ek). rewrite Ek in E. injection E as <-.
  rewrite Ef in Hok. apply Forall_cons in Hok as [(He & _) _]. exact He.
Qed.

Lemma concat_fmap_concat {E F} (f : E → list F) (ls : list (list E)) :
  concat ((λ l, concat (f <$> l)) <$> ls) = concat (f <$> concat ls).
Proof. induction ls as [|l ls IH]; [done|]. rewrite fmap_cons. cbn [concat]. by rewrite fmap_app, concat_app, IH. Qed.

(** The level above, one node to a chunk. *)
Lemma level_up ws d (kids : list (Z * Z * ntree d)) (above : list (Z * Z * ntree (S d))) ws' :
  level ws d kids → (snd <$> above : list (ntree (S d))) = chunks cap kids →
  Forall (λ k, fst <$> head (names (snd k : list (Z * Z * ntree d))) = Some (fst (fst k))) above →
  Forall (λ k, ∃ pre, wrote ws' (snd (fst k)) pre ∧ index_node pre (Z.of_nat (S d)) (names (snd k))) above →
  Forall (λ k, 0 ≤ snd (fst k) < 2 ^ 48) kids →
  level (ws ++ ws') (S d) above.
Proof.
  intros Hl Hch Hkey Hw Hb. destruct (node_max_range bs Hbs) as [Hm _].
  destruct (chunks_spec cap kids ltac:(lia)) as [Hcat Hne].
  apply Forall_forall. intros [[k b] t] Hin. cbn [fst snd].
  assert (Ht : (t : list (Z * Z * ntree d)) ∈ chunks cap kids) by (rewrite <-Hch; apply list_elem_of_fmap; by exists (k, b, t)).
  rewrite Forall_forall in Hne. pose proof (proj1 (Forall_forall _ _) Hkey) as Hkey'.
  pose proof (proj1 (Forall_forall _ _) Hw) as Hw'. destruct (Hne _ Ht) as [Hne' Hlen].
  assert (Hsub : ∀ x, x ∈ (t : list (Z * Z * ntree d)) → x ∈ kids).
  { intros x Hx. rewrite <-Hcat. apply list_elem_of_In, in_concat. exists t. split; by apply list_elem_of_In. }
  unfold level in Hl. rewrite Forall_forall in Hl. rewrite Forall_forall in Hb. cbn [keyed first_key width capped repr].
  pose proof (Hkey' _ Hin) as Hk. cbn [fst snd] in Hk.
  split; [split; [done|]; apply Forall_forall; intros x Hx; destruct (Hl x (Hsub x Hx)) as (? & ? & _); done|].
  split; [destruct t as [|[[k0 b0] t0] t]; done|]. split; [done|]. split.
  { apply Forall_forall. intros x Hx. destruct (Hl x (Hsub x Hx)) as (_ & _ & ? & ? & _). split; [done|]. split; [by apply Hb, Hsub|done]. }
  destruct (Hw' _ Hin) as (pre & Hpre & Hnode). exists pre. cbn [fst snd] in *. split; [by apply wrote_app_r|]. split; [done|].
  apply Forall_forall. intros x Hx. destruct (Hl x (Hsub x Hx)) as (_ & _ & _ & _ & pre' & Hp' & Hr').
  exists pre'. split; [by apply wrote_app_l|]. eapply repr_mono; [|exact Hr']. intros. by apply wrote_app_l.
Qed.

(** The nodes named by [blks], one to a chunk. *)
Definition gather {T} (key : T → option Z) (blks : list Z) (cs : list T) : list (Z * Z * T) :=
  zip_with (λ b c, (default 0 (key c), b, c)) blks cs.

Lemma gather_snd {T} (key : T → option Z) blks cs : length blks = length cs → snd <$> gather key blks cs = cs.
Proof. revert cs. induction blks as [|b blks IH]; intros [|c cs] H; simplify_eq/=; [done|]. f_equal. by apply IH. Qed.
Lemma gather_blocks {T} (key : T → option Z) blks cs : length blks = length cs → snd ∘ fst <$> gather key blks cs = blks.
Proof. revert cs. induction blks as [|b blks IH]; intros [|c cs] H; simplify_eq/=; [done|]. f_equal. by apply IH. Qed.

Lemma gather_Forall2 {E T} (f : T → list E) (key : T → option Z) (Q : list E → Z * Z * T → Prop) blks cs :
  length blks = length cs → (∀ b c, c ∈ cs → Q (f c) (default 0 (key c), b, c)) →
  Forall2 Q (f <$> cs) (gather key blks cs).
Proof.
  revert cs. induction blks as [|b blks IH]; intros [|c cs] H HQ; simplify_eq/=; constructor.
  - apply HQ. set_solver.
  - apply IH; [done|]. intros. apply HQ. set_solver.
Qed.

Lemma gather_Forall {T} (key : T → option Z) (Q : Z * Z * T → Prop) blks cs :
  (∀ b c, c ∈ cs → Q (default 0 (key c), b, c)) → Forall Q (gather key blks cs).
Proof.
  revert cs. induction blks as [|b blks IH]; intros [|c cs] HQ; try constructor.
  - apply HQ. set_solver.
  - apply IH. intros. apply HQ. set_solver.
Qed.

Lemma packed_small fuel n : n ≤ 4 → packed fuel n = 0.
Proof. intros. destruct fuel; cbn [packed]; by rewrite decide_True. Qed.

Lemma packed_more fuel n : 4 < n → packed (S fuel) n = div_ceil n cap + packed fuel (div_ceil n cap).
Proof. intros. cbn [packed]. by rewrite decide_False by lia. Qed.

Lemma packed_nonneg fuel : ∀ n, 0 ≤ packed fuel n.
Proof.
  destruct (node_max_range bs Hbs) as [Hm _].
  induction fuel as [|fuel IH]; intros n; cbn [packed]; case_decide; try lia.
  pose proof (div_ceil_nonneg n cap ltac:(lia) ltac:(lia)). specialize (IH (div_ceil n cap)). lia.
Qed.

Lemma ceil_shrinks n : 4 < n → 1 ≤ div_ceil n cap ∧ 2 * div_ceil n cap ≤ n ∧ n ≤ div_ceil n cap * cap.
Proof.
  destruct (node_max_range bs Hbs) as [Hm _]. intros Hn. unfold div_ceil.
  pose proof (Z.div_mod (n + cap - 1) cap). pose proof (Z.mod_pos_bound (n + cap - 1) cap).
  assert ((n + cap - 1) / cap * 84 ≤ n + 83); nia.
Qed.

Definition u48s (l : list Z) : Prop := Forall (λ b, 0 ≤ b < 2 ^ 48) l.

Lemma names_ok ws d (kids : list (Z * Z * ntree d)) : level ws d kids → Forall ext_ok (flat (S d) kids) →
  u48s (snd ∘ fst <$> kids) → Forall name_ok (names kids).
Proof.
  intros Hl Hok Hb. apply Forall_forall. intros p Hp. apply list_elem_of_fmap in Hp as (k & -> & Hk).
  unfold level, u48s in *. rewrite Forall_forall in Hl. rewrite Forall_forall in Hok. rewrite Forall_forall in Hb.
  destruct (Hl k Hk) as (H1 & H2 & _). split.
  - eapply (first_key_range d (snd k)); [done| |exact H2]. apply Forall_forall. intros e He. apply Hok.
    cbn [flat]. apply list_elem_of_In, in_concat. exists (flat d (snd k)). split; [|by apply list_elem_of_In].
    apply list_elem_of_In, list_elem_of_fmap. by exists k.
  - apply Hb, list_elem_of_fmap. by exists k.
Qed.

Lemma gather_concat {T} (key : T → option Z) (f : T → list Z) blks cs : length blks = length cs →
  concat ((λ k, snd (fst k) :: f (snd k)) <$> gather key blks cs) ≡ₚ blks ++ concat (f <$> cs).
Proof.
  revert cs. induction blks as [|b blks IH]; intros [|c cs] H; simplify_eq/=; [done|].
  change (zip_with _ blks cs) with (gather key blks cs).
  rewrite (IH cs) by done. rewrite !app_assoc. f_equiv. f_equiv. apply Permutation_app_comm.
Qed.

Lemma gather_flat {T E} (key : T → option Z) (f : T → list E) blks cs : length blks = length cs →
  concat ((λ k, f (snd k)) <$> gather key blks cs) = concat (f <$> cs).
Proof.
  revert cs. induction blks as [|b blks IH]; intros [|c cs] H; simplify_eq/=; [done|]. f_equal. by apply IH.
Qed.

Lemma gather_length {T} (key : T → option Z) blks cs : length blks = length cs → zlen (gather key blks cs) = zlen cs.
Proof. intros. unfold gather, zlen. rewrite length_zip_with. lia. Qed.

Local Abbreviation ztake n l := (take (Z.to_nat n) l).
Local Abbreviation zdrop n l := (drop (Z.to_nat n) l).

Lemma zsplit {T} n (l : list T) : 0 ≤ n ≤ zlen l → ∃ l1 l2, l = l1 ++ l2 ∧ zlen l1 = n ∧ ztake n l = l1 ∧ zdrop n l = l2.
Proof.
  intros Hn. exists (ztake n l), (zdrop n l). split; [by rewrite take_drop|]. split; [|done].
  unfold zlen in *. rewrite length_take. lia.
Qed.

Lemma ztake_add {T} n m (l1 l2 : list T) : 0 ≤ m → zlen l1 = n → ztake (n + m) (l1 ++ l2) = l1 ++ ztake m l2.
Proof.
  intros Hm <-. rewrite Z2Nat.inj_add by (done || apply zlen_nonneg). unfold zlen. rewrite Nat2Z.id. apply take_app_add.
Qed.
Lemma zdrop_add {T} n m (l1 l2 : list T) : 0 ≤ m → zlen l1 = n → zdrop (n + m) (l1 ++ l2) = zdrop m l2.
Proof.
  intros Hm <-. rewrite Z2Nat.inj_add by (done || apply zlen_nonneg). unfold zlen. rewrite Nat2Z.id. apply drop_app_add.
Qed.

(** The packing of one level of index nodes. *)
Lemma pack_indices_ok nodes drawn a' gen d (kids : list (Z * Z * ntree d)) st blks rest : 0 ≤ gen < 2 ^ 32 →
  Z.of_nat (S d) < 2 ^ 16 →
  level (rwrites st) d kids → u48s (snd ∘ fst <$> kids) → Forall ext_ok (flat (S d) kids) → kids ≠ [] →
  feed nodes drawn a' st (blks ++ rest) → zlen blks = div_ceil (zlen kids) cap →
  ∃ (above : list (Z * Z * ntree (S d))) st' ws,
    pack_level alloc fst (λ chunk, build_full_index_block gen (Z.of_nat (S d)) chunk bs) (chunks cap (names kids)) st
      = Ok (names above, st') ∧
    zlen above = zlen blks ∧ snd ∘ fst <$> above = blks ∧ level (rwrites st') (S d) above ∧
    flat (S (S d)) above = flat (S d) kids ∧ blocks (S (S d)) above ≡ₚ blocks (S d) kids ++ blks ∧
    feed nodes drawn a' st' rest ∧ rwrites st' = rwrites st ++ ws ∧ ws.*1 = blks ∧
    consumed st' = consumed st ++ blks.
Proof.
  intros Hg Hd Hl Hu Hok Hne Hf Hz. destruct (node_max_range bs Hbs) as [Hm _].
  destruct (chunks_spec cap kids ltac:(lia)) as [Hcat Hch]. set (cs := chunks cap kids) in *.
  assert (Hlen : length blks = length cs).
  { apply Nat2Z.inj. fold (zlen blks) (zlen cs). rewrite Hz. symmetry. apply chunks_length. lia. }
  set (key := λ t : list (Z * Z * ntree d), fst ∘ fst <$> head t).
  set (above := gather key blks cs : list (Z * Z * ntree (S d))).
  pose proof (names_ok _ _ _ Hl Hok Hu) as Hn.
  assert (Hkey : ∀ t, t ∈ cs → fst <$> head (names t) = Some (default 0 (key t))).
  { intros t Ht. rewrite Forall_forall in Hch. destruct (Hch t Ht) as [Ht0 _]. unfold key. by destruct t. }
  destruct (pack_level_ok (T := ntree (S d)) fst (λ chunk, build_full_index_block gen (Z.of_nat (S d)) chunk bs)
    (λ pre t, index_node pre (Z.of_nat (S d)) (names (t : list (Z * Z * ntree d)))) nodes drawn a'
    (names <$> cs) above st rest []) as (st' & ws & E & Hf' & Hw & Hws & Hc & Hall).
  { apply gather_Forall2; [done|]. intros b t Ht. cbn [fst snd]. split; [by apply Hkey|].
    pose proof (proj1 (Forall_forall _ _) Hch) as Hch'. destruct (Hch' t Ht) as [Ht0 Htl].
    destruct (full_index_ok bs gen (Z.of_nat (S d)) (names t)) as (out & Eout & Hz' & _ & Hnode); [done|done|lia| | |].
    - unfold names. rewrite zlen_fmap. done.
    - apply Forall_forall. intros p Hp. rewrite Forall_forall in Hn. apply Hn.
      unfold names in *. apply list_elem_of_fmap in Hp as (k & -> & Hk). apply list_elem_of_fmap. exists k.
      split; [done|]. rewrite <-Hcat. apply list_elem_of_In, in_concat. exists t. split; by apply list_elem_of_In.
    - exists out. split; [exact Eout|done]. }
  { unfold above. by rewrite gather_blocks. }
  assert (Hcs : chunks cap (names kids) = names <$> cs) by apply (chunks_fmap fst).
  unfold pack_level. rewrite Hcs. cbn [app] in E. setoid_rewrite E. clear E. unfold above in *. rewrite gather_blocks in * by done.
  exists (gather key blks cs), st', ws. cbn [app].
  split; [done|]. split; [rewrite gather_length by done; unfold zlen; by rewrite Hlen|]. split; [by apply gather_blocks|]. split; [|split; [|split]].
  - rewrite Hw. eapply level_up; [exact Hl|by apply gather_snd| |exact Hall|apply Forall_fmap in Hu; exact Hu].
    apply gather_Forall. intros b t Ht. by apply Hkey.
  - etransitivity; [exact (gather_flat key (flat (S d)) blks cs Hlen)|].
    etransitivity; [exact (concat_fmap_concat (λ k, flat d (snd k)) cs)|]. by rewrite Hcat.
  - etransitivity; [exact (gather_concat key (blocks (S d)) blks cs Hlen)|].
    setoid_rewrite (concat_fmap_concat (λ k, snd (fst k) :: blocks d (snd k)) cs). rewrite Hcat. apply Permutation_app_comm.
  - done.
Qed.

Lemma pack_up_ok nodes drawn a' gen : 0 ≤ gen < 2 ^ 32 → ∀ fuel j d (kids : list (Z * Z * ntree d)) st rest,
  level (rwrites st) d kids → u48s (snd ∘ fst <$> kids) → Forall ext_ok (flat (S d) kids) → kids ≠ [] →
  zlen kids ≤ Z.of_nat fuel → zlen kids ≤ 4 * 84 ^ Z.of_nat j → Z.of_nat (d + j) < 2 ^ 16 - 1 →
  feed nodes drawn a' st rest → packed fuel (zlen kids) ≤ zlen rest → u48s rest →
  let n := packed fuel (zlen kids) in
  ∃ d' (kids' : list (Z * Z * ntree d')) st' ws,
    pack_up alloc fuel gen bs (Z.of_nat (S d)) (names kids) st = Ok (Z.of_nat (S d'), names kids', st') ∧
    zlen kids' ≤ 4 ∧ kids' ≠ [] ∧ level (rwrites st') d' kids' ∧ flat (S d') kids' = flat (S d) kids ∧
    u48s (snd ∘ fst <$> kids') ∧ feed nodes drawn a' st' (zdrop n rest) ∧
    rwrites st' = rwrites st ++ ws ∧ ws.*1 = ztake n rest ∧ consumed st' = consumed st ++ ztake n rest ∧
    blocks (S d') kids' ≡ₚ blocks (S d) kids ++ ztake n rest ∧ (d' ≤ d + j)%nat.
Proof.
  intros Hg. destruct (node_max_range bs Hbs) as [Hm _].
  induction fuel as [|fuel IH]; intros j d kids st rest Hl Hu Hok Hne Hn Hj Hd Hf Hp Hr.
  { destruct kids; [done|]. unfold zlen in Hn. simpl in Hn. lia. }
  assert (En : zlen (names kids) = zlen kids) by apply zlen_fmap.
  cbn [pack_up]. destruct (decide (zlen kids ≤ 4)) as [Hle|Hle].
  { rewrite decide_True by lia. rewrite packed_small by done. exists d, kids, st, []. cbn zeta. rewrite Z2Nat.inj_0, drop_0, take_0, !app_nil_r. repeat (split; [done|]). lia. }
  destruct j as [|j]; [simpl in Hj; lia|]. rewrite Nat2Z.inj_succ, Z.pow_succ_r in Hj by lia.
  assert (Hj' : div_ceil (zlen kids) cap ≤ 4 * 84 ^ Z.of_nat j).
  { unfold div_ceil. apply Z.lt_succ_r, Z.div_lt_upper_bound; [lia|]. nia. }
  rewrite packed_more in * by lia. rewrite (decide_False (P := zlen (names kids) ≤ 4)) by lia.
  destruct (ceil_shrinks (zlen kids)) as (Hc1 & Hc2 & _); [lia|]. pose proof (packed_nonneg fuel (div_ceil (zlen kids) cap)) as Hpn.
  destruct (zsplit (div_ceil (zlen kids) cap) rest) as (blks & rest1 & -> & Hz & _ & _); [lia|].
  apply Forall_app in Hr as [Hr1 Hr2].
  destruct (pack_indices_ok nodes drawn a' gen d kids st blks rest1)
    as (above & st1 & ws1 & -> & Hz1 & Hb1 & Hl1 & Hf1 & Hbl1 & Hfd1 & Hw1 & Hws1 & Hc); [done|lia|done..|].
  cbn [mbind res_bind]. replace (as_u16 (Z.of_nat (S d) + 1)) with (Z.of_nat (S (S d))).
  2:{ unfold as_u16. rewrite Z.mod_small by lia. lia. }
  pose proof (eq_trans Hz1 Hz) as Hm1. rewrite <-Hm1 in *. rewrite zlen_app in Hp.
  destruct (IH j (S d) above st1 rest1) as (d' & kids' & st' & ws & -> & H1 & H2 & H3 & H4 & H5 & H6 & H7 & H8 & H9 & H10 & H11).
  { done. } { by rewrite Hb1. } { by rewrite Hf1. } { intros ->. unfold zlen in *. simpl in *. lia. } { lia. } { lia. } { lia. }
  { done. } { lia. } { done. }
  exists d', kids', st', (ws1 ++ ws). cbn zeta. rewrite ztake_add, zdrop_add by done.
  split; [done|]. do 3 (split; [done|]). split; [by rewrite H4|]. do 2 (split; [done|]).
  split; [by rewrite H7, Hw1, app_assoc|]. split; [by rewrite fmap_app, Hws1, H8|].
  split; [by rewrite H9, Hc, app_assoc|]. split; [by rewrite H10, Hbl1, app_assoc|].
  lia.
Qed.

(** The leaves. *)
Lemma pack_leaves_ok nodes drawn a' gen exts st blks rest : 0 ≤ gen < 2 ^ 32 →
  Forall ext_ok exts → feed nodes drawn a' st (blks ++ rest) → zlen blks = div_ceil (zlen exts) cap →
  ∃ (leaves : list (Z * Z * ntree 0)) st' ws,
    pack_level alloc Extent.logical_block (λ chunk, build_full_leaf_block gen chunk bs) (chunks cap exts) st
      = Ok (names leaves, st') ∧
    zlen leaves = zlen blks ∧ snd ∘ fst <$> leaves = blks ∧ level ws 0 leaves ∧ flat 1 leaves = exts ∧
    blocks 1 leaves ≡ₚ blks ∧ feed nodes drawn a' st' rest ∧ rwrites st' = rwrites st ++ ws ∧ ws.*1 = blks ∧
    consumed st' = consumed st ++ blks.
Proof.
  intros Hg Hok Hf Hz. destruct (node_max_range bs Hbs) as [Hm _].
  destruct (chunks_spec cap exts ltac:(lia)) as [Hcat Hch]. set (cs := chunks cap exts) in *.
  assert (Hlen : length blks = length cs).
  { apply Nat2Z.inj. fold (zlen blks) (zlen cs). rewrite Hz. symmetry. apply chunks_length. lia. }
  set (key := λ t : list Extent.t, Extent.logical_block <$> head t).
  set (leaves := gather key blks cs : list (Z * Z * ntree 0)).
  assert (Hkey : ∀ t, t ∈ cs → key t = Some (default 0 (key t))).
  { intros t Ht. rewrite Forall_forall in Hch. destruct (Hch t Ht) as [Ht0 _]. unfold key. by destruct t. }
  destruct (pack_level_ok (T := ntree 0) Extent.logical_block (λ chunk, build_full_leaf_block gen chunk bs)
    (λ pre t, leaf_node pre t) nodes drawn a' cs leaves st rest []) as (st' & ws & E & Hf' & Hw & Hws & Hc & Hall).
  { rewrite <-(list_fmap_id cs). apply gather_Forall2; [done|]. intros b t Ht. cbn [fst snd]. split; [by apply Hkey|].
    pose proof (proj1 (Forall_forall _ _) Hch) as Hch'. destruct (Hch' t Ht) as [Ht0 Htl].
    destruct (full_leaf_ok bs gen t) as (out & Eout & Hz' & _ & Hnode); [done|done|lia| |].
    - apply Forall_forall. intros e He. rewrite Forall_forall in Hok. apply Hok. rewrite <-Hcat.
      apply list_elem_of_In, in_concat. exists t. split; by apply list_elem_of_In.
    - exists out. split; [exact Eout|done]. }
  { unfold leaves. by rewrite gather_blocks. }
  unfold leaves in *. rewrite gather_blocks in * by done. exists (gather key blks cs), st', ws.
  split; [exact E|]. split; [rewrite gather_length by done; unfold zlen; by rewrite Hlen|]. split; [by apply gather_blocks|].
  split; [|split; [|split; [|done]]].
  - unfold level. apply Forall_and; split.
    { apply gather_Forall. intros b t Ht. rewrite Forall_forall in Hch. by apply Hch. }
    apply Forall_and; split; [apply gather_Forall; intros b t Ht; by apply Hkey|].
    apply Forall_and; split; [apply gather_Forall; intros b t Ht; rewrite Forall_forall in Hch; by apply Hch|].
    apply Forall_and; split; [apply gather_Forall; done|]. exact Hall.
  - etransitivity; [exact (gather_flat key (λ t, t) blks cs Hlen)|]. by rewrite list_fmap_id.
  - etransitivity; [exact (gather_concat key (λ t, []) blks cs Hlen)|].
    assert (Hnil : ∀ l : list (list Extent.t), concat ((λ _, @nil Z) <$> l) = []) by (by induction l).
    rewrite Hnil. by rewrite app_nil_r.
Qed.

(** Blocks the whole tree over [n] extents takes below the inode. *)
Definition repack_blocks (n : Z) : Z := packed (S (Z.to_nat (div_ceil n cap))) n.

(** A device on which the writes have landed, tail checksums aside. *)
Definition landed `{Crc32c} (dev : reader) (ctx : option ExtentVerifyCtx) (ws : list (Z * bytes)) : Prop :=
  ∀ b buf, (b, buf) ∈ ws → on_disk dev bs ctx b (sub buf 0 (bs - 4)).

Lemma exts_in_zlen lo hi exts : exts_in lo hi exts → Forall ext_ok exts → zlen exts ≤ hi - lo.
Proof.
  revert lo. induction exts as [|e exts IH]; intros lo; cbn [exts_in].
  - intros. unfold zlen. simpl. lia.
  - intros (H1 & H2 & H3) [(_ & H4 & _) Hok]%Forall_cons. specialize (IH _ H3 Hok). rewrite zlen_cons. lia.
Qed.
Lemma repr_landed `{Crc32c} dev ctx ws d pre (t : ntree d) : landed dev ctx ws → repr (wrote ws) d pre t →
  repr (on_disk dev bs ctx) d pre t.
Proof.
  intros Hl. apply repr_mono. intros b c _ (buf & Hin & _ & <-). by apply Hl.
Qed.

(** What every root of a repacked tree gives its readers. *)
Definition reads_as `{Crc32c} (dev : reader) (ctx : option ExtentVerifyCtx) (root : bytes) (exts : list Extent.t)
    (nodes : list Z) : Prop :=
  (∀ l, lookup_verified dev bs root l ctx = Ok (find_ext l exts)) ∧
  ∃ ns, collect_all_with_nodes dev bs root = Ok (exts, ns) ∧ ns ≡ₚ nodes.

Lemma tree_reads_as `{Crc32c} dev ctx d root (t : ntree d) lo hi nodes : (d ≤ 5)%nat →
  repr (on_disk dev bs ctx) d root t → (d = 0%nat ∨ keyed d t) → leaf_ok lo hi (flat d t) → blocks d t ≡ₚ nodes →
  reads_as dev ctx root (flat d t) nodes.
Proof.
  intros Hd Hr Hk Hok Hp. unfold block_size_ok in Hbs.
  assert (Ht : tree dev bs ctx d root lo hi (flat d t) (blocks d t)).
  { destruct d as [|d]; [|apply repr_tree; [lia|done| |done]; by destruct Hk].
    cbn [repr tree flat blocks] in *. destruct Hr as (h & Hh & Hh0 & Ht). exists h. split; [done|].
    unfold ExtentHeader.is_leaf. rewrite bool_decide_true by done. split; [done|]. split; [apply Hok|done]. }
  assert (∃ h, ExtentHeader.parse root = Ok h ∧ ExtentHeader.depth h = Z.of_nat d) as (h & Hh & Hhd).
  { destruct d; [destruct Hr as (h & ? & ? & _)|destruct Hr as [(h & ? & ? & _) _]]; by exists h. }
  assert (E : Z.to_nat (ExtentHeader.depth h) = d) by lia. rewrite <-E in Ht at 1. unfold EXT4_EXT_MAX_DEPTH.
  assert (Hmax : ExtentHeader.depth h ≤ EXT4_EXT_MAX_DEPTH) by (unfold EXT4_EXT_MAX_DEPTH; lia).
  split; [intros l; by eapply lookup_verified_spec|]. exists (blocks d t). split; [by eapply collect_spec|done].
Qed.

Lemma level_keyed ws d kids : level ws d kids → kids ≠ [] → keyed (S d) kids.
Proof. intros Hl Hne. split; [done|]. eapply Forall_impl; [exact Hl|]. by intros k (? & ? & _). Qed.

Lemma feed_done nodes drawn a' st rest m : feed nodes drawn a' st rest →
  zlen rest = zlen nodes + zlen drawn - m → zlen drawn = Z.max 0 (m - zlen nodes) → 0 ≤ m →
  used st = ztake m nodes ∧ fresh st = drawn ∧ allocator st = a'.
Proof.
  intros [Hu (dr & Hf & -> & Hd) _] Hr Hz Hm. subst nodes drawn. rewrite !zlen_app in *.
  pose proof (zlen_nonneg (used st)). pose proof (zlen_nonneg (supply st)). pose proof (zlen_nonneg dr).
  pose proof (zlen_nonneg (fresh st)).
  assert (Hdr : dr = []) by (destruct dr; [done|rewrite zlen_cons in *; pose proof (zlen_nonneg dr); lia]).
  subst dr. cbn [length draw] in Hd. injection Hd as <-. rewrite app_nil_r in *. change (zlen []) with 0 in *.
  split; [|done]. destruct (decide (supply st = [])) as [E|E].
  - rewrite E, app_nil_r in *. rewrite take_ge; [done|]. change (zlen []) with 0 in *. unfold zlen in *. lia.
  - assert (zlen (supply st) ≠ 0) by (intros ?; destruct (supply st); [done|unfold zlen in *; simpl in *; lia]).
    rewrite take_app_length'; [done|]. unfold zlen in *. lia.
Qed.

Lemma repack_ok gen exts nodes drawn a a' : 0 ≤ gen < 2 ^ 32 → leaf_ok 0 (2 ^ 32) exts →
  draw alloc (length drawn) a = Ok (drawn, a') → repack_blocks (zlen exts) ≤ zlen (nodes ++ drawn) →
  zlen drawn = Z.max 0 (repack_blocks (zlen exts) - zlen nodes) → u48s (nodes ++ drawn) →
  let m := Z.to_nat (repack_blocks (zlen exts)) in
  ∃ root ws, plan_repack_tree alloc gen exts bs nodes a = Ok (mkRepacked root ws (take m nodes) drawn, a') ∧
    zlen root = 60 ∧ ws.*1 = take m nodes ++ drawn ∧
    ∀ (C : Crc32c) dev ctx, @landed C dev ctx ws → @reads_as C dev ctx root exts (take m nodes ++ drawn).
Proof.
  intros Hg Hok Hd Hn Hz Hu. destruct (node_max_range bs Hbs) as [Hm _]. pose proof Hok as [Hin Hall].
  pose proof (exts_in_zlen _ _ _ Hin Hall) as Hlen. unfold repack_blocks in *. unfold plan_repack_tree.
  destruct (decide (zlen exts ≤ 4)) as [Hle|Hle].
  { rewrite packed_small in * by done. cbn zeta. rewrite Z2Nat.inj_0, take_0. pose proof (zlen_nonneg nodes).
    destruct drawn; [|rewrite zlen_cons in Hz; pose proof (zlen_nonneg drawn); lia].
    cbn [length draw] in Hd. injection Hd as <-.
    destruct (inline_leaf_ok gen exts) as (root & -> & Hr & _ & Hnode); [done..|].
    exists root, []. split; [done|]. split; [done|]. split; [done|]. intros ? dev ctx _.
    apply (tree_reads_as dev ctx 0 root exts 0 (2 ^ 32)); [lia|exact Hnode|by left|exact Hok|done]. }
  rewrite packed_more in * by lia. destruct (ceil_shrinks (zlen exts)) as (Hc1 & Hc2 & Hc3); [lia|].
  pose proof (packed_nonneg (Z.to_nat (div_ceil (zlen exts) cap)) (div_ceil (zlen exts) cap)) as Hpn.
  destruct (zsplit (div_ceil (zlen exts) cap) (nodes ++ drawn)) as (blks & rest & Esp & Hzb & _ & _); [lia|].
  assert (Hu' := Hu). rewrite Esp in Hu'. apply Forall_app in Hu' as [Hu1 Hu2].
  rewrite decide_False by lia.
  destruct (pack_leaves_ok nodes drawn a' gen exts (mkRepacking nodes [] [] [] a) blks rest)
    as (leaves & st1 & ws1 & -> & Hz1 & Hb1 & Hl1 & Hf1 & Hbl1 & Hfd1 & Hw1 & Hws1 & Hcs1); [done..| |done|].
  { split; [done| |by right]. exists drawn. split; [done|]. split; [|done]. by rewrite <-Esp. }
  cbn [rwrites] in Hw1. cbn [mbind res_bind].
  assert (Hnl : length (names leaves) = Z.to_nat (div_ceil (zlen exts) cap)).
  { unfold names. rewrite length_fmap. unfold zlen in *. lia. }
  rewrite Hnl. pose proof (eq_trans Hz1 Hzb) as Hm1.
  assert (Hfour : div_ceil (zlen exts) cap ≤ 4 * 84 ^ Z.of_nat 4).
  { unfold div_ceil. apply Z.lt_succ_r, Z.div_lt_upper_bound; [lia|]. simpl. lia. }
  destruct (pack_up_ok nodes drawn a' gen Hg (Z.to_nat (div_ceil (zlen exts) cap)) 4 0 leaves st1 rest)
    as (d & kids & st' & ws & E & H1 & H2 & H3 & H4 & H5 & H6 & H7 & H8 & H9 & H10 & H11); try done.
  { rewrite Hw1. exact Hl1. } { by rewrite Hb1. } { by rewrite Hf1. } { intros ->. unfold zlen in *. simpl in *. lia. }
  { lia. } { lia. } { rewrite Hm1. apply (f_equal zlen) in Esp. rewrite !zlen_app in *. lia. }
  rewrite Hm1 in *. change (Z.of_nat 1) with 1 in E. rewrite E. cbn [mbind res_bind].
  assert (Hkeys : Forall name_ok (names kids)).
  { eapply names_ok; [exact H3| |exact H5]. by rewrite H4, Hf1. }
  destruct (inline_index_ok gen (Z.of_nat (S d)) (names kids)) as (root & -> & Hr & _ & Hnode);
    [done|lia|by etransitivity; [apply Z.eq_le_incl, zlen_fmap|]|done|]. cbn [mbind res_bind].
  assert (Htot : zlen (zdrop (packed (Z.to_nat (div_ceil (zlen exts) cap)) (div_ceil (zlen exts) cap)) rest) =
    zlen nodes + zlen drawn - (div_ceil (zlen exts) cap + packed (Z.to_nat (div_ceil (zlen exts) cap)) (div_ceil (zlen exts) cap))).
  { apply (f_equal zlen) in Esp. rewrite !zlen_app in *. unfold zlen in *. rewrite length_drop. lia. }
  destruct (feed_done _ _ _ _ _ _ H6 Htot Hz) as (Eu & Ef & Ea); [lia|]. cbn zeta. unfold consumed in H9, Hcs1.
  rewrite Hcs1 in H9. cbn [used fresh app] in H9.
  assert (Hall' : ws1.*1 ++ ws.*1 = used st' ++ fresh st') by (by rewrite Hws1, H8, H9).
  rewrite <-Eu, Ea, Ef in *. exists root, (rwrites st'). split; [done|]. split; [done|].
  assert (Hws : (rwrites st').*1 = used st' ++ drawn) by (by rewrite H7, Hw1, fmap_app).
  split; [done|]. intros ? dev ctx Hl. rewrite <-Hf1, <-H4 in *.
  apply (tree_reads_as dev ctx (S d) root kids 0 (2 ^ 32)); [lia| |right; by eapply level_keyed|done|].
  - split; [done|]. eapply Forall_impl; [exact H3|]. intros k (_ & _ & _ & _ & pre & (buf & Hin' & _ & <-) & Hrep).
    exists (sub buf 0 (bs - 4)). split; [by apply Hl|]. by eapply repr_landed.
  - rewrite H10, Hbl1, H9. done.
Qed.

(** ** A repacked tree is no larger than any tree over as many extents *)

(** The nodes of each level when every node is full, leaves first. *)
Fixpoint full_level (n : Z) (i : nat) : Z := match i with O => n | S i => div_ceil (full_level n i) cap end.
Fixpoint full_levels (n : Z) (i : nat) : Z := match i with O => 0 | S i => full_levels n i + full_level n (S i) end.

Lemma full_levels_front n i : full_levels n (S i) = div_ceil n cap + full_levels (div_ceil n cap) i.
Proof.
  assert (Hl : ∀ j, full_level n (S j) = full_level (div_ceil n cap) j).
  { induction j as [|j IH]; [done|]. cbn [full_level] in *. by rewrite IH. }
  induction i as [|i IH]; [cbn; lia|]. cbn [full_levels] in *. rewrite IH. rewrite (Hl (S i)). lia.
Qed.

Lemma packed_le_levels fuel i : ∀ n, 0 ≤ n → full_level n i ≤ 4 → packed fuel n ≤ full_levels n i.
Proof.
  destruct (node_max_range bs Hbs) as [Hm _].
  assert (Hpos : ∀ j n, 0 ≤ n → 0 ≤ full_level n j).
  { induction j as [|j IH]; intros n Hn; cbn [full_level]; [done|]. apply div_ceil_nonneg; [by apply IH|lia]. }
  assert (Hpos' : ∀ j n, 0 ≤ n → 0 ≤ full_levels n j).
  { induction j as [|j IH]; intros n Hn; [done|]. cbn [full_levels]. specialize (IH n Hn). specialize (Hpos (S j) n Hn). lia. }
  revert i. induction fuel as [|fuel IH]; intros i n Hn Hi.
  { cbn [packed]. specialize (Hpos' i n Hn). by case_decide. }
  cbn [packed]. case_decide as Hle; [by apply Hpos'|]. destruct i as [|i]; [by cbn in Hi; lia|].
  rewrite full_levels_front. pose proof (div_ceil_nonneg n cap). enough (packed fuel (div_ceil n cap) ≤ full_levels (div_ceil n cap) i) by lia.
  apply IH; [apply div_ceil_nonneg; lia|].
  assert (Hl : ∀ j, full_level n (S j) = full_level (div_ceil n cap) j).
  { induction j as [|j IHj]; [done|]. cbn [full_level] in *. by rewrite IHj. }
  by rewrite <-Hl.
Qed.

(** A forest of nodes one below another. *)
Lemma concat_width {E T} (f : T → list E) (l : list T) : Forall (λ t, zlen (f t) ≤ cap) l →
  zlen (concat (f <$> l)) ≤ cap * zlen l.
Proof.
  induction 1 as [|t l Ht _ IH]; [change (0 ≤ cap * 0); lia|]. rewrite fmap_cons. cbn [concat]. rewrite zlen_app, zlen_cons. lia.
Qed.

Lemma concat_nested {T U E} (f : U → list E) (g : T → list U) (l : list T) :
  concat ((λ t, concat (f <$> g t)) <$> l) = concat (f <$> concat (g <$> l)).
Proof. induction l as [|t l IH]; [done|]. rewrite !fmap_cons. cbn [concat]. by rewrite fmap_app, concat_app, IH. Qed.

Lemma concat_nested_cons {T U E} (h : T → E) (f : U → list E) (g : T → list U) (l : list T) :
  zlen (concat ((λ t, h t :: concat (f <$> g t)) <$> l)) = zlen l + zlen (concat (f <$> concat (g <$> l))).
Proof.
  induction l as [|t l IH]; [done|]. rewrite !fmap_cons. cbn [concat].
  rewrite fmap_app, concat_app, zlen_app, !zlen_cons, zlen_app, IH. lia.
Qed.

Lemma forest_levels n : ∀ d (kids : list (Z * Z * ntree d)),
  Forall (λ k, width d (snd k) ≤ cap ∧ capped cap d (snd k)) kids → 0 ≤ n ≤ zlen (flat (S d) kids) →
  full_level n (S d) ≤ zlen kids ∧ full_levels n (S d) ≤ zlen (blocks (S d) kids).
Proof.
  destruct (node_max_range bs Hbs) as [Hm _].
  assert (Hceil : ∀ a b, a ≤ cap * b → div_ceil a cap ≤ b).
  { intros a b H. unfold div_ceil. apply Z.lt_succ_r, Z.div_lt_upper_bound; lia. }
  induction d as [|d IH]; intros kids Hk Hn.
  - assert (Hw : n ≤ cap * zlen kids).
    { etransitivity; [apply Hn|]. cbn [flat]. apply concat_width. eapply Forall_impl; [exact Hk|]. by intros k [? _]. }
    assert (Hb : zlen (blocks 1 kids) = zlen kids).
    { cbn [blocks]. clear. induction kids as [|k kids IH]; [done|]. rewrite fmap_cons. cbn [concat app].
      rewrite !zlen_cons. by rewrite IH. }
    rewrite Hb. cbn [full_levels full_level]. specialize (Hceil _ _ Hw). lia.
  - set (below := concat ((λ k, snd k : list (Z * Z * ntree d)) <$> kids)).
    assert (Hflat : flat (S d) below = flat (S (S d)) kids).
    { symmetry. exact (concat_nested (λ j, flat d (snd j)) snd kids). }
    assert (Hblocks : zlen (blocks (S (S d)) kids) = zlen kids + zlen (blocks (S d) below)).
    { exact (concat_nested_cons (snd ∘ fst) (λ j, snd (fst j) :: blocks d (snd j)) snd kids). }
    assert (Hw : zlen below ≤ cap * zlen kids).
    { apply concat_width. eapply Forall_impl; [exact Hk|]. by intros k [? _]. }
    destruct (IH below) as [H1 H2].
    { apply Forall_concat, Forall_fmap. eapply Forall_impl; [exact Hk|]. intros k [_ Hc]. unfold compose. cbn [capped] in Hc.
      eapply Forall_impl; [exact Hc|]. by intros j (? & _ & ?). }
    { by rewrite Hflat. }
    rewrite Hblocks. cbn [full_levels full_level] in *. assert (H3 := Hceil (div_ceil (full_level n d) cap) (zlen kids)). lia.
Qed.

Lemma repack_fits d (t : ntree d) n : capped cap d t → width d t ≤ 4 → 0 ≤ n ≤ zlen (flat d t) →
  repack_blocks n ≤ zlen (blocks d t).
Proof.
  intros Hc Hw Hn. unfold repack_blocks. destruct d as [|d].
  { cbn [width flat] in *. rewrite packed_small by lia. apply zlen_nonneg. }
  cbn [capped width] in *. destruct (forest_levels n d t) as [H1 H2]; [|exact Hn|].
  { eapply Forall_impl; [exact Hc|]. by intros k (? & _ & ?). }
  etransitivity; [|exact H2]. apply packed_le_levels; [lia|]. etransitivity; [exact H1|exact Hw].
Qed.
End repack.

(** ** Properties *)

(** C27: [plan_repack_tree] lays any sorted list of extents out as a tree over the
    file's own blocks first and freshly allocated ones only once those run out,
    asking for exactly as many as the layout is short.  It always succeeds;
    its writes name exactly the blocks it reports as used or allocated; and on
    any device where the writes have landed (their tail checksums aside, as the
    caller stamps them) the new root reads back as the same extents, by lookup
    and by the full walk, over exactly those blocks. *)
Theorem plan_repack_tree_spec {A} (alloc : A → res (Z * A)) bs gen exts nodes drawn a a' :
  block_size_ok bs → 0 ≤ gen < 2 ^ 32 → leaf_ok 0 (2 ^ 32) exts →
  draw alloc (length drawn) a = Ok (drawn, a') →
  zlen drawn = Z.max 0 (repack_blocks bs (zlen exts) - zlen nodes) → u48s (nodes ++ drawn) →
  let used := take (Z.to_nat (repack_blocks bs (zlen exts))) nodes in
  ∃ root ws, plan_repack_tree alloc gen exts bs nodes a = Ok (mkRepacked root ws used drawn, a') ∧
    zlen root = 60 ∧ ws.*1 = used ++ drawn ∧
    ∀ (C : Crc32c) dev ctx, @landed bs C dev ctx ws → @reads_as bs C dev ctx root exts (used ++ drawn).
Proof.
  intros Hbs Hg Hok Hd Hz Hu. apply repack_ok; try done. rewrite zlen_app, Hz. lia.
Qed.

(** Repacking no more extents than the tree on disk holds, over that tree's
    own blocks, allocates nothing whatever the allocator would answer: a full
    layout has at most as many nodes as any tree over as many extents. *)
Lemma repack_survivors_allocate_nothing {A} (alloc : A → res (Z * A)) `{Crc32c} dev ctx bs gen exts d root (t : ntree d) old nodes a :
  block_size_ok bs → 0 ≤ gen < 2 ^ 32 → leaf_ok 0 (2 ^ 32) exts → (d ≤ 5)%nat →
  repr (on_disk dev bs ctx) d root t → (d = 0%nat ∨ keyed d t) → leaf_ok 0 (2 ^ 32) (flat d t) →
  capped (node_max_entries bs) d t → width d t ≤ 4 →
  collect_all_with_nodes dev bs root = Ok (old, nodes) → zlen exts ≤ zlen old → u48s nodes →
  ∃ root' ws used, plan_repack_tree alloc gen exts bs nodes a = Ok (mkRepacked root' ws used [], a) ∧
    ws.*1 = used ∧ used `prefix_of` nodes ∧
    ∀ (C : Crc32c) dev' ctx', @landed bs C dev' ctx' ws → @reads_as bs C dev' ctx' root' exts used.
Proof.
  intros Hbs Hg Hok Hd Hr Hk Hold Hc Hw Hcol Hle Hu.
  destruct (tree_reads_as bs Hbs dev ctx d root t 0 (2 ^ 32) (blocks d t)) as (_ & ns & E & Hp); [done..|].
  rewrite E in Hcol. injection Hcol as <- <-. pose proof (zlen_nonneg exts) as H0.
  assert (Hfit : repack_blocks bs (zlen exts) ≤ zlen ns).
  { unfold zlen at 2. rewrite Hp. by apply repack_fits. }
  destruct (repack_ok alloc bs Hbs gen exts ns [] a a) as (root' & ws & E' & _ & Hws & Hread); rewrite ?app_nil_r; try done.
  { change (0 = Z.max 0 (repack_blocks bs (zlen exts) - zlen ns)). lia. }
  rewrite app_nil_r in *. eexists root', ws, _. split; [exact E'|]. split; [done|]. split; [|done].
  eexists. symmetry. apply take_drop.
Qed.

(** Eighty-five single blocks over one block the file has and one it must ask for. *)
Definition counter (n : Z) : res (Z * Z) := Ok (n, n + 1).
Definition sample_runs (n : Z) : list Extent.t := (λ i, Extent.mk (2 * i) 1 (1000 + 3 * i) false) <$> seqZ 0 n.

Lemma sample_runs_ok : leaf_ok 0 (2 ^ 32) (sample_runs 85).
Proof.
  split; [vm_compute; repeat (split; [discriminate|]); discriminate|].
  unfold sample_runs, ext_ok. by_compute.
Qed.

Lemma plan_repack_tree_spec_witness :
  ∃ root ws, plan_repack_tree counter 7 (sample_runs 85) 1024 [50] 60 = Ok (mkRepacked root ws [50] [60], 61) ∧
    zlen root = 60 ∧ ws.*1 = [50; 60].
Proof.
  destruct (plan_repack_tree_spec counter 1024 7 (sample_runs 85) [50] [60] 60 61) as (root & ws & E & Hz & Hws & _).
  - unfold block_size_ok. lia.
  - lia.
  - exact sample_runs_ok.
  - reflexivity.
  - vm_compute. reflexivity.
  - unfold u48s. by_compute.
  - exists root, ws. split; [exact E|]. split; [exact Hz|exact Hws].
Defined.

(** Six extents in two leaves at blocks 1 and 2; five survive, and fit block 1. *)
Definition or_empty (r : res bytes) : bytes := match r with Ok b => b | _ => [] end.
Definition two_leaves : ntree 1 := [(0, 1, sample_runs 3); (6, 2, drop 3 (sample_runs 6))].
Definition two_leaf_image : bytes :=
  zrep 1024 0 ++ or_empty (build_full_leaf_block 7 (sample_runs 3) 1024) ++
  or_empty (build_full_leaf_block 7 (drop 3 (sample_runs 6)) 1024).
Definition two_leaf_root : bytes := or_empty (build_inline_index_root 7 1 [(0, 1); (6, 2)]).

Lemma two_leaf_repr : repr (@on_disk castagnoli (image_reader two_leaf_image) 1024 None) 1 two_leaf_root two_leaves.
Proof.
  assert (Hnode : ∀ off exts, off = 1 ∧ exts = sample_runs 3 ∨ off = 2 ∧ exts = drop 3 (sample_runs 6) →
    ∃ cbuf, @on_disk castagnoli (image_reader two_leaf_image) 1024 None off cbuf ∧ leaf_node cbuf exts).
  { intros off exts Hoff. exists (sub (or_empty (build_full_leaf_block 7 exts 1024)) 0 1020). split.
    - exists (or_empty (build_full_leaf_block 7 exts 1024)). destruct Hoff as [[-> ->]|[-> ->]];
        (split; [intros what; vm_compute; reflexivity|]; split; [reflexivity|]; split; [vm_compute; reflexivity|reflexivity]).
    - destruct Hoff as [[-> ->]|[-> ->]];
        (eexists; split; [vm_compute; reflexivity|]; split; vm_compute; reflexivity). }
  split.
  - eexists. split; [vm_compute; reflexivity|]. split; vm_compute; reflexivity.
  - constructor; [apply Hnode; by left|]. constructor; [apply Hnode; by right|]. constructor.
Qed.

Lemma repack_survivors_allocate_nothing_witness :
  let refuse := λ _ : unit, Err (OutOfBounds) in
  ∃ root ws used, plan_repack_tree refuse 7 (sample_runs 5) 1024 [1; 2] tt = Ok (mkRepacked root ws used [], tt) ∧
    ws.*1 = used ∧ used `prefix_of` [1; 2].
Proof.
  intros refuse.
  destruct (@repack_survivors_allocate_nothing unit refuse castagnoli (image_reader two_leaf_image) None 1024 7
    (sample_runs 5) 1 two_leaf_root two_leaves (sample_runs 6) [1; 2] tt) as (root & ws & used & E & Hws & Hp & _).
  - unfold block_size_ok. lia.
  - lia.
  - split; [vm_compute; repeat (split; [discriminate|]); discriminate|]. unfold sample_runs, ext_ok. by_compute.
  - lia.
  - exact two_leaf_repr.
  - right. split; [done|]. repeat constructor; done.
  - split; [vm_compute; repeat (split; [discriminate|]); discriminate|]. unfold ext_ok. by_compute.
  - constructor; [split; [by_compute|split; [by_compute|exact I]]|]. constructor; [split; [by_compute|split; [by_compute|exact I]]|]. constructor.
  - vm_compute. discriminate.
  - vm_compute. reflexivity.
  - vm_compute. discriminate.
  - unfold u48s. by_compute.
  - exists root, ws, used. split; [exact E|]. split; [exact Hws|exact Hp].
Defined.
