(* ===== verification/DeepInsert.v ===== *)
(** DeepInsert: inserting into an extent tree of any depth.  The planner of
    ExtentTree.v descends to one leaf and climbs back, splitting what
    overflows; here the tree it leaves behind is an abstract tree again, whose
    block map is the old one with the new extent added. *)
From S2P Require Import Prelude Errors Bytes Device Features Superblock Checksum Extent ExtentMut ExtentTree.

(** ** The descent *)

(** [k] is the child the descent for [target] takes: the last whose key is at
    most [target], or the first when there is none. *)
Definition chosen {T} (target : Z) (L : list (Z * Z * T)) (k : Z * Z * T) (R : list (Z * Z * T)) : Prop :=
  (L = [] ∨ fst (fst k) ≤ target) ∧ ∀ r, head R = Some r → target < fst (fst r).

Local Abbreviation idx_of := (λ p : Z * Z, ExtentIdx.mk (fst p) (snd p)).

Lemma chosen_index_from {T} target (kids : list (Z * Z * T)) (c : Z * Z * T) : fst (fst c) ≤ target →
  ∃ L k R, c :: kids = L ++ k :: R ∧ chosen target L k R ∧
    chosen_index target (idx_of <$> names kids) (Some (idx_of (fst c))) = Some (idx_of (fst k)).
Proof.
  revert c. induction kids as [|k kids IH]; intros c Hc.
  - exists [], c, []. split; [done|]. split; [|done]. split; [by left|done].
  - cbn [names fmap list_fmap chosen_index ExtentIdx.logical_block]. case_decide as Hk.
    + destruct (IH k Hk) as (L & k' & R & E & [Hl Hr] & Ei). exists (c :: L), k', R. cbn [app]. rewrite <-E.
      split; [done|]. split; [|exact Ei]. split; [|done]. right. destruct Hl as [->|Hl]; [|done].
      injection E as <- _. done.
    + exists [], c, (k :: kids). split; [done|]. split; [|done]. split; [by left|]. intros r [= <-]. lia.
Qed.

Lemma chosen_index_spec {T} target (kids : list (Z * Z * T)) (k0 : Z * Z * T) : head kids = Some k0 →
  Forall (λ r, fst (fst k0) ≤ fst (fst r)) kids →
  ∃ L k R, kids = L ++ k :: R ∧ chosen target L k R ∧
    default (idx_of (fst k0)) (chosen_index target (idx_of <$> names kids) None) = idx_of (fst k).
Proof.
  destruct kids as [|c kids]; intros [= ->] Hs. cbn [names fmap list_fmap chosen_index ExtentIdx.logical_block].
  case_decide as Hc.
  - destruct (chosen_index_from target kids k0 Hc) as (L & k & R & E & Hch & Ei). exists L, k, R. by setoid_rewrite Ei.
  - exists [], k0, kids. split; [done|]. split; [|done]. split; [by left|].
    destruct kids as [|r kids]; [done|]. intros ? [= <-]. do 2 apply Forall_cons in Hs as [? Hs]. lia.
Qed.

(** ** One child of a node and its neighbours *)

Lemma flat_app d (L R : list (Z * Z * ntree d)) : flat (S d) (L ++ R) = flat (S d) L ++ flat (S d) R.
Proof. cbn [flat]. by rewrite fmap_app, concat_app. Qed.
Lemma flat_cons d (k : Z * Z * ntree d) (R : list (Z * Z * ntree d)) : flat (S d) (k :: R) = flat d (snd k) ++ flat (S d) R.
Proof. done. Qed.
Lemma blocks_app d (L R : list (Z * Z * ntree d)) : blocks (S d) (L ++ R) = blocks (S d) L ++ blocks (S d) R.
Proof. cbn [blocks]. by rewrite fmap_app, concat_app. Qed.
Lemma blocks_cons d (k : Z * Z * ntree d) (R : list (Z * Z * ntree d)) :
  blocks (S d) (k :: R) = snd (fst k) :: blocks d (snd k) ++ blocks (S d) R.
Proof. done. Qed.

(** Each child under its key. *)
Definition kids_keyed (d : nat) (kids : list (Z * Z * ntree d)) : Prop :=
  Forall (λ k, keyed d (snd k) ∧ first_key d (snd k) = Some (fst (fst k))) kids.

Lemma deep_leaf_ok_app lo mid hi e1 e2 : leaf_ok lo mid e1 → leaf_ok mid hi e2 → leaf_ok lo hi (e1 ++ e2).
Proof. intros [H1 H2] [H3 H4]. split; [by eapply exts_in_app|by apply Forall_app]. Qed.

Lemma deep_leaf_ok_le lo hi exts : leaf_ok lo hi exts → lo ≤ hi.
Proof. intros [H _]. by eapply exts_in_le. Qed.

(** The extents of a sorted list before and after the first of some subtree. *)
Lemma leaf_ok_cut lo hi e1 d (t : ntree d) key rest : keyed d t → first_key d t = Some key →
  leaf_ok lo hi (e1 ++ flat d t ++ rest) → leaf_ok lo key e1 ∧ leaf_ok key hi (flat d t ++ rest).
Proof.
  intros Hk Hf [Hin Hall]. destruct (first_key_flat d t Hk) as (e & es & E & Ek). rewrite Ek in Hf. injection Hf as <-.
  rewrite E in *. cbn [app] in *. apply exts_in_cut in Hin as [H1 H2]. by apply Forall_app in Hall as [H3 H4].
Qed.

Lemma deep_leaf_ok_split lo hi e1 e2 : leaf_ok lo hi (e1 ++ e2) → ∃ mid, leaf_ok lo mid e1 ∧ leaf_ok mid hi e2.
Proof.
  intros [Hin Hall]. apply Forall_app in Hall as [Ha1 Ha2].
  enough (∃ mid, exts_in lo mid e1 ∧ exts_in mid hi e2) as (mid & ? & ?) by (exists mid; done). clear Ha1 Ha2.
  revert lo Hin. induction e1 as [|e e1 IH]; intros lo Hin; [exists lo; split; [cbn; lia|done]|].
  cbn [app exts_in] in Hin. destruct Hin as (H1 & H2 & H3). destruct (IH _ H3) as (mid & H4 & H5). exists mid. done.
Qed.

Lemma leaf_ok_first lo hi d (t : ntree d) key : keyed d t → first_key d t = Some key → leaf_ok lo hi (flat d t) → lo ≤ key < hi.
Proof.
  intros Hk Hf [Hin Hall]. destruct (first_key_flat d t Hk) as (e & es & E & Ek). rewrite Ek in Hf. injection Hf as <-.
  rewrite E in *. cbn [exts_in] in Hin. destruct Hin as (? & _ & Hle%exts_in_le). apply Forall_cons in Hall as [(_ & ? & _) _]. lia.
Qed.

(** The children of a node take up consecutive ranges. *)
Lemma kids_range d (kids : list (Z * Z * ntree d)) lo hi : kids_keyed d kids → leaf_ok lo hi (flat (S d) kids) →
  Forall (λ k, lo ≤ fst (fst k) < hi) kids.
Proof.
  revert lo. induction kids as [|k kids IH]; intros lo Hk Hok; [done|]. apply Forall_cons in Hk as [[Hk Hf] Hks].
  rewrite flat_cons in Hok. apply deep_leaf_ok_split in Hok as (mid & H1 & H2).
  pose proof (leaf_ok_first _ _ _ _ _ Hk Hf H1). pose proof (deep_leaf_ok_le _ _ _ H1). pose proof (deep_leaf_ok_le _ _ _ H2).
  constructor; [lia|]. eapply Forall_impl; [by apply IH|]. intros j Hj. cbn beta in Hj. lia.
Qed.

Definition starts (e : Extent.t) := Extent.logical_block e.
Definition ends (e : Extent.t) := Extent.logical_block e + Extent.length e.

(** The child chosen for [new] is the one whose range it fits in. *)
Lemma chosen_range d (L R : list (Z * Z * ntree d)) (k : Z * Z * ntree d) lo hi new :
  kids_keyed d (L ++ k :: R) → leaf_ok lo hi (flat (S d) (L ++ k :: R)) → chosen (starts new) L k R →
  ext_ok new → lo ≤ starts new → ends new ≤ hi → existsb (overlaps new) (flat (S d) (L ++ k :: R)) = false →
  ∃ lo' hi', leaf_ok lo lo' (flat (S d) L) ∧ leaf_ok lo' hi' (flat d (snd k)) ∧ leaf_ok hi' hi (flat (S d) R) ∧
    lo' ≤ starts new ∧ ends new ≤ hi' ∧ existsb (overlaps new) (flat d (snd k)) = false.
Proof.
  intros Hk Hok [HL HR] Hnew Hlo Hhi Hov. unfold starts, ends in *. rewrite flat_app, flat_cons in *.
  apply Forall_app in Hk as [HkL Hk]. apply Forall_cons in Hk as [[Hk Hf] HkR].
  rewrite !existsb_app in Hov. apply orb_false_iff in Hov as [_ [Hov1 Hov2]%orb_false_iff].
  assert (∃ lo', leaf_ok lo lo' (flat (S d) L) ∧ leaf_ok lo' hi (flat d (snd k) ++ flat (S d) R) ∧ lo' ≤ Extent.logical_block new)
    as (lo' & H1 & H2 & Hlo').
  { destruct HL as [->|HL].
    - exists lo. pose proof (deep_leaf_ok_le _ _ _ Hok). split; [split; [cbn; lia|by constructor]|]. done.
    - exists (fst (fst k)). destruct (leaf_ok_cut _ _ _ _ _ _ _ Hk Hf Hok). done. }
  destruct R as [|r R].
  { exists lo', hi. unfold flat at 3. cbn [fmap list_fmap concat]. unfold flat in H2 at 2. cbn [fmap list_fmap concat] in H2.
    rewrite app_nil_r in H2. split; [done|]. split; [done|]. split; [|done]. split; [cbn; lia|by constructor]. }
  apply Forall_cons in HkR as [[Hkr Hfr] HkR]. rewrite flat_cons in *.
  destruct (leaf_ok_cut _ _ _ _ _ _ _ Hkr Hfr H2) as [H3 H4].
  exists lo', (fst (fst r)). split; [done|]. split; [done|]. split; [done|]. split; [done|]. split; [|done].
  specialize (HR r eq_refl). destruct (first_key_flat d (snd r) Hkr) as (e & es & E & Ek). rewrite Ek in Hfr. injection Hfr as Hfr.
  rewrite E in Hov2. cbn [app existsb] in Hov2. apply orb_false_iff in Hov2 as [Ho _].
  destruct H4 as [_ Hall]. rewrite E in Hall. cbn [app] in Hall. apply Forall_cons in Hall as [He _].
  apply overlaps_false in Ho; [|done|done]. destruct He as (_ & ? & _). lia.
Qed.

(** ** What an insertion does to a list of extents *)

Definition inserted (new : Extent.t) (lo hi : Z) (exts exts' : list Extent.t) : Prop :=
  leaf_ok lo hi exts' ∧ ∀ l, blockmap exts' l =
    if Extent.contains new l then Some (Extent.map new l, Extent.uninitialized new) else blockmap exts l.

Lemma blockmap_above lo hi exts l : exts_in lo hi exts → hi ≤ l → blockmap exts l = None.
Proof. intros H1 H2. unfold blockmap. by rewrite (find_above lo hi). Qed.

Lemma inserted_between new lo lo' hi' hi pre mid mid' post : leaf_ok lo lo' pre → leaf_ok hi' hi post →
  lo' ≤ starts new → inserted new lo' hi' mid mid' → inserted new lo hi (pre ++ mid ++ post) (pre ++ mid' ++ post).
Proof.
  intros H1 H2 Hlo [H3 H4]. split; [eapply deep_leaf_ok_app; [exact H1|]; by eapply deep_leaf_ok_app|].
  intros l. rewrite !blockmap_app, H4. unfold starts in *. destruct (Extent.contains new l) eqn:Ec.
  - rewrite (blockmap_above lo lo' pre l); [done|apply H1|]. apply contains_true in Ec. lia.
  - done.
Qed.

(** ** Insertion below one node *)
Section insert.
Context {A : Type} (alloc : A → res (Z * A)) (bs : Z) (read_block : Z → res bytes).
Context (Hbs : block_size_ok bs) (new : Extent.t) (Hnew : ext_ok new).
Context (root : bytes) (gen : Z) (Hgen : 0 ≤ gen < 2 ^ 32).
Context (drawn : list Z) (a a_end : A).
Context (Hdraw : draw alloc (length drawn) a = Ok (drawn, a_end)) (Hu48 : u48s drawn).
Local Abbreviation cap := (node_max_entries bs).

(** What the blocks hold before the plan, and after its writes. *)
Definition old (b : Z) (pre : bytes) : Prop :=
  ∃ buf, read_block b = Ok buf ∧ zlen buf = bs ∧ sub buf 0 (bs - 4) = pre.
Definition view (ws : list (Z * bytes)) (b : Z) (pre : bytes) : Prop :=
  wrote bs ws b pre ∨ ((b ∉ ws.*1) ∧ old b pre).

Lemma view_app ws1 ws2 b pre : b ∉ ws2.*1 → view ws1 b pre → view (ws1 ++ ws2) b pre.
Proof.
  intros Hb [H|[H1 H2]]; [left; by apply wrote_app_l|right]. split; [|done]. rewrite fmap_app. set_solver.
Qed.

Lemma view_nil b pre : view [] b pre ↔ old b pre.
Proof. split; [intros [(buf & H & _)|[_ H]]; [set_solver|done]|intros H; right; split; [set_solver|done]]. Qed.

(** A child as an index node names it. *)
Definition kid_ok (V : Z → bytes → Prop) (d : nat) (k : Z * Z * ntree d) : Prop :=
  keyed d (snd k) ∧ first_key d (snd k) = Some (fst (fst k)) ∧ width d (snd k) ≤ cap ∧ capped cap d (snd k) ∧
  0 ≤ snd (fst k) < 2 ^ 48 ∧ ∃ pre, V (snd (fst k)) pre ∧ repr V d pre (snd k).

Lemma kid_ok_mono (V V' : Z → bytes → Prop) d (k : Z * Z * ntree d) :
  (∀ b pre, b ∈ snd (fst k) :: blocks d (snd k) → V b pre → V' b pre) → kid_ok V d k → kid_ok V' d k.
Proof.
  intros HV (H1 & H2 & H3 & H4 & H5 & pre & H6 & H7). do 5 (split; [done|]). exists pre.
  split; [apply HV; [set_solver|done]|]. eapply repr_mono; [|exact H7]. intros b c Hb. apply HV. set_solver.
Qed.

Lemma kids_mono (V V' : Z → bytes → Prop) d (kids : list (Z * Z * ntree d)) :
  (∀ b pre, b ∈ blocks (S d) kids → V b pre → V' b pre) → Forall (kid_ok V d) kids → Forall (kid_ok V' d) kids.
Proof.
  induction kids as [|k kids IH]; intros HV H; [done|]. apply Forall_cons in H as [H1 H2]. rewrite blocks_cons in HV.
  constructor; [eapply kid_ok_mono; [|exact H1]; intros b pre Hb; apply HV; set_solver|].
  apply IH; [|done]. intros b pre Hb. apply HV. set_solver.
Qed.

Lemma kids_ok_keyed V d kids : Forall (kid_ok V d) kids → kids_keyed d kids.
Proof. intros H. eapply Forall_impl; [exact H|]. by intros k (? & ? & _). Qed.

Lemma kids_ok_capped V d kids : Forall (kid_ok V d) kids → capped cap (S d) kids.
Proof. intros H. eapply Forall_impl; [exact H|]. by intros k (_ & _ & ? & ? & ? & _). Qed.

Lemma kids_ok_repr V d kids : Forall (kid_ok V d) kids →
  Forall (λ k, ∃ pre, V (snd (fst k)) pre ∧ repr V d pre (snd k)) kids.
Proof. intros H. eapply Forall_impl; [exact H|]. by intros k (_ & _ & _ & _ & _ & ?). Qed.

(** The planner's locals once the node [t] of block [b], whose extents lie in
    [lo, hi), has become [out]: itself, and the sibling split off it. *)
Record grown (d : nat) (b : Z) (t : ntree d) (lo hi : Z) (st : climbing A) (out : list (Z * Z * ntree d)) : Prop := {
  grown_shape : ∃ key t' sib, out = (key, b, t') :: option_list sib ∧
    propagated st = ((λ s, mkSplit (fst (fst s)) (snd (fst s))) <$> sib) ∧
    correction st = (if decide (first_key d t = Some key) then None else Some (b, key));
  grown_kids : Forall (kid_ok (view (writes st)) d) out;
  grown_flat : inserted new lo hi (flat d t) (flat (S d) out);
  grown_blocks : blocks (S d) out ≡ₚ b :: blocks d t ++ allocated st;
  grown_writes : ∀ x, x ∈ (writes st).*1 → x ∈ blocks (S d) out;
  grown_alloc : ∃ rest, allocated st ++ rest = drawn ∧ draw alloc (length rest) (alloc_state st) = Ok (rest, a_end);
  grown_count : (length (allocated st) ≤ S d)%nat;
}.

Lemma alloc_block_ok st rest b : allocated st ++ b :: rest = drawn →
  draw alloc (length (b :: rest)) (alloc_state st) = Ok (b :: rest, a_end) →
  ∃ a', alloc_block alloc st = Ok (b, mkClimb (propagated st) (correction st) (writes st) (allocated st ++ [b]) a') ∧
    draw alloc (length rest) a' = Ok (rest, a_end).
Proof.
  intros _ H. cbn [length draw] in H. unfold alloc_block. destruct (alloc (alloc_state st)) as [[b' a']| | |]; try done.
  cbn [mbind res_bind] in *. destruct (draw alloc (length rest) a') as [[r a2]| | |] eqn:E; try done.
  cbn [mbind res_bind] in H. injection H as -> -> ->. by exists a'.
Qed.
Lemma keyed_first d (t : ntree d) : keyed d t → ∃ key, first_key d t = Some key.
Proof. intros H. destruct (first_key_flat d t H) as (e & _ & _ & E). by eexists. Qed.

Lemma view_written ws b buf : (b, buf) ∈ ws → zlen buf = bs → view ws b (sub buf 0 (bs - 4)).
Proof. intros H Hz. left. by exists buf. Qed.

(** A node written in full is a child. *)
Lemma leaf_kid b (exts : ntree 0) key : first_key 0 exts = Some key → zlen exts ≤ cap → Forall ext_ok exts →
  0 ≤ b < 2 ^ 48 →
  ∃ buf, build_full_leaf_block gen exts bs = Ok buf ∧ ∀ ws, (b, buf) ∈ ws → kid_ok (view ws) 0 (key, b, exts).
Proof.
  intros Hf Hn Hok Hb. destruct (full_leaf_ok bs gen exts Hbs Hgen Hn Hok) as (buf & E & Hz & _ & Hl).
  exists buf. split; [done|]. intros ws Hin. unfold kid_ok. cbn [fst snd keyed width capped repr].
  split; [by destruct exts|]. do 4 (split; [done|]). eexists. split; [by apply view_written|done].
Qed.

Lemma kids_names_ok V d kids : Forall (kid_ok V d) kids → Forall ext_ok (flat (S d) kids) → Forall name_ok (names kids).
Proof.
  intros Hk Hok. induction kids as [|k kids IH]; [done|]. apply Forall_cons in Hk as [(H1 & H2 & _ & _ & H3 & _) Hks].
  rewrite flat_cons in Hok. apply Forall_app in Hok as [Ho1 Ho2]. constructor; [|by apply IH].
  split; [by eapply first_key_range|done].
Qed.

Lemma index_kid V d b (kids : list (Z * Z * ntree d)) key : first_key (S d) kids = Some key → zlen kids ≤ cap →
  Z.of_nat (S d) < 2 ^ 16 → Forall (kid_ok V d) kids → Forall ext_ok (flat (S d) kids) → 0 ≤ b < 2 ^ 48 →
  ∃ buf, build_full_index_block gen (Z.of_nat (S d)) (names kids) bs = Ok buf ∧
    ∀ ws, (b, buf) ∈ ws → Forall (kid_ok (view ws) d) kids → kid_ok (view ws) (S d) (key, b, kids).
Proof.
  intros Hf Hn Hd Hk Hok Hb.
  destruct (full_index_ok bs gen (Z.of_nat (S d)) (names kids) Hbs Hgen) as (buf & E & Hz & _ & Hl);
    [lia|by etransitivity; [apply Z.eq_le_incl, zlen_fmap|]|by eapply kids_names_ok|].
  exists buf. split; [done|]. intros ws Hin Hk'. unfold kid_ok. cbn [fst snd].
  split; [split; [by destruct kids|by eapply kids_ok_keyed]|]. split; [done|]. split; [done|].
  split; [by eapply kids_ok_capped|]. split; [done|]. eexists. split; [by apply view_written|].
  split; [done|]. by apply kids_ok_repr.
Qed.

(** Halving a list that just outgrew its node. *)
Lemma halves {T} (l : list T) n : 2 ≤ n → n < zlen l → zlen l ≤ n + 1 →
  let left := take (Nat.div2 (length l)) l in let right := drop (Nat.div2 (length l)) l in
  l = left ++ right ∧ left ≠ [] ∧ right ≠ [] ∧ zlen left ≤ n ∧ zlen right ≤ n.
Proof.
  intros Hn H1 H2. cbv zeta. unfold zlen in *. pose proof (Nat.div2_odd (length l)) as Ho.
  assert (Nat.b2n (Nat.odd (length l)) ≤ 1)%nat by (destruct (Nat.odd _); simpl; lia).
  split; [by rewrite take_drop|]. rewrite length_take, length_drop.
  split; [intros E%(f_equal length); rewrite length_take in E; simpl in E; lia|].
  split; [intros E%(f_equal length); rewrite length_drop in E; simpl in E; lia|]. lia.
Qed.
(** The insertion below [b] is over, or the frames of [outer] still have to take it in. *)
Definition hands_over (d : nat) (b : Z) (t : ntree d) (lo hi : Z) (frame : PathFrame) (path outer : list PathFrame) : Prop :=
  ∃ st out, grown d b t lo hi st out ∧
    ((insert_at_leaf alloc bs root gen new frame path a = finish root st ∧ propagated st = None ∧ correction st = None) ∨
     insert_at_leaf alloc bs root gen new frame path a = climb alloc bs root gen outer st).

Lemma leaf_parse buf exts : leaf_node buf exts →
  ∃ h, ExtentHeader.parse buf = Ok h ∧ ExtentHeader.is_leaf h = true ∧ parse_leaf_entries buf h = Ok exts.
Proof.
  intros (h & Hh & Hd & Ht). exists h. split; [done|]. split; [|exact Ht]. unfold ExtentHeader.is_leaf. by rewrite bool_decide_true.
Qed.

Lemma index_parse buf depth ns : index_node buf depth ns → depth ≠ 0 →
  ∃ h, ExtentHeader.parse buf = Ok h ∧ ExtentHeader.is_leaf h = false ∧ ExtentHeader.depth h = depth ∧
    parse_index_entries buf h = Ok (idx_of <$> ns) ∧ zlen ns = Z.max 0 (ExtentHeader.entries h).
Proof.
  intros (h & Hh & Hd & Ht) Hne. exists h. split; [done|]. split; [unfold ExtentHeader.is_leaf; rewrite bool_decide_false; [done|lia]|].
  split; [done|]. split; [exact Ht|]. apply traverse_zlen in Ht. by rewrite zlen_fmap in Ht.
Qed.

Lemma leaf_inserted lo hi (t : list Extent.t) : leaf_ok lo hi t → lo ≤ starts new → ends new ≤ hi →
  existsb (overlaps new) t = false → inserted new lo hi t (insert_into_leaf_sorted t new).
Proof. intros. by apply insert_into_leaf_sorted_spec. Qed.

Lemma merge_at_nonempty i (l : list Extent.t) : l ≠ [] → merge_at i l ≠ [].
Proof.
  intros Hl. unfold merge_at. destruct (l !! i); [|done]. destruct (l !! S i); [|done]. destruct (are_contiguous _ _); [|done].
  by destruct (take i l).
Qed.

Lemma insert_nonempty (t : list Extent.t) : insert_into_leaf_sorted t new ≠ [].
Proof.
  unfold insert_into_leaf_sorted. apply merge_at_nonempty. destruct (position_or _ _ _); [|apply merge_at_nonempty];
    unfold insert_at; by destruct (take _ t).
Qed.

Lemma leaf_step b buf (t : ntree 0) lo hi outer : outer ≠ [] → leaf_node buf t → t ≠ [] → zlen t ≤ cap → leaf_ok lo hi t →
  lo ≤ starts new → ends new ≤ hi → existsb (overlaps new) t = false → 0 ≤ b < 2 ^ 48 → (2 ≤ length drawn)%nat →
  hands_over 0 b t lo hi (mkFrame b buf) outer outer.
Proof.
  intros Hout Hl Hne Hcap Hok Hlo Hhi Hov Hb Hdr. destruct (node_max_range bs Hbs) as [Hm _].
  unfold hands_over, insert_at_leaf. cbn [frame_bytes block].
  destruct (leaf_parse _ _ Hl) as (h & -> & _ & E). cbn [mbind res_bind]. rewrite E. cbn [mbind res_bind].
  unfold check_no_overlap. rewrite Hov. cbn [mbind res_bind]. rewrite (bool_decide_false (outer = [])) by done. cbv zeta.
  destruct (leaf_inserted lo hi t Hok Hlo Hhi Hov) as [Hok' Hmap].
  pose proof (zlen_insert_into_leaf_sorted new t) as Hlen. pose proof (insert_nonempty t) as Hne'.
  set (t' := insert_into_leaf_sorted t new) in *. pose proof (zlen_nonneg t').
  assert (exists e es, t' = e :: es) as (e & es & Et') by (destruct t' as [|e es]; [done|by eexists _, _]).
  unfold as_u16. rewrite Z.mod_small by lia. case_decide as Hfit.
  - destruct (leaf_kid b t' (starts e)) as (out & -> & Hkid); [by rewrite Et'|done|apply Hok'|done|]. cbn [mbind res_bind].
    assert (Hhd : head t' = Some e) by (by rewrite Et'). rewrite Hhd. cbn [unwrap mbind res_bind].
    set (corr := if decide (first_key 0 t = Some (starts e)) then None else Some (b, starts e)).
    set (st := mkClimb None corr [(b, out)] [] a).
    exists st, [(starts e, b, t')]. split.
    + split.
      * exists (starts e), t', None. done.
      * constructor; [|done]. apply Hkid. set_solver.
      * cbn [flat fmap list_fmap concat snd]. rewrite app_nil_r. done.
      * cbn [blocks fmap list_fmap concat snd fst allocated st]. done.
      * cbn. set_solver.
      * exists drawn. done.
      * cbn. lia.
    + cbv zeta. cbn [push_writes writes allocated alloc_state app propagated correction]. unfold corr, st, corr.
      change (Extent.logical_block <$> head t) with (first_key 0 t). change (Extent.logical_block e) with (starts e).
      case_decide as Hk; [left|right]; done.
  - destruct (halves t' cap) as (Esp & Hl1 & Hl2 & Hn1 & Hn2); [lia|lia|lia|]. unfold split_leaf.
    set (lt := take _ t') in *. set (rt := drop _ t') in *.
    assert (∃ x xs, rt = x :: xs) as (x & xs & Ert) by (destruct rt; [done|by eexists _, _]).
    assert (∃ ys, lt = e :: ys) as (ys & Elt).
    { destruct lt as [|y ys]; [done|]. rewrite Et' in Esp. injection Esp as -> _. by eexists. }
    destruct drawn as [|nb rest] eqn:Edr; [simpl in Hdr; lia|].
    destruct (alloc_block_ok (mkClimb None None [] [] a) rest nb) as (a' & Eal & Hd'); [done..|].
    assert (Hhr : head rt = Some x) by (by rewrite Ert). assert (Hhl : head lt = Some e) by (by rewrite Elt).
    rewrite Hhr. cbn [unwrap mbind res_bind]. rewrite Eal. cbn [mbind res_bind].
    assert (Hokl : Forall ext_ok (lt ++ rt)) by (rewrite <-Esp; apply Hok'). apply Forall_app in Hokl as [Hokl Hokr].
    apply Forall_cons in Hu48 as [Hnb _].
    destruct (leaf_kid b lt (starts e)) as (lout & -> & Hkl); [by rewrite Elt|done..|]. cbn [mbind res_bind].
    destruct (leaf_kid nb rt (starts x)) as (rout & -> & Hkr); [by rewrite Ert|done..|]. cbn [mbind res_bind].
    rewrite Hhl. cbn [unwrap mbind res_bind push_writes writes allocated alloc_state app propagated correction].
    eexists _, [(starts e, b, lt); (starts x, nb, rt)]. split; [|right; reflexivity]. split.
    + exists (starts e), lt, (Some (starts x, nb, rt)). split; [done|]. split; [done|]. done.
    + constructor; [apply Hkl; set_solver|]. constructor; [apply Hkr; set_solver|done].
    + cbn [flat fmap list_fmap concat snd]. rewrite app_nil_r, <-Esp. done.
    + cbn [blocks fmap list_fmap concat snd fst app allocated]. done.
    + cbn. set_solver.
    + exists rest. done.
    + cbn. lia.
Qed.
(** Taking a changed child back in. *)
Lemma apply_correction_child {T} fb (L R : list (Z * Z * T)) k b t key : Forall (λ j, snd (fst j) ≠ b) L →
  apply_correction fb (names (L ++ (k, b, t) :: R)) (Some (b, key)) =
    Ok (names (L ++ (key, b, t) :: R), if decide (L = [] ∧ fb ≠ 0) then Some (fb, key) else None).
Proof.
  intros HL. unfold apply_correction, names. rewrite !fmap_app, !fmap_cons. cbn [fst].
  assert (E : list_find (λ p : Z * Z, snd p = b) ((fst <$> L) ++ (k, b) :: (fst <$> R)) = Some (length (fst <$> L), (k, b))).
  { apply list_find_Some. split; [by apply list_lookup_middle|]. split; [done|]. intros j y Hy Hj.
    rewrite lookup_app_l in Hy by done. apply list_elem_of_lookup_2, list_elem_of_fmap in Hy as (x & -> & Hx).
    rewrite Forall_forall in HL. by apply HL. }
  setoid_rewrite E. cbn [ok_or mbind res_bind snd]. f_equal. f_equal.
  - rewrite insert_app_r_alt by done. by rewrite Nat.sub_diag.
  - destruct L as [|j L]; repeat case_decide; simpl in *; naive_solver.
Qed.

Lemma insert_index_between (l1 l2 : list (Z * Z)) k c : Forall (λ p, fst p ≤ k) l1 →
  (∀ p, head l2 = Some p → k < fst p) → insert_into_index_sorted (l1 ++ l2) k c = l1 ++ (k, c) :: l2.
Proof.
  intros H1 H2. unfold insert_into_index_sorted.
  assert (E : position_or (λ p : Z * Z, bool_decide (k < fst p)) (length (l1 ++ l2)) (l1 ++ l2) = length l1).
  { unfold position_or. destruct l2 as [|p l2].
    - rewrite app_nil_r. destruct (list_find _ l1) as [[i x]|] eqn:E; [|done].
      apply list_find_Some in E as (Hx & Hk & _). apply list_elem_of_lookup_2 in Hx. rewrite Forall_forall in H1.
      specialize (H1 x Hx). apply bool_decide_unpack in Hk. lia.
    - erewrite (proj2 (list_find_Some _ _ (length l1) p)); [done|]. split; [by apply list_lookup_middle|].
      split; [apply bool_decide_pack; by apply H2|]. intros j y Hy Hj. rewrite lookup_app_l in Hy by done.
      apply list_elem_of_lookup_2 in Hy. rewrite Forall_forall in H1. specialize (H1 y Hy). intros Hk%bool_decide_unpack. lia. }
  rewrite E. unfold insert_at. by rewrite take_app_length, drop_app_length.
Qed.
Lemma apart (x b : Z) (l1 l2 l3 l4 l5 : list Z) : NoDup ((l1 ++ b :: l2 ++ l3) ++ l4 ++ l5) → x ∈ l1 ∨ x ∈ l3 →
  x ∈ b :: l2 ++ l4 → False.
Proof.
  intros Hnd H1 H2. assert (E : (l1 ++ b :: l2 ++ l3) ++ l4 ++ l5 ≡ₚ (b :: l2 ++ l4) ++ l1 ++ l3 ++ l5) by solve_Permutation.
  rewrite E in Hnd. apply NoDup_app in Hnd as (_ & Hnd & _). apply (Hnd x H2). set_solver.
Qed.

(** A node [L ++ (k, b, t) :: R] whose child [t] has become [out]. *)
Record regrown (d : nat) (L R : list (Z * Z * ntree d)) (k b : Z) (t : ntree d) (lo lo' hi' hi : Z)
    (st : climbing A) (out : list (Z * Z * ntree d)) : Prop := {
  regrown_old : Forall (kid_ok old d) (L ++ (k, b, t) :: R);
  regrown_left : leaf_ok lo lo' (flat (S d) L);
  regrown_right : leaf_ok hi' hi (flat (S d) R);
  regrown_lo : lo' ≤ starts new;
  regrown_child : grown d b t lo' hi' st out;
  regrown_nodup : NoDup (blocks (S d) (L ++ (k, b, t) :: R) ++ drawn);
}.

Section regrow.
Context (d : nat) (L R : list (Z * Z * ntree d)) (k b : Z) (t : ntree d) (lo lo' hi' hi : Z).
Context (st : climbing A) (out : list (Z * Z * ntree d)) (Hre : regrown d L R k b t lo lo' hi' hi st out).
Local Abbreviation kids := (L ++ (k, b, t) :: R).
Local Abbreviation kids' := (L ++ out ++ R).

Lemma regrown_kids_keyed : kids_keyed d L ∧ first_key d t = Some k ∧ kids_keyed d R ∧ kids_keyed d out.
Proof.
  pose proof Hre as [Hkids HL HR Hlo Hg Hnd].
  apply kids_ok_keyed in Hkids. apply Forall_app in Hkids as [H1 H2]. apply Forall_cons in H2 as [[_ H2] H3].
  split; [done|]. split; [exact H2|]. split; [done|]. eapply kids_ok_keyed, grown_kids, Hg.
Qed.

Lemma regrown_absorbs fb : ∃ ns key c, head out = Some (key, b, c) ∧
  apply_correction fb (names kids) (correction st) =
    Ok (ns, if decide (first_key d t = Some key) then None else if decide (L = [] ∧ fb ≠ 0) then Some (fb, key) else None) ∧
  absorb_split ns (propagated st) = names kids'.
Proof.
  pose proof Hre as [Hkids HL HR Hlo Hg Hnd].
  destruct regrown_kids_keyed as (HkL & Hk & HkR & Hko).
  destruct (grown_shape _ _ _ _ _ _ _ Hg) as (key & t' & sib & Eout & Ep & Ec).
  assert (Hb : Forall (λ j, snd (fst j) ≠ b) L).
  { apply Forall_forall. intros j Hj Ej. rewrite blocks_app, blocks_cons in Hnd. apply NoDup_app in Hnd as (Hnd1 & _).
    apply NoDup_app in Hnd1 as (_ & Hnd1 & _). apply (Hnd1 b); [|set_solver]. rewrite <-Ej. cbn [blocks].
    apply list_elem_of_In, in_concat. exists (snd (fst j) :: blocks d (snd j)). split; [|by left].
    apply list_elem_of_In, list_elem_of_fmap. by exists j. }
  exists (names (L ++ (key, b, t) :: R)), key, t'. split; [by rewrite Eout|]. split.
  { rewrite Ec. case_decide as Hkey; [|by apply apply_correction_child]. cbn [apply_correction].
    rewrite Hk in Hkey. injection Hkey as ->. done. }
  rewrite Ep, Eout. destruct sib as [[[k2 nb] s]|]; [|cbn [absorb_split fmap option_fmap option_map option_list]; unfold names; by rewrite !fmap_app]. cbn [fmap option_fmap option_map absorb_split fst snd new_logical new_child option_list].
  destruct (grown_flat _ _ _ _ _ _ _ Hg) as [Hfl _]. rewrite Eout in Hko, Hfl. cbn [option_list] in *.
  pose proof (kids_range _ _ _ _ Hko Hfl) as Hro. apply Forall_cons in Hko as [[Hk1 Hf1] Hko]. apply Forall_singleton in Hko as [Hk2 Hf2].
  do 2 apply Forall_cons in Hro as [? Hro]. cbn [fst snd] in *.
  rewrite flat_cons in Hfl. change (flat (S d) [(k2, nb, s)]) with (flat d s ++ []) in Hfl.
  destruct (leaf_ok_cut _ _ _ _ _ _ _ Hk2 Hf2 Hfl) as [Hcut _]. pose proof (leaf_ok_first _ _ _ _ _ Hk1 Hf1 Hcut).
  pose proof (kids_range _ _ _ _ HkL HL) as HrL. pose proof (kids_range _ _ _ _ HkR HR) as HrR.
  unfold names. rewrite !fmap_app, !fmap_cons. cbn [fst fmap list_fmap app].
  rewrite (cons_middle (key, b) (L.*1)), app_assoc. rewrite insert_index_between; [by rewrite <-app_assoc| |].
  - apply Forall_app. split; [|constructor; [cbn; lia|done]]. apply Forall_fmap. eapply Forall_impl; [exact HrL|].
    intros j Hj. unfold compose. cbn beta in Hj. lia.
  - intros p Hp. destruct R as [|r R']; [done|]. injection Hp as <-. apply Forall_cons in HrR as [? _]. lia.
Qed.

Lemma regrown_blocks : blocks (S d) kids' ≡ₚ blocks (S d) kids ++ allocated st.
Proof.
  pose proof Hre as [Hkids HL HR Hlo Hg Hnd].
  rewrite !blocks_app, blocks_cons, (grown_blocks _ _ _ _ _ _ _ Hg). cbn [fst snd]. solve_Permutation.
Qed.

Lemma regrown_flat : inserted new lo hi (flat (S d) kids) (flat (S d) kids').
Proof.
  pose proof Hre as [Hkids HL HR Hlo Hg Hnd].
  rewrite !flat_app, flat_cons. cbn [snd]. eapply inserted_between; [exact HL|exact HR|exact Hlo|]. apply Hg.
Qed.

(** What the plan has not written is as it was. *)
Lemma regrown_ok : Forall (kid_ok (view (writes st)) d) kids'.
Proof.
  pose proof Hre as [Hkids HL HR Hlo Hg Hnd].
  apply Forall_app in Hkids as [H1 H2]. apply Forall_cons in H2 as [_ H3].
  rewrite blocks_app, blocks_cons in Hnd. cbn [fst snd] in Hnd.
  destruct (grown_alloc _ _ _ _ _ _ _ Hg) as (rest & Erest & _).
  assert (Hsep : ∀ x, x ∈ blocks (S d) L ∨ x ∈ blocks (S d) R → x ∉ (writes st).*1).
  { intros x Hx Hw. apply (grown_writes _ _ _ _ _ _ _ Hg) in Hw. rewrite (grown_blocks _ _ _ _ _ _ _ Hg) in Hw.
    rewrite <-Erest in Hnd. by eapply apart. }
  apply Forall_app. split; [|apply Forall_app; split; [apply Hg|]];
    (eapply kids_mono; [|eassumption]; intros x pre Hx Ho; right; split; [apply Hsep; auto|done]).
Qed.
Lemma regrown_writes x : x ∈ (writes st).*1 → x ∈ blocks (S d) kids'.
Proof. pose proof Hre as [_ _ _ _ Hg _]. intros Hw. apply (grown_writes _ _ _ _ _ _ _ Hg) in Hw. rewrite !blocks_app, !elem_of_app. auto. Qed.

Lemma regrown_fresh blk : blk ∉ blocks (S d) kids ++ drawn → (blk ∉ blocks (S d) kids') ∧ blk ∉ ((writes st).*1).
Proof.
  pose proof Hre as [Hkids HL HR Hlo Hg Hnd].
  intros Hb. destruct (grown_alloc _ _ _ _ _ _ _ Hg) as (rest & Erest & _).
  assert (H : blk ∉ blocks (S d) kids') by (rewrite regrown_blocks, <-Erest, !not_elem_of_app in *; naive_solver).
  split; [done|]. intros Hw. by apply H, regrown_writes.
Qed.

(** The key the node is known by above. *)
Lemma regrown_key : ∃ key, first_key (S d) kids' = Some key ∧
  ∀ fb, fb ≠ 0 → ∃ key0 c, head out = Some (key0, b, c) ∧
    (if decide (first_key d t = Some key0) then None else if decide (L = [] ∧ fb ≠ 0) then Some (fb, key0) else None) =
    (if decide (first_key (S d) kids = Some key) then None else Some (fb, key)).
Proof.
  pose proof Hre as [Hkids HL HR Hlo Hg Hnd].
  destruct regrown_kids_keyed as (_ & Hk & _). destruct (grown_shape _ _ _ _ _ _ _ Hg) as (key & t' & sib & Eout & _).
  rewrite Eout. destruct L as [|j L'].
  - exists key. split; [done|]. intros fb Hfb. exists key, t'. split; [done|]. rewrite Hk. cbn [app first_key head fmap option_fmap option_map compose fst].
    repeat case_decide; naive_solver.
  - exists (fst (fst j)). split; [done|]. intros fb Hfb. exists key, t'. split; [done|].
    cbn [app first_key head fmap option_fmap option_map compose fst]. rewrite (decide_True (P := Some _ = Some _)) by done.
    repeat case_decide; naive_solver.
Qed.

Lemma regrown_size : zlen kids' ≤ zlen kids + 1 ∧ kids' ≠ [].
Proof.
  pose proof Hre as [Hkids HL HR Hlo Hg Hnd].
  destruct (grown_shape _ _ _ _ _ _ _ Hg) as (key & t' & sib & -> & _). split; [|by destruct L].
  unfold zlen. rewrite !length_app. simpl. destruct sib; simpl; lia.
Qed.
End regrow.

(** The insertion ended below this node, whose own block stays as it was. *)
Lemma index_keep d L R k b (t : ntree d) lo lo' hi' hi st out key0 blk :
  let kids := L ++ (k, b, t) :: R in
  regrown d L R k b t lo lo' hi' hi st out → kid_ok old (S d) (key0, blk, kids) →
  blk ∉ blocks (S d) kids ++ drawn → propagated st = None → correction st = None →
  ∃ out', grown (S d) blk kids lo hi st out'.
Proof.
  intros kids Hre Hself Hb Hp Hc. destruct (regrown_fresh _ _ _ _ _ _ _ _ _ _ _ _ Hre blk Hb) as [Hb1 Hb2].
  pose proof (regrown_ok _ _ _ _ _ _ _ _ _ _ _ _ Hre) as Hok. pose proof Hre as [_ _ _ _ Hg _].
  destruct (regrown_kids_keyed _ _ _ _ _ _ _ _ _ _ _ _ Hre) as (_ & Hk & _).
  destruct (grown_shape _ _ _ _ _ _ _ Hg) as (key & t' & sib & Eout & Ep & Ec).
  rewrite Ep in Hp. destruct sib; [done|]. rewrite Ec in Hc. case_decide as Hkey; [|done]. rewrite Hk in Hkey. injection Hkey as ->.
  cbn [option_list] in Eout.
  assert (En : names (L ++ out ++ R) = names kids) by (rewrite Eout; unfold names, kids; by rewrite !fmap_app).
  exists [(key0, blk, L ++ out ++ R)]. destruct Hself as (H1 & H2 & H3 & H4 & H5 & pre & H6 & H7). cbn [fst snd] in *.
  assert (Hf : first_key (S d) (L ++ out ++ R) = Some key0).
  { rewrite <-H2. unfold kids. rewrite Eout. by destruct L. }
  split.
  - exists key0, (L ++ out ++ R), None. split; [done|]. split; [by rewrite Ep|]. rewrite Ec, !decide_True by done. done.
  - constructor; [|done]. split; [split; [rewrite Eout; by destruct L|by eapply kids_ok_keyed]|]. split; [exact Hf|].
    split; [cbn [width snd fst] in *; etransitivity; [|exact H3]; rewrite Eout; unfold zlen, kids; rewrite !length_app; done|].
    split; [by eapply kids_ok_capped|]. split; [exact H5|]. exists pre. cbn [fst snd]. split; [by right|].
    destruct H7 as [H7 _]. split; [change (index_node pre (Z.of_nat (S d)) (names (L ++ out ++ R))); by rewrite En|by apply kids_ok_repr].
  - rewrite flat_cons. cbn [snd]. change (flat (S (S d)) []) with (@nil Extent.t). rewrite app_nil_r. by eapply regrown_flat.
  - rewrite blocks_cons. cbn [fst snd]. change (blocks (S (S d)) []) with (@nil Z). rewrite app_nil_r. f_equiv. by eapply regrown_blocks.
  - intros x Hx. rewrite blocks_cons. apply list_elem_of_further, elem_of_app. left. by eapply regrown_writes.
  - apply Hg.
  - pose proof (grown_count _ _ _ _ _ _ _ Hg). lia.
Qed.
Lemma names_drop {T} n (kids : list (Z * Z * T)) : drop n (names kids) = names (drop n kids).
Proof. unfold names. by rewrite fmap_drop. Qed.
Lemma names_take {T} n (kids : list (Z * Z * T)) : take n (names kids) = names (take n kids).
Proof. unfold names. by rewrite fmap_take. Qed.

Lemma read_indices_ok buf depth ns blk : index_node buf depth ns →
  ∃ h, read_indices (mkFrame blk buf) = Ok (h, ns) ∧ ExtentHeader.depth h = depth.
Proof.
  intros (h & Hh & Hd & Ht). exists h. split; [|done]. unfold read_indices. cbn [frame_bytes]. rewrite Hh. cbn [mbind res_bind].
  unfold parse_index_entries. rewrite Ht. cbn [mbind res_bind]. f_equal. f_equal. rewrite <-list_fmap_compose.
  clear. induction ns as [|[x y] ns IH]; [done|]. rewrite fmap_cons, IH. done.
Qed.

(** The new contents of a node that is written out, and what is left of the plan. *)
Lemma index_step d L R k b (t : ntree d) lo lo' hi' hi st out blk buf outer :
  let kids := L ++ (k, b, t) :: R in
  regrown d L R k b t lo lo' hi' hi st out → index_node buf (Z.of_nat (S d)) (names kids) → zlen kids ≤ cap →
  blk ∉ blocks (S d) kids ++ drawn → 0 < blk < 2 ^ 48 → (d ≤ 5)%nat → outer ≠ [] → (d + 2 < length drawn)%nat →
  ∃ st' out', grown (S d) blk kids lo hi st' out' ∧
    ((climb alloc bs root gen (mkFrame blk buf :: outer) st = finish root st' ∧ propagated st' = None ∧ correction st' = None) ∨
     climb alloc bs root gen (mkFrame blk buf :: outer) st = climb alloc bs root gen outer st').
Proof.
  intros kids Hre Hnode Hcap Hb Hblk Hd Hout Hdr. destruct (node_max_range bs Hbs) as [Hm _].
  destruct (read_indices_ok _ _ _ blk Hnode) as (h & Eh & Hh). cbn [climb]. rewrite Eh. cbn [mbind res_bind block]. rewrite Hh.
  destruct (regrown_absorbs _ _ _ _ _ _ _ _ _ _ _ _ Hre blk) as (ns & key1 & c & Hhd & Eap & Eab).
  destruct (regrown_key _ _ _ _ _ _ _ _ _ _ _ _ Hre) as (key & Hkey & Hcorr).
  destruct (Hcorr blk) as (key1' & c' & Hhd' & Ecorr); [lia|]. rewrite Hhd in Hhd'. injection Hhd' as <- <-. rewrite Ecorr in Eap.
  change (L ++ (k, b, t) :: R) with kids in Eap. rewrite Eap. cbn [mbind res_bind]. rewrite Eab.
  destruct (regrown_fresh _ _ _ _ _ _ _ _ _ _ _ _ Hre blk Hb) as [Hb1 Hb2].
  pose proof (regrown_ok _ _ _ _ _ _ _ _ _ _ _ _ Hre) as Hok. pose proof (regrown_flat _ _ _ _ _ _ _ _ _ _ _ _ Hre) as Hflat.
  destruct (regrown_size _ _ _ _ _ _ _ _ _ _ _ _ Hre) as [Hsz Hne]. pose proof (regrown_blocks _ _ _ _ _ _ _ _ _ _ _ _ Hre) as Hbl.
  pose proof (regrown_writes _ _ _ _ _ _ _ _ _ _ _ _ Hre) as Hws.
  pose proof Hre as [_ _ _ _ Hg Hnd]. set (kids' := L ++ out ++ R) in *.
  change (zlen kids' ≤ zlen kids + 1) in Hsz. change (L ++ (k, b, t) :: R) with kids in Hbl, Hflat, Hnd.
  assert (Ez : zlen (names kids') = zlen kids') by apply zlen_fmap. pose proof (zlen_nonneg kids').
  rewrite (bool_decide_false (outer = [])) by done. unfold as_u16. rewrite Z.mod_small by lia. rewrite Ez.
  destruct (grown_alloc _ _ _ _ _ _ _ Hg) as (rest & Erest & Hd'). pose proof (grown_count _ _ _ _ _ _ _ Hg) as Hcnt.
  set (corr := if decide (first_key (S d) kids = Some key) then None else Some (blk, key)) in *.
  clear Ecorr Hcorr Eap. case_decide as Hfit.
  - destruct (index_kid (view (writes st)) d blk kids' key) as (nbuf & -> & Hkid); [exact Hkey|exact Hfit|lia|exact Hok|apply Hflat|lia|].
    cbn [mbind res_bind push_writes propagated correction writes allocated alloc_state].
    exists (mkClimb None corr (writes st ++ [(blk, nbuf)]) (allocated st) (alloc_state st)), [(key, blk, kids')]. split.
    + split.
      * by exists key, kids', None.
      * constructor; [|done]. apply Hkid; [cbn [writes]; set_solver|]. eapply kids_mono; [|exact Hok].
        intros x pre Hx. apply view_app. intros Hx'%list_elem_of_singleton. by subst.
      * rewrite flat_cons. cbn [snd]. change (flat (S (S d)) []) with (@nil Extent.t). by rewrite app_nil_r.
      * rewrite blocks_cons. cbn [fst snd allocated]. change (blocks (S (S d)) []) with (@nil Z). rewrite app_nil_r. by f_equiv.
      * intros x. rewrite blocks_cons. cbn [writes fst snd]. rewrite fmap_app, elem_of_app, elem_of_cons, elem_of_app.
        intros [Hx|Hx]; [auto|]. apply list_elem_of_singleton in Hx as ->. auto.
      * by exists rest.
      * cbn [allocated]. lia.
    + unfold corr. case_decide; [left|right]; done.
  - destruct (halves kids' cap) as (Esp & Hl1 & Hl2 & Hn1 & Hn2); [lia|lia|lia|]. unfold split_index.
    assert (El : length (names kids') = length kids') by apply length_fmap. rewrite El.
    rewrite names_drop, names_take.
    set (lt := take _ kids') in *. set (rt := drop _ kids') in *.
    assert (∃ k2 c2 tx xs, rt = (k2, c2, tx) :: xs) as (k2 & c2 & tx & xs & Ert) by (destruct rt as [|[[] ] ]; [done|by eexists _, _, _, _]).
    assert (Hkl : first_key (S d) lt = Some key) by (rewrite Esp in Hkey; by destruct lt).
    assert (Hhr : head (names rt) = Some (k2, c2)) by (by rewrite Ert). rewrite Hhr. cbn [unwrap mbind res_bind].
    destruct rest as [|nb rest]; [apply (f_equal length) in Erest; rewrite length_app in Erest; simpl in Erest; lia|].
    set (st1 := mkClimb None corr _ _ _).
    destruct (alloc_block_ok st1 rest nb) as (a' & Eal & Hd''); [done|done|]. rewrite Eal. cbn [mbind res_bind].
    assert (Hokf : Forall ext_ok (flat (S d) (lt ++ rt))) by (rewrite <-Esp; apply Hflat).
    rewrite flat_app in Hokf. apply Forall_app in Hokf as [Hokl Hokr]. assert (Hk2 := Hok). rewrite Esp in Hk2. apply Forall_app in Hk2 as [Hkidl Hkidr].
    assert (Hnb : 0 ≤ nb < 2 ^ 48) by (apply (proj1 (Forall_forall _ _) Hu48); rewrite <-Erest; set_solver).
    destruct (index_kid (view (writes st)) d blk lt key) as (lout & EL & HkidL); [exact Hkl|exact Hn1|lia|exact Hkidl|exact Hokl|lia|].
    destruct (index_kid (view (writes st)) d nb rt k2) as (rout & ER & HkidR);
      [by rewrite Ert|exact Hn2|lia|exact Hkidr|exact Hokr|exact Hnb|].
    setoid_rewrite EL. cbn [mbind res_bind]. setoid_rewrite ER. cbn [mbind res_bind].
    set (st2 := push_writes _ _). eexists (mkClimb (Some (mkSplit k2 nb)) (correction st2) (writes st2) (allocated st2) (alloc_state st2)), [(key, blk, lt); (k2, nb, rt)].
    split; [|right; reflexivity].
    assert (Hfresh : nb ∉ blocks (S d) kids').
    { rewrite Hbl. rewrite <-Erest in Hnd. apply NoDup_app in Hnd as (_ & Hnd1 & Hnd2). apply NoDup_app in Hnd2 as (_ & Hnd2 & _).
      rewrite not_elem_of_app. split; intros Hx; [apply (Hnd1 nb Hx), elem_of_app; right; by left|apply (Hnd2 nb Hx); by left]. }
    assert (Hok2 : Forall (kid_ok (view (writes st2)) d) kids').
    { eapply kids_mono; [|exact Hok]. intros y pre Hy. apply view_app. cbn. rewrite !elem_of_cons. intros [->|[->|Hn]]; [done|done|by apply elem_of_nil in Hn]. }
    rewrite Esp in Hok2. apply Forall_app in Hok2 as [Hok2l Hok2r].
    split.
    + exists key, lt, (Some (k2, nb, rt)). done.
    + constructor; [apply HkidL; [apply elem_of_app; right; by left|exact Hok2l]|]. constructor; [apply HkidR; [apply elem_of_app; right; right; by left|exact Hok2r]|done].
    + rewrite !flat_cons. cbn [snd]. change (flat (S (S d)) []) with (@nil Extent.t). rewrite app_nil_r.
      replace (flat (S d) lt ++ flat (S d) rt) with (flat (S d) kids'); [done|]. by rewrite Esp, flat_app.
    + rewrite !blocks_cons. cbn [fst snd allocated st2 push_writes st1]. change (blocks (S (S d)) []) with (@nil Z). rewrite app_nil_r.
      rewrite Esp, blocks_app in Hbl. rewrite app_assoc, <-Hbl. solve_Permutation.
    + intros y. cbn [writes st2 push_writes st1]. rewrite fmap_app, elem_of_app. rewrite !blocks_cons. cbn [fst snd].
      rewrite !elem_of_cons, !elem_of_app, !elem_of_cons, !elem_of_app. cbn [fmap list_fmap fst]. rewrite !elem_of_cons, elem_of_nil.
      intros [Hy|Hy]; [apply Hws in Hy; rewrite Esp, blocks_app, elem_of_app in Hy|]; tauto.
    + exists rest. cbn [allocated alloc_state st2 push_writes st1]. by rewrite <-app_assoc.
    + cbn [allocated st2 push_writes st1]. rewrite length_app. simpl. lia.
Qed.
(** An old node as its frame on the path. *)
Lemma old_frame d key b (t : ntree d) : kid_ok old d (key, b, t) → ∃ buf, read_block b = Ok buf ∧ repr old d buf t.
Proof.
  intros (H1 & H2 & H3 & H4 & H5 & pre & (buf & Hr & Hz & Hp) & Hrep). cbn [fst snd] in *. exists buf. split; [done|].
  unfold block_size_ok in Hbs. eapply (repr_node_prefix _ _ pre buf t (bs - 4)); [exact Hrep|exact Hp|lia|lia|exact H1].
Qed.

Lemma kids_old d b buf (kids : list (Z * Z * ntree d)) key : kid_ok old (S d) (key, b, kids) → repr old (S d) buf kids →
  index_node buf (Z.of_nat (S d)) (names kids) ∧ Forall (kid_ok old d) kids ∧ kids ≠ [].
Proof.
  intros (H1 & H2 & H3 & H4 & H5 & _) [Hn Hr]. cbn [fst snd] in *. split; [done|]. destruct H1 as [Hne H1]. split; [|done].
  cbn [capped] in H4. rewrite Forall_forall in *. intros k Hk. destruct (H1 k Hk) as [? ?]. destruct (H4 k Hk) as (? & ? & ?).
  do 5 (split; [done|]). by apply Hr.
Qed.

(** The child the descent takes, with what it needs to take the new extent. *)
Lemma chooses d (kids : list (Z * Z * ntree d)) k0 lo hi : Forall (kid_ok old d) kids → head kids = Some k0 →
  leaf_ok lo hi (flat (S d) kids) → lo ≤ starts new → ends new ≤ hi → existsb (overlaps new) (flat (S d) kids) = false →
  ∃ L k b t R lo' hi', kids = L ++ (k, b, t) :: R ∧
    default (idx_of (fst k0)) (chosen_index (starts new) (idx_of <$> names kids) None) = ExtentIdx.mk k b ∧
    kid_ok old d (k, b, t) ∧ leaf_ok lo lo' (flat (S d) L) ∧ leaf_ok lo' hi' (flat d t) ∧ leaf_ok hi' hi (flat (S d) R) ∧
    lo' ≤ starts new ∧ ends new ≤ hi' ∧ existsb (overlaps new) (flat d t) = false.
Proof.
  intros Hok Hhd Hf Hlo Hhi Hov. pose proof (kids_ok_keyed _ _ _ Hok) as Hk.
  assert (Hkeys : Forall (λ r, fst (fst k0) ≤ fst (fst r)) kids).
  { destruct kids as [|k kids]; [done|]. injection Hhd as ->. assert (Hk' := Hk). apply Forall_cons in Hk' as [[Hk1 Hk2] _].
    rewrite flat_cons in Hf. destruct (leaf_ok_cut lo hi [] _ _ _ _ Hk1 Hk2 Hf) as [_ Hf']. rewrite <-flat_cons in Hf'.
    eapply Forall_impl; [exact (kids_range _ _ _ _ Hk Hf')|]. intros r Hr. cbn beta in Hr. lia. }
  destruct (chosen_index_spec (starts new) kids k0 Hhd Hkeys) as (L & [[k b] t] & R & -> & Hch & E).
  destruct (chosen_range d L R (k, b, t) lo hi new Hk Hf Hch Hnew Hlo Hhi Hov) as (lo' & hi' & H1 & H2 & H3 & H4 & H5 & H6).
  apply Forall_app in Hok as [_ Hok]. apply Forall_cons in Hok as [Hok _]. by exists L, k, b, t, R, lo', hi'.
Qed.

Lemma descends d : ∀ b buf (t : ntree d) key lo hi outer fuel, outer ≠ [] → kid_ok old d (key, b, t) → read_block b = Ok buf →
  leaf_ok lo hi (flat d t) → lo ≤ starts new → ends new ≤ hi → existsb (overlaps new) (flat d t) = false →
  NoDup (b :: blocks d t ++ drawn) → Forall (λ x, 0 < x) (b :: blocks d t) → (d ≤ 5)%nat → (d + 1 < length drawn)%nat → (d < fuel)%nat →
  ∃ leaf path, descend_loop read_block fuel (starts new) outer (mkFrame b buf) = Ok (leaf, path) ∧
    hands_over d b t lo hi leaf path outer.
Proof.
  induction d as [|d IH]; intros b buf t key lo hi outer fuel Hout Hk Hr Hok Hlo Hhi Hov Hnd Hpos Hd Hdr Hfuel;
    (destruct fuel as [|fuel]; [lia|]); destruct (old_frame _ _ _ _ Hk) as (buf' & Hr' & Hrep);
    rewrite Hr in Hr'; injection Hr' as <-; cbn [descend_loop frame_bytes].
  - destruct (leaf_parse _ _ Hrep) as (h & Hh & Hleaf & _). rewrite Hh. cbn [mbind res_bind]. rewrite Hleaf.
    exists (mkFrame b buf), outer. split; [done|]. destruct Hk as (H1 & H2 & H3 & H4 & H5 & _). cbn [fst snd keyed] in *.
    apply leaf_step; try done; lia.
  - destruct (kids_old _ _ _ _ _ Hk Hrep) as (Hnode & Hkids & Hne).
    destruct (index_parse _ _ _ Hnode) as (h & Hh & Hleaf & Hdep & Hent & Hcount); [lia|]. rewrite Hh. cbn [mbind res_bind]. rewrite Hleaf.
    destruct (head (t : list (Z * Z * ntree d))) as [k0|] eqn:Ehd; [|by destruct t].
    assert (ExtentHeader.entries h ≠ 0).
    { intros E0. rewrite E0 in Hcount. destruct t; [done|]. unfold zlen in Hcount. simpl in Hcount. lia. }
    rewrite decide_False by done. rewrite Hent. cbn [mbind res_bind].
    assert (Eh : head (idx_of <$> names (T := ntree d) t) = Some (idx_of (fst k0))) by (destruct t; [done|]; by injection Ehd as ->).
    rewrite Eh. cbn [unwrap mbind res_bind]. cbv zeta.
    destruct (chooses d t k0 lo hi Hkids Ehd Hok Hlo Hhi Hov) as (L & k & cb & c & R & lo' & hi' & -> & -> & Hck & H1 & H2 & H3 & H4 & H5 & H6).
    cbn [ExtentIdx.leaf_block]. destruct (old_frame _ _ _ _ Hck) as (cbuf & Hcr & _). rewrite Hcr. cbn [mbind res_bind].
    apply NoDup_cons in Hnd as [Hb Hnd]. apply Forall_cons in Hpos as [Hb0 Hpos]. rewrite blocks_app, blocks_cons in Hpos. cbn [fst snd] in Hpos.
    destruct (IH cb cbuf c k lo' hi' (mkFrame b buf :: outer) fuel) as (leaf & path & E & st & out & Hg & Hend); try done.
    { rewrite blocks_app, blocks_cons in Hnd. cbn [fst snd] in Hnd.
      assert (Ep : (blocks (S d) L ++ cb :: blocks d c ++ blocks (S d) R) ++ drawn ≡ₚ
        (cb :: blocks d c ++ drawn) ++ blocks (S d) L ++ blocks (S d) R) by solve_Permutation.
      rewrite Ep in Hnd. by apply NoDup_app in Hnd as [? _]. }
    { apply Forall_app in Hpos as [_ Hpos]. rewrite app_comm_cons in Hpos. by apply Forall_app in Hpos as [? _]. }
    { lia. } { lia. } { lia. }
    exists leaf, path. split; [exact E|].
    assert (Hre : regrown d L R k cb c lo lo' hi' hi st out) by (split; done).
    destruct Hend as [(Efin & Hp & Hc)|Ecl].
    + destruct (index_keep _ _ _ _ _ _ _ _ _ _ _ _ key b Hre Hk Hb Hp Hc) as (out' & Hg'). exists st, out'. split; [done|]. by left.
    + destruct Hk as (_ & _ & Hw & _ & Hb48 & _). cbn [fst snd width] in *.
      destruct (index_step _ _ _ _ _ _ _ _ _ _ _ _ b buf outer Hre Hnode Hw Hb) as (st' & out' & Hg' & Hend); [lia|lia|done|lia|].
      exists st', out'. split; [done|]. rewrite Ecl. exact Hend.
Qed.
(** ** The root *)

(** A whole tree: the root in the inode over the blocks [V] describes. *)
Record whole (V : Z → bytes → Prop) (D : nat) (r : bytes) (t : ntree D) : Prop := {
  whole_repr : repr V D r t;
  whole_keyed : D = 0%nat ∨ keyed D t;
  whole_capped : capped cap D t;
  whole_width : width D t ≤ 4;
  whole_flat : leaf_ok 0 (2 ^ 32) (flat D t);
  whole_depth : (D ≤ 5)%nat;
}.

(** The plan leaves a whole tree that maps what [t] mapped and [new]. *)
Definition planned (r : res (DeepInsertPlan * A)) (D : nat) (t : ntree D) : Prop :=
  ∃ plan a' D' t' rest, r = Ok (plan, a') ∧ whole (view (block_writes plan)) D' (new_root plan) t' ∧
    (new_root plan = root ∨ zlen (new_root plan) = 60) ∧ inserted new 0 (2 ^ 32) (flat D t) (flat D' t') ∧
    blocks D' t' ≡ₚ blocks D t ++ allocated_blocks plan ∧
    allocated_blocks plan ++ rest = drawn ∧ draw alloc (length rest) a' = Ok (rest, a_end).

Lemma root_leaf (t : ntree 0) : leaf_node root t → zlen t ≤ 4 → leaf_ok 0 (2 ^ 32) t → 0 ≤ starts new → ends new ≤ 2 ^ 32 →
  existsb (overlaps new) t = false → (1 ≤ length drawn)%nat →
  planned (insert_at_leaf alloc bs root gen new (mkFrame 0 root) [] a) 0 t.
Proof.
  intros Hl Hcap Hok Hlo Hhi Hov Hdr. destruct (node_max_range bs Hbs) as [Hm _].
  unfold planned, insert_at_leaf. cbn [frame_bytes block].
  destruct (leaf_parse _ _ Hl) as (h & -> & _ & E). cbn [mbind res_bind]. rewrite E. cbn [mbind res_bind].
  unfold check_no_overlap. rewrite Hov. cbn [mbind res_bind]. rewrite (bool_decide_true ([] = [])) by done. cbv zeta.
  pose proof (leaf_inserted 0 (2 ^ 32) t Hok Hlo Hhi Hov) as Hins. pose proof (proj1 Hins) as Hok'.
  pose proof (zlen_insert_into_leaf_sorted new t) as Hlen. pose proof (insert_nonempty t) as Hne'.
  set (t' := insert_into_leaf_sorted t new) in *. pose proof (zlen_nonneg t').
  unfold as_u16. rewrite Z.mod_small by lia. case_decide as Hfit.
  - destruct (inline_leaf_ok gen t') as (r & -> & Hz & _ & Hnode); [done|done|apply Hok'|]. cbn [mbind res_bind].
    eexists _, _, 0%nat, t', drawn. split; [reflexivity|]. cbn [new_root block_writes allocated_blocks].
    split; [split; [exact Hnode|by left|done|exact Hfit|exact Hok'|lia]|]. split; [by right|]. split; [exact Hins|].
    split; [done|]. split; [done|exact Hdraw].
  - unfold promote_leaf_root. destruct drawn as [|nb rest] eqn:Edr; [simpl in Hdr; lia|].
    destruct (alloc_block_ok (mkClimb None None [] [] a) rest nb) as (a' & -> & Hd'); [done..|]. cbn [mbind res_bind].
    apply Forall_cons in Hu48 as [Hnb _].
    destruct (keyed_first 0 t' Hne') as (key & Hkey).
    destruct (leaf_kid nb t' key) as (out & -> & Hkid); [exact Hkey|lia|apply Hok'|done|]. cbn [mbind res_bind].
    assert (∃ e, head t' = Some e ∧ Extent.logical_block e = key) as (e & Eh & Ek).
    { cbn [first_key] in Hkey. destruct (head t') as [e|]; [|done]. injection Hkey as <-. by exists e. }
    rewrite Eh. cbn [unwrap mbind res_bind]. rewrite Ek.
    assert (Hk' : kid_ok (view [(nb, out)]) 0 (key, nb, t')) by (apply Hkid; by left).
    destruct (inline_index_ok gen 1 [(key, nb)]) as (r & -> & Hz & _ & Hnode); [done|lia|by vm_compute| |].
    { apply (kids_names_ok (view [(nb, out)]) 0 [(key, nb, t')]); [by constructor|]. cbn. rewrite app_nil_r. apply Hok'. }
    cbn [mbind res_bind]. eexists _, _, 1%nat, [(key, nb, t')], rest. split; [reflexivity|].
    cbn [push_writes new_root block_writes allocated_blocks writes allocated alloc_state app].
    split; [|split; [by right|]].
    + split; [split; [exact Hnode|]| | | | |lia].
      * apply (kids_ok_repr _ 0 [(key, nb, t')]). by constructor.
      * right. split; [done|]. apply (kids_ok_keyed (view [(nb, out)]) 0 [(key, nb, t')]). by constructor.
      * apply (kids_ok_capped (view [(nb, out)]) 0 [(key, nb, t')]). by constructor.
      * by vm_compute.
      * cbn. rewrite app_nil_r. exact Hok'.
    + split; [cbn; rewrite app_nil_r; exact Hins|]. done.
Qed.
(** A root over [kids], in the inode. *)
Lemma root_over V d (kids : list (Z * Z * ntree d)) r : Forall (kid_ok V d) kids → kids ≠ [] → zlen kids ≤ 4 →
  index_node r (Z.of_nat (S d)) (names kids) → leaf_ok 0 (2 ^ 32) (flat (S d) kids) → (S d ≤ 5)%nat → whole V (S d) r kids.
Proof.
  intros Hk Hne Hz Hn Hf Hd. split; [split; [exact Hn|by apply kids_ok_repr]| |by eapply kids_ok_capped|exact Hz|exact Hf|exact Hd].
  right. split; [exact Hne|by eapply kids_ok_keyed].
Qed.

Lemma root_keep d L R k b (t : ntree d) lo' hi' st out :
  let kids := L ++ (k, b, t) :: R in
  regrown d L R k b t 0 lo' hi' (2 ^ 32) st out → index_node root (Z.of_nat (S d)) (names kids) → zlen kids ≤ 4 → (S d ≤ 5)%nat →
  propagated st = None → correction st = None → planned (finish root st) (S d) kids.
Proof.
  intros kids Hre Hnode Hcap Hd Hp Hc.
  pose proof (regrown_ok _ _ _ _ _ _ _ _ _ _ _ _ Hre) as Hok. pose proof (regrown_flat _ _ _ _ _ _ _ _ _ _ _ _ Hre) as Hflat.
  destruct (regrown_size _ _ _ _ _ _ _ _ _ _ _ _ Hre) as [_ Hne]. pose proof (regrown_blocks _ _ _ _ _ _ _ _ _ _ _ _ Hre) as Hbl.
  pose proof Hre as [_ _ _ _ Hg _].
  destruct (regrown_kids_keyed _ _ _ _ _ _ _ _ _ _ _ _ Hre) as (_ & Hk & _).
  destruct (grown_alloc _ _ _ _ _ _ _ Hg) as (rest & Erest & Hd').
  destruct (grown_shape _ _ _ _ _ _ _ Hg) as (key & t' & sib & Eout & Ep & Ec).
  rewrite Ep in Hp. destruct sib; [done|]. rewrite Ec in Hc. case_decide as Hkey; [|done]. rewrite Hk in Hkey. injection Hkey as ->.
  cbn [option_list] in Eout.
  assert (En : names (L ++ out ++ R) = names kids) by (rewrite Eout; unfold names, kids; by rewrite !fmap_app).
  eexists _, _, (S d), (L ++ out ++ R), rest. split; [reflexivity|]. cbn [new_root block_writes allocated_blocks].
  split; [|split; [by left|done]]. apply root_over; [exact Hok|exact Hne| | |apply Hflat|exact Hd].
  - etransitivity; [|exact Hcap]. rewrite Eout. unfold zlen, kids. rewrite !length_app. done.
  - by rewrite En.
Qed.

Lemma root_step d L R k b (t : ntree d) lo' hi' st out :
  let kids := L ++ (k, b, t) :: R in
  regrown d L R k b t 0 lo' hi' (2 ^ 32) st out → index_node root (Z.of_nat (S d)) (names kids) → zlen kids ≤ 4 → (S d ≤ 5)%nat →
  (S d < 5)%nat ∨ zlen kids < 4 → (d + 2 < length drawn)%nat → planned (climb alloc bs root gen [mkFrame 0 root] st) (S d) kids.
Proof.
  intros kids Hre Hnode Hcap Hd Hroom Hdr. destruct (node_max_range bs Hbs) as [Hm _].
  destruct (read_indices_ok _ _ _ 0 Hnode) as (h & Eh & Hh). cbn [climb]. rewrite Eh. cbn [mbind res_bind block]. rewrite Hh.
  destruct (regrown_absorbs _ _ _ _ _ _ _ _ _ _ _ _ Hre 0) as (ns & key1 & c & Hhd & Eap & Eab).
  change (L ++ (k, b, t) :: R) with kids in Eap. rewrite Eap. cbn [mbind res_bind]. rewrite Eab.
  pose proof (regrown_ok _ _ _ _ _ _ _ _ _ _ _ _ Hre) as Hok. pose proof (regrown_flat _ _ _ _ _ _ _ _ _ _ _ _ Hre) as Hflat.
  destruct (regrown_size _ _ _ _ _ _ _ _ _ _ _ _ Hre) as [Hsz Hne]. pose proof (regrown_blocks _ _ _ _ _ _ _ _ _ _ _ _ Hre) as Hbl.
  pose proof Hre as [_ _ _ _ Hg Hnd]. set (kids' := L ++ out ++ R) in *.
  change (zlen kids' ≤ zlen kids + 1) in Hsz. change (L ++ (k, b, t) :: R) with kids in Hbl, Hflat, Hnd.
  assert (Ez : zlen (names kids') = zlen kids') by apply zlen_fmap. pose proof (zlen_nonneg kids').
  rewrite (bool_decide_true ([] = [])) by done. unfold as_u16. rewrite Z.mod_small by lia. rewrite Ez. clear Eap.
  destruct (grown_alloc _ _ _ _ _ _ _ Hg) as (rest & Erest & Hd'). pose proof (grown_count _ _ _ _ _ _ _ Hg) as Hcnt.
  assert (Hnames : Forall name_ok (names kids')) by (eapply kids_names_ok; [exact Hok|apply Hflat]).
  case_decide as Hfit.
  { destruct (inline_index_ok gen (Z.of_nat (S d)) (names kids')) as (r & -> & Hz & _ & Hn); [done|lia|lia|done|]. cbn [mbind res_bind].
    eexists _, _, (S d), kids', rest. split; [reflexivity|]. cbn [new_root block_writes allocated_blocks writes allocated alloc_state].
    split; [apply root_over; [exact Hok|exact Hne|exact Hfit|exact Hn|apply Hflat|exact Hd]|]. split; [by right|]. done. }
  destruct (halves kids' 4) as (Esp & Hl1 & Hl2 & Hn1 & Hn2); [lia|lia|lia|]. unfold promote_index_root.
  assert (El : length (names kids') = length kids') by apply length_fmap. rewrite El.
  replace (as_u16 (Z.of_nat (S d) + 1)) with (Z.of_nat (S (S d))) by (unfold as_u16; rewrite Z.mod_small by lia; lia).
  rewrite decide_False by (unfold EXT4_EXT_MAX_DEPTH; lia). rewrite names_drop, names_take.
  set (lt := take _ kids') in *. set (rt := drop _ kids') in *.
  assert (∃ k1 c1 tx xs, lt = (k1, c1, tx) :: xs) as (k1 & c1 & tx1 & xs1 & Elt) by (destruct lt as [|[[] ] ]; [done|by eexists _, _, _, _]).
  assert (∃ k2 c2 tx xs, rt = (k2, c2, tx) :: xs) as (k2 & c2 & tx & xs & Ert) by (destruct rt as [|[[] ] ]; [done|by eexists _, _, _, _]).
  assert (Hhl : head (names lt) = Some (k1, c1)) by (by rewrite Elt). assert (Hhr : head (names rt) = Some (k2, c2)) by (by rewrite Ert).
  rewrite Hhl, Hhr. cbn [unwrap mbind res_bind].
  destruct rest as [|lb [|rb rest] ]; [apply (f_equal length) in Erest; rewrite length_app in Erest; simpl in Erest; lia..|].
  set (st1 := mkClimb None _ _ _ _).
  destruct (alloc_block_ok st1 (rb :: rest) lb) as (a1 & -> & Hd1); [done|done|]. cbn [mbind res_bind].
  set (st2 := mkClimb _ _ _ _ _) at 1.
  destruct (alloc_block_ok st2 rest rb) as (a2 & -> & Hd2); [cbn [allocated st2 st1]; by rewrite <-app_assoc|done|]. cbn [mbind res_bind].
  assert (Hokf : Forall ext_ok (flat (S d) (lt ++ rt))) by (rewrite <-Esp; apply Hflat).
  rewrite flat_app in Hokf. apply Forall_app in Hokf as [Hokl Hokr]. assert (Hk2 := Hok). rewrite Esp in Hk2. apply Forall_app in Hk2 as [Hkidl Hkidr].
  assert (Hnb : 0 ≤ lb < 2 ^ 48 ∧ 0 ≤ rb < 2 ^ 48).
  { unfold u48s in Hu48. rewrite <-Erest, !Forall_app, !Forall_cons in Hu48. tauto. }
  destruct Hnb as [Hlb Hrb].
  destruct (index_kid (view (writes st)) d lb lt k1) as (lout & EL & HkidL); [by rewrite Elt|lia|lia|exact Hkidl|exact Hokl|lia|].
  destruct (index_kid (view (writes st)) d rb rt k2) as (rout & ER & HkidR); [by rewrite Ert|lia|lia|exact Hkidr|exact Hokr|exact Hrb|].
  rewrite EL. cbn [mbind res_bind]. rewrite ER. cbn [mbind res_bind].
  set (ws := writes st ++ [(lb, lout); (rb, rout)]).
  assert (Hfresh : (lb ∉ blocks (S d) kids') ∧ (rb ∉ blocks (S d) kids')).
  { rewrite Hbl. rewrite <-Erest in Hnd. rewrite app_assoc in Hnd. apply NoDup_app in Hnd as (_ & Hnd1 & _).
    split; intros Hx; apply (Hnd1 _ Hx); [by left|right; by left]. }
  assert (Hok2 : Forall (kid_ok (view ws) d) kids').
  { eapply kids_mono; [|exact Hok]. intros y pre Hy. apply view_app. cbn. rewrite !elem_of_cons. destruct Hfresh.
    intros [->|[->|Hn]]; [done|done|by apply elem_of_nil in Hn]. }
  rewrite Esp in Hok2. apply Forall_app in Hok2 as [Hok2l Hok2r].
  set (top := [(k1, lb, lt); (k2, rb, rt)] : list (Z * Z * ntree (S d))).
  assert (Htop : Forall (kid_ok (view ws) (S d)) top).
  { constructor; [apply HkidL; [apply elem_of_app; right; by left|exact Hok2l]|].
    constructor; [apply HkidR; [apply elem_of_app; right; right; by left|exact Hok2r]|done]. }
  assert (Eflat : flat (S (S d)) top = flat (S d) kids').
  { unfold top. rewrite !flat_cons. cbn [snd]. change (flat (S (S d)) []) with (@nil Extent.t). by rewrite app_nil_r, Esp, flat_app. }
  destruct (inline_index_ok gen (Z.of_nat (S (S d))) (names top)) as (r & Er & Hz & _ & Hn);
    [done|lia|by vm_compute|eapply kids_names_ok; [exact Htop|rewrite Eflat; apply Hflat]|].
  change (names top) with [(k1, lb); (k2, rb)] in Er. rewrite Er. cbn [mbind res_bind]. eexists _, _, (S (S d)), top, rest. split; [reflexivity|].
  cbn [push_writes new_root block_writes allocated_blocks writes allocated alloc_state st1 st2]. fold ws.
  split; [apply root_over; [exact Htop|done|by vm_compute|exact Hn|rewrite Eflat; apply Hflat|lia]|]. split; [by right|].
  split; [rewrite Eflat; exact Hflat|]. split; [|split; [by rewrite <-!app_assoc|exact Hd2]].
  unfold top. rewrite !blocks_cons. cbn [fst snd]. change (blocks (S (S d)) []) with (@nil Z). rewrite app_nil_r.
  rewrite Esp, blocks_app in Hbl. rewrite !app_assoc, <-Hbl. solve_Permutation.
Qed.
Lemma inserts fuel D (t : ntree D) : whole old D root t → ends new ≤ 2 ^ 32 → existsb (overlaps new) (flat D t) = false →
  NoDup (blocks D t ++ drawn) → Forall (λ x, 0 < x) (blocks D t) → (D < 5)%nat ∨ width D t < 4 →
  (D + 1 < length drawn)%nat → (D < fuel)%nat →
  ∃ leaf path, descend_loop read_block fuel (starts new) [] (mkFrame 0 root) = Ok (leaf, path) ∧
    planned (insert_at_leaf alloc bs root gen new leaf path a) D t.
Proof.
  intros [Hrep Hkeyed Hcapped Hwidth Hflat Hdepth] Hhi Hov Hnd Hpos Hroom Hdr Hfuel. destruct (node_max_range bs Hbs) as [Hm _].
  assert (Hlo : 0 ≤ starts new) by apply Hnew. destruct fuel as [|fuel]; [lia|]. cbn [descend_loop frame_bytes].
  destruct D as [|d].
  - destruct (leaf_parse _ _ Hrep) as (h & Hh & Hleaf & _). rewrite Hh. cbn [mbind res_bind]. rewrite Hleaf.
    exists (mkFrame 0 root), []. split; [done|]. apply root_leaf; try done; lia.
  - destruct Hkeyed as [|Hkeyed]; [done|]. destruct Hrep as [Hnode Hkrep].
    change (index_node root (Z.of_nat (S d)) (names (T := ntree d) t)) in Hnode.
    assert (Hkids : Forall (kid_ok old d) t).
    { destruct Hkeyed as [_ Hk]. cbn [capped] in Hcapped. rewrite Forall_forall in *. intros k Hin.
      destruct (Hk k Hin), (Hcapped k Hin) as (? & ? & ?). do 5 (split; [done|]). by apply Hkrep. }
    destruct Hkeyed as [Hne _].
    destruct (index_parse _ _ _ Hnode) as (h & Hh & Hleaf & Hdep & Hent & Hcount); [lia|]. rewrite Hh. cbn [mbind res_bind]. rewrite Hleaf.
    destruct (head (t : list (Z * Z * ntree d))) as [k0|] eqn:Ehd; [|by destruct t].
    assert (ExtentHeader.entries h ≠ 0).
    { intros E0. rewrite E0 in Hcount. destruct t; [done|]. unfold zlen in Hcount. simpl in Hcount. lia. }
    rewrite decide_False by done. rewrite Hent. cbn [mbind res_bind].
    assert (Eh : head (idx_of <$> names (T := ntree d) t) = Some (idx_of (fst k0))) by (destruct t; [done|]; by injection Ehd as ->).
    rewrite Eh. cbn [unwrap mbind res_bind]. cbv zeta.
    destruct (chooses d t k0 0 (2 ^ 32) Hkids Ehd Hflat Hlo Hhi Hov) as (L & k & cb & c & R & lo' & hi' & -> & -> & Hck & H1 & H2 & H3 & H4 & H5 & H6).
    cbn [ExtentIdx.leaf_block]. destruct (old_frame _ _ _ _ Hck) as (cbuf & Hcr & _). rewrite Hcr. cbn [mbind res_bind].
    destruct (descends d cb cbuf c k lo' hi' [mkFrame 0 root] fuel) as (leaf & path & E & st & out & Hg & Hend); try done; try lia.
    { rewrite blocks_app, blocks_cons in Hnd. cbn [fst snd] in Hnd.
      assert (Ep : (blocks (S d) L ++ cb :: blocks d c ++ blocks (S d) R) ++ drawn ≡ₚ
        (cb :: blocks d c ++ drawn) ++ blocks (S d) L ++ blocks (S d) R) by solve_Permutation.
      rewrite Ep in Hnd. by apply NoDup_app in Hnd as [? _]. }
    { rewrite blocks_app, blocks_cons in Hpos. cbn [fst snd] in Hpos. apply Forall_app in Hpos as [_ Hpos].
      rewrite app_comm_cons in Hpos. by apply Forall_app in Hpos as [? _]. }
    exists leaf, path. split; [exact E|].
    assert (Hre : regrown d L R k cb c 0 lo' hi' (2 ^ 32) st out) by (split; done).
    destruct Hend as [(Ei & Hp & Hc)|Ei]; rewrite Ei.
    + by eapply root_keep.
    + eapply root_step; try done. lia.
Qed.
End insert.

Lemma plan_insert_deep_ok {A} (alloc : A → res (Z * A)) bs read_block fuel root new a D (t : ntree D) drawn a_end :
  block_size_ok bs → bytes_ok root → ext_ok new → ends new ≤ 2 ^ 32 →
  whole bs (old bs read_block) D root t → existsb (overlaps new) (flat D t) = false →
  Forall (λ x, 0 < x) (blocks D t) → (D < 5)%nat ∨ width D t < 4 → (D < fuel)%nat →
  draw alloc (length drawn) a = Ok (drawn, a_end) → (D + 1 < length drawn)%nat → u48s drawn → NoDup (blocks D t ++ drawn) →
  planned alloc bs read_block new root drawn a_end
    (plan_insert_extent_deep alloc bs read_block fuel root new a) D t.
Proof.
  intros Hbs Hroot Hnew Hhi Hw Hov Hpos Hroom Hfuel Hdraw Hdr Hu Hnd.
  assert (∃ h, ExtentHeader.parse root = Ok h ∧ ExtentHeader.depth h = Z.of_nat D) as (h & Hh & Hdep).
  { destruct Hw as [Hrep _ _ _ _ _]. destruct D; [destruct Hrep as (h & ? & ? & _)|destruct Hrep as [(h & ? & ? & _) _]]; by exists h. }
  assert (Hgen : 0 ≤ ExtentHeader.generation h < 2 ^ 32 ∧ 12 ≤ zlen root).
  { clear -Hh Hroot. unfold ExtentHeader.parse, EXT4_EXT_NODE_SIZE in Hh. case_decide as Hlen; [done|].
    rewrite !u16_le_ok, !u32_le_ok in Hh by lia. cbn [mbind res_bind] in Hh. repeat (case_decide; [done|]). injection Hh as <-.
    cbn [ExtentHeader.generation]. split; [by apply le32_range|lia]. }
  destruct (inserts alloc bs read_block Hbs new Hnew root (ExtentHeader.generation h) (proj1 Hgen) drawn a a_end Hdraw Hu fuel D t)
    as (leaf & path & E & Hp); try done.
  unfold plan_insert_extent_deep, descend_to_leaf. rewrite decide_False by lia. rewrite Hh. cbn [mbind res_bind].
  destruct Hw as [_ _ _ _ _ Hd]. rewrite decide_False by (unfold EXT4_EXT_MAX_DEPTH; lia).
  change (Extent.logical_block new) with (starts new). rewrite E. cbn [mbind res_bind]. exact Hp.
Qed.

(** ** Properties *)

(** C16: inserting into an extent tree of any depth.  Take a tree whose nodes are
    within capacity, and a new extent that overlaps nothing mapped.  Unless the
    tree is at the maximal depth with a full root, the plan succeeds, asking
    the allocator for a prefix of what it would give.  Once its writes are over
    the old blocks there is a tree under the new root again, within capacity
    and at most five levels deep, that maps exactly what the old one mapped and
    the new extent; its blocks are the old ones and the allocated ones; and on
    any device that holds it, lookups and the full walk read it back. *)
Theorem plan_insert_extent_deep_spec {A} (alloc : A → res (Z * A)) bs read_block fuel root new a D (t : ntree D) drawn a_end :
  block_size_ok bs → bytes_ok root → ext_ok new → ends new ≤ 2 ^ 32 →
  whole bs (old bs read_block) D root t → existsb (overlaps new) (flat D t) = false →
  Forall (λ x, 0 < x) (blocks D t) → (D < 5)%nat ∨ width D t < 4 → (D < fuel)%nat →
  draw alloc (length drawn) a = Ok (drawn, a_end) → (D + 1 < length drawn)%nat → u48s drawn → NoDup (blocks D t ++ drawn) →
  ∃ plan a' D' t' rest, plan_insert_extent_deep alloc bs read_block fuel root new a = Ok (plan, a') ∧
    allocated_blocks plan ++ rest = drawn ∧ draw alloc (length rest) a' = Ok (rest, a_end) ∧
    whole bs (view bs read_block (block_writes plan)) D' (new_root plan) t' ∧
    (∀ l, blockmap (flat D' t') l =
      if Extent.contains new l then Some (Extent.map new l, Extent.uninitialized new) else blockmap (flat D t) l) ∧
    blocks D' t' ≡ₚ blocks D t ++ allocated_blocks plan ∧
    ∀ (C : Crc32c) dev ctx, (∀ b pre, b ∈ blocks D' t' → view bs read_block (block_writes plan) b pre → @on_disk C dev bs ctx b pre) →
      @reads_as bs C dev ctx (new_root plan) (flat D' t') (blocks D t ++ allocated_blocks plan).
Proof.
  intros Hbs Hroot Hnew Hhi Hw Hov Hpos Hroom Hfuel Hdraw Hdr Hu Hnd.
  destruct (plan_insert_deep_ok alloc bs read_block fuel root new a D t drawn a_end)
    as (plan & a' & D' & t' & rest & E & Hw' & _ & [_ Hmap] & Hbl & Hal & Hd); try done.
  exists plan, a', D', t', rest. do 6 (split; [done|]). intros C dev ctx Hdev. destruct Hw' as [Hrep Hk _ _ Hf Hdep].
  apply (tree_reads_as bs Hbs dev ctx D' (new_root plan) t' 0 (2 ^ 32)); try done.
  eapply repr_mono; [|exact Hrep]. intros b pre. apply Hdev.
Qed.

(** A leaf of eighty-four extents under the root, which an eighty-fifth splits. *)
Definition full_leaf_root : bytes := or_empty (build_inline_index_root 7 1 [(0, 1)]).
Definition full_leaf : bytes := or_empty (build_full_leaf_block 7 (sample_runs 84) 1024).
Definition read_full_leaf (b : Z) : res bytes := if decide (b = 1) then Ok full_leaf else Err OutOfBounds.
Definition full_leaf_tree : ntree 1 := [(0, 1, sample_runs 84)].

Lemma full_leaf_whole : whole 1024 (old 1024 read_full_leaf) 1 full_leaf_root full_leaf_tree.
Proof.
  split.
  - split; [eexists; split; [vm_compute; reflexivity|]; split; vm_compute; reflexivity|].
    constructor; [|constructor]. exists (sub full_leaf 0 1020). split.
    + exists full_leaf. split; [vm_compute; reflexivity|]. split; vm_compute; reflexivity.
    + eexists. split; [vm_compute; reflexivity|]. split; vm_compute; reflexivity.
  - right. split; [done|]. repeat constructor; done.
  - constructor; [split; [by_compute|split; [by_compute|exact I]]|constructor].
  - by_compute.
  - split; [vm_compute; repeat (split; [discriminate|]); discriminate|]. unfold ext_ok. by_compute.
  - lia.
Qed.

Lemma plan_insert_extent_deep_spec_witness :
  let new := Extent.mk 1 1 5000 false in
  ∃ plan a' rest, plan_insert_extent_deep counter 1024 read_full_leaf 2 full_leaf_root new 60 = Ok (plan, a') ∧
    allocated_blocks plan ++ rest = [60; 61; 62].
Proof.
  intros new.
  destruct (plan_insert_extent_deep_spec counter 1024 read_full_leaf 2 full_leaf_root new 60 1 full_leaf_tree [60; 61; 62] 63)
    as (plan & a' & D' & t' & rest & E & Hal & _).
  - unfold block_size_ok. lia.
  - by_compute.
  - unfold ext_ok, new. by_compute.
  - by_compute.
  - exact full_leaf_whole.
  - vm_compute. reflexivity.
  - by_compute.
  - left. lia.
  - lia.
  - reflexivity.
  - simpl. lia.
  - unfold u48s. by_compute.
  - by_compute.
  - exists plan, a', rest. split; [exact E|exact Hal].
Defined.

(** [descend_to_leaf] follows the blocks alone: on an index node that names
    itself the descent never ends, whatever the fuel, where the lookups of
    extent.rs stop at the depth the root claims. *)
Definition loop_node : bytes := or_empty (build_full_index_block 7 1 [(0, 1)] 1024).

Lemma descend_to_leaf_unbounded fuel target :
  descend_to_leaf (λ _, Ok loop_node) fuel full_leaf_root target = OutOfFuel.
Proof.
  assert (Hloop : ∀ fuel path, descend_loop (λ _, Ok loop_node) fuel target path (mkFrame 1 loop_node) = OutOfFuel).
  { induction fuel0 as [|n IH]; intros path; [done|].
    assert (E : ∃ h, ExtentHeader.parse loop_node = Ok h ∧ ExtentHeader.is_leaf h = false ∧ ExtentHeader.entries h ≠ 0 ∧
      parse_index_entries loop_node h = Ok [ExtentIdx.mk 0 1]).
    { eexists. split; [vm_compute; reflexivity|]. split; [done|]. split; [done|]. vm_compute. reflexivity. }
    destruct E as (h & E1 & E2 & E3 & E4). cbn [descend_loop frame_bytes]. rewrite E1. cbn [mbind res_bind].
    rewrite E2, decide_False by done. rewrite E4. cbn [mbind res_bind head unwrap chosen_index].
    replace (default _ _) with (ExtentIdx.mk 0 1) by (by case_decide). apply IH. }
  destruct fuel as [|fuel]; [done|].
  assert (E : ∃ h, ExtentHeader.parse full_leaf_root = Ok h ∧ ExtentHeader.depth h = 1 ∧ ExtentHeader.entries h ≠ 0 ∧
    parse_index_entries full_leaf_root h = Ok [ExtentIdx.mk 0 1]).
  { eexists. split; [vm_compute; reflexivity|]. split; [done|]. split; [done|]. vm_compute. reflexivity. }
  destruct E as (h & E1 & E2 & E3 & E4). unfold descend_to_leaf. rewrite E1. cbn [mbind res_bind]. rewrite E2, decide_False by done.
  cbn [descend_loop frame_bytes]. rewrite E1. cbn [mbind res_bind]. unfold ExtentHeader.is_leaf. rewrite E2.
  rewrite bool_decide_false, decide_False by done. rewrite E4. cbn [mbind res_bind head unwrap chosen_index].
  replace (default _ _) with (ExtentIdx.mk 0 1) by (by case_decide). apply Hloop.
Qed.
