(* ===== verification/FileMut.v ===== *)
(** FileMut: planning changes to a file's size and contents
    (src/src/file_mut.rs): truncation over an inline root and over a whole
    tree, and the split of a byte range into block writes.  The specification
    of a truncation is the list of extents cut at a block. *)
From stdpp Require Import sorting.
From S2P Require Import Prelude Errors Bytes Device Extent ExtentMut ExtentTree.

Record SizeChange := mkSizeChange { old_size : Z; new_size : Z }.

(** ** Truncation through the whole tree *)

(** The walk's memory: blocks visited, ranges met, the end of the last extent,
    and what is to be done. *)
Record ShrinkWalk := mkWalk { visited : list Z; physical : list (Z * Z); logical_end : Z; mutations : list ExtentMutation }.

Definition new_walk : ShrinkWalk := mkWalk [] [] 0 [].
Definition push_mutation (m : ExtentMutation) (w : ShrinkWalk) : ShrinkWalk :=
  mkWalk (visited w) (physical w) (logical_end w) (mutations w ++ [m]).

(** One node being rewritten: its bytes, the entries kept, the first key kept
    and the last index seen. *)
Record rewriting := mkRewriting { r_bytes : bytes; kept : Z; first : option Z; previous_index : option Z; walk : ShrinkWalk }.

Section shrink.
Context (stop block_size blocks_count : Z) (read : Z → res bytes).

(** Write an entry back, behind those kept before it. *)
Definition keep_entry (encoded : bytes) (key : Z) (prev : option Z) (w : ShrinkWalk) (r : rewriting) : res rewriting :=
  b ← put (r_bytes r) (EXT4_EXT_NODE_SIZE * (kept r + 1)) encoded;
  Ok (mkRewriting b (kept r + 1) (Some (default key (first r))) prev w).
Definition skip_entry (prev : option Z) (w : ShrinkWalk) (r : rewriting) : rewriting :=
  mkRewriting (r_bytes r) (kept r) (first r) prev w.

Definition leaf_step (original : bytes) (r : rewriting) (index : Z) : res rewriting :=
  encoded ← slice original (EXT4_EXT_NODE_SIZE * (index + 1)) EXT4_EXT_NODE_SIZE;
  extent ← Extent.parse encoded;
  let begin := Extent.logical_block extent in
  let len := Extent.length extent in
  let e := begin + len in
  let physical_end := Extent.physical_block extent + len in
  if decide (len = 0 ∨ begin < logical_end (walk r) ∨ 2 ^ 32 < e ∨ Extent.physical_block extent = 0 ∨ blocks_count < physical_end)
  then Err (CorruptExtentTree "invalid or overlapping leaf extent") else
  let w := mkWalk (visited (walk r)) (physical (walk r) ++ [(Extent.physical_block extent, physical_end)]) e (mutations (walk r)) in
  let keep := Z.min (saturating_sub stop begin) len in
  let w := if decide (keep < len)
           then push_mutation (FreePhysicalRun (Extent.physical_block extent + keep) (len - as_u32 keep)) w else w in
  if decide (keep = 0) then Ok (skip_entry (previous_index r) w r) else
  let encoded_len := as_u16 (as_u16 keep + (if Extent.uninitialized extent then EXT_INIT_MAX_LEN else 0)) in
  encoded ← put_u16 encoded 4 encoded_len;
  keep_entry encoded begin (previous_index r) w r.

Definition repeats (previous : option Z) (key : Z) : Prop := match previous with Some p => key ≤ p | None => False end.
#[export] Instance repeats_dec previous key : Decision (repeats previous key).
Proof. unfold repeats. destruct previous; apply _. Defined.

Definition index_step (node : bytes → ShrinkWalk → res (bytes * option Z * ShrinkWalk)) (original : bytes)
    (r : rewriting) (index : Z) : res rewriting :=
  encoded ← slice original (EXT4_EXT_NODE_SIZE * (index + 1)) EXT4_EXT_NODE_SIZE;
  child ← ExtentIdx.parse encoded;
  let key := ExtentIdx.logical_block child in
  let block := ExtentIdx.leaf_block child in
  if decide (repeats (previous_index r) key ∨ block = 0 ∨ blocks_count ≤ block ∨ block ∈ visited (walk r))
  then Err (CorruptExtentTree "invalid or repeated extent index") else
  let w := mkWalk (visited (walk r) ++ [block]) (physical (walk r) ++ [(block, block + 1)]) (logical_end (walk r)) (mutations (walk r)) in
  nd ← read block;
  if decide (zlen nd ≠ block_size) then Err (CorruptExtentTree "short extent node read") else
  child_header ← ExtentHeader.parse nd;
  k ← u32_le nd 12;
  if decide (ExtentHeader.entries child_header = 0 ∨ k ≠ key)
  then Err (CorruptExtentTree "extent index does not match its child") else
  '(updated, child_first, w) ← node nd w;
  match child_first with
  | None => Ok (skip_entry (Some key) (push_mutation (FreePhysicalRun block 1) w) r)
  | Some child_first =>
      encoded ← put_u32 encoded 0 child_first;
      let w := if decide (updated ≠ nd) then push_mutation (WriteTreeBlock block updated) w else w in
      keep_entry encoded child_first (Some key) w r
  end.

Definition node_of (steps : rewriting → Z → res rewriting) (depth : Z) (original : bytes) (inline : bool) (w : ShrinkWalk)
    : res (bytes * option Z * ShrinkWalk) :=
  header ← ExtentHeader.parse original;
  let body := saturating_sub (zlen original) (if inline then 0 else 4) in
  if decide (ExtentHeader.depth header ≠ depth ∨ ExtentHeader.max header = 0 ∨
             body < EXT4_EXT_NODE_SIZE * (1 + ExtentHeader.max header))
  then Err (CorruptExtentTree "invalid extent node depth or capacity") else
  r ← foldM steps (mkRewriting original 0 None None w) (seqZ 0 (ExtentHeader.entries header));
  b ← put_u16 (r_bytes r) 2 (as_u16 (kept r));
  Ok (b, first r, walk r).

(** The recursion is on the depth the header states. *)
Fixpoint node (depth : nat) (original : bytes) (inline : bool) (w : ShrinkWalk) : res (bytes * option Z * ShrinkWalk) :=
  match depth with
  | O => node_of (leaf_step original) 0 original inline w
  | S d => node_of (index_step (λ nd w, node d nd false w) original) (Z.of_nat (S d)) original inline w
  end.
End shrink.

(** [sort_unstable] of pairs: the order tells all of them apart. *)
Definition pair_le (a b : Z * Z) : Prop := fst a < fst b ∨ (fst a = fst b ∧ snd a ≤ snd b).
#[export] Instance pair_le_dec a b : Decision (pair_le a b).
Proof. unfold pair_le. apply _. Defined.
Fixpoint overlapping_pairs (l : list (Z * Z)) : bool :=
  match l with
  | a :: (b :: _) as rest => bool_decide (fst b < snd a) || overlapping_pairs rest
  | _ => false
  end.

Definition plan_truncate_shrink_deep (old_size new_size : Z) (root : bytes) (block_size blocks_count : Z) (read : Z → res bytes)
    : res (SizeChange * list ExtentMutation) :=
  if decide (old_size < new_size ∨ ¬ (1024 ≤ block_size ≤ 65536) ∨ is_power_of_two block_size = false)
  then Err (InvalidArgument "invalid truncate size or block size") else
  header ← ExtentHeader.parse root;
  if decide (zlen root ≠ 60 ∨ EXT4_EXT_MAX_DEPTH < ExtentHeader.depth header)
  then Err (CorruptExtentTree "invalid inline extent root") else
  '(b, first, w) ← node (div_ceil new_size block_size) block_size blocks_count read
    (Z.to_nat (ExtentHeader.depth header)) root true new_walk;
  b ← (match first with None => put_u16 b 6 0 | Some _ => Ok b end);
  if overlapping_pairs (merge_sort pair_le (physical w))
  then Err (CorruptExtentTree "overlapping physical extent ranges") else
  Ok (mkSizeChange old_size new_size, WriteRoot b :: mutations w).

(** ** Writes *)

Record BlockWrite := mkBlockWrite { logical_block : Z; offset_in_block : Z; payload : bytes }.

Fixpoint split_loop (fuel : nat) (bs cur stop src : Z) (data : bytes) (out : list BlockWrite) : res (list BlockWrite) :=
  if decide (cur < stop) then
    match fuel with
    | O => OutOfFuel
    | S fuel =>
        let logical_block := cur / bs in
        let off_in_block := cur mod bs in
        let block_remaining := bs - off_in_block in
        let take := Z.min block_remaining (saturating_sub stop cur) in
        payload ← slice data src take;
        split_loop fuel bs (cur + take) stop (src + take) data (out ++ [mkBlockWrite logical_block off_in_block payload])
    end
  else Ok out.

Definition split_into_block_writes (offset : Z) (data : bytes) (block_size : Z) : res (list BlockWrite) :=
  if decide (data = []) then Ok [] else
  split_loop (length data) block_size offset (offset + zlen data) 0 data [].

Record WriteBlockRange := mkWriteRange { first_block : Z; last_block : Z; full_blocks : bool }.

Definition compute_write_range (offset length block_size : Z) : option WriteBlockRange :=
  if decide (length = 0) then None else
  Some (mkWriteRange (offset / block_size) ((offset + length - 1) / block_size)
    (bool_decide (offset mod block_size = 0) && bool_decide ((offset + length) mod block_size = 0))).

Definition plan_truncate_grow (old_size new_size : Z) : res SizeChange :=
  if decide (new_size < old_size) then Err (Corrupt "plan_truncate_grow: new_size < old_size") else
  Ok (mkSizeChange old_size new_size).

(** ** Truncation of an inline root *)

Definition shrink_one (new_logical_end : Z) (acc : list Extent.t * list ExtentMutation) (e : Extent.t)
    : list Extent.t * list ExtentMutation :=
  let '(kept, muts) := acc in
  let e_start := Extent.logical_block e in
  let e_end := e_start + Extent.length e in
  if decide (e_end ≤ new_logical_end) then (kept ++ [e], muts) else
  if decide (new_logical_end ≤ e_start) then (kept, muts ++ [FreePhysicalRun (Extent.physical_block e) (Extent.length e)]) else
  let keep_len := as_u16 (new_logical_end - e_start) in
  (kept ++ [Extent.mk (Extent.logical_block e) keep_len (Extent.physical_block e) (Extent.uninitialized e)],
   muts ++ [FreePhysicalRun (Extent.physical_block e + keep_len) (Extent.length e - keep_len)]).

Definition plan_truncate_shrink (old_size new_size : Z) (root : bytes) (block_size : Z)
    : res (SizeChange * list ExtentMutation) :=
  if decide (old_size < new_size) then Err (Corrupt "plan_truncate_shrink: new_size > old_size") else
  header ← ExtentHeader.parse root;
  if negb (ExtentHeader.is_leaf header) then Err (Unsupported "inline truncate planner requires an inline extent root") else
  entries ← parse_leaf_entries root header;
  let '(kept, muts) := foldl (shrink_one (div_ceil new_size block_size)) ([], []) entries in
  new_root ← build_root header kept (zlen root);
  Ok (mkSizeChange old_size new_size, WriteRoot new_root :: muts).

(** ** The specification of a truncation: the extents cut at a block *)

(** How many blocks of an extent lie before [stop]. *)
Definition before (stop : Z) (e : Extent.t) : Z := Z.min (saturating_sub stop (Extent.logical_block e)) (Extent.length e).
Definition cut_one (stop : Z) (e : Extent.t) : list Extent.t :=
  if decide (before stop e = 0) then []
  else [Extent.mk (Extent.logical_block e) (before stop e) (Extent.physical_block e) (Extent.uninitialized e)].
Definition cut (stop : Z) (exts : list Extent.t) : list Extent.t := concat (cut_one stop <$> exts).

(** The physical run past the cut. *)
Definition tail_one (stop : Z) (e : Extent.t) : list (Z * Z) :=
  if decide (before stop e < Extent.length e)
  then [(Extent.physical_block e + before stop e, Extent.length e - before stop e)] else [].
Definition tails (stop : Z) (exts : list Extent.t) : list (Z * Z) := concat (tail_one stop <$> exts).

Definition run (start len : Z) : list Z := seqZ start len.
Definition data_blocks (exts : list Extent.t) : list Z :=
  concat ((λ e, run (Extent.physical_block e) (Extent.length e)) <$> exts).
Definition run_blocks (runs : list (Z * Z)) : list Z := concat ((λ r, run (fst r) (snd r)) <$> runs).

Lemma cut_cons stop e exts : cut stop (e :: exts) = cut_one stop e ++ cut stop exts.
Proof. done. Qed.
Lemma cut_app stop e1 e2 : cut stop (e1 ++ e2) = cut stop e1 ++ cut stop e2.
Proof. unfold cut. by rewrite fmap_app, concat_app. Qed.
Lemma tails_cons stop e exts : tails stop (e :: exts) = tail_one stop e ++ tails stop exts.
Proof. done. Qed.
Lemma data_blocks_app e1 e2 : data_blocks (e1 ++ e2) = data_blocks e1 ++ data_blocks e2.
Proof. unfold data_blocks. by rewrite fmap_app, concat_app. Qed.
Lemma run_blocks_app r1 r2 : run_blocks (r1 ++ r2) = run_blocks r1 ++ run_blocks r2.
Proof. unfold run_blocks. by rewrite fmap_app, concat_app. Qed.

Lemma before_range stop e : ext_ok e → 0 ≤ before stop e ≤ Extent.length e.
Proof. intros (_ & H & _). unfold before, saturating_sub. lia. Qed.

Lemma cut_one_ok stop e lo hi : ext_ok e → lo ≤ Extent.logical_block e → Extent.logical_block e + Extent.length e ≤ hi →
  leaf_ok lo hi (cut_one stop e).
Proof.
  intros He Hlo Hhi. pose proof (before_range stop e He) as Hb. destruct He as (Hl & Hlen & Hp).
  unfold cut_one. case_decide as Hz; [split; [simpl; lia|done]|].
  split; [simpl; lia|]. apply Forall_singleton. unfold ext_ok. cbn. lia.
Qed.

Lemma cut_ok stop lo hi exts : leaf_ok lo hi exts → leaf_ok lo hi (cut stop exts).
Proof.
  revert lo. induction exts as [|e exts IH]; intros lo [Hin Hall]; [done|]. cbn [exts_in] in Hin.
  destruct Hin as (H1 & H2 & H3). apply Forall_cons in Hall as [He Hall]. rewrite cut_cons.
  eapply leaf_ok_app; [apply cut_one_ok; [done|done|reflexivity]|]. by apply IH.
Qed.

Lemma cut_length stop exts : zlen (cut stop exts) ≤ zlen exts.
Proof.
  induction exts as [|e exts IH]; [done|]. rewrite cut_cons, zlen_app, zlen_cons. unfold cut_one.
  case_decide; rewrite ?zlen_cons, ?zlen_nil; lia.
Qed.

(** The cut maps what the extents map before [stop], and nothing after. *)
Lemma cut_blockmap stop lo hi exts l : leaf_ok lo hi exts → 0 ≤ lo →
  blockmap (cut stop exts) l = if decide (l < stop) then blockmap exts l else None.
Proof.
  revert lo. induction exts as [|e exts IH]; intros lo [Hin Hall] Hlo; [by case_decide|]. cbn [exts_in] in Hin.
  destruct Hin as (H1 & H2 & H3). apply Forall_cons in Hall as [He Hall]. pose proof (before_range stop e He) as Hb.
  rewrite cut_cons, blockmap_app, blockmap_cons, (IH _ (conj H3 Hall)) by lia.
  destruct He as (Hl & Hlen & _). unfold cut_one. unfold before, saturating_sub in *.
  destruct (decide (_ = 0)) as [Hz|Hz].
  - unfold blockmap at 1. cbn [find_ext List.find]. destruct (Extent.contains e l) eqn:E; [|done].
    apply contains_true in E. by rewrite !decide_False by lia.
  - rewrite blockmap_cons. unfold Extent.contains, Extent.map. cbn [Extent.logical_block Extent.length Extent.physical_block Extent.uninitialized].
    destruct (decide (Extent.logical_block e ≤ l < Extent.logical_block e + Extent.length e)) as [Hc|Hc].
    + rewrite (bool_decide_true (Extent.logical_block e ≤ l)), (bool_decide_true (l < Extent.logical_block e + Extent.length e)) by lia.
      destruct (decide (l < stop)); [rewrite bool_decide_true by lia; done|]. rewrite bool_decide_false by lia. done.
    + assert (bool_decide (Extent.logical_block e ≤ l) && bool_decide (l < Extent.logical_block e + Extent.length e) = false) as ->.
      { apply andb_false_iff. rewrite !bool_decide_eq_false. lia. }
      assert (bool_decide (Extent.logical_block e ≤ l) && bool_decide (l < Extent.logical_block e +
        Z.min (Z.max 0 (stop - Extent.logical_block e)) (Extent.length e)) = false) as ->.
      { apply andb_false_iff. rewrite !bool_decide_eq_false. lia. }
      done.
Qed.

(** Every data block is kept or released, once. *)
Lemma cut_one_blocks stop e : ext_ok e →
  data_blocks (cut_one stop e) ++ run_blocks (tail_one stop e) = run (Extent.physical_block e) (Extent.length e).
Proof.
  intros He. pose proof (before_range stop e He) as Hb. unfold cut_one, tail_one, data_blocks, run_blocks, run.
  assert (Hsplit : seqZ (Extent.physical_block e) (Extent.length e) = seqZ (Extent.physical_block e) (before stop e) ++
    seqZ (Extent.physical_block e + before stop e) (Extent.length e - before stop e)).
  { rewrite <-seqZ_app by lia. f_equal. lia. }
  rewrite Hsplit. destruct (decide (before stop e = 0)) as [->|Hz].
  - rewrite decide_True by (destruct He as (_ & ? & _); lia). cbn. by rewrite app_nil_r.
  - case_decide as Hlt; cbn; rewrite ?app_nil_r; [done|].
    assert (Extent.length e - before stop e = 0) as -> by lia. cbn. by rewrite app_nil_r.
Qed.

Lemma cut_blocks stop exts : Forall ext_ok exts → data_blocks (cut stop exts) ++ run_blocks (tails stop exts) ≡ₚ data_blocks exts.
Proof.
  induction 1 as [|e exts He Hall IH]; [done|].
  rewrite cut_cons, tails_cons, data_blocks_app, run_blocks_app. change (data_blocks (e :: exts)) with
    (run (Extent.physical_block e) (Extent.length e) ++ data_blocks exts).
  rewrite <-(cut_one_blocks stop e He), <-IH. solve_Permutation.
Qed.

(** ** The inline planner *)

Definition free_run (r : Z * Z) : ExtentMutation := FreePhysicalRun (fst r) (snd r).

Lemma shrink_one_spec stop acc e : ext_ok e → 0 ≤ stop →
  shrink_one stop acc e = (fst acc ++ cut_one stop e, snd acc ++ (free_run <$> tail_one stop e)).
Proof.
  intros He Hs. destruct acc as [kept muts]. pose proof (before_range stop e He) as Hb. destruct He as (Hl & Hlen & _).
  pose proof (max_extent_len_range (Extent.uninitialized e)).
  unfold shrink_one, cut_one, tail_one, free_run. cbn [fst snd]. unfold before, saturating_sub in *.
  case_decide as H1.
  - rewrite !decide_False by lia. rewrite app_nil_r. do 3 f_equal.
    destruct e as [lb len pb u]. cbn [Extent.logical_block Extent.length] in *. do 2 f_equal; lia.
  - case_decide as H2.
    + rewrite decide_True, decide_True by lia. rewrite app_nil_r. cbn. do 4 f_equal; lia.
    + rewrite decide_False, decide_True by lia. unfold as_u16. rewrite Z.mod_small by lia.
      replace (Z.min _ _) with (stop - Extent.logical_block e) by lia. done.
Qed.

Lemma foldl_shrink stop exts kept muts : Forall ext_ok exts → 0 ≤ stop →
  foldl (shrink_one stop) (kept, muts) exts = (kept ++ cut stop exts, muts ++ (free_run <$> tails stop exts)).
Proof.
  intros Hall Hs. revert kept muts. induction Hall as [|e exts He Hall IH]; intros kept muts; [cbn; by rewrite !app_nil_r|].
  cbn [foldl]. rewrite shrink_one_spec by done. cbn [fst snd]. rewrite IH, cut_cons, tails_cons, fmap_app. by rewrite !app_assoc.
Qed.

(** Truncating a file whose extents are inline: the one planned root holds
    the extents cut at the first block past the new size, so exactly the blocks
    before it stay mapped, where they were; and every block of the old extents
    is either still held or released, exactly once. *)
Lemma plan_truncate_shrink_spec old_size new_size root h entries block_size :
  root_ok root h entries → 0 ≤ new_size ≤ old_size → 0 < block_size →
  ∃ root' runs entries', plan_truncate_shrink old_size new_size root block_size =
      Ok (mkSizeChange old_size new_size, WriteRoot root' :: (free_run <$> runs)) ∧
    rewrites root h root' entries' ∧
    (∀ l, blockmap entries' l = if decide (l < div_ceil new_size block_size) then blockmap entries l else None) ∧
    data_blocks entries' ++ run_blocks runs ≡ₚ data_blocks entries.
Proof.
  intros Hr Hn Hbs. pose proof (root_ok_leaf _ _ _ Hr) as Hleaf. pose proof (div_ceil_nonneg new_size block_size ltac:(lia) Hbs) as Hc.
  destruct (root_ok_inv _ _ _ Hr) as (Hmag & Hd & Hz & Hm & _). pose proof (root_ok_read _ _ _ Hr) as Hread.
  unfold read_leaf_entries in Hread. apply bind_ok_inv in Hread as (h' & Hh & Hread).
  destruct (negb _) eqn:En in Hread; [done|]. apply bind_ok_inv in Hread as (es & He & [= -> ->]).
  set (stop := div_ceil new_size block_size) in *. pose proof (cut_length stop entries).
  destruct (build_root_ok root h entries (cut stop entries) Hr (cut_ok _ _ _ _ Hleaf) ltac:(lia)) as (root' & Eb & Hrw).
  exists root', (tails stop entries), (cut stop entries).
  split; [|split; [exact Hrw|split; [intros l; by eapply cut_blockmap|apply cut_blocks, Hleaf]]].
  unfold plan_truncate_shrink. rewrite decide_False by lia. rewrite Hh. cbn [mbind res_bind]. rewrite En, He. cbn [mbind res_bind].
  fold stop. rewrite foldl_shrink by (apply Hleaf || lia). cbn [app]. rewrite Eb. done.
Qed.

Lemma plan_truncate_shrink_spec_witness :
  ∃ root' runs, plan_truncate_shrink 16000 12000 sample_inline 1024 =
      Ok (mkSizeChange 16000 12000, WriteRoot root' :: (free_run <$> runs)) ∧ run_blocks runs = [202; 203; 204; 205].
Proof.
  destruct (plan_truncate_shrink_spec 16000 12000 sample_inline sample_hdr sample_entries 1024 sample_inline_ok) as
    (root' & runs & entries' & E & Hrw & Hmap & Hperm); [lia|lia|].
  exists root', runs. split; [exact E|]. vm_compute in E. injection E as _ E.
  destruct runs as [|[s1 n1] [|[s2 n2] r]]; simplify_eq/=. vm_compute. reflexivity.
Defined.

(** ** Writes by block *)

(** Where a byte of the file goes: the byte [i] of the write is in some block
    write, in its place. *)
Definition placed (bs : Z) (w : BlockWrite) : Prop :=
  0 ≤ offset_in_block w ∧ 0 < zlen (payload w) ∧ offset_in_block w + zlen (payload w) ≤ bs.
(** The writes follow one another: each starts where the one before ended. *)
Fixpoint abut (bs cur : Z) (ws : list BlockWrite) : Prop :=
  match ws with
  | [] => True
  | w :: ws => logical_block w * bs + offset_in_block w = cur ∧ placed bs w ∧ abut bs (cur + zlen (payload w)) ws
  end.

Lemma split_loop_ok bs data stop : 0 < bs → ∀ fuel cur src out, 0 ≤ cur ≤ stop → 0 ≤ src → stop - cur = zlen data - src →
  stop - cur ≤ Z.of_nat fuel →
  ∃ ws, split_loop fuel bs cur stop src data out = Ok (out ++ ws) ∧ abut bs cur ws ∧
    concat (payload <$> ws) = sub data src (zlen data - src).
Proof.
  intros Hbs. induction fuel as [|fuel IH]; intros cur src out Hcur Hsrc Hsz Hf; cbn [split_loop].
  - rewrite decide_False by lia. exists []. rewrite app_nil_r. split; [done|]. split; [done|]. by rewrite sub_0 by lia.
  - case_decide as Hlt.
    2:{ exists []. rewrite app_nil_r. split; [done|]. split; [done|]. by rewrite sub_0 by lia. }
    pose proof (Z.mod_pos_bound cur bs Hbs). set (take := Z.min (bs - cur mod bs) (saturating_sub stop cur)).
    assert (Ht : 0 < take ≤ stop - cur ∧ take ≤ bs - cur mod bs) by (unfold take, saturating_sub; lia).
    rewrite slice_ok by lia. cbn [mbind res_bind].
    destruct (IH (cur + take) (src + take) (out ++ [mkBlockWrite (cur / bs) (cur mod bs) (sub data src take)]))
      as (ws & E & Ha & Hc); [lia|lia|lia|lia|].
    rewrite E. exists (mkBlockWrite (cur / bs) (cur mod bs) (sub data src take) :: ws). rewrite <-app_assoc.
    assert (Hzs : zlen (sub data src take) = take) by (rewrite zlen_sub; lia).
    split; [done|]. split.
    + cbn [abut logical_block offset_in_block payload]. unfold placed. cbn [offset_in_block payload]. rewrite Hzs.
      split; [pose proof (Z.div_mod cur bs ltac:(lia)); lia|]. split; [lia|done].
    + cbn [fmap list_fmap concat payload]. rewrite Hc.
      replace (zlen data - src) with (take + (zlen data - (src + take))) by lia. by rewrite (sub_split data src) by lia.
Qed.

(** Splitting a write into blocks ends, and gives writes that start at the
    offset asked for, follow one another without a gap, each nonempty and
    inside its block, and together carry exactly the data. *)
Lemma split_into_block_writes_spec offset data block_size : 0 ≤ offset → 0 < block_size →
  ∃ ws, split_into_block_writes offset data block_size = Ok ws ∧ abut block_size offset ws ∧ concat (payload <$> ws) = data.
Proof.
  intros Ho Hbs. unfold split_into_block_writes. case_decide as Hd; [subst; by exists []|].
  pose proof (zlen_nonneg data). destruct (split_loop_ok block_size data (offset + zlen data) Hbs (length data) offset 0 [])
    as (ws & E & Ha & Hc); [lia|lia|lia|unfold zlen; lia|].
  exists ws. split; [exact E|]. split; [exact Ha|]. rewrite Hc, sub_all; [done|lia].
Qed.

Lemma split_into_block_writes_spec_witness :
  ∃ ws, split_into_block_writes 1500 (zrep 3000 7) 1024 = Ok ws ∧ zlen (concat (payload <$> ws)) = 3000.
Proof.
  destruct (split_into_block_writes_spec 1500 (zrep 3000 7) 1024) as (ws & E & _ & Hc); [lia|lia|].
  exists ws. split; [exact E|]. rewrite Hc. vm_compute. reflexivity.
Defined.
