(* ===== verification/TruncateTree.v ===== *)
(** TruncateTree: truncation through an extent tree of any depth
    (src/src/file_mut.rs, [plan_truncate_shrink_deep]) refines the cut of the
    list of extents the tree stands for. *)
From stdpp Require Import sorting.
From S2P Require Import Prelude Errors Bytes Device Extent ExtentMut ExtentTree DeepInsert FileMut.

(** ** The mutations, by what they do *)

Definition freed_runs (ms : list ExtentMutation) : list (Z * Z) :=
  omap (λ m, match m with FreePhysicalRun s n => Some (s, n) | _ => None end) ms.
Definition tree_writes (ms : list ExtentMutation) : list (Z * bytes) :=
  omap (λ m, match m with WriteTreeBlock b buf => Some (b, buf) | _ => None end) ms.

Lemma freed_runs_app m1 m2 : freed_runs (m1 ++ m2) = freed_runs m1 ++ freed_runs m2.
Proof. apply omap_app. Qed.
Lemma tree_writes_app m1 m2 : tree_writes (m1 ++ m2) = tree_writes m1 ++ tree_writes m2.
Proof. apply omap_app. Qed.

(** ** The cut of a tree *)
Section trim.
Context (stop : Z).

Definition rekey {T} (key : T → option Z) (k : Z * Z * T) : list (Z * Z * T) :=
  match key (snd k) with Some x => [(x, snd (fst k), snd k)] | None => [] end.
Definition released {T} (key : T → option Z) (k : Z * Z * T) : list (Z * Z) :=
  match key (snd k) with Some _ => [] | None => [(snd (fst k), 1)] end.

(** Cut the leaves; a node that is left empty goes, the others take the key of
    what is left below them. *)
Fixpoint trim (d : nat) : ntree d → ntree d :=
  match d with
  | O => cut stop
  | S d => λ kids, concat ((λ k, rekey (first_key d) (fst k, trim d (snd k))) <$> kids)
  end.

Fixpoint trim_frees (d : nat) : ntree d → list (Z * Z) :=
  match d with
  | O => tails stop
  | S d => λ kids, concat ((λ k, trim_frees d (snd k) ++ released (first_key d) (fst k, trim d (snd k))) <$> kids)
  end.

(** The physical ranges the walk meets, in its order. *)
Definition range_of (e : Extent.t) : Z * Z := (Extent.physical_block e, Extent.physical_block e + Extent.length e).
Fixpoint ranges (d : nat) : ntree d → list (Z * Z) :=
  match d with
  | O => λ t, range_of <$> t
  | S d => λ kids, concat ((λ k, (snd (fst k), snd (fst k) + 1) :: ranges d (snd k)) <$> kids)
  end.

(** Every block a tree uses: its nodes' and its data's. *)
Definition used (d : nat) (t : ntree d) : list Z := blocks d t ++ data_blocks (flat d t).

Lemma trim_cons d (k : Z * Z * ntree d) (kids : list (Z * Z * ntree d)) :
  trim (S d) (k :: kids) = rekey (first_key d) (fst k, trim d (snd k)) ++ trim (S d) kids.
Proof. done. Qed.
Lemma trim_frees_cons d (k : Z * Z * ntree d) (kids : list (Z * Z * ntree d)) :
  trim_frees (S d) (k :: kids) =
    (trim_frees d (snd k) ++ released (first_key d) (fst k, trim d (snd k))) ++ trim_frees (S d) kids.
Proof. done. Qed.
Lemma ranges_cons d (k : Z * Z * ntree d) (kids : list (Z * Z * ntree d)) :
  ranges (S d) (k :: kids) = (snd (fst k), snd (fst k) + 1) :: ranges d (snd k) ++ ranges (S d) kids.
Proof. done. Qed.

Lemma first_key_None d (t : ntree d) : first_key d t = None → flat d t = [] ∧ blocks d t = [] ∧ width d t = 0.
Proof. destruct d as [|d]; destruct t; done. Qed.

Lemma flat_trim d : ∀ t : ntree d, flat d (trim d t) = cut stop (flat d t).
Proof.
  induction d as [|d IH]; intros t; [done|]. induction t as [|k kids IHk]; [done|].
  rewrite trim_cons, flat_app, flat_cons, cut_app. f_equal; [|exact IHk].
  rewrite <-IH. unfold rekey. cbn [fst snd]. destruct (first_key d (trim d (snd k))) as [x|] eqn:E.
  - cbn [flat snd fmap list_fmap concat]. by rewrite app_nil_r.
  - by destruct (first_key_None d _ E) as (-> & _).
Qed.

Lemma trim_keyed d : ∀ t : ntree d, keyed d t → first_key d (trim d t) = None ∨ keyed d (trim d t).
Proof.
  induction d as [|d IH]; intros t Hk.
  - destruct (trim 0 t) as [|e l] eqn:E; [by left|right]. cbn [keyed]. done.
  - destruct Hk as [_ Hk]. assert (Hall : Forall (λ k, keyed d (snd k) ∧ first_key d (snd k) = Some (fst (fst k))) (trim (S d) t)).
    { induction Hk as [|k kids [Hk1 _] Hks IHk]; [constructor|]. rewrite trim_cons. apply Forall_app. split; [|exact IHk].
      unfold rekey. cbn [fst snd]. destruct (first_key d (trim d (snd k))) as [x|] eqn:E; [|constructor].
      apply Forall_singleton. cbn [fst snd]. split; [|done]. by destruct (IH _ Hk1) as [En|]; [rewrite En in E|]. }
    destruct (trim (S d) t) as [|k l] eqn:E; [by left|right]. by split.
Qed.

Lemma trim_width d (t : ntree d) : width d (trim d t) ≤ width d t.
Proof.
  destruct d as [|d]; [apply cut_length|]. change (zlen (A := Z * Z * ntree d) (trim (S d) t) ≤ zlen (A := Z * Z * ntree d) t).
  induction t as [|k kids IH]; [done|]. rewrite trim_cons, zlen_app, zlen_cons.
  assert (zlen (rekey (first_key d) (fst k, trim d (snd k))) ≤ 1) by (unfold rekey; case_match; done). lia.
Qed.

Lemma trim_capped cap d : ∀ t : ntree d, capped cap d t → capped cap d (trim d t).
Proof.
  induction d as [|d IH]; intros t Hc; [done|]. cbn [capped] in *.
  induction Hc as [|k kids (H1 & H2 & H3) Hks IHk]; [constructor|]. rewrite trim_cons. apply Forall_app. split; [|exact IHk].
  unfold rekey. case_match; [|constructor]. apply Forall_singleton. cbn [fst snd].
  split; [pose proof (trim_width d (snd k)); lia|]. split; [done|]. by apply IH.
Qed.

Lemma run_one b : run b 1 = [b].
Proof. reflexivity. Qed.

Lemma trim_blocks d : ∀ t : ntree d, Forall ext_ok (flat d t) →
  run_blocks (trim_frees d t) ++ used d (trim d t) ≡ₚ used d t.
Proof.
  induction d as [|d IH]; intros t Hok.
  - unfold used. cbn [blocks flat trim trim_frees app]. rewrite <-(cut_blocks stop t Hok). apply Permutation_app_comm.
  - induction t as [|k kids IHk]; [done|]. rewrite flat_cons in Hok. apply Forall_app in Hok as [Hok1 Hok2].
    specialize (IHk Hok2). specialize (IH (snd k) Hok1). unfold used in *.
    rewrite trim_cons, trim_frees_cons, blocks_cons, flat_cons, data_blocks_app, !run_blocks_app, blocks_app, flat_app, data_blocks_app.
    transitivity ((snd (fst k) :: (blocks d (snd k) ++ data_blocks (flat d (snd k)))) ++
      (blocks (S d) kids ++ data_blocks (flat (S d) kids))); [|solve_Permutation].
    rewrite <-IH, <-IHk. unfold rekey, released. cbn [fst snd].
    destruct (first_key d (trim d (snd k))) as [x|] eqn:E.
    + cbn [run_blocks fmap list_fmap concat]. change (run_blocks []) with (@nil Z).
      cbn [blocks flat fmap list_fmap concat fst snd]. rewrite !app_nil_r. solve_Permutation.
    + destruct (first_key_None d _ E) as (-> & -> & _). cbn [blocks flat fmap list_fmap concat app].
      change (run_blocks [(snd (fst k), 1)]) with [snd (fst k)]. change (data_blocks []) with (@nil Z). rewrite !app_nil_r.
      cbn [app]. solve_Permutation.
Qed.

Lemma ranges_used d : ∀ t : ntree d, run_blocks ((λ r, (fst r, snd r - fst r)) <$> ranges d t) ≡ₚ used d t.
Proof.
  induction d as [|d IH]; intros t.
  - unfold used. cbn [blocks flat ranges app]. unfold run_blocks, data_blocks. rewrite <-!list_fmap_compose.
    apply reflexive_eq. f_equal. apply list_fmap_ext. intros i e _. cbn. f_equal. lia.
  - induction t as [|k kids IHk]; [done|]. specialize (IH (snd k)). unfold used in *.
    rewrite ranges_cons, blocks_cons, flat_cons, data_blocks_app, fmap_cons, fmap_app.
    change (run_blocks (?a :: ?l)) with (run (fst a) (snd a) ++ run_blocks l). cbn [fst snd].
    replace (snd (fst k) + 1 - snd (fst k)) with 1 by lia. rewrite run_one, run_blocks_app, IH, IHk. cbn [app]. solve_Permutation.
Qed.
End trim.

(** ** Rewriting a node in place *)

(** Room for what the header allows, in front of [body]. *)
Definition roomy (body : Z) (buf : bytes) : Prop :=
  ∃ h, ExtentHeader.parse buf = Ok h ∧ ExtentHeader.max h ≠ 0 ∧ EXT4_EXT_NODE_SIZE * (1 + ExtentHeader.max h) ≤ body ∧
    0 ≤ ExtentHeader.entries h ∧ ExtentHeader.entries h ≤ ExtentHeader.max h.

(** [buf] is [original] with its first entries replaced by the [ys]. *)
Record filled {Y} (parse : bytes → res Y) (original buf : bytes) (ys : list Y) : Prop := {
  filled_len : zlen buf = zlen original;
  filled_head : sub buf 0 12 = sub original 0 12;
  filled_entry j y : ys !! j = Some y → parse (sub buf (12 * (Z.of_nat j + 1)) 12) = Ok y;
}.

Lemma filled_nil {Y} (parse : bytes → res Y) original : filled parse original original [].
Proof. by split. Qed.

Lemma filled_snoc {Y} (parse : bytes → res Y) original buf ys enc y : filled parse original buf ys →
  parse enc = Ok y → zlen enc = 12 → 12 * (zlen ys + 2) ≤ zlen original →
  ∃ b, put buf (EXT4_EXT_NODE_SIZE * (zlen ys + 1)) enc = Ok b ∧ filled parse original b (ys ++ [y]).
Proof.
  intros [Hl Hh He] Hp Hz Hfit. pose proof (zlen_nonneg ys). unfold EXT4_EXT_NODE_SIZE. rewrite put_ok by lia.
  eexists. split; [done|]. split.
  - rewrite zlen_splice by lia. done.
  - rewrite sub_splice_disjoint by lia. done.
  - intros j x Hj. apply lookup_app_Some in Hj as [Hj|[Hj1 Hj2]].
    + pose proof (lookup_lt_zlen _ _ _ Hj). rewrite sub_splice_disjoint by lia. by apply He.
    + destruct (j - length ys)%nat as [|n] eqn:En; [|destruct n; done]. injection Hj2 as <-.
      replace (12 * (Z.of_nat j + 1)) with (12 * (zlen ys + 1)) by (unfold zlen; lia). by rewrite sub_splice_same_len by lia.
Qed.

Definition with_entries (h : ExtentHeader.t) (n : Z) : ExtentHeader.t :=
  ExtentHeader.mk (ExtentHeader.magic h) n (ExtentHeader.max h) (ExtentHeader.depth h) (ExtentHeader.generation h).

Lemma parse_head a b h : ExtentHeader.parse a = Ok h → sub b 0 12 = sub a 0 12 → zlen b = zlen a → ExtentHeader.parse b = Ok h.
Proof.
  intros H E Hz. assert (12 ≤ zlen a). { unfold ExtentHeader.parse, EXT4_EXT_NODE_SIZE in H. case_decide; [done|lia]. }
  by apply (parse_prefix a b 12); try lia.
Qed.

Lemma parse_count a h n : ExtentHeader.parse a = Ok h → 0 ≤ n < 2 ^ 16 → n ≤ ExtentHeader.max h →
  ExtentHeader.parse (splice a 2 (le_split 2 n)) = Ok (with_entries h n).
Proof.
  intros H Hn Hm. unfold ExtentHeader.parse, EXT4_EXT_NODE_SIZE in *. case_decide as Hl; [done|].
  rewrite zlen_splice by zl. rewrite decide_False by lia. rewrite !u16_le_ok, u32_le_ok in H by lia.
  rewrite !u16_le_ok, u32_le_ok by (rewrite ?zlen_splice by zl; lia). cbn [mbind res_bind] in *.
  rewrite (le16_splice_ne _ 2 _ 0), (le16_splice_ne _ 2 _ 4), (le16_splice_ne _ 2 _ 6), (le32_splice_ne _ 2 _ 8) by zl.
  rewrite le16_splice by (first [zl|lia]). case_decide; [done|]. case_decide as He; [done|]. injection H as <-.
  cbn [ExtentHeader.max] in Hm. rewrite decide_False by lia. done.
Qed.

(** The rewritten node parses as the entries kept. *)
Lemma filled_count {Y} (parse : bytes → res Y) original buf ys h : filled parse original buf ys →
  ExtentHeader.parse original = Ok h → zlen ys ≤ ExtentHeader.max h → 12 * (1 + ExtentHeader.max h) ≤ zlen original ≤ 65536 →
  ∃ b, put_u16 buf 2 (as_u16 (zlen ys)) = Ok b ∧ zlen b = zlen original ∧ ExtentHeader.parse b = Ok (with_entries h (zlen ys)) ∧
    ∀ j y, ys !! j = Some y → parse (sub b (12 * (Z.of_nat j + 1)) 12) = Ok y.
Proof.
  intros [Hl Hh He] Hp Hm Hfit. pose proof (zlen_nonneg ys). rewrite put_u16_ok by lia. eexists. split; [done|].
  unfold as_u16. rewrite Z.mod_small by lia. split; [rewrite zlen_splice by zl; done|]. split.
  - apply parse_count; [|lia|done]. by apply (parse_head original).
  - intros j y Hj. rewrite sub_splice_disjoint by zl. by apply He.
Qed.

Lemma entries_traverse {Y} (parse : bytes → res Y) (entry : bytes → Z → res Y) b ys :
  (∀ i, 0 ≤ i → entry_off i + 12 ≤ zlen b → entry b i = parse (sub b (entry_off i) 12)) →
  (∀ j y, ys !! j = Some y → parse (sub b (12 * (Z.of_nat j + 1)) 12) = Ok y) → 12 * (zlen ys + 1) ≤ zlen b →
  traverse (entry b) (seqZ 0 (zlen ys)) = Ok ys.
Proof.
  intros Hent He Hfit. apply traverse_seqZ. intros k x Hk. pose proof (lookup_lt_zlen _ _ _ Hk).
  rewrite Hent by (unfold entry_off, EXT4_EXT_NODE_SIZE; lia). rewrite <-(He k x Hk). do 2 f_equal.
  unfold entry_off, EXT4_EXT_NODE_SIZE. lia.
Qed.

(** An entry as the planner slices it. *)
Lemma leaf_entry_raw b i e : 0 ≤ i → leaf_entry b i = Ok e → ∃ raw,
  slice b (EXT4_EXT_NODE_SIZE * (i + 1)) EXT4_EXT_NODE_SIZE = Ok raw ∧ zlen raw = 12 ∧ Extent.parse raw = Ok e.
Proof.
  intros Hi. unfold leaf_entry. case_decide as Hb; [done|]. unfold entry_off, EXT4_EXT_NODE_SIZE in *.
  replace (12 * (i + 1)) with (12 * (1 + i)) by lia. rewrite slice_ok by lia. intros H. eexists. split; [done|].
  split; [rewrite zlen_sub; lia|done].
Qed.
Lemma index_entry_raw b i e : 0 ≤ i → index_entry b i = Ok e → ∃ raw,
  slice b (EXT4_EXT_NODE_SIZE * (i + 1)) EXT4_EXT_NODE_SIZE = Ok raw ∧ zlen raw = 12 ∧ ExtentIdx.parse raw = Ok e.
Proof.
  intros Hi. unfold index_entry. case_decide as Hb; [done|]. unfold entry_off, EXT4_EXT_NODE_SIZE in *.
  replace (12 * (i + 1)) with (12 * (1 + i)) by lia. rewrite slice_ok by lia. intros H. eexists. split; [done|].
  split; [rewrite zlen_sub; lia|done].
Qed.

(** Rewriting the length of a leaf entry, and the key of an index entry. *)
Lemma parse_relength raw e n : zlen raw = 12 → Extent.parse raw = Ok e → 1 ≤ n ≤ max_extent_len (Extent.uninitialized e) →
  Extent.parse (splice raw 4 (le_split 2 (n + (if Extent.uninitialized e then EXT_INIT_MAX_LEN else 0)))) =
    Ok (Extent.mk (Extent.logical_block e) n (Extent.physical_block e) (Extent.uninitialized e)).
Proof.
  intros Hz H Hn. unfold Extent.parse, EXT4_EXT_NODE_SIZE in *. rewrite zlen_splice by zl. rewrite decide_False in * by lia.
  rewrite !u32_le_ok, !u16_le_ok in H by lia. rewrite !u32_le_ok, !u16_le_ok by (rewrite ?zlen_splice by zl; lia).
  cbn [mbind res_bind] in *.
  rewrite (le32_splice_ne _ 4 _ 0), (le32_splice_ne _ 4 _ 8), (le16_splice_ne _ 4 _ 6) by zl.
  assert (Hu : e = Extent.mk (le32 raw 0) (Extent.length e) (join32 (le16 raw 6) (le32 raw 8)) (Extent.uninitialized e)).
  { case_decide; injection H as <-; done. }
  rewrite Hu. cbn [Extent.uninitialized Extent.logical_block Extent.physical_block]. clear Hu H.
  unfold max_extent_len, EXT_INIT_MAX_LEN in *. destruct (Extent.uninitialized e).
  - rewrite le16_splice by (first [zl|lia]). rewrite decide_True by lia. do 2 f_equal. lia.
  - rewrite le16_splice by (first [zl|lia]). rewrite decide_False by lia. do 2 f_equal. lia.
Qed.

Lemma parse_rekey raw e k : zlen raw = 12 → ExtentIdx.parse raw = Ok e → 0 ≤ k < 2 ^ 32 →
  ExtentIdx.parse (splice raw 0 (le_split 4 k)) = Ok (ExtentIdx.mk k (ExtentIdx.leaf_block e)).
Proof.
  intros Hz H Hk. unfold ExtentIdx.parse, EXT4_EXT_NODE_SIZE in *. rewrite zlen_splice by zl. rewrite decide_False in * by lia.
  rewrite !u32_le_ok, !u16_le_ok in H by lia. rewrite !u32_le_ok, !u16_le_ok by (rewrite ?zlen_splice by zl; lia).
  cbn [mbind res_bind] in *. rewrite (le32_splice_ne _ 0 _ 4), (le16_splice_ne _ 0 _ 8) by zl.
  rewrite le32_splice by (first [zl|lia]). injection H as <-. done.
Qed.

(** ** The walk over a tree *)
Section walk.
Context (stop bs blocks_count : Z) (read : Z → res bytes) (Hstop : 0 ≤ stop) (Hbs : block_size_ok bs).

(** Extents and nodes inside the volume. *)
Definition in_volume (e : Extent.t) : Prop := 0 < Extent.physical_block e ∧ Extent.physical_block e + Extent.length e ≤ blocks_count.
Definition node_in_volume (b : Z) : Prop := 0 < b < blocks_count.

(** What the walk has recorded on its way from [w] to [w']. *)
Record walked (w w' : ShrinkWalk) (hi : Z) (bl : list Z) (rg fr : list (Z * Z)) (ws : list (Z * bytes)) : Prop := {
  walked_visited : visited w' = visited w ++ bl;
  walked_physical : physical w' = physical w ++ rg;
  walked_end : logical_end w' ≤ hi;
  walked_runs : freed_runs (mutations w') = freed_runs (mutations w) ++ fr;
  walked_writes : tree_writes (mutations w') = tree_writes (mutations w) ++ ws;
}.

Lemma walked_trans w1 w2 w3 hi1 hi bl1 bl2 rg1 rg2 fr1 fr2 ws1 ws2 :
  walked w1 w2 hi1 bl1 rg1 fr1 ws1 → walked w2 w3 hi bl2 rg2 fr2 ws2 →
  walked w1 w3 hi (bl1 ++ bl2) (rg1 ++ rg2) (fr1 ++ fr2) (ws1 ++ ws2).
Proof.
  intros [A1 A2 A3 A4 A5] [B1 B2 B3 B4 B5]. split; [| |exact B3| |].
  - by rewrite B1, A1, app_assoc.
  - by rewrite B2, A2, app_assoc.
  - by rewrite B4, A4, app_assoc.
  - by rewrite B5, A5, app_assoc.
Qed.

(** One leaf entry. *)
Lemma leaf_step_ok original r i e ys lo hi : leaf_entry original i = Ok e → 0 ≤ i → zlen ys ≤ i →
  ext_ok e → in_volume e → lo ≤ Extent.logical_block e → Extent.logical_block e + Extent.length e ≤ hi → hi ≤ 2 ^ 32 →
  logical_end (walk r) ≤ lo → filled Extent.parse original (r_bytes r) ys → kept r = zlen ys →
  first r = first_key 0 ys → 12 * (i + 2) ≤ zlen original →
  ∃ r', leaf_step stop blocks_count original r i = Ok r' ∧ filled Extent.parse original (r_bytes r') (ys ++ cut_one stop e) ∧
    kept r' = zlen (ys ++ cut_one stop e) ∧ first r' = first_key 0 (ys ++ cut_one stop e) ∧
    walked (walk r) (walk r') (Extent.logical_block e + Extent.length e) [] [range_of e] (tail_one stop e) [].
Proof.
  intros Hent Hi Hys He Hv Hlo Hhi H32 Hend Hf Hk Hfirst Hfit.
  destruct (leaf_entry_raw _ _ _ Hi Hent) as (raw & Eraw & Hz & Hp). pose proof (before_range stop e He) as Hb.
  unfold leaf_step. rewrite Eraw. cbn [mbind res_bind]. rewrite Hp. cbn [mbind res_bind].
  destruct He as (Hl & Hlen & Hphys). destruct Hv as [Hv1 Hv2]. rewrite decide_False by lia.
  change (Z.min (saturating_sub stop (Extent.logical_block e)) (Extent.length e)) with (before stop e).
  pose proof (max_extent_len_range (Extent.uninitialized e)).
  unfold cut_one, tail_one. destruct (decide (before stop e = 0)) as [Hz0|Hz0].
  - rewrite !(decide_True (P := before stop e < Extent.length e)) by lia. eexists. split; [done|]. rewrite app_nil_r. cbn [r_bytes kept first walk skip_entry].
    split; [done|]. split; [done|]. split; [done|]. unfold push_mutation, as_u32. rewrite Z.mod_small by lia.
    split; cbn [visited physical logical_end mutations]; rewrite ?app_nil_r; try done; rewrite ?freed_runs_app, ?tree_writes_app; cbn; rewrite ?app_nil_r; (done || lia).
  - assert (Eu : as_u16 (as_u16 (before stop e) + (if Extent.uninitialized e then EXT_INIT_MAX_LEN else 0)) =
      before stop e + (if Extent.uninitialized e then EXT_INIT_MAX_LEN else 0)).
    { unfold as_u16, max_extent_len, EXT_INIT_MAX_LEN in *. rewrite (Z.mod_small (before stop e)) by lia.
      destruct (Extent.uninitialized e); rewrite Z.mod_small by lia; done. }
    rewrite Eu. rewrite put_u16_ok by lia. cbn [mbind res_bind].
    set (e' := Extent.mk (Extent.logical_block e) (before stop e) (Extent.physical_block e) (Extent.uninitialized e)).
    destruct (filled_snoc Extent.parse original (r_bytes r) ys
      (splice raw 4 (le_split 2 (before stop e + (if Extent.uninitialized e then EXT_INIT_MAX_LEN else 0)))) e' Hf)
      as (b & Eb & Hf'); [apply parse_relength; [done|done|lia]|rewrite zlen_splice by zl; done|lia|].
    unfold keep_entry. rewrite Hk, Eb. cbn [mbind res_bind]. eexists. split; [done|]. cbn [r_bytes kept first walk].
    split; [exact Hf'|]. split; [zl|]. split.
    { rewrite Hfirst. by destruct ys. }
    unfold push_mutation, as_u32. rewrite Z.mod_small by lia.
    case_decide; split; cbn [visited physical logical_end mutations]; rewrite ?app_nil_r; try done;
      rewrite ?freed_runs_app, ?tree_writes_app; cbn; rewrite ?app_nil_r; (done || lia).
Qed.

Lemma walked_end_le w w' hi hi' bl rg fr ws : hi ≤ hi' → walked w w' hi bl rg fr ws → walked w w' hi' bl rg fr ws.
Proof. intros Hle [A1 A2 A3 A4 A5]. split; try done. lia. Qed.

Lemma leaf_loop original hi : hi ≤ 2 ^ 32 → ∀ todo i r ys lo, traverse (leaf_entry original) (seqZ i (zlen todo)) = Ok todo →
  0 ≤ i → zlen ys ≤ i → leaf_ok lo hi todo → Forall in_volume todo → logical_end (walk r) ≤ lo →
  filled Extent.parse original (r_bytes r) ys → kept r = zlen ys → first r = first_key 0 ys →
  12 * (i + zlen todo + 1) ≤ zlen original →
  ∃ r', foldM (leaf_step stop blocks_count original) r (seqZ i (zlen todo)) = Ok r' ∧
    filled Extent.parse original (r_bytes r') (ys ++ cut stop todo) ∧
    kept r' = zlen (ys ++ cut stop todo) ∧ first r' = first_key 0 (ys ++ cut stop todo) ∧
    walked (walk r) (walk r') hi [] (range_of <$> todo) (tails stop todo) [].
Proof.
  intros H32. induction todo as [|e todo IH]; intros i r ys lo Ht Hi Hys [Hin Hall] Hv Hend Hf Hk Hfirst Hfit.
  - exists r. change (cut stop []) with (@nil Extent.t). rewrite app_nil_r. split; [done|]. do 3 (split; [done|]).
    apply exts_in_le in Hin. split; rewrite ?app_nil_r; done || lia.
  - rewrite zlen_cons in *. pose proof (zlen_nonneg todo). rewrite seqZ_cons in * by lia.
    replace (Z.pred (1 + zlen todo)) with (zlen todo) in * by lia.
    cbn [traverse] in Ht. apply bind_ok_inv in Ht as (e' & He' & Ht). apply bind_ok_inv in Ht as (todo' & Ht & [= -> ->]).
    cbn [exts_in] in Hin. destruct Hin as (H1 & H2 & H3). apply Forall_cons in Hall as [He Hall]. apply Forall_cons in Hv as [Hv1 Hv].
    pose proof (exts_in_le _ _ _ H3).
    destruct (leaf_step_ok original r i e ys lo hi) as (r1 & E1 & Hf1 & Hk1 & Hfirst1 & Hw1); try done; try lia.
    cbn [foldM]. rewrite E1. cbn [mbind res_bind].
    assert (Hone : zlen (cut_one stop e) ≤ 1) by (unfold cut_one; case_decide; done).
    destruct (IH (Z.succ i) r1 (ys ++ cut_one stop e) (Extent.logical_block e + Extent.length e))
      as (r2 & E2 & Hf2 & Hk2 & Hfirst2 & Hw2); try done; try lia.
    { rewrite zlen_app. lia. }
    { by destruct Hw1. }
    exists r2. rewrite cut_cons, app_assoc. do 4 (split; [done|]).
    apply (walked_trans _ _ _ _ _ _ _ _ _ _ _ _ _ Hw1 Hw2).
Qed.

(** What the blocks hold before the plan, and after its writes. *)
Definition stored (b : Z) (pre : bytes) : Prop := old bs read b pre ∧ roomy (bs - 4) pre.
Definition after (ws : list (Z * bytes)) (b : Z) (pre : bytes) : Prop := view bs read ws b pre ∧ roomy (bs - 4) pre.
Definition held (V : Z → bytes → Prop) (d : nat) (k : Z * Z * ntree d) : Prop :=
  ∃ pre, V (snd (fst k)) pre ∧ repr V d pre (snd k).
Definition idx_of {T} (k : Z * Z * T) : ExtentIdx.t := ExtentIdx.mk (fst (fst k)) (snd (fst k)).

Lemma idx_of_names {T} (kids : list (Z * Z * T)) : (λ p, ExtentIdx.mk (fst p) (snd p)) <$> names kids = idx_of <$> kids.
Proof. unfold names. by rewrite <-list_fmap_compose. Qed.

Lemma after_l ws1 ws2 b pre : b ∉ ws2.*1 → after ws1 b pre → after (ws1 ++ ws2) b pre.
Proof.
  intros Hb [[H|[H1 H2]] ?]; (split; [|done]); [left; by apply wrote_app_l|right]. split; [|done]. rewrite fmap_app. set_solver.
Qed.
Lemma after_r ws1 ws2 b pre : b ∉ ws1.*1 → after ws2 b pre → after (ws1 ++ ws2) b pre.
Proof.
  intros Hb [[H|[H1 H2]] ?]; (split; [|done]); [left; by apply wrote_app_r|right]. split; [|done]. rewrite fmap_app. set_solver.
Qed.
Lemma held_mono (V V' : Z → bytes → Prop) d (k : Z * Z * ntree d) :
  (∀ b pre, b ∈ snd (fst k) :: blocks d (snd k) → V b pre → V' b pre) → held V d k → held V' d k.
Proof.
  intros HV (pre & H1 & H2). exists pre. split; [apply HV; [set_solver|done]|]. eapply repr_mono; [|exact H2].
  intros b c Hb. apply HV. set_solver.
Qed.
Lemma helds_mono (V V' : Z → bytes → Prop) d (kids : list (Z * Z * ntree d)) :
  (∀ b pre, b ∈ blocks (S d) kids → V b pre → V' b pre) → Forall (held V d) kids → Forall (held V' d) kids.
Proof.
  induction kids as [|k kids IH]; intros HV H; [done|]. apply Forall_cons in H as [H1 H2]. rewrite blocks_cons in HV.
  constructor; [eapply held_mono; [|exact H1]; intros b pre Hb; apply HV; set_solver|].
  apply IH; [|done]. intros b pre Hb. apply HV. set_solver.
Qed.

Lemma trim_blocks_sub d : ∀ (t : ntree d) x, x ∈ blocks d (trim stop d t) → x ∈ blocks d t.
Proof.
  induction d as [|d IH]; intros t x; [done|]. induction t as [|k kids IHk]; [done|].
  rewrite trim_cons, blocks_app, blocks_cons. unfold rekey. cbn [fst snd].
  destruct (first_key d (trim stop d (snd k))) as [y|].
  - rewrite blocks_cons. cbn [fst snd]. change (blocks (S d) []) with (@nil Z). rewrite app_nil_r.
    rewrite !elem_of_app, !elem_of_cons, !elem_of_app. intros [[->|Hx]|Hx]; auto.
  - change (blocks (S d) []) with (@nil Z). cbn [app]. rewrite elem_of_cons, elem_of_app. auto.
Qed.

(** A node and the prefix of its block. *)
Lemma roomy_prefix body a b : roomy body a → sub a 0 body = sub b 0 body → 24 ≤ body → body ≤ zlen a → body ≤ zlen b → roomy body b.
Proof.
  intros (h & Hp & Hm & Hfit & He) E H24 Ha Hb. exists h. split; [|done]. by apply (parse_prefix a b body); try lia.
Qed.

Lemma roomy_body body buf : roomy body buf → 24 ≤ body.
Proof. intros (h & _ & Hm & Hfit & He). unfold EXT4_EXT_NODE_SIZE in *. lia. Qed.

Lemma repr_count V d buf (t : ntree d) body : repr V d buf t → roomy body buf →
  ∃ h, ExtentHeader.parse buf = Ok h ∧ ExtentHeader.entries h = width d t ∧ ExtentHeader.depth h = Z.of_nat d ∧
    ExtentHeader.max h ≠ 0 ∧ 12 * (1 + ExtentHeader.max h) ≤ body ∧ 0 ≤ width d t ≤ ExtentHeader.max h.
Proof.
  intros Hr (h & Hp & Hm & Hfit & He). exists h. split; [done|].
  assert (Hn : ExtentHeader.entries h = width d t ∧ ExtentHeader.depth h = Z.of_nat d).
  { destruct d as [|d].
    - destruct Hr as (h' & Hp' & Hd & Ht). rewrite Hp in Hp'. injection Hp' as <-. apply traverse_zlen in Ht.
      split; [|done]. cbn [width]. lia.
    - destruct Hr as [(h' & Hp' & Hd & Ht) _]. rewrite Hp in Hp'. injection Hp' as <-. apply traverse_zlen in Ht.
      split; [|done]. unfold names in Ht. rewrite !zlen_fmap in Ht. cbn [width]. rewrite Ht. lia. }
  destruct Hn as [Hn Hd]. unfold EXT4_EXT_NODE_SIZE in Hfit. split; [done|]. split; [done|]. split; [done|]. split; lia.
Qed.

Lemma repr_into_prefix V d buf (t : ntree d) m : repr V d buf t → roomy m buf → m ≤ zlen buf →
  repr V d (sub buf 0 m) t ∧ roomy m (sub buf 0 m).
Proof.
  intros Hr Hro Hm. pose proof (roomy_body _ _ Hro) as H24. destruct (repr_count _ _ _ _ _ Hr Hro) as (h & _ & _ & _ & _ & Hfit & Hw).
  assert (Hz : zlen (sub buf 0 m) = m) by (rewrite zlen_sub; lia).
  assert (E : sub buf 0 m = sub (sub buf 0 m) 0 m) by (rewrite sub_sub by lia; done).
  split; [|apply (roomy_prefix m buf); try done; lia].
  destruct d as [|d].
  - apply (leaf_node_prefix buf _ m); [exact Hr|exact E|lia|lia|]. unfold entry_off, EXT4_EXT_NODE_SIZE. cbn [width] in Hw. lia.
  - destruct Hr as [Hi Hk]. split; [|exact Hk]. apply (index_node_prefix buf _ m); [exact Hi|exact E|lia|lia|].
    unfold entry_off, EXT4_EXT_NODE_SIZE, names. rewrite zlen_fmap. cbn [width] in Hw. lia.
Qed.

(** The first entry's key is the node's. *)
Lemma first_key_raw V d buf (t : ntree d) key body : repr V d buf t → roomy body buf → body ≤ zlen buf →
  first_key d t = Some key → u32_le buf 12 = Ok key.
Proof.
  intros Hr Hro Hz Hf. pose proof (roomy_body _ _ Hro). rewrite u32_le_ok by lia. f_equal.
  assert (Hsub : le32 buf 12 = le32 (sub buf 12 12) 0) by (rewrite le32_sub by lia; done).
  rewrite Hsub. clear Hsub. assert (Hz12 : zlen (sub buf 12 12) = 12) by (rewrite zlen_sub; lia).
  destruct d as [|d].
  - destruct Hr as (h & _ & _ & Ht). destruct t as [|e t]; [done|]. injection Hf as <-. pose proof (traverse_zlen _ _ _ Ht) as Hn.
    rewrite zlen_cons in Hn. pose proof (zlen_nonneg t). rewrite seqZ_cons in Ht by lia. cbn [traverse] in Ht.
    apply bind_ok_inv in Ht as (e0 & He & Ht). apply bind_ok_inv in Ht as (? & _ & [= -> _]).
    rewrite leaf_entry_sub in He by (unfold entry_off, EXT4_EXT_NODE_SIZE; lia). change (entry_off 0) with 12 in He.
    unfold Extent.parse, EXT4_EXT_NODE_SIZE in He. rewrite decide_False in He by lia.
    rewrite !u32_le_ok, !u16_le_ok in He by lia. cbn [mbind res_bind] in He. case_decide; injection He as <-; done.
  - destruct Hr as [(h & _ & _ & Ht) _]. destruct t as [|k t]; [done|]. injection Hf as <-. pose proof (traverse_zlen _ _ _ Ht) as Hn.
    assert (Hpos : 0 < ExtentHeader.entries h) by (unfold zlen in Hn; rewrite length_fmap in Hn; simpl in Hn; lia).
    clear Hn. rewrite idx_of_names in Ht. rewrite seqZ_cons in Ht by lia. cbn [traverse] in Ht.
    apply bind_ok_inv in Ht as (e0 & He & Ht). apply bind_ok_inv in Ht as (? & _ & E). injection E as -> _.
    rewrite index_entry_sub in He by (unfold entry_off, EXT4_EXT_NODE_SIZE; lia). change (entry_off 0) with 12 in He.
    unfold ExtentIdx.parse, EXT4_EXT_NODE_SIZE in He. rewrite decide_False in He by lia.
    rewrite !u32_le_ok, !u16_le_ok in He by lia. cbn [mbind res_bind] in He. injection He as He _. cbn. congruence.
Qed.

(** What is known of a child before the walk enters it. *)
Record kid_in (d : nat) (lo hi : Z) (k : Z * Z * ntree d) : Prop := {
  kid_keyed : keyed d (snd k) ∧ first_key d (snd k) = Some (fst (fst k));
  kid_held : held stored d k;
  kid_flat : leaf_ok lo hi (flat d (snd k));
  kid_data : Forall in_volume (flat d (snd k));
  kid_nodes : Forall node_in_volume (snd (fst k) :: blocks d (snd k));
}.

(** What the walk promises of a node. *)
Definition node_goal (d : nat) (buf : bytes) (t : ntree d) (inline : bool) (body : Z) (w : ShrinkWalk) (hi : Z) : Prop :=
  ∃ b w' ws, node stop bs blocks_count read d buf inline w = Ok (b, first_key d (trim stop d t), w') ∧ zlen b = zlen buf ∧
    roomy body b ∧ repr (after ws) d b (trim stop d t) ∧ (∀ x, x ∈ ws.*1 → x ∈ blocks d (trim stop d t)) ∧
    walked w w' hi (blocks d t) (ranges d t) (trim_frees stop d t) ws.

Definition node_promise (d : nat) : Prop := ∀ buf (t : ntree d) w (inline : bool) lo hi body, repr stored d buf t → d = 0%nat ∨ keyed d t →
  roomy body buf → body = zlen buf - (if inline then 0 else 4) → zlen buf ≤ 65536 →
  leaf_ok lo hi (flat d t) → hi ≤ 2 ^ 32 → Forall in_volume (flat d t) → Forall node_in_volume (blocks d t) →
  NoDup (visited w ++ blocks d t) → logical_end w ≤ lo → node_goal d buf t inline body w hi.

Lemma kid_read d lo hi (k : Z * Z * ntree d) : kid_in d lo hi k → ∃ nd h, read (snd (fst k)) = Ok nd ∧ zlen nd = bs ∧
  repr stored d nd (snd k) ∧ roomy (bs - 4) nd ∧ ExtentHeader.parse nd = Ok h ∧ ExtentHeader.entries h ≠ 0 ∧
  u32_le nd 12 = Ok (fst (fst k)) ∧ old bs read (snd (fst k)) (sub nd 0 (bs - 4)).
Proof.
  intros [[Hk Hf] (pre & [(nd & Er & Hz & Hpre) Hro] & Hrep) _ _ _]. unfold block_size_ok in Hbs.
  assert (Hzp : zlen pre = bs - 4) by (subst pre; rewrite zlen_sub; lia).
  assert (Hro' : roomy (bs - 4) nd).
  { apply (roomy_prefix (bs - 4) pre); [done| |lia|lia|lia]. subst pre. rewrite sub_sub by lia. done. }
  assert (Hrep' : repr stored d nd (snd k)) by (eapply (repr_node_prefix stored d pre); [exact Hrep|exact Hpre|lia|lia|done]).
  destruct (repr_count _ _ _ _ _ Hrep' Hro') as (h & Hh & Hn & _ & _ & _ & Hw).
  exists nd, h. do 5 (split; [done|]). split.
  { rewrite Hn. destruct d as [|d]; cbn [width]; destruct (snd k); try done; unfold zlen; simpl; lia. }
  split; [by eapply (first_key_raw stored d nd _ _ (bs - 4)); try done; lia|]. exists nd. by rewrite Hpre.
Qed.

(** The rewritten child, seen from its parent. *)
Lemma child_after d (k : Z * Z * ntree d) nd b ws ws' x : zlen nd = bs → zlen b = zlen nd → roomy (bs - 4) b →
  repr (after ws) d b (trim stop d (snd k)) → (∀ x, x ∈ ws.*1 → x ∈ blocks d (snd k)) → NoDup (snd (fst k) :: blocks d (snd k)) →
  old bs read (snd (fst k)) (sub nd 0 (bs - 4)) → ws' = ws ++ (if decide (b ≠ nd) then [(snd (fst k), b)] else []) →
  held (after ws') d (x, snd (fst k), trim stop d (snd k)).
Proof.
  intros Hnd Hzb Hro Hrep Hws Hdup Hold ->. unfold block_size_ok in Hbs. apply NoDup_cons in Hdup as [Hb _].
  destruct (repr_into_prefix _ _ _ _ (bs - 4) Hrep Hro ltac:(lia)) as [Hr' Hro'].
  exists (sub b 0 (bs - 4)). cbn [fst snd]. split.
  - split; [|done]. case_decide as E.
    + left. exists b. split; [set_solver|]. split; [lia|done].
    + assert (b = nd) as -> by (destruct (decide (b = nd)); done). right. rewrite app_nil_r. split; [|done].
      intros Hx%Hws. done.
  - eapply repr_mono; [|exact Hr']. intros y c Hy. apply after_l. case_decide; [|set_solver].
    intros Hin. apply list_elem_of_singleton in Hin. cbn in Hin. subst y. apply Hb. by eapply trim_blocks_sub.
Qed.

Lemma index_step_ok d original r i (k : Z * Z * ntree d) (out : list (Z * Z * ntree d)) lo mid : node_promise d →
  index_entry original i = Ok (idx_of k) → 0 ≤ i → zlen out ≤ i → kid_in d lo mid k → mid ≤ 2 ^ 32 →
  NoDup (visited (walk r) ++ snd (fst k) :: blocks d (snd k)) →
  logical_end (walk r) ≤ lo → (∀ p, previous_index r = Some p → p < lo) →
  filled ExtentIdx.parse original (r_bytes r) (idx_of <$> out) → kept r = zlen out → first r = first_key (S d) out →
  12 * (i + 2) ≤ zlen original →
  let out' := rekey (first_key d) (fst k, trim stop d (snd k)) in
  ∃ r' ws, index_step bs blocks_count read (λ nd w, node stop bs blocks_count read d nd false w) original r i = Ok r' ∧
    filled ExtentIdx.parse original (r_bytes r') (idx_of <$> (out ++ out')) ∧ kept r' = zlen (out ++ out') ∧
    first r' = first_key (S d) (out ++ out') ∧ previous_index r' = Some (fst (fst k)) ∧
    walked (walk r) (walk r') mid (snd (fst k) :: blocks d (snd k)) ((snd (fst k), snd (fst k) + 1) :: ranges d (snd k))
      (trim_frees stop d (snd k) ++ released (first_key d) (fst k, trim stop d (snd k))) ws ∧
    (∀ x, x ∈ ws.*1 → x ∈ blocks (S d) out') ∧ Forall (held (after ws) d) out'.
Proof.
  intros Hnode Hent Hi Hout Hkid H32 Hdup Hend Hprev Hf Hk Hfirst Hfit out'.
  destruct (index_entry_raw _ _ _ Hi Hent) as (raw & Eraw & Hz & Hp).
  destruct (kid_read _ _ _ _ Hkid) as (nd & h & Er & Hnd & Hrep & Hro & Hh & Hne & Hkey & Hold).
  destruct Hkid as [[Hkeyed Hfk] _ Hflat Hdata Hnodes]. apply Forall_cons in Hnodes as [Hb Hnodes]. unfold node_in_volume in Hb.
  assert (Hrange : lo ≤ fst (fst k)) by (apply (leaf_ok_first lo mid d (snd k)); done).
  unfold index_step. rewrite Eraw. cbn [mbind res_bind]. rewrite Hp. cbn [mbind res_bind].
  cbn [idx_of ExtentIdx.logical_block ExtentIdx.leaf_block].
  rewrite decide_False.
  2:{ intros [Hr|[Hr|[Hr|Hr]]]; [|lia|lia|].
      - unfold repeats in Hr. destruct (previous_index r) as [p|]; [|done]. specialize (Hprev p eq_refl). lia.
      - apply NoDup_app in Hdup as (_ & Hd & _). apply (Hd _ Hr). set_solver. }
  rewrite Er. cbn [mbind res_bind]. rewrite decide_False by lia. rewrite Hh. cbn [mbind res_bind]. rewrite Hkey. cbn [mbind res_bind].
  rewrite decide_False by tauto.
  set (w1 := mkWalk (visited (walk r) ++ [snd (fst k)]) (physical (walk r) ++ [(snd (fst k), snd (fst k) + 1)])
    (logical_end (walk r)) (mutations (walk r))).
  assert (Hw1 : walked (walk r) w1 lo [snd (fst k)] [(snd (fst k), snd (fst k) + 1)] [] []).
  { split; rewrite ?app_nil_r; (done || (cbn; lia)). }
  destruct (Hnode nd (snd k) w1 false lo mid (bs - 4)) as (b & w2 & ws & Enode & Hzb & Hrob & Hrepb & Hws & Hw2); try done.
  { by right. } { by rewrite Hnd. } { unfold block_size_ok in Hbs. lia. }
  { unfold w1. cbn [visited]. by rewrite <-app_assoc. }
  rewrite Enode. cbn [mbind res_bind]. pose proof (walked_trans _ _ _ _ _ _ _ _ _ _ _ _ _ Hw1 Hw2) as Hw. cbn [app] in Hw.
  assert (Hdk : NoDup (snd (fst k) :: blocks d (snd k))) by (by apply NoDup_app in Hdup as (_ & _ & ?)).
  unfold out', rekey, released. cbn [fst snd]. destruct (first_key d (trim stop d (snd k))) as [x|] eqn:Ex.
  - pose proof (first_key_flat d (trim stop d (snd k))) as Hx. destruct (trim_keyed stop d (snd k) Hkeyed) as [En|Hkt]; [by rewrite En in Ex|].
    destruct (Hx Hkt) as (e & rest & Ef & Ee). rewrite Ex in Ee. injection Ee as ->.
    assert (He : ext_ok e). { pose proof (cut_ok stop _ _ _ Hflat) as [_ Hall]. rewrite <-flat_trim, Ef in Hall. by apply Forall_cons in Hall as [? _]. }
    rewrite put_u32_ok by lia. cbn [mbind res_bind].
    destruct (filled_snoc ExtentIdx.parse original (r_bytes r) (idx_of <$> out) (splice raw 0 (le_split 4 (Extent.logical_block e)))
      (ExtentIdx.mk (Extent.logical_block e) (snd (fst k))) Hf) as (bb & Ebb & Hf').
    { apply (parse_rekey raw (idx_of k)); [done|done|apply He]. } { rewrite zlen_splice by zl. done. } { rewrite zlen_fmap. lia. }
    rewrite zlen_fmap in Ebb. unfold keep_entry. rewrite Hk, Ebb. cbn [mbind res_bind]. eexists _, _. split; [done|].
    cbn [r_bytes kept first previous_index walk]. split; [by rewrite fmap_app|]. split; [zl|].
    split. { rewrite Hfirst. by destruct out. } split; [done|]. rewrite app_nil_r.
    split; [|split].
    + instantiate (1 := ws ++ (if decide (b ≠ nd) then [(snd (fst k), b)] else [])).
      destruct Hw as [A1 A2 A3 A4 A5]. case_decide; [|by rewrite app_nil_r; split].
      split; cbn [push_mutation visited physical logical_end mutations]; try done.
      * rewrite freed_runs_app. cbn. by rewrite app_nil_r.
      * by rewrite tree_writes_app, A5, <-app_assoc.
    + intros y. rewrite blocks_cons. cbn [fst snd]. rewrite fmap_app, !elem_of_app, elem_of_cons, elem_of_app.
      intros [Hy%Hws|Hy]; [by right; left|]. left. case_decide; set_solver.
    + apply Forall_singleton. eapply (child_after d k nd b ws); try done. intros y Hy%Hws. by eapply trim_blocks_sub.
  - destruct (first_key_None d _ Ex) as (_ & Ebl & _). assert (ws = []) as ->.
    { destruct ws as [|[y c] l]; [done|]. exfalso. specialize (Hws y ltac:(set_solver)). rewrite Ebl in Hws. set_solver. }
    eexists _, []. split; [done|]. rewrite app_nil_r. cbn [r_bytes kept first previous_index walk skip_entry].
    do 4 (split; [done|]). split; [|split; [intros y Hy; set_solver|constructor]].
    destruct Hw as [A1 A2 A3 A4 A5]. split; cbn [push_mutation visited physical logical_end mutations]; try done.
    + rewrite freed_runs_app, A4. cbn. by rewrite app_assoc.
    + rewrite tree_writes_app. cbn. rewrite app_nil_r. done.
Qed.

Lemma node_nodup (v a b : list Z) : NoDup (v ++ a ++ b) → NoDup (v ++ a) ∧ NoDup ((v ++ a) ++ b).
Proof. intros H. rewrite app_assoc in H. split; [by apply NoDup_app in H as (? & _)|done]. Qed.

Lemma helds_combine d ws1 ws2 (k out2 todo : list (Z * Z * ntree d)) (l1 l2 : list Z) :
  (∀ x, x ∈ blocks (S d) k → x ∈ l1) → (∀ x, x ∈ blocks (S d) out2 → x ∈ l2) → NoDup (l1 ++ l2) →
  (∀ x, x ∈ ws1.*1 → x ∈ blocks (S d) k) → (∀ x, x ∈ ws2.*1 → x ∈ blocks (S d) out2) →
  Forall (held (after ws1) d) k → Forall (held (after ws2) d) out2 → Forall (held (after (ws1 ++ ws2)) d) (k ++ out2).
Proof.
  intros H1 H2 Hd Hw1 Hw2 F1 F2. apply NoDup_app in Hd as (_ & Hd & _). apply Forall_app. split.
  - eapply helds_mono; [|exact F1]. intros b pre Hb. apply after_l. intros Hin%Hw2%H2. by apply (Hd b); [apply H1|].
  - eapply helds_mono; [|exact F2]. intros b pre Hb. apply after_r. intros Hin%Hw1%H1. apply (Hd b); [done|by apply H2].
Qed.

Lemma index_loop d original hi : node_promise d → hi ≤ 2 ^ 32 → ∀ (todo : list (Z * Z * ntree d)) i r (out : list (Z * Z * ntree d)) lo,
  traverse (index_entry original) (seqZ i (zlen todo)) = Ok (idx_of <$> todo) → 0 ≤ i → zlen out ≤ i →
  Forall (λ k, keyed d (snd k) ∧ first_key d (snd k) = Some (fst (fst k))) todo → Forall (held stored d) todo →
  leaf_ok lo hi (flat (S d) todo) → Forall in_volume (flat (S d) todo) → Forall node_in_volume (blocks (S d) todo) →
  NoDup (visited (walk r) ++ blocks (S d) todo) →
  logical_end (walk r) ≤ lo → (∀ p, previous_index r = Some p → p < lo) →
  filled ExtentIdx.parse original (r_bytes r) (idx_of <$> out) → kept r = zlen out → first r = first_key (S d) out →
  12 * (i + zlen todo + 1) ≤ zlen original →
  ∃ r' ws, foldM (index_step bs blocks_count read (λ nd w, node stop bs blocks_count read d nd false w) original) r (seqZ i (zlen todo)) = Ok r' ∧
    filled ExtentIdx.parse original (r_bytes r') (idx_of <$> (out ++ trim stop (S d) todo)) ∧ kept r' = zlen (out ++ trim stop (S d) todo) ∧
    first r' = first_key (S d) (out ++ trim stop (S d) todo) ∧
    walked (walk r) (walk r') hi (blocks (S d) todo) (ranges (S d) todo) (trim_frees stop (S d) todo) ws ∧
    (∀ x, x ∈ ws.*1 → x ∈ blocks (S d) (trim stop (S d) todo)) ∧ Forall (held (after ws) d) (trim stop (S d) todo).
Proof.
  intros Hnode H32. induction todo as [|k todo IH]; intros i r out lo Ht Hi Hout Hkeys Hheld Hok Hdata Hnodes Hdup Hend Hprev Hf Hk Hfirst Hfit.
  - exists r, []. change (trim stop (S d) []) with (@nil (Z * Z * ntree d)). rewrite !app_nil_r. do 4 (split; [done|]).
    split; [|split; [intros x Hx; set_solver|constructor]]. destruct Hok as [Hin _]. apply exts_in_le in Hin.
    split; rewrite ?app_nil_r; done || lia.
  - rewrite zlen_cons in *. pose proof (zlen_nonneg todo). rewrite seqZ_cons in * by lia.
    replace (Z.pred (1 + zlen todo)) with (zlen todo) in * by lia.
    cbn [traverse] in Ht. apply bind_ok_inv in Ht as (e' & He' & Ht). apply bind_ok_inv in Ht as (todo' & Ht & E).
    rewrite fmap_cons in E. injection E as -> ->. rewrite flat_cons in Hok, Hdata. rewrite blocks_cons in Hnodes, Hdup.
    apply Forall_cons in Hkeys as [Hkey Hkeys]. apply Forall_cons in Hheld as [Hh1 Hheld].
    apply deep_leaf_ok_split in Hok as (mid & Hok1 & Hok2). apply Forall_app in Hdata as [Hdata1 Hdata2].
    rewrite app_comm_cons in Hnodes, Hdup. apply Forall_app in Hnodes as [Hn1 Hn2].
    apply node_nodup in Hdup as [Hdup1 Hdup2]. pose proof (deep_leaf_ok_le _ _ _ Hok2).
    destruct (index_step_ok d original r i k out lo mid Hnode He') as
      (r1 & ws1 & E1 & Hf1 & Hk1 & Hfirst1 & Hprev1 & Hw1 & Hws1 & Hh1'); try done; try lia.
    cbn [foldM]. rewrite E1. cbn [mbind res_bind].
    assert (Hone : zlen (rekey (first_key d) (fst k, trim stop d (snd k))) ≤ 1) by (unfold rekey; case_match; done).
    pose proof Hw1 as [Hv _ He _ _]. pose proof (leaf_ok_first lo mid d (snd k) _ (proj1 Hkey) (proj2 Hkey) Hok1) as Hkr.
    destruct (IH (Z.succ i) r1 (out ++ rekey (first_key d) (fst k, trim stop d (snd k))) mid)
      as (r2 & ws2 & E2 & Hf2 & Hk2 & Hfirst2 & Hw2 & Hws2 & Hh2); try done; try lia.
    { rewrite zlen_app. lia. }
    { by rewrite Hv. }
    { intros p Hp. rewrite Hprev1 in Hp. injection Hp as <-. lia. }
    exists r2, (ws1 ++ ws2). rewrite trim_cons, app_assoc. do 4 (split; [done|]). split; [|split].
    + rewrite blocks_cons, app_comm_cons, ranges_cons, app_comm_cons, trim_frees_cons. by eapply walked_trans.
    + intros x. rewrite fmap_app, blocks_app, !elem_of_app. intros [Hx%Hws1|Hx%Hws2]; auto.
    + assert (Hsub : ∀ x, x ∈ blocks (S d) (rekey (first_key d) (fst k, trim stop d (snd k))) → x ∈ snd (fst k) :: blocks d (snd k)).
      { intros x Hx. pose proof (trim_blocks_sub (S d) [k] x) as Hs. rewrite trim_cons, blocks_cons, blocks_app in Hs.
        change (blocks (S d) []) with (@nil Z) in Hs. rewrite !app_nil_r in Hs. by apply Hs. }
      apply NoDup_app in Hdup1 as (_ & Hd1 & Hd1'). apply NoDup_app in Hdup2 as (_ & Hd2 & Hd2').
      eapply (helds_combine d ws1 ws2 _ _ [] (snd (fst k) :: blocks d (snd k)) (blocks (S d) todo)); try done.
      * intros x Hx. by eapply (trim_blocks_sub (S d)).
      * apply NoDup_app. split; [done|]. split; [|done]. intros x Hx. apply Hd2. apply elem_of_app. by right.
Qed.

Lemma node_of_ok {T} (parse : bytes → res T) steps d buf inline w body h r' (ys : list T) (fk : option Z) :
  ExtentHeader.parse buf = Ok h → ExtentHeader.depth h = d → ExtentHeader.max h ≠ 0 → 12 * (1 + ExtentHeader.max h) ≤ body →
  body = zlen buf - (if (inline : bool) then 0 else 4) → zlen buf ≤ 65536 →
  foldM steps (mkRewriting buf 0 None None w) (seqZ 0 (ExtentHeader.entries h)) = Ok r' →
  filled parse buf (r_bytes r') ys → kept r' = zlen ys → zlen ys ≤ ExtentHeader.max h →
  ∃ b, node_of steps d buf inline w = Ok (b, first r', walk r') ∧ zlen b = zlen buf ∧
    ExtentHeader.parse b = Ok (with_entries h (zlen ys)) ∧ roomy body b ∧
    ∀ j y, ys !! j = Some y → parse (sub b (12 * (Z.of_nat j + 1)) 12) = Ok y.
Proof.
  intros Hp Hd Hm Hfit Hbody Hz Hr Hf Hk Hys. pose proof (zlen_nonneg ys).
  assert (12 * (1 + ExtentHeader.max h) ≤ zlen buf) by (destruct inline; lia).
  destruct (filled_count parse buf (r_bytes r') ys h Hf Hp Hys ltac:(lia)) as (b & Eb & Hzb & Hpb & He).
  exists b. unfold node_of. rewrite Hp. cbn [mbind res_bind].
  replace (saturating_sub (zlen buf) (if inline then 0 else 4)) with body by (unfold saturating_sub; destruct inline; lia).
  rewrite decide_False by (unfold EXT4_EXT_NODE_SIZE; lia). rewrite Hr. cbn [mbind res_bind]. rewrite Hk, Eb. cbn [mbind res_bind].
  do 3 (split; [done|]). split; [|exact He]. exists (with_entries h (zlen ys)). split; [done|]. cbn. unfold EXT4_EXT_NODE_SIZE. lia.
Qed.

Lemma node_ok d : node_promise d.
Proof.
  induction d as [|d IH]; intros buf t w inline lo hi body Hrep Hkeyed Hro Hbody Hz Hok H32 Hdata Hnodes Hdup Hend;
    destruct (repr_count _ _ _ _ _ Hrep Hro) as (h & Hp & Hn & Hd & Hm & Hfit & Hw);
    (assert (Hfit' : 12 * (1 + ExtentHeader.max h) ≤ zlen buf) by (destruct inline; lia)).
  - cbn [flat width blocks] in *. destruct Hrep as (h' & Hp' & _ & Ht). rewrite Hp in Hp'. injection Hp' as <-. rewrite Hn in Ht.
    destruct (leaf_loop buf hi H32 t 0 (mkRewriting buf 0 None None w) [] lo) as (r' & E & Hf & Hk & Hfirst & Hwk); try done; try lia.
    cbn [app] in *. pose proof (cut_length stop t).
    destruct (node_of_ok Extent.parse (leaf_step stop blocks_count buf) 0 buf inline w body h r' (cut stop t) None)
      as (b & Eb & Hzb & Hpb & Hrb & He); try done; try lia. { by rewrite Hn. }
    exists b, (walk r'), []. cbn [node trim]. rewrite Eb, Hfirst. split; [done|]. split; [done|]. split; [done|].
    split; [|split; [intros x Hx; set_solver|exact Hwk]]. exists (with_entries h (zlen (cut stop t))). split; [done|]. split; [done|].
    cbn [with_entries ExtentHeader.entries]. eapply entries_traverse; [intros; by apply leaf_entry_sub|exact He|lia].
  - destruct Hkeyed as [?|[Hne Hkeys]]; [done|]. change (width (S d) t) with (zlen (A := Z * Z * ntree d) t) in *. destruct Hrep as [(h' & Hp' & _ & Ht) Hkids].
    rewrite Hp in Hp'. injection Hp' as <-. rewrite Hn, idx_of_names in Ht.
    destruct (index_loop d buf hi IH H32 t 0 (mkRewriting buf 0 None None w) [] lo) as (r' & ws & E & Hf & Hk & Hfirst & Hwk & Hws & Hh); try done; try lia.
    cbn [app] in *. pose proof (trim_width stop (S d) t) as Htw.
    change (zlen (A := Z * Z * ntree d) (trim stop (S d) t) ≤ zlen (A := Z * Z * ntree d) t) in Htw.
    destruct (node_of_ok ExtentIdx.parse (index_step bs blocks_count read (λ nd w, node stop bs blocks_count read d nd false w) buf)
      (Z.of_nat (S d)) buf inline w body h r' (idx_of <$> trim stop (S d) t) None) as (b & Eb & Hzb & Hpb & Hrb & He); try done; try lia.
    { by rewrite Hn. } { by rewrite zlen_fmap. }
    { change (zlen (idx_of (T := ntree d) <$> trim stop (S d) t) ≤ ExtentHeader.max h). rewrite zlen_fmap. lia. }
    exists b, (walk r'), ws. cbn [node]. rewrite Eb, Hfirst. split; [done|]. split; [done|]. split; [done|].
    split; [|split; [exact Hws|exact Hwk]]. split; [|exact Hh]. rewrite zlen_fmap in Hpb.
    exists (with_entries h (zlen (trim stop (S d) t))). split; [done|]. split; [done|].
    cbn [with_entries ExtentHeader.entries]. rewrite idx_of_names.
    replace (zlen (trim stop (S d) t)) with (zlen (idx_of <$> trim stop (S d) t)) by apply zlen_fmap.
    eapply entries_traverse; [intros; by apply index_entry_sub|exact He|].
    change (12 * (zlen (idx_of (T := ntree d) <$> trim stop (S d) t) + 1) ≤ zlen b). rewrite zlen_fmap. lia.
Qed.
End walk.

(** ** No block is named twice *)

Definition extent_of (r : Z * Z) : Z * Z := (fst r, snd r - fst r).

#[export] Instance pair_le_total : Total pair_le.
Proof. intros a b. unfold pair_le. lia. Qed.

Lemma overlap_sorted l : Sorted pair_le l → Forall (λ r, fst r < snd r) l → NoDup (run_blocks (extent_of <$> l)) →
  overlapping_pairs l = false.
Proof.
  induction 1 as [|a l Hs IH Hd]; intros Hf Hnd; [done|]. apply Forall_cons in Hf as [Ha Hf].
  rewrite fmap_cons in Hnd. change (run_blocks (?x :: ?r)) with (run (fst x) (snd x) ++ run_blocks r) in Hnd.
  apply NoDup_app in Hnd as (_ & Hdis & Hnd). destruct l as [|b l]; [done|].
  change (bool_decide (fst b < snd a) || overlapping_pairs (b :: l) = false).
  rewrite (IH Hf Hnd), orb_false_r. apply bool_decide_eq_false. intros Hlt. inversion Hd as [|? ? Hle]; subst.
  apply Forall_cons in Hf as [Hb _]. unfold pair_le in Hle. apply (Hdis (fst b)); unfold extent_of; cbn [fst snd].
  - apply elem_of_seqZ. lia.
  - rewrite fmap_cons. apply elem_of_app. left. apply elem_of_seqZ. cbn. lia.
Qed.

Lemma overlap_free l : Forall (λ r, fst r < snd r) l → NoDup (run_blocks (extent_of <$> l)) →
  overlapping_pairs (merge_sort pair_le l) = false.
Proof.
  intros Hf Hnd. pose proof (merge_sort_Permutation pair_le l) as Hp. apply overlap_sorted.
  - apply Sorted_merge_sort, _.
  - by rewrite Hp.
  - assert (E : run_blocks (extent_of <$> merge_sort pair_le l) ≡ₚ run_blocks (extent_of <$> l)); [|by rewrite E].
    unfold run_blocks. rewrite Hp. done.
Qed.

Lemma ranges_nonempty d : ∀ t : ntree d, Forall ext_ok (flat d t) → Forall (λ r, fst r < snd r) (ranges d t).
Proof.
  induction d as [|d IH]; intros t Hok.
  - cbn [ranges]. apply Forall_fmap. eapply Forall_impl; [exact Hok|]. intros e (_ & H & _). cbn. lia.
  - induction t as [|k kids IHk]; [constructor|]. rewrite flat_cons in Hok. apply Forall_app in Hok as [H1 H2].
    rewrite ranges_cons. constructor; [cbn; lia|]. apply Forall_app. split; [by apply IH|by apply IHk].
Qed.

(** A root left empty is a leaf again. *)
Lemma parse_depth a h : ExtentHeader.parse a = Ok h →
  ExtentHeader.parse (splice a 6 (le_split 2 0)) =
    Ok (ExtentHeader.mk (ExtentHeader.magic h) (ExtentHeader.entries h) (ExtentHeader.max h) 0 (ExtentHeader.generation h)).
Proof.
  intros H. unfold ExtentHeader.parse, EXT4_EXT_NODE_SIZE in *. case_decide as Hl; [done|].
  rewrite zlen_splice by zl. rewrite decide_False by lia. rewrite !u16_le_ok, u32_le_ok in H by lia.
  rewrite !u16_le_ok, u32_le_ok by (rewrite ?zlen_splice by zl; lia). cbn [mbind res_bind] in *.
  rewrite (le16_splice_ne _ 6 _ 0), (le16_splice_ne _ 6 _ 2), (le16_splice_ne _ 6 _ 4), (le32_splice_ne _ 6 _ 8) by zl.
  rewrite le16_splice by (first [zl|lia]). case_decide; [done|]. case_decide as He; [done|]. injection H as <-. done.
Qed.

Lemma trim_emptied stop d (t : ntree d) : first_key d (trim stop d t) = None → cut stop (flat d t) = [].
Proof. intros E. rewrite <-flat_trim. by destruct (first_key_None d _ E). Qed.

Lemma empty_root V d b (t : ntree d) : repr V d b t → first_key d t = None → roomy 60 b → zlen b = 60 →
  ∃ b', put_u16 b 6 0 = Ok b' ∧ zlen b' = 60 ∧ roomy 60 b' ∧ leaf_node b' [].
Proof.
  intros Hr Hf Hro Hz. destruct (repr_count _ _ _ _ _ Hr Hro) as (h & Hp & Hn & _ & Hm & Hfit & Hmax).
  destruct (first_key_None d t Hf) as (_ & _ & Hw). rewrite put_u16_ok by lia. eexists. split; [done|].
  split; [rewrite zlen_splice by zl; done|]. pose proof (parse_depth b h Hp) as Hp'.
  split; (eexists; split; [exact Hp'|]); cbn.
  - unfold EXT4_EXT_NODE_SIZE. lia.
  - split; [done|]. by rewrite Hn, Hw.
Qed.

(** ** The property *)

(** C17: truncating through an extent tree of any depth.  Take a tree within
    capacity, its nodes and data inside the volume and no block named twice.
    Then the plan succeeds.  Over the old blocks its writes, each to a block
    still in use, leave a tree under the new root again, the empty leaf when
    nothing is left; it maps exactly the blocks before the new end, where they
    were; and every block of the old tree, of data or of a node, is either
    still in use or released, exactly once. *)
Theorem plan_truncate_shrink_deep_spec old_size new_size root bs blocks_count read D (t : ntree D) :
  block_size_ok bs → is_power_of_two bs = true → 0 ≤ new_size ≤ old_size → zlen root = 60 → roomy 60 root →
  whole bs (stored bs read) D root t → Forall (in_volume blocks_count) (flat D t) →
  Forall (node_in_volume blocks_count) (blocks D t) → NoDup (used D t) →
  ∃ root' ms D' t', plan_truncate_shrink_deep old_size new_size root bs blocks_count read =
      Ok (mkSizeChange old_size new_size, WriteRoot root' :: ms) ∧
    zlen root' = 60 ∧ roomy 60 root' ∧ whole bs (after bs read (tree_writes ms)) D' root' t' ∧
    (∀ x, x ∈ (tree_writes ms).*1 → x ∈ blocks D' t') ∧
    (∀ l, blockmap (flat D' t') l = if decide (l < div_ceil new_size bs) then blockmap (flat D t) l else None) ∧
    run_blocks (freed_runs ms) ++ used D' t' ≡ₚ used D t.
Proof.
  intros Hbs Hp2 Hn Hz Hro [Hrep Hkeyed Hcap Hwid Hflat Hdepth] Hdata Hnodes Hdup.
  pose proof (div_ceil_nonneg new_size bs ltac:(lia) ltac:(unfold block_size_ok in Hbs; lia)) as Hc.
  set (stop := div_ceil new_size bs) in *. destruct (repr_count _ _ _ _ _ Hrep Hro) as (h & Hh & _ & Hd & _).
  assert (Hnd : NoDup (blocks D t)) by (by apply NoDup_app in Hdup as (? & _)).
  destruct (node_ok stop bs blocks_count read Hc Hbs D root t new_walk true 0 (2 ^ 32) 60 Hrep)
    as (b & w & ws & E & Hzb & Hrob & Hrepb & Hws & [_ Hphys _ Hruns Hwrites]); try done; try lia.
  cbn [new_walk physical mutations app freed_runs tree_writes omap list_omap] in Hphys, Hruns, Hwrites.
  pose proof (trim_blocks stop D t (proj2 Hflat)) as Hperm.
  assert (Hov : overlapping_pairs (merge_sort pair_le (physical w)) = false).
  { apply overlap_free; rewrite Hphys; [apply ranges_nonempty, Hflat|]. unfold extent_of. by rewrite ranges_used. }
  unfold plan_truncate_shrink_deep. rewrite decide_False.
  2:{ unfold block_size_ok in Hbs. rewrite Hp2. intros [?|[?|?]]; [lia|tauto|done]. }
  rewrite Hh. cbn [mbind res_bind]. rewrite decide_False by (unfold EXT4_EXT_MAX_DEPTH; lia).
  fold stop. rewrite Hd, Nat2Z.id, E. cbn [mbind res_bind].
  assert (Hmap : ∀ l, blockmap (cut stop (flat D t)) l = if decide (l < stop) then blockmap (flat D t) l else None)
    by (intros l; by eapply cut_blockmap).
  destruct (first_key D (trim stop D t)) as [key|] eqn:Ef; cbn [mbind res_bind]; rewrite Hov.
  - exists b, (mutations w), D, (trim stop D t). split; [done|]. split; [lia|]. split; [done|]. rewrite Hwrites, Hruns, flat_trim.
    split; [|done]. split; [done| |by apply trim_capped|pose proof (trim_width stop D t); lia| |done].
    + destruct Hkeyed as [?|Hk]; [by left|right]. destruct (trim_keyed stop D t Hk) as [En|]; [by rewrite Ef in En|done].
    + rewrite flat_trim. by apply cut_ok.
  - destruct (empty_root _ _ _ _ Hrepb Ef Hrob ltac:(lia)) as (b' & Eb & Hzb' & Hrob' & Hleaf). rewrite Eb. cbn [mbind res_bind].
    exists b', (mutations w), 0%nat, []. split; [done|]. split; [done|]. split; [done|]. rewrite Hwrites, Hruns.
    pose proof (trim_emptied stop D t Ef) as Hcut. destruct (first_key_None D _ Ef) as (Hft & Hbt & _).
    split; [split; [exact Hleaf|by left|done|done|split; [cbn; lia|constructor]|lia]|].
    split; [intros x Hx%Hws; rewrite Hbt in Hx; set_solver|]. split; [intros l; by rewrite <-Hmap, Hcut|].
    rewrite <-Hperm. unfold used. by rewrite Hft, Hbt.
Qed.

(** The two-leaf tree of the repacking, truncated inside its first leaf. *)
Definition read_two_leaves (b : Z) : res bytes := slice two_leaf_image (b * 1024) 1024.

Lemma two_leaves_whole : whole 1024 (stored 1024 read_two_leaves) 1 two_leaf_root two_leaves.
Proof.
  assert (Hs : ∀ b exts, (b = 1 ∧ exts = sample_runs 3) ∨ (b = 2 ∧ exts = drop 3 (sample_runs 6)) →
    ∃ pre, stored 1024 read_two_leaves b pre ∧ leaf_node pre exts).
  { intros b exts Hb. exists (sub (or_empty (read_two_leaves b)) 0 1020).
    destruct Hb as [[-> ->]|[-> ->]]; (split; [split; [eexists; split; [vm_compute; reflexivity|split; by_compute]|]|]);
      (eexists; split; [vm_compute; reflexivity|]; by_compute). }
  split.
  - split; [eexists; split; [vm_compute; reflexivity|]; split; vm_compute; reflexivity|].
    constructor; [|constructor; [|constructor]]; cbn [fst snd repr].
    + apply Hs. by left.
    + apply Hs. by right.
  - right. split; [done|]. repeat constructor; done.
  - constructor; [|constructor; [|constructor]]; (split; [by_compute|split; [by_compute|exact I]]).
  - by_compute.
  - split; [vm_compute; repeat (split; [discriminate|]); discriminate|]. unfold ext_ok. by_compute.
  - lia.
Qed.

Lemma plan_truncate_shrink_deep_spec_witness :
  ∃ root' ms, plan_truncate_shrink_deep 12000 3000 two_leaf_root 1024 2000 read_two_leaves =
      Ok (mkSizeChange 12000 3000, WriteRoot root' :: ms) ∧ freed_runs ms = [(1006, 1); (1009, 1); (1012, 1); (1015, 1); (2, 1)].
Proof.
  destruct (plan_truncate_shrink_deep_spec 12000 3000 two_leaf_root 1024 2000 read_two_leaves 1 two_leaves)
    as (root' & ms & D' & t' & E & _).
  - unfold block_size_ok. lia.
  - reflexivity.
  - lia.
  - by_compute.
  - eexists. split; [vm_compute; reflexivity|]. by_compute.
  - exact two_leaves_whole.
  - unfold in_volume. by_compute.
  - unfold node_in_volume. by_compute.
  - by_compute.
  - exists root', ms. split; [exact E|]. vm_compute in E. injection E as _ <-. vm_compute. reflexivity.
Defined.
