(* ===== verification/Inode.v ===== *)
(** Inode: the on-disk inode (src/src/inode.rs): decoding every field, the mode
    and flag predicates, and the timestamp codec (signed 32-bit base plus two
    era bits) with the in-place timestamp update. *)
From S2P Require Import Prelude Errors Bytes Device Features Superblock Checksum.

Definition INODE_BASE_SIZE : Z := 128.
Definition GOOD_OLD_INODE_SIZE : Z := 128.
Definition INODE_EXTRA_OFFSET : Z := 128.
Definition OFF_MODE : Z := 0x00.
Definition OFF_SIZE_LO : Z := 0x04.
Definition OFF_ATIME : Z := 0x08.
Definition OFF_CTIME : Z := 0x0C.
Definition OFF_MTIME : Z := 0x10.
Definition OFF_LINKS_COUNT : Z := 0x1A.
Definition OFF_BLOCKS_LO : Z := 0x1C.
Definition OFF_FLAGS : Z := 0x20.
Definition OFF_BLOCK : Z := 0x28.
Definition OFF_GENERATION : Z := 0x64.
Definition OFF_SIZE_HI : Z := 0x6C.
Definition OFF_BLOCKS_HI : Z := 0x74.
Definition OFF_CHECKSUM_LO : Z := 0x7C.
Definition OFF_EXTRA_ISIZE : Z := 0x80.
Definition OFF_CHECKSUM_HI : Z := 0x82.
Definition OFF_CRTIME : Z := 0x90.

Definition S_IFMT : Z := 0xF000.
Definition S_IFREG : Z := 0x8000.
Definition S_IFDIR : Z := 0x4000.
Definition S_IFLNK : Z := 0xA000.
Definition S_IFBLK : Z := 0x6000.
Definition S_IFCHR : Z := 0x2000.
Definition S_IFIFO : Z := 0x1000.
Definition S_IFSOCK : Z := 0xC000.

Module InodeFlags.
Definition SECRM : Z := 0x00000001.
Definition UNRM : Z := 0x00000002.
Definition COMPR : Z := 0x00000004.
Definition SYNC : Z := 0x00000008.
Definition IMMUTABLE : Z := 0x00000010.
Definition APPEND : Z := 0x00000020.
Definition NODUMP : Z := 0x00000040.
Definition NOATIME : Z := 0x00000080.
Definition EXTRA_ATIME : Z := 0x00000100.
Definition ENCRYPT : Z := 0x00000800.
Definition INDEX : Z := 0x00001000.
Definition HUGE_FILE : Z := 0x00040000.
Definition EXTENTS : Z := 0x00080000.
Definition EXTENT : Z := 0x00080000.
Definition EA_INODE : Z := 0x00200000.
Definition INLINE_DATA : Z := 0x10000000.
(** [from_bits_truncate]: the bits some flag names. *)
Definition all : Z := foldr Z.lor 0 [SECRM; UNRM; COMPR; SYNC; IMMUTABLE; APPEND; NODUMP; NOATIME;
  EXTRA_ATIME; ENCRYPT; INDEX; HUGE_FILE; EXTENTS; EA_INODE; INLINE_DATA].
End InodeFlags.

Definition USER_MODIFIABLE_FLAGS : Z :=
  foldr Z.lor 0 [InodeFlags.SECRM; InodeFlags.UNRM; InodeFlags.COMPR; InodeFlags.SYNC;
    InodeFlags.IMMUTABLE; InodeFlags.APPEND; InodeFlags.NODUMP; InodeFlags.NOATIME;
    0x00004000; 0x00008000; 0x00010000; 0x00020000; 0x20000000].

(** ** Timestamps *)

Definition ERA_SECONDS : Z := Z.shiftl 1 32.
Definition ERA_FIELD : Z := 3.

Definition unpack_seconds (base extra : Z) : Z :=
  let signed_base := as_i32 base in
  let era := Z.land extra ERA_FIELD in
  signed_base + era * ERA_SECONDS.

Definition pack_seconds (secs : Z) : Z * Z :=
  let half_windows := Z.shiftr secs 31 in
  let era := Z.land (as_u32 (Z.shiftr (half_windows + 1) 1)) ERA_FIELD in
  (as_u32 secs, era).

Definition i32_min : Z := - 2 ^ 31.
Definition i32_max : Z := 2 ^ 31 - 1.
Definition MIN_ENCODABLE_TIME : Z := i32_min.
Definition MAX_ENCODABLE_TIME : Z := i32_max + 3 * ERA_SECONDS.

(** [x.clamp(lo, hi)] *)
Definition clamp (lo hi x : Z) : Z := Z.max lo (Z.min hi x).

Inductive InodeTime := Atime | Ctime | Mtime | Crtime.
#[global] Instance InodeTime_eq_dec : EqDecision InodeTime.
Proof. solve_decision. Defined.

Definition base_offset (f : InodeTime) : Z :=
  match f with Atime => OFF_ATIME | Ctime => OFF_CTIME | Mtime => OFF_MTIME | Crtime => OFF_CRTIME end.
Definition extra_offset (f : InodeTime) : Z :=
  match f with Ctime => 0x84 | Mtime => 0x88 | Atime => 0x8C | Crtime => 0x94 end.

(** [raw.get(a..a + 2)] is [None] past the end. *)
Definition extra_field_fits (raw : bytes) (offset : Z) : bool :=
  if decide (zlen raw < OFF_EXTRA_ISIZE + 2) then false else
  let declared_end := INODE_EXTRA_OFFSET + le16 raw OFF_EXTRA_ISIZE in
  let field_end := offset + 4 in
  bool_decide (field_end ≤ zlen raw) && bool_decide (field_end ≤ declared_end).

Definition set_inode_time (raw : bytes) (field : InodeTime) (secs : Z) : res bytes :=
  let base_at := base_offset field in
  let extra_at := extra_offset field in
  if extra_field_fits raw extra_at then
    let '(base, era) := pack_seconds (clamp MIN_ENCODABLE_TIME MAX_ENCODABLE_TIME secs) in
    raw ← put_u32 raw base_at base;
    put_u32 raw extra_at era
  else if bool_decide (field ≠ Crtime) || extra_field_fits raw base_at then
    put_u32 raw base_at (as_u32 (clamp i32_min i32_max secs))
  else Ok raw.

(** ** The inode *)
Module Inode.
Record t := mk {
  mode : Z; uid : Z; gid : Z; size : Z;
  atime : Z; mtime : Z; ctime : Z; dtime : Z; crtime : Z;
  atime_nsec : Z; mtime_nsec : Z; ctime_nsec : Z; crtime_nsec : Z;
  links_count : Z; blocks : Z; flags : Z; block : bytes;
  generation : Z; file_acl : Z; checksum : Z
}.

(** A field of the extra section, read only if [i_extra_isize] covers it. *)
Definition extra_u32 (raw : bytes) (isize need off : Z) : res Z :=
  if decide (need ≤ isize) then u32_le raw off else Ok 0.

Record extra := mkExtra {
  x_checksum_hi : Z; x_ctime : Z; x_mtime : Z; x_atime : Z; x_crtime_base : Z; x_crtime : Z
}.

Definition parse_extra (raw : bytes) : res extra :=
  if decide (zlen raw < INODE_EXTRA_OFFSET + 4) then Ok (mkExtra 0 0 0 0 0 0) else
  i_extra_isize ← u16_le raw OFF_EXTRA_ISIZE;
  if decide (zlen raw < INODE_EXTRA_OFFSET + i_extra_isize)
  then Err (Corrupt "i_extra_isize exceeds inode size") else
  checksum_hi ← (if decide (4 ≤ i_extra_isize) then u16_le raw OFF_CHECKSUM_HI else Ok 0);
  ctime_extra ← extra_u32 raw i_extra_isize 8 0x84;
  mtime_extra ← extra_u32 raw i_extra_isize 12 0x88;
  atime_extra ← extra_u32 raw i_extra_isize 16 0x8C;
  crtime_base ← extra_u32 raw i_extra_isize 20 OFF_CRTIME;
  crtime_extra ← extra_u32 raw i_extra_isize 24 0x94;
  Ok (mkExtra checksum_hi ctime_extra mtime_extra atime_extra crtime_base crtime_extra).

Definition parse (raw : bytes) : res t :=
  if decide (zlen raw < INODE_BASE_SIZE) then Err (Corrupt "inode buffer too small") else
  mode ← u16_le raw OFF_MODE;
  uid_lo ← u16_le raw 0x02;
  size_lo ← u32_le raw OFF_SIZE_LO;
  atime_base ← u32_le raw OFF_ATIME;
  ctime_base ← u32_le raw OFF_CTIME;
  mtime_base ← u32_le raw OFF_MTIME;
  dtime ← u32_le raw 0x14;
  gid_lo ← u16_le raw 0x18;
  links_count ← u16_le raw OFF_LINKS_COUNT;
  blocks_lo ← u32_le raw OFF_BLOCKS_LO;
  flags ← u32_le raw OFF_FLAGS;
  block ← slice raw OFF_BLOCK 60;
  generation ← u32_le raw OFF_GENERATION;
  file_acl_lo ← u32_le raw 0x68;
  size_hi ← u32_le raw OFF_SIZE_HI;
  blocks_hi ← u16_le raw OFF_BLOCKS_HI;
  file_acl_hi ← u16_le raw 0x76;
  uid_hi ← u16_le raw 0x78;
  gid_hi ← u16_le raw 0x7A;
  checksum_lo ← u16_le raw OFF_CHECKSUM_LO;
  x ← parse_extra raw;
  Ok {| mode := mode; uid := join16 uid_hi uid_lo; gid := join16 gid_hi gid_lo;
        size := join32 size_hi size_lo;
        atime := unpack_seconds atime_base (x_atime x);
        mtime := unpack_seconds mtime_base (x_mtime x);
        ctime := unpack_seconds ctime_base (x_ctime x);
        dtime := as_i32 dtime;
        crtime := unpack_seconds (x_crtime_base x) (x_crtime x);
        atime_nsec := Z.shiftr (x_atime x) 2; mtime_nsec := Z.shiftr (x_mtime x) 2;
        ctime_nsec := Z.shiftr (x_ctime x) 2; crtime_nsec := Z.shiftr (x_crtime x) 2;
        links_count := links_count; blocks := join32 blocks_hi blocks_lo; flags := flags;
        block := block; generation := generation; file_acl := join32 file_acl_hi file_acl_lo;
        checksum := join16 (x_checksum_hi x) checksum_lo |}.

Definition file_type (i : t) : Z := Z.land (mode i) S_IFMT.
Definition is_dir (i : t) : bool := bool_decide (file_type i = S_IFDIR).
Definition is_file (i : t) : bool := bool_decide (file_type i = S_IFREG).
Definition is_symlink (i : t) : bool := bool_decide (file_type i = S_IFLNK).
Definition has_extents (i : t) : bool := bool_decide (Z.land (flags i) InodeFlags.EXTENTS ≠ 0).
Definition has_inline_data (i : t) : bool := bool_decide (Z.land (flags i) InodeFlags.INLINE_DATA ≠ 0).

Definition flag_set (i : t) : Z := Z.land (flags i) InodeFlags.all.

(** ** Specification: one timestamp of an inode, and an inode with it replaced *)

Definition time_of (i : t) (f : InodeTime) : Z * Z :=
  match f with
  | Atime => (atime i, atime_nsec i) | Ctime => (ctime i, ctime_nsec i)
  | Mtime => (mtime i, mtime_nsec i) | Crtime => (crtime i, crtime_nsec i)
  end.

Definition with_time (i : t) (f : InodeTime) (s n : Z) : t :=
  let sel g old new := if decide (f = g) then new else old in
  mk (mode i) (uid i) (gid i) (size i)
    (sel Atime (atime i) s) (sel Mtime (mtime i) s) (sel Ctime (ctime i) s) (dtime i)
    (sel Crtime (crtime i) s)
    (sel Atime (atime_nsec i) n) (sel Mtime (mtime_nsec i) n) (sel Ctime (ctime_nsec i) n)
    (sel Crtime (crtime_nsec i) n)
    (links_count i) (blocks i) (flags i) (block i) (generation i) (file_acl i) (checksum i).
End Inode.

(** ** The timestamp codec *)

Lemma as_i32_range x : i32_min ≤ as_i32 x ≤ i32_max.
Proof. unfold as_i32, i32_min, i32_max. pose proof (Z.mod_pos_bound (x + 2 ^ 31) (2 ^ 32)). lia. Qed.

Lemma as_i32_as_u32 x : as_i32 (as_u32 x) = as_i32 x.
Proof. unfold as_i32, as_u32. by rewrite Zplus_mod_idemp_l. Qed.

Lemma as_i32_id x : i32_min ≤ x ≤ i32_max → as_i32 x = x.
Proof. unfold as_i32, i32_min, i32_max. intros. rewrite Z.mod_small by lia. lia. Qed.

(** The era of a second: how many 2^32-second windows it lies past the first. *)
Lemma pack_seconds_eq secs : MIN_ENCODABLE_TIME ≤ secs ≤ MAX_ENCODABLE_TIME →
  pack_seconds secs = (as_u32 secs, (secs + 2 ^ 31) / 2 ^ 32).
Proof.
  unfold MIN_ENCODABLE_TIME, MAX_ENCODABLE_TIME, i32_min, i32_max, ERA_SECONDS. intros Hs.
  change (Z.shiftl 1 32) with (2 ^ 32) in Hs.
  unfold pack_seconds, ERA_FIELD. f_equal. rewrite !Z.shiftr_div_pow2 by lia.
  change 3 with (2 ^ 2 - 1). rewrite land_ones_mod by lia. unfold as_u32.
  replace ((secs / 2 ^ 31 + 1) / 2 ^ 1) with ((secs + 2 ^ 31) / 2 ^ 32).
  2:{ replace (secs / 2 ^ 31 + 1) with ((secs + 2 ^ 31) / 2 ^ 31)
        by (rewrite <-(Z.mul_1_l (2 ^ 31)) at 1; by rewrite Z.div_add by lia).
      rewrite Z.div_div by lia. by rewrite <-Z.pow_add_r by lia. }
  assert (0 ≤ (secs + 2 ^ 31) / 2 ^ 32 < 4).
  { split; [apply Z.div_pos; lia|apply Z.div_lt_upper_bound; lia]. }
  rewrite (Z.mod_small _ (2 ^ 32)) by lia. by rewrite Z.mod_small by lia.
Qed.

Lemma unpack_pack secs n :
  MIN_ENCODABLE_TIME ≤ secs ≤ MAX_ENCODABLE_TIME → 0 ≤ n →
  unpack_seconds (fst (pack_seconds secs)) (Z.lor (Z.shiftl n 2) (snd (pack_seconds secs))) = secs.
Proof.
  intros Hs Hn. rewrite pack_seconds_eq by done. simpl fst; simpl snd.
  unfold MIN_ENCODABLE_TIME, MAX_ENCODABLE_TIME, i32_min, i32_max, ERA_SECONDS in Hs.
  change (Z.shiftl 1 32) with (2 ^ 32) in Hs. unfold unpack_seconds, ERA_FIELD, ERA_SECONDS.
  change (Z.shiftl 1 32) with (2 ^ 32). change 3 with (2 ^ 2 - 1).
  assert (0 ≤ (secs + 2 ^ 31) / 2 ^ 32 < 4).
  { split; [apply Z.div_pos; lia|apply Z.div_lt_upper_bound; lia]. }
  rewrite lor_shiftl_add, land_ones_mod by lia. change (2 ^ 2) with 4.
  rewrite (Z.add_comm (n * 4)), Z.mod_add, Z.mod_small by lia.
  rewrite as_i32_as_u32. unfold as_i32. rewrite (Z.mod_eq (secs + 2 ^ 31)) by lia. lia.
Qed.

(** ** Decoding, in closed form *)

(** What [extra_u32] reads when the declared size is within the buffer. *)
Definition x32 (raw : bytes) (need off : Z) : Z :=
  if decide (INODE_EXTRA_OFFSET + 4 ≤ zlen raw ∧ need ≤ le16 raw OFF_EXTRA_ISIZE) then le32 raw off else 0.

Definition extra_ok (raw : bytes) : Prop :=
  INODE_EXTRA_OFFSET + 4 ≤ zlen raw → INODE_EXTRA_OFFSET + le16 raw OFF_EXTRA_ISIZE ≤ zlen raw.

Definition decode (raw : bytes) : Inode.t :=
  Inode.mk (le16 raw OFF_MODE) (join16 (le16 raw 0x78) (le16 raw 0x02))
    (join16 (le16 raw 0x7A) (le16 raw 0x18)) (join32 (le32 raw OFF_SIZE_HI) (le32 raw OFF_SIZE_LO))
    (unpack_seconds (le32 raw OFF_ATIME) (x32 raw 16 0x8C))
    (unpack_seconds (le32 raw OFF_MTIME) (x32 raw 12 0x88))
    (unpack_seconds (le32 raw OFF_CTIME) (x32 raw 8 0x84)) (as_i32 (le32 raw 0x14))
    (unpack_seconds (x32 raw 20 OFF_CRTIME) (x32 raw 24 0x94))
    (Z.shiftr (x32 raw 16 0x8C) 2) (Z.shiftr (x32 raw 12 0x88) 2) (Z.shiftr (x32 raw 8 0x84) 2)
    (Z.shiftr (x32 raw 24 0x94) 2) (le16 raw OFF_LINKS_COUNT)
    (join32 (le16 raw OFF_BLOCKS_HI) (le32 raw OFF_BLOCKS_LO)) (le32 raw OFF_FLAGS)
    (sub raw OFF_BLOCK 60) (le32 raw OFF_GENERATION) (join32 (le16 raw 0x76) (le32 raw 0x68))
    (join16 (if decide (INODE_EXTRA_OFFSET + 4 ≤ zlen raw ∧ 4 ≤ le16 raw OFF_EXTRA_ISIZE)
             then le16 raw OFF_CHECKSUM_HI else 0) (le16 raw OFF_CHECKSUM_LO)).

Ltac offsets := unfold INODE_BASE_SIZE, INODE_EXTRA_OFFSET, OFF_MODE, OFF_SIZE_LO, OFF_ATIME, OFF_CTIME,
  OFF_MTIME, OFF_LINKS_COUNT, OFF_BLOCKS_LO, OFF_FLAGS, OFF_BLOCK, OFF_GENERATION, OFF_SIZE_HI,
  OFF_BLOCKS_HI, OFF_CHECKSUM_LO, OFF_EXTRA_ISIZE, OFF_CHECKSUM_HI, OFF_CRTIME in *.

Lemma extra_u32_eq raw need off :
  INODE_EXTRA_OFFSET + 4 ≤ zlen raw → 0 ≤ off → off + 4 ≤ INODE_EXTRA_OFFSET + need → extra_ok raw →
  Inode.extra_u32 raw (le16 raw OFF_EXTRA_ISIZE) need off = Ok (x32 raw need off).
Proof.
  intros Hl Ho Hn Hx. specialize (Hx Hl). unfold Inode.extra_u32, x32. offsets.
  case_decide; [rewrite u32_le_ok by lia; by rewrite decide_True by lia|by rewrite decide_False by lia].
Qed.

Lemma parse_eq raw : bytes_ok raw → INODE_BASE_SIZE ≤ zlen raw →
  Inode.parse raw = if decide (extra_ok raw) then Ok (decode raw)
                    else Err (Corrupt "i_extra_isize exceeds inode size").
Proof.
  intros Hb Hl. unfold Inode.parse. offsets. rewrite decide_False by lia. io.
  unfold Inode.parse_extra, decode. offsets. case_decide as Hs.
  - rewrite bind_Ok, decide_True by (unfold extra_ok; offsets; lia). simpl. unfold x32. offsets.
    by rewrite !decide_False by lia.
  - rewrite (u16_le_ok raw 128) by lia. rewrite bind_Ok. pose proof (le16_range raw 128 Hb).
    case_decide as Hx; [by rewrite decide_False by (unfold extra_ok; offsets; lia)|].
    assert (He : extra_ok raw) by (unfold extra_ok; offsets; lia).
    rewrite (decide_True (P := extra_ok raw)) by done.
    assert (E : (if decide (4 ≤ le16 raw 128) then u16_le raw 130 else Ok 0) =
      Ok (if decide (132 ≤ zlen raw ∧ 4 ≤ le16 raw 128) then le16 raw 130 else 0)).
    { case_decide; [rewrite u16_le_ok by lia; by rewrite decide_True by lia|by rewrite decide_False by lia]. }
    rewrite E, bind_Ok.
    pose proof (extra_u32_eq raw) as Hx32. offsets.
    rewrite !Hx32 by (done || lia). by rewrite !bind_Ok.
Qed.

(** *** Fields of an inode after one of its words is stored *)

Lemma x32_splice_ne raw off v need o :
  0 ≤ off → off + 4 ≤ zlen raw → 0 ≤ o → o + 4 ≤ off ∨ off + 4 ≤ o →
  off + 4 ≤ OFF_EXTRA_ISIZE ∨ OFF_EXTRA_ISIZE + 2 ≤ off →
  x32 (splice raw off (le_split 4 v)) need o = x32 raw need o.
Proof.
  intros. unfold x32. rewrite zlen_splice, le16_splice_ne by (offsets; zl).
  by rewrite le32_splice_ne by zl.
Qed.

Lemma x32_splice raw off v need :
  0 ≤ off → off + 4 ≤ zlen raw → OFF_EXTRA_ISIZE + 4 ≤ off → 0 ≤ v < 2 ^ 32 →
  need ≤ le16 raw OFF_EXTRA_ISIZE → x32 (splice raw off (le_split 4 v)) need off = v.
Proof.
  intros. unfold x32. rewrite zlen_splice, le16_splice_ne by (offsets; zl).
  rewrite decide_True by (offsets; lia). by apply le32_splice.
Qed.

Lemma extra_ok_splice raw off v :
  0 ≤ off → off + 4 ≤ zlen raw → off + 4 ≤ OFF_EXTRA_ISIZE ∨ OFF_EXTRA_ISIZE + 2 ≤ off →
  extra_ok (splice raw off (le_split 4 v)) ↔ extra_ok raw.
Proof. intros. unfold extra_ok. by rewrite zlen_splice, le16_splice_ne by (offsets; zl). Qed.

(** Storing a base word. *)
Lemma decode_base raw f v :
  INODE_BASE_SIZE ≤ zlen raw → base_offset f + 4 ≤ zlen raw → 0 ≤ v < 2 ^ 32 →
  (f = Crtime → 20 ≤ le16 raw OFF_EXTRA_ISIZE) →
  decode (splice raw (base_offset f) (le_split 4 v)) =
  Inode.with_time (decode raw) f
    (unpack_seconds v (x32 raw (extra_offset f + 4 - INODE_EXTRA_OFFSET) (extra_offset f)))
    (snd (Inode.time_of (decode raw) f)).
Proof.
  intros Hl Hf Hv Hx. unfold decode, Inode.with_time, Inode.time_of.
  destruct f; cbn [base_offset extra_offset snd] in *; simpl;
    rewrite ?x32_splice by (offsets; lia || auto); repeat (rewrite x32_splice_ne by (offsets; lia));
    rewrite ?zlen_splice by (offsets; zl);
    rewrite ?le32_splice by (offsets; lia);
    repeat (rewrite le16_splice_ne by (offsets; zl)); repeat (rewrite le32_splice_ne by (offsets; zl));
    rewrite sub_splice_disjoint by (offsets; zl); reflexivity.
Qed.

(** The base word a field is read from. *)
Definition base_word (raw : bytes) (f : InodeTime) : Z :=
  match f with Crtime => x32 raw 20 OFF_CRTIME | _ => le32 raw (base_offset f) end.

(** Storing a companion word. *)
Lemma decode_companion raw f v :
  INODE_BASE_SIZE ≤ zlen raw → extra_offset f + 4 ≤ zlen raw → 0 ≤ v < 2 ^ 32 →
  extra_offset f + 4 - INODE_EXTRA_OFFSET ≤ le16 raw OFF_EXTRA_ISIZE →
  decode (splice raw (extra_offset f) (le_split 4 v)) =
  Inode.with_time (decode raw) f (unpack_seconds (base_word raw f) v) (Z.shiftr v 2).
Proof.
  intros Hl Hf Hv Hx. unfold decode, Inode.with_time, base_word.
  destruct f; cbn [base_offset extra_offset] in *; simpl;
    rewrite ?x32_splice by (offsets; lia); repeat (rewrite x32_splice_ne by (offsets; lia));
    rewrite ?zlen_splice by (offsets; zl);
    repeat (rewrite le16_splice_ne by (offsets; zl)); repeat (rewrite le32_splice_ne by (offsets; zl));
    rewrite sub_splice_disjoint by (offsets; zl); reflexivity.
Qed.

Lemma extra_field_fits_true raw off : OFF_EXTRA_ISIZE ≤ off →
  extra_field_fits raw off = true ↔
  off + 4 ≤ zlen raw ∧ off + 4 - INODE_EXTRA_OFFSET ≤ le16 raw OFF_EXTRA_ISIZE.
Proof.
  intros Ho. unfold extra_field_fits. offsets. case_decide; [lia|].
  rewrite andb_true_iff, !bool_decide_eq_true. lia.
Qed.

Lemma as_u32_range x : 0 ≤ as_u32 x < 2 ^ 32.
Proof. unfold as_u32. apply Z.mod_pos_bound. lia. Qed.

Lemma unpack_base x : i32_min ≤ x ≤ i32_max → unpack_seconds (as_u32 x) 0 = x.
Proof. intros. unfold unpack_seconds. rewrite as_i32_as_u32, as_i32_id by done.
  change (Z.land 0 ERA_FIELD) with 0. lia. Qed.

Lemma with_time_twice i f s n s' n' :
  Inode.with_time (Inode.with_time i f s n) f s' n' = Inode.with_time i f s' n'.
Proof. destruct f; reflexivity. Qed.

Ltac field_cases f := destruct f; cbn [base_offset extra_offset] in *; offsets; zl.

(** Storing a word keeps the inode parseable. *)
Lemma parse_splice raw off v :
  bytes_ok raw → INODE_BASE_SIZE ≤ zlen raw → extra_ok raw → 0 ≤ off → off + 4 ≤ zlen raw →
  off + 4 ≤ OFF_EXTRA_ISIZE ∨ OFF_EXTRA_ISIZE + 2 ≤ off →
  let raw' := splice raw off (le_split 4 v) in
  bytes_ok raw' ∧ zlen raw' = zlen raw ∧ extra_ok raw' ∧ Inode.parse raw' = Ok (decode raw').
Proof.
  intros Hb Hl Hx Ho1 Ho2 Ho3 raw'.
  assert (bytes_ok raw') by (apply bytes_ok_splice; [done|apply bytes_ok_le_split]).
  assert (zlen raw' = zlen raw) by (unfold raw'; zl).
  assert (extra_ok raw') by (by apply extra_ok_splice).
  split_and!; try done. rewrite parse_eq by (done || lia). by rewrite decide_True.
Qed.

Lemma store_wide raw f s :
  bytes_ok raw → INODE_BASE_SIZE ≤ zlen raw → extra_ok raw →
  extra_field_fits raw (extra_offset f) = true → MIN_ENCODABLE_TIME ≤ s ≤ MAX_ENCODABLE_TIME →
  ∃ raw', (let '(base, era) := pack_seconds s in
           raw ← put_u32 raw (base_offset f) base; put_u32 raw (extra_offset f) era) = Ok raw' ∧
    zlen raw' = zlen raw ∧ bytes_ok raw' ∧
    Inode.parse raw' = Ok (Inode.with_time (decode raw) f s 0).
Proof.
  intros Hb Hl Hx He Hs. apply extra_field_fits_true in He as [He1 He2]; [|destruct f; by vm_compute].
  pose proof (unpack_pack s 0 Hs ltac:(lia)) as Hu.
  assert (Hera : 0 ≤ snd (pack_seconds s) < 4).
  { unfold pack_seconds, ERA_FIELD; simpl snd. change 3 with (2 ^ 2 - 1). rewrite land_ones_mod by lia.
    apply Z.mod_pos_bound. lia. }
  assert (Hbase : 0 ≤ fst (pack_seconds s) < 2 ^ 32) by apply as_u32_range.
  destruct (pack_seconds s) as [base era]; simpl fst in *; simpl snd in *.
  rewrite Z.shiftl_0_l, Z.lor_0_l in Hu. rewrite put_u32_ok by field_cases f. rewrite bind_Ok.
  destruct (parse_splice raw (base_offset f) base Hb Hl Hx) as (Hb1 & Hl1 & Hx1 & _); try field_cases f.
  set (raw1 := splice raw _ _) in *.
  destruct (parse_splice raw1 (extra_offset f) era Hb1 ltac:(lia) Hx1) as (Hb2 & Hl2 & _ & Hp2); try field_cases f.
  rewrite put_u32_ok by field_cases f. eexists; split; [reflexivity|]. split; [lia|]. split; [done|].
  assert (Hisz : le16 raw1 OFF_EXTRA_ISIZE = le16 raw OFF_EXTRA_ISIZE)
    by (apply le16_splice_ne; field_cases f).
  rewrite Hp2, decode_companion by (rewrite ?Hisz; lia). unfold raw1 at 1.
  rewrite decode_base by (try done; try field_cases f; intros ->; cbn in *; offsets; lia).
  rewrite with_time_twice. do 2 f_equal; [|rewrite Z.shiftr_div_pow2 by lia; apply Z.div_small; lia].
  rewrite <-Hu. f_equal. unfold raw1, base_word. destruct f; cbn in *; rewrite ?le32_splice by (offsets; lia); try done.
  rewrite x32_splice; [done|..]; offsets; lia.
Qed.

Lemma store_narrow raw f s :
  bytes_ok raw → INODE_BASE_SIZE ≤ zlen raw → extra_ok raw →
  extra_field_fits raw (extra_offset f) = false →
  bool_decide (f ≠ Crtime) || extra_field_fits raw (base_offset f) = true → i32_min ≤ s ≤ i32_max →
  ∃ raw', put_u32 raw (base_offset f) (as_u32 s) = Ok raw' ∧
    zlen raw' = zlen raw ∧ bytes_ok raw' ∧
    Inode.parse raw' = Ok (Inode.with_time (decode raw) f s (snd (Inode.time_of (decode raw) f))).
Proof.
  intros Hb Hl Hx He Hw Hs.
  assert (Hfit : base_offset f + 4 ≤ zlen raw ∧ (f = Crtime → 20 ≤ le16 raw OFF_EXTRA_ISIZE)).
  { destruct (decide (f = Crtime)) as [->|Hf].
    - simpl in Hw. apply extra_field_fits_true in Hw; [|by vm_compute]. cbn in *. offsets. lia.
    - split; [|done]. destruct f; [..|done]; cbn in *; offsets; lia. }
  destruct Hfit as [Hfit Hc].
  destruct (parse_splice raw (base_offset f) (as_u32 s) Hb Hl Hx) as (Hb1 & Hl1 & _ & Hp1);
    try field_cases f.
  rewrite put_u32_ok by field_cases f. eexists; split; [reflexivity|]. split; [done|]. split; [done|].
  rewrite Hp1, decode_base by (try done; apply as_u32_range). do 2 f_equal.
  assert (Hz : x32 raw (extra_offset f + 4 - INODE_EXTRA_OFFSET) (extra_offset f) = 0).
  { unfold x32. apply decide_False. intros [H1 H2]. apply not_true_iff_false in He. apply He.
    apply extra_field_fits_true; [destruct f; by vm_compute|]. specialize (Hx H1). lia. }
  rewrite Hz. by apply unpack_base.
Qed.

Lemma clamp_range lo hi x : lo ≤ hi → lo ≤ clamp lo hi x ≤ hi.
Proof. unfold clamp. lia. Qed.

(** ** Properties *)

(** Storing a timestamp in an inode that parses (any size from 128 bytes, any
    declared extra size) never panics and changes exactly that timestamp: the
    inode then parses as before with that time replaced by the requested second,
    clamped to 1901..2446 with zero nanoseconds where the companion word is in
    use, clamped to the signed 32-bit range where it is not, and left alone when
    the inode has no room for a creation time. *)
Lemma set_inode_time_spec raw i f secs :
  bytes_ok raw → Inode.parse raw = Ok i →
  ∃ raw', set_inode_time raw f secs = Ok raw' ∧ zlen raw' = zlen raw ∧ bytes_ok raw' ∧
    Inode.parse raw' = Ok (
      if extra_field_fits raw (extra_offset f)
      then Inode.with_time i f (clamp MIN_ENCODABLE_TIME MAX_ENCODABLE_TIME secs) 0
      else if bool_decide (f ≠ Crtime) || extra_field_fits raw (base_offset f)
      then Inode.with_time i f (clamp i32_min i32_max secs) (snd (Inode.time_of i f)) else i).
Proof.
  intros Hb Hp. assert (Hl : INODE_BASE_SIZE ≤ zlen raw).
  { unfold Inode.parse in Hp. case_decide; [done|]. lia. }
  rewrite parse_eq in Hp by done. case_decide as Hx; [|done]. injection Hp as <-.
  unfold set_inode_time. destruct (extra_field_fits raw (extra_offset f)) eqn:He.
  - apply store_wide; try done. by apply clamp_range.
  - destruct (_ || _) eqn:Hw.
    + apply store_narrow; try done. by apply clamp_range.
    + exists raw. split; [done|]. split; [done|]. split; [done|]. by rewrite parse_eq, decide_True.
Qed.

(** A 256-byte inode with [i_extra_isize] 32, and a 128-byte one. *)
Definition sample_inode : bytes :=
  le_split 2 0x81A4 ++ zrep 126 0 ++ le_split 2 32 ++ zrep 126 0.

Lemma set_inode_time_spec_witness :
  ∃ i raw', Inode.parse sample_inode = Ok i ∧
    set_inode_time sample_inode Mtime 4102444800 = Ok raw' ∧
    Inode.parse raw' = Ok (Inode.with_time i Mtime 4102444800 0) ∧
    le32 raw' OFF_MTIME = 4102444800 ∧ le32 raw' 0x88 = 1.
Proof.
  destruct (Inode.parse sample_inode) as [i|e| |] eqn:Ei; try (vm_compute in Ei; discriminate).
  destruct (set_inode_time_spec sample_inode i Mtime 4102444800) as (raw' & E & _ & _ & Hp);
    [by_compute|exact Ei|].
  exists i, raw'. split; [reflexivity|]. split; [exact E|]. split; [exact Hp|].
  clear - E. vm_compute in E. injection E as <-. split; vm_compute; reflexivity.
Defined.
