(* ===== verification/Indirect.v ===== *)
(** Indirect: the direct/indirect block-pointer scheme of ext2 and ext3 files
    (src/src/indirect.rs): the single-entry cache of indirect blocks, the
    four-tier [lookup] and the dispatch [map_logical_any].  The specification
    is the list of slots that leads from the inode to a logical block. *)
From S2P Require Import Prelude Errors Bytes Device Checksum Extent Inode.

Module Indirect.

Definition DIRECT_COUNT : Z := 12.

Definition ppb (block_size : Z) : Z := block_size / 4.

Definition ptr_at (buf : bytes) (i : Z) : res Z := u32_le buf (i * 4).

(** ** The cache of the last indirect block read *)
Definition IndirectCache : Type := option (Z * bytes).
Definition new : IndirectCache := None.

Section lookup.
Context (dev : reader) (block_size : Z).

Definition read_through (block_no : Z) : res bytes :=
  byte_off ← ok_or (checked_mul64 block_no block_size)
                   (Corrupt "indirect: block byte offset overflow");
  rd_read dev byte_off block_size.

Definition get (block_no : Z) : dev_m IndirectCache bytes := λ cached,
  let needs_read := match cached with Some (b, _) => negb (bool_decide (b = block_no)) | None => true end in
  if needs_read then
    match read_through block_no with
    | Ok buf => (Ok buf, Some (block_no, buf))
    | r => (r, cached)
    end
  else (match cached with Some (_, buf) => Ok buf | None => Panic end, cached).

Definition some_nonzero (phys : Z) : option Z := if decide (phys = 0) then None else Some phys.

(** A pointer that must be followed: [0] ends the lookup in a hole. *)
Definition through (blk : Z) (k : bytes → dev_m IndirectCache (option Z))
    : dev_m IndirectCache (option Z) :=
  if decide (blk = 0) then mret None else buf ← get blk; k buf.

Definition last_ptr (buf : bytes) (idx : Z) : dev_m IndirectCache (option Z) :=
  phys ← dev_lift (ptr_at buf idx); mret (some_nonzero phys).

Definition lookup (i_block : bytes) (logical : Z) : dev_m IndirectCache (option Z) :=
  if bool_decide (block_size < 1024) || negb (is_power_of_two block_size)
  then dev_lift (Err (Corrupt "indirect: block_size out of range")) else
  let ppb := ppb block_size in
  if decide (logical < DIRECT_COUNT) then last_ptr i_block logical else
  let single_base := DIRECT_COUNT in
  let single_end := single_base + ppb in
  if decide (logical < single_end) then
    single_blk ← dev_lift (ptr_at i_block 12);
    through single_blk (λ buf, last_ptr buf (logical - single_base))
  else
  let double_base := single_end in
  let double_end := double_base + ppb * ppb in
  if decide (logical < double_end) then
    double_blk ← dev_lift (ptr_at i_block 13);
    through double_blk (λ outer_buf,
      let off := logical - double_base in
      inner_blk ← dev_lift (ptr_at outer_buf (off / ppb));
      through inner_blk (λ inner_buf, last_ptr inner_buf (off mod ppb)))
  else
  let triple_base := double_end in
  let triple_end := as_u64 (triple_base + as_u64 (ppb * ppb * ppb)) in
  if decide (logical < triple_end) then
    triple_blk ← dev_lift (ptr_at i_block 14);
    through triple_blk (λ l1_buf,
      let off := logical - triple_base in
      let rem := off mod (ppb * ppb) in
      l2_blk ← dev_lift (ptr_at l1_buf (off / (ppb * ppb)));
      through l2_blk (λ l2_buf,
        l3_blk ← dev_lift (ptr_at l2_buf (rem / ppb));
        through l3_blk (λ l3_buf, last_ptr l3_buf (rem mod ppb))))
  else dev_lift (Err (Corrupt "indirect: logical block exceeds triple-indirect address space")).

Definition map_logical_any `{Crc32c} (i_block : bytes) (inode_flags logical_block : Z)
    : res (option Z) :=
  if decide (Z.land inode_flags InodeFlags.EXTENTS ≠ 0)
  then map_logical dev block_size i_block logical_block
  else fst (lookup i_block logical_block new).

(** ** Specification: the slots on the way to a logical block *)

(** The slot of [i_block], then the slot of each pointer block below it. *)
Definition block_path (p l : Z) : option (list Z) :=
  if decide (l < 12) then Some [l] else
  let s := l - 12 in
  if decide (s < p) then Some [12; s] else
  let d := s - p in
  if decide (d < p * p) then Some [13; d / p; d mod p] else
  let t := d - p * p in
  if decide (t < p * p * p) then Some [14; t / (p * p); (t / p) mod p; t mod p] else None.

(** The logical block a path leads to. *)
Definition path_block (p : Z) (path : list Z) : Z :=
  match path with
  | [i] => i
  | [_; i] => 12 + i
  | [_; i; j] => 12 + p + (i * p + j)
  | [_; i; j; k] => 12 + p + p * p + ((i * p + j) * p + k)
  | _ => -1
  end.

(** Follow a path, reading every pointer block from the device. *)
Fixpoint chase (buf : bytes) (path : list Z) : res (option Z) :=
  match path with
  | [] => Ok None
  | [i] => phys ← ptr_at buf i; Ok (some_nonzero phys)
  | i :: rest =>
      blk ← ptr_at buf i;
      if decide (blk = 0) then Ok None else b ← read_through blk; chase b rest
  end.

Definition lookup_ref (i_block : bytes) (l : Z) : res (option Z) :=
  match block_path (ppb block_size) l with
  | Some path => chase i_block path
  | None => Err (Corrupt "indirect: logical block exceeds triple-indirect address space")
  end.

(** A cache holds what the device holds. *)
Definition coherent (c : IndirectCache) : Prop :=
  match c with Some (b, buf) => read_through b = Ok buf | None => True end.

End lookup.

(** ** Lemmas *)
Section proofs.
Context (dev : reader) (bs : Z).

(** [m] run from a coherent cache returns [r] and leaves a coherent cache. *)
Definition yields {A} (m : dev_m IndirectCache A) (r : res A) : Prop :=
  ∀ c, coherent dev bs c → ∃ c', m c = (r, c') ∧ coherent dev bs c'.

Lemma yields_lift {A} (r : res A) : yields (dev_lift r) r.
Proof. intros c Hc. by exists c. Qed.

Lemma yields_bind {A B} (m : dev_m IndirectCache A) (f : A → dev_m IndirectCache B) r g :
  yields m r → (∀ a, yields (f a) (g a)) → yields (m ≫= f) (r ≫= g).
Proof.
  intros Hm Hf c Hc. destruct (Hm c Hc) as (c1 & E & Hc1).
  unfold mbind at 1, dev_bind. rewrite E.
  destruct r as [a|e| |]; simpl; eauto. by apply Hf.
Qed.

Lemma yields_get b : yields (get dev bs b) (read_through dev bs b).
Proof.
  intros c Hc. unfold get. destruct c as [[b0 buf]|]; simpl.
  - destruct (decide (b0 = b)) as [->|Hne].
    + rewrite bool_decide_true by done. simpl in *. rewrite Hc. by eexists.
    + rewrite bool_decide_false by done. simpl.
      destruct (read_through dev bs b) eqn:E; eexists; (split; [done|]); simpl; eauto.
  - destruct (read_through dev bs b) eqn:E; eexists; (split; [done|]); simpl; eauto.
Qed.

Lemma yields_last buf i : yields (last_ptr buf i) (chase dev bs buf [i]).
Proof. apply yields_bind; [apply yields_lift|]. intros p c Hc. by exists c. Qed.

Lemma yields_through blk k g :
  (∀ buf, yields (k buf) (g buf)) →
  yields (through dev bs blk k) (if decide (blk = 0) then Ok None else read_through dev bs blk ≫= g).
Proof.
  intros Hk. unfold through. case_decide; [intros c Hc; by exists c|].
  apply yields_bind; [apply yields_get|done].
Qed.

Lemma yields_step buf i path k :
  path ≠ [] → (∀ b, yields (k b) (chase dev bs b path)) →
  yields (blk ← dev_lift (ptr_at buf i); through dev bs blk k) (chase dev bs buf (i :: path)).
Proof.
  intros Hne Hk. destruct path as [|j path]; [done|]. simpl chase.
  apply yields_bind; [apply yields_lift|]. intros blk. by apply yields_through.
Qed.

(** A usable block size. *)
Definition block_size_ok : Prop := 1024 ≤ bs ≤ 65536 ∧ is_power_of_two bs = true.

Lemma ppb_range : block_size_ok → 256 ≤ ppb bs ≤ 16384.
Proof. intros [[H1 H2] _]. unfold ppb. split; [apply Z.div_le_lower_bound|apply Z.div_le_upper_bound]; lia. Qed.

Lemma mod_square t p : 0 < p →
  t mod (p * p) / p = (t / p) mod p ∧ (t mod (p * p)) mod p = t mod p.
Proof.
  intros Hp. rewrite Z.rem_mul_r by lia. pose proof (Z.mod_pos_bound t p Hp).
  replace (t mod p + p * ((t / p) mod p)) with ((t / p) mod p * p + t mod p) by lia.
  split; [rewrite Z.div_add_l, (Z.div_small (t mod p)) by lia; lia|].
  rewrite Z.add_comm, Z.mod_add, Z.mod_mod by lia. done.
Qed.

Lemma lookup_yields i_block l : block_size_ok → yields (lookup dev bs i_block l) (lookup_ref dev bs i_block l).
Proof.
  intros Hbs. pose proof (ppb_range Hbs) as Hp. destruct Hbs as [Hb Hpow].
  unfold lookup, lookup_ref, block_path. rewrite bool_decide_false, Hpow by lia. simpl orb. cbv iota.
  set (p := ppb bs) in *. unfold DIRECT_COUNT.
  assert (0 < p * p ≤ 2 ^ 28) by nia.
  assert (0 < p * p * p ≤ 2 ^ 42) by nia.
  replace (as_u64 (12 + p + p * p + as_u64 (p * p * p))) with (12 + p + p * p + p * p * p)
    by (unfold as_u64; rewrite (Z.mod_small (p * p * p)) by lia; rewrite Z.mod_small; lia).
  destruct (decide (l < 12)); [apply yields_last|].
  destruct (decide (l < 12 + p)).
  { rewrite decide_True by lia. apply yields_step; [done|]. intros b. apply yields_last. }
  rewrite (decide_False (P := l - 12 < p)) by lia.
  destruct (decide (l < 12 + p + p * p)).
  { rewrite decide_True by lia. replace (l - 12 - p) with (l - (12 + p)) by lia.
    do 2 (apply yields_step; [done|]; intros ?). apply yields_last. }
  rewrite (decide_False (P := l - 12 - p < p * p)) by lia.
  destruct (decide (l < 12 + p + p * p + p * p * p)).
  - rewrite decide_True by lia. replace (l - 12 - p - p * p) with (l - (12 + p + p * p)) by lia.
    set (t := l - (12 + p + p * p)).
    destruct (mod_square t p ltac:(lia)) as [<- <-].
    do 3 (apply yields_step; [done|]; intros ?). apply yields_last.
  - rewrite decide_False by lia. apply yields_lift.
Qed.

Lemma block_path_sound p l path : 0 < p → 0 ≤ l → block_path p l = Some path →
  path_block p path = l ∧
  ∃ i rest, path = i :: rest ∧ 0 ≤ i < 15 ∧ Forall (λ j, 0 ≤ j < p) rest.
Proof.
  intros Hp Hl. unfold block_path.
  assert (Hd : ∀ x, x / p * p + x mod p = x) by (intros x; rewrite (Z.div_mod x p) at 3; lia).
  destruct (decide (l < 12)); [intros [= <-]; split; [done|]; eexists _, _; split; [done|]; split; [lia|constructor]|].
  destruct (decide (_ < p)); [intros [= <-]; split; [simpl; lia|]; eexists _, _;
    split; [done|]; split; [lia|]; repeat constructor; lia|].
  destruct (decide (_ < p * p)).
  { intros [= <-]. simpl. rewrite Hd. split; [lia|]. eexists _, _. split; [done|]. split; [lia|].
    pose proof (Z.mod_pos_bound (l - 12 - p) p).
    pose proof (Z.div_lt_upper_bound (l - 12 - p) p p). pose proof (Z.div_pos (l - 12 - p) p).
    repeat constructor; lia. }
  destruct (decide _); [|done]. intros [= <-]. simpl. set (t := l - 12 - p - p * p) in *.
  rewrite <-(Z.div_div t p p) by lia. rewrite Hd, Hd. split; [lia|]. eexists _, _. split; [done|]. split; [lia|].
  pose proof (Z.mod_pos_bound t p). pose proof (Z.mod_pos_bound (t / p) p).
  pose proof (Z.div_lt_upper_bound (t / p) p p). pose proof (Z.div_pos (t / p) p).
  pose proof (Z.div_lt_upper_bound t p (p * p)). pose proof (Z.div_pos t p).
  repeat constructor; lia.
Qed.

Lemma ptr_at_returns buf i : 0 ≤ i → i * 4 + 4 ≤ zlen buf → returns (ptr_at buf i).
Proof. intros. unfold ptr_at. by rewrite u32_le_ok by lia. Qed.

Lemma read_through_spec `{!ReaderOk dev} b : 0 ≤ bs →
  returns (read_through dev bs b) ∧ ∀ buf, read_through dev bs b = Ok buf → zlen buf = bs.
Proof.
  intros H. unfold read_through. destruct (checked_mul64 b bs); simpl; [|done].
  split; [apply rd_returns|]. intros buf E. by apply (rd_len z bs).
Qed.

Lemma chase_returns `{!ReaderOk dev} buf path : 0 ≤ bs →
  match path with
  | [] => True
  | i :: rest => 0 ≤ i ∧ i * 4 + 4 ≤ zlen buf ∧ Forall (λ j, 0 ≤ j < ppb bs) rest
  end → returns (chase dev bs buf path).
Proof.
  intros Hbs. revert buf. induction path as [|i path IH]; intros buf; [done|].
  intros (H0 & H1 & H2). simpl. destruct path as [|j path].
  - apply bind_returns; [by apply ptr_at_returns|done].
  - apply bind_returns; [by apply ptr_at_returns|]. intros blk _. case_decide; [done|].
    destruct (read_through_spec blk Hbs) as [Hr Hz]. apply bind_returns; [done|].
    intros b Eb. apply IH. rewrite (Hz b Eb). inversion H2; subst.
    split; [lia|]. split; [|done].
    pose proof (Z.mul_div_le bs 4 ltac:(lia)). unfold ppb in *. lia.
Qed.

Lemma lookup_ref_returns `{!ReaderOk dev} i_block l : block_size_ok → zlen i_block = 60 → 0 ≤ l →
  returns (lookup_ref dev bs i_block l).
Proof.
  intros Hbs Hi Hl. pose proof (ppb_range Hbs) as Hp.
  unfold lookup_ref. destruct (block_path (ppb bs) l) as [path|] eqn:E; [|done].
  destruct (block_path_sound (ppb bs) l path ltac:(lia) Hl E) as (_ & i & rest & -> & H1 & H2).
  destruct Hbs as [Hb _]. apply chase_returns; [lia|]. split_and!; [lia|lia|done].
Qed.

Lemma map_logical_any_returns `{Crc32c} `{!ReaderOk dev} i_block fl l :
  block_size_ok → zlen i_block = 60 → 0 ≤ l → returns (map_logical_any dev bs i_block fl l).
Proof.
  intros Hbs Hi Hl. unfold map_logical_any. case_decide.
  - unfold map_logical, map_logical_verified, lookup_verified, check_depth.
    apply bind_returns; [|intros [e|] _; [by destruct (Extent.uninitialized e)|done]].
    apply bind_returns; [apply header_parse_returns|]. intros h _.
    apply bind_returns; [by case_decide|]. intros _ _. by apply lookup_loop_safe.
  - destruct (lookup_yields i_block l Hbs new I) as (c' & -> & _). by apply lookup_ref_returns.
Qed.

End proofs.

(** ** Properties *)

(** C23: whatever the cache held, [lookup] returns what following the block's
    path of slots from the inode returns, reading every pointer block from the
    device (so the cache is invisible, and stays truthful for the next call);
    the lookup never panics, and the path has at most one inode slot in
    [0, 15) and slots below [block_size / 4] after it, a different path for
    every logical block. *)
Theorem indirect_lookup_spec dev `{!ReaderOk dev} bs i_block l c :
  block_size_ok bs → zlen i_block = 60 → 0 ≤ l → coherent dev bs c →
  (∃ c', lookup dev bs i_block l c = (lookup_ref dev bs i_block l, c') ∧ coherent dev bs c') ∧
  returns (lookup_ref dev bs i_block l) ∧
  (∀ path, block_path (ppb bs) l = Some path → path_block (ppb bs) path = l ∧
     ∃ i rest, path = i :: rest ∧ 0 ≤ i < 15 ∧ Forall (λ j, 0 ≤ j < ppb bs) rest).
Proof.
  intros Hbs Hi Hl Hc. pose proof (ppb_range bs Hbs) as Hp.
  split; [by apply lookup_yields|].
  assert (Hpath : ∀ path, block_path (ppb bs) l = Some path → _) by
    (intros path; exact (block_path_sound (ppb bs) l path ltac:(lia) Hl)).
  split; [by apply lookup_ref_returns|done].
Qed.

(** A 1 KiB-block image whose block 1 is a single-indirect block. *)
Definition sample_image : bytes :=
  zrep 1024 0 ++ le_split 4 7 ++ le_split 4 0 ++ le_split 4 9 ++ zrep 1012 0.
Definition sample_i_block : bytes := zrep 48 0 ++ le_split 4 1 ++ zrep 8 0.

Lemma indirect_lookup_spec_witness :
  fst (lookup (image_reader sample_image) 1024 sample_i_block 14 new) = Ok (Some 9) ∧
  returns (lookup_ref (image_reader sample_image) 1024 sample_i_block 14).
Proof.
  assert (Hr : ReaderOk (image_reader sample_image)) by (apply image_reader_ok; by_compute).
  destruct (indirect_lookup_spec (image_reader sample_image) 1024 sample_i_block 14 new)
    as ((c' & E & _) & H & _); [split; [lia|reflexivity]|reflexivity|lia|exact I|].
  split; [rewrite E; vm_compute; reflexivity|exact H].
Defined.

End Indirect.
