(* ===== verification/IndirectMut.v ===== *)
(** IndirectMut: writing and releasing the pointer trees of block-mapped files
    (src/src/indirect_mut.rs): how many pointer blocks a file needs, the plan
    that maps a file onto one contiguous run, and the walk that lists what a
    truncated file gives back.  Both are related to [Indirect.lookup]. *)
From stdpp Require Import sorting.
From Stdlib Require Import Sorting.Sorted.
From S2P Require Import Prelude Errors Bytes Device Checksum Extent Inode Indirect.

Module IndirectMut.

Definition DIRECT_COUNT : Z := 12.

Definition ppb (block_size : Z) : Z := block_size / 4.

Definition write_u32_le (buf : bytes) (idx val : Z) : res bytes := put_u32 buf (idx * 4) val.
Definition read_u32_le (buf : bytes) (idx : Z) : res Z := u32_le buf (idx * 4).

(** ** Planning *)

Record IndirectPlan := mkPlan {
  i_block : bytes;
  block_writes : list (Z * bytes);
  indirect_blocks_allocated : list Z;
}.

Definition count_indirect_blocks (data_blocks block_size : Z) : Z :=
  let ppb := block_size / 4 in
  if decide (ppb = 0) then 0 else
  if decide (data_blocks ≤ DIRECT_COUNT) then 0 else
  let remaining := data_blocks - DIRECT_COUNT in
  let count := 1 in
  if decide (remaining ≤ ppb) then count else
  let remaining := remaining - ppb in
  let count := count + 1 in
  let in_double := Z.min remaining (ppb * ppb) in
  let count := count + div_ceil in_double ppb in
  if decide (remaining ≤ ppb * ppb) then count else
  let remaining := remaining - ppb * ppb in
  let count := count + 1 in
  let in_triple := Z.min remaining (as_u64 (ppb * ppb * ppb)) in
  let l2_count := div_ceil in_triple (ppb * ppb) in
  let l3_count := div_ceil in_triple ppb in
  count + (l2_count + l3_count).

Definition check_u32 (v : Z) : res unit :=
  if decide (u32_max < v)
  then Err (Corrupt "indirect_mut: indirect block address exceeds u32 (ext2/3 cap)") else Ok tt.

Section plan.
Context {A : Type} (alloc_one : A → res (Z * A)) (first_data_phys block_size : Z).

(** The planner's locals: what it has pushed, the blocks left to map and the
    number mapped, and what the caller's allocator has become. *)
Record progress := mkProgress {
  writes : list (Z * bytes);
  allocated : list Z;
  remaining : Z;
  logical_offset : Z;
  allocator : A;
}.

Definition emit_data_ptrs (buf : bytes) (idx n base : Z) : res bytes :=
  foldM (λ buf i, write_u32_le buf (idx + i) (as_u32 (base + i))) buf (seqZ 0 n).

(** One more pointer block, in slot [idx] of its parent. *)
Definition new_node (parent : bytes) (idx : Z) (st : progress) : res (Z * bytes * progress) :=
  '(blk, a) ← alloc_one (allocator st);
  _ ← check_u32 blk;
  parent ← write_u32_le parent idx (as_u32 blk);
  Ok (blk, parent, mkProgress (writes st) (allocated st ++ [blk]) (remaining st) (logical_offset st) a).

Definition push_write (blk : Z) (buf : bytes) (st : progress) : progress :=
  mkProgress (writes st ++ [(blk, buf)]) (allocated st) (remaining st) (logical_offset st) (allocator st).

(** A block of data pointers. *)
Definition fill_leaf (blk : Z) (st : progress) : res progress :=
  let n := Z.min (remaining st) (ppb block_size) in
  buf ← emit_data_ptrs (zrep block_size 0) 0 n (as_u32 (first_data_phys + logical_offset st));
  let st := push_write blk buf st in
  Ok (mkProgress (writes st) (allocated st) (remaining st - n) (logical_offset st + n) (allocator st)).

(** A block of pointers to [children] nodes, each filled by [fill]. *)
Definition fill_children (fill : Z → progress → res progress) (children : Z) (st : progress)
    : res (bytes * progress) :=
  foldM (λ '(buf, st) idx,
    '(blk, buf, st) ← new_node buf idx st;
    st ← fill blk st;
    Ok (buf, st)) (zrep block_size 0, st) (seqZ 0 children).

Definition fill_double (blk : Z) (st : progress) : res progress :=
  let p := ppb block_size in
  let tier_count := as_u32 (Z.min (remaining st) (p * p)) in
  '(buf, st) ← fill_children fill_leaf (div_ceil tier_count p) st;
  Ok (push_write blk buf st).

Definition fill_triple (blk : Z) (st : progress) : res progress :=
  let p := ppb block_size in
  let tier_count := as_u32 (Z.min (remaining st) (as_u64 (p * p * p))) in
  if decide (as_u32 (p * p) = 0) then Panic else
  '(buf, st) ← fill_children fill_double (div_ceil tier_count (as_u32 (p * p))) st;
  Ok (push_write blk buf st).

Definition plan_of (i_block : bytes) (st : progress) : IndirectPlan * A :=
  (mkPlan i_block (writes st) (allocated st), allocator st).

(** A tier of pointer blocks under slot [slot] of the inode. *)
Definition tier (slot : Z) (fill : Z → progress → res progress) (i_block : bytes) (st : progress)
    : res (bytes * progress) :=
  '(blk, i_block, st) ← new_node i_block slot st;
  st ← fill blk st;
  Ok (i_block, st).

Definition plan_contiguous (data_block_count : Z) (a : A) : res (IndirectPlan * A) :=
  if negb (is_power_of_two block_size) || bool_decide (block_size < 1024)
  then Err (InvalidArgument "indirect_mut: block_size out of range") else
  if decide (ppb block_size = 0)
  then Err (InvalidArgument "indirect_mut: block_size too small for any pointers") else
  last_data_phys ← ok_or (checked_add64 first_data_phys (saturating_sub data_block_count 1))
                         (InvalidArgument "indirect_mut: physical address overflow");
  if decide (u32_max < last_data_phys)
  then Err (InvalidArgument "indirect_mut: data physical block exceeds u32 (ext2/3 cap)") else
  let direct_count := Z.min data_block_count DIRECT_COUNT in
  i_block ← emit_data_ptrs (zrep 60 0) 0 direct_count (as_u32 first_data_phys);
  let st := mkProgress [] [] (data_block_count - direct_count) direct_count a in
  if decide (remaining st = 0) then Ok (plan_of i_block st) else
  '(i_block, st) ← tier 12 fill_leaf i_block st;
  if decide (remaining st = 0) then Ok (plan_of i_block st) else
  '(i_block, st) ← tier 13 fill_double i_block st;
  if decide (remaining st = 0) then Ok (plan_of i_block st) else
  '(i_block, st) ← tier 14 fill_triple i_block st;
  if decide (0 < remaining st)
  then Err (InvalidArgument "indirect_mut: data block count exceeds triple-indirect address space")
  else Ok (plan_of i_block st).
End plan.
Arguments progress : clear implicits.

(** ** Releasing *)

Record FreeRun := mkRun { start : Z; len : Z }.
Record FreedBlocks := mkFreed { data_runs : list FreeRun; indirect_blocks : list Z }.

Definition coalesce_runs (sorted : list Z) : list FreeRun :=
  foldl (λ out b,
    match last out with
    | Some l => if decide (start l + len l = b) then removelast out ++ [mkRun (start l) (as_u32 (len l + 1))]
                else out ++ [mkRun b 1]
    | None => out ++ [mkRun b 1]
    end) [] sorted.

(** [v.sort_unstable(); v.dedup()] *)
Fixpoint dedup (l : list Z) : list Z :=
  match l with
  | x :: (y :: _) as rest => if decide (x = y) then dedup rest else x :: dedup rest
  | _ => l
  end.
Definition sort_dedup (l : list Z) : list Z := dedup (merge_sort Z.le l).

Section collect.
Context (dev : reader) (block_size : Z).

Definition read_block (block_no : Z) : res bytes :=
  off ← ok_or (checked_mul64 block_no block_size) (Corrupt "indirect_mut: block byte offset overflow");
  rd_read dev off block_size.

(** The walk's locals: the data and pointer blocks found, the blocks left. *)
Record walk := mkWalk { data_blocks : list Z; pointer_blocks : list Z; left : Z }.

Definition skip (n : Z) (w : walk) : walk :=
  mkWalk (data_blocks w) (pointer_blocks w) (saturating_sub (left w) n).
Definition push_pointer (blk : Z) (w : walk) : walk :=
  mkWalk (data_blocks w) (pointer_blocks w ++ [blk]) (left w).

(** The nonzero pointers among the first [take]. *)
Definition take_ptrs (buf : bytes) (take : Z) (data : list Z) : res (list Z) :=
  foldM (λ data i, p ← read_u32_le buf i; Ok (if decide (p = 0) then data else data ++ [p])) data (seqZ 0 take).

Definition collect_leaf (blk : Z) (w : walk) : res walk :=
  let w := push_pointer blk w in
  buf ← read_block blk;
  let take := Z.min (left w) (ppb block_size) in
  data ← take_ptrs buf take (data_blocks w);
  Ok (skip take (mkWalk data (pointer_blocks w) (left w))).

(** The nodes in the first [children] slots of [buf], each over [cap] blocks. *)
Definition collect_children (visit : Z → walk → res walk) (cap : Z) (buf : bytes) (children : Z) (w : walk)
    : res walk :=
  foldM (λ w idx,
    blk ← read_u32_le buf idx;
    if decide (blk = 0) then Ok (skip cap w) else visit blk w) w (seqZ 0 children).

Definition collect_double (blk : Z) (w : walk) : res walk :=
  let p := ppb block_size in
  let w := push_pointer blk w in
  outer ← read_block blk;
  let outer_take := div_ceil (Z.min (left w) (p * p)) p in
  collect_children collect_leaf p outer outer_take w.

Definition collect_triple (blk : Z) (w : walk) : res walk :=
  let p := ppb block_size in
  let w := push_pointer blk w in
  l1 ← read_block blk;
  let l2_count := div_ceil (Z.min (left w) (as_u64 (p * p * p))) (p * p) in
  collect_children collect_double (p * p) l1 l2_count w.

(** The tree under slot [slot] of the inode, over [cap] blocks. *)
Definition collect_tier (i_block : bytes) (slot cap : Z) (visit : Z → walk → res walk) (w : walk) : res walk :=
  blk ← read_u32_le i_block slot;
  if decide (0 < left w ∧ blk ≠ 0) then visit blk w else Ok (skip cap w).

Definition collect_for_free (i_block : bytes) (expected_data_blocks : Z) : res FreedBlocks :=
  if negb (is_power_of_two block_size) || bool_decide (block_size < 1024)
  then Err (InvalidArgument "indirect_mut: block_size out of range") else
  let p := ppb block_size in
  let direct_count := Z.min expected_data_blocks DIRECT_COUNT in
  data ← take_ptrs i_block direct_count [];
  let w := mkWalk data [] (saturating_sub expected_data_blocks direct_count) in
  w ← collect_tier i_block 12 p collect_leaf w;
  w ← collect_tier i_block 13 (p * p) collect_double w;
  w ← collect_tier i_block 14 0 collect_triple w;
  Ok (mkFreed (coalesce_runs (sort_dedup (data_blocks w))) (sort_dedup (pointer_blocks w))).
End collect.

(** ** Specification *)

(** What following [path] from [buf] reads: the block it leads to, and the
    pointer blocks on the way. *)
Section reference.
Context (dev : reader) (bs : Z).

Fixpoint trail (buf : bytes) (path : list Z) : res (option Z * list Z) :=
  match path with
  | [] => Ok (None, [])
  | [i] => phys ← Indirect.ptr_at buf i; Ok (Indirect.some_nonzero phys, [])
  | i :: rest =>
      blk ← Indirect.ptr_at buf i;
      if decide (blk = 0) then Ok (None, []) else
      b ← Indirect.read_through dev bs blk;
      '(r, ns) ← trail b rest;
      Ok (r, blk :: ns)
  end.

(** The blocks a block map addresses. *)
Definition span (p : Z) : Z := 12 + p + p * p + p * p * p.

Definition block_trail (i_block : bytes) (l : Z) : res (option Z * list Z) :=
  match Indirect.block_path (Indirect.ppb bs) l with
  | Some path => trail i_block path
  | None => Err (Corrupt "indirect: logical block exceeds triple-indirect address space")
  end.

Lemma trail_chase buf path : (fst <$> trail buf path) = Indirect.chase dev bs buf path.
Proof.
  revert buf. induction path as [|i path IH]; intros buf; [done|]. cbn [trail Indirect.chase].
  destruct path as [|j path].
  - by destruct (Indirect.ptr_at buf i).
  - destruct (Indirect.ptr_at buf i) as [blk| | |]; try done. cbn [mbind res_bind]. case_decide; [done|].
    destruct (Indirect.read_through dev bs blk) as [b| | |]; try done. cbn [mbind res_bind].
    rewrite <-IH. by destruct (trail b (j :: path)) as [[r ns]| | |].
Qed.

Lemma block_trail_lookup i_block l : (fst <$> block_trail i_block l) = Indirect.lookup_ref dev bs i_block l.
Proof. unfold block_trail, Indirect.lookup_ref. destruct (Indirect.block_path _ l); [apply trail_chase|done]. Qed.
End reference.

(** ** Traversals *)

Lemma traverse_ext {A B} (f g : A → res B) l : (∀ x, x ∈ l → f x = g x) → traverse f l = traverse g l.
Proof.
  induction l as [|x l IH]; intros H; [done|]. cbn [traverse]. rewrite H by set_solver.
  rewrite IH by set_solver. done.
Qed.

Lemma traverse_fmap {A B C} (f : B → res C) (g : A → B) l : traverse f (g <$> l) = traverse (λ x, f (g x)) l.
Proof. induction l as [|x l IH]; [done|]. rewrite fmap_cons. cbn [traverse]. by rewrite IH. Qed.

Lemma traverse_shift {B} (f : Z → res B) a n : traverse f (seqZ a n) = traverse (λ j, f (a + j)) (seqZ 0 n).
Proof.
  rewrite <-(traverse_fmap f (λ j, a + j)). f_equal. replace a with (a + 0) at 1 by lia.
  rewrite <-fmap_add_seqZ. done.
Qed.

(** A computation shared by every element is run once. *)
Lemma traverse_share {A B C} (m : res C) (f : C → A → res B) l :
  l ≠ [] → traverse (λ x, c ← m; f c x) l = (c ← m; traverse (f c) l).
Proof.
  intros Hl. destruct m as [c|e| |]; cbn [mbind res_bind].
  - by apply traverse_ext.
  - destruct l; [done|]. done.
  - destruct l; [done|]. done.
  - destruct l; [done|]. done.
Qed.

Lemma traverse_fmap_res {A B C} (f : A → res B) (g : B → C) l :
  traverse (λ x, g <$> f x) l = ((fmap (M:=list) g) <$> traverse f l).
Proof.
  induction l as [|x l IH]; [done|]. cbn [traverse]. rewrite IH.
  destruct (f x); try done. cbn. by destruct (traverse f l).
Qed.

(** ** Sorted lists of blocks *)

Lemma dedup_spec l : StronglySorted Z.le l →
  StronglySorted Z.lt (dedup l) ∧ ∀ b, b ∈ dedup l ↔ b ∈ l.
Proof.
  induction l as [|x l IH]; intros Hs; [split; [constructor|done]|].
  apply StronglySorted_inv in Hs as [Hs Hx]. destruct (IH Hs) as [IH1 IH2].
  cbn [dedup]. destruct l as [|y l]; [split; [repeat constructor|done]|].
  destruct (decide (x = y)) as [->|Hne].
  - split; [done|]. intros b. rewrite IH2, !elem_of_cons. tauto.
  - split.
    + constructor; [done|]. apply Forall_forall. intros b Hb%IH2.
      apply StronglySorted_inv in Hs as [_ Hy]. rewrite Forall_forall in Hx, Hy.
      pose proof (Hx y ltac:(set_solver)). apply elem_of_cons in Hb as [->|Hb]; [lia|]. specialize (Hy b Hb). lia.
    + intros b. rewrite elem_of_cons, IH2, (elem_of_cons (y :: l)). done.
Qed.

Lemma sort_dedup_spec l : StronglySorted Z.lt (sort_dedup l) ∧ ∀ b, b ∈ sort_dedup l ↔ b ∈ l.
Proof.
  destruct (dedup_spec (merge_sort Z.le l)) as [H1 H2].
  { apply StronglySorted_merge_sort; [intros a b c; lia|intros a b; lia]. }
  split; [exact H1|]. intros b. rewrite H2. by rewrite merge_sort_Permutation.
Qed.

(** The blocks of a run. *)
Definition run_blocks (r : FreeRun) : list Z := seqZ (start r) (len r).

(** Runs in order, no two of which touch. *)
Fixpoint runs_apart (rs : list FreeRun) : Prop :=
  match rs with
  | r :: (r' :: _) as rest => 0 < len r ∧ start r + len r < start r' ∧ runs_apart rest
  | [r] => 0 < len r
  | [] => True
  end.

Lemma runs_apart_snoc rs r l : runs_apart (rs ++ [l]) → 0 < len r → start l + len l < start r →
  runs_apart ((rs ++ [l]) ++ [r]).
Proof.
  induction rs as [|x rs IH]; intros H Hr Hl; [done|].
  destruct rs as [|y rs]; cbn in *; [tauto|]. destruct H as (H1 & H2 & H3). split; [done|]. split; [done|].
  by apply IH.
Qed.

Lemma runs_apart_grow rs l l' : runs_apart (rs ++ [l]) → start l' = start l → 0 < len l' →
  runs_apart (rs ++ [l']).
Proof.
  induction rs as [|x rs IH]; intros H Hs Hl; [done|].
  destruct rs as [|y rs]; cbn in *; [rewrite Hs; tauto|]. destruct H as (H1 & H2 & H3).
  split; [done|]. split; [done|]. by apply IH.
Qed.

Lemma coalesce_snoc l b : coalesce_runs (l ++ [b]) =
  match last (coalesce_runs l) with
  | Some r => if decide (start r + len r = b)
              then removelast (coalesce_runs l) ++ [mkRun (start r) (as_u32 (len r + 1))]
              else coalesce_runs l ++ [mkRun b 1]
  | None => coalesce_runs l ++ [mkRun b 1]
  end.
Proof. unfold coalesce_runs. by rewrite foldl_app. Qed.

Lemma coalesce_runs_spec l : StronglySorted Z.lt l → Forall (λ b, 0 < b < 2 ^ 32) l →
  concat (run_blocks <$> coalesce_runs l) = l ∧ runs_apart (coalesce_runs l).
Proof.
  induction l as [|b l IH] using rev_ind; intros Hs Hb; [done|].
  apply Forall_app in Hb as [Hb Hb1]. apply Forall_inv in Hb1.
  assert (Hs' : StronglySorted Z.lt l ∧ ∀ x, x ∈ l → x < b).
  { clear -Hs. induction l as [|x l IH]; [split; [constructor|set_solver]|].
    cbn in Hs. apply StronglySorted_inv in Hs as [Hs Hx]. destruct (IH Hs) as [H1 H2].
    rewrite Forall_forall in Hx. split.
    - constructor; [done|]. apply Forall_forall. intros y Hy. apply Hx. set_solver.
    - intros y [->|Hy]%elem_of_cons; [apply Hx; set_solver|by apply H2]. }
  destruct Hs' as [Hsl Hlt]. destruct (IH Hsl Hb) as [IH1 IH2]. rewrite coalesce_snoc.
  destruct (last (coalesce_runs l)) as [r|] eqn:El.
  2:{ apply last_None in El. rewrite El in *. cbn in IH1. subst l. split; done. }
  apply last_Some in El as [rs El]. rewrite El in *. rewrite removelast_last.
  rewrite fmap_app, concat_app in IH1. cbn [fmap list_fmap concat] in IH1. rewrite app_nil_r in IH1.
  assert (Hr : 0 < len r).
  { clear -IH2. induction rs as [|x rs IH]; [done|]. apply IH. destruct rs; cbn in IH2; [by apply IH2|tauto]. }
  assert (Hlast : start r + len r - 1 < b ∧ 0 < start r).
  { split.
    - apply Hlt. rewrite <-IH1, elem_of_app. right. unfold run_blocks. apply elem_of_seqZ. lia.
    - rewrite Forall_forall in Hb. apply (Hb (start r)). rewrite <-IH1, elem_of_app. right. unfold run_blocks. apply elem_of_seqZ. lia. }
  destruct (decide (start r + len r = b)) as [E|E].
  - assert (Ew : as_u32 (len r + 1) = len r + 1) by (unfold as_u32; apply Z.mod_small; lia). rewrite Ew. split.
    + rewrite fmap_app, concat_app. cbn [fmap list_fmap concat]. rewrite app_nil_r.
      unfold run_blocks at 2. cbn [start len]. rewrite seqZ_app by lia. rewrite E, app_assoc. f_equal. exact IH1.
    + eapply runs_apart_grow; [exact IH2|done|cbn; lia].
  - split.
    + rewrite fmap_app, concat_app, (fmap_app _ rs), (concat_app (_ <$> rs)). cbn [fmap list_fmap concat].
      rewrite !app_nil_r. by rewrite IH1.
    + apply runs_apart_snoc; [done|cbn; lia|cbn; lia].
Qed.

(** ** What the release walk finds *)
Section walks.
Context (dev : reader) (bs : Z) `{!ReaderOk dev} (Hbs : Indirect.block_size_ok bs).
Local Abbreviation trail := (trail dev bs).
Local Abbreviation finds := (list (option Z * list Z)).

(** The walk [r] from [w] over [n] blocks finds what following each block's
    path finds, and fails where that fails. *)
Definition sees (w : walk) (t : res finds) (n : Z) (r : res walk) : Prop :=
  match t with
  | Ok xs => ∃ ind, r = Ok (mkWalk (data_blocks w ++ omap fst xs) (pointer_blocks w ++ ind) (left w - n)) ∧
                    ∀ b, b ∈ ind ↔ b ∈ concat (snd <$> xs)
  | Err e => r = Err e
  | Panic => r = Panic
  | OutOfFuel => r = OutOfFuel
  end.

Lemma sees_nil w : sees w (Ok []) 0 (Ok w).
Proof. exists []. rewrite !app_nil_r, Z.sub_0_r. by destruct w. Qed.

Lemma sees_bind w t1 n1 r1 t2 n2 n k : n = n1 + n2 →
  sees w t1 n1 r1 → (∀ w', left w' = left w - n1 → sees w' t2 n2 (k w')) →
  sees w (xs ← t1; ys ← t2; Ok (xs ++ ys)) n (r1 ≫= k).
Proof.
  intros -> H1 H2. destruct t1 as [xs|e| |]; cbn [sees mbind res_bind] in *; try by subst r1.
  destruct H1 as (ind1 & -> & Hi1). cbn [mbind res_bind].
  specialize (H2 (mkWalk (data_blocks w ++ omap fst xs) (pointer_blocks w ++ ind1) (left w - n1)) eq_refl).
  destruct t2 as [ys|e| |]; cbn [sees] in *; try done.
  destruct H2 as (ind2 & -> & Hi2). cbn [data_blocks pointer_blocks left]. exists (ind1 ++ ind2). split.
  - rewrite omap_app, !app_assoc. do 2 f_equal. lia.
  - intros b. rewrite elem_of_app, fmap_app, concat_app, elem_of_app, Hi1, Hi2. done.
Qed.

(** A hole: nothing below it. *)
Lemma sees_hole w n : 0 ≤ n ≤ left w →
  sees w (traverse (λ _, Ok (None, [])) (seqZ 0 n)) n (Ok (mkWalk (data_blocks w) (pointer_blocks w) (left w - n))).
Proof.
  intros Hn. rewrite (traverse_ok _ (λ _, (None, []))) by done. exists [].
  assert (E : ∀ l : list Z, omap fst ((λ _, (None (A:=Z), @nil Z)) <$> l) = [] ∧
    concat (snd <$> ((λ _, (None (A:=Z), @nil Z)) <$> l)) = []) by (induction l as [|x l [IH1 IH2]]; [done|]; rewrite !fmap_cons; done).
  destruct (E (seqZ 0 n)) as [E1 E2]. rewrite E1, E2, !app_nil_r. done.
Qed.

Lemma skip_min cap w : 0 ≤ cap → 0 ≤ left w →
  skip cap w = mkWalk (data_blocks w) (pointer_blocks w) (left w - Z.min (left w) cap).
Proof. intros. unfold skip, saturating_sub. f_equal. lia. Qed.

Lemma ppb_same : ppb bs = Indirect.ppb bs.
Proof. done. Qed.

Lemma ppb_four : ppb bs * 4 ≤ bs.
Proof. unfold ppb. rewrite Z.mul_comm. apply Z.mul_div_le. lia. Qed.

Lemma read_block_eq b : 0 ≤ b < 2 ^ 32 → read_block dev bs b = Indirect.read_through dev bs b.
Proof.
  intros Hb. unfold read_block, Indirect.read_through, checked_mul64. destruct Hbs as [Hb1 _].
  assert (b * bs ≤ 2 ^ 32 * 65536) by nia. rewrite decide_True by lia. done.
Qed.

Lemma read_block_ok b buf : Indirect.read_through dev bs b = Ok buf → zlen buf = bs ∧ bytes_ok buf.
Proof.
  unfold Indirect.read_through. intros H. destruct Hbs as [? _].
  destruct (checked_mul64 b bs) as [off|]; [|done]. cbn in H. split; [by apply (rd_len off bs); [|lia]|by eapply rd_bytes].
Qed.

Lemma ptr_ok buf i : 0 ≤ i → i * 4 + 4 ≤ zlen buf → bytes_ok buf →
  read_u32_le buf i = Ok (le32 buf (i * 4)) ∧ Indirect.ptr_at buf i = Ok (le32 buf (i * 4)) ∧
  0 ≤ le32 buf (i * 4) < 2 ^ 32.
Proof.
  intros. unfold read_u32_le, Indirect.ptr_at. rewrite u32_le_ok by lia.
  split; [done|]. split; [done|]. by apply le32_range.
Qed.

(** The data pointers of [buf]. *)
Lemma take_ptrs_spec buf n data : bytes_ok buf → 0 ≤ n → n * 4 ≤ zlen buf →
  ∃ xs, traverse (λ j, trail buf [j]) (seqZ 0 n) = Ok xs ∧ take_ptrs buf n data = Ok (data ++ omap fst xs) ∧
    concat (snd <$> xs) = [].
Proof.
  intros Hb Hn Hl. set (g := λ j, (Indirect.some_nonzero (le32 buf (j * 4)), @nil Z)).
  assert (Hg : ∀ l, (∀ j, j ∈ l → 0 ≤ j < n) → ∀ data,
    traverse (λ j, trail buf [j]) l = Ok (g <$> l) ∧
    foldM (λ data i, p ← read_u32_le buf i; Ok (if decide (p = 0) then data else data ++ [p])) data l
      = Ok (data ++ omap fst (g <$> l)) ∧ concat (snd <$> (g <$> l)) = []).
  { induction l as [|j l IH]; intros Hin d; [by rewrite app_nil_r|].
    destruct (ptr_ok buf j) as (E1 & E2 & _); [apply Hin; set_solver|pose proof (Hin j ltac:(set_solver)); lia|done|].
    assert (E : trail buf [j] = Ok (g j)) by (cbn [IndirectMut.trail]; by rewrite E2).
    cbn [traverse foldM]. rewrite E, E1. cbn [mbind res_bind].
    destruct (IH ltac:(set_solver) (if decide (le32 buf (j * 4) = 0) then d else d ++ [le32 buf (j * 4)])) as (-> & -> & E3).
    rewrite fmap_cons. split; [done|]. split; [|exact E3].
    unfold g at 2, Indirect.some_nonzero. cbn [omap list_omap fst]. case_decide; [done|]. by rewrite <-app_assoc. }
  destruct (Hg (seqZ 0 n) ltac:(intros j Hj%elem_of_seqZ; lia) data) as (H1 & H2 & H3).
  exists (g <$> seqZ 0 n). done.
Qed.

(** What is found below a pointer block that is read. *)
Definition below (blk : Z) (path : list Z) : res (option Z * list Z) :=
  b ← Indirect.read_through dev bs blk;
  '(r, ns) ← trail b path;
  Ok (r, blk :: ns).

Lemma trail_step buf i path : 0 ≤ i → i * 4 + 4 ≤ zlen buf → bytes_ok buf → path ≠ [] →
  trail buf (i :: path) =
    if decide (le32 buf (i * 4) = 0) then Ok (None, []) else below (le32 buf (i * 4)) path.
Proof.
  intros Hi Hl Hb Hp. destruct (ptr_ok buf i Hi Hl Hb) as (_ & E & _).
  cbn [IndirectMut.trail]. destruct path; [done|]. rewrite E. done.
Qed.

(** [visit] walks the [cap] blocks below a pointer block, reached from it by [path]. *)
Definition visits (cap : Z) (path : Z → list Z) (visit : Z → walk → res walk) : Prop :=
  ∀ blk w, 0 < blk < 2 ^ 32 → 0 < left w →
    sees w (traverse (λ j, below blk (path j)) (seqZ 0 (Z.min (left w) cap))) (Z.min (left w) cap) (visit blk w).

(** The blocks below the block [buf], which the tree names [blk]. *)
Lemma sees_below blk w n (path : Z → list Z) (k : bytes → walk → res walk) : 0 < blk < 2 ^ 32 → 0 < n →
  (∀ buf, zlen buf = bs → bytes_ok buf → ∀ w', left w' = left w →
    sees w' (traverse (λ j, trail buf (path j)) (seqZ 0 n)) n (k buf w')) →
  sees w (traverse (λ j, below blk (path j)) (seqZ 0 n)) n (b ← read_block dev bs blk; k b (push_pointer blk w)).
Proof.
  intros Hblk Hn Hk. rewrite read_block_eq by lia. unfold below.
  rewrite (traverse_share (Indirect.read_through dev bs blk) (λ b j, '(r, ns) ← trail b (path j); Ok (r, blk :: ns)))
    by (rewrite seqZ_cons by lia; done).
  destruct (Indirect.read_through dev bs blk) as [buf|e| |] eqn:E; cbn [mbind res_bind]; try done.
  destruct (read_block_ok blk buf E) as [Hz Hb].
  specialize (Hk buf Hz Hb (push_pointer blk w) eq_refl).
  replace (traverse _ (seqZ 0 n)) with
    (fmap (M:=list) (λ x : option Z * list Z, (x.1, blk :: x.2)) <$> traverse (λ j, trail buf (path j)) (seqZ 0 n)).
  2:{ rewrite <-traverse_fmap_res. apply traverse_ext. intros j _. by destruct (trail buf (path j)) as [[r ns]|e| |]. }
  destruct (traverse (λ j, trail buf (path j)) (seqZ 0 n)) as [xs|e| |] eqn:Et; cbn [sees] in *; try done.
  destruct Hk as (ind & -> & Hi). exists (blk :: ind). cbn [push_pointer data_blocks pointer_blocks left]. split.
  - rewrite <-app_assoc. do 2 f_equal. f_equal. clear. induction xs as [|[o ns] xs IH]; [done|].
    rewrite fmap_cons. cbn [omap list_omap fst]. destruct o; cbn; by rewrite IH.
  - intros b. assert (Hxs : xs ≠ []).
    { intros ->. apply traverse_ok_inv, Forall2_length in Et. rewrite length_seqZ in Et. simpl in Et. lia. }
    rewrite elem_of_cons, Hi. clear -Hxs. induction xs as [|[o ns] xs IH]; [done|].
    rewrite !fmap_cons. cbn [concat fst snd]. rewrite !elem_of_app, elem_of_cons.
    destruct xs as [|x xs]; [cbn [fmap list_fmap concat]; rewrite !elem_of_nil; tauto|].
    specialize (IH ltac:(done)). tauto.
Qed.
(** The nodes in the slots of [buf], from slot [i] on. *)
Lemma sees_children cap path visit buf : 0 < cap → visits cap path visit → (∀ j, path j ≠ []) →
  zlen buf = bs → bytes_ok buf →
  ∀ c i w, 0 ≤ i → 0 ≤ left w → c = O ∨ (Z.of_nat c - 1) * cap < left w → i + Z.of_nat c ≤ ppb bs →
  sees w (traverse (λ j, trail buf (i + j / cap :: path (j mod cap))) (seqZ 0 (Z.min (left w) (Z.of_nat c * cap))))
    (Z.min (left w) (Z.of_nat c * cap))
    (foldM (λ w idx, blk ← read_u32_le buf idx; if decide (blk = 0) then Ok (skip cap w) else visit blk w)
       w (seqZ i (Z.of_nat c))).
Proof.
  intros Hcap Hv Hp Hz Hb. induction c as [|c IH]; intros i w Hi Hw Hc Hle.
  { rewrite Z.min_r by lia. rewrite !seqZ_nil by lia. apply sees_nil. }
  assert (Hc' : Z.of_nat c * cap < left w) by (destruct Hc; [done|lia]).
  assert (0 ≤ Z.of_nat c * cap) by nia.
  set (m := Z.min (left w) cap). set (r := Z.min (left w - m) (Z.of_nat c * cap)).
  replace (Z.min (left w) (Z.of_nat (S c) * cap)) with (m + r) by lia.
  rewrite (Nat2Z.inj_succ c), (seqZ_cons i) by lia. rewrite Z.pred_succ. cbn [foldM].
  rewrite (seqZ_app 0 m r) by lia. rewrite traverse_app, Z.add_0_l.
  pose proof ppb_four as H4. destruct (ptr_ok buf i) as (E1 & _ & Hr); [lia|lia|done|].
  apply (sees_bind w _ m _ _ r); [lia| |].
  - rewrite E1. cbn [mbind res_bind].
    rewrite (traverse_ext _ (λ j, if decide (le32 buf (i * 4) = 0) then Ok (None, []) else below (le32 buf (i * 4)) (path j))).
    2:{ intros j Hj%elem_of_seqZ. rewrite (Z.div_small j cap), (Z.mod_small j cap), Z.add_0_r by lia.
        apply trail_step; [lia|lia|done|done]. }
    destruct (decide (le32 buf (i * 4) = 0)) as [E0|Hne].
    + rewrite skip_min by lia. apply sees_hole. lia.
    + apply Hv; lia.
  - intros w' Hw'. rewrite traverse_shift. unfold r. rewrite <-Hw'.
    destruct c as [|c'] eqn:Ec.
    { rewrite Z.min_r by lia. rewrite !seqZ_nil by lia. apply sees_nil. }
    rewrite <-Ec in *. assert (cap < left w) by nia.
    rewrite (traverse_ext _ (λ j, trail buf (Z.succ i + j / cap :: path (j mod cap)))).
    2:{ intros j Hj%elem_of_seqZ. replace (m + j) with (j + 1 * cap) by lia.
        rewrite Z.div_add, Z.mod_add by lia. do 2 f_equal. lia. }
    apply IH; lia.
Qed.

Lemma visits_leaf : visits (ppb bs) (λ j, [j]) (collect_leaf dev bs).
Proof.
  intros blk w Hblk Hw. unfold collect_leaf. pose proof ppb_four. pose proof (Indirect.ppb_range bs Hbs). rewrite <-ppb_same in *.
  apply (sees_below blk w (Z.min (left w) (ppb bs)) (λ j, [j])
    (λ buf w, data ← take_ptrs buf (Z.min (left w) (ppb bs)) (data_blocks w);
              Ok (skip (Z.min (left w) (ppb bs)) (mkWalk data (pointer_blocks w) (left w))))); [done|lia|].
  intros buf Hz Hb w' Hw'. rewrite <-Hw' in *.
  destruct (take_ptrs_spec buf (Z.min (left w') (ppb bs)) (data_blocks w')) as (xs & -> & -> & Hn);
    [done|lia|lia|].
  exists []. cbn [mbind res_bind skip data_blocks pointer_blocks left]. rewrite app_nil_r, Hn. split; [|done].
  unfold skip, saturating_sub. cbn [data_blocks pointer_blocks left]. do 2 f_equal. lia.
Qed.
(** A block of [ppb] pointers to nodes over [cap] blocks each. *)
Lemma visits_node cap path visit : 0 < cap → visits cap path visit → (∀ j, path j ≠ []) →
  visits (ppb bs * cap) (λ j, j / cap :: path (j mod cap)) (λ blk w,
    outer ← read_block dev bs blk;
    collect_children visit cap outer (div_ceil (Z.min (left w) (ppb bs * cap)) cap) (push_pointer blk w)).
Proof.
  intros Hcap Hv Hp blk w Hblk Hw. pose proof (Indirect.ppb_range bs Hbs) as Hpp. rewrite <-ppb_same in Hpp.
  assert (0 < ppb bs * cap) by nia.
  apply (sees_below blk w (Z.min (left w) (ppb bs * cap)) (λ j, j / cap :: path (j mod cap))
    (λ outer, collect_children visit cap outer (div_ceil (Z.min (left w) (ppb bs * cap)) cap))); [done|lia|].
  intros buf Hz Hb w' Hw'. rewrite <-Hw' in *. set (t := Z.min (left w') (ppb bs * cap)).
  unfold collect_children. set (c := div_ceil t cap).
  assert (Hc : t ≤ c * cap ∧ (c - 1) * cap < t).
  { unfold c, div_ceil. pose proof (Z.div_mod (t + cap - 1) cap). pose proof (Z.mod_pos_bound (t + cap - 1) cap). nia. }
  assert (0 < c) by nia. assert (c ≤ ppb bs) by nia.
  pose proof (sees_children cap path visit buf Hcap Hv Hp Hz Hb (Z.to_nat c) 0 w') as Hs.
  rewrite Z2Nat.id in Hs by lia.
  replace (Z.min (left w') (c * cap)) with t in Hs by nia.
  apply Hs; [lia|lia|right; lia|lia].
Qed.

Lemma visits_double :
  visits (ppb bs * ppb bs) (λ j, [j / ppb bs; j mod ppb bs]) (collect_double dev bs).
Proof.
  pose proof (Indirect.ppb_range bs Hbs) as Hpp. rewrite <-ppb_same in Hpp.
  intros blk w Hblk Hw.
  exact (visits_node (ppb bs) (λ j, [j]) (collect_leaf dev bs) ltac:(lia) visits_leaf ltac:(done) blk w Hblk Hw).
Qed.

Lemma visits_triple :
  visits (ppb bs * (ppb bs * ppb bs))
    (λ j, [j / (ppb bs * ppb bs); j mod (ppb bs * ppb bs) / ppb bs; j mod (ppb bs * ppb bs) mod ppb bs])
    (collect_triple dev bs).
Proof.
  pose proof (Indirect.ppb_range bs Hbs) as Hpp. rewrite <-ppb_same in Hpp.
  intros blk w Hblk Hw. unfold collect_triple.
  replace (as_u64 (ppb bs * ppb bs * ppb bs)) with (ppb bs * (ppb bs * ppb bs)).
  2:{ unfold as_u64. assert (ppb bs * ppb bs ≤ 16384 * 16384) by nia.
      assert (ppb bs * (ppb bs * ppb bs) ≤ 16384 * (16384 * 16384)) by nia. rewrite Z.mod_small; lia. }
  exact (visits_node (ppb bs * ppb bs) (λ j, [j / ppb bs; j mod ppb bs]) (collect_double dev bs) ltac:(nia)
    visits_double ltac:(done) blk w Hblk Hw).
Qed.

Lemma sees_tier i_block slot cap path visit w : zlen i_block = 60 → bytes_ok i_block → 0 ≤ slot < 15 →
  0 ≤ cap → 0 ≤ left w → visits cap path visit → (∀ j, path j ≠ []) →
  sees w (traverse (λ j, trail i_block (slot :: path j)) (seqZ 0 (Z.min (left w) cap))) (Z.min (left w) cap)
    (collect_tier i_block slot cap visit w).
Proof.
  intros Hi Hb Hs Hcap Hw Hv Hp. unfold collect_tier.
  destruct (ptr_ok i_block slot) as (-> & _ & Hr); [lia|lia|done|]. cbn [mbind res_bind].
  rewrite (traverse_ext _ (λ j, if decide (le32 i_block (slot * 4) = 0) then Ok (None, []) else below (le32 i_block (slot * 4)) (path j)))
    by (intros j _; apply trail_step; [lia|lia|done|done]).
  destruct (decide (le32 i_block (slot * 4) = 0)) as [E|E].
  - rewrite decide_False by lia. rewrite skip_min by lia. apply sees_hole. lia.
  - destruct (decide (left w = 0)) as [E0|E0].
    + rewrite decide_False by lia. rewrite skip_min by lia.
      replace (Z.min (left w) cap) with 0 by lia. rewrite seqZ_nil by lia.
      rewrite Z.sub_0_r. destruct w. apply sees_nil.
    + rewrite decide_True by lia. apply Hv; lia.
Qed.

(** The last tier leaves nothing to count down. *)
Lemma collect_tier_last i_block slot cap visit w :
  (λ w, (data_blocks w, pointer_blocks w)) <$> collect_tier i_block slot 0 visit w =
  (λ w, (data_blocks w, pointer_blocks w)) <$> collect_tier i_block slot cap visit w.
Proof. unfold collect_tier. destruct (read_u32_le i_block slot); try done. cbn [mbind res_bind]. by case_decide. Qed.

(** The path of a block in each tier. *)
Lemma path_direct p l : l < 12 → Indirect.block_path p l = Some [l].
Proof. intros. unfold Indirect.block_path. by rewrite decide_True. Qed.
Lemma path_single p j : 0 ≤ j < p → Indirect.block_path p (12 + j) = Some [12; j].
Proof.
  intros. unfold Indirect.block_path. rewrite decide_False, decide_True by lia.
  by replace (12 + j - 12) with j by lia.
Qed.
Lemma path_double p j : 0 < p → 0 ≤ j < p * p →
  Indirect.block_path p (12 + p + j) = Some [13; j / p; j mod p].
Proof.
  intros. unfold Indirect.block_path. rewrite decide_False, decide_False, decide_True by lia.
  by replace (12 + p + j - 12 - p) with j by lia.
Qed.
Lemma path_triple p j : 0 < p → 0 ≤ j < p * (p * p) →
  Indirect.block_path p (12 + p + p * p + j) =
    Some [14; j / (p * p); j mod (p * p) / p; j mod (p * p) mod p].
Proof.
  intros. unfold Indirect.block_path. do 3 (rewrite decide_False by nia). rewrite decide_True by nia.
  replace (12 + p + p * p + j - 12 - p - p * p) with j by lia.
  by destruct (Indirect.mod_square j p) as [-> ->]; [lia|].
Qed.

Lemma tier_trail i_block a n path slot :
  (∀ j, 0 ≤ j < n → Indirect.block_path (ppb bs) (a + j) = Some (slot :: path j)) →
  traverse (block_trail dev bs i_block) (seqZ a n) = traverse (λ j, trail i_block (slot :: path j)) (seqZ 0 n).
Proof.
  intros H. rewrite traverse_shift. apply traverse_ext. intros j Hj%elem_of_seqZ.
  unfold block_trail. rewrite <-ppb_same, H by lia. done.
Qed.

Ltac failed :=
  destruct (traverse _ _) as [xs|e'| |]; cbn [sees]; [intros (? & ? & _); discriminate|intros E; congruence..].

(** Everything the walk collects, before it is sorted. *)
Lemma collect_sees i_block expected : zlen i_block = 60 → bytes_ok i_block → 0 ≤ expected →
  let n := Z.min expected (span (ppb bs)) in
  match traverse (block_trail dev bs i_block) (seqZ 0 n) with
  | Ok xs => ∃ ind, collect_for_free dev bs i_block expected =
      Ok (mkFreed (coalesce_runs (sort_dedup (omap fst xs))) (sort_dedup ind)) ∧
      ∀ b, b ∈ ind ↔ b ∈ concat (snd <$> xs)
  | Err e => collect_for_free dev bs i_block expected = Err e
  | Panic => collect_for_free dev bs i_block expected = Panic
  | OutOfFuel => collect_for_free dev bs i_block expected = OutOfFuel
  end.
Proof.
  intros Hi Hb He n. pose proof (Indirect.ppb_range bs Hbs) as Hpp. rewrite <-ppb_same in Hpp.
  set (p := ppb bs) in *. destruct Hbs as [Hsz Hpow].
  unfold collect_for_free. rewrite Hpow, bool_decide_false by lia. cbn [negb orb].
  set (d := Z.min expected 12). set (n1 := Z.min (expected - d) p).
  set (n2 := Z.min (expected - d - n1) (p * p)). set (n3 := Z.min (expected - d - n1 - n2) (p * (p * p))).
  assert (0 < p * p) by nia. assert (0 < p * (p * p)) by nia.
  assert (En : n = d + (n1 + (n2 + n3))) by (unfold n, span; fold p; nia).
  set (w0 := mkWalk [] [] expected).
  assert (S : sees w0 (traverse (block_trail dev bs i_block) (seqZ 0 n)) n
    (w ← (data ← take_ptrs i_block d []; Ok (mkWalk data [] (saturating_sub expected d)));
     w ← collect_tier i_block 12 p (collect_leaf dev bs) w;
     w ← collect_tier i_block 13 (p * p) (collect_double dev bs) w;
     collect_tier i_block 14 (p * (p * p)) (collect_triple dev bs) w)).
  { rewrite En, (seqZ_app 0 d), traverse_app, Z.add_0_l by lia.
    destruct (take_ptrs_spec i_block d []) as (xs & Ex & Et & Ec); [done|lia|lia|].
    apply (sees_bind w0 _ d _ _ (n1 + (n2 + n3))); [done| |].
    { rewrite (traverse_ext _ (λ j, trail i_block [j])).
      2:{ intros j Hj%elem_of_seqZ. unfold block_trail. by rewrite path_direct by lia. }
      rewrite Ex, Et. exists []. rewrite Ec. split; [|done]. cbn [mbind res_bind data_blocks pointer_blocks left app].
      unfold saturating_sub. rewrite Z.max_r by lia. done. }
    intros w1 Hw1. change (left w0) with expected in Hw1.
    rewrite (seqZ_app d n1), traverse_app by lia. apply (sees_bind w1 _ n1 _ _ (n2 + n3)); [done| |].
    { rewrite (tier_trail i_block d n1 (λ j, [j]) 12) by (intros j Hj; replace d with 12 by lia; apply path_single; lia).
      replace n1 with (Z.min (left w1) p) by lia.
      apply sees_tier; [done|done|lia|lia|lia|apply visits_leaf|done]. }
    intros w2 Hw2. rewrite (seqZ_app (d + n1) n2), traverse_app by lia. apply (sees_bind w2 _ n2 _ _ n3); [done| |].
    { rewrite (tier_trail i_block (d + n1) n2 (λ j, [j / p; j mod p]) 13)
        by (intros j Hj; replace (d + n1) with (12 + p) by lia; apply path_double; lia).
      replace n2 with (Z.min (left w2) (p * p)) by lia.
      apply sees_tier; [done|done|lia|lia|lia|apply visits_double|done]. }
    intros w3 Hw3.
    rewrite (tier_trail i_block (d + n1 + n2) n3 (λ j, [j / (p * p); j mod (p * p) / p; j mod (p * p) mod p]) 14)
      by (intros j Hj; replace (d + n1 + n2) with (12 + p + p * p) by lia; apply path_triple; lia).
    replace n3 with (Z.min (left w3) (p * (p * p))) by lia.
    apply sees_tier; [done|done|lia|lia|lia|apply visits_triple|done]. }
  clearbody n. clear En. revert S. unfold DIRECT_COUNT. fold d.
  destruct (take_ptrs i_block d []) as [data| | |]; cbn [mbind res_bind];
    [|by failed..].
  set (w1 := mkWalk data [] _). destruct (collect_tier i_block 12 _ _ w1) as [w2| | |]; cbn [mbind res_bind];
    [|by failed..].
  destruct (collect_tier i_block 13 _ _ w2) as [w3| | |]; cbn [mbind res_bind];
    [|by failed..].
  pose proof (collect_tier_last i_block 14 (p * (p * p)) (collect_triple dev bs) w3) as El. revert El.
  destruct (collect_tier i_block 14 0 _ w3) as [w4| | |], (collect_tier i_block 14 (p * (p * p)) _ w3) as [w5| | |];
    try discriminate; cbn [mbind res_bind fmap res_fmap]; intros El;
    [|by failed; congruence..].
  injection El as -> ->. destruct (traverse _ _) as [xs| | |]; cbn [sees]; [|discriminate..].
  intros (ind & [= ->] & Hind). exists ind. done.
Qed.

Lemma trail_range buf path b ns : bytes_ok buf → trail buf path = Ok (Some b, ns) → 0 < b < 2 ^ 32.
Proof.
  revert buf ns. induction path as [|i path IH]; intros buf ns Hb E; [done|].
  cbn [IndirectMut.trail] in E. destruct path as [|j path].
  - res_inv. unfold Indirect.ptr_at, u32_le in Ha. res_inv. apply slice_inv in Ha0 as (_ & _ & _ & ->).
    pose proof (le32_range buf (i * 4) Hb) as Hr. unfold le32 in Hr.
    unfold Indirect.some_nonzero in E. case_decide; [done|]. injection E as <-. lia.
  - res_inv; [done|]. destruct a1 as [r ns']. injection E as -> <-. eapply IH; [|exact Ha1]. by eapply read_block_ok.
Qed.

Lemma block_trail_range i_block l b ns : bytes_ok i_block → block_trail dev bs i_block l = Ok (Some b, ns) → 0 < b < 2 ^ 32.
Proof. unfold block_trail. destruct (Indirect.block_path _ l); [apply trail_range|done]. Qed.

Lemma block_trail_ok i_block l : 0 ≤ l → zlen i_block = 60 →
  returns (block_trail dev bs i_block l) ∧
  (is_ok (block_trail dev bs i_block l) = is_ok (fst (Indirect.lookup dev bs i_block l Indirect.new))) ∧
  ∀ r, fst (Indirect.lookup dev bs i_block l Indirect.new) = Ok r ↔ ∃ ns, block_trail dev bs i_block l = Ok (r, ns).
Proof.
  intros Hl Hi. destruct (Indirect.lookup_yields dev bs i_block l Hbs Indirect.new I) as (c' & -> & _). cbn [fst].
  pose proof (Indirect.lookup_ref_returns dev bs i_block l Hbs Hi Hl) as Hr. revert Hr.
  rewrite <-block_trail_lookup. destruct (block_trail dev bs i_block l) as [[o ns]|e| |]; cbn; intros Hr; try done;
    (split; [done|split; [done|naive_solver]]).
Qed.
End walks.

(** ** What the planner builds *)
Section plans.
Context {A : Type} (alloc_one : A → res (Z * A)) (first bs : Z) (Hbs : Indirect.block_size_ok bs).
Local Abbreviation p := (ppb bs).

Local Abbreviation draw := (draw alloc_one).

Definition usable (blks : list Z) : Prop := Forall (λ b, 0 < b < 2 ^ 32) blks.

(** A device that holds the blocks of [ws]. *)
Definition holds (dev : reader) (ws : list (Z * bytes)) : Prop :=
  ∀ blk buf, (blk, buf) ∈ ws → Indirect.read_through dev bs blk = Ok buf.

Lemma holds_app dev w1 w2 : holds dev (w1 ++ w2) ↔ holds dev w1 ∧ holds dev w2.
Proof. unfold holds. setoid_rewrite elem_of_app. naive_solver. Qed.

(** The file maps [n] blocks from [o] on, and nothing after. *)
Definition image_of (o n j : Z) : option Z := if decide (j < n) then Some (first + o + j) else None.

(** The node [blk], once written, stands for [n] blocks from [o] on, out of the
    [cap] reached from it by [path]. *)
Definition stands (ws : list (Z * bytes)) (cap : Z) (path : Z → list Z) (blk o n : Z) : Prop :=
  ∀ dev, holds dev ws → ∀ j, 0 ≤ j < cap →
    (b ← Indirect.read_through dev bs blk; Indirect.chase dev bs b (path j)) = Ok (image_of o n j).

(** [fill] builds such a node out of [k] more blocks. *)
Definition fills (cap : Z) (path : Z → list Z) (k : Z → nat) (fill : Z → progress A → res (progress A)) : Prop :=
  ∀ blk st blks a', 0 < blk < 2 ^ 32 → 0 < remaining st →
    let n := Z.min (remaining st) cap in
    0 < first → 0 ≤ logical_offset st → first + logical_offset st + n ≤ 2 ^ 32 →
    draw (k n) (allocator st) = Ok (blks, a') → usable blks →
    ∃ ws, fill blk st = Ok (mkProgress (writes st ++ ws) (allocated st ++ blks) (remaining st - n) (logical_offset st + n) a') ∧
      ws.*1 ≡ₚ blk :: blks ∧ stands ws cap path blk (logical_offset st) n.

Lemma emit_spec buf n base : 0 ≤ n → n * 4 ≤ zlen buf → 0 ≤ base → base + n ≤ 2 ^ 32 →
  ∃ buf', emit_data_ptrs buf 0 n base = Ok buf' ∧ zlen buf' = zlen buf ∧
    ∀ j, 0 ≤ j → j * 4 + 4 ≤ zlen buf → le32 buf' (j * 4) = if decide (j < n) then base + j else le32 buf (j * 4).
Proof.
  intros Hn Hl Hb Hm. unfold emit_data_ptrs.
  destruct (foldM_seqZ_ok (λ k b, zlen b = zlen buf ∧ ∀ j, 0 ≤ j → j * 4 + 4 ≤ zlen buf →
    le32 b (j * 4) = if decide (j < k) then base + j else le32 buf (j * 4))
    (λ buf i, write_u32_le buf (0 + i) (as_u32 (base + i))) 0 n buf) as (b & E & Hz & H); [done| | |].
  - split; [done|]. intros j Hj _. by rewrite decide_False by lia.
  - intros k b Hk [Hz H]. unfold write_u32_le. rewrite put_u32_ok by lia. eexists. split; [done|]. split; [zl|].
    intros j Hj Hj4. unfold as_u32. rewrite Z.mod_small by lia. destruct (decide (j = k)) as [->|Hne].
    + rewrite Z.add_0_l, le32_splice by lia. by rewrite decide_True by lia.
    + rewrite le32_splice_ne by zl. rewrite H by lia. repeat case_decide; lia || done.
  - exists b. rewrite Z.add_0_l in *. by split.
Qed.

Lemma le32_zrep n i : le32 (zrep n 0) i = 0.
Proof.
  unfold le32. assert (E : ∀ l : bytes, Forall (λ b, b = 0) l → le_combine l = 0).
  { induction 1 as [|b l -> Hl IH]; [done|]. change (0 + 256 * le_combine l = 0). by rewrite IH. }
  apply E. unfold sub, zrep. by apply Forall_take, Forall_drop, Forall_replicate.
Qed.

Lemma chase_one dev buf i : 0 ≤ i → i * 4 + 4 ≤ zlen buf →
  Indirect.chase dev bs buf [i] = Ok (Indirect.some_nonzero (le32 buf (i * 4))).
Proof. intros. cbn [Indirect.chase]. unfold Indirect.ptr_at. by rewrite u32_le_ok by lia. Qed.

Lemma chase_more dev buf i path : 0 ≤ i → i * 4 + 4 ≤ zlen buf → path ≠ [] →
  Indirect.chase dev bs buf (i :: path) =
    if decide (le32 buf (i * 4) = 0) then Ok None else
    b ← Indirect.read_through dev bs (le32 buf (i * 4)); Indirect.chase dev bs b path.
Proof. intros. cbn [Indirect.chase]. destruct path; [done|]. unfold Indirect.ptr_at. by rewrite u32_le_ok by lia. Qed.

Lemma fills_leaf : fills p (λ j, [j]) (λ _, O) (fill_leaf first bs).
Proof.
  intros blk st blks a' Hblk Hr n Hf Ho Hm [= <- <-] _. pose proof (Indirect.ppb_range bs Hbs) as Hp.
  pose proof (ppb_four bs) as H4. rewrite <-ppb_same in Hp. destruct Hbs as [Hb _].
  unfold fill_leaf. fold n.
  destruct (emit_spec (zrep bs 0) n (first + logical_offset st)) as (buf & E & Hz & H); [lia|zl|lia|lia|].
  assert (Hz' : zlen buf = bs) by (rewrite Hz; zl).
  unfold as_u32. rewrite Z.mod_small by lia. rewrite E. cbn [mbind res_bind push_write writes allocated remaining logical_offset allocator].
  exists [(blk, buf)]. rewrite app_nil_r. split; [done|]. split; [done|].
  intros dev Hd j Hj. rewrite (Hd blk buf) by set_solver. cbn [mbind res_bind].
  rewrite chase_one by lia. rewrite H by (rewrite ?Hz; lia). unfold image_of, Indirect.some_nonzero.
  rewrite le32_zrep. destruct (decide (j < n)); [by rewrite decide_False by lia|done].
Qed.

(** The pointer blocks under [c] slots that cover [r] blocks in all, [k] under each. *)
Fixpoint nodes (k : Z → nat) (cap : Z) (c : nat) (r : Z) : nat :=
  match c with O => O | S c => S (k (Z.min r cap) + nodes k cap c (r - cap)) end.

Lemma new_node_ok parent idx st blk a : alloc_one (allocator st) = Ok (blk, a) → 0 < blk < 2 ^ 32 →
  0 ≤ idx → idx * 4 + 4 ≤ zlen parent →
  new_node alloc_one parent idx st = Ok (blk, splice parent (idx * 4) (le_split 4 blk),
    mkProgress (writes st) (allocated st ++ [blk]) (remaining st) (logical_offset st) a).
Proof.
  intros E Hb Hi Hl. unfold new_node. rewrite E. cbn [mbind res_bind]. unfold check_u32, u32_max.
  rewrite decide_False by lia. cbn [mbind res_bind]. unfold write_u32_le. rewrite put_u32_ok by lia.
  unfold as_u32. by rewrite Z.mod_small by lia.
Qed.

Definition children_mapped (buf : bytes) (ws : list (Z * bytes)) (i c cap : Z) (path : Z → list Z) (o n : Z) : Prop :=
  ∀ dev, holds dev ws → ∀ j, 0 ≤ j < c * cap →
    Indirect.chase dev bs buf (i + j / cap :: path (j mod cap)) = Ok (image_of o n j).

(** The loop over the children: its slots are filled, the others kept. *)
Lemma fill_children_ok cap path k fill : 0 < cap → (∀ j, path j ≠ []) → fills cap path k fill →
  ∀ c i buf st blks a', 0 ≤ i → i + Z.of_nat c ≤ p → zlen buf = bs → 0 < first →
  (c = O ∨ (Z.of_nat c - 1) * cap < remaining st) → 0 ≤ remaining st →
  let n := Z.min (remaining st) (Z.of_nat c * cap) in
  0 ≤ logical_offset st → first + logical_offset st + n ≤ 2 ^ 32 →
  draw (nodes k cap c (remaining st)) (allocator st) = Ok (blks, a') → usable blks →
  ∃ ws buf', foldM (λ '(buf, st) idx,
      '(blk, buf, st) ← new_node alloc_one buf idx st; st ← fill blk st; Ok (buf, st)) (buf, st) (seqZ i (Z.of_nat c))
    = Ok (buf', mkProgress (writes st ++ ws) (allocated st ++ blks) (remaining st - n) (logical_offset st + n) a') ∧
    ws.*1 ≡ₚ blks ∧ zlen buf' = bs ∧
    (∀ j, 0 ≤ j < p → j < i ∨ i + Z.of_nat c ≤ j → le32 buf' (j * 4) = le32 buf (j * 4)) ∧
    children_mapped buf' ws i (Z.of_nat c) cap path (logical_offset st) n.
Proof.
  intros Hcap Hpath Hfill. pose proof (ppb_four bs) as H4.
  induction c as [|c IH]; intros i buf st blks a' Hi Hip Hz Hf Hc Hr n Ho Hm Hd Hu.
  { injection Hd as <- <-. assert (n = 0) as -> by lia. exists [], buf. cbn [Z.of_nat]. rewrite seqZ_nil by lia. cbn [foldM].
    rewrite !app_nil_r, Z.sub_0_r, Z.add_0_r. destruct st. split; [done|]. split; [done|]. split; [done|]. split; [done|].
    intros dev Hh j Hj. lia. }
  assert (Hrem : Z.of_nat c * cap < remaining st) by (destruct Hc; [done|lia]).
  assert (0 ≤ Z.of_nat c * cap) by nia.
  set (m := Z.min (remaining st) cap). set (r := Z.min (remaining st - m) (Z.of_nat c * cap)).
  assert (En : n = m + r) by lia.
  cbn [nodes] in Hd. rewrite <-Nat.add_1_l in Hd. apply draw_split in Hd as (b1 & b2 & a1 & Hd1 & Hd2 & ->).
  apply draw_split in Hd2 as (b3 & b4 & a2 & Hd3 & Hd4 & ->).
  cbn [draw] in Hd1. destruct (alloc_one (allocator st)) as [[blk ab]| | |] eqn:Ea; try done.
  cbn [mbind res_bind] in Hd1. injection Hd1 as <- <-.
  apply Forall_cons in Hu as [Hblk Hu]. apply Forall_app in Hu as [Hu3 Hu4].
  rewrite (Nat2Z.inj_succ c), (seqZ_cons i) by lia. rewrite Z.pred_succ. cbn [foldM].
  rewrite (new_node_ok buf i st blk ab) by (done || lia). cbn [mbind res_bind].
  set (buf1 := splice buf (i * 4) (le_split 4 blk)).
  set (st1 := mkProgress (writes st) (allocated st ++ [blk]) (remaining st) (logical_offset st) ab).
  destruct (Hfill blk st1 b3 a2) as (w1 & -> & Hp1 & Hs1); [done|cbn; lia|done|done|cbn; lia|exact Hd3|done|].
  cbn [mbind res_bind remaining logical_offset st1 writes allocated allocator].
  set (st2 := mkProgress _ _ _ _ a2). fold m in st2.
  assert (Hz1 : zlen buf1 = bs) by (unfold buf1; zl).
  destruct (IH (Z.succ i) buf1 st2 b4 a') as (w2 & buf' & -> & Hp2 & Hz2 & Hk & Hmap); cbn [st2 remaining logical_offset allocator] in *.
  all: try lia; try done.
  { destruct c as [|c']; [exact Hd4|]. replace (remaining st - m) with (remaining st - cap) by nia. exact Hd4. }
  exists (w1 ++ w2), buf'. cbn [writes allocated]. split; [|split; [|split; [exact Hz2|split]]].
  - unfold st2, st1. cbn [writes allocated remaining logical_offset]. rewrite <-!app_assoc. do 3 f_equal; lia.
  - rewrite fmap_app, Hp1, Hp2. done.
  - intros j Hj Hout. rewrite Hk by lia. unfold buf1. apply le32_splice_ne; zl.
  - intros dev Hh j Hj. apply holds_app in Hh as [Hh1 Hh2].
    assert (Hslot : le32 buf' (i * 4) = blk) by (rewrite Hk by lia; unfold buf1; apply le32_splice; lia).
    destruct (decide (j < cap)) as [Hjc|Hjc].
    + rewrite Z.div_small, Z.mod_small, Z.add_0_r by lia. rewrite chase_more by (lia || done). rewrite Hslot.
      rewrite decide_False by lia. rewrite (Hs1 dev Hh1 j) by lia. unfold image_of.
      change (remaining st1) with (remaining st). fold m. repeat case_decide; lia || done.
    + pose proof (Hmap dev Hh2 (j - cap) ltac:(lia)) as Hj'.
      replace j with (j - cap + 1 * cap) at 1 2 by lia. rewrite Z.div_add, Z.mod_add by lia.
      replace (i + ((j - cap) / cap + 1)) with (Z.succ i + (j - cap) / cap) by lia. rewrite Hj'.
      assert (m = cap) by (destruct c as [|c']; [lia|nia]).
      change (remaining st2) with (remaining st - m). change (logical_offset st2) with (logical_offset st + m).
      fold r. unfold image_of. repeat case_decide; try lia; [|done]. do 2 f_equal. lia.
Qed.

Lemma nodes_min k cap c : 0 < cap → ∀ r, 0 ≤ r →
  nodes k cap c r = nodes k cap c (Z.min r (Z.of_nat c * cap)).
Proof.
  intros Hcap. induction c as [|c IH]; intros r Hr; [done|]. cbn [nodes].
  replace (Z.min (Z.min r (Z.of_nat (S c) * cap)) cap) with (Z.min r cap) by nia.
  destruct (decide (r ≤ Z.of_nat (S c) * cap)).
  - by rewrite (Z.min_l r (Z.of_nat (S c) * cap)) by done.
  - rewrite (Z.min_r r (Z.of_nat (S c) * cap)) by lia. f_equal. f_equal. rewrite IH by nia. f_equal. nia.
Qed.

Lemma ceil_bounds n cap : 0 < cap → 0 < n →
  0 < div_ceil n cap ∧ n ≤ div_ceil n cap * cap ∧ (div_ceil n cap - 1) * cap < n.
Proof.
  intros Hc Hn. unfold div_ceil. pose proof (Z.div_mod (n + cap - 1) cap).
  pose proof (Z.mod_pos_bound (n + cap - 1) cap). nia.
Qed.

(** A node of [p] pointers to nodes over [cap] blocks each. *)
Lemma fills_node cap path k fill : 0 < cap → (∀ j, path j ≠ []) → fills cap path k fill →
  fills (p * cap) (λ j, j / cap :: path (j mod cap)) (λ n, nodes k cap (Z.to_nat (div_ceil n cap)) n)
    (λ blk st, '(buf, st) ← fill_children alloc_one bs fill (div_ceil (Z.min (remaining st) (p * cap)) cap) st;
               Ok (push_write blk buf st)).
Proof.
  intros Hcap Hpath Hfill blk st blks a' Hblk Hr n Hf Ho Hm Hd Hu.
  pose proof (Indirect.ppb_range bs Hbs) as Hp. pose proof (ppb_four bs) as H4. rewrite <-ppb_same in Hp.
  assert (0 < p * cap) by nia. destruct (ceil_bounds n cap Hcap ltac:(lia)) as (Hc0 & Hc1 & Hc2).
  fold n. set (c := div_ceil n cap) in *. assert (c ≤ p) by nia.
  assert (En : n = Z.min (remaining st) (Z.of_nat (Z.to_nat c) * cap)) by (rewrite Z2Nat.id by lia; nia).
  destruct (fill_children_ok cap path k fill Hcap Hpath Hfill (Z.to_nat c) 0 (zrep bs 0) st blks a')
    as (ws & buf & E & Hperm & Hz & Hk & Hmap); rewrite <-?En; try lia; try done.
  - zl.
  - by rewrite nodes_min, <-En by lia.
  - rewrite <-En in E, Hmap. rewrite Z2Nat.id in E, Hmap by lia. unfold fill_children. rewrite E. cbn [mbind res_bind].
    exists (ws ++ [(blk, buf)]). unfold push_write. cbn [writes allocated remaining logical_offset allocator].
    rewrite <-app_assoc. split; [done|]. split; [rewrite fmap_app; cbn; rewrite Hperm; by rewrite Permutation_app_comm|].
    intros dev [Hh1 Hh2]%holds_app j Hj. rewrite (Hh2 blk buf) by set_solver. cbn [mbind res_bind].
    destruct (decide (j < c * cap)) as [Hjc|Hjc].
    + pose proof (Hmap dev Hh1 j ltac:(lia)) as H1. rewrite Z.add_0_l in H1. exact H1.
    + assert (c ≤ j / cap < p).
      { split; [apply Z.div_le_lower_bound; lia|apply Z.div_lt_upper_bound; lia]. }
      rewrite chase_more by (done || lia). rewrite Hk by (rewrite ?Z2Nat.id; lia). rewrite le32_zrep, decide_True by done.
      unfold image_of. by rewrite decide_False by lia.
Qed.

Lemma nodes_leaves cap c r : nodes (λ _, O) cap c r = c.
Proof. revert r. induction c as [|c IH]; intros r; [done|]. cbn [nodes]. by rewrite IH. Qed.

(** The pointer blocks below a double-indirect, and a triple-indirect, block. *)
Definition below_double (n : Z) : nat := Z.to_nat (div_ceil n p).
Definition below_triple (n : Z) : nat := (Z.to_nat (div_ceil n (p * p)) + Z.to_nat (div_ceil n p))%nat.

Lemma fills_ext cap path k k' fill fill' : fills cap path k fill →
  (∀ n, 0 < n ≤ cap → k n = k' n) →
  (∀ blk st, 0 < remaining st → Z.min (remaining st) cap < 2 ^ 32 → fill blk st = fill' blk st) → 0 < cap →
  fills cap path k' fill'.
Proof.
  intros H Hk Hf Hc blk st blks a' Hblk Hr n Hfi Ho Hm Hd Hu. rewrite <-Hf by lia.
  apply H; try done. by rewrite Hk by lia.
Qed.

Lemma fills_double : fills (p * p) (λ j, [j / p; j mod p]) below_double (fill_double alloc_one first bs).
Proof.
  pose proof (Indirect.ppb_range bs Hbs) as Hp. rewrite <-ppb_same in Hp. assert (p * p ≤ 16384 * 16384) by nia.
  eapply fills_ext; [apply (fills_node p (λ j, [j]) (λ _, O)); [lia|done|apply fills_leaf]|..].
  - intros n Hn. cbv beta. by rewrite nodes_leaves.
  - intros blk st Hr Hm. cbv beta. unfold fill_double, as_u32. rewrite Z.mod_small by lia. done.
  - nia.
Qed.

Lemma div_ceil_add n c : 0 < p → div_ceil (n + c * p) p = div_ceil n p + c.
Proof. intros. unfold div_ceil. replace (n + c * p + p - 1) with (n + p - 1 + c * p) by lia. apply Z.div_add. lia. Qed.

Lemma nodes_double c : ∀ r, (Z.of_nat c - 1) * (p * p) < r ≤ Z.of_nat c * (p * p) →
  nodes below_double (p * p) c r = (c + Z.to_nat (div_ceil r p))%nat.
Proof.
  pose proof (Indirect.ppb_range bs Hbs) as Hp. rewrite <-ppb_same in Hp.
  induction c as [|c IH]; intros r Hr.
  { cbn [nodes]. unfold div_ceil. assert (r + p - 1 < p) by lia.
    pose proof (Z.div_lt_upper_bound (r + p - 1) p 1). lia. }
  cbn [nodes]. unfold below_double at 1. destruct c as [|c].
  - rewrite Z.min_l by lia. cbn [nodes]. lia.
  - rewrite Z.min_r by nia. rewrite IH by lia.
    replace r with (r - p * p + p * p) at 2 by lia. rewrite div_ceil_add by lia.
    replace (p * p) with (0 + p * p) at 1 by lia. rewrite div_ceil_add by lia.
    pose proof (ceil_bounds (r - p * p) p ltac:(lia) ltac:(nia)) as Hc.
    assert (div_ceil 0 p = 0) as -> by (unfold div_ceil; apply Z.div_small; lia). lia.
Qed.

Lemma fills_triple : fills (p * (p * p)) (λ j, [j / (p * p); j mod (p * p) / p; j mod (p * p) mod p]) below_triple
  (fill_triple alloc_one first bs).
Proof.
  pose proof (Indirect.ppb_range bs Hbs) as Hp. rewrite <-ppb_same in Hp.
  assert (p * p ≤ 16384 * 16384) by nia. assert (p * (p * p) ≤ 16384 * (16384 * 16384)) by nia.
  eapply fills_ext; [apply (fills_node (p * p) (λ j, [j / p; j mod p]) below_double); [nia|done|apply fills_double]|..].
  - intros n Hn. cbv beta. destruct (ceil_bounds n (p * p)) as (H1 & H2 & H3); [nia|lia|].
    apply nodes_double. rewrite Z2Nat.id by lia. lia.
  - intros blk st Hr Hm. cbv beta. unfold fill_triple, as_u32, as_u64.
    rewrite (Z.mod_small (p * p * p)) by nia. rewrite (Z.mod_small (p * p)) by nia. rewrite decide_False by nia.
    replace (p * p * p) with (p * (p * p)) by lia. by rewrite Z.mod_small by lia.
  - nia.
Qed.

(** ** The whole file *)

(** The slot of the inode a block's path starts in. *)
Lemma block_path_slot l : 0 ≤ l < span p → ∃ h rest, Indirect.block_path (Indirect.ppb bs) l = Some (h :: rest) ∧
  0 ≤ h < 15 ∧ (l < 12 ↔ h < 12) ∧ (l < 12 + p ↔ h < 13) ∧ (l < 12 + p + p * p ↔ h < 14).
Proof.
  pose proof (Indirect.ppb_range bs Hbs) as Hp. change (Indirect.ppb bs) with p in *.
  unfold span. intros Hl. unfold Indirect.block_path. cbv zeta. repeat case_decide; try lia; do 2 eexists; (split; [done|lia]).
Qed.

(** Below block [u] the file maps its [count] blocks; the slots from [s] on are empty. *)
Definition mapped_below (count : Z) (blk : bytes) (ws : list (Z * bytes)) (s u : Z) : Prop :=
  zlen blk = 60 ∧ (∀ j, s ≤ j < 15 → le32 blk (j * 4) = 0) ∧
  ∀ dev, holds dev ws → ∀ l, 0 ≤ l < u → Indirect.lookup_ref dev bs blk l = Ok (image_of 0 count l).

Lemma mapped_stop count blk ws s u : mapped_below count blk ws s u → count ≤ u → 0 ≤ s →
  (∀ l h rest, u ≤ l < span p → Indirect.block_path (Indirect.ppb bs) l = Some (h :: rest) → s ≤ h) →
  mapped_below count blk ws 15 (span p).
Proof.
  intros (Hz & H0 & Hm) Hc Hs Hslots. split; [done|]. split; [intros; lia|]. intros dev Hh l Hl.
  destruct (decide (l < u)) as [Hlu|Hlu]; [apply Hm; [done|lia]|].
  destruct (block_path_slot l Hl) as (h & rest & E & Hh15 & _).
  pose proof (Hslots l h rest ltac:(lia) E). unfold Indirect.lookup_ref. rewrite E.
  unfold image_of. rewrite decide_False by lia.
  destruct rest as [|x rest]; [rewrite chase_one by lia; by rewrite H0 by lia|].
  rewrite chase_more by (done || lia). by rewrite H0 by lia.
Qed.

Lemma mapped_tier count blk st s u cap path k fill blks a' :
  fills cap path k fill → (∀ j, path j ≠ []) → 0 < cap → 12 ≤ s < 15 →
  (∀ j, 0 ≤ j < cap → Indirect.block_path (Indirect.ppb bs) (u + j) = Some (s :: path j)) →
  (∀ l, 0 ≤ l < u → ∃ h rest, Indirect.block_path (Indirect.ppb bs) l = Some (h :: rest) ∧ 0 ≤ h < s) →
  mapped_below count blk (writes st) s u → 0 < remaining st → remaining st = count - u → logical_offset st = u → 0 ≤ u →
  0 < first → first + count ≤ 2 ^ 32 →
  draw (S (k (Z.min (remaining st) cap))) (allocator st) = Ok (blks, a') → usable blks →
  ∃ blk' ws, let n := Z.min (remaining st) cap in
    tier alloc_one s fill blk st =
      Ok (blk', mkProgress (writes st ++ ws) (allocated st ++ blks) (remaining st - n) (u + n) a') ∧
    ws.*1 ≡ₚ blks ∧ mapped_below count blk' (writes st ++ ws) (s + 1) (u + cap).
Proof.
  intros Hfill Hpath Hcap Hs Hu Hlow (Hz & H0 & Hm) Hr Hrem Hoff Hu0 Hf Hc Hd Hus.
  cbn [draw] in Hd. destruct (alloc_one (allocator st)) as [[b ab]| | |] eqn:Ea; try done. cbn [mbind res_bind] in Hd.
  destruct (draw _ ab) as [[bs' a2]| | |] eqn:Ed; try done. cbn [mbind res_bind] in Hd. injection Hd as <- ->.
  apply Forall_cons in Hus as [Hb Hus].
  unfold tier. rewrite (new_node_ok blk s st b ab) by (done || lia). cbn [mbind res_bind].
  destruct (Hfill b (mkProgress (writes st) (allocated st ++ [b]) (remaining st) (logical_offset st) ab) bs' a')
    as (ws & E & Hp & Hst); cbn [remaining logical_offset allocator writes allocated] in *; try done; try lia.
  rewrite E. cbn [mbind res_bind]. do 2 eexists. split; [rewrite Hoff, <-app_assoc; done|]. split; [exact Hp|].
  split; [zl|]. split; [intros j Hj; rewrite le32_splice_ne by zl; apply H0; lia|].
  intros dev [Hh1 Hh2]%holds_app l Hl. destruct (decide (l < u)) as [Hlu|Hlu].
  - rewrite <-(Hm dev Hh1 l) by lia. destruct (Hlow l ltac:(lia)) as (h & rest & El & Hh).
    unfold Indirect.lookup_ref. rewrite El. destruct rest as [|x rest].
    + rewrite !chase_one by zl. by rewrite le32_splice_ne by zl.
    + rewrite !chase_more by (done || zl). by rewrite le32_splice_ne by zl.
  - unfold Indirect.lookup_ref. replace l with (u + (l - u)) by lia. rewrite Hu by lia.
    rewrite chase_more by (done || zl). rewrite le32_splice, decide_False by lia.
    rewrite (Hst dev Hh2) by lia. unfold image_of. repeat case_decide; try lia; [|done]. do 2 f_equal. lia.
Qed.

Lemma mapped_direct count : 0 ≤ count → 0 < first → first + count ≤ 2 ^ 32 →
  ∃ blk, emit_data_ptrs (zrep 60 0) 0 (Z.min count DIRECT_COUNT) (as_u32 first) = Ok blk ∧
    mapped_below count blk [] 12 12.
Proof.
  intros Hc Hf Hm. unfold DIRECT_COUNT, as_u32.
  destruct (decide (count = 0)) as [->|Hc0].
  - rewrite Z.min_l by lia. unfold emit_data_ptrs. rewrite seqZ_nil by lia. cbn [foldM]. eexists. split; [done|].
    split; [done|]. split; [intros; apply le32_zrep|]. intros dev _ l Hl.
    unfold Indirect.lookup_ref. rewrite path_direct, chase_one by zl. rewrite le32_zrep. unfold image_of. by rewrite decide_False by lia.
  - rewrite Z.mod_small by lia.
    destruct (emit_spec (zrep 60 0) (Z.min count 12) first) as (blk & -> & Hz & H); [lia|zl|lia|lia|].
    assert (Hz' : zlen blk = 60) by (rewrite Hz; zl).
    exists blk. split; [done|]. split; [done|]. split.
    + intros j Hj. rewrite H by zl. rewrite decide_False by lia. apply le32_zrep.
    + intros dev _ l Hl. unfold Indirect.lookup_ref. rewrite path_direct, chase_one by lia. rewrite H by zl.
      rewrite le32_zrep. unfold image_of, Indirect.some_nonzero. repeat case_decide; try lia; try done. f_equal. f_equal. lia.
Qed.

(** The pointer blocks counted, tier by tier. *)
Lemma count_split count : 12 < count ≤ span p → Z.to_nat (count_indirect_blocks count bs) =
  (1 + if decide (count - 12 ≤ p)%Z then O else
       S (below_double (Z.min (count - 12 - p) (p * p))) +
       (if decide (count - 12 - p ≤ p * p)%Z then O else S (below_triple (count - 12 - p - p * p))))%nat.
Proof.
  intros Hc. pose proof (Indirect.ppb_range bs Hbs) as Hp. change (Indirect.ppb bs) with p in Hp.
  assert (0 < p * p ≤ 16384 * 16384) by nia. assert (0 < p * p * p ≤ 16384 * 16384 * 16384) by nia.
  unfold count_indirect_blocks, DIRECT_COUNT. change (bs / 4) with p. cbv zeta.
  rewrite decide_False, decide_False by lia. destruct (decide (count - 12 ≤ p)) as [Hs|Hs]; [done|].
  unfold below_double, below_triple. pose proof (ceil_bounds (Z.min (count - 12 - p) (p * p)) p ltac:(lia) ltac:(lia)).
  destruct (decide (count - 12 - p ≤ p * p)) as [Hd|Hd]; [lia|].
  unfold as_u64. rewrite Z.mod_small by lia. rewrite (Z.min_l (_ - _ - _ - _)) by (unfold span in *; lia).
  pose proof (ceil_bounds (count - 12 - p - p * p) p ltac:(lia) ltac:(lia)).
  pose proof (ceil_bounds (count - 12 - p - p * p) (p * p) ltac:(lia) ltac:(lia)). lia.
Qed.

Lemma plan_ok count a blks a' : 0 ≤ count ≤ span p → 0 < first < 2 ^ 32 → first + count ≤ 2 ^ 32 →
  draw (Z.to_nat (count_indirect_blocks count bs)) a = Ok (blks, a') → usable blks →
  ∃ pl, plan_contiguous alloc_one first bs count a = Ok (pl, a') ∧ indirect_blocks_allocated pl = blks ∧
    (block_writes pl).*1 ≡ₚ blks ∧ mapped_below count (i_block pl) (block_writes pl) 15 (span p).
Proof.
  intros Hc Hf Hm Hd Hu. pose proof (Indirect.ppb_range bs Hbs) as Hp. change (Indirect.ppb bs) with p in Hp.
  assert (0 < p * p ≤ 16384 * 16384) by nia. assert (0 < p * p * p ≤ 16384 * 16384 * 16384) by nia.
  unfold plan_contiguous. destruct Hbs as [Hb Hpow]. rewrite Hpow, bool_decide_false by lia. cbn [negb orb].
  rewrite decide_False by lia. unfold checked_add64, saturating_sub, u32_max. rewrite decide_True by lia. cbn [ok_or mbind res_bind].
  rewrite decide_False by lia. destruct (mapped_direct count) as (b0 & -> & Hm0); [lia..|]. cbn [mbind res_bind remaining].
  unfold DIRECT_COUNT in *.
  assert (Hslot : ∀ l h rest, 0 ≤ l < span p → Indirect.block_path (Indirect.ppb bs) l = Some (h :: rest) →
    (l < 12 ↔ h < 12) ∧ (l < 12 + p ↔ h < 13) ∧ (l < 12 + p + p * p ↔ h < 14)).
  { intros l h rest Hl E. destruct (block_path_slot l Hl) as (h' & rest' & E' & _ & H1 & H2 & H3). rewrite E in E'.
    injection E' as <- <-. done. }
  assert (Hlow : ∀ u s, 0 ≤ u ≤ span p → (∀ l h, 0 ≤ l < u → (l < 12 ↔ h < 12) ∧ (l < 12 + p ↔ h < 13) ∧ (l < 12 + p + p * p ↔ h < 14) → h < s) →
    ∀ l, 0 ≤ l < u → ∃ h rest, Indirect.block_path (Indirect.ppb bs) l = Some (h :: rest) ∧ 0 ≤ h < s).
  { intros u s Hu' Hs l Hl. destruct (block_path_slot l ltac:(lia)) as (h & rest & E & Hh & H1). exists h, rest.
    split; [done|]. specialize (Hs l h Hl H1). lia. }
  (* direct blocks *)
  destruct (decide (count ≤ 12)) as [H12|H12].
  { rewrite Z.min_l, Z.sub_diag by lia. rewrite decide_True by done.
    unfold count_indirect_blocks, DIRECT_COUNT in Hd. change (bs / 4) with p in Hd. rewrite decide_False, decide_True in Hd by lia.
    injection Hd as <- <-. eexists. split; [done|].
    split; [done|]. split; [done|]. eapply mapped_stop; [exact Hm0|lia|lia|].
    intros l h rest Hl E. destruct (Hslot l h rest ltac:(unfold span in *; lia) E). lia. }
  rewrite Z.min_r by lia. rewrite decide_False by lia.
  (* the single-indirect block *)
  rewrite count_split in Hd by lia. apply draw_split in Hd as (b1 & b2 & am & Hd1 & Hd2 & ->).
  apply Forall_app in Hu as [Hu1 Hu2].
  destruct (mapped_tier count b0 (mkProgress [] [] (count - 12) 12 a) 12 12 p (λ j, [j]) (λ _, O) (fill_leaf first bs) b1 am)
    as (i1 & w1 & -> & Hp1 & Hm1); cbn [remaining logical_offset writes allocated allocator]; try done; try lia.
  { apply fills_leaf. }
  { intros j Hj. apply path_single. exact Hj. }
  { apply Hlow; [unfold span; lia|intros; lia]. }
  cbn [mbind res_bind remaining writes allocated app] in *. set (r1 := Z.min (count - 12) p).
  destruct (decide (count - 12 ≤ p)) as [H1|H1].
  { injection Hd2 as <- <-. rewrite (decide_True _ _ (P := count - 12 - r1 = 0)) by lia. eexists. split; [done|].
    rewrite app_nil_r. split; [done|]. split; [exact Hp1|]. eapply mapped_stop; [exact Hm1|lia|lia|].
    intros l h rest Hl E. destruct (Hslot l h rest ltac:(unfold span in *; lia) E). lia. }
  rewrite (decide_False _ _ (P := count - 12 - r1 = 0)) by lia.
  replace r1 with p by lia. clear r1.
  (* the double-indirect block *)
  apply draw_split in Hd2 as (b3 & b4 & am2 & Hd2 & Hd3 & ->). apply Forall_app in Hu2 as [Hu2 Hu3].
  destruct (mapped_tier count i1 (mkProgress w1 b1 (count - 12 - p) (12 + p) am) 13 (12 + p) (p * p) (λ j, [j / p; j mod p])
      below_double (fill_double alloc_one first bs) b3 am2)
    as (i2 & w2 & -> & Hp2 & Hm2); cbn [remaining logical_offset writes allocated allocator]; try done; try lia.
  { apply fills_double. }
  { intros j Hj. apply path_double; [lia|exact Hj]. }
  { apply Hlow; [unfold span; lia|intros; lia]. }
  cbn [mbind res_bind remaining writes allocated] in *.
  destruct (decide (count - 12 - p ≤ p * p)) as [H2|H2].
  { injection Hd3 as <- <-. rewrite Z.min_l, Z.sub_diag by lia. rewrite decide_True by done. eexists. split; [done|].
    rewrite app_nil_r. split; [done|]. split; [cbn [block_writes plan_of writes]; by rewrite fmap_app, Hp1, Hp2|].
    eapply mapped_stop; [exact Hm2|lia|lia|].
    intros l h rest Hl E. destruct (Hslot l h rest ltac:(unfold span in *; lia) E). lia. }
  rewrite Z.min_r by lia. rewrite (decide_False _ _ (P := count - 12 - p - p * p = 0)) by lia.
  (* the triple-indirect block *)
  destruct (mapped_tier count i2 (mkProgress (w1 ++ w2) (b1 ++ b3) (count - 12 - p - p * p) (12 + p + p * p) am2) 14
      (12 + p + p * p) (p * (p * p)) (λ j, [j / (p * p); j mod (p * p) / p; j mod (p * p) mod p])
      below_triple (fill_triple alloc_one first bs) b4 a')
    as (i3 & w3 & -> & Hp3 & Hm3); cbn [remaining logical_offset writes allocated allocator]; try done; try lia.
  { apply fills_triple. }
  { intros j Hj. apply path_triple; [lia|exact Hj]. }
  { apply Hlow; [unfold span; lia|intros; lia]. }
  { rewrite Z.min_l; [exact Hd3|unfold span in *; lia]. }
  cbn [mbind res_bind remaining writes allocated] in *.
  rewrite decide_False by (unfold span in *; lia). eexists. split; [done|]. rewrite <-!app_assoc. split; [done|].
  cbn [block_writes i_block plan_of writes]. split; [by rewrite !fmap_app, Hp1, Hp2, Hp3, app_assoc|].
  replace (span p) with (12 + p + p * p + p * (p * p)) by (unfold span; lia). rewrite app_assoc. exact Hm3.
Qed.
End plans.

(** ** Properties *)

(** C24: laying a file out over the run of blocks from [first] on.  When the
    caller's allocator can hand out [count_indirect_blocks] usable blocks, the
    plan exists for every size the map spans and takes exactly those blocks, in
    order and no others, writing each once; and on any device that holds what
    the plan writes, [Indirect.lookup] maps logical block [l] to [first + l]
    below [count], and to a hole from there to the end of the map. *)
Theorem plan_contiguous_spec {A} (alloc_one : A → res (Z * A)) first bs count a blks a' :
  Indirect.block_size_ok bs → 0 ≤ count ≤ span (ppb bs) → 0 < first < 2 ^ 32 → first + count ≤ 2 ^ 32 →
  draw alloc_one (Z.to_nat (count_indirect_blocks count bs)) a = Ok (blks, a') → usable blks →
  ∃ pl, plan_contiguous alloc_one first bs count a = Ok (pl, a') ∧
    indirect_blocks_allocated pl = blks ∧ (block_writes pl).*1 ≡ₚ blks ∧ zlen (i_block pl) = 60 ∧
    ∀ dev, holds bs dev (block_writes pl) → ∀ l, 0 ≤ l < span (ppb bs) →
      fst (Indirect.lookup dev bs (i_block pl) l Indirect.new) = Ok (if decide (l < count) then Some (first + l) else None).
Proof.
  intros Hbs Hc Hf Hm Hd Hu.
  destruct (plan_ok alloc_one first bs Hbs count a blks a') as (pl & E & Ha & Hp & Hz & _ & Hl); try done.
  exists pl. split; [done|]. split; [done|]. split; [done|]. split; [done|]. intros dev Hh l Hr.
  destruct (Indirect.lookup_yields dev bs (i_block pl) l Hbs Indirect.new I) as (c' & -> & _). cbn [fst].
  rewrite (Hl dev Hh l Hr). unfold image_of. by rewrite Z.add_0_r.
Qed.

(** An allocator that counts up, as both callers of the planner pass. *)
Definition count_up (next : Z) : res (Z * Z) := Ok (next, next + 1).

(** 14 blocks at 9000 with one pointer block at 100. *)
Lemma plan_contiguous_spec_witness :
  ∃ pl, plan_contiguous count_up 9000 1024 14 100 = Ok (pl, 101) ∧
    indirect_blocks_allocated pl = [100] ∧ (block_writes pl).*1 ≡ₚ [100] ∧ zlen (i_block pl) = 60 ∧
    ∀ dev, holds 1024 dev (block_writes pl) → ∀ l, 0 ≤ l < span (ppb 1024) →
      fst (Indirect.lookup dev 1024 (i_block pl) l Indirect.new) = Ok (if decide (l < 14) then Some (9000 + l) else None).
Proof.
  apply (plan_contiguous_spec count_up 9000 1024 14 100 [100] 101).
  - split; [lia|reflexivity].
  - vm_compute. split; discriminate.
  - lia.
  - lia.
  - vm_compute. reflexivity.
  - by_compute.
Defined.


(** C25: releasing a block-mapped file gives back exactly what it holds.  The
    walk never panics; it succeeds exactly when every block of the file, up to
    the count asked for and the span of the map, can be looked up; and then the
    data runs cover exactly the blocks [Indirect.lookup] maps those logical
    blocks to, each block once, in ascending runs that do not touch, while the
    pointer blocks, ascending and distinct, are exactly the ones those lookups
    pass through. *)
Theorem collect_for_free_spec dev `{!ReaderOk dev} bs i_block expected :
  Indirect.block_size_ok bs → zlen i_block = 60 → bytes_ok i_block → 0 ≤ expected →
  let mapped l := fst (Indirect.lookup dev bs i_block l Indirect.new) in
  let n := Z.min expected (span (ppb bs)) in
  returns (collect_for_free dev bs i_block expected) ∧
  (is_ok (collect_for_free dev bs i_block expected) = true ↔ ∀ l, 0 ≤ l < n → is_ok (mapped l) = true) ∧
  ∀ freed, collect_for_free dev bs i_block expected = Ok freed →
    runs_apart (data_runs freed) ∧ StronglySorted Z.lt (concat (run_blocks <$> data_runs freed)) ∧
    (∀ b, b ∈ concat (run_blocks <$> data_runs freed) ↔ ∃ l, 0 ≤ l < n ∧ mapped l = Ok (Some b)) ∧
    StronglySorted Z.lt (indirect_blocks freed) ∧
    (∀ b, b ∈ indirect_blocks freed ↔
       ∃ l r ns, 0 ≤ l < n ∧ block_trail dev bs i_block l = Ok (r, ns) ∧ b ∈ ns).
Proof.
  intros Hbs Hi Hb He mapped n.
  pose proof (λ l Hl, block_trail_ok dev bs Hbs i_block l Hl Hi) as Hok.
  pose proof (collect_sees dev bs Hbs i_block expected Hi Hb He) as Hs. cbv zeta in Hs. fold n in Hs.
  destruct (traverse (block_trail dev bs i_block) (seqZ 0 n)) as [xs|e| |] eqn:Et.
  2-4: assert (Hall : ∀ l, l ∈ seqZ 0 n → returns (block_trail dev bs i_block l))
    by (intros l Hl%elem_of_seqZ; apply (Hok l ltac:(lia)));
    apply (traverse_returns _ _) in Hall; rewrite Et in Hall; try done.
  - destruct Hs as (ind & Ec & Hind). apply traverse_ok_inv in Et as Hf.
    assert (Hin : ∀ x, x ∈ xs ↔ ∃ l, 0 ≤ l < n ∧ block_trail dev bs i_block l = Ok x).
    { intros x. split.
      - intros (k & Hk)%list_elem_of_lookup. destruct (Forall2_lookup_r _ _ _ _ _ Hf Hk) as (l & Hl & E).
        exists l. split; [|exact E]. apply list_elem_of_lookup_2 in Hl. apply elem_of_seqZ in Hl. lia.
      - intros (l & Hl & E). assert (Hl' : l ∈ seqZ 0 n) by (apply elem_of_seqZ; lia).
        apply list_elem_of_lookup in Hl' as (k & Hk). destruct (Forall2_lookup_l _ _ _ _ _ Hf Hk) as (y & Hy & E').
        rewrite E in E'. injection E' as <-. by eapply list_elem_of_lookup_2. }
    rewrite Ec. split; [done|]. split.
    { split; [|done]. intros _ l Hl. unfold mapped. destruct (Hok l ltac:(lia)) as (_ & <- & _).
      assert (Hl' : l ∈ seqZ 0 n) by (apply elem_of_seqZ; lia).
      apply list_elem_of_lookup in Hl' as (k & Hk). by destruct (Forall2_lookup_l _ _ _ _ _ Hf Hk) as (y & Hy & ->). }
    intros freed [= <-]. cbn [data_runs indirect_blocks].
    destruct (sort_dedup_spec (omap fst xs)) as [Hs1 Hs2]. destruct (sort_dedup_spec ind) as [Hi1 Hi2].
    assert (Hd : ∀ b, b ∈ omap fst xs ↔ ∃ l, 0 ≤ l < n ∧ mapped l = Ok (Some b)).
    { intros b. rewrite list_elem_of_omap. split.
      - intros ([o ns] & Hx & E). cbn in E. subst o. apply Hin in Hx as (l & Hl & E). exists l. split; [done|].
        apply (Hok l ltac:(lia)). by exists ns.
      - intros (l & Hl & E). apply (Hok l ltac:(lia)) in E as (ns & E). exists (Some b, ns). split; [|done].
        apply Hin. by exists l. }
    destruct (coalesce_runs_spec (sort_dedup (omap fst xs)) Hs1) as [Hc1 Hc2].
    { apply Forall_forall. intros b Hb'. apply Hs2, Hd in Hb' as (l & Hl & E).
      apply (Hok l ltac:(lia)) in E as (ns & E). by eapply block_trail_range. }
    split; [exact Hc2|]. rewrite Hc1. split; [exact Hs1|]. split; [intros b; by rewrite Hs2|]. split; [exact Hi1|].
    intros b. rewrite Hi2, Hind, list_elem_of_In, in_concat. split.
    + intros (ns & Hx & Hns). apply list_elem_of_In in Hx, Hns. apply list_elem_of_fmap in Hx as ([r ns'] & -> & Hx).
      apply Hin in Hx as (l & Hl & E). by exists l, r, ns'.
    + intros (l & r & ns & Hl & E & Hb'). exists ns. rewrite <-!list_elem_of_In. split; [|done]. apply list_elem_of_fmap. exists (r, ns). split; [done|].
      apply Hin. by exists l.
  - rewrite Hs. split; [done|]. split; [|done]. split; [done|]. intros Hm. exfalso.
    rewrite (traverse_ok _ (λ l, match block_trail dev bs i_block l with Ok x => x | _ => (None, []) end)) in Et; [done|].
    intros l Hl%elem_of_seqZ. specialize (Hm l ltac:(lia)). unfold mapped in Hm.
    destruct (Hok l ltac:(lia)) as (_ & E & _). rewrite <-E in Hm. by destruct (block_trail dev bs i_block l).
Qed.

(** An image whose block 1 holds pointers 5 and 6 after a hole; the file's first
    block is 4. *)
Definition sample_image : bytes :=
  zrep 1024 0 ++ le_split 4 0 ++ le_split 4 5 ++ le_split 4 6 ++ zrep 1012 0.
Definition sample_i_block : bytes := le_split 4 4 ++ zrep 44 0 ++ le_split 4 1 ++ zrep 8 0.

Lemma collect_for_free_spec_witness :
  collect_for_free (image_reader sample_image) 1024 sample_i_block 15 = Ok (mkFreed [mkRun 4 3] [1]) ∧
  ∀ b, b ∈ [4; 5; 6] ↔
    ∃ l, 0 ≤ l < 15 ∧ fst (Indirect.lookup (image_reader sample_image) 1024 sample_i_block l Indirect.new) = Ok (Some b).
Proof.
  assert (Hr : ReaderOk (image_reader sample_image)) by (apply image_reader_ok; by_compute).
  destruct (collect_for_free_spec (image_reader sample_image) 1024 sample_i_block 15)
    as (_ & _ & H); [split; [lia|reflexivity]|reflexivity|by_compute|lia|].
  assert (E : collect_for_free (image_reader sample_image) 1024 sample_i_block 15 = Ok (mkFreed [mkRun 4 3] [1]))
    by (vm_compute; reflexivity).
  split; [exact E|]. destruct (H _ E) as (_ & _ & Hd & _). exact Hd.
Defined.

End IndirectMut.
