(* ===== verification/Dir.v ===== *)
(** Dir: linear directory blocks (src/src/dir.rs): the record iterator, parsing
    with and without the checksum tail, and adding and removing an entry in
    place.  The specification views a block as a list of records ([chunk]s)
    followed by the reserved tail. *)
From S2P Require Import Prelude Errors Bytes Device Features Superblock Checksum Inode.

Inductive DirEntryType :=
  | Unknown | RegFile | Directory | CharDev | BlockDev | Fifo | Socket | Symlink.
#[global] Instance DirEntryType_eq_dec : EqDecision DirEntryType.
Proof. solve_decision. Defined.

Module EntryType.
Definition to_u8 (t : DirEntryType) : Z :=
  match t with
  | Unknown => 0 | RegFile => 1 | Directory => 2 | CharDev => 3
  | BlockDev => 4 | Fifo => 5 | Socket => 6 | Symlink => 7
  end.

Definition from_mode (mode : Z) : DirEntryType :=
  let m := Z.land mode S_IFMT in
  if decide (m = S_IFREG) then RegFile else
  if decide (m = S_IFDIR) then Directory else
  if decide (m = S_IFCHR) then CharDev else
  if decide (m = S_IFBLK) then BlockDev else
  if decide (m = S_IFIFO) then Fifo else
  if decide (m = S_IFSOCK) then Socket else
  if decide (m = S_IFLNK) then Symlink else Unknown.

Definition from_u8 (b : Z) : DirEntryType :=
  if decide (b = 1) then RegFile else
  if decide (b = 2) then Directory else
  if decide (b = 3) then CharDev else
  if decide (b = 4) then BlockDev else
  if decide (b = 5) then Fifo else
  if decide (b = 6) then Socket else
  if decide (b = 7) then Symlink else Unknown.
End EntryType.

Module DirEntry.
Record t := mk { inode : Z; name : bytes; file_type : DirEntryType }.
End DirEntry.

(** ** Parsing *)

(** [name_len] out of the two bytes that may hold it. *)
Definition join_name_len (has_file_type : bool) (name_len_lo type_or_namehi : Z) : Z :=
  if has_file_type then name_len_lo else Z.lor (Z.shiftl type_or_namehi 8) name_len_lo.

(** [DirBlockIter::next] from [offset]: the next live entry and the offset
    after it; the loop skips unused records. *)
Fixpoint next (fuel : nat) (buf : bytes) (has_file_type : bool) (offset : Z)
    : res (option (DirEntry.t * Z)) :=
  match fuel with
  | O => OutOfFuel
  | S fuel =>
      if decide (zlen buf < offset + 8) then Ok None else
      inode ← u32_le buf offset;
      rec_len ← u16_le buf (offset + 4);
      if decide (rec_len < 8 ∨ zlen buf - offset < rec_len ∨ rec_len mod 4 ≠ 0)
      then Err (CorruptDirEntry "bad rec_len") else
      name_len_lo ← get buf (offset + 6);
      type_or_namehi ← get buf (offset + 7);
      let is_csum_tail := bool_decide (inode = 0) && bool_decide (rec_len = 12) &&
        bool_decide (name_len_lo = 0) && bool_decide (type_or_namehi = 0xDE) in
      let entry_end := offset + rec_len in
      if bool_decide (inode = 0) || is_csum_tail
      then if is_csum_tail then Ok None else next fuel buf has_file_type entry_end
      else
        let name_len := join_name_len has_file_type name_len_lo type_or_namehi in
        if decide (rec_len < 8 + name_len) then Err (CorruptDirEntry "name overflows rec_len") else
        let name_start := offset + 8 in
        name ← slice buf name_start name_len;
        let file_type := if has_file_type then EntryType.from_u8 type_or_namehi else Unknown in
        Ok (Some (DirEntry.mk inode name file_type, entry_end))
  end.

Fixpoint parse_loop (fuel : nat) (buf : bytes) (has_file_type : bool) (offset : Z)
    (out : list DirEntry.t) : res (list DirEntry.t) :=
  match fuel with
  | O => OutOfFuel
  | S fuel' =>
      o ← next fuel buf has_file_type offset;
      match o with
      | None => Ok out
      | Some (e, offset) => parse_loop fuel' buf has_file_type offset (out ++ [e])
      end
  end.

Definition parse_block (buf : bytes) (has_file_type : bool) : res (list DirEntry.t) :=
  parse_loop (S (length buf)) buf has_file_type 0 [].

Definition has_csum_tail (buf : bytes) : bool :=
  if decide (zlen buf < 12) then false else
  let off := zlen buf - 12 in
  bool_decide (le32 buf off = 0) && bool_decide (le16 buf (off + 4) = 12) &&
  bool_decide (byte_at buf (off + 6) = 0) && bool_decide (byte_at buf (off + 7) = 0xDE).

Definition parse_block_verified `{Crc32c} (buf : bytes) (has_file_type : bool) (ino generation : Z)
    (csum : Checksummer) : res (list DirEntry.t) :=
  ok ← (if enabled csum && has_csum_tail buf then verify_dir_entry_tail csum ino generation buf
        else Ok true);
  if negb ok then Err (BadChecksum "directory block") else
  parse_block buf has_file_type.

(** ** Mutation *)

Definition entry_rec_len (name_len : Z) : Z := 8 + Z.land (name_len + 3) (Z.lnot 3).

Definition write_entry (buf : bytes) (off inode rec_len : Z) (name : bytes) (file_type : DirEntryType)
    (has_file_type : bool) : res bytes :=
  buf ← put buf off (le_split 4 inode);
  buf ← put buf (off + 4) (le_split 2 rec_len);
  let name_len := zlen name in
  buf ← put buf (off + 6) [if has_file_type then as_u8 name_len else Z.land name_len 0xFF];
  buf ← put buf (off + 7) [if has_file_type then EntryType.to_u8 file_type
                           else Z.land (Z.shiftr name_len 8) 0xFF];
  buf ← put buf (off + 8) name;
  let pad_start := off + 8 + name_len in
  let pad_end := off + rec_len in
  if decide (pad_start < pad_end) then put buf pad_start (zrep (pad_end - pad_start) 0) else Ok buf.

Fixpoint add_loop (fuel : nat) (buf : bytes) (off usable needed inode : Z) (name : bytes)
    (file_type : DirEntryType) (has_file_type : bool) : res bytes :=
  match fuel with
  | O => OutOfFuel
  | S fuel =>
      if decide (usable < off + 8) then Err OutOfBounds else
      cur_inode ← u32_le buf off;
      rec_len ← u16_le buf (off + 4);
      if decide (rec_len < 8 ∨ rec_len mod 4 ≠ 0 ∨ usable < off + rec_len)
      then Err (CorruptDirEntry "bad rec_len during add") else
      let continue := add_loop fuel buf (off + rec_len) usable needed inode name file_type has_file_type in
      if decide (cur_inode = 0) then
        if decide (needed ≤ rec_len)
        then write_entry buf off inode (as_u16 rec_len) name file_type has_file_type else continue
      else
        cur_name_lo ← get buf (off + 6);
        cur_type_or_hi ← get buf (off + 7);
        let cur_name_len := join_name_len has_file_type cur_name_lo cur_type_or_hi in
        let cur_actual := entry_rec_len cur_name_len in
        if decide (cur_actual + needed ≤ rec_len) then
          buf ← put buf (off + 4) (le_split 2 (as_u16 cur_actual));
          let new_off := off + cur_actual in
          let new_rec_len := rec_len - cur_actual in
          write_entry buf new_off inode (as_u16 new_rec_len) name file_type has_file_type
        else continue
  end.

Definition add_entry_to_block (buf : bytes) (inode : Z) (name : bytes) (file_type : DirEntryType)
    (has_file_type : bool) (reserved_tail : Z) : res bytes :=
  if decide (inode = 0) then Err (CorruptDirEntry "refuse to insert entry with inode 0") else
  if decide (zlen name = 0 ∨ 255 < zlen name) then Err (CorruptDirEntry "name length out of range") else
  usable ← ok_or (checked_sub (zlen buf) reserved_tail) OutOfBounds;
  let needed := entry_rec_len (zlen name) in
  if decide (usable < needed) then Err OutOfBounds else
  add_loop (S (length buf)) buf 0 usable needed inode name file_type has_file_type.

Fixpoint remove_loop (fuel : nat) (buf : bytes) (off : Z) (prev_off : option Z) (usable : Z)
    (name : bytes) (has_file_type : bool) : res (bytes * bool) :=
  match fuel with
  | O => OutOfFuel
  | S fuel =>
      if decide (usable < off + 8) then Ok (buf, false) else
      cur_inode ← u32_le buf off;
      rec_len ← u16_le buf (off + 4);
      if decide (rec_len < 8 ∨ rec_len mod 4 ≠ 0 ∨ usable < off + rec_len)
      then Err (CorruptDirEntry "bad rec_len during remove") else
      let continue := remove_loop fuel buf (off + rec_len) (Some off) usable name has_file_type in
      if decide (cur_inode = 0) then continue else
      cur_name_lo ← get buf (off + 6);
      cur_type_or_hi ← get buf (off + 7);
      let cur_name_len := join_name_len has_file_type cur_name_lo cur_type_or_hi in
      matches ← (if decide (8 + cur_name_len ≤ rec_len)
                 then s ← slice buf (off + 8) cur_name_len; Ok (bool_decide (s = name)) else Ok false);
      if negb matches then continue else
      match prev_off with
      | Some prev =>
          prev_rec_len ← u16_le buf (prev + 4);
          let merged := prev_rec_len + rec_len in
          if decide (u16_max < merged) then Err (CorruptDirEntry "merged rec_len overflows u16") else
          buf ← put buf (prev + 4) (le_split 2 (as_u16 merged));
          buf ← put buf off (zrep 8 0);
          Ok (buf, true)
      | None =>
          buf ← put buf off (le_split 4 0);
          Ok (buf, true)
      end
  end.

Definition remove_entry_from_block (buf : bytes) (name : bytes) (has_file_type : bool)
    (reserved_tail : Z) : res (bytes * bool) :=
  usable ← ok_or (checked_sub (zlen buf) reserved_tail) OutOfBounds;
  remove_loop (S (length buf)) buf 0 None usable name has_file_type.

(** ** Specification: a block as a list of records *)

Section chunks.
Context (has_file_type : bool).

Definition chunk_name_len (c : bytes) : Z := join_name_len has_file_type (byte_at c 6) (byte_at c 7).

Definition looks_like_tail (c : bytes) : Prop :=
  le32 c 0 = 0 ∧ le16 c 4 = 12 ∧ byte_at c 6 = 0 ∧ byte_at c 7 = 0xDE.

(** A record: its own length in [rec_len], a live one holding its name, an
    unused one not posing as the checksum tail. *)
Definition chunk_ok (c : bytes) : Prop :=
  bytes_ok c ∧ 8 ≤ zlen c < 2 ^ 16 ∧ zlen c mod 4 = 0 ∧ le16 c 4 = zlen c ∧
  (le32 c 0 ≠ 0 → 1 ≤ chunk_name_len c ∧ 8 + chunk_name_len c ≤ zlen c) ∧ ¬ looks_like_tail c.

Definition chunk_entry (c : bytes) : option DirEntry.t :=
  if decide (le32 c 0 = 0) then None else
  Some (DirEntry.mk (le32 c 0) (sub c 8 (chunk_name_len c))
    (if has_file_type then EntryType.from_u8 (byte_at c 7) else Unknown)).

Definition tail_ok (rest : bytes) : Prop :=
  zlen rest < 8 ∨ (12 ≤ zlen rest ∧ looks_like_tail rest).

(** The block [concat chunks ++ rest]. *)
Definition dir_block (chunks : list bytes) (rest : bytes) : Prop :=
  Forall chunk_ok chunks ∧ tail_ok rest ∧ bytes_ok rest.

Definition entries_of (chunks : list bytes) : list DirEntry.t := omap chunk_entry chunks.
End chunks.

#[global] Instance looks_like_tail_dec c : Decision (looks_like_tail c).
Proof. unfold looks_like_tail. apply _. Defined.
#[global] Instance chunk_ok_dec hft c : Decision (chunk_ok hft c).
Proof. unfold chunk_ok, bytes_ok. apply _. Defined.
#[global] Instance tail_ok_dec c : Decision (tail_ok c).
Proof. unfold tail_ok. apply _. Defined.
#[global] Instance dir_block_dec hft cs r : Decision (dir_block hft cs r).
Proof. unfold dir_block, bytes_ok. apply _. Defined.

(** ** Walking a block record by record *)

Lemma chunk_ok_bytes hft c : chunk_ok hft c → bytes_ok c ∧ 8 ≤ zlen c < 2 ^ 16.
Proof. by intros (? & ? & _). Qed.

Lemma join_name_len_nonneg hft a b : 0 ≤ a < 256 → 0 ≤ b < 256 → 0 ≤ join_name_len hft a b.
Proof.
  intros. unfold join_name_len. destruct hft; [lia|]. rewrite lor_shiftl_add by lia. lia.
Qed.

Lemma chunk_name_len_nonneg hft c : bytes_ok c → 0 ≤ chunk_name_len hft c.
Proof. intros. apply join_name_len_nonneg; by apply byte_at_range. Qed.

(** What the loops read at the start of a record. *)
Lemma at_chunk hft pre c post : chunk_ok hft c →
  let buf := pre ++ c ++ post in
  u32_le buf (zlen pre) = Ok (le32 c 0) ∧ u16_le buf (zlen pre + 4) = Ok (zlen c) ∧
  get buf (zlen pre + 6) = Ok (byte_at c 6) ∧ get buf (zlen pre + 7) = Ok (byte_at c 7) ∧
  zlen buf = zlen pre + zlen c + zlen post.
Proof.
  intros (Hb & Hl & H4 & Hr & _) buf. unfold buf. split_and!.
  - rewrite <-(Z.add_0_r (zlen pre)). apply u32_le_mid; lia.
  - rewrite u16_le_mid by lia. by rewrite Hr.
  - apply get_mid. lia.
  - apply get_mid. lia.
  - rewrite !zlen_app. lia.
Qed.

Lemma tail_stops hft fuel pre rest : tail_ok rest →
  next (S fuel) (pre ++ rest) hft (zlen pre) = Ok None.
Proof.
  intros Ht. simpl. case_decide as Hl; [done|]. rewrite zlen_app in Hl.
  destruct Ht as [|(Hr & H0 & H4 & H6 & H7)]; [lia|].
  rewrite <-(app_nil_r rest).
  replace (u32_le (pre ++ rest ++ []) (zlen pre)) with (u32_le (pre ++ rest ++ []) (zlen pre + 0)) by (f_equal; lia).
  rewrite u32_le_mid, u16_le_mid by lia. rewrite !bind_Ok, H0, H4.
  rewrite decide_False by (rewrite app_nil_r, zlen_app; intros [|[|]]; [lia|lia|done]).
  rewrite !get_mid, !bind_Ok, H6, H7 by lia. done.
Qed.

(** One record: skipped when unused, returned when live. *)
Lemma next_chunk hft fuel pre c post : chunk_ok hft c →
  next (S fuel) (pre ++ c ++ post) hft (zlen pre) =
  match chunk_entry hft c with
  | Some e => Ok (Some (e, zlen (pre ++ c)))
  | None => next fuel ((pre ++ c) ++ post) hft (zlen (pre ++ c))
  end.
Proof.
  intros Hc. destruct (at_chunk hft pre c post Hc) as (E0 & E4 & E6 & E7 & El). cbn [next].
  pose proof (zlen_nonneg pre). pose proof (zlen_nonneg post).
  destruct Hc as (Hb & Hl & H4 & Hr & Hlive & Htail). rewrite E0, E4, E6, E7, !bind_Ok, El.
  rewrite decide_False by lia. rewrite decide_False by (intros [|[|]]; [lia|lia|done]).
  unfold chunk_entry. case_bool_decide as Hi.
  - rewrite (decide_True (P := le32 c 0 = 0)) by done. simpl orb. rewrite <-Hr.
    destruct (_ && _ && _ && _) eqn:Et.
    { exfalso. apply Htail. rewrite !andb_true_iff, !bool_decide_eq_true in Et. unfold looks_like_tail. tauto. }
    rewrite Hr, zlen_app, <-app_assoc. done.
  - rewrite (decide_False (P := le32 c 0 = 0)) by done. simpl orb.
    destruct (Hlive Hi) as [Hn1 Hn2]. fold (chunk_name_len hft c). rewrite decide_False by lia.
    rewrite slice_mid by lia. rewrite bind_Ok. by rewrite zlen_app.
Qed.

Lemma next_spec hft rest todo : tail_ok rest → Forall (chunk_ok hft) todo →
  ∀ fuel pre, (length todo < fuel)%nat →
  (entries_of hft todo = [] ∧ next fuel (pre ++ concat todo ++ rest) hft (zlen pre) = Ok None) ∨
  ∃ e todo1 todo2, todo = todo1 ++ todo2 ∧ (0 < length todo1)%nat ∧
    entries_of hft todo = e :: entries_of hft todo2 ∧
    next fuel (pre ++ concat todo ++ rest) hft (zlen pre) = Ok (Some (e, zlen (pre ++ concat todo1))).
Proof.
  intros Ht. induction 1 as [|c todo Hc Hall IH]; intros fuel pre Hf;
    (destruct fuel as [|fuel]; [simpl in Hf; lia|]).
  { left. split; [done|]. by apply tail_stops. }
  simpl concat. rewrite <-app_assoc, next_chunk by done. unfold entries_of in *. cbn [omap list_omap].
  destruct (chunk_entry hft c) as [e|].
  - right. exists e, [c], todo. simpl. rewrite app_nil_r. split_and!; [done|lia|done|done].
  - simpl in Hf. destruct (IH fuel (pre ++ c) ltac:(lia)) as [[He Hn]|(e & t1 & t2 & -> & Hlen & He & Hn)].
    + left. by rewrite Hn.
    + right. exists e, (c :: t1), t2. simpl. rewrite Hn, app_assoc. split_and!; [done|lia|done|done].
Qed.

Lemma parse_loop_spec hft rest : tail_ok rest → ∀ fuel todo pre out,
  Forall (chunk_ok hft) todo → (length todo < fuel)%nat →
  parse_loop fuel (pre ++ concat todo ++ rest) hft (zlen pre) out = Ok (out ++ entries_of hft todo).
Proof.
  intros Ht. induction fuel as [|fuel IH]; intros todo pre out Hall Hf; [lia|]. cbn [parse_loop].
  destruct (next_spec hft rest todo Ht Hall (S fuel) pre Hf) as [[He ->]|(e & t1 & t2 & -> & Hlen & He & ->)].
  - rewrite bind_Ok. by rewrite He, app_nil_r.
  - rewrite bind_Ok, He. apply Forall_app in Hall as [_ Hall2]. rewrite length_app in Hf.
    rewrite concat_app, <-app_assoc, app_assoc. rewrite IH by (done || lia). by rewrite <-app_assoc.
Qed.

Lemma length_concat_chunks hft chunks : Forall (chunk_ok hft) chunks →
  (length chunks ≤ length (concat chunks))%nat.
Proof.
  induction 1 as [|c cs Hc Hcs IH]; simpl; [done|]. rewrite length_app.
  apply chunk_ok_bytes in Hc as [_ Hc]. unfold zlen in Hc. lia.
Qed.

(** A well-formed block parses to its live records, in order. *)
Lemma parse_dir_block hft chunks rest : dir_block hft chunks rest →
  parse_block (concat chunks ++ rest) hft = Ok (entries_of hft chunks).
Proof.
  intros (Hc & Ht & _). unfold parse_block.
  apply (parse_loop_spec hft rest Ht _ chunks [] []); [done|].
  pose proof (length_concat_chunks hft chunks Hc). rewrite length_app. lia.
Qed.

(** ** Writing one record *)

Definition name_bytes (hft : bool) (name : bytes) (ty : DirEntryType) : bytes :=
  [if hft then as_u8 (zlen name) else Z.land (zlen name) 0xFF;
   if hft then EntryType.to_u8 ty else Z.land (Z.shiftr (zlen name) 8) 0xFF].

Definition new_chunk (hft : bool) (inode len : Z) (name : bytes) (ty : DirEntryType) : bytes :=
  le_split 4 inode ++ le_split 2 len ++ name_bytes hft name ty ++ name ++ zrep (len - 8 - zlen name) 0.

#[global] Arguments new_chunk : simpl never.

(** Overwriting the piece that starts where [pre] ends. *)
Lemma put_piece {A} (pre x post s : list A) : zlen s = zlen x →
  put (pre ++ x ++ post) (zlen pre) s = Ok (pre ++ s ++ post).
Proof.
  intros Hs. rewrite <-(Z.add_0_r (zlen pre)), put_mid by lia.
  by rewrite splice_all.
Qed.

Lemma cut {A} (l : list A) n : 0 ≤ n ≤ zlen l → ∃ a b, l = a ++ b ∧ zlen a = n ∧ zlen b = zlen l - n.
Proof.
  intros Hn. exists (take (Z.to_nat n) l), (drop (Z.to_nat n) l). unfold zlen in *.
  rewrite take_drop, length_take, length_drop. split_and!; [done|lia|lia].
Qed.

Lemma write_entry_spec hft pre c post inode name ty :
  8 + zlen name ≤ zlen c →
  write_entry (pre ++ c ++ post) (zlen pre) inode (zlen c) name ty hft =
  Ok (pre ++ new_chunk hft inode (zlen c) name ty ++ post).
Proof.
  intros Hn. pose proof (zlen_nonneg name). set (len := zlen c) in *.
  destruct (cut c 4) as (c0 & r0 & -> & H0 & Hr0); [lia|].
  destruct (cut r0 2) as (c1 & r1 & -> & H1 & Hr1); [lia|].
  destruct (cut r1 1) as (c2 & r2 & -> & H2 & Hr2); [lia|].
  destruct (cut r2 1) as (c3 & r3 & -> & H3 & Hr3); [lia|].
  destruct (cut r3 (zlen name)) as (c4 & c5 & -> & H4 & H5); [lia|].
  unfold write_entry. rewrite <-!app_assoc. fold len in Hr0.
  rewrite put_piece, bind_Ok by (rewrite zlen_le_split; lia).
  rewrite (app_assoc pre). replace (zlen pre + 4) with (zlen (pre ++ le_split 4 inode)) by zl.
  rewrite put_piece, bind_Ok by (rewrite zlen_le_split; lia).
  rewrite (app_assoc (pre ++ _)). replace (zlen pre + 6) with (zlen ((pre ++ le_split 4 inode) ++ le_split 2 len)) by zl.
  rewrite put_piece, bind_Ok by (rewrite H2; done).
  set (b6 := if hft then as_u8 _ else _). set (b7 := if hft then EntryType.to_u8 ty else _).
  rewrite (app_assoc (_ ++ le_split 2 len)).
  replace (zlen pre + 7) with (zlen (((pre ++ le_split 4 inode) ++ le_split 2 len) ++ [b6])) by (zl).
  rewrite put_piece, bind_Ok by (rewrite H3; done).
  rewrite (app_assoc (_ ++ [b6])).
  replace (zlen pre + 8) with (zlen ((((pre ++ le_split 4 inode) ++ le_split 2 len) ++ [b6]) ++ [b7])) by zl.
  rewrite put_piece, bind_Ok by (rewrite H4; done).
  set (hd := (((pre ++ le_split 4 inode) ++ le_split 2 len) ++ [b6]) ++ [b7]).
  assert (Hhd : ∀ x, pre ++ new_chunk hft inode len name ty ++ x =
    (hd ++ name) ++ zrep (len - 8 - zlen name) 0 ++ x).
  { intros x. unfold hd, new_chunk, name_bytes. fold b6 b7. by rewrite <-!app_assoc. }
  rewrite Hhd, (app_assoc hd). assert (zlen hd = zlen pre + 8) by (unfold hd; zl). case_decide.
  - replace (zlen hd + zlen name) with (zlen (hd ++ name)) by zl. rewrite put_piece by zl.
    do 3 f_equal. f_equal. zl.
  - replace (len - 8 - zlen name) with 0 by lia. assert (zlen c5 = 0) by lia.
    destruct c5; [done|]. rewrite zlen_cons in *. pose proof (zlen_nonneg c5). lia.
Qed.

Lemma entry_rec_len_spec n : 0 ≤ n →
  8 + n ≤ entry_rec_len n ≤ 8 + n + 3 ∧ entry_rec_len n mod 4 = 0.
Proof.
  intros Hn. unfold entry_rec_len.
  assert (E : Z.land (n + 3) (Z.lnot 3) = 4 * ((n + 3) / 4)).
  { rewrite <-Z.ldiff_land. change 3 with (Z.ones 2) at 2. rewrite Z.ldiff_ones_r by lia.
    rewrite Z.shiftr_div_pow2, Z.shiftl_mul_pow2 by lia. change (2 ^ 2) with 4. lia. }
  rewrite E. pose proof (Z.mul_div_le (n + 3) 4 ltac:(lia)). pose proof (Z.mul_succ_div_gt (n + 3) 4 ltac:(lia)).
  split; [lia|]. rewrite <-(Z.mod_unique_pos _ 4 (2 + (n + 3) / 4) 0); lia.
Qed.

Lemma to_u8_range ty : 0 ≤ EntryType.to_u8 ty < 256.
Proof. destruct ty; by vm_compute. Qed.
Lemma from_to_u8 ty : EntryType.from_u8 (EntryType.to_u8 ty) = ty.
Proof. by destruct ty. Qed.

Lemma name_bytes_spec hft name ty : 1 ≤ zlen name ≤ 255 →
  ∃ b6 b7, name_bytes hft name ty = [b6; b7] ∧ 0 ≤ b6 < 256 ∧ 0 ≤ b7 < 256 ∧
    join_name_len hft b6 b7 = zlen name ∧
    (if hft then EntryType.from_u8 b7 else Unknown) = if hft then ty else Unknown.
Proof.
  intros Hn. unfold name_bytes, join_name_len. eexists _, _. split; [done|]. destruct hft.
  - unfold as_u8. rewrite Z.mod_small by lia. pose proof (to_u8_range ty). rewrite from_to_u8. split_and!; first [lia|done].
  - change 0xFF with (2 ^ 8 - 1). rewrite !land_ones_mod, Z.shiftr_div_pow2 by lia.
    rewrite (Z.div_small (zlen name)), (Z.mod_small (zlen name)) by lia. simpl. split_and!; first [lia|done].
Qed.

Lemma new_chunk_spec hft inode len name ty :
  0 < inode < 2 ^ 32 → bytes_ok name → 1 ≤ zlen name ≤ 255 → 8 + zlen name ≤ len < 2 ^ 16 → len mod 4 = 0 →
  let c := new_chunk hft inode len name ty in
  chunk_ok hft c ∧ zlen c = len ∧
  chunk_entry hft c = Some (DirEntry.mk inode name (if hft then ty else Unknown)).
Proof.
  intros Hi Hb Hn Hl H4 c. destruct (name_bytes_spec hft name ty Hn) as (b6 & b7 & Enb & H6 & H7 & Hj & Hty).
  assert (Hlen : zlen c = len) by (unfold c, new_chunk; rewrite Enb; zl).
  set (h := le_split 4 inode ++ le_split 2 len).
  assert (Ec : c = h ++ [b6; b7] ++ name ++ zrep (len - 8 - zlen name) 0)
    by (unfold c, new_chunk, h; rewrite Enb; by rewrite <-!app_assoc).
  assert (H : zlen h = 6) by (unfold h; zl). clearbody c.
  assert (E0 : le32 c 0 = inode).
  { unfold le32. rewrite Ec. unfold h. rewrite <-app_assoc, sub_app_l by zl.
    rewrite sub_all by zl. apply le_combine_split. lia. }
  assert (E4 : le16 c 4 = len).
  { unfold le16. rewrite Ec, sub_app_l by lia. unfold h. rewrite sub_app_r by zl.
    rewrite zlen_le_split. change (4 - Z.of_nat 4) with 0. rewrite sub_all by zl. apply le_combine_split. lia. }
  assert (E67 : ∀ o, 0 ≤ o < 2 → byte_at c (6 + o) = byte_at [b6; b7] o).
  { intros o Ho. pose proof (byte_at_mid h [b6; b7] (name ++ zrep (len - 8 - zlen name) 0) o) as M.
    rewrite <-Ec, H in M. apply M. by change (zlen [b6; b7]) with 2. }
  pose proof (E67 0 ltac:(lia)) as E6. pose proof (E67 1 ltac:(lia)) as E7.
  change (6 + 0) with 6 in E6. change (6 + 1) with 7 in E7.
  change (byte_at [b6; b7] 0) with b6 in E6. change (byte_at [b6; b7] 1) with b7 in E7.
  assert (En : chunk_name_len hft c = zlen name) by (unfold chunk_name_len; by rewrite E6, E7).
  assert (Es : sub c 8 (zlen name) = name).
  { rewrite Ec, sub_app_r by lia. rewrite sub_app_r by (change (zlen [b6; b7]) with 2; lia).
    change (zlen [b6; b7]) with 2. replace (8 - zlen h - 2) with 0 by lia.
    rewrite sub_app_l by lia. apply sub_all. lia. }
  split; [|split; [done|]].
  - split; [|split; [lia|]; split; [by rewrite Hlen|]; split; [lia|]; split].
    + rewrite Ec. unfold h. rewrite !bytes_ok_app. split_and!; try apply bytes_ok_le_split; try done.
      * apply Forall_cons; split; [done|by apply Forall_singleton].
      * apply bytes_ok_zrep. lia.
    + intros _. rewrite En. lia.
    + intros (H0 & _). lia.
  - unfold chunk_entry. rewrite E0, decide_False by lia. by rewrite En, Es, E7, Hty.
Qed.

(** A record resized without touching its live bytes. *)
Lemma resized_chunk hft c c' :
  chunk_ok hft c → bytes_ok c' → 8 ≤ zlen c' < 2 ^ 16 → zlen c' mod 4 = 0 → le16 c' 4 = zlen c' →
  sub c' 0 4 = sub c 0 4 → sub c' 6 2 = sub c 6 2 → (le32 c 0 = 0 → zlen c' ≠ 12) →
  (le32 c 0 ≠ 0 → 8 + chunk_name_len hft c ≤ zlen c' ∧
     sub c' 8 (chunk_name_len hft c) = sub c 8 (chunk_name_len hft c)) →
  chunk_ok hft c' ∧ chunk_entry hft c' = chunk_entry hft c.
Proof.
  intros (Hb & Hl & _ & _ & Hlive & _) Hb' Hl' H4 Hr H03 H67 H12 Hn.
  assert (E0 : le32 c' 0 = le32 c 0) by (unfold le32; by rewrite H03).
  assert (Hbyte : ∀ o, 0 ≤ o < 2 → byte_at c' (6 + o) = byte_at c (6 + o)).
  { intros o Ho. unfold byte_at. f_equal.
    pose proof (lookup_sub c' 6 2 (Z.to_nat o)) as A1. pose proof (lookup_sub c 6 2 (Z.to_nat o)) as A2.
    rewrite H67 in A1. rewrite A1 in A2. rewrite !decide_True in A2 by lia.
    by replace (Z.to_nat (6 + o)) with (Z.to_nat 6 + Z.to_nat o)%nat by lia. }
  pose proof (Hbyte 0 ltac:(lia)) as E6. pose proof (Hbyte 1 ltac:(lia)) as E7.
  change (6 + 0) with 6 in E6. change (6 + 1) with 7 in E7.
  assert (En : chunk_name_len hft c' = chunk_name_len hft c) by (unfold chunk_name_len; by rewrite E6, E7).
  split.
  - split; [done|]. split; [lia|]. split; [done|]. split; [done|]. rewrite E0, En. split.
    + intros Hi. destruct (Hlive Hi). destruct (Hn Hi). lia.
    + intros (Hz & Hq & _). rewrite E0 in Hz. specialize (H12 Hz). lia.
  - unfold chunk_entry. rewrite E0, En, E7. case_decide as Hi; [done|]. destruct (Hn Hi) as [_ ->]. done.
Qed.

Definition shrink (c : bytes) (actual : Z) : bytes := sub (splice c 4 (le_split 2 actual)) 0 actual.

Lemma shrink_spec hft c actual :
  chunk_ok hft c → le32 c 0 ≠ 0 → 8 + chunk_name_len hft c ≤ actual ≤ zlen c → actual mod 4 = 0 →
  chunk_ok hft (shrink c actual) ∧ zlen (shrink c actual) = actual ∧
  chunk_entry hft (shrink c actual) = chunk_entry hft c.
Proof.
  intros Hc Hi Ha H4. pose proof (chunk_ok_bytes _ _ Hc) as [Hb Hl].
  pose proof (chunk_name_len_nonneg hft c Hb). unfold shrink.
  assert (Hz : zlen (sub (splice c 4 (le_split 2 actual)) 0 actual) = actual) by zl.
  assert (Hs : ∀ o n, 0 ≤ o → 0 ≤ n → o + n ≤ actual → o + n ≤ 4 ∨ 6 ≤ o →
    sub (sub (splice c 4 (le_split 2 actual)) 0 actual) o n = sub c o n).
  { intros. rewrite sub_sub by lia. rewrite Z.add_0_l. apply sub_splice_disjoint; zl. }
  destruct (resized_chunk hft c (sub (splice c 4 (le_split 2 actual)) 0 actual) Hc); [..|by split_and!].
  - apply bytes_ok_sub, bytes_ok_splice; [done|apply bytes_ok_le_split].
  - lia.
  - by rewrite Hz.
  - rewrite Hz, le16_sub by lia. apply le16_splice; lia.
  - apply Hs; lia.
  - apply Hs; lia.
  - done.
  - intros _. rewrite Hz. split; [lia|]. apply Hs; lia.
Qed.

(** ** Adding an entry *)

Section add.
Context (hft : bool) (inode : Z) (name : bytes) (ty : DirEntryType).
Let needed := entry_rec_len (zlen name).

(** The bytes of record [c] a new entry could use. *)
Definition room (c : bytes) : Z :=
  if decide (le32 c 0 = 0) then zlen c else zlen c - entry_rec_len (chunk_name_len hft c).

(** Where the entry goes: the first record with room takes it. *)
Fixpoint add_chunks (chunks : list bytes) : option (list bytes) :=
  match chunks with
  | [] => None
  | c :: cs =>
      if decide (needed ≤ room c) then
        let new := new_chunk hft inode (room c) name ty in
        Some ((if decide (le32 c 0 = 0) then [new]
               else [shrink c (entry_rec_len (chunk_name_len hft c)); new]) ++ cs)
      else cons c <$> add_chunks cs
  end.

Lemma room_live c : chunk_ok hft c → le32 c 0 ≠ 0 →
  let actual := entry_rec_len (chunk_name_len hft c) in
  8 + chunk_name_len hft c ≤ actual ∧ actual mod 4 = 0 ∧ actual ≤ zlen c.
Proof.
  intros (Hb & Hl & H4 & _ & Hlive & _) Hi actual. destruct (Hlive Hi) as [_ Hfit].
  destruct (entry_rec_len_spec _ (chunk_name_len_nonneg hft c Hb)) as [He He4].
  split; [unfold actual; lia|]. split; [done|]. unfold actual.
  apply Z.mod_divide in H4 as [q Hq]; [|lia]. apply Z.mod_divide in He4 as [q' Hq']; [|lia]. lia.
Qed.

Lemma add_here pre c post : chunk_ok hft c → needed ≤ room c → 0 ≤ zlen name →
  le32 c 0 ≠ 0 →
  let actual := entry_rec_len (chunk_name_len hft c) in
  (buf ← put (pre ++ c ++ post) (zlen pre + 4) (le_split 2 (as_u16 actual));
   write_entry buf (zlen pre + actual) inode (as_u16 (zlen c - actual)) name ty hft) =
  Ok (pre ++ shrink c actual ++ new_chunk hft inode (zlen c - actual) name ty ++ post).
Proof.
  intros Hc Hroom Hn0 Hi actual. unfold room in Hroom. rewrite decide_False in Hroom by done. fold actual in Hroom.
  destruct (room_live c Hc Hi) as (Ha1 & Ha2 & Ha3). fold actual in Ha1, Ha2, Ha3.
  pose proof (chunk_ok_bytes _ _ Hc) as [Hb Hl]. pose proof (chunk_name_len_nonneg hft c Hb).
  destruct (entry_rec_len_spec (zlen name) Hn0) as [Hd _]. unfold needed in Hroom.
  unfold as_u16. rewrite !Z.mod_small by lia. rewrite put_mid, bind_Ok by (rewrite ?zlen_le_split; lia).
  set (c' := splice c 4 (le_split 2 actual)). assert (Hc' : zlen c' = zlen c) by (unfold c'; zl).
  assert (E : c' = sub c' 0 actual ++ sub c' actual (zlen c - actual)).
  { pose proof (sub_split c' 0 actual (zlen c - actual)) as S. rewrite Z.add_0_l in S.
    rewrite <-S by lia. symmetry. apply sub_all. lia. }
  rewrite E at 1. rewrite <-app_assoc, app_assoc.
  assert (Hz1 : zlen (sub c' 0 actual) = actual) by zl.
  assert (Hz2 : zlen (sub c' actual (zlen c - actual)) = zlen c - actual) by zl.
  replace (zlen pre + actual) with (zlen (pre ++ sub c' 0 actual)) by (rewrite zlen_app; lia).
  rewrite <-Hz2 at 2. rewrite write_entry_spec by lia. rewrite Hz2, <-app_assoc. done.
Qed.

Lemma add_loop_spec rest : ∀ todo fuel pre,
  Forall (chunk_ok hft) todo → (length todo < fuel)%nat → 0 ≤ zlen name →
  add_loop fuel (pre ++ concat todo ++ rest) (zlen pre) (zlen pre + zlen (concat todo)) needed inode name ty hft =
  match add_chunks todo with
  | Some cs => Ok (pre ++ concat cs ++ rest)
  | None => Err OutOfBounds
  end.
Proof.
  induction todo as [|c todo IH]; intros fuel pre Hall Hf Hn; (destruct fuel as [|fuel]; [simpl in Hf; lia|]);
    cbn [add_loop].
  { rewrite decide_True by (simpl; rewrite zlen_nil; lia). done. }
  apply Forall_cons in Hall as [Hc Hall]. simpl concat. rewrite <-app_assoc.
  destruct (at_chunk hft pre c (concat todo ++ rest) Hc) as (E0 & E4 & E6 & E7 & _).
  pose proof (chunk_ok_bytes _ _ Hc) as [Hb Hl]. pose proof Hc as (_ & _ & H4 & _).
  pose proof (zlen_nonneg (concat todo)). rewrite zlen_app.
  rewrite decide_False by lia. rewrite E0, E4, E6, E7, !bind_Ok.
  rewrite decide_False by (intros [|[|]]; [lia|done|lia]). fold (chunk_name_len hft c).
  assert (Hcont : add_loop fuel (pre ++ c ++ concat todo ++ rest) (zlen pre + zlen c)
      (zlen pre + (zlen c + zlen (concat todo))) needed inode name ty hft =
    match add_chunks todo with Some cs => Ok (pre ++ concat (c :: cs) ++ rest) | None => Err OutOfBounds end).
  { rewrite app_assoc. rewrite <-zlen_app, Z.add_assoc, <-zlen_app. rewrite IH by (simpl in Hf; first [done|lia]).
    destruct (add_chunks todo); [|done]. simpl. by rewrite <-!app_assoc. }
  cbn [add_chunks]. rewrite Hcont. clear Hcont IH. pose proof (eq_refl (room c)) as Hr. unfold room at 2 in Hr.
  destruct (decide (le32 c 0 = 0)) as [Hi|Hi]; rewrite !Hr.
  - case_decide as Hd; [|by destruct (add_chunks todo)].
    destruct (entry_rec_len_spec (zlen name) Hn) as [He _].
    unfold as_u16. rewrite Z.mod_small by lia. unfold needed in Hd. rewrite write_entry_spec by lia.
    simpl. by rewrite <-!app_assoc.
  - set (actual := entry_rec_len (chunk_name_len hft c)). destruct (decide (needed ≤ zlen c - actual)).
    + rewrite decide_True by lia. unfold actual. rewrite add_here; [cbn [concat app]; by rewrite <-!app_assoc|done| |done|done].
      by rewrite Hr.
    + rewrite decide_False by lia. by destruct (add_chunks todo).
Qed.

(** What the records hold afterwards. *)
Lemma add_chunks_spec chunks :
  0 < inode < 2 ^ 32 → bytes_ok name → 1 ≤ zlen name ≤ 255 → Forall (chunk_ok hft) chunks →
  match add_chunks chunks with
  | Some cs => Forall (chunk_ok hft) cs ∧ zlen (concat cs) = zlen (concat chunks) ∧
      ∃ es1 es2, entries_of hft chunks = es1 ++ es2 ∧
        entries_of hft cs = es1 ++ DirEntry.mk inode name (if hft then ty else Unknown) :: es2
  | None => Forall (λ c, room c < needed) chunks
  end.
Proof.
  intros Hi Hb Hn. destruct (entry_rec_len_spec (zlen name) ltac:(lia)) as [He He4].
  induction 1 as [|c cs Hc Hall IH]; [constructor|]. cbn [add_chunks].
  pose proof (chunk_ok_bytes _ _ Hc) as [Hbc Hl]. pose proof Hc as (_ & _ & H4 & _).
  destruct (decide (needed ≤ room c)) as [Hr|Hr].
  - assert (Hroom : zlen name + 8 ≤ room c ≤ zlen c ∧ room c mod 4 = 0).
    { unfold room, needed in *. destruct (decide (le32 c 0 = 0)); [split; [lia|done]|].
      destruct (room_live c Hc ltac:(done)) as (? & Ha & ?). pose proof (chunk_name_len_nonneg hft c Hbc).
      split; [lia|]. rewrite Zminus_mod, H4, Ha. done. }
    destruct (new_chunk_spec hft inode (room c) name ty Hi Hb Hn) as (Hok & Hzl & Hent); [lia|lia|].
    destruct (decide (le32 c 0 = 0)) as [Hz|Hz]; unfold entries_of; cbn [app concat omap list_omap]; rewrite Hent.
    + split; [by constructor|]. split; [rewrite !zlen_app, Hzl; unfold room; by rewrite decide_True|].
      exists [], (omap (chunk_entry hft) cs). unfold chunk_entry. by rewrite decide_True.
    + destruct (room_live c Hc Hz) as (Ha1 & Ha2 & Ha3).
      destruct (shrink_spec hft c _ Hc Hz (conj Ha1 Ha3) Ha2) as (Hs1 & Hs2 & Hs3).
      split; [constructor; [done|by constructor]|]. split.
      { rewrite !zlen_app, Hzl, Hs2. unfold room. rewrite decide_False by done. lia. }
      rewrite Hs3. destruct (chunk_entry hft c) as [e|]; [by exists [e], (omap (chunk_entry hft) cs)|by exists [], (omap (chunk_entry hft) cs)].
  - destruct (add_chunks cs) as [cs'|]; simpl; [|constructor; [lia|done]].
    destruct IH as (Hok & Hzl & es1 & es2 & E1 & E2). split; [by constructor|].
    split; [rewrite !zlen_app; lia|]. unfold entries_of in *. simpl. rewrite E1, E2.
    destruct (chunk_entry hft c) as [e|]; [by exists (e :: es1), es2|by exists es1, es2].
Qed.
End add.

(** ** Removing an entry *)

Definition coalesce (p c : bytes) : bytes :=
  splice p 4 (le_split 2 (zlen p + zlen c)) ++ splice c 0 (zrep 8 0).
Definition tombstone (c : bytes) : bytes := splice c 0 (le_split 4 0).
#[global] Arguments coalesce : simpl never.
#[global] Arguments tombstone : simpl never.

Lemma coalesce_spec hft p c : chunk_ok hft p → chunk_ok hft c → zlen p + zlen c ≤ u16_max →
  chunk_ok hft (coalesce p c) ∧ zlen (coalesce p c) = zlen p + zlen c ∧
  chunk_entry hft (coalesce p c) = chunk_entry hft p.
Proof.
  intros Hp Hc Hmax. unfold u16_max in Hmax. pose proof (chunk_ok_bytes _ _ Hc) as [Hbc Hlc].
  pose proof Hp as (Hbp & Hlp & H4p & _ & Hlive & _). pose proof Hc as (_ & _ & H4c & _).
  pose proof (chunk_name_len_nonneg hft p Hbp). unfold coalesce.
  set (x := splice p 4 _). set (y := splice c 0 _).
  assert (Hx : zlen x = zlen p) by (unfold x; zl). assert (Hy : zlen y = zlen c) by (unfold y; zl).
  assert (Hz : zlen (x ++ y) = zlen p + zlen c) by (rewrite zlen_app; lia).
  assert (Hs : ∀ o n, 0 ≤ o → 0 ≤ n → o + n ≤ zlen p → o + n ≤ 4 ∨ 6 ≤ o → sub (x ++ y) o n = sub p o n).
  { intros. rewrite sub_app_l by lia. unfold x. apply sub_splice_disjoint; zl. }
  destruct (resized_chunk hft p (x ++ y) Hp); [..|by split_and!].
  - apply bytes_ok_app. split; apply bytes_ok_splice; try done; [apply bytes_ok_le_split|apply bytes_ok_zrep; lia].
  - lia.
  - rewrite Hz, Z.add_mod, H4p, H4c by lia. done.
  - rewrite Hz. unfold le16. rewrite sub_app_l by lia. apply le16_splice; lia.
  - apply Hs; lia.
  - apply Hs; lia.
  - rewrite Hz. lia.
  - intros Hi. destruct (Hlive Hi). rewrite Hz. split; [lia|]. apply Hs; lia.
Qed.

Lemma tombstone_spec hft c : chunk_ok hft c → le32 c 0 ≠ 0 →
  chunk_ok hft (tombstone c) ∧ zlen (tombstone c) = zlen c ∧ chunk_entry hft (tombstone c) = None.
Proof.
  intros (Hb & Hl & H4 & Hr & Hlive & _) Hi. destruct (Hlive Hi) as [Hn1 Hn2]. unfold tombstone.
  assert (Hz : zlen (splice c 0 (le_split 4 0)) = zlen c) by zl.
  assert (E0 : le32 (splice c 0 (le_split 4 0)) 0 = 0) by (apply le32_splice; lia).
  assert (Hby : ∀ o, 4 ≤ o → byte_at (splice c 0 (le_split 4 0)) o = byte_at c o).
  { intros o Ho. unfold byte_at. rewrite lookup_splice by zl. rewrite zlen_le_split, decide_False by lia. done. }
  split; [|split; [done|]].
  - split; [apply bytes_ok_splice; [done|apply bytes_ok_le_split]|]. rewrite Hz. split; [done|]. split; [done|].
    split; [by rewrite le16_splice_ne by zl|]. split; [done|].
    intros (_ & H12 & H6 & H7). rewrite le16_splice_ne in H12 by zl. rewrite Hby in H6, H7 by lia.
    unfold chunk_name_len in Hn1, Hn2. rewrite H6, H7 in Hn1, Hn2. rewrite <-Hr, H12 in Hn2.
    destruct hft; simpl in *; [lia|]. vm_compute in Hn2. by apply Hn2.
  - unfold chunk_entry. by rewrite E0.
Qed.

Definition olist {A} (o : option A) : list A := match o with Some x => [x] | None => [] end.

Section remove.
Context (hft : bool) (name : bytes).

Definition names_it (c : bytes) : Prop :=
  le32 c 0 ≠ 0 ∧ sub c 8 (chunk_name_len hft c) = name.
#[global] Instance names_it_dec c : Decision (names_it c).
Proof. unfold names_it. apply _. Defined.

(** [prev] is the record before, if any; the result replaces [prev ++ todo]. *)
Fixpoint remove_chunks (prev : option bytes) (todo : list bytes) : res (option (list bytes)) :=
  match todo with
  | [] => Ok None
  | c :: cs =>
      if decide (names_it c) then
        match prev with
        | Some p => if decide (u16_max < zlen p + zlen c)
                    then Err (CorruptDirEntry "merged rec_len overflows u16")
                    else Ok (Some (coalesce p c :: cs))
        | None => Ok (Some (tombstone c :: cs))
        end
      else
        r ← remove_chunks (Some c) cs;
        Ok (match r with Some l => Some (olist prev ++ l) | None => None end)
  end.

(** The matching record [c] absorbed by its predecessor, or turned into an
    unused record when it is the first. *)
Lemma remove_here pre prev c post :
  Forall (chunk_ok hft) (olist prev) → chunk_ok hft c →
  let buf := pre ++ concat (olist prev) ++ c ++ post in
  let off := zlen (pre ++ concat (olist prev)) in
  match (λ _ : bytes, zlen pre) <$> prev with
  | Some prev =>
      prev_rec_len ← u16_le buf (prev + 4);
      let merged := prev_rec_len + zlen c in
      if decide (u16_max < merged) then Err (CorruptDirEntry "merged rec_len overflows u16") else
      buf ← put buf (prev + 4) (le_split 2 (as_u16 merged));
      buf ← put buf off (zrep 8 0);
      Ok (buf, true)
  | None => buf ← put buf off (le_split 4 0); Ok (buf, true)
  end =
  match prev with
  | Some p => if decide (u16_max < zlen p + zlen c)
              then Err (CorruptDirEntry "merged rec_len overflows u16")
              else Ok (pre ++ coalesce p c ++ post, true)
  | None => Ok (pre ++ tombstone c ++ post, true)
  end.
Proof.
  intros Hprev Hc buf off. pose proof (chunk_ok_bytes _ _ Hc) as [_ Hl]. unfold buf, off.
  destruct prev as [p|]; cbn [olist concat fmap option_fmap option_map] in *; rewrite ?app_nil_r.
  - apply Forall_cons in Hprev as [Hp _]. pose proof (chunk_ok_bytes _ _ Hp) as [_ Hlp].
    destruct (at_chunk hft pre p (c ++ post) Hp) as (_ & -> & _). rewrite bind_Ok.
    cbv zeta. case_decide; [done|]. unfold u16_max in *. unfold as_u16. rewrite Z.mod_small by lia.
    rewrite put_mid, bind_Ok by (rewrite ?zlen_le_split; lia).
    set (p' := splice p 4 _). rewrite (app_assoc pre p').
    replace (zlen (pre ++ p)) with (zlen (pre ++ p') + 0) by (unfold p'; zl).
    rewrite put_mid, bind_Ok by (rewrite ?zlen_zrep; lia). unfold coalesce. fold p'. by rewrite <-!app_assoc.
  - rewrite <-(Z.add_0_r (zlen pre)). simpl app.
    rewrite put_mid, bind_Ok by (rewrite ?zlen_le_split; lia). done.
Qed.

Lemma remove_loop_spec rest : ∀ todo fuel pre prev,
  Forall (chunk_ok hft) (olist prev ++ todo) → (length todo < fuel)%nat →
  remove_loop fuel (pre ++ concat (olist prev) ++ concat todo ++ rest)
    (zlen (pre ++ concat (olist prev))) ((λ _, zlen pre) <$> prev)
    (zlen (pre ++ concat (olist prev) ++ concat todo)) name hft =
  match remove_chunks prev todo with
  | Ok (Some cs) => Ok (pre ++ concat cs ++ rest, true)
  | Ok None => Ok (pre ++ concat (olist prev) ++ concat todo ++ rest, false)
  | Err e => Err e | Panic => Panic | OutOfFuel => OutOfFuel
  end.
Proof.
  induction todo as [|c todo IH]; intros fuel pre prev Hall Hf; (destruct fuel as [|fuel]; [simpl in Hf; lia|]);
    cbn [remove_loop remove_chunks].
  { rewrite decide_True by (simpl; rewrite app_nil_r; lia). done. }
  apply Forall_app in Hall as [Hprev Hall]. apply Forall_cons in Hall as [Hc Hall].
  set (P := pre ++ concat (olist prev)). cbn [concat]. rewrite (app_assoc pre), <-(app_assoc c).
  fold P. destruct (at_chunk hft P c (concat todo ++ rest) Hc) as (E0 & E4 & E6 & E7 & _).
  pose proof (chunk_ok_bytes _ _ Hc) as [Hb Hl]. pose proof (zlen_nonneg (concat todo)).
  rewrite (app_assoc pre). fold P. rewrite !(zlen_app P), zlen_app.
  rewrite decide_False by lia. rewrite E0, E4, E6, E7, !bind_Ok.
  pose proof Hc as (_ & _ & H4 & _ & Hlive & _).
  rewrite decide_False by (intros [|[|]]; [lia|done|lia]). fold (chunk_name_len hft c).
  assert (Hcont : remove_loop fuel (P ++ c ++ concat todo ++ rest) (zlen P + zlen c) (Some (zlen P))
      (zlen P + (zlen c + zlen (concat todo))) name hft =
    match remove_chunks (Some c) todo with
    | Ok (Some cs) => Ok (P ++ concat cs ++ rest, true)
    | Ok None => Ok (P ++ c ++ concat todo ++ rest, false)
    | Err e => Err e | Panic => Panic | OutOfFuel => OutOfFuel end).
  { specialize (IH fuel P (Some c)). simpl olist in IH. cbn [concat] in IH. rewrite app_nil_r in IH.
    rewrite !zlen_app in IH. rewrite <-IH; [done|by constructor|simpl in Hf; lia]. }
  rewrite Hcont. clear Hcont IH E0 E4 E6 E7.
  assert (Hskip : match remove_chunks (Some c) todo with
      | Ok (Some cs) => Ok (P ++ concat cs ++ rest, true)
      | Ok None => Ok (P ++ c ++ concat todo ++ rest, false)
      | Err e => Err e | Panic => Panic | OutOfFuel => OutOfFuel end =
    match (r ← remove_chunks (Some c) todo; Ok (match r with Some l => Some (olist prev ++ l) | None => None end)) with
      | Ok (Some cs) => Ok (pre ++ concat cs ++ rest, true)
      | Ok None => Ok (P ++ c ++ concat todo ++ rest, false)
      | Err e => Err e | Panic => Panic | OutOfFuel => OutOfFuel end).
  { destruct (remove_chunks (Some c) todo) as [[cs|]|?| |]; simpl; try done.
    unfold P. by rewrite concat_app, <-!app_assoc. }
  destruct (decide (le32 c 0 = 0)) as [Hi|Hi].
  { rewrite (decide_False (P := names_it c)) by (unfold names_it; tauto). exact Hskip. }
  destruct (Hlive Hi) as [Hn1 Hn2]. rewrite decide_True by lia. rewrite slice_mid, !bind_Ok by lia.
  destruct (decide (names_it c)) as [Hm|Hm].
  2:{ rewrite bool_decide_false by (unfold names_it in Hm; tauto). exact Hskip. }
  rewrite bool_decide_true by apply Hm. cbn [negb]. clear Hskip. unfold P. rewrite <-(app_assoc pre).
  rewrite remove_here by (done || by apply Hprev). destruct prev as [p|]; cbn [concat]; [case_decide|];
    cbn [concat]; by rewrite <-?app_assoc.
Qed.
Lemma entries_of_cons c cs :
  entries_of hft (c :: cs) = olist (chunk_entry hft c) ++ entries_of hft cs.
Proof. unfold entries_of. cbn [omap list_omap]. by destruct (chunk_entry hft c). Qed.

Lemma names_it_entry c : names_it c →
  ∃ e, chunk_entry hft c = Some e ∧ DirEntry.name e = name.
Proof. intros [Hi Hs]. unfold chunk_entry. rewrite decide_False by done. by eexists. Qed.

Lemma not_names_it_entry c : ¬ names_it c →
  Forall (λ e, DirEntry.name e ≠ name) (olist (chunk_entry hft c)).
Proof.
  intros Hn. unfold chunk_entry. case_decide; [constructor|]. apply Forall_singleton. simpl.
  intros Hs. by apply Hn.
Qed.

Lemma remove_chunks_spec todo : ∀ prev,
  Forall (chunk_ok hft) (olist prev ++ todo) →
  match remove_chunks prev todo with
  | Ok (Some cs) => Forall (chunk_ok hft) cs ∧ zlen (concat cs) = zlen (concat (olist prev ++ todo)) ∧
      ∃ es1 e es2, entries_of hft todo = es1 ++ e :: es2 ∧ DirEntry.name e = name ∧
        Forall (λ e, DirEntry.name e ≠ name) es1 ∧
        entries_of hft cs = entries_of hft (olist prev) ++ es1 ++ es2
  | Ok None => Forall (λ e, DirEntry.name e ≠ name) (entries_of hft todo)
  | Err er => er = CorruptDirEntry "merged rec_len overflows u16" ∧
      u16_max < zlen (concat (olist prev ++ todo))
  | _ => False
  end.
Proof.
  induction todo as [|c todo IH]; intros prev Hall; cbn [remove_chunks]; [constructor|].
  apply Forall_app in Hall as [Hprev Hall]. apply Forall_cons in Hall as [Hc Hall].
  pose proof (zlen_nonneg (concat todo)). rewrite concat_app. cbn [concat].
  destruct (decide (names_it c)) as [Hm|Hm].
  - destruct (names_it_entry c Hm) as (e & He & Hen). destruct prev as [p|]; simpl in Hprev.
    + apply Forall_cons in Hprev as [Hp _]. cbn [concat olist]. rewrite app_nil_r.
      case_decide as Hmax; [split; [done|]; rewrite !zlen_app; lia|].
      destruct (coalesce_spec hft p c Hp Hc ltac:(lia)) as (Hok & Hz & Hce).
      split; [by constructor|]. split; [cbn [concat]; rewrite !zlen_app; lia|].
      exists [], e, (entries_of hft todo). rewrite !entries_of_cons, Hce, He.
      split; [done|]. split; [done|]. split; [done|]. by rewrite app_nil_r.
    + destruct (tombstone_spec hft c Hc (proj1 Hm)) as (Hok & Hz & Hce).
      split; [by constructor|]. split; [cbn [concat olist app]; rewrite !zlen_app; lia|].
      exists [], e, (entries_of hft todo). rewrite !entries_of_cons, Hce, He. done.
  - pose proof (not_names_it_entry c Hm) as Hne. specialize (IH (Some c)). cbn [olist concat app] in IH.
    specialize (IH ltac:(by constructor)).
    destruct (remove_chunks (Some c) todo) as [[cs|]|er| |]; rewrite ?bind_Ok; try done; cbv beta iota.
    + destruct IH as (Hok & Hz & es1 & e & es2 & E1 & Hen & Hfirst & E2).
      split; [by apply Forall_app|]. split; [rewrite concat_app, !zlen_app in *; lia|].
      exists (olist (chunk_entry hft c) ++ es1), e, es2. rewrite entries_of_cons, E1, <-app_assoc.
      split; [done|]. split; [done|]. split; [by apply Forall_app|].
      unfold entries_of in *. rewrite omap_app, E2. f_equal. rewrite app_assoc. f_equal.
    + rewrite entries_of_cons. by apply Forall_app.
    + destruct IH as [-> IH]. split; [done|]. rewrite !zlen_app in *.
      pose proof (zlen_nonneg (concat (olist prev))). lia.
Qed.
End remove.

Lemma zlen_chunk_le (chunks : list bytes) c : c ∈ chunks → zlen c ≤ zlen (concat chunks).
Proof.
  induction 1 as [c cs|c c' cs _ IH]; cbn [concat]; rewrite zlen_app.
  - pose proof (zlen_nonneg (concat cs)). lia.
  - pose proof (zlen_nonneg c'). lia.
Qed.

Lemma room_le hft c : chunk_ok hft c → room hft c ≤ zlen c.
Proof.
  intros Hc. unfold room. case_decide; [done|].
  destruct (room_live hft [] c Hc ltac:(done)) as (? & _ & _).
  pose proof (chunk_name_len_nonneg hft c (proj1 (chunk_ok_bytes _ _ Hc))). lia.
Qed.

(** ** Adding and removing, on the records *)

Lemma add_entry_result hft chunks rest inode name ty :
  dir_block hft chunks rest → 0 < inode < 2 ^ 32 → bytes_ok name → 1 ≤ zlen name ≤ 255 →
  match add_entry_to_block (concat chunks ++ rest) inode name ty hft (zlen rest) with
  | Ok buf' => ∃ cs, buf' = concat cs ++ rest ∧ dir_block hft cs rest ∧ zlen (concat cs) = zlen (concat chunks) ∧
      ∃ es1 es2, entries_of hft chunks = es1 ++ es2 ∧
        entries_of hft cs = es1 ++ DirEntry.mk inode name (if hft then ty else Unknown) :: es2
  | Err e => e = OutOfBounds ∧ Forall (λ c, room hft c < entry_rec_len (zlen name)) chunks
  | _ => False
  end.
Proof.
  intros Hd Hi Hb Hn. set (buf := concat chunks ++ rest). pose proof Hd as (Hc & Ht & Hr). unfold add_entry_to_block.
  rewrite !decide_False by lia. pose proof (zlen_nonneg (concat chunks)).
  assert (Eu : checked_sub (zlen buf) (zlen rest) = Some (zlen (concat chunks))).
  { unfold checked_sub, buf. rewrite zlen_app, decide_True by lia. f_equal. lia. }
  rewrite Eu. simpl ok_or. rewrite bind_Ok. pose proof (length_concat_chunks hft chunks Hc).
  pose proof (add_chunks_spec hft inode name ty chunks Hi Hb Hn Hc) as Hadd.
  case_decide as Hu.
  { split; [done|]. apply Forall_forall. intros c Hin. pose proof (zlen_chunk_le chunks c Hin).
    rewrite Forall_forall in Hc. pose proof (room_le hft c (Hc c Hin)). lia. }
  assert (El : add_loop (S (length buf)) buf 0 (zlen (concat chunks)) (entry_rec_len (zlen name)) inode name ty hft =
    match add_chunks hft inode name ty chunks with
    | Some cs => Ok (concat cs ++ rest) | None => Err OutOfBounds end).
  { apply (add_loop_spec hft inode name ty rest chunks _ []); [done| |lia].
    unfold buf. rewrite length_app. lia. }
  rewrite El. destruct (add_chunks hft inode name ty chunks) as [cs|]; [|done].
  destruct Hadd as (Hok & Hz & es1 & es2 & E1 & E2). exists cs. split; [done|]. split; [done|]. split; [done|]. by exists es1, es2.
Qed.

Lemma remove_entry_result hft chunks rest name :
  dir_block hft chunks rest → let buf := concat chunks ++ rest in
  match remove_entry_from_block buf name hft (zlen rest) with
  | Ok (buf', true) => ∃ cs, buf' = concat cs ++ rest ∧ dir_block hft cs rest ∧ zlen (concat cs) = zlen (concat chunks) ∧
      ∃ es1 e es2, entries_of hft chunks = es1 ++ e :: es2 ∧ DirEntry.name e = name ∧
        Forall (λ e, DirEntry.name e ≠ name) es1 ∧ entries_of hft cs = es1 ++ es2
  | Ok (buf', false) => buf' = buf ∧ Forall (λ e, DirEntry.name e ≠ name) (entries_of hft chunks)
  | Err e => e = CorruptDirEntry "merged rec_len overflows u16" ∧ u16_max < zlen buf
  | _ => False
  end.
Proof.
  intros Hd buf. pose proof Hd as (Hc & Ht & Hr). unfold remove_entry_from_block.
  pose proof (zlen_nonneg (concat chunks)). pose proof (zlen_nonneg rest).
  assert (Eu : checked_sub (zlen buf) (zlen rest) = Some (zlen (concat chunks))).
  { unfold checked_sub, buf. rewrite zlen_app, decide_True by lia. f_equal. lia. }
  rewrite Eu. simpl ok_or. rewrite bind_Ok. pose proof (length_concat_chunks hft chunks Hc).
  pose proof (remove_chunks_spec hft name chunks None Hc) as Hrem.
  assert (El : remove_loop (S (length buf)) buf 0 None (zlen (concat chunks)) name hft =
    match remove_chunks hft name None chunks with
    | Ok (Some cs) => Ok (concat cs ++ rest, true) | Ok None => Ok (buf, false)
    | Err e => Err e | Panic => Panic | OutOfFuel => OutOfFuel end).
  { apply (remove_loop_spec hft name rest chunks _ [] None); [done|].
    unfold buf. rewrite length_app. lia. }
  rewrite El. destruct (remove_chunks hft name None chunks) as [[cs|]|e| |]; try done.
  - destruct Hrem as (Hok & Hz & es1 & e & es2 & E1 & Hen & Hfirst & E2). cbn [olist app] in *.
    exists cs. split; [done|]. split; [done|]. split; [done|]. by exists es1, e, es2.
  - destruct Hrem as [-> Hmax]. split; [done|]. unfold buf. rewrite zlen_app. cbn [olist app] in Hmax. lia.
Qed.

(** ** Properties *)

(** Adding an entry to a well-formed block (records, then the reserved tail)
    either succeeds, giving a well-formed block of the same size with its tail
    untouched that parses to the old entries with the new one inserted somewhere
    among them, or refuses with [OutOfBounds] exactly when no record has room
    for the padded entry.  It never panics and never reports corruption. *)
Lemma add_entry_to_block_spec hft chunks rest inode name ty :
  dir_block hft chunks rest → 0 < inode < 2 ^ 32 → bytes_ok name → 1 ≤ zlen name ≤ 255 →
  let buf := concat chunks ++ rest in
  match add_entry_to_block buf inode name ty hft (zlen rest) with
  | Ok buf' => zlen buf' = zlen buf ∧
      ∃ chunks' es1 es2, buf' = concat chunks' ++ rest ∧ dir_block hft chunks' rest ∧
        parse_block buf hft = Ok (es1 ++ es2) ∧
        parse_block buf' hft = Ok (es1 ++ DirEntry.mk inode name (if hft then ty else Unknown) :: es2)
  | Err e => e = OutOfBounds ∧ Forall (λ c, room hft c < entry_rec_len (zlen name)) chunks
  | _ => False
  end.
Proof.
  intros Hd Hi Hb Hn buf. pose proof (add_entry_result hft chunks rest inode name ty Hd Hi Hb Hn) as H. fold buf in H.
  destruct (add_entry_to_block _ _ _ _ _ _) as [buf'|e| |]; try done.
  destruct H as (cs & -> & Hd' & Hz & es1 & es2 & E1 & E2).
  split; [unfold buf; rewrite !zlen_app; lia|]. exists cs, es1, es2. split; [done|]. split; [done|].
  unfold buf. by rewrite !parse_dir_block, E1, E2 by done.
Qed.

(** Removing a name from a well-formed block removes exactly the first entry
    that carries it: the block keeps its size, its tail and every other entry in
    order and stays well formed.  When no entry carries the name the block is
    returned unchanged.  The one error is a merged record over 65535 bytes, which
    needs a larger block than that. *)
Lemma remove_entry_from_block_spec hft chunks rest name :
  dir_block hft chunks rest →
  let buf := concat chunks ++ rest in
  match remove_entry_from_block buf name hft (zlen rest) with
  | Ok (buf', true) => zlen buf' = zlen buf ∧
      ∃ chunks' es1 e es2, buf' = concat chunks' ++ rest ∧ dir_block hft chunks' rest ∧
        parse_block buf hft = Ok (es1 ++ e :: es2) ∧ DirEntry.name e = name ∧
        Forall (λ e, DirEntry.name e ≠ name) es1 ∧ parse_block buf' hft = Ok (es1 ++ es2)
  | Ok (buf', false) => buf' = buf ∧
      ∃ es, parse_block buf hft = Ok es ∧ Forall (λ e, DirEntry.name e ≠ name) es
  | Err e => e = CorruptDirEntry "merged rec_len overflows u16" ∧ u16_max < zlen buf
  | _ => False
  end.
Proof.
  intros Hd buf. pose proof (remove_entry_result hft chunks rest name Hd) as H. cbv zeta in H. fold buf in H.
  destruct (remove_entry_from_block _ _ _ _) as [[buf' []]|e| |]; try done.
  - destruct H as (cs & -> & Hd' & Hz & es1 & e & es2 & E1 & Hen & Hfirst & E2).
    split; [unfold buf; rewrite !zlen_app; lia|]. exists cs, es1, e, es2. split; [done|]. split; [done|].
    unfold buf. by rewrite !parse_dir_block, E1, E2 by done.
  - destruct H as [-> H]. split; [done|]. eexists. split; [by apply parse_dir_block|done].
Qed.

(** *** Parsing arbitrary bytes *)

(** One step on any buffer: no panic, progress, and a name inside its record. *)
Lemma next_safe hft buf : bytes_ok buf → ∀ fuel off,
  0 ≤ off → Z.max 0 (zlen buf - off) < 8 * Z.of_nat fuel →
  returns (next fuel buf hft off) ∧
  ∀ e off', next fuel buf hft off = Ok (Some (e, off')) →
    off + 8 + zlen (DirEntry.name e) ≤ off' ≤ zlen buf ∧ DirEntry.inode e ≠ 0 ∧
    ∃ o, off + 8 ≤ o ∧ DirEntry.name e = sub buf o (zlen (DirEntry.name e)).
Proof.
  intros Hb. induction fuel as [|fuel IH]; intros off Ho Hf; cbn [next].
  { lia. }
  case_decide; [done|]. io. pose proof (le16_range buf (off + 4) Hb).
  case_decide as Hr; [done|]. io.
  pose proof (byte_at_range buf (off + 6) Hb). pose proof (byte_at_range buf (off + 7) Hb).
  destruct (_ || _) eqn:Hskip.
  - destruct (_ && _ && _ && _); [done|]. destruct (IH (off + le16 buf (off + 4))) as [Hret Hok]; [lia|lia|].
    split; [done|]. intros e off' E. destruct (Hok e off' E) as (Hp1 & Hp2 & o & Hp3 & Hp4).
    split; [lia|]. split; [done|]. exists o. split; [lia|done].
  - set (n := join_name_len _ _ _). assert (0 ≤ n) by (by apply join_name_len_nonneg).
    destruct (decide (le16 buf (off + 4) < 8 + n)); [done|]. rewrite slice_ok by lia. rewrite bind_Ok.
    split; [done|]. intros e off' [= <- <-]; simpl. rewrite zlen_sub by lia.
    split; [lia|]. split; [|exists (off + 8); split; [lia|]; f_equal; lia].
    apply orb_false_iff in Hskip as [Hi _]. by apply bool_decide_eq_false in Hi.
Qed.

Lemma parse_loop_safe hft buf : bytes_ok buf → ∀ fuel off out,
  0 ≤ off → Z.max 0 (zlen buf - off) < 8 * Z.of_nat fuel →
  returns (parse_loop fuel buf hft off out) ∧
  ∀ es, parse_loop fuel buf hft off out = Ok es →
    ∃ es', es = out ++ es' ∧ Forall (λ e, DirEntry.inode e ≠ 0) es' ∧
      8 * zlen es' + zlen (concat (DirEntry.name <$> es')) ≤ Z.max 0 (zlen buf - off).
Proof.
  intros Hb. induction fuel as [|fuel IH]; intros off out Ho Hf; [lia|cbn [parse_loop]].
  destruct (next_safe hft buf Hb (S fuel) off Ho Hf) as [Hret Hok].
  destruct (next (S fuel) buf hft off) as [[[e off']|]|?| |]; try done; rewrite bind_Ok.
  - destruct (Hok e off' eq_refl) as (H1 & H2 & _). pose proof (zlen_nonneg (DirEntry.name e)).
    destruct (IH off' (out ++ [e])) as [Hr Hs]; [lia|lia|]. split; [done|]. intros es E.
    destruct (Hs es E) as (es' & -> & Hall & Hsum). exists (e :: es'). rewrite <-app_assoc.
    split; [done|]. split; [by constructor|]. cbn [fmap list_fmap concat]. rewrite zlen_cons, zlen_app. lia.
  - split; [done|]. intros es [= <-]. exists []. rewrite app_nil_r. split; [done|]. split; [done|].
    cbn [fmap list_fmap concat]. change (8 * 0 + 0 ≤ Z.max 0 (zlen buf - off)). lia.
Qed.

(** Parsing any block of bytes, however corrupt, terminates without panicking,
    and what it returns fits the block: every entry has a nonzero inode, and
    eight header bytes and the name for each add up to no more than the block. *)
Lemma parse_block_safe hft buf :
  bytes_ok buf →
  returns (parse_block buf hft) ∧
  ∀ es, parse_block buf hft = Ok es → Forall (λ e, DirEntry.inode e ≠ 0) es ∧
    8 * zlen es + zlen (concat (DirEntry.name <$> es)) ≤ zlen buf.
Proof.
  intros Hb. pose proof (zlen_nonneg buf).
  destruct (parse_loop_safe hft buf Hb (S (length buf)) 0 []) as [Hr Hs]; [lia|unfold zlen in *; lia|].
  split; [done|]. intros es E. destruct (Hs es E) as (es' & -> & Hall & Hsum). split; [done|]. simpl app. lia.
Qed.

(** *** Witnesses *)

(** "." and ".." filling a 40-byte block with its checksum tail. *)
Definition sample_chunks : list bytes :=
  [new_chunk true 2 12 [46] Directory; new_chunk true 2 16 [46; 46] Directory].
Definition sample_tail : bytes := le_split 4 0 ++ le_split 2 12 ++ [0; 0xDE] ++ le_split 4 77.

Lemma sample_block_ok : dir_block true sample_chunks sample_tail.
Proof. by_compute. Qed.

Lemma add_entry_to_block_spec_witness :
  (* no room in 28 bytes for a third record: 12 + 12 + 20 *)
  add_entry_to_block (concat sample_chunks ++ sample_tail) 11 (replicate 9 97) RegFile true 12 = Err OutOfBounds ∧
  let chunks := [new_chunk true 2 28 [46] Directory] in
  ∃ buf' es1 es2, add_entry_to_block (concat chunks ++ sample_tail) 11 [97; 98] RegFile true 12 = Ok buf' ∧
    parse_block buf' true = Ok (es1 ++ DirEntry.mk 11 [97; 98] RegFile :: es2).
Proof.
  split.
  - pose proof (add_entry_to_block_spec true sample_chunks sample_tail 11 (replicate 9 97) RegFile
      sample_block_ok ltac:(lia) ltac:(by_compute) ltac:(by_compute)) as H. cbv zeta in H.
    change (zlen sample_tail) with 12 in H.
    destruct (add_entry_to_block _ _ _ _ _ _) as [buf'|e| |] eqn:E; try (vm_compute in E; discriminate).
    by destruct H as [-> _].
  - intros chunks. pose proof (add_entry_to_block_spec true chunks sample_tail 11 [97; 98] RegFile
      ltac:(by_compute) ltac:(lia) ltac:(by_compute) ltac:(by_compute)) as H. cbv zeta in H.
    change (zlen sample_tail) with 12 in H.
    destruct (add_entry_to_block _ _ _ _ _ _) as [buf'|e| |] eqn:E; try (vm_compute in E; discriminate).
    destruct H as (_ & cs & es1 & es2 & _ & _ & _ & Hp). exists buf', es1, es2. by split.
Defined.

Lemma remove_entry_from_block_spec_witness :
  ∃ buf', remove_entry_from_block (concat sample_chunks ++ sample_tail) [46; 46] true 12 = Ok (buf', true) ∧
    zlen buf' = 40 ∧ parse_block buf' true = Ok [DirEntry.mk 2 [46] Directory].
Proof.
  pose proof (remove_entry_from_block_spec true sample_chunks sample_tail [46; 46] sample_block_ok) as H.
  cbv zeta in H. change (zlen sample_tail) with 12 in H.
  destruct (remove_entry_from_block _ _ _ _) as [[buf' []]|e| |] eqn:E; try (vm_compute in E; discriminate).
  destruct H as (Hz & _). exists buf'. split; [done|]. split; [rewrite Hz; reflexivity|].
  clear - E. vm_compute in E. injection E as <-. vm_compute. reflexivity.
Defined.

Lemma parse_block_safe_witness :
  let junk := replicate 20 255 in
  parse_block junk true = Err (CorruptDirEntry "bad rec_len") ∧ returns (parse_block junk true).
Proof. intros junk. split; [vm_compute; reflexivity|]. apply parse_block_safe. by_compute. Defined.
