(* ===== verification/Xattr.v ===== *)
(** Xattr: extended attributes (src/src/xattr.rs): reading the in-inode area
    and the external block, setting and removing an attribute in either, and
    the hashes of the external block.  The specification is the list of
    entries an area holds, looked up by namespace and name. *)
From S2P Require Import Prelude Errors Bytes Device Features Superblock Checksum Inode Hash.

Definition EXT4_XATTR_MAGIC : Z := 0xEA020000.

(** A string literal's bytes. *)
Definition lit (s : string) : bytes :=
  (λ a, Z.of_nat (Ascii.nat_of_ascii a)) <$> String.list_ascii_of_string s.

Definition NAME_PREFIXES : list (Z * bytes) :=
  [(1, lit "user."); (2, lit "system.posix_acl_access"); (3, lit "system.posix_acl_default");
   (4, lit "trusted."); (5, lit "lustre."); (6, lit "security."); (7, lit "system.");
   (8, lit "system.richacl")].

Definition prefix_for_index (idx : Z) : option bytes :=
  snd <$> List.find (λ p, bool_decide (fst p = idx)) NAME_PREFIXES.

(** ** [std::str::from_utf8] *)

Definition within (lo hi b : Z) : bool := bool_decide (lo ≤ b ∧ b ≤ hi).
Definition continuation (b : Z) : bool := within 0x80 0xBF b.

(** The second byte of a sequence of three or four starting with [b]. *)
Definition second_of_three (b c : Z) : bool :=
  (bool_decide (b = 0xE0) && within 0xA0 0xBF c) || (within 0xE1 0xEC b && continuation c) ||
  (bool_decide (b = 0xED) && within 0x80 0x9F c) || (within 0xEE 0xEF b && continuation c).
Definition second_of_four (b c : Z) : bool :=
  (bool_decide (b = 0xF0) && within 0x90 0xBF c) || (within 0xF1 0xF3 b && continuation c) ||
  (bool_decide (b = 0xF4) && within 0x80 0x8F c).

Fixpoint from_utf8 (l : bytes) : bool :=
  match l with
  | [] => true
  | b :: l1 =>
      if bool_decide (b < 0x80) then from_utf8 l1 else
      match l1 with
      | [] => false
      | c :: l2 =>
          if within 0xC2 0xDF b && continuation c then from_utf8 l2 else
          match l2 with
          | [] => false
          | d :: l3 =>
              if second_of_three b c && continuation d then from_utf8 l3 else
              match l3 with
              | [] => false
              | e :: l4 => second_of_four b c && continuation d && continuation e && from_utf8 l4
              end
          end
      end
  end.

(** ** Reading *)

Record XattrEntry := mkXattr { name : bytes; value : bytes; value_inum : Z; value_size : Z }.

Module XattrEntry.
Definition new (name value : bytes) : res XattrEntry :=
  if decide (u32_max < zlen value) then Panic else Ok (mkXattr name value 0 (zlen value)).
Definition in_ea_inode (name : bytes) (value_inum value_size : Z) : XattrEntry :=
  mkXattr name [] value_inum value_size.
End XattrEntry.

(** [(x + 3) & !3] *)
Definition pad4 (x : Z) : Z := Z.land (x + 3) (Z.lnot 3).

(** The fixed fields of the entry at [pos]. *)
Record header := mkHeader { h_len : Z; h_index : Z; h_offs : Z; h_inum : Z; h_size : Z }.

Definition read_header (buf : bytes) (pos : Z) : res header :=
  name_len ← get buf pos;
  name_index ← get buf (pos + 1);
  value_offs ← u16_le buf (pos + 2);
  value_inum ← u32_le buf (pos + 4);
  value_size ← u32_le buf (pos + 8);
  Ok (mkHeader name_len name_index value_offs value_inum value_size).

(** The value of an entry: nothing here once an inode holds it. *)
Definition entry_value (range : string) (buf : bytes) (h : header) : res bytes :=
  if decide (h_inum h ≠ 0) then Ok [] else
  if decide (0 < h_size h) then
    if decide (zlen buf < h_offs h + h_size h) then Err (Corrupt range) else slice buf (h_offs h) (h_size h)
  else Ok [].

(** The loop of [parse_entries] and [parse_entries_block], which differ in
    where they start and what they say. *)
Fixpoint parse_loop (overrun range : string) (fuel : nat) (buf : bytes) (pos : Z) (out : list XattrEntry)
    : res (list XattrEntry) :=
  if decide (pos + 16 ≤ zlen buf) then
    match fuel with
    | O => OutOfFuel
    | S fuel =>
        word ← u32_le buf pos;
        if decide (word = 0) then Ok out else
        h ← read_header buf pos;
        let entry_padded := pad4 (16 + h_len h) in
        if decide (zlen buf < pos + 16 + h_len h) then Err (Corrupt overrun) else
        name_bytes ← slice buf (pos + 16) (h_len h);
        let prefix := default [] (prefix_for_index (h_index h)) in
        if negb (from_utf8 name_bytes) then Err (Corrupt "xattr name not utf-8") else
        v ← entry_value range buf h;
        parse_loop overrun range fuel buf (pos + entry_padded)
          (out ++ [mkXattr (prefix ++ name_bytes) v (h_inum h) (h_size h)])
    end
  else Ok out.

Definition parse_entries (entries_buf : bytes) (out : list XattrEntry) : res (list XattrEntry) :=
  parse_loop "xattr entry name overruns region" "xattr value out of range" (length entries_buf) entries_buf 0 out.

Definition parse_entries_block (block : bytes) (out : list XattrEntry) : res (list XattrEntry) :=
  if decide (zlen block < 32) then Err (Corrupt "xattr block too small") else
  parse_loop "xattr entry name overruns block" "xattr block value out of range" (length block) block 32 out.

Section read.
Context (dev : reader).

(** The in-inode area: after the extra fields, when there are any. *)
Definition in_inode_entries (inode_raw : bytes) (inode_size : Z) : res (list XattrEntry) :=
  if decide (zlen inode_raw < 128 + 4) then Ok [] else
  extra_isize ← u16_le inode_raw 128;
  let start := 128 + extra_isize in
  if decide (extra_isize ≠ 0 ∧ start + 4 ≤ inode_size ∧ start + 4 ≤ zlen inode_raw) then
    region ← slice inode_raw start (Z.min inode_size (zlen inode_raw) - start);
    magic ← u32_le region 0;
    if decide (magic = EXT4_XATTR_MAGIC) then parse_entries (drop 4 region) [] else Ok []
  else Ok [].

Definition read_all (inode : Inode.t) (inode_raw : bytes) (inode_size block_size : Z) : res (list XattrEntry) :=
  out ← in_inode_entries inode_raw inode_size;
  if decide (Inode.file_acl inode = 0) then Ok out else
  buf ← rd_read dev (as_u64 (Inode.file_acl inode * block_size)) block_size;
  magic ← u32_le buf 0;
  if decide (magic ≠ EXT4_XATTR_MAGIC) then Err (Corrupt "xattr block magic mismatch") else
  parse_entries_block buf out.

Definition get (inode : Inode.t) (inode_raw : bytes) (inode_size block_size : Z) (nm : bytes) : res (option bytes) :=
  all ← read_all inode inode_raw inode_size block_size;
  Ok (value <$> List.find (λ e, bool_decide (name e = nm)) all).
End read.

(** ** Writing *)

(** [str::strip_prefix] *)
Fixpoint strip_prefix (prefix s : bytes) : option bytes :=
  match prefix, s with
  | [], _ => Some s
  | p :: prefix, c :: s => if decide (p = c) then strip_prefix prefix s else None
  | _ :: _, [] => None
  end.

Fixpoint split_name (prefixes : list (Z * bytes)) (nm : bytes) : option (Z * bytes) :=
  match prefixes with
  | [] => None
  | (idx, prefix) :: rest =>
      match strip_prefix prefix nm with Some suffix => Some (idx, suffix) | None => split_name rest nm end
  end.
Definition split_qualified_name (nm : bytes) : option (Z * bytes) := split_name NAME_PREFIXES nm.

Inductive RemoveOutcome := Removed | RemoveNotFound.
Inductive SetOutcome := Inserted | Replaced.
Inductive BlockRemoveOutcome := BlockRemoved | RemovedNowEmpty | BlockNotFound.

Record DecodedEntry := mkDecoded { name_index : Z; name_bytes : bytes; d_value : bytes; d_inum : Z }.

Definition refuse_if_any_ea_inode_backed (entries : list DecodedEntry) : res unit :=
  if existsb (λ e, negb (bool_decide (d_inum e = 0))) entries
  then Err (Unsupported "this inode has an extended attribute whose value lives in an EA inode; rewriting the attribute area would orphan it")
  else Ok tt.

Fixpoint decode_loop (overrun range : string) (fuel : nat) (buf : bytes) (pos : Z) (out : list DecodedEntry)
    : res (list DecodedEntry) :=
  if decide (pos + 16 ≤ zlen buf) then
    match fuel with
    | O => OutOfFuel
    | S fuel =>
        word ← u32_le buf pos;
        if decide (word = 0) then Ok out else
        h ← read_header buf pos;
        if decide (zlen buf < pos + 16 + h_len h) then Err (Corrupt overrun) else
        name_bytes ← slice buf (pos + 16) (h_len h);
        v ← entry_value range buf h;
        decode_loop overrun range fuel buf (pos + pad4 (16 + h_len h))
          (out ++ [mkDecoded (h_index h) name_bytes v (h_inum h)])
    end
  else Ok out.

Definition decode_in_inode_entries (entries_buf : bytes) : res (list DecodedEntry) :=
  decode_loop "xattr entry name overruns region" "xattr value out of range" (length entries_buf) entries_buf 0 [].

Definition decode_external_block_entries (block : bytes) : res (list DecodedEntry) :=
  if decide (zlen block < 32) then Err (Corrupt "xattr block too small") else
  decode_loop "xattr entry name overruns block" "xattr block value out of range" (length block) block 32 [].

(** [[u8]::cmp] as a less-or-equal test. *)
Fixpoint bytes_le (a b : bytes) : bool :=
  match a, b with
  | [], _ => true
  | _ :: _, [] => false
  | x :: a, y :: b => bool_decide (x < y) || (bool_decide (x = y) && bytes_le a b)
  end.

(** [[T]::sort_by], which is stable. *)
Fixpoint insert_by {A} (le : A → A → bool) (x : A) (l : list A) : list A :=
  match l with
  | [] => [x]
  | y :: l => if le x y then x :: y :: l else y :: insert_by le x l
  end.
Definition sort_by {A} (le : A → A → bool) (l : list A) : list A := foldr (insert_by le) [] l.

Definition in_inode_le (a b : DecodedEntry) : bool :=
  bool_decide (name_index a < name_index b) ||
  (bool_decide (name_index a = name_index b) && bytes_le (name_bytes a) (name_bytes b)).

Definition external_le (a b : DecodedEntry) : bool :=
  bool_decide (name_index a < name_index b) ||
  (bool_decide (name_index a = name_index b) &&
   (bool_decide (zlen (name_bytes a) < zlen (name_bytes b)) ||
    (bool_decide (zlen (name_bytes a) = zlen (name_bytes b)) && bytes_le (name_bytes a) (name_bytes b)))).

(** Values are packed from the end towards the entries. *)
Definition place_value (area : bytes) (value_cursor : Z) (v : bytes) : res (bytes * Z * Z) :=
  if decide (v = []) then Ok (area, value_cursor, 0) else
  let value_cursor := as_u64 (value_cursor - pad4 (zlen v)) in
  area ← put area value_cursor v;
  Ok (area, value_cursor, value_cursor).

(** The entry's own fields; [hash] is written in an external block only. *)
Definition write_entry (hash : option Z) (area : bytes) (at_ offs : Z) (e : DecodedEntry) : res bytes :=
  area ← put area at_ [as_u8 (zlen (name_bytes e))];
  area ← put area (at_ + 1) [name_index e];
  area ← put_u16 area (at_ + 2) (as_u16 offs);
  area ← put_u32 area (at_ + 8) (as_u32 (zlen (d_value e)));
  area ← match hash with Some h => put_u32 area (at_ + 12) h | None => Ok area end;
  put area (at_ + 16) (name_bytes e).

Definition encode_step (hash : DecodedEntry → option Z) (st : bytes * Z * Z) (e : DecodedEntry) : res (bytes * Z * Z) :=
  let '(area, entry_cursor, value_cursor) := st in
  '(area, value_cursor, offs) ← place_value area value_cursor (d_value e);
  area ← write_entry (hash e) area entry_cursor offs e;
  Ok (area, entry_cursor + pad4 (16 + zlen (name_bytes e)), value_cursor).

Definition encode_in_inode_entries (region : bytes) (entries : list DecodedEntry) : res bytes :=
  if decide (zlen region < 4) then Panic else
  let area_len := zlen region - 4 in
  '(area, _, _) ← foldM (encode_step (λ _, None)) (zrep area_len 0, 0, area_len) (sort_by in_inode_le entries);
  Ok (le_split 4 EXT4_XATTR_MAGIC ++ area).

Definition NAME_BYTE_ROTATION : Z := 5.
Definition WORD_ROTATION : Z := 16.

Definition entry_hash (nm v : bytes) : Z :=
  let after_name := fold_left (λ acc byte, Z.lxor (rotl32 acc NAME_BYTE_ROTATION) byte) nm 0 in
  fold_left (λ acc piece, Z.lxor (rotl32 acc WORD_ROTATION) (le_combine piece)) (chunks 4 v) after_name.

Definition block_hash (entry_hashes : list Z) : Z :=
  if existsb (λ h, bool_decide (h = 0)) entry_hashes then 0 else
  fold_left (λ acc hash, Z.lxor (rotl32 acc WORD_ROTATION) hash) entry_hashes 0.

Definition hash_of (e : DecodedEntry) : Z := entry_hash (name_bytes e) (d_value e).
Definition encode_external_block (block : bytes) (entries : list DecodedEntry) (refcount : Z) : res bytes :=
  let b := zrep (zlen block) 0 in
  b ← put_u32 b 0x00 EXT4_XATTR_MAGIC;
  b ← put_u32 b 0x04 refcount;
  b ← put_u32 b 0x08 1;
  let sorted := sort_by external_le entries in
  '(b, _, _) ← foldM (encode_step (λ e, Some (hash_of e))) (b, 0x20, zlen block) sorted;
  put_u32 b 0x0C (block_hash (hash_of <$> sorted)).

Definition same_key (idx : Z) (suffix : bytes) (e : DecodedEntry) : bool :=
  bool_decide (name_index e = idx) && bool_decide (name_bytes e = suffix).

(** The first entry of that name gets the value; a new one goes last. *)
Fixpoint replace_first (idx : Z) (suffix v : bytes) (entries : list DecodedEntry) : option (list DecodedEntry) :=
  match entries with
  | [] => None
  | e :: entries =>
      if same_key idx suffix e then Some (mkDecoded (name_index e) (name_bytes e) v (d_inum e) :: entries)
      else cons e <$> replace_first idx suffix v entries
  end.

Definition set_entry (idx : Z) (suffix v : bytes) (entries : list DecodedEntry) : SetOutcome * list DecodedEntry :=
  match replace_first idx suffix v entries with
  | Some entries => (Replaced, entries)
  | None => (Inserted, entries ++ [mkDecoded idx suffix v 0])
  end.

Definition sum (l : list Z) : Z := foldr Z.add 0 l.
Definition needed_entries (entries : list DecodedEntry) : Z :=
  sum ((λ e, pad4 (16 + zlen (name_bytes e))) <$> entries).
Definition needed_values (entries : list DecodedEntry) : Z :=
  sum ((λ e, pad4 (zlen (d_value e))) <$> filter (λ e, d_value e ≠ []) entries).

(** The checks on the name, shared by both setters. *)
Definition check_set_name (nm : bytes) : res (Z * bytes) :=
  '(idx, suffix) ← ok_or (split_qualified_name nm) (InvalidArgument "xattr name missing known namespace prefix");
  if decide (suffix = [] ∧ idx ≠ 2 ∧ idx ≠ 3) then Err (InvalidArgument "xattr name suffix is empty") else
  if decide (255 < zlen suffix) then Err NameTooLong else Ok (idx, suffix).

Definition plan_set_in_inode_region (region nm v : bytes) : res (SetOutcome * bytes) :=
  '(idx, suffix) ← check_set_name nm;
  if decide (zlen region < 8) then Err NoSpaceLeftOnDevice else
  m ← u32_le region 0;
  entries ← (if decide (m = EXT4_XATTR_MAGIC) then decode_in_inode_entries (drop 4 region) else Ok []);
  _ ← refuse_if_any_ea_inode_backed entries;
  let '(outcome, entries) := set_entry idx suffix v entries in
  let area_len := zlen region - 4 in
  if decide (area_len < needed_entries entries + 4 + needed_values entries) then Err NoSpaceLeftOnDevice else
  region ← encode_in_inode_entries region entries;
  Ok (outcome, region).

Definition plan_remove_in_inode_region (region nm : bytes) : res (RemoveOutcome * bytes) :=
  '(idx, suffix) ← ok_or (split_qualified_name nm) (InvalidArgument "xattr name missing known namespace prefix");
  if decide (zlen region < 4) then Ok (RemoveNotFound, region) else
  magic ← u32_le region 0;
  if decide (magic ≠ EXT4_XATTR_MAGIC) then Ok (RemoveNotFound, region) else
  entries ← decode_in_inode_entries (drop 4 region);
  _ ← refuse_if_any_ea_inode_backed entries;
  let kept := List.filter (λ e, negb (same_key idx suffix e)) entries in
  if decide (zlen kept = zlen entries) then Ok (RemoveNotFound, region) else
  region ← encode_in_inode_entries region kept;
  Ok (Removed, region).

Definition plan_set_in_external_block (block nm v : bytes) (refcount : Z) : res (SetOutcome * bytes) :=
  '(idx, suffix) ← check_set_name nm;
  if decide (zlen block < 0x40) then Err NoSpaceLeftOnDevice else
  m ← u32_le block 0;
  entries ← (if decide (m = EXT4_XATTR_MAGIC) then decode_external_block_entries block else Ok []);
  _ ← refuse_if_any_ea_inode_backed entries;
  let '(outcome, entries) := set_entry idx suffix v entries in
  let entries_capacity := zlen block - 0x20 in
  if decide (entries_capacity < needed_entries entries + 4 + needed_values entries) then Err NoSpaceLeftOnDevice else
  block ← encode_external_block block entries refcount;
  Ok (outcome, block).

Definition plan_remove_from_external_block (block nm : bytes) (refcount : Z) : res (BlockRemoveOutcome * bytes) :=
  '(idx, suffix) ← ok_or (split_qualified_name nm) (InvalidArgument "xattr name missing known namespace prefix");
  if decide (zlen block < 0x20) then Ok (BlockNotFound, block) else
  magic ← u32_le block 0;
  if decide (magic ≠ EXT4_XATTR_MAGIC) then Ok (BlockNotFound, block) else
  entries ← decode_external_block_entries block;
  _ ← refuse_if_any_ea_inode_backed entries;
  let kept := List.filter (λ e, negb (same_key idx suffix e)) entries in
  if decide (zlen kept = zlen entries) then Ok (BlockNotFound, block) else
  if decide (kept = []) then Ok (RemovedNowEmpty, block) else
  block ← encode_external_block block kept refcount;
  Ok (BlockRemoved, block).

Definition check_external_block `{Crc32c} (csum : Checksummer) (block_nr : Z) (block : bytes) : res unit :=
  magic ← (if decide (zlen block < 0x20) then Ok 0 else u32_le block 0);
  if decide (magic ≠ EXT4_XATTR_MAGIC) then Err (Corrupt "i_file_acl names a block without the xattr magic") else
  h_blocks ← u32_le block 8;
  if decide (h_blocks ≠ 1) then Err (Corrupt "xattr block h_blocks is not 1") else
  ok ← verify_xattr_block csum block_nr block;
  if negb ok then Err (BadChecksum "xattr block") else Ok tt.

(** ** Padding and sums *)

Lemma pad4_eq x : 0 ≤ x → pad4 x = (x + 3) / 4 * 4.
Proof.
  intros Hx. unfold pad4. rewrite <-Z.ldiff_land. change 3 with (Z.ones 2) at 2.
  rewrite Z.ldiff_ones_r by lia. rewrite Z.shiftl_mul_pow2, Z.shiftr_div_pow2 by lia. done.
Qed.

Lemma pad4_bounds x : 0 ≤ x → x ≤ pad4 x < x + 4.
Proof.
  intros Hx. rewrite pad4_eq by done. pose proof (Z.div_mod (x + 3) 4). pose proof (Z.mod_pos_bound (x + 3) 4). lia.
Qed.

Lemma pad4_0 : pad4 0 = 0.
Proof. done. Qed.

Lemma sum_cons x l : sum (x :: l) = x + sum l.
Proof. done. Qed.

Lemma sum_perm l l' : l ≡ₚ l' → sum l = sum l'.
Proof. induction 1; rewrite ?sum_cons; lia. Qed.

Lemma needed_entries_cons e es : needed_entries (e :: es) = pad4 (16 + zlen (name_bytes e)) + needed_entries es.
Proof. done. Qed.

Lemma needed_values_cons e es : needed_values (e :: es) = pad4 (zlen (d_value e)) + needed_values es.
Proof.
  unfold needed_values. rewrite filter_cons. case_decide as H; [done|]. rewrite H. done.
Qed.

Lemma needed_entries_perm es es' : es ≡ₚ es' → needed_entries es = needed_entries es'.
Proof. intros H. apply sum_perm. by rewrite H. Qed.
Lemma needed_values_perm es es' : es ≡ₚ es' → needed_values es = needed_values es'.
Proof. intros H. apply sum_perm. by rewrite H. Qed.

Lemma needed_nonneg es : 0 ≤ needed_entries es ∧ 0 ≤ needed_values es.
Proof.
  induction es as [|e es [IH1 IH2]]; [done|]. rewrite needed_entries_cons, needed_values_cons.
  pose proof (pad4_bounds (16 + zlen (name_bytes e))). pose proof (pad4_bounds (zlen (d_value e))).
  pose proof (zlen_nonneg (name_bytes e)). pose proof (zlen_nonneg (d_value e)). lia.
Qed.

(** ** The stable sort *)

Lemma entries_insert_by_perm {A} (le : A → A → bool) x l : insert_by le x l ≡ₚ x :: l.
Proof. induction l as [|y l IH]; [done|]. cbn [insert_by]. destruct (le x y); [done|]. rewrite IH. apply Permutation_swap. Qed.

Lemma sort_by_perm {A} (le : A → A → bool) l : sort_by le l ≡ₚ l.
Proof. induction l as [|x l IH]; [done|]. cbn [sort_by foldr]. rewrite entries_insert_by_perm. by f_equiv. Qed.

(** Elements the order does not tell apart keep their order: what a search
    among them finds is what it found before. *)
Lemma find_insert_by {A} (le : A → A → bool) (P : A → bool) x l :
  (∀ y, P x = true → P y = true → le x y = true) → List.find P (insert_by le x l) = List.find P (x :: l).
Proof.
  intros HP. induction l as [|y l IH]; [done|]. cbn [insert_by]. destruct (le x y) eqn:E; [done|].
  cbn [List.find] in *. destruct (P y) eqn:Ey; [|exact IH]. destruct (P x) eqn:Ex; [|done].
  rewrite (HP y) in E by done. done.
Qed.

Lemma find_sort_by {A} (le : A → A → bool) (P : A → bool) l :
  (∀ x y, P x = true → P y = true → le x y = true) → List.find P (sort_by le l) = List.find P l.
Proof.
  intros HP. induction l as [|x l IH]; [done|]. cbn [sort_by foldr]. rewrite find_insert_by by auto.
  cbn [List.find]. by rewrite <-IH.
Qed.

Lemma bytes_le_refl l : bytes_le l l = true.
Proof. induction l as [|x l IH]; [done|]. cbn [bytes_le]. rewrite (bool_decide_true (x = x)), IH by done. by rewrite orb_true_r. Qed.

Lemma same_key_le idx suffix a b : same_key idx suffix a = true → same_key idx suffix b = true →
  in_inode_le a b = true ∧ external_le a b = true.
Proof.
  unfold same_key, in_inode_le, external_le. rewrite !andb_true_iff, !bool_decide_eq_true. intros [-> ->] [-> ->].
  rewrite !(bool_decide_true (_ = _)), bytes_le_refl by done. by rewrite !orb_true_r.
Qed.

(** ** One entry, encoded *)

Definition enc (hash : option Z) (e : DecodedEntry) (offs : Z) : bytes :=
  [zlen (name_bytes e); name_index e] ++ le_split 2 offs ++ le_split 4 0 ++ le_split 4 (zlen (d_value e)) ++
  le_split 4 (default 0 hash) ++ name_bytes e ++
  zrep (pad4 (16 + zlen (name_bytes e)) - (16 + zlen (name_bytes e))) 0.

Lemma zlen_entry_enc hash e offs : zlen (enc hash e offs) = pad4 (16 + zlen (name_bytes e)).
Proof.
  unfold enc. pose proof (zlen_nonneg (name_bytes e)). pose proof (pad4_bounds (16 + zlen (name_bytes e))).
  change [zlen (name_bytes e); name_index e] with ([zlen (name_bytes e)] ++ [name_index e]). zl.
Qed.

Lemma write_entry_ok hash pre post e offs :
  zlen (name_bytes e) ≤ 255 → 0 ≤ offs < 2 ^ 16 → zlen (d_value e) < 2 ^ 32 →
  write_entry hash (pre ++ zrep (pad4 (16 + zlen (name_bytes e))) 0 ++ post) (zlen pre) offs e =
    Ok (pre ++ enc hash e offs ++ post).
Proof.
  intros Hn Ho Hv. pose proof (zlen_nonneg (name_bytes e)). pose proof (zlen_nonneg (d_value e)).
  pose proof (pad4_bounds (16 + zlen (name_bytes e))) as Hp. set (p := pad4 _) in *.
  unfold write_entry, put_u16, put_u32. rewrite <-(Z.add_0_r (zlen pre)) at 1.
  unfold as_u8, as_u16, as_u32. rewrite !Z.mod_small by lia.
  assert (Ez : zrep p 0 = zrep 16 0 ++ zrep (p - 16) 0) by (apply zrep_split; lia).
  assert (Hz : zlen (zrep p 0) = p) by (rewrite zlen_zrep; lia).
  rewrite put_mid by zl. cbn [mbind res_bind]. rewrite put_mid by zl. cbn [mbind res_bind].
  rewrite put_mid by zl. cbn [mbind res_bind]. rewrite put_mid by zl. cbn [mbind res_bind].
  assert (Ename : ∀ l16 : bytes, length l16 = 16%nat →
    splice (l16 ++ zrep (p - 16) 0) 16 (name_bytes e) = l16 ++ name_bytes e ++ zrep (p - (16 + zlen (name_bytes e))) 0).
  { intros l16 Hl. rewrite (zrep_split (zlen (name_bytes e)) (p - 16)) by lia.
    pose proof (splice_mid l16 (zrep (zlen (name_bytes e)) 0) (zrep (p - 16 - zlen (name_bytes e)) 0) 0 (name_bytes e)) as E.
    replace (zlen l16 + 0) with 16 in E by (unfold zlen; lia). rewrite E by zl. f_equal. f_equal; [|f_equal; lia].
    apply splice_all. zl. }
  destruct hash as [h|].
  - rewrite put_mid by zl. cbn [mbind res_bind]. rewrite put_mid by zl. f_equal. f_equal. f_equal.
    rewrite Ez. change (zrep 16 0) with [0; 0; 0; 0; 0; 0; 0; 0; 0; 0; 0; 0; 0; 0; 0; 0].
    exact (Ename ([zlen (name_bytes e); name_index e] ++ le_split 2 offs ++ le_split 4 0 ++ le_split 4 (zlen (d_value e)) ++ le_split 4 h) eq_refl).
  - cbn [mbind res_bind]. rewrite put_mid by zl. f_equal. f_equal. f_equal.
    rewrite Ez. change (zrep 16 0) with [0; 0; 0; 0; 0; 0; 0; 0; 0; 0; 0; 0; 0; 0; 0; 0].
    exact (Ename ([zlen (name_bytes e); name_index e] ++ le_split 2 offs ++ le_split 4 0 ++ le_split 4 (zlen (d_value e)) ++ le_split 4 0) eq_refl).
Qed.

(** ** An area, encoded *)

Definition entry_ok (e : DecodedEntry) : Prop :=
  0 ≤ name_index e < 256 ∧ zlen (name_bytes e) ≤ 255 ∧ (name_index e ≠ 0 ∨ name_bytes e ≠ []) ∧ d_inum e = 0.

Definition encs (hash : DecodedEntry → option Z) (ps : list (DecodedEntry * Z)) : bytes :=
  concat ((λ p, enc (hash (fst p)) (fst p) (snd p)) <$> ps).

(** The entry's value is where its offset says. *)
Definition value_at (buf : bytes) (p : DecodedEntry * Z) : Prop :=
  0 ≤ snd p < 2 ^ 16 ∧ (d_value (fst p) = [] ∨
    snd p + zlen (d_value (fst p)) ≤ zlen buf ∧ sub buf (snd p) (zlen (d_value (fst p))) = d_value (fst p)).

Lemma place_value_ok E g V v : pad4 (zlen v) ≤ g → zlen E + g + zlen V ≤ 2 ^ 16 →
  let V1 := (v ++ zrep (pad4 (zlen v) - zlen v) 0) ++ V in
  ∃ offs, place_value (E ++ zrep g 0 ++ V) (zlen E + g) v =
    Ok (E ++ zrep (g - pad4 (zlen v)) 0 ++ V1, zlen E + g - pad4 (zlen v), offs) ∧
    0 ≤ offs < 2 ^ 16 ∧ (v = [] ∨ offs = zlen E + g - pad4 (zlen v)).
Proof.
  intros Hg Hs. cbv zeta. pose proof (zlen_nonneg E). pose proof (zlen_nonneg V). pose proof (zlen_nonneg v).
  pose proof (pad4_bounds (zlen v)). unfold place_value. destruct (decide (v = [])) as [->|Hv].
  { exists 0. change (pad4 (zlen [])) with 0. rewrite !Z.sub_0_r. change (zrep (0 - zlen (@nil Z)) 0) with (@nil Z).
    split; [done|]. split; [lia|]. by left. }
  assert (zlen v ≠ 0) by (destruct v; [done|unfold zlen; simpl; lia]).
  unfold as_u64. rewrite Z.mod_small by lia. exists (zlen E + g - pad4 (zlen v)). split; [|split; [lia|by right]].
  pose proof (put_mid (E ++ zrep (g - pad4 (zlen v)) 0) (zrep (pad4 (zlen v)) 0) V 0 v ltac:(lia)) as Hput.
  assert (Ez : zlen (E ++ zrep (g - pad4 (zlen v)) 0) + 0 = zlen E + g - pad4 (zlen v)) by zl. rewrite Ez in Hput.
  rewrite (zrep_split (g - pad4 (zlen v)) g 0) by lia. replace (g - (g - pad4 (zlen v))) with (pad4 (zlen v)) by lia.
  rewrite <-!app_assoc in *. rewrite Hput by zl. cbn [mbind res_bind]. do 3 f_equal.
  pose proof (splice_mid [] (zrep (zlen v) 0) (zrep (pad4 (zlen v) - zlen v) 0) 0 v) as Hsp. cbn [app] in Hsp. change (zlen (@nil Z) + 0) with 0 in Hsp.
  rewrite (zrep_split (zlen v) (pad4 (zlen v)) 0) by lia. rewrite Hsp by zl. rewrite splice_all by zl.
  by rewrite <-!app_assoc.
Qed.

Lemma encode_fold hash es : ∀ E g V, Forall entry_ok es → needed_entries es + needed_values es ≤ g → zlen E + g + zlen V ≤ 2 ^ 16 →
  ∃ ps V0, let B := E ++ encs hash ps ++ zrep (g - needed_entries es - needed_values es) 0 ++ V0 ++ V in
    foldM (encode_step hash) (E ++ zrep g 0 ++ V, zlen E, zlen E + g) es =
      Ok (B, zlen E + needed_entries es, zlen E + g - needed_values es) ∧
    ps.*1 = es ∧ zlen V0 = needed_values es ∧ zlen (encs hash ps) = needed_entries es ∧ Forall (value_at B) ps ∧
    Forall (λ p, d_value (fst p) = [] ∨ zlen E ≤ snd p) ps.
Proof.
  induction es as [|e es IH]; intros E g V Hok Hg Hs.
  { exists [], []. cbv zeta. change (needed_entries []) with 0. change (needed_values []) with 0. rewrite !Z.sub_0_r, Z.add_0_r.
    cbn [foldM encs fmap list_fmap concat app]. done. }
  apply Forall_cons in Hok as [(Hi & Hn & Hne & Hinum) Hok]. rewrite needed_entries_cons, needed_values_cons in *.
  destruct (needed_nonneg es) as [Hp1 Hp2]. pose proof (zlen_nonneg (name_bytes e)). pose proof (zlen_nonneg (d_value e)).
  pose proof (pad4_bounds (16 + zlen (name_bytes e)) ltac:(lia)) as Hpad. pose proof (pad4_bounds (zlen (d_value e)) ltac:(lia)) as Hpadv.
  pose proof (zlen_nonneg E). pose proof (zlen_nonneg V).
  set (p := pad4 (16 + zlen (name_bytes e))) in *. set (P := pad4 (zlen (d_value e))) in *.
  destruct (place_value_ok E g V (d_value e)) as (offs & Epl & Ho & Hoff); [fold P; lia|lia|]. fold P in Epl, Hoff.
  set (V1 := (d_value e ++ zrep (P - zlen (d_value e)) 0) ++ V) in *.
  assert (HV1 : zlen V1 = P + zlen V) by (unfold V1; zl).
  cbn [foldM encode_step]. rewrite Epl. cbn [mbind res_bind].
  rewrite (zrep_split p (g - P) 0) by lia. rewrite <-app_assoc.
  unfold p at 1. rewrite write_entry_ok by lia. cbn [mbind res_bind].
  assert (Ee : zlen (enc (hash e) e offs) = p) by apply zlen_entry_enc.
  destruct (IH (E ++ enc (hash e) e offs) (g - P - p) V1 Hok) as (ps & V0 & EB & Eps & HV0 & Hen & Hval & Hlow); [lia|rewrite zlen_app; lia|].
  exists ((e, offs) :: ps), (V0 ++ d_value e ++ zrep (P - zlen (d_value e)) 0). cbv zeta in *.
  rewrite zlen_app, Ee in EB. fold p. change (encs hash ((e, offs) :: ps)) with (enc (hash e) e offs ++ encs hash ps).
  assert (EqB : E ++ (enc (hash e) e offs ++ encs hash ps) ++ zrep (g - (p + needed_entries es) - (P + needed_values es)) 0 ++
      (V0 ++ d_value e ++ zrep (P - zlen (d_value e)) 0) ++ V =
    (E ++ enc (hash e) e offs) ++ encs hash ps ++ zrep (g - P - p - needed_entries es - needed_values es) 0 ++ V0 ++ V1).
  { unfold V1. rewrite <-!app_assoc. do 4 f_equal. f_equal. lia. }
  rewrite EqB. set (B := (E ++ enc (hash e) e offs) ++ encs hash ps ++ zrep (g - P - p - needed_entries es - needed_values es) 0 ++ V0 ++ V1) in *.
  assert (HB : zlen B = zlen E + g + zlen V) by (unfold B; rewrite !zlen_app, Ee, Hen, HV0, HV1, zlen_zrep; lia).
  rewrite (app_assoc E). split; [|split; [cbn; by rewrite Eps|split; [|split; [by rewrite zlen_app, Ee, Hen|split]]]].
  - replace (zlen E + g - P) with (zlen E + p + (g - P - p)) by lia. rewrite EB. do 2 f_equal; [f_equal|]; lia.
  - rewrite !zlen_app, zlen_zrep. lia.
  - constructor; [|exact Hval]. split; [exact Ho|]. cbn [fst snd]. destruct Hoff as [->|Hoff]; [by left|right].
    assert (∃ pre, B = pre ++ V1) as (pre & HBs) by (eexists; unfold B; rewrite !app_assoc; reflexivity).
    split; [lia|]. assert (Hpre : zlen pre = zlen E + g - P) by (apply (f_equal zlen) in HBs; rewrite zlen_app in HBs; lia).
    rewrite HBs. replace offs with (zlen pre) by lia. rewrite sub_app_r by lia. rewrite Z.sub_diag. unfold V1. rewrite <-app_assoc. rewrite sub_app_l by lia. by apply sub_all.
  - constructor; [cbn [fst snd]; destruct Hoff as [->|Hoff]; [by left|right; lia]|].
    eapply Forall_impl; [exact Hlow|]. intros p' [Hp'|Hp']; [by left|right]. rewrite zlen_app in Hp'. lia.
Qed.

Lemma enc_fields hash e offs : 0 ≤ offs < 2 ^ 16 → zlen (d_value e) < 2 ^ 32 →
  byte_at (enc hash e offs) 0 = zlen (name_bytes e) ∧ byte_at (enc hash e offs) 1 = name_index e ∧
  le16 (enc hash e offs) 2 = offs ∧ le32 (enc hash e offs) 4 = 0 ∧ le32 (enc hash e offs) 8 = zlen (d_value e) ∧
  sub (enc hash e offs) 16 (zlen (name_bytes e)) = name_bytes e.
Proof.
  intros Ho Hv. pose proof (zlen_nonneg (d_value e)). pose proof (zlen_nonneg (name_bytes e)).
  split; [done|]. split; [done|].
  split; [change (le16 (enc hash e offs) 2) with (le_combine (le_split 2 offs)); apply le_combine_split; lia|].
  split; [done|].
  split; [change (le32 (enc hash e offs) 8) with (le_combine (le_split 4 (zlen (d_value e)))); apply le_combine_split; lia|].
  pose proof (sub_mid ([zlen (name_bytes e); name_index e] ++ le_split 2 offs ++ le_split 4 0 ++ le_split 4 (zlen (d_value e)) ++ le_split 4 (default 0 hash))
    (name_bytes e) (zrep (pad4 (16 + zlen (name_bytes e)) - (16 + zlen (name_bytes e))) 0) 0 (zlen (name_bytes e)) ltac:(lia) ltac:(lia)) as E.
  rewrite (sub_all (name_bytes e)) in E by lia. exact E.
Qed.

Lemma enc_word hash e offs : entry_ok e → 0 ≤ offs < 2 ^ 16 → le32 (enc hash e offs) 0 ≠ 0.
Proof.
  intros (Hi & Hn & Hne & _) Ho. pose proof (zlen_nonneg (name_bytes e)).
  assert (E : le32 (enc hash e offs) 0 = zlen (name_bytes e) + 256 * (name_index e + 256 * le_combine (le_split 2 offs))).
  { change (le32 (enc hash e offs) 0) with (le_combine (zlen (name_bytes e) :: name_index e :: le_split 2 offs)). reflexivity. }
  rewrite E, le_combine_split by lia. destruct Hne as [?|Hne]; [lia|].
  assert (zlen (name_bytes e) ≠ 0) by (destruct (name_bytes e); [done|unfold zlen; simpl; lia]). lia.
Qed.

Lemma decode_encs overrun range hash buf ps : ∀ fuel pre tail out,
  buf = pre ++ encs hash ps ++ tail → (zlen tail < 16 ∨ ∃ t, tail = zrep 4 0 ++ t) →
  Forall entry_ok (ps.*1) → Forall (value_at buf) ps → zlen buf ≤ 2 ^ 16 → (length ps < fuel)%nat →
  decode_loop overrun range fuel buf (zlen pre) out = Ok (out ++ ps.*1).
Proof.
  induction ps as [|[e offs] ps IH]; intros fuel pre tail out Ebuf Htail Hok Hval Hs Hf; (destruct fuel as [|fuel]; [lia|]).
  - cbn [encs fmap list_fmap concat app] in Ebuf. rewrite app_nil_r. cbn [decode_loop]. rewrite Ebuf. pose proof (zlen_nonneg pre).
    rewrite zlen_app. destruct Htail as [Ht|(t & ->)]; [by rewrite decide_False by lia|].
    case_decide; [|done]. pose proof (u32_le_mid pre (zrep 4 0) t 0 ltac:(lia) ltac:(by vm_compute)) as E. rewrite Z.add_0_r in E.
    rewrite E. done.
  - change (encs hash ((e, offs) :: ps)) with (enc (hash e) e offs ++ encs hash ps) in Ebuf. rewrite <-app_assoc in Ebuf.
    rewrite fmap_cons in Hok. apply Forall_cons in Hok as [Hoke Hok]. apply Forall_cons in Hval as [[Ho Hv] Hval].
    pose proof Hoke as (Hi & Hn & _ & Hinum). cbn [fst snd] in *.
    pose proof (zlen_nonneg (name_bytes e)). pose proof (zlen_nonneg (d_value e)). pose proof (zlen_nonneg pre).
    pose proof (pad4_bounds (16 + zlen (name_bytes e)) ltac:(lia)) as Hpad. pose proof (zlen_entry_enc (hash e) e offs) as Hz.
    assert (Hbuf : zlen buf = zlen pre + zlen (enc (hash e) e offs) + zlen (encs hash ps ++ tail)) by (rewrite Ebuf, !zlen_app; lia).
    pose proof (zlen_nonneg (encs hash ps ++ tail)).
    assert (Hvs : zlen (d_value e) < 2 ^ 32) by (destruct Hv as [->|[? _]]; [done|lia]).
    destruct (enc_fields (hash e) e offs Ho Hvs) as (F1 & F2 & F3 & F4 & F5 & F6).
    cbn [decode_loop]. rewrite decide_True by lia.
    assert (Eword : u32_le buf (zlen pre) = Ok (le32 (enc (hash e) e offs) 0)).
    { rewrite Ebuf. rewrite <-(Z.add_0_r (zlen pre)). apply u32_le_mid; lia. }
    rewrite Eword. cbn [mbind res_bind]. rewrite decide_False by (by apply enc_word).
    assert (Ehead : read_header buf (zlen pre) = Ok (mkHeader (zlen (name_bytes e)) (name_index e) offs 0 (zlen (d_value e)))).
    { unfold read_header. rewrite Ebuf. rewrite <-(Z.add_0_r (zlen pre)) at 1. rewrite !get_mid by lia. cbn [mbind res_bind].
      rewrite u16_le_mid by lia. cbn [mbind res_bind]. rewrite !u32_le_mid by lia. cbn [mbind res_bind]. by rewrite F1, F2, F3, F4, F5. }
    rewrite Ehead. cbn [mbind res_bind h_len h_index h_offs h_inum h_size]. rewrite decide_False by lia.
    assert (Ename : slice buf (zlen pre + 16) (zlen (name_bytes e)) = Ok (name_bytes e)).
    { rewrite Ebuf. rewrite slice_mid by lia. by rewrite F6. }
    rewrite Ename. cbn [mbind res_bind].
    assert (Eval : entry_value range buf (mkHeader (zlen (name_bytes e)) (name_index e) offs 0 (zlen (d_value e))) = Ok (d_value e)).
    { unfold entry_value. cbn [h_inum h_size h_offs]. rewrite decide_False by lia.
      destruct Hv as [->|[Hv1 Hv2]]; [by rewrite decide_False by (unfold zlen; simpl; lia)|].
      case_decide; [|destruct (d_value e); [done|unfold zlen in *; simpl in *; lia]].
      rewrite decide_False by lia. rewrite slice_ok by lia. by rewrite Hv2. }
    rewrite Eval. cbn [mbind res_bind].
    replace (zlen pre + pad4 (16 + zlen (name_bytes e))) with (zlen (pre ++ enc (hash e) e offs)) by (rewrite zlen_app; lia).
    rewrite (IH fuel _ tail); [|by rewrite <-app_assoc|done..|simpl in Hf; lia].
    rewrite <-app_assoc, fmap_cons. cbn [app fst]. destruct e as [i n v j]. cbn [name_index name_bytes d_value d_inum] in *. by rewrite Hinum.
Qed.

Lemma encs_length hash ps : Z.of_nat (length ps) * 16 ≤ zlen (encs hash ps).
Proof.
  induction ps as [|[e o] ps IH]; [by vm_compute|]. change (encs hash ((e, o) :: ps)) with (enc (hash e) e o ++ encs hash ps).
  rewrite zlen_app, zlen_entry_enc. pose proof (zlen_nonneg (name_bytes e)). pose proof (pad4_bounds (16 + zlen (name_bytes e)) ltac:(lia)).
  simpl length. lia.
Qed.

(** Whatever is encoded in an area reads back, sorted. *)
Lemma encode_in_inode_ok region es : Forall entry_ok es → zlen region - 4 ≤ 2 ^ 16 →
  needed_entries es + 4 + needed_values es ≤ zlen region - 4 →
  ∃ region', encode_in_inode_entries region es = Ok region' ∧ zlen region' = zlen region ∧
    u32_le region' 0 = Ok EXT4_XATTR_MAGIC ∧ decode_in_inode_entries (drop 4 region') = Ok (sort_by in_inode_le es).
Proof.
  intros Hok Hs Hfit. destruct (needed_nonneg es). unfold encode_in_inode_entries. rewrite decide_False by lia.
  pose proof (sort_by_perm in_inode_le es) as Hp.
  rewrite <-Hp in Hok. rewrite <-(needed_entries_perm _ _ Hp), <-(needed_values_perm _ _ Hp) in *.
  destruct (encode_fold (λ _, None) (sort_by in_inode_le es) [] (zlen region - 4) [] Hok) as (ps & V0 & E & Eps & HV & Hen & Hval & _);
    [lia|change (zlen []) with 0; lia|]. cbv zeta in E. cbn [app] in E. rewrite app_nil_r in E. change (zlen (@nil Z)) with 0 in E. rewrite !Z.add_0_l in E.
  rewrite E. cbn [mbind res_bind]. set (g := zlen region - 4 - _ - _) in *. set (B := encs _ _ ++ _) in *.
  assert (HB : zlen B = zlen region - 4).
  { unfold B. rewrite !zlen_app, Hen, HV, zlen_zrep. unfold g. change (zlen (@nil Z)) with 0. lia. }
  eexists. split; [reflexivity|]. split; [zl|]. split; [exact (u32_le_mid [] (le_split 4 EXT4_XATTR_MAGIC) B 0 ltac:(lia) ltac:(by vm_compute))|].
  cbn [app] in Hval.
  change (drop 4 (le_split 4 EXT4_XATTR_MAGIC ++ B)) with B. unfold decode_in_inode_entries.
  pose proof (decode_encs "xattr entry name overruns region" "xattr value out of range" (λ _, None) B ps (length B) [] (zrep g 0 ++ V0 ++ []) []) as Hdec.
  change (zlen (@nil Z)) with 0 in Hdec. rewrite Hdec; [by rewrite Eps|unfold B; by rewrite app_nil_r| |by rewrite Eps|exact Hval|lia|].
  - right. rewrite (zrep_split 4 g) by (unfold g; lia). rewrite <-app_assoc. by eexists.
  - pose proof (encs_length (λ _, None) ps). rewrite Hen in *. unfold zlen in *. lia.
Qed.

(** The header of an external block. *)
Definition block_header (refcount hash : Z) : bytes :=
  le_split 4 EXT4_XATTR_MAGIC ++ le_split 4 refcount ++ le_split 4 1 ++ le_split 4 hash ++ zrep 16 0.

Lemma value_at_below pre pre' B p : zlen pre = zlen pre' → d_value (fst p) = [] ∨ zlen pre ≤ snd p →
  value_at (pre ++ B) p → value_at (pre' ++ B) p.
Proof.
  intros Hz Hlow [Ho Hv]. split; [done|]. destruct Hv as [Hv|[Hv1 Hv2]]; [by left|]. destruct Hlow as [Hlow|Hlow]; [by left|right].
  rewrite zlen_app in *. split; [lia|]. rewrite <-Hv2 at 2. rewrite !sub_app_r by lia. by rewrite Hz.
Qed.

Lemma encode_external_ok block es refcount : Forall entry_ok es → 0x40 ≤ zlen block ≤ 2 ^ 16 →
  needed_entries es + 4 + needed_values es ≤ zlen block - 0x20 →
  ∃ block' body, encode_external_block block es refcount = Ok block' ∧ zlen block' = zlen block ∧
    block' = block_header refcount (block_hash (hash_of <$> sort_by external_le es)) ++ body ∧
    decode_external_block_entries block' = Ok (sort_by external_le es).
Proof.
  intros Hok Hs Hfit. destruct (needed_nonneg es). unfold encode_external_block.
  pose proof (sort_by_perm external_le es) as Hp.
  rewrite <-Hp in Hok. rewrite <-(needed_entries_perm _ _ Hp), <-(needed_values_perm _ _ Hp) in *.
  assert (Ez : zrep (zlen block) 0 = zrep 32 0 ++ zrep (zlen block - 32) 0) by (apply zrep_split; lia).
  set (R := zrep (zlen block - 32) 0) in *. assert (HR : zlen R = zlen block - 32) by (unfold R; zl).
  rewrite Ez. unfold put_u32. rewrite put_ok by zl. cbn [mbind res_bind]. rewrite put_ok by zl. cbn [mbind res_bind].
  rewrite put_ok by zl. cbn [mbind res_bind].
  set (H32 := block_header refcount 0). change (splice _ 8 (le_split 4 1)) with (H32 ++ R).
  assert (HH : zlen H32 = 32) by (unfold H32, block_header; zl).
  destruct (encode_fold (λ e, Some (hash_of e)) (sort_by external_le es) H32 (zlen block - 32) [] Hok) as (ps & V0 & E & Eps & HV & Hen & Hval & Hlow);
    [lia|rewrite HH; change (zlen []) with 0; lia|]. cbv zeta in E. rewrite HH in E. fold R in E. rewrite (app_nil_r R) in E.
  replace (32 + (zlen block - 32)) with (zlen block) in E by lia. rewrite E. cbn [mbind res_bind].
  set (g := zlen block - 32 - _ - _) in *. set (B := encs _ ps ++ zrep g 0 ++ V0 ++ []) in *.
  assert (HB : zlen B = zlen block - 32).
  { unfold B. rewrite !zlen_app, Hen, HV, zlen_zrep. unfold g. change (zlen (@nil Z)) with 0. lia. }
  set (bh := block_hash _). rewrite put_ok by zl.
  assert (Esp : splice (H32 ++ B) 12 (le_split 4 bh) = block_header refcount bh ++ B) by reflexivity. rewrite Esp.
  assert (HH' : zlen (block_header refcount bh) = 32) by (unfold block_header; zl).
  eexists _, B. split; [reflexivity|]. split; [zl|]. split; [done|].
  unfold decode_external_block_entries. rewrite zlen_app. rewrite decide_False by (pose proof (zlen_nonneg B); lia).
  pose proof (decode_encs "xattr entry name overruns block" "xattr block value out of range" (λ e, Some (hash_of e)) (block_header refcount bh ++ B) ps
    (length (block_header refcount bh ++ B)) (block_header refcount bh) (zrep g 0 ++ V0 ++ []) []) as Hdec.
  rewrite HH' in Hdec. rewrite Hdec; [by rewrite Eps|done| |by rewrite Eps| |rewrite zlen_app; lia|].
  - right. rewrite (zrep_split 4 g) by (unfold g; lia). rewrite <-app_assoc. by eexists.
  - eapply Forall_impl; [apply Forall_and; split; [exact Hlow|exact Hval]|]. intros p [Hp1 Hp2].
    eapply value_at_below; [|exact Hp1|exact Hp2]. lia.
  - pose proof (encs_length (λ e, Some (hash_of e)) ps). rewrite length_app. unfold zlen in *. lia.
Qed.

(** ** Decoded entries *)

Definition raw_ok (e : DecodedEntry) : Prop := 0 ≤ name_index e < 256 ∧ zlen (name_bytes e) ≤ 255.

Lemma decode_loop_raw overrun range buf : bytes_ok buf → ∀ fuel pos out es,
  decode_loop overrun range fuel buf pos out = Ok es → Forall raw_ok out → Forall raw_ok es.
Proof.
  intros Hb. induction fuel as [|fuel IH]; intros pos out es Hd Hout; cbn [decode_loop] in Hd; res_inv; [done|done| |done].
  eapply IH; [exact Hd|]. apply Forall_app. split; [done|]. constructor; [|constructor].
  unfold read_header in Ha0. res_inv. cbn [h_len h_index] in *.
  match goal with H : Bytes.get buf pos = Ok _ |- _ => apply get_inv in H as [? Hl] end.
  match goal with H : Bytes.get buf (pos + 1) = Ok _ |- _ => apply get_inv in H as [? Hi] end.
  match goal with H : slice buf _ _ = Ok _ |- _ => apply slice_inv in H as (? & ? & ? & ->) end.
  unfold bytes_ok in Hb. rewrite Forall_lookup in Hb. apply Hb in Hl, Hi. unfold raw_ok. cbn [name_index name_bytes]. rewrite zlen_sub by lia. lia.
Qed.

Lemma decode_in_inode_raw buf es : bytes_ok buf → decode_in_inode_entries buf = Ok es → Forall raw_ok es.
Proof. intros Hb Hd. eapply decode_loop_raw; [exact Hb|exact Hd|constructor]. Qed.

Lemma decode_external_raw buf es : bytes_ok buf → decode_external_block_entries buf = Ok es → Forall raw_ok es.
Proof. unfold decode_external_block_entries. intros Hb Hd. res_inv. eapply decode_loop_raw; [exact Hb|exact Hd|constructor]. Qed.

Lemma refuse_ok entries u : refuse_if_any_ea_inode_backed entries = Ok u → Forall (λ e, d_inum e = 0) entries.
Proof.
  unfold refuse_if_any_ea_inode_backed. destruct (existsb _ entries) eqn:E; [done|]. intros _.
  apply Forall_forall. intros e He. apply list_elem_of_In in He.
  destruct (decide (d_inum e = 0)) as [|Hne]; [done|]. exfalso. apply not_true_iff_false in E. apply E.
  apply existsb_exists. exists e. split; [done|]. by rewrite bool_decide_false.
Qed.

Lemma refuse_none entries : Forall (λ e, d_inum e = 0) entries → refuse_if_any_ea_inode_backed entries = Ok tt.
Proof.
  intros H. unfold refuse_if_any_ea_inode_backed. destruct (existsb _ entries) eqn:E; [|done]. apply existsb_exists in E as (e & He & E).
  apply list_elem_of_In in He. rewrite Forall_forall in H. rewrite (bool_decide_true _ (H e He)) in E. done.
Qed.

Lemma entries_ok entries : Forall raw_ok entries → Forall (λ e, name_index e ≠ 0 ∨ name_bytes e ≠ []) entries →
  Forall (λ e, d_inum e = 0) entries → Forall entry_ok entries.
Proof.
  rewrite !Forall_forall. intros H1 H2 H3 e He. destruct (H1 e He) as [? ?]. unfold entry_ok. auto.
Qed.

(** ** Entries as a map from names to values *)

(** What a set of entries says of a name. *)
Definition value_of (idx : Z) (suffix : bytes) (entries : list DecodedEntry) : option bytes :=
  d_value <$> List.find (same_key idx suffix) entries.

Lemma same_key_true idx suffix e : same_key idx suffix e = true ↔ name_index e = idx ∧ name_bytes e = suffix.
Proof. unfold same_key. by rewrite andb_true_iff, !bool_decide_eq_true. Qed.

Lemma same_key_self i n v j : same_key i n (mkDecoded i n v j) = true.
Proof. by apply same_key_true. Qed.

Lemma value_of_sort (le : DecodedEntry → DecodedEntry → bool) idx suffix es :
  (∀ a b, same_key idx suffix a = true → same_key idx suffix b = true → le a b = true) →
  value_of idx suffix (sort_by le es) = value_of idx suffix es.
Proof. intros H. unfold value_of. by rewrite find_sort_by. Qed.

Lemma value_of_in_inode idx suffix es : value_of idx suffix (sort_by in_inode_le es) = value_of idx suffix es.
Proof. apply value_of_sort. intros a b Ha Hb. by destruct (same_key_le idx suffix a b Ha Hb). Qed.
Lemma value_of_external idx suffix es : value_of idx suffix (sort_by external_le es) = value_of idx suffix es.
Proof. apply value_of_sort. intros a b Ha Hb. by destruct (same_key_le idx suffix a b Ha Hb). Qed.

Lemma replace_first_spec idx suffix v es :
  match replace_first idx suffix v es with
  | Some es' => value_of idx suffix es ≠ None ∧ value_of idx suffix es' = Some v ∧
      (∀ k s, (k, s) ≠ (idx, suffix) → value_of k s es' = value_of k s es) ∧ (Forall entry_ok es → Forall entry_ok es')
  | None => value_of idx suffix es = None
  end.
Proof.
  induction es as [|e es IH]; [done|]. cbn [replace_first].
  destruct (same_key idx suffix e) eqn:Ek.
  - unfold value_of. cbn [List.find]. rewrite Ek.
    pose proof (proj1 (same_key_true _ _ _) Ek) as [<- <-].
    rewrite same_key_self. split; [done|]. split; [done|].
    split; [|intros Hok; apply Forall_cons in Hok as [? ?]; by constructor].
    intros k s Hne. assert (Hk : ∀ e', name_index e' = name_index e → name_bytes e' = name_bytes e → same_key k s e' = false).
    { intros e' E1 E2. apply not_true_iff_false. rewrite same_key_true, E1, E2. intros [<- <-]. done. }
    by rewrite !Hk.
  - destruct (replace_first idx suffix v es) as [es'|]; cbn.
    + destruct IH as (H1 & H2 & H3 & H4). unfold value_of in *. cbn [List.find]. rewrite Ek. split; [done|]. split; [done|]. split.
      * intros k s Hne. destruct (same_key k s e); [done|]. by apply H3.
      * intros Hok. apply Forall_cons in Hok as [? ?]. constructor; auto.
    + unfold value_of in *. cbn [List.find]. by rewrite Ek.
Qed.

Lemma value_of_app idx suffix es e :
  value_of idx suffix (es ++ [e]) =
  match value_of idx suffix es with Some v => Some v | None => if same_key idx suffix e then Some (d_value e) else None end.
Proof.
  unfold value_of. induction es as [|x es IH]; cbn [app List.find]; [by destruct (same_key _ _ e)|]. by destruct (same_key _ _ x).
Qed.

(** Setting a name changes what that name says, and nothing else. *)
Lemma set_entry_spec idx suffix v es outcome es' : set_entry idx suffix v es = (outcome, es') →
  0 ≤ idx < 256 → zlen suffix ≤ 255 → (idx ≠ 0 ∨ suffix ≠ []) → Forall entry_ok es →
  Forall entry_ok es' ∧ value_of idx suffix es' = Some v ∧
  (∀ k s, (k, s) ≠ (idx, suffix) → value_of k s es' = value_of k s es) ∧
  outcome = (if value_of idx suffix es is Some _ then Replaced else Inserted).
Proof.
  intros Hset Hi Hn Hne Hok. unfold set_entry in Hset. pose proof (replace_first_spec idx suffix v es) as Hr.
  destruct (replace_first idx suffix v es) as [es1|]; injection Hset as <- <-.
  - destruct Hr as (H1 & H2 & H3 & H4). split; [auto|]. split; [done|]. split; [done|]. by destruct (value_of idx suffix es).
  - rewrite Hr. split; [apply Forall_app; split; [done|constructor; [unfold entry_ok; cbn; auto|constructor]]|].
    rewrite value_of_app, Hr. rewrite same_key_self. split; [done|]. split; [|done].
    intros k s Hks. rewrite value_of_app. destruct (value_of k s es); [done|].
    destruct (same_key k s _) eqn:E; [|done]. apply same_key_true in E as [<- <-]. done.
Qed.

(** Filtering a name out removes what it says, and nothing else. *)
Lemma value_of_removed idx suffix k s es : value_of k s (List.filter (λ e, negb (same_key idx suffix e)) es) =
  if decide ((k, s) = (idx, suffix)) then None else value_of k s es.
Proof.
  unfold value_of. induction es as [|e es IH]; cbn [List.filter List.find]; [by destruct (decide _)|].
  destruct (same_key idx suffix e) eqn:E; cbn [negb List.find]; destruct (same_key k s e) eqn:E2; try exact IH.
  - rewrite IH. apply same_key_true in E as [<- <-]. apply same_key_true in E2 as [<- <-]. by destruct (decide _).
  - rewrite decide_False; [done|]. intros [= -> ->]. congruence.
Qed.

Lemma filter_forall {A} (P : A → Prop) (f : A → bool) l : Forall P l → Forall P (List.filter f l).
Proof. intros H. rewrite Forall_forall in *. intros x Hx. apply H. apply list_elem_of_In in Hx. apply filter_In in Hx as [Hx _]. by apply list_elem_of_In. Qed.

Lemma filter_needed f es : needed_entries (List.filter f es) ≤ needed_entries es ∧ needed_values (List.filter f es) ≤ needed_values es.
Proof.
  induction es as [|e es IH]; [done|]. cbn [List.filter]. rewrite needed_entries_cons, needed_values_cons.
  pose proof (pad4_bounds (16 + zlen (name_bytes e))). pose proof (pad4_bounds (zlen (d_value e))).
  pose proof (zlen_nonneg (name_bytes e)). pose proof (zlen_nonneg (d_value e)).
  destruct (f e); rewrite ?needed_entries_cons, ?needed_values_cons; lia.
Qed.

(** Nothing filtered out: every length is kept only by keeping everything. *)
Lemma filter_same_length idx suffix es :
  zlen (List.filter (λ e, negb (same_key idx suffix e)) es) = zlen es ↔ value_of idx suffix es = None.
Proof.
  assert (Hle : ∀ l : list DecodedEntry, zlen (List.filter (λ e, negb (same_key idx suffix e)) l) ≤ zlen l).
  { intros l. induction l as [|e l IH]; [done|]. cbn [List.filter]. destruct (negb _); rewrite !zlen_cons; lia. }
  unfold value_of. induction es as [|e es IH]; [done|]. cbn [List.filter List.find].
  destruct (same_key idx suffix e); cbn [negb]; rewrite !zlen_cons.
  - pose proof (Hle es). split; [lia|done].
  - rewrite <-IH. lia.
Qed.

(** ** Setting and removing *)

Lemma split_name_index prefixes nm idx suffix :
  split_name prefixes nm = Some (idx, suffix) → ∃ p, In (idx, p) prefixes ∧ nm = p ++ suffix.
Proof.
  assert (Hstrip : ∀ p n s, strip_prefix p n = Some s → n = p ++ s).
  { intros p. induction p as [|x p IH]; intros n s; cbn [strip_prefix]; [by intros [= <-]|].
    destruct n as [|c n]; [done|]. case_decide; [|done]. intros Hs. subst. cbn. f_equal. by apply IH. }
  induction prefixes as [|[i p] prefixes IH]; [done|]. cbn [split_name]. destruct (strip_prefix p nm) as [s|] eqn:E.
  - intros [= <- <-]. exists p. split; [by left|auto].
  - intros H. destruct (IH H) as (q & ? & ?). exists q. split; [by right|done].
Qed.

Lemma split_index nm idx suffix : split_qualified_name nm = Some (idx, suffix) → 1 ≤ idx < 256.
Proof.
  intros H. apply split_name_index in H as (p & Hp & _).
  repeat (destruct Hp as [Hp|Hp]; [injection Hp as <- _; lia|]). done.
Qed.

Lemma check_set_name_ok nm idx suffix : check_set_name nm = Ok (idx, suffix) →
  split_qualified_name nm = Some (idx, suffix) ∧ zlen suffix ≤ 255.
Proof.
  unfold check_set_name. intros H. apply bind_ok_inv in H as ([i s] & Hs & H). apply ok_or_ok in Hs. res_inv.
  split; [done|lia].
Qed.

(** The entries of an in-inode region and of an external block: none where
    the magic is missing. *)
Definition region_entries (region : bytes) : res (list DecodedEntry) :=
  m ← u32_le region 0;
  if decide (m = EXT4_XATTR_MAGIC) then decode_in_inode_entries (drop 4 region) else Ok [].
Definition block_entries (block : bytes) : res (list DecodedEntry) :=
  m ← u32_le block 0;
  if decide (m = EXT4_XATTR_MAGIC) then decode_external_block_entries block else Ok [].

Lemma region_entries_raw region es : bytes_ok region → region_entries region = Ok es → Forall raw_ok es.
Proof.
  unfold region_entries. intros Hb H. res_inv; [|constructor].
  eapply decode_in_inode_raw; [|exact H]. by apply Forall_drop.
Qed.
Lemma block_entries_raw block es : bytes_ok block → block_entries block = Ok es → Forall raw_ok es.
Proof. unfold block_entries. intros Hb H. res_inv; [|constructor]. by eapply decode_external_raw. Qed.

(** Every entry has a name: an all-zero first word ends the list. *)
Definition named (e : DecodedEntry) : Prop := name_index e ≠ 0 ∨ name_bytes e ≠ [].

Lemma encoded_region_entries region es region' : encode_in_inode_entries region es = Ok region' →
  Forall entry_ok es → zlen region - 4 ≤ 2 ^ 16 → needed_entries es + 4 + needed_values es ≤ zlen region - 4 →
  zlen region' = zlen region ∧ region_entries region' = Ok (sort_by in_inode_le es).
Proof.
  intros He Hok Hs Hfit. destruct (encode_in_inode_ok region es Hok Hs Hfit) as (r & E & Hz & Hm & Hd).
  rewrite E in He. injection He as <-. split; [done|]. unfold region_entries. by rewrite Hm.
Qed.

Lemma encoded_block_entries block es refcount block' : encode_external_block block es refcount = Ok block' →
  Forall entry_ok es → 0x40 ≤ zlen block ≤ 2 ^ 16 → needed_entries es + 4 + needed_values es ≤ zlen block - 0x20 →
  zlen block' = zlen block ∧ block_entries block' = Ok (sort_by external_le es) ∧
  sub block' 0 32 = block_header refcount (block_hash (hash_of <$> sort_by external_le es)).
Proof.
  intros He Hok Hs Hfit. destruct (encode_external_ok block es refcount Hok Hs Hfit) as (b & body & E & Hz & Hb & Hd).
  rewrite E in He. injection He as <-. split; [done|].
  split; [|rewrite Hb, sub_app_l by (unfold block_header; zl); apply sub_all; unfold block_header; zl]. unfold block_entries. rewrite Hb at 1.
  pose proof (zlen_nonneg body). rewrite u32_le_ok by (rewrite ?zlen_app; unfold block_header; zl). cbn [mbind res_bind].
  change (le32 _ 0) with EXT4_XATTR_MAGIC. by rewrite decide_True.
Qed.

(** What a set must have done, to the entries. *)
Definition set_done (idx : Z) (suffix v : bytes) (es es' : list DecodedEntry) (outcome : SetOutcome) : Prop :=
  value_of idx suffix es' = Some v ∧
  (∀ k s, (k, s) ≠ (idx, suffix) → value_of k s es' = value_of k s es) ∧
  outcome = (if value_of idx suffix es is Some _ then Replaced else Inserted).

(** The entries a successful set leaves in the region. *)
Lemma plan_set_region_entries region nm v outcome region' es :
  bytes_ok region → zlen region ≤ 2 ^ 16 → region_entries region = Ok es → Forall named es →
  plan_set_in_inode_region region nm v = Ok (outcome, region') →
  ∃ idx suffix es', split_qualified_name nm = Some (idx, suffix) ∧ zlen suffix ≤ 255 ∧ Forall entry_ok es ∧
    set_entry idx suffix v es = (outcome, es') ∧ zlen region' = zlen region ∧
    region_entries region' = Ok (sort_by in_inode_le es').
Proof.
  intros Hb Hs Hes Hnamed H. unfold plan_set_in_inode_region in H.
  apply bind_ok_inv in H as ([idx suffix] & Hname & H). apply check_set_name_ok in Hname as [Hsplit Hn].
  pose proof (split_index _ _ _ Hsplit) as Hi. case_decide; [done|].
  pose proof (region_entries_raw _ _ Hb Hes) as Hraw. apply bind_ok_inv in Hes as (m & Hm & Hes).
  rewrite Hm in H. cbn [mbind res_bind] in H. rewrite Hes in H. cbn [mbind res_bind] in H.
  apply bind_ok_inv in H as (u & Hu & H). apply refuse_ok in Hu. pose proof (entries_ok es Hraw Hnamed Hu) as Hok.
  destruct (set_entry idx suffix v es) as [o es1] eqn:Eset. case_decide; [done|].
  apply bind_ok_inv in H as (r & Hr & H). injection H as <- <-.
  destruct (set_entry_spec _ _ _ _ _ _ Eset ltac:(lia) Hn ltac:(lia) Hok) as (Hok1 & _).
  destruct (encoded_region_entries _ _ _ Hr Hok1 ltac:(lia) ltac:(lia)) as [Hz He].
  by exists idx, suffix, es1.
Qed.

(** C28: setting an attribute in the inode: when it succeeds, the region keeps
    its length and reads back as entries that give the name its new value and
    every other name the value it had; the outcome says whether the name was
    there before. *)
Theorem plan_set_in_inode_region_spec region nm v outcome region' es :
  bytes_ok region → zlen region ≤ 2 ^ 16 → region_entries region = Ok es → Forall named es →
  plan_set_in_inode_region region nm v = Ok (outcome, region') →
  ∃ idx suffix es', split_qualified_name nm = Some (idx, suffix) ∧ zlen region' = zlen region ∧
    region_entries region' = Ok es' ∧ set_done idx suffix v es es' outcome.
Proof.
  intros Hb Hs Hes Hnamed H.
  destruct (plan_set_region_entries _ _ _ _ _ _ Hb Hs Hes Hnamed H) as (idx & suffix & es1 & Hsplit & Hn & Hok & Eset & Hz & He).
  pose proof (split_index _ _ _ Hsplit) as Hi.
  destruct (set_entry_spec _ _ _ _ _ _ Eset ltac:(lia) Hn ltac:(lia) Hok) as (Hok1 & Hv & Hother & Ho).
  exists idx, suffix, (sort_by in_inode_le es1). do 3 (split; [done|]).
  unfold set_done. rewrite value_of_in_inode. split; [done|]. split; [|done]. intros k s. rewrite value_of_in_inode. apply Hother.
Qed.

(** C29: setting an attribute in the external block: when it succeeds, the
    block keeps its length and reads back as entries that give the name its new
    value and every other name the value it had, and the outcome says whether
    the name was there before; and the header of the block is rewritten whole:
    the magic, the reference count it is given, one block, and the hash of the
    new entries. *)
Theorem plan_set_in_external_block_spec block nm v refcount outcome block' es :
  bytes_ok block → zlen block ≤ 2 ^ 16 → block_entries block = Ok es → Forall named es →
  plan_set_in_external_block block nm v refcount = Ok (outcome, block') →
  ∃ idx suffix es', split_qualified_name nm = Some (idx, suffix) ∧ zlen block' = zlen block ∧
    block_entries block' = Ok es' ∧ sub block' 0 32 = block_header refcount (block_hash (hash_of <$> es')) ∧
    set_done idx suffix v es es' outcome.
Proof.
  intros Hb Hs Hes Hnamed H. unfold plan_set_in_external_block in H.
  apply bind_ok_inv in H as ([idx suffix] & Hname & H). apply check_set_name_ok in Hname as [Hsplit Hn].
  pose proof (split_index _ _ _ Hsplit) as Hi. case_decide; [done|].
  pose proof (block_entries_raw _ _ Hb Hes) as Hraw. apply bind_ok_inv in Hes as (m & Hm & Hes).
  rewrite Hm in H. cbn [mbind res_bind] in H. rewrite Hes in H. cbn [mbind res_bind] in H.
  apply bind_ok_inv in H as (u & Hu & H). apply refuse_ok in Hu. pose proof (entries_ok es Hraw Hnamed Hu) as Hok.
  destruct (set_entry idx suffix v es) as [o es1] eqn:Eset. case_decide; [done|].
  apply bind_ok_inv in H as (r & Hr & H). injection H as <- <-.
  destruct (set_entry_spec _ _ _ _ _ _ Eset ltac:(lia) Hn ltac:(lia) Hok) as (Hok1 & Hv & Hother & Ho).
  destruct (encoded_block_entries _ _ _ _ Hr Hok1 ltac:(lia) ltac:(lia)) as (Hz & He & Hh).
  exists idx, suffix, (sort_by external_le es1). do 4 (split; [done|]).
  unfold set_done. rewrite value_of_external. split; [done|]. split; [|done]. intros k s. rewrite value_of_external. apply Hother.
Qed.

(** What a removal must have done. *)
Definition remove_done (idx : Z) (suffix : bytes) (es es' : list DecodedEntry) : Prop :=
  ∀ k s, value_of k s es' = if decide ((k, s) = (idx, suffix)) then None else value_of k s es.

Lemma remove_nothing idx suffix es : value_of idx suffix es = None → remove_done idx suffix es es.
Proof. intros H k s. destruct (decide _) as [E|]; [|done]. by injection E as -> ->. Qed.

(** Removing an attribute from the inode always succeeds on a region whose
    entries fit it one beside the other, and drops that name and no other; it
    answers "not found" exactly when the name is absent, and then changes
    nothing. *)
Lemma plan_remove_in_inode_region_spec region nm idx suffix es :
  bytes_ok region → 4 ≤ zlen region ≤ 2 ^ 16 → region_entries region = Ok es → Forall named es →
  Forall (λ e, d_inum e = 0) es → needed_entries es + 4 + needed_values es ≤ zlen region - 4 →
  split_qualified_name nm = Some (idx, suffix) →
  ∃ outcome region' es', plan_remove_in_inode_region region nm = Ok (outcome, region') ∧
    zlen region' = zlen region ∧ region_entries region' = Ok es' ∧ remove_done idx suffix es es' ∧
    (outcome = RemoveNotFound ↔ value_of idx suffix es = None) ∧ (outcome = RemoveNotFound → region' = region).
Proof.
  intros Hb Hs Hes Hnamed Hinum Hfit Hsplit. unfold plan_remove_in_inode_region. rewrite Hsplit. cbn [ok_or mbind res_bind].
  rewrite decide_False by lia. pose proof (region_entries_raw _ _ Hb Hes) as Hraw. pose proof (entries_ok es Hraw Hnamed Hinum) as Hok.
  pose proof Hes as Hes0. apply bind_ok_inv in Hes as (m & Hm & Hes). rewrite Hm. cbn [mbind res_bind].
  destruct (decide (m = EXT4_XATTR_MAGIC)) as [->|Hmagic].
  2:{ rewrite decide_True by done. injection Hes as <-. exists RemoveNotFound, region, []. do 3 (split; [done|]).
      split; [by apply remove_nothing|]. done. }
  rewrite decide_False by auto. rewrite Hes. cbn [mbind res_bind].
  rewrite (refuse_none es Hinum). cbn [mbind res_bind]. set (kept := List.filter _ es).
  pose proof (filter_same_length idx suffix es) as Hlen. fold kept in Hlen.
  destruct (decide (zlen kept = zlen es)) as [El|El].
  { apply Hlen in El. exists RemoveNotFound, region, es. do 3 (split; [done|]). split; [by apply remove_nothing|]. done. }
  destruct (filter_needed (λ e, negb (same_key idx suffix e)) es) as [Hf1 Hf2]. fold kept in Hf1, Hf2.
  assert (Hokk : Forall entry_ok kept) by (by apply filter_forall).
  destruct (encode_in_inode_ok region kept Hokk ltac:(lia) ltac:(lia)) as (r & E & _). rewrite E. cbn [mbind res_bind].
  destruct (encoded_region_entries _ _ _ E Hokk ltac:(lia) ltac:(lia)) as [Hz He].
  exists Removed, r, (sort_by in_inode_le kept). do 3 (split; [done|]).
  split; [|split; [split; [done|intros Hv; by apply Hlen in Hv]|done]].
  intros k s. rewrite value_of_in_inode. apply value_of_removed.
Qed.

(** Removing an attribute from the external block, likewise; when nothing
    is left it says so and leaves the block for its caller to free. *)
Lemma plan_remove_from_external_block_spec block nm refcount idx suffix es :
  bytes_ok block → 0x40 ≤ zlen block ≤ 2 ^ 16 → block_entries block = Ok es → Forall named es →
  Forall (λ e, d_inum e = 0) es → needed_entries es + 4 + needed_values es ≤ zlen block - 0x20 →
  split_qualified_name nm = Some (idx, suffix) →
  ∃ outcome block', plan_remove_from_external_block block nm refcount = Ok (outcome, block') ∧
    zlen block' = zlen block ∧
    match outcome with
    | BlockNotFound => value_of idx suffix es = None ∧ block' = block
    | RemovedNowEmpty => value_of idx suffix es ≠ None ∧ block' = block ∧ ∀ k s, (k, s) ≠ (idx, suffix) → value_of k s es = None
    | BlockRemoved => value_of idx suffix es ≠ None ∧ ∃ es', block_entries block' = Ok es' ∧ remove_done idx suffix es es'
    end.
Proof.
  intros Hb Hs Hes Hnamed Hinum Hfit Hsplit. unfold plan_remove_from_external_block. rewrite Hsplit. cbn [ok_or mbind res_bind].
  rewrite decide_False by lia. pose proof (block_entries_raw _ _ Hb Hes) as Hraw. pose proof (entries_ok es Hraw Hnamed Hinum) as Hok.
  apply bind_ok_inv in Hes as (m & Hm & Hes). rewrite Hm. cbn [mbind res_bind].
  destruct (decide (m = EXT4_XATTR_MAGIC)) as [->|Hmagic].
  2:{ rewrite decide_True by done. injection Hes as <-. by exists BlockNotFound, block. }
  rewrite decide_False by auto. rewrite Hes. cbn [mbind res_bind].
  rewrite (refuse_none es Hinum). cbn [mbind res_bind]. set (kept := List.filter _ es).
  pose proof (filter_same_length idx suffix es) as Hlen. fold kept in Hlen.
  assert (Hrem : ∀ k s, value_of k s kept = _) by (intros k s; apply (value_of_removed idx suffix k s es)).
  destruct (decide (zlen kept = zlen es)) as [El|El].
  { apply Hlen in El. by exists BlockNotFound, block. }
  assert (Hne : value_of idx suffix es ≠ None) by (intros Hv; by apply Hlen in Hv).
  destruct (decide (kept = [])) as [Ek|Ek].
  { exists RemovedNowEmpty, block. do 4 (split; [done|]). intros k s Hks. specialize (Hrem k s). rewrite Ek, decide_False in Hrem by done. done. }
  destruct (filter_needed (λ e, negb (same_key idx suffix e)) es) as [Hf1 Hf2]. fold kept in Hf1, Hf2.
  assert (Hokk : Forall entry_ok kept) by (by apply filter_forall).
  destruct (encode_external_ok block kept refcount Hokk ltac:(lia) ltac:(lia)) as (r & _ & E & _). rewrite E. cbn [mbind res_bind].
  destruct (encoded_block_entries _ _ _ _ E Hokk ltac:(lia) ltac:(lia)) as (Hz & He & _).
  exists BlockRemoved, r. split; [done|]. split; [done|]. split; [done|]. exists (sort_by external_le kept). split; [done|].
  intros k s. rewrite value_of_external. apply Hrem.
Qed.

(** The table is searched in order, and "system." (7) stands before
    "system.richacl" (8), whose attributes therefore cannot be named to the
    writers: they look for index 7 and suffix "richacl". *)
Lemma richacl_is_never_matched suffix : split_qualified_name (lit "system.richacl" ++ suffix) = Some (7, lit "richacl" ++ suffix).
Proof. by vm_compute. Qed.

(** ** Concrete inputs *)

Definition sample_entries : list DecodedEntry :=
  [mkDecoded 1 (lit "b") [1; 2; 3] 0; mkDecoded 6 (lit "selinux") [9; 9; 9; 9; 9] 0; mkDecoded 2 [] [4] 0].
Definition sample_region : bytes := match encode_in_inode_entries (zrep 160 0) sample_entries with Ok r => r | _ => [] end.
Definition sample_xblock : bytes := match encode_external_block (zrep 256 0) sample_entries 1 with Ok r => r | _ => [] end.

#[export] Instance decoded_eq_dec : EqDecision DecodedEntry.
Proof. solve_decision. Defined.
#[export] Instance named_dec e : Decision (named e).
Proof. unfold named. apply _. Defined.

Lemma plan_set_in_inode_region_spec_witness :
  ∃ r, plan_set_in_inode_region sample_region (lit "user.b") [7; 7; 7; 7] = Ok (Replaced, r) ∧
  ∃ idx suffix es', split_qualified_name (lit "user.b") = Some (idx, suffix) ∧ zlen r = 160 ∧
    region_entries r = Ok es' ∧ set_done idx suffix [7; 7; 7; 7] (sort_by in_inode_le sample_entries) es' Replaced.
Proof.
  eexists. split; [vm_compute; reflexivity|].
  apply (plan_set_in_inode_region_spec sample_region (lit "user.b") [7; 7; 7; 7] Replaced); [by_compute..|].
  vm_compute. reflexivity.
Defined.

Lemma plan_set_in_external_block_spec_witness :
  ∃ r, plan_set_in_external_block sample_xblock (lit "user.new") [7] 3 = Ok (Inserted, r) ∧
  ∃ idx suffix es', split_qualified_name (lit "user.new") = Some (idx, suffix) ∧ zlen r = 256 ∧
    block_entries r = Ok es' ∧ sub r 0 32 = block_header 3 (block_hash (hash_of <$> es')) ∧
    set_done idx suffix [7] (sort_by external_le sample_entries) es' Inserted.
Proof.
  eexists. split; [vm_compute; reflexivity|].
  apply (plan_set_in_external_block_spec sample_xblock (lit "user.new") [7] 3 Inserted); [by_compute..|].
  vm_compute. reflexivity.
Defined.

Lemma plan_remove_in_inode_region_spec_witness :
  ∃ outcome r es', plan_remove_in_inode_region sample_region (lit "system.posix_acl_access") = Ok (outcome, r) ∧
    zlen r = 160 ∧ region_entries r = Ok es' ∧ remove_done 2 [] (sort_by in_inode_le sample_entries) es' ∧
    (outcome = RemoveNotFound ↔ Some [4] = None) ∧ (outcome = RemoveNotFound → r = sample_region).
Proof.
  apply (plan_remove_in_inode_region_spec sample_region (lit "system.posix_acl_access") 2 [] (sort_by in_inode_le sample_entries)); by_compute.
Defined.

Lemma plan_remove_from_external_block_spec_witness :
  ∃ outcome block', plan_remove_from_external_block sample_xblock (lit "security.selinux") 1 = Ok (outcome, block') ∧
    zlen block' = 256 ∧
    match outcome with
    | BlockNotFound => Some (zrep 5 9) = None ∧ block' = sample_xblock
    | RemovedNowEmpty => Some (zrep 5 9) ≠ None ∧ block' = sample_xblock ∧ ∀ k s, (k, s) ≠ (6, lit "selinux") → value_of k s (sort_by external_le sample_entries) = None
    | BlockRemoved => Some (zrep 5 9) ≠ None ∧ ∃ es', block_entries block' = Ok es' ∧ remove_done 6 (lit "selinux") (sort_by external_le sample_entries) es'
    end.
Proof.
  apply (plan_remove_from_external_block_spec sample_xblock (lit "security.selinux") 1 6 (lit "selinux") (sort_by external_le sample_entries)); by_compute.
Defined.
