(* ===== verification/Acl.v ===== *)
(** Acl: POSIX access control lists (src/src/acl.rs): decoding the compact
    value ext4 keeps in an extended attribute.  The specification is the
    layout itself, written as an encoder: a value decodes to a list exactly
    when it is that list's encoding. *)
From S2P Require Import Prelude Errors Bytes Device Inode Xattr.

Definition EXT4_ACL_VERSION : Z := 0x0001.

Inductive AclKind := Access | Default.

Definition xattr_name (kind : AclKind) : bytes :=
  match kind with Access => lit "system.posix_acl_access" | Default => lit "system.posix_acl_default" end.

Inductive AclTag := UserObj | User | GroupObj | Group | Mask | Other.

Definition tag_value (tag : AclTag) : Z :=
  match tag with UserObj => 0x01 | User => 0x02 | GroupObj => 0x04 | Group => 0x08 | Mask => 0x10 | Other => 0x20 end.

Definition from_u16 (v : Z) : option AclTag :=
  if decide (v = 0x01) then Some UserObj else
  if decide (v = 0x02) then Some User else
  if decide (v = 0x04) then Some GroupObj else
  if decide (v = 0x08) then Some Group else
  if decide (v = 0x10) then Some Mask else
  if decide (v = 0x20) then Some Other else None.

Definition has_id (tag : AclTag) : bool := match tag with User | Group => true | _ => false end.

Record AclEntry := mkAclEntry { tag : AclTag; perm : Z; id : option Z }.

Fixpoint acl_loop (fuel : nat) (buf : bytes) (pos : Z) (entries : list AclEntry) : res (list AclEntry) :=
  if decide (pos < zlen buf) then
    match fuel with
    | O => OutOfFuel
    | S fuel =>
        if decide (zlen buf < pos + 4) then Err (Corrupt "acl entry truncated") else
        e_tag ← u16_le buf pos;
        e_perm ← u16_le buf (pos + 2);
        tag ← ok_or (from_u16 e_tag) (Corrupt "acl entry has unknown tag");
        if has_id tag then
          if decide (zlen buf < pos + 8) then Err (Corrupt "acl full entry truncated") else
          e_id ← u32_le buf (pos + 4);
          acl_loop fuel buf (pos + 8) (entries ++ [mkAclEntry tag e_perm (Some e_id)])
        else acl_loop fuel buf (pos + 4) (entries ++ [mkAclEntry tag e_perm None])
    end
  else Ok entries.

(** Each turn consumes at least four bytes. *)
Definition decode (buf : bytes) : res (list AclEntry) :=
  if decide (zlen buf < 4) then Err (Corrupt "acl too short for version header") else
  version ← u32_le buf 0;
  if decide (version ≠ EXT4_ACL_VERSION) then Err (Corrupt "acl version mismatch") else
  acl_loop (length buf) buf 4 [].

Definition read (dev : reader) (inode : Inode.t) (inode_raw : bytes) (inode_size block_size : Z) (kind : AclKind)
    : res (option (list AclEntry)) :=
  value ← Xattr.get dev inode inode_raw inode_size block_size (xattr_name kind);
  match value with
  | Some bytes => entries ← decode bytes; Ok (Some entries)
  | None => Ok None
  end.

(** ** The layout *)

Definition encode_entry (e : AclEntry) : bytes :=
  le_split 2 (tag_value (tag e)) ++ le_split 2 (perm e) ++ match id e with Some i => le_split 4 i | None => [] end.
Definition encode (es : list AclEntry) : bytes := le_split 4 EXT4_ACL_VERSION ++ concat (encode_entry <$> es).

(** What an entry can hold: sixteen bits of permissions, and an id exactly
    where the tag has one. *)
Definition acl_ok (e : AclEntry) : Prop :=
  0 ≤ perm e < 2 ^ 16 ∧
  match id e with Some i => has_id (tag e) = true ∧ 0 ≤ i < 2 ^ 32 | None => has_id (tag e) = false end.

Lemma from_u16_value t : from_u16 (tag_value t) = Some t.
Proof. by destruct t. Qed.
Lemma from_u16_inv v t : from_u16 v = Some t → v = tag_value t.
Proof. unfold from_u16. intros H. repeat (case_decide; [injection H as <-; done|]). done. Qed.
Lemma tag_value_range t : 0 ≤ tag_value t < 2 ^ 16.
Proof. destruct t; cbn; lia. Qed.

(** An entry's bytes inside a value, read back. *)
Lemma u16_le_at pre v post : 0 ≤ v < 2 ^ 16 → u16_le (pre ++ le_split 2 v ++ post) (zlen pre) = Ok v.
Proof.
  intros Hv. pose proof (u16_le_mid pre (le_split 2 v) post 0 ltac:(lia) ltac:(by vm_compute)) as E.
  rewrite Z.add_0_r in E. rewrite E. f_equal. change (le16 (le_split 2 v) 0) with (le_combine (le_split 2 v)). apply le_combine_split. lia.
Qed.
Lemma u32_le_at pre v post : 0 ≤ v < 2 ^ 32 → u32_le (pre ++ le_split 4 v ++ post) (zlen pre) = Ok v.
Proof.
  intros Hv. pose proof (u32_le_mid pre (le_split 4 v) post 0 ltac:(lia) ltac:(by vm_compute)) as E.
  rewrite Z.add_0_r in E. rewrite E. f_equal. change (le32 (le_split 4 v) 0) with (le_combine (le_split 4 v)). apply le_combine_split. lia.
Qed.

Lemma acl_loop_encoded es : ∀ fuel pre out, Forall acl_ok es → (length es < fuel)%nat →
  acl_loop fuel (pre ++ concat (encode_entry <$> es)) (zlen pre) out = Ok (out ++ es).
Proof.
  induction es as [|e es IH]; intros fuel pre out Hok Hf; (destruct fuel as [|fuel]; [lia|]); cbn [acl_loop].
  { cbn. rewrite !app_nil_r. by rewrite decide_False by lia. }
  apply Forall_cons in Hok as [[Hp Hid] Hok]. cbn [fmap list_fmap concat]. set (rest := concat (encode_entry <$> es)) in *.
  pose proof (tag_value_range (tag e)) as Ht. pose proof (zlen_nonneg rest). simpl in Hf.
  assert (Hz : zlen (encode_entry e) = if has_id (tag e) then 8 else 4).
  { unfold encode_entry. rewrite !zlen_app, !zlen_le_split. destruct (id e); [destruct Hid as [-> _]|rewrite Hid]; by rewrite ?zlen_le_split. }
  assert (Hzz : zlen (pre ++ encode_entry e ++ rest) = zlen pre + zlen (encode_entry e) + zlen rest) by zl.
  assert (Hb : 4 ≤ zlen (encode_entry e)) by (rewrite Hz; destruct (has_id _); lia).
  rewrite decide_True by lia. rewrite decide_False by lia.
  assert (E1 : u16_le (pre ++ encode_entry e ++ rest) (zlen pre) = Ok (tag_value (tag e))).
  { unfold encode_entry. rewrite <-!app_assoc. by apply u16_le_at. }
  assert (E2 : u16_le (pre ++ encode_entry e ++ rest) (zlen pre + 2) = Ok (perm e)).
  { unfold encode_entry. rewrite <-!app_assoc. rewrite app_assoc. replace (zlen pre + 2) with (zlen (pre ++ le_split 2 (tag_value (tag e)))) by zl.
    by apply u16_le_at. }
  rewrite E1, E2. cbn [mbind res_bind]. rewrite from_u16_value. cbn [ok_or mbind res_bind].
  assert (Hnext : ∀ n out', n = zlen (encode_entry e) → acl_loop fuel (pre ++ encode_entry e ++ rest) (zlen pre + n) out' = Ok (out' ++ es)).
  { intros n out' ->. rewrite app_assoc. rewrite <-zlen_app. apply IH; [done|lia]. }
  destruct e as [t p [i|]]; cbn [tag perm id] in *.
  - destruct Hid as [Hid Hi]. rewrite Hid in *. rewrite decide_False by lia.
    assert (E3 : u32_le (pre ++ encode_entry (mkAclEntry t p (Some i)) ++ rest) (zlen pre + 4) = Ok i).
    { unfold encode_entry. cbn [tag perm id]. rewrite <-!app_assoc. rewrite (app_assoc pre), (app_assoc (pre ++ _)).
      replace (zlen pre + 4) with (zlen ((pre ++ le_split 2 (tag_value t)) ++ le_split 2 p)) by zl. by apply u32_le_at. }
    rewrite E3. cbn [mbind res_bind]. rewrite Hnext by lia. by rewrite <-app_assoc.
  - rewrite Hid in *. rewrite Hnext by lia. by rewrite <-app_assoc.
Qed.

Lemma acl_loop_inv buf : bytes_ok buf → ∀ fuel pos out es, 0 ≤ pos ≤ zlen buf → acl_loop fuel buf pos out = Ok es →
  ∃ es1, es = out ++ es1 ∧ Forall acl_ok es1 ∧ sub buf pos (zlen buf - pos) = concat (encode_entry <$> es1).
Proof.
  intros Hb. induction fuel as [|fuel IH]; intros pos out es Hpos H; cbn [acl_loop] in H; case_decide as Hp; try done.
  1,3: injection H as <-; exists []; rewrite app_nil_r; split; [done|]; split; [done|]; by rewrite sub_0 by lia.
  case_decide as H4; [done|]. rewrite !u16_le_ok in H by lia. cbn [mbind res_bind] in H.
  apply bind_ok_inv in H as (t & Ht & H). apply ok_or_ok, from_u16_inv in Ht.
  pose proof (le16_range buf (pos + 2) Hb) as Hperm.
  assert (E2 : ∀ o, 0 ≤ o → o + 2 ≤ zlen buf → sub buf o 2 = le_split 2 (le16 buf o)).
  { intros o ? ?. symmetry. apply (le_split_combine_len 2); [by apply bytes_ok_sub|zl]. }
  assert (E4 : sub buf pos 4 = le_split 2 (tag_value t) ++ le_split 2 (le16 buf (pos + 2))).
  { rewrite <-Ht, <-!E2 by lia. change 4 with (2 + 2). apply sub_split; lia. }
  destruct (has_id t) eqn:Hid.
  - case_decide as H8; [done|]. rewrite u32_le_ok in H by lia. cbn [mbind res_bind] in H.
    apply IH in H as (es1 & -> & Hok & E); [|lia]. pose proof (le32_range buf (pos + 4) Hb).
    exists (mkAclEntry t (le16 buf (pos + 2)) (Some (le32 buf (pos + 4))) :: es1). rewrite <-app_assoc. split; [done|].
    split; [by constructor|]. cbn [fmap list_fmap concat]. unfold encode_entry at 1. cbn [tag perm id]. fold (encode_entry <$> es1).
    rewrite <-E. rewrite <-!app_assoc, (app_assoc (le_split 2 _)), <-E4.
    replace (zlen buf - pos) with (4 + (4 + (zlen buf - (pos + 8)))) by lia.
    rewrite (sub_split buf pos 4), (sub_split buf (pos + 4) 4) by lia. f_equal. replace (pos + 4 + 4) with (pos + 8) by lia. f_equal.
    symmetry. apply (le_split_combine_len 4); [by apply bytes_ok_sub|zl].
  - apply IH in H as (es1 & -> & Hok & E); [|lia].
    exists (mkAclEntry t (le16 buf (pos + 2)) None :: es1). rewrite <-app_assoc. split; [done|].
    split; [by constructor|]. cbn [fmap list_fmap concat]. unfold encode_entry at 1. cbn [tag perm id]. fold (encode_entry <$> es1).
    rewrite <-E. rewrite app_nil_r, <-E4. replace (zlen buf - pos) with (4 + (zlen buf - (pos + 4))) by lia. apply sub_split; lia.
Qed.

Lemma encoded_length es : Z.of_nat (length es) ≤ zlen (concat (encode_entry <$> es)).
Proof.
  induction es as [|e es IH]; [done|]. cbn [fmap list_fmap concat]. fold (encode_entry <$> es). rewrite zlen_app.
  unfold encode_entry at 1. rewrite !zlen_app, !zlen_le_split. pose proof (zlen_nonneg (match id e with Some i => le_split 4 i | None => [] end)).
  simpl length. lia.
Qed.

(** A value decodes to a list of entries exactly when it is the layout of
    that list: the decoder loses nothing, invents nothing, and accepts no
    other bytes. *)
Lemma decode_exact buf es : bytes_ok buf → (decode buf = Ok es ↔ buf = encode es ∧ Forall acl_ok es).
Proof.
  intros Hb. unfold decode. split.
  - case_decide as H4; [done|]. rewrite u32_le_ok by lia. cbn [mbind res_bind]. case_decide as Hv; [done|]. intros H.
    apply acl_loop_inv in H as (es1 & -> & Hok & E); [|done|lia]. split; [|done].
    cbn [app]. unfold encode. rewrite <-E, <-Hv. unfold le32. rewrite le_split_combine_len; [|by apply bytes_ok_sub|rewrite zlen_sub; lia].
    rewrite <-(sub_all buf (zlen buf)) at 1 by lia. replace (zlen buf) with (4 + (zlen buf - 4)) at 1 by lia. by rewrite sub_split by lia.
  - intros [-> Hok]. unfold encode. pose proof (zlen_nonneg (concat (encode_entry <$> es))) as Hn. pose proof (encoded_length es) as Hl.
    rewrite decide_False by zl. change (u32_le _ 0) with (u32_le ([] ++ le_split 4 EXT4_ACL_VERSION ++ concat (encode_entry <$> es)) (zlen (@nil Z))).
    rewrite u32_le_at by (vm_compute; by split). cbn [mbind res_bind]. rewrite decide_False by (intros H; by apply H).
    change (acl_loop ?f ?b 4 []) with (acl_loop f b (zlen (le_split 4 EXT4_ACL_VERSION)) []).
    rewrite acl_loop_encoded; [done..|]. rewrite length_app. change (length (le_split 4 EXT4_ACL_VERSION)) with 4%nat. unfold zlen in *. lia.
Qed.

(** A value with every kind of entry, and a truncated one. *)
Definition sample_acl : list AclEntry :=
  [mkAclEntry UserObj 7 None; mkAclEntry User 6 (Some 1000); mkAclEntry GroupObj 5 None; mkAclEntry Mask 7 None; mkAclEntry Other 0 None].

#[export] Instance acl_ok_dec e : Decision (acl_ok e).
Proof. unfold acl_ok. destruct (id e); apply _. Defined.

Lemma decode_exact_witness :
  (decode (encode sample_acl) = Ok sample_acl ↔ encode sample_acl = encode sample_acl ∧ Forall acl_ok sample_acl) ∧
  decode (take 12 (encode sample_acl)) = Err (Corrupt "acl full entry truncated").
Proof. split; [apply (decode_exact (encode sample_acl) sample_acl); by_compute|vm_compute; reflexivity]. Defined.
