(* ===== verification/InlineData.v ===== *)
(** InlineData: files and directories kept in the inode (src/src/inline_data.rs):
    the first 60 bytes in [i_block], the rest in the attribute "system.data". *)
From S2P Require Import Prelude Errors Bytes Device Inode Dir Xattr.

Definition INLINE_DOTDOT_SIZE : Z := 4.
Definition INLINE_BLOCK_SIZE : Z := 60.

Section read.
Context (dev : reader) (inode : Inode.t) (inode_raw : bytes) (inode_size block_size : Z).

Definition system_data : res (option bytes) := Xattr.get dev inode inode_raw inode_size block_size (lit "system.data").

Definition read_all : res bytes :=
  let total := Inode.size inode in
  let inline_max := 60 in
  out ← slice (Inode.block inode) 0 (Z.min total inline_max);
  if decide (total ≤ inline_max) then Ok out else
  let need := total - inline_max in
  extra ← (o ← system_data; ok_or o (Corrupt "inline file larger than 60 bytes has no system.data xattr"));
  if decide (zlen extra < need) then Err (Corrupt "inline file's system.data xattr is shorter than its size claims") else
  Ok (out ++ sub extra 0 need).

(** The part of [dst] that was filled, and the whole of it. *)
Definition read_range (offset : Z) (dst : bytes) : res (Z * bytes) :=
  let total := Inode.size inode in
  if decide (total ≤ offset) then Ok (0, dst) else
  full ← read_all;
  let want := Z.min (total - offset) (zlen dst) in
  let avail := Z.max 0 (zlen full - offset) in
  let n := Z.min want avail in
  src ← slice full offset n;
  dst ← put dst 0 src;
  Ok (n, dst).

Definition dir_continuation : res bytes :=
  let total := Inode.size inode in
  if decide (total ≤ INLINE_BLOCK_SIZE) then Ok [] else
  let need := total - INLINE_BLOCK_SIZE in
  extra ← (o ← system_data; ok_or o (Corrupt "inline directory larger than 60 bytes has no system.data xattr"));
  if decide (zlen extra < need) then Err (Corrupt "inline directory's system.data xattr is shorter than its size claims") else
  Ok (sub extra 0 need).
End read.

Definition dir_entries (dir_ino : Z) (inode : Inode.t) (continuation : bytes) (has_filetype : bool) : res (list DirEntry.t) :=
  parent ← u32_le (Inode.block inode) 0;
  if decide (parent = 0) then Err (CorruptDirEntry "inline directory: parent inode number is 0") else
  head ← slice (Inode.block inode) INLINE_DOTDOT_SIZE (zlen (Inode.block inode) - INLINE_DOTDOT_SIZE);
  es1 ← parse_block head has_filetype;
  es2 ← parse_block continuation has_filetype;
  Ok ([DirEntry.mk dir_ino (lit ".") Directory; DirEntry.mk parent (lit "..") Directory] ++ es1 ++ es2).

Definition read_dir (dev : reader) (dir_ino : Z) (inode : Inode.t) (inode_raw : bytes) (inode_size block_size : Z)
    (has_filetype : bool) : res (list DirEntry.t) :=
  continuation ← dir_continuation dev inode inode_raw inode_size block_size;
  dir_entries dir_ino inode continuation has_filetype.

(** ** Lemmas *)

Section proofs.
Context (dev : reader) (inode : Inode.t) (inode_raw : bytes) (inode_size block_size : Z).
Hypothesis Hblock : zlen (Inode.block inode) = 60.
Hypothesis Hsize : 0 ≤ Inode.size inode.

(** A whole read has the file's length, and starts with [i_block]. *)
Lemma read_all_ok full : read_all dev inode inode_raw inode_size block_size = Ok full →
  zlen full = Inode.size inode ∧ ∃ extra, full = sub (Inode.block inode ++ extra) 0 (Inode.size inode) ∧
    (60 < Inode.size inode → system_data dev inode inode_raw inode_size block_size = Ok (Some extra)).
Proof.
  unfold read_all. rewrite slice_ok by lia. cbn [mbind res_bind]. case_decide as Ht.
  - intros [= <-]. rewrite Z.min_l by lia. split; [zl|]. exists []. rewrite app_nil_r. split; [done|lia].
  - rewrite Z.min_r by lia. intros H. res_inv. split; [zl|]. exists a. subst. split; [|by intros _].
    replace (Inode.size inode) with (60 + (Inode.size inode - 60)) at 2 by lia. rewrite sub_split by lia.
    rewrite sub_app_l by lia. rewrite sub_app_r by lia. by rewrite Hblock.
Qed.

(** A range is the whole read's range, cut at the end of the file. *)
Lemma read_range_ok offset dst n dst' : 0 ≤ offset →
  read_range dev inode inode_raw inode_size block_size offset dst = Ok (n, dst') →
  n = Z.max 0 (Z.min (Inode.size inode - offset) (zlen dst)) ∧ zlen dst' = zlen dst ∧
  (0 < n → ∃ full, read_all dev inode inode_raw inode_size block_size = Ok full ∧ dst' = splice dst 0 (sub full offset n)).
Proof.
  intros Ho. unfold read_range. pose proof (zlen_nonneg dst). case_decide as Ht.
  { intros [= <- <-]. split; [lia|]. split; [done|lia]. }
  intros H1. apply bind_ok_inv in H1 as (full & Hf & H1). pose proof (read_all_ok full Hf) as [Hz _].
  rewrite Hz in H1. rewrite slice_ok in H1 by lia. cbn [mbind res_bind] in H1. rewrite put_ok in H1 by zl. injection H1 as <- <-.
  split; [lia|]. split; [zl|]. intros _. exists full. done.
Qed.
End proofs.
