(* ===== verification/InlineMut.v ===== *)
(** InlineMut: writing inline data (src/src/inline_mut.rs): storing a file's
    bytes in an inode image, taking them out, and the editor of an inline
    directory.  The theorems relate the images to what the readers of
    InlineData make of them. *)
From S2P Require Import Prelude Errors Bytes Device Inode Dir Xattr InlineData.

Definition DATA_ATTR : bytes := lit "system.data".
Definition I_BLOCK : Z := 0x28.
Definition I_BLOCK_LEN : Z := 60.

Definition ceiling (inode_size : Z) : Z := I_BLOCK_LEN + inode_size.

(** The range of the attribute area: its start and its end. *)
Definition attr_area (raw : bytes) (inode_size : Z) : option (Z * Z) :=
  if decide (zlen raw < 0x82) then None else
  let extra := le16 raw 0x80 in
  let start := 128 + extra in
  let stop := Z.min inode_size (zlen raw) in
  if decide (extra ≠ 0 ∧ start + 8 ≤ stop) then Some (start, stop) else None.

Definition store (raw : bytes) (inode_size : Z) (data : bytes) : res bytes :=
  if decide (ceiling inode_size < zlen data) then Err NoSpaceLeftOnDevice else
  '(start, stop) ← ok_or (attr_area raw inode_size) NoSpaceLeftOnDevice;
  let head := Z.min (zlen data) I_BLOCK_LEN in
  region ← slice raw start (stop - start);
  rest ← slice data head (zlen data - head);
  '(_, region) ← plan_set_in_inode_region region DATA_ATTR rest;
  raw ← put raw start region;
  raw ← put raw I_BLOCK (zrep I_BLOCK_LEN 0);
  first ← slice data 0 head;
  put raw I_BLOCK first.

Definition strip (raw : bytes) (inode_size : Z) : res bytes :=
  raw ← match attr_area raw inode_size with
        | Some (start, stop) =>
            region ← slice raw start (stop - start);
            '(_, region) ← plan_remove_in_inode_region region DATA_ATTR;
            put raw start region
        | None => Ok raw
        end;
  flags ← u32_le raw 0x20;
  raw ← put_u32 raw 0x20 (Z.ldiff flags InodeFlags.INLINE_DATA);
  put raw I_BLOCK (zrep I_BLOCK_LEN 0).

Definition DIR_HEAD : Z := 0x2C.
Definition MIN_CONTINUATION : Z := entry_rec_len 1.

Module InlineDir.
Record t := mk { parent : Z; head : bytes; continuation : bytes }.

Definition load (dev : reader) (inode : Inode.t) (raw : bytes) (inode_size block_size : Z) : res t :=
  continuation ← dir_continuation dev inode raw inode_size block_size;
  parent ← u32_le raw 0x28;
  head ← slice raw DIR_HEAD 56;
  Ok (mk parent head continuation).

Definition entries (d : t) (has_filetype : bool) : res (list DirEntry.t) :=
  es1 ← parse_block (head d) has_filetype;
  es2 ← parse_block (continuation d) has_filetype;
  Ok (es1 ++ es2).

(** One area of [add]: [None] when the entry does not fit in it. *)
Definition add_in (area : bytes) (ino : Z) (name : bytes) (file_type : DirEntryType) (has_filetype : bool) : res (option bytes) :=
  match add_entry_to_block area ino name file_type has_filetype 0 with
  | Ok area => Ok (Some area)
  | Err OutOfBounds => Ok None
  | Err e => Err e
  | Panic => Panic
  | OutOfFuel => OutOfFuel
  end.

Definition add (d : t) (ino : Z) (name : bytes) (file_type : DirEntryType) (has_filetype : bool) : res (bool * t) :=
  h ← add_in (head d) ino name file_type has_filetype;
  match h with
  | Some h => Ok (true, mk (parent d) h (continuation d))
  | None =>
      c ← add_in (continuation d) ino name file_type has_filetype;
      match c with
      | Some c => Ok (true, mk (parent d) (head d) c)
      | None => Ok (false, d)
      end
  end.

Definition remove (d : t) (name : bytes) (has_filetype : bool) : res (bool * t) :=
  '(h, done) ← remove_entry_from_block (head d) name has_filetype 0;
  if (done : bool) then Ok (true, mk (parent d) h (continuation d)) else
  '(c, done) ← remove_entry_from_block (continuation d) name has_filetype 0;
  if (done : bool) then Ok (true, mk (parent d) (head d) c) else Ok (false, d).

(** Whether a continuation of [len] bytes fits beside the other attributes. *)
Definition fits (region : bytes) (len : Z) : res bool :=
  match plan_set_in_inode_region region DATA_ATTR (zrep len 0) with
  | Ok _ => Ok true | Err _ => Ok false | Panic => Panic | OutOfFuel => OutOfFuel
  end.

(** [while lo + 1 < hi { ... }] *)
Fixpoint search (fuel : nat) (region : bytes) (lo hi : Z) : res Z :=
  if decide (lo + 1 < hi) then
    match fuel with
    | O => OutOfFuel
    | S fuel =>
        let mid := (lo + hi) / 2 in
        fit ← fits region (mid * 4);
        if (fit : bool) then search fuel region mid hi else search fuel region lo mid
    end
  else Ok lo.

Definition expand (d : t) (raw : bytes) (inode_size : Z) : res (bool * t) :=
  if decide (continuation d ≠ []) then Ok (false, d) else
  match attr_area raw inode_size with
  | None => Ok (false, d)
  | Some (start, stop) =>
      region ← slice raw start (stop - start);
      lo ← search (length region) region 0 (zlen region / 4 + 1);
      let len := lo * 4 in
      if decide (len < MIN_CONTINUATION ∨ u16_max < len) then Ok (false, d) else
      c ← put (zrep len 0) 4 (le_split 2 len);
      Ok (true, mk (parent d) (head d) c)
  end.

Definition store (d : t) (raw : bytes) (inode_size : Z) : res bytes :=
  '(start, stop) ← ok_or (attr_area raw inode_size) (Corrupt "inline directory without an in-inode attribute area");
  region ← slice raw start (stop - start);
  '(_, region) ← plan_set_in_inode_region region DATA_ATTR (continuation d);
  raw ← put raw start region;
  raw ← put_u32 raw 0x28 (parent d);
  raw ← put raw DIR_HEAD (head d);
  let size := I_BLOCK_LEN + zlen (continuation d) in
  raw ← put_u32 raw 0x04 (as_u32 size);
  put_u32 raw 0x6C (as_u32 (Z.shiftr size 32)).
End InlineDir.

(** ** What the readers make of an attribute area *)

Definition full_name (e : DecodedEntry) : bytes := default [] (prefix_for_index (name_index e)) ++ name_bytes e.

(** The attribute a reader reports for an entry. *)
Definition shown (e : DecodedEntry) (x : XattrEntry) : Prop := name x = full_name e ∧ value x = d_value e.
Definition utf8 (e : DecodedEntry) : Prop := from_utf8 (name_bytes e) = true.

(** The reader and the writer decode the same entries, names permitting. *)
Lemma decode_then_parse ov rg buf fuel : ∀ pos outd r, decode_loop ov rg fuel buf pos outd = Ok r →
  ∃ es, r = outd ++ es ∧ (Forall utf8 es → ∀ outp, ∃ xs, parse_loop ov rg fuel buf pos outp = Ok (outp ++ xs) ∧ Forall2 shown es xs).
Proof.
  induction fuel as [|fuel IH]; intros pos outd r H; cbn [decode_loop parse_loop] in *; case_decide; try done.
  all: try (injection H as <-; exists []; split; [by rewrite app_nil_r|]; intros _ outp; exists []; by rewrite app_nil_r).
  apply bind_ok_inv in H as (word & Hw & H). rewrite Hw. cbn [mbind res_bind]. case_decide.
  { injection H as <-. exists []. split; [by rewrite app_nil_r|]. intros _ outp. exists []. by rewrite app_nil_r. }
  apply bind_ok_inv in H as (h & Hh & H). rewrite Hh. cbn [mbind res_bind]. case_decide; [done|].
  apply bind_ok_inv in H as (nb & Hnb & H). rewrite Hnb. cbn [mbind res_bind].
  apply bind_ok_inv in H as (v & Hv & H). rewrite Hv. cbn [mbind res_bind].
  destruct (IH _ _ _ H) as (es & -> & Hes). exists (mkDecoded (h_index h) nb v (h_inum h) :: es).
  split; [by rewrite <-app_assoc|]. intros Hu outp. apply Forall_cons in Hu as [Hu1 Hu]. unfold utf8 in Hu1. cbn in Hu1.
  rewrite Hu1. cbn [negb mbind res_bind]. destruct (Hes Hu (outp ++ [mkXattr (default [] (prefix_for_index (h_index h)) ++ nb) v (h_inum h) (h_size h)]))
    as (xs & Hx & Hsh). eexists (_ :: xs). split; [rewrite Hx; by rewrite <-app_assoc|]. by constructor.
Qed.

Lemma parse_then_decode ov rg buf fuel : ∀ pos outp r, parse_loop ov rg fuel buf pos outp = Ok r →
  ∃ xs, r = outp ++ xs ∧ (∀ outp', parse_loop ov rg fuel buf pos outp' = Ok (outp' ++ xs)) ∧
    ∀ outd, ∃ es, decode_loop ov rg fuel buf pos outd = Ok (outd ++ es) ∧ Forall utf8 es.
Proof.
  induction fuel as [|fuel IH]; intros pos outp r H; cbn [decode_loop parse_loop] in *; case_decide; try done.
  all: try (injection H as <-; exists []; split; [by rewrite app_nil_r|]; split; [intros; by rewrite app_nil_r|];
            intros outd; exists []; by rewrite app_nil_r).
  apply bind_ok_inv in H as (word & Hw & H). rewrite Hw. cbn [mbind res_bind]. case_decide.
  { injection H as <-. exists []. split; [by rewrite app_nil_r|]. split; [intros; by rewrite app_nil_r|].
    intros outd. exists []. by rewrite app_nil_r. }
  apply bind_ok_inv in H as (h & Hh & H). rewrite Hh. cbn [mbind res_bind]. case_decide; [done|].
  apply bind_ok_inv in H as (nb & Hnb & H). rewrite Hnb. cbn [mbind res_bind].
  destruct (from_utf8 nb) eqn:Hu; cbn [negb] in *; [|done].
  apply bind_ok_inv in H as (v & Hv & H). rewrite Hv. cbn [mbind res_bind].
  destruct (IH _ _ _ H) as (xs & -> & Hp & Hd). eexists (_ :: xs). split; [by rewrite <-app_assoc|]. split.
  - intros outp'. rewrite Hp. by rewrite <-app_assoc.
  - intros outd. destruct (Hd (outd ++ [mkDecoded (h_index h) nb v (h_inum h)])) as (es & He & Hes).
    exists (mkDecoded (h_index h) nb v (h_inum h) :: es). split; [rewrite He; by rewrite <-app_assoc|]. by constructor.
Qed.

(** ** The attribute "system.data" *)

Definition DATA_KEY : Z * bytes := (7, lit "data").

(** An entry whose namespace the table knows. *)
Definition known (e : DecodedEntry) : Prop := prefix_for_index (name_index e) ≠ None.

Lemma data_attr_key : split_qualified_name DATA_ATTR = Some DATA_KEY.
Proof. reflexivity. Qed.

(** Only index 7 and suffix "data" make the name "system.data". *)
Lemma full_name_data e : known e → full_name e = DATA_ATTR ↔ same_key 7 (lit "data") e = true.
Proof.
  intros Hk. rewrite same_key_true. unfold full_name. destruct e as [i n v j]. cbn [name_index name_bytes] in *.
  split; [|intros [-> ->]; reflexivity]. unfold known, prefix_for_index in Hk. cbn [name_index] in Hk.
  revert Hk. unfold prefix_for_index, NAME_PREFIXES. cbn [List.find fst].
  repeat (case_bool_decide; [subst; intros _ Hn; vm_compute in Hn; try discriminate Hn|]).
  - split; [done|]. injection Hn as ->. reflexivity.
  - intros []. reflexivity.
Qed.

Lemma find_shown es xs : Forall2 shown es xs → Forall known es →
  value <$> List.find (λ x, bool_decide (name x = DATA_ATTR)) xs = value_of 7 (lit "data") es.
Proof.
  unfold value_of. induction 1 as [|e x es xs [Hn Hv] Hs IH]; intros Hk; [done|].
  apply Forall_cons in Hk as [Hke Hk]. cbn [List.find]. rewrite Hn. pose proof (full_name_data e Hke) as Hf.
  case_bool_decide as Hb.
  - apply Hf in Hb. rewrite Hb. cbn. by rewrite Hv.
  - assert (same_key 7 (lit "data") e = false) as -> by (apply not_true_iff_false; tauto). by apply IH.
Qed.

(** ** The attribute area of an inode image *)

Lemma attr_area_range raw isz start stop : 0 ≤ le16 raw 0x80 → attr_area raw isz = Some (start, stop) →
  129 ≤ start ∧ start + 8 ≤ stop ∧ stop ≤ zlen raw ∧ stop = Z.min isz (zlen raw) ∧ start = 128 + le16 raw 0x80.
Proof.
  intros Hb. unfold attr_area. case_decide; [done|]. case_decide; [|done]. intros [= <- <-]. lia.
Qed.

(** The entries an inode image holds in its area. *)
Definition attributes (raw : bytes) (isz : Z) : res (list DecodedEntry) :=
  match attr_area raw isz with
  | Some (start, stop) => region_entries (sub raw start (stop - start))
  | None => Ok []
  end.

(** What the reader's list starts with. *)
Lemma in_inode_shown raw isz es start stop : 0 ≤ le16 raw 0x80 → attr_area raw isz = Some (start, stop) →
  attributes raw isz = Ok es → Forall utf8 es →
  ∃ xs, in_inode_entries raw isz = Ok xs ∧ Forall2 shown es xs.
Proof.
  intros Hb Ha He Hu. unfold attributes in He. rewrite Ha in He. pose proof (attr_area_range _ _ _ _ Hb Ha) as (H1 & H2 & H3 & H4 & H5).
  unfold in_inode_entries. rewrite decide_False by lia. rewrite u16_le_ok by lia. cbn [mbind res_bind].
  fold (le16 raw 0x80). rewrite <-H5. rewrite decide_True by (split; [lia|lia]). rewrite <-H4.
  rewrite slice_ok by lia. cbn [mbind res_bind]. unfold region_entries in He. apply bind_ok_inv in He as (m & Hm & He). rewrite Hm.
  cbn [mbind res_bind]. case_decide; [|injection He as <-; exists []; split; [done|constructor]].
  unfold decode_in_inode_entries in He. apply decode_then_parse in He as (es' & -> & Hp). cbn [app] in *.
  destruct (Hp Hu []) as (xs & Hx & Hs). by exists xs.
Qed.

Lemma in_inode_utf8 raw isz es xs start stop : 0 ≤ le16 raw 0x80 → attr_area raw isz = Some (start, stop) →
  attributes raw isz = Ok es → in_inode_entries raw isz = Ok xs → Forall utf8 es.
Proof.
  intros Hb Ha He Hx. unfold attributes in He. rewrite Ha in He. pose proof (attr_area_range _ _ _ _ Hb Ha) as (H1 & H2 & H3 & H4 & H5).
  unfold in_inode_entries in Hx. rewrite decide_False in Hx by lia. rewrite u16_le_ok in Hx by lia. cbn [mbind res_bind] in Hx.
  fold (le16 raw 0x80) in Hx. rewrite <-H5 in Hx. rewrite decide_True in Hx by (split; [lia|lia]). rewrite <-H4 in Hx.
  rewrite slice_ok in Hx by lia. cbn [mbind res_bind] in Hx. unfold region_entries in He. apply bind_ok_inv in He as (m & Hm & He).
  rewrite Hm in Hx. cbn [mbind res_bind] in Hx. case_decide; [|by injection He as <-].
  apply parse_then_decode in Hx as (xs' & _ & _ & Hd). destruct (Hd []) as (es' & He' & Hu).
  unfold decode_in_inode_entries in He. rewrite He in He'. by injection He' as ->.
Qed.

(** An image that agrees with [raw] from byte 128 on. *)
Definition same_tail (raw raw' : bytes) : Prop := zlen raw' = zlen raw ∧ drop 128 raw' = drop 128 raw.

Lemma same_tail_sub raw raw' o n : same_tail raw raw' → 128 ≤ o → sub raw' o n = sub raw o n.
Proof.
  intros [_ H] Ho. unfold sub. f_equal. replace (Z.to_nat o) with (128 + (Z.to_nat o - 128))%nat by lia.
  by rewrite <-!drop_drop, H.
Qed.

Lemma same_tail_splice raw o x : 0 ≤ o → o + zlen x ≤ 128 → o + zlen x ≤ zlen raw → same_tail raw (splice raw o x).
Proof.
  intros Ho Hx Hz. split; [apply zlen_splice; lia|]. apply list_eq. intros i. rewrite !lookup_drop, lookup_splice by lia.
  by rewrite decide_False by lia.
Qed.

Lemma same_tail_trans a b c : same_tail a b → same_tail b c → same_tail a c.
Proof. intros [H1 H2] [H3 H4]. split; congruence. Qed.

Lemma same_tail_area raw raw' isz : 0 ≤ le16 raw 0x80 → same_tail raw raw' →
  attr_area raw' isz = attr_area raw isz ∧ attributes raw' isz = attributes raw isz ∧ le16 raw' 0x80 = le16 raw 0x80.
Proof.
  intros H0 Ht. pose proof (same_tail_sub _ _ 0x80 2 Ht ltac:(lia)) as E. pose proof (proj1 Ht) as Hz.
  assert (E16 : le16 raw' 0x80 = le16 raw 0x80) by (unfold le16; by rewrite E).
  assert (Ea : attr_area raw' isz = attr_area raw isz) by (unfold attr_area; by rewrite Hz, E16).
  split; [done|]. split; [|done]. unfold attributes. rewrite Ea. destruct (attr_area raw isz) as [[start stop]|] eqn:Es; [|done].
  apply attr_area_range in Es; [|done]. rewrite (same_tail_sub _ _ _ _ Ht); [done|lia].
Qed.

(** A region written back. *)
Lemma region_written raw isz start stop region : 2 ≤ le16 raw 0x80 → attr_area raw isz = Some (start, stop) →
  zlen region = stop - start → let raw1 := splice raw start region in
  zlen raw1 = zlen raw ∧ attr_area raw1 isz = Some (start, stop) ∧ attributes raw1 isz = region_entries region ∧
  le16 raw1 0x80 = le16 raw 0x80 ∧ (∀ o n, 0 ≤ o → o + n ≤ 128 → sub raw1 o n = sub raw o n).
Proof.
  intros H2 Ha Hz raw1. pose proof (attr_area_range raw isz start stop ltac:(lia) Ha) as (H3 & H4 & H5 & H6 & H7).
  assert (Hl : zlen raw1 = zlen raw) by (unfold raw1; apply zlen_splice; lia).
  assert (E16 : le16 raw1 0x80 = le16 raw 0x80) by (unfold raw1; apply le16_splice_ne; lia).
  assert (Ea : attr_area raw1 isz = Some (start, stop)) by (rewrite <-Ha; unfold attr_area; by rewrite Hl, E16).
  split; [done|]. split; [done|]. split; [|split; [done|]].
  - unfold attributes. rewrite Ea. unfold raw1. rewrite sub_splice_same_len by lia. done.
  - intros o n Ho Hn. unfold raw1. apply sub_splice_disjoint; lia.
Qed.

(** A predicate of the keys survives a set. *)
Lemma replace_first_forall (P : Z → bytes → Prop) idx suffix v es es' :
  replace_first idx suffix v es = Some es' → Forall (λ e, P (name_index e) (name_bytes e)) es →
  Forall (λ e, P (name_index e) (name_bytes e)) es'.
Proof.
  revert es'. induction es as [|e es IH]; intros es'; [done|]. cbn [replace_first]. intros H Hok.
  apply Forall_cons in Hok as [Hoke Hok]. destruct (same_key idx suffix e); [injection H as <-; by constructor|].
  destruct (replace_first idx suffix v es) as [es1|]; [|done]. injection H as <-. constructor; [done|]. by apply IH.
Qed.

Lemma set_entry_forall (P : Z → bytes → Prop) idx suffix v es o es' :
  set_entry idx suffix v es = (o, es') → P idx suffix → Forall (λ e, P (name_index e) (name_bytes e)) es →
  Forall (λ e, P (name_index e) (name_bytes e)) es'.
Proof.
  unfold set_entry. intros H Hp Hok. destruct (replace_first idx suffix v es) as [es1|] eqn:Er; injection H as <- <-.
  - by eapply replace_first_forall.
  - apply Forall_app. split; [done|by constructor].
Qed.

(** ** Images whose attributes can be read *)

(** The image is readable: its area decodes, every entry has a name in a
    known namespace, and the inode's attributes as a whole read. *)
Record readable (dev : reader) (inode : Inode.t) (raw : bytes) (isz bs : Z) (es : list DecodedEntry) : Prop := {
  rd_raw : bytes_ok raw ∧ zlen raw ≤ 2 ^ 16;
  rd_extra : 2 ≤ le16 raw 0x80;
  rd_es : attributes raw isz = Ok es;
  rd_named : Forall named es;
  rd_known : Forall known es;
  rd_utf8 : Forall utf8 es;
  rd_block : Inode.file_acl inode = 0 ∨ ∃ buf ext,
    rd_read dev (as_u64 (Inode.file_acl inode * bs)) bs = Ok buf ∧ u32_le buf 0 = Ok EXT4_XATTR_MAGIC ∧
    parse_entries_block buf [] = Ok ext
}.

(** What a reader then finds under "system.data". *)
Lemma read_data dev inode raw isz bs es start stop v :
  0 ≤ le16 raw 0x80 → attr_area raw isz = Some (start, stop) → attributes raw isz = Ok es → Forall known es → Forall utf8 es →
  (Inode.file_acl inode = 0 ∨ ∃ buf ext, rd_read dev (as_u64 (Inode.file_acl inode * bs)) bs = Ok buf ∧
     u32_le buf 0 = Ok EXT4_XATTR_MAGIC ∧ parse_entries_block buf [] = Ok ext) →
  value_of 7 (lit "data") es = Some v →
  system_data dev inode raw isz bs = Ok (Some v).
Proof.
  intros H0 Ha He Hk Hu Hblk Hv. destruct (in_inode_shown _ _ _ _ _ H0 Ha He Hu) as (xs & Hx & Hs).
  pose proof (find_shown _ _ Hs Hk) as Hf. rewrite Hv in Hf. destruct (List.find _ xs) as [x|] eqn:Ef; [|done]. injection Hf as Hxv.
  unfold system_data, Xattr.get, Xattr.read_all. rewrite Hx. cbn [mbind res_bind].
  assert (Hfind : ∀ ext, List.find (λ e, bool_decide (name e = lit "system.data")) (xs ++ ext) = Some x).
  { intros ext. clear -Ef. induction xs as [|y xs IH]; [done|]. cbn [app List.find] in *. by destruct (bool_decide _); [|apply IH]. }
  destruct Hblk as [->|(buf & ext & Hr & Hm & Hp)].
  - cbn [decide]. rewrite decide_True by done. cbn [mbind res_bind]. rewrite <-(app_nil_r xs), Hfind. cbn. by rewrite Hxv.
  - case_decide.
    + cbn [mbind res_bind]. rewrite <-(app_nil_r xs), Hfind. cbn. by rewrite Hxv.
    + rewrite Hr. cbn [mbind res_bind]. rewrite Hm. cbn [mbind res_bind]. rewrite decide_False by auto.
      unfold parse_entries_block in *. case_decide; [done|]. apply parse_then_decode in Hp as (xs' & _ & Hp & _).
      rewrite Hp. cbn [mbind res_bind]. rewrite Hfind. cbn. by rewrite Hxv.
Qed.

(** Setting "system.data" in the area of a readable image. *)
Lemma data_set dev inode raw isz bs es start stop v o region :
  readable dev inode raw isz bs es → attr_area raw isz = Some (start, stop) →
  plan_set_in_inode_region (sub raw start (stop - start)) DATA_ATTR v = Ok (o, region) →
  zlen region = stop - start ∧
  ∀ raw', same_tail (splice raw start region) raw' →
    system_data dev inode raw' isz bs = Ok (Some v) ∧
    ∃ es', attributes raw' isz = Ok es' ∧ ∀ k s, (k, s) ≠ DATA_KEY → value_of k s es' = value_of k s es.
Proof.
  intros [[Hb Hz] Hx Hes Hn Hk Hu Hblk] Ha Hp. pose proof (attr_area_range raw isz start stop ltac:(lia) Ha) as (H3 & H4 & H5 & H6 & H7).
  assert (Hreg : zlen (sub raw start (stop - start)) = stop - start) by zl.
  unfold attributes in Hes. rewrite Ha in Hes.
  destruct (plan_set_region_entries (sub raw start (stop - start)) _ _ _ _ _ (bytes_ok_sub _ _ _ Hb) ltac:(lia) Hes Hn Hp)
    as (idx & suffix & es1 & Hs & Hlen & Hok & Eset & Hzr & Her).
  rewrite data_attr_key in Hs. injection Hs as <- <-. split; [lia|]. intros raw' Ht.
  destruct (region_written raw isz start stop region Hx Ha ltac:(lia)) as (W1 & W2 & W3 & W4 & _).
  destruct (same_tail_area _ raw' isz ltac:(rewrite W4; lia) Ht) as (T1 & T2 & T3).
  destruct (set_entry_spec _ _ _ _ _ _ Eset ltac:(lia) Hlen ltac:(left; discriminate) Hok) as (Hok1 & Hv & Hother & _).
  assert (Hk1 : Forall known (sort_by in_inode_le es1)).
  { rewrite sort_by_perm. by apply (set_entry_forall (λ i _, prefix_for_index i ≠ None) _ _ _ _ _ _ Eset). }
  assert (Hu1 : Forall utf8 (sort_by in_inode_le es1)).
  { rewrite sort_by_perm. by apply (set_entry_forall (λ _ n, from_utf8 n = true) _ _ _ _ _ _ Eset). }
  split.
  - eapply (read_data _ _ _ _ _ (sort_by in_inode_le es1)); [rewrite T3, W4; lia|by rewrite T1, W2|by rewrite T2, W3, Her|done..|].
    by rewrite value_of_in_inode.
  - exists (sort_by in_inode_le es1). split; [by rewrite T2, W3, Her|]. intros k s Hks. rewrite value_of_in_inode. by apply Hother.
Qed.

(** ** Well-formed inline directories *)

(** Both areas are runs of records. *)
Definition dir_ok (hft : bool) (d : InlineDir.t) (es : list DirEntry.t) : Prop :=
  zlen (InlineDir.head d) = 56 ∧ u32_ok (InlineDir.parent d) ∧ ∃ ch cc,
    InlineDir.head d = concat ch ∧ InlineDir.continuation d = concat cc ∧
    dir_block hft ch [] ∧ dir_block hft cc [] ∧ es = entries_of hft ch ++ entries_of hft cc.

Lemma parse_area hft cs : dir_block hft cs [] → parse_block (concat cs) hft = Ok (entries_of hft cs).
Proof. intros H. pose proof (parse_dir_block hft cs [] H) as E. by rewrite app_nil_r in E. Qed.

Lemma dir_ok_entries hft d es : dir_ok hft d es → InlineDir.entries d hft = Ok es.
Proof.
  intros (_ & _ & ch & cc & H1 & H2 & H3 & H4 & ->). unfold InlineDir.entries. rewrite H1, H2, !parse_area by done. done.
Qed.

(** One area of an insertion. *)
Lemma add_in_spec hft cs ino nm ty : dir_block hft cs [] → 0 < ino < 2 ^ 32 → bytes_ok nm → 1 ≤ zlen nm ≤ 255 →
  match InlineDir.add_in (concat cs) ino nm ty hft with
  | Ok (Some area) => ∃ cs', area = concat cs' ∧ dir_block hft cs' [] ∧ zlen (concat cs') = zlen (concat cs) ∧
      ∃ es1 es2, entries_of hft cs = es1 ++ es2 ∧ entries_of hft cs' = es1 ++ DirEntry.mk ino nm (if hft then ty else Unknown) :: es2
  | Ok None => Forall (λ c, room hft c < entry_rec_len (zlen nm)) cs
  | _ => False
  end.
Proof.
  intros Hd Hi Hb Hn. unfold InlineDir.add_in. pose proof (add_entry_result hft cs [] ino nm ty Hd Hi Hb Hn) as H.
  rewrite app_nil_r in H. change (zlen (@nil Z)) with 0 in H.
  destruct (add_entry_to_block _ _ _ _ _ _) as [area|e| |]; try done.
  - destruct H as (cs' & Hc & H). exists cs'. by rewrite app_nil_r in Hc.
  - destruct H as [-> H]. done.
Qed.

(** An insertion puts the entry somewhere among the others, or finds no
    record of either area with room for it. *)
Lemma add_spec hft d es ino nm ty : dir_ok hft d es → 0 < ino < 2 ^ 32 → bytes_ok nm → 1 ≤ zlen nm ≤ 255 →
  match InlineDir.add d ino nm ty hft with
  | Ok (true, d') => InlineDir.parent d' = InlineDir.parent d ∧
      zlen (InlineDir.continuation d') = zlen (InlineDir.continuation d) ∧
      ∃ es1 es2, es = es1 ++ es2 ∧ dir_ok hft d' (es1 ++ DirEntry.mk ino nm (if hft then ty else Unknown) :: es2)
  | Ok (false, d') => d' = d
  | _ => False
  end.
Proof.
  intros (H56 & Hp & ch & cc & H1 & H2 & H3 & H4 & ->) Hi Hb Hn. unfold InlineDir.add.
  pose proof (add_in_spec hft ch ino nm ty H3 Hi Hb Hn) as Ha. rewrite <-H1 in Ha.
  destruct (InlineDir.add_in (InlineDir.head d) _ _ _ _) as [[h|]|e| |]; try done; cbn [mbind res_bind].
  - destruct Ha as (ch' & -> & Hd & Hz & es1 & es2 & E1 & E2). split; [done|]. split; [done|].
    exists es1, (es2 ++ entries_of hft cc). split; [by rewrite E1, <-app_assoc|].
    split; [cbn; by rewrite Hz|]. split; [done|]. exists ch', cc. do 4 (split; [done|]). rewrite E2. by rewrite <-app_assoc.
  - pose proof (add_in_spec hft cc ino nm ty H4 Hi Hb Hn) as Hc. rewrite <-H2 in Hc.
    destruct (InlineDir.add_in (InlineDir.continuation d) _ _ _ _) as [[c|]|e| |]; try done; cbn [mbind res_bind].
    destruct Hc as (cc' & -> & Hd & Hz & es1 & es2 & E1 & E2). split; [done|]. split; [exact Hz|].
    exists (entries_of hft ch ++ es1), es2. split; [by rewrite E1, <-app_assoc|].
    split; [done|]. split; [done|]. exists ch, cc'. do 4 (split; [done|]). rewrite E2. by rewrite <-app_assoc.
Qed.

(** A removal takes out the first entry of the name. *)
Lemma remove_spec hft d es nm : dir_ok hft d es → zlen (InlineDir.continuation d) ≤ u16_max →
  match InlineDir.remove d nm hft with
  | Ok (true, d') => InlineDir.parent d' = InlineDir.parent d ∧
      zlen (InlineDir.continuation d') = zlen (InlineDir.continuation d) ∧
      ∃ es1 e es2, es = es1 ++ e :: es2 ∧ DirEntry.name e = nm ∧ Forall (λ e, DirEntry.name e ≠ nm) es1 ∧ dir_ok hft d' (es1 ++ es2)
  | Ok (false, d') => d' = d ∧ Forall (λ e, DirEntry.name e ≠ nm) es
  | _ => False
  end.
Proof.
  intros (H56 & Hp & ch & cc & H1 & H2 & H3 & H4 & ->) Hmax. unfold InlineDir.remove.
  pose proof (remove_entry_result hft ch [] nm H3) as Ha. cbv zeta in Ha. rewrite app_nil_r, <-H1 in Ha. change (zlen (@nil Z)) with 0 in Ha.
  destruct (remove_entry_from_block (InlineDir.head d) _ _ _) as [[h []]|e| |]; try done; cbn [mbind res_bind].
  - destruct Ha as (ch' & Hh & Hd & Hz & es1 & e & es2 & E1 & E2 & E3 & E4). rewrite app_nil_r in Hh. subst h.
    split; [done|]. split; [done|]. exists es1, e, (es2 ++ entries_of hft cc). split; [by rewrite E1, <-app_assoc|].
    do 2 (split; [done|]). split; [cbn; by rewrite Hz|]. split; [done|]. exists ch', cc. do 4 (split; [done|]).
    rewrite E4. by rewrite <-app_assoc.
  - destruct Ha as [-> Hno].
    pose proof (remove_entry_result hft cc [] nm H4) as Hc. cbv zeta in Hc. rewrite app_nil_r, <-H2 in Hc. change (zlen (@nil Z)) with 0 in Hc.
    destruct (remove_entry_from_block (InlineDir.continuation d) _ _ _) as [[c []]|e| |]; try done; cbn [mbind res_bind].
    + destruct Hc as (cc' & Hcc & Hd & Hz & es1 & e & es2 & E1 & E2 & E3 & E4). rewrite app_nil_r in Hcc. subst c.
      split; [done|]. split; [exact Hz|]. exists (entries_of hft ch ++ es1), e, es2. split; [by rewrite E1, <-app_assoc|].
      split; [done|]. split; [by apply Forall_app|]. split; [done|]. split; [done|]. exists ch, cc'. do 4 (split; [done|]).
      rewrite E4. by rewrite <-app_assoc.
    + destruct Hc as [_ Hno2]. split; [done|]. by apply Forall_app.
    + destruct Hc as [_ Hc]. lia.
  - destruct Ha as [_ Ha]. rewrite H56 in Ha. vm_compute in Ha. done.
Qed.

(** The search ends, inside its bounds. *)
Lemma search_spec region fuel : ∀ lo hi, 0 ≤ lo → lo < hi → hi - lo ≤ Z.of_nat fuel + 1 →
  (∀ n, 0 ≤ n → ∃ b, InlineDir.fits region n = Ok b) →
  ∃ r, InlineDir.search fuel region lo hi = Ok r ∧ lo ≤ r < hi.
Proof.
  induction fuel as [|fuel IH]; intros lo hi Hlo Hlt Hf Hfits; cbn [InlineDir.search].
  - rewrite decide_False by lia. exists lo. split; [done|lia].
  - case_decide; [|exists lo; split; [done|lia]].
    assert (lo < (lo + hi) / 2 < hi) as [Hm1 Hm2].
    { pose proof (Z.div_mod (lo + hi) 2). pose proof (Z.mod_pos_bound (lo + hi) 2). lia. }
    destruct (Hfits ((lo + hi) / 2 * 4) ltac:(lia)) as [b ->]. cbn [mbind res_bind]. destruct b.
    + destruct (IH ((lo + hi) / 2) hi) as (r & E & Hr); [lia..|done|]. exists r. split; [done|lia].
    + destruct (IH lo ((lo + hi) / 2)) as (r & E & Hr); [lia..|done|]. exists r. split; [done|lia].
Qed.

Lemma fits_total region es n : bytes_ok region → zlen region ≤ 2 ^ 16 → region_entries region = Ok es → Forall named es →
  ∃ b, InlineDir.fits region n = Ok b.
Proof.
  intros Hb Hz Hes Hn. unfold InlineDir.fits, plan_set_in_inode_region.
  change (check_set_name DATA_ATTR) with (Ok (A := Z * bytes) (7, lit "data")). cbn [mbind res_bind].
  case_decide; [by eexists|]. pose proof Hes as He. apply bind_ok_inv in He as (m & Hm & He). rewrite Hm. cbn [mbind res_bind].
  rewrite He. cbn [mbind res_bind]. destruct (refuse_if_any_ea_inode_backed es) as [u|e| |] eqn:Hu; cbn [mbind res_bind]; try by eexists.
  2,3: exfalso; revert Hu; unfold refuse_if_any_ea_inode_backed; by destruct (existsb _ _).
  apply refuse_ok in Hu. pose proof (entries_ok es (region_entries_raw _ _ Hb Hes) Hn Hu) as Hok.
  destruct (set_entry 7 (lit "data") (zrep n 0) es) as [o es1] eqn:Eset. destruct (decide (zlen region - 4 < needed_entries es1 + 4 + needed_values es1)); [by eexists|].
  destruct (set_entry_spec _ _ _ _ _ _ Eset ltac:(lia) ltac:(by vm_compute) ltac:(left; discriminate) Hok) as (Hok1 & _).
  destruct (encode_in_inode_ok region es1 Hok1) as (r & E & _); [lia..|]. rewrite E. by eexists.
Qed.

(** A directory given a continuation lists the same entries. *)
Lemma expand_spec hft dev inode raw isz bs es d ds : readable dev inode raw isz bs es → dir_ok hft d ds →
  ∃ b d', InlineDir.expand d raw isz = Ok (b, d') ∧ (b = false → d' = d) ∧ dir_ok hft d' ds ∧
    InlineDir.parent d' = InlineDir.parent d ∧ (b = true → InlineDir.continuation d = [] ∧ 12 ≤ zlen (InlineDir.continuation d') ≤ u16_max).
Proof.
  intros [[Hb Hz] Hx Hes Hn _ _ _] Hd. unfold InlineDir.expand. case_decide as Hc; [exists false, d; by split_and!|].
  destruct (decide (InlineDir.continuation d = [])) as [Hnil|]; [clear Hc|tauto].
  destruct (attr_area raw isz) as [[start stop]|] eqn:Ha; [|exists false, d; by split_and!].
  pose proof (attr_area_range raw isz start stop ltac:(lia) Ha) as (H3 & H4 & H5 & H6 & H7).
  rewrite slice_ok by lia. cbn [mbind res_bind]. set (region := sub raw start (stop - start)).
  assert (Hr : zlen region = stop - start) by (unfold region; zl).
  unfold attributes in Hes. rewrite Ha in Hes. fold region in Hes.
  assert (Hq : 0 ≤ zlen region / 4 ≤ zlen region) by (split; [apply Z.div_pos|apply Z.div_le_upper_bound]; lia).
  destruct (search_spec region (length region) 0 (zlen region / 4 + 1)) as (lo & E & Hlo); [lia|lia|unfold zlen in *; lia| |].
  { intros n _. eapply fits_total; [by apply bytes_ok_sub|lia|done|done]. }
  rewrite E. cbn [mbind res_bind]. case_decide as Hlen; [exists false, d; by split_and!|].
  change MIN_CONTINUATION with 12 in Hlen. unfold u16_max in Hlen.
  rewrite put_ok by zl. cbn [mbind res_bind]. set (c := splice (zrep (lo * 4) 0) 4 (le_split 2 (lo * 4))).
  assert (Hcl : zlen c = lo * 4) by (unfold c; rewrite zlen_splice; zl).
  destruct Hd as (H56 & Hp & ch & cc & H1 & H2 & Hd1 & Hd2 & ->).
  assert (Hcb : bytes_ok c) by (unfold c; apply bytes_ok_splice; [apply Forall_replicate; lia|apply bytes_ok_le_split]).
  assert (E0 : le32 c 0 = 0).
  { unfold c, le32. rewrite sub_splice_disjoint by zl. unfold sub, zrep.
    replace (Z.to_nat (lo * 4)) with (4 + (Z.to_nat (lo * 4) - 4))%nat by lia. reflexivity. }
  assert (E4 : le16 c 4 = lo * 4) by (unfold c; apply le16_splice; zl).
  assert (E7 : byte_at c 7 = 0).
  { unfold byte_at, c. rewrite lookup_splice by zl. rewrite decide_False by zl. unfold zrep.
    destruct (replicate _ 0 !! Z.to_nat 7) as [x|] eqn:Ex; [|done]. by apply lookup_replicate in Ex as [-> _]. }
  assert (Hblk : dir_block hft [c] []).
  { split; [|split; [left; by rewrite zlen_nil; lia|constructor]]. constructor; [|constructor].
    split; [done|]. split; [rewrite Hcl; lia|]. split; [rewrite Hcl; by apply Z.mod_mul|]. split; [by rewrite E4, Hcl|].
    split; [by rewrite E0|]. intros (_ & _ & _ & H). rewrite E7 in H. discriminate H. }
  assert (Hcc : entries_of hft cc = []).
  { rewrite Hnil in H2. destruct cc as [|x cc]; [done|]. destruct Hd2 as [Hf _]. apply Forall_cons in Hf as [Hf _].
    apply chunk_ok_bytes in Hf as [_ Hf]. destruct x; [unfold zlen in Hf; simpl in Hf; lia|done]. }
  exists true, (InlineDir.mk (InlineDir.parent d) (InlineDir.head d) c). split; [done|]. split; [done|].
  split; [|split; [done|intros _; split; [done|change (12 ≤ zlen c ≤ u16_max); rewrite Hcl; unfold u16_max; lia]]]. split; [done|]. split; [done|]. exists ch, [c]. split; [done|].
  split; [cbn; by rewrite app_nil_r|]. split; [done|]. split; [done|]. rewrite Hcc. unfold entries_of. cbn [omap list_omap].
  unfold chunk_entry. by rewrite E0.
Qed.

(** The image of an inline file, from what [store] returned. *)
Lemma store_image raw isz data raw' : 2 ≤ le16 raw 0x80 → store raw isz data = Ok raw' →
  ∃ start stop o region, attr_area raw isz = Some (start, stop) ∧
    plan_set_in_inode_region (sub raw start (stop - start)) DATA_ATTR (sub data 60 (zlen data - 60)) = Ok (o, region) ∧
    (zlen region = stop - start → same_tail (splice raw start region) raw' ∧
       sub raw' I_BLOCK 60 = sub data 0 60 ++ zrep (60 - zlen data) 0).
Proof.
  intros Hx. unfold store. case_decide; [done|]. intros H0. apply bind_ok_inv in H0 as ([start stop] & Ha & H0). apply ok_or_ok in Ha.
  pose proof (attr_area_range raw isz start stop ltac:(lia) Ha) as (H3 & H4 & H5 & H6 & H7). pose proof (zlen_nonneg data).
  unfold I_BLOCK_LEN in *. cbv zeta in H0. rewrite (slice_ok raw) in H0 by lia. cbn [mbind res_bind] in H0.
  rewrite (slice_ok data (Z.min (zlen data) 60)) in H0 by lia. cbn [mbind res_bind] in H0.
  apply bind_ok_inv in H0 as ([o region] & Hp & H0).
  assert (Erest : sub data (Z.min (zlen data) 60) (zlen data - Z.min (zlen data) 60) = sub data 60 (zlen data - 60)).
  { destruct (decide (60 ≤ zlen data)); [by rewrite Z.min_r by lia|]. rewrite !sub_0 by lia. done. }
  rewrite Erest in Hp. exists start, stop, o, region. split; [done|]. split; [done|]. intros Hz.
  rewrite put_ok in H0 by lia. cbn [mbind res_bind] in H0. set (raw1 := splice raw start region) in *.
  assert (Hz1 : zlen raw1 = zlen raw) by (unfold raw1; rewrite zlen_splice; lia).
  rewrite put_ok in H0 by (rewrite ?zlen_zrep; unfold I_BLOCK; lia). cbn [mbind res_bind] in H0. set (raw2 := splice raw1 _ _) in *.
  assert (Hz2 : zlen raw2 = zlen raw1) by (unfold raw2; rewrite zlen_splice; rewrite ?zlen_zrep; unfold I_BLOCK; lia).
  rewrite slice_ok in H0 by lia. cbn [mbind res_bind] in H0. set (first := sub data 0 (Z.min (zlen data) 60)) in *.
  assert (Hf : zlen first = Z.min (zlen data) 60) by (unfold first; zl).
  rewrite put_ok in H0 by (unfold I_BLOCK; lia). injection H0 as <-. split.
  - apply (same_tail_trans _ raw2); apply same_tail_splice; rewrite ?zlen_zrep; unfold I_BLOCK; lia.
  - assert (Efirst : first = sub data 0 60).
    { unfold first. destruct (decide (60 ≤ zlen data)); [by rewrite Z.min_r by lia|]. rewrite Z.min_l by lia. by rewrite !sub_all by lia. }
    assert (E2 : sub raw2 I_BLOCK 60 = zrep 60 0) by (unfold raw2; apply sub_splice_same_len; rewrite ?zlen_zrep; unfold I_BLOCK; lia).
    unfold I_BLOCK in *. replace 60 with (zlen first + (60 - zlen first)) at 1 by lia. rewrite sub_split by lia.
    rewrite sub_splice_same by lia. rewrite sub_splice_disjoint by lia. rewrite <-Efirst. f_equal.
    assert (Es : sub raw2 40 60 = sub raw2 40 (zlen first) ++ sub raw2 (40 + zlen first) (60 - zlen first)).
    { rewrite <-sub_split by lia. f_equal. lia. }
    rewrite E2 in Es. rewrite (zrep_split (zlen first) 60) in Es by lia. apply app_inj_1 in Es as [_ Es].
    + rewrite <-Es. rewrite Hf. destruct (decide (60 ≤ zlen data)); [rewrite Z.min_r by lia|by rewrite Z.min_l by lia].
      unfold zrep. by replace (Z.to_nat (60 - zlen data)) with O by lia.
    + apply Nat2Z.inj. change (zlen (zrep (zlen first) 0) = zlen (sub raw2 40 (zlen first))). zl.
Qed.

(** ** Properties *)

(** A file stored inline reads back.  When storing succeeds on a readable
    inode image, the bytes the readers assemble from [i_block] and from
    "system.data" are the bytes stored, the image keeps its length, and every
    other attribute in the area keeps its value. *)
Lemma store_reads_back dev inode raw isz bs es data raw' :
  readable dev inode raw isz bs es → store raw isz data = Ok raw' →
  Inode.block inode = sub raw' I_BLOCK 60 → Inode.size inode = zlen data →
  InlineData.read_all dev inode raw' isz bs = Ok data ∧ zlen raw' = zlen raw ∧
  ∃ es', attributes raw' isz = Ok es' ∧ ∀ k s, (k, s) ≠ DATA_KEY → value_of k s es' = value_of k s es.
Proof.
  intros Hr Hst Hblk Hsz. destruct (store_image _ _ _ _ (rd_extra _ _ _ _ _ _ Hr) Hst) as (start & stop & o & region & Ha & Hp & Himg).
  destruct (data_set _ _ _ _ _ _ _ _ _ _ _ Hr Ha Hp) as (Hz & Hset). destruct (Himg Hz) as [Ht Hb60].
  destruct (Hset raw' Ht) as (Hd & Hes'). destruct Hr as [[Hb Hzr] Hx _ _ _ _ _].
  pose proof (attr_area_range raw isz start stop ltac:(lia) Ha) as (H3 & H4 & H5 & H6 & H7). pose proof (zlen_nonneg data).
  split; [|split; [destruct Ht as [-> _]; apply zlen_splice; lia|done]].
  unfold InlineData.read_all. rewrite Hblk, Hsz, Hb60. rewrite slice_ok by zl. cbn [mbind res_bind].
  case_decide as Hlen.
  - rewrite Z.min_l by lia. f_equal. rewrite sub_app_l by zl. rewrite (sub_all data 60) by lia. by apply sub_all.
  - rewrite Hd. cbn [ok_or mbind res_bind]. rewrite decide_False by zl. f_equal. rewrite Z.min_r by lia.
    replace (60 - zlen data) with (60 - zlen data) by lia. unfold zrep. replace (Z.to_nat (60 - zlen data)) with O by lia.
    cbn [replicate]. rewrite app_nil_r. rewrite (sub_all (sub data 0 60)) by zl.
    rewrite (sub_all (sub data 60 (zlen data - 60))) by zl.
    pose proof (sub_split data 0 60 (zlen data - 60) ltac:(lia) ltac:(lia) ltac:(lia)) as E.
    rewrite Z.add_0_l in E. rewrite <-E. apply sub_all. lia.
Qed.

(** The image of an inline directory, from what [InlineDir.store] returned. *)
Lemma dir_store_image d raw isz raw' : 2 ≤ le16 raw 0x80 → InlineDir.store d raw isz = Ok raw' →
  zlen (InlineDir.head d) = 56 → u32_ok (InlineDir.parent d) → zlen (InlineDir.continuation d) ≤ u16_max →
  ∃ start stop o region, attr_area raw isz = Some (start, stop) ∧
    plan_set_in_inode_region (sub raw start (stop - start)) DATA_ATTR (InlineDir.continuation d) = Ok (o, region) ∧
    (zlen region = stop - start → same_tail (splice raw start region) raw' ∧
       u32_le raw' 0x28 = Ok (InlineDir.parent d) ∧ slice raw' DIR_HEAD 56 = Ok (InlineDir.head d) ∧
       join32 (le32 raw' 0x6C) (le32 raw' 0x04) = 60 + zlen (InlineDir.continuation d)).
Proof.
  intros Hx H0 H56 Hpar Hcont. unfold InlineDir.store in H0.
  apply bind_ok_inv in H0 as ([start stop] & Ha & H0). apply ok_or_ok in Ha.
  pose proof (attr_area_range raw isz start stop ltac:(lia) Ha) as (H3 & H4 & H5 & H6 & H7).
  pose proof (zlen_nonneg (InlineDir.continuation d)). unfold u16_max in Hcont.
  rewrite slice_ok in H0 by lia. cbn [mbind res_bind] in H0. apply bind_ok_inv in H0 as ([o region] & Hp & H0).
  exists start, stop, o, region. split; [done|]. split; [done|]. intros Hz.
  rewrite put_ok in H0 by lia. cbn [mbind res_bind] in H0. set (raw1 := splice raw start region) in *.
  assert (Z1 : zlen raw1 = zlen raw) by (unfold raw1; rewrite zlen_splice; lia).
  rewrite put_u32_ok in H0 by lia. cbn [mbind res_bind] in H0. set (raw2 := splice raw1 _ _) in *.
  assert (Z2 : zlen raw2 = zlen raw) by (unfold raw2; rewrite zlen_splice; rewrite ?zlen_le_split; lia).
  unfold DIR_HEAD in *. rewrite put_ok in H0 by lia. cbn [mbind res_bind] in H0. set (raw3 := splice raw2 _ _) in *.
  assert (Z3 : zlen raw3 = zlen raw) by (unfold raw3; rewrite zlen_splice; lia).
  unfold I_BLOCK_LEN in H0. cbv zeta in H0. set (size := 60 + zlen (InlineDir.continuation d)) in *.
  assert (Elo : as_u32 size = size) by (unfold as_u32; apply Z.mod_small; lia).
  assert (Ehi : as_u32 (Z.shiftr size 32) = 0).
  { rewrite Z.shiftr_div_pow2 by lia. rewrite Z.div_small by lia. reflexivity. }
  rewrite Elo, Ehi in H0. rewrite put_u32_ok in H0 by lia. cbn [mbind res_bind] in H0. set (raw4 := splice raw3 _ _) in *.
  assert (Z4 : zlen raw4 = zlen raw) by (unfold raw4; rewrite zlen_splice; rewrite ?zlen_le_split; lia).
  rewrite put_u32_ok in H0 by lia. injection H0 as <-. set (raw5 := splice raw4 _ _).
  assert (Z5 : zlen raw5 = zlen raw) by (unfold raw5; rewrite zlen_splice; rewrite ?zlen_le_split; lia).
  assert (L4 : ∀ n v, zlen (le_split n v) = Z.of_nat n) by (intros; apply zlen_le_split).
  split; [|split; [|split]].
  - repeat (eapply same_tail_trans; [|apply same_tail_splice; rewrite ?zlen_le_split; lia]). done.
  - rewrite u32_le_ok by lia. f_equal. unfold raw5. rewrite le32_splice_ne by (rewrite ?L4; lia).
    unfold raw4. rewrite le32_splice_ne by (rewrite ?L4; lia). unfold raw3. rewrite le32_splice_ne by lia.
    unfold raw2. apply le32_splice; [lia|lia|done].
  - rewrite slice_ok by lia. f_equal. unfold raw5. rewrite sub_splice_disjoint by (rewrite ?L4; lia).
    unfold raw4. rewrite sub_splice_disjoint by (rewrite ?L4; lia). unfold raw3. apply sub_splice_same_len; lia.
  - unfold raw5. rewrite le32_splice by lia. rewrite le32_splice_ne by (rewrite ?L4; lia).
    unfold raw4. rewrite le32_splice by lia. unfold join32. rewrite Z.shiftl_0_l, Z.lor_0_l. done.
Qed.

(** C30: an entry added to an inline directory is listed after a store.  On a
    readable inode image, the directory loaded from what was stored is the
    directory edited, and a readdir of the image answers "." and "..", the
    entries there were, and the new one among them. *)
Theorem inline_dir_add_reads_back dev inode raw isz bs hft es d ds ino nm ty d' raw' dir_ino :
  readable dev inode raw isz bs es → dir_ok hft d ds → InlineDir.parent d ≠ 0 →
  zlen (InlineDir.continuation d) ≤ u16_max → 0 < ino < 2 ^ 32 → bytes_ok nm → 1 ≤ zlen nm ≤ 255 →
  InlineDir.add d ino nm ty hft = Ok (true, d') → InlineDir.store d' raw isz = Ok raw' →
  Inode.block inode = sub raw' I_BLOCK 60 → Inode.size inode = join32 (le32 raw' 0x6C) (le32 raw' 0x04) →
  InlineDir.load dev inode raw' isz bs = Ok d' ∧
  ∃ ds1 ds2, ds = ds1 ++ ds2 ∧
    read_dir dev dir_ino inode raw' isz bs hft =
      Ok ([DirEntry.mk dir_ino (lit ".") Directory; DirEntry.mk (InlineDir.parent d) (lit "..") Directory] ++
          ds1 ++ DirEntry.mk ino nm (if hft then ty else Unknown) :: ds2).
Proof.
  intros Hr Hd Hpne Hc Hi Hb Hn Hadd Hst Hblk Hsz. pose proof (add_spec hft d ds ino nm ty Hd Hi Hb Hn) as Ha. rewrite Hadd in Ha.
  destruct Ha as (Hpar & Hcz & ds1 & ds2 & -> & Hd'). pose proof Hd' as (H56 & Hp & ch & cc & E1 & E2 & Hd1 & Hd2 & Ees).
  destruct (dir_store_image d' raw isz raw' (rd_extra _ _ _ _ _ _ Hr) Hst H56 Hp ltac:(lia)) as (start & stop & o & region & Har & Hps & Himg).
  destruct (data_set _ _ _ _ _ _ _ _ _ _ _ Hr Har Hps) as (Hz & Hset). destruct (Himg Hz) as (Ht & Epar & Ehead & Esize).
  destruct (Hset raw' Ht) as (Hdata & _). rewrite Esize in Hsz. pose proof (zlen_nonneg (InlineDir.continuation d')).
  assert (Hcont : dir_continuation dev inode raw' isz bs = Ok (InlineDir.continuation d')).
  { unfold dir_continuation. rewrite Hsz. unfold INLINE_BLOCK_SIZE. case_decide.
    - destruct (InlineDir.continuation d'); [done|rewrite zlen_cons in *; pose proof (zlen_nonneg l); lia].
    - rewrite Hdata. cbn [ok_or mbind res_bind]. rewrite decide_False by lia. f_equal. apply sub_all. lia. }
  split.
  - unfold InlineDir.load. rewrite Hcont. cbn [mbind res_bind]. rewrite Epar. cbn [mbind res_bind]. rewrite Ehead. by destruct d'.
  - exists ds1, ds2. split; [done|]. unfold read_dir. rewrite Hcont. cbn [mbind res_bind]. unfold InlineData.dir_entries.
    rewrite Hblk. apply slice_inv in Ehead as (_ & _ & Hz60 & Eh). unfold DIR_HEAD, I_BLOCK in *.
    rewrite u32_le_ok by zl. cbn [mbind res_bind].
    assert (El : le32 (sub raw' 40 60) 0 = InlineDir.parent d').
    { rewrite u32_le_ok in Epar by lia. injection Epar as Epar. unfold le32 in *. rewrite sub_sub by lia. exact Epar. }
    rewrite El, decide_False by (rewrite Hpar; done). unfold INLINE_DOTDOT_SIZE. rewrite slice_ok by zl. cbn [mbind res_bind].
    assert (Eb : sub (sub raw' 40 60) 4 (zlen (sub raw' 40 60) - 4) = InlineDir.head d').
    { replace (zlen (sub raw' 40 60)) with 60 by zl. rewrite sub_sub by lia. symmetry. exact Eh. }
    rewrite Eb, E1, parse_area by done. cbn [mbind res_bind]. rewrite E2, parse_area by done. cbn [mbind res_bind].
    rewrite <-Ees, Hpar. done.
Qed.

(** ** Witnesses *)

(** A 256-byte inode with 32 extra bytes and an empty attribute area, of size
    [size]; [head] is what [i_block] holds. *)
Definition sample_inline (size : Z) (head : bytes) : bytes :=
  splice (splice (splice (splice (splice (zrep 256 0) 0x04 (le_split 4 size)) 0x20 (le_split 4 InodeFlags.INLINE_DATA))
    I_BLOCK head) 0x80 (le_split 2 32)) 160 (le_split 4 EXT4_XATTR_MAGIC).

Definition no_device : reader := image_reader [].

Lemma sample_inline_readable inode size head : bytes_ok (sample_inline size head) → zlen (sample_inline size head) = 256 →
  Inode.file_acl inode = 0 → le16 (sample_inline size head) 0x80 = 32 → attributes (sample_inline size head) 256 = Ok [] →
  readable no_device inode (sample_inline size head) 256 4096 [].
Proof. intros Hb Hz Ha Hx He. constructor; [split; [done|lia]|lia|done|constructor|constructor|constructor|by left]. Qed.

Lemma store_reads_back_witness : ∃ raw' inode,
  store (sample_inline 100 (zrep 60 7)) 256 (seqZ 0 100) = Ok raw' ∧ Inode.parse raw' = Ok inode ∧
  InlineData.read_all no_device inode raw' 256 4096 = Ok (seqZ 0 100).
Proof.
  destruct (store (sample_inline 100 (zrep 60 7)) 256 (seqZ 0 100)) as [raw'|e| |] eqn:E; try (vm_compute in E; discriminate E).
  destruct (Inode.parse raw') as [inode|e| |] eqn:Ei; try (vm_compute in E; injection E as <-; vm_compute in Ei; discriminate Ei).
  exists raw', inode. split; [reflexivity|]. split; [exact Ei|].
  assert (Hi : Inode.block inode = sub raw' I_BLOCK 60 ∧ Inode.size inode = 100 ∧ Inode.file_acl inode = 0).
  { vm_compute in E. injection E as <-. vm_compute in Ei. injection Ei as <-. vm_compute. auto. }
  destruct Hi as (Hblk & Hsz & Hacl).
  destruct (store_reads_back no_device inode (sample_inline 100 (zrep 60 7)) 256 4096 [] (seqZ 0 100) raw') as [Hr _].
  - apply sample_inline_readable; [by_compute|reflexivity|exact Hacl|reflexivity|vm_compute; reflexivity].
  - exact E.
  - exact Hblk.
  - rewrite Hsz. reflexivity.
  - exact Hr.
Defined.

(** An empty directory whose parent is inode 2. *)
Definition sample_empty_dir : InlineDir.t := InlineDir.mk 2 (le_split 4 0 ++ le_split 2 56 ++ zrep 50 0) [].

Lemma inline_dir_add_reads_back_witness : ∃ d' raw' inode,
  InlineDir.add sample_empty_dir 11 (lit "a") RegFile true = Ok (true, d') ∧
  InlineDir.store d' (sample_inline 60 (zrep 60 0)) 256 = Ok raw' ∧ Inode.parse raw' = Ok inode ∧
  InlineDir.load no_device inode raw' 256 4096 = Ok d'.
Proof.
  destruct (InlineDir.add sample_empty_dir 11 (lit "a") RegFile true) as [[b d']|e| |] eqn:Ea; try (vm_compute in Ea; discriminate Ea).
  assert (b = true) as -> by (vm_compute in Ea; injection Ea as <- _; reflexivity).
  destruct (InlineDir.store d' (sample_inline 60 (zrep 60 0)) 256) as [raw'|e| |] eqn:E;
    try (vm_compute in Ea; injection Ea as <-; vm_compute in E; discriminate E).
  destruct (Inode.parse raw') as [inode|e| |] eqn:Ei;
    try (vm_compute in Ea; injection Ea as <-; vm_compute in E; injection E as <-; vm_compute in Ei; discriminate Ei).
  assert (Hi : Inode.block inode = sub raw' I_BLOCK 60 ∧ Inode.size inode = join32 (le32 raw' 0x6C) (le32 raw' 0x04) ∧ Inode.file_acl inode = 0).
  { vm_compute in Ea. injection Ea as <-. vm_compute in E. injection E as <-. vm_compute in Ei. injection Ei as <-. vm_compute. auto. }
  destruct Hi as (Hblk & Hsz & Hacl). exists d', raw', inode. do 3 (split; [assumption||reflexivity|]).
  destruct (inline_dir_add_reads_back no_device inode (sample_inline 60 (zrep 60 0)) 256 4096 true [] sample_empty_dir [] 11 (lit "a") RegFile d' raw' 12)
    as [Hl _].
  - apply sample_inline_readable; [by_compute|reflexivity|exact Hacl|reflexivity|vm_compute; reflexivity].
  - split; [reflexivity|]. split; [by_compute|]. exists [InlineDir.head sample_empty_dir], [].
    split; [reflexivity|]. split; [reflexivity|]. split; [by_compute|]. split; [by_compute|reflexivity].
  - discriminate.
  - vm_compute. discriminate.
  - lia.
  - by_compute.
  - vm_compute. split; discriminate.
  - exact Ea.
  - exact E.
  - exact Hblk.
  - exact Hsz.
  - exact Hl.
Defined.
