(* ===== verification/Htree.v ===== *)
(** Htree: looking a name up in a hashed directory (src/src/htree.rs): the
    root's info, the dx entry arrays and the descent to a leaf. *)
From S2P Require Import Prelude Errors Bytes Hash.

Definition DX_ROOT_RESERVED_ZERO : Z := 0.

Module DxRootInfo.
Record t := mk {
  reserved_zero : Z; hash_version : HashVersion; info_length : Z; indirect_levels : Z; unused_flags : Z
}.
End DxRootInfo.

Module DxCountLimit.
Record t := mk { limit : Z; count : Z }.
Definition parse (buf : bytes) : res t :=
  if decide (zlen buf < 4) then Err (Corrupt "dx count_limit buffer too small") else
  limit ← u16_le buf 0; count ← u16_le buf 2; Ok (mk limit count).
End DxCountLimit.

Module DxEntry.
Record t := mk { hash : Z; block : Z }.
Definition SIZE : Z := 8.
Definition parse (buf : bytes) : res t :=
  if decide (zlen buf < SIZE) then Err (Corrupt "dx entry buffer too small") else
  hash ← u32_le buf 0; block ← u32_le buf 4; Ok (mk hash block).
End DxEntry.

Definition parse_root_info (block : bytes) : res DxRootInfo.t :=
  if decide (zlen block < 32) then Err (Corrupt "dx root block too small") else
  reserved ← u32_le block 24;
  if decide (reserved ≠ DX_ROOT_RESERVED_ZERO) then Err (Corrupt "dx root reserved must be 0") else
  hash_version_byte ← get block 28;
  hash_version ← ok_or (HashVersion.from_u8 hash_version_byte) (Corrupt "unknown htree hash version");
  info_length ← get block 29;
  indirect_levels ← get block 30;
  unused_flags ← get block 31;
  Ok (DxRootInfo.mk reserved hash_version info_length indirect_levels unused_flags).

(** One entry of the array that starts at [start]. *)
Definition entry_at (block : bytes) (start i : Z) : res DxEntry.t :=
  s ← slice block (start + i * DxEntry.SIZE) DxEntry.SIZE; DxEntry.parse s.

Definition parse_entries_from (block : bytes) (start : Z) (cl : DxCountLimit.t)
    : res (DxCountLimit.t * list DxEntry.t) :=
  if decide (DxCountLimit.count cl = 0) then Err (Corrupt "dx node has zero entries") else
  if decide (DxCountLimit.limit cl < DxCountLimit.count cl) then Err (Corrupt "dx count > limit") else
  if decide (zlen block < start + DxCountLimit.count cl * DxEntry.SIZE)
  then Err (Corrupt "dx entries overflow block") else
  out ← traverse (entry_at block start) (seqZ 0 (DxCountLimit.count cl));
  Ok (cl, out).

(** Slot 0's hash field holds the count and limit. *)
Definition zero_first (entries : list DxEntry.t) : list DxEntry.t :=
  match entries with
  | [] => []
  | e :: entries => DxEntry.mk 0 (DxEntry.block e) :: entries
  end.

Definition parse_root_entries (block : bytes) : res (DxCountLimit.t * list DxEntry.t) :=
  info ← parse_root_info block;
  let cl_offset := 24 + DxRootInfo.info_length info in
  if decide (zlen block < cl_offset + 4) then Err (Corrupt "dx root count_limit out of range") else
  s ← slice block cl_offset 4;
  cl ← DxCountLimit.parse s;
  '(cl, entries) ← parse_entries_from block cl_offset cl;
  Ok (cl, zero_first entries).

Definition parse_node_entries (block : bytes) : res (DxCountLimit.t * list DxEntry.t) :=
  if decide (zlen block < 8 + 4) then Err (Corrupt "dx node block too small") else
  s ← slice block 8 4;
  cl ← DxCountLimit.parse s;
  '(cl, entries) ← parse_entries_from block 8 cl;
  Ok (cl, zero_first entries).

(** The scan over the entries after the first. *)
Fixpoint find_loop (chosen : DxEntry.t) (es : list DxEntry.t) (target : Z) : DxEntry.t :=
  match es with
  | [] => chosen
  | e :: es => if decide (DxEntry.hash e ≤ target) then find_loop e es target else chosen
  end.

Definition find_entry_for_hash (entries : list DxEntry.t) (target : Z) : res DxEntry.t :=
  match entries with
  | [] => Panic
  | e :: es => Ok (find_loop e es target)
  end.

Section lookup.
Context (read_dx_block : Z → res bytes).

Definition target_hash (name root_block : bytes) (hash_seed : list Z) : res NameHash :=
  info ← parse_root_info root_block;
  Ok (name_hash name (DxRootInfo.hash_version info) hash_seed).

(** The descent through the intermediate nodes. *)
Fixpoint descend (levels : nat) (target hash : Z) : res (option Z) :=
  match levels with
  | O => Ok (Some target)
  | S levels =>
      block ← read_dx_block target;
      '(_, entries) ← parse_node_entries block;
      if decide (entries = []) then Ok None else
      e ← find_entry_for_hash entries hash;
      descend levels (DxEntry.block e) hash
  end.

Definition lookup_leaf_with (name root_block : bytes) (hash_seed : list Z) (unsigned_hash : bool)
    : res (option Z) :=
  info ← parse_root_info root_block;
  let version := effective_version (DxRootInfo.hash_version info) unsigned_hash in
  let hash := name_hash name version hash_seed in
  '(_, entries) ← parse_root_entries root_block;
  if decide (entries = []) then Ok None else
  e ← find_entry_for_hash entries (major hash);
  descend (Z.to_nat (DxRootInfo.indirect_levels info)) (DxEntry.block e) (major hash).

Definition lookup_leaf (name root_block : bytes) (hash_seed : list Z) : res (option Z) :=
  lookup_leaf_with name root_block hash_seed false.
End lookup.
