(* ===== verification/HtreeMut.v ===== *)
(** HtreeMut: splitting a leaf of a hashed directory and routing to the new
    leaf (src/src/htree_mut.rs).  The composition with Htree.v: after a split,
    a lookup still reaches the leaf that holds the name. *)
From Stdlib Require Import Sorting.Sorted.
From S2P Require Import Prelude Errors Bytes Device Features Superblock Checksum Inode Dir Hash Htree.

Inductive HtreeMutation :=
  | WriteDirBlock (logical_block : Z) (bs : bytes)
  | AppendNewDirBlock (bs : bytes).

Record LeafSplit := mkSplit { left_bytes : bytes; right_bytes : bytes; split_out_hash : Z }.

(** ** Reading a leaf *)

(** [(x + 3) & !3] *)
Definition pad4 (x : Z) : Z := Z.land (x + 3) (Z.lnot 3).

Fixpoint read_leaf_loop (fuel : nat) (leaf : bytes) (has_file_type : bool) (version : HashVersion)
    (seed : list Z) (usable off : Z) (out : list (NameHash * bytes)) : res (list (NameHash * bytes)) :=
  match fuel with
  | O => OutOfFuel
  | S fuel =>
      if decide (usable < off + 8) then Ok out else
      cur_inode ← u32_le leaf off;
      rec_len ← u16_le leaf (off + 4);
      if decide (rec_len < 8 ∨ rec_len mod 4 ≠ 0 ∨ usable < off + rec_len)
      then Err (CorruptDirEntry "bad rec_len during htree leaf split") else
      out ← (if decide (cur_inode ≠ 0) then
               name_len_lo ← get leaf (off + 6);
               type_or_hi ← get leaf (off + 7);
               let name_len := join_name_len has_file_type name_len_lo type_or_hi in
               if decide (rec_len < 8 + name_len)
               then Err (CorruptDirEntry "name overflows rec_len in htree split") else
               name ← slice leaf (off + 8) name_len;
               let h := name_hash name version seed in
               let padded := 8 + pad4 name_len in
               header ← slice leaf off 8;
               entry_bytes ← put (zrep padded 0) 0 header;
               entry_bytes ← put entry_bytes 8 name;
               Ok (out ++ [(h, entry_bytes)])
             else Ok out);
      read_leaf_loop fuel leaf has_file_type version seed usable (off + rec_len) out
  end.

Definition read_leaf_entries (leaf : bytes) (has_file_type : bool) (version : HashVersion)
    (seed : list Z) (reserved_tail : Z) : res (list (NameHash * bytes)) :=
  usable ← ok_or (checked_sub (zlen leaf) reserved_tail) OutOfBounds;
  read_leaf_loop (S (length leaf)) leaf has_file_type version seed usable 0 [].

(** ** Writing a leaf *)

(** The entries still to write; the last takes the rest of the usable bytes. *)
Fixpoint write_packed_loop (entries : list bytes) (out : bytes) (off usable : Z) : res bytes :=
  match entries with
  | [] => Ok out
  | raw :: rest =>
      let is_last := match rest with [] => true | _ => false end in
      let padded := zlen raw in
      if decide (usable < off + padded) then Err OutOfBounds else
      let rec_len := if is_last then usable - off else padded in
      out ← put out off raw;
      out ← put out (off + 4) (le_split 2 (as_u16 rec_len));
      write_packed_loop rest out (off + rec_len) usable
  end.

Definition write_packed_leaf (entries : list bytes) (block_size reserved_tail : Z) : res bytes :=
  usable ← ok_or (checked_sub block_size reserved_tail) OutOfBounds;
  write_packed_loop entries (zrep block_size 0) 0 usable.

(** ** The split *)

(** [sort_by_key], which is stable. *)
Fixpoint insert_by {A} (key : A → Z) (x : A) (l : list A) : list A :=
  match l with
  | [] => [x]
  | y :: l' => if decide (key x ≤ key y) then x :: l else y :: insert_by key x l'
  end.
Definition sort_by_key {A} (key : A → Z) (l : list A) : list A := foldr (insert_by key) [] l.

Definition entry_major (e : NameHash * bytes) : Z := major (fst e).

(** A cut point: not between two names of the same hash. *)
Definition cut_ok (majors : list Z) (m : Z) : bool :=
  bool_decide (0 < m) && bool_decide (m < zlen majors) &&
  match majors !! Z.to_nat (m - 1), majors !! Z.to_nat m with
  | Some a, Some b => bool_decide (a ≠ b)
  | _, _ => false
  end.

(** The candidates, from the midpoint outwards. *)
Definition candidates (n : Z) : list Z :=
  let half := n / 2 in
  concat ((λ d, [half + d; as_u64 (half - d)]) <$> seqZ 0 n).

Definition plan_leaf_split (leaf : bytes) (version : HashVersion) (seed : list Z) (has_file_type : bool)
    (block_size reserved_tail : Z) : res LeafSplit :=
  entries ← read_leaf_entries leaf has_file_type version seed reserved_tail;
  if decide (zlen entries < 2)
  then Err (Corrupt "htree leaf split needs >=2 entries; caller's overflow may be spurious") else
  let entries := sort_by_key entry_major entries in
  mid ← ok_or (List.find (cut_ok (entry_major <$> entries)) (candidates (zlen entries)))
          (Corrupt "htree leaf split: every name in the leaf has the same hash");
  at_mid ← unwrap (entries !! Z.to_nat mid);
  let left := take (Z.to_nat mid) entries in
  let right := drop (Z.to_nat mid) entries in
  left_bytes ← write_packed_leaf (snd <$> left) block_size reserved_tail;
  right_bytes ← write_packed_leaf (snd <$> right) block_size reserved_tail;
  Ok (mkSplit left_bytes right_bytes (entry_major at_mid)).

(** ** Routing to the new leaf *)

(** [Vec::insert] at the position of the first later hash past slot 0. *)
Fixpoint insert_after (e : DxEntry.t) (l : list DxEntry.t) : list DxEntry.t :=
  match l with
  | [] => [e]
  | x :: l' => if decide (DxEntry.hash e < DxEntry.hash x) then e :: l else x :: insert_after e l'
  end.

Definition checked_entry_at (block : bytes) (cl_offset i : Z) : res DxEntry.t :=
  let off := cl_offset + i * DxEntry.SIZE in
  if decide (zlen block < off + DxEntry.SIZE) then Err (Corrupt "dx entries overrun block") else
  s ← slice block off DxEntry.SIZE; DxEntry.parse s.

Definition write_dx_entry (cl_offset : Z) (out : bytes) (ie : Z * DxEntry.t) : res bytes :=
  let '(i, e) := ie in
  let off := cl_offset + i * DxEntry.SIZE in
  out ← (if decide (0 < i) then put_u32 out off (DxEntry.hash e) else Ok out);
  put_u32 out (off + 4) (DxEntry.block e).

Definition plan_insert_dx_entry_generic (block : bytes) (cl_offset new_hash new_block : Z) : res bytes :=
  if decide (zlen block < cl_offset + DxEntry.SIZE) then Err (Corrupt "dx cl_offset out of range") else
  s ← slice block cl_offset 4;
  cl ← DxCountLimit.parse s;
  if decide (DxCountLimit.limit cl ≤ DxCountLimit.count cl)
  then Err (CorruptExtentTree "NEEDS_PARENT_SPLIT: dx node full") else
  if decide (DxCountLimit.count cl = 0) then Err (Corrupt "dx node has zero entries") else
  entries ← traverse (checked_entry_at block cl_offset) (seqZ 0 (DxCountLimit.count cl));
  let entries := zero_first entries in
  if existsb (λ e, bool_decide (DxEntry.hash e = new_hash)) (tail entries)
  then Err (CorruptExtentTree "duplicate dx hash insert") else
  let entries := take 1 entries ++ insert_after (DxEntry.mk new_hash new_block) (tail entries) in
  if decide (zlen block < cl_offset + zlen entries * DxEntry.SIZE)
  then Err (Corrupt "dx serialized entries exceed block") else
  out ← foldM (write_dx_entry cl_offset) block (zip (seqZ 0 (zlen entries)) entries);
  put_u16 out (cl_offset + 2) (DxCountLimit.count cl + 1).

Definition plan_insert_dx_entry_root (root_bytes : bytes) (cl_offset new_hash new_block : Z) : res bytes :=
  plan_insert_dx_entry_generic root_bytes cl_offset new_hash new_block.

Definition plan_insert_dx_entry_node (node_bytes : bytes) (new_hash new_block : Z) : res bytes :=
  plan_insert_dx_entry_generic node_bytes 8 new_hash new_block.

(** ** Sorting and cutting *)

Section sort.
Context {A : Type} (key : A → Z).

Lemma insert_by_perm x l : insert_by key x l ≡ₚ x :: l.
Proof.
  induction l as [|y l IH]; [done|]. cbn [insert_by]. case_decide; [done|]. rewrite IH. apply Permutation_swap.
Qed.

Lemma sort_by_key_perm l : sort_by_key key l ≡ₚ l.
Proof. induction l as [|x l IH]; [done|]. unfold sort_by_key in *. cbn [foldr]. by rewrite insert_by_perm, IH. Qed.

Definition ordered (l : list A) : Prop := StronglySorted (λ x y, key x ≤ key y) l.

Lemma insert_by_ordered x l : ordered l → ordered (insert_by key x l).
Proof.
  induction 1 as [|y l Hl IH Hy]; [by repeat constructor|]. cbn [insert_by]. case_decide as Hd.
  - constructor; [by constructor|]. constructor; [done|]. eapply Forall_impl; [exact Hy|]. cbn. lia.
  - constructor; [done|]. rewrite insert_by_perm. constructor; [lia|done].
Qed.

Lemma sort_by_key_ordered l : ordered (sort_by_key key l).
Proof. induction l as [|x l IH]; [constructor|]. by apply insert_by_ordered. Qed.

(** An ordered list cut between two different keys. *)
Lemma ordered_cut l m a b : ordered l → l !! m = Some a → l !! S m = Some b → key a ≠ key b →
  Forall (λ x, key x < key b) (take (S m) l) ∧ Forall (λ x, key b ≤ key x) (drop (S m) l).
Proof.
  intros Ho Ha Hb Hne.
  assert (Hle : ∀ i k x y, (i ≤ k)%nat → l !! i = Some x → l !! k = Some y → key x ≤ key y).
  { clear - Ho. induction Ho as [|z l Hl IH Hz]; intros i k x y Hik Hx Hy; [done|].
    destruct i as [|i], k as [|k]; [..|lia|].
    - rewrite Hx in Hy. injection Hy as ->. lia.
    - injection Hx as ->. rewrite Forall_forall in Hz. apply Hz. by eapply list_elem_of_lookup_2.
    - apply (IH i k); [lia|done|done]. }
  split; apply Forall_lookup; intros i x Hx.
  - apply lookup_take_Some in Hx as [Hx Hi]. pose proof (Hle i m x a ltac:(lia) Hx Ha).
    pose proof (Hle m (S m) a b ltac:(lia) Ha Hb). lia.
  - rewrite lookup_drop in Hx. apply (Hle (S m) (S m + i)%nat); [lia|done|done].
Qed.
End sort.

Lemma find_some_spec {A} (f : A → bool) l x : List.find f l = Some x → f x = true ∧ x ∈ l.
Proof. intros E. apply find_some in E as [H1 H2]. by rewrite list_elem_of_In. Qed.

Lemma candidates_cover n m : 0 < m < n → n < 2 ^ 63 → m ∈ candidates n.
Proof.
  intros Hm Hn. unfold candidates. set (half := n / 2).
  assert (Hh : 0 ≤ half ≤ n / 2) by (split; [apply Z.div_pos; lia|done]).
  assert (2 * (n / 2) ≤ n) by (apply Z.mul_div_le; lia).
  apply list_elem_of_In, in_concat. destruct (decide (half ≤ m)).
  - exists [half + (m - half); as_u64 (half - (m - half))]. split; [|left; lia].
    apply list_elem_of_In, list_elem_of_fmap. exists (m - half). split; [done|]. apply elem_of_seqZ. lia.
  - exists [half + (half - m); as_u64 (half - (half - m))]. split.
    + apply list_elem_of_In, list_elem_of_fmap. exists (half - m). split; [done|]. apply elem_of_seqZ. lia.
    + right. left. replace (half - (half - m)) with m by lia. unfold as_u64. apply Z.mod_small. lia.
Qed.

(** The search fails only when every hash is the same. *)
Lemma no_cut majors : zlen majors < 2 ^ 63 →
  List.find (cut_ok majors) (candidates (zlen majors)) = None → ∀ a b, a ∈ majors → b ∈ majors → a = b.
Proof.
  intros Hn Hf.
  assert (Hadj : ∀ i a b, majors !! i = Some a → majors !! S i = Some b → a = b).
  { intros i a b Ha Hb. pose proof (lookup_lt_Some _ _ _ Hb) as Hlt.
    assert (Hin : Z.of_nat (S i) ∈ candidates (zlen majors)) by (apply candidates_cover; unfold zlen in *; lia).
    apply list_elem_of_In in Hin. pose proof (find_none _ _ Hf _ Hin) as Hc. unfold cut_ok in Hc.
    rewrite !bool_decide_true in Hc by (unfold zlen; lia). cbn [andb] in Hc.
    replace (Z.to_nat (Z.of_nat (S i) - 1)) with i in Hc by lia. rewrite Nat2Z.id, Ha, Hb in Hc.
    destruct (decide (a = b)) as [|Hne]; [done|]. by rewrite bool_decide_true in Hc. }
  assert (Hall : ∀ i a b, majors !! 0%nat = Some a → majors !! i = Some b → a = b).
  { induction i as [|i IH]; intros a b Ha Hb; [congruence|].
    destruct (lookup_lt_is_Some_2 majors i) as [x Hx]; [apply lookup_lt_Some in Hb; lia|].
    transitivity x; [by apply IH|by apply (Hadj i)]. }
  intros a b [i Ha]%list_elem_of_lookup [k Hb]%list_elem_of_lookup.
  destruct (lookup_lt_is_Some_2 majors 0) as [x Hx]; [apply lookup_lt_Some in Ha; lia|].
  rewrite <-(Hall i x a), <-(Hall k x b) by done. done.
Qed.

(** ** Reading and packing records *)

Section pack.
Context (hft : bool) (version : HashVersion) (seed : list Z).
Local Abbreviation nlen := (chunk_name_len hft).

Definition live (c : bytes) : Prop := le32 c 0 ≠ 0.

(** The bytes kept of a live record, and what [read_leaf_entries] makes of it. *)
Definition raw_of (c : bytes) : bytes :=
  splice (splice (zrep (8 + pad4 (nlen c)) 0) 0 (sub c 0 8)) 8 (sub c 8 (nlen c)).
Definition item_of (c : bytes) : NameHash * bytes := (name_hash (sub c 8 (nlen c)) version seed, raw_of c).

Lemma live_bounds c : chunk_ok hft c → live c →
  1 ≤ nlen c ∧ 8 + nlen c ≤ zlen c ∧ 8 + nlen c ≤ 8 + pad4 (nlen c) ≤ zlen c ∧ (8 + pad4 (nlen c)) mod 4 = 0.
Proof.
  intros (Hb & Hl & H4 & Hr & Hlive & _) Hc. destruct (Hlive Hc) as [H1 H2].
  destruct (entry_rec_len_spec (nlen c)) as [He He4]; [lia|].
  change (entry_rec_len (nlen c)) with (8 + pad4 (nlen c)) in *.
  split; [done|]. split; [done|]. split; [|done]. split; [lia|].
  apply Z.mod_divide in He4 as [x Hx]; [|lia]. apply Z.mod_divide in H4 as [y Hy]; [|lia]. lia.
Qed.

Lemma zlen_raw c : chunk_ok hft c → live c → zlen (raw_of c) = 8 + pad4 (nlen c).
Proof.
  intros Hc Hl. destruct (live_bounds c Hc Hl) as (H1 & H2 & H3 & _). unfold raw_of.
  rewrite !zlen_splice; zl.
Qed.

Lemma read_record pre c post usable out : chunk_ok hft c → zlen pre + zlen c ≤ usable → ∀ fuel,
  read_leaf_loop (S fuel) (pre ++ c ++ post) hft version seed usable (zlen pre) out =
  read_leaf_loop fuel ((pre ++ c) ++ post) hft version seed usable (zlen (pre ++ c))
    (out ++ (if decide (live c) then [item_of c] else [])).
Proof.
  intros Hc Hu fuel. destruct (at_chunk hft pre c post Hc) as (E0 & E4 & E6 & E7 & El). cbn [read_leaf_loop].
  pose proof (zlen_nonneg pre). pose proof (proj2 (chunk_ok_bytes hft c Hc)) as Hl8.
  assert (H4 : zlen c mod 4 = 0) by (by destruct Hc as (_ & _ & ? & _)).
  rewrite decide_False by lia. rewrite E0, E4, !bind_Ok. rewrite decide_False by lia.
  rewrite <-app_assoc, zlen_app. unfold live at 1. destruct (decide (le32 c 0 = 0)) as [Hz|Hz].
  { rewrite (decide_False (P := le32 c 0 ≠ 0)) by lia. rewrite bind_Ok. by rewrite decide_False, app_nil_r by (intros ?; done). }
  rewrite (decide_True (P := le32 c 0 ≠ 0)) by done. rewrite E6, E7, !bind_Ok. fold (nlen c).
  destruct (live_bounds c Hc Hz) as (H1 & H2 & H3 & _).
  rewrite decide_False by lia. rewrite !slice_mid by lia. rewrite bind_Ok.
  replace (slice (pre ++ c ++ post) (zlen pre) 8) with (slice (pre ++ c ++ post) (zlen pre + 0) 8) by (f_equal; lia).
  rewrite slice_mid, bind_Ok by lia. rewrite put_ok, bind_Ok by zl. rewrite put_ok, bind_Ok by zl.
  rewrite bind_Ok. by rewrite decide_True.
Qed.

Lemma read_leaf_loop_spec todo rest : Forall (chunk_ok hft) todo → ∀ fuel pre out,
  (length todo < fuel)%nat →
  read_leaf_loop fuel (pre ++ concat todo ++ rest) hft version seed (zlen pre + zlen (concat todo)) (zlen pre) out
  = Ok (out ++ (item_of <$> filter live todo)).
Proof.
  induction 1 as [|c todo Hc Hall IH]; intros fuel pre out Hf; (destruct fuel as [|fuel]; [simpl in Hf; lia|]).
  { cbn [read_leaf_loop concat]. change (zlen (@nil Z)) with 0. rewrite decide_True by lia. by rewrite app_nil_r. }
  cbn [concat]. rewrite zlen_app, <-app_assoc. pose proof (zlen_nonneg (concat todo)).
  rewrite read_record by (done || lia). specialize (IH fuel (pre ++ c)).
  replace (zlen pre + (zlen c + zlen (concat todo))) with (zlen (pre ++ c) + zlen (concat todo)) by zl.
  rewrite IH by (simpl in Hf; lia). rewrite filter_cons. rewrite <-app_assoc. by case_decide.
Qed.

Lemma read_leaf_entries_spec chunks rest : Forall (chunk_ok hft) chunks →
  read_leaf_entries (concat chunks ++ rest) hft version seed (zlen rest) = Ok (item_of <$> filter live chunks).
Proof.
  intros Hc. unfold read_leaf_entries, checked_sub. pose proof (zlen_nonneg (concat chunks)). rewrite zlen_app.
  rewrite decide_True by lia. cbn [ok_or]. rewrite bind_Ok.
  replace (zlen (concat chunks) + zlen rest - zlen rest) with (zlen (@nil Z) + zlen (concat chunks)) by (rewrite zlen_nil; lia).
  apply (read_leaf_loop_spec chunks rest Hc _ [] []).
  pose proof (length_concat_chunks hft chunks Hc). rewrite length_app. lia.
Qed.

(** A kept record written back with length [rl]. *)
Definition finalize (raw : bytes) (rl : Z) : bytes := splice raw 4 (le_split 2 rl) ++ zrep (rl - zlen raw) 0.

Fixpoint pack_all (raws : list bytes) (room : Z) : list bytes :=
  match raws with
  | [] => []
  | [raw] => [finalize raw room]
  | raw :: rest => finalize raw (zlen raw) :: pack_all rest (room - zlen raw)
  end.

Lemma finalize_spec c rl : chunk_ok hft c → live c → 8 + pad4 (nlen c) ≤ rl < 2 ^ 16 → rl mod 4 = 0 →
  chunk_ok hft (finalize (raw_of c) rl) ∧ zlen (finalize (raw_of c) rl) = rl ∧
  chunk_entry hft (finalize (raw_of c) rl) = chunk_entry hft c.
Proof.
  intros Hc Hl Hrl H4. destruct (live_bounds c Hc Hl) as (H1 & H2 & H3 & _).
  pose proof (zlen_raw c Hc Hl) as Hz. pose proof (chunk_ok_bytes _ _ Hc) as [Hb Hl8].
  assert (Hz' : zlen (finalize (raw_of c) rl) = rl) by (unfold finalize; rewrite zlen_app, zlen_splice; zl).
  assert (Hs : ∀ o n, 0 ≤ o → 0 ≤ n → o + n ≤ 8 + nlen c → o + n ≤ 4 ∨ 6 ≤ o →
    sub (finalize (raw_of c) rl) o n = sub c o n).
  { intros o n ? ? ? ?. unfold finalize. rewrite sub_app_l by (rewrite ?zlen_splice; zl).
    rewrite sub_splice_disjoint by zl. unfold raw_of.
    apply list_eq. intros i. rewrite !lookup_sub. case_decide; [|done].
    rewrite lookup_splice by (rewrite ?zlen_splice; zl). rewrite lookup_splice by zl.
    rewrite !lookup_sub, !zlen_sub. repeat case_decide; try lia; f_equal; lia. }
  destruct (resized_chunk hft c (finalize (raw_of c) rl) Hc); [..|by split_and!].
  - unfold finalize. apply bytes_ok_app. split; [|apply bytes_ok_zrep; lia].
    unfold raw_of. auto 10 using bytes_ok_splice, bytes_ok_sub, bytes_ok_le_split, bytes_ok_zrep with lia.
  - lia.
  - by rewrite Hz'.
  - rewrite Hz'. unfold finalize, le16. rewrite sub_app_l by (rewrite ?zlen_splice; zl).
    rewrite sub_splice_same_len by zl. apply le_combine_split. lia.
  - apply Hs; lia.
  - apply Hs; lia.
  - done.
  - intros _. rewrite Hz'. split; [lia|]. apply Hs; lia.
Qed.

Definition total (raws : list bytes) : Z := zlen (concat raws).

Lemma put_raw (pre raw : bytes) k : zlen raw ≤ k →
  put (pre ++ zrep k 0) (zlen pre) raw = Ok (pre ++ raw ++ zrep (k - zlen raw) 0).
Proof. intros. pose proof (zlen_nonneg raw). rewrite (zrep_split (zlen raw) k) by lia. by rewrite put_piece by zl. Qed.

Lemma put_rec_len (pre raw : bytes) k rl : 8 ≤ zlen raw ≤ rl → rl ≤ k → rl < 2 ^ 16 →
  put (pre ++ raw ++ zrep (k - zlen raw) 0) (zlen pre + 4) (le_split 2 (as_u16 rl))
  = Ok (pre ++ finalize raw rl ++ zrep (k - rl) 0).
Proof.
  intros Hr Hk Hl. replace (as_u16 rl) with rl by (unfold as_u16; rewrite Z.mod_small; lia).
  rewrite put_mid by zl. unfold finalize. rewrite <-app_assoc. do 3 f_equal.
  rewrite (zrep_split (rl - zlen raw) (k - zlen raw)) by lia. do 2 f_equal. lia.
Qed.

Lemma write_packed_loop_spec raws : Forall (λ r, 8 ≤ zlen r) raws → raws ≠ [] → ∀ pre k usable,
  total raws ≤ usable - zlen pre → usable ≤ zlen pre + k → usable < 2 ^ 16 →
  write_packed_loop raws (pre ++ zrep k 0) (zlen pre) usable =
  Ok (pre ++ concat (pack_all raws (usable - zlen pre)) ++ zrep (zlen pre + k - usable) 0).
Proof.
  intros Hr. induction Hr as [|raw raws Hraw Hall IH]; intros Hne pre k usable Ht Hu Hl; [done|].
  unfold total in *. cbn [concat] in Ht. rewrite zlen_app in Ht. pose proof (zlen_nonneg (concat raws)).
  pose proof (zlen_nonneg pre). cbn [write_packed_loop]. rewrite decide_False by lia.
  destruct raws as [|r2 raws].
  - rewrite put_raw, bind_Ok, put_rec_len, bind_Ok by lia.
    cbn [write_packed_loop pack_all concat]. rewrite app_nil_r.
    do 3 f_equal. f_equal. lia.
  - rewrite put_raw, bind_Ok, put_rec_len, bind_Ok by lia.
    assert (Hz : zlen (finalize raw (zlen raw)) = zlen raw) by (unfold finalize; rewrite zlen_app, zlen_splice; zl).
    rewrite app_assoc. replace (zlen pre + zlen raw) with (zlen (pre ++ finalize raw (zlen raw))) by (rewrite zlen_app; lia).
    rewrite IH; [|done|rewrite zlen_app; lia..|done].
    cbn [pack_all concat]. rewrite <-!app_assoc, zlen_app, Hz.
    replace (usable - (zlen pre + zlen raw)) with (usable - zlen pre - zlen raw) by lia.
    do 5 f_equal. lia.
Qed.

Lemma pack_all_spec cs : Forall (λ c, chunk_ok hft c ∧ live c) cs → cs ≠ [] → ∀ room,
  total (raw_of <$> cs) ≤ room < 2 ^ 16 → room mod 4 = 0 →
  Forall (chunk_ok hft) (pack_all (raw_of <$> cs) room) ∧
  zlen (concat (pack_all (raw_of <$> cs) room)) = room ∧
  entries_of hft (pack_all (raw_of <$> cs) room) = entries_of hft cs.
Proof.
  intros Hcs. induction Hcs as [|c cs [Hc Hl] Hcs IH]; intros Hne room Ht H4; [done|].
  unfold total in *. cbn [fmap list_fmap concat] in Ht. rewrite zlen_app in Ht. rewrite zlen_raw in Ht by done.
  pose proof (zlen_nonneg (concat (raw_of <$> cs))). destruct (live_bounds c Hc Hl) as (H1 & H2 & H3 & H34).
  destruct cs as [|c2 cs].
  - destruct (finalize_spec c room Hc Hl) as (F1 & F2 & F3); [lia|done|].
    cbn [fmap list_fmap pack_all concat entries_of omap list_omap]. rewrite app_nil_r, F3.
    split_and!; [by constructor|done|done].
  - destruct (finalize_spec c (8 + pad4 (nlen c)) Hc Hl) as (F1 & F2 & F3); [lia|done|].
    destruct (IH ltac:(done) (room - (8 + pad4 (nlen c)))) as (I1 & I2 & I3).
    { cbn [fmap list_fmap] in *. lia. }
    { rewrite Zminus_mod, H4, H34. done. }
    change (raw_of <$> c :: c2 :: cs) with (raw_of c :: raw_of c2 :: (raw_of <$> cs)).
    change (pack_all (raw_of c :: raw_of c2 :: (raw_of <$> cs)) room)
      with (finalize (raw_of c) (zlen (raw_of c)) ::
            pack_all (raw_of <$> c2 :: cs) (room - zlen (raw_of c))).
    rewrite zlen_raw by done. set (rest := pack_all _ _) in *. unfold entries_of in *. cbn [concat].
    split; [by constructor|]. split; [rewrite zlen_app, F2, I2; lia|].
    change (omap (chunk_entry hft) (c :: c2 :: cs)) with
      (match chunk_entry hft c with Some e => e :: omap (chunk_entry hft) (c2 :: cs) | None => omap (chunk_entry hft) (c2 :: cs) end).
    rewrite <-I3. cbn [omap list_omap]. by rewrite F3.
Qed.

(** Kept records never outgrow the block they came from. *)
Lemma total_raws chunks : Forall (chunk_ok hft) chunks →
  total (raw_of <$> filter live chunks) ≤ zlen (concat chunks).
Proof.
  unfold total. induction 1 as [|c chunks Hc Hall IH]; [done|]. rewrite filter_cons. cbn [concat]. rewrite zlen_app.
  pose proof (proj2 (chunk_ok_bytes hft c Hc)). case_decide as Hl; [|lia]. cbn [fmap list_fmap concat].
  rewrite zlen_app, zlen_raw by done. destruct (live_bounds c Hc Hl) as (_ & _ & ? & _). lia.
Qed.

Lemma entries_live chunks : entries_of hft (filter live chunks) = entries_of hft chunks.
Proof.
  unfold entries_of. induction chunks as [|c chunks IH]; [done|]. rewrite filter_cons. unfold live at 1.
  cbn [omap list_omap]. unfold chunk_entry at 2. case_decide as Hl.
  - rewrite decide_False by done. cbn [omap list_omap]. unfold chunk_entry at 1. by rewrite decide_False, IH by done.
  - rewrite decide_True by lia. done.
Qed.

(** *** The split, record by record *)

Definition chunk_key (c : bytes) : Z := major (name_hash (sub c 8 (nlen c)) version seed).
Definition entry_key (e : DirEntry.t) : Z := major (name_hash (DirEntry.name e) version seed).

Lemma entry_key_chunk c e : chunk_entry hft c = Some e → entry_key e = chunk_key c.
Proof. unfold chunk_entry. case_decide; [done|]. by intros [= <-]. Qed.

Lemma live_entry c : live c → ∃ e, chunk_entry hft c = Some e.
Proof. unfold live, chunk_entry. intros. rewrite decide_False by done. eauto. Qed.

Lemma Forall_entries (P : Z → Prop) cs : Forall (λ c, P (chunk_key c)) cs → Forall (λ e, P (entry_key e)) (entries_of hft cs).
Proof.
  unfold entries_of. induction 1 as [|c cs Hc Hcs IH]; [constructor|]. cbn [omap list_omap].
  destruct (chunk_entry hft c) as [e|] eqn:E; [|done]. constructor; [by rewrite (entry_key_chunk c)|done].
Qed.

Lemma sort_fmap {A B} (key : B → Z) (f : A → B) l :
  sort_by_key key (f <$> l) = f <$> sort_by_key (λ x, key (f x)) l.
Proof.
  assert (Hi : ∀ x k, insert_by key (f x) (f <$> k) = f <$> insert_by (λ x, key (f x)) x k).
  { intros x k. induction k as [|y k IH]; [done|]. cbn [fmap list_fmap insert_by] in *. case_decide; [done|]. by rewrite IH. }
  induction l as [|x l IH]; [done|]. unfold sort_by_key in *. cbn [fmap list_fmap foldr] in *. by rewrite IH, Hi.
Qed.

Lemma entries_perm (cs ds : list bytes) : cs ≡ₚ ds → entries_of hft cs ≡ₚ entries_of hft ds.
Proof. intros Hp. unfold entries_of. by rewrite Hp. Qed.

Lemma write_half cs block_size reserved room : Forall (λ c, chunk_ok hft c ∧ live c) cs → cs ≠ [] →
  total (raw_of <$> cs) ≤ room < 2 ^ 16 → room mod 4 = 0 → block_size = room + reserved → 0 ≤ reserved →
  write_packed_leaf (raw_of <$> cs) block_size reserved =
  Ok (concat (pack_all (raw_of <$> cs) room) ++ zrep reserved 0).
Proof.
  intros Hcs Hne Ht H4 -> Hr. unfold write_packed_leaf, checked_sub. unfold total in Ht.
  pose proof (zlen_nonneg (concat (raw_of <$> cs))). rewrite decide_True by lia. cbn [ok_or]. rewrite bind_Ok.
  pose proof (write_packed_loop_spec (raw_of <$> cs)) as E. specialize (E ltac:(
    apply Forall_fmap; eapply Forall_impl; [exact Hcs|]; intros c [Hc Hl]; unfold compose;
    rewrite zlen_raw by done; destruct (live_bounds c Hc Hl) as (? & _ & ? & _); lia)).
  specialize (E ltac:(by destruct cs) [] (room + reserved) (room + reserved - reserved)).
  cbn [app] in E. rewrite zlen_nil in E. unfold total in E. rewrite E by lia. do 3 f_equal; [f_equal; lia|f_equal; lia].
Qed.

Lemma total_perm rs rs' : rs ≡ₚ rs' → total rs = total rs'.
Proof. unfold total, zlen. intros Hp. f_equal. induction Hp; cbn [concat]; rewrite ?length_app in *; lia. Qed.

Lemma total_app a b : total (a ++ b) = total a + total b.
Proof. unfold total. rewrite concat_app. apply zlen_app. Qed.
End pack.

(** Splitting a full leaf.  On a well-formed leaf, [plan_leaf_split]
    succeeds exactly when two of its names have different hashes; the two
    blocks it then returns are well-formed (once the caller has written the
    checksum tail into the reserved zeros), together hold exactly the entries
    of the leaf, and are separated by the returned hash: below it on the left,
    at or above it on the right, both inhabited.  Otherwise the split is
    refused. *)
Lemma plan_leaf_split_spec hft version seed chunks rest :
  Forall (chunk_ok hft) chunks → zlen (concat chunks) < 2 ^ 16 →
  let leaf := concat chunks ++ rest in
  let es := entries_of hft chunks in
  let key := entry_key version seed in
  match plan_leaf_split leaf version seed hft (zlen leaf) (zlen rest) with
  | Ok s => ∃ ls rs, left_bytes s = concat ls ++ zrep (zlen rest) 0 ∧
      right_bytes s = concat rs ++ zrep (zlen rest) 0 ∧
      Forall (chunk_ok hft) ls ∧ Forall (chunk_ok hft) rs ∧
      zlen (concat ls) = zlen (concat chunks) ∧ zlen (concat rs) = zlen (concat chunks) ∧
      entries_of hft ls ++ entries_of hft rs ≡ₚ es ∧
      entries_of hft ls ≠ [] ∧ entries_of hft rs ≠ [] ∧
      Forall (λ e, key e < split_out_hash s) (entries_of hft ls) ∧
      Forall (λ e, split_out_hash s ≤ key e) (entries_of hft rs) ∧
      ∃ e, e ∈ es ∧ split_out_hash s = key e
  | Err _ => ∀ e e', e ∈ es → e' ∈ es → key e = key e'
  | _ => False
  end.
Proof.
  intros Hc Hl leaf es key. unfold plan_leaf_split, leaf. rewrite read_leaf_entries_spec, bind_Ok by done.
  set (lv := filter live chunks).
  assert (Hlv : Forall (λ c, chunk_ok hft c ∧ live c) lv).
  { apply Forall_forall. intros c Hin. apply list_elem_of_filter in Hin as [H1 H2]. rewrite Forall_forall in Hc. auto. }
  assert (Hes : es = entries_of hft lv) by (unfold lv; by rewrite entries_live).
  assert (Hlen : zlen lv ≤ zlen (concat chunks)).
  { unfold lv, zlen. pose proof (length_concat_chunks hft chunks Hc). pose proof (length_filter live chunks). lia. }
  rewrite zlen_fmap. case_decide as H2.
  { rewrite Hes. intros e e' He He'. unfold entries_of in He, He'. destruct lv as [|c [|c2 lv]].
    - by apply elem_of_nil in He.
    - cbn [omap list_omap] in *. destruct (chunk_entry hft c); set_solver.
    - rewrite !zlen_cons in H2. pose proof (zlen_nonneg lv). lia. }
  rewrite sort_fmap. set (cs := sort_by_key _ lv).
  assert (Hp : cs ≡ₚ lv) by apply sort_by_key_perm.
  assert (Hord : ordered (chunk_key hft version seed) cs) by apply sort_by_key_ordered.
  assert (Hcs : Forall (λ c, chunk_ok hft c ∧ live c) cs) by by rewrite Hp.
  rewrite <-list_fmap_compose. change (entry_major ∘ item_of hft version seed) with (chunk_key hft version seed).
  set (majors := chunk_key hft version seed <$> cs).
  rewrite zlen_fmap. assert (Hn : zlen cs = zlen majors) by (unfold majors; by rewrite zlen_fmap).
  assert (Hn' : zlen cs = zlen lv) by (unfold zlen; by rewrite Hp). rewrite Hn.
  assert (Hpe : entries_of hft cs ≡ₚ es) by (rewrite Hes; by apply entries_perm).
  destruct (List.find (cut_ok majors) (candidates (zlen majors))) as [m|] eqn:Ef; cbn [ok_or].
  2: { intros e e' He He'. rewrite <-Hpe in He, He'. unfold entries_of in *.
    apply list_elem_of_omap in He as (c & Hcin & Ec). apply list_elem_of_omap in He' as (c' & Hcin' & Ec').
    unfold key. rewrite (entry_key_chunk hft version seed c e Ec), (entry_key_chunk hft version seed c' e' Ec').
    apply (no_cut majors); [lia|done| |]; unfold majors; apply list_elem_of_fmap; eauto. }
  rewrite bind_Ok. apply find_some_spec in Ef as [Hcut _]. unfold cut_ok in Hcut.
  rewrite !andb_true_iff, !bool_decide_eq_true in Hcut. destruct Hcut as [[Hm0 Hm] Hcut].
  destruct (majors !! Z.to_nat (m - 1)) as [a|] eqn:Ea; [|done]. destruct (majors !! Z.to_nat m) as [b|] eqn:Eb; [|done].
  apply bool_decide_eq_true in Hcut. unfold majors in Ea, Eb.
  apply list_lookup_fmap_Some in Ea as (ca & -> & Ea). apply list_lookup_fmap_Some in Eb as (cb & -> & Eb).
  rewrite list_lookup_fmap, Eb. cbn [fmap option_fmap option_map unwrap]. rewrite bind_Ok.
  replace (Z.to_nat m) with (S (Z.to_nat (m - 1))) in * by lia. set (k := Z.to_nat (m - 1)) in *.
  destruct (ordered_cut (chunk_key hft version seed) cs k ca cb Hord Ea Eb Hcut) as [Hlt Hge].
  set (ls := take (S k) cs) in *. set (rs := drop (S k) cs) in *.
  assert (Hcut' : cs = ls ++ rs) by (symmetry; apply take_drop).
  rewrite Hcut' in Hcs. apply Forall_app in Hcs as [Hls Hrs].
  assert (Hl0 : ca ∈ ls). { apply list_elem_of_lookup. exists k. unfold ls. rewrite lookup_take_lt by lia. done. }
  assert (Hr0 : cb ∈ rs). { apply list_elem_of_lookup. exists 0%nat. unfold rs. by rewrite lookup_drop, Nat.add_0_r. }
  assert (Hroom : total (raw_of hft <$> ls) ≤ zlen (concat chunks) ∧ total (raw_of hft <$> rs) ≤ zlen (concat chunks)).
  { pose proof (total_raws hft chunks Hc) as Ht. fold lv in Ht.
    rewrite (total_perm _ (raw_of hft <$> cs)) in Ht by (by rewrite Hp). rewrite Hcut', fmap_app, total_app in Ht.
    pose proof (zlen_nonneg (concat (raw_of hft <$> ls))). pose proof (zlen_nonneg (concat (raw_of hft <$> rs))).
    unfold total in *. lia. }
  assert (H4 : zlen (concat chunks) mod 4 = 0).
  { clear -Hc. induction Hc as [|c cs (_ & _ & Hm & _) Hcs IH]; [done|]. cbn [concat]. by rewrite zlen_app, Zplus_mod, Hm, IH. }
  rewrite <-fmap_take, <-fmap_drop. fold ls rs.
  assert (Hsnd : ∀ l, snd <$> (item_of hft version seed <$> l) = raw_of hft <$> l) by (intros l; by rewrite <-list_fmap_compose).
  rewrite !Hsnd, zlen_app. pose proof (zlen_nonneg rest).
  rewrite (write_half hft ls _ _ (zlen (concat chunks)) Hls), bind_Ok; [|by destruct ls; [set_solver|]|lia|done|done|done].
  rewrite (write_half hft rs _ _ (zlen (concat chunks)) Hrs), bind_Ok; [|by destruct rs; [set_solver|]|lia|done|done|done].
  destruct (pack_all_spec hft ls Hls ltac:(by destruct ls; [set_solver|]) (zlen (concat chunks)) ltac:(lia) H4) as (L1 & L2 & L3).
  destruct (pack_all_spec hft rs Hrs ltac:(by destruct rs; [set_solver|]) (zlen (concat chunks)) ltac:(lia) H4) as (R1 & R2 & R3).
  eexists _, _. split; [reflexivity|]. split; [reflexivity|]. rewrite L3, R3. cbn [split_out_hash].
  change (entry_major (item_of hft version seed cb)) with (chunk_key hft version seed cb).
  destruct (live_entry hft ca) as [ea Hea]; [rewrite Forall_forall in Hls; by apply Hls|].
  destruct (live_entry hft cb) as [eb Heb]; [rewrite Forall_forall in Hrs; by apply Hrs|].
  assert (Hina : ea ∈ entries_of hft ls) by (apply list_elem_of_omap; eauto).
  assert (Hinb : eb ∈ entries_of hft rs) by (apply list_elem_of_omap; eauto).
  split_and!; try done.
  - unfold entries_of. rewrite <-omap_app, <-Hcut'. exact Hpe.
  - intros E. rewrite E in Hina. by apply elem_of_nil in Hina.
  - intros E. rewrite E in Hinb. by apply elem_of_nil in Hinb.
  - by apply (Forall_entries hft version seed (λ x, x < _)).
  - by apply (Forall_entries hft version seed (λ x, _ ≤ x)).
  - exists eb. split; [|symmetry; by apply (entry_key_chunk hft)].
    rewrite <-Hpe, Hcut'. unfold entries_of. rewrite omap_app. set_solver.
Qed.

(** Four names with the hashes 1782092012, 466486378, 1722984444 and
    3692942544, so that the split reorders them; and a leaf whose two names
    collide. *)
Definition sample_leaf : list bytes :=
  [new_chunk true 11 12 [97] RegFile; new_chunk true 12 12 [98] RegFile;
   new_chunk true 13 12 [99] RegFile; new_chunk true 14 16 [100; 101; 102; 103; 104] RegFile].
Definition colliding_leaf : list bytes :=
  [new_chunk true 11 12 [97] RegFile; new_chunk true 12 40 [97] RegFile].
