(* ===== verification/HtreeIndex.v ===== *)
(** HtreeIndex: how the lookup of Htree.v and the split of HtreeMut.v fit
    together.  An index array as its encoded slots, what inserting a slot does
    to the routing, and the composition: after a leaf split and the insertion
    into the root, a lookup reaches the half that holds the name. *)
From Stdlib Require Import Sorting.Sorted.
From S2P Require Import Prelude Errors Bytes Device Features Superblock Checksum Inode Dir Hash Htree HtreeMut.

(** ** Routing in a sorted array *)

Local Abbreviation hash := DxEntry.hash.
Definition sorted (es : list DxEntry.t) : Prop := StronglySorted (λ x y, hash x < hash y) es.

Lemma find_loop_ge c es t : sorted (c :: es) → hash c ≤ hash (find_loop c es t).
Proof.
  revert c. induction es as [|x es IH]; intros c Hs; cbn [find_loop]; [lia|]. case_decide; [|lia].
  inversion Hs as [|? ? Hs' Hc]; subst. apply IH in Hs'. inversion Hc; subst. lia.
Qed.

Lemma find_loop_in c es t : find_loop c es t ∈ c :: es.
Proof.
  revert c. induction es as [|x es IH]; intros c; cbn [find_loop]; [set_solver|]. case_decide; [|set_solver].
  specialize (IH x). set_solver.
Qed.

Lemma find_loop_le c es t : hash c ≤ t → hash (find_loop c es t) ≤ t.
Proof. revert c. induction es as [|x es IH]; intros c Hc; cbn [find_loop]; [done|]. case_decide; auto. Qed.

(** What the new slot takes: the hashes from its own on, up to the next slot. *)
Lemma find_insert_after c es h nb t :
  sorted es → Forall (λ e, hash e ≠ h) es → hash c ≤ h →
  find_loop c (insert_after (DxEntry.mk h nb) es) t =
  if decide (h ≤ t ∧ hash (find_loop c es t) ≤ h) then DxEntry.mk h nb else find_loop c es t.
Proof.
  intros Hs. revert c. induction Hs as [|x es Hs IH Hx]; intros c Hne Hc.
  { cbn [insert_after find_loop DxEntry.hash]. repeat case_decide; (done || lia). }
  inversion Hne as [|? ? Hnx Hne']; subst. cbn [insert_after DxEntry.hash].
  destruct (decide (h < hash x)) as [Hlt|Hlt].
  - cbn [find_loop DxEntry.hash]. destruct (decide (h ≤ t)) as [Ht|Ht].
    + destruct (decide (hash x ≤ t)) as [Hxt|Hxt].
      * pose proof (find_loop_ge x es t ltac:(by constructor)). rewrite decide_False; [done|lia].
      * rewrite decide_True; [done|lia].
    + rewrite (decide_False (P := hash x ≤ t)) by lia. rewrite decide_False; [done|lia].
  - cbn [find_loop]. destruct (decide (hash x ≤ t)) as [Hxt|Hxt].
    + apply IH; [done|lia].
    + rewrite decide_False; [done|lia].
Qed.

Lemma find_loop_mono c es t t' : sorted (c :: es) → t ≤ t' → hash (find_loop c es t) ≤ hash (find_loop c es t').
Proof.
  intros Hs Ht. revert c Hs. induction es as [|x es IH]; intros c Hs; cbn [find_loop]; [done|].
  inversion Hs as [|? ? Hs' Hc]; subst. inversion Hc; subst. destruct (decide (hash x ≤ t)).
  - rewrite decide_True by lia. by apply IH.
  - case_decide; [|done]. pose proof (find_loop_ge x es t' Hs'). lia.
Qed.

(** No slot strictly between the one chosen and the target. *)
Lemma find_loop_next c es t x : sorted (c :: es) → x ∈ c :: es → hash x ≤ t → hash x ≤ hash (find_loop c es t).
Proof.
  revert c. induction es as [|y es IH]; intros c Hs Hx Ht; cbn [find_loop].
  { apply list_elem_of_singleton in Hx as ->. lia. }
  inversion Hs as [|? ? Hs' Hc]; subst. inversion Hc as [|? ? Hcy Hc']; subst.
  apply elem_of_cons in Hx as [->|Hx].
  - case_decide; [|lia]. pose proof (find_loop_ge y es t Hs'). lia.
  - case_decide as Hy; [by apply IH|]. inversion Hs' as [|? ? _ Hy']; subst.
    apply elem_of_cons in Hx as [->|Hx]; [lia|]. rewrite Forall_forall in Hy'. specialize (Hy' x Hx). lia.
Qed.

Lemma sorted_hash_inj es x y : sorted es → x ∈ es → y ∈ es → hash x = hash y → x = y.
Proof.
  induction 1 as [|z es Hs IH Hz]; intros Hx Hy E; [by apply elem_of_nil in Hx|]. rewrite Forall_forall in Hz.
  apply elem_of_cons in Hx as [->|Hx]; apply elem_of_cons in Hy as [->|Hy]; [done|..|by apply IH].
  - specialize (Hz y Hy). lia.
  - specialize (Hz x Hx). lia.
Qed.

(** ** The array on disk *)

Definition enc_entry (e : DxEntry.t) : bytes := le_split 4 (hash e) ++ le_split 4 (DxEntry.block e).
Definition entry_ok (e : DxEntry.t) : Prop := 0 ≤ hash e < 2 ^ 32 ∧ 0 ≤ DxEntry.block e < 2 ^ 32.

(** Slot 0 carries the limit and the count where the others carry a hash. *)
Definition slot0 (limit count b : Z) : DxEntry.t := DxEntry.mk (limit + 2 ^ 16 * count) b.

Lemma zlen_enc e : zlen (enc_entry e) = 8.
Proof. unfold enc_entry. rewrite zlen_app, !zlen_le_split. done. Qed.
Hint Rewrite zlen_enc : zlen.

Lemma zlen_encs es : zlen (concat (enc_entry <$> es)) = 8 * zlen es.
Proof.
  induction es as [|e es IH]; [done|]. rewrite fmap_cons. cbn [concat]. rewrite zlen_app, zlen_enc, zlen_cons, IH. lia.
Qed.
Hint Rewrite zlen_encs : zlen.

Lemma parse_enc e : entry_ok e → DxEntry.parse (enc_entry e) = Ok e.
Proof.
  intros [Hh Hb]. unfold DxEntry.parse. rewrite zlen_enc. rewrite decide_False by (unfold DxEntry.SIZE; lia).
  unfold u32_le. unfold enc_entry. rewrite slice_head by (by rewrite zlen_le_split). rewrite !bind_Ok.
  rewrite slice_app_r by zl. rewrite zlen_le_split.
  replace (le_split 4 (DxEntry.block e)) with (le_split 4 (DxEntry.block e) ++ []) by apply app_nil_r.
  rewrite slice_head by (by rewrite zlen_le_split). rewrite !bind_Ok, !le_combine_split by done. by destruct e.
Qed.

Lemma slice_enc pre e post : slice (pre ++ enc_entry e ++ post) (zlen pre) 8 = Ok (enc_entry e).
Proof.
  rewrite slice_app_r by lia. replace (zlen pre - zlen pre) with 0 by lia. apply slice_head. by rewrite zlen_enc.
Qed.

(** Reading the slots one after the other, by either of the two readers. *)
Lemma traverse_slots (f : bytes → Z → Z → res DxEntry.t) post todo : Forall entry_ok todo →
  (∀ pre e post i, entry_ok e → f (pre ++ enc_entry e ++ post) (zlen pre - i * DxEntry.SIZE) i = Ok e) →
  ∀ pre i, traverse (f (pre ++ concat (enc_entry <$> todo) ++ post) (zlen pre - i * DxEntry.SIZE))
    (seqZ i (zlen todo)) = Ok todo.
Proof.
  intros Hok Hf. induction Hok as [|e todo He Hok IH]; intros pre i; [done|].
  rewrite seqZ_cons by (rewrite zlen_cons; pose proof (zlen_nonneg todo); lia). cbn [traverse].
  rewrite fmap_cons. cbn [concat]. rewrite <-app_assoc, Hf, bind_Ok by done.
  rewrite app_assoc. specialize (IH (pre ++ enc_entry e) (i + 1)). rewrite zlen_app, zlen_enc in IH.
  replace (zlen pre + 8 - (i + 1) * DxEntry.SIZE) with (zlen pre - i * DxEntry.SIZE) in IH by (unfold DxEntry.SIZE; lia).
  replace (Z.pred (zlen (e :: todo))) with (zlen todo) by (rewrite zlen_cons; lia).
  replace (Z.succ i) with (i + 1) by lia. rewrite IH, bind_Ok. done.
Qed.

Lemma entry_at_spec pre e post i : entry_ok e →
  entry_at (pre ++ enc_entry e ++ post) (zlen pre - i * DxEntry.SIZE) i = Ok e.
Proof.
  intros He. unfold entry_at. replace (zlen pre - i * DxEntry.SIZE + i * DxEntry.SIZE) with (zlen pre) by lia.
  unfold DxEntry.SIZE. rewrite slice_enc, bind_Ok. by apply parse_enc.
Qed.

Lemma checked_entry_at_spec pre e post i : entry_ok e →
  checked_entry_at (pre ++ enc_entry e ++ post) (zlen pre - i * DxEntry.SIZE) i = Ok e.
Proof.
  intros He. unfold checked_entry_at. replace (zlen pre - i * DxEntry.SIZE + i * DxEntry.SIZE) with (zlen pre) by lia.
  pose proof (zlen_nonneg post). unfold DxEntry.SIZE. rewrite decide_False by zl. rewrite slice_enc, bind_Ok. by apply parse_enc.
Qed.

(** The array of a node whose first slot leads to [b0]. *)
Definition dx_array (limit b0 : Z) (es : list DxEntry.t) : bytes :=
  concat (enc_entry <$> slot0 limit (1 + zlen es) b0 :: es).

Lemma zlen_dx_array limit b0 es : zlen (dx_array limit b0 es) = 8 * (1 + zlen es).
Proof. unfold dx_array. by rewrite zlen_encs, zlen_cons. Qed.
Hint Rewrite zlen_dx_array : zlen.

Definition array_ok (limit b0 : Z) (es : list DxEntry.t) : Prop :=
  1 + zlen es ≤ limit < 2 ^ 16 ∧ 0 ≤ b0 < 2 ^ 32 ∧ Forall entry_ok es.

Lemma slot0_ok limit b0 es : array_ok limit b0 es → entry_ok (slot0 limit (1 + zlen es) b0).
Proof. intros (Hl & Hb & _). pose proof (zlen_nonneg es). unfold entry_ok, slot0. cbn [hash DxEntry.block]. lia. Qed.

Lemma slot0_hash limit count : 0 ≤ limit < 2 ^ 16 → 0 ≤ count < 2 ^ 16 →
  le_split 4 (limit + 2 ^ 16 * count) = le_split 2 limit ++ le_split 2 count.
Proof.
  intros Hl Hc. assert (E : le_combine (le_split 2 limit ++ le_split 2 count) = limit + 2 ^ 16 * count).
  { change (le_split 2 limit) with [limit mod 256; limit / 256 mod 256].
    change (le_split 2 count) with [count mod 256; count / 256 mod 256]. cbn [app]. unfold le_combine.
    assert (Hd : ∀ x, 0 ≤ x < 2 ^ 16 → x = x mod 256 + 256 * (x / 256 mod 256)).
    { intros x Hx. rewrite (Z.mod_small (x / 256)) by (split; [apply Z.div_pos; lia|apply Z.div_lt_upper_bound; lia]).
      pose proof (Z.div_mod x 256 ltac:(lia)). lia. }
    pose proof (Hd limit Hl). pose proof (Hd count Hc). lia. }
  rewrite <-E. apply le_split_combine_len; [|zl]. apply bytes_ok_app. auto using bytes_ok_le_split.
Qed.

Section array.
Context (pre post : bytes) (limit b0 : Z) (es : list DxEntry.t).
Context (Hok : array_ok limit b0 es).
Local Abbreviation arr := (pre ++ dx_array limit b0 es ++ post).

Lemma zlen_arr : zlen arr = zlen pre + 8 * (1 + zlen es) + zlen post.
Proof. zl. Qed.

Lemma array_cl : ∃ s, slice arr (zlen pre) 4 = Ok s ∧ DxCountLimit.parse s = Ok (DxCountLimit.mk limit (1 + zlen es)).
Proof.
  pose proof (zlen_nonneg es). destruct Hok as (Hl & _).
  exists (le_split 4 (limit + 2 ^ 16 * (1 + zlen es))). split.
  { rewrite slice_app_r by lia. replace (zlen pre - zlen pre) with 0 by lia.
    unfold dx_array. rewrite fmap_cons. cbn [concat]. unfold enc_entry at 1, slot0 at 1. cbn [hash].
    rewrite <-!app_assoc. apply slice_head. by rewrite zlen_le_split. }
  rewrite slot0_hash by lia. unfold DxCountLimit.parse. rewrite decide_False by zl.
  unfold u16_le. rewrite slice_head by zl. rewrite !bind_Ok.
  replace (le_split 2 limit ++ le_split 2 (1 + zlen es)) with (le_split 2 limit ++ le_split 2 (1 + zlen es) ++ [])
    by by rewrite app_nil_r.
  rewrite slice_app_r by zl. rewrite zlen_le_split. rewrite slice_head by zl. rewrite !bind_Ok.
  by rewrite !le_combine_split by (cbn; lia).
Qed.

Lemma array_slots (f : bytes → Z → Z → res DxEntry.t) :
  (∀ pre e post i, entry_ok e → f (pre ++ enc_entry e ++ post) (zlen pre - i * DxEntry.SIZE) i = Ok e) →
  traverse (f arr (zlen pre)) (seqZ 0 (1 + zlen es)) = Ok (slot0 limit (1 + zlen es) b0 :: es).
Proof.
  intros Hf. pose proof (traverse_slots f post (slot0 limit (1 + zlen es) b0 :: es)) as E.
  specialize (E ltac:(constructor; [by apply slot0_ok|apply Hok]) Hf pre 0). rewrite zlen_cons in E.
  replace (zlen pre - 0 * DxEntry.SIZE) with (zlen pre) in E by lia. exact E.
Qed.

Lemma parse_array : parse_entries_from arr (zlen pre) (DxCountLimit.mk limit (1 + zlen es)) =
  Ok (DxCountLimit.mk limit (1 + zlen es), slot0 limit (1 + zlen es) b0 :: es).
Proof.
  pose proof (zlen_nonneg es). pose proof (zlen_nonneg post). destruct Hok as (Hl & _). unfold parse_entries_from.
  cbn [DxCountLimit.count DxCountLimit.limit]. rewrite zlen_arr.
  rewrite decide_False by lia. rewrite !decide_False by (unfold DxEntry.SIZE; lia).
  by rewrite (array_slots entry_at entry_at_spec).
Qed.
End array.

(** Writing slots over the bytes after [pre]. *)
Lemma write_slot pre c post e i : 1 ≤ i → zlen c = 8 →
  write_dx_entry (zlen pre - i * DxEntry.SIZE) (pre ++ c ++ post) (i, e) = Ok (pre ++ enc_entry e ++ post).
Proof.
  intros Hi Hc. unfold write_dx_entry.
  replace (zlen pre - i * DxEntry.SIZE + i * DxEntry.SIZE) with (zlen pre + 0) by lia.
  rewrite decide_True by lia. unfold put_u32. rewrite put_mid, bind_Ok by zl.
  replace (zlen pre + 0 + 4) with (zlen pre + 4) by lia. rewrite put_mid by zl. do 3 f_equal.
  unfold enc_entry. do 8 (destruct c as [|? c]; [done|]). destruct c as [|? c]; [done|].
  rewrite !zlen_cons in Hc. pose proof (zlen_nonneg c). lia.
Qed.

Lemma write_slots todo : ∀ pre junk i, 1 ≤ i → 8 * zlen todo ≤ zlen junk →
  foldM (write_dx_entry (zlen pre - i * DxEntry.SIZE)) (pre ++ junk) (zip (seqZ i (zlen todo)) todo) =
  Ok (pre ++ concat (enc_entry <$> todo) ++ drop (Z.to_nat (8 * zlen todo)) junk).
Proof.
  induction todo as [|e todo IH]; intros pre junk i Hi Hj; [done|].
  rewrite zlen_cons in *. pose proof (zlen_nonneg todo).
  rewrite seqZ_cons by lia. cbn [zip zip_with foldM].
  assert (Hc : zlen (take 8 junk) = 8) by (unfold zlen in *; rewrite length_take; lia).
  rewrite <-(take_drop 8 junk) at 1. rewrite write_slot, bind_Ok by done.
  rewrite app_assoc. replace (zlen pre - i * DxEntry.SIZE) with (zlen (pre ++ enc_entry e) - (i + 1) * DxEntry.SIZE)
    by (unfold DxEntry.SIZE; zl).
  replace (Z.succ i) with (i + 1) by lia. replace (Z.pred (1 + zlen todo)) with (zlen todo) by lia.
  rewrite IH; [|lia|unfold zlen in *; rewrite length_drop; lia].
  rewrite fmap_cons. cbn [concat]. rewrite <-!app_assoc, drop_drop. do 5 f_equal. lia.
Qed.

Lemma insert_after_perm e es : insert_after e es ≡ₚ e :: es.
Proof.
  induction es as [|x es IH]; [done|]. cbn [insert_after]. case_decide; [done|]. rewrite IH. apply Permutation_swap.
Qed.

Lemma zlen_insert_after e es : zlen (insert_after e es) = 1 + zlen es.
Proof. unfold zlen. rewrite insert_after_perm. simpl. lia. Qed.

Lemma insert_after_sorted e es : sorted es → Forall (λ x, hash x ≠ hash e) es → sorted (insert_after e es).
Proof.
  intros Hs. induction Hs as [|x es Hs IH Hx]; intros Hne; [by repeat constructor|].
  inversion Hne; subst. cbn [insert_after]. case_decide as Hd.
  - constructor; [by constructor|]. constructor; [done|]. eapply Forall_impl; [exact Hx|]. cbn. lia.
  - constructor; [by apply IH|]. rewrite insert_after_perm. constructor; [lia|done].
Qed.

(** Rewriting slot 0 and all that follow it, then the count. *)
Lemma rewrite_array pre junk limit b0 es es' : array_ok limit b0 es → 1 + zlen es' < 2 ^ 16 →
  8 * zlen es' ≤ zlen junk →
  (out ← foldM (write_dx_entry (zlen pre))
     (pre ++ enc_entry (slot0 limit (1 + zlen es) b0) ++ junk)
     (zip (seqZ 0 (1 + zlen es')) (DxEntry.mk 0 b0 :: es'));
   put_u16 out (zlen pre + 2) (1 + zlen es')) =
  Ok (pre ++ dx_array limit b0 es' ++ drop (Z.to_nat (8 * zlen es')) junk).
Proof.
  intros Hok Hn Hj. pose proof (zlen_nonneg es'). pose proof (zlen_nonneg es). destruct Hok as (Hl & Hb & _).
  rewrite seqZ_cons by lia. cbn [zip zip_with foldM].
  assert (E0 : write_dx_entry (zlen pre) (pre ++ enc_entry (slot0 limit (1 + zlen es) b0) ++ junk) (0, DxEntry.mk 0 b0)
    = Ok (pre ++ enc_entry (slot0 limit (1 + zlen es) b0) ++ junk)).
  { unfold write_dx_entry. rewrite decide_False, bind_Ok by lia. unfold put_u32.
    replace (zlen pre + 0 * DxEntry.SIZE + 4) with (zlen pre + 4) by lia. rewrite put_mid by zl.
    do 3 f_equal. }
  rewrite E0, bind_Ok. rewrite app_assoc.
  replace (zlen pre) with (zlen (pre ++ enc_entry (slot0 limit (1 + zlen es) b0)) - 1 * DxEntry.SIZE) at 1
    by (unfold DxEntry.SIZE; zl).
  replace (Z.succ 0) with 1 by lia. replace (Z.pred (1 + zlen es')) with (zlen es') by lia.
  rewrite write_slots, bind_Ok by lia. rewrite <-app_assoc. unfold put_u16. rewrite put_mid by zl.
  unfold dx_array. rewrite fmap_cons. cbn [concat]. rewrite <-!app_assoc. do 3 f_equal.
  unfold enc_entry, slot0. cbn [hash DxEntry.block]. rewrite !slot0_hash by lia. done.
Qed.

Section insert.
Context (pre post : bytes) (limit b0 : Z) (es : list DxEntry.t) (h nb : Z).
Context (Hok : array_ok limit b0 es).
Local Abbreviation arr := (pre ++ dx_array limit b0 es ++ post).

Lemma tail_slots : tail (zero_first (slot0 limit (1 + zlen es) b0 :: es)) = es.
Proof. done. Qed.

(** Inserting into an array: refused when the array is full, when the hash is
    already there, or when the block has no room; otherwise the slot goes in
    its place and everything around the array stays. *)
Lemma plan_insert_dx_entry_generic_spec :
  plan_insert_dx_entry_generic arr (zlen pre) h nb =
  if decide (limit ≤ 1 + zlen es) then Err (CorruptExtentTree "NEEDS_PARENT_SPLIT: dx node full") else
  if decide (h ∈ hash <$> es) then Err (CorruptExtentTree "duplicate dx hash insert") else
  if decide (zlen post < 8) then Err (Corrupt "dx serialized entries exceed block") else
  Ok (pre ++ dx_array limit b0 (insert_after (DxEntry.mk h nb) es) ++ drop 8 post).
Proof.
  pose proof (zlen_nonneg es). pose proof (zlen_nonneg post). unfold plan_insert_dx_entry_generic.
  rewrite (zlen_arr pre post limit b0 es). rewrite decide_False by (unfold DxEntry.SIZE; lia).
  destruct (array_cl pre post limit b0 es Hok) as (s & -> & E). rewrite bind_Ok, E, bind_Ok.
  cbn [DxCountLimit.count DxCountLimit.limit]. destruct (decide (limit ≤ 1 + zlen es)) as [Hf|Hf]; [done|].
  rewrite decide_False by lia. rewrite (array_slots pre post limit b0 es Hok checked_entry_at checked_entry_at_spec), bind_Ok.
  cbv zeta. rewrite tail_slots.
  assert (Hd : existsb (λ e, bool_decide (hash e = h)) es = true ↔ h ∈ hash <$> es).
  { rewrite existsb_exists, list_elem_of_fmap. split.
    - intros (x & Hx & E'%bool_decide_eq_true). exists x. split; [done|]. by apply list_elem_of_In.
    - intros (x & -> & Hx). exists x. split; [by apply list_elem_of_In|]. by apply bool_decide_eq_true. }
  destruct (existsb _ es) eqn:Eex.
  { by rewrite (decide_True (P := h ∈ hash <$> es)) by (by apply Hd). }
  rewrite (decide_False (P := h ∈ hash <$> es)) by (intros Hin; by apply Hd in Hin).
  set (es' := insert_after _ es). assert (Hz : zlen es' = 1 + zlen es) by apply zlen_insert_after.
  change (take 1 _ ++ es') with (DxEntry.mk 0 b0 :: es').
  replace (zlen (DxEntry.mk 0 b0 :: es')) with (1 + (1 + zlen es)) by (rewrite zlen_cons; lia). destruct (decide (zlen post < 8)) as [Hp|Hp].
  { rewrite decide_True by (unfold DxEntry.SIZE; lia). done. }
  rewrite decide_False by (unfold DxEntry.SIZE; lia).
  pose proof (rewrite_array pre (concat (enc_entry <$> es) ++ post) limit b0 es es' Hok) as R.
  rewrite Hz, zlen_app, zlen_encs in R. specialize (R ltac:(destruct Hok; lia) ltac:(lia)).
  unfold dx_array at 1. rewrite fmap_cons. cbn [concat]. rewrite <-app_assoc.
  replace (1 + zlen es + 1) with (1 + (1 + zlen es)) by lia. rewrite R. do 3 f_equal.
  replace (Z.to_nat (8 * (1 + zlen es))) with (length (concat (enc_entry <$> es)) + 8)%nat.
  - by rewrite drop_app_add'.
  - pose proof (zlen_encs es) as Hl. unfold zlen in Hl |- *. lia.
Qed.
End insert.

(** ** The root of an index of one level *)

Lemma parse_root_info_prefix pre rest : 32 ≤ zlen pre → parse_root_info (pre ++ rest) = parse_root_info pre.
Proof.
  intros Hp. pose proof (zlen_nonneg rest).
  assert (Hu : u32_le (pre ++ rest) 24 = u32_le pre 24) by (unfold u32_le; by rewrite slice_app_l by lia).
  assert (Hg : ∀ i, 0 ≤ i < 32 → get (pre ++ rest) i = get pre i).
  { intros i Hi. unfold get. rewrite lookup_app_l; [done|]. unfold zlen in Hp. lia. }
  unfold parse_root_info. rewrite Hu, !Hg by lia. by rewrite zlen_app, !decide_False by lia.
Qed.

(** The root block [pre ++ array ++ post]: its info right before the array, a
    block for every slot up to the limit, hashes in order, every block once. *)
Record index_ok (info : DxRootInfo.t) (pre post : bytes) (limit b0 : Z) (es : list DxEntry.t) : Prop := {
  io_info : parse_root_info pre = Ok info;
  io_pre : 8 ≤ DxRootInfo.info_length info ∧ zlen pre = 24 + DxRootInfo.info_length info;
  io_level : DxRootInfo.indirect_levels info = 0;
  io_array : array_ok limit b0 es;
  io_room : 8 * limit ≤ 8 * (1 + zlen es) + zlen post;
  io_sorted : sorted (DxEntry.mk 0 b0 :: es);
  io_blocks : NoDup (b0 :: (DxEntry.block <$> es));
}.
#[global] Arguments io_info {_ _ _ _ _ _}. #[global] Arguments io_pre {_ _ _ _ _ _}.

Definition root_block (pre post : bytes) (limit b0 : Z) (es : list DxEntry.t) : bytes :=
  pre ++ dx_array limit b0 es ++ post.

Section root.
Context (rd : Z → res bytes) (info : DxRootInfo.t) (seed : list Z) (unsigned : bool).
Local Abbreviation version := (effective_version (DxRootInfo.hash_version info) unsigned).

Lemma lookup_root pre post limit b0 es name : index_ok info pre post limit b0 es →
  lookup_leaf_with rd name (root_block pre post limit b0 es) seed unsigned =
  Ok (Some (DxEntry.block (find_loop (DxEntry.mk 0 b0) es (major (name_hash name version seed))))).
Proof.
  intros Hi. unfold root_block, lookup_leaf_with, parse_root_entries. pose proof (io_pre Hi) as [H8 Hp].
  rewrite parse_root_info_prefix, (io_info Hi) by lia. rewrite !bind_Ok. pose proof (zlen_nonneg es). pose proof (zlen_nonneg post).
  rewrite <-Hp, zlen_arr. rewrite decide_False by lia.
  destruct (array_cl pre post limit b0 es) as (s & -> & E); [apply Hi|]. rewrite bind_Ok, E, bind_Ok.
  rewrite parse_array by apply Hi. rewrite !bind_Ok. cbn [zero_first].
  rewrite decide_False by done. cbn [find_entry_for_hash]. rewrite bind_Ok.
  destruct Hi as [_ _ Hl _ _ _ _]. rewrite Hl. done.
Qed.

Lemma index_insert pre post limit b0 es h nb :
  index_ok info pre post limit b0 es → 1 + zlen es < limit → 0 < h < 2 ^ 32 → 0 ≤ nb < 2 ^ 32 →
  h ∉ hash <$> es → nb ∉ b0 :: (DxEntry.block <$> es) →
  plan_insert_dx_entry_root (root_block pre post limit b0 es) (zlen pre) h nb =
    Ok (root_block pre (drop 8 post) limit b0 (insert_after (DxEntry.mk h nb) es)) ∧
  index_ok info pre (drop 8 post) limit b0 (insert_after (DxEntry.mk h nb) es).
Proof.
  intros [] Hroom Hh Hnb Hnew Hnb'. pose proof (zlen_nonneg es). destruct io_array0 as (Hl & Hb & Hes).
  assert (Hz : zlen (insert_after (DxEntry.mk h nb) es) = 1 + zlen es) by apply zlen_insert_after.
  split.
  - unfold plan_insert_dx_entry_root, root_block. rewrite plan_insert_dx_entry_generic_spec by done.
    rewrite (decide_False (P := limit ≤ _)) by lia. rewrite (decide_False (P := h ∈ _)) by done.
    by rewrite decide_False by lia.
  - constructor; [done..| | | |].
    + split; [lia|]. split; [done|]. rewrite insert_after_perm. constructor; [split; cbn; lia|done].
    + rewrite Hz. assert (zlen (drop 8 post) = zlen post - 8) by (unfold zlen in *; rewrite length_drop; lia). lia.
    + inversion io_sorted0 as [|? ? Hs H0]; subst. constructor.
      * apply insert_after_sorted; [done|]. apply Forall_forall. intros x Hx E. apply Hnew.
        apply list_elem_of_fmap. by exists x.
      * rewrite insert_after_perm. constructor; [cbn; lia|done].
    + apply (NoDup_Permutation_proper _ (nb :: b0 :: (DxEntry.block <$> es))); [|by constructor].
      rewrite insert_after_perm. cbn. apply Permutation_swap.
Qed.
(** The lookups of the new root, in terms of the old slots. *)
Lemma lookup_inserted pre post limit b0 es h nb name :
  index_ok info pre post limit b0 es → index_ok info pre (drop 8 post) limit b0 (insert_after (DxEntry.mk h nb) es) →
  0 < h → h ∉ hash <$> es →
  let t := major (name_hash name version seed) in
  let slot := find_loop (DxEntry.mk 0 b0) es t in
  lookup_leaf_with rd name (root_block pre (drop 8 post) limit b0 (insert_after (DxEntry.mk h nb) es)) seed unsigned =
  Ok (Some (if decide (h ≤ t ∧ hash slot ≤ h) then nb else DxEntry.block slot)).
Proof.
  intros Hi Hi' H0 Hfresh t slot. rewrite lookup_root by done. do 2 f_equal. fold t.
  rewrite find_insert_after; [fold slot; by destruct (decide (h ≤ t ∧ hash slot ≤ h))| | |cbn [DxEntry.hash]; lia].
  - pose proof (io_sorted _ _ _ _ _ _ Hi) as Hso. by inversion Hso.
  - apply Forall_forall. intros x Hx Ex. apply Hfresh, list_elem_of_fmap. by exists x.
Qed.
End root.

(** ** A split and its routing *)

(** The slot that routes to block [b] is the only one that does. *)
Lemma same_slot info pre post limit b0 es t t' : index_ok info pre post limit b0 es →
  DxEntry.block (find_loop (DxEntry.mk 0 b0) es t) = DxEntry.block (find_loop (DxEntry.mk 0 b0) es t') →
  find_loop (DxEntry.mk 0 b0) es t = find_loop (DxEntry.mk 0 b0) es t'.
Proof.
  intros [] E. assert (Hinj : ∀ l x y, NoDup (DxEntry.block <$> l) → x ∈ l → y ∈ l → DxEntry.block x = DxEntry.block y → x = y).
  { clear. induction l as [|z l IH]; intros x y Hn Hx Hy E; [by apply elem_of_nil in Hx|].
    rewrite fmap_cons in Hn. apply NoDup_cons in Hn as [Hz Hn].
    apply elem_of_cons in Hx as [->|Hx]; apply elem_of_cons in Hy as [->|Hy]; [done|..|by apply IH];
      destruct Hz; rewrite list_elem_of_fmap; eauto. }
  apply (Hinj (DxEntry.mk 0 b0 :: es)); [done|apply find_loop_in..|done].
Qed.

(** A hash above one that falls in the same slot is not in the array. *)
Lemma same_slot_fresh c es t h : sorted (c :: es) → 0 ≤ hash c ≤ t → t < h →
  find_loop c es t = find_loop c es h → 0 < h ∧ hash (find_loop c es h) < h ∧ h ∉ hash <$> es.
Proof.
  intros Hs Hc Ht E. assert (Hslot : hash (find_loop c es h) < h).
  { rewrite <-E. apply (Z.le_lt_trans _ t); [by apply find_loop_le; lia|done]. }
  split; [lia|]. split; [done|]. intros (x & Hx & Hin)%list_elem_of_fmap.
  pose proof (find_loop_next c es h x Hs ltac:(set_solver) ltac:(lia)). lia.
Qed.

Lemma slot_between c es h t : sorted (c :: es) → h ≤ t → hash (find_loop c es t) ≤ h →
  find_loop c es t = find_loop c es h.
Proof.
  intros Hs Ht Hle. apply (sorted_hash_inj (c :: es)); [done|apply find_loop_in..|].
  pose proof (find_loop_mono c es h t Hs Ht).
  pose proof (find_loop_next c es h (find_loop c es t) Hs (find_loop_in _ _ _) Hle). lia.
Qed.

(** C33: a full leaf is split and the index still finds every name.  Take the
    root of a one-level hash index and a well-formed leaf all of whose names
    the index routes to block [b].  [plan_leaf_split] fails only when all the
    names have one hash.  Otherwise its two blocks together hold exactly the
    leaf's entries; inserting the split hash with the new block [nb] into the
    root is refused only when the root is full; and in the new root, which is
    again a well-formed index, every name of the left half is routed to [b],
    every name of the right half to [nb], and a name that was routed to another
    block still is. *)
Theorem split_keeps_names_reachable info pre post limit b0 es rd seed unsigned hft chunks rest b nb :
  index_ok info pre post limit b0 es →
  Forall (chunk_ok hft) chunks → zlen (concat chunks) < 2 ^ 16 →
  0 ≤ nb < 2 ^ 32 → nb ∉ b0 :: (DxEntry.block <$> es) →
  let routed root name b := lookup_leaf_with rd name root seed unsigned = Ok (Some b) in
  let root := root_block pre post limit b0 es in
  let leaf := concat chunks ++ rest in
  let version := effective_version (DxRootInfo.hash_version info) unsigned in
  (∀ e, e ∈ entries_of hft chunks → routed root (DirEntry.name e) b) →
  match plan_leaf_split leaf version seed hft (zlen leaf) (zlen rest) with
  | Ok s => ∃ ls rs,
      left_bytes s = concat ls ++ zrep (zlen rest) 0 ∧ right_bytes s = concat rs ++ zrep (zlen rest) 0 ∧
      Forall (chunk_ok hft) (ls ++ rs) ∧ entries_of hft ls ++ entries_of hft rs ≡ₚ entries_of hft chunks ∧
      entries_of hft ls ≠ [] ∧ entries_of hft rs ≠ [] ∧
      match plan_insert_dx_entry_root root (zlen pre) (split_out_hash s) nb with
      | Ok root' => 1 + zlen es < limit ∧
          (∃ post' es', root' = root_block pre post' limit b0 es' ∧ index_ok info pre post' limit b0 es') ∧
          (∀ e, e ∈ entries_of hft ls → routed root' (DirEntry.name e) b) ∧
          (∀ e, e ∈ entries_of hft rs → routed root' (DirEntry.name e) nb) ∧
          (∀ name b', b' ≠ b → routed root name b' → routed root' name b')
      | Err e => e = CorruptExtentTree "NEEDS_PARENT_SPLIT: dx node full" ∧ 1 + zlen es = limit
      | _ => False
      end
  | Err _ => ∀ e e', e ∈ entries_of hft chunks → e' ∈ entries_of hft chunks →
      entry_key version seed e = entry_key version seed e'
  | _ => False
  end.
Proof.
  intros Hi Hc Hl Hnb Hnew routed root leaf version Hr.
  set (slot := λ t, find_loop (DxEntry.mk 0 b0) es t).
  assert (Hroute : ∀ name b, routed root name b → DxEntry.block (slot (major (name_hash name version seed))) = b).
  { intros name b' E. unfold routed, root in E. rewrite (lookup_root rd info) in E by done. by injection E. }
  pose proof (plan_leaf_split_spec hft version seed chunks rest Hc Hl) as Hs. cbv zeta in Hs. fold leaf in Hs.
  destruct (plan_leaf_split leaf version seed hft (zlen leaf) (zlen rest)) as [s|?| |]; [|done..].
  destruct Hs as (ls & rs & El & Er & Hls & Hrs & _ & _ & Hp & Hnl & Hnr & Hlt & Hge & ek & Hek & Hsk).
  exists ls, rs. split; [done|]. split; [done|]. split; [by apply Forall_app|]. do 3 (split; [done|]).
  set (h := split_out_hash s) in *. rewrite Forall_forall in Hlt, Hge.
  assert (Hin : ∀ e, e ∈ entries_of hft ls ∨ e ∈ entries_of hft rs → slot (entry_key version seed e) = slot h).
  { intros e He. rewrite Hsk. apply (same_slot info pre post limit b0 es _ _ Hi). fold (slot (entry_key version seed e)).
    fold (slot (entry_key version seed ek)). unfold entry_key. transitivity b.
    - apply Hroute, Hr. rewrite <-Hp. set_solver.
    - symmetry. by apply Hroute, Hr. }
  pose proof (name_hash_major (DirEntry.name ek) version seed) as [Hr32 _]. fold (entry_key version seed ek) in Hr32.
  rewrite <-Hsk in Hr32. unfold END_OF_DIRECTORY_MAJOR in Hr32.
  destruct (entries_of hft ls) as [|e0 es0] eqn:Els; [done|]. rewrite <-Els in *.
  assert (He0 : e0 ∈ entries_of hft ls) by (rewrite Els; set_solver).
  pose proof (name_hash_major (DirEntry.name e0) version seed) as [Hr0 _].
  destruct (same_slot_fresh (DxEntry.mk 0 b0) es (entry_key version seed e0) h) as (H0 & Hslot & Hfresh);
    [apply Hi|split; [done|apply Hr0]|by apply Hlt|apply Hin; by left|].
  destruct (decide (1 + zlen es < limit)) as [Hroom|Hfull].
  2: { unfold plan_insert_dx_entry_root, root, root_block. pose proof (io_array _ _ _ _ _ _ Hi) as Ha.
    rewrite plan_insert_dx_entry_generic_spec by done. destruct Ha as (? & _). rewrite decide_True by lia. split; [done|lia]. }
  destruct (index_insert info pre post limit b0 es h nb Hi Hroom ltac:(lia) Hnb Hfresh Hnew) as [E Hi'].
  unfold root. rewrite E. split; [done|]. split; [eauto|].
  pose proof (λ name, lookup_inserted rd info seed unsigned pre post limit b0 es h nb name Hi Hi' H0 Hfresh) as R.
  cbv zeta in R. fold version in R. change (find_loop (DxEntry.mk 0 b0) es) with slot in R.
  split; [|split].
  - intros e He. specialize (R (DirEntry.name e)). specialize (Hlt e He). unfold entry_key in Hlt.
    rewrite decide_False in R by lia. rewrite (Hroute _ b) in R; [done|]. apply Hr. rewrite <-Hp. set_solver.
  - intros e He. specialize (R (DirEntry.name e)). specialize (Hge e He). rewrite decide_True in R; [done|].
    fold (entry_key version seed e). rewrite Hin by auto. unfold slot. lia.
  - intros name b' Hb' Ho. specialize (R name). apply Hroute in Ho.
    rewrite decide_False in R; [by rewrite Ho in R|]. intros [Ht Hsl]. apply Hb'. rewrite <-Ho.
    unfold slot. rewrite (slot_between _ _ h) by (apply Hi || done). fold (slot h). rewrite <-(Hin e0) by auto.
    apply Hroute, Hr. rewrite <-Hp. set_solver.
Qed.

(** A half-MD4 root with two slots of four, the second from hash 400000000 on
    leading to the sample leaf in block 2. *)
Definition sample_pre : bytes := zrep 28 0 ++ [1; 8; 0; 0].
Definition sample_info : DxRootInfo.t := DxRootInfo.mk 0 HalfMd4 8 0 0.

Lemma sample_index_ok : index_ok sample_info sample_pre (zrep 28 0) 4 1 [DxEntry.mk 400000000 2].
Proof.
  constructor; [reflexivity|by_compute|reflexivity| |by_compute| |by_compute].
  - split; [by_compute|]. split; [lia|]. repeat constructor; cbn; lia.
  - repeat constructor; cbn; lia.
Qed.

Lemma split_keeps_names_reachable_witness :
  let seed := [1; 2; 3; 4] in
  let root := root_block sample_pre (zrep 28 0) 4 1 [DxEntry.mk 400000000 2] in
  let look root name := lookup_leaf_with (λ _, Panic) name root seed false in
  (∃ s root', plan_leaf_split (concat sample_leaf ++ zrep 12 7) HalfMd4 seed true 64 12 = Ok s ∧
    plan_insert_dx_entry_root root 32 (split_out_hash s) 3 = Ok root' ∧
    look root [97] = Ok (Some 2) ∧ look root [98] = Ok (Some 2) ∧
    look root' [97] = Ok (Some 3) ∧ look root' [98] = Ok (Some 2)) ∧
  plan_leaf_split (concat colliding_leaf ++ zrep 12 7) HalfMd4 seed true 64 12 =
    Err (Corrupt "htree leaf split: every name in the leaf has the same hash").
Proof.
  intros seed root look. split; [|vm_compute; reflexivity].
  pose proof (split_keeps_names_reachable sample_info sample_pre (zrep 28 0) 4 1 [DxEntry.mk 400000000 2]
    (λ _, Panic) seed false true sample_leaf (zrep 12 7) 2 3 sample_index_ok ltac:(by_compute) ltac:(by_compute)
    ltac:(lia) ltac:(by_compute)) as H.
  cbv zeta in H. specialize (H ltac:(apply Forall_forall; by_compute)).
  change (zlen (zrep 12 7)) with 12 in H. change (zlen (concat sample_leaf ++ zrep 12 7)) with 64 in H.
  destruct (plan_leaf_split _ _ _ _ _ _) as [s|e| |] eqn:E; try (vm_compute in E; discriminate).
  destruct H as (ls & rs & _ & _ & _ & _ & _ & _ & H). change (zlen sample_pre) with 32 in H. fold root in H.
  destruct (plan_insert_dx_entry_root root 32 (split_out_hash s) 3) as [root'|e| |] eqn:E'; [|by destruct H..].
  exists s, root'. split; [reflexivity|]. split; [done|]. clear H.
  vm_compute in E. injection E as <-. vm_compute in E'. injection E' as <-. repeat split; vm_compute; reflexivity.
Defined.
