(* ===== verification/Alloc.v ===== *)
(** Alloc: the block and inode bitmap allocator (src/src/alloc.rs): the
    word-at-a-time bitmap scans, the plans for a run of blocks and for an inode,
    the bitmap an uninitialised group stands for, and applying a plan to a
    bitmap.  The specification is the obvious bit-by-bit one. *)
From S2P Require Import Prelude Errors Bytes Device Features Superblock Checksum Bgd.

Record BitmapWrite := mkBitmapWrite { bitmap_block : Z; bit_start : Z; bw_count : Z; bw_set : bool }.
Record BgdCounterUpdate := mkBgdUpdate {
  group_idx : Z; bgd_free_blocks_delta : Z; bgd_free_inodes_delta : Z; used_dirs_delta : Z }.
Record SuperblockCounterUpdate := mkSbUpdate { sb_free_blocks_delta : Z; sb_free_inodes_delta : Z }.
Record BlockAllocationPlan := mkBlockPlan {
  first_block : Z; count : Z; bp_bitmap : BitmapWrite; bp_bgd : BgdCounterUpdate;
  bp_sb : SuperblockCounterUpdate }.
Record InodeAllocationPlan := mkInodePlan {
  ip_inode : Z; is_dir : bool; ip_bitmap : BitmapWrite; ip_bgd : BgdCounterUpdate;
  ip_sb : SuperblockCounterUpdate }.

(** ** Bits *)

Definition bit_is_set (bitmap : bytes) (idx : Z) : bool :=
  let byte := idx / 8 in
  let mask := Z.shiftl 1 (idx mod 8) in
  bool_decide (byte < zlen bitmap) && bool_decide (Z.land (byte_at bitmap byte) mask ≠ 0).

(** [bitmap[byte] |= 1 << (bit % 8)] *)
Definition or_bit (bitmap : bytes) (bit : Z) : res bytes :=
  let byte := bit / 8 in
  b ← get bitmap byte;
  put bitmap byte [Z.lor b (Z.shiftl 1 (bit mod 8))].

(** [max_bits.min(u32::try_from(bitmap.len() * 8).unwrap_or(u32::MAX))] *)
Definition clamp_bits (bitmap : bytes) (max_bits : Z) : Z :=
  Z.min max_bits (Z.min (zlen bitmap * 8) u32_max).

(** The per-bit loops: scan from [i], below [max_bits], and (with [aligned]) only
    up to the next multiple of 64; [inl] is the bit found, [inr] where the loop
    stopped. *)
Fixpoint scan_bits (fuel : nat) (bitmap : bytes) (aligned : bool) (i max_bits : Z) : res (Z + Z) :=
  if decide (i < max_bits ∧ (aligned = true → i mod 64 ≠ 0)) then
    match fuel with
    | O => OutOfFuel
    | S fuel => if negb (bit_is_set bitmap i) then Ok (inl i)
                else scan_bits fuel bitmap aligned (i + 1) max_bits
    end
  else Ok (inr i).

(** [w.trailing_ones()] *)
Fixpoint trailing_ones_from (n : nat) (w i : Z) : Z :=
  match n with
  | O => i
  | S n => if Z.testbit w i then trailing_ones_from n w (i + 1) else i
  end.
Definition trailing_ones (w : Z) : Z := trailing_ones_from 64 w 0.

(** The word loop: [inl] is the function's result, [inr] where the loop ended. *)
Fixpoint scan_words (fuel : nat) (bitmap : bytes) (i max_bits : Z) : res (option Z + Z) :=
  if decide (i + 64 ≤ max_bits) then
    match fuel with
    | O => OutOfFuel
    | S fuel =>
        let byte := i / 8 in
        if decide (zlen bitmap < byte + 8) then Ok (inr i) else
        word ← u64_le bitmap byte;
        if decide (word ≠ u64_max) then
          let cand := i + trailing_ones word in
          Ok (inl (if decide (cand < max_bits) then Some cand else None))
        else scan_words fuel bitmap (i + 64) max_bits
    end
  else Ok (inr i).

Definition find_first_free (bitmap : bytes) (start max_bits : Z) : res (option Z) :=
  let max_bits := clamp_bits bitmap max_bits in
  if decide (max_bits ≤ start) then Ok None else
  r ← scan_bits 64 bitmap true start max_bits;
  match r with
  | inl i => Ok (Some i)
  | inr i =>
      r ← scan_words (S (length bitmap)) bitmap i max_bits;
      match r with
      | inl o => Ok o
      | inr i =>
          r ← scan_bits 64 bitmap false i max_bits;
          match r with inl i => Ok (Some i) | inr _ => Ok None end
      end
  end.

(** The run check: the first used bit in [j, run_end), or [run_end]. *)
Fixpoint run_check (n : nat) (bitmap : bytes) (j run_end : Z) : Z :=
  match n with
  | O => j
  | S n => if decide (j < run_end ∧ bit_is_set bitmap j = false)
           then run_check n bitmap (j + 1) run_end else j
  end.

Definition checked_add32 (x y : Z) : option Z := if decide (x + y ≤ u32_max) then Some (x + y) else None.

Fixpoint free_run_loop (fuel : nat) (bitmap : bytes) (i max_bits count : Z) : res (option Z) :=
  match checked_add32 i count with
  | Some stop =>
      if decide (stop ≤ max_bits) then
        match fuel with
        | O => OutOfFuel
        | S fuel =>
            o ← find_first_free bitmap i max_bits;
            match o with
            | None => Ok None
            | Some run_start =>
                match checked_add32 run_start count with
                | None => Ok None
                | Some run_end =>
                    if decide (run_end ≤ max_bits) then
                      let j := run_check (Z.to_nat count) bitmap (run_start + 1) run_end in
                      if decide (j = run_end) then Ok (Some run_start) else
                      match checked_add32 j 1 with
                      | None => Ok None
                      | Some i => free_run_loop fuel bitmap i max_bits count
                      end
                    else Ok None
                end
            end
        end
      else Ok None
  | None => Ok None
  end.

Definition find_free_run (bitmap : bytes) (start max_bits count : Z) : res (option Z) :=
  if decide (count = 0) then Ok None else
  let max_bits := clamp_bits bitmap max_bits in
  free_run_loop (S (Z.to_nat max_bits)) bitmap start max_bits count.

(** ** Groups *)

(** The blocks that exist in a group; [parse] refuses a zero [blocks_per_group]. *)
Definition blocks_in_group (sb : Superblock.t) (gi : Z) : Z :=
  let ngroups := as_u32 (Superblock.block_group_count sb) in
  if decide (as_u32 (gi + 1) < ngroups) then Superblock.blocks_per_group sb else
  let remainder := saturating_sub (Superblock.blocks_count sb) (Superblock.first_data_block sb)
                     mod Superblock.blocks_per_group sb in
  if decide (remainder = 0) then Superblock.blocks_per_group sb else as_u32 remainder.

Definition group_first_block (sb : Superblock.t) (gi : Z) : Z :=
  gi * Superblock.blocks_per_group sb + Superblock.first_data_block sb.

Definition mark_reserved_in_group (sb : Superblock.t) (gi max_bits : Z) (reserved : list Z)
    (bitmap : bytes) : res bytes :=
  let first := group_first_block sb gi in
  foldM (λ bitmap block,
    match checked_sub block first with
    | None => Ok bitmap
    | Some offset =>
        if decide (max_bits ≤ offset) then Ok bitmap else
        let byte := offset / 8 in
        if decide (byte < zlen bitmap) then or_bit bitmap offset else Ok bitmap
    end) bitmap reserved.

Definition reserved_blocks (data : BlockAllocationPlan) (handed_out : list BlockAllocationPlan) : list Z :=
  concat ((λ p, (λ i, first_block p + i) <$> seqZ 0 (count p)) <$> data :: handed_out).

(** [a.checked_sub(first)], and the range pushed if it starts in the group. *)
Definition push_range (group_first group_len : Z) (used : list (Z * Z)) (r : Z * Z) : list (Z * Z) :=
  match checked_sub (fst r) group_first with
  | None => used
  | Some relative =>
      if decide (relative < group_len)
      then used ++ [(relative, Z.min (relative + snd r) group_len)] else used
  end.

Definition uninit_group_used_ranges (sb : Superblock.t) (groups : list Bgd.t) (gi : Z)
    : res (list (Z * Z)) :=
  let group_first := group_first_block sb gi in
  let group_len := blocks_in_group sb gi in
  head ← Superblock.group_head_metadata_blocks sb gi;
  let used := if decide (0 < head) then [(0, Z.min head group_len)] else [] in
  match groups !! Z.to_nat gi with
  | None => Ok used
  | Some desc =>
      let table_len := div_ceil (Superblock.inodes_per_group sb * Superblock.inode_size sb)
                         (Superblock.block_size sb) in
      Ok (foldl (push_range group_first group_len) used
        [(Bgd.block_bitmap desc, 1); (Bgd.inode_bitmap desc, 1); (Bgd.inode_table desc, table_len)])
  end.

Definition uninit_block_bitmap (sb : Superblock.t) (groups : list Bgd.t) (gi : Z) : res bytes :=
  let bitmap := zrep (Superblock.block_size sb) 0 in
  let capacity := zlen bitmap * 8 in
  let padding := (Z.min (blocks_in_group sb gi) capacity, capacity) in
  used ← uninit_group_used_ranges sb groups gi;
  foldM (λ bitmap r,
    let start := Z.min (fst r) capacity in
    foldM or_bit bitmap (seqZ start (Z.min (snd r) capacity - start))) bitmap (used ++ [padding]).

(** ** The block planner *)

Section plan.
Context (sb : Superblock.t) (groups : list Bgd.t) (bitmap_reader : Z → res bytes).

(** The bitmap a group is planned against. *)
Definition group_bitmap (gi : Z) (bgd : Bgd.t) : res bytes :=
  if has_bits (Bgd.flags bgd) Bgd.BLOCK_UNINIT then uninit_block_bitmap sb groups gi
  else bitmap_reader (Bgd.block_bitmap bgd).

(** One iteration over the groups; [None] is [continue]. *)
Definition try_group (count : Z) (reserved : list Z) (gi : Z) : res (option BlockAllocationPlan) :=
  bgd ← unwrap (groups !! Z.to_nat gi);
  if decide (Bgd.free_blocks_count bgd < count) then Ok None else
  let max_bits := blocks_in_group sb gi in
  bitmap_bytes ← group_bitmap gi bgd;
  bitmap_bytes ← mark_reserved_in_group sb gi max_bits reserved bitmap_bytes;
  o ← find_free_run bitmap_bytes 0 max_bits count;
  match o with
  | None => Ok None
  | Some bit_start =>
      let first_block := group_first_block sb gi + bit_start in
      Ok (Some (mkBlockPlan first_block count
        (mkBitmapWrite (Bgd.block_bitmap bgd) bit_start count true)
        (mkBgdUpdate gi (as_i32 (- as_i32 count)) 0 0)
        (mkSbUpdate (- count) 0)))
  end.

Fixpoint first_of {A B} (f : A → res (option B)) (l : list A) : res (option B) :=
  match l with
  | [] => Ok None
  | x :: l => o ← f x; match o with Some b => Ok (Some b) | None => first_of f l end
  end.

(** The groups in the order they are tried. *)
Definition group_order (ngroups hint : Z) : list Z :=
  (λ step, as_u32 (hint + step) mod ngroups) <$> seqZ 0 ngroups.

Definition plan_block_allocation_excluding (count hint_group : Z) (reserved : list Z)
    : res BlockAllocationPlan :=
  if decide (count = 0) then Err (Corrupt "plan_block_allocation: count == 0") else
  let ngroups := as_u32 (zlen groups) in
  if decide (ngroups = 0) then Err (Corrupt "no block groups") else
  let hint := Z.min hint_group (saturating_sub ngroups 1) in
  o ← first_of (try_group count reserved) (group_order ngroups hint);
  ok_or o (Corrupt "no group has a contiguous free run of this size").

Definition plan_block_allocation (count hint_group : Z) : res BlockAllocationPlan :=
  plan_block_allocation_excluding count hint_group [].

(** ** The inode planner *)

Definition orlov_score (avg_free_inodes avg_used_dirs : Z) (g : Bgd.t) : Z :=
  let fi := Bgd.free_inodes_count g in
  let ud := Bgd.used_dirs_count g in
  fi - ud + (if decide (avg_free_inodes ≤ fi) then 1000 else 0)
          + (if decide (ud ≤ avg_used_dirs) then 500 else 0).

Definition orlov_select_group (hint : Z) : res Z :=
  let ngroups := as_u32 (zlen groups) in
  if decide (ngroups = 0) then Ok 0 else
  let hint := Z.min hint (saturating_sub ngroups 1) in
  let total_free_inodes := foldr Z.add 0 (Bgd.free_inodes_count <$> groups) in
  let total_used_dirs := foldr Z.add 0 (Bgd.used_dirs_count <$> groups) in
  let avg_free_inodes := total_free_inodes / ngroups in
  let avg_used_dirs := total_used_dirs / ngroups in
  best ← foldM (λ best gi,
    g ← unwrap (groups !! Z.to_nat gi);
    let score := orlov_score avg_free_inodes avg_used_dirs g in
    Ok (if decide ((match best with Some (_, best_score) => best_score | None => - 2 ^ 63 end) < score ∧
                   0 < Bgd.free_inodes_count g)
        then Some (gi, score) else best)) None (group_order ngroups hint);
  Ok (default hint (fst <$> best)).

Definition group_inode_bitmap (bgd : Bgd.t) : res bytes :=
  if has_bits (Bgd.flags bgd) Bgd.INODE_UNINIT then Ok (zrep (Superblock.block_size sb) 0)
  else bitmap_reader (Bgd.inode_bitmap bgd).

Definition try_inode_group (is_dir : bool) (gi : Z) : res (option InodeAllocationPlan) :=
  bgd ← unwrap (groups !! Z.to_nat gi);
  if decide (Bgd.free_inodes_count bgd = 0) then Ok None else
  let max_bits := Superblock.inodes_per_group sb in
  bitmap_bytes ← group_inode_bitmap bgd;
  let before_group := gi * Superblock.inodes_per_group sb in
  let floor := saturating_sub (saturating_sub (Superblock.first_inode sb) 1) before_group in
  let floor := Z.min floor u32_max in
  o ← find_first_free bitmap_bytes floor max_bits;
  match o with
  | None => Ok None
  | Some bit_start =>
      let n := gi * Superblock.inodes_per_group sb + (bit_start + 1) in
      if decide (u64_max < n ∨ Superblock.inodes_count sb < n)
      then Err (Corrupt "the group's inode range does not fit in the filesystem") else
      Ok (Some (mkInodePlan (as_u32 n) is_dir
        (mkBitmapWrite (Bgd.inode_bitmap bgd) bit_start 1 true)
        (mkBgdUpdate gi 0 (-1) (if is_dir then 1 else 0))
        (mkSbUpdate 0 (-1))))
  end.

Definition plan_inode_allocation (is_dir : bool) (hint_group : Z) : res InodeAllocationPlan :=
  let ngroups := as_u32 (zlen groups) in
  if decide (ngroups = 0) then Err (Corrupt "no block groups") else
  start_group ← (if is_dir then orlov_select_group hint_group
                 else Ok (Z.min hint_group (saturating_sub ngroups 1)));
  o ← first_of (try_inode_group is_dir) (group_order ngroups start_group);
  ok_or o (Corrupt "no group has a free inode").
End plan.

(** ** Applying a plan *)

Fixpoint apply_bits (set : bool) (idxs : list Z) (buf : bytes) : res bytes :=
  match idxs with
  | [] => Ok buf
  | idx :: idxs =>
      let byte := idx / 8 in
      let mask := Z.shiftl 1 (idx mod 8) in
      if decide (zlen buf ≤ byte) then Ok buf else
      b ← get buf byte;
      buf ← put buf byte [if set then Z.lor b mask else Z.land b (Z.lxor mask 0xFF)];
      apply_bits set idxs buf
  end.

Definition apply_bitmap_write (buf : bytes) (w : BitmapWrite) : res bytes :=
  apply_bits (bw_set w) ((λ b, as_u32 (bit_start w + b)) <$> seqZ 0 (bw_count w)) buf.

(** ** Specification and correctness of the scans *)

(** A bit of a bitmap; past the end there are none. *)
Definition bit (bitmap : bytes) (i : Z) : bool := Z.testbit (byte_at bitmap (i / 8)) (i mod 8).

Lemma byte_at_past b i : zlen b ≤ i → 0 ≤ i → byte_at b i = 0.
Proof. intros. unfold byte_at. rewrite lookup_ge_zlen by lia. done. Qed.

Lemma land_pow2_testbit x k : 0 ≤ k → Z.land x (Z.shiftl 1 k) ≠ 0 ↔ Z.testbit x k = true.
Proof.
  intros Hk. rewrite Z.shiftl_1_l. split.
  - intros H. destruct (Z.testbit x k) eqn:E; [done|]. exfalso. apply H. apply Z.bits_inj'. intros i Hi.
    rewrite Z.land_spec, Z.bits_0, Z.pow2_bits_eqb by lia.
    destruct (Z.eqb_spec k i) as [<-|]; [by rewrite E|by rewrite andb_false_r].
  - intros H E. assert (Z.testbit (Z.land x (2 ^ k)) k = false) by (by rewrite E, Z.bits_0).
    rewrite Z.land_spec, H, Z.pow2_bits_true in * by lia. done.
Qed.

Lemma bit_is_set_bit bitmap i : 0 ≤ i → bit_is_set bitmap i = bit bitmap i.
Proof.
  intros Hi. unfold bit_is_set, bit. pose proof (Z.mod_pos_bound i 8 ltac:(lia)).
  pose proof (Z.div_pos i 8 Hi ltac:(lia)).
  destruct (decide (i / 8 < zlen bitmap)) as [Hlt|Hge].
  - rewrite (bool_decide_true (i / 8 < zlen bitmap)) by done. simpl. apply eq_true_iff_eq.
    rewrite bool_decide_eq_true. by apply land_pow2_testbit; lia.
  - rewrite bool_decide_false by done. rewrite byte_at_past by lia. by rewrite Z.bits_0.
Qed.

(** Bit [8 * q + r] of a little-endian word is bit [r] of its byte [q]. *)
Lemma le_combine_testbit l q r : bytes_ok l → 0 ≤ r < 8 →
  Z.testbit (le_combine l) (8 * Z.of_nat q + r) = Z.testbit (default 0 (l !! q)) r.
Proof.
  intros Hb Hr. revert q. induction Hb as [|b l Hb0 Hb IH]; intros q.
  - change (le_combine []) with 0. by rewrite !Z.bits_0.
  - change (le_combine (b :: l)) with (b + 256 * le_combine l).
    assert (E : ∀ k, 0 ≤ k → Z.testbit (b + 256 * le_combine l) k =
      if decide (k < 8) then Z.testbit b k else Z.testbit (le_combine l) (k - 8)).
    { intros k Hk. replace (b + 256 * le_combine l) with (Z.lor (Z.shiftl (le_combine l) 8) b)
        by (rewrite lor_shiftl_add by lia; lia).
      rewrite Z.lor_spec, Z.shiftl_spec by lia. case_decide.
      - by rewrite Z.testbit_neg_r by lia.
      - replace (Z.testbit b k) with false; [by rewrite orb_false_r|].
        symmetry. destruct (decide (b = 0)) as [->|]; [by rewrite Z.bits_0|].
        apply Z.bits_above_log2; [lia|]. assert (Z.log2 b < 8) by (apply Z.log2_lt_pow2; lia). lia. }
    destruct q as [|q]; simpl lookup.
    + rewrite E by lia. rewrite decide_True by lia. by replace (8 * Z.of_nat 0 + r) with r by lia.
    + rewrite E by lia. rewrite decide_False by lia. rewrite <-IH. f_equal. lia.
Qed.

Lemma word_bit bitmap i k : bytes_ok bitmap → 0 ≤ i → i mod 64 = 0 → 0 ≤ k < 64 →
  Z.testbit (le64 bitmap (i / 8)) k = bit bitmap (i + k).
Proof.
  intros Hb Hi H64 Hk. unfold le64, bit.
  pose proof (Z.div_mod k 8 ltac:(lia)) as Ek. pose proof (Z.mod_pos_bound k 8 ltac:(lia)).
  assert (0 ≤ k / 8 < 8) by (split; [apply Z.div_pos; lia|apply Z.div_lt_upper_bound; lia]).
  rewrite Ek at 1. replace (k / 8) with (Z.of_nat (Z.to_nat (k / 8))) by lia.
  rewrite le_combine_testbit by (auto using bytes_ok_sub || lia).
  apply Z.mod_divide in H64 as [q ->]; [|lia].
  replace ((q * 64 + k) mod 8) with (k mod 8)
    by (replace (q * 64 + k) with (k + (q * 8) * 8) by lia; by rewrite Z.mod_add by lia).
  replace ((q * 64 + k) / 8) with (k / 8 + q * 8)
    by (replace (q * 64 + k) with (k + (q * 8) * 8) by lia; by rewrite Z.div_add by lia).
  replace (q * 64 / 8) with (q * 8) by (replace (q * 64) with (q * 8 * 8) by lia; by rewrite Z.div_mul by lia).
  unfold byte_at. f_equal. rewrite lookup_sub, decide_True by lia. do 2 f_equal. lia.
Qed.

Lemma trailing_ones_from_spec n w i : 0 ≤ i →
  let t := trailing_ones_from n w i in
  i ≤ t ≤ i + Z.of_nat n ∧ (∀ k, i ≤ k < t → Z.testbit w k = true) ∧
  (t < i + Z.of_nat n → Z.testbit w t = false).
Proof.
  revert i. induction n as [|n IH]; intros i Hi; cbn [trailing_ones_from]; [split_and!; lia|].
  destruct (Z.testbit w i) eqn:E; [|split; [lia|]; split; [lia|done]].
  destruct (IH (i + 1) ltac:(lia)) as (H1 & H2 & H3). split; [lia|]. split; [|intros; apply H3; lia].
  intros k Hk. destruct (decide (k = i)) as [->|]; [done|]. apply H2. lia.
Qed.

(** A 64-bit word other than all ones has a zero bit. *)
Lemma word_has_zero w : 0 ≤ w < 2 ^ 64 → w ≠ u64_max → ∃ k, 0 ≤ k < 64 ∧ Z.testbit w k = false.
Proof.
  intros Hw Hn. destruct (trailing_ones_from_spec 64 w 0 ltac:(lia)) as (H1 & H2 & H3).
  set (t := trailing_ones_from 64 w 0) in *. destruct (decide (t = 64)) as [E|]; [|exists t; split; [lia|apply H3; lia]].
  exfalso. apply Hn. unfold u64_max. change (2 ^ 64 - 1) with (Z.ones 64). apply Z.bits_inj'. intros k Hk.
  destruct (decide (k < 64)).
  - rewrite H2, Z.ones_spec_low by lia. done.
  - rewrite Z.ones_spec_high by lia. rewrite <-(Z.mod_small w (2 ^ 64)) by lia.
    by rewrite Z.mod_pow2_bits_high by lia.
Qed.

Lemma trailing_ones_zero w : 0 ≤ w < 2 ^ 64 → w ≠ u64_max →
  0 ≤ trailing_ones w < 64 ∧ Z.testbit w (trailing_ones w) = false ∧
  ∀ k, 0 ≤ k < trailing_ones w → Z.testbit w k = true.
Proof.
  intros Hw Hn. destruct (word_has_zero w Hw Hn) as (k & Hk & Ek). unfold trailing_ones.
  destruct (trailing_ones_from_spec 64 w 0 ltac:(lia)) as (H1 & H2 & H3).
  set (t := trailing_ones_from 64 w 0) in *. assert (t ≤ k).
  { destruct (decide (t ≤ k)); [done|]. rewrite H2 in Ek by lia. done. }
  split; [lia|]. split; [apply H3; lia|done].
Qed.

Lemma u64_max_bits k : 0 ≤ k < 64 → Z.testbit u64_max k = true.
Proof. intros. unfold u64_max. change (2 ^ 64 - 1) with (Z.ones 64). by apply Z.ones_spec_low. Qed.

(** [i] is the first clear bit of [lo, hi). *)
Definition first_clear (bitmap : bytes) (lo hi i : Z) : Prop :=
  lo ≤ i < hi ∧ bit bitmap i = false ∧ ∀ j, lo ≤ j < i → bit bitmap j = true.
Definition all_set (bitmap : bytes) (lo hi : Z) : Prop := ∀ j, lo ≤ j < hi → bit bitmap j = true.

Lemma first_clear_extend bitmap lo mid hi i : lo ≤ mid →
  all_set bitmap lo mid → first_clear bitmap mid hi i → first_clear bitmap lo hi i.
Proof.
  intros Hm Ha (H1 & H2 & H3). split; [lia|]. split; [done|]. intros j Hj.
  destruct (decide (j < mid)); [apply Ha; lia|apply H3; lia].
Qed.

Lemma scan_bits_spec bitmap (aligned : bool) hi : ∀ fuel i, 0 ≤ i →
  (if aligned then (64 - i mod 64) mod 64 ≤ Z.of_nat fuel else hi - i ≤ Z.of_nat fuel) →
  ∃ r, scan_bits fuel bitmap aligned i hi = Ok r ∧
  match r with
  | inl k => first_clear bitmap i hi k
  | inr k => i ≤ k ∧ (k ≤ Z.max i hi) ∧ all_set bitmap i k ∧ (k < hi → aligned = true ∧ k mod 64 = 0)
  end.
Proof.
  induction fuel as [|fuel IH]; intros i Hi Hf; cbn [scan_bits].
  - rewrite decide_False.
    2:{ intros [H1 H2]. destruct aligned; [|lia]. specialize (H2 eq_refl).
        pose proof (Z.mod_pos_bound i 64 ltac:(lia)). rewrite Z.mod_small in Hf by lia. lia. }
    eexists; split; [done|]. split; [lia|]. split; [lia|]. split; [intros j Hj; lia|]. intros Hlt.
    destruct aligned; [|lia]. split; [done|]. pose proof (Z.mod_pos_bound i 64 ltac:(lia)).
    destruct (decide (i mod 64 = 0)); [done|]. rewrite Z.mod_small in Hf by lia. lia.
  - case_decide as Hc.
    + rewrite bit_is_set_bit by done. destruct (bit bitmap i) eqn:Eb; cbn [negb].
      2:{ eexists; split; [done|]. split; [lia|]. split; [done|]. intros j Hj. lia. }
      destruct Hc as [Hlt Hal]. destruct (IH (i + 1)) as (r & Er & Hr); [lia| |].
      { destruct aligned; [|lia]. specialize (Hal eq_refl). pose proof (Z.mod_pos_bound i 64 ltac:(lia)).
        assert (E1 : (i + 1) mod 64 = (i mod 64 + 1) mod 64) by (by rewrite Zplus_mod_idemp_l).
        rewrite E1. set (m := i mod 64) in *. rewrite (Z.mod_small (64 - m)) in Hf by lia.
        destruct (decide (m = 63)) as [->|]; [by change ((64 - (63 + 1) mod 64) mod 64) with 0; lia|].
        rewrite (Z.mod_small (m + 1)), Z.mod_small by lia. lia. }
      exists r. split; [done|]. destruct r as [k|k].
      * apply (first_clear_extend _ i (i + 1)); [lia|intros j Hj; replace j with i by lia; exact Eb|exact Hr].
      * destruct Hr as (H1 & H2 & H3 & H4). split; [lia|]. split; [lia|]. split; [|done].
        intros j Hj. destruct (decide (j = i)) as [->|]; [done|]. apply H3. lia.
    + eexists; split; [done|]. split; [lia|]. split; [lia|]. split; [intros j Hj; lia|]. intros Hlt.
      destruct aligned; [|exfalso; apply Hc; done]. split; [done|].
      destruct (decide (i mod 64 = 0)); [done|]. exfalso. by apply Hc.
Qed.

Lemma scan_words_spec bitmap hi : bytes_ok bitmap → hi ≤ zlen bitmap * 8 → ∀ fuel i,
  0 ≤ i → i mod 64 = 0 → hi - i ≤ 64 * Z.of_nat fuel →
  ∃ r, scan_words fuel bitmap i hi = Ok r ∧
  match r with
  | inl o => ∃ k, o = Some k ∧ first_clear bitmap i hi k
  | inr k => i ≤ k ∧ all_set bitmap i k ∧ hi - k < 64
  end.
Proof.
  intros Hb Hhi. induction fuel as [|fuel IH]; intros i Hi H64 Hf; cbn [scan_words].
  { rewrite decide_False by lia. eexists; split; [done|]. split; [lia|]. split; [intros j Hj; lia|lia]. }
  case_decide as Hc; [|eexists; split; [done|]; split; [lia|]; split; [intros j Hj; lia|lia]].
  assert (E8 : i = 8 * (i / 8)).
  { apply Z.mod_divide in H64 as [q ->]; [|lia]. replace (q * 64) with (q * 8 * 8) by lia.
    rewrite Z.div_mul by lia. lia. }
  rewrite decide_False by lia. rewrite u64_le_ok, bind_Ok by lia.
  pose proof (le64_range bitmap (i / 8) Hb) as Hw. set (w := le64 bitmap (i / 8)) in *.
  assert (Hbit : ∀ k, 0 ≤ k < 64 → Z.testbit w k = bit bitmap (i + k)) by (intros; by apply word_bit).
  destruct (decide (w = u64_max)) as [Ew|Ew].
  - rewrite decide_False by (by intros Hn). destruct (IH (i + 64)) as (r & Er & Hr); [lia| |lia|].
    { rewrite <-Zplus_mod_idemp_l, H64. done. }
    assert (Hset : all_set bitmap i (i + 64)).
    { intros j Hj. replace j with (i + (j - i)) by lia. rewrite <-Hbit, Ew by lia. apply u64_max_bits. lia. }
    exists r. split; [done|]. destruct r as [o|k].
    + destruct Hr as (k & -> & Hk). exists k. split; [done|].
      apply (first_clear_extend _ i (i + 64)); [lia|done|done].
    + destruct Hr as (H1 & H2 & H3). split; [lia|]. split; [|done]. intros j Hj.
      destruct (decide (j < i + 64)); [apply Hset; lia|apply H2; lia].
  - rewrite decide_True by done. destruct (trailing_ones_zero w Hw Ew) as (Ht & Htz & Hto).
    rewrite decide_True by lia. eexists; split; [done|]. eexists; split; [done|].
    split; [lia|]. split; [by rewrite <-Hbit|]. intros j Hj. replace j with (i + (j - i)) by lia.
    rewrite <-Hbit by lia. apply Hto. lia.
Qed.

(** The scan agrees with a bit-by-bit search and never runs out of fuel. *)
Lemma find_first_free_ok bitmap start max_bits : bytes_ok bitmap → 0 ≤ start →
  ∃ o, find_first_free bitmap start max_bits = Ok o ∧
  match o with
  | Some i => first_clear bitmap start (clamp_bits bitmap max_bits) i
  | None => all_set bitmap start (clamp_bits bitmap max_bits)
  end.
Proof.
  intros Hb Hs. unfold find_first_free. set (hi := clamp_bits bitmap max_bits).
  assert (Hhi : hi ≤ zlen bitmap * 8) by (unfold hi, clamp_bits; lia).
  case_decide as Hc; [eexists; split; [done|]; intros j Hj; lia|].
  destruct (scan_bits_spec bitmap true hi 64 start Hs) as (r1 & -> & H1).
  { pose proof (Z.mod_pos_bound (64 - start mod 64) 64). lia. }
  rewrite bind_Ok. destruct r1 as [k|k1]; [by exists (Some k)|]. destruct H1 as (H1a & H1b & H1c & H1d).
  assert (Hk1 : k1 = hi ∨ k1 mod 64 = 0) by (destruct (decide (k1 < hi)); [right; apply H1d; lia|left; lia]).
  assert (Hw : ∃ r, scan_words (S (length bitmap)) bitmap k1 hi = Ok r ∧
    match r with inl o => ∃ k, o = Some k ∧ first_clear bitmap k1 hi k
    | inr k => k1 ≤ k ∧ all_set bitmap k1 k ∧ hi - k < 64 end).
  { destruct Hk1 as [->|H64]; [|apply scan_words_spec; unfold zlen in *; first [done|lia]].
    cbn [scan_words]. rewrite decide_False by lia. eexists; split; [done|]. split; [lia|].
    split; [intros j Hj; lia|lia]. }
  destruct Hw as (r2 & -> & H2). rewrite bind_Ok. destruct r2 as [o|k2].
  { destruct H2 as (k & -> & Hk). exists (Some k). split; [done|]. by apply (first_clear_extend _ start k1). }
  destruct H2 as (H2a & H2b & H2c).
  assert (Hset : all_set bitmap start k2).
  { intros j Hj. destruct (decide (j < k1)); [apply H1c; lia|apply H2b; lia]. }
  destruct (scan_bits_spec bitmap false hi 64 k2) as (r3 & -> & H3); [lia|lia|].
  rewrite bind_Ok. destruct r3 as [k|k3].
  { exists (Some k). split; [done|]. apply (first_clear_extend _ start k2); [lia|done|done]. }
  destruct H3 as (H3a & H3b & H3c & H3d). exists None. split; [done|]. intros j Hj.
  destruct (decide (j < k2)); [apply Hset; lia|]. apply H3c.
  destruct (decide (k3 < hi)); [by destruct H3d|lia].
Qed.

(** ** Runs *)

Definition run_free (bitmap : bytes) (s count : Z) : Prop :=
  ∀ j, s ≤ j < s + count → bit bitmap j = false.

(** What a search for a run of [count] clear bits in [start, hi) promises. *)
Definition run_spec (bitmap : bytes) (start hi count : Z) (o : option Z) : Prop :=
  match o with
  | Some s => start ≤ s ∧ s + count ≤ hi ∧ run_free bitmap s count ∧
      ∀ s', start ≤ s' < s → ¬ run_free bitmap s' count
  | None => ∀ s', start ≤ s' → s' + count ≤ hi → ¬ run_free bitmap s' count
  end.

Lemma run_check_spec bitmap run_end : ∀ n j, 0 ≤ j ≤ run_end → run_end - j ≤ Z.of_nat n →
  let j' := run_check n bitmap j run_end in
  j ≤ j' ≤ run_end ∧ (∀ k, j ≤ k < j' → bit bitmap k = false) ∧ (j' ≠ run_end → bit bitmap j' = true).
Proof.
  induction n as [|n IH]; intros j Hj Hn; cbn [run_check]; [split; [lia|]; split; [lia|]; lia|].
  case_decide as Hc.
  - destruct Hc as [Hlt Hb]. rewrite bit_is_set_bit in Hb by lia.
    destruct (IH (j + 1)) as (H1 & H2 & H3); [lia|lia|]. split; [lia|]. split; [|done].
    intros k Hk. destruct (decide (k = j)) as [->|]; [done|]. apply H2. lia.
  - split; [lia|]. split; [lia|]. intros Hne. rewrite bit_is_set_bit in Hc by lia.
    destruct (bit bitmap j); [done|]. exfalso. apply Hc. split; [lia|done].
Qed.

Lemma not_run_free bitmap s count j : s ≤ j < s + count → bit bitmap j = true → ¬ run_free bitmap s count.
Proof. intros Hj Hb Hf. rewrite Hf in Hb by done. done. Qed.

Lemma free_run_loop_spec bitmap max_bits count start : bytes_ok bitmap → 1 ≤ count →
  let hi := clamp_bits bitmap max_bits in
  ∀ fuel i, 0 ≤ i → start ≤ i → hi - i ≤ Z.of_nat fuel →
  (∀ s', start ≤ s' < i → ¬ run_free bitmap s' count) →
  ∃ o, free_run_loop fuel bitmap i hi count = Ok o ∧ run_spec bitmap start hi count o.
Proof.
  intros Hb Hcount hi. assert (Hhi : hi ≤ u32_max) by (unfold hi, clamp_bits; lia).
  assert (Hcl : clamp_bits bitmap hi = hi) by (unfold hi, clamp_bits; lia).
  assert (Hnone : ∀ i, start ≤ i → (∀ s', start ≤ s' < i → ¬ run_free bitmap s' count) → hi < i + count →
    run_spec bitmap start hi count None).
  { intros i Hi Hno Hlt s' Hs' Hfit. destruct (decide (s' < i)); [apply Hno; lia|lia]. }
  assert (Hadd : ∀ x y, x + y ≤ hi → checked_add32 x y = Some (x + y)).
  { intros x y H. unfold checked_add32. by rewrite decide_True by lia. }
  induction fuel as [|fuel IH]; intros i Hi Hsi Hf Hno; cbn [free_run_loop].
  { exists None. split; [|by apply (Hnone i); first [done|lia]]. unfold checked_add32.
    case_decide; [|done]. by rewrite decide_False by lia. }
  destruct (decide (i + count ≤ hi)) as [Hfit|Hfit].
  2:{ exists None. split; [|by apply (Hnone i); first [done|lia]]. unfold checked_add32.
      destruct (decide (i + count ≤ u32_max)); [|done]. by rewrite decide_False by lia. }
  rewrite Hadd by done. rewrite decide_True by done.
  destruct (find_first_free_ok bitmap i hi Hb Hi) as (o & -> & Ho). rewrite Hcl in Ho. rewrite bind_Ok.
  destruct o as [rs|].
  2:{ exists None. split; [done|]. intros s' Hs' Hfit'. destruct (decide (s' < i)); [apply Hno; lia|].
      apply (not_run_free _ _ _ s'); [lia|]. apply Ho. lia. }
  destruct Ho as (H1 & H2 & H3).
  assert (Hno' : ∀ s', start ≤ s' < rs → ¬ run_free bitmap s' count).
  { intros s' Hs'. destruct (decide (s' < i)); [apply Hno; lia|].
    apply (not_run_free _ _ _ s'); [lia|]. apply H3. lia. }
  destruct (decide (rs + count ≤ hi)) as [Hfit'|Hfit'].
  2:{ exists None. split; [|by apply (Hnone rs); first [done|lia]]. unfold checked_add32.
      destruct (decide (rs + count ≤ u32_max)); [|done]. by rewrite decide_False by lia. }
  rewrite Hadd by done. rewrite decide_True by done.
  destruct (run_check_spec bitmap (rs + count) (Z.to_nat count) (rs + 1)) as (Hj1 & Hj2 & Hj3); [lia|lia|].
  set (j := run_check _ _ _ _) in *. case_decide as Hend.
  - exists (Some rs). split; [done|]. split; [lia|]. split; [lia|]. split; [|done].
    intros k Hk. destruct (decide (k = rs)) as [->|]; [done|]. apply Hj2. lia.
  - rewrite Hadd by lia. apply IH; [lia|lia|lia|]. intros s' Hs'. specialize (Hj3 Hend).
    destruct (decide (s' < rs)); [apply Hno'; lia|]. apply (not_run_free _ _ _ j); [lia|done].
Qed.

Lemma find_free_run_ok bitmap start max_bits count : bytes_ok bitmap → 0 ≤ start → 1 ≤ count →
  ∃ o, find_free_run bitmap start max_bits count = Ok o ∧
    run_spec bitmap start (clamp_bits bitmap max_bits) count o.
Proof.
  intros Hb Hs Hc. unfold find_free_run. rewrite decide_False by lia.
  apply free_run_loop_spec; [done|done|done|lia|lia|]. intros s' Hs'. lia.
Qed.

(** ** Setting bits *)

Lemma byte_at_set b i x k : 0 ≤ i < zlen b → 0 ≤ k →
  byte_at (splice b i [x]) k = if decide (k = i) then x else byte_at b k.
Proof.
  intros Hi Hk. unfold byte_at. change (zlen b) with (zlen b) in *.
  rewrite lookup_splice by (change (zlen [x]) with 1; lia). change (zlen [x]) with 1.
  destruct (decide (k = i)) as [->|].
  - rewrite !decide_True by lia. by replace (Z.to_nat i - Z.to_nat i)%nat with 0%nat by lia.
  - by rewrite decide_False by lia.
Qed.

(** Replacing a byte by one that differs from it in bit [i mod 8] only. *)
Lemma bit_set_byte b i x j :
  0 ≤ i → i / 8 < zlen b → 0 ≤ j →
  (∀ k, 0 ≤ k < 8 → k ≠ i mod 8 → Z.testbit x k = Z.testbit (byte_at b (i / 8)) k) →
  bit (splice b (i / 8) [x]) j = if decide (j = i) then Z.testbit x (i mod 8) else bit b j.
Proof.
  intros Hi Hb Hj Hx. unfold bit. pose proof (Z.div_pos i 8 Hi ltac:(lia)). pose proof (Z.div_pos j 8 Hj ltac:(lia)).
  rewrite byte_at_set by lia. destruct (decide (j = i)) as [->|Hne]; [by rewrite decide_True|].
  case_decide as Hq; [|done]. pose proof (Z.mod_pos_bound j 8 ltac:(lia)).
  rewrite Hq. apply Hx; [done|]. intros Hr. apply Hne.
  rewrite (Z.div_mod j 8), (Z.div_mod i 8), Hq, Hr by lia. done.
Qed.

Lemma lor_bit b i : 0 ≤ b < 256 → 0 ≤ i < 8 →
  0 ≤ Z.lor b (Z.shiftl 1 i) < 256 ∧
  ∀ k, 0 ≤ k → Z.testbit (Z.lor b (Z.shiftl 1 i)) k = Z.testbit b k || bool_decide (k = i).
Proof.
  intros Hb Hi. split.
  - assert (0 ≤ Z.lor b (Z.shiftl 1 i)) by (apply Z.lor_nonneg; split; [lia|apply Z.shiftl_nonneg; lia]).
    split; [done|]. destruct (decide (Z.lor b (Z.shiftl 1 i) = 0)) as [->|]; [lia|].
    change 256 with (2 ^ 8). apply Z.log2_lt_pow2; [lia|].
    rewrite Z.log2_lor; [|lia|apply Z.shiftl_nonneg; lia].
    assert (Z.log2 b < 8) by (destruct (decide (b = 0)) as [->|]; [done|apply Z.log2_lt_pow2; lia]).
    rewrite Z.shiftl_1_l, Z.log2_pow2 by lia. lia.
  - intros k Hk. rewrite Z.lor_spec, Z.shiftl_1_l, Z.pow2_bits_eqb by lia. f_equal.
    destruct (Z.eqb_spec i k); [by rewrite bool_decide_true|by rewrite bool_decide_false].
Qed.

Lemma or_bit_ok b i : bytes_ok b → 0 ≤ i → i / 8 < zlen b →
  ∃ b', or_bit b i = Ok b' ∧ bytes_ok b' ∧ zlen b' = zlen b ∧
    ∀ j, 0 ≤ j → bit b' j = bit b j || bool_decide (j = i).
Proof.
  intros Hb Hi Hlt. unfold or_bit. pose proof (Z.div_pos i 8 Hi ltac:(lia)).
  pose proof (Z.mod_pos_bound i 8 ltac:(lia)). rewrite get_byte, bind_Ok by lia.
  rewrite put_ok by (change (zlen [_]) with 1; lia). set (x := Z.lor _ _).
  pose proof (byte_at_range b (i / 8) Hb) as Hr.
  destruct (lor_bit (byte_at b (i / 8)) (i mod 8) Hr ltac:(lia)) as [Hx Hbit]. fold x in Hx, Hbit.
  eexists; split; [done|]. split; [apply bytes_ok_splice; [done|by apply Forall_singleton]|].
  split; [rewrite zlen_splice; [done|lia|change (zlen [x]) with 1; lia]|].
  intros j Hj. rewrite bit_set_byte; [|lia|lia|lia|].
  - case_decide as E; [subst j; rewrite Hbit by lia; by rewrite !bool_decide_true, !orb_true_r|].
    by rewrite (bool_decide_false (j = i)), orb_false_r.
  - intros k Hk Hne. by rewrite Hbit, bool_decide_false, orb_false_r by lia.
Qed.

Definition bits_or (b b' : bytes) (P : Z → bool) : Prop :=
  bytes_ok b' ∧ zlen b' = zlen b ∧ ∀ j, 0 ≤ j → bit b' j = bit b j || P j.

Lemma bits_or_trans b b' b'' P Q R :
  bits_or b b' P → bits_or b' b'' Q → (∀ j, 0 ≤ j → R j = P j || Q j) → bits_or b b'' R.
Proof.
  intros (H1 & H2 & H3) (H4 & H5 & H6) HR. split; [done|]. split; [lia|].
  intros j Hj. rewrite H6, H3, HR, orb_assoc by done. done.
Qed.

Lemma bits_or_refl b P : bytes_ok b → (∀ j, 0 ≤ j → P j = false) → bits_or b b P.
Proof. intros Hb HP. split; [done|]. split; [done|]. intros. by rewrite HP, orb_false_r. Qed.

(** A fold of steps that each only set bits. *)
Lemma foldM_bits_or {A} (f : bytes → A → res bytes) (P : A → Z → bool) n l :
  (∀ x b, x ∈ l → bytes_ok b → zlen b = n → ∃ b', f b x = Ok b' ∧ bits_or b b' (P x)) →
  ∀ b, bytes_ok b → zlen b = n →
  ∃ b', foldM f b l = Ok b' ∧ bits_or b b' (λ j, existsb (λ x, P x j) l).
Proof.
  induction l as [|x l IH]; intros Hf b Hb Hn; cbn [foldM].
  { exists b. split; [done|]. by apply bits_or_refl. }
  destruct (Hf x b) as (b1 & -> & Hor1); [apply list_elem_of_here|done|done|]. rewrite bind_Ok.
  destruct (IH (λ y b Hy, Hf y b (list_elem_of_further _ _ _ Hy)) b1) as (b2 & E & Hor2).
  { by destruct Hor1. } { destruct Hor1 as (_ & ? & _). lia. }
  exists b2. split; [exact E|]. by eapply bits_or_trans.
Qed.

Lemma existsb_bool_decide {A} (Q : A → Prop) `{!∀ x, Decision (Q x)} l :
  existsb (λ x, bool_decide (Q x)) l = true ↔ ∃ x, x ∈ l ∧ Q x.
Proof.
  rewrite existsb_exists. split; intros (x & Hx & HQ); exists x.
  - rewrite bool_decide_eq_true in HQ. by rewrite list_elem_of_In.
  - rewrite bool_decide_eq_true. by rewrite <-list_elem_of_In.
Qed.

Lemma div8_lt i n : i / 8 < n ↔ i < n * 8.
Proof. pose proof (Z.mul_div_le i 8 ltac:(lia)). pose proof (Z.mul_succ_div_gt i 8 ltac:(lia)). lia. Qed.

Lemma mark_reserved_ok sb gi max_bits reserved bitmap :
  bytes_ok bitmap →
  ∃ bitmap', mark_reserved_in_group sb gi max_bits reserved bitmap = Ok bitmap' ∧
    bits_or bitmap bitmap' (λ j, existsb (λ b, bool_decide (j < max_bits ∧ j < zlen bitmap * 8 ∧
      group_first_block sb gi + j = b)) reserved).
Proof.
  intros Hb. unfold mark_reserved_in_group. set (first := group_first_block sb gi).
  apply (foldM_bits_or _ (λ b j, bool_decide (j < max_bits ∧ j < zlen bitmap * 8 ∧ first + j = b)) (zlen bitmap));
    [|done|done]. clear Hb. intros block b _ Hb Hl.
  assert (Hskip : (∀ j, 0 ≤ j → ¬ (j < max_bits ∧ j < zlen bitmap * 8 ∧ first + j = block)) →
    ∃ b', Ok b = Ok b' ∧ bits_or b b' (λ j, bool_decide (j < max_bits ∧ j < zlen bitmap * 8 ∧ first + j = block))).
  { intros Hno. exists b. split; [done|]. apply bits_or_refl; [done|]. intros j Hj.
    apply bool_decide_false. by apply Hno. }
  unfold checked_sub. destruct (decide (first ≤ block)) as [Hge|Hge]; [|apply Hskip; lia].
  case_decide; [apply Hskip; lia|]. case_decide as Hlt; rewrite div8_lt in Hlt; [|apply Hskip; lia].
  destruct (or_bit_ok b (block - first) Hb) as (b1 & -> & Hb1 & Hl1 & Hbit1); [lia|by apply div8_lt|].
  exists b1. split; [done|]. split; [done|]. split; [done|]. intros j Hj. rewrite Hbit1 by done. f_equal.
  apply bool_decide_ext. lia.
Qed.

(** Setting every bit of a range. *)
Lemma set_range_ok bitmap lo hi : bytes_ok bitmap → 0 ≤ lo → hi ≤ zlen bitmap * 8 →
  ∃ b', foldM or_bit bitmap (seqZ lo (hi - lo)) = Ok b' ∧
    bits_or bitmap b' (λ j, bool_decide (lo ≤ j < hi)).
Proof.
  intros Hb Hlo Hhi.
  destruct (foldM_bits_or or_bit (λ x j, bool_decide (j = x)) (zlen bitmap) (seqZ lo (hi - lo))) with (b := bitmap)
    as (b' & E & Hb1 & Hb2 & Hb3); [|done|done|].
  - intros x b Hx%elem_of_seqZ Hbb Hl. destruct (or_bit_ok b x Hbb) as (b1 & E & ? & ? & ?);
      [lia|apply div8_lt; lia|]. exists b1. by split_and!.
  - exists b'. split; [done|]. split; [done|]. split; [done|]. intros j Hj. rewrite Hb3 by done. f_equal.
    apply eq_true_iff_eq. rewrite existsb_bool_decide, bool_decide_eq_true. split.
    + intros (x & Hx%elem_of_seqZ & ->). lia.
    + intros Hr. exists j. rewrite elem_of_seqZ. split; [lia|done].
Qed.

(** The bitmap of an uninitialised group: the used ranges and the padding past
    the group's last block, nothing else. *)
Lemma uninit_bitmap_ok sb groups gi used :
  Superblock.geometry_ok sb → 0 ≤ blocks_in_group sb gi →
  uninit_group_used_ranges sb groups gi = Ok used → Forall (λ r, 0 ≤ fst r) used →
  ∃ b, uninit_block_bitmap sb groups gi = Ok b ∧ bytes_ok b ∧ zlen b = Superblock.block_size sb ∧
    ∀ j, 0 ≤ j < Superblock.block_size sb * 8 →
      bit b j = true ↔ blocks_in_group sb gi ≤ j ∨ ∃ r, r ∈ used ∧ fst r ≤ j < snd r.
Proof.
  intros Hgeo Hbig Hu Hpos. pose proof (Superblock.block_size_range sb (Superblock.geo_log _ Hgeo)) as Hbs.
  unfold uninit_block_bitmap. rewrite Hu, bind_Ok. set (n := Superblock.block_size sb) in *.
  assert (Hz : zlen (zrep n 0) = n) by zl. rewrite Hz.
  set (rs := used ++ _).
  destruct (foldM_bits_or (λ bitmap r, foldM or_bit bitmap (seqZ (Z.min (fst r) (n * 8))
      (Z.min (snd r) (n * 8) - Z.min (fst r) (n * 8))))
    (λ r j, bool_decide (Z.min (fst r) (n * 8) ≤ j < Z.min (snd r) (n * 8))) n rs) with (b := zrep n 0)
    as (b' & E & Hb1 & Hb2 & Hb3); [|apply bytes_ok_zrep; lia|done|].
  { intros r b Hr Hb Hl. apply set_range_ok; [done| |lia]. unfold rs in Hr.
    apply elem_of_app in Hr as [Hr|Hr%list_elem_of_singleton]; [|subst r; simpl; lia].
    rewrite Forall_forall in Hpos. specialize (Hpos _ Hr). lia. }
  exists b'. split; [exact E|]. split; [done|]. split; [lia|]. intros j Hj. rewrite Hb3 by lia.
  assert (E0 : bit (zrep n 0) j = false).
  { unfold bit, byte_at, zrep. destruct (_ !! _) eqn:El; simpl; [|by rewrite Z.bits_0].
    apply lookup_replicate in El as [-> _]. by rewrite Z.bits_0. }
  rewrite E0, orb_false_l, existsb_bool_decide. unfold rs. split.
  - intros (r & Hr & Hrange). apply elem_of_app in Hr as [Hr|Hr%list_elem_of_singleton].
    + right. exists r. split; [done|lia].
    + subst r. simpl in Hrange. lia.
  - intros [Hpad|(r & Hr & Hrange)].
    + exists (Z.min (blocks_in_group sb gi) (n * 8), n * 8). split; [|simpl; lia].
      apply elem_of_app. right. by apply list_elem_of_singleton.
    + exists r. split; [apply elem_of_app; by left|lia].
Qed.

(** ** The planners *)

Lemma group_extent sb gi :
  Superblock.geometry_ok sb → Superblock.block_group_count sb < 2 ^ 32 →
  0 ≤ gi < Superblock.block_group_count sb →
  0 ≤ blocks_in_group sb gi ≤ Superblock.blocks_per_group sb ∧ 0 ≤ group_first_block sb gi ∧
  Superblock.first_data_block sb ≤ group_first_block sb gi ∧
  group_first_block sb gi + blocks_in_group sb gi ≤ Superblock.blocks_count sb.
Proof.
  intros Hgeo Hn Hgi. pose proof (Superblock.geo_bpg _ Hgeo) as Hbpg. pose proof (Superblock.geo_first _ Hgeo) as Hf.
  pose proof (Superblock.group_count_tight (Superblock.blocks_count sb) (Superblock.first_data_block sb)
    (Superblock.blocks_per_group sb) ltac:(lia) Hf) as Ht.
  unfold Superblock.block_group_count in *. set (n := Superblock.group_count _ _ _) in *.
  unfold blocks_in_group, group_first_block, Superblock.block_group_count. fold n.
  unfold as_u32. rewrite (Z.mod_small n) by lia.
  set (bpg := Superblock.blocks_per_group sb) in *. set (f := Superblock.first_data_block sb) in *.
  set (bc := Superblock.blocks_count sb) in *. unfold saturating_sub. rewrite Z.max_r by lia.
  pose proof (Z.div_mod (bc - f) bpg ltac:(lia)) as Hdm. pose proof (Z.mod_pos_bound (bc - f) bpg ltac:(lia)) as Hmb.
  assert (Hnq : (n - 1) * bpg < bc - f) by lia.
  assert (Hn2 : bc - f ≤ n * bpg).
  { unfold n, Superblock.group_count, div_ceil, saturating_sub. rewrite Z.max_r, Z.max_l by lia.
    pose proof (Z.mul_succ_div_gt (bc - f + bpg - 1) bpg ltac:(lia)). lia. }
  destruct (decide (gi + 1 < n)) as [Hlt|Hge].
  - rewrite (Z.mod_small (gi + 1)) by lia. rewrite decide_True by lia. nia.
  - assert (gi = n - 1) as -> by lia. replace (n - 1 + 1) with n by lia.
    assert (Hnot : ¬ n mod 2 ^ 32 < n) by (rewrite Z.mod_small by lia; lia).
    rewrite decide_False by done. case_decide as Hr.
    + split; [lia|]. split; [nia|]. split; [nia|]. rewrite Hr in Hdm.
      assert ((n - 1) < (bc - f) / bpg) by nia. nia.
    + rewrite Z.mod_small by lia. split; [lia|]. split; [nia|]. split; [nia|].
      assert ((n - 1) ≤ (bc - f) / bpg) by nia. nia.
Qed.

Lemma uninit_ranges_ok sb groups gi :
  Superblock.geometry_ok sb → 0 ≤ gi → 0 ≤ Superblock.block_group_count sb →
  ∃ used, uninit_group_used_ranges sb groups gi = Ok used ∧ Forall (λ r, 0 ≤ fst r) used.
Proof.
  intros Hgeo Hgi Hbgc. unfold uninit_group_used_ranges, Superblock.group_head_metadata_blocks.
  destruct (Superblock.group_has_super_ok sb gi Hgi) as [has ->]. rewrite bind_Ok.
  assert (Hpush : ∀ gf gl rs used, Forall (λ r, 0 ≤ fst r) used →
    Forall (λ r, 0 ≤ fst r) (foldl (push_range gf gl) used rs)).
  { intros gf gl rs. induction rs as [|r rs IH]; intros used Hu; simpl; [done|]. apply IH.
    unfold push_range, checked_sub. case_decide; [|done]. case_decide; [|done].
    apply Forall_app. split; [done|]. apply Forall_singleton. simpl. lia. }
  assert (Hend : ∀ head : Z, ∃ used,
    (let used := if decide (0 < head) then [(0, Z.min head (blocks_in_group sb gi))] else [] in
     match groups !! Z.to_nat gi with
     | None => Ok used
     | Some desc => Ok (foldl (push_range (group_first_block sb gi) (blocks_in_group sb gi)) used
         [(Bgd.block_bitmap desc, 1); (Bgd.inode_bitmap desc, 1);
          (Bgd.inode_table desc, div_ceil (Superblock.inodes_per_group sb * Superblock.inode_size sb)
                                   (Superblock.block_size sb))])
     end) = Ok used ∧ Forall (λ r, 0 ≤ fst r) used).
  { intros head. cbv zeta. assert (Hu0 : Forall (λ r : Z * Z, 0 ≤ fst r)
      (if decide (0 < head) then [(0, Z.min head (blocks_in_group sb gi))] else [])).
    { case_decide; [|done]. by apply Forall_singleton. }
    destruct (groups !! Z.to_nat gi); eexists; (split; [reflexivity|]); [by apply Hpush|done]. }
  destruct (Superblock.meta_group_holding sb gi); cbv zeta; [rewrite bind_Ok; apply Hend|].
  case_decide; rewrite bind_Ok; apply Hend.
Qed.

(** The caller's closure reads bitmaps or fails; it does not panic. *)
Definition reader_ok (bitmap_reader : Z → res bytes) : Prop :=
  ∀ b, match bitmap_reader b with Ok bm => bytes_ok bm | Err _ => True | _ => False end.

Lemma group_bitmap_ok sb groups reader gi bgd :
  Superblock.geometry_ok sb → Superblock.block_group_count sb < 2 ^ 32 →
  0 ≤ gi < Superblock.block_group_count sb → reader_ok reader →
  (∃ bm, group_bitmap sb groups reader gi bgd = Ok bm ∧ bytes_ok bm) ∨
  ∃ e b, group_bitmap sb groups reader gi bgd = Err e ∧ reader b = Err e.
Proof.
  intros Hgeo Hn Hgi Hr. unfold group_bitmap. destruct (has_bits _ _).
  - left. destruct (uninit_ranges_ok sb groups gi Hgeo) as (used & Hu & Hpos); [lia|lia|].
    destruct (group_extent sb gi Hgeo Hn Hgi) as (Hb & _).
    destruct (uninit_bitmap_ok sb groups gi used Hgeo) as (b & E & Hbb & _); [lia|done|done|].
    by exists b.
  - specialize (Hr (Bgd.block_bitmap bgd)). destruct (reader (Bgd.block_bitmap bgd)) as [bm|e| |] eqn:E; try done.
    + left. by exists bm.
    + right. by exists e, (Bgd.block_bitmap bgd).
Qed.

Lemma first_of_spec {A B} (f : A → res (option B)) l :
  match first_of f l with
  | Ok (Some b) => ∃ x, x ∈ l ∧ f x = Ok (Some b)
  | Ok None => ∀ x, x ∈ l → f x = Ok None
  | Err e => ∃ x, x ∈ l ∧ f x = Err e
  | Panic => ∃ x, x ∈ l ∧ f x = Panic
  | OutOfFuel => ∃ x, x ∈ l ∧ f x = OutOfFuel
  end.
Proof.
  induction l as [|x l IH]; cbn [first_of]; [by intros x ?%not_elem_of_nil|].
  destruct (f x) as [[b|]|e| |] eqn:E; simpl; try (exists x; split; [apply list_elem_of_here|done]).
  destruct (first_of f l) as [[b|]|e| |];
    try (destruct IH as (y & Hy & Ey); exists y; split; [by apply list_elem_of_further|done]).
  intros y Hy. apply elem_of_cons in Hy as [->|Hy]; [done|by apply IH].
Qed.

Lemma group_order_spec ngroups hint gi : 0 < ngroups ≤ 2 ^ 31 → 0 ≤ hint < ngroups →
  gi ∈ group_order ngroups hint ↔ 0 ≤ gi < ngroups.
Proof.
  intros Hn Hh. unfold group_order. rewrite list_elem_of_fmap. split.
  - intros (step & -> & _). apply Z.mod_pos_bound. lia.
  - intros Hgi. exists ((gi - hint) mod ngroups). pose proof (Z.mod_pos_bound (gi - hint) ngroups ltac:(lia)).
    split; [|apply elem_of_seqZ; lia]. unfold as_u32. rewrite (Z.mod_small (hint + _)) by lia.
    rewrite Zplus_mod_idemp_r. replace (hint + (gi - hint)) with gi by lia. by rewrite Z.mod_small by lia.
Qed.

(** A run the planner may hand out from group [gi]. *)
Definition plannable (sb : Superblock.t) (gi count : Z) (reserved : list Z) (bm : bytes) (s : Z) : Prop :=
  0 ≤ s ∧ s + count ≤ blocks_in_group sb gi ∧ s + count ≤ zlen bm * 8 ∧ run_free bm s count ∧
  Forall (λ b, ¬ group_first_block sb gi + s ≤ b < group_first_block sb gi + s + count) reserved.

Lemma marked_run sb gi count reserved bm bm' s :
  blocks_in_group sb gi ≤ Superblock.blocks_per_group sb < 2 ^ 32 → 1 ≤ count →
  bits_or bm bm' (λ j, existsb (λ b, bool_decide (j < blocks_in_group sb gi ∧ j < zlen bm * 8 ∧
      group_first_block sb gi + j = b)) reserved) →
  0 ≤ s ∧ s + count ≤ clamp_bits bm' (blocks_in_group sb gi) ∧ run_free bm' s count ↔
  plannable sb gi count reserved bm s.
Proof.
  intros Hbig Hc (_ & Hl & Hbit). unfold plannable, clamp_bits, u32_max. rewrite Hl.
  assert (Hrun : 0 ≤ s → s + count ≤ blocks_in_group sb gi → s + count ≤ zlen bm * 8 →
    run_free bm' s count ↔ run_free bm s count ∧
      Forall (λ b, ¬ group_first_block sb gi + s ≤ b < group_first_block sb gi + s + count) reserved).
  { intros H1 H2 H3. rewrite Forall_forall. split.
    - intros Hf. split.
      + intros j Hj. specialize (Hf j Hj). rewrite Hbit in Hf by lia. by apply orb_false_iff in Hf as [? _].
      + intros b Hb Hin. specialize (Hf (b - group_first_block sb gi) ltac:(lia)). rewrite Hbit in Hf by lia.
        apply orb_false_iff in Hf as [_ Hf]. apply not_true_iff_false in Hf. apply Hf.
        apply existsb_bool_decide. exists b. split; [done|lia].
    - intros [Hf Hres] j Hj. rewrite Hbit by lia. rewrite (Hf j Hj), orb_false_l.
      apply not_true_iff_false. rewrite existsb_bool_decide. intros (b & Hb & _ & _ & <-).
      apply (Hres _ Hb). lia. }
  split.
  - intros (H1 & H2 & H3). apply Hrun in H3 as [? ?]; [|lia..]. split_and!; first [done|lia].
  - intros (H1 & H2 & H3 & H4 & H5). split; [done|]. split; [lia|]. by apply Hrun.
Qed.

Definition plan_for (sb : Superblock.t) (gi : Z) (bgd : Bgd.t) (cnt s : Z) : BlockAllocationPlan :=
  mkBlockPlan (group_first_block sb gi + s) cnt (mkBitmapWrite (Bgd.block_bitmap bgd) s cnt true)
    (mkBgdUpdate gi (- cnt) 0 0) (mkSbUpdate (- cnt) 0).

Section planner_proofs.
Context (sb : Superblock.t) (groups : list Bgd.t) (reader : Z → res bytes).
Context (Hgeo : Superblock.geometry_ok sb) (Hlen : zlen groups = Superblock.block_group_count sb).
Context (Hmany : 0 < zlen groups ≤ 2 ^ 31) (Hreader : reader_ok reader).

Lemma group_at gi : 0 ≤ gi < zlen groups → ∃ bgd, groups !! Z.to_nat gi = Some bgd.
Proof. intros Hgi. apply lookup_lt_is_Some_2. unfold zlen in Hgi. lia. Qed.

Lemma try_group_spec cnt reserved gi bgd :
  1 ≤ cnt < 2 ^ 31 → 0 ≤ gi < zlen groups → groups !! Z.to_nat gi = Some bgd →
  match try_group sb groups reader cnt reserved gi with
  | Ok None => Bgd.free_blocks_count bgd < cnt ∨
      ∃ bm, group_bitmap sb groups reader gi bgd = Ok bm ∧ ∀ s, ¬ plannable sb gi cnt reserved bm s
  | Ok (Some p) => ∃ bm s, cnt ≤ Bgd.free_blocks_count bgd ∧ group_bitmap sb groups reader gi bgd = Ok bm ∧
      plannable sb gi cnt reserved bm s ∧ p = plan_for sb gi bgd cnt s
  | Err e => ∃ b, reader b = Err e
  | _ => False
  end.
Proof.
  intros Hc Hgi Hbgd. unfold try_group. rewrite Hbgd. simpl unwrap. rewrite bind_Ok.
  case_decide; [by left|].
  destruct (group_extent sb gi Hgeo ltac:(lia) ltac:(lia)) as (Hbig & _).
  pose proof (Superblock.geo_bpg _ Hgeo).
  destruct (group_bitmap_ok sb groups reader gi bgd Hgeo ltac:(lia) ltac:(lia) Hreader)
    as [(bm & Ebm & Hb)|(e & b & -> & Hr)]; [|simpl; by exists b].
  rewrite Ebm, bind_Ok. destruct (mark_reserved_ok sb gi (blocks_in_group sb gi) reserved bm Hb)
    as (bm' & -> & Hor). rewrite bind_Ok.
  destruct (find_free_run_ok bm' 0 (blocks_in_group sb gi) cnt (proj1 Hor)) as (o & -> & Ho); [lia|lia|].
  rewrite bind_Ok. pose proof (λ s, marked_run sb gi cnt reserved bm bm' s ltac:(lia) ltac:(lia) Hor) as Hmr.
  destruct o as [s|].
  - destruct Ho as (H1 & H2 & H3 & _). exists bm, s. split; [lia|]. split; [done|]. split; [by apply Hmr|].
    unfold plan_for. do 2 f_equal. unfold as_i32 at 2. rewrite Z.mod_small by lia. unfold as_i32.
    rewrite Z.mod_small by lia. lia.
  - right. exists bm. split; [done|]. intros s Hs. apply Hmr in Hs as (H1 & H2 & H3). by apply (Ho s).
Qed.
Lemma block_order cnt : 1 ≤ cnt < 2 ^ 31 → ∀ hint, 0 ≤ hint → ∀ gi,
  gi ∈ group_order (zlen groups) (Z.min hint (saturating_sub (zlen groups) 1)) ↔ 0 ≤ gi < zlen groups.
Proof. intros Hc hint Hh gi. apply group_order_spec; [done|]. unfold saturating_sub. lia. Qed.

(** The outcome of the whole search, from the outcome of one group. *)
Lemma plan_block_cases cnt hint reserved :
  1 ≤ cnt < 2 ^ 31 → 0 ≤ hint →
  match plan_block_allocation_excluding sb groups reader cnt hint reserved with
  | Ok p => ∃ gi bgd bm s, 0 ≤ gi < zlen groups ∧ groups !! Z.to_nat gi = Some bgd ∧
      cnt ≤ Bgd.free_blocks_count bgd ∧ group_bitmap sb groups reader gi bgd = Ok bm ∧
      plannable sb gi cnt reserved bm s ∧ p = plan_for sb gi bgd cnt s
  | Err e => (∃ b, reader b = Err e) ∨
      e = Corrupt "no group has a contiguous free run of this size" ∧
      ∀ gi bgd, 0 ≤ gi → groups !! Z.to_nat gi = Some bgd → Bgd.free_blocks_count bgd < cnt ∨
        ∃ bm, group_bitmap sb groups reader gi bgd = Ok bm ∧ ∀ s, ¬ plannable sb gi cnt reserved bm s
  | _ => False
  end.
Proof.
  intros Hc Hh. unfold plan_block_allocation_excluding.
  rewrite decide_False by lia. unfold as_u32. rewrite Z.mod_small, decide_False by lia.
  pose proof (block_order cnt Hc hint Hh) as Hmem. set (order := group_order _ _) in *.
  pose proof (first_of_spec (try_group sb groups reader cnt reserved) order) as Hf.
  assert (Htry : ∀ gi r, gi ∈ order → try_group sb groups reader cnt reserved gi = r → ∃ bgd,
    0 ≤ gi < zlen groups ∧ groups !! Z.to_nat gi = Some bgd ∧
    match r with
    | Ok None => Bgd.free_blocks_count bgd < cnt ∨
        ∃ bm, group_bitmap sb groups reader gi bgd = Ok bm ∧ ∀ s, ¬ plannable sb gi cnt reserved bm s
    | Ok (Some p) => ∃ bm s, cnt ≤ Bgd.free_blocks_count bgd ∧ group_bitmap sb groups reader gi bgd = Ok bm ∧
        plannable sb gi cnt reserved bm s ∧ p = plan_for sb gi bgd cnt s
    | Err e => ∃ b, reader b = Err e
    | _ => False
    end).
  { intros gi r Hgi%Hmem <-. destruct (group_at gi Hgi) as [bgd Hb]. exists bgd. split; [done|].
    split; [done|]. by apply try_group_spec. }
  destruct (first_of _ order) as [[p|]|e| |]; simpl ok_or; cbn [mbind res_bind];
    try (destruct Hf as (gi & Hin & Ep); destruct (Htry gi _ Hin Ep) as (bgd & Hgi & Hb & Ht)); try done.
  - destruct Ht as (bm & s & H1 & H2 & H3 & ->). by exists gi, bgd, bm, s.
  - right. split; [done|]. intros gi bgd Hgi0 Hb.
    assert (Hgi : 0 ≤ gi < zlen groups) by (apply lookup_lt_zlen in Hb; lia).
    destruct (Htry gi _ (proj2 (Hmem gi) Hgi) (Hf gi (proj2 (Hmem gi) Hgi))) as (bgd' & _ & Hb' & Ht).
    by simplify_eq.
  - by left.
Qed.

Lemma orlov_in_range hint : 0 ≤ hint →
  ∃ g, orlov_select_group groups hint = Ok g ∧ 0 ≤ g < zlen groups.
Proof.
  intros Hh. unfold orlov_select_group, as_u32. rewrite Z.mod_small, decide_False by lia. cbv zeta.
  set (h := Z.min hint _). assert (0 ≤ h < zlen groups) by (unfold h, saturating_sub; lia).
  match goal with |- context [foldM ?f None ?l] => set (step := f); set (order := l) end.
  assert (Ho : Forall (λ gi, 0 ≤ gi < zlen groups) order).
  { apply Forall_forall. intros gi Hgi. by apply (group_order_spec (zlen groups) h) in Hgi. }
  assert (Hfold : ∀ l best, Forall (λ gi, 0 ≤ gi < zlen groups) l →
    (∀ p, best = Some p → 0 ≤ fst p < zlen groups) →
    ∃ best', foldM step best l = Ok best' ∧ ∀ p, best' = Some p → 0 ≤ fst p < zlen groups).
  { induction l as [|gi l IH]; intros best Hl Hbest; cbn [foldM]; [by exists best|].
    apply Forall_cons in Hl as [Hgi Hl]. destruct (group_at gi Hgi) as [bgd Hb].
    assert (Hs : ∃ best', step best gi = Ok best' ∧ ∀ p, best' = Some p → 0 ≤ fst p < zlen groups).
    { unfold step. rewrite Hb. simpl unwrap. rewrite bind_Ok. eexists; split; [done|].
      intros p. case_decide; [by intros [= <-]|apply Hbest]. }
    destruct Hs as (best' & -> & Hbest'). rewrite bind_Ok. by apply IH. }
  destruct (Hfold order None Ho ltac:(done)) as (best & -> & Hbest). rewrite bind_Ok.
  eexists; split; [done|]. destruct best as [p|]; simpl; [by apply Hbest|done].
Qed.

(** A free inode slot of group [gi] outside the reserved range. *)
Definition free_slot (gi : Z) (bm : bytes) (s : Z) : Prop :=
  0 ≤ s < Superblock.inodes_per_group sb ∧ s < zlen bm * 8 ∧ bit bm s = false ∧
  Superblock.first_inode sb ≤ gi * Superblock.inodes_per_group sb + s + 1.

Definition inode_plan_for (is_dir : bool) (gi : Z) (bgd : Bgd.t) (s : Z) : InodeAllocationPlan :=
  mkInodePlan (gi * Superblock.inodes_per_group sb + s + 1) is_dir
    (mkBitmapWrite (Bgd.inode_bitmap bgd) s 1 true)
    (mkBgdUpdate gi 0 (-1) (if is_dir then 1 else 0)) (mkSbUpdate 0 (-1)).

Lemma try_inode_group_spec is_dir gi bgd :
  0 ≤ gi < zlen groups → groups !! Z.to_nat gi = Some bgd →
  match try_inode_group sb groups reader is_dir gi with
  | Ok None => Bgd.free_inodes_count bgd = 0 ∨
      ∃ bm, group_inode_bitmap sb reader bgd = Ok bm ∧ ∀ s, s < u32_max → ¬ free_slot gi bm s
  | Ok (Some p) => ∃ bm s, Bgd.free_inodes_count bgd ≠ 0 ∧ group_inode_bitmap sb reader bgd = Ok bm ∧
      free_slot gi bm s ∧ gi * Superblock.inodes_per_group sb + s + 1 ≤ Superblock.inodes_count sb ∧
      p = inode_plan_for is_dir gi bgd s
  | Err e => (∃ b, reader b = Err e) ∨
      e = Corrupt "the group's inode range does not fit in the filesystem" ∧
      Superblock.inodes_count sb < (gi + 1) * Superblock.inodes_per_group sb
  | _ => False
  end.
Proof.
  intros Hgi Hbgd. unfold try_inode_group. rewrite Hbgd. simpl unwrap. rewrite bind_Ok.
  case_decide; [by left|]. pose proof (Superblock.geo_ipg _ Hgeo) as Hipg.
  pose proof (Superblock.geo_first_ino _ Hgeo). pose proof (Superblock.geo_inodes _ Hgeo).
  assert (Hbm : (∃ bm, group_inode_bitmap sb reader bgd = Ok bm ∧ bytes_ok bm) ∨
    ∃ e b, group_inode_bitmap sb reader bgd = Err e ∧ reader b = Err e).
  { unfold group_inode_bitmap. destruct (has_bits _ _).
    - left. eexists; split; [done|]. apply bytes_ok_zrep. lia.
    - specialize (Hreader (Bgd.inode_bitmap bgd)). destruct (reader _) as [bm|e| |] eqn:E; try done.
      + left. by exists bm.
      + right. by exists e, (Bgd.inode_bitmap bgd). }
  destruct Hbm as [(bm & Ebm & Hb)|(e & b & -> & Hr)]; [|simpl; left; by exists b].
  rewrite Ebm, bind_Ok. cbv zeta. set (before := gi * Superblock.inodes_per_group sb) in *.
  set (floor := Z.min _ u32_max). assert (Hfloor : 0 ≤ floor) by (unfold floor, saturating_sub, u32_max; lia).
  destruct (find_first_free_ok bm floor (Superblock.inodes_per_group sb) Hb Hfloor) as (o & -> & Ho).
  rewrite bind_Ok. unfold clamp_bits, u32_max in Ho. destruct o as [s|].
  - destruct Ho as (Hs1 & Hs2 & _). unfold u64_max. case_decide as Hfit.
    + right. split; [done|]. destruct Hfit; unfold before in *; nia.
    + exists bm, s. split; [done|]. split; [done|].
      assert (0 ≤ before) by (unfold before; nia).
      split; [|split; [unfold before in *; lia|]].
      * split; [lia|]. split; [lia|]. split; [done|]. unfold floor, saturating_sub, u32_max in Hs1. fold before. lia.
      * unfold inode_plan_for, as_u32. fold before. rewrite Z.mod_small by lia.
        by replace (before + (s + 1)) with (before + s + 1) by lia.
  - right. exists bm. split; [done|]. intros s Hs (Hs1 & Hs2 & Hs3 & Hs4). fold before in Hs4.
    rewrite Ho in Hs3; [done|]. unfold floor, saturating_sub, u32_max in *. lia.
Qed.
End planner_proofs.

(** ** Properties *)

(** The word-at-a-time bitmap search finds exactly the first clear bit at or
    after [start], among the bits that exist both in the bitmap and below
    [max_bits], and [None] only when there is none; it always terminates and
    never reads outside the bitmap. *)
Lemma find_first_free_spec bitmap start max_bits :
  bytes_ok bitmap → 0 ≤ start →
  match find_first_free bitmap start max_bits with
  | Ok (Some i) => start ≤ i < clamp_bits bitmap max_bits ∧ bit_is_set bitmap i = false ∧
      ∀ j, start ≤ j < i → bit_is_set bitmap j = true
  | Ok None => ∀ j, start ≤ j < clamp_bits bitmap max_bits → bit_is_set bitmap j = true
  | _ => False
  end.
Proof.
  intros Hb Hs. destruct (find_first_free_ok bitmap start max_bits Hb Hs) as (o & -> & Ho).
  destruct o as [i|]; [destruct Ho as (H1 & H2 & H3); split; [done|]; rewrite bit_is_set_bit by lia; split; [done|]|];
    intros j Hj; rewrite bit_is_set_bit by lia; [by apply H3|by apply Ho].
Qed.

(** The run search returns the first start of [count] consecutive clear bits
    that ends inside the bitmap and below [max_bits], and [None] exactly when
    there is no such run. *)
Lemma find_free_run_spec bitmap start max_bits count :
  bytes_ok bitmap → 0 ≤ start → 1 ≤ count →
  match find_free_run bitmap start max_bits count with
  | Ok o => run_spec bitmap start (clamp_bits bitmap max_bits) count o
  | _ => False
  end.
Proof. intros Hb Hs Hc. by destruct (find_free_run_ok bitmap start max_bits count Hb Hs Hc) as (o & -> & Ho). Qed.

(** C35: planning [count] blocks.  A plan names a run that lies inside one group
    and inside the filesystem, whose bits are clear in that group's bitmap (the
    computed one for an uninitialised group) and which touches no reserved block;
    it debits exactly [count] from that group and the superblock, and the group
    claimed that many.  The planner fails only when the bitmap reader does or
    when every group either claims fewer free blocks or has no such run. *)
Theorem plan_block_allocation_excluding_spec sb groups reader cnt hint reserved :
  Superblock.geometry_ok sb → zlen groups = Superblock.block_group_count sb →
  0 < zlen groups ≤ 2 ^ 31 → reader_ok reader → 1 ≤ cnt < 2 ^ 31 → 0 ≤ hint →
  match plan_block_allocation_excluding sb groups reader cnt hint reserved with
  | Ok p => ∃ gi bgd bm s, groups !! Z.to_nat gi = Some bgd ∧ cnt ≤ Bgd.free_blocks_count bgd ∧
      group_bitmap sb groups reader gi bgd = Ok bm ∧ plannable sb gi cnt reserved bm s ∧
      p = plan_for sb gi bgd cnt s ∧
      Superblock.first_data_block sb ≤ first_block p ∧ first_block p + cnt ≤ Superblock.blocks_count sb
  | Err e => (∃ b, reader b = Err e) ∨
      e = Corrupt "no group has a contiguous free run of this size" ∧
      ∀ gi bgd, 0 ≤ gi → groups !! Z.to_nat gi = Some bgd → Bgd.free_blocks_count bgd < cnt ∨
        ∃ bm, group_bitmap sb groups reader gi bgd = Ok bm ∧ ∀ s, ¬ plannable sb gi cnt reserved bm s
  | _ => False
  end.
Proof.
  intros Hgeo Hlen Hmany Hreader Hc Hh.
  pose proof (plan_block_cases sb groups reader Hgeo Hlen Hmany Hreader cnt hint reserved Hc Hh) as H.
  destruct (plan_block_allocation_excluding _ _ _ _ _ _) as [p|e| |]; try done.
  destruct H as (gi & bgd & bm & s & Hgi & Hb & Hfree & Ebm & Hp & ->). exists gi, bgd, bm, s.
  destruct (group_extent sb gi Hgeo ltac:(lia) ltac:(lia)) as (_ & ? & ? & ?).
  destruct Hp as (? & ? & Hp). split_and!; try done; simpl; lia.
Qed.

(** Blocks a caller has planned but not committed are never planned again:
    with the runs already handed out passed as reservations, the next plan's run
    is disjoint from every one of them, in whatever group it lands. *)
Lemma successive_plans_disjoint sb groups reader cnt hint data handed_out p q :
  Superblock.geometry_ok sb → zlen groups = Superblock.block_group_count sb →
  0 < zlen groups ≤ 2 ^ 31 → reader_ok reader → 1 ≤ cnt < 2 ^ 31 → 0 ≤ hint →
  plan_block_allocation_excluding sb groups reader cnt hint (reserved_blocks data handed_out) = Ok p →
  q ∈ data :: handed_out →
  first_block p + count p ≤ first_block q ∨ first_block q + count q ≤ first_block p ∨ count q ≤ 0.
Proof.
  intros Hgeo Hlen Hmany Hreader Hc Hh Ep Hq.
  pose proof (plan_block_cases sb groups reader Hgeo Hlen Hmany Hreader cnt hint
    (reserved_blocks data handed_out) Hc Hh) as H. rewrite Ep in H. destruct H as (gi & bgd & bm & s & _ & _ & _ & _ & Hp & ->). simpl.
  destruct Hp as (_ & _ & _ & _ & Hres). rewrite Forall_forall in Hres.
  set (f := group_first_block sb gi + s) in *.
  destruct (decide (count q ≤ 0)); [lia|]. destruct (decide (f + cnt ≤ first_block q)); [lia|].
  destruct (decide (first_block q + count q ≤ f)); [lia|]. exfalso.
  apply (Hres (Z.max f (first_block q))); [|lia]. unfold reserved_blocks. rewrite list_elem_of_In, in_concat. setoid_rewrite <-list_elem_of_In.
  exists ((λ i, first_block q + i) <$> seqZ 0 (count q)). split.
  - apply list_elem_of_fmap. by exists q.
  - apply list_elem_of_fmap. exists (Z.max f (first_block q) - first_block q).
    rewrite elem_of_seqZ. lia.
Qed.

(** C36: planning an inode.  The inode is a clear bit of its group's bitmap (all
    clear for an uninitialised group), at or above the first unreserved inode and
    at most [s_inodes_count], so it is never the root or journal inode whatever
    the bitmap says; the plan debits one inode from that group.  It fails only
    when the reader does, when a group's range runs past the inode count, or when
    every group claims no free inode or has no such slot. *)
Theorem plan_inode_allocation_spec sb groups reader is_dir hint :
  Superblock.geometry_ok sb → zlen groups = Superblock.block_group_count sb →
  0 < zlen groups ≤ 2 ^ 31 → reader_ok reader → 0 ≤ hint →
  match plan_inode_allocation sb groups reader is_dir hint with
  | Ok p => ∃ gi bgd bm s, groups !! Z.to_nat gi = Some bgd ∧ Bgd.free_inodes_count bgd ≠ 0 ∧
      group_inode_bitmap sb reader bgd = Ok bm ∧ free_slot sb gi bm s ∧
      Superblock.first_inode sb ≤ ip_inode p ≤ Superblock.inodes_count sb ∧
      p = inode_plan_for sb is_dir gi bgd s
  | Err e => (∃ b, reader b = Err e) ∨
      (e = Corrupt "the group's inode range does not fit in the filesystem" ∧
       Superblock.inodes_count sb < zlen groups * Superblock.inodes_per_group sb) ∨
      e = Corrupt "no group has a free inode" ∧
      ∀ gi bgd, 0 ≤ gi → groups !! Z.to_nat gi = Some bgd → Bgd.free_inodes_count bgd = 0 ∨
        ∃ bm, group_inode_bitmap sb reader bgd = Ok bm ∧ ∀ s, s < u32_max → ¬ free_slot sb gi bm s
  | _ => False
  end.
Proof.
  intros Hgeo Hlen Hmany Hreader Hh. unfold plan_inode_allocation, as_u32.
  rewrite Z.mod_small, decide_False by lia. cbv zeta.
  assert (Hstart : ∃ g, (if is_dir then orlov_select_group groups hint
    else Ok (Z.min hint (saturating_sub (zlen groups) 1))) = Ok g ∧ 0 ≤ g < zlen groups).
  { destruct is_dir; [by apply orlov_in_range|]. eexists; split; [done|]. unfold saturating_sub. lia. }
  destruct Hstart as (g & -> & Hg). rewrite bind_Ok.
  pose proof (λ gi, group_order_spec (zlen groups) g gi ltac:(lia) Hg) as Hmem.
  set (order := group_order _ _) in *.
  pose proof (first_of_spec (try_inode_group sb groups reader is_dir) order) as Hf.
  assert (Htry : ∀ gi, gi ∈ order → ∃ bgd, 0 ≤ gi < zlen groups ∧ groups !! Z.to_nat gi = Some bgd).
  { intros gi Hgi%Hmem. destruct (group_at groups gi Hgi) as [bgd Hb]. by exists bgd. }
  pose proof (λ gi bgd, try_inode_group_spec sb groups reader Hgeo Hmany Hreader is_dir gi bgd) as Hspec.
  destruct (first_of _ order) as [[p|]|e| |]; simpl ok_or; cbn [mbind res_bind];
    try (destruct Hf as (gi & Hin & Ep); destruct (Htry gi Hin) as (bgd & Hgi & Hb);
         specialize (Hspec gi bgd Hgi Hb); rewrite Ep in Hspec); try done.
  - destruct Hspec as (bm & s & H1 & H2 & H3 & H4 & ->). exists gi, bgd, bm, s. split_and!; try done.
    simpl. by destruct H3 as (_ & _ & _ & ?).
  - right; right. split; [done|]. intros gi bgd Hgi0 Hb.
    assert (Hgi : 0 ≤ gi < zlen groups) by (apply lookup_lt_zlen in Hb; lia).
    specialize (Hspec gi bgd Hgi Hb). by rewrite (Hf gi (proj2 (Hmem gi) Hgi)) in Hspec.
  - destruct Hspec as [Hr|[-> Hlt]]; [by left|right; left]. split; [done|].
    pose proof (Superblock.geo_ipg _ Hgeo). nia.
Qed.

Lemma land_clear_bit b i k : 0 ≤ b < 256 → 0 ≤ i < 8 → 0 ≤ k < 8 →
  Z.testbit (Z.land b (Z.lxor (Z.shiftl 1 i) 0xFF)) k = Z.testbit b k && negb (bool_decide (k = i)).
Proof.
  intros Hb Hi Hk. rewrite Z.land_spec, Z.lxor_spec, Z.shiftl_1_l, Z.pow2_bits_eqb by lia.
  change 0xFF with (Z.ones 8). rewrite Z.ones_spec_low by lia. f_equal.
  destruct (Z.eqb_spec i k); [by rewrite bool_decide_true|by rewrite bool_decide_false].
Qed.

Lemma put_bit (set : bool) b i : 0 ≤ b < 256 → 0 ≤ i < 8 →
  let x := if set then Z.lor b (Z.shiftl 1 i) else Z.land b (Z.lxor (Z.shiftl 1 i) 0xFF) in
  0 ≤ x < 256 ∧ ∀ k, 0 ≤ k < 8 → Z.testbit x k = if decide (k = i) then set else Z.testbit b k.
Proof.
  intros Hb Hi x. unfold x. destruct set.
  - destruct (lor_bit b i Hb Hi) as [Hr Hbit]. split; [done|]. intros k Hk. rewrite Hbit by lia.
    case_decide; [by rewrite bool_decide_true, orb_true_r|by rewrite bool_decide_false, orb_false_r].
  - split.
    + pose proof (Z.land_nonneg b (Z.lxor (Z.shiftl 1 i) 0xFF)). split; [apply Z.land_nonneg; lia|].
      assert (Z.land b (Z.lxor (Z.shiftl 1 i) 255) ≤ b); [|lia].
      apply Z.ldiff_le; [lia|]. apply Z.bits_inj'. intros k Hk.
      rewrite Z.ldiff_spec, Z.land_spec, Z.bits_0. by destruct (Z.testbit b k), (Z.testbit (Z.lxor _ _) k).
    + intros k Hk. rewrite land_clear_bit by lia.
      case_decide; [by rewrite bool_decide_true, andb_false_r|by rewrite bool_decide_false, andb_true_r].
Qed.

Lemma apply_bits_ok set n : ∀ lo buf, bytes_ok buf → 0 ≤ lo →
  ∃ buf', apply_bits set (seqZ lo (Z.of_nat n)) buf = Ok buf' ∧ bytes_ok buf' ∧ zlen buf' = zlen buf ∧
    ∀ j, 0 ≤ j < zlen buf * 8 → bit buf' j = if decide (lo ≤ j < lo + Z.of_nat n) then set else bit buf j.
Proof.
  induction n as [|n IH]; intros lo buf Hb Hlo.
  { exists buf. split; [done|]. split; [done|]. split; [done|]. intros j Hj. by rewrite decide_False by lia. }
  rewrite seqZ_cons by lia. cbn [apply_bits]. case_decide as Hend.
  { exists buf. split; [done|]. split; [done|]. split; [done|]. intros j Hj. rewrite decide_False; [done|].
    assert (¬ lo / 8 < zlen buf) as Hn by lia. rewrite div8_lt in Hn. lia. }
  assert (Hlt : lo / 8 < zlen buf) by lia. pose proof (Z.div_pos lo 8 Hlo ltac:(lia)).
  pose proof (Z.mod_pos_bound lo 8 ltac:(lia)). rewrite get_byte, bind_Ok by lia.
  rewrite put_ok, bind_Ok by (change (zlen [_]) with 1; lia). set (x := if set then _ else _).
  pose proof (byte_at_range buf (lo / 8) Hb) as Hr.
  assert (Hx : 0 ≤ x < 256 ∧ ∀ k, 0 ≤ k < 8 → Z.testbit x k =
    if decide (k = lo mod 8) then set else Z.testbit (byte_at buf (lo / 8)) k) by (by apply put_bit; lia).
  destruct Hx as [Hx Hxb]. set (buf1 := splice buf (lo / 8) [x]).
  assert (Hl1 : zlen buf1 = zlen buf) by (unfold buf1; rewrite zlen_splice; [done|lia|change (zlen [x]) with 1; lia]).
  destruct (IH (Z.succ lo) buf1) as (buf' & E & Hb' & Hl' & Hbit).
  { unfold buf1. apply bytes_ok_splice; [done|by apply Forall_singleton]. } { lia. }
  exists buf'. replace (Z.pred (Z.of_nat (S n))) with (Z.of_nat n) by lia. split; [exact E|]. split; [done|].
  split; [lia|]. intros j Hj. rewrite Hbit by lia. unfold buf1.
  rewrite bit_set_byte; [|lia|lia|lia|intros k Hk Hne; rewrite Hxb by lia; by rewrite decide_False].
  destruct (decide (j = lo)) as [->|].
  - rewrite decide_False, (decide_True (P := lo ≤ lo < _)) by lia. rewrite Hxb by lia. by rewrite decide_True.
  - destruct (decide (Z.succ lo ≤ j < Z.succ lo + Z.of_nat n)); [by rewrite decide_True by lia|by rewrite decide_False by lia].
Qed.

(** Applying a bitmap write sets (or clears) exactly its bits, those of them
    that exist in the bitmap, and never panics; so allocating a run and freeing
    it restores every other bit. *)
Lemma apply_bitmap_write_spec buf w :
  bytes_ok buf → 0 ≤ bit_start w → 0 ≤ bw_count w → bit_start w + bw_count w ≤ 2 ^ 32 →
  ∃ buf', apply_bitmap_write buf w = Ok buf' ∧ bytes_ok buf' ∧ zlen buf' = zlen buf ∧
    ∀ j, 0 ≤ j < zlen buf * 8 → bit_is_set buf' j =
      if decide (bit_start w ≤ j < bit_start w + bw_count w) then bw_set w else bit_is_set buf j.
Proof.
  intros Hb Hs Hc Hend. unfold apply_bitmap_write.
  assert (E : (λ b, as_u32 (bit_start w + b)) <$> seqZ 0 (bw_count w) = seqZ (bit_start w) (bw_count w)).
  { transitivity (Z.add (bit_start w) <$> seqZ 0 (bw_count w)).
    2:{ rewrite fmap_add_seqZ. f_equal. lia. }
    apply list_fmap_ext.
    intros i x Hx%list_elem_of_lookup_2%elem_of_seqZ. unfold as_u32. rewrite Z.mod_small by lia. done. }
  rewrite E. destruct (apply_bits_ok (bw_set w) (Z.to_nat (bw_count w)) (bit_start w) buf Hb Hs)
    as (buf' & Ea & Hb' & Hl & Hbit).
  rewrite Z2Nat.id in Ea, Hbit by lia. exists buf'. split; [exact Ea|]. split; [done|]. split; [done|].
  intros j Hj. rewrite !bit_is_set_bit by lia. by apply Hbit.
Qed.

(** *** Witnesses *)

(** A one-group volume, its descriptor and a bitmap with the first 20 blocks of
    the group used. *)
Definition sample_bgd (free_blocks free_inodes : Z) : Bgd.t :=
  Bgd.mk 3 4 10 free_blocks free_inodes 0 0 0 0 0 0.
Definition sample_bitmap : bytes := [255; 255; 15] ++ zrep 1021 0.
Definition sample_reader (b : Z) : res bytes := Ok sample_bitmap.

Lemma sample_reader_ok : reader_ok sample_reader.
Proof. intros b. change (bytes_ok sample_bitmap). by_compute. Qed.

Lemma find_first_free_spec_witness :
  find_first_free (replicate 9 255 ++ [0xF7]) 3 100 = Ok (Some 75) ∧
  bit_is_set (replicate 9 255 ++ [0xF7]) 74 = true.
Proof.
  pose proof (find_first_free_spec (replicate 9 255 ++ [0xF7]) 3 100 ltac:(by_compute) ltac:(lia)) as H.
  destruct (find_first_free _ _ _) as [[i|]|e| |] eqn:E; try (vm_compute in E; discriminate).
  vm_compute in E. injection E as <-. split; [reflexivity|]. apply H. lia.
Defined.

Lemma find_free_run_spec_witness :
  find_free_run [0xF0; 0x0F; 0; 255] 0 40 10 = Ok (Some 12).
Proof.
  pose proof (find_free_run_spec [0xF0; 0x0F; 0; 255] 0 40 10 ltac:(by_compute) ltac:(lia) ltac:(lia)) as H.
  destruct (find_free_run _ _ _ _) as [o|e| |] eqn:E; [|done..]. vm_compute in E. by rewrite <-E.
Defined.

Lemma plan_block_allocation_excluding_spec_witness :
  ∃ sb, Bgd.sample_sb 128 50 = Ok sb ∧
    ∃ p, plan_block_allocation_excluding sb [sample_bgd 20 30] sample_reader 3 0 [22; 30] = Ok p ∧
      first_block p = 23 ∧ 1 ≤ first_block p ∧ first_block p + 3 ≤ 50.
Proof.
  destruct (Bgd.sample_sb 128 50) as [sb| | |] eqn:E; [|vm_compute in E; discriminate..].
  exists sb. split; [reflexivity|].
  assert (Hgeo : Superblock.geometry_ok sb).
  { apply (Superblock.parse_geometry (sub (Bgd.sample_volume 128 50) 1024 1024)); [by_compute|exact E]. }
  pose proof (plan_block_allocation_excluding_spec sb [sample_bgd 20 30] sample_reader 3 0 [22; 30] Hgeo) as H.
  assert (Hone : Superblock.block_group_count sb = 1 ∧ Superblock.blocks_count sb = 50 ∧
    Superblock.first_data_block sb = 1 ∧
    plan_block_allocation_excluding sb [sample_bgd 20 30] sample_reader 3 0 [22; 30]
      = Ok (plan_for sb 0 (sample_bgd 20 30) 3 22)).
  { clear - E. vm_compute in E. injection E as <-. vm_compute. repeat split. }
  destruct Hone as (H1 & H2 & H3 & H4). rewrite H4 in H.
  destruct H as (gi & bgd & bm & s & _ & _ & _ & _ & _ & Hlo & Hhi);
    [by rewrite H1|split; by_compute|apply sample_reader_ok|lia|lia|].
  exists (plan_for sb 0 (sample_bgd 20 30) 3 22). split; [exact H4|]. rewrite H2 in Hhi. rewrite H3 in Hlo.
  split; [|by split]. unfold plan_for, group_first_block. simpl. lia.
Defined.

Lemma successive_plans_disjoint_witness :
  ∃ sb p q, Bgd.sample_sb 128 50 = Ok sb ∧
    plan_block_allocation_excluding sb [sample_bgd 20 30] sample_reader 2 0 [] = Ok p ∧
    plan_block_allocation_excluding sb [sample_bgd 20 30] sample_reader 2 0 (reserved_blocks p []) = Ok q ∧
    first_block p + 2 ≤ first_block q.
Proof.
  destruct (Bgd.sample_sb 128 50) as [sb| | |] eqn:E; [|vm_compute in E; discriminate..].
  assert (Hgeo : Superblock.geometry_ok sb).
  { apply (Superblock.parse_geometry (sub (Bgd.sample_volume 128 50) 1024 1024)); [by_compute|exact E]. }
  set (p := plan_for sb 0 (sample_bgd 20 30) 2 20). set (q := plan_for sb 0 (sample_bgd 20 30) 2 22).
  exists sb, p, q.
  assert (Hr : Superblock.block_group_count sb = 1 ∧
    plan_block_allocation_excluding sb [sample_bgd 20 30] sample_reader 2 0 [] = Ok p ∧
    plan_block_allocation_excluding sb [sample_bgd 20 30] sample_reader 2 0 (reserved_blocks p []) = Ok q ∧
    (first_block q + count q ≤ first_block p ∨ count p ≤ 0 → False)).
  { unfold p, q. clear - E. vm_compute in E. injection E as <-. vm_compute. repeat split. by intros [H|H]; apply H. }
  destruct Hr as (H1 & H2 & H3 & H4). split; [reflexivity|]. split; [exact H2|]. split; [exact H3|].
  destruct (successive_plans_disjoint sb [sample_bgd 20 30] sample_reader 2 0 p [] q p Hgeo) as [H|[H|H]].
  - by rewrite H1.
  - split; by_compute.
  - apply sample_reader_ok.
  - lia.
  - lia.
  - exact H3.
  - apply list_elem_of_here.
  - exfalso. apply H4. by left.
  - exact H.
  - exfalso. apply H4. by right.
Defined.

Lemma plan_inode_allocation_spec_witness :
  ∃ sb p, Bgd.sample_sb 128 50 = Ok sb ∧
    plan_inode_allocation sb [sample_bgd 20 30] (λ _, Ok (zrep 1024 0)) false 5 = Ok p ∧
    ip_inode p = 11 ∧ Superblock.first_inode sb ≤ ip_inode p.
Proof.
  destruct (Bgd.sample_sb 128 50) as [sb| | |] eqn:E; [|vm_compute in E; discriminate..].
  assert (Hgeo : Superblock.geometry_ok sb).
  { apply (Superblock.parse_geometry (sub (Bgd.sample_volume 128 50) 1024 1024)); [by_compute|exact E]. }
  pose proof (plan_inode_allocation_spec sb [sample_bgd 20 30] (λ _, Ok (zrep 1024 0)) false 5 Hgeo) as H.
  assert (Hr : Superblock.block_group_count sb = 1 ∧
    plan_inode_allocation sb [sample_bgd 20 30] (λ _, Ok (zrep 1024 0)) false 5 =
      Ok (inode_plan_for sb false 0 (sample_bgd 20 30) 10) ∧
    ip_inode (inode_plan_for sb false 0 (sample_bgd 20 30) 10) = 11).
  { clear - E. vm_compute in E. injection E as <-. vm_compute. repeat split. }
  destruct Hr as (H1 & H2 & H3). rewrite H2 in H.
  destruct H as (gi & bgd & bm & s & _ & _ & _ & _ & Hlo & _);
    [by rewrite H1|split; by_compute|intros b; change (bytes_ok (zrep 1024 0)); by_compute|lia|].
  exists sb. eexists. split; [reflexivity|]. split; [exact H2|]. split; [exact H3|apply Hlo].
Defined.

Lemma apply_bitmap_write_spec_witness :
  ∃ buf', apply_bitmap_write sample_bitmap (mkBitmapWrite 3 20 3 true) = Ok buf' ∧
    bit_is_set buf' 22 = true ∧ bit_is_set buf' 23 = false.
Proof.
  destruct (apply_bitmap_write_spec sample_bitmap (mkBitmapWrite 3 20 3 true)) as (buf' & E & _ & _ & Hb);
    [by_compute|by_compute|by_compute|by_compute|].
  exists buf'. split; [exact E|]. rewrite !Hb by by_compute. split; [reflexivity|vm_compute; reflexivity].
Defined.
