(* ===== verification/Filesystem.v ===== *)
(** Filesystem: the mounted volume as the read paths see it (src/src/fs.rs):
    the superblock, the group descriptors and the checksummer a mount keeps,
    and the reads of blocks and raw inodes they address. *)
From S2P Require Import Prelude Errors Bytes Device Superblock Checksum Bgd Inode Indirect.

Module Filesystem.

(** The device is an argument of each operation, since it is the part that
    changes; [sb], [groups] and [csum] are the mount's snapshots. *)
Record t := mk { sb : Superblock.t; groups : list Bgd.t; csum : Checksummer }.

Definition block_size (fs : t) : Z := Superblock.block_size (sb fs).

Section read.
Context `{Crc32c} (fs : t) (dev : reader).

Definition read_block (block_num : Z) : res bytes :=
  byte_offset ← ok_or (checked_mul64 block_num (block_size fs)) (Corrupt "block byte offset overflow");
  rd_read dev byte_offset (block_size fs).

Definition read_inode_raw (ino : Z) : res bytes :=
  '(block, off) ← Bgd.locate_inode (sb fs) (groups fs) ino;
  block_data ← read_block block;
  let e := off + Superblock.inode_size (sb fs) in
  if decide (zlen block_data < e) then Err (Corrupt "inode slice exceeds block data") else
  slice block_data off (Superblock.inode_size (sb fs)).

(** *** Lemmas *)

Lemma read_block_spec `{!ReaderOk dev} b :
  returns (read_block b) ∧
  ∀ d, read_block b = Ok d → zlen d = block_size fs ∧ bytes_ok d.
Proof.
  unfold read_block. destruct (checked_mul64 b (block_size fs)) as [o|]; simpl; [|done].
  split; [apply rd_returns|]. intros d E. split.
  - apply (rd_len o); [done|]. unfold block_size, Superblock.block_size, as_u32.
    by apply Z.mod_pos_bound.
  - by apply (rd_bytes o (block_size fs)).
Qed.

Lemma locate_inode_range ino b off :
  Bgd.locate_inode (sb fs) (groups fs) ino = Ok (b, off) →
  0 < Superblock.inodes_per_group (sb fs) → 0 < Superblock.inode_size (sb fs) → 0 ≤ ino → 0 ≤ off.
Proof.
  unfold Bgd.locate_inode. intros Hl Hp Hs Hi. res_inv.
  apply Z.mul_nonneg_nonneg; [|lia]. apply Z.mod_pos_bound.
  assert (0 ≤ Superblock.block_size (sb fs) / Superblock.inode_size (sb fs)); [|lia].
  apply Z.div_pos; lia.
Qed.

(** A raw inode, once read, is exactly [s_inode_size] bytes of the table. *)
Lemma read_inode_raw_spec `{!ReaderOk dev} ino :
  0 < Superblock.inodes_per_group (sb fs) → 0 < Superblock.inode_size (sb fs) → 0 ≤ ino →
  returns (read_inode_raw ino) ∧
  ∀ raw, read_inode_raw ino = Ok raw → zlen raw = Superblock.inode_size (sb fs) ∧ bytes_ok raw.
Proof.
  intros Hp Hs Hi. unfold read_inode_raw.
  assert (Hr : returns (Bgd.locate_inode (sb fs) (groups fs) ino)).
  { unfold Bgd.locate_inode. repeat (case_decide; try done).
    all: apply bind_returns; [apply ok_or_returns|]; intros blk _; try done.
    all: apply bind_returns; [apply ok_or_returns|done]. }
  destruct (Bgd.locate_inode (sb fs) (groups fs) ino) as [[b off]|e| |] eqn:El; try done.
  simpl. pose proof (locate_inode_range ino b off El Hp Hs Hi) as Hoff.
  destruct (read_block_spec b) as [Hb Hd].
  destruct (read_block b) as [d|e| |]; try done. simpl. destruct (Hd d eq_refl) as [Hl Ho].
  case_decide as Hc; [done|]. rewrite slice_ok by lia. split; [done|].
  intros raw [= <-]. split; [zl|auto with ext4].
Qed.

End read.
End Filesystem.
