(* ===== verification/InodeEdit.v ===== *)
(** InodeEdit: the edits fs.rs makes to a raw inode (src/src/fs.rs): the
    attribute changes (chmod, chown, flags, times), the pointer and size
    patches, the link count, and the images of new inodes.  Each edit is a
    function of the raw bytes, the clock reading [now] and the generation the
    runtime hands out; the operations that stage and commit them are in
    Namespace and Operations. *)
From S2P Require Import Prelude Errors Bytes Device Features Superblock Checksum Bgd Extent ExtentMut ExtentTree Inode Filesystem.

(** ** Times *)

Definition pack_nsec_lo (nsec : Z) : Z := as_u32 (Z.shiftl (Z.land nsec 0x3FFFFFFF) 2).
Definition TIME_OMIT : Z := - 2 ^ 63.
Definition UTIME_NOW : Z := 2 ^ 30 - 1.
Definition UTIME_OMIT : Z := 2 ^ 30 - 2.
Definition NSEC_PER_SEC : Z := 1000000000.

Module TimeUpdate.
Inductive t := Omit | Set_ (sec nsec : Z).

#[global] Instance t_eq_dec : EqDecision t.
Proof. solve_decision. Defined.

Definition resolve (sec nsec now : Z) : res t :=
  if decide (sec = TIME_OMIT ∨ nsec = UTIME_OMIT) then Ok Omit else
  if decide (nsec = UTIME_NOW) then Ok (Set_ now 0) else
  if decide (NSEC_PER_SEC ≤ nsec) then Err (InvalidArgument "nanoseconds must be below 1e9 (or UTIME_NOW / UTIME_OMIT)") else
  if decide (¬ (MIN_ENCODABLE_TIME ≤ sec ≤ MAX_ENCODABLE_TIME))
  then Err (InvalidArgument "timestamp outside the range ext4 can store (1901..2446)") else
  Ok (Set_ sec nsec).

Definition check (sec nsec : Z) : res unit := _ ← resolve sec nsec 0; Ok tt.
End TimeUpdate.

Definition write_inode_timestamps (raw : bytes) (now : Z) : res bytes :=
  raw ← set_inode_time raw Atime now;
  raw ← set_inode_time raw Ctime now;
  raw ← set_inode_time raw Mtime now;
  set_inode_time raw Crtime now.

Definition write_inode_generation (raw : bytes) (generation : Z) : res bytes := put_u32 raw OFF_GENERATION generation.

Definition INODE_SIZE_WITH_EXTRA : Z := 0x84.
Definition EXTRA_ISIZE_DEFAULT : Z := 32.
Definition write_inode_extra_isize (raw : bytes) : res bytes :=
  if decide (INODE_SIZE_WITH_EXTRA ≤ zlen raw) then put_u16 raw OFF_EXTRA_ISIZE EXTRA_ISIZE_DEFAULT else Ok raw.

(** ** Pointers and sizes *)

Definition write_file_acl (raw : bytes) (block_nr : Z) : res bytes :=
  if decide (zlen raw < 0x6C) then Err (Corrupt "write_file_acl: inode buffer too small for i_file_acl_lo") else
  let '(hi, lo) := split_phys_block block_nr in
  if decide (zlen raw < 0x78 ∧ hi ≠ 0)
  then Err (Corrupt "write_file_acl: this inode is too small to hold i_file_acl_hi and the external xattr block needs it") else
  raw ← put_u32 raw 0x68 lo;
  if decide (0x78 ≤ zlen raw) then put_u16 raw 0x76 hi else Ok raw.

Definition patch_inode_size_and_blocks (raw : bytes) (new_size new_block_count : Z) : res bytes :=
  if decide (zlen raw < 128) then Err (Corrupt "patch_inode: buffer too small") else
  raw ← put_u32 raw 0x04 (Z.land new_size 0xFFFFFFFF);
  raw ← put_u32 raw 0x6C (as_u32 (Z.shiftr new_size 32));
  raw ← put_u32 raw 0x1C (Z.land new_block_count 0xFFFFFFFF);
  put_u16 raw 0x74 (Z.land (Z.shiftr new_block_count 32) 0xFFFF).

Definition patch_inode_block_area (raw new_root : bytes) : res bytes :=
  if decide (zlen raw < 128) then Err (Corrupt "patch_inode_block_area: buffer too small") else
  if decide (zlen new_root ≠ 60) then Err (Corrupt "patch_inode_block_area: new_root != 60 bytes") else
  put raw 0x28 new_root.

(** ** The link count *)

Definition MAX_LINKS : Z := 65000.

(** One link added, and one dropped. *)
Definition add_link (is_dir dir_nlink : bool) (count : Z) : res Z :=
  if is_dir && bool_decide (count = 1) then Ok 1 else
  if decide (MAX_LINKS ≤ count) then (if is_dir && dir_nlink then Ok 1 else Err TooManyLinks) else Ok (as_u16 (count + 1)).
Definition drop_link (is_dir : bool) (count : Z) : Z :=
  if is_dir then (if decide (2 < count) then count - 1 else count) else saturating_sub count 1.

Definition next_links_count (is_dir : bool) (count delta : Z) (dir_nlink : bool) : res Z :=
  foldM (λ count _, if decide (0 < delta) then add_link is_dir dir_nlink count else Ok (drop_link is_dir count))
    count (replicate (Z.to_nat (Z.abs delta)) tt).

Section fs.
Context `{Crc32c} (fs : Filesystem.t).
Local Abbreviation sb := (Filesystem.sb fs).
Local Abbreviation csum := (Filesystem.csum fs).

Definition has_dir_nlink : bool := has_bits (Superblock.feature_ro_compat sb) RoCompat.DIR_NLINK.

Definition check_link_room (inode : Inode.t) : res unit :=
  _ ← next_links_count (Inode.is_dir inode) (Inode.links_count inode) 1 has_dir_nlink; Ok tt.

Definition finalize_inode_raw (ino generation : Z) (raw : bytes) : res bytes :=
  if enabled csum then patch_inode_checksum csum ino generation raw else Ok raw.

Definition stamp_inode_checksum (raw : bytes) (ino generation : Z) : res bytes :=
  if enabled csum then patch_inode_checksum csum ino generation raw else Ok raw.

Definition patch_inode_nlink (ino : Z) (raw : bytes) (inode : Inode.t) (delta : Z) : res bytes :=
  new_count ← next_links_count (Inode.is_dir inode) (Inode.links_count inode) delta has_dir_nlink;
  raw ← put_u16 raw 0x1A new_count;
  if enabled csum then patch_inode_checksum csum ino (Inode.generation inode) raw else Ok raw.

(** ** Attribute changes: what each operation makes of the raw inode *)

Definition chmod_raw (ino : Z) (inode : Inode.t) (raw : bytes) (mode now : Z) : res bytes :=
  let file_type_bits := Z.land (Inode.mode inode) S_IFMT in
  let new_mode := Z.lor file_type_bits (Z.land mode 0x0FFF) in
  raw ← put_u16 raw 0x00 new_mode;
  raw ← set_inode_time raw Ctime now;
  finalize_inode_raw ino (Inode.generation inode) raw.

(** An id over its two halves; [u32::MAX] leaves it alone. *)
Definition put_id (raw : bytes) (id lo_at hi_at : Z) : res bytes :=
  if decide (id = u32_max) then Ok raw else
  let lo := Z.land id 0xFFFF in
  let hi := Z.land (Z.shiftr id 16) 0xFFFF in
  raw ← put_u16 raw lo_at lo;
  put_u16 raw hi_at hi.

Definition chown_raw (ino : Z) (inode : Inode.t) (raw : bytes) (uid gid now : Z) : res bytes :=
  raw ← put_id raw uid 0x02 0x78;
  raw ← put_id raw gid 0x18 0x7A;
  raw ← set_inode_time raw Ctime now;
  finalize_inode_raw ino (Inode.generation inode) raw.

Definition set_flags_raw (ino : Z) (inode : Inode.t) (raw : bytes) (flags now : Z) : res bytes :=
  if decide (Z.land (Z.lxor flags (Inode.flags inode)) (lnot32 USER_MODIFIABLE_FLAGS) ≠ 0)
  then Err (InvalidArgument "set_flags: only the user-modifiable inode flags may change (INDEX, EXTENTS, INLINE_DATA, HUGE_FILE, ENCRYPT, VERITY, CASEFOLD and the like are managed)") else
  raw ← put_u32 raw OFF_FLAGS flags;
  raw ← set_inode_time raw Ctime now;
  finalize_inode_raw ino (Inode.generation inode) raw.

(** One of the two pairs of [apply_utimens]: a base, and its companion where
    the inode has room. *)
Definition unstorable (update : TimeUpdate.t) (extra : option Z) : bool :=
  match update with
  | TimeUpdate.Set_ sec _ => bool_decide (snd (pack_seconds sec) ≠ 0) && bool_decide (extra = None)
  | TimeUpdate.Omit => false
  end.
Definition put_time (raw : bytes) (update : TimeUpdate.t) (base_off : Z) (extra : option Z) : res bytes :=
  match update with
  | TimeUpdate.Omit => Ok raw
  | TimeUpdate.Set_ sec nsec =>
      let '(base, epoch) := pack_seconds sec in
      raw ← put_u32 raw base_off base;
      match extra with
      | Some off => put_u32 raw off (Z.lor (pack_nsec_lo nsec) epoch)
      | None => Ok raw
      end
  end.

(** [None]: nothing to write. *)
Definition utimens_raw (ino : Z) (inode : Inode.t) (raw : bytes) (atime mtime : TimeUpdate.t) (now : Z) : res (option bytes) :=
  if decide (atime = TimeUpdate.Omit ∧ mtime = TimeUpdate.Omit) then Ok None else
  i_extra_isize ← (if decide (0x82 ≤ zlen raw) then u16_le raw 0x80 else Ok 0);
  let has_mtime_extra := bool_decide (12 ≤ i_extra_isize) && bool_decide (0x8C ≤ zlen raw) in
  let has_atime_extra := bool_decide (16 ≤ i_extra_isize) && bool_decide (0x90 ≤ zlen raw) in
  let a_extra := if has_atime_extra then Some 0x8C else None in
  let m_extra := if has_mtime_extra then Some 0x88 else None in
  if unstorable atime a_extra || unstorable mtime m_extra
  then Err (InvalidArgument "timestamp past 2038 needs an *_extra field this inode is too small to hold") else
  raw ← put_time raw atime 0x08 a_extra;
  raw ← put_time raw mtime 0x10 m_extra;
  raw ← set_inode_time raw Ctime now;
  raw ← finalize_inode_raw ino (Inode.generation inode) raw;
  Ok (Some raw).

(** ** New inodes *)

Definition flavor : FsFlavor := FsFlavor.detect (Superblock.feature_compat sb) (Superblock.feature_incompat sb).

(** The end of every builder: the extra size first, then the times that need
    it, the generation, and the checksum. *)
Definition seal_new_inode (raw : bytes) (ino generation now : Z) : res bytes :=
  raw ← write_inode_extra_isize raw;
  raw ← write_inode_timestamps raw now;
  raw ← write_inode_generation raw generation;
  stamp_inode_checksum raw ino generation.

Definition blank_inode : bytes := zrep (Superblock.inode_size sb) 0.

Definition build_special_file_inode (ino mode major minor generation now : Z) : res bytes :=
  raw ← put_u16 blank_inode OFF_MODE mode;
  raw ← put_u16 raw OFF_LINKS_COUNT 1;
  let file_type := Z.land mode S_IFMT in
  raw ← (if decide (file_type = S_IFBLK ∨ file_type = S_IFCHR) then
           let old_dev := Z.lor (as_u32 (Z.shiftl major 8)) (Z.land minor 0xff) in
           raw ← put_u32 raw OFF_BLOCK old_dev;
           let new_dev := Z.lor (Z.lor (Z.land minor 0xff) (as_u32 (Z.shiftl major 8)))
                                (as_u32 (Z.shiftl (Z.land minor (lnot32 0xff)) 12)) in
           put_u32 raw (OFF_BLOCK + 4) new_dev
         else Ok raw);
  seal_new_inode raw ino generation now.

Definition build_fast_symlink_inode (ino : Z) (target : bytes) (generation now : Z) : res bytes :=
  raw ← put_u16 blank_inode OFF_MODE (Z.lor S_IFLNK 0x1FF);
  raw ← put_u32 raw OFF_SIZE_LO (as_u32 (zlen target));
  raw ← put_u16 raw OFF_LINKS_COUNT 1;
  raw ← put_u32 raw OFF_FLAGS 0;
  raw ← put raw OFF_BLOCK target;
  seal_new_inode raw ino generation now.

Definition map_one_block (raw : bytes) (phys : Z) : res bytes :=
  if negb (FsFlavor.uses_extents flavor) then
    if decide (2 ^ 32 ≤ phys) then Err (Corrupt "block past a 32-bit block map") else put_u32 raw OFF_BLOCK phys
  else
    flags ← u32_le raw OFF_FLAGS;
    raw ← put_u32 raw OFF_FLAGS (Z.lor flags InodeFlags.EXTENTS);
    let header := OFF_BLOCK in
    raw ← put_u16 raw header EXT4_EXT_MAGIC;
    raw ← put_u16 raw (header + 2) 1;
    raw ← put_u16 raw (header + 4) 4;
    raw ← put_u16 raw (header + 6) 0;
    let entry := header + 12 in
    raw ← put_u32 raw entry 0;
    raw ← put_u16 raw (entry + 4) 1;
    let '(phys_hi, phys_lo) := split_phys_block phys in
    raw ← put_u16 raw (entry + 6) phys_hi;
    put_u32 raw (entry + 8) phys_lo.

Definition build_slow_symlink_inode (ino : Z) (target : bytes) (data_phys generation now : Z) : res bytes :=
  raw ← put_u16 blank_inode OFF_MODE (Z.lor S_IFLNK 0x1FF);
  raw ← put_u32 raw OFF_SIZE_LO (as_u32 (zlen target));
  raw ← put_u16 raw OFF_LINKS_COUNT 1;
  raw ← put_u32 raw OFF_BLOCKS_LO (as_u32 (Filesystem.block_size fs / 512));
  raw ← map_one_block raw data_phys;
  seal_new_inode raw ino generation now.

Definition build_regular_file_inode (ino mode generation now : Z) : res bytes :=
  raw ← put_u16 blank_inode OFF_MODE (Z.lor S_IFREG (Z.land mode 0x0FFF));
  raw ← put_u16 raw OFF_LINKS_COUNT 1;
  raw ← (if FsFlavor.uses_extents flavor then
           raw ← put_u32 raw OFF_FLAGS InodeFlags.EXTENTS;
           raw ← put_u16 raw OFF_BLOCK EXT4_EXT_MAGIC;
           raw ← put_u16 raw (OFF_BLOCK + 2) 0;
           raw ← put_u16 raw (OFF_BLOCK + 4) 4;
           put_u16 raw (OFF_BLOCK + 6) 0
         else Ok raw);
  seal_new_inode raw ino generation now.

Definition build_directory_inode (ino mode data_phys_block generation now : Z) : res bytes :=
  raw ← put_u16 blank_inode OFF_MODE (Z.lor S_IFDIR (Z.land mode 0x0FFF));
  raw ← put_u16 raw OFF_LINKS_COUNT 2;
  raw ← map_one_block raw data_phys_block;
  let bs := Filesystem.block_size fs in
  raw ← put_u32 raw OFF_SIZE_LO (as_u32 (Z.land bs 0xFFFFFFFF));
  raw ← put_u32 raw OFF_SIZE_HI (as_u32 (Z.shiftr bs 32));
  let sectors := bs / 512 in
  raw ← put_u32 raw OFF_BLOCKS_LO (as_u32 sectors);
  raw ← put_u16 raw OFF_BLOCKS_HI (as_u16 (Z.land (Z.shiftr sectors 32) 0xFFFF));
  seal_new_inode raw ino generation now.
End fs.

(** ** Inodes with one thing replaced *)
Module With.
Import Inode.
Definition set_mode (m : Z) (i : t) : t :=
  mk m (uid i) (gid i) (size i) (atime i) (mtime i) (ctime i) (dtime i) (crtime i) (atime_nsec i) (mtime_nsec i) (ctime_nsec i)
    (crtime_nsec i) (links_count i) (blocks i) (flags i) (block i) (generation i) (file_acl i) (checksum i).
Definition set_uid (u : Z) (i : t) : t :=
  mk (mode i) u (gid i) (size i) (atime i) (mtime i) (ctime i) (dtime i) (crtime i) (atime_nsec i) (mtime_nsec i) (ctime_nsec i)
    (crtime_nsec i) (links_count i) (blocks i) (flags i) (block i) (generation i) (file_acl i) (checksum i).
Definition set_gid (g : Z) (i : t) : t :=
  mk (mode i) (uid i) g (size i) (atime i) (mtime i) (ctime i) (dtime i) (crtime i) (atime_nsec i) (mtime_nsec i) (ctime_nsec i)
    (crtime_nsec i) (links_count i) (blocks i) (flags i) (block i) (generation i) (file_acl i) (checksum i).
Definition set_links (n : Z) (i : t) : t :=
  mk (mode i) (uid i) (gid i) (size i) (atime i) (mtime i) (ctime i) (dtime i) (crtime i) (atime_nsec i) (mtime_nsec i) (ctime_nsec i)
    (crtime_nsec i) n (blocks i) (flags i) (block i) (generation i) (file_acl i) (checksum i).
Definition set_flags (f : Z) (i : t) : t :=
  mk (mode i) (uid i) (gid i) (size i) (atime i) (mtime i) (ctime i) (dtime i) (crtime i) (atime_nsec i) (mtime_nsec i) (ctime_nsec i)
    (crtime_nsec i) (links_count i) (blocks i) f (block i) (generation i) (file_acl i) (checksum i).
Definition set_block (b : bytes) (i : t) : t :=
  mk (mode i) (uid i) (gid i) (size i) (atime i) (mtime i) (ctime i) (dtime i) (crtime i) (atime_nsec i) (mtime_nsec i) (ctime_nsec i)
    (crtime_nsec i) (links_count i) (blocks i) (flags i) b (generation i) (file_acl i) (checksum i).
Definition set_generation (g : Z) (i : t) : t :=
  mk (mode i) (uid i) (gid i) (size i) (atime i) (mtime i) (ctime i) (dtime i) (crtime i) (atime_nsec i) (mtime_nsec i) (ctime_nsec i)
    (crtime_nsec i) (links_count i) (blocks i) (flags i) (block i) g (file_acl i) (checksum i).
Definition set_file_acl (a : Z) (i : t) : t :=
  mk (mode i) (uid i) (gid i) (size i) (atime i) (mtime i) (ctime i) (dtime i) (crtime i) (atime_nsec i) (mtime_nsec i) (ctime_nsec i)
    (crtime_nsec i) (links_count i) (blocks i) (flags i) (block i) (generation i) a (checksum i).
Definition set_size_blocks (s b : Z) (i : t) : t :=
  mk (mode i) (uid i) (gid i) s (atime i) (mtime i) (ctime i) (dtime i) (crtime i) (atime_nsec i) (mtime_nsec i) (ctime_nsec i)
    (crtime_nsec i) (links_count i) b (flags i) (block i) (generation i) (file_acl i) (checksum i).
Definition set_checksum (c : Z) (i : t) : t :=
  mk (mode i) (uid i) (gid i) (size i) (atime i) (mtime i) (ctime i) (dtime i) (crtime i) (atime_nsec i) (mtime_nsec i) (ctime_nsec i)
    (crtime_nsec i) (links_count i) (blocks i) (flags i) (block i) (generation i) (file_acl i) c.
End With.

(** An inode whose bytes parse. *)
Record well_formed (raw : bytes) : Prop := {
  wf_bytes : bytes_ok raw;
  wf_len : INODE_BASE_SIZE ≤ zlen raw;
  wf_extra : extra_ok raw;
}.

Lemma wf_parse raw : well_formed raw → Inode.parse raw = Ok (decode raw).
Proof. intros [Hb Hl Hx]. rewrite parse_eq by done. by rewrite decide_True. Qed.

Lemma parse_wf raw i : bytes_ok raw → Inode.parse raw = Ok i → well_formed raw ∧ i = decode raw.
Proof.
  intros Hb Hp. assert (Hl : INODE_BASE_SIZE ≤ zlen raw) by (unfold Inode.parse in Hp; case_decide; [done|lia]).
  rewrite parse_eq in Hp by done. case_decide as Hx; [|done]. injection Hp as <-. done.
Qed.

(** [raw'] parses, is as long, and reads as [i]. *)
Definition becomes (raw raw' : bytes) (i : Inode.t) : Prop :=
  well_formed raw' ∧ zlen raw' = zlen raw ∧ le16 raw' OFF_EXTRA_ISIZE = le16 raw OFF_EXTRA_ISIZE ∧ decode raw' = i.

Lemma x32_splice_low raw off src need o : 0 ≤ off → off + zlen src ≤ OFF_EXTRA_ISIZE → OFF_EXTRA_ISIZE + 4 ≤ o →
  off + zlen src ≤ zlen raw → x32 (splice raw off src) need o = x32 raw need o.
Proof.
  intros. unfold x32. rewrite zlen_splice, le16_splice_ne by (offsets; zl). by rewrite le32_splice_ne by (offsets; zl).
Qed.

(** A store below the extra section. *)
Lemma wf_splice_low raw off src : well_formed raw → bytes_ok src → 0 ≤ off → off + zlen src ≤ OFF_EXTRA_ISIZE →
  well_formed (splice raw off src).
Proof.
  intros [Hb Hl Hx] Hs Ho He. unfold INODE_BASE_SIZE, OFF_EXTRA_ISIZE in *. pose proof (zlen_nonneg src). split; [auto with ext4|unfold INODE_BASE_SIZE; zl|].
  unfold extra_ok in *. rewrite zlen_splice, le16_splice_ne by (offsets; zl). done.
Qed.

Lemma becomes_splice_low raw off src i : well_formed raw → bytes_ok src → 0 ≤ off → off + zlen src ≤ OFF_EXTRA_ISIZE →
  decode (splice raw off src) = i → becomes raw (splice raw off src) i.
Proof.
  intros Hw Hs Ho He Hd. pose proof (wf_len _ Hw) as Hl. unfold INODE_BASE_SIZE in Hl. pose proof (zlen_nonneg src).
  split; [by apply wf_splice_low|]. split; [unfold OFF_EXTRA_ISIZE in He; zl|]. split; [|done].
  apply le16_splice_ne; unfold OFF_EXTRA_ISIZE in *; zl.
Qed.

Lemma becomes_trans raw raw1 raw2 i j : becomes raw raw1 i → becomes raw1 raw2 j → becomes raw raw2 j.
Proof. intros (_ & Hz1 & He1 & _) (Hw & Hz2 & He2 & Hd). split; [done|]. split; [lia|]. split; [congruence|done]. Qed.

(** Read every field of [decode] through the stores below it. *)
Ltac read_fields :=
  unfold decode; cbn [Inode.mode Inode.uid Inode.gid Inode.size Inode.atime Inode.mtime Inode.ctime Inode.dtime Inode.crtime
    Inode.atime_nsec Inode.mtime_nsec Inode.ctime_nsec Inode.crtime_nsec Inode.links_count Inode.blocks Inode.flags Inode.block
    Inode.generation Inode.file_acl Inode.checksum];
  rewrite ?zlen_splice by (offsets; zl);
  repeat (rewrite x32_splice_low by (offsets; zl));
  repeat first [rewrite le16_splice_ne by (offsets; zl) | rewrite le32_splice_ne by (offsets; zl)
    | rewrite le16_splice by (offsets; first [zl|lia]) | rewrite le32_splice by (offsets; first [zl|lia])
    | rewrite sub_splice_disjoint by (offsets; zl) | rewrite sub_splice_same_len by (offsets; zl)]; try reflexivity.

Section fields.
Context (raw : bytes) (Hl : INODE_BASE_SIZE ≤ zlen raw).

Lemma decode_mode m : 0 ≤ m < 2 ^ 16 → decode (splice raw OFF_MODE (le_split 2 m)) = With.set_mode m (decode raw).
Proof. intros Hm. offsets. unfold With.set_mode. read_fields. Qed.

Lemma decode_links n : 0 ≤ n < 2 ^ 16 → decode (splice raw OFF_LINKS_COUNT (le_split 2 n)) = With.set_links n (decode raw).
Proof. intros Hm. offsets. unfold With.set_links. read_fields. Qed.

Lemma decode_flags f : 0 ≤ f < 2 ^ 32 → decode (splice raw OFF_FLAGS (le_split 4 f)) = With.set_flags f (decode raw).
Proof. intros Hm. offsets. unfold With.set_flags. read_fields. Qed.

Lemma decode_generation g : 0 ≤ g < 2 ^ 32 → decode (splice raw OFF_GENERATION (le_split 4 g)) = With.set_generation g (decode raw).
Proof. intros Hm. offsets. unfold With.set_generation. read_fields. Qed.

Lemma decode_block b : zlen b = 60 → decode (splice raw OFF_BLOCK b) = With.set_block b (decode raw).
Proof. intros Hm. offsets. unfold With.set_block. read_fields. Qed.

Lemma decode_uid lo hi : 0 ≤ lo < 2 ^ 16 → 0 ≤ hi < 2 ^ 16 →
  decode (splice (splice raw 0x02 (le_split 2 lo)) 0x78 (le_split 2 hi)) = With.set_uid (join16 hi lo) (decode raw).
Proof. intros Hm Hh. offsets. unfold With.set_uid. read_fields. Qed.

Lemma decode_gid lo hi : 0 ≤ lo < 2 ^ 16 → 0 ≤ hi < 2 ^ 16 →
  decode (splice (splice raw 0x18 (le_split 2 lo)) 0x7A (le_split 2 hi)) = With.set_gid (join16 hi lo) (decode raw).
Proof. intros Hm Hh. offsets. unfold With.set_gid. read_fields. Qed.

Lemma decode_file_acl lo hi : 0 ≤ lo < 2 ^ 32 → 0 ≤ hi < 2 ^ 16 →
  decode (splice (splice raw 0x68 (le_split 4 lo)) 0x76 (le_split 2 hi)) = With.set_file_acl (join32 hi lo) (decode raw).
Proof. intros Hm Hh. offsets. unfold With.set_file_acl. read_fields. Qed.

Lemma decode_size_blocks slo shi blo bhi : 0 ≤ slo < 2 ^ 32 → 0 ≤ shi < 2 ^ 32 → 0 ≤ blo < 2 ^ 32 → 0 ≤ bhi < 2 ^ 16 →
  decode (splice (splice (splice (splice raw 0x04 (le_split 4 slo)) 0x6C (le_split 4 shi)) 0x1C (le_split 4 blo)) 0x74 (le_split 2 bhi)) =
    With.set_size_blocks (join32 shi slo) (join32 bhi blo) (decode raw).
Proof. intros H1 H2 H3 H4. offsets. unfold With.set_size_blocks. read_fields. Qed.
End fields.

(** ** Times and checksums over a well-formed inode *)

(** What [set_inode_time] makes of the inode [i] that [raw] parses as. *)
Definition timed (raw : bytes) (f : InodeTime) (secs : Z) (i : Inode.t) : Inode.t :=
  if extra_field_fits raw (extra_offset f)
  then Inode.with_time i f (clamp MIN_ENCODABLE_TIME MAX_ENCODABLE_TIME secs) 0
  else if bool_decide (f ≠ Crtime) || extra_field_fits raw (base_offset f)
  then Inode.with_time i f (clamp i32_min i32_max secs) (snd (Inode.time_of i f)) else i.

Lemma put_u32_extra raw off v raw' : put_u32 raw off v = Ok raw' → off + 4 ≤ OFF_EXTRA_ISIZE ∨ OFF_EXTRA_ISIZE + 2 ≤ off →
  zlen raw' = zlen raw ∧ le16 raw' OFF_EXTRA_ISIZE = le16 raw OFF_EXTRA_ISIZE.
Proof.
  intros Hp Ho. unfold put_u32 in Hp. apply put_inv in Hp as (H1 & H2 & ->). rewrite zlen_le_split in H2.
  split; [zl|]. unfold OFF_EXTRA_ISIZE in *. rewrite le16_splice_ne by zl. done.
Qed.

Lemma set_time_extra raw f secs raw' : set_inode_time raw f secs = Ok raw' →
  zlen raw' = zlen raw ∧ le16 raw' OFF_EXTRA_ISIZE = le16 raw OFF_EXTRA_ISIZE.
Proof.
  unfold set_inode_time. destruct (extra_field_fits raw (extra_offset f)).
  - destruct (pack_seconds _) as [base era]. intros H. apply bind_ok_inv in H as (raw1 & H1 & H2).
    apply put_u32_extra in H1 as [Hz1 He1]; [|destruct f; cbn; offsets; lia].
    apply put_u32_extra in H2 as [Hz2 He2]; [|destruct f; cbn; offsets; lia]. split; [lia|congruence].
  - destruct (_ || _); [|by intros [= ->]]. intros H. apply put_u32_extra in H; [done|]. destruct f; cbn; offsets; lia.
Qed.

Lemma set_time_becomes raw f secs : well_formed raw →
  ∃ raw', set_inode_time raw f secs = Ok raw' ∧ becomes raw raw' (timed raw f secs (decode raw)).
Proof.
  intros Hw. destruct (set_inode_time_spec raw (decode raw) f secs (wf_bytes _ Hw) (wf_parse _ Hw)) as (raw' & E & Hz & Hb & Hp).
  exists raw'. split; [done|]. destruct (set_time_extra _ _ _ _ E) as [_ He]. apply parse_wf in Hp as [Hw' Hd]; [|done].
  split; [done|]. split; [done|]. split; [done|]. by rewrite <-Hd.
Qed.

Lemma timed_ext raw raw' f secs i : zlen raw' = zlen raw → le16 raw' OFF_EXTRA_ISIZE = le16 raw OFF_EXTRA_ISIZE →
  timed raw' f secs i = timed raw f secs i.
Proof. intros Hz He. unfold timed, extra_field_fits. by rewrite Hz, He. Qed.

Lemma le16_of_sub a b o : 0 ≤ o → sub a o 2 = sub b o 2 → le16 a o = le16 b o.
Proof. intros Ho E. unfold le16. by rewrite E. Qed.
Lemma le32_of_sub a b o : 0 ≤ o → sub a o 4 = sub b o 4 → le32 a o = le32 b o.
Proof. intros Ho E. unfold le32. by rewrite E. Qed.

Lemma put_bytes_ok b off src b' : put b off src = Ok b' → bytes_ok b → bytes_ok src → bytes_ok b'.
Proof. intros H Hb Hs. apply put_inv in H as (? & ? & ->). auto with ext4. Qed.

Section fs.
Context `{Crc32c} (fs : Filesystem.t).
Local Abbreviation csum := (Filesystem.csum fs).

Lemma patch_checksum_bytes ino gen raw raw' : patch_inode_checksum csum ino gen raw = Ok raw' → bytes_ok raw → bytes_ok raw'.
Proof.
  unfold patch_inode_checksum. intros Hp Hb. apply bind_ok_inv in Hp as (o & _ & Hp). destruct o as [[lo hi]|]; [|by injection Hp as <-].
  apply bind_ok_inv in Hp as (r1 & H1 & Hp). apply bind_ok_inv in Hp as (fits & _ & Hp).
  assert (bytes_ok r1) by (eapply put_bytes_ok; [exact H1|done|apply bytes_ok_le_split]).
  destruct fits; [|by injection Hp as <-]. eapply put_bytes_ok; [exact Hp|done|apply bytes_ok_le_split].
Qed.

(** The checksum step changes the inode's checksum alone, and the reader
    accepts the result. *)
Lemma finalize_becomes ino gen raw : well_formed raw →
  ∃ raw' c, finalize_inode_raw fs ino gen raw = Ok raw' ∧ becomes raw raw' (With.set_checksum c (decode raw)) ∧
    verify_inode csum ino gen raw' = Ok true.
Proof.
  intros Hw. unfold finalize_inode_raw. destruct (enabled csum) eqn:He.
  2:{ exists raw, (Inode.checksum (decode raw)). split; [done|]. split; [by split|]. unfold verify_inode. by rewrite He. }
  destruct Hw as [Hb Hl Hx]. destruct (patched_inode_verifies csum ino gen raw He Hb Hl) as (raw' & fits & E & Hv & Hz & _ & Hsub).
  assert (Hb' : bytes_ok raw') by (by eapply patch_checksum_bytes).
  assert (H16 : ∀ o, 0 ≤ o → o + 2 ≤ 0x7C ∨ (0x7E ≤ o ∧ o + 2 ≤ 0x82) ∨ 0x84 ≤ o → le16 raw' o = le16 raw o).
  { intros o Ho Hr. apply le16_of_sub; [done|]. apply Hsub; [done|]. tauto. }
  assert (H32 : ∀ o, 0 ≤ o → o + 4 ≤ 0x7C ∨ (0x7E ≤ o ∧ o + 4 ≤ 0x82) ∨ 0x84 ≤ o → le32 raw' o = le32 raw o).
  { intros o Ho Hr. apply le32_of_sub; [done|]. apply Hsub; [done|]. tauto. }
  assert (Hx32 : ∀ need o, 0x84 ≤ o → x32 raw' need o = x32 raw need o).
  { intros need o Ho. unfold x32. rewrite Hz, H16, H32 by (offsets; lia). done. }
  exists raw', (Inode.checksum (decode raw')). split; [done|]. split; [|done].
  split; [split; [done|lia|unfold extra_ok in *; rewrite Hz, H16 by (offsets; lia); done]|].
  split; [done|]. split; [apply H16; offsets; lia|].
  unfold decode, With.set_checksum. cbn [Inode.mode Inode.uid Inode.gid Inode.size Inode.atime Inode.mtime Inode.ctime Inode.dtime Inode.crtime
    Inode.atime_nsec Inode.mtime_nsec Inode.ctime_nsec Inode.crtime_nsec Inode.links_count Inode.blocks Inode.flags Inode.block
    Inode.generation Inode.file_acl Inode.checksum].
  rewrite !Hx32 by (offsets; lia). rewrite !(H32 OFF_SIZE_HI), !(H32 OFF_SIZE_LO), !(H32 OFF_ATIME), !(H32 OFF_MTIME), !(H32 OFF_CTIME),
    !(H32 0x14), !(H32 OFF_FLAGS), !(H32 OFF_GENERATION), !(H32 0x68), !(H32 OFF_BLOCKS_LO) by (offsets; lia).
  rewrite !(H16 OFF_MODE), !(H16 0x78), !(H16 0x02), !(H16 0x7A), !(H16 0x18), !(H16 OFF_LINKS_COUNT), !(H16 OFF_BLOCKS_HI), !(H16 0x76)
    by (offsets; lia).
  rewrite (Hsub OFF_BLOCK 60) by (offsets; lia). reflexivity.
Qed.

(** ** The link count *)

Lemma add_link_spec (is_dir dir_nlink : bool) count : 0 ≤ count ≤ MAX_LINKS →
  match add_link is_dir dir_nlink count with
  | Ok n => 0 < n ≤ MAX_LINKS ∧
      (n = count + 1 ∨ (is_dir = true ∧ n = 1 ∧ (count = 1 ∨ (count = MAX_LINKS ∧ dir_nlink = true))))
  | Err e => e = TooManyLinks ∧ count = MAX_LINKS ∧ (is_dir = false ∨ dir_nlink = false)
  | _ => False
  end.
Proof.
  unfold MAX_LINKS. intros Hc. unfold add_link, MAX_LINKS. destruct is_dir, dir_nlink; cbn [andb]; try case_bool_decide; repeat case_decide;
    unfold as_u16; rewrite ?Z.mod_small by lia; try (split; [lia|]); try (split; [done|]); try lia; auto; naive_solver lia.
Qed.

Lemma drop_link_spec (is_dir : bool) count : 0 ≤ count → drop_link is_dir count =
  if is_dir then (if decide (2 < count) then count - 1 else count) else Z.max 0 (count - 1).
Proof. done. Qed.

(** ** Attribute changes *)

Lemma lor_range n a b : 0 ≤ n → 0 ≤ a < 2 ^ n → 0 ≤ b < 2 ^ n → 0 ≤ Z.lor a b < 2 ^ n.
Proof.
  intros Hn Ha Hb. assert (Hl : 0 ≤ Z.lor a b) by (apply Z.lor_nonneg; lia). split; [done|].
  destruct (Z.eq_dec (Z.lor a b) 0) as [->|Hne]; [lia|]. apply Z.log2_lt_pow2; [lia|]. rewrite Z.log2_lor by lia.
  apply Z.max_lub_lt.
  - destruct (Z.eq_dec a 0) as [->|]; [|apply Z.log2_lt_pow2; lia].
    destruct (Z.eq_dec n 0) as [->|]; [exfalso; assert (b = 0) as -> by lia; by rewrite Z.lor_0_l in Hne|]. change (Z.log2 0) with 0. lia.
  - destruct (Z.eq_dec b 0) as [->|]; [|apply Z.log2_lt_pow2; lia].
    destruct (Z.eq_dec n 0) as [->|]; [exfalso; assert (a = 0) as -> by lia; by rewrite Z.lor_0_r in Hne|]. change (Z.log2 0) with 0. lia.
Qed.

Lemma land_range n a b : 0 ≤ n → 0 ≤ b < 2 ^ n → 0 ≤ Z.land a b < 2 ^ n.
Proof.
  intros Hn Hb. assert (Hl : 0 ≤ Z.land a b) by (apply Z.land_nonneg; lia). split; [done|].
  assert (Z.land a b ≤ b); [|lia].
  assert (E : b = Z.lor (Z.land a b) (Z.ldiff b a)).
  { apply Z.bits_inj'. intros k _. rewrite Z.lor_spec, Z.land_spec, Z.ldiff_spec. by destruct (Z.testbit a k), (Z.testbit b k). }
  assert (Hs : Z.lor (Z.land a b) (Z.ldiff b a) = Z.land a b + Z.ldiff b a).
  { assert (H0 : Z.land (Z.land a b) (Z.ldiff b a) = 0).
    { apply Z.bits_inj'. intros k _. rewrite !Z.land_spec, Z.ldiff_spec, Z.bits_0. by destruct (Z.testbit a k), (Z.testbit b k). }
    rewrite <-Z.lxor_lor by done. symmetry. by apply Z.add_nocarry_lxor. }
  rewrite Hs in E. assert (0 ≤ Z.ldiff b a) by (apply Z.ldiff_nonneg; lia). lia.
Qed.

Lemma split_id id : 0 ≤ id < 2 ^ 32 → 0 ≤ Z.land id 0xFFFF < 2 ^ 16 ∧ 0 ≤ Z.land (Z.shiftr id 16) 0xFFFF < 2 ^ 16 ∧
  join16 (Z.land (Z.shiftr id 16) 0xFFFF) (Z.land id 0xFFFF) = id.
Proof.
  intros Hi. rewrite !land_0xFFFF, Z.shiftr_div_pow2 by lia. assert (0 ≤ id / 2 ^ 16 < 2 ^ 16).
  { split; [apply Z.div_pos; lia|apply Z.div_lt_upper_bound; lia]. }
  rewrite (Z.mod_small (id / 2 ^ 16)) by lia. pose proof (Z.mod_pos_bound id (2 ^ 16) ltac:(lia)).
  split; [lia|]. split; [lia|]. unfold join16. rewrite lor_shiftl_add by lia. pose proof (Z.div_mod id (2 ^ 16) ltac:(lia)). lia.
Qed.

(** [raw'] is the inode [i] as the driver leaves it after an attribute write:
    as long, with a checksum the reader accepts, and reading as [i] but for
    the checksum. *)
Definition written (ino gen : Z) (raw raw' : bytes) (i : Inode.t) : Prop :=
  zlen raw' = zlen raw ∧ bytes_ok raw' ∧ verify_inode csum ino gen raw' = Ok true ∧
  ∃ c, Inode.parse raw' = Ok (With.set_checksum c i).

(** The tail the attribute writes share. *)
Lemma stamp_and_seal ino gen raw raw1 now i : becomes raw raw1 i →
  ∃ raw', (raw2 ← set_inode_time raw1 Ctime now; finalize_inode_raw fs ino gen raw2) = Ok raw' ∧
    written ino gen raw raw' (timed raw Ctime now i).
Proof.
  intros (Hw & Hz & He & Hd). destruct (set_time_becomes raw1 Ctime now Hw) as (raw2 & E2 & Hw2 & Hz2 & He2 & Hd2).
  destruct (finalize_becomes ino gen raw2 Hw2) as (raw3 & c & E3 & (Hw3 & Hz3 & _ & Hd3) & Hv).
  exists raw3. rewrite E2. cbn [mbind res_bind]. split; [done|]. split; [lia|]. split; [apply Hw3|]. split; [done|].
  exists c. rewrite (wf_parse _ Hw3), Hd3, Hd2, Hd. by rewrite (timed_ext raw raw1).
Qed.

Definition owner (u g : Z) (i : Inode.t) : Inode.t :=
  let i := if decide (u = u32_max) then i else With.set_uid u i in if decide (g = u32_max) then i else With.set_gid g i.

Lemma put_id_becomes raw id lo_at hi_at set_ : well_formed raw → 0 ≤ id < 2 ^ 32 →
  0 ≤ lo_at → lo_at + 2 ≤ OFF_EXTRA_ISIZE → 0 ≤ hi_at → hi_at + 2 ≤ OFF_EXTRA_ISIZE →
  (∀ lo hi, 0 ≤ lo < 2 ^ 16 → 0 ≤ hi < 2 ^ 16 →
     decode (splice (splice raw lo_at (le_split 2 lo)) hi_at (le_split 2 hi)) = set_ (join16 hi lo) (decode raw)) →
  ∃ raw', put_id raw id lo_at hi_at = Ok raw' ∧ becomes raw raw' (if decide (id = u32_max) then decode raw else set_ id (decode raw)).
Proof.
  intros Hw Hid H1 H2 H3 H4 Hdec. unfold put_id. case_decide; [exists raw; split; [done|by split]|].
  destruct (split_id id Hid) as (Hlo & Hhi & Hj). pose proof (wf_len _ Hw) as Hl. unfold INODE_BASE_SIZE, OFF_EXTRA_ISIZE in *.
  rewrite put_u16_ok by lia. cbn [mbind res_bind]. rewrite put_u16_ok by zl. eexists. split; [done|].
  specialize (Hdec _ _ Hlo Hhi). rewrite Hj in Hdec.
  assert (Hw1 : well_formed (splice raw lo_at (le_split 2 (Z.land id 65535)))).
  { apply wf_splice_low; [done|auto with ext4|lia|unfold OFF_EXTRA_ISIZE; zl]. }
  eapply (becomes_trans _ (splice raw lo_at (le_split 2 (Z.land id 65535))));
    [apply becomes_splice_low; [done|auto with ext4|lia|unfold OFF_EXTRA_ISIZE; zl|reflexivity]|].
  apply becomes_splice_low; [done|auto with ext4|lia|unfold OFF_EXTRA_ISIZE; zl|exact Hdec].
Qed.

(** C32: chmod, chown and set-flags on an inode that parses.  None of them
    panics.  chmod replaces the twelve permission bits and keeps the type;
    chown replaces each id that is not [u32::MAX]; set-flags refuses a change
    outside the user's flags and otherwise stores them.  Each stamps the change
    time, leaves every other field as it was, and leaves a checksum the reader
    accepts. *)
Theorem attribute_writes_spec ino raw inode mode uid gid flags now :
  bytes_ok raw → Inode.parse raw = Ok inode → 0 ≤ uid < 2 ^ 32 → 0 ≤ gid < 2 ^ 32 → 0 ≤ flags < 2 ^ 32 →
  let stamp := timed raw Ctime now in
  let gen := Inode.generation inode in
  (∃ raw', chmod_raw fs ino inode raw mode now = Ok raw' ∧
     written ino gen raw raw' (stamp (With.set_mode (Z.lor (Z.land (Inode.mode inode) S_IFMT) (Z.land mode 0x0FFF)) inode))) ∧
  (∃ raw', chown_raw fs ino inode raw uid gid now = Ok raw' ∧ written ino gen raw raw' (stamp (owner uid gid inode))) ∧
  (if decide (Z.land (Z.lxor flags (Inode.flags inode)) (lnot32 USER_MODIFIABLE_FLAGS) = 0)
   then ∃ raw', set_flags_raw fs ino inode raw flags now = Ok raw' ∧ written ino gen raw raw' (stamp (With.set_flags flags inode))
   else ∃ msg, set_flags_raw fs ino inode raw flags now = Err (InvalidArgument msg)).
Proof.
  intros Hb Hp Hu Hg Hf stamp gen. destruct (parse_wf raw inode Hb Hp) as [Hw ->].
  pose proof (wf_len _ Hw) as Hl. unfold INODE_BASE_SIZE in Hl. split; [|split].
  - set (m := Z.lor _ _). assert (Hm : 0 ≤ m < 2 ^ 16).
    { apply lor_range; [lia|apply land_range; [lia|by vm_compute]|]. pose proof (land_range 16 mode 0x0FFF ltac:(lia)). lia. }
    unfold chmod_raw. fold m. rewrite put_u16_ok by lia. cbn [mbind res_bind]. apply stamp_and_seal.
    apply becomes_splice_low; [done|auto with ext4|lia|offsets; zl|]. by apply decode_mode.
  - unfold chown_raw. destruct (put_id_becomes raw uid 0x02 0x78 With.set_uid Hw Hu) as (r1 & E1 & B1); try (offsets; lia).
    { intros lo hi Hlo Hhi. by apply decode_uid. }
    rewrite E1. cbn [mbind res_bind]. destruct B1 as (Hw1 & Hz1 & He1 & Hd1).
    destruct (put_id_becomes r1 gid 0x18 0x7A With.set_gid Hw1 Hg) as (r2 & E2 & B2); try (offsets; lia).
    { intros lo hi Hlo Hhi. apply decode_gid; [apply Hw1|done|done]. }
    rewrite E2. cbn [mbind res_bind]. apply stamp_and_seal. unfold owner. rewrite Hd1 in B2.
    eapply becomes_trans; [|exact B2]. split; [done|]. split; [done|]. done.
  - unfold set_flags_raw. case_decide as Hd.
    + rewrite decide_False by (rewrite Hd; tauto). unfold OFF_FLAGS. rewrite put_u32_ok by lia. cbn [mbind res_bind].
      apply stamp_and_seal. apply becomes_splice_low; [done|auto with ext4|lia|offsets; zl|]. by apply decode_flags.
    + rewrite decide_True by done. eauto.
Qed.

(** ** New inodes *)

(** A volume's inodes are 128 bytes, or have room for the 32 extra ones. *)
Definition inode_size_ok : Prop :=
  INODE_BASE_SIZE = Superblock.inode_size (Filesystem.sb fs) ∨ 160 ≤ Superblock.inode_size (Filesystem.sb fs).
Local Abbreviation isize := (Superblock.inode_size (Filesystem.sb fs)).

(** A new inode being built: its extra section still blank. *)
Record draft (raw : bytes) (i : Inode.t) : Prop := {
  draft_wf : well_formed raw;
  draft_len : zlen raw = isize;
  draft_tail : 160 ≤ isize → sub raw OFF_EXTRA_ISIZE 32 = zrep 32 0;
  draft_reads : decode raw = i;
}.

Lemma draft_splice raw i off src j : draft raw i → bytes_ok src → 0 ≤ off → off + zlen src ≤ OFF_EXTRA_ISIZE →
  decode (splice raw off src) = j → put raw off src = Ok (splice raw off src) ∧ draft (splice raw off src) j.
Proof.
  intros [Hw Hz Ht Hd] Hs Ho He Hj. pose proof (wf_len _ Hw) as Hl. unfold INODE_BASE_SIZE, OFF_EXTRA_ISIZE in *. pose proof (zlen_nonneg src).
  split; [rewrite put_ok by lia; done|]. split; [by apply wf_splice_low|zl| |done].
  intros H160. unfold OFF_EXTRA_ISIZE in *. rewrite sub_splice_disjoint by lia. by apply Ht.
Qed.

Lemma sub_zeros n o k : 0 ≤ o → 0 ≤ k → o + k ≤ n → sub (zrep n 0) o k = zrep k 0.
Proof.
  intros. unfold sub, zrep. rewrite drop_replicate, take_replicate. f_equal. lia.
Qed.

Lemma le16_zeros n o : 0 ≤ o → o + 2 ≤ n → le16 (zrep n 0) o = 0.
Proof. intros. unfold le16. by rewrite sub_zeros by lia. Qed.
Lemma le32_zeros n o : 0 ≤ o → o + 4 ≤ n → le32 (zrep n 0) o = 0.
Proof. intros. unfold le32. by rewrite sub_zeros by lia. Qed.
Lemma x32_zeros n need o : INODE_BASE_SIZE ≤ n → OFF_EXTRA_ISIZE ≤ o → 0 < need → x32 (zrep n 0) need o = 0.
Proof.
  intros Hn Ho Hneed. unfold x32. case_decide as Hd; [|done]. rewrite zlen_zrep in Hd. offsets.
  rewrite le16_zeros in Hd by lia. lia.
Qed.

Definition fresh (mode size links blocks flags : Z) : Inode.t :=
  Inode.mk mode 0 0 size 0 0 0 0 0 0 0 0 0 links blocks flags (zrep 60 0) 0 0 0.

Lemma blank_draft : inode_size_ok → draft (blank_inode fs) (fresh 0 0 0 0 0).
Proof.
  intros Hs. assert (Hn : 128 ≤ isize) by (unfold inode_size_ok, INODE_BASE_SIZE in Hs; lia). unfold blank_inode.
  split.
  - split; [apply bytes_ok_zrep; lia|rewrite zlen_zrep; unfold INODE_BASE_SIZE; lia|].
    unfold extra_ok. rewrite zlen_zrep. offsets. intros. rewrite le16_zeros by lia. lia.
  - rewrite zlen_zrep. lia.
  - intros. apply sub_zeros; unfold OFF_EXTRA_ISIZE; lia.
  - unfold decode, fresh. rewrite !x32_zeros by (offsets; lia). rewrite zlen_zrep. offsets.
    rewrite decide_False by (intros [Ha Hb]; rewrite le16_zeros in Hb by lia; lia).
    rewrite !le16_zeros, !le32_zeros, sub_zeros by lia. reflexivity.
Qed.

(** The four times of a new inode, to the second. *)
Definition born (now : Z) (i : Inode.t) : Inode.t :=
  if decide (160 ≤ isize) then
    let c := clamp MIN_ENCODABLE_TIME MAX_ENCODABLE_TIME now in
    Inode.with_time (Inode.with_time (Inode.with_time (Inode.with_time i Atime c 0) Ctime c 0) Mtime c 0) Crtime c 0
  else
    let c := clamp i32_min i32_max now in
    let keep f j := Inode.with_time j f c (snd (Inode.time_of j f)) in keep Mtime (keep Ctime (keep Atime i)).

Lemma extra_isize_becomes raw i : inode_size_ok → draft raw i → ∃ raw', write_inode_extra_isize raw = Ok raw' ∧
  well_formed raw' ∧ zlen raw' = isize ∧ (160 ≤ isize → le16 raw' OFF_EXTRA_ISIZE = 32) ∧ decode raw' = i.
Proof.
  intros Hs [Hw Hz Ht Hd]. unfold inode_size_ok, INODE_BASE_SIZE in Hs. unfold write_inode_extra_isize, INODE_SIZE_WITH_EXTRA.
  case_decide as Hl; [|exists raw; split; [done|split; [done|split; [done|split; [lia|done]]]]].
  assert (H160 : 160 ≤ isize) by lia. specialize (Ht H160). unfold EXTRA_ISIZE_DEFAULT. rewrite put_u16_ok by (offsets; lia).
  destruct Hw as [Hb _ _]. eexists. split; [done|].
  assert (Hz16 : ∀ o, OFF_EXTRA_ISIZE ≤ o → o + 2 ≤ 160 → le16 raw o = 0).
  { intros o Ho Ho2. replace o with (OFF_EXTRA_ISIZE + (o - OFF_EXTRA_ISIZE)) by lia. offsets.
    rewrite <-(le16_sub raw 128 32) by lia. rewrite Ht, le16_zeros by lia. done. }
  assert (Hz32 : ∀ o, OFF_EXTRA_ISIZE ≤ o → o + 4 ≤ 160 → le32 raw o = 0).
  { intros o Ho Ho2. replace o with (OFF_EXTRA_ISIZE + (o - OFF_EXTRA_ISIZE)) by lia. offsets.
    rewrite <-(le32_sub raw 128 32) by lia. rewrite Ht, le32_zeros by lia. done. }
  assert (Hx : ∀ need o, 0 < need → OFF_EXTRA_ISIZE + 4 ≤ o → o + 4 ≤ 160 →
    x32 (splice raw OFF_EXTRA_ISIZE (le_split 2 32)) need o = x32 raw need o).
  { intros need o Hn Ho Ho2. unfold x32. rewrite zlen_splice by (offsets; zl). rewrite le16_splice, le32_splice_ne by (offsets; zl).
    rewrite (Hz16 OFF_EXTRA_ISIZE), (Hz32 o) by (offsets; lia). by repeat case_decide. }
  split.
  { split; [auto with ext4|unfold INODE_BASE_SIZE; offsets; zl|]. unfold extra_ok. intros _. rewrite zlen_splice by (offsets; zl).
    rewrite le16_splice by (offsets; lia). offsets. lia. }
  split; [offsets; zl|]. split; [intros _; apply le16_splice; offsets; lia|].
  rewrite <-Hd. unfold decode. rewrite !Hx by (offsets; lia). rewrite zlen_splice by (offsets; zl).
  rewrite (le16_splice raw OFF_EXTRA_ISIZE) by (offsets; lia). rewrite (le16_splice_ne raw OFF_EXTRA_ISIZE _ OFF_CHECKSUM_HI) by (offsets; zl).
  rewrite (Hz16 OFF_EXTRA_ISIZE), (Hz16 OFF_CHECKSUM_HI) by (offsets; lia).
  rewrite (decide_False (P := _ ∧ 4 ≤ 0)) by lia. rewrite decide_True by (offsets; lia).
  repeat (rewrite le16_splice_ne by (offsets; zl)). repeat (rewrite le32_splice_ne by (offsets; zl)).
  rewrite sub_splice_disjoint by (offsets; zl). reflexivity.
Qed.

Lemma timed_wide raw f secs i : 160 ≤ zlen raw → le16 raw OFF_EXTRA_ISIZE = 32 →
  timed raw f secs i = Inode.with_time i f (clamp MIN_ENCODABLE_TIME MAX_ENCODABLE_TIME secs) 0.
Proof.
  intros Hz He. unfold timed. assert (extra_field_fits raw (extra_offset f) = true) as ->; [|done].
  apply extra_field_fits_true; [destruct f; by vm_compute|]. rewrite He. destruct f; cbn; offsets; lia.
Qed.
Lemma timed_short raw f secs i : zlen raw = 128 →
  timed raw f secs i = if bool_decide (f ≠ Crtime) then Inode.with_time i f (clamp i32_min i32_max secs) (snd (Inode.time_of i f)) else i.
Proof.
  intros Hz. assert (Hf : ∀ o, extra_field_fits raw o = false) by (intros o; unfold extra_field_fits; offsets; by rewrite decide_True by lia).
  unfold timed. rewrite !Hf, orb_false_r. done.
Qed.

Lemma seal_becomes raw i ino generation now : inode_size_ok → draft raw i → 0 ≤ generation < 2 ^ 32 →
  ∃ raw' c, seal_new_inode fs raw ino generation now = Ok raw' ∧ well_formed raw' ∧ zlen raw' = isize ∧
    verify_inode csum ino generation raw' = Ok true ∧
    Inode.parse raw' = Ok (With.set_checksum c (With.set_generation generation (born now i))).
Proof.
  intros Hs Hdr Hg. destruct (extra_isize_becomes raw i Hs Hdr) as (r0 & E0 & Hw0 & Hz0 & He0 & Hd0).
  unfold seal_new_inode, write_inode_timestamps, write_inode_generation. rewrite E0. cbn [mbind res_bind].
  destruct (set_time_becomes r0 Atime now Hw0) as (r1 & E1 & Hw1 & Hz1 & He1 & Hd1). rewrite E1. cbn [mbind res_bind].
  destruct (set_time_becomes r1 Ctime now Hw1) as (r2 & E2 & Hw2 & Hz2 & He2 & Hd2). rewrite E2. cbn [mbind res_bind].
  destruct (set_time_becomes r2 Mtime now Hw2) as (r3 & E3 & Hw3 & Hz3 & He3 & Hd3). rewrite E3. cbn [mbind res_bind].
  destruct (set_time_becomes r3 Crtime now Hw3) as (r4 & E4 & Hw4 & Hz4 & He4 & Hd4). rewrite E4. cbn [mbind res_bind].
  pose proof (wf_len _ Hw4) as Hl4. unfold INODE_BASE_SIZE in Hl4. rewrite put_u32_ok by (offsets; lia). cbn [mbind res_bind].
  assert (Hb4 : becomes r4 (splice r4 OFF_GENERATION (le_split 4 generation)) (With.set_generation generation (decode r4))).
  { apply becomes_splice_low; [done|auto with ext4|by vm_compute|offsets; zl|]. by apply decode_generation. }
  destruct Hb4 as (Hw5 & Hz5 & _ & Hd5).
  destruct (finalize_becomes ino generation _ Hw5) as (r6 & c & E6 & (Hw6 & Hz6 & _ & Hd6) & Hv).
  exists r6, c. split; [exact E6|]. split; [done|]. split; [lia|]. split; [done|]. rewrite (wf_parse _ Hw6), Hd6, Hd5. do 3 f_equal.
  rewrite Hd4, Hd3, Hd2, Hd1, Hd0. unfold born. unfold inode_size_ok, INODE_BASE_SIZE in Hs. case_decide as H160.
  - specialize (He0 H160). by rewrite !timed_wide by (lia || congruence).
  - by rewrite !timed_short by lia.
Qed.

(** A store into the 60-byte block area. *)
Lemma decode_in_block raw o src : INODE_BASE_SIZE ≤ zlen raw → OFF_BLOCK ≤ o → o + zlen src ≤ OFF_BLOCK + 60 →
  decode (splice raw o src) = With.set_block (sub (splice raw o src) OFF_BLOCK 60) (decode raw).
Proof. intros Hl Ho Hs. pose proof (zlen_nonneg src). offsets. unfold With.set_block. read_fields. Qed.

Lemma draft_in_block raw i o src : draft raw i → bytes_ok src → OFF_BLOCK ≤ o → o + zlen src ≤ OFF_BLOCK + 60 →
  put raw o src = Ok (splice raw o src) ∧ draft (splice raw o src) (With.set_block (sub (splice raw o src) OFF_BLOCK 60) i).
Proof.
  intros Hd Hs Ho He. apply (draft_splice raw i); [done|done|offsets; lia|offsets; lia|].
  destruct Hd as [Hw _ _ <-]. by apply decode_in_block; [apply Hw|..].
Qed.

(** How a new inode maps its only block. *)
Definition maps_first (phys : Z) (flags : Z) (b : bytes) : Prop :=
  if FsFlavor.uses_extents (flavor fs)
  then flags = InodeFlags.EXTENTS ∧ leaf_node b [Extent.mk 0 1 phys false]
  else flags = 0 ∧ b = le_split 4 phys ++ zrep 56 0.

Lemma leaf_bytes b n max gen : zlen b = 60 → le16 b 0 = EXT4_EXT_MAGIC → le16 b 2 = n → le16 b 4 = max → le16 b 6 = 0 → le32 b 8 = gen →
  n ≤ max → ExtentHeader.parse b = Ok (ExtentHeader.mk EXT4_EXT_MAGIC n max 0 gen).
Proof.
  intros Hz E0 E2 E4 E6 E8 Hn. unfold ExtentHeader.parse, EXT4_EXT_NODE_SIZE. rewrite decide_False by lia.
  rewrite !u16_le_ok, u32_le_ok by lia. cbn [mbind res_bind]. rewrite E0, E2, E4, E6, E8. rewrite decide_False by auto.
  by rewrite decide_False by lia.
Qed.

Lemma one_extent_leaf r hi lo phys : 128 ≤ zlen r → 0 ≤ hi < 2 ^ 16 → 0 ≤ lo < 2 ^ 32 → join32 hi lo = phys →
  leaf_node (sub (splice (splice (splice (splice (splice (splice (splice (splice r 40 (le_split 2 EXT4_EXT_MAGIC)) 42 (le_split 2 1))
    44 (le_split 2 4)) 46 (le_split 2 0)) 52 (le_split 4 0)) 56 (le_split 2 1)) 58 (le_split 2 hi)) 60 (le_split 4 lo)) 40 60)
    [Extent.mk 0 1 phys false].
Proof.
  intros Hl Hhi Hlo Hj.
  set (b1 := splice r 40 _). assert (L1 : zlen b1 = zlen r) by (unfold b1; zl).
  set (b2 := splice b1 42 _). assert (L2 : zlen b2 = zlen r) by (unfold b2; zl).
  set (b3 := splice b2 44 _). assert (L3 : zlen b3 = zlen r) by (unfold b3; zl).
  set (b4 := splice b3 46 _). assert (L4 : zlen b4 = zlen r) by (unfold b4; zl).
  set (b5 := splice b4 52 _). assert (L5 : zlen b5 = zlen r) by (unfold b5; zl).
  set (b6 := splice b5 56 _). assert (L6 : zlen b6 = zlen r) by (unfold b6; zl).
  set (b7 := splice b6 58 _). assert (L7 : zlen b7 = zlen r) by (unfold b7; zl).
  set (b8 := splice b7 60 _). assert (L8 : zlen b8 = zlen r) by (unfold b8; zl).
  assert (Hk : ∀ o, 0 ≤ o → o + 2 ≤ 60 → le16 b8 o = le16 b7 o).
  { intros o Ho Ho2. unfold b8. apply le16_splice_ne; rewrite ?zlen_le_split; lia. }
  assert (Hk7 : ∀ o, 0 ≤ o → o + 2 ≤ 58 → le16 b7 o = le16 b6 o).
  { intros o Ho Ho2. unfold b7. apply le16_splice_ne; rewrite ?zlen_le_split; lia. }
  assert (Hk6 : ∀ o, 0 ≤ o → o + 2 ≤ 56 → le16 b6 o = le16 b5 o).
  { intros o Ho Ho2. unfold b6. apply le16_splice_ne; rewrite ?zlen_le_split; lia. }
  assert (Hk5 : ∀ o, 0 ≤ o → o + 2 ≤ 52 → le16 b5 o = le16 b4 o).
  { intros o Ho Ho2. unfold b5. apply le16_splice_ne; rewrite ?zlen_le_split; lia. }
  assert (Hlow : ∀ o, 0 ≤ o → o + 2 ≤ 52 → le16 b8 o = le16 b4 o) by (intros; by rewrite Hk, Hk7, Hk6, Hk5 by lia).
  assert (E40 : le16 b4 40 = EXT4_EXT_MAGIC).
  { unfold b4. rewrite (le16_splice_ne b3) by (rewrite ?zlen_le_split; lia). unfold b3. rewrite (le16_splice_ne b2) by (rewrite ?zlen_le_split; lia).
    unfold b2. rewrite (le16_splice_ne b1) by (rewrite ?zlen_le_split; lia).
    apply le16_splice; unfold EXT4_EXT_MAGIC; lia. }
  assert (E42 : le16 b4 42 = 1).
  { unfold b4. rewrite (le16_splice_ne b3) by (rewrite ?zlen_le_split; lia). unfold b3. rewrite (le16_splice_ne b2) by (rewrite ?zlen_le_split; lia). apply le16_splice; lia. }
  assert (E44 : le16 b4 44 = 4).
  { unfold b4. rewrite (le16_splice_ne b3) by (rewrite ?zlen_le_split; lia). apply le16_splice; lia. }
  assert (E46 : le16 b4 46 = 0) by (apply le16_splice; lia).
  assert (E52 : le32 b8 52 = 0).
  { unfold b8. rewrite (le32_splice_ne b7) by (rewrite ?zlen_le_split; lia). unfold b7. rewrite (le32_splice_ne b6) by (rewrite ?zlen_le_split; lia).
    unfold b6. rewrite (le32_splice_ne b5) by (rewrite ?zlen_le_split; lia). apply le32_splice; lia. }
  assert (E56 : le16 b8 56 = 1) by (rewrite Hk, Hk7 by lia; apply le16_splice; lia).
  assert (E58 : le16 b8 58 = hi) by (rewrite Hk by lia; apply le16_splice; lia).
  assert (E60 : le32 b8 60 = lo) by (apply le32_splice; lia).
  assert (Hz : zlen (sub b8 40 60) = 60) by (rewrite zlen_sub; lia).
  exists (ExtentHeader.mk EXT4_EXT_MAGIC 1 4 0 (le32 b8 48)). split.
  { apply leaf_bytes; try done; rewrite ?le16_sub, ?le32_sub by lia; cbn [Z.add Pos.add Pos.succ]; rewrite ?Hlow by lia; done. }
  split; [done|]. cbn [ExtentHeader.entries]. change (seqZ 0 1) with [0]. cbn [traverse].
  rewrite leaf_entry_sub by (change (entry_off 0) with 12; lia). change (entry_off 0) with 12. rewrite sub_sub by lia.
  unfold Extent.parse, EXT4_EXT_NODE_SIZE. assert (Hzs : zlen (sub b8 (40 + 12) 12) = 12) by (rewrite zlen_sub; lia).
  rewrite decide_False by lia. rewrite !u32_le_ok, !u16_le_ok by lia. cbn [mbind res_bind].
  rewrite !le32_sub, !le16_sub by lia.
  change (40 + 12 + 0) with 52. change (40 + 12 + 4) with 56. change (40 + 12 + 6) with 58. change (40 + 12 + 8) with 60. rewrite E52, E56, E58, E60, Hj. reflexivity.
Qed.

Lemma map_one_block_ok raw i phys : draft raw i → Inode.flags i = 0 → Inode.block i = zrep 60 0 → 0 < phys < 2 ^ 48 →
  FsFlavor.uses_extents (flavor fs) = true ∨ phys < 2 ^ 32 →
  ∃ raw' f b, map_one_block fs raw phys = Ok raw' ∧ draft raw' (With.set_block b (With.set_flags f i)) ∧ maps_first phys f b.
Proof.
  intros Hd Hf Hb Hp He. unfold map_one_block, maps_first. pose proof Hd as [Hw Hz _ Hr]. pose proof (wf_len _ Hw) as Hl. unfold INODE_BASE_SIZE in Hl.
  assert (Hblk : sub raw OFF_BLOCK 60 = zrep 60 0) by (rewrite <-Hr in Hb; exact Hb).
  destruct (FsFlavor.uses_extents (flavor fs)) eqn:Ef; cbn [negb].
  - assert (E0 : u32_le raw OFF_FLAGS = Ok 0).
    { rewrite u32_le_ok by (offsets; lia). rewrite <-Hr in Hf. cbn in Hf. by rewrite Hf. }
    rewrite E0. cbn [mbind res_bind]. change (Z.lor 0 InodeFlags.EXTENTS) with InodeFlags.EXTENTS.
    destruct (draft_splice raw i OFF_FLAGS (le_split 4 InodeFlags.EXTENTS) (With.set_flags InodeFlags.EXTENTS i)) as [P1 D1];
      [done|auto with ext4|by vm_compute|by vm_compute|rewrite decode_flags by (done || by_compute); by rewrite Hr|].
    rewrite put_u32_ok by (offsets; lia). cbn [mbind res_bind].
    set (r1 := splice raw OFF_FLAGS _) in *. set (j := With.set_flags InodeFlags.EXTENTS i) in *.
    assert (Hstep : ∀ r o src, draft r (With.set_block (sub r OFF_BLOCK 60) j) → bytes_ok src → OFF_BLOCK ≤ o → o + zlen src ≤ OFF_BLOCK + 60 →
      put r o src = Ok (splice r o src) ∧ draft (splice r o src) (With.set_block (sub (splice r o src) OFF_BLOCK 60) j)).
    { intros r o src Hdr. apply (draft_in_block r _ o src Hdr). }
    assert (D1' : draft r1 (With.set_block (sub r1 OFF_BLOCK 60) j)).
    { destruct D1 as [W1 L1 T1 R1]. split; try done. rewrite <-R1. reflexivity. }
    destruct (split_join_phys phys ltac:(lia)) as (Hj & Hhi & Hlo). destruct (split_phys_block phys) as [hi lo]. cbn [fst snd] in *.
    unfold put_u16, put_u32, OFF_BLOCK in *. change (40 + 2) with 42. change (40 + 4) with 44. change (40 + 6) with 46.
    change (40 + 12) with 52. change (52 + 4) with 56. change (52 + 6) with 58. change (52 + 8) with 60.
    destruct (Hstep r1 40 (le_split 2 EXT4_EXT_MAGIC) D1') as [P2 D2]; [auto with ext4|lia|zl|]. rewrite P2. cbn [mbind res_bind].
    destruct (Hstep _ 42 (le_split 2 1) D2) as [P3 D3]; [auto with ext4|lia|zl|]. rewrite P3. cbn [mbind res_bind].
    destruct (Hstep _ 44 (le_split 2 4) D3) as [P4 D4]; [auto with ext4|lia|zl|]. rewrite P4. cbn [mbind res_bind].
    destruct (Hstep _ 46 (le_split 2 0) D4) as [P5 D5]; [auto with ext4|lia|zl|]. rewrite P5. cbn [mbind res_bind].
    destruct (Hstep _ 52 (le_split 4 0) D5) as [P6 D6]; [auto with ext4|lia|zl|]. rewrite P6. cbn [mbind res_bind].
    destruct (Hstep _ 56 (le_split 2 1) D6) as [P7 D7]; [auto with ext4|lia|zl|]. rewrite P7. cbn [mbind res_bind].
    destruct (Hstep _ 58 (le_split 2 hi) D7) as [P8 D8]; [auto with ext4|lia|zl|]. rewrite P8. cbn [mbind res_bind].
    destruct (Hstep _ 60 (le_split 4 lo) D8) as [P9 D9]; [auto with ext4|lia|zl|].
    pose proof (draft_len _ _ D1) as L1. pose proof (draft_len _ _ D2) as L2. pose proof (draft_len _ _ D3) as L3.
    pose proof (draft_len _ _ D4) as L4. pose proof (draft_len _ _ D5) as L5. pose proof (draft_len _ _ D6) as L6.
    pose proof (draft_len _ _ D7) as L7. pose proof (draft_len _ _ D8) as L8. pose proof (draft_len _ _ D9) as L9.
    eexists _, InodeFlags.EXTENTS, _. split; [exact P9|]. split; [exact D9|]. split; [done|]. clear P2 P3 P4 P5 P6 P7 P8 P9.
    apply (one_extent_leaf r1); lia.
  - rewrite decide_False by (destruct He; [done|lia]).
    destruct (draft_in_block raw i OFF_BLOCK (le_split 4 phys) Hd) as [P1 D1]; [auto with ext4|lia|zl|].
    exists (splice raw OFF_BLOCK (le_split 4 phys)), 0, (sub (splice raw OFF_BLOCK (le_split 4 phys)) OFF_BLOCK 60). split; [exact P1|].
    split. { replace (With.set_flags 0 i) with i by (destruct i; cbn in *; by subst). exact D1. }
    split; [done|]. change 60 with (4 + 56). rewrite sub_split by (offsets; lia). f_equal; [rewrite sub_splice_same_len; [done|offsets; zl..]|].
    unfold OFF_BLOCK in *. rewrite sub_splice_disjoint by zl. rewrite <-(sub_sub raw 40 60 4 56), Hblk by lia. by rewrite sub_zeros by lia.
Qed.

(** What every builder delivers: a full inode whose checksum the reader
    accepts, that parses as [i] born at [now]. *)
Definition created (ino generation now : Z) (raw : bytes) (i : Inode.t) : Prop :=
  zlen raw = isize ∧ bytes_ok raw ∧ verify_inode csum ino generation raw = Ok true ∧
  ∃ c, Inode.parse raw = Ok (With.set_checksum c (With.set_generation generation (born now i))).

Lemma seal_created raw i ino generation now : inode_size_ok → draft raw i → 0 ≤ generation < 2 ^ 32 →
  ∃ raw', seal_new_inode fs raw ino generation now = Ok raw' ∧ created ino generation now raw' i.
Proof.
  intros Hs Hd Hg. destruct (seal_becomes raw i ino generation now Hs Hd Hg) as (raw' & c & E & Hw & Hz & Hv & Hp).
  exists raw'. split; [done|]. split; [done|]. split; [apply Hw|]. split; [done|]. by exists c.
Qed.

Lemma draft_mode raw i m : draft raw i → 0 ≤ m < 2 ^ 16 → ∃ raw', put_u16 raw OFF_MODE m = Ok raw' ∧ draft raw' (With.set_mode m i).
Proof.
  intros Hd Hm. eexists. apply (draft_splice raw i OFF_MODE (le_split 2 m)); [done|auto with ext4|by vm_compute|offsets; zl|].
  destruct Hd as [Hw _ _ <-]. apply decode_mode; [apply Hw|done].
Qed.
Lemma draft_links raw i n : draft raw i → 0 ≤ n < 2 ^ 16 → ∃ raw', put_u16 raw OFF_LINKS_COUNT n = Ok raw' ∧ draft raw' (With.set_links n i).
Proof.
  intros Hd Hm. eexists. apply (draft_splice raw i OFF_LINKS_COUNT (le_split 2 n)); [done|auto with ext4|by vm_compute|offsets; zl|].
  destruct Hd as [Hw _ _ <-]. apply decode_links; [apply Hw|done].
Qed.
Lemma draft_flags raw i f : draft raw i → 0 ≤ f < 2 ^ 32 → ∃ raw', put_u32 raw OFF_FLAGS f = Ok raw' ∧ draft raw' (With.set_flags f i).
Proof.
  intros Hd Hm. eexists. apply (draft_splice raw i OFF_FLAGS (le_split 4 f)); [done|auto with ext4|by vm_compute|offsets; zl|].
  destruct Hd as [Hw _ _ <-]. apply decode_flags; [apply Hw|done].
Qed.

(** An empty inline leaf with room for four extents. *)
Definition maps_nothing (flags : Z) (b : bytes) : Prop :=
  if FsFlavor.uses_extents (flavor fs)
  then flags = InodeFlags.EXTENTS ∧ leaf_node b [] else flags = 0 ∧ b = zrep 60 0.

Lemma empty_leaf_ok raw i : draft raw i → ∃ raw' b, (raw ← put_u16 raw OFF_BLOCK EXT4_EXT_MAGIC;
    raw ← put_u16 raw (OFF_BLOCK + 2) 0; raw ← put_u16 raw (OFF_BLOCK + 4) 4; put_u16 raw (OFF_BLOCK + 6) 0) = Ok raw' ∧
  draft raw' (With.set_block b i) ∧ leaf_node b [].
Proof.
  intros Hd. pose proof (draft_len _ _ Hd) as L0. pose proof (wf_len _ (draft_wf _ _ Hd)) as Hl. unfold INODE_BASE_SIZE in Hl.
  unfold OFF_BLOCK. change (40 + 2) with 42. change (40 + 4) with 44. change (40 + 6) with 46. unfold put_u16.
  destruct (draft_in_block raw i 40 (le_split 2 EXT4_EXT_MAGIC) Hd) as [P1 D1]; [auto with ext4|by vm_compute|by vm_compute|].
  rewrite P1. cbn [mbind res_bind].
  destruct (draft_in_block _ _ 42 (le_split 2 0) D1) as [P2 D2]; [auto with ext4|by vm_compute|by vm_compute|]. rewrite P2. cbn [mbind res_bind].
  destruct (draft_in_block _ _ 44 (le_split 2 4) D2) as [P3 D3]; [auto with ext4|by vm_compute|by vm_compute|]. rewrite P3. cbn [mbind res_bind].
  destruct (draft_in_block _ _ 46 (le_split 2 0) D3) as [P4 D4]; [auto with ext4|by vm_compute|by vm_compute|]. rewrite P4.
  eexists _, _. split; [reflexivity|]. split; [exact D4|]. clear P1 P2 P3 P4 D1 D2 D3 D4.
  set (b1 := splice raw 40 _). assert (L1 : zlen b1 = zlen raw) by (unfold b1; zl).
  set (b2 := splice b1 42 _). assert (L2 : zlen b2 = zlen raw) by (unfold b2; zl).
  set (b3 := splice b2 44 _). assert (L3 : zlen b3 = zlen raw) by (unfold b3; zl).
  set (b4 := splice b3 46 _). assert (L4 : zlen b4 = zlen raw) by (unfold b4; zl).
  assert (K4 : ∀ o, 0 ≤ o → o + 2 ≤ 46 → le16 b4 o = le16 b3 o) by (intros; apply le16_splice_ne; rewrite ?zlen_le_split; lia).
  assert (K3 : ∀ o, 0 ≤ o → o + 2 ≤ 44 → le16 b3 o = le16 b2 o) by (intros; apply le16_splice_ne; rewrite ?zlen_le_split; lia).
  assert (K2 : ∀ o, 0 ≤ o → o + 2 ≤ 42 → le16 b2 o = le16 b1 o) by (intros; apply le16_splice_ne; rewrite ?zlen_le_split; lia).
  assert (Hz : zlen (sub b4 OFF_BLOCK 60) = 60) by (unfold OFF_BLOCK; rewrite zlen_sub; lia). unfold OFF_BLOCK in *.
  exists (ExtentHeader.mk EXT4_EXT_MAGIC 0 4 0 (le32 b4 48)). split; [|done].
  apply leaf_bytes; try done; rewrite ?le16_sub, ?le32_sub by lia; cbn [Z.add Pos.add Pos.succ]; try done.
  - rewrite K4, K3, K2 by lia. apply le16_splice; unfold EXT4_EXT_MAGIC; lia.
  - rewrite K4, K3 by lia. apply le16_splice; lia.
  - rewrite K4 by lia. apply le16_splice; lia.
  - apply le16_splice; lia.
Qed.

(** C31: what a new regular file and a new directory look like.  On a volume of
    128-byte inodes, or of any size with room for the extra fields, both
    builders succeed, and the inode they deliver parses, with a checksum the
    reader accepts, the mode's twelve bits under the right type, the link count
    of the kind, both owners zero, the times of the clock and the generation
    given; the file maps nothing, the directory one block, which its size and
    block count say. *)
Theorem new_inodes_spec ino mode generation now phys : inode_size_ok → 0 ≤ generation < 2 ^ 32 → 0 < phys < 2 ^ 48 →
  FsFlavor.uses_extents (flavor fs) = true ∨ phys < 2 ^ 32 → 0 ≤ Filesystem.block_size fs < 2 ^ 32 →
  (∃ raw f b, build_regular_file_inode fs ino mode generation now = Ok raw ∧ maps_nothing f b ∧
     created ino generation now raw (With.set_block b (fresh (Z.lor S_IFREG (Z.land mode 0x0FFF)) 0 1 0 f))) ∧
  (∃ raw f b, build_directory_inode fs ino mode phys generation now = Ok raw ∧ maps_first phys f b ∧
     created ino generation now raw (With.set_block b
       (fresh (Z.lor S_IFDIR (Z.land mode 0x0FFF)) (Filesystem.block_size fs) 2 (Filesystem.block_size fs / 512) f))).
Proof.
  intros Hs Hg Hp He Hbs. assert (Hmode : ∀ ty, 0 ≤ ty < 2 ^ 16 → 0 ≤ Z.lor ty (Z.land mode 0x0FFF) < 2 ^ 16).
  { intros ty Hty. apply lor_range; [lia|done|]. apply land_range; [lia|by vm_compute]. }
  split.
  - unfold build_regular_file_inode.
    destruct (draft_mode _ _ (Z.lor S_IFREG (Z.land mode 0x0FFF)) (blank_draft Hs)) as (r1 & E1 & D1); [by apply Hmode|].
    rewrite E1. cbn [mbind res_bind]. destruct (draft_links _ _ 1 D1) as (r2 & E2 & D2); [lia|]. rewrite E2. cbn [mbind res_bind].
    unfold maps_nothing. destruct (FsFlavor.uses_extents (flavor fs)).
    + destruct (draft_flags _ _ InodeFlags.EXTENTS D2) as (r3 & E3 & D3); [by vm_compute|]. rewrite E3. cbn [mbind res_bind].
      destruct (empty_leaf_ok _ _ D3) as (r4 & b & E4 & D4 & Hleaf). rewrite E4. cbn [mbind res_bind].
      destruct (seal_created _ _ ino generation now Hs D4 Hg) as (raw & E & Hc). exists raw, InodeFlags.EXTENTS, b. by split.
    + cbn [mbind res_bind]. destruct (seal_created _ _ ino generation now Hs D2 Hg) as (raw & E & Hc).
      exists raw, 0, (zrep 60 0). by split.
  - unfold build_directory_inode.
    destruct (draft_mode _ _ (Z.lor S_IFDIR (Z.land mode 0x0FFF)) (blank_draft Hs)) as (r1 & E1 & D1); [by apply Hmode|].
    rewrite E1. cbn [mbind res_bind]. destruct (draft_links _ _ 2 D1) as (r2 & E2 & D2); [lia|]. rewrite E2. cbn [mbind res_bind].
    destruct (map_one_block_ok _ _ phys D2 eq_refl eq_refl Hp He) as (r3 & f & b & E3 & D3 & Hm). rewrite E3. cbn [mbind res_bind].
    set (bs := Filesystem.block_size fs) in *. pose proof (wf_len _ (draft_wf _ _ D3)) as Hl. unfold INODE_BASE_SIZE in Hl.
    assert (Hsec : 0 ≤ bs / 512 < 2 ^ 32) by (split; [apply Z.div_pos; lia|apply Z.div_lt_upper_bound; lia]).
    assert (V1 : as_u32 (Z.land bs 0xFFFFFFFF) = bs).
    { change 0xFFFFFFFF with (2 ^ 32 - 1). rewrite land_ones_mod by lia. unfold as_u32. rewrite (Z.mod_small bs) by lia. by apply Z.mod_small. }
    assert (V2 : as_u32 (Z.shiftr bs 32) = 0).
    { rewrite Z.shiftr_div_pow2 by lia. by rewrite Z.div_small by lia. }
    assert (V3 : as_u32 (bs / 512) = bs / 512) by (by apply Z.mod_small).
    assert (V4 : as_u16 (Z.land (Z.shiftr (bs / 512) 32) 0xFFFF) = 0).
    { rewrite Z.shiftr_div_pow2 by lia. by rewrite Z.div_small by lia. }
    rewrite V1, V2, V3, V4. unfold OFF_SIZE_LO, OFF_SIZE_HI, OFF_BLOCKS_LO, OFF_BLOCKS_HI.
    rewrite put_u32_ok by lia. cbn [mbind res_bind]. rewrite put_u32_ok by zl. cbn [mbind res_bind].
    rewrite put_u32_ok by zl. cbn [mbind res_bind]. rewrite put_u16_ok by zl. cbn [mbind res_bind].
    assert (D4 : draft (splice (splice (splice (splice r3 0x04 (le_split 4 bs)) 0x6C (le_split 4 0)) 0x1C (le_split 4 (bs / 512))) 0x74 (le_split 2 0))
      (With.set_size_blocks (join32 0 bs) (join32 0 (bs / 512)) (decode r3))).
    { pose proof (draft_len _ _ D3) as L3. split.
      - repeat apply wf_splice_low; try apply D3; auto with ext4; unfold OFF_EXTRA_ISIZE; zl.
      - zl.
      - intros H160. unfold OFF_EXTRA_ISIZE. rewrite !sub_splice_disjoint by zl. by apply D3.
      - apply decode_size_blocks; unfold INODE_BASE_SIZE; lia. }
    destruct (seal_created _ _ ino generation now Hs D4 Hg) as (raw & E & Hc). exists raw, f, b. split; [exact E|]. split; [done|].
    rewrite !join32_eq, (draft_reads _ _ D3) in Hc by lia. exact Hc.
Qed.

End fs.

(** The link count.  From a count within bounds, a change ends within bounds,
    never at 0 for a directory, whose 1 means too many to count and stays 1;
    it is refused, with the one error, only when links are added; and adding a
    link that is counted is undone by dropping it. *)
Lemma next_links_count_spec is_dir count delta dir_nlink : 0 ≤ count ≤ MAX_LINKS → (is_dir = true → 1 ≤ count) →
  match next_links_count is_dir count delta dir_nlink with
  | Ok n => 0 ≤ n ≤ MAX_LINKS ∧ (is_dir = true → 1 ≤ n) ∧ (is_dir = true → count = 1 → n = 1) ∧
      (delta = 1 → n = count + 1 → (is_dir = true → 2 ≤ count) → next_links_count is_dir n (-1) dir_nlink = Ok count)
  | Err e => e = TooManyLinks ∧ 0 < delta
  | _ => False
  end.
Proof.
  intros Hc Hd. unfold next_links_count.
  assert (Hloop : ∀ k c, 0 ≤ c ≤ MAX_LINKS → (is_dir = true → 1 ≤ c) →
    match foldM (λ count (_ : ()), if decide (0 < delta) then add_link is_dir dir_nlink count else Ok (drop_link is_dir count)) c (replicate k tt) with
    | Ok n => 0 ≤ n ≤ MAX_LINKS ∧ (is_dir = true → 1 ≤ n) ∧ (is_dir = true → c = 1 → n = 1)
    | Err e => e = TooManyLinks ∧ 0 < delta
    | _ => False
    end).
  { induction k as [|k IH]; intros c H1 H2; cbn [replicate foldM]; [done|]. destruct (decide (0 < delta)) as [Hp|Hp].
    - pose proof (add_link_spec is_dir dir_nlink c H1) as Ha. destruct (add_link is_dir dir_nlink c) as [n|e| |] eqn:Ea; cbn [mbind res_bind]; try done.
      2:{ by destruct Ha. }
      specialize (IH n ltac:(lia) ltac:(lia)). destruct (foldM _ n _) as [m| | |]; try done. destruct IH as (I1 & I2 & I3).
      split; [done|]. split; [done|]. intros Hdir ->. apply I3; [done|]. unfold add_link in Ea. rewrite Hdir, bool_decide_true in Ea by done. cbn in Ea. congruence.
    - cbn [mbind res_bind]. assert (Hn : 0 ≤ drop_link is_dir c ≤ MAX_LINKS ∧ (is_dir = true → 1 ≤ drop_link is_dir c) ∧
        (is_dir = true → c = 1 → drop_link is_dir c = 1)).
      { unfold drop_link, saturating_sub. destruct is_dir; [case_decide; specialize (H2 eq_refl)|]; repeat split; intros; try done; lia. }
      destruct Hn as (N1 & N2 & N3). specialize (IH _ N1 N2). destruct (foldM _ _ _) as [m| | |]; try done.
      destruct IH as (I1 & I2 & I3). split; [done|]. split; [done|]. intros Hdir Hc1. apply I3; auto. }
  specialize (Hloop (Z.to_nat (Z.abs delta)) count Hc Hd). destruct (foldM _ count _) as [n|e| |] eqn:En; try done.
  destruct Hloop as (L1 & L2 & L3). split; [done|]. split; [done|]. split; [done|]. intros -> -> H2.
  change (replicate (Z.to_nat (Z.abs (-1))) tt) with [tt]. cbn [foldM]. rewrite decide_False by lia. cbn [mbind res_bind]. f_equal.
  unfold drop_link, saturating_sub. destruct is_dir; [specialize (H2 eq_refl); rewrite decide_True by lia|]; lia.
Qed.

Lemma next_links_count_spec_witness : next_links_count true 64999 1 true = Ok 65000 ∧ next_links_count true 65000 1 true = Ok 1.
Proof.
  pose proof (next_links_count_spec true 64999 1 true ltac:(vm_compute; split; discriminate) ltac:(lia)) as H.
  destruct (next_links_count true 64999 1 true) as [n| | |] eqn:E; try (vm_compute in E; discriminate). vm_compute in E. injection E as <-.
  split; [reflexivity|vm_compute; reflexivity].
Defined.

(** A volume of 256-byte inodes and 1 KiB blocks, with checksums on. *)
Definition sample_volume : res Filesystem.t := sb ← Bgd.sample_sb 256 64; Ok (Filesystem.mk sb [] (mkChecksummer 7 true)).

Lemma attribute_writes_spec_witness : ∃ fs inode raw', sample_volume = Ok fs ∧ Inode.parse sample_inode = Ok inode ∧
  @chmod_raw castagnoli fs 12 inode sample_inode 0x1ED 1700000000 = Ok raw' ∧
  le16 raw' OFF_MODE = 0x81ED ∧ @verify_inode castagnoli (Filesystem.csum fs) 12 (Inode.generation inode) raw' = Ok true.
Proof.
  destruct sample_volume as [fs| | |] eqn:Efs; try (vm_compute in Efs; discriminate).
  destruct (Inode.parse sample_inode) as [inode|e| |] eqn:Ei; try (vm_compute in Ei; discriminate Ei).
  destruct (@attribute_writes_spec castagnoli fs 12 sample_inode inode 0x1ED 0 0 0 1700000000) as [(raw' & E & _ & _ & Hv & _) _];
    [by_compute|exact Ei|lia|lia|lia|].
  exists fs, inode, raw'. split; [reflexivity|]. split; [reflexivity|]. split; [exact E|]. split; [|exact Hv].
  clear Hv. vm_compute in Ei. injection Ei as <-. vm_compute in Efs. injection Efs as <-. vm_compute in E. injection E as <-. vm_compute. reflexivity.
Defined.

Lemma new_inodes_spec_witness : ∃ fs raw, sample_volume = Ok fs ∧
  @build_directory_inode castagnoli fs 12 0x1ED 300 5 1700000000 = Ok raw ∧
  @verify_inode castagnoli (Filesystem.csum fs) 12 5 raw = Ok true.
Proof.
  destruct sample_volume as [fs| | |] eqn:Efs; try (vm_compute in Efs; discriminate).
  destruct (@new_inodes_spec castagnoli fs 12 0x1ED 5 1700000000 300) as [_ (raw & f & b & E & _ & (_ & _ & Hv & _))].
  - right. vm_compute in Efs. injection Efs as <-. vm_compute. discriminate.
  - lia.
  - lia.
  - right. lia.
  - vm_compute in Efs. injection Efs as <-. by_compute.
  - exists fs, raw. split; [reflexivity|]. split; [exact E|exact Hv].
Defined.
