(* ===== verification/FileIo.v ===== *)
(** FileIo: reading a file's contents (src/src/file_io.rs): the byte walk over
    extents or indirect pointers, with its one-extent and one-block caches,
    the whole-file reads, and the reads that dispatch on inline data.  The
    specification is the file as a function from offsets to bytes. *)
From S2P Require Import Prelude Errors Bytes Device Superblock Checksum Bgd Extent Inode Indirect InlineData Filesystem.

Definition refuse_encrypted (inode : Inode.t) : res unit :=
  if decide (Z.land (Inode.flags inode) InodeFlags.ENCRYPT ≠ 0 ∧ Inode.is_dir inode = false)
  then Err (Unsupported "the file is encrypted (EXT4_ENCRYPT_FL) and this driver holds no key") else Ok tt.

Definition refuse_encrypted_names (dir : Inode.t) : res unit :=
  if decide (Z.land (Inode.flags dir) InodeFlags.ENCRYPT ≠ 0)
  then Err (Unsupported "the directory's names are encrypted (EXT4_ENCRYPT_FL) and this driver holds no key") else Ok tt.

Section io.
Context `{Crc32c} (fs : Filesystem.t) (dev : reader).

Definition bs : Z := Filesystem.block_size fs.

(** [dst] filled from a physical block, the two error texts apart. *)
Definition read_phys (overflow : Error) (physical_block off_in_block copy_len : Z) : res bytes :=
  b ← ok_or (checked_mul64 physical_block bs) overflow;
  phys_byte_offset ← ok_or (checked_add64 b off_in_block) overflow;
  rd_read dev phys_byte_offset copy_len.

Definition lookup_cached (ctx : option ExtentVerifyCtx) (i_block : bytes) (logical_block : Z) (cached : option Extent.t)
    : res (option Extent.t) :=
  match cached with
  | Some e => if Extent.contains e logical_block then Ok (Some e) else lookup_verified dev bs i_block logical_block ctx
  | None => lookup_verified dev bs i_block logical_block ctx
  end.

(** The walk's caches: the last extent, the last pointer block. *)
Record caches := mkCaches { cached_extent : option Extent.t; indirect_cache : Indirect.IndirectCache }.

(** What one turn of the walk copies. *)
Definition piece (ctx : option ExtentVerifyCtx) (inode : Inode.t) (logical_block off_in_block copy_len : Z) (c : caches)
    : res (bytes * caches) :=
  if Inode.has_extents inode then
    ext_opt ← lookup_cached ctx (Inode.block inode) logical_block (cached_extent c);
    let c := mkCaches ext_opt (indirect_cache c) in
    match ext_opt with
    | None => Ok (zrep copy_len 0, c)
    | Some ext =>
        if Extent.uninitialized ext then Ok (zrep copy_len 0, c) else
        b ← read_phys (CorruptExtentTree "physical block offset overflow") (Extent.map ext logical_block) off_in_block copy_len;
        Ok (b, c)
    end
  else
    let '(r, ic) := Indirect.lookup dev bs (Inode.block inode) logical_block (indirect_cache c) in
    phys_opt ← r;
    let c := mkCaches (cached_extent c) ic in
    match phys_opt with
    | None => Ok (zrep copy_len 0, c)
    | Some physical_block =>
        b ← read_phys (Corrupt "indirect: physical block offset overflow") physical_block off_in_block copy_len;
        Ok (b, c)
    end.

Fixpoint read_loop (ctx : option ExtentVerifyCtx) (fuel : nat) (inode : Inode.t) (end_offset written cur_offset : Z)
    (c : caches) (out : bytes) : res (Z * bytes) :=
  if decide (cur_offset < end_offset) then
    match fuel with
    | O => OutOfFuel
    | S fuel =>
        let logical_block := cur_offset / bs in
        let off_in_block := cur_offset mod bs in
        let copy_len := Z.min (bs - off_in_block) (end_offset - cur_offset) in
        '(b, c) ← piece ctx inode logical_block off_in_block copy_len c;
        out ← put out written b;
        read_loop ctx fuel inode end_offset (written + copy_len) (cur_offset + copy_len) c out
    end
  else Ok (written, out).

(** Enough turns: one for each block the range touches. *)
Definition blocks_of (offset n : Z) : nat := Z.to_nat ((offset + n - 1) / bs - offset / bs + 1).

Definition read_with_ctx (ctx : option ExtentVerifyCtx) (inode : Inode.t) (offset length : Z) (out : bytes) : res (Z * bytes) :=
  _ ← refuse_encrypted inode;
  if decide (length = 0 ∨ out = []) then Ok (0, out) else
  if Inode.has_inline_data inode
  then Err (Corrupt "inline-data file: caller must use file_io::read_inline with raw inode bytes") else
  if decide (Inode.size inode ≤ offset) then Ok (0, out) else
  let max_read := Z.min (Z.min (Inode.size inode - offset) length) (zlen out) in
  if decide (max_read = 0) then Ok (0, out) else
  read_loop ctx (blocks_of offset max_read) inode (offset + max_read) 0 offset (mkCaches None Indirect.new) out.

Definition read : Inode.t → Z → Z → bytes → res (Z * bytes) := read_with_ctx None.

Definition read_verified (inode : Inode.t) (ino : Z) : Z → Z → bytes → res (Z * bytes) :=
  read_with_ctx (Some (mkCtx ino (Inode.generation inode) (Filesystem.csum fs))) inode.

Definition byte_ceiling : res Z :=
  bytes ← ok_or (Superblock.filesystem_bytes (Filesystem.sb fs)) (Corrupt "superblock: blocks_count * block_size overflows");
  Ok (Z.min bytes (rd_size dev)).

Definition read_all (inode : Inode.t) : res bytes :=
  ceiling ← byte_ceiling;
  if decide (ceiling < Inode.size inode)
  then Err (Corrupt "reading this file whole would need more memory than the filesystem has bytes") else
  let size := Inode.size inode in
  '(n, buf) ← read inode 0 size (zrep size 0);
  Ok (sub buf 0 n).

Definition read_inline (inode : Inode.t) (inode_raw : bytes) : res bytes :=
  _ ← refuse_encrypted inode;
  InlineData.read_all dev inode inode_raw (Superblock.inode_size (Filesystem.sb fs)) bs.

Definition read_with_raw (inode : Inode.t) (inode_raw : bytes) (offset length : Z) (out : bytes) : res (Z * bytes) :=
  _ ← refuse_encrypted inode;
  if Inode.has_inline_data inode
  then read_range dev inode inode_raw (Superblock.inode_size (Filesystem.sb fs)) bs offset out
  else read inode offset length out.

Definition read_with_raw_verified (inode : Inode.t) (inode_raw : bytes) (ino offset length : Z) (out : bytes) : res (Z * bytes) :=
  _ ← refuse_encrypted inode;
  if Inode.has_inline_data inode
  then read_range dev inode inode_raw (Superblock.inode_size (Filesystem.sb fs)) bs offset out
  else read_verified inode ino offset length out.
End io.

(** ** The file as a function from offsets to bytes *)

Lemma splice_app {A} (l a b : list A) off : 0 ≤ off → off + zlen a + zlen b ≤ zlen l →
  splice (splice l off a) (off + zlen a) b = splice l off (a ++ b).
Proof.
  intros Ho Hl. pose proof (zlen_nonneg a). pose proof (zlen_nonneg b).
  apply list_eq. intros i. rewrite !lookup_splice by (rewrite ?zlen_splice_gen, ?zlen_app; lia).
  rewrite !zlen_app. repeat case_decide; try lia; try done.
  - rewrite lookup_app_r by (unfold zlen in *; lia). f_equal. unfold zlen in *. lia.
  - rewrite lookup_app_l by (unfold zlen in *; lia). done.
Qed.

Lemma sub_bytes_at l o n : 0 ≤ o → 0 ≤ n → o + n ≤ zlen l → sub l o n = byte_at l <$> seqZ o n.
Proof.
  intros Ho Hn Hl. apply list_eq. intros i. rewrite list_lookup_fmap.
  destruct (decide (Z.of_nat i < n)) as [Hi|Hi].
  - rewrite lookup_seqZ_lt by lia. cbn. rewrite lookup_sub by lia. rewrite decide_True by lia.
    unfold byte_at. replace (Z.to_nat (o + Z.of_nat i)) with (Z.to_nat o + i)%nat by lia.
    destruct (l !! (Z.to_nat o + i)%nat) eqn:E; [done|]. apply lookup_ge_None in E. unfold zlen in *. lia.
  - rewrite lookup_sub, decide_False by lia. by rewrite lookup_seqZ_ge by lia.
Qed.

Section content.
Context `{Crc32c} (fs : Filesystem.t) (img : bytes) (ctx : option ExtentVerifyCtx) (inode : Inode.t).
Local Abbreviation bs := (bs fs).
Local Abbreviation dev := (image_reader img).

(** Where an extent puts a logical block: an uninitialised one is a hole. *)
Definition ext_target (e : option Extent.t) (l : Z) : option Z :=
  match e with Some e => if Extent.uninitialized e then None else Some (Extent.map e l) | None => None end.

(** [m] is the file's block map: what its extent tree, or its pointers, say. *)
Definition ext_maps (m : Z → option Z) (exts : list Extent.t) : Prop :=
  ∃ h lo hi nodes, ExtentHeader.parse (Inode.block inode) = Ok h ∧ ExtentHeader.depth h ≤ EXT4_EXT_MAX_DEPTH ∧
    tree dev bs ctx (Z.to_nat (ExtentHeader.depth h)) (Inode.block inode) lo hi exts nodes ∧
    ∀ l, m l = ext_target (find_ext l exts) l.
Definition maps (m : Z → option Z) : Prop :=
  if Inode.has_extents inode then ∃ exts, ext_maps m exts
  else Indirect.block_size_ok bs ∧ ∀ l, 0 ≤ l → l * bs < Inode.size inode → Indirect.lookup_ref dev bs (Inode.block inode) l = Ok (m l).

(** Every mapped block of the file lies in the image. *)
Definition mapped_inside (m : Z → option Z) : Prop :=
  ∀ l p, 0 ≤ l → l * bs < Inode.size inode → m l = Some p → 0 ≤ p ∧ (p + 1) * bs ≤ zlen img.

Definition file_byte (m : Z → option Z) (o : Z) : Z :=
  match m (o / bs) with Some p => byte_at img (p * bs + o mod bs) | None => 0 end.
Definition file_bytes (m : Z → option Z) (off n : Z) : bytes := file_byte m <$> seqZ off n.

Context (m : Z → option Z).
Hypothesis Hbs : 0 < bs.
Hypothesis Himg : zlen img < 2 ^ 64.
Hypothesis Hm : maps m.
Hypothesis Hin : mapped_inside m.

Lemma zlen_file_bytes off n : 0 ≤ n → zlen (file_bytes m off n) = n.
Proof. intros Hn. unfold file_bytes. rewrite zlen_fmap. unfold zlen. rewrite length_seqZ. lia. Qed.

Lemma file_bytes_app off a b : 0 ≤ a → 0 ≤ b → file_bytes m off (a + b) = file_bytes m off a ++ file_bytes m (off + a) b.
Proof. intros Ha Hb. unfold file_bytes. rewrite seqZ_app by lia. by rewrite fmap_app. Qed.

(** A range inside one block. *)
Lemma file_bytes_block l o n : 0 ≤ o → 0 ≤ n → o + n ≤ bs →
  file_bytes m (l * bs + o) n = match m l with Some p => byte_at img <$> seqZ (p * bs + o) n | None => zrep n 0 end.
Proof.
  intros Ho Hn Hl. unfold file_bytes.
  assert (Hdiv : ∀ i, 0 ≤ i < n → (l * bs + o + i) / bs = l ∧ (l * bs + o + i) mod bs = o + i).
  { intros i Hi. assert (E : l * bs + o + i = (o + i) + l * bs) by lia. rewrite E, Z.div_add, Z.mod_add by lia.
    rewrite Z.div_small, Z.mod_small by lia. lia. }
  apply list_eq. intros i. rewrite list_lookup_fmap. destruct (decide (Z.of_nat i < n)) as [Hi|Hi].
  - rewrite lookup_seqZ_lt by lia. cbn. unfold file_byte. destruct (Hdiv (Z.of_nat i)) as [-> ->]; [lia|].
    destruct (m l); [rewrite list_lookup_fmap, lookup_seqZ_lt by lia; cbn; do 2 f_equal; lia|].
    unfold zrep. rewrite lookup_replicate_2 by lia. done.
  - rewrite lookup_seqZ_ge by lia. destruct (m l); [by rewrite list_lookup_fmap, lookup_seqZ_ge by lia|].
    symmetry. apply lookup_ge_None. unfold zrep. rewrite length_replicate. lia.
Qed.

(** Both caches hold what a fresh lookup would answer. *)
Definition caches_ok (c : caches) : Prop :=
  Indirect.coherent dev bs (indirect_cache c) ∧
  ∀ e exts, cached_extent c = Some e → ext_maps m exts → e ∈ exts.

Lemma exts_in_find lo hi exts e l : exts_in lo hi exts → e ∈ exts → Extent.contains e l = true → find_ext l exts = Some e.
Proof.
  revert lo. induction exts as [|x exts IH]; intros lo Hx He Hc; [by apply elem_of_nil in He|].
  cbn [exts_in] in Hx. destruct Hx as (? & ? & Hx). unfold find_ext. cbn [List.find].
  apply elem_of_cons in He as [->|He]; [by rewrite Hc|].
  destruct (Extent.contains x l) eqn:Ex; [|by eapply IH].
  exfalso. pose proof (IH _ Hx He Hc) as Hf. apply contains_true in Ex.
  rewrite (find_below _ _ _ l Hx) in Hf; [done|lia].
Qed.

Lemma read_phys_ok err p o n : 0 ≤ p → (p + 1) * bs ≤ zlen img → 0 ≤ o → 0 ≤ n → o + n ≤ bs →
  read_phys fs dev err p o n = Ok (byte_at img <$> seqZ (p * bs + o) n).
Proof.
  intros Hp Hl Ho Hn Hon. unfold read_phys, checked_mul64, checked_add64.
  rewrite decide_True by (unfold u64_max; lia). cbn [ok_or mbind res_bind].
  rewrite decide_True by (unfold u64_max; lia). cbn [ok_or mbind res_bind rd_read image_reader].
  rewrite decide_True by lia. f_equal. apply sub_bytes_at; lia.
Qed.

Lemma find_ext_in l exts e : find_ext l exts = Some e → e ∈ exts ∧ Extent.contains e l = true.
Proof. intros Hf. apply find_some in Hf as [Hi Hc]. split; [by apply list_elem_of_In|done]. Qed.

(** A cached extent that covers the block is the extent a lookup finds. *)
Lemma lookup_cached_ok l exts cached : ext_maps m exts → (∀ e, cached = Some e → e ∈ exts) →
  lookup_cached fs dev ctx (Inode.block inode) l cached = Ok (find_ext l exts).
Proof.
  intros (h & lo & hi & nodes & Hh & Hd & Ht & _) Hc.
  pose proof (lookup_verified_spec _ _ _ _ _ _ _ _ _ l Hh Hd Ht) as El. unfold lookup_cached.
  destruct cached as [e|]; [|exact El]. destruct (Extent.contains e l) eqn:Ec; [|exact El].
  f_equal. symmetry. eapply exts_in_find; [by eapply tree_exts_in|by apply Hc|done].
Qed.

Lemma piece_ok c l o n : caches_ok c → 0 ≤ l → 0 ≤ o → 0 ≤ n → o + n ≤ bs → l * bs < Inode.size inode →
  ∃ c', piece fs dev ctx inode l o n c = Ok (file_bytes m (l * bs + o) n, c') ∧ caches_ok c'.
Proof.
  intros [Hcoh Hcache] Hl Ho Hn Hon Hsize. rewrite file_bytes_block by done. unfold piece. pose proof Hm as Hm'. unfold maps in Hm'.
  destruct (Inode.has_extents inode).
  - destruct Hm' as (exts & Hexts). rewrite (lookup_cached_ok l exts) by eauto. cbn [mbind res_bind].
    assert (Hc' : caches_ok (mkCaches (find_ext l exts) (indirect_cache c))).
    { split; [done|]. intros e exts' He Hexts'. cbn in He.
      assert (E : find_ext l exts = find_ext l exts').
      { pose proof (lookup_cached_ok l exts None Hexts ltac:(done)) as E1. pose proof (lookup_cached_ok l exts' None Hexts' ltac:(done)) as E2.
        rewrite E1 in E2. by injection E2. }
      rewrite E in He. exact (proj1 (find_ext_in _ _ _ He)). }
    assert (Eml : m l = ext_target (find_ext l exts) l) by (destruct Hexts as (? & ? & ? & ? & _ & _ & _ & Hml); apply Hml).
    rewrite Eml. destruct (find_ext l exts) as [e|]; cbn [ext_target] in *; [|by eexists].
    destruct (Extent.uninitialized e); [by eexists|].
    destruct (Hin l (Extent.map e l)) as [? ?]; [done|done|done|]. rewrite read_phys_ok by done. cbn [mbind res_bind]. by eexists.
  - destruct Hm' as [Hok Href]. destruct (Indirect.lookup_yields _ _ (Inode.block inode) l Hok _ Hcoh) as (ic & E & Hcoh').
    rewrite E. rewrite Href by done. cbn [mbind res_bind].
    assert (Hc' : caches_ok (mkCaches (cached_extent c) ic)) by done.
    destruct (m l) as [q|] eqn:Eml; [|by eexists]. destruct (Hin l q) as [? ?]; [done|done|done|].
    rewrite read_phys_ok by done. cbn [mbind res_bind]. by eexists.
Qed.

Lemma read_loop_ok stop : stop ≤ Inode.size inode → ∀ fuel cur written c out, caches_ok c → 0 ≤ cur ≤ stop → 0 ≤ written →
  written + (stop - cur) ≤ zlen out → (stop - 1) / bs - cur / bs + 1 ≤ Z.of_nat fuel ∨ cur = stop →
  read_loop fs dev ctx fuel inode stop written cur c out =
    Ok (written + (stop - cur), splice out written (file_bytes m cur (stop - cur))).
Proof.
  intros Hstop. induction fuel as [|fuel IH]; intros cur written c out Hc Hcur Hw Hlen Hf; cbn [read_loop].
  all: destruct (decide (cur < stop)) as [Hlt|Hlt]; [|replace stop with cur by lia; rewrite Z.sub_diag, Z.add_0_r; f_equal; f_equal;
    unfold file_bytes; rewrite seqZ_nil by lia; symmetry; unfold splice; cbn [fmap list_fmap app length]; rewrite Nat.add_0_r; apply take_drop].
  { exfalso. destruct Hf as [Hf|]; [|lia]. pose proof (Z.div_le_mono cur (stop - 1) bs Hbs ltac:(lia)). lia. }
  pose proof (Z.div_mod cur bs ltac:(lia)) as Hdm. pose proof (Z.mod_pos_bound cur bs Hbs) as Hmod.
  set (l := cur / bs) in *. set (o := cur mod bs) in *. set (n := Z.min (bs - o) (stop - cur)) in *.
  assert (Hl : 0 ≤ l) by (apply Z.div_pos; lia).
  destruct (piece_ok c l o n) as (c' & E & Hc'); [done|lia..|]. rewrite E. cbn [mbind res_bind].
  replace (l * bs + o) with cur in * by lia. rewrite put_ok by (rewrite ?zlen_file_bytes; lia). cbn [mbind res_bind].
  assert (Hz : zlen (splice out written (file_bytes m cur n)) = zlen out) by (rewrite zlen_splice_gen, zlen_file_bytes; lia).
  rewrite IH; [|done|lia..|].
  - f_equal. f_equal; [lia|]. replace (stop - cur) with (n + (stop - (cur + n))) by lia.
    rewrite file_bytes_app by lia. pose proof (splice_app out (file_bytes m cur n) (file_bytes m (cur + n) (stop - (cur + n))) written) as Es.
    rewrite !zlen_file_bytes in Es by lia. apply Es; lia.
  - destruct (decide (cur + n = stop)) as [|Hne]; [by right|left]. destruct Hf as [Hf|]; [|lia].
    assert (En : cur + n = (l + 1) * bs) by lia. rewrite En, Z.div_mul by lia. lia.
Qed.

Lemma read_with_ctx_ok offset length out : refuse_encrypted inode = Ok tt → Inode.has_inline_data inode = false →
  0 ≤ offset → 0 ≤ length →
  let n := Z.max 0 (Z.min (Z.min (Inode.size inode - offset) length) (zlen out)) in
  read_with_ctx fs dev ctx inode offset length out = Ok (n, splice out 0 (file_bytes m offset n)).
Proof.
  intros He Hi Ho Hl n. pose proof (zlen_nonneg out). unfold read_with_ctx. rewrite He, Hi. cbn [mbind res_bind].
  assert (Hnil : splice out 0 [] = out) by done.
  assert (Hz0 : n = 0 → Ok (0, out) = Ok (n, splice out 0 (file_bytes m offset n))).
  { intros ->. unfold file_bytes. by rewrite seqZ_nil by lia. }
  case_decide as Hz; [apply Hz0; destruct Hz as [->| ->]; [lia|change (zlen (@nil Z)) with 0 in *; lia]|].
  case_decide; [apply Hz0; lia|]. case_decide; [apply Hz0; lia|].
  replace (Z.min (Z.min (Inode.size inode - offset) length) (zlen out)) with n by lia.
  rewrite read_loop_ok; [f_equal; f_equal; [lia|do 2 f_equal; lia]|lia| |lia..|].
  - split; [done|]. intros e exts Hcx. done.
  - left. unfold blocks_of. replace (offset + n - 1) with (offset + n - 1) by lia. lia.
Qed.
End content.

(** Whatever the map is, a read that succeeds read what it said. *)
Lemma read_loop_len `{Crc32c} fs dev ctx fuel inode stop : ∀ written cur c out n out', cur ≤ stop →
  read_loop fs dev ctx fuel inode stop written cur c out = Ok (n, out') → 0 < bs fs → n = written + (stop - cur) ∧ zlen out' = zlen out.
Proof.
  induction fuel as [|fuel IH]; intros written cur c out n out' Hc Hr Hbs; cbn [read_loop] in Hr; case_decide as Hlt; try done.
  1,3: injection Hr as <- <-; split; [lia|done].
  apply bind_ok_inv in Hr as ([b c'] & _ & Hr). apply bind_ok_inv in Hr as (out1 & Hput & Hr).
  apply put_inv in Hput as (? & ? & ->). pose proof (Z.mod_pos_bound cur (bs fs) Hbs).
  apply IH in Hr as [-> ->]; [|lia|done]. split; [lia|]. rewrite zlen_splice_gen. pose proof (zlen_nonneg b). lia.
Qed.

Lemma read_len `{Crc32c} fs dev ctx inode offset length out n out' :
  read_with_ctx fs dev ctx inode offset length out = Ok (n, out') → 0 < bs fs → 0 ≤ offset → 0 ≤ length →
  n = Z.max 0 (Z.min (Z.min (Inode.size inode - offset) length) (zlen out)) ∧ zlen out' = zlen out.
Proof.
  intros Hr Hbs Ho Hl. pose proof (zlen_nonneg out). unfold read_with_ctx in Hr. apply bind_ok_inv in Hr as (_ & _ & Hr).
  case_decide as Hzero; [injection Hr as <- <-; split; [destruct Hzero as [->| ->]; [|change (zlen (@nil Z)) with 0]; lia|done]|].
  destruct (Inode.has_inline_data inode); [done|]. case_decide; [injection Hr as <- <-; split; [lia|done]|].
  case_decide; [injection Hr as <- <-; split; [lia|done]|].
  apply read_loop_len in Hr as [-> ->]; [|lia|done]. split; [lia|done].
Qed.

Lemma read_all_len `{Crc32c} fs dev inode v : read_all fs dev inode = Ok v → 0 < bs fs → 0 ≤ Inode.size inode →
  zlen v = Inode.size inode.
Proof.
  unfold read_all. intros Hr Hbs Hs. apply bind_ok_inv in Hr as (c & _ & Hr). case_decide; [done|].
  apply bind_ok_inv in Hr as ([n out'] & Hr & Hv). injection Hv as <-.
  apply read_len in Hr as [-> Hz]; [|done|lia..]. rewrite zlen_zrep in *. rewrite zlen_sub; lia.
Qed.

(** ** Properties *)

(** C21: reading a range of a file mapped by extents or by indirect pointers
    succeeds and yields the file's bytes: what the image holds where a block is
    mapped, zeros in holes and uninitialised extents, cut at the end of the
    file and of the buffer; the rest of the buffer is untouched.  The extent
    blocks are checksummed on the way. *)
Theorem read_verified_spec `{Crc32c} fs img inode ino m offset length out :
  0 < bs fs → zlen img < 2 ^ 64 →
  maps fs img (Some (mkCtx ino (Inode.generation inode) (Filesystem.csum fs))) inode m → mapped_inside fs img inode m →
  refuse_encrypted inode = Ok tt → Inode.has_inline_data inode = false → 0 ≤ offset → 0 ≤ length →
  let n := Z.max 0 (Z.min (Z.min (Inode.size inode - offset) length) (zlen out)) in
  read_verified fs (image_reader img) inode ino offset length out = Ok (n, splice out 0 (file_bytes fs img m offset n)).
Proof. intros Hbs Himg Hm Hin He Hi Ho Hl. by apply read_with_ctx_ok. Qed.

(** A whole-file read returns the file's bytes, all of them, unless the
    file claims to be larger than the volume. *)
Lemma read_all_spec `{Crc32c} fs img inode m ceiling :
  0 < bs fs → zlen img < 2 ^ 64 → maps fs img None inode m → mapped_inside fs img inode m →
  refuse_encrypted inode = Ok tt → Inode.has_inline_data inode = false → 0 ≤ Inode.size inode →
  byte_ceiling fs (image_reader img) = Ok ceiling →
  read_all fs (image_reader img) inode =
    if decide (ceiling < Inode.size inode)
    then Err (Corrupt "reading this file whole would need more memory than the filesystem has bytes")
    else Ok (file_bytes fs img m 0 (Inode.size inode)).
Proof.
  intros Hbs Himg Hm Hin He Hi Hs Hc. unfold read_all. rewrite Hc. cbn [mbind res_bind]. case_decide; [done|].
  unfold read. pose proof (read_with_ctx_ok fs img None inode m Hbs Himg Hm Hin 0 (Inode.size inode) (zrep (Inode.size inode) 0)) as E.
  cbv zeta in E. rewrite E by done. rewrite zlen_zrep. replace (Z.max 0 _) with (Inode.size inode) by lia. cbn [mbind res_bind].
  pose proof (zlen_file_bytes fs img m 0 (Inode.size inode) Hs) as Hz.
  rewrite splice_all by (rewrite zlen_zrep; lia). by rewrite sub_all by lia.
Qed.

(** ** Concrete inputs *)

Definition sample_fs : res Filesystem.t := sb ← Bgd.sample_sb 256 64; Ok (Filesystem.mk sb [] (mkChecksummer 0 false)).
Definition sample_extents : list Extent.t := [Extent.mk 0 1 2 false; Extent.mk 1 1 1 true].
Definition sample_file (flags size : Z) (block : bytes) : Inode.t :=
  Inode.mk 0x81A4 0 0 size 0 0 0 0 0 0 0 0 0 1 0 flags block 0 0 0.
(** Block 0 of the file is block 2 of the image, block 1 is uninitialised and
    block 2 is a hole. *)
Definition sample_extent_file : Inode.t :=
  sample_file InodeFlags.EXTENTS 3000 (Extent.sample_header 2 0 ++ Extent.sample_leaf 0 1 2 ++ Extent.sample_leaf 1 32769 1 ++ zrep 24 0).
Definition sample_blocks : bytes := zrep 1024 0 ++ zrep 1024 1 ++ zrep 1024 2.
Definition sample_map (l : Z) : option Z := ext_target (find_ext l sample_extents) l.

Lemma sample_maps fs ctx : bs fs = 1024 → @maps castagnoli fs sample_blocks ctx sample_extent_file sample_map.
Proof.
  intros _. unfold maps. change (Inode.has_extents sample_extent_file) with true. exists sample_extents.
  exists (ExtentHeader.mk EXT4_EXT_MAGIC 2 4 0 0), 0, 10, [].
  split; [by vm_compute|]. split; [vm_compute; discriminate|]. split; [|done].
  change (Z.to_nat _) with 0%nat. eexists. split; [by vm_compute|]. split; [by vm_compute|]. split; [|done]. simpl. lia.
Qed.

Lemma sample_inside fs : bs fs = 1024 → mapped_inside fs sample_blocks sample_extent_file sample_map.
Proof.
  intros E l p Hl Hs Hm. rewrite E in *. change (Inode.size sample_extent_file) with 3000 in Hs.
  assert (l = 0 ∨ l = 1 ∨ l = 2) as [-> |[-> | ->]] by lia; vm_compute in Hm; try discriminate. injection Hm as <-. by vm_compute.
Qed.

Lemma read_verified_spec_witness :
  ∃ fs, sample_fs = Ok fs ∧
    @read_verified castagnoli fs (image_reader sample_blocks) sample_extent_file 12 1000 60 (zrep 50 7) =
      Ok (50, zrep 24 2 ++ zrep 26 0).
Proof.
  destruct sample_fs as [fs|e| |] eqn:Efs; try (vm_compute in Efs; discriminate). exists fs. split; [done|].
  assert (E : bs fs = 1024) by (vm_compute in Efs; injection Efs as <-; by vm_compute).
  pose proof (@read_verified_spec castagnoli fs sample_blocks sample_extent_file 12 sample_map 1000 60 (zrep 50 7)) as R.
  cbv zeta in R. rewrite R; [|by rewrite E|by vm_compute|by apply sample_maps|by apply sample_inside|done|done|lia|lia].
  unfold file_bytes, file_byte. rewrite E. by vm_compute.
Defined.

Lemma read_all_spec_witness :
  ∃ fs, sample_fs = Ok fs ∧
    @read_all castagnoli fs (image_reader sample_blocks) sample_extent_file = Ok (zrep 1024 2 ++ zrep 1976 0).
Proof.
  destruct sample_fs as [fs|e| |] eqn:Efs; try (vm_compute in Efs; discriminate). exists fs. split; [done|].
  assert (E : bs fs = 1024) by (vm_compute in Efs; injection Efs as <-; by vm_compute).
  assert (Hc : byte_ceiling fs (image_reader sample_blocks) = Ok 3072) by (vm_compute in Efs; injection Efs as <-; by vm_compute).
  rewrite (@read_all_spec castagnoli fs sample_blocks sample_extent_file sample_map 3072);
    [|by rewrite E|by vm_compute|by apply sample_maps|by apply sample_inside|done|done|by vm_compute|exact Hc].
  unfold file_bytes, file_byte. rewrite E. by vm_compute.
Defined.

(** The inline branch of the dispatching readers does not look at [length]:
    asked for 3 bytes of a 10-byte file, they fill the whole buffer. *)
Lemma inline_read_ignores_length :
  ∃ fs, sample_fs = Ok fs ∧
    @read_with_raw castagnoli fs (image_reader sample_blocks) (sample_file InodeFlags.INLINE_DATA 10 (zrep 60 9)) (zrep 256 0) 0 3 (zrep 8 0) =
      Ok (8, zrep 8 9).
Proof.
  destruct sample_fs as [fs|e| |] eqn:Efs; try (vm_compute in Efs; discriminate). exists fs. split; [done|].
  vm_compute in Efs. injection Efs as <-. by vm_compute.
Qed.
