(* ===== verification/EaInode.v ===== *)
(** EaInode: attribute values kept in an inode of their own
    (src/src/ea_inode.rs), and the attribute reads that follow them
    (the last part of src/src/xattr.rs). *)
From S2P Require Import Prelude Errors Bytes Device Superblock Checksum Inode InlineData Xattr Filesystem FileIo.

Section ea.
Context `{Crc32c} (fs : Filesystem.t) (dev : reader).
Let inode_size : Z := Superblock.inode_size (Filesystem.sb fs).

Definition read_value_inode (value_inum declared : Z) : res bytes :=
  if decide (value_inum = 0) then Err (InvalidInode value_inum) else
  raw ← Filesystem.read_inode_raw fs dev value_inum;
  inode ← Inode.parse raw;
  if decide (Z.land (Inode.flags inode) InodeFlags.EA_INODE = 0)
  then Err (Corrupt "e_value_inum target missing EA_INODE flag (0x200000)") else
  if decide (Inode.size inode ≠ declared)
  then Err (Corrupt "an EA inode's length disagrees with the xattr entry's e_value_size") else
  if Inode.has_inline_data inode then read_inline fs dev inode raw else FileIo.read_all fs dev inode.

Definition check_block_of (inode : Inode.t) : res unit :=
  if decide (Inode.file_acl inode = 0) then Ok tt else
  block ← rd_read dev (as_u64 (Inode.file_acl inode * bs fs)) (bs fs);
  check_external_block (Filesystem.csum fs) (Inode.file_acl inode) block.

Definition resolve (e : XattrEntry) : res bytes :=
  if decide (value_inum e = 0) then Ok (value e) else read_value_inode (value_inum e) (value_size e).

Definition entries_of_inode (inode : Inode.t) (inode_raw : bytes) : res (list XattrEntry) :=
  _ ← check_block_of inode;
  Xattr.read_all dev inode inode_raw inode_size (bs fs).

Definition read_all_resolved (inode : Inode.t) (inode_raw : bytes) : res (list XattrEntry) :=
  entries ← entries_of_inode inode inode_raw;
  traverse (λ e, v ← resolve e; Ok (mkXattr (name e) v (value_inum e) (value_size e))) entries.

Definition list_names (inode : Inode.t) (inode_raw : bytes) : res (list bytes) :=
  entries ← entries_of_inode inode inode_raw;
  Ok (fmap (M := list) Xattr.name entries).

Definition get_resolved (inode : Inode.t) (inode_raw : bytes) (nm : bytes) : res (option bytes) :=
  entries ← entries_of_inode inode inode_raw;
  match List.find (λ e, bool_decide (name e = nm)) entries with
  | None => Ok None
  | Some entry => v ← resolve entry; Ok (Some v)
  end.

(** ** Lemmas *)

(** A value read through an inode has the length its entry declares. *)
Lemma read_value_inode_len value_inum declared v : 0 < bs fs → 0 ≤ declared →
  (∀ raw i, Filesystem.read_inode_raw fs dev value_inum = Ok raw → Inode.parse raw = Ok i → zlen (Inode.block i) = 60) →
  read_value_inode value_inum declared = Ok v → zlen v = declared.
Proof.
  intros Hbs Hd Hraw Hr. unfold read_value_inode in Hr. case_decide; [done|].
  apply bind_ok_inv in Hr as (raw & Eraw & Hr). apply bind_ok_inv in Hr as (i & Ei & Hr). case_decide; [done|].
  case_decide as Hs; [done|]. subst declared.
  destruct (Inode.has_inline_data i).
  - unfold read_inline in Hr. apply bind_ok_inv in Hr as (_ & _ & Hr).
    by apply (read_all_ok _ _ _ _ _ (Hraw _ _ Eraw Ei) Hd) in Hr as [? _].
  - by eapply read_all_len.
Qed.

(** Asking for one name gives what the full listing says of it, whenever both
    succeed; and the listing's names need no value to be readable. *)
Lemma get_resolved_agrees inode inode_raw nm all v :
  read_all_resolved inode inode_raw = Ok all → get_resolved inode inode_raw nm = Ok v →
  v = value <$> List.find (λ e, bool_decide (name e = nm)) all.
Proof.
  unfold read_all_resolved, get_resolved. intros Ha Hg. apply bind_ok_inv in Ha as (es & Ees & Ha). rewrite Ees in Hg.
  cbn [mbind res_bind] in Hg. clear Ees. revert all Ha Hg. induction es as [|e es IH]; intros all Ha Hg.
  { injection Ha as <-. by injection Hg as <-. }
  cbn [traverse] in Ha. apply bind_ok_inv in Ha as (e' & He & Ha). apply bind_ok_inv in Ha as (all' & Hall & Ha). injection Ha as <-.
  apply bind_ok_inv in He as (w & Hw & He). injection He as <-. cbn [List.find] in *. cbn [name].
  destruct (bool_decide (name e = nm)); [|by apply IH]. rewrite Hw in Hg. cbn [mbind res_bind] in Hg. by injection Hg as <-.
Qed.

Lemma list_names_agrees inode inode_raw all : read_all_resolved inode inode_raw = Ok all →
  list_names inode inode_raw = Ok (name <$> all).
Proof.
  unfold read_all_resolved, list_names. intros Ha. apply bind_ok_inv in Ha as (es & Ees & Ha). rewrite Ees. cbn [mbind res_bind]. f_equal.
  clear Ees. revert all Ha. induction es as [|e es IH]; intros all Ha; [by injection Ha as <-|].
  cbn [traverse] in Ha. apply bind_ok_inv in Ha as (e' & He & Ha). apply bind_ok_inv in Ha as (all' & Hall & Ha). injection Ha as <-.
  apply bind_ok_inv in He as (w & Hw & He). injection He as <-. cbn [fmap list_fmap name]. f_equal. by apply IH.
Qed.
End ea.
