(* ===== verification/Path.v ===== *)
(** Path: from a slash-separated path to an inode (src/src/path.rs): the walk
    over components, the search of one directory through its hash index with
    the linear scan behind it, and inline directories.  The specification of
    a search is the directory's listing, block after block: the index only
    finds it faster. *)
From S2P Require Import Prelude Errors Bytes Device Features Superblock Checksum Bgd Extent Inode Indirect Dir Xattr InlineData Htree Filesystem FileIo.

Definition EXT4_ROOT_INODE : Z := 2.

(** [path.split(|&b| b == b'/')]: the pieces between slashes. *)
Fixpoint split_slash (path : bytes) : list bytes :=
  match path with
  | [] => [[]]
  | b :: path =>
      if decide (b = 47) then [] :: split_slash path
      else match split_slash path with [] => [[b]] | s :: ss => (b :: s) :: ss end
  end.

Definition split_path (path : bytes) : list bytes := filter (λ s, s ≠ []) (split_slash path).

(** [DirBlockIter] searched for a name: the iteration stops at the first
    entry that has it. *)
Fixpoint scan_loop (fuel : nat) (buf : bytes) (has_filetype : bool) (offset : Z) (name : bytes) : res (option Z) :=
  match fuel with
  | O => OutOfFuel
  | S fuel' =>
      o ← next fuel buf has_filetype offset;
      match o with
      | None => Ok None
      | Some (e, offset) =>
          if decide (DirEntry.name e = name) then Ok (Some (DirEntry.inode e))
          else scan_loop fuel' buf has_filetype offset name
      end
  end.
Definition scan_block (buf : bytes) (has_filetype : bool) (name : bytes) : res (option Z) :=
  scan_loop (S (length buf)) buf has_filetype 0 name.

Definition by_name (name : bytes) (entries : list DirEntry.t) : option Z :=
  DirEntry.inode <$> List.find (λ e, bool_decide (DirEntry.name e = name)) entries.

Section path.
Context `{Crc32c} (dev : reader) (sb : Superblock.t) (csum : Checksummer).
Let block_size : Z := Superblock.block_size sb.
Let has_filetype : bool := has_bits (Superblock.feature_incompat sb) Incompat.FILETYPE.

Definition map_block (dir_inode : Inode.t) (logical : Z) : res (option Z) :=
  Indirect.map_logical_any dev block_size (Inode.block dir_inode) (Inode.flags dir_inode) logical.

Definition read_phys_block (phys : Z) : res bytes := rd_read dev (as_u64 (phys * block_size)) block_size.

Definition is_indexed (dir_inode : Inode.t) : bool :=
  bool_decide (Z.land (Inode.flags dir_inode) InodeFlags.INDEX ≠ 0).

(** One block of the scan: [None] for a name not there. *)
Definition linear_block (dir_ino : Z) (dir_inode : Inode.t) (name : bytes) (logical : Z) : res (option Z) :=
  o ← map_block dir_inode logical;
  match o with
  | None => Ok None
  | Some phys =>
      block ← read_phys_block phys;
      match parse_block_verified block has_filetype dir_ino (Inode.generation dir_inode) csum with
      | Ok entries => Ok (by_name name entries)
      | Err e => if bool_decide (logical = 0) && is_indexed dir_inode then Ok None else Err e
      | Panic => Panic
      | OutOfFuel => OutOfFuel
      end
  end.

Fixpoint linear_loop (n : nat) (dir_ino : Z) (dir_inode : Inode.t) (name : bytes) (logical : Z) : res Z :=
  match n with
  | O => Err NotFound
  | S n =>
      o ← linear_block dir_ino dir_inode name logical;
      match o with Some ino => Ok ino | None => linear_loop n dir_ino dir_inode name (logical + 1) end
  end.

Definition total_blocks (dir_inode : Inode.t) : Z := div_ceil (Inode.size dir_inode) block_size.

Definition find_entry_linear (dir_ino : Z) (dir_inode : Inode.t) (name : bytes) : res Z :=
  linear_loop (Z.to_nat (total_blocks dir_inode)) dir_ino dir_inode name 0.

(** The closure the index walk reads its nodes with. *)
Definition read_dx_block (dir_inode : Inode.t) (logical : Z) : res bytes :=
  o ← map_block dir_inode logical;
  phys ← ok_or o (CorruptDirEntry "htree pointed at sparse block");
  read_phys_block phys.

Definition find_entry_htree (dir_ino : Z) (dir_inode : Inode.t) (name : bytes) : res (option Z) :=
  o ← map_block dir_inode 0;
  match o with
  | None => Ok None
  | Some phys0 =>
      root_block ← read_phys_block phys0;
      leaf ← lookup_leaf_with (read_dx_block dir_inode) name root_block (Superblock.hash_seed sb) (Superblock.unsigned_hash sb);
      match leaf with
      | None => Ok None
      | Some leaf_logical =>
          o ← map_block dir_inode leaf_logical;
          phys ← ok_or o (CorruptDirEntry "htree leaf at sparse block");
          leaf ← read_phys_block phys;
          ok ← (if enabled csum && has_csum_tail leaf then verify_dir_entry_tail csum dir_ino (Inode.generation dir_inode) leaf else Ok true);
          if negb ok then Err (BadChecksum "directory block") else
          scan_block leaf has_filetype name
      end
  end.

Definition read_raw_inode (ino : Z) (expected : Inode.t) : res bytes :=
  if decide (ino = 0 ∨ Superblock.inodes_count sb < ino ∨ Superblock.inodes_per_group sb = 0) then Err (InvalidInode ino) else
  let group := (ino - 1) / Superblock.inodes_per_group sb in
  if decide (Superblock.block_group_count sb ≤ group) then Err (InvalidInode ino) else
  '(desc_block, desc_off) ← Superblock.descriptor_location sb group;
  at_ ← ok_or (checked_mul64 desc_block block_size) (Corrupt "group descriptor block number overflow");
  table ← rd_read dev at_ block_size;
  if decide (zlen table < desc_off + Superblock.desc_size sb) then Err (Corrupt "group descriptor outside its block") else
  bgd ← Bgd.parse (sub table desc_off (Superblock.desc_size sb)) (Superblock.desc_size sb);
  let inode_size := Superblock.inode_size sb in
  let local := (ino - 1) mod Superblock.inodes_per_group sb in
  b ← ok_or (checked_mul64 (Bgd.inode_table bgd) block_size) (Corrupt "inode table offset overflow");
  offset ← ok_or (checked_add64 b (local * inode_size)) (Corrupt "inode table offset overflow");
  raw ← rd_read dev offset inode_size;
  parsed ← Inode.parse raw;
  ok ← (if enabled csum then verify_inode csum ino (Inode.generation parsed) raw else Ok true);
  if negb ok then Err (BadChecksum "inode") else
  if decide (Inode.block parsed ≠ Inode.block expected ∨ Inode.size parsed ≠ Inode.size expected ∨
             Inode.generation parsed ≠ Inode.generation expected)
  then Err (Corrupt "inline directory: the inode table disagrees with the inode being looked up") else Ok raw.

Definition find_inline (dir_ino : Z) (dir_inode : Inode.t) (name : bytes) : res Z :=
  in_block ← dir_entries dir_ino dir_inode [] has_filetype;
  match by_name name in_block with
  | Some ino => Ok ino
  | None =>
      if decide (Inode.size dir_inode ≤ INLINE_BLOCK_SIZE) then Err NotFound else
      raw ← read_raw_inode dir_ino dir_inode;
      continuation ← dir_continuation dev dir_inode raw (Superblock.inode_size sb) block_size;
      o ← scan_block continuation has_filetype name;
      ok_or o NotFound
  end.

Definition find_entry (dir_ino : Z) (dir_inode : Inode.t) (name : bytes) : res Z :=
  _ ← refuse_encrypted_names dir_inode;
  if Inode.has_inline_data dir_inode then find_inline dir_ino dir_inode name else
  found ← (if is_indexed dir_inode then find_entry_htree dir_ino dir_inode name else Ok None);
  match found with
  | Some ino => Ok ino
  | None => find_entry_linear dir_ino dir_inode name
  end.

Definition lookup_step (read_inode : Z → res Inode.t) (current_ino : Z) (name : bytes) : res Z :=
  inode ← read_inode current_ino;
  if negb (Inode.is_dir inode) then Err NotADirectory else find_entry current_ino inode name.

Definition lookup_bytes_with_csum (read_inode : Z → res Inode.t) (path : bytes) : res Z :=
  foldM (lookup_step read_inode) EXT4_ROOT_INODE (split_path path).
End path.

(** The forms that take a [&str], and the one without a checksummer. *)
Definition lookup_with_csum `{Crc32c} (dev : reader) (sb : Superblock.t) (read_inode : Z → res Inode.t) (path : bytes)
    (csum : Checksummer) : res Z := lookup_bytes_with_csum dev sb csum read_inode path.
Definition lookup `{Crc32c} (dev : reader) (sb : Superblock.t) (read_inode : Z → res Inode.t) (path : bytes) : res Z :=
  lookup_with_csum dev sb read_inode path (mkChecksummer 0 false).

(** ** Lemmas *)

(** Splitting a joined path: the components of both. *)
Lemma split_slash_join p q : split_slash (p ++ 47 :: q) = split_slash p ++ split_slash q.
Proof.
  induction p as [|b p IH]; [done|]. cbn [app split_slash]. rewrite IH. case_decide; [done|].
  assert (Hne : split_slash p ≠ []).
  { destruct p as [|c p]; [done|]. cbn [split_slash]. case_decide; [done|]. by destruct (split_slash p). }
  destruct (split_slash p); [done|]. done.
Qed.

Lemma split_path_join p q : split_path (p ++ 47 :: q) = split_path p ++ split_path q.
Proof. unfold split_path. by rewrite split_slash_join, filter_app. Qed.

(** The scan of a block that parses is a search of its entries. *)
Lemma scan_loop_spec hft name buf fuel : ∀ off out es, Dir.parse_loop fuel buf hft off out = Ok es →
  ∃ es', es = out ++ es' ∧ scan_loop fuel buf hft off name = Ok (by_name name es').
Proof.
  induction fuel as [|fuel IH]; intros off out es H; [done|]. cbn [Dir.parse_loop scan_loop] in *.
  apply bind_ok_inv in H as (o & Ho & H). rewrite Ho. cbn [mbind res_bind]. destruct o as [[e off']|].
  - apply IH in H as (es' & -> & E). exists (e :: es'). rewrite <-app_assoc. split; [done|].
    unfold by_name. cbn [List.find]. case_decide as Hd; [by rewrite bool_decide_true|]. rewrite bool_decide_false by done. exact E.
  - injection H as <-. exists []. by rewrite app_nil_r.
Qed.

Lemma scan_block_spec hft name buf es : parse_block buf hft = Ok es → scan_block buf hft name = Ok (by_name name es).
Proof. intros H. unfold parse_block in H. apply (scan_loop_spec hft name) in H as (es' & -> & E). exact E. Qed.

(** A scan that answers found an entry of that name in the block. *)
Lemma by_name_in name es ino : by_name name es = Some ino → ∃ e, e ∈ es ∧ DirEntry.name e = name ∧ DirEntry.inode e = ino.
Proof.
  unfold by_name. destruct (List.find _ es) as [e|] eqn:E; [|done]. intros [= <-]. apply find_some in E as [Hin Hn].
  exists e. split; [by apply list_elem_of_In|]. split; [by apply bool_decide_eq_true in Hn|done].
Qed.
Lemma by_name_none name es : by_name name es = None ↔ ∀ e, e ∈ es → DirEntry.name e ≠ name.
Proof.
  unfold by_name. induction es as [|e es IH]; cbn [List.find]; [split; [by intros _ e He; apply elem_of_nil in He|done]|].
  case_bool_decide as Hd; cbn.
  - split; [done|]. intros H. by destruct (H e (list_elem_of_here _ _)).
  - rewrite IH. split; intros H x Hx; [apply elem_of_cons in Hx as [->|Hx]; auto|apply H; by constructor].
Qed.
Lemma by_name_app name a b : by_name name (a ++ b) = match by_name name a with Some i => Some i | None => by_name name b end.
Proof. unfold by_name. induction a as [|e a IH]; cbn [app List.find]; [done|]. by case_bool_decide. Qed.

Section listing.
Context `{Crc32c} (dev : reader) (sb : Superblock.t) (csum : Checksummer) (dir_ino : Z) (dir_inode : Inode.t).
Let block_size : Z := Superblock.block_size sb.
Let has_filetype : bool := has_bits (Superblock.feature_incompat sb) Incompat.FILETYPE.

(** What one block of the directory holds: nothing where it is not mapped,
    and nothing in the root of an index that does not parse as entries. *)
Definition block_holds (logical : Z) (es : list DirEntry.t) : Prop :=
  (map_block dev sb dir_inode logical = Ok None ∧ es = []) ∨
  ∃ phys block, map_block dev sb dir_inode logical = Ok (Some phys) ∧ read_phys_block dev sb phys = Ok block ∧
    (parse_block_verified block has_filetype dir_ino (Inode.generation dir_inode) csum = Ok es ∨
     logical = 0 ∧ is_indexed dir_inode = true ∧ es = [] ∧
     ∃ e, parse_block_verified block has_filetype dir_ino (Inode.generation dir_inode) csum = Err e).

(** The listing: every block of the directory, in order. *)
Definition listing (blocks : list (list DirEntry.t)) : Prop :=
  zlen blocks = Z.max 0 (total_blocks sb dir_inode) ∧
  ∀ i es, blocks !! i = Some es → block_holds (Z.of_nat i) es.

Lemma linear_block_spec name logical es : block_holds logical es →
  linear_block dev sb csum dir_ino dir_inode name logical = Ok (by_name name es).
Proof.
  unfold linear_block. intros [[-> ->]|(phys & block & -> & Hr & Hp)]; [done|]. cbn [mbind res_bind]. rewrite Hr. cbn [mbind res_bind].
  fold has_filetype. destruct Hp as [->|(-> & Hi & -> & e & ->)]; [done|]. by rewrite Hi.
Qed.

Lemma linear_loop_spec name blocks : ∀ logical, 0 ≤ logical →
  (∀ i es, blocks !! i = Some es → block_holds (logical + Z.of_nat i) es) →
  linear_loop dev sb csum (length blocks) dir_ino dir_inode name logical = ok_or (by_name name (concat blocks)) NotFound.
Proof.
  induction blocks as [|es blocks IH]; intros logical Hl Hb; [done|]. cbn [length linear_loop].
  rewrite (linear_block_spec name logical es) by (specialize (Hb 0%nat es eq_refl); by rewrite Z.add_0_r in Hb).
  cbn [mbind res_bind concat]. rewrite by_name_app. destruct (by_name name es); [done|].
  apply IH; [lia|]. intros i es' Hi. replace (logical + 1 + Z.of_nat i) with (logical + Z.of_nat (S i)) by lia. by apply Hb.
Qed.

Lemma find_entry_linear_spec name blocks : listing blocks →
  find_entry_linear dev sb csum dir_ino dir_inode name = ok_or (by_name name (concat blocks)) NotFound.
Proof.
  intros [Hz Hb]. unfold find_entry_linear. replace (Z.to_nat (total_blocks sb dir_inode)) with (length blocks) by (unfold zlen in Hz; lia).
  by apply linear_loop_spec.
Qed.

(** The leaf the index leads to. *)
Definition index_leaf (name : bytes) : res (option Z) :=
  o ← map_block dev sb dir_inode 0;
  match o with
  | None => Ok None
  | Some phys0 =>
      root_block ← read_phys_block dev sb phys0;
      lookup_leaf_with (read_dx_block dev sb dir_inode) name root_block (Superblock.hash_seed sb) (Superblock.unsigned_hash sb)
  end.

(** What the index answers is what that leaf holds. *)
Lemma find_entry_htree_spec name blocks o : listing blocks →
  (∀ leaf, index_leaf name = Ok (Some leaf) → 0 < leaf < zlen blocks) →
  find_entry_htree dev sb csum dir_ino dir_inode name = Ok o →
  o = None ∨ ∃ leaf es, index_leaf name = Ok (Some leaf) ∧ blocks !! Z.to_nat leaf = Some es ∧ o = by_name name es.
Proof.
  intros [_ Hb] Hrange. unfold find_entry_htree, index_leaf in *. intros Ho.
  apply bind_ok_inv in Ho as (r & Hr & Ho). rewrite Hr in *. cbn [mbind res_bind] in *. destruct r as [phys0|]; [|injection Ho as <-; by left].
  apply bind_ok_inv in Ho as (root & Hroot & Ho). rewrite Hroot in *. cbn [mbind res_bind] in *.
  apply bind_ok_inv in Ho as (lf & Hlf & Ho). rewrite Hlf in *. destruct lf as [leaf|]; [right|injection Ho as <-; by left].
  specialize (Hrange leaf eq_refl). exists leaf. destruct (blocks !! Z.to_nat leaf) as [es|] eqn:Ees; [|apply lookup_ge_None in Ees; unfold zlen in *; lia].
  exists es. split; [done|]. split; [done|]. apply Hb in Ees. rewrite Z2Nat.id in Ees by lia.
  apply bind_ok_inv in Ho as (p & Hp & Ho). apply bind_ok_inv in Ho as (phys & Hphys & Ho). apply ok_or_ok in Hphys. subst p.
  destruct Ees as [[E _]|(phys' & block & E & Hread & Hparse)]; [congruence|]. rewrite Hp in E. injection E as <-.
  rewrite Hread in Ho. cbn [mbind res_bind] in Ho. destruct Hparse as [Hparse|(-> & _)]; [|lia].
  unfold parse_block_verified in Hparse. apply bind_ok_inv in Ho as (ok & Hok & Ho). rewrite Hok in Hparse. cbn [mbind res_bind] in Hparse.
  destruct (negb ok); [done|]. fold has_filetype in Ho; rewrite (scan_block_spec _ name _ _ Hparse) in Ho. by injection Ho as <-.
Qed.

(** One file to a name, however often the name appears. *)
Definition names_unique (es : list DirEntry.t) : Prop :=
  ∀ a b, a ∈ es → b ∈ es → DirEntry.name a = DirEntry.name b → DirEntry.inode a = DirEntry.inode b.

Lemma by_name_part name es part ino : names_unique es → (∀ e, e ∈ part → e ∈ es) → by_name name part = Some ino → by_name name es = Some ino.
Proof.
  intros Hu Hsub Hp. apply by_name_in in Hp as (e & He & Hn & Hi). destruct (by_name name es) as [j|] eqn:Ej.
  - apply by_name_in in Ej as (e' & He' & Hn' & Hj). f_equal. rewrite <-Hi, <-Hj. apply Hu; [done|auto|congruence].
  - rewrite by_name_none in Ej. by destruct (Ej e (Hsub e He)).
Qed.
End listing.

(** Searching a directory of blocks answers what its listing says: the
    inode of the name where it appears, "not found" where it does not.  An
    index, when there is one that leads to a block of the directory, changes
    nothing but the work: what it finds is in the listing, and what it misses
    is searched for. *)
(** What the index of a directory answers: nothing without one. *)
Definition index_answer `{Crc32c} dev sb csum dir_ino dir_inode name : res (option Z) :=
  if is_indexed dir_inode then find_entry_htree dev sb csum dir_ino dir_inode name else Ok None.

Lemma find_entry_listing `{Crc32c} dev sb csum dir_ino dir_inode name blocks :
  Inode.has_inline_data dir_inode = false → refuse_encrypted_names dir_inode = Ok tt →
  listing dev sb csum dir_ino dir_inode blocks → names_unique (concat blocks) →
  (is_indexed dir_inode = true → ∀ leaf, index_leaf dev sb dir_inode name = Ok (Some leaf) → 0 < leaf < zlen blocks) →
  find_entry dev sb csum dir_ino dir_inode name =
  (_ ← index_answer dev sb csum dir_ino dir_inode name; ok_or (by_name name (concat blocks)) NotFound).
Proof.
  intros Hin Henc Hl Hu Hidx. unfold find_entry, index_answer. rewrite Henc, Hin. cbn [mbind res_bind].
  pose proof (find_entry_linear_spec dev sb csum dir_ino dir_inode name blocks Hl) as Hlin.
  destruct (is_indexed dir_inode); [|exact Hlin]. specialize (Hidx eq_refl).
  destruct (find_entry_htree dev sb csum dir_ino dir_inode name) as [o|e| |] eqn:Eh; [|done..].
  cbn [mbind res_bind]. destruct o as [ino|]; [|exact Hlin].
  pose proof (find_entry_htree_spec _ _ _ _ _ _ _ _ Hl Hidx Eh) as [?|(leaf & es & _ & Hes & Hby)]; [done|].
  rewrite (by_name_part name (concat blocks) es ino Hu); [done| |done].
  intros e He. apply list_elem_of_In, in_concat. exists es. split; apply list_elem_of_In; [by eapply list_elem_of_lookup_2|done].
Qed.
