(* ===== verification/PathSafety.v ===== *)
(** PathSafety: no bytes on a device make a lookup crash or loop.  The parsers
    of names, indexes, attributes and inodes are followed over arbitrary
    bytes, up to the walk over a whole path. *)
From S2P Require Import Prelude Errors Bytes Device Features Superblock Checksum Bgd Extent Inode Indirect Dir Xattr InlineData Hash Htree Filesystem FileIo Path.

(** ** Checksums and inodes *)

Lemma checksum_hi_fits_returns raw : returns (checksum_hi_fits raw).
Proof. unfold checksum_hi_fits. case_decide; io; done. Qed.

Lemma verify_inode_returns `{Crc32c} s ino gen raw : INODE_BASE_SIZE ≤ zlen raw → returns (verify_inode s ino gen raw).
Proof.
  unfold INODE_BASE_SIZE. intros Hl. unfold verify_inode, Checksum.GOOD_OLD_INODE_SIZE. destruct (enabled s) eqn:Hen; [|done]. cbn [negb].
  rewrite decide_False by lia. io. unfold compute_inode_checksum, Checksum.GOOD_OLD_INODE_SIZE. rewrite decide_False by (intros [?|?]; [congruence|lia]).
  unfold checksum_hi_fits. case_decide as H132; [|rewrite (u16_le_ok raw 124) by lia; io; done].
  io. destruct (bool_decide (4 ≤ le16 raw 128)); io; [rewrite put_ok by zl; io|]; done.
Qed.

Lemma verify_dir_entry_tail_returns `{Crc32c} s ino gen block : returns (verify_dir_entry_tail s ino gen block).
Proof. unfold verify_dir_entry_tail. destruct (negb _); [done|]. case_decide; [done|]. io. done. Qed.

Lemma parsed_inode_returns raw : bytes_ok raw → returns (Inode.parse raw).
Proof.
  intros Hb. destruct (decide (zlen raw < INODE_BASE_SIZE)) as [Hs|Hs]; [unfold Inode.parse; by rewrite decide_True by done|].
  rewrite parse_eq by (done || lia). by case_decide.
Qed.

Lemma inode_parse_facts raw i : bytes_ok raw → Inode.parse raw = Ok i → INODE_BASE_SIZE ≤ zlen raw ∧ zlen (Inode.block i) = 60 ∧
  bytes_ok (Inode.block i) ∧ 0 ≤ Inode.file_acl i.
Proof.
  intros Hb Hi. destruct (decide (zlen raw < INODE_BASE_SIZE)) as [Hs|Hs]; [unfold Inode.parse in Hi; by rewrite decide_True in Hi by done|].
  rewrite parse_eq in Hi by (done || lia). case_decide; [|done]. injection Hi as <-. unfold decode. cbn [Inode.block Inode.file_acl].
  unfold INODE_BASE_SIZE, OFF_BLOCK in *. split; [lia|]. split; [zl|]. split; [auto with ext4|].
  pose proof (le32_range raw 0x68 Hb). pose proof (le16_range raw 0x76 Hb). rewrite join32_eq by lia. lia.
Qed.

(** ** Directory blocks *)

Lemma scan_loop_safe hft name buf : bytes_ok buf → ∀ fuel off, 0 ≤ off → Z.max 0 (zlen buf - off) < 8 * Z.of_nat fuel →
  returns (scan_loop fuel buf hft off name).
Proof.
  intros Hb. induction fuel as [|fuel IH]; intros off Ho Hf; [lia|cbn [scan_loop]].
  destruct (next_safe hft buf Hb (S fuel) off Ho Hf) as [Hret Hok].
  destruct (next (S fuel) buf hft off) as [[[e off']|]|?| |]; try done; rewrite bind_Ok.
  destruct (Hok e off' eq_refl) as (H1 & _). pose proof (zlen_nonneg (DirEntry.name e)). case_decide; [done|]. apply IH; lia.
Qed.

Lemma scan_block_returns buf hft name : bytes_ok buf → returns (scan_block buf hft name).
Proof. intros Hb. pose proof (zlen_nonneg buf). apply scan_loop_safe; [done|lia|unfold zlen; lia]. Qed.

Lemma parse_block_returns buf hft : bytes_ok buf → returns (parse_block buf hft).
Proof. intros Hb. apply (parse_loop_safe hft buf Hb (S (length buf)) 0 []); [lia|unfold zlen; lia]. Qed.

Lemma parse_block_verified_returns `{Crc32c} buf hft ino gen csum : bytes_ok buf → returns (parse_block_verified buf hft ino gen csum).
Proof.
  intros Hb. unfold parse_block_verified. apply bind_returns.
  - destruct (_ && _); [apply verify_dir_entry_tail_returns|done].
  - intros ok _. destruct (negb ok); [done|]. by apply parse_block_returns.
Qed.

(** Inode numbers come out of 32-bit fields. *)
Lemma next_inode hft buf : bytes_ok buf → ∀ fuel off e off', 0 ≤ off → next fuel buf hft off = Ok (Some (e, off')) →
  0 ≤ DirEntry.inode e ∧ 0 ≤ off'.
Proof.
  intros Hb. induction fuel as [|fuel IH]; intros off e off' Ho H; [done|cbn [next] in H]. case_decide; [done|].
  rewrite u32_le_ok in H by lia. rewrite u16_le_ok in H by lia. cbn [mbind res_bind] in H. case_decide; [done|].
  rewrite !get_byte in H by lia. cbn [mbind res_bind] in H. pose proof (le16_range buf (off + 4) Hb). destruct (_ || _).
  - destruct (_ && _ && _ && _); [done|]. eapply IH; [|exact H]. lia.
  - case_decide; [done|]. apply bind_ok_inv in H as (nm & _ & H). injection H as <- <-. cbn.
    pose proof (le32_range buf off Hb). lia.
Qed.

Lemma scan_block_inode hft name buf : bytes_ok buf → ∀ ino, scan_block buf hft name = Ok (Some ino) → 0 ≤ ino.
Proof.
  intros Hb. unfold scan_block. generalize (S (length buf)). intros fuel. assert (H0 : 0 ≤ 0) by lia. revert H0. generalize 0 at 2 3 as off.
  induction fuel as [|fuel IH]; intros off Ho ino H; [done|cbn [scan_loop] in H]. apply bind_ok_inv in H as (o & E & H).
  destruct o as [[e off']|]; [|done]. apply (next_inode hft buf Hb) in E as [? ?]; [|done]. case_decide; [by injection H as <-|]. by eapply IH.
Qed.

Lemma parse_block_inode hft buf es : bytes_ok buf → parse_block buf hft = Ok es → Forall (λ e, 0 ≤ DirEntry.inode e) es.
Proof.
  intros Hb. unfold parse_block. generalize (S (length buf)). intros fuel. assert (H0 : 0 ≤ 0) by lia. revert H0. generalize 0 at 2 3 as off.
  assert (Hout : Forall (λ e, 0 ≤ DirEntry.inode e) []) by constructor. revert Hout. generalize (@nil DirEntry.t) as out.
  induction fuel as [|fuel IH]; intros out Hout off Ho H; [done|cbn [Dir.parse_loop] in H]. apply bind_ok_inv in H as (o & E & H).
  destruct o as [[e off']|]; [|by injection H as <-]. apply (next_inode hft buf Hb) in E as [? ?]; [|done].
  eapply IH; [|done|exact H]. apply Forall_app. split; [done|by constructor].
Qed.

Lemma by_name_nonneg name es ino : Forall (λ e, 0 ≤ DirEntry.inode e) es → by_name name es = Some ino → 0 ≤ ino.
Proof. intros Hf H. apply by_name_in in H as (e & He & _ & <-). rewrite Forall_forall in Hf. by apply Hf. Qed.

(** ** Attributes *)

Lemma parse_loop_returns overrun range buf : bytes_ok buf → ∀ fuel pos out, 0 ≤ pos → zlen buf - pos < 16 + 16 * Z.of_nat fuel →
  returns (Xattr.parse_loop overrun range fuel buf pos out).
Proof.
  intros Hb. induction fuel as [|fuel IH]; intros pos out Hp Hf; cbn [Xattr.parse_loop]; case_decide as H16; try done; [lia|].
  rewrite u32_le_ok by lia. rewrite bind_Ok. case_decide; [done|]. unfold read_header. io.
  pose proof (byte_at_range buf pos Hb). pose proof (le16_range buf (pos + 2) Hb). pose proof (le32_range buf (pos + 8) Hb).
  cbn [h_len h_index h_offs h_inum h_size]. case_decide as Hover; [done|]. rewrite slice_ok by lia. rewrite bind_Ok.
  destruct (negb _); [done|]. apply bind_returns.
  - unfold entry_value. cbn [h_inum h_size h_offs]. case_decide; [done|]. case_decide; [|done]. case_decide; [done|]. by rewrite slice_ok by lia.
  - intros v _. pose proof (pad4_bounds (16 + byte_at buf pos)). apply IH; lia.
Qed.

Section xattr.
Context (dev : reader) `{!ReaderOk dev}.

Lemma read_all_returns inode raw isz bs : bytes_ok raw → 0 ≤ isz → 4 ≤ bs → returns (Xattr.read_all dev inode raw isz bs).
Proof.
  intros Hb Hi Hbs. unfold Xattr.read_all. apply bind_returns.
  - unfold in_inode_entries. case_decide as Hs; [done|]. rewrite u16_le_ok by lia. rewrite bind_Ok.
    pose proof (le16_range raw 128 Hb). case_decide as Hx; [|done]. destruct Hx as (Hx & H1 & H2).
    rewrite slice_ok by lia. rewrite bind_Ok. rewrite u32_le_ok by (autorewrite with zlen; lia). rewrite bind_Ok.
    case_decide; [|done]. unfold parse_entries. apply parse_loop_returns; [|lia|unfold zlen; lia].
    apply Forall_drop. by apply bytes_ok_sub.
  - intros out _. case_decide; [done|]. apply bind_returns; [apply rd_returns|]. intros buf Hbuf.
    pose proof (rd_len _ _ _ Hbuf ltac:(lia)) as Hz. pose proof (rd_bytes _ _ _ Hbuf) as Hok.
    rewrite u32_le_ok by lia. rewrite bind_Ok. case_decide; [done|]. unfold parse_entries_block. case_decide; [done|].
    apply parse_loop_returns; [done|lia|unfold zlen; lia].
Qed.

Lemma get_returns inode raw isz bs nm : bytes_ok raw → 0 ≤ isz → 4 ≤ bs → returns (Xattr.get dev inode raw isz bs nm).
Proof. intros. unfold Xattr.get. apply bind_returns; [by apply read_all_returns|done]. Qed.

Lemma entry_value_bytes range buf h v : bytes_ok buf → entry_value range buf h = Ok v → bytes_ok v.
Proof.
  unfold entry_value. intros Hb H. repeat case_decide; try done; try (injection H as <-; constructor).
  apply slice_inv in H as (_ & _ & _ & ->). auto with ext4.
Qed.

Lemma parse_loop_bytes overrun range buf : bytes_ok buf → ∀ fuel pos out es,
  Xattr.parse_loop overrun range fuel buf pos out = Ok es → Forall (λ e, bytes_ok (value e)) out → Forall (λ e, bytes_ok (value e)) es.
Proof.
  intros Hb. induction fuel as [|fuel IH]; intros pos out es H Hout; cbn [Xattr.parse_loop] in H; case_decide; try done; [by injection H as <-| |by injection H as <-].
  apply bind_ok_inv in H as (w & _ & H). case_decide; [by injection H as <-|]. apply bind_ok_inv in H as (h & _ & H). case_decide; [done|].
  apply bind_ok_inv in H as (nb & _ & H). destruct (negb _); [done|]. apply bind_ok_inv in H as (v & Hv & H).
  eapply IH; [exact H|]. apply Forall_app. split; [done|]. constructor; [|constructor]. by eapply entry_value_bytes.
Qed.

Lemma get_bytes inode raw isz bs nm v : bytes_ok raw → Xattr.get dev inode raw isz bs nm = Ok (Some v) → bytes_ok v.
Proof.
  intros Hb H. unfold Xattr.get in H. apply bind_ok_inv in H as (all & Hall & H).
  assert (Hf : Forall (λ e, bytes_ok (value e)) all).
  { unfold Xattr.read_all in Hall. apply bind_ok_inv in Hall as (out & Hout & Hall).
    assert (Ho : Forall (λ e, bytes_ok (value e)) out).
    { clear - Hb Hout. unfold in_inode_entries in Hout. case_decide; [injection Hout as <-; constructor|]. apply bind_ok_inv in Hout as (x & _ & Hout).
      case_decide; [|injection Hout as <-; constructor]. apply bind_ok_inv in Hout as (region & Hr & Hout).
      apply slice_inv in Hr as (_ & _ & _ & ->). apply bind_ok_inv in Hout as (m & _ & Hout). case_decide; [|injection Hout as <-; constructor].
      unfold parse_entries in Hout. eapply parse_loop_bytes; [|exact Hout|constructor]. apply Forall_drop. by apply bytes_ok_sub. }
    case_decide; [by injection Hall as <-|]. apply bind_ok_inv in Hall as (buf & Hbuf & Hall). apply bind_ok_inv in Hall as (m & _ & Hall).
    case_decide; [done|]. unfold parse_entries_block in Hall. case_decide; [done|]. eapply parse_loop_bytes; [|exact Hall|exact Ho].
    by eapply rd_bytes. }
  injection H as H. destruct (List.find _ all) as [e|] eqn:E; [|done]. injection H as <-. apply find_some in E as [E _].
  rewrite Forall_forall in Hf. apply Hf. by apply list_elem_of_In.
Qed.
End xattr.

(** ** The hash index *)

Lemma parse_root_info_safe block : bytes_ok block →
  returns (parse_root_info block) ∧ ∀ info, parse_root_info block = Ok info → 32 ≤ zlen block ∧ 0 ≤ DxRootInfo.info_length info.
Proof.
  intros Hb. unfold parse_root_info. case_decide; [done|]. io. case_decide; [done|]. io.
  pose proof (byte_at_range block 29 Hb).
  destruct (HashVersion.from_u8 _); [|done]. cbn [ok_or mbind res_bind]. split; [done|]. intros info [= <-]. cbn. lia.
Qed.

(** Entries name blocks by unsigned numbers. *)
Definition entries_safe (m : res (DxCountLimit.t * list DxEntry.t)) : Prop :=
  returns m ∧ ∀ cl es, m = Ok (cl, es) → Forall (λ e, 0 ≤ DxEntry.block e) es.

Lemma parse_entries_from_safe block start cl : bytes_ok block → 0 ≤ start → 0 ≤ DxCountLimit.count cl →
  entries_safe (parse_entries_from block start cl).
Proof.
  intros Hb Hs Hc. unfold parse_entries_from, entries_safe. repeat (case_decide; [done|]). unfold DxEntry.SIZE in *.
  assert (Hat : ∀ i, i ∈ seqZ 0 (DxCountLimit.count cl) →
    entry_at block start i = Ok (DxEntry.mk (le32 (sub block (start + i * 8) 8) 0) (le32 (sub block (start + i * 8) 8) 4))).
  { intros i Hi. apply elem_of_seqZ in Hi. unfold entry_at, DxEntry.parse, DxEntry.SIZE. rewrite slice_ok by lia. cbn [mbind res_bind].
    rewrite decide_False by zl. io. done. }
  split.
  - apply bind_returns; [|done]. apply traverse_returns. intros i Hi. by rewrite (Hat i Hi).
  - intros cl' es Ho. apply bind_ok_inv in Ho as (out & Hout & Ho). injection Ho as <- <-.
    clear - Hout Hat Hb. revert out Hout Hat. induction (seqZ 0 _) as [|i l IH]; intros out Hout Hat; [injection Hout as <-; constructor|].
    cbn [traverse] in Hout. apply bind_ok_inv in Hout as (e & He & Hout). apply bind_ok_inv in Hout as (es & Hes & Hout). injection Hout as <-.
    rewrite Hat in He by constructor. injection He as <-. constructor; [|apply IH; [done|intros; apply Hat; by constructor]].
    cbn. apply le32_range. auto with ext4.
Qed.

Lemma count_limit_at block off : bytes_ok block → 0 ≤ off → off + 4 ≤ zlen block →
  ∃ s cl, slice block off 4 = Ok s ∧ DxCountLimit.parse s = Ok cl ∧ 0 ≤ DxCountLimit.count cl.
Proof.
  intros Hb Ho Hl. rewrite slice_ok by lia. eexists _, _. split; [done|]. unfold DxCountLimit.parse. rewrite decide_False by zl. io.
  split; [done|]. cbn. apply le16_range. auto with ext4.
Qed.

Lemma zero_first_blocks es : Forall (λ e, 0 ≤ DxEntry.block e) es → Forall (λ e, 0 ≤ DxEntry.block e) (zero_first es).
Proof. destruct es; [done|]. intros Hf. apply Forall_cons in Hf as [? ?]. by constructor. Qed.

Lemma zero_first_safe m : entries_safe m → entries_safe ('(cl, entries) ← m; Ok (cl, zero_first entries)).
Proof.
  intros [Hr Hf]. destruct m as [[cl es]|e| |]; try done. split; [done|]. intros cl' es' [= <- <-]. apply zero_first_blocks. by eapply Hf.
Qed.

Lemma parse_root_entries_safe block : bytes_ok block → entries_safe (parse_root_entries block).
Proof.
  intros Hb. destruct (parse_root_info_safe block Hb) as [Hr Hi]. unfold parse_root_entries.
  destruct (parse_root_info block) as [info|e| |]; try done. destruct (Hi info eq_refl). cbn [mbind res_bind].
  case_decide; [done|]. destruct (count_limit_at block (24 + DxRootInfo.info_length info)) as (s & cl & -> & E & ?); [done|lia|lia|].
  cbn [mbind res_bind]. rewrite E. cbn [mbind res_bind]. apply zero_first_safe, parse_entries_from_safe; [done|lia|done].
Qed.

Lemma parse_node_entries_safe block : bytes_ok block → entries_safe (parse_node_entries block).
Proof.
  intros Hb. unfold parse_node_entries. case_decide; [done|].
  destruct (count_limit_at block 8) as (s & cl & -> & E & ?); [done|lia|lia|].
  cbn [mbind res_bind]. rewrite E. cbn [mbind res_bind]. apply zero_first_safe, parse_entries_from_safe; [done|lia|done].
Qed.

Lemma find_loop_block c es t : 0 ≤ DxEntry.block c → Forall (λ e, 0 ≤ DxEntry.block e) es → 0 ≤ DxEntry.block (find_loop c es t).
Proof. revert c. induction es as [|e es IH]; intros c Hc Hf; [done|]. apply Forall_cons in Hf as [? ?]. cbn [find_loop]. case_decide; auto. Qed.

Lemma find_entry_for_hash_safe es t : es ≠ [] → Forall (λ e, 0 ≤ DxEntry.block e) es →
  ∃ e, find_entry_for_hash es t = Ok e ∧ 0 ≤ DxEntry.block e.
Proof. destruct es as [|e es]; [done|]. intros _ Hf. apply Forall_cons in Hf as [? ?]. eexists. split; [done|]. by apply find_loop_block. Qed.

Section index.
Context (rd : Z → res bytes).
Hypothesis Hrd : ∀ l, 0 ≤ l → returns (rd l) ∧ ∀ b, rd l = Ok b → bytes_ok b.

Lemma descend_safe levels : ∀ target hash, 0 ≤ target →
  returns (descend rd levels target hash) ∧ ∀ leaf, descend rd levels target hash = Ok (Some leaf) → 0 ≤ leaf.
Proof.
  induction levels as [|levels IH]; intros target hash Ht; cbn [descend]; [split; [done|by intros leaf [= <-]]|].
  destruct (Hrd target Ht) as [Hr Hb]. destruct (rd target) as [block|e| |]; try done. cbn [mbind res_bind].
  destruct (parse_node_entries_safe block (Hb _ eq_refl)) as [Hr2 Hf]. destruct (parse_node_entries block) as [[cl es]|e| |]; try done.
  cbn [mbind res_bind]. case_decide; [done|]. destruct (find_entry_for_hash_safe es hash) as (e & -> & He); [done|by eapply Hf|]. by apply IH.
Qed.

Lemma lookup_leaf_safe name root seed u : bytes_ok root →
  returns (lookup_leaf_with rd name root seed u) ∧ ∀ leaf, lookup_leaf_with rd name root seed u = Ok (Some leaf) → 0 ≤ leaf.
Proof.
  intros Hb. unfold lookup_leaf_with. destruct (parse_root_info_safe root Hb) as [Hr _]. destruct (parse_root_info root) as [info|e| |]; try done.
  cbn [mbind res_bind]. destruct (parse_root_entries_safe root Hb) as [Hr2 Hf]. destruct (parse_root_entries root) as [[cl es]|e| |]; try done.
  cbn [mbind res_bind]. case_decide; [done|]. match goal with |- context [find_entry_for_hash es ?t] => destruct (find_entry_for_hash_safe es t) as (e & -> & He) end;
    [done|by eapply Hf|]. by apply descend_safe.
Qed.
End index.

(** ** The walk over a path *)

Section path.
Context `{Crc32c} (dev : reader) `{!ReaderOk dev} (sb : Superblock.t) (csum : Checksummer).
Local Abbreviation bs := (Superblock.block_size sb).
Hypothesis Hgeo : Superblock.geometry_ok sb.
Hypothesis Hbs : Indirect.block_size_ok bs.
Hypothesis Hisz : 0 ≤ Superblock.inode_size sb.

Lemma mounted_bs_range : 1024 ≤ bs ≤ 65536.
Proof. apply Hbs. Qed.

Lemma map_block_returns inode l : zlen (Inode.block inode) = 60 → 0 ≤ l → returns (map_block dev sb inode l).
Proof. intros Hi Hl. unfold map_block. by apply Indirect.map_logical_any_returns. Qed.

Lemma read_phys_block_safe p : returns (read_phys_block dev sb p) ∧ ∀ b, read_phys_block dev sb p = Ok b → bytes_ok b.
Proof. unfold read_phys_block. split; [apply rd_returns|]. intros b. apply rd_bytes. Qed.

Lemma linear_loop_returns dir_ino inode name n : zlen (Inode.block inode) = 60 → ∀ l, 0 ≤ l →
  returns (linear_loop dev sb csum n dir_ino inode name l).
Proof.
  intros Hi. induction n as [|n IH]; intros l Hl; [done|]. cbn [linear_loop]. apply bind_returns.
  - unfold linear_block. apply bind_returns; [by apply map_block_returns|]. intros [phys|] _; [|done].
    destruct (read_phys_block_safe phys) as [Hr Hb]. apply bind_returns; [done|]. intros block Hblock.
    pose proof (parse_block_verified_returns block (has_bits (Superblock.feature_incompat sb) Incompat.FILETYPE) dir_ino (Inode.generation inode) csum (Hb _ Hblock)) as Hp.
    destruct (parse_block_verified _ _ _ _ _); try done. by destruct (_ && _).
  - intros [ino|] _; [done|]. apply IH. lia.
Qed.

Lemma find_entry_htree_returns dir_ino inode name : zlen (Inode.block inode) = 60 →
  returns (find_entry_htree dev sb csum dir_ino inode name).
Proof.
  intros Hi. unfold find_entry_htree. apply bind_returns; [by apply map_block_returns|]. intros [phys0|] _; [|done].
  destruct (read_phys_block_safe phys0) as [Hr Hb]. apply bind_returns; [done|]. intros root Hroot.
  destruct (lookup_leaf_safe (read_dx_block dev sb inode)) with (name := name) (root := root) (seed := Superblock.hash_seed sb)
    (u := Superblock.unsigned_hash sb) as [Hl Hleaf]; [|by apply Hb|].
  { intros l Hl. unfold read_dx_block. split.
    - apply bind_returns; [by apply map_block_returns|]. intros o _. apply bind_returns; [apply ok_or_returns|]. intros p _. apply read_phys_block_safe.
    - intros b E. apply bind_ok_inv in E as (o & _ & E). apply bind_ok_inv in E as (p & _ & E). by apply read_phys_block_safe in E. }
  apply bind_returns; [done|]. intros [leaf|] Eleaf; [|done]. specialize (Hleaf leaf Eleaf).
  apply bind_returns; [by apply map_block_returns|]. intros o _. apply bind_returns; [apply ok_or_returns|]. intros phys _.
  destruct (read_phys_block_safe phys) as [Hr' Hb']. apply bind_returns; [done|]. intros lf Hlf. apply bind_returns.
  - destruct (_ && _); [apply verify_dir_entry_tail_returns|done].
  - intros ok _. destruct (negb ok); [done|]. apply scan_block_returns. by apply Hb'.
Qed.

Lemma read_raw_inode_safe ino expected : 0 ≤ ino →
  returns (read_raw_inode dev sb csum ino expected) ∧ ∀ raw, read_raw_inode dev sb csum ino expected = Ok raw → bytes_ok raw.
Proof.
  intros Hino. pose proof mounted_bs_range. unfold read_raw_inode. case_decide as Hbad; [done|]. apply Decidable.not_or in Hbad as [Hne Hbad]. apply Decidable.not_or in Hbad as [Hmax Hipg].
  case_decide; [done|]. destruct (Superblock.descriptor_slot sb ((ino - 1) / Superblock.inodes_per_group sb) Hgeo) as (b & off & -> & Hoff & Hfit).
  { apply Z.div_pos; [lia|]. destruct Hgeo. lia. }
  cbn [mbind res_bind]. destruct (checked_mul64 b _) as [at_|]; [|done]. cbn [ok_or mbind res_bind].
  destruct (rd_read dev at_ _) as [table|e| |] eqn:Et; [|done|..]; try (pose proof (rd_returns at_ bs) as Hr; by rewrite Et in Hr).
  cbn [mbind res_bind]. case_decide; [done|].
  assert (Hds : 32 ≤ Superblock.desc_size sb) by (destruct Hgeo; lia).
  pose proof (Bgd.bgd_parse_returns (sub table off (Superblock.desc_size sb)) (Superblock.desc_size sb) Hds) as Hp.
  destruct (Bgd.parse _ _) as [bgd|e| |]; try done. cbn [mbind res_bind].
  destruct (checked_mul64 _ _) as [tb|]; [|done]. cbn [ok_or mbind res_bind]. destruct (checked_add64 _ _) as [o|]; [|done]. cbn [ok_or mbind res_bind].
  destruct (rd_read dev o _) as [raw|e| |] eqn:Er; [|done|..]; try (pose proof (rd_returns o (Superblock.inode_size sb)) as Hr; by rewrite Er in Hr).
  cbn [mbind res_bind]. pose proof (rd_bytes _ _ _ Er) as Hraw. pose proof (parsed_inode_returns raw Hraw) as Hpr.
  destruct (Inode.parse raw) as [parsed|e| |] eqn:Ep; try done. cbn [mbind res_bind]. destruct (inode_parse_facts _ _ Hraw Ep) as (Hlen & _).
  pose proof (verify_inode_returns csum ino (Inode.generation parsed) raw Hlen) as Hv.
  destruct (enabled csum); [destruct (verify_inode _ _ _ _) as [ok|e| |]; try done|]; cbn [mbind res_bind].
  - destruct ok; [|done]. cbn [negb]. case_decide; [done|]. split; [done|]. by intros raw' [= <-].
  - cbn [negb]. case_decide; [done|]. split; [done|]. by intros raw' [= <-].
Qed.

Lemma dir_entries_safe ino inode cont hft : bytes_ok (Inode.block inode) → zlen (Inode.block inode) = 60 → bytes_ok cont → 0 ≤ ino →
  returns (dir_entries ino inode cont hft) ∧ ∀ es, dir_entries ino inode cont hft = Ok es → Forall (λ e, 0 ≤ DirEntry.inode e) es.
Proof.
  intros Hb Hz Hc Hi. unfold dir_entries. rewrite u32_le_ok by lia. cbn [mbind res_bind]. case_decide; [done|].
  unfold INLINE_DOTDOT_SIZE. rewrite slice_ok by lia. cbn [mbind res_bind].
  assert (Hs : bytes_ok (sub (Inode.block inode) 4 (zlen (Inode.block inode) - 4))) by auto with ext4. set (head := sub _ _ _) in *.
  pose proof (parse_block_returns head hft Hs) as Hr. destruct (parse_block head hft) as [es1|e| |] eqn:E1; try done. cbn [mbind res_bind].
  pose proof (parse_block_returns cont hft Hc) as Hr2. destruct (parse_block cont hft) as [es2|e| |] eqn:E2; try done. cbn [mbind res_bind].
  split; [done|]. intros es [= <-]. pose proof (le32_range (Inode.block inode) 0 Hb).
  constructor; [done|]. constructor; [cbn; lia|]. apply Forall_app. split; [exact (parse_block_inode _ _ _ Hs E1)|exact (parse_block_inode _ _ _ Hc E2)].
Qed.

Definition inode_ok (i : Inode.t) : Prop := zlen (Inode.block i) = 60 ∧ bytes_ok (Inode.block i).

Lemma find_inline_safe ino inode name : inode_ok inode → 0 ≤ ino →
  returns (find_inline dev sb csum ino inode name) ∧ ∀ i, find_inline dev sb csum ino inode name = Ok i → 0 ≤ i.
Proof.
  intros [Hz Hb] Hi. pose proof mounted_bs_range. unfold find_inline.
  destruct (dir_entries_safe ino inode [] (has_bits (Superblock.feature_incompat sb) Incompat.FILETYPE) Hb Hz (Forall_nil_2 _) Hi) as [Hr Hf].
  destruct (dir_entries _ _ _ _) as [es|e| |]; try done. cbn [mbind res_bind].
  destruct (by_name name es) as [i|] eqn:Eby; [split; [done|]; intros j [= <-]; eapply by_name_nonneg; [by apply Hf|done]|].
  case_decide; [done|]. destruct (read_raw_inode_safe ino inode Hi) as [Hrr Hrb].
  destruct (read_raw_inode dev sb csum ino inode) as [raw|e| |]; try done. cbn [mbind res_bind]. specialize (Hrb raw eq_refl).
  unfold dir_continuation, INLINE_BLOCK_SIZE in *. rewrite decide_False by done. unfold system_data.
  pose proof (get_returns dev inode raw (Superblock.inode_size sb) bs (lit "system.data") Hrb Hisz ltac:(lia)) as Hg.
  destruct (Xattr.get _ _ _ _ _ _) as [o|e| |] eqn:Eg; try done. cbn [mbind res_bind]. destruct o as [extra|]; [|done]. cbn [ok_or mbind res_bind].
  case_decide; [done|]. cbn [mbind res_bind].
  assert (Hx : bytes_ok extra) by (eapply get_bytes; [done|exact Hrb|exact Eg]).
  assert (Hs : bytes_ok (sub extra 0 (Inode.size inode - 60))) by auto with ext4. set (cont := sub _ _ _) in *.
  pose proof (scan_block_returns cont (has_bits (Superblock.feature_incompat sb) Incompat.FILETYPE) name Hs) as Hsr.
  pose proof (scan_block_inode (has_bits (Superblock.feature_incompat sb) Incompat.FILETYPE) name cont Hs) as Hsi.
  destruct (scan_block _ _ _) as [[i|]|e| |]; try done. cbn [mbind res_bind ok_or]. split; [done|]. intros j [= <-]. by apply Hsi.
Qed.

Lemma linear_loop_inode dir_ino inode name n : ∀ l i, linear_loop dev sb csum n dir_ino inode name l = Ok i → 0 ≤ i.
Proof.
  induction n as [|n IH]; intros l i H'; [done|]. cbn [linear_loop] in H'. apply bind_ok_inv in H' as (o & Ho & H').
  destruct o as [j|]; [|by eapply IH]. injection H' as <-. unfold linear_block in Ho. apply bind_ok_inv in Ho as (p & _ & Ho).
  destruct p as [phys|]; [|done]. apply bind_ok_inv in Ho as (block & Hblock & Ho). apply read_phys_block_safe in Hblock.
  destruct (parse_block_verified _ _ _ _ _) as [es|e| |] eqn:Ep; try done; [|by destruct (_ && _)]. injection Ho as Ho.
  unfold parse_block_verified in Ep. apply bind_ok_inv in Ep as (ok & _ & Ep). destruct (negb ok); [done|].
  eapply by_name_nonneg; [by eapply parse_block_inode|exact Ho].
Qed.

Lemma find_entry_safe ino inode name : inode_ok inode → 0 ≤ ino →
  returns (find_entry dev sb csum ino inode name) ∧ ∀ i, find_entry dev sb csum ino inode name = Ok i → 0 ≤ i.
Proof.
  intros Hok Hi. destruct Hok as [Hz Hb]. unfold find_entry, refuse_encrypted_names. case_decide; [done|]. cbn [mbind res_bind].
  destruct (Inode.has_inline_data inode); [by apply find_inline_safe|].
  assert (Hlin : returns (find_entry_linear dev sb csum ino inode name) ∧ ∀ i, find_entry_linear dev sb csum ino inode name = Ok i → 0 ≤ i).
  { unfold find_entry_linear. split; [by apply linear_loop_returns|]. intros i. apply linear_loop_inode. }
  destruct (is_indexed inode); [|exact Hlin]. pose proof (find_entry_htree_returns ino inode name Hz) as Hr.
  destruct (find_entry_htree dev sb csum ino inode name) as [[j|]|e| |] eqn:Eh; try done. cbn [mbind res_bind]. split; [done|]. intros i [= <-].
  unfold find_entry_htree in Eh. apply bind_ok_inv in Eh as (p & _ & Eh). destruct p as [phys0|]; [|done].
  apply bind_ok_inv in Eh as (root & _ & Eh). apply bind_ok_inv in Eh as (lf & _ & Eh). destruct lf as [leaf|]; [|done].
  apply bind_ok_inv in Eh as (q & _ & Eh). apply bind_ok_inv in Eh as (phys & _ & Eh). apply bind_ok_inv in Eh as (blk & Hblk & Eh).
  apply read_phys_block_safe in Hblk. apply bind_ok_inv in Eh as (ok & _ & Eh). destruct (negb ok); [done|]. by eapply scan_block_inode.
Qed.

Lemma path_lookup_safe read_inode path : (∀ ino, 0 ≤ ino → returns (read_inode ino) ∧ ∀ i, read_inode ino = Ok i → inode_ok i) →
  returns (lookup_bytes_with_csum dev sb csum read_inode path) ∧
  ∀ i, lookup_bytes_with_csum dev sb csum read_inode path = Ok i → 0 ≤ i.
Proof.
  intros Hread. unfold lookup_bytes_with_csum. assert (Hroot : 0 ≤ EXT4_ROOT_INODE) by (by vm_compute). revert Hroot.
  generalize EXT4_ROOT_INODE as ino. induction (split_path path) as [|name names IH]; intros ino Hi; [by split; [|intros i [= <-]]|].
  assert (Hstep : returns (lookup_step dev sb csum read_inode ino name) ∧
    ∀ j, lookup_step dev sb csum read_inode ino name = Ok j → 0 ≤ j).
  { unfold lookup_step. destruct (Hread ino Hi) as [Hr Hok]. destruct (read_inode ino) as [inode|e| |]; try done. cbn [mbind res_bind].
    destruct (negb (Inode.is_dir inode)); [done|]. exact (find_entry_safe ino inode name (Hok _ eq_refl) Hi). }
  cbn [foldM]. destruct Hstep as [Hr Hj]. destruct (lookup_step dev sb csum read_inode ino name) as [next|e| |]; try done.
  cbn [mbind res_bind]. by apply IH, Hj.
Qed.
End path.
