(* ===== verification/BlockBuffer.v ===== *)
(** BlockBuffer: the staged transaction every mutating operation builds
    (src/src/fs.rs): the buffer of dirty blocks, the bitmap and counter edits
    made in it, and allocation against what it has staged.  FreeCounts and
    AllocRefine prove what these edits keep. *)
From S2P Require Import Prelude Errors Bytes Device Features Superblock Checksum Bgd Extent Inode Indirect Alloc Filesystem.

(** The blocks a transaction has changed, and the descriptor flags left by the
    uninit flags it cleared. *)
Record BlockBuffer := mkBuffer { dirty : gmap Z bytes; uninit_cleared : gmap Z Z }.

Definition new_buffer : BlockBuffer := mkBuffer ∅ ∅.

Inductive BgdUninitFlag := InodeFlag | BlockFlag.

(** The uninit flags a mount has cleared, and the descriptors with them applied
    once they have been built. *)
Record AllocationState := mkAlloc { cleared : gmap Z Z; overridden : option (list Bgd.t) }.

(** ** Descriptor fields *)

Definition patch_counter_u32 (buf : bytes) (lo_off : Z) (hi_off : option Z) (delta : Z) : res bytes :=
  cur_lo ← u16_le buf lo_off;
  cur_hi ← match hi_off with Some h => u16_le buf h | None => Ok 0 end;
  let new := Z.max 0 (Z.min (join16 cur_hi cur_lo + delta) u32_max) in
  buf ← put_u16 buf lo_off (Z.land new 0xFFFF);
  match hi_off with Some h => put_u16 buf h (Z.land (Z.shiftr new 16) 0xFFFF) | None => Ok buf end.

Definition patch_bgd_counter_fields (block : bytes) (off desc_size : Z)
    (free_blocks_delta free_inodes_delta used_dirs_delta : Z) : res bytes :=
  let hi h := if decide (64 ≤ desc_size) then Some (off + h) else None in
  block ← patch_counter_u32 block (off + Bgd.OFF_FREE_BLOCKS_LO) (hi Bgd.OFF_FREE_BLOCKS_HI) free_blocks_delta;
  block ← patch_counter_u32 block (off + Bgd.OFF_FREE_INODES_LO) (hi Bgd.OFF_FREE_INODES_HI) free_inodes_delta;
  patch_counter_u32 block (off + Bgd.OFF_USED_DIRS_LO) (hi Bgd.OFF_USED_DIRS_HI) used_dirs_delta.

(** [bm[byte] |= mask] or [bm[byte] &= !mask], where the byte exists. *)
Definition write_bit (set : bool) (bm : bytes) (bit : Z) : res bytes :=
  let byte := bit / 8 in
  let mask := Z.shiftl 1 (bit mod 8) in
  if decide (byte < zlen bm) then
    b ← get bm byte;
    put bm byte [if set then Z.lor b mask else Z.land b (Z.lxor mask 0xFF)]
  else Ok bm.
Definition write_bits (set : bool) (start len : Z) (bm : bytes) : res bytes :=
  foldM (write_bit set) bm (seqZ start len).

(** A 32-bit count split over two 16-bit fields of the descriptor at [off], the
    high one only in a 64-byte descriptor. *)
Definition put_split (desc_size off : Z) (lo hi value : Z) (block : bytes) : res bytes :=
  block ← put_u16 block (off + lo) (Z.land value 0xFFFF);
  if decide (64 ≤ desc_size) then put_u16 block (off + hi) (Z.land (Z.shiftr value 16) 0xFFFF) else Ok block.

(** ** Uninit flags *)

Section alloc_state.
Context (snapshot : list Bgd.t).

Definition publish (st : AllocationState) (staged : gmap Z Z) : AllocationState :=
  if decide (staged = ∅) then st else
  mkAlloc (union_with (λ f flags, Some (Z.land f flags)) (cleared st) staged) None.

Definition reset (st : AllocationState) : AllocationState := mkAlloc ∅ None.

(** [groups[gi].flags = flags] *)
Definition with_flags (g : Bgd.t) (flags : Z) : Bgd.t :=
  Bgd.mk (Bgd.block_bitmap g) (Bgd.inode_bitmap g) (Bgd.inode_table g)
    (Bgd.free_blocks_count g) (Bgd.free_inodes_count g) (Bgd.used_dirs_count g) flags
    (Bgd.itable_unused g) (Bgd.block_bitmap_csum g) (Bgd.inode_bitmap_csum g) (Bgd.checksum g).
Definition override_flags (groups : list Bgd.t) (c : Z * Z) : res (list Bgd.t) :=
  g ← unwrap (groups !! Z.to_nat (fst c));
  Ok (<[Z.to_nat (fst c) := with_flags g (snd c)]> groups).

Definition allocation_groups (st : AllocationState) : res (list Bgd.t * AllocationState) :=
  if decide (cleared st = ∅) then Ok (snapshot, st) else
  match overridden st with
  | Some groups => Ok (groups, st)
  | None =>
      groups ← foldM override_flags snapshot (map_to_list (cleared st));
      Ok (groups, mkAlloc (cleared st) (Some groups))
  end.
End alloc_state.

Section buffer.
Context `{Crc32c} (fs : Filesystem.t) (dev : reader).
Local Abbreviation sb := (Filesystem.sb fs).
Local Abbreviation groups := (Filesystem.groups fs).
Local Abbreviation csum := (Filesystem.csum fs).
Local Abbreviation read_block := (Filesystem.read_block fs dev).

(** The block as staged, read in on first touch. *)
Definition get_mut (buf : BlockBuffer) (block : Z) : res (bytes * BlockBuffer) :=
  match dirty buf !! block with
  | Some bs => Ok (bs, buf)
  | None => bs ← read_block block; Ok (bs, mkBuffer (<[block := bs]> (dirty buf)) (uninit_cleared buf))
  end.

Definition put_block (buf : BlockBuffer) (block : Z) (bs : bytes) : BlockBuffer :=
  mkBuffer (<[block := bs]> (dirty buf)) (uninit_cleared buf).

(** An edit through the reference [get_mut] returns. *)
Definition edit (block : Z) (f : bytes → res bytes) (buf : BlockBuffer) : res BlockBuffer :=
  '(bs, buf) ← get_mut buf block;
  bs ← f bs;
  Ok (put_block buf block bs).

Definition buffer_write_inode (buf : BlockBuffer) (ino : Z) (inode_raw : bytes) : res BlockBuffer :=
  '(block, offset) ← Bgd.locate_inode sb groups ino;
  edit block (λ it, put it offset inode_raw) buf.

(** ** Descriptors and bitmaps *)

Definition restamp_group_desc_csum (gi off : Z) (block : bytes) : res bytes :=
  desc ← slice block off (Superblock.desc_size sb);
  c ← group_desc_csum sb csum (as_u32 gi) desc;
  match c with Some c => put_u16 block (off + 0x1E) c | None => Ok block end.

Definition buffer_patch_bgd_counters (buf : BlockBuffer) (gi : Z)
    (free_blocks_delta free_inodes_delta used_dirs_delta : Z) : res BlockBuffer :=
  '(bgt_block, off) ← Superblock.descriptor_location sb gi;
  edit bgt_block (λ block,
    block ← patch_bgd_counter_fields block off (Superblock.desc_size sb)
              free_blocks_delta free_inodes_delta used_dirs_delta;
    restamp_group_desc_csum gi off block) buf.

Definition buffer_refresh_bitmap_csum (buf : BlockBuffer) (gi : Z) (inode_bitmap : bool) : res BlockBuffer :=
  if negb (enabled csum) then Ok buf else
  g ← unwrap (groups !! Z.to_nat gi);
  let '(bitmap_block, coverage, lo_off, hi_off) :=
    if inode_bitmap then (Bgd.inode_bitmap g, div_ceil (Superblock.inodes_per_group sb) 8, 0x1A, 0x3A)
    else (Bgd.block_bitmap g, div_ceil (Superblock.blocks_per_group sb) 8, 0x18, 0x38) in
  '(bm, buf) ← get_mut buf bitmap_block;
  covered ← slice bm 0 (Z.min coverage (zlen bm));
  let c := linux_crc32c (seed csum) covered in
  '(bgt_block, off) ← Superblock.descriptor_location sb gi;
  edit bgt_block (λ block,
    block ← put_split (Superblock.desc_size sb) off lo_off hi_off c block;
    restamp_group_desc_csum gi off block) buf.

(** Whether the flag was set; it no longer is, and the buffer remembers. *)
Definition clear_bgd_uninit_flag_if_set (buf : BlockBuffer) (gi : Z) (which : BgdUninitFlag)
    : res (bool * BlockBuffer) :=
  let flag := match which with InodeFlag => Bgd.INODE_UNINIT | BlockFlag => Bgd.BLOCK_UNINIT end in
  '(bgt_block, off) ← Superblock.descriptor_location sb gi;
  '(block, buf) ← get_mut buf bgt_block;
  let flags_off := off + 0x12 in
  flags ← u16_le block flags_off;
  if decide (Z.land flags flag = 0) then Ok (false, buf) else
  let new_flags := Z.ldiff flags flag in
  block ← put_u16 block flags_off new_flags;
  let staged := match uninit_cleared buf !! gi with Some f => Z.ldiff f flag | None => new_flags end in
  Ok (true, mkBuffer (<[bgt_block := block]> (dirty buf)) (<[gi := staged]> (uninit_cleared buf))).

(** ** Planning against what is staged *)

(** A read through the buffer. *)
Definition view (buf : BlockBuffer) (block : Z) : res bytes :=
  match dirty buf !! block with Some bs => Ok bs | None => read_block block end.

(** [groups.get_mut(gi)], where the group exists. *)
Definition override_staged (groups : list Bgd.t) (c : Z * Z) : res (list Bgd.t) :=
  if decide (is_Some (groups !! Z.to_nat (fst c))) then override_flags groups c else Ok groups.

Definition plan_buffered_block_allocation_excluding (st : AllocationState) (buf : BlockBuffer)
    (count hint : Z) (reserved : list Z) : res (BlockAllocationPlan * AllocationState) :=
  '(base, st) ← allocation_groups groups st;
  gs ← foldM override_staged base (map_to_list (uninit_cleared buf));
  plan ← plan_block_allocation_excluding sb gs (view buf) count hint reserved;
  Ok (plan, st).

Definition plan_buffered_block_allocation (st : AllocationState) (buf : BlockBuffer) (count hint : Z)
    : res (BlockAllocationPlan * AllocationState) :=
  plan_buffered_block_allocation_excluding st buf count hint [].

(** ** Blocks *)

(** The loop of [group_chunks], from block [at_] to [stop]. *)
Fixpoint chunks_of (fuel : nat) (at_ stop : Z) : res (list (Z * Z * Z)) :=
  if decide (at_ < stop) then
    match fuel with
    | O => OutOfFuel
    | S fuel =>
        let bpg := Superblock.blocks_per_group sb in
        let first_data := Superblock.first_data_block sb in
        let gi := (at_ - first_data) / bpg in
        if decide (zlen groups ≤ gi) then Err (InvalidBlock at_) else
        let group_start := first_data + gi * bpg in
        let chunk := Z.min stop (group_start + bpg) - at_ in
        rest ← chunks_of fuel (at_ + chunk) stop;
        Ok ((gi, at_ - group_start, chunk) :: rest)
    end
  else Ok [].

Definition group_chunks (start len : Z) : res (list (Z * Z * Z)) :=
  let bpg := Superblock.blocks_per_group sb in
  let first_data := Superblock.first_data_block sb in
  stop ← ok_or (checked_add64 start len) (InvalidBlock start);
  if decide (start < first_data ∨ bpg = 0) then Err (InvalidBlock start) else
  if decide (Superblock.blocks_count sb < stop) then Err (InvalidBlock (Superblock.blocks_count sb)) else
  chunks_of (S (length groups)) start stop.

Definition free_chunk (buf : BlockBuffer) (c : Z * Z * Z) : res BlockBuffer :=
  let '(gi, bit_start, chunk) := c in
  g ← unwrap (groups !! Z.to_nat gi);
  buf ← edit (Bgd.block_bitmap g) (write_bits false bit_start chunk) buf;
  buf ← buffer_refresh_bitmap_csum buf gi false;
  buffer_patch_bgd_counters buf gi (as_i32 chunk) 0 0.

Definition buffer_free_block_run_and_bgd (buf : BlockBuffer) (start len : Z) : res (Z * BlockBuffer) :=
  chunks ← group_chunks start len;
  buf ← foldM free_chunk buf chunks;
  Ok (len, buf).

Definition buffer_free_runs (buf : BlockBuffer) (runs : list (Z * Z)) : res (Z * BlockBuffer) :=
  foldM (λ '(freed, buf) '(start, len),
    '(n, buf) ← buffer_free_block_run_and_bgd buf start len;
    Ok (as_u64 (freed + n), buf)) (0, buf) runs.

Definition extent_tree_runs (ino : Z) (inode : Inode.t) : res (list (Z * Z)) :=
  '(extents, nodes) ← collect_all_with_nodes dev (Filesystem.block_size fs) (Inode.block inode);
  _ ← foldM (λ _ node,
        bs ← read_block node;
        ok ← verify_extent_tail csum ino (Inode.generation inode) bs;
        if negb ok then Err (BadChecksum "extent block") else Ok tt) tt nodes;
  Ok (((λ e, (Extent.physical_block e, Extent.length e)) <$> extents) ++ ((λ n, (n, 1)) <$> nodes)).

Definition buffer_mark_block_run_used (buf : BlockBuffer) (start len : Z) : res BlockBuffer :=
  let bpg := Superblock.blocks_per_group sb in
  let first_data := Superblock.first_data_block sb in
  if decide (bpg = 0) then Panic else
  let gi := as_u64 (start - first_data) / bpg in
  if decide (zlen groups ≤ gi) then Err (InvalidBlock start) else
  let group_start := first_data + gi * bpg in
  let bit_start := as_u32 (start - group_start) in
  '(was_uninit, buf) ← clear_bgd_uninit_flag_if_set buf gi BlockFlag;
  implied ← (if (was_uninit : bool) then i ← uninit_block_bitmap sb groups gi; Ok (Some i) else Ok None);
  g ← unwrap (groups !! Z.to_nat gi);
  buf ← edit (Bgd.block_bitmap g) (λ bm,
    bm ← match implied with
         | Some implied =>
             let n := Z.min (zlen implied) (zlen bm) in
             head ← slice implied 0 n; put bm 0 head
         | None => Ok bm
         end;
    write_bits true bit_start len bm) buf;
  buffer_refresh_bitmap_csum buf gi false.

(** ** Inodes *)

Definition buffer_free_inode_slot (buf : BlockBuffer) (ino : Z) : res BlockBuffer :=
  let ipg := Superblock.inodes_per_group sb in
  if decide (ipg = 0) then Panic else
  let gi := as_u32 (ino - 1) / ipg in
  if decide (zlen groups ≤ gi) then Err (InvalidInode ino) else
  let bit := as_u32 (ino - 1) mod ipg in
  g ← unwrap (groups !! Z.to_nat gi);
  buf ← edit (Bgd.inode_bitmap g) (λ bm, write_bit false bm bit) buf;
  buf ← buffer_refresh_bitmap_csum buf gi true;
  buffer_patch_bgd_counters buf gi 0 1 0.

(** The count of inodes never used at the end of the table, lowered to [floor]. *)
Definition lower_itable_unused (gi off floor : Z) (block : bytes) : res bytes :=
  let desc_size := Superblock.desc_size sb in
  cur_lo ← u16_le block (off + 0x1C);
  cur_hi ← (if decide (64 ≤ desc_size) then u16_le block (off + 0x32) else Ok 0);
  if decide (floor < join16 cur_hi cur_lo) then
    block ← put_split desc_size off 0x1C 0x32 floor block;
    restamp_group_desc_csum gi off block
  else Ok block.

Definition buffer_mark_inode_used (buf : BlockBuffer) (ino : Z) : res BlockBuffer :=
  let ipg := Superblock.inodes_per_group sb in
  if decide (ipg = 0) then Panic else
  let gi := as_u32 (ino - 1) / ipg in
  if decide (zlen groups ≤ gi) then Err (InvalidInode ino) else
  let bit := as_u32 (ino - 1) mod ipg in
  '(was_uninit, buf) ← clear_bgd_uninit_flag_if_set buf gi InodeFlag;
  g ← unwrap (groups !! Z.to_nat gi);
  buf ← edit (Bgd.inode_bitmap g) (λ bm,
    bm ← (if (was_uninit : bool)
          then foldM or_bit (zrep (zlen bm) 0) (seqZ ipg (zlen bm * 8 - ipg))
          else Ok bm);
    write_bit true bm bit) buf;
  buf ← buffer_refresh_bitmap_csum buf gi true;
  let floor := saturating_sub ipg (bit + 1) in
  '(bgt_block, off) ← Superblock.descriptor_location sb gi;
  edit bgt_block (lower_itable_unused gi off floor) buf.

(** ** The superblock *)

(** An edit of the 1,024 superblock bytes, with their checksum. *)
Definition edit_superblock (f : bytes → res bytes) (buf : BlockBuffer) : res BlockBuffer :=
  let bs := Filesystem.block_size fs in
  let sb_block := Superblock.SUPERBLOCK_OFFSET / bs in
  let off := Superblock.SUPERBLOCK_OFFSET mod bs in
  edit sb_block (λ block,
    s ← slice block off 1024;
    s ← f s;
    s ← (if enabled csum then
           body ← slice s 0 0x3FC; put_u32 s 0x3FC (linux_crc32c u32_max body)
         else Ok s);
    put block off s) buf.

Definition buffer_patch_sb_counters (buf : BlockBuffer) (free_blocks_delta free_inodes_delta : Z)
    : res BlockBuffer :=
  edit_superblock (λ s,
    fi ← u32_le s 0x10;
    s ← put_u32 s 0x10 (as_u32 (Z.max (fi + free_inodes_delta) 0));
    lo ← u32_le s 0x0C;
    hi ← u32_le s 0x158;
    let cur := as_i64 (join32 hi lo) in
    let new := Z.max (as_i64 (cur + free_blocks_delta)) 0 in
    s ← put_u32 s 0x0C (as_u32 new);
    put_u32 s 0x158 (as_u32 (Z.shiftr new 32))) buf.

Definition buffer_patch_sb_compat (buf : BlockBuffer) (bits : Z) : res BlockBuffer :=
  edit_superblock (λ s, compat ← u32_le s 0x5C; put_u32 s 0x5C (Z.lor compat bits)) buf.

Definition buffer_patch_sb_last_orphan (buf : BlockBuffer) (value : Z) : res BlockBuffer :=
  edit_superblock (λ s, put_u32 s 0xE8 value) buf.

(** ** One block *)

Definition buffer_allocate_block (st : AllocationState) (buf : BlockBuffer) (ino : Z)
    : res (Z * BlockBuffer * AllocationState) :=
  let ipg := Superblock.inodes_per_group sb in
  if decide (ipg = 0) then Panic else
  '(plan, st) ← plan_buffered_block_allocation st buf 1 (as_u32 (ino - 1) / ipg);
  buf ← buffer_mark_block_run_used buf (first_block plan) 1;
  let b := bp_bgd plan in
  buf ← buffer_patch_bgd_counters buf (group_idx b) (bgd_free_blocks_delta b) (bgd_free_inodes_delta b) (used_dirs_delta b);
  buf ← buffer_patch_sb_counters buf (sb_free_blocks_delta (bp_sb plan)) (sb_free_inodes_delta (bp_sb plan));
  Ok (first_block plan, buf, st).
End buffer.
