(* ===== verification/FsRead.v ===== *)
(** FsRead: what a mounted volume answers (the read-only methods of
    src/src/fs.rs): verified inodes, handles, paths, directory listings, file
    contents, symlinks, and the orphan chain. *)
From S2P Require Import Prelude Errors Bytes Device Features Superblock Checksum Bgd Extent Inode Indirect Dir Xattr InlineData Alloc Filesystem FileIo Path PathSafety BlockBuffer.

(** A handle: an inode number, and the generation it must still carry. *)
Module InodeRef.
Record t := mk { ino : Z; generation : option Z }.
Definition new (ino generation : Z) : t := mk ino (Some generation).
Definition any (ino : Z) : t := mk ino None.
End InodeRef.

Definition check_entry_name (name : bytes) : res unit :=
  if decide (name = []) then Err (InvalidArgument "empty name") else
  if decide (47 ∈ name) then Err (InvalidArgument "a name cannot contain '/'") else
  if decide (0 ∈ name) then Err (InvalidArgument "a name cannot contain a NUL byte") else Ok tt.

Definition check_new_entry_name (name : bytes) : res unit :=
  _ ← check_entry_name name;
  if decide (255 < zlen name) then Err NameTooLong else Ok tt.

(** [iter().rposition(f)] *)
Fixpoint rposition (f : Z → bool) (l : bytes) : option Z :=
  match l with
  | [] => None
  | x :: l => match rposition f l with Some i => Some (i + 1) | None => if f x then Some 0 else None end
  end.

Definition split_parent_and_base (path : bytes) : res (bytes * bytes) :=
  let stop := match rposition (λ b, negb (bool_decide (b = 47))) path with None => 0 | Some i => i + 1 end in
  let trimmed := sub path 0 stop in
  if decide (trimmed = []) then Err (InvalidArgument "empty path") else
  last_slash ← ok_or (rposition (λ b, bool_decide (b = 47)) trimmed) (InvalidArgument "relative path");
  let base := sub trimmed (last_slash + 1) (zlen trimmed - (last_slash + 1)) in
  let parent := if decide (last_slash = 0) then [47] else sub trimmed 0 last_slash in
  if decide (base = []) then Err NotADirectory else
  if decide (0 ∈ base) then Err (InvalidArgument "a name cannot contain a NUL byte") else
  Ok (parent, base).

Section fs.
Context `{Crc32c} (fs : Filesystem.t) (dev : reader) (st : AllocationState).
Local Abbreviation sb := (Filesystem.sb fs).
Local Abbreviation csum := (Filesystem.csum fs).
Local Abbreviation block_size := (Filesystem.block_size fs).

Definition read_inode_verified (ino : Z) : res (Inode.t * bytes) :=
  raw ← Filesystem.read_inode_raw fs dev ino;
  inode ← Inode.parse raw;
  ok ← (if enabled csum then verify_inode csum ino (Inode.generation inode) raw else Ok true);
  if negb ok then Err (BadChecksum "inode") else
  large ← (if Inode.is_dir inode then ceiling ← byte_ceiling fs dev; Ok (bool_decide (ceiling < Inode.size inode)) else Ok false);
  if (large : bool) then Err (Corrupt "directory inode declares more bytes than the filesystem holds") else
  Ok (inode, raw).

Definition read_link (ino : Z) : res bytes :=
  '(inode, _) ← read_inode_verified ino;
  if negb (Inode.is_symlink inode) then Err (InvalidArgument "not a symlink") else
  if decide (4096 < Inode.size inode) then Err (Corrupt "symlink target is longer than any path") else
  _ ← refuse_encrypted inode;
  if decide (Inode.size inode < 60) then slice (Inode.block inode) 0 (Inode.size inode) else
  '(_, out) ← read_verified fs dev inode ino 0 (Inode.size inode) (zrep (Inode.size inode) 0);
  Ok out.

Definition lookup_path_bytes (path : bytes) : res Z :=
  lookup_bytes_with_csum dev sb csum (λ ino, '(i, _) ← read_inode_verified ino; Ok i) path.

Definition resolve : bytes → res Z := lookup_path_bytes.

Definition resolve_parent (path : bytes) : res (Z * bytes) :=
  '(parent, base) ← split_parent_and_base path;
  p ← resolve parent;
  Ok (p, base).

Definition resolve_new_parent (path : bytes) : res (Z * bytes) :=
  '(parent, base) ← split_parent_and_base path;
  if decide (255 < zlen base) then Err NameTooLong else
  p ← resolve parent;
  Ok (p, base).

Definition inode_bit_is_set (ino : Z) : res bool :=
  if decide (ino = 0 ∨ Superblock.inodes_count sb < ino ∨ Superblock.inodes_per_group sb = 0) then Ok false else
  let ipg := Superblock.inodes_per_group sb in
  '(groups, _) ← allocation_groups (Filesystem.groups fs) st;
  match groups !! Z.to_nat ((ino - 1) / ipg) with
  | None => Ok false
  | Some group =>
      if has_bits (Bgd.flags group) Bgd.INODE_UNINIT then Ok false else
      bitmap ← Filesystem.read_block fs dev (Bgd.inode_bitmap group);
      let bit := (ino - 1) mod ipg in
      Ok (match bitmap !! Z.to_nat (bit / 8) with
          | Some byte => bool_decide (Z.land byte (Z.shiftl 1 (bit mod 8)) ≠ 0)
          | None => false
          end)
  end.

Definition live_inode (r : InodeRef.t) : res (Inode.t * bytes) :=
  let ino := InodeRef.ino r in
  let reserved := bool_decide (ino < Superblock.first_inode sb) && bool_decide (ino ≠ EXT4_ROOT_INODE) in
  if bool_decide (ino = 0) || bool_decide (Superblock.inodes_count sb < ino) || reserved then Err Stale else
  used ← inode_bit_is_set ino;
  if negb used then Err Stale else
  '(inode, raw) ← read_inode_verified ino;
  if decide (Inode.links_count inode = 0 ∨ Inode.mode inode = 0) then Err Stale else
  match InodeRef.generation r with
  | Some g => if decide (g ≠ Inode.generation inode) then Err Stale else Ok (inode, raw)
  | None => Ok (inode, raw)
  end.

Definition live_dir (r : InodeRef.t) : res (Inode.t * bytes) :=
  '(inode, raw) ← live_inode r;
  if negb (Inode.is_dir inode) then Err NotADirectory else Ok (inode, raw).

Definition stat_ino (r : InodeRef.t) : res Inode.t := '(inode, _) ← live_inode r; Ok inode.

Definition lookup_at (dir : InodeRef.t) (name : bytes) : res Z :=
  _ ← check_entry_name name;
  '(dir_inode, _) ← live_dir dir;
  find_entry dev sb csum (InodeRef.ino dir) dir_inode name.

Definition MAX_DIR_ENTRIES : Z := 1000000.

(** The entries of one block pushed one by one, each under the cap. *)
Fixpoint push_loop (fuel : nat) (buf : bytes) (has_filetype : bool) (offset : Z) (entries : list DirEntry.t)
    : res (list DirEntry.t) :=
  match fuel with
  | O => OutOfFuel
  | S fuel' =>
      o ← next fuel buf has_filetype offset;
      match o with
      | None => Ok entries
      | Some (e, offset) =>
          if decide (MAX_DIR_ENTRIES ≤ zlen entries) then Err (Corrupt "dir entries exceed MAX_DIR_ENTRIES")
          else push_loop fuel' buf has_filetype offset (entries ++ [e])
      end
  end.

Definition has_filetype : bool := has_bits (Superblock.feature_incompat sb) Incompat.FILETYPE.

Definition dir_block_entries (inode : Inode.t) (entries : list DirEntry.t) (logical : Z) : res (list DirEntry.t) :=
  o ← map_logical dev block_size (Inode.block inode) logical;
  match o with
  | None => Ok entries
  | Some phys =>
      block_buf ← rd_read dev (as_u64 (phys * block_size)) block_size;
      push_loop (S (length block_buf)) block_buf has_filetype 0 entries
  end.

Definition dir_entries (ino : Z) (inode : Inode.t) (inode_raw : bytes) : res (list DirEntry.t) :=
  _ ← refuse_encrypted_names inode;
  if Inode.has_inline_data inode
  then read_dir dev ino inode inode_raw (Superblock.inode_size sb) block_size has_filetype else
  if negb (Inode.has_extents inode) then Err (Corrupt "legacy (non-extent) dirs not yet supported") else
  foldM (dir_block_entries inode) [] (seqZ 0 (div_ceil (Inode.size inode) block_size)).

Definition read_dir_ino (dir : InodeRef.t) : res (list DirEntry.t) :=
  '(inode, raw) ← live_dir dir;
  dir_entries (InodeRef.ino dir) inode raw.

(** The buffer's first [length] bytes are what the read may fill. *)
Definition read_ino (r : InodeRef.t) (offset : Z) (out : bytes) : res (Z * bytes) :=
  '(inode, raw) ← live_inode r;
  if negb (Inode.is_file inode) then Err (InvalidArgument "not a regular file") else
  let length := Z.min (zlen out) (Inode.size inode) in
  '(n, filled) ← read_with_raw_verified fs dev inode raw (InodeRef.ino r) offset length (sub out 0 length);
  Ok (n, splice out 0 filled).

Definition read_link_ino (r : InodeRef.t) : res bytes :=
  _ ← live_inode r;
  read_link (InodeRef.ino r).

Definition map_inode_logical (inode : Inode.t) (logical_block : Z) : res (option Z) :=
  if Inode.has_inline_data inode
  then Err (Unsupported "inline-data inode: i_block holds data, not a block map") else
  if Inode.has_extents inode then map_logical dev block_size (Inode.block inode) logical_block
  else fst (Indirect.lookup dev block_size (Inode.block inode) logical_block Indirect.new).

(** The next link of the orphan chain: [i_dtime]. *)
Definition next_orphan (cur : Z) : res Z :=
  raw ← Filesystem.read_inode_raw fs dev cur;
  if decide (zlen raw < 0x18) then Err (Corrupt "orphan_list: inode too short") else
  u32_le raw 0x14.

Fixpoint orphan_loop (fuel : nat) (cur steps : Z) (out : list Z) : res (list Z) :=
  if decide (cur = 0) then Ok out else
  match fuel with
  | O => OutOfFuel
  | S fuel =>
      if decide (Superblock.inodes_count sb < steps)
      then Err (Corrupt "orphan_list: chain longer than inodes_count (cycle?)") else
      next ← next_orphan cur;
      orphan_loop fuel next (as_u32 (steps + 1)) (out ++ [cur])
  end.
(** The count of steps, a [u32], ends the loop, unless the cap is the largest
    one. *)
Definition orphan_fuel : nat := Z.to_nat (Superblock.inodes_count sb + 2).
Definition orphan_list : res (list Z) := orphan_loop orphan_fuel (Superblock.last_orphan sb) 0 [].

Fixpoint recover_loop (fuel : nat) (cur : Z) (out : list Z) : res (list Z) :=
  if decide (cur = 0) then Ok out else
  match fuel with
  | O => OutOfFuel
  | S fuel =>
      if decide (Superblock.inodes_count sb < zlen out)
      then Err (Corrupt "orphan_list: chain longer than inodes_count (cycle?)") else
      allocated ← inode_bit_is_set cur;
      if negb allocated && bool_decide (Superblock.inodes_count sb < cur ∨ cur < Superblock.first_inode sb) then Ok out else
      next ← next_orphan cur;
      if negb allocated && bool_decide (Superblock.inodes_count sb < next) then Ok out else
      recover_loop fuel next (out ++ [cur])
  end.
Definition orphan_chain_to_recover : res (list Z) := recover_loop orphan_fuel (Superblock.last_orphan sb) [].
End fs.

(** ** Splitting a path *)

Lemma rposition_none f l : rposition f l = None → Forall (λ x, f x = false) l.
Proof.
  induction l as [|x l IH]; [constructor|]. cbn [rposition]. destruct (rposition f l); [done|]. destruct (f x) eqn:E; [done|].
  intros _. constructor; auto.
Qed.

Lemma rposition_some f l i : rposition f l = Some i → ∃ a x b, l = a ++ x :: b ∧ zlen a = i ∧ f x = true ∧ Forall (λ y, f y = false) b.
Proof.
  revert i. induction l as [|x l IH]; intros i; [done|]. cbn [rposition]. destruct (rposition f l) as [j|] eqn:E.
  - intros [= <-]. destruct (IH j eq_refl) as (a & y & b & -> & Hz & Hy & Hb). exists (x :: a), y, b. rewrite zlen_cons. split; [done|]. split; [lia|]. done.
  - destruct (f x) eqn:Ex; [|done]. intros [= <-]. exists [], x, l. split; [done|]. split; [done|]. split; [done|]. by apply rposition_none.
Qed.

Lemma split_slash_none s : Forall (λ b, b ≠ 47) s → split_slash s = [s].
Proof. induction 1 as [|b s Hb Hs IH]; [done|]. cbn [split_slash]. by rewrite decide_False, IH. Qed.

Lemma split_path_one s : Forall (λ b, b ≠ 47) s → s ≠ [] → split_path s = [s].
Proof. intros Hs Hne. unfold split_path. rewrite split_slash_none by done. by rewrite filter_cons_True. Qed.

Lemma split_path_slashes s : Forall (λ b, b = 47) s → split_path s = [].
Proof.
  intros Hs. unfold split_path. induction Hs as [|b s -> Hs IH]; [done|]. cbn [split_slash]. rewrite decide_True by done.
  by rewrite filter_cons_False by auto.
Qed.

(** A path splits into its last component and a path to the others. *)
Lemma split_parent_and_base_spec path parent base : split_parent_and_base path = Ok (parent, base) →
  split_path path = split_path parent ++ [base] ∧ base ≠ [] ∧ 0 ∉ base.
Proof.
  unfold split_parent_and_base. intros Hs.
  assert (Htrim : ∃ trimmed slashes, path = trimmed ++ slashes ∧ Forall (λ b, b = 47) slashes ∧
    sub path 0 match rposition (λ b, negb (bool_decide (b = 47))) path with None => 0 | Some i => i + 1 end = trimmed).
  { destruct (rposition _ path) as [i|] eqn:E.
    - apply rposition_some in E as (a & x & b & -> & Hz & _ & Hb). exists (a ++ [x]), b. rewrite <-app_assoc. split; [done|].
      split; [|rewrite (cons_middle x a b), (app_assoc a [x] b); rewrite sub_app_l by zl; apply sub_all; zl].
      eapply Forall_impl; [exact Hb|]. intros y Hy. apply negb_false_iff, bool_decide_eq_true in Hy. done.
    - exists [], path. split; [done|]. split; [|done]. apply rposition_none in E. eapply Forall_impl; [exact E|].
      intros y Hy. apply negb_false_iff, bool_decide_eq_true in Hy. done. }
  destruct Htrim as (trimmed & slashes & -> & Hsl & Etrim). rewrite Etrim in Hs. case_decide; [done|].
  apply bind_ok_inv in Hs as (ls & Hls & Hs). apply ok_or_ok in Hls. apply rposition_some in Hls as (a & x & b & -> & Hz & Hx & Hb).
  apply bool_decide_eq_true in Hx. subst x ls.
  assert (Ebase : sub (a ++ 47 :: b) (zlen a + 1) (zlen (a ++ 47 :: b) - (zlen a + 1)) = b).
  { rewrite zlen_app, zlen_cons. rewrite (cons_middle 47 a b), (app_assoc a [47] b).
    replace (zlen a + 1) with (zlen (a ++ [47])) by zl. rewrite sub_app_r by lia. rewrite Z.sub_diag. apply sub_all. zl. }
  rewrite Ebase in Hs. destruct (decide (b = [])) as [|Hne]; [done|]. destruct (decide (0 ∈ b)) as [|Hnul]; [done|]. injection Hs as <- <-.
  split; [|done].
  assert (Hb47 : Forall (λ y, y ≠ 47) b) by (eapply Forall_impl; [exact Hb|]; intros y Hy; by apply bool_decide_eq_false in Hy).
  assert (Eb : split_path (b ++ slashes) = [b]).
  { destruct slashes as [|c slashes]; [rewrite app_nil_r; by apply split_path_one|]. apply Forall_cons in Hsl as [-> Hsl].
    rewrite split_path_join, split_path_one, split_path_slashes by done. by rewrite app_nil_r. }
  rewrite <-app_assoc. cbn [app]. rewrite split_path_join, Eb. f_equal. case_decide as Hz0.
  - assert (a = []) as -> by (destruct a; [done|rewrite zlen_cons in Hz0; pose proof (zlen_nonneg a); lia]). done.
  - rewrite sub_app_l by lia. by rewrite sub_all by lia.
Qed.

(** ** Inodes *)

Section safe.
Context `{Crc32c} (fs : Filesystem.t) (dev : reader) (st : AllocationState) {Hdev : ReaderOk dev}.
Context (Hgeo : Superblock.geometry_ok (Filesystem.sb fs)).

Lemma geometry_block_size : Indirect.block_size_ok (Filesystem.block_size fs).
Proof.
  destruct Hgeo. unfold Filesystem.block_size, Superblock.block_size. set (l := Superblock.log_block_size _) in *.
  assert (l = 0 ∨ l = 1 ∨ l = 2 ∨ l = 3 ∨ l = 4 ∨ l = 5 ∨ l = 6) as Hl by lia.
  unfold Indirect.block_size_ok. repeat (destruct Hl as [-> |Hl]; [by vm_compute|]). rewrite Hl. by vm_compute.
Qed.

Lemma byte_ceiling_returns : returns (byte_ceiling fs dev).
Proof. unfold byte_ceiling. apply bind_returns; [apply ok_or_returns|done]. Qed.

Lemma read_inode_verified_safe ino : 0 ≤ ino →
  returns (read_inode_verified fs dev ino) ∧
  ∀ i raw, read_inode_verified fs dev ino = Ok (i, raw) → inode_ok i ∧ bytes_ok raw.
Proof.
  intros Hi. destruct Hgeo. destruct (Filesystem.read_inode_raw_spec fs dev ino) as [Hr Hraw]; [lia..|]. unfold read_inode_verified.
  destruct (Filesystem.read_inode_raw fs dev ino) as [raw|e| |]; try done. destruct (Hraw raw eq_refl) as [Hz Hb]. cbn [mbind res_bind].
  pose proof (parsed_inode_returns raw Hb) as Hp. destruct (Inode.parse raw) as [i|e| |] eqn:Ei; try done. cbn [mbind res_bind].
  destruct (inode_parse_facts raw i Hb Ei) as (Hlen & Hblk & Hbb & _).
  pose proof (verify_inode_returns (Filesystem.csum fs) ino (Inode.generation i) raw Hlen) as Hv.
  destruct (enabled (Filesystem.csum fs)); [destruct (verify_inode _ _ _ _) as [ok|e| |]; try done|]; cbn [mbind res_bind].
  all: try (destruct ok; [|done]); cbn [negb]; pose proof byte_ceiling_returns as Hc;
    destruct (Inode.is_dir i); [destruct (byte_ceiling fs dev) as [c|e| |]; try done|]; cbn [mbind res_bind]; try (case_bool_decide; [done|]);
    (split; [done|]); intros i' raw' [= <- <-]; (split; [by split|done]).
Qed.

(** *** Paths *)

Lemma lookup_path_safe path : returns (lookup_path_bytes fs dev path) ∧ ∀ i, lookup_path_bytes fs dev path = Ok i → 0 ≤ i.
Proof.
  unfold lookup_path_bytes. apply path_lookup_safe; [done|done|exact geometry_block_size|destruct Hgeo; lia|].
  intros ino Hi. destruct (read_inode_verified_safe ino Hi) as [Hr Hok].
  destruct (read_inode_verified fs dev ino) as [[i raw]|e| |]; try done. cbn [mbind res_bind]. split; [done|].
  intros i' [= <-]. by eapply Hok.
Qed.
End safe.

(** ** Listings *)

Section listing.
Context `{Crc32c} (fs : Filesystem.t) (dev : reader).
Local Abbreviation sb := (Filesystem.sb fs).

(** Entries pushed one by one are the entries of the block. *)
Lemma push_loop_spec buf hft fuel : ∀ off out es, push_loop fuel buf hft off out = Ok es →
  ∃ es', es = out ++ es' ∧ ∀ pre, Dir.parse_loop fuel buf hft off pre = Ok (pre ++ es').
Proof.
  induction fuel as [|fuel IH]; intros off out es Hp; [done|]. cbn [push_loop Dir.parse_loop] in *.
  apply bind_ok_inv in Hp as (o & Ho & Hp). rewrite Ho. cbn [mbind res_bind]. destruct o as [[e off']|].
  - case_decide; [done|]. apply IH in Hp as (es' & -> & E). exists (e :: es'). rewrite <-app_assoc. split; [done|].
    intros pre. rewrite E. by rewrite <-app_assoc.
  - injection Hp as <-. exists []. rewrite app_nil_r. split; [done|]. intros pre. by rewrite app_nil_r.
Qed.

(** Where a directory block's tail is one, it verifies. *)
Definition tails_valid (ino : Z) (inode : Inode.t) : Prop :=
  ∀ l phys block, map_block dev sb inode l = Ok (Some phys) → read_phys_block dev sb phys = Ok block →
    enabled (Filesystem.csum fs) && has_csum_tail block = true →
    verify_dir_entry_tail (Filesystem.csum fs) ino (Inode.generation inode) block = Ok true.

Lemma dir_entries_listing ino inode raw es : Inode.has_inline_data inode = false → tails_valid ino inode →
  dir_entries fs dev ino inode raw = Ok es →
  ∃ blocks, es = concat blocks ∧ listing dev sb (Filesystem.csum fs) ino inode blocks.
Proof.
  intros Hin Hv He. unfold dir_entries in He. apply bind_ok_inv in He as (_ & _ & He). rewrite Hin in He.
  destruct (Inode.has_extents inode) eqn:Hext; [|done]. cbn [negb] in He.
  set (n := div_ceil (Inode.size inode) (Filesystem.block_size fs)) in He.
  assert (Hl : ∀ ls out, foldM (dir_block_entries fs dev inode) out ls = Ok es → ∃ blocks, es = out ++ concat blocks ∧ length blocks = length ls ∧
    ∀ i l bl, ls !! i = Some l → blocks !! i = Some bl → block_holds dev sb (Filesystem.csum fs) ino inode l bl).
  { clear He. intros ls. induction ls as [|l ls IH]; intros out He; [injection He as <-; exists []; by rewrite app_nil_r|].
    cbn [foldM] in He. apply bind_ok_inv in He as (out1 & Hout & He). apply IH in He as (blocks & -> & Hlen & Hb).
    assert (Hone : ∃ bl, out1 = out ++ bl ∧ block_holds dev sb (Filesystem.csum fs) ino inode l bl).
    { clear Hb IH. unfold dir_block_entries in Hout. apply bind_ok_inv in Hout as (o & Hmap & Hout).
      assert (Hmb : map_block dev sb inode l = Ok o).
      { unfold map_block, Indirect.map_logical_any. unfold Inode.has_extents in Hext. apply bool_decide_eq_true in Hext. by rewrite decide_True. }
      destruct o as [phys|]; [|injection Hout as <-; exists []; rewrite app_nil_r; split; [done|by left]].
      apply bind_ok_inv in Hout as (block & Hblock & Hout). apply push_loop_spec in Hout as (bl & -> & Hparse).
      exists bl. split; [done|]. right. exists phys, block. split; [done|]. split; [exact Hblock|]. left.
      unfold parse_block_verified. specialize (Hv l phys block Hmb Hblock). destruct (enabled _ && has_csum_tail block).
      - rewrite Hv by done. exact (Hparse []).
      - exact (Hparse []). }
    destruct Hone as (bl & -> & Hbl). exists (bl :: blocks). cbn [concat length]. rewrite <-app_assoc. split; [done|]. split; [lia|].
    intros [|i] l' bl' Hl' Hbl'; [injection Hl' as <-; by injection Hbl' as <-|]. by eapply Hb. }
  apply Hl in He as (blocks & -> & Hlen & Hb). exists blocks. split; [done|]. rewrite length_seqZ in Hlen. split.
  - change (total_blocks sb inode) with n. unfold zlen. lia.
  - intros i bl Hi. pose proof (lookup_lt_Some _ _ _ Hi). eapply Hb; [|exact Hi]. rewrite lookup_seqZ_lt by lia. done.
Qed.
End listing.

(** ** The orphan chain *)

Section orphans.
Context `{Crc32c} (fs : Filesystem.t) (dev : reader).
Local Abbreviation next_orphan := (next_orphan fs dev).

(** The chain from [cur]: each member's link names the next; zero ends it. *)
Fixpoint chain (cur : Z) (l : list Z) : Prop :=
  match l with
  | [] => cur = 0
  | c :: l => c = cur ∧ cur ≠ 0 ∧ ∃ n, next_orphan cur = Ok n ∧ chain n l
  end.

Lemma chain_unique l : ∀ c l', chain c l → chain c l' → l = l'.
Proof.
  induction l as [|x l IH]; intros c [|y l'] H1 H2; try done.
  - destruct H2 as (_ & ? & _). cbn in H1. done.
  - destruct H1 as (_ & ? & _). cbn in H2. done.
  - destruct H1 as (-> & ? & n & E & H1), H2 as (-> & _ & n' & E' & H2). rewrite E in E'. injection E' as <-. f_equal. by eapply IH.
Qed.

Lemma chain_suffix a : ∀ c x b, chain c (a ++ x :: b) → chain x (x :: b).
Proof.
  induction a as [|y a IH]; intros c x b Hc; cbn [app] in Hc.
  - destruct Hc as (-> & Hc). by split.
  - destruct Hc as (_ & _ & n & _ & Hc). by eapply IH.
Qed.

(** A chain that ends repeats no member. *)
Lemma chain_NoDup l : ∀ c, chain c l → NoDup l.
Proof.
  induction l as [|x l IH]; intros c Hc; [constructor|]. pose proof Hc as (-> & Hne & n & E & Hn). constructor; [|by eapply IH].
  intros Hin. apply list_elem_of_split in Hin as (a & b & ->). apply (chain_suffix a) in Hn.
  pose proof (chain_unique _ _ _ Hc Hn) as Eq. apply (f_equal length) in Eq. cbn [length] in Eq. rewrite length_app in Eq. cbn [length] in Eq. lia.
Qed.

Lemma next_orphan_safe `{!ReaderOk dev} c : Superblock.geometry_ok (Filesystem.sb fs) → 0 ≤ c →
  returns (next_orphan c) ∧ ∀ n, next_orphan c = Ok n → 0 ≤ n.
Proof.
  intros Hgeo Hc. destruct Hgeo. destruct (Filesystem.read_inode_raw_spec fs dev c) as [Hr Hraw]; [lia..|]. unfold next_orphan.
  destruct (Filesystem.read_inode_raw fs dev c) as [raw|e| |]; try done. destruct (Hraw raw eq_refl) as [Hz Hb]. cbn [mbind res_bind].
  case_decide; [done|]. rewrite u32_le_ok by lia. split; [done|]. intros n [= <-]. apply (le32_range raw 20 Hb).
Qed.

Lemma orphan_loop_spec fuel : (∀ c, 0 ≤ c → returns (next_orphan c) ∧ ∀ n, next_orphan c = Ok n → 0 ≤ n) → ∀ cur steps out, 0 ≤ cur → Superblock.inodes_count (Filesystem.sb fs) + 2 - steps ≤ Z.of_nat fuel →
  0 ≤ steps ≤ Superblock.inodes_count (Filesystem.sb fs) + 1 → Superblock.inodes_count (Filesystem.sb fs) < 2 ^ 32 - 1 →
  returns (orphan_loop fs dev fuel cur steps out) ∧
  ∀ l, orphan_loop fs dev fuel cur steps out = Ok l → ∃ l', l = out ++ l' ∧ chain cur l' ∧
    zlen l' ≤ Superblock.inodes_count (Filesystem.sb fs) + 1 - steps.
Proof.
  intros Hret. induction fuel as [|fuel IH]; intros cur steps out Hcur Hf Hs Hcap; cbn [orphan_loop]; case_decide as H0; try lia.
  { split; [done|]; intros l [= <-]; exists []; rewrite app_nil_r; split; [done|]; split; [done|]; change (zlen (@nil Z)) with 0; lia. }
  case_decide; [done|]. destruct (Hret cur Hcur) as [Hr Hn]. destruct (next_orphan cur) as [n|e| |] eqn:E; try done. cbn [mbind res_bind].
  assert (as_u32 (steps + 1) = steps + 1) as -> by (apply Z.mod_small; lia).
  destruct (IH n (steps + 1) (out ++ [cur])) as [Hr1 Hl1]; [by apply Hn|lia|lia|done|]. split; [done|]. intros l El.
  apply Hl1 in El as (l' & -> & Hc & Hz). exists (cur :: l'). rewrite <-app_assoc. split; [done|]. split; [|rewrite zlen_cons; lia].
  split; [done|]. split; [done|]. by exists n.
Qed.

(** With the largest count of inodes the step counter wraps before it passes
    the cap, and an inode linked to itself keeps the walk going for ever. *)
Lemma orphan_loop_unbounded cur : Superblock.inodes_count (Filesystem.sb fs) = 2 ^ 32 - 1 → cur ≠ 0 → next_orphan cur = Ok cur →
  ∀ fuel steps out, 0 ≤ steps < 2 ^ 32 → orphan_loop fs dev fuel cur steps out = OutOfFuel.
Proof.
  intros Hcap Hc Hn. induction fuel as [|fuel IH]; intros steps out Hs; cbn [orphan_loop]; rewrite decide_False by done; [done|].
  rewrite decide_False by lia. rewrite Hn. cbn [mbind res_bind]. apply IH. apply Z.mod_pos_bound. lia.
Qed.
End orphans.

(** ** Properties *)

(** C18: whatever is on the device, resolving a path on a mounted volume ends,
    with an inode number or an error: no bytes make the walk, the index, the
    inline directories or the attribute area panic or loop. *)
Theorem lookup_path_total `{Crc32c} fs dev `{!ReaderOk dev} path :
  Superblock.geometry_ok (Filesystem.sb fs) → returns (lookup_path_bytes fs dev path).
Proof. intros Hgeo. by apply lookup_path_safe. Qed.

(** An operation on the last name of a path works on the directory the path
    goes through: resolving the whole path is resolving the parent and taking
    one step with the name, which has no slash and no NUL and is not empty. *)
Lemma resolve_parent_spec `{Crc32c} fs dev path parent_ino base :
  resolve_parent fs dev path = Ok (parent_ino, base) →
  base ≠ [] ∧ 0 ∉ base ∧
  resolve fs dev path =
    lookup_step dev (Filesystem.sb fs) (Filesystem.csum fs) (λ ino, '(i, _) ← read_inode_verified fs dev ino; Ok i) parent_ino base.
Proof.
  unfold resolve_parent. intros Hr. apply bind_ok_inv in Hr as ([parent b] & Hs & Hr). apply bind_ok_inv in Hr as (p & Hp & Hr).
  injection Hr as <- <-. apply split_parent_and_base_spec in Hs as (E & Hne & Hnul). split; [done|]. split; [done|].
  unfold resolve, lookup_path_bytes, lookup_bytes_with_csum in *. rewrite E, foldM_app, Hp. cbn [mbind res_bind foldM].
  by destruct (lookup_step _ _ _ _ _ _).
Qed.

(** C20: for a directory kept in blocks, listed without error, with no name
    twice and the checksums of its blocks right: a lookup answers what the
    listing says: the inode listed under the name, or not found.  An index, of
    which only that it leads to leaves of the directory is assumed, changes no
    answer, except that one that cannot be followed makes the lookup fail with
    its error. *)
Theorem listing_agrees_with_lookup `{Crc32c} fs dev ino inode raw es name :
  Inode.has_inline_data inode = false → tails_valid fs dev ino inode →
  dir_entries fs dev ino inode raw = Ok es → names_unique es →
  (is_indexed inode = true → ∀ leaf, index_leaf dev (Filesystem.sb fs) inode name = Ok (Some leaf) →
     0 < leaf < total_blocks (Filesystem.sb fs) inode) →
  find_entry dev (Filesystem.sb fs) (Filesystem.csum fs) ino inode name =
  (_ ← index_answer dev (Filesystem.sb fs) (Filesystem.csum fs) ino inode name; ok_or (by_name name es) NotFound).
Proof.
  intros Hin Hv He Hu Hidx. destruct (dir_entries_listing _ _ _ _ _ _ Hin Hv He) as (blocks & -> & Hl).
  assert (Henc : refuse_encrypted_names inode = Ok tt).
  { unfold dir_entries in He. apply bind_ok_inv in He as ([] & He & _). exact He. }
  apply find_entry_listing; try done. intros Hi leaf Hleaf. specialize (Hidx Hi leaf Hleaf). destruct Hl as [Hz _]. lia.
Qed.

(** C34: on a volume of fewer than 2^32 - 1 inodes the walk of the orphan chain
    ends, however the links run: it answers with an error, or with the whole
    chain from the superblock's head to the zero that ends it, no inode twice.
    (At 2^32 - 1 the source's counter wraps: [orphan_loop_unbounded].) *)
Theorem orphan_list_spec `{Crc32c} fs dev `{!ReaderOk dev} :
  Superblock.geometry_ok (Filesystem.sb fs) → Superblock.inodes_count (Filesystem.sb fs) < 2 ^ 32 - 1 →
  0 ≤ Superblock.last_orphan (Filesystem.sb fs) →
  returns (orphan_list fs dev) ∧
  ∀ l, orphan_list fs dev = Ok l → chain fs dev (Superblock.last_orphan (Filesystem.sb fs)) l ∧ NoDup l.
Proof.
  intros Hgeo Hcap Hlast. pose proof (Superblock.geo_inodes _ Hgeo). unfold orphan_list.
  destruct (orphan_loop_spec fs dev (orphan_fuel fs)) with (cur := Superblock.last_orphan (Filesystem.sb fs)) (steps := 0) (out := @nil Z) as [Hr Hl];
    [|done|unfold orphan_fuel; lia|lia|done|].
  - intros c Hc. by apply next_orphan_safe.
  - split; [done|]. intros l El. apply Hl in El as (l' & -> & Hc & _). split; [done|]. by eapply chain_NoDup.
Qed.

(** ** A concrete volume

    One group of 1 KiB blocks; the root's inode (number 2, second of the table
    at block 10) maps one block, 40, which holds ".", ".." and "f" (inode 12);
    inode 11 heads an orphan chain whose next member is 12. *)
Definition sample_dir : bytes :=
  concat [new_chunk true 2 12 (lit ".") Directory; new_chunk true 2 12 (lit "..") Directory; new_chunk true 12 1000 (lit "f") RegFile].
Definition sample_root_inode : bytes :=
  le_split 2 0x41ED ++ zrep 2 0 ++ le_split 4 1024 ++ zrep 18 0 ++ le_split 2 2 ++ zrep 4 0 ++ le_split 4 InodeFlags.EXTENTS ++ zrep 4 0 ++
  Extent.sample_header 1 0 ++ Extent.sample_leaf 0 1 40 ++ zrep 36 0 ++ zrep 156 0.
Definition sample_mounted_image : bytes :=
  let img := splice (Bgd.sample_volume 256 64) (1024 + 0x60) (le_split 4 0x42) in
  let img := splice img (1024 + 0xE8) (le_split 4 11) in
  let img := splice img (10 * 1024 + 256) sample_root_inode in
  let img := splice img (12 * 1024 + 512 + 0x14) (le_split 4 12) in
  splice img (40 * 1024) sample_dir.
Definition sample_mounted : res Filesystem.t :=
  sb ← Superblock.parse (sub sample_mounted_image 1024 1024);
  g ← Bgd.parse (sub sample_mounted_image 2048 32) 32;
  Ok (Filesystem.mk sb [g] (mkChecksummer 0 false)).

Lemma sample_mounted_geometry fs : sample_mounted = Ok fs → Superblock.geometry_ok (Filesystem.sb fs).
Proof.
  unfold sample_mounted. intros Hm. apply bind_ok_inv in Hm as (sb & Hsb & Hm). apply bind_ok_inv in Hm as (g & _ & Hm). injection Hm as <-.
  eapply Superblock.parse_geometry; [|exact Hsb]. by_compute.
Qed.

Lemma sample_mounted_ok : ReaderOk (image_reader sample_mounted_image).
Proof. apply image_reader_ok. by_compute. Qed.

Lemma lookup_path_total_witness :
  ∃ fs, sample_mounted = Ok fs ∧
    @lookup_path_bytes castagnoli fs (image_reader sample_mounted_image) (lit "/f") = Ok 12 ∧
    returns (@lookup_path_bytes castagnoli fs (image_reader sample_mounted_image) (lit "//f/x/")).
Proof.
  destruct sample_mounted as [fs|e| |] eqn:Efs; try (vm_compute in Efs; discriminate). exists fs. split; [done|]. split.
  - vm_compute in Efs. injection Efs as <-. by vm_compute.
  - apply (@lookup_path_total castagnoli fs _ sample_mounted_ok). by apply sample_mounted_geometry.
Defined.

Lemma resolve_parent_spec_witness :
  ∃ fs, sample_mounted = Ok fs ∧
    @resolve castagnoli fs (image_reader sample_mounted_image) (lit "/./f/") =
      @lookup_step castagnoli (image_reader sample_mounted_image) (Filesystem.sb fs) (Filesystem.csum fs)
        (λ ino, '(i, _) ← @read_inode_verified castagnoli fs (image_reader sample_mounted_image) ino; Ok i) 2 (lit "f").
Proof.
  destruct sample_mounted as [fs|e| |] eqn:Efs; try (vm_compute in Efs; discriminate). exists fs. split; [done|].
  apply (@resolve_parent_spec castagnoli fs (image_reader sample_mounted_image) (lit "/./f/") 2 (lit "f")).
  vm_compute in Efs. injection Efs as <-. by vm_compute.
Defined.

Definition sample_listing : list DirEntry.t :=
  [DirEntry.mk 2 (lit ".") Directory; DirEntry.mk 2 (lit "..") Directory; DirEntry.mk 12 (lit "f") RegFile].

(** The same root with an index: block 40 holds a half-MD4 tree, blocks 41 and
    42 its leaves, "f" under the lower hashes and "g" under the upper. *)
Definition indexed_root_inode : bytes :=
  le_split 2 0x41ED ++ zrep 2 0 ++ le_split 4 3072 ++ zrep 18 0 ++ le_split 2 2 ++ zrep 4 0 ++
  le_split 4 (Z.lor InodeFlags.EXTENTS InodeFlags.INDEX) ++ zrep 4 0 ++
  Extent.sample_header 1 0 ++ Extent.sample_leaf 0 3 40 ++ zrep 36 0 ++ zrep 156 0.
Definition indexed_blocks : bytes :=
  new_chunk true 2 12 (lit ".") Directory ++ sub (new_chunk true 2 1012 (lit "..") Directory) 0 12 ++
  zrep 4 0 ++ [1; 8; 0; 0] ++ le_split 2 123 ++ le_split 2 2 ++ le_split 4 1 ++ le_split 4 2400000000 ++ le_split 4 2 ++ zrep (1024 - 48) 0 ++
  new_chunk true 12 1024 (lit "f") RegFile ++ new_chunk true 13 1024 (lit "g") RegFile.
Definition indexed_image : bytes := splice sample_mounted_image (40 * 1024) indexed_blocks.
Definition indexed_listing : list DirEntry.t := sample_listing ++ [DirEntry.mk 13 (lit "g") RegFile].

(** The two leaves answer for their names; "h", absent, hashes to the first. *)
Lemma listing_agrees_with_lookup_witness :
  ∃ fs i, sample_mounted = Ok fs ∧ Inode.parse indexed_root_inode = Ok i ∧ is_indexed i = true ∧
    @index_leaf castagnoli (image_reader indexed_image) (Filesystem.sb fs) i (lit "f") = Ok (Some 1) ∧
    @index_leaf castagnoli (image_reader indexed_image) (Filesystem.sb fs) i (lit "g") = Ok (Some 2) ∧
    @find_entry castagnoli (image_reader indexed_image) (Filesystem.sb fs) (Filesystem.csum fs) 2 i (lit "f") = Ok 12 ∧
    @find_entry castagnoli (image_reader indexed_image) (Filesystem.sb fs) (Filesystem.csum fs) 2 i (lit "g") = Ok 13 ∧
    @find_entry castagnoli (image_reader indexed_image) (Filesystem.sb fs) (Filesystem.csum fs) 2 i (lit "h") = Err NotFound.
Proof.
  destruct sample_mounted as [fs|e| |] eqn:Efs; try (vm_compute in Efs; discriminate).
  assert (Hi : ∃ i, Inode.parse indexed_root_inode = Ok i) by (eexists; vm_compute; reflexivity). destruct Hi as [i Ei].
  exists fs, i. do 2 (split; [done|]).
  assert (Hx : is_indexed i = true ∧ Inode.has_inline_data i = false ∧ enabled (Filesystem.csum fs) = false ∧
    @dir_entries castagnoli fs (image_reader indexed_image) 2 i indexed_root_inode = Ok indexed_listing ∧
    (@index_leaf castagnoli (image_reader indexed_image) (Filesystem.sb fs) i (lit "f") = Ok (Some 1) ∧
     @index_leaf castagnoli (image_reader indexed_image) (Filesystem.sb fs) i (lit "g") = Ok (Some 2) ∧
     @index_leaf castagnoli (image_reader indexed_image) (Filesystem.sb fs) i (lit "h") = Ok (Some 1)) ∧
    total_blocks (Filesystem.sb fs) i = 3 ∧
    @index_answer castagnoli (image_reader indexed_image) (Filesystem.sb fs) (Filesystem.csum fs) 2 i (lit "f") = Ok (Some 12) ∧
    @index_answer castagnoli (image_reader indexed_image) (Filesystem.sb fs) (Filesystem.csum fs) 2 i (lit "g") = Ok (Some 13) ∧
    @index_answer castagnoli (image_reader indexed_image) (Filesystem.sb fs) (Filesystem.csum fs) 2 i (lit "h") = Ok None).
  { vm_compute in Ei. injection Ei as <-. vm_compute in Efs. injection Efs as <-. split_and!; vm_compute; reflexivity. }
  destruct Hx as (Hidx & Hin & Hen & He & (Lf & Lg & Lh) & Ht & Af & Ag & Ah).
  split; [exact Hidx|]. split; [exact Lf|]. split; [exact Lg|].
  assert (Hv : @tails_valid castagnoli fs (image_reader indexed_image) 2 i) by (intros l p b _ _; by rewrite Hen).
  assert (Hu : names_unique indexed_listing).
  { intros a b Ha Hb. unfold indexed_listing, sample_listing in Ha, Hb. cbn [app] in Ha, Hb. rewrite !elem_of_cons, elem_of_nil in Ha, Hb.
    destruct Ha as [-> |[-> |[-> |[-> |[]]]]], Hb as [-> |[-> |[-> |[-> |[]]]]]; done. }
  split; [|split];
    (rewrite (@listing_agrees_with_lookup castagnoli fs _ 2 i indexed_root_inode indexed_listing);
      [rewrite ?Af, ?Ag, ?Ah; done|exact Hin|exact Hv|exact He|exact Hu|
       intros _ leaf; rewrite ?Lf, ?Lg, ?Lh, Ht; intros [= <-]; lia]).
Defined.

Lemma orphan_list_spec_witness :
  ∃ fs, sample_mounted = Ok fs ∧ Superblock.last_orphan (Filesystem.sb fs) = 11 ∧
    orphan_list fs (image_reader sample_mounted_image) = Ok [11; 12] ∧ NoDup [11; 12].
Proof.
  destruct sample_mounted as [fs|e| |] eqn:Efs; try (vm_compute in Efs; discriminate). exists fs. split; [done|].
  assert (Hl : Superblock.last_orphan (Filesystem.sb fs) = 11) by (vm_compute in Efs; injection Efs as <-; by vm_compute).
  assert (Ho : orphan_list fs (image_reader sample_mounted_image) = Ok [11; 12]) by (vm_compute in Efs; injection Efs as <-; by vm_compute).
  split; [done|]. split; [done|].
  destruct (@orphan_list_spec castagnoli fs _ sample_mounted_ok) as [_ Hs]; [by apply sample_mounted_geometry| |by rewrite Hl|].
  { clear - Efs. vm_compute in Efs. injection Efs as <-. vm_compute. reflexivity. }
  by destruct (Hs [11; 12] Ho).
Defined.
