(* ===== verification/FreeCounts.v ===== *)
(** FreeCounts: the staged bitmaps and counters of BlockBuffer.v agree.  A
    volume is consistent when every group's free count is the number of clear
    bits of the bitmap a mount would use for it, and the superblock's count is
    their sum; allocating a block and freeing runs keep it so. *)
From S2P Require Import Prelude Errors Bytes Device Features Superblock Checksum Bgd Extent Inode Indirect Alloc Filesystem BlockBuffer.

(** ** Edits inside one descriptor *)

(** [F off] edits the [n] bytes at [off] and nothing else, the same way
    wherever they are. *)
Record local (n : Z) (F : Z → bytes → res bytes) : Prop := {
  local_n : 0 ≤ n;
  local_total d : zlen d = n → ∃ d', F 0 d = Ok d' ∧ zlen d' = n;
  local_bytes d d' : bytes_ok d → F 0 d = Ok d' → bytes_ok d';
  local_at off bs : 0 ≤ off → off + n ≤ zlen bs →
    F off bs = (d ← F 0 (sub bs off n); Ok (splice bs off d));
}.

Lemma sub_splice_slot {A} (bs : list A) off n d : 0 ≤ off → off + n ≤ zlen bs → zlen d = n →
  sub (splice bs off d) off n = d.
Proof. intros. by apply sub_splice_same_len. Qed.

Lemma local_ret n : 0 ≤ n → local n (λ _ bs, Ok bs).
Proof.
  intros Hn. constructor; [done|eauto|naive_solver|]. intros off bs Ho Hb. rewrite bind_Ok. f_equal.
  apply list_eq. intros i. rewrite lookup_splice by (rewrite ?zlen_sub; lia). rewrite zlen_sub.
  case_decide; [|done]. rewrite lookup_sub. rewrite decide_True by lia. f_equal. lia.
Qed.

Lemma local_seq n F G : local n F → local n G → local n (λ off bs, bs ← F off bs; G off bs).
Proof.
  intros [Hn Ft Fb Fa] [_ Gt Gb Ga]. constructor; [done|..].
  - intros d Hd. destruct (Ft d Hd) as (d1 & -> & Hd1). rewrite bind_Ok. by apply Gt.
  - intros d d' Hd E. res_inv. eauto.
  - intros off bs Ho Hb. assert (Hs : zlen (sub bs off n) = n) by (rewrite zlen_sub; lia).
    destruct (Ft _ Hs) as (d1 & E1 & Hd1). rewrite Fa, E1, !bind_Ok by done.
    rewrite Ga by (rewrite ?zlen_splice; lia). rewrite sub_splice_slot by done.
    destruct (Gt d1 Hd1) as (d2 & -> & Hd2). rewrite !bind_Ok. by rewrite splice_overwrite by lia.
Qed.

Lemma local_put16 n k v : 0 ≤ k → k + 2 ≤ n → local n (λ off bs, put_u16 bs (off + k) v).
Proof.
  intros Hk Hn. constructor; [lia|..].
  - intros d Hd. rewrite put_u16_ok by lia. eexists. split; [done|]. rewrite zlen_splice; zl.
  - intros d d' Hd E. apply put_inv in E as (_ & _ & ->). auto using bytes_ok_splice, bytes_ok_le_split.
  - intros off bs Ho Hb. rewrite !put_u16_ok by (rewrite ?zlen_sub; lia). rewrite bind_Ok. f_equal.
    apply list_eq. intros i. rewrite !lookup_splice by zl. rewrite zlen_le_split.
    rewrite zlen_splice by zl. rewrite zlen_sub. rewrite !lookup_sub.
    repeat case_decide; try done; try lia; f_equal; lia.
Qed.

(** A read of the descriptor before an edit. *)
Lemma local_read16 n k F : 0 ≤ k → k + 2 ≤ n → (∀ v, local n (F v)) →
  local n (λ off bs, v ← u16_le bs (off + k); F v off bs).
Proof.
  intros Hk Hn HF. constructor; [lia|..].
  - intros d Hd. rewrite u16_le_ok, bind_Ok by lia. by apply HF.
  - intros d d' Hd E. res_inv. by eapply HF.
  - intros off bs Ho Hb. rewrite !u16_le_ok, !bind_Ok by (rewrite ?zlen_sub; lia).
    rewrite (local_at _ _ (HF _)) by done. by rewrite le16_sub by lia.
Qed.

Lemma local_if n (P : Prop) `{Decision P} F G : (P → local n F) → (¬ P → local n G) →
  local n (λ off bs, if decide P then F off bs else G off bs).
Proof. intros HF HG. destruct (decide P); auto. Qed.

Lemma local_ext n F G : (∀ off bs, F off bs = G off bs) → local n G → local n F.
Proof.
  intros E [Hn Gt Gb Ga]. constructor; [done|..]; intros *; rewrite !E; auto. apply Gb.
Qed.

(** ** What an edit leaves alone *)

(** [o, o + n) meets none of the windows. *)
Definition clear_of (ws : list (Z * Z)) (o n : Z) : bool :=
  forallb (λ '(w, l), (o + n <=? w) || (w + l <=? o)) ws.

Record frame (ws : list (Z * Z)) (d d' : bytes) : Prop := {
  frame_len : zlen d' = zlen d;
  frame_ok : bytes_ok d → bytes_ok d';
  frame_sub o n : 0 ≤ o → clear_of ws o n = true → sub d' o n = sub d o n;
}.

Lemma clear_of_app ws ws' o n : clear_of (ws ++ ws') o n = clear_of ws o n && clear_of ws' o n.
Proof. apply forallb_app. Qed.

Lemma frame_refl d : frame [] d d.
Proof. done. Qed.

Lemma frame_trans ws ws' d d1 d2 : frame ws d d1 → frame ws' d1 d2 → frame (ws ++ ws') d d2.
Proof.
  intros [L1 B1 S1] [L2 B2 S2]. constructor; [lia|auto|]. intros o n Ho. rewrite clear_of_app, andb_true_iff.
  intros [? ?]. by rewrite S2, S1.
Qed.

Lemma frame_mono ws ws' d d' : frame ws d d' → (∀ o n, clear_of ws' o n = true → clear_of ws o n = true) →
  frame ws' d d'.
Proof. intros [L B S] Hm. constructor; auto. Qed.

Lemma frame_put d o s : 0 ≤ o → o + zlen s ≤ zlen d → bytes_ok s → frame [(o, zlen s)] d (splice d o s).
Proof.
  intros Ho Hl Hs. constructor; [by apply zlen_splice|auto using bytes_ok_splice|].
  intros o' n Ho'. unfold clear_of. cbn [forallb]. rewrite andb_true_r, orb_true_iff, !Z.leb_le. intros.
  by apply sub_splice_disjoint.
Qed.

Lemma frame_le16 ws d d' k : frame ws d d' → 0 ≤ k → clear_of ws k 2 = true → le16 d' k = le16 d k.
Proof. intros [_ _ S] Hk Hc. unfold le16. by rewrite S. Qed.
Lemma frame_le32 ws d d' k : frame ws d d' → 0 ≤ k → clear_of ws k 4 = true → le32 d' k = le32 d k.
Proof. intros [_ _ S] Hk Hc. unfold le32. by rewrite S. Qed.

(** ** The fields of a descriptor *)

Section desc.
Context (n : Z) (Hn : n = 32 ∨ 64 ≤ n).

Definition count16 (d : bytes) (lo hi : Z) : Z := join16 (if decide (64 ≤ n) then le16 d hi else 0) (le16 d lo).
Definition ptr32 (d : bytes) (lo hi : Z) : Z := join32 (if decide (64 ≤ n) then le32 d hi else 0) (le32 d lo).

Definition bgd_of (d : bytes) : Bgd.t :=
  Bgd.mk (ptr32 d 0 0x20) (ptr32 d 4 0x24) (ptr32 d 8 0x28)
    (count16 d 0x0C 0x2C) (count16 d 0x0E 0x2E) (count16 d 0x10 0x30)
    (le16 d 0x12) (count16 d 0x1C 0x32) (count16 d 0x18 0x38) (count16 d 0x1A 0x3A) (le16 d 0x1E).

Lemma parse_desc d : zlen d = n → Bgd.parse d n = Ok (bgd_of d).
Proof.
  intros Hd. unfold Bgd.parse. rewrite decide_False by lia.
  unfold Bgd.OFF_FREE_BLOCKS_LO, Bgd.OFF_FREE_INODES_LO, Bgd.OFF_USED_DIRS_LO,
    Bgd.OFF_FREE_BLOCKS_HI, Bgd.OFF_FREE_INODES_HI, Bgd.OFF_USED_DIRS_HI. io. cbv zeta.
  unfold bgd_of, ptr32, count16. destruct (decide (64 ≤ n)); io; done.
Qed.

Lemma frame_count ws d d' lo hi : frame ws d d' → 0 ≤ lo → 0 ≤ hi →
  clear_of ws lo 2 = true → clear_of ws hi 2 = true → count16 d' lo hi = count16 d lo hi.
Proof. intros. unfold count16. by rewrite !(frame_le16 ws d d'). Qed.
Lemma frame_ptr ws d d' lo hi : frame ws d d' → 0 ≤ lo → 0 ≤ hi →
  clear_of ws lo 4 = true → clear_of ws hi 4 = true → ptr32 d' lo hi = ptr32 d lo hi.
Proof. intros. unfold ptr32. by rewrite !(frame_le32 ws d d'). Qed.

(** The largest count the fields can hold. *)
Definition count_max : Z := if decide (64 ≤ n) then 2 ^ 32 else 2 ^ 16.

Lemma count16_range d lo hi : bytes_ok d → 0 ≤ count16 d lo hi < count_max.
Proof.
  intros Hd. unfold count16, count_max. pose proof (le16_range d lo Hd). pose proof (le16_range d hi Hd).
  rewrite join16_eq by lia. case_decide; lia.
Qed.

Lemma put_split_spec d lo hi v : zlen d = n → 0 ≤ lo → lo + 2 ≤ 32 → 0 ≤ hi → hi + 2 ≤ 64 → 0 ≤ v < 2 ^ 32 →
  lo + 2 ≤ hi →
  ∃ d', put_split n 0 lo hi v d = Ok d' ∧ frame [(lo, 2); (hi, 2)] d d' ∧ count16 d' lo hi = v mod count_max.
Proof.
  intros Hd Hlo Hlo' Hhi Hhi' Hv Hlh. unfold put_split. rewrite !Z.add_0_l. unfold count16, count_max.
  rewrite put_u16_ok, bind_Ok by lia. change 0xFFFF with (2 ^ 16 - 1). rewrite !land_ones_mod by lia.
  rewrite Z.shiftr_div_pow2 by lia.
  assert (H1 : 0 ≤ v mod 2 ^ 16 < 2 ^ 16) by (apply Z.mod_pos_bound; lia).
  assert (H2 : 0 ≤ (v / 2 ^ 16) mod 2 ^ 16 < 2 ^ 16) by (apply Z.mod_pos_bound; lia).
  pose proof (frame_put d lo (le_split 2 (v mod 2 ^ 16)) ltac:(lia) ltac:(zl) (bytes_ok_le_split _ _)) as F1.
  rewrite zlen_le_split in F1. set (d1 := splice d lo _) in *. pose proof (frame_len _ _ _ F1) as L1.
  assert (E1 : le16 d1 lo = v mod 2 ^ 16) by (apply le16_splice; lia).
  case_decide as Hw.
  - rewrite put_u16_ok by lia. eexists. split; [done|]. split.
    + change [(lo, 2); (hi, 2)] with ([(lo, 2)] ++ [(hi, 2)]). eapply frame_trans; [exact F1|].
      apply (frame_put d1 hi (le_split 2 ((v / 2 ^ 16) mod 2 ^ 16))); [lia|zl|apply bytes_ok_le_split].
    + rewrite le16_splice by lia. rewrite le16_splice_ne by (rewrite ?zlen_le_split; lia). rewrite E1.
      rewrite join16_eq by lia. rewrite (Z.mod_small v (2 ^ 32)) by lia.
      rewrite (Z.mod_small (v / 2 ^ 16)) by (split; [apply Z.div_pos; lia|apply Z.div_lt_upper_bound; lia]).
      pose proof (Z.div_mod v (2 ^ 16) ltac:(lia)). lia.
  - eexists. split; [done|]. split; [|by rewrite E1, join16_eq by lia].
    eapply frame_mono; [exact F1|]. intros o m. unfold clear_of. cbn [forallb]. rewrite !andb_true_iff. naive_solver.
Qed.

Lemma patch_counter_split d lo hi delta :
  patch_counter_u32 d lo (if decide (64 ≤ n) then Some hi else None) delta =
  (cur_lo ← u16_le d lo;
   cur_hi ← (if decide (64 ≤ n) then u16_le d hi else Ok 0);
   put_split n 0 lo hi (Z.max 0 (Z.min (join16 cur_hi cur_lo + delta) u32_max)) d).
Proof.
  unfold patch_counter_u32, put_split. rewrite !Z.add_0_l.
  destruct (u16_le d lo); [|done..]. destruct (decide (64 ≤ n)); [|done]. by destruct (u16_le d hi).
Qed.

(** A counter moves by its delta, within the range of its fields. *)
Lemma patch_counter_spec d lo hi delta : zlen d = n → bytes_ok d →
  0 ≤ lo → lo + 2 ≤ 32 → 0 ≤ hi → hi + 2 ≤ 64 → lo + 2 ≤ hi →
  ∃ d', patch_counter_u32 d lo (if decide (64 ≤ n) then Some hi else None) delta = Ok d' ∧
    frame [(lo, 2); (hi, 2)] d d' ∧
    count16 d' lo hi = Z.max 0 (Z.min (count16 d lo hi + delta) u32_max) mod count_max.
Proof.
  intros Hd Hb Hlo Hlo' Hhi Hhi' Hlh. rewrite patch_counter_split.
  rewrite (u16_le_ok d lo), bind_Ok by lia.
  assert (E : (if decide (64 ≤ n) then u16_le d hi else Ok 0) = Ok (if decide (64 ≤ n) then le16 d hi else 0)).
  { case_decide; [|done]. by rewrite u16_le_ok by lia. }
  rewrite E, bind_Ok. apply put_split_spec; try lia. unfold u32_max. lia.
Qed.
End desc.

Section local_ops.
Context (n : Z) (Hn : n = 32 ∨ 64 ≤ n).

Lemma local_split lo hi v : 0 ≤ lo → lo + 2 ≤ 32 → 0 ≤ hi → hi + 2 ≤ 64 →
  local n (λ off bs, put_split n off lo hi v bs).
Proof.
  intros. unfold put_split. apply (local_seq n (λ off bs, put_u16 bs (off + lo) _)
    (λ off bs, if decide (64 ≤ n) then put_u16 bs (off + hi) _ else Ok bs)); [apply local_put16; lia|].
  apply (local_if n _ (λ off bs, put_u16 bs (off + hi) _) (λ _ bs, Ok bs)); intros;
    [apply local_put16; lia|apply local_ret; lia].
Qed.

Lemma local_patch lo hi delta : 0 ≤ lo → lo + 2 ≤ 32 → 0 ≤ hi → hi + 2 ≤ 64 →
  local n (λ off bs, patch_counter_u32 bs (off + lo) (if decide (64 ≤ n) then Some (off + hi) else None) delta).
Proof.
  intros. apply (local_ext n _ (λ off bs,
    cur_lo ← u16_le bs (off + lo);
    (if decide (64 ≤ n) then
       cur_hi ← u16_le bs (off + hi);
       put_split n off lo hi (Z.max 0 (Z.min (join16 cur_hi cur_lo + delta) u32_max)) bs
     else put_split n off lo hi (Z.max 0 (Z.min (join16 0 cur_lo + delta) u32_max)) bs))).
  - intros off bs. unfold patch_counter_u32, put_split. destruct (u16_le bs (off + lo)); [|done..].
    by destruct (decide (64 ≤ n)).
  - apply (local_read16 n lo (λ cur_lo off bs,
      if decide (64 ≤ n) then
        cur_hi ← u16_le bs (off + hi);
        put_split n off lo hi (Z.max 0 (Z.min (join16 cur_hi cur_lo + delta) u32_max)) bs
      else put_split n off lo hi (Z.max 0 (Z.min (join16 0 cur_lo + delta) u32_max)) bs)); [lia|lia|].
    intros cur_lo. apply local_if; intros.
    + apply (local_read16 n hi (λ cur_hi off bs,
        put_split n off lo hi (Z.max 0 (Z.min (join16 cur_hi cur_lo + delta) u32_max)) bs)); [lia|lia|].
      intros cur_hi. by apply local_split.
    + by apply local_split.
Qed.

Lemma local_counters a b c : local n (λ off bs, patch_bgd_counter_fields bs off n a b c).
Proof.
  unfold patch_bgd_counter_fields. cbv zeta.
  apply (local_seq n (λ off bs, patch_counter_u32 bs (off + Bgd.OFF_FREE_BLOCKS_LO)
    (if decide (64 ≤ n) then Some (off + Bgd.OFF_FREE_BLOCKS_HI) else None) a)
    (λ off bs, bs ← patch_counter_u32 bs (off + Bgd.OFF_FREE_INODES_LO)
      (if decide (64 ≤ n) then Some (off + Bgd.OFF_FREE_INODES_HI) else None) b;
      patch_counter_u32 bs (off + Bgd.OFF_USED_DIRS_LO)
        (if decide (64 ≤ n) then Some (off + Bgd.OFF_USED_DIRS_HI) else None) c)).
  { by apply local_patch. }
  apply (local_seq n (λ off bs, patch_counter_u32 bs (off + Bgd.OFF_FREE_INODES_LO)
    (if decide (64 ≤ n) then Some (off + Bgd.OFF_FREE_INODES_HI) else None) b)
    (λ off bs, patch_counter_u32 bs (off + Bgd.OFF_USED_DIRS_LO)
      (if decide (64 ≤ n) then Some (off + Bgd.OFF_USED_DIRS_HI) else None) c)); by apply local_patch.
Qed.

(** The windows of the three counters. *)
Definition counter_windows : list (Z * Z) :=
  [(0x0C, 2); (0x2C, 2); (0x0E, 2); (0x2E, 2); (0x10, 2); (0x30, 2)].

Definition bumped (count delta : Z) : Z := Z.max 0 (Z.min (count + delta) u32_max) mod count_max n.

Lemma bumped_id count delta : 0 ≤ count + delta < count_max n → bumped count delta = count + delta.
Proof.
  intros Hc. unfold bumped. rewrite Z.mod_small; unfold count_max, u32_max in *; case_decide; lia.
Qed.

Lemma counters_spec d a b c : zlen d = n → bytes_ok d →
  ∃ d', patch_bgd_counter_fields d 0 n a b c = Ok d' ∧ frame counter_windows d d' ∧
    count16 n d' 0x0C 0x2C = bumped (count16 n d 0x0C 0x2C) a ∧
    count16 n d' 0x0E 0x2E = bumped (count16 n d 0x0E 0x2E) b ∧
    count16 n d' 0x10 0x30 = bumped (count16 n d 0x10 0x30) c.
Proof.
  intros Hd Hb. unfold patch_bgd_counter_fields. rewrite !Z.add_0_l. cbv zeta.
  destruct (patch_counter_spec n Hn d 0x0C 0x2C a Hd Hb) as (d1 & E1 & F1 & C1); try lia.
  destruct (patch_counter_spec n Hn d1 0x0E 0x2E b) as (d2 & E2 & F2 & C2); try lia;
    [rewrite (frame_len _ _ _ F1); done|by apply F1|].
  destruct (patch_counter_spec n Hn d2 0x10 0x30 c) as (d3 & E3 & F3 & C3); try lia;
    [rewrite (frame_len _ _ _ F2), (frame_len _ _ _ F1); done|by apply F2, F1|].
  unfold Bgd.OFF_FREE_BLOCKS_LO, Bgd.OFF_FREE_INODES_LO, Bgd.OFF_USED_DIRS_LO,
    Bgd.OFF_FREE_BLOCKS_HI, Bgd.OFF_FREE_INODES_HI, Bgd.OFF_USED_DIRS_HI.
  rewrite E1, bind_Ok, E2, bind_Ok, E3. exists d3. split; [done|]. split.
  { apply (frame_trans [_; _] [_; _; _; _]) with d1; [done|]. by apply (frame_trans [_; _] [_; _]) with d2. }
  split; [|split].
  - rewrite (frame_count n _ d2 d3) by (done || lia). rewrite (frame_count n _ d1 d2) by (done || lia). exact C1.
  - rewrite (frame_count n _ d2 d3) by (done || lia). rewrite C2. by rewrite (frame_count n _ d d1) by (done || lia).
  - rewrite C3. rewrite (frame_count n _ d1 d2) by (done || lia). by rewrite (frame_count n _ d d1) by (done || lia).
Qed.
End local_ops.

(** ** Bits and their count *)

Definition count_false (f : Z → bool) (m : Z) : Z := zlen (filter (λ j, f j = false) (seqZ 0 m)).
Definition count_clear (bm : bytes) (m : Z) : Z := count_false (bit bm) m.

Lemma filter_seqZ_same (P Q : Z → Prop) `{∀ x, Decision (P x), ∀ x, Decision (Q x)} lo m :
  (∀ j, lo ≤ j < lo + m → P j ↔ Q j) → filter P (seqZ lo m) = filter Q (seqZ lo m).
Proof.
  intros Hpq. assert (Hl : ∀ j, j ∈ seqZ lo m → P j ↔ Q j) by (intros j Hj%elem_of_seqZ; by apply Hpq).
  clear Hpq. induction (seqZ lo m) as [|x l IH]; [done|].
  rewrite !filter_cons, IH by set_solver. destruct (Hl x ltac:(set_solver)). repeat case_decide; tauto.
Qed.

Lemma filter_keeps_all (P : Z → Prop) `{∀ x, Decision (P x)} (l : list Z) : (∀ j, j ∈ l → P j) → filter P l = l.
Proof.
  induction l as [|x l IH]; intros Hp; [done|]. rewrite filter_cons_True by (apply Hp; set_solver).
  f_equal. apply IH. set_solver.
Qed.
Lemma filter_none (P : Z → Prop) `{∀ x, Decision (P x)} (l : list Z) : (∀ j, j ∈ l → ¬ P j) → filter P l = [].
Proof.
  induction l as [|x l IH]; intros Hp; [done|]. rewrite filter_cons_False by (apply Hp; set_solver).
  apply IH. set_solver.
Qed.

Lemma count_false_ext f f' m : (∀ j, 0 ≤ j < m → f' j = f j) → count_false f' m = count_false f m.
Proof. intros E. unfold count_false. f_equal. apply filter_seqZ_same. intros j Hj. by rewrite E by lia. Qed.

(** A run of false places made true, everything else below [m] as before. *)
Lemma count_false_run f f' m s c : 0 ≤ s → 0 ≤ c → s + c ≤ m →
  (∀ j, s ≤ j < s + c → f j = false ∧ f' j = true) →
  (∀ j, 0 ≤ j < m → ¬ s ≤ j < s + c → f' j = f j) →
  count_false f' m = count_false f m - c.
Proof.
  intros Hs Hc Hm Hrun Hrest. unfold count_false.
  assert (Hsplit : seqZ 0 m = seqZ 0 s ++ seqZ s c ++ seqZ (s + c) (m - s - c)).
  { replace m with (s + (c + (m - s - c))) at 1 by lia. rewrite seqZ_app by lia. f_equal.
    rewrite Z.add_0_l. by rewrite seqZ_app by lia. }
  rewrite Hsplit, !filter_app, !zlen_app.
  rewrite (filter_none _ (seqZ s c)) by (intros j Hj%elem_of_seqZ; destruct (Hrun j) as [_ ->]; [lia|done]).
  rewrite (filter_keeps_all _ (seqZ s c)) by (intros j Hj%elem_of_seqZ; by apply Hrun).
  rewrite (filter_seqZ_same (λ j, f' j = false) (λ j, f j = false) 0 s) by (intros j Hj; by rewrite Hrest by lia).
  rewrite (filter_seqZ_same (λ j, f' j = false) (λ j, f j = false) (s + c)) by (intros j Hj; by rewrite Hrest by lia).
  change (zlen (@nil Z)) with 0. assert (zlen (seqZ s c) = c) by (unfold zlen; rewrite length_seqZ; lia). lia.
Qed.

Lemma count_false_range f m : 0 ≤ m → 0 ≤ count_false f m ≤ m.
Proof.
  intros Hm. unfold count_false, zlen. pose proof (length_filter (λ j, f j = false) (seqZ 0 m)).
  rewrite length_seqZ in *. lia.
Qed.

Lemma write_bit_spec set bm i : bytes_ok bm → 0 ≤ i →
  ∃ bm', write_bit set bm i = Ok bm' ∧ bytes_ok bm' ∧ zlen bm' = zlen bm ∧
    ∀ j, 0 ≤ j < zlen bm * 8 → bit bm' j = if decide (j = i) then set else bit bm j.
Proof.
  intros Hb Hi. unfold write_bit. pose proof (Z.div_pos i 8 Hi ltac:(lia)). pose proof (Z.mod_pos_bound i 8 ltac:(lia)).
  case_decide as Hd.
  - rewrite get_byte, bind_Ok by lia. rewrite put_ok by (change (zlen [_]) with 1; lia).
    destruct (put_bit set (byte_at bm (i / 8)) (i mod 8)) as [Hr Hx]; [by apply byte_at_range|lia|].
    eexists. split; [done|]. split; [by apply bytes_ok_splice; [|apply Forall_singleton]|].
    split; [rewrite zlen_splice; [done|lia|change (zlen [_]) with 1; lia]|]. intros j Hj.
    rewrite bit_set_byte; [|lia|done|lia|].
    + rewrite Hx by lia. by rewrite (decide_True (P := i mod 8 = i mod 8)).
    + intros k Hk Hne. rewrite Hx by lia. by rewrite decide_False.
  - eexists. split; [done|]. split; [done|]. split; [done|]. intros j Hj. rewrite decide_False; [done|].
    intros ->. apply Hd, div8_lt. lia.
Qed.

Lemma write_bits_spec set start len bm : bytes_ok bm → 0 ≤ start → 0 ≤ len →
  ∃ bm', write_bits set start len bm = Ok bm' ∧ bytes_ok bm' ∧ zlen bm' = zlen bm ∧
    ∀ j, 0 ≤ j < zlen bm * 8 → bit bm' j = if decide (start ≤ j < start + len) then set else bit bm j.
Proof.
  intros Hb Hs Hl. unfold write_bits.
  destruct (foldM_seqZ_ok (λ k b, bytes_ok b ∧ zlen b = zlen bm ∧
    ∀ j, 0 ≤ j < zlen bm * 8 → bit b j = if decide (start ≤ j < k) then set else bit bm j)
    (write_bit set) start len bm) as (b' & E & H1 & H2 & H3); [done|..|by exists b'].
  - split; [done|]. split; [done|]. intros j Hj. by rewrite decide_False by lia.
  - intros k b Hk (Hb1 & Hl1 & Hbit). destruct (write_bit_spec set b k Hb1) as (b' & -> & Hb' & Hl' & Hbit'); [lia|].
    exists b'. split; [done|]. split; [done|]. split; [lia|]. intros j Hj. rewrite Hbit' by lia. rewrite Hbit by lia.
    repeat case_decide; done || lia.
Qed.

Section volume.
Context `{Crc32c} (fs : Filesystem.t) (dev : reader).
Local Abbreviation sb := (Filesystem.sb fs).
Local Abbreviation groups := (Filesystem.groups fs).
Local Abbreviation csum := (Filesystem.csum fs).
Local Abbreviation n := (Superblock.desc_size sb).
Local Abbreviation view := (view fs dev).
Context (Hgeo : Superblock.geometry_ok sb) {Hdev : ReaderOk dev}.

Lemma desc_width : n = 32 ∨ 64 ≤ n.
Proof. destruct (Superblock.geo_desc _ Hgeo) as [[_ ?]|[_ [? _]]]; lia. Qed.

Lemma group_csum_ok gi d : zlen d = n → ∃ c, group_desc_csum sb csum gi d = Ok c.
Proof.
  intros Hd. pose proof desc_width. unfold group_desc_csum. case_decide; [eauto|]. io.
  destruct (has_bits _ _); [eauto|]. destruct (has_bits _ _); simpl; eauto.
Qed.

Lemma restamp_spec gi d : zlen d = n → ∃ d', restamp_group_desc_csum fs gi 0 d = Ok d' ∧ frame [(0x1E, 2)] d d'.
Proof.
  intros Hd. pose proof desc_width. unfold restamp_group_desc_csum. rewrite slice_ok, bind_Ok by lia.
  destruct (group_csum_ok (as_u32 gi) (sub d 0 n)) as ([c|] & ->); [rewrite zlen_sub; lia|..]; rewrite bind_Ok.
  - rewrite put_u16_ok by lia. eexists. split; [done|].
    apply (frame_put d 0x1E (le_split 2 c)); [lia|zl|apply bytes_ok_le_split].
  - exists d. split; [done|]. eapply frame_mono; [apply frame_refl|]. done.
Qed.

Lemma local_restamp gi : local n (λ off bs, restamp_group_desc_csum fs gi off bs).
Proof.
  pose proof desc_width. constructor; [lia|..].
  - intros d Hd. destruct (restamp_spec gi d Hd) as (d' & E & F). exists d'. split; [done|].
    by rewrite (frame_len _ _ _ F).
  - intros d d' Hb E. unfold restamp_group_desc_csum in E. apply bind_ok_inv in E as (s & Es & E).
    apply bind_ok_inv in E as ([c|] & Ec & E); [|by injection E as <-].
    apply put_inv in E as (_ & _ & ->). auto using bytes_ok_splice, bytes_ok_le_split.
  - intros off bs Ho Hb. unfold restamp_group_desc_csum. rewrite !slice_ok, !bind_Ok by (rewrite ?zlen_sub; lia).
    assert (Hs : zlen (sub bs off n) = n) by (rewrite zlen_sub; lia).
    rewrite (sub_all (sub bs off n)) by lia. destruct (group_csum_ok (as_u32 gi) (sub bs off n) Hs) as ([c|] & ->); rewrite !bind_Ok.
    + apply (local_at n (λ off bs, put_u16 bs (off + 0x1E) c)); [apply local_put16; lia|done|done].
    + apply (local_at n (λ _ bs, Ok bs)); [apply local_ret; lia|done|done].
Qed.

(** ** Views *)

(** What an edit of one block does to the buffer. *)
Record wrote (buf buf' : BlockBuffer) (b : Z) (bs : bytes) : Prop := {
  wrote_view b' : view buf' b' = if decide (b' = b) then Ok bs else view buf b';
  wrote_uninit : uninit_cleared buf' = uninit_cleared buf;
}.

Lemma get_mut_spec buf b bs : view buf b = Ok bs →
  ∃ buf', get_mut fs dev buf b = Ok (bs, buf') ∧ (∀ b', view buf' b' = view buf b') ∧
    uninit_cleared buf' = uninit_cleared buf.
Proof.
  unfold view, get_mut. destruct (dirty buf !! b) as [x|] eqn:E.
  - intros [= ->]. by exists buf.
  - intros Er. rewrite Er, bind_Ok. eexists. split; [done|]. split; [|done]. intros b'. cbn [dirty].
    destruct (decide (b' = b)) as [->|]; [by rewrite lookup_insert_eq, E, Er|by rewrite lookup_insert_ne].
Qed.

Lemma edit_spec buf b f bs bs' : view buf b = Ok bs → f bs = Ok bs' →
  ∃ buf', edit fs dev b f buf = Ok buf' ∧ wrote buf buf' b bs'.
Proof.
  intros Hv Hf. unfold edit. destruct (get_mut_spec buf b bs Hv) as (buf1 & -> & Hv1 & Hu). rewrite bind_Ok.
  cbn beta iota. rewrite Hf, bind_Ok. eexists. split; [done|]. split; [|done]. intros b'. rewrite <-Hv1.
  unfold view, put_block. cbn [dirty]. destruct (decide (b' = b)) as [->|]; [by rewrite lookup_insert_eq|by rewrite lookup_insert_ne].
Qed.

(** The descriptor of a group as staged. *)
Definition desc_now (buf : BlockBuffer) (gi : Z) (d : bytes) : Prop :=
  ∃ blk off bs, Superblock.descriptor_location sb gi = Ok (blk, off) ∧ view buf blk = Ok bs ∧
    0 ≤ off ∧ off + n ≤ zlen bs ∧ bytes_ok bs ∧ d = sub bs off n.

(** An edit of the descriptor block inside the slot of group [gi]. *)
Lemma edit_desc buf gi d F : local n F → desc_now buf gi d →
  ∃ blk off d' bs buf', Superblock.descriptor_location sb gi = Ok (blk, off) ∧ F 0 d = Ok d' ∧
    view buf blk = Ok bs ∧ 0 ≤ off ∧ off + n ≤ zlen bs ∧ d = sub bs off n ∧ zlen d' = n ∧ bytes_ok bs ∧
    edit fs dev blk (F off) buf = Ok buf' ∧ wrote buf buf' blk (splice bs off d') ∧ desc_now buf' gi d'.
Proof.
  intros HF (blk & off & bs & El & Ev & Ho & Hb & Hok & ->). pose proof desc_width.
  assert (Hs : zlen (sub bs off n) = n) by (rewrite zlen_sub; lia).
  destruct (local_total _ _ HF _ Hs) as (d' & E & Hd').
  assert (EF : F off bs = Ok (splice bs off d')) by (rewrite (local_at _ _ HF) by done; by rewrite E, bind_Ok).
  destruct (edit_spec buf blk (F off) bs _ Ev EF) as (buf' & Ee & W).
  exists blk, off, d', bs, buf'. split_and!; try done. exists blk, off, (splice bs off d').
  split; [done|]. split; [by rewrite (wrote_view _ _ _ _ W), decide_True|]. split; [done|].
  rewrite zlen_splice by lia. split; [done|]. split.
  - apply bytes_ok_splice; [done|]. eapply local_bytes; [exact HF| |exact E]. by apply bytes_ok_sub.
  - symmetry. by apply sub_splice_slot.
Qed.

(** ** The layout of the metadata blocks *)

Definition sb_block : Z := Superblock.SUPERBLOCK_OFFSET / Filesystem.block_size fs.
Definition is_group (gi : Z) : Prop := 0 ≤ gi < zlen groups.
Definition is_desc_block (b : Z) : Prop := ∃ gi off, is_group gi ∧ Superblock.descriptor_location sb gi = Ok (b, off).
Definition is_bitmap (b : Z) : Prop := ∃ g, g ∈ groups ∧ (b = Bgd.block_bitmap g ∨ b = Bgd.inode_bitmap g).

(** Superblock, descriptor blocks and bitmaps are different blocks, and no two
    groups share a bitmap or a descriptor slot. *)
Record layout_ok : Prop := {
  lo_count : zlen groups = Superblock.block_group_count sb;
  lo_many : 0 < zlen groups ≤ 2 ^ 31;
  lo_slots gi gj b o o' : is_group gi → is_group gj → gi ≠ gj →
    Superblock.descriptor_location sb gi = Ok (b, o) → Superblock.descriptor_location sb gj = Ok (b, o') →
    o + n ≤ o' ∨ o' + n ≤ o;
  lo_bitmaps i j g g' : groups !! i = Some g → groups !! j = Some g' → i ≠ j →
    Bgd.block_bitmap g ≠ Bgd.block_bitmap g' ∧ Bgd.inode_bitmap g ≠ Bgd.inode_bitmap g';
  lo_kinds g g' : g ∈ groups → g' ∈ groups → Bgd.block_bitmap g ≠ Bgd.inode_bitmap g';
  lo_desc b : is_desc_block b → ¬ is_bitmap b;
  lo_super : ¬ is_desc_block sb_block ∧ ¬ is_bitmap sb_block;
  lo_fits : Superblock.blocks_per_group sb ≤ 8 * Superblock.block_size sb;
  lo_width : Superblock.blocks_per_group sb < count_max n;
}.
Context (Hlay : layout_ok).

(** Only group [gi]'s descriptor and the blocks of [bs] changed. *)
Record only (gi : Z) (bs : list Z) (buf buf' : BlockBuffer) : Prop := {
  only_view b : b ∉ bs → (∀ off, Superblock.descriptor_location sb gi ≠ Ok (b, off)) → view buf' b = view buf b;
  only_desc gj d : is_group gj → gj ≠ gi → desc_now buf gj d → desc_now buf' gj d;
  only_ok : reader_ok (view buf) → reader_ok (view buf');
}.

Lemma only_refl gi buf : only gi [] buf buf.
Proof. done. Qed.

Lemma only_trans gi bs bs' buf buf1 buf2 : only gi bs buf buf1 → only gi bs' buf1 buf2 → only gi (bs ++ bs') buf buf2.
Proof.
  intros [V D R] [V' D' R']. constructor.
  - intros b Hb Hd. rewrite V', V; [done|set_solver..|done].
  - intros. apply D'; auto.
  - auto.
Qed.

Lemma wrote_ok buf buf' b bs : wrote buf buf' b bs → bytes_ok bs → reader_ok (view buf) → reader_ok (view buf').
Proof. intros [V _] Hb Hr b'. rewrite V. case_decide; [done|apply Hr]. Qed.

Lemma only_wrote gi b bs buf buf' : wrote buf buf' b bs → bytes_ok bs → ¬ is_desc_block b → only gi [b] buf buf'.
Proof.
  intros W Hbs Hb. pose proof (wrote_view _ _ _ _ W) as V. constructor; [| |by eapply wrote_ok].
  - intros b' Hb' _. rewrite V. rewrite decide_False; [done|set_solver].
  - intros gj d Hgj _ (blk & off & bs' & El & Ev & Hrest). exists blk, off, bs'. split; [done|].
    split; [|done]. rewrite V, decide_False; [done|]. intros ->. apply Hb. by exists gj, off.
Qed.

(** The same view through two buffers. *)
Lemma only_same gi buf buf' : (∀ b, view buf' b = view buf b) → only gi [] buf buf'.
Proof.
  intros V. constructor; [done| |intros Hr b; rewrite V; apply Hr]. intros gj d _ _ (blk & off & bs & El & Ev & Hr). exists blk, off, bs.
  by rewrite V.
Qed.

(** An edit of a group's descriptor, with what it leaves alone. *)
Lemma edit_desc_only buf gi d F ws : is_group gi → local n F → desc_now buf gi d →
  (∀ d', F 0 d = Ok d' → frame ws d d') →
  ∃ blk off d' buf', Superblock.descriptor_location sb gi = Ok (blk, off) ∧ F 0 d = Ok d' ∧
    edit fs dev blk (F off) buf = Ok buf' ∧ frame ws d d' ∧ desc_now buf' gi d' ∧
    only gi [] buf buf' ∧ uninit_cleared buf' = uninit_cleared buf.
Proof.
  intros Hgi HF Hd Hfr. destruct (edit_desc buf gi d F HF Hd) as
    (blk & off & d' & bs & buf' & El & EF & Ev & Ho & Hb & -> & Hd' & Hok & Ee & W & Hn).
  assert (Hnew : bytes_ok (splice bs off d')).
  { apply bytes_ok_splice; [done|]. apply (frame_ok _ _ _ (Hfr _ EF)). by apply bytes_ok_sub. }
  exists blk, off, d', buf'. split_and!; try done; [by apply Hfr| |by apply W]. constructor; [| |by eapply wrote_ok].
  - intros b _ Hne. rewrite (wrote_view _ _ _ _ W). rewrite decide_False; [done|]. intros ->. by apply (Hne off).
  - intros gj dj Hgj Hne (blk' & off' & bs' & El' & Ev' & Ho' & Hb' & Hok' & ->).
    destruct (decide (blk' = blk)) as [->|Hblk].
    + exists blk, off', (splice bs off d'). rewrite Ev in Ev'. injection Ev' as <-.
      split; [done|]. split; [by rewrite (wrote_view _ _ _ _ W), decide_True|]. split; [done|].
      rewrite zlen_splice by lia. split; [done|]. split; [done|].
      rewrite sub_splice_disjoint; [done|lia..|].
      destruct (lo_slots Hlay gi gj blk off off'); [done..|by symmetry|done|done|lia|lia].
    + exists blk', off', bs'. split; [done|]. split; [by rewrite (wrote_view _ _ _ _ W), decide_False|done].
Qed.

Lemma desc_len buf gi d : desc_now buf gi d → zlen d = n ∧ bytes_ok d.
Proof.
  intros (blk & off & bs & _ & _ & Ho & Hb & Hok & ->). pose proof desc_width.
  split; [rewrite zlen_sub; lia|by apply bytes_ok_sub].
Qed.

(** *** Counters and checksums *)

Lemma patch_counters_spec buf gi d a b c : is_group gi → desc_now buf gi d →
  ∃ buf' d', buffer_patch_bgd_counters fs dev buf gi a b c = Ok buf' ∧ desc_now buf' gi d' ∧
    frame (counter_windows ++ [(0x1E, 2)]) d d' ∧
    count16 n d' 0x0C 0x2C = bumped n (count16 n d 0x0C 0x2C) a ∧
    count16 n d' 0x0E 0x2E = bumped n (count16 n d 0x0E 0x2E) b ∧
    count16 n d' 0x10 0x30 = bumped n (count16 n d 0x10 0x30) c ∧
    only gi [] buf buf' ∧ uninit_cleared buf' = uninit_cleared buf.
Proof.
  intros Hgi Hd. destruct (desc_len _ _ _ Hd) as [Hl Hb]. pose proof desc_width as Hn.
  destruct (counters_spec n Hn d a b c Hl Hb) as (d1 & E1 & F1 & C1 & C2 & C3).
  destruct (restamp_spec gi d1) as (d2 & E2 & F2); [by rewrite (frame_len _ _ _ F1)|].
  set (F := λ (off : Z) (bs : bytes), bs ← patch_bgd_counter_fields bs off n a b c; restamp_group_desc_csum fs gi off bs).
  assert (EF : F 0 d = Ok d2) by (unfold F; by rewrite E1, bind_Ok).
  assert (Hfr : frame (counter_windows ++ [(0x1E, 2)]) d d2) by (by eapply frame_trans).
  destruct (edit_desc_only buf gi d F (counter_windows ++ [(0x1E, 2)]) Hgi) as
    (blk & off & d' & buf' & El & EF' & Ee & Hf & Hnow & Ho & Hu).
  { apply (local_seq n (λ off bs, patch_bgd_counter_fields bs off n a b c)); [by apply local_counters|apply local_restamp]. }
  { done. } { intros d' E. rewrite EF in E. by injection E as <-. }
  rewrite EF in EF'. injection EF' as <-. exists buf', d2. unfold buffer_patch_bgd_counters. rewrite El, bind_Ok.
  split; [exact Ee|]. split; [done|]. split; [done|].
  split; [by rewrite (frame_count n _ d1 d2) by (done || lia)|].
  split; [by rewrite (frame_count n _ d1 d2) by (done || lia)|].
  split; [by rewrite (frame_count n _ d1 d2) by (done || lia)|done].
Qed.

Definition csum_windows (inode_bitmap : bool) : list (Z * Z) :=
  if inode_bitmap then [(0x1A, 2); (0x3A, 2); (0x1E, 2)] else [(0x18, 2); (0x38, 2); (0x1E, 2)].

(** Refreshing a bitmap's checksum changes only the descriptor's checksums. *)
Lemma refresh_spec buf gi d g (ib : bool) raw : is_group gi → desc_now buf gi d → groups !! Z.to_nat gi = Some g →
  view buf (if ib then Bgd.inode_bitmap g else Bgd.block_bitmap g) = Ok raw →
  ∃ buf' d', buffer_refresh_bitmap_csum fs dev buf gi ib = Ok buf' ∧ desc_now buf' gi d' ∧
    frame (csum_windows ib) d d' ∧ only gi [] buf buf' ∧ uninit_cleared buf' = uninit_cleared buf.
Proof.
  intros Hgi Hd Hg Hv. unfold buffer_refresh_bitmap_csum. pose proof desc_width as Hn.
  destruct (enabled csum); cbn [negb].
  2: { exists buf, d. split; [done|]. split; [done|]. split; [|done]. eapply frame_mono; [apply frame_refl|done]. }
  rewrite Hg. cbn [unwrap]. rewrite bind_Ok.
  set (coverage := div_ceil (if ib then Superblock.inodes_per_group sb else Superblock.blocks_per_group sb) 8).
  set (lo := if ib then 0x1A else 0x18). set (hi := if ib then 0x3A else 0x38).
  set (bblk := if ib then Bgd.inode_bitmap g else Bgd.block_bitmap g) in *.
  destruct (get_mut_spec buf bblk raw Hv) as (buf1 & Eg & V1 & U1).
  assert (Hcov : 0 ≤ coverage).
  { unfold coverage. pose proof (Superblock.geo_ipg _ Hgeo). pose proof (Superblock.geo_bpg _ Hgeo).
    destruct ib; apply div_ceil_nonneg; lia. }
  set (c := linux_crc32c (seed csum) (sub raw 0 (Z.min coverage (zlen raw)))).
  set (F := λ (off : Z) (bs : bytes), bs ← put_split n off lo hi c bs; restamp_group_desc_csum fs gi off bs).
  destruct (desc_len _ _ _ Hd) as [Hl Hb].
  assert (Hc : 0 ≤ c < 2 ^ 32) by apply linux_crc32c_range.
  destruct (put_split_spec n Hn d lo hi c Hl) as (d1 & E1 & F1 & _); try (unfold lo, hi; destruct ib; lia).
  destruct (restamp_spec gi d1) as (d2 & E2 & F2); [by rewrite (frame_len _ _ _ F1)|].
  assert (EF : F 0 d = Ok d2) by (unfold F; by rewrite E1, bind_Ok).
  assert (Hfr : frame (csum_windows ib) d d2).
  { replace (csum_windows ib) with ([(lo, 2); (hi, 2)] ++ [(0x1E, 2)]) by (unfold lo, hi; by destruct ib). by eapply frame_trans. }
  assert (Hd1 : desc_now buf1 gi d).
  { destruct Hd as (blk & off & bs & El & Ev & Hr). exists blk, off, bs. by rewrite V1. }
  destruct (edit_desc_only buf1 gi d F (csum_windows ib) Hgi) as
    (blk & off & d' & buf' & El & EF' & Ee & Hf & Hnow & Ho & Hu).
  { apply (local_seq n (λ off bs, put_split n off lo hi c bs)); [apply local_split; unfold lo, hi; destruct ib; lia|apply local_restamp]. }
  { done. } { intros d' E. rewrite EF in E. by injection E as <-. }
  rewrite EF in EF'. injection EF' as <-. exists buf', d2. split; [|split; [done|split; [done|split; [|congruence]]]].
  - assert (Hslice : slice raw 0 (Z.min coverage (zlen raw)) = Ok (sub raw 0 (Z.min coverage (zlen raw)))).
    { pose proof (zlen_nonneg raw). by rewrite slice_ok by lia. }
    unfold coverage, lo, hi, bblk, F in *. destruct ib; rewrite Eg, bind_Ok, Hslice, bind_Ok, El, bind_Ok; exact Ee.
  - apply (only_trans gi [] []) with buf1; [by apply only_same|done].
Qed.

(** *** Taking an uninit flag down *)

Lemma ldiff_spec_range x m k : 0 ≤ x < 2 ^ k → 0 ≤ k → 0 ≤ m → 0 ≤ Z.ldiff x m < 2 ^ k.
Proof.
  intros Hx Hk Hm. assert (0 ≤ Z.ldiff x m) by (apply Z.ldiff_nonneg; lia). split; [done|].
  apply range_bits; [done|done|]. intros i Hi. by rewrite Z.ldiff_spec, (bits_above x k) by lia.
Qed.

Lemma has_bits_ldiff x m m' : has_bits (Z.ldiff x m) m' = bool_decide (Z.land x (Z.ldiff m' m) ≠ 0).
Proof.
  unfold has_bits. assert (E : Z.land (Z.ldiff x m) m' = Z.land x (Z.ldiff m' m)); [|by rewrite E].
  apply Z.bits_inj'. intros i Hi. rewrite !Z.land_spec, !Z.ldiff_spec by done.
  destruct (Z.testbit x i), (Z.testbit m i), (Z.testbit m' i); done.
Qed.

Definition flag_of (which : BgdUninitFlag) : Z :=
  match which with InodeFlag => Bgd.INODE_UNINIT | BlockFlag => Bgd.BLOCK_UNINIT end.

Lemma clear_uninit_spec buf gi d which : is_group gi → desc_now buf gi d →
  let flags := le16 d 0x12 in
  let w := has_bits flags (flag_of which) in
  ∃ buf' d', clear_bgd_uninit_flag_if_set fs dev buf gi which = Ok (w, buf') ∧ desc_now buf' gi d' ∧
    frame [(0x12, 2)] d d' ∧ le16 d' 0x12 = Z.ldiff flags (flag_of which) ∧ only gi [] buf buf' ∧
    uninit_cleared buf' = if w then <[gi := match uninit_cleared buf !! gi with
        Some f => Z.ldiff f (flag_of which) | None => Z.ldiff flags (flag_of which) end]> (uninit_cleared buf)
      else uninit_cleared buf.
Proof.
  intros Hgi Hd flags w. destruct (desc_len _ _ _ Hd) as [Hl Hb]. pose proof desc_width as Hn.
  pose proof (le16_range d 0x12 Hb) as Hfl. fold flags in Hfl.
  unfold clear_bgd_uninit_flag_if_set. fold (flag_of which).
  assert (Hm : 0 ≤ flag_of which) by (by destruct which).
  pose proof (ldiff_spec_range flags (flag_of which) 16 Hfl ltac:(lia) Hm) as Hr.
  pose proof Hd as (blk & off & bs & El & Ev & Ho & Hbl & Hok & ->). rewrite El, bind_Ok.
  destruct (get_mut_spec buf blk bs Ev) as (buf1 & Eg & V1 & U1). rewrite Eg, bind_Ok. cbn beta iota.
  rewrite u16_le_ok, bind_Ok by lia. rewrite <-(le16_sub bs off n 0x12) by lia. fold flags.
  unfold w, has_bits. destruct (decide (Z.land flags (flag_of which) = 0)) as [Hz|Hz].
  { rewrite bool_decide_false by (intros ?; done). exists buf1, (sub bs off n). split; [done|].
    assert (Ho1 : only gi [] buf buf1) by (by apply only_same).
    split; [exists blk, off, bs; by rewrite V1|]. split; [eapply frame_mono; [apply frame_refl|done]|].
    split; [|by split]. symmetry. fold flags. apply Z.bits_inj'. intros i Hi. rewrite Z.ldiff_spec.
    assert (Hzi : Z.testbit (Z.land flags (flag_of which)) i = false) by (rewrite Hz; apply Z.bits_0).
    rewrite Z.land_spec in Hzi. by destruct (Z.testbit flags i), (Z.testbit (flag_of which) i). }
  rewrite bool_decide_true by done.
  set (F := λ (off : Z) (bs : bytes), put_u16 bs (off + 0x12) (Z.ldiff flags (flag_of which))).
  assert (HF : local n F) by (apply local_put16; lia).
  assert (Hspec : ∀ d', F 0 (sub bs off n) = Ok d' → frame [(0x12, 2)] (sub bs off n) d' ∧
    le16 d' 0x12 = Z.ldiff flags (flag_of which)).
  { intros d' E. apply put_inv in E as (_ & _ & ->). split.
    - apply (frame_put _ 0x12 (le_split 2 _)); [lia|zl|apply bytes_ok_le_split].
    - apply le16_splice; lia. }
  destruct (edit_desc_only buf gi _ F [(0x12, 2)] Hgi HF Hd) as
    (blk' & off' & d' & buf' & El' & EF & Ee & Hf & Hnow & Honly & Hu); [intros d' E; by apply Hspec|].
  rewrite El in El'. injection El' as <- <-. unfold edit in Ee. rewrite Eg, bind_Ok in Ee. cbn beta iota in Ee.
  apply bind_ok_inv in Ee as (bs' & Eput & Ee). injection Ee as <-. unfold F in Eput. rewrite Eput, bind_Ok.
  eexists _, d'. split; [reflexivity|]. rewrite U1 in *. split; [exact Hnow|]. split; [done|].
  split; [by apply (Hspec d')|]. split; [|done].
  destruct Honly as [V D R]. constructor; [exact V|exact D|].
  intros Hrd b. pose proof (R Hrd b) as Hb'. unfold BlockBuffer.view, put_block in Hb' |- *. cbn [dirty] in *.
  exact Hb'.
Qed.

(** ** A group whose count is right *)

Local Abbreviation bs := (Superblock.block_size sb).
Local Abbreviation in_group := (blocks_in_group sb).

(** The block bitmap of a group as a mount of the staged blocks would take it. *)
Definition bitmap_of (buf : BlockBuffer) (gi : Z) (g0 : Bgd.t) (d : bytes) : res bytes :=
  if has_bits (le16 d 0x12) Bgd.BLOCK_UNINIT then uninit_block_bitmap sb groups gi
  else view buf (Bgd.block_bitmap g0).

(** Group [gi], whose descriptor the mount read as [g0]: its descriptor is now
    [d], its bitmap [bm], and its free count the clear bits of [bm]. *)
Record group_ok (buf : BlockBuffer) (gi : Z) (g0 : Bgd.t) (d bm : bytes) : Prop := {
  go_snap : groups !! Z.to_nat gi = Some g0;
  go_desc : desc_now buf gi d;
  go_ptr : Bgd.block_bitmap (bgd_of n d) = Bgd.block_bitmap g0;
  go_raw : ∃ raw, view buf (Bgd.block_bitmap g0) = Ok raw ∧ bytes_ok raw ∧ zlen raw = bs;
  go_bitmap : bitmap_of buf gi g0 d = Ok bm ∧ bytes_ok bm ∧ zlen bm = bs;
  go_count : Bgd.free_blocks_count (bgd_of n d) = count_clear bm (in_group gi);
}.

Lemma group_bounds gi : is_group gi →
  0 ≤ in_group gi ≤ Superblock.blocks_per_group sb ∧ in_group gi ≤ bs * 8 ∧
  Superblock.first_data_block sb ≤ group_first_block sb gi ∧
  group_first_block sb gi + in_group gi ≤ Superblock.blocks_count sb.
Proof.
  intros Hgi. destruct Hlay. unfold is_group in *.
  destruct (group_extent sb gi Hgeo ltac:(lia) ltac:(lia)) as (? & ? & ? & ?). lia.
Qed.

Lemma uninit_bitmap_len gi : is_group gi → ∃ b, uninit_block_bitmap sb groups gi = Ok b ∧ bytes_ok b ∧ zlen b = bs.
Proof.
  intros Hgi. destruct Hlay. unfold is_group in *.
  destruct (uninit_ranges_ok sb groups gi Hgeo) as (used & Hu & Hpos); [lia|lia|].
  destruct (group_extent sb gi Hgeo ltac:(lia) ltac:(lia)) as (Hb & _).
  destruct (uninit_bitmap_ok sb groups gi used Hgeo) as (b & E & Hbb & Hl & _); [lia|done|done|]. eauto.
Qed.

Lemma bitmap_not_desc g b : g ∈ groups → b = Bgd.block_bitmap g ∨ b = Bgd.inode_bitmap g → ¬ is_desc_block b.
Proof. intros Hg Hb Hd. apply (lo_desc Hlay b Hd). by exists g. Qed.

(** A bitmap edited and its checksum refreshed. *)
Lemma bitmap_step buf gi d g0 (ib : bool) F raw bm' :
  let b := if ib then Bgd.inode_bitmap g0 else Bgd.block_bitmap g0 in
  is_group gi → desc_now buf gi d → groups !! Z.to_nat gi = Some g0 →
  view buf b = Ok raw → F raw = Ok bm' → bytes_ok bm' →
  ∃ buf1 buf' d', edit fs dev b F buf = Ok buf1 ∧ buffer_refresh_bitmap_csum fs dev buf1 gi ib = Ok buf' ∧
    desc_now buf' gi d' ∧ frame (csum_windows ib) d d' ∧ view buf' b = Ok bm' ∧
    only gi [b] buf buf' ∧ uninit_cleared buf' = uninit_cleared buf.
Proof.
  intros b Hgi Hd Hg Hv EF Hb'. destruct (edit_spec buf b F raw bm' Hv EF) as (buf1 & E1 & W).
  assert (Hnd : ¬ is_desc_block b).
  { apply (bitmap_not_desc g0); [by eapply list_elem_of_lookup_2|unfold b; destruct ib; auto]. }
  pose proof (only_wrote gi _ _ _ _ W Hb' Hnd) as O1.
  assert (Hd1 : desc_now buf1 gi d).
  { destruct Hd as (blk & off & x & El & Ev & Hr). exists blk, off, x. split; [done|]. split; [|done].
    rewrite (wrote_view _ _ _ _ W), decide_False; [done|]. intros ->. apply Hnd. by exists gi, off. }
  assert (Hv1 : view buf1 b = Ok bm') by (by rewrite (wrote_view _ _ _ _ W), decide_True).
  destruct (refresh_spec buf1 gi d g0 ib bm' Hgi Hd1 Hg Hv1) as (buf2 & d2 & E2 & Hd2 & F2 & O2 & U2).
  exists buf1, buf2, d2. split; [done|]. split; [done|]. split; [done|]. split; [done|]. split; [|split].
  - rewrite (only_view _ _ _ _ O2); [done|set_solver|]. intros off El. apply Hnd. by exists gi, off.
  - apply (only_trans gi [b] [] buf buf1 buf2 O1 O2).
  - rewrite U2. by apply W.
Qed.

Definition mark_windows : list (Z * Z) := [(0x12, 2); (0x18, 2); (0x38, 2); (0x1E, 2)].

(** Marking a run of a group used: its bits are set, its descriptor loses
    BLOCK_UNINIT, and no count moves. *)
Lemma mark_used_spec buf gi g0 d bm s len :
  is_group gi → group_ok buf gi g0 d bm → 0 ≤ s → 1 ≤ len → s + len ≤ in_group gi →
  ∃ buf' d' bm', buffer_mark_block_run_used fs dev buf (group_first_block sb gi + s) len = Ok buf' ∧
    desc_now buf' gi d' ∧ frame mark_windows d d' ∧
    le16 d' 0x12 = Z.ldiff (le16 d 0x12) Bgd.BLOCK_UNINIT ∧
    view buf' (Bgd.block_bitmap g0) = Ok bm' ∧ bytes_ok bm' ∧ zlen bm' = bs ∧
    (∀ j, 0 ≤ j < bs * 8 → bit bm' j = if decide (s ≤ j < s + len) then true else bit bm j) ∧
    only gi [Bgd.block_bitmap g0] buf buf' ∧
    uninit_cleared buf' = if has_bits (le16 d 0x12) Bgd.BLOCK_UNINIT
      then <[gi := match uninit_cleared buf !! gi with
             Some f => Z.ldiff f Bgd.BLOCK_UNINIT | None => Z.ldiff (le16 d 0x12) Bgd.BLOCK_UNINIT end]> (uninit_cleared buf)
      else uninit_cleared buf.
Proof.
  intros Hgi [Hg Hd Hptr (raw & Hraw & Hrb & Hrl) (Hbm & Hbb & Hbl) Hcount] Hs Hlen Hend.
  destruct (group_bounds gi Hgi) as (H1 & H2 & H3 & H4). pose proof (Superblock.geo_bpg _ Hgeo) as Hbpg.
  pose proof (Superblock.geo_blocks _ Hgeo). pose proof (Superblock.geo_first _ Hgeo).
  unfold buffer_mark_block_run_used. rewrite decide_False by lia. cbv zeta. unfold group_first_block in *.
  set (bpg := Superblock.blocks_per_group sb) in *. set (fdb := Superblock.first_data_block sb) in *.
  assert (Hgi' : as_u64 (gi * bpg + fdb + s - fdb) / bpg = gi).
  { unfold as_u64. unfold is_group in Hgi. rewrite Z.mod_small by nia. symmetry.
    apply (Z.div_unique _ _ _ s); [left|]; nia. }
  rewrite Hgi', decide_False by (unfold is_group in Hgi; lia).
  assert (Hbit : as_u32 (gi * bpg + fdb + s - (fdb + gi * bpg)) = s) by (unfold as_u32; rewrite Z.mod_small; lia).
  rewrite Hbit.
  destruct (clear_uninit_spec buf gi d BlockFlag Hgi Hd) as (buf1 & d1 & -> & Hd1 & F1 & Efl & O1 & U1).
  rewrite bind_Ok. cbn beta iota. cbn [flag_of] in *.
  assert (Hgin : g0 ∈ groups) by (by eapply list_elem_of_lookup_2).
  assert (Hraw1 : view buf1 (Bgd.block_bitmap g0) = Ok raw).
  { rewrite (only_view _ _ _ _ O1); [done|set_solver|]. intros off El. apply (bitmap_not_desc g0 (Bgd.block_bitmap g0)); eauto.
    by exists gi, off. }
  destruct (uninit_bitmap_len gi Hgi) as (ub & Eub & Hub & Hul).
  (* either way the bits are written over [bm] *)
  set (implied := if has_bits (le16 d 0x12) Bgd.BLOCK_UNINIT then Some ub else None).
  assert (Eimp : (if has_bits (le16 d 0x12) Bgd.BLOCK_UNINIT
      then i ← uninit_block_bitmap sb groups gi; Ok (Some i) else Ok None) = Ok implied).
  { unfold implied. destruct (has_bits _ _); [by rewrite Eub, bind_Ok|done]. }
  rewrite Eimp, bind_Ok, Hg. cbn [unwrap]. rewrite bind_Ok.
  destruct (write_bits_spec true s len bm Hbb Hs ltac:(lia)) as (bm' & Ew & Hb' & Hl' & Hbits).
  set (F := λ bm : bytes, bm ← match implied with
      | Some implied => head ← slice implied 0 (Z.min (zlen implied) (zlen bm)); put bm 0 head
      | None => Ok bm end; write_bits true s len bm).
  assert (EF : F raw = Ok bm').
  { unfold F, implied. unfold bitmap_of in Hbm. destruct (has_bits (le16 d 0x12) Bgd.BLOCK_UNINIT).
    - rewrite Eub in Hbm. injection Hbm as ->. rewrite Hrl, Hbl, Z.min_id.
      pose proof (zlen_nonneg bm). rewrite slice_ok, bind_Ok by lia. rewrite sub_all by lia.
      rewrite put_ok, bind_Ok by lia. by rewrite splice_all by lia.
    - rewrite Hraw in Hbm. injection Hbm as ->. by rewrite bind_Ok. }
  destruct (bitmap_step buf1 gi d1 g0 false F raw bm' Hgi Hd1 Hg Hraw1 EF Hb') as
    (buf2 & buf3 & d3 & E2 & E3 & Hd3 & F3 & Hv3 & O3 & U3).
  change (edit fs dev (Bgd.block_bitmap g0) _ buf1) with (edit fs dev (Bgd.block_bitmap g0) F buf1).
  rewrite E2, bind_Ok. exists buf3, d3, bm'. split; [exact E3|]. split; [done|].
  split; [by apply (frame_trans [_] (csum_windows false) d d1)|].
  split; [rewrite (frame_le16 _ _ _ _ F3) by (done || lia); exact Efl|].
  split; [done|]. split; [done|]. split; [lia|]. split; [intros j Hj; apply Hbits; lia|].
  split; [exact (only_trans gi [] [_] _ _ _ O1 O3)|]. by rewrite U3.
Qed.

(** ** The superblock's counts *)

(** The superblock bytes as staged. *)
Definition sb_now (buf : BlockBuffer) (s : bytes) : Prop :=
  ∃ blk, view buf sb_block = Ok blk ∧ zlen blk = bs ∧ bytes_ok blk ∧
    s = sub blk (Superblock.SUPERBLOCK_OFFSET mod bs) 1024.

Definition sb_free_blocks (s : bytes) : Z := join32 (le32 s 0x158) (le32 s 0x0C).
Definition sb_free_inodes (s : bytes) : Z := le32 s 0x10.

Lemma sb_offset : 0 ≤ Superblock.SUPERBLOCK_OFFSET mod bs ∧ Superblock.SUPERBLOCK_OFFSET mod bs + 1024 ≤ bs.
Proof.
  rewrite Superblock.block_size_eq by apply (Superblock.geo_log _ Hgeo).
  pose proof (Superblock.geo_log _ Hgeo) as Hl. unfold Superblock.SUPERBLOCK_OFFSET.
  set (l := Superblock.log_block_size sb) in *.
  assert (l = 0 ∨ 1 ≤ l) as [->|Hl1] by lia; [by vm_compute|].
  assert (2 * 2 ^ (l - 1) = 2 ^ l) by (rewrite <-Z.pow_succ_r by lia; f_equal; lia).
  assert (0 < 2 ^ (l - 1)) by (apply Z.pow_pos_nonneg; lia). rewrite Z.mod_small by lia. lia.
Qed.

(** Only the superblock changed. *)
Record only_super (buf buf' : BlockBuffer) : Prop := {
  os_view b : b ≠ sb_block → view buf' b = view buf b;
  os_ok : reader_ok (view buf) → reader_ok (view buf');
  os_uninit : uninit_cleared buf' = uninit_cleared buf;
}.

(** The checksum written over the last word of the superblock. *)
Lemma edit_superblock_spec buf s f s1 : sb_now buf s → f s = Ok s1 → zlen s1 = 1024 → bytes_ok s1 →
  ∃ buf' s', edit_superblock fs dev f buf = Ok buf' ∧ sb_now buf' s' ∧ only_super buf buf' ∧ frame [(0x3FC, 4)] s1 s'.
Proof.
  intros (blk & Ev & Hz & Hb & ->) Ef Hl Hb1. destruct sb_offset as [Ho1 Ho2].
  set (off := Superblock.SUPERBLOCK_OFFSET mod bs) in *.
  assert (Hcs : ∃ s', (if enabled csum then body ← slice s1 0 0x3FC; put_u32 s1 0x3FC (linux_crc32c u32_max body)
      else Ok s1) = Ok s' ∧ frame [(0x3FC, 4)] s1 s').
  { destruct (enabled csum); [|exists s1; split; [done|]; eapply frame_mono; [apply frame_refl|done]].
    rewrite slice_ok, bind_Ok by lia. rewrite put_u32_ok by lia. eexists. split; [done|].
    apply (frame_put s1 0x3FC (le_split 4 _)); [lia|zl|apply bytes_ok_le_split]. }
  destruct Hcs as (s' & Ecs & F). pose proof (frame_len _ _ _ F) as Hl'. pose proof (frame_ok _ _ _ F Hb1) as Hb'.
  set (E := λ block : bytes, s ← slice block off 1024; s ← f s;
    s ← (if enabled csum then body ← slice s 0 0x3FC; put_u32 s 0x3FC (linux_crc32c u32_max body) else Ok s);
    put block off s).
  assert (EE : E blk = Ok (splice blk off s')).
  { unfold E. rewrite slice_ok, bind_Ok by lia. rewrite Ef, bind_Ok, Ecs, bind_Ok. by rewrite put_ok by lia. }
  destruct (edit_spec buf sb_block E blk _ Ev EE) as (buf' & Ee & W). exists buf', s'.
  split; [exact Ee|]. split; [|split; [|done]].
  - exists (splice blk off s'). rewrite (wrote_view _ _ _ _ W), decide_True by done. split; [done|].
    rewrite zlen_splice by lia. split; [done|]. split; [by apply bytes_ok_splice|].
    symmetry. by apply sub_splice_same_len; lia.
  - constructor; [|eapply wrote_ok; [exact W|by apply bytes_ok_splice]|by apply W].
    intros b Hne. by rewrite (wrote_view _ _ _ _ W), decide_False.
Qed.

Lemma sb_now_len buf s : sb_now buf s → zlen s = 1024 ∧ bytes_ok s.
Proof.
  intros (blk & _ & Hz & Hb & ->). destruct sb_offset. split; [rewrite zlen_sub; lia|by apply bytes_ok_sub].
Qed.

(** The superblock's counts move by their deltas. *)
Lemma patch_sb_counters_spec buf s db di : sb_now buf s →
  sb_free_blocks s < 2 ^ 63 → 0 ≤ sb_free_blocks s + db < 2 ^ 63 → 0 ≤ sb_free_inodes s + di < 2 ^ 32 →
  ∃ buf' s', buffer_patch_sb_counters fs dev buf db di = Ok buf' ∧ sb_now buf' s' ∧ only_super buf buf' ∧
    sb_free_blocks s' = sb_free_blocks s + db ∧ sb_free_inodes s' = sb_free_inodes s + di.
Proof.
  intros Hs Hcur Hdb Hdi. destruct (sb_now_len _ _ Hs) as [Hl Hb].
  set (fi := sb_free_inodes s + di) in *. set (nb := sb_free_blocks s + db) in *.
  pose proof (frame_put s 0x10 (le_split 4 fi) ltac:(lia) ltac:(zl) (bytes_ok_le_split _ _)) as F1.
  set (s1 := splice s 0x10 (le_split 4 fi)) in *. pose proof (frame_len _ _ _ F1) as L1.
  pose proof (frame_put s1 0x0C (le_split 4 (as_u32 nb)) ltac:(lia) ltac:(zl) (bytes_ok_le_split _ _)) as F2.
  set (s2 := splice s1 0x0C _) in *. pose proof (frame_len _ _ _ F2) as L2.
  pose proof (frame_put s2 0x158 (le_split 4 (as_u32 (Z.shiftr nb 32))) ltac:(lia) ltac:(zl) (bytes_ok_le_split _ _)) as F3.
  set (s3 := splice s2 0x158 _) in *. pose proof (frame_len _ _ _ F3) as L3.
  pose proof (le32_range s 0x0C Hb) as Hlo. pose proof (le32_range s 0x158 Hb) as Hhi.
  assert (Hcur0 : 0 ≤ sb_free_blocks s) by (unfold sb_free_blocks; rewrite join32_eq by done; lia).
  destruct (edit_superblock_spec buf s (λ s,
    fi ← u32_le s 0x10; s ← put_u32 s 0x10 (as_u32 (Z.max (fi + di) 0));
    lo ← u32_le s 0x0C; hi ← u32_le s 0x158;
    let cur := as_i64 (join32 hi lo) in
    let new := Z.max (as_i64 (cur + db)) 0 in
    s ← put_u32 s 0x0C (as_u32 new); put_u32 s 0x158 (as_u32 (Z.shiftr new 32))) s3 Hs) as (buf' & s' & Ee & Hs' & Ho & F4).
  { rewrite u32_le_ok, bind_Ok by lia. fold (sb_free_inodes s).
    replace (as_u32 (Z.max (sb_free_inodes s + di) 0)) with fi
      by (unfold as_u32; rewrite Z.max_l, Z.mod_small by lia; done).
    rewrite put_u32_ok, bind_Ok by lia. fold s1.
    rewrite (u32_le_ok s1 0x0C), bind_Ok by lia. rewrite (u32_le_ok s1 0x158), bind_Ok by lia.
    rewrite !(frame_le32 _ _ _ _ F1) by (done || lia). fold (sb_free_blocks s). cbv zeta.
    assert (Hi : ∀ x, 0 ≤ x < 2 ^ 63 → as_i64 x = x) by (intros x Hx; unfold as_i64; rewrite Z.mod_small; lia).
    rewrite (Hi (sb_free_blocks s)) by lia. fold nb. rewrite (Hi nb), Z.max_l by lia. rewrite put_u32_ok, bind_Ok by lia. fold s2.
    by rewrite put_u32_ok by lia. }
  { lia. } { apply F3, F2, F1, Hb. }
  exists buf', s'. split; [exact Ee|]. split; [done|]. split; [done|].
  assert (Hn1 : 0 ≤ as_u32 nb < 2 ^ 32) by (apply Z.mod_pos_bound; lia).
  assert (Hn2 : 0 ≤ as_u32 (Z.shiftr nb 32) < 2 ^ 32) by (apply Z.mod_pos_bound; lia). split.
  - unfold sb_free_blocks. rewrite !(frame_le32 _ _ _ _ F4) by (done || lia).
    rewrite (frame_le32 _ _ _ 0x0C F3) by (done || lia).
    assert (le32 s3 0x158 = as_u32 (Z.shiftr nb 32)) as -> by (apply le32_splice; lia).
    assert (le32 s2 0x0C = as_u32 nb) as -> by (apply le32_splice; lia).
    rewrite join32_eq by done. unfold as_u32. rewrite Z.shiftr_div_pow2 by lia.
    rewrite (Z.mod_small (nb / 2 ^ 32)) by (split; [apply Z.div_pos; lia|apply Z.div_lt_upper_bound; lia]).
    pose proof (Z.div_mod nb (2 ^ 32) ltac:(lia)). lia.
  - unfold sb_free_inodes at 1. rewrite (frame_le32 _ _ _ _ F4), (frame_le32 _ _ _ _ F3), (frame_le32 _ _ _ _ F2) by (done || lia).
    apply le32_splice; lia.
Qed.
End volume.
