(* ===== verification/AllocRefine.v ===== *)
(** AllocRefine: block allocation and freeing as an abstract map of used blocks.
    A volume is represented by the set of blocks in use; the staged bitmaps,
    descriptors, uninit flags and superblock counts implement it, and
    [buffer_allocate_block], [buffer_free_runs] and the superblock credit that
    follows are refinements of taking and returning blocks. *)
From S2P Require Import Prelude Errors Bytes Device Features Superblock Checksum Bgd Extent Inode Indirect Alloc Filesystem BlockBuffer FreeCounts.

(** ** The flags a plan sees *)

Lemma with_flags_id g : with_flags g (Bgd.flags g) = g.
Proof. by destruct g. Qed.
Lemma with_flags_twice g f f' : with_flags (with_flags g f) f' = with_flags g f'.
Proof. done. Qed.

Definition flags_at (l : list (Z * Z)) (gi : Z) (g : Bgd.t) : Bgd.t :=
  match (list_to_map l : gmap Z Z) !! gi with Some f => with_flags g f | None => g end.

Lemma override_flags_ok gs gi f g : gs !! Z.to_nat gi = Some g →
  override_flags gs (gi, f) = Ok (<[Z.to_nat gi := with_flags g f]> gs).
Proof. intros Hg. unfold override_flags. cbn [fst snd]. by rewrite Hg. Qed.

Lemma override_fold l : ∀ gs, NoDup l.*1 → (∀ c, c ∈ l → 0 ≤ fst c < zlen gs) →
  ∃ gs', foldM override_flags gs l = Ok gs' ∧ length gs' = length gs ∧
    ∀ i g, gs !! i = Some g → gs' !! i = Some (flags_at l (Z.of_nat i) g).
Proof.
  induction l as [|[gi f] l IH]; intros gs Hnd Hin; [by exists gs|].
  apply NoDup_cons in Hnd as [Hgi Hnd]. cbn [fst] in Hgi.
  destruct (Hin (gi, f) ltac:(set_solver)) as [H0 H1]. cbn [fst] in H0, H1.
  destruct (lookup_lt_is_Some_2 gs (Z.to_nat gi)) as [g Hg]; [unfold zlen in H1; lia|].
  cbn [foldM]. rewrite (override_flags_ok _ _ _ g), bind_Ok by done.
  destruct (IH (<[Z.to_nat gi := with_flags g f]> gs) Hnd) as (gs' & E & Hl & Hv).
  { intros c Hc. unfold zlen. rewrite length_insert. apply Hin. set_solver. }
  exists gs'. split; [done|]. split; [by rewrite Hl, length_insert|]. intros i x Hx. unfold flags_at at 1.
  rewrite list_to_map_cons.
  destruct (decide (i = Z.to_nat gi)) as [->|Hne].
  - rewrite Hg in Hx. injection Hx as <-. rewrite (Hv _ (with_flags g f)) by (apply list_lookup_insert_eq; by apply lookup_lt_Some in Hg).
    rewrite Z2Nat.id by done. unfold flags_at. rewrite lookup_insert_eq.
    by rewrite not_elem_of_list_to_map_1 by done.
  - rewrite (Hv i x) by (by rewrite list_lookup_insert_ne). by rewrite lookup_insert_ne by lia.
Qed.

Lemma override_staged_eq l : ∀ gs, (∀ c, c ∈ l → 0 ≤ fst c < zlen gs) →
  foldM override_staged gs l = foldM override_flags gs l.
Proof.
  induction l as [|[gi f] l IH]; intros gs Hin; [done|]. cbn [foldM].
  destruct (Hin (gi, f) ltac:(set_solver)) as [H0 H1]. cbn [fst] in *.
  destruct (lookup_lt_is_Some_2 gs (Z.to_nat gi)) as [g Hg]; [unfold zlen in H1; lia|].
  assert (E : override_staged gs (gi, f) = override_flags gs (gi, f)).
  { unfold override_staged. cbn [fst]. by rewrite decide_True by (by rewrite Hg). }
  rewrite E, (override_flags_ok _ _ _ g), !bind_Ok by done. apply IH.
  intros c Hc. unfold zlen. rewrite length_insert. apply Hin. set_solver.
Qed.

Section refine.
Context `{Crc32c} (fs : Filesystem.t) (dev : reader).
Local Abbreviation sb := (Filesystem.sb fs).
Local Abbreviation groups := (Filesystem.groups fs).
Local Abbreviation n := (Superblock.desc_size sb).
Local Abbreviation view := (view fs dev).
Local Abbreviation in_group := (blocks_in_group sb).
Local Abbreviation is_group := (is_group fs).
Local Abbreviation bs := (Superblock.block_size sb).
Context (Hgeo : Superblock.geometry_ok sb) {Hdev : ReaderOk dev} (Hlay : layout_ok fs).

(** The mount's record of cleared flags: real groups, and a cache that is what
    it would be rebuilt as. *)
Definition state_ok (st : AllocationState) : Prop :=
  (∀ gi f, cleared st !! gi = Some f → is_group gi) ∧
  ∀ gs, overridden st = Some gs → foldM override_flags groups (map_to_list (cleared st)) = Ok gs.

Definition keys_ok (buf : BlockBuffer) : Prop := ∀ gi f, uninit_cleared buf !! gi = Some f → is_group gi.

(** The flags the planner takes a group to have. *)
Definition planned_flags (st : AllocationState) (buf : BlockBuffer) (gi : Z) (g : Bgd.t) : Z :=
  default (default (Bgd.flags g) (cleared st !! gi)) (uninit_cleared buf !! gi).

Lemma map_fold (m : gmap Z Z) gs : zlen gs = zlen groups → (∀ gi f, m !! gi = Some f → is_group gi) →
  ∃ gs', foldM override_flags gs (map_to_list m) = Ok gs' ∧ zlen gs' = zlen groups ∧
    ∀ i g, gs !! i = Some g → gs' !! i = Some (match m !! Z.of_nat i with Some f => with_flags g f | None => g end).
Proof.
  intros Hz Hk. destruct (override_fold (map_to_list m) gs) as (gs' & E & Hl & Hv).
  - apply NoDup_fst_map_to_list.
  - intros [gi f] Hin. apply elem_of_map_to_list in Hin. rewrite Hz. by apply (Hk gi f).
  - exists gs'. split; [done|]. split; [unfold zlen in *; lia|]. intros i g Hg. rewrite (Hv i g Hg). unfold flags_at.
    by rewrite list_to_map_to_list.
Qed.

Lemma planned_groups st buf : state_ok st → keys_ok buf →
  ∃ base st' gs, allocation_groups groups st = Ok (base, st') ∧
    foldM override_staged base (map_to_list (uninit_cleared buf)) = Ok gs ∧ zlen gs = zlen groups ∧
    state_ok st' ∧ cleared st' = cleared st ∧
    ∀ i g, groups !! i = Some g → gs !! i = Some (with_flags g (planned_flags st buf (Z.of_nat i) g)).
Proof.
  intros [Hk Ho] Hkb.
  assert (Hbase : ∃ base st', allocation_groups groups st = Ok (base, st') ∧ zlen base = zlen groups ∧ state_ok st' ∧
    cleared st' = cleared st ∧ ∀ i g, groups !! i = Some g →
      base !! i = Some (with_flags g (default (Bgd.flags g) (cleared st !! Z.of_nat i)))).
  { unfold allocation_groups. destruct (decide (cleared st = ∅)) as [He|He].
    - exists groups, st. split; [done|]. split; [done|]. split; [done|]. split; [done|]. intros i g Hg.
      by rewrite He, lookup_empty, with_flags_id.
    - destruct (map_fold (cleared st) groups eq_refl Hk) as (gs' & E & Hz & Hv).
      assert (Hv' : ∀ i g, groups !! i = Some g → gs' !! i = Some (with_flags g (default (Bgd.flags g) (cleared st !! Z.of_nat i)))).
      { intros i g Hg. rewrite (Hv i g Hg). destruct (cleared st !! Z.of_nat i); [done|]. by rewrite with_flags_id. }
      destruct (overridden st) as [gs|] eqn:Eo.
      + specialize (Ho gs eq_refl). rewrite E in Ho. injection Ho as <-. exists gs', st. split_and!; try done.
        split; [done|]. intros gs Egs. rewrite Eo in Egs. by injection Egs as <-.
      + rewrite E, bind_Ok. eexists _, _. split; [reflexivity|]. split; [done|]. split; [|done].
        split; [done|]. cbn [overridden cleared]. by intros gs [= <-]. }
  destruct Hbase as (base & st' & E & Hz & Hst & Hc & Hv).
  destruct (map_fold (uninit_cleared buf) base Hz Hkb) as (gs & Egs & Hzg & Hvg).
  exists base, st', gs. split; [done|]. split.
  { rewrite override_staged_eq; [done|]. intros [gi f] Hin. apply elem_of_map_to_list in Hin. rewrite Hz. by apply (Hkb gi f). }
  split; [done|]. split; [done|]. split; [done|]. intros i g Hg. rewrite (Hvg i _ (Hv i g Hg)). unfold planned_flags.
  destruct (uninit_cleared buf !! Z.of_nat i); [by rewrite with_flags_twice|done].
Qed.

(** ** The abstract state *)

(** Free blocks of a group, and of the volume. *)
Definition free_in (used : Z → bool) (gi : Z) : Z :=
  count_false (λ j, used (group_first_block sb gi + j)) (in_group gi).
Definition total_free (used : Z → bool) : Z := foldr Z.add 0 (free_in used <$> seqZ 0 (zlen groups)).

(** Group [gi] as staged: bitmap, count and flags say what [used] says. *)
Definition group_repr (st : AllocationState) (buf : BlockBuffer) (used : Z → bool) (gi : Z) : Prop :=
  ∃ g0 d bm, group_ok fs dev buf gi g0 d bm ∧
    has_bits (planned_flags st buf gi g0) Bgd.BLOCK_UNINIT = has_bits (le16 d 0x12) Bgd.BLOCK_UNINIT ∧
    ∀ j, 0 ≤ j < in_group gi → bit bm j = used (group_first_block sb gi + j).

Record groups_repr (st : AllocationState) (buf : BlockBuffer) (used : Z → bool) : Prop := {
  gr_reader : reader_ok (view buf);
  gr_state : state_ok st;
  gr_keys : keys_ok buf;
  gr_group gi : is_group gi → group_repr st buf used gi;
}.

Definition sb_repr (buf : BlockBuffer) (used : Z → bool) : Prop :=
  ∃ s, sb_now fs dev buf s ∧ sb_free_blocks s = total_free used.

Definition volume_repr (st : AllocationState) (buf : BlockBuffer) (used : Z → bool) : Prop :=
  groups_repr st buf used ∧ sb_repr buf used.

(** Taking and returning a run. *)
Definition set_run (start len : Z) (v : bool) (used : Z → bool) (b : Z) : bool :=
  if decide (start ≤ b < start + len) then v else used b.

(** ** Groups partition the blocks *)

Lemma group_apart gi gj j : is_group gi → is_group gj → gi ≠ gj → 0 ≤ j < in_group gj →
  group_first_block sb gj + j < group_first_block sb gi ∨
  group_first_block sb gi + in_group gi ≤ group_first_block sb gj + j.
Proof.
  intros Hi Hj Hne Hb. destruct (group_bounds fs Hgeo Hlay gi Hi) as (H1 & _).
  destruct (group_bounds fs Hgeo Hlay gj Hj) as (H2 & _). unfold group_first_block.
  pose proof (Superblock.geo_bpg _ Hgeo). assert (gi < gj ∨ gj < gi) as [|] by lia; nia.
Qed.

Lemma set_run_other gi gj s len v used j : is_group gi → is_group gj → gi ≠ gj → 0 ≤ s → s + len ≤ in_group gi →
  0 ≤ j < in_group gj →
  set_run (group_first_block sb gi + s) len v used (group_first_block sb gj + j) = used (group_first_block sb gj + j).
Proof.
  intros Hi Hj Hne Hs Hl Hb. unfold set_run. rewrite decide_False; [done|].
  destruct (group_apart gi gj j Hi Hj Hne Hb); lia.
Qed.

Lemma free_in_same used used' gi :
  (∀ j, 0 ≤ j < in_group gi → used' (group_first_block sb gi + j) = used (group_first_block sb gi + j)) →
  free_in used' gi = free_in used gi.
Proof. intros E. by apply count_false_ext. Qed.

(** A run of one group taken. *)
Lemma free_in_run used used' gi s len : 0 ≤ s → 0 ≤ len → s + len ≤ in_group gi →
  (∀ j, s ≤ j < s + len → used (group_first_block sb gi + j) = false) →
  (∀ j, 0 ≤ j < in_group gi → used' (group_first_block sb gi + j) =
     set_run (group_first_block sb gi + s) len true used (group_first_block sb gi + j)) →
  free_in used' gi = free_in used gi - len.
Proof.
  intros Hs Hl He Hf Hu. apply (count_false_run _ _ _ s len); [done..| |].
  - intros j Hj. split; [by apply Hf|]. rewrite Hu by lia. unfold set_run. by rewrite decide_True by lia.
  - intros j Hj Hn. rewrite Hu by lia. unfold set_run. by rewrite decide_False by lia.
Qed.

Lemma count_clear_free bm used gi :
  (∀ j, 0 ≤ j < in_group gi → bit bm j = used (group_first_block sb gi + j)) →
  count_clear bm (in_group gi) = free_in used gi.
Proof. intros E. symmetry. apply count_false_ext. intros j Hj. by rewrite E. Qed.

(** One group's change is the volume's. *)
Lemma total_change used used' gi c : is_group gi → free_in used' gi = free_in used gi + c →
  (∀ gj, is_group gj → gj ≠ gi → free_in used' gj = free_in used gj) →
  total_free used' = total_free used + c.
Proof.
  intros Hgi Hg Ho. unfold total_free, FreeCounts.is_group in *.
  assert (Hsplit : seqZ 0 (zlen groups) = seqZ 0 gi ++ gi :: seqZ (gi + 1) (zlen groups - gi - 1)).
  { replace (zlen groups) with (gi + (1 + (zlen groups - gi - 1))) at 1 by lia. rewrite seqZ_app by lia. f_equal.
    rewrite Z.add_0_l, seqZ_app by lia. done. }
  assert (Hsum : ∀ l, (∀ gj, gj ∈ l → 0 ≤ gj < zlen groups ∧ gj ≠ gi) →
    foldr Z.add 0 (free_in used' <$> l) = foldr Z.add 0 (free_in used <$> l)).
  { induction l as [|x l IH]; intros Hl; [done|]. rewrite !fmap_cons. cbn [foldr].
    rewrite IH by set_solver. destruct (Hl x ltac:(set_solver)). by rewrite Ho. }
  assert (Hadd : ∀ l k, foldr Z.add 0 (l ++ k) = foldr Z.add 0 l + foldr Z.add 0 k).
  { induction l as [|x l IH]; intros k; cbn [foldr app]; [done|]. rewrite IH. lia. }
  rewrite Hsplit, !fmap_app, !fmap_cons, !Hadd. cbn [foldr]. rewrite Hg.
  rewrite !Hsum; [lia|..]; intros gj Hj%elem_of_seqZ; lia.
Qed.

Lemma total_bounds used : 0 ≤ total_free used < 2 ^ 63.
Proof.
  unfold total_free. pose proof (lo_many _ Hlay) as Hm. pose proof (Superblock.geo_bpg _ Hgeo) as Hb.
  assert (Hall : ∀ l, (∀ gj, gj ∈ l → is_group gj) →
    0 ≤ foldr Z.add 0 (free_in used <$> l) ≤ zlen l * (2 ^ 32 - 1)).
  { induction l as [|x l IH]; intros Hl; [done|]. rewrite fmap_cons, zlen_cons. cbn [foldr].
    destruct IH; [set_solver|]. destruct (group_bounds fs Hgeo Hlay x) as (Hx & _); [set_solver|].
    pose proof (count_false_range (λ j, used (group_first_block sb x + j)) (in_group x) ltac:(lia)) as Hc.
    fold (free_in used x) in Hc. lia. }
  destruct (Hall (seqZ 0 (zlen groups))) as [Hs1 Hs2]; [intros gj Hj%elem_of_seqZ; unfold FreeCounts.is_group; lia|].
  assert (zlen (seqZ 0 (zlen groups)) = zlen groups) as E by (unfold zlen at 1; rewrite length_seqZ; lia).
  rewrite E in Hs2. lia.
Qed.

(** ** Steps that change one group *)

Definition bitmaps_of (gi : Z) (l : list Z) : Prop :=
  ∀ b, b ∈ l → ∃ g, groups !! Z.to_nat gi = Some g ∧ (b = Bgd.block_bitmap g ∨ b = Bgd.inode_bitmap g).

Lemma not_desc gi g b : groups !! Z.to_nat gi = Some g → b = Bgd.block_bitmap g ∨ b = Bgd.inode_bitmap g →
  ∀ gj off, is_group gj → Superblock.descriptor_location sb gj ≠ Ok (b, off).
Proof.
  intros Hg Hb gj off Hgj E. apply (bitmap_not_desc fs Hlay g b); [by eapply list_elem_of_lookup_2|done|]. by exists gj, off.
Qed.

Lemma other_bitmap gi gj l buf buf' g : is_group gi → is_group gj → gj ≠ gi → only fs dev gi l buf buf' →
  bitmaps_of gi l → groups !! Z.to_nat gj = Some g → view buf' (Bgd.block_bitmap g) = view buf (Bgd.block_bitmap g).
Proof.
  intros Hgi Hgj Hne O Hl Hg. apply (only_view _ _ _ _ _ _ O).
  - intros Hin. destruct (Hl _ Hin) as (g' & Hg' & [E|E]).
    + unfold FreeCounts.is_group in *. by apply (lo_bitmaps _ Hlay (Z.to_nat gj) (Z.to_nat gi) g g') in E; [|done|done|lia].
    + apply (lo_kinds _ Hlay g g') in E; [done|by eapply list_elem_of_lookup_2..].
  - intros off. by apply (not_desc gj g); [|left|].
Qed.

Lemma group_ok_other gi gj l buf buf' g0 d bm : is_group gi → is_group gj → gj ≠ gi →
  only fs dev gi l buf buf' → bitmaps_of gi l → group_ok fs dev buf gj g0 d bm → group_ok fs dev buf' gj g0 d bm.
Proof.
  intros Hgi Hgj Hne O Hl [Hs Hd Hp Hr Hb Hc]. pose proof (other_bitmap gi gj l buf buf' g0 Hgi Hgj Hne O Hl Hs) as Hv.
  constructor; try done; [by eapply only_desc|by rewrite Hv|]. unfold bitmap_of. by rewrite Hv.
Qed.

Lemma desc_now_super buf buf' gi d : is_group gi → only_super fs dev buf buf' →
  desc_now fs dev buf gi d → desc_now fs dev buf' gi d.
Proof.
  intros Hgi O (blk & off & x & El & Ev & Hr). exists blk, off, x. split; [done|]. split; [|done].
  rewrite (os_view _ _ _ _ O); [done|]. intros ->. apply (proj1 (lo_super _ Hlay)). by exists gi, off.
Qed.

Lemma group_ok_super buf buf' gi g0 d bm : is_group gi → only_super fs dev buf buf' →
  group_ok fs dev buf gi g0 d bm → group_ok fs dev buf' gi g0 d bm.
Proof.
  intros Hgi O [Hs Hd Hp Hr Hb Hc].
  assert (Hv : view buf' (Bgd.block_bitmap g0) = view buf (Bgd.block_bitmap g0)).
  { apply (os_view _ _ _ _ O). intros E. apply (proj2 (lo_super _ Hlay)). rewrite <-E. exists g0.
    split; [by eapply list_elem_of_lookup_2|by left]. }
  constructor; try done; [by eapply desc_now_super|by rewrite Hv|]. unfold bitmap_of. by rewrite Hv.
Qed.

Lemma groups_repr_super st buf buf' used : only_super fs dev buf buf' → groups_repr st buf used → groups_repr st buf' used.
Proof.
  intros O [Hr Hst Hk Hg]. constructor; [by apply O|done|unfold keys_ok; by rewrite (os_uninit _ _ _ _ O)|].
  intros gi Hgi. destruct (Hg gi Hgi) as (g0 & d & bm & Hok & Hf & Hb). exists g0, d, bm.
  split; [by eapply group_ok_super|]. split; [|done]. unfold planned_flags. by rewrite (os_uninit _ _ _ _ O).
Qed.

(** The superblock is outside every group's step. *)
Lemma sb_now_only gi l buf buf' s : is_group gi → only fs dev gi l buf buf' → bitmaps_of gi l →
  sb_now fs dev buf s → sb_now fs dev buf' s.
Proof.
  intros Hgi O Hl (blk & Ev & Hr). exists blk. split; [|done]. rewrite (only_view _ _ _ _ _ _ O); [done|..].
  - intros Hin. destruct (Hl _ Hin) as (g & Hg & Hb). apply (proj2 (lo_super _ Hlay)). exists g.
    split; [by eapply list_elem_of_lookup_2|done].
  - intros off El. apply (proj1 (lo_super _ Hlay)). by exists gi, off.
Qed.

(** A step of group [gi] that establishes the group again, for a map of used
    blocks changed inside it, re-establishes every group. *)
Lemma groups_repr_step st buf buf' used used' gi l : is_group gi → groups_repr st buf used →
  only fs dev gi l buf buf' → bitmaps_of gi l → keys_ok buf' →
  (∀ gj, gj ≠ gi → uninit_cleared buf' !! gj = uninit_cleared buf !! gj) →
  (∀ gj j, is_group gj → gj ≠ gi → 0 ≤ j < in_group gj →
     used' (group_first_block sb gj + j) = used (group_first_block sb gj + j)) →
  group_repr st buf' used' gi → groups_repr st buf' used'.
Proof.
  intros Hgi [Hr Hst Hk Hg] O Hl Hk' Hu Hused Hnew. constructor; [by eapply only_ok|done|done|].
  intros gj Hgj. destruct (decide (gj = gi)) as [->|Hne]; [done|].
  destruct (Hg gj Hgj) as (g0 & d & bm & Hok & Hf & Hb). exists g0, d, bm.
  split; [by eapply (group_ok_other gi)|]. split; [unfold planned_flags; by rewrite Hu|].
  intros j Hj. by rewrite Hb, Hused.
Qed.

(** A group whose bitmap is on disk, from its parts. *)
Lemma group_ok_intro buf gi g0 d d' bm' ws : groups !! Z.to_nat gi = Some g0 →
  Bgd.block_bitmap (bgd_of n d) = Bgd.block_bitmap g0 →
  desc_now fs dev buf gi d' → frame ws d d' → clear_of ws 0 4 = true → clear_of ws 0x20 4 = true →
  has_bits (le16 d' 0x12) Bgd.BLOCK_UNINIT = false →
  view buf (Bgd.block_bitmap g0) = Ok bm' → bytes_ok bm' → zlen bm' = bs →
  Bgd.free_blocks_count (bgd_of n d') = count_clear bm' (in_group gi) → group_ok fs dev buf gi g0 d' bm'.
Proof.
  intros Hg Hp Hd F Hc1 Hc2 Hfl Hv Hb Hz Hc. constructor; try done.
  - rewrite <-Hp. unfold bgd_of. cbn [Bgd.block_bitmap]. by rewrite (frame_ptr n _ d d') by (done || lia).
  - by exists bm'.
  - unfold bitmap_of. by rewrite Hfl.
Qed.

(** The counts of a group fit their fields. *)
Lemma free_count_fits gi bm : is_group gi → 0 ≤ count_clear bm (in_group gi) ≤ in_group gi ∧ in_group gi < count_max n.
Proof.
  intros Hgi. destruct (group_bounds fs Hgeo Hlay gi Hgi) as (Hb & _). pose proof (lo_width _ Hlay).
  split; [apply count_false_range|]; lia.
Qed.

Lemma take_run st buf used gi s len : groups_repr st buf used → is_group gi → 0 ≤ s → 1 ≤ len → s + len ≤ in_group gi →
  (∀ j, s ≤ j < s + len → used (group_first_block sb gi + j) = false) →
  ∃ buf1 buf2 l, buffer_mark_block_run_used fs dev buf (group_first_block sb gi + s) len = Ok buf1 ∧
    buffer_patch_bgd_counters fs dev buf1 gi (- len) 0 0 = Ok buf2 ∧
    groups_repr st buf2 (set_run (group_first_block sb gi + s) len true used) ∧
    only fs dev gi l buf buf2 ∧ bitmaps_of gi l.
Proof.
  intros Hrep Hgi Hs Hlen Hend Hfree. destruct (gr_group _ _ _ Hrep gi Hgi) as (g0 & d & bm & Hok & Hflags & Hbits).
  destruct (mark_used_spec fs dev Hgeo Hlay buf gi g0 d bm s len Hgi Hok Hs Hlen Hend) as
    (buf1 & d1 & bm' & E1 & Hd1 & F1 & Efl & Hv & Hb' & Hz' & Hbit & O1 & U1).
  destruct (patch_counters_spec fs dev Hgeo Hlay buf1 gi d1 (- len) 0 0 Hgi Hd1) as
    (buf2 & d2 & E2 & Hd2 & F2 & C1 & _ & _ & O2 & U2).
  exists buf1, buf2, [Bgd.block_bitmap g0]. split; [done|]. split; [done|].
  pose proof (only_trans fs dev Hgeo Hlay gi _ _ _ _ _ O1 O2) as O. cbn [app] in O.
  pose proof (go_snap _ _ _ _ _ _ _ Hok) as Hg0.
  assert (Hl : bitmaps_of gi [Bgd.block_bitmap g0]) by (intros b ->%list_elem_of_singleton; exists g0; auto).
  split; [|done]. set (used' := set_run _ len true used).
  destruct (group_bounds fs Hgeo Hlay gi Hgi) as (B1 & B2 & _). destruct (free_count_fits gi bm Hgi) as [Hfit Hfit'].
  assert (Hcnt : count_clear bm' (in_group gi) = count_clear bm (in_group gi) - len).
  { apply (count_false_run (bit bm) (bit bm') (in_group gi) s len); [done|lia|done|..].
    - intros j Hj. rewrite Hbits, Hbit by lia. split; [by apply Hfree|by rewrite decide_True].
    - intros j Hj Hn. by rewrite Hbit, decide_False by lia. }
  assert (Hpos : 0 ≤ count_clear bm' (in_group gi)) by (apply count_false_range; lia).
  assert (Hflag2 : has_bits (le16 d2 0x12) Bgd.BLOCK_UNINIT = false).
  { rewrite (frame_le16 _ _ _ _ F2) by (done || lia). rewrite Efl, has_bits_ldiff, Z.ldiff_diag, Z.land_0_r. done. }
  assert (Hok' : group_ok fs dev buf2 gi g0 d2 bm').
  { apply (group_ok_intro buf2 gi g0 d d2 bm' (mark_windows ++ counter_windows ++ [(0x1E, 2)])); try done.
    - apply Hok.
    - by eapply frame_trans.
    - rewrite (only_view _ _ _ _ _ _ O2); [done|set_solver|]. intros off. by apply (not_desc gi g0); [|left|].
    - unfold bgd_of. cbn [Bgd.free_blocks_count]. rewrite C1, (frame_count n _ d d1) by (done || lia).
      pose proof (go_count _ _ _ _ _ _ _ Hok) as Hc. unfold bgd_of in Hc. cbn [Bgd.free_blocks_count] in Hc.
      rewrite Hc, bumped_id by lia. lia. }
  assert (Hk' : uninit_cleared buf2 = if has_bits (le16 d 0x12) Bgd.BLOCK_UNINIT
      then <[gi := match uninit_cleared buf !! gi with
             Some f => Z.ldiff f Bgd.BLOCK_UNINIT | None => Z.ldiff (le16 d 0x12) Bgd.BLOCK_UNINIT end]> (uninit_cleared buf)
      else uninit_cleared buf) by (by rewrite U2).
  apply (groups_repr_step st buf buf2 used used' gi [Bgd.block_bitmap g0]); try done.
  - intros gj f. rewrite Hk'. destruct (has_bits (le16 d 0x12) Bgd.BLOCK_UNINIT); [|exact (gr_keys _ _ _ Hrep gj f)].
    destruct (decide (gj = gi)) as [->|]; [done|]. rewrite lookup_insert_ne by done. exact (gr_keys _ _ _ Hrep gj f).
  - intros gj Hne. rewrite Hk'. destruct (has_bits (le16 d 0x12) Bgd.BLOCK_UNINIT); [by rewrite lookup_insert_ne|done].
  - intros gj j Hgj Hne Hj. by apply set_run_other.
  - exists g0, d2, bm'. split; [done|]. split.
    + rewrite Hflag2. unfold planned_flags. rewrite Hk'.
      destruct (has_bits (le16 d 0x12) Bgd.BLOCK_UNINIT) eqn:Eu; [|exact Hflags].
      rewrite lookup_insert_eq. cbn [from_option id]. destruct (uninit_cleared buf !! gi);
        rewrite has_bits_ldiff, Z.ldiff_diag, Z.land_0_r; done.
    + intros j Hj. rewrite Hbit by lia. unfold used', set_run. rewrite Hbits by lia.
      destruct (decide (s ≤ j < s + len)); [by rewrite decide_True by lia|by rewrite decide_False by lia].
Qed.

(** ** Allocating *)

Lemma groups_repr_state st st' buf used : state_ok st' → cleared st' = cleared st →
  groups_repr st buf used → groups_repr st' buf used.
Proof.
  intros Hst Hc [Hr _ Hk Hg]. constructor; [done|done|done|]. intros gi Hgi. destruct (Hg gi Hgi) as (g0 & d & bm & Hok & Hf & Hb).
  exists g0, d, bm. split; [done|]. split; [|done]. unfold planned_flags. by rewrite Hc.
Qed.

(** The planner reads the bitmap the group is represented by. *)
Lemma planned_bitmap st buf used gs gi g0 d bm :
  group_ok fs dev buf gi g0 d bm →
  has_bits (planned_flags st buf gi g0) Bgd.BLOCK_UNINIT = has_bits (le16 d 0x12) Bgd.BLOCK_UNINIT →
  gs !! Z.to_nat gi = Some (with_flags g0 (planned_flags st buf gi g0)) →
  groups_repr st buf used →
  group_bitmap sb gs (view buf) gi (with_flags g0 (planned_flags st buf gi g0)) = Ok bm.
Proof.
  intros Hok Hf Hgs _. destruct (go_bitmap _ _ _ _ _ _ _ Hok) as [Hbm _]. rewrite <-Hbm.
  unfold group_bitmap, bitmap_of. cbn [Bgd.flags Bgd.block_bitmap with_flags]. rewrite Hf.
  destruct (has_bits (le16 d 0x12) Bgd.BLOCK_UNINIT); [|done].
  unfold uninit_block_bitmap, uninit_group_used_ranges. by rewrite Hgs, (go_snap _ _ _ _ _ _ _ Hok).
Qed.

(** The groups handed to the planner, by what they represent. *)
Lemma planned_group st buf used gs gi g : groups_repr st buf used →
  (∀ i g, groups !! i = Some g → gs !! i = Some (with_flags g (planned_flags st buf (Z.of_nat i) g))) →
  0 ≤ gi → groups !! Z.to_nat gi = Some g →
  ∃ bm bgd, gs !! Z.to_nat gi = Some bgd ∧ Bgd.free_blocks_count bgd = Bgd.free_blocks_count g ∧
    group_bitmap sb gs (view buf) gi bgd = Ok bm ∧ zlen bm = bs ∧
    ∀ j, 0 ≤ j < in_group gi → bit bm j = used (group_first_block sb gi + j).
Proof.
  intros Hrep Hv Hgi Hg. pose proof (lookup_lt_zlen _ _ _ Hg) as Hlt.
  destruct (gr_group _ _ _ Hrep gi) as (g0 & d & bm & Hok & Hfl & Hb); [split; lia|].
  pose proof (go_snap _ _ _ _ _ _ _ Hok) as Hg'. rewrite Hg in Hg'. injection Hg' as <-.
  pose proof (Hv _ _ Hg) as Hgs. rewrite Z2Nat.id in Hgs by done. exists bm, (with_flags g (planned_flags st buf gi g)).
  split; [done|]. split; [done|]. split; [by eapply planned_bitmap|]. split; [apply (go_bitmap _ _ _ _ _ _ _ Hok)|done].
Qed.

(** A plan against a represented volume is a run of unused blocks. *)
Lemma plan_refines st buf used count hint : groups_repr st buf used → 1 ≤ count < 2 ^ 31 → 0 ≤ hint →
  match plan_buffered_block_allocation fs dev st buf count hint with
  | Ok (p, st') => state_ok st' ∧ cleared st' = cleared st ∧ ∃ gi bgd k, is_group gi ∧ p = plan_for sb gi bgd count k ∧
      0 ≤ k ∧ k + count ≤ in_group gi ∧ ∀ j, k ≤ j < k + count → used (group_first_block sb gi + j) = false
  | Err e => (∃ b, view buf b = Err e) ∨
      e = Corrupt "no group has a contiguous free run of this size" ∧
      ∀ gi g, 0 ≤ gi → groups !! Z.to_nat gi = Some g → Bgd.free_blocks_count g < count ∨
        ∀ k, 0 ≤ k → k + count ≤ in_group gi → ∃ j, k ≤ j < k + count ∧ used (group_first_block sb gi + j) = true
  | _ => False
  end.
Proof.
  intros Hrep Hcnt Hhint. unfold plan_buffered_block_allocation, plan_buffered_block_allocation_excluding.
  destruct (planned_groups st buf (gr_state _ _ _ Hrep) (gr_keys _ _ _ Hrep)) as (base & st' & gs & -> & Egs & Hz & Hst' & Hc' & Hv).
  rewrite bind_Ok. cbn beta iota. rewrite Egs, bind_Ok.
  pose proof (lo_count _ Hlay) as Hn. pose proof (lo_many _ Hlay) as Hm.
  pose proof (plan_block_cases sb gs (view buf) Hgeo ltac:(congruence) ltac:(lia) (gr_reader _ _ _ Hrep)
    count hint [] ltac:(lia) Hhint) as Hplan.
  destruct (plan_block_allocation_excluding sb gs (view buf) count hint []) as [p|e| |]; try done; rewrite ?bind_Ok.
  - destruct Hplan as (gi & bgd & bm & k & Hgi & Hbgd & _ & Ebm & (Hk0 & Hk1 & _ & Hrun & _) & ->).
    split; [done|]. split; [done|]. exists gi, bgd, k.
    assert (Hgi' : is_group gi) by (unfold FreeCounts.is_group; lia). split; [done|]. split; [done|]. split; [done|]. split; [done|].
    destruct (lookup_lt_is_Some_2 groups (Z.to_nat gi)) as [g Hg]; [unfold FreeCounts.is_group, zlen in Hgi'; lia|].
    destruct (planned_group st buf used gs gi g Hrep Hv ltac:(lia) Hg) as (bm' & bgd' & Hbgd' & _ & Ebm' & _ & Hb).
    rewrite Hbgd in Hbgd'. injection Hbgd' as <-. rewrite Ebm in Ebm'. injection Ebm' as <-.
    intros j Hj. rewrite <-Hb by lia. by apply Hrun.
  - destruct Hplan as [?|[-> Hno]]; [by left|right]. split; [done|]. intros gi g Hgi Hg.
    destruct (planned_group st buf used gs gi g Hrep Hv Hgi Hg) as (bm & bgd & Hbgd & <- & Ebm & Hzb & Hb).
    destruct (Hno gi bgd Hgi Hbgd) as [?|(bm' & Ebm' & Hs')]; [by left|right]. rewrite Ebm in Ebm'. injection Ebm' as <-.
    intros k Hk0 Hk1. destruct (existsb (λ j, used (group_first_block sb gi + j)) (seqZ k count)) eqn:Ex.
    { apply existsb_exists in Ex as (j & Hj%list_elem_of_In%elem_of_seqZ & Eu). exists j. split; [lia|done]. }
    exfalso. apply (Hs' k).
    assert (Hgi' : is_group gi) by (split; [lia|by apply lookup_lt_zlen in Hg; lia]).
    destruct (group_bounds fs Hgeo Hlay gi Hgi') as (_ & B2 & _).
    split; [done|]. split; [done|]. split; [rewrite Hzb; lia|]. split; [|constructor]. intros j Hj. rewrite Hb by lia.
    apply not_true_iff_false. intros Eu. apply not_true_iff_false in Ex. apply Ex, existsb_exists. exists j.
    split; [apply list_elem_of_In, elem_of_seqZ; lia|done].
Qed.

Lemma credit st buf used used' s c : groups_repr st buf used' → sb_now fs dev buf s →
  sb_free_blocks s = total_free used → total_free used' = total_free used + c → ∀ di,
  0 ≤ sb_free_inodes s + di < 2 ^ 32 →
  ∃ buf', buffer_patch_sb_counters fs dev buf c di = Ok buf' ∧ volume_repr st buf' used'.
Proof.
  intros Hrep Hs Hf Ht di Hdi. pose proof (total_bounds used). pose proof (total_bounds used').
  destruct (patch_sb_counters_spec fs dev Hgeo buf s c di Hs) as (buf' & s' & E & Hs' & O & Hb & _); [lia..|done|].
  exists buf'. split; [done|]. split; [by eapply groups_repr_super|]. exists s'. split; [done|]. lia.
Qed.

Lemma sb_inodes_range buf s : sb_now fs dev buf s → 0 ≤ sb_free_inodes s < 2 ^ 32.
Proof. intros Hs. destruct (sb_now_len fs dev Hgeo buf s Hs) as [_ Hb]. by apply le32_range. Qed.
(** ** Freeing *)

Lemma in_group_eq gi : is_group gi →
  in_group gi = Z.min (Superblock.blocks_per_group sb) (Superblock.blocks_count sb - group_first_block sb gi).
Proof.
  intros [Hgi0 Hgi]. pose proof (lo_count _ Hlay) as Hn. pose proof (lo_many _ Hlay) as Hm.
  pose proof (Superblock.geo_bpg _ Hgeo) as Hbpg. pose proof (Superblock.geo_first _ Hgeo) as Hf.
  pose proof (Superblock.group_count_tight (Superblock.blocks_count sb) (Superblock.first_data_block sb)
    (Superblock.blocks_per_group sb) ltac:(lia) Hf) as Ht.
  rewrite Hn in Hgi, Hm. unfold blocks_in_group, group_first_block. unfold Superblock.block_group_count in *.
  set (m := Superblock.group_count _ _ _) in *.
  set (bpg := Superblock.blocks_per_group sb) in *. set (f := Superblock.first_data_block sb) in *.
  set (bc := Superblock.blocks_count sb) in *. unfold saturating_sub. rewrite Z.max_r by lia.
  pose proof (Z.div_mod (bc - f) bpg ltac:(lia)) as Hdm. pose proof (Z.mod_pos_bound (bc - f) bpg ltac:(lia)) as Hmb.
  unfold as_u32. rewrite (Z.mod_small m), (Z.mod_small (gi + 1)) by lia.
  assert (Hn2 : bc - f ≤ m * bpg).
  { unfold m, Superblock.group_count, div_ceil, saturating_sub. rewrite Z.max_r, Z.max_l by lia.
    pose proof (Z.mul_succ_div_gt (bc - f + bpg - 1) bpg ltac:(lia)). lia. }
  case_decide as Hlast; [nia|]. assert (gi = m - 1) as -> by lia. case_decide as Hr.
  - rewrite Hr in Hdm. assert ((bc - f) / bpg = m) by nia. nia.
  - rewrite Z.mod_small by lia. assert ((bc - f) / bpg = m - 1) by nia. nia.
Qed.

Lemma group_of_block b : Superblock.first_data_block sb ≤ b < Superblock.blocks_count sb →
  is_group ((b - Superblock.first_data_block sb) / Superblock.blocks_per_group sb).
Proof.
  intros Hb. pose proof (Superblock.geo_bpg _ Hgeo) as Hbpg. unfold FreeCounts.is_group. rewrite (lo_count _ Hlay).
  pose proof (Superblock.geo_first _ Hgeo). apply Superblock.group_count_covers; lia.
Qed.

(** A run as pieces that lie in one group each. *)
Inductive covers : Z → Z → list (Z * Z * Z) → Prop :=
  | covers_nil stop : covers stop stop []
  | covers_cons start stop gi b c l : is_group gi → start = group_first_block sb gi + b → 0 ≤ b → 1 ≤ c →
      b + c ≤ in_group gi → covers (start + c) stop l → covers start stop ((gi, b, c) :: l).

Lemma chunks_of_spec stop : stop ≤ Superblock.blocks_count sb → ∀ fuel at_,
  Superblock.first_data_block sb ≤ at_ ≤ stop →
  (at_ < stop → zlen groups - (at_ - Superblock.first_data_block sb) / Superblock.blocks_per_group sb ≤ Z.of_nat fuel) →
  ∃ l, chunks_of fs fuel at_ stop = Ok l ∧ covers at_ stop l.
Proof.
  intros Hstop. pose proof (Superblock.geo_bpg _ Hgeo) as Hbpg. induction fuel as [|fuel IH]; intros at_ Hat Hf.
  { cbn [chunks_of]. case_decide as Hd.
    - pose proof (group_of_block at_ ltac:(lia)) as [_ Hg]. lia.
    - exists []. split; [done|]. replace stop with at_ by lia. constructor. }
  cbn [chunks_of]. case_decide as Hd; [|exists []; split; [done|]; replace stop with at_ by lia; constructor].
  pose proof (group_of_block at_ ltac:(lia)) as Hgi. cbv zeta.
  set (bpg := Superblock.blocks_per_group sb) in *. set (fdb := Superblock.first_data_block sb) in *.
  set (gi := (at_ - fdb) / bpg) in *. rewrite decide_False by (destruct Hgi; lia).
  pose proof (in_group_eq gi Hgi) as Hin. unfold group_first_block in Hin. fold bpg fdb in Hin.
  pose proof (Z.div_mod (at_ - fdb) bpg ltac:(lia)) as Hdm. pose proof (Z.mod_pos_bound (at_ - fdb) bpg ltac:(lia)) as Hmb.
  fold gi in Hdm. set (c := Z.min stop (fdb + gi * bpg + bpg) - at_).
  assert (Hc : 1 ≤ c) by (unfold c; lia). assert (Hce : at_ + c ≤ stop) by (unfold c; lia).
  destruct (IH (at_ + c)) as (l & E & Hl); [lia|..].
  { intros Hlt. assert (at_ + c - fdb = (gi + 1) * bpg) as -> by (unfold c in *; lia). rewrite Z.div_mul by lia. lia. }
  rewrite E, bind_Ok. eexists. split; [done|]. constructor; try done; unfold group_first_block; fold bpg fdb; [lia|lia|].
  rewrite Hin. unfold c. lia.
Qed.

Lemma desc_now_unique buf gi d d' : desc_now fs dev buf gi d → desc_now fs dev buf gi d' → d = d'.
Proof.
  intros (blk & off & x & El & Ev & _ & _ & _ & ->) (blk' & off' & x' & El' & Ev' & _ & _ & _ & ->).
  rewrite El in El'. injection El' as <- <-. rewrite Ev in Ev'. by injection Ev' as <-.
Qed.

(** A group whose bitmap block is in use, not implied by its flag. *)
Definition init_group (buf : BlockBuffer) (gi : Z) : Prop :=
  ∀ d, desc_now fs dev buf gi d → has_bits (le16 d 0x12) Bgd.BLOCK_UNINIT = false.

(** One piece given back. *)
Lemma give_chunk st buf used gi b c : groups_repr st buf used → is_group gi → 0 ≤ b → 1 ≤ c → b + c ≤ in_group gi →
  (∀ j, b ≤ j < b + c → used (group_first_block sb gi + j) = true) → init_group buf gi →
  ∃ buf' l, free_chunk fs dev buf (gi, b, c) = Ok buf' ∧ only fs dev gi l buf buf' ∧ bitmaps_of gi l ∧
    groups_repr st buf' (set_run (group_first_block sb gi + b) c false used) ∧
    ∀ gj, is_group gj → init_group buf gj → init_group buf' gj.
Proof.
  intros Hrep Hgi Hb Hc Hend Hused Hinit. destruct (gr_group _ _ _ Hrep gi Hgi) as (g0 & d & bm & Hok & Hflags & Hbits).
  pose proof (go_snap _ _ _ _ _ _ _ Hok) as Hg0. pose proof (go_desc _ _ _ _ _ _ _ Hok) as Hd.
  destruct (go_bitmap _ _ _ _ _ _ _ Hok) as (Hbm & Hbb & Hbl). pose proof (Hinit d Hd) as Hfl.
  unfold bitmap_of in Hbm. rewrite Hfl in Hbm.
  destruct (write_bits_spec false b c bm Hbb Hb ltac:(lia)) as (bm' & Ew & Hb' & Hl' & Hbit).
  destruct (bitmap_step fs dev Hgeo Hlay buf gi d g0 false (write_bits false b c) bm bm' Hgi Hd Hg0 Hbm Ew Hb') as
    (buf1 & buf2 & d2 & E1 & E2 & Hd2 & F2 & Hv2 & O2 & U2).
  destruct (patch_counters_spec fs dev Hgeo Hlay buf2 gi d2 c 0 0 Hgi Hd2) as (buf3 & d3 & E3 & Hd3 & F3 & C1 & _ & _ & O3 & U3).
  destruct (group_bounds fs Hgeo Hlay gi Hgi) as (B1 & B2 & _). destruct (free_count_fits gi bm Hgi) as [Hfit Hfit'].
  exists buf3, [Bgd.block_bitmap g0]. pose proof (only_trans fs dev Hgeo Hlay gi _ _ _ _ _ O2 O3) as O. cbn [app] in O.
  assert (Hl : bitmaps_of gi [Bgd.block_bitmap g0]) by (intros x ->%list_elem_of_singleton; exists g0; auto).
  assert (Hc31 : as_i32 c = c).
  { pose proof (Superblock.block_size_range sb (Superblock.geo_log _ Hgeo)). unfold as_i32. rewrite Z.mod_small; lia. }
  split; [|split; [done|split; [done|]]].
  { unfold free_chunk. rewrite Hg0. cbn [unwrap]. rewrite bind_Ok. cbn [Bgd.block_bitmap] in *. rewrite E1, bind_Ok, E2, bind_Ok, Hc31. exact E3. }
  pose proof (frame_trans _ _ _ _ _ F2 F3) as F.
  assert (Hfl3 : has_bits (le16 d3 0x12) Bgd.BLOCK_UNINIT = false) by (by rewrite (frame_le16 _ _ _ _ F) by (done || lia)).
  assert (Hcnt : count_clear bm' (in_group gi) = count_clear bm (in_group gi) + c).
  { pose proof (count_false_run (bit bm') (bit bm) (in_group gi) b c) as Hcf. unfold count_clear. rewrite Hcf; [lia|done|lia|done|..].
    - intros j Hj. rewrite Hbit, Hbits by lia. split; [by rewrite decide_True|by apply Hused].
    - intros j Hj Hn. by rewrite Hbit, decide_False by lia. }
  assert (Hmax : count_clear bm' (in_group gi) ≤ in_group gi) by (apply count_false_range; lia).
  assert (Hok' : group_ok fs dev buf3 gi g0 d3 bm').
  { apply (group_ok_intro buf3 gi g0 d d3 bm' (csum_windows false ++ counter_windows ++ [(0x1E, 2)])); try done; [apply Hok| |lia|].
    - rewrite (only_view _ _ _ _ _ _ O3); [done|set_solver|]. intros off. by apply (not_desc gi g0); [|left|].
    - unfold bgd_of. cbn [Bgd.free_blocks_count]. rewrite C1, (frame_count n _ d d2) by (done || lia).
      pose proof (go_count _ _ _ _ _ _ _ Hok) as Hcount. unfold bgd_of in Hcount. cbn [Bgd.free_blocks_count] in Hcount.
      rewrite Hcount, bumped_id by lia. lia. }
  split.
  - apply (groups_repr_step st buf buf3 used _ gi [Bgd.block_bitmap g0]); try done.
    + intros gj f. rewrite U3, U2. exact (gr_keys _ _ _ Hrep gj f).
    + intros gj _. by rewrite U3, U2.
    + intros gj j Hgj Hne Hj. by apply set_run_other.
    + exists g0, d3, bm'. split; [done|]. split; [rewrite Hfl3; unfold planned_flags; rewrite U3, U2; unfold planned_flags in Hflags; by rewrite Hflags|].
      intros j Hj. rewrite Hbit by lia. unfold set_run. rewrite Hbits by lia.
      destruct (decide (b ≤ j < b + c)); [by rewrite decide_True by lia|by rewrite decide_False by lia].
  - intros gj Hgj Hi dj Hdj. destruct (decide (gj = gi)) as [->|Hne].
    + by rewrite (desc_now_unique _ _ _ _ Hdj Hd3).
    + destruct (gr_group _ _ _ Hrep gj Hgj) as (g1 & d1 & bm1 & Hok1 & _). pose proof (go_desc _ _ _ _ _ _ _ Hok1) as Hd1.
      rewrite (desc_now_unique _ _ _ _ Hdj (only_desc _ _ _ _ _ _ O gj d1 Hgj Hne Hd1)). by apply Hi.
Qed.

Lemma groups_repr_ext st buf used used' : (∀ x, used' x = used x) → groups_repr st buf used → groups_repr st buf used'.
Proof.
  intros E [Hr Hst Hk Hg]. constructor; [done..|]. intros gi Hgi. destruct (Hg gi Hgi) as (g0 & d & bm & Hok & Hf & Hb).
  exists g0, d, bm. split; [done|]. split; [done|]. intros j Hj. by rewrite E, Hb.
Qed.

Lemma total_free_ext used used' : (∀ x, used' x = used x) → total_free used' = total_free used.
Proof.
  intros E. unfold total_free. f_equal. apply list_fmap_ext. intros _ gi _. by apply free_in_same.
Qed.

Lemma set_run_join start c len v used x : 0 ≤ c → 0 ≤ len →
  set_run (start + c) len v (set_run start c v used) x = set_run start (c + len) v used x.
Proof. intros. unfold set_run. repeat case_decide; try done; lia. Qed.

Lemma set_run_none start v used x : set_run start 0 v used x = used x.
Proof. unfold set_run. by rewrite decide_False by lia. Qed.

(** Edits of other blocks leave all of this as it was. *)
Lemma desc_now_data buf buf' gi d : is_group gi → (∀ b, is_desc_block fs b → view buf' b = view buf b) →
  desc_now fs dev buf gi d → desc_now fs dev buf' gi d.
Proof.
  intros Hgi Hv (blk & off & x & El & Ev & Hx). exists blk, off, x. split; [done|]. split; [|done].
  rewrite Hv; [done|]. by exists gi, off.
Qed.

Lemma groups_repr_data st buf buf' used : groups_repr st buf used → reader_ok (view buf') →
  uninit_cleared buf' = uninit_cleared buf → (∀ b, is_desc_block fs b ∨ is_bitmap fs b → view buf' b = view buf b) →
  groups_repr st buf' used.
Proof.
  intros [_ Hst Hk Hg] Hr Hu Hv. constructor; [done|done|by intros gi f; rewrite Hu; apply Hk|].
  intros gi Hgi. destruct (Hg gi Hgi) as (g0 & d & bm & [S1 S2 S3 S4 S5 S6] & Hf & Hb). exists g0, d, bm.
  assert (Eb : view buf' (Bgd.block_bitmap g0) = view buf (Bgd.block_bitmap g0)).
  { apply Hv. right. exists g0. split; [by eapply list_elem_of_lookup_2|by left]. }
  split; [|split; [by unfold planned_flags; rewrite Hu|done]].
  constructor; [done|eapply desc_now_data; [exact Hgi| |exact S2]; intros x Hx; apply Hv; by left|done|by rewrite Eb|by unfold bitmap_of in *; rewrite Eb|done].
Qed.

Lemma init_group_data buf buf' gi : is_group gi → (∀ b, is_desc_block fs b → view buf' b = view buf b) →
  init_group buf gi → init_group buf' gi.
Proof. intros Hgi Hv Hi d Hd. apply Hi. eapply desc_now_data; [done| |exact Hd]. intros b Hb. by rewrite Hv. Qed.

(** What giving back a run, or several, leaves. *)
Definition gave (st : AllocationState) (buf buf' : BlockBuffer) (used used' : Z → bool) (total : Z) : Prop :=
  groups_repr st buf' used' ∧ total_free used' = total_free used + total ∧
  (∀ gj, is_group gj → init_group buf gj → init_group buf' gj) ∧
  (∀ s, sb_now fs dev buf s → sb_now fs dev buf' s) ∧
  ∀ b, ¬ is_desc_block fs b → ¬ is_bitmap fs b → view buf' b = view buf b.

Lemma give_pieces start stop l : covers start stop l → start ≤ stop ∧ ∀ st buf used,
  groups_repr st buf used → (∀ x, start ≤ x < stop → used x = true) →
  (∀ gi x, is_group gi → start ≤ x < stop →
     group_first_block sb gi ≤ x < group_first_block sb gi + in_group gi → init_group buf gi) →
  ∃ buf', foldM (free_chunk fs dev) buf l = Ok buf' ∧
    gave st buf buf' used (set_run start (stop - start) false used) (stop - start).
Proof.
  induction 1 as [stop|start stop gi b c l Hgi -> Hb Hc Hend Hcov [Hle IH]].
  { split; [lia|]. intros st buf used Hrep _ _. exists buf. split; [done|]. rewrite Z.sub_diag.
    split; [by eapply groups_repr_ext; [apply set_run_none|]|].
    split; [rewrite (total_free_ext used) by apply set_run_none; lia|done]. }
  split; [lia|]. intros st buf used Hrep Hused Hinit. set (start := group_first_block sb gi + b) in *.
  destruct (give_chunk st buf used gi b c Hrep Hgi Hb Hc Hend) as (buf1 & k & E1 & O & Hk & Hrep1 & Hi1).
  { intros j Hj. apply Hused. unfold start. lia. } { apply (Hinit gi start); [done|lia|unfold start; lia]. }
  fold start in Hrep1. cbn [foldM]. rewrite E1, bind_Ok.
  destruct (IH st buf1 (set_run start c false used) Hrep1) as (buf' & E' & Hrep' & Ht & Hi' & Hs' & Hv').
  { intros x Hx. unfold set_run. rewrite decide_False by lia. apply Hused. lia. }
  { intros gj x Hgj Hx Hxg. apply Hi1; [done|]. apply (Hinit gj x); [done|lia|done]. }
  exists buf'. split; [done|].
  assert (Ej : ∀ x, set_run start (stop - start) false used x =
    set_run (start + c) (stop - (start + c)) false (set_run start c false used) x).
  { intros x. rewrite set_run_join by lia. f_equal. lia. }
  split; [by eapply groups_repr_ext|]. split; [|split; [|split]].
  - rewrite (total_free_ext _ _ Ej), Ht.
    rewrite (total_change used (set_run start c false used) gi c); [lia|done|..].
    + pose proof (free_in_run (set_run start c false used) used gi b c) as Hf. fold start in Hf.
      rewrite Hf; [lia|done|lia|done|..].
      * intros j Hj. unfold set_run. rewrite decide_True by (unfold start; lia). done.
      * intros j Hj. unfold set_run. case_decide; [apply Hused; lia|done].
    + intros gj Hgj Hne. apply free_in_same. intros j Hj. by apply set_run_other.
  - intros gj Hgj Hg. by apply Hi', Hi1.
  - intros s Hs. apply Hs'. by eapply (sb_now_only gi).
  - intros x Hd Hm. rewrite Hv' by done. apply (only_view _ _ _ _ _ _ O).
    + intros Hx. destruct (Hk x Hx) as (g & Hg & Hor). apply Hm. exists g. split; [by eapply list_elem_of_lookup_2|done].
    + intros off E. apply Hd. by exists gi, off.
Qed.

Lemma give_run st buf used start len : groups_repr st buf used → Superblock.first_data_block sb ≤ start → 0 ≤ len →
  start + len ≤ Superblock.blocks_count sb → (∀ x, start ≤ x < start + len → used x = true) →
  (∀ gi x, is_group gi → start ≤ x < start + len →
     group_first_block sb gi ≤ x < group_first_block sb gi + in_group gi → init_group buf gi) →
  ∃ buf', buffer_free_block_run_and_bgd fs dev buf start len = Ok (len, buf') ∧
    gave st buf buf' used (set_run start len false used) len.
Proof.
  intros Hrep Hs Hl He Hused Hinit. pose proof (Superblock.geo_bpg _ Hgeo). pose proof (Superblock.geo_blocks _ Hgeo).
  unfold buffer_free_block_run_and_bgd, group_chunks, checked_add64. rewrite decide_True by (unfold u64_max; lia).
  cbn [ok_or]. rewrite bind_Ok. rewrite decide_False by lia. rewrite decide_False by lia.
  destruct (chunks_of_spec (start + len) He (S (length groups)) start) as (l & -> & Hcov); [lia|..].
  { intros Hlt. pose proof (group_of_block start ltac:(lia)) as [? _]. unfold zlen. lia. }
  rewrite bind_Ok. destruct (give_pieces _ _ _ Hcov) as [_ Hg].
  destruct (Hg st buf used Hrep Hused Hinit) as (buf' & -> & Hgave). rewrite bind_Ok. exists buf'. split; [done|].
  by replace (start + len - start) with len in Hgave by lia.
Qed.

(** The runs of a file, each still in use when its turn comes: no block twice. *)
Fixpoint runs_used (used : Z → bool) (runs : list (Z * Z)) : Prop :=
  match runs with
  | [] => True
  | (start, len) :: runs =>
      Superblock.first_data_block sb ≤ start ∧ 0 ≤ len ∧ start + len ≤ Superblock.blocks_count sb ∧
      (∀ x, start ≤ x < start + len → used x = true) ∧ runs_used (set_run start len false used) runs
  end.

Definition give_back (used : Z → bool) (runs : list (Z * Z)) : Z → bool :=
  foldl (λ used '(start, len), set_run start len false used) used runs.
Definition run_total (runs : list (Z * Z)) : Z := foldr Z.add 0 (snd <$> runs).

(** The groups the runs touch keep their bitmaps on disk. *)
Definition runs_init (buf : BlockBuffer) (runs : list (Z * Z)) : Prop :=
  ∀ gi x r, is_group gi → r ∈ runs → fst r ≤ x < fst r + snd r →
    group_first_block sb gi ≤ x < group_first_block sb gi + in_group gi → init_group buf gi.

Lemma give_runs runs : ∀ st buf used freed, groups_repr st buf used → runs_used used runs → runs_init buf runs →
  0 ≤ freed ≤ total_free used →
  ∃ buf', foldM (λ '(freed, buf) '(start, len),
      '(k, buf) ← buffer_free_block_run_and_bgd fs dev buf start len; Ok (as_u64 (freed + k), buf)) (freed, buf) runs
    = Ok (freed + run_total runs, buf') ∧ gave st buf buf' used (give_back used runs) (run_total runs).
Proof.
  induction runs as [|[start len] runs IH]; intros st buf used freed Hrep Hruns Hinit Hfreed.
  { exists buf. cbn [foldM give_back foldl]. unfold run_total. cbn [fmap list_fmap foldr].
    split; [do 2 f_equal; lia|]. split; [done|]. split; [lia|done]. }
  destruct Hruns as (Hs & Hl & He & Hused & Hruns).
  destruct (give_run st buf used start len Hrep Hs Hl He Hused) as (buf1 & E1 & Hrep1 & Ht1 & Hi1 & Hs1 & Hv1).
  { intros gi x Hgi Hx. apply (Hinit gi x (start, len) Hgi); [set_solver|exact Hx]. }
  pose proof (total_bounds (set_run start len false used)) as Hb.
  cbn [foldM]. rewrite E1, !bind_Ok.
  replace (as_u64 (freed + len)) with (freed + len) by (unfold as_u64; rewrite Z.mod_small; lia).
  destruct (IH st buf1 _ (freed + len) Hrep1 Hruns) as (buf' & E' & Hrep' & Ht' & Hi' & Hs' & Hv'); [|lia|].
  { intros gi x r Hgi Hr Hx Hxg. apply Hi1; [done|]. apply (Hinit gi x r); [done|set_solver|done|done]. }
  exists buf'. unfold run_total in *. rewrite fmap_cons. cbn [foldr snd]. rewrite E'. split; [do 2 f_equal; lia|].
  split; [done|]. split; [unfold give_back in *; cbn [foldl]; lia|]. split; [auto|]. split; [auto|].
  intros b Hd Hm. by rewrite Hv', Hv1.
Qed.
End refine.

(** C12: allocating a block refines taking an unused one.  On a staged volume
    that represents the map [used] -- every group's bitmap, free count and
    uninit flag as the planner sees it, and the superblock's count, agree with
    it -- [buffer_allocate_block] returns a data block that was not in use and
    a buffer that represents the map with that block in use, so the next
    allocation cannot return it again.  It fails only when a block cannot be
    read, or when every group either claimed no free block at mount time or has
    all its blocks in use; it never panics. *)
Theorem buffer_allocate_block_refines `{Crc32c} fs dev `{!ReaderOk dev} st buf used ino :
  let sb := Filesystem.sb fs in
  Superblock.geometry_ok sb → layout_ok fs → volume_repr fs dev st buf used →
  match buffer_allocate_block fs dev st buf ino with
  | Ok (b, buf', st') => Superblock.first_data_block sb ≤ b < Superblock.blocks_count sb ∧ used b = false ∧
      volume_repr fs dev st' buf' (set_run b 1 true used)
  | Err e => (∃ b, view fs dev buf b = Err e) ∨
      e = Corrupt "no group has a contiguous free run of this size" ∧
      ∀ gi g, 0 ≤ gi → Filesystem.groups fs !! Z.to_nat gi = Some g → Bgd.free_blocks_count g < 1 ∨
        ∀ j, 0 ≤ j < blocks_in_group sb gi → used (group_first_block sb gi + j) = true
  | _ => False
  end.
Proof.
  intros sb. subst sb. intros Hgeo Hlay [Hrep (s & Hs & Hsb)]. unfold buffer_allocate_block.
  pose proof (Superblock.geo_ipg _ Hgeo) as Hipg. rewrite decide_False by lia.
  set (hint := as_u32 (ino - 1) / Superblock.inodes_per_group (Filesystem.sb fs)).
  assert (Hhint : 0 ≤ hint) by (apply Z.div_pos; [apply Z.mod_pos_bound; lia|lia]).
  pose proof (plan_refines fs dev Hgeo Hlay st buf used 1 hint Hrep ltac:(lia) Hhint) as Hplan.
  destruct (plan_buffered_block_allocation fs dev st buf 1 hint) as [[p st']|e| |]; try done; rewrite ?bind_Ok.
  2: { destruct Hplan as [?|[-> Hno]]; [by left|right]. split; [done|]. intros gi g Hgi Hg.
    destruct (Hno gi g Hgi Hg) as [?|Hall]; [by left|right]. intros j Hj.
    destruct (Hall j) as (k & Hk & Eu); [lia|lia|]. by replace j with k by lia. }
  cbn beta iota. destruct Hplan as (Hst' & Hc' & gi & bgd & k & Hgi & -> & Hk0 & Hk1 & Hfree).
  cbn [plan_for first_block bp_bgd bp_sb group_idx bgd_free_blocks_delta
    bgd_free_inodes_delta used_dirs_delta sb_free_blocks_delta sb_free_inodes_delta].
  destruct (take_run fs dev Hgeo Hlay st buf used gi k 1 Hrep Hgi Hk0 ltac:(lia) Hk1 Hfree) as (buf1 & buf2 & l & E1 & E2 & Hrep2 & O & Hl).
  rewrite E1, bind_Ok, E2, bind_Ok.
  destruct (group_bounds fs Hgeo Hlay gi Hgi) as (B1 & B2 & B3 & B4).
  assert (Htot : total_free fs (set_run (group_first_block (Filesystem.sb fs) gi + k) 1 true used) = total_free fs used + -1).
  { apply (total_change fs dev Hgeo Hlay used _ gi); [done|..].
    - apply (free_in_run fs used _ gi k 1); [done|lia|done|done|done].
    - intros gj Hgj Hne. apply free_in_same. intros j Hj. by apply (set_run_other fs Hgeo Hlay gi gj k 1). }
  pose proof (sb_now_only fs dev Hlay gi l _ _ _ Hgi O Hl Hs) as Hs2.
  destruct (credit fs dev Hgeo Hlay st' buf2 used (set_run (group_first_block (Filesystem.sb fs) gi + k) 1 true used) s (-1)) with (di := 0) as (buf3 & E3 & Hvol);
    [by eapply groups_repr_state|done|done|done|pose proof (sb_inodes_range fs dev Hgeo buf2 s Hs2); lia|].
  change (- (1)) with (-1). rewrite E3, bind_Ok. split; [lia|]. split; [apply Hfree; lia|done].
Qed.

(** C13: freeing what a file holds refines returning its blocks.  When the runs
    to free are all in use, no block twice, and the groups they touch are
    initialised, [buffer_free_runs] frees them whatever group boundaries they
    cross, and returns their total; crediting the superblock with that total
    gives a buffer that represents the map with exactly those blocks returned. *)
Theorem buffer_free_runs_refine `{Crc32c} fs dev `{!ReaderOk dev} st buf used runs :
  let sb := Filesystem.sb fs in
  Superblock.geometry_ok sb → layout_ok fs → volume_repr fs dev st buf used →
  runs_used fs used runs → runs_init fs dev buf runs →
  ∃ buf1 buf2, buffer_free_runs fs dev buf runs = Ok (run_total runs, buf1) ∧
    buffer_patch_sb_counters fs dev buf1 (run_total runs) 0 = Ok buf2 ∧
    volume_repr fs dev st buf2 (give_back used runs).
Proof.
  intros sb Hgeo Hlay [Hrep (s & Hs & Hsb)] Hruns Hinit.
  pose proof (total_bounds fs dev Hgeo Hlay used) as Hb.
  destruct (give_runs fs dev Hgeo Hlay runs st buf used 0 Hrep Hruns Hinit ltac:(lia)) as (buf1 & E & Hrep1 & Ht & _ & Hs1 & _).
  rewrite Z.add_0_l in E. exists buf1.
  destruct (credit fs dev Hgeo Hlay st buf1 used (give_back used runs) s (run_total runs) Hrep1 (Hs1 _ Hs) Hsb Ht) with (di := 0)
    as (buf2 & E2 & Hvol).
  { pose proof (sb_inodes_range fs dev Hgeo buf1 s (Hs1 _ Hs)). lia. }
  exists buf2. split; [exact E|]. by split.
Qed.

(** ** Witnesses *)

(** Two groups of 16 one-KiB blocks.  In use: 1..10 in group 0, and in group 1,
    whose bitmap is left to BLOCK_UNINIT, its superblock and descriptor copies
    (17, 18), its bitmaps and its inode table (20..22). *)
Definition small_raw : bytes :=
  let set w off v b := splice b off (le_split w v) in
  set 2%nat 0x38 Superblock.EXT4_MAGIC (set 4%nat 0x4C 1 (set 2%nat 0x58 128 (set 4%nat 0x28 8
    (set 4%nat 0x20 16 (set 4%nat 0x14 1 (set 4%nat 0x0C 17 (set 4%nat 0x04 33 (set 4%nat 0x00 16
    (zrep 1024 0))))))))).
Definition small_desc (bb ib it free flags : Z) : bytes :=
  le_split 4 bb ++ le_split 4 ib ++ le_split 4 it ++ le_split 2 free ++ zrep 4 0 ++ le_split 2 flags ++ zrep 12 0.
Definition small_desc0 : bytes := small_desc 3 4 5 6 0.
Definition small_desc1 : bytes := small_desc 20 21 22 11 Bgd.BLOCK_UNINIT.
Definition small_bitmap0 : bytes := [255; 3] ++ zrep 1022 0.
Definition small_image : bytes :=
  zrep 1024 0 ++ small_raw ++ (small_desc0 ++ small_desc1 ++ zrep 960 0) ++ small_bitmap0 ++ zrep (29 * 1024) 0.
Definition small_sb : { sb | Superblock.parse small_raw = Ok sb }.
Proof.
  destruct (Superblock.parse small_raw) as [sb| | |] eqn:E; [by exists sb|..]; exfalso; vm_compute in E; discriminate.
Defined.
Definition small_fs : Filesystem.t :=
  Filesystem.mk (proj1_sig small_sb) [bgd_of 32 small_desc0; bgd_of 32 small_desc1] (mkChecksummer 0 false).
Definition small_used (b : Z) : bool := bool_decide (b ≤ 10 ∨ b = 17 ∨ b = 18 ∨ 20 ≤ b ≤ 22).
Definition small_dev : reader := image_reader small_image.
Definition no_clears : AllocationState := mkAlloc ∅ None.

#[local] Existing Instance castagnoli.

Lemma small_geo : Superblock.geometry_ok (proj1_sig small_sb).
Proof. apply (Superblock.parse_geometry small_raw); [by_compute|apply (proj2_sig small_sb)]. Qed.

#[local] Instance small_dev_ok : ReaderOk small_dev.
Proof. apply image_reader_ok. by_compute. Qed.

Lemma small_groups gi : is_group small_fs gi → gi = 0 ∨ gi = 1.
Proof. unfold is_group. change (zlen (Filesystem.groups small_fs)) with 2. lia. Qed.

Lemma small_slots gi : is_group small_fs gi →
  Superblock.descriptor_location (Filesystem.sb small_fs) gi = Ok (2, gi * 32).
Proof. intros [-> | ->]%small_groups; vm_compute; reflexivity. Qed.

Lemma small_layout : layout_ok small_fs.
Proof.
  assert (Hbm : ∀ g, g ∈ Filesystem.groups small_fs →
    (Bgd.block_bitmap g = 3 ∧ Bgd.inode_bitmap g = 4) ∨ (Bgd.block_bitmap g = 20 ∧ Bgd.inode_bitmap g = 21)).
  { intros g Hg. apply elem_of_cons in Hg as [->|Hg%list_elem_of_singleton]; [left|subst g; right]; split; vm_compute; reflexivity. }
  constructor.
  - vm_compute. reflexivity.
  - vm_compute. done.
  - intros gi gj b o o' Hi Hj Hne. rewrite (small_slots gi Hi), (small_slots gj Hj). intros [= <- <-] [= <-].
    assert (Superblock.desc_size (Filesystem.sb small_fs) = 32) as -> by (vm_compute; reflexivity). lia.
  - intros i j g g' Hg Hg' Hne. destruct i as [|[|i]], j as [|[|j]]; try done.
    all: injection Hg as <-; injection Hg' as <-; split; vm_compute; discriminate.
  - intros g g' Hg Hg'. destruct (Hbm g Hg), (Hbm g' Hg'); lia.
  - intros b (gi & off & Hgi & E) (g & Hg & Hb). rewrite (small_slots gi Hgi) in E. injection E as <- _.
    destruct (Hbm g Hg); lia.
  - assert (sb_block small_fs = 1) as -> by (vm_compute; reflexivity). split.
    + intros (gi & off & Hgi & E). by rewrite (small_slots gi Hgi) in E.
    + intros (g & Hg & Hb). destruct (Hbm g Hg); lia.
  - by_compute.
  - by_compute.
Qed.

Lemma small_desc_now gi d : (gi = 0 ∧ d = small_desc0) ∨ (gi = 1 ∧ d = small_desc1) →
  desc_now small_fs small_dev new_buffer gi d.
Proof.
  intros Hd. exists 2, (gi * 32), (small_desc0 ++ small_desc1 ++ zrep 960 0).
  destruct Hd as [[-> ->]|[-> ->]]; (split; [vm_compute; reflexivity|]); (split; [vm_compute; reflexivity|]);
    (split; [lia|]); (split; [by_compute|]); (split; [by_compute|]); vm_compute; reflexivity.
Qed.

(** Group 1's bitmap, as its flag implies it. *)
Definition small_bitmap1 : bytes := [0x3B; 0x00] ++ zrep 1022 255.

Lemma small_group_ok gi : is_group small_fs gi → group_repr small_fs small_dev no_clears new_buffer small_used gi.
Proof.
  assert (Hbits : ∀ f g : Z → bool, forallb (λ j, Bool.eqb (f j) (g j)) (seqZ 0 16) = true → ∀ j, 0 ≤ j < 16 → f j = g j).
  { intros f g E j Hj. rewrite forallb_forall in E. apply Bool.eqb_prop, E. apply list_elem_of_In, elem_of_seqZ. lia. }
  intros [-> | ->]%small_groups.
  - exists (bgd_of 32 small_desc0), small_desc0, small_bitmap0. split; [|split; [vm_compute; reflexivity|]].
    + constructor; [reflexivity|apply small_desc_now; auto|vm_compute; reflexivity| | |vm_compute; reflexivity].
      * exists small_bitmap0. split; [vm_compute; reflexivity|]. split; by_compute.
      * split; [vm_compute; reflexivity|]. split; by_compute.
    + assert (blocks_in_group (Filesystem.sb small_fs) 0 = 16) as -> by (vm_compute; reflexivity).
      apply Hbits. vm_compute. reflexivity.
  - exists (bgd_of 32 small_desc1), small_desc1, small_bitmap1. split; [|split; [vm_compute; reflexivity|]].
    + constructor; [reflexivity|apply small_desc_now; auto|vm_compute; reflexivity| | |vm_compute; reflexivity].
      * exists (zrep 1024 0). split; [vm_compute; reflexivity|]. split; by_compute.
      * split; [vm_compute; reflexivity|]. split; by_compute.
    + assert (blocks_in_group (Filesystem.sb small_fs) 1 = 16) as -> by (vm_compute; reflexivity).
      apply Hbits. vm_compute. reflexivity.
Qed.

Lemma small_volume : volume_repr small_fs small_dev no_clears new_buffer small_used.
Proof.
  split.
  - constructor.
    + intros b. destruct (Filesystem.read_block_spec small_fs small_dev b) as [Hr Hb].
      change (view small_fs small_dev new_buffer b) with (Filesystem.read_block small_fs small_dev b).
      destruct (Filesystem.read_block small_fs small_dev b); [by apply Hb|done..].
    + split; [|done]. intros gi f. cbn [cleared no_clears]. by rewrite lookup_empty.
    + intros gi f. cbn [uninit_cleared new_buffer]. by rewrite lookup_empty.
    + apply small_group_ok.
  - exists small_raw. split; [|vm_compute; reflexivity]. exists small_raw.
    split; [vm_compute; reflexivity|]. split; [by_compute|]. split; [by_compute|]. vm_compute. reflexivity.
Qed.

(** Near inode 9, of group 1, the block allocated is 19, the first that BLOCK_UNINIT
    leaves free. *)
Lemma buffer_allocate_block_refines_witness :
  ∃ buf' st', buffer_allocate_block small_fs small_dev no_clears new_buffer 9 = Ok (19, buf', st') ∧
    small_used 19 = false ∧ volume_repr small_fs small_dev st' buf' (set_run 19 1 true small_used).
Proof.
  pose proof (buffer_allocate_block_refines small_fs small_dev no_clears new_buffer small_used 9 small_geo
    small_layout small_volume) as H.
  assert (Hb : match buffer_allocate_block small_fs small_dev no_clears new_buffer 9 with
    | Ok (b, _, _) => bool_decide (b = 19) | _ => false end = true) by (vm_compute; reflexivity).
  destruct (buffer_allocate_block small_fs small_dev no_clears new_buffer 9) as [[[b buf'] st']|e| |]; try discriminate.
  apply bool_decide_eq_true in Hb as ->. exists buf', st'. split; [reflexivity|]. by destruct H as (_ & ? & ?).
Defined.

(** The first group keeps its bitmap on disk. *)
Lemma small_init0 : init_group small_fs small_dev new_buffer 0.
Proof.
  intros d Hd. rewrite (desc_now_unique small_fs small_dev _ _ _ _ Hd (small_desc_now 0 small_desc0 ltac:(auto))).
  vm_compute. reflexivity.
Qed.

Lemma buffer_free_runs_refine_witness :
  ∃ buf1 buf2, buffer_free_runs small_fs small_dev new_buffer [(5, 1); (6, 1)] = Ok (2, buf1) ∧
    buffer_patch_sb_counters small_fs small_dev buf1 2 0 = Ok buf2 ∧
    volume_repr small_fs small_dev no_clears buf2 (give_back small_used [(5, 1); (6, 1)]).
Proof.
  apply (buffer_free_runs_refine small_fs small_dev no_clears new_buffer small_used [(5, 1); (6, 1)]).
  - apply small_geo.
  - apply small_layout.
  - apply small_volume.
  - cbn [runs_used fst snd].
    assert (Superblock.first_data_block (Filesystem.sb small_fs) = 1) as -> by (vm_compute; reflexivity).
    assert (Superblock.blocks_count (Filesystem.sb small_fs) = 33) as -> by (vm_compute; reflexivity).
    repeat split; try lia; intros x Hx; [assert (x = 5) as -> by lia|assert (x = 6) as -> by lia]; vm_compute; reflexivity.
  - intros gi x r [-> | ->]%small_groups Hr Hx Hg.
    + apply small_init0.
    + exfalso. assert (group_first_block (Filesystem.sb small_fs) 1 = 17) as E by (vm_compute; reflexivity). rewrite E in Hg.
      apply elem_of_cons in Hr as [->|Hr%list_elem_of_singleton]; [|subst r]; cbn [fst snd] in Hx; lia.
Defined.
