(* ===== verification/Jbd2.v ===== *)
(** Jbd2: the journal superblock and the checksum formulas of the journal's
    blocks (src/src/jbd2.rs).  Journal fields are big-endian. *)
From S2P Require Import Prelude Errors Bytes Device Features Superblock Checksum Bgd Inode Indirect Filesystem.

Definition JBD2_MAGIC_NUMBER : Z := 0xc03b3998.
Definition JBD2_DESCRIPTOR_BLOCK : Z := 1.
Definition JBD2_COMMIT_BLOCK : Z := 2.
Definition JBD2_SUPERBLOCK_V1 : Z := 3.
Definition JBD2_SUPERBLOCK_V2 : Z := 4.
Definition JBD2_REVOKE_BLOCK : Z := 5.

Module JbdIncompat.
Definition REVOKE := 0x1.
Definition BIT64 := 0x2.
Definition ASYNC_COMMIT := 0x4.
Definition CSUM_V2 := 0x8.
Definition CSUM_V3 := 0x10.
Definition FAST_COMMIT := 0x20.
End JbdIncompat.

Definition JBD2_FEATURE_COMPAT_CHECKSUM : Z := 0x1.
Definition JBD2_CRC32C_CHKSUM : Z := 4.
Definition SUPPORTED_JBD_INCOMPAT : Z :=
  Z.lor (Z.lor (Z.lor JbdIncompat.REVOKE JbdIncompat.BIT64) JbdIncompat.CSUM_V2) JbdIncompat.CSUM_V3.
Definition BLOCK_TAIL_BYTES : Z := 4.
Definition COMMIT_CHECKSUM_AT : Z := 16.

(** [TagChecksum] *)
Inductive TagChecksum := TagNone | TagV2 | TagV3.

Module JournalSuperblock.
Record t := mk {
  block_type : Z; header_sequence : Z; block_size : Z; max_len : Z; first : Z;
  sequence : Z; start : Z; errno : Z;
  feature_compat : Z; feature_incompat : Z; feature_ro_compat : Z;
  uuid : bytes; nr_users : Z; checksum_type : Z; num_fc_blocks : Z; checksum : Z
}.

Definition is_clean (j : t) : bool := bool_decide (start j = 0).
Definition uses_csum_v3 (j : t) : bool := has_bits (feature_incompat j) JbdIncompat.CSUM_V3.
Definition uses_csum_v2_or_v3 (j : t) : bool :=
  has_bits (feature_incompat j) (Z.lor JbdIncompat.CSUM_V2 JbdIncompat.CSUM_V3).
Definition uses_64bit (j : t) : bool := has_bits (feature_incompat j) JbdIncompat.BIT64.
Definition has_revoke (j : t) : bool := has_bits (feature_incompat j) JbdIncompat.REVOKE.
Definition unsupported_incompat (j : t) : Z :=
  Z.land (feature_incompat j) (lnot32 SUPPORTED_JBD_INCOMPAT).

Definition validate_plain_recovery (j : t) (bs blocks_count : Z) : res unit :=
  let supported := Z.lor JbdIncompat.REVOKE JbdIncompat.BIT64 in
  if decide (feature_compat j ≠ 0 ∨ feature_ro_compat j ≠ 0 ∨
             Z.land (feature_incompat j) (lnot32 supported) ≠ 0)
  then Err (Unsupported "checked lifecycle supports plain JBD2 only") else
  if decide (block_type j ≠ JBD2_SUPERBLOCK_V2 ∨ block_size j ≠ bs ∨ first j ≠ 1 ∨
             max_len j ≤ first j ∨ blocks_count < max_len j ∨
             (start j ≠ 0 ∧ (start j < first j ∨ max_len j ≤ start j)) ∨ nr_users j ≠ 1)
  then Err (Corrupt "unsupported internal journal geometry") else
  if decide (errno j ≠ 0) then Err (Corrupt "journal records an outstanding error") else Ok ().

(** Why the checksum declaration cannot be honoured. *)
Definition checksum_declaration_error (j : t) : option string :=
  let v2 := has_bits (feature_incompat j) JbdIncompat.CSUM_V2 in
  let v3 := has_bits (feature_incompat j) JbdIncompat.CSUM_V3 in
  let commit_only := has_bits (feature_compat j) JBD2_FEATURE_COMPAT_CHECKSUM in
  match v2, v3 with
  | false, false => None
  | true, true => Some "journal declares both CSUM_V2 and CSUM_V3"%string
  | _, _ =>
      if commit_only then Some "journal declares v1 checksums alongside CSUM_V2/V3"%string
      else if decide (checksum_type j ≠ JBD2_CRC32C_CHKSUM)
      then Some "journal checksum type is not crc32c"%string
      else None
  end.

Definition tag_scheme (j : t) : TagChecksum :=
  if uses_csum_v3 j then TagV3
  else if has_bits (feature_incompat j) JbdIncompat.CSUM_V2 then TagV2 else TagNone.

Definition tag_bytes (j : t) : Z :=
  match tag_scheme j, uses_64bit j with
  | TagNone, false => 8
  | TagNone, true => 12
  | TagV2, false => 10
  | TagV2, true => 14
  | TagV3, _ => 16
  end.

Definition csum_seed `{Crc32c} (j : t) : Z := linux_crc32c u32_ones (uuid j).

(** [(uses_csum_v2_or_v3()).then(|| csum_seed())] *)
Definition seed_of `{Crc32c} (j : t) : option Z :=
  if uses_csum_v2_or_v3 j then Some (csum_seed j) else None.

Definition parse (raw : bytes) : res t :=
  if decide (zlen raw < 0x100) then Err (Corrupt "jbd2 superblock buffer too small") else
  h_magic ← u32_be raw 0x00;
  if decide (h_magic ≠ JBD2_MAGIC_NUMBER) then Err (Corrupt "jbd2 superblock magic mismatch") else
  block_type ← u32_be raw 0x04;
  if decide (block_type ≠ JBD2_SUPERBLOCK_V1 ∧ block_type ≠ JBD2_SUPERBLOCK_V2)
  then Err (Corrupt "jbd2 header is not a superblock block type") else
  header_sequence ← u32_be raw 0x08;
  block_size ← u32_be raw 0x0C;
  max_len ← u32_be raw 0x10;
  first ← u32_be raw 0x14;
  sequence ← u32_be raw 0x18;
  start ← u32_be raw 0x1C;
  errno ← u32_be raw 0x20;
  let v1 := mk block_type header_sequence block_size max_len first sequence start errno
              0 0 0 (zrep 16 0) 0 0 0 0 in
  if decide (block_type = JBD2_SUPERBLOCK_V2) then
    feature_compat ← u32_be raw 0x24;
    feature_incompat ← u32_be raw 0x28;
    feature_ro_compat ← u32_be raw 0x2C;
    uuid ← slice raw 0x30 16;
    nr_users ← u32_be raw 0x40;
    checksum_type ← get raw 0x50;
    num_fc_blocks ← u32_be raw 0x54;
    checksum ← u32_be raw 0xFC;
    Ok (mk block_type header_sequence block_size max_len first sequence start errno
          feature_compat feature_incompat feature_ro_compat uuid nr_users checksum_type
          num_fc_blocks checksum)
  else Ok v1.
End JournalSuperblock.

(** ** Block checksums *)
Section csum.
Context `{Crc32c}.

Definition tag_checksum (seed sequence : Z) (data : bytes) : Z :=
  linux_crc32c (linux_crc32c seed (be_split 4 sequence)) data.

(** [body] is at most the block's length, so the slice is total. *)
Definition block_tail_checksum (seed : Z) (block : bytes) : Z :=
  let body := saturating_sub (zlen block) BLOCK_TAIL_BYTES in
  linux_crc32c (linux_crc32c seed (sub block 0 body)) (zrep BLOCK_TAIL_BYTES 0).

Definition commit_block_checksum (seed : Z) (block : bytes) : res Z :=
  let at_ := COMMIT_CHECKSUM_AT in
  head ← slice block 0 at_;
  rest ← slice block (at_ + 4) (zlen block - (at_ + 4));
  Ok (linux_crc32c (linux_crc32c (linux_crc32c seed head) [0; 0; 0; 0]) rest).

(** ** Where the journal lives *)

Context (fs : Filesystem.t) (dev : reader).

Definition journal_block_to_physical (journal_inode : Inode.t) (journal_block : Z) : res (option Z) :=
  Indirect.map_logical_any dev (Filesystem.block_size fs)
    (Inode.block journal_inode) (Inode.flags journal_inode) journal_block.

Definition journal_ino : Z := Superblock.journal_inode (Filesystem.sb fs).

Definition read_jinode : res Inode.t :=
  raw ← Filesystem.read_inode_raw fs dev journal_ino; Inode.parse raw.

Definition read_superblock : res (option JournalSuperblock.t) :=
  if decide (journal_ino = 0) then Ok None else
  jinode ← read_jinode;
  o ← journal_block_to_physical jinode 0;
  phys ← ok_or o (Corrupt "journal block 0 unmapped (sparse journal?)");
  buf ← rd_read dev (as_u64 (phys * Filesystem.block_size fs)) (Filesystem.block_size fs);
  jsb ← JournalSuperblock.parse buf;
  Ok (Some jsb).
End csum.
