(* ===== verification/Journal.v ===== *)
(** Journal: the walker of the log (src/src/journal.rs).  It decodes the
    descriptor, revoke and commit blocks of the ring from [s_start] on and
    produces the replay plan; a transaction joins the plan at its commit
    block.  Reads of the journal's blocks go through the parameter [rd], which
    [walk] instantiates with [read_journal_block]. *)
From S2P Require Import Prelude Errors Bytes Device Features Superblock Checksum Bgd Inode Indirect Filesystem Jbd2.

Definition TAG_ESCAPED : Z := 0x1.
Definition TAG_SAME_UUID : Z := 0x2.
Definition TAG_DELETED : Z := 0x4.
Definition TAG_LAST : Z := 0x8.

Module ReplayEntry.
Record t := mk { transaction : Z; fs_block : Z; journal_block : Z; flags : Z }.
End ReplayEntry.

Module RevokeEntry.
Record t := mk { transaction : Z; fs_block : Z }.
End RevokeEntry.

(** TIDs compare by the sign of their wrapping difference. *)
Definition sequence_after (a b : Z) : bool := bool_decide (0 < as_i32 (as_u32 (a - b))).

Definition or_tid (o : option Z) (t : Z) : Z := match o with Some x => x | None => t end.

Module ReplayPlan.
Record t := mk {
  writes : list ReplayEntry.t; revokes : list RevokeEntry.t;
  last_commit : Z; next_sequence : option Z; blocks_walked : Z
}.

Definition default : t := mk [] [] 0 None 0.

Definition set_walked (n : Z) (p : t) : t :=
  mk (writes p) (revokes p) (last_commit p) (next_sequence p) n.

(** One revoke record entered in the [highest] map. *)
Definition note_revoke (highest : gmap Z Z) (r : RevokeEntry.t) : gmap Z Z :=
  let e := or_tid (highest !! RevokeEntry.fs_block r) (RevokeEntry.transaction r) in
  <[RevokeEntry.fs_block r :=
      if sequence_after (RevokeEntry.transaction r) e then RevokeEntry.transaction r else e]> highest.

Definition retained (highest : gmap Z Z) (w : ReplayEntry.t) : bool :=
  match highest !! ReplayEntry.fs_block w with
  | Some t => sequence_after (ReplayEntry.transaction w) t
  | None => true
  end.

Definition filter_revoked (p : t) : t :=
  match revokes p with
  | [] => p
  | _ =>
      let highest := foldl note_revoke ∅ (revokes p) in
      mk (filter (λ w, Is_true (retained highest w)) (writes p)) (revokes p) (last_commit p)
        (next_sequence p) (blocks_walked p)
  end.
End ReplayPlan.

Definition advance (cur n : Z) (jsb : JournalSuperblock.t) : Z :=
  let first := JournalSuperblock.first jsb in
  let capacity := saturating_sub (JournalSuperblock.max_len jsb) first in
  if decide (capacity = 0) then cur else
  let offset := as_u64 (cur - first) in
  first + as_u64 (offset + n) mod capacity.

(** [JournalHeader] *)
Record JournalHeader := mkHeader { h_block_type : Z; h_sequence : Z }.

Definition try_parse_header (block : bytes) : res (option JournalHeader) :=
  if decide (zlen block < 12) then Ok None else
  magic ← u32_be block 0;
  if decide (magic ≠ JBD2_MAGIC_NUMBER) then Ok None else
  block_type ← u32_be block 4;
  sequence ← u32_be block 8;
  Ok (Some (mkHeader block_type sequence)).

(** One tag at [pos]: its flags, stored checksum and block number. *)
Definition parse_tag (block : bytes) (pos : Z) (jsb : JournalSuperblock.t) : res (Z * Z * Z) :=
  blocknr_lo ← u32_be block pos;
  '(flags, checksum) ← (if JournalSuperblock.uses_csum_v3 jsb then
      f ← u32_be block (pos + 4); c ← u32_be block (pos + 12); Ok (f, c)
    else
      f ← u16_be block (pos + 6); c ← u16_be block (pos + 4); Ok (f, c));
  blocknr ← (if JournalSuperblock.uses_64bit jsb then
      hi ← u32_be block (pos + 8); Ok (join32 hi blocknr_lo)
    else Ok blocknr_lo);
  Ok (flags, checksum, blocknr).

Fixpoint parse_tags_loop (fuel : nat) (block : bytes) (usable : Z) (jsb : JournalSuperblock.t)
    (transaction pos cur : Z) (out : list (ReplayEntry.t * Z)) : res (list (ReplayEntry.t * Z) * Z) :=
  match fuel with
  | O => OutOfFuel
  | S fuel =>
      let tag_size := JournalSuperblock.tag_bytes jsb in
      if decide (usable < pos + tag_size) then Err (Corrupt "descriptor tag overruns block") else
      '(flags, checksum, blocknr) ← parse_tag block pos jsb;
      let uuid_follows_size := if decide (Z.land flags TAG_SAME_UUID ≠ 0) then 0 else 16 in
      let cur := advance cur 1 jsb in
      let out := out ++ [(ReplayEntry.mk transaction blocknr cur flags, checksum)] in
      let pos := pos + (tag_size + uuid_follows_size) in
      if decide (Z.land flags TAG_LAST ≠ 0) then Ok (out, cur) else
      if decide (usable < pos + tag_size) then Ok (out, cur) else
      parse_tags_loop fuel block usable jsb transaction pos cur out
  end.

(** The bytes of a descriptor or revoke block before its checksum tail. *)
Definition usable_bytes (block : bytes) (jsb : JournalSuperblock.t) : Z :=
  if JournalSuperblock.uses_csum_v2_or_v3 jsb then zlen block - BLOCK_TAIL_BYTES else zlen block.

(** Each round moves [pos] at least eight bytes, so the block's length is
    fuel enough. *)
Definition parse_descriptor_tags (block : bytes) (cur : Z) (jsb : JournalSuperblock.t)
    (transaction : Z) : res (list (ReplayEntry.t * Z) * Z) :=
  parse_tags_loop (S (length block)) block (usable_bytes block jsb) jsb transaction 12 cur [].

Fixpoint parse_revokes_loop (fuel : nat) (block : bytes) (jsb : JournalSuperblock.t)
    (transaction e pos : Z) (out : list RevokeEntry.t) : res (list RevokeEntry.t) :=
  let record_size := if JournalSuperblock.uses_64bit jsb then 8 else 4 in
  if decide (pos + record_size ≤ e) then
    match fuel with
    | O => OutOfFuel
    | S fuel =>
        fs_block ← (if JournalSuperblock.uses_64bit jsb then u64_be block pos else u32_be block pos);
        parse_revokes_loop fuel block jsb transaction e (pos + record_size)
          (out ++ [RevokeEntry.mk transaction fs_block])
    end
  else Ok out.

Definition parse_revoke_block (block : bytes) (jsb : JournalSuperblock.t) (transaction : Z)
    : res (list RevokeEntry.t) :=
  if decide (zlen block < 16) then Err (Corrupt "revoke block too small") else
  r_count ← u32_be block 12;
  if decide (usable_bytes block jsb < r_count)
  then Err (Corrupt "journal revoke block count exceeds the block") else
  parse_revokes_loop (length block) block jsb transaction r_count 16 [].

Section walk.
Context `{Crc32c}.

Definition tail_checksum_matches (seed : Z) (block : bytes) : res bool :=
  stored ← u32_be block (zlen block - BLOCK_TAIL_BYTES);
  Ok (bool_decide (block_tail_checksum seed block = stored)).

(** [seed.is_some_and(|seed| !tail_checksum_matches(seed, block))] *)
Definition tail_torn (seed : option Z) (block : bytes) : res bool :=
  match seed with
  | Some s => ok ← tail_checksum_matches s block; Ok (negb ok)
  | None => Ok false
  end.

(** The walk's local variables; [corrupt] is [pending_corrupt]. *)
Record walk_state := mkWalk {
  plan : ReplayPlan.t; cur : Z; expect_seq : Z;
  pending_writes : list ReplayEntry.t; pending_revokes : list RevokeEntry.t;
  corrupt : option string
}.

Inductive control := Continue (st : walk_state) | Break (st : walk_state).

Definition set_plan (p : ReplayPlan.t) (st : walk_state) : walk_state :=
  mkWalk p (cur st) (expect_seq st) (pending_writes st) (pending_revokes st) (corrupt st).

Section rd.
Context (rd : Z → res bytes) (jsb : JournalSuperblock.t).

Definition limit : Z := JournalSuperblock.max_len jsb - JournalSuperblock.first jsb.

Definition moved (st : walk_state) : walk_state :=
  mkWalk (plan st) (advance (cur st) 1 jsb) (expect_seq st) (pending_writes st)
    (pending_revokes st) (corrupt st).

(** A tag's data block checked against its stored checksum. *)
Definition check_data (seed : option Z) (seq : Z) (c : option string) (tag : ReplayEntry.t * Z)
    : res (option string) :=
  match seed with
  | None => Ok c
  | Some s =>
      data ← rd (ReplayEntry.journal_block (fst tag));
      let computed := tag_checksum s seq data in
      let computed := if JournalSuperblock.uses_csum_v3 jsb then computed else Z.land computed 0xFFFF in
      if decide (computed ≠ snd tag) then Ok (Some "journal data block of a committed transaction"%string)
      else Ok c
  end.

Definition on_descriptor (st : walk_state) (block_buf : bytes) : res control :=
  let seed := JournalSuperblock.seed_of jsb in
  torn ← tail_torn seed block_buf;
  match parse_descriptor_tags block_buf (cur st) jsb (expect_seq st) with
  | Ok (tags, cur') =>
      let c := if torn : bool then Some "journal descriptor block of a committed transaction"%string
               else corrupt st in
      let walked := ReplayPlan.blocks_walked (plan st) + zlen tags in
      if decide (limit < walked) then Err (Corrupt "journal transaction exceeds ring") else
      c ← foldM (check_data seed (expect_seq st)) c tags;
      Ok (Continue (moved (mkWalk (ReplayPlan.set_walked walked (plan st)) cur' (expect_seq st)
                             (pending_writes st ++ (fst <$> tags)) (pending_revokes st) c)))
  | Err e => if torn : bool then Ok (Break st) else Err e
  | Panic => Panic
  | OutOfFuel => OutOfFuel
  end.

Definition on_commit (st : walk_state) (block_buf : bytes) : res control :=
  valid ← match JournalSuperblock.seed_of jsb with
    | Some s =>
        stored ← u32_be block_buf COMMIT_CHECKSUM_AT;
        c ← commit_block_checksum s block_buf;
        Ok (bool_decide (c = stored))
    | None => Ok true
    end;
  if negb valid then Ok (Break st) else
  match corrupt st with
  | Some what => Err (BadChecksum what)
  | None =>
      let p := plan st in
      let next := as_u32 (expect_seq st + 1) in
      Ok (Continue (moved (mkWalk
        (ReplayPlan.mk (ReplayPlan.writes p ++ pending_writes st)
           (ReplayPlan.revokes p ++ pending_revokes st) (expect_seq st) (Some next)
           (ReplayPlan.blocks_walked p))
        (cur st) next [] [] None)))
  end.

Definition on_revoke (st : walk_state) (block_buf : bytes) : res control :=
  torn ← tail_torn (JournalSuperblock.seed_of jsb) block_buf;
  let c := if torn : bool then Some "journal revoke block of a committed transaction"%string
           else corrupt st in
  revokes ← parse_revoke_block block_buf jsb (expect_seq st);
  Ok (Continue (moved (mkWalk (plan st) (cur st) (expect_seq st) (pending_writes st)
                         (pending_revokes st ++ revokes) c))).

(** The body of the walk's [while]. *)
Definition walk_step (st : walk_state) : res control :=
  block_buf ← rd (cur st);
  let st := set_plan (ReplayPlan.set_walked (ReplayPlan.blocks_walked (plan st) + 1) (plan st)) st in
  hdr ← try_parse_header block_buf;
  match hdr with
  | None => Ok (Break st)
  | Some h =>
      if decide (h_sequence h ≠ expect_seq st) then Ok (Break st) else
      if decide (h_block_type h = JBD2_DESCRIPTOR_BLOCK) then on_descriptor st block_buf else
      if decide (h_block_type h = JBD2_COMMIT_BLOCK) then on_commit st block_buf else
      if decide (h_block_type h = JBD2_REVOKE_BLOCK) then on_revoke st block_buf else
      Ok (Break st)
  end.

Fixpoint walk_loop (fuel : nat) (st : walk_state) : res walk_state :=
  if decide (ReplayPlan.blocks_walked (plan st) < limit) then
    match fuel with
    | O => OutOfFuel
    | S fuel =>
        r ← walk_step st;
        match r with Continue st' => walk_loop fuel st' | Break st' => Ok st' end
    end
  else Ok st.

Definition walk_start : walk_state :=
  mkWalk ReplayPlan.default (JournalSuperblock.start jsb) (JournalSuperblock.sequence jsb) [] [] None.

(** The refusals made before the journal is read. *)
Definition check_walkable (fs_block_size : Z) : res unit :=
  if decide (JournalSuperblock.unsupported_incompat jsb ≠ 0)
  then Err (Unsupported "journal declares an incompat feature this driver cannot replay") else
  match JournalSuperblock.checksum_declaration_error jsb with
  | Some why => Err (Corrupt why)
  | None =>
      if decide (JournalSuperblock.block_size jsb ≠ fs_block_size)
      then Err (Corrupt "journal block size differs from the filesystem's") else
      if decide (JournalSuperblock.first jsb = 0 ∨
                 JournalSuperblock.max_len jsb ≤ JournalSuperblock.first jsb ∨
                 JournalSuperblock.start jsb < JournalSuperblock.first jsb ∨
                 JournalSuperblock.max_len jsb ≤ JournalSuperblock.start jsb)
      then Err (Corrupt "invalid journal geometry") else Ok ()
  end.

(** The walk once the journal inode is in hand; every round walks at least
    one block, so [limit] rounds are enough. *)
Definition walk_log : res ReplayPlan.t :=
  st ← walk_loop (Z.to_nat limit) walk_start;
  Ok (ReplayPlan.filter_revoked (plan st)).

End rd.

Section fs.
Context (fs : Filesystem.t) (dev : reader).

Definition read_journal_block (jinode : Inode.t) (block_size journal_block : Z) : res bytes :=
  o ← journal_block_to_physical fs dev jinode journal_block;
  phys ← ok_or o (Corrupt "journal block unmapped");
  rd_read dev (as_u64 (phys * block_size)) block_size.

Definition walk (jsb : JournalSuperblock.t) : res ReplayPlan.t :=
  if JournalSuperblock.is_clean jsb then Ok ReplayPlan.default else
  _ ← check_walkable jsb (Filesystem.block_size fs);
  jinode ← read_jinode fs dev;
  walk_log (read_journal_block jinode (JournalSuperblock.block_size jsb)) jsb.
End fs.
End walk.

(** ** Lemmas: no panic, enough fuel *)

Lemma tag_bytes_range j : 8 ≤ JournalSuperblock.tag_bytes j ≤ 16.
Proof. unfold JournalSuperblock.tag_bytes. destruct (JournalSuperblock.tag_scheme j), (JournalSuperblock.uses_64bit j); lia. Qed.

Lemma tag_bytes_64 j : JournalSuperblock.uses_64bit j = true → 12 ≤ JournalSuperblock.tag_bytes j.
Proof. unfold JournalSuperblock.tag_bytes. intros ->. destruct (JournalSuperblock.tag_scheme j); lia. Qed.

Lemma tag_bytes_v3 j : JournalSuperblock.uses_csum_v3 j = true → JournalSuperblock.tag_bytes j = 16.
Proof. unfold JournalSuperblock.tag_bytes, JournalSuperblock.tag_scheme. by intros ->. Qed.

Lemma usable_le block j : usable_bytes block j ≤ zlen block.
Proof. unfold usable_bytes, BLOCK_TAIL_BYTES. case_match; lia. Qed.

Lemma parse_tag_returns block pos j :
  0 ≤ pos → pos + JournalSuperblock.tag_bytes j ≤ zlen block → ∃ r, parse_tag block pos j = Ok r.
Proof.
  intros H0 H1. pose proof (tag_bytes_range j) as Hr. pose proof (tag_bytes_64 j) as H64.
  pose proof (tag_bytes_v3 j) as H3. unfold parse_tag. io.
  destruct (JournalSuperblock.uses_csum_v3 j); [specialize (H3 eq_refl)|]; io;
    (destruct (JournalSuperblock.uses_64bit j); [specialize (H64 eq_refl)|]); io; eauto.
Qed.

Lemma parse_tags_loop_returns fuel block usable j tid pos cur out :
  0 ≤ pos → usable ≤ zlen block → Z.max 0 (usable - pos) < Z.of_nat fuel →
  returns (parse_tags_loop fuel block usable j tid pos cur out).
Proof.
  revert pos cur out. induction fuel as [|fuel IH]; intros pos cur out Hp Hu Hf; [lia|].
  pose proof (tag_bytes_range j). simpl.
  destruct (decide (usable < pos + JournalSuperblock.tag_bytes j)); [done|].
  destruct (parse_tag_returns block pos j) as ([[fl ck] bn] & ->); [lia|lia|]. simpl.
  set (step := if decide (Z.land fl TAG_SAME_UUID ≠ 0) then 0 else 16).
  assert (0 ≤ step) by (unfold step; case_decide; lia).
  case_decide; [done|]. case_decide; [done|]. apply IH; lia.
Qed.

Lemma advance_nonneg c n j : 0 ≤ JournalSuperblock.first j → 0 ≤ c → 0 ≤ advance c n j.
Proof.
  intros Hf Hc. unfold advance, saturating_sub. case_decide as H0; [done|].
  pose proof (Z.mod_pos_bound (as_u64 (as_u64 (c - JournalSuperblock.first j) + n))
    (Z.max 0 (JournalSuperblock.max_len j - JournalSuperblock.first j)) ltac:(lia)). lia.
Qed.

(** Journal block numbers of decoded tags. *)
Definition tags_nonneg (out : list (ReplayEntry.t * Z)) : Prop :=
  Forall (λ t, 0 ≤ ReplayEntry.journal_block (fst t)) out.

Lemma parse_tags_loop_nonneg fuel block usable j tid pos cur out out' cur' :
  0 ≤ JournalSuperblock.first j → 0 ≤ cur → tags_nonneg out →
  parse_tags_loop fuel block usable j tid pos cur out = Ok (out', cur') → 0 ≤ cur' ∧ tags_nonneg out'.
Proof.
  intros Hf. revert pos cur out. induction fuel as [|fuel IH]; intros pos cur out Hc Ho; [done|].
  pose proof (advance_nonneg cur 1 j Hf Hc) as Ha. cbn [parse_tags_loop].
  destruct (decide (usable < pos + JournalSuperblock.tag_bytes j)); [done|].
  destruct (parse_tag block pos j) as [[[fl ck] bn]| | |]; try done. rewrite bind_Ok. cbv beta iota zeta.
  assert (Ho' : tags_nonneg (out ++ [(ReplayEntry.mk tid bn (advance cur 1 j) fl, ck)])).
  { apply Forall_app. split; [done|]. by repeat constructor. }
  destruct (decide (Z.land fl TAG_LAST ≠ 0)); [by intros [= <- <-]|].
  destruct (decide (usable < _)); [by intros [= <- <-]|]. by apply IH.
Qed.

Lemma parse_descriptor_tags_returns block cur j tid : returns (parse_descriptor_tags block cur j tid).
Proof.
  pose proof (usable_le block j). pose proof (zlen_nonneg block).
  apply parse_tags_loop_returns; unfold zlen in *; lia.
Qed.

Lemma parse_revokes_loop_returns fuel block j tid e pos out :
  0 ≤ pos → e ≤ zlen block → Z.max 0 (e - pos) ≤ Z.of_nat fuel →
  returns (parse_revokes_loop fuel block j tid e pos out).
Proof.
  revert pos out. induction fuel as [|fuel IH]; intros pos out Hp He Hf; simpl.
  { rewrite decide_False; [done|]. case_match; lia. }
  destruct (JournalSuperblock.uses_64bit j); (case_decide; [|done]); io; apply IH; lia.
Qed.

Lemma parse_revoke_block_returns block j tid : returns (parse_revoke_block block j tid).
Proof.
  unfold parse_revoke_block. case_decide; [done|]. io. case_decide; [done|].
  pose proof (usable_le block j). apply parse_revokes_loop_returns; unfold zlen in *; lia.
Qed.

Lemma try_parse_header_returns block : ∃ o, try_parse_header block = Ok o.
Proof. unfold try_parse_header. case_decide; [eauto|]. io. case_decide; eauto. Qed.

Section safety.
Context `{Crc32c} (rd : Z → res bytes) (jsb : JournalSuperblock.t).
Hypothesis first_ok : 0 ≤ JournalSuperblock.first jsb.
Hypothesis rd_safe : ∀ j, 0 ≤ j → returns (rd j).
Hypothesis rd_size : ∀ j b, rd j = Ok b → 20 ≤ zlen b.

Lemma tail_torn_ok seed block : 20 ≤ zlen block → ∃ b, tail_torn seed block = Ok b.
Proof.
  intros Hb. unfold tail_torn, tail_checksum_matches, BLOCK_TAIL_BYTES. destruct seed; [|eauto].
  io. eauto.
Qed.

Lemma check_data_returns seed seq c tag : 0 ≤ ReplayEntry.journal_block (fst tag) →
  returns (check_data rd jsb seed seq c tag).
Proof.
  intros Hj. unfold check_data. destruct seed; [|done]. apply bind_returns; [by apply rd_safe|].
  intros d _. by destruct (decide _).
Qed.

(** A step either stops the walk or has walked at least one block more. *)
Lemma on_descriptor_safe st b : 20 ≤ zlen b → 0 ≤ cur st →
  returns (on_descriptor rd jsb st b) ∧
  ∀ st', on_descriptor rd jsb st b = Ok (Continue st') →
    ReplayPlan.blocks_walked (plan st) ≤ ReplayPlan.blocks_walked (plan st') ∧ 0 ≤ cur st'.
Proof.
  intros Hb Hc. unfold on_descriptor.
  destruct (tail_torn_ok (JournalSuperblock.seed_of jsb) b Hb) as [torn ->]. rewrite bind_Ok.
  pose proof (parse_descriptor_tags_returns b (cur st) jsb (expect_seq st)) as Hp.
  destruct (parse_descriptor_tags _ _ _ _) as [[tags c']|e| |] eqn:Et; try done; [|by destruct torn].
  apply parse_tags_loop_nonneg in Et as [Hc' Htags]; [|done|done|constructor].
  case_decide; [done|]. unfold tags_nonneg in Htags. rewrite Forall_forall in Htags.
  destruct (foldM_returns (λ _, True) (check_data rd jsb (JournalSuperblock.seed_of jsb) (expect_seq st))
              tags) with (b := if torn then Some "journal descriptor block of a committed transaction"%string
             else corrupt st) as [Hf _]; [|done|].
  { intros c0 t Ht _. split; [by apply check_data_returns, Htags|done]. }
  destruct (foldM _ _ _) as [c| | |]; try done. split; [done|].
  intros st' [= <-]. simpl. pose proof (zlen_nonneg tags). split; [lia|by apply advance_nonneg].
Qed.

Lemma walk_step_safe st : 0 ≤ cur st →
  returns (walk_step rd jsb st) ∧
  ∀ st', walk_step rd jsb st = Ok (Continue st') →
    ReplayPlan.blocks_walked (plan st) + 1 ≤ ReplayPlan.blocks_walked (plan st') ∧ 0 ≤ cur st'.
Proof.
  intros Hc. unfold walk_step. pose proof (rd_safe (cur st) Hc) as Hr.
  destruct (rd (cur st)) as [b|e| |] eqn:Eb; try done. rewrite bind_Ok. pose proof (rd_size _ _ Eb) as Hb.
  destruct (try_parse_header_returns b) as [o ->]. rewrite bind_Ok. destruct o as [h|]; [|done].
  set (st1 := set_plan _ st). pose proof (advance_nonneg (cur st) 1 jsb first_ok Hc) as Ha.
  case_decide; [done|]. case_decide; [|case_decide; [|case_decide; [|done]]].
  - exact (on_descriptor_safe st1 b Hb Hc).
  - unfold on_commit, commit_block_checksum, COMMIT_CHECKSUM_AT.
    destruct (JournalSuperblock.seed_of jsb) as [s|]; io; [case_bool_decide|]; simpl; try done;
      (destruct (corrupt st); [done|]); (split; [done|]); intros st' [= <-]; simpl; split; done || lia.
  - unfold on_revoke. destruct (tail_torn_ok (JournalSuperblock.seed_of jsb) b Hb) as [torn ->]. simpl.
    pose proof (parse_revoke_block_returns b jsb (expect_seq st)) as Hp.
    destruct (parse_revoke_block _ _ _) as [rs| | |]; try done. split; [done|].
    intros st' [= <-]. simpl. split; done || lia.
Qed.

Lemma walk_loop_returns fuel st : 0 ≤ cur st →
  limit jsb - ReplayPlan.blocks_walked (plan st) ≤ Z.of_nat fuel →
  returns (walk_loop rd jsb fuel st).
Proof.
  revert st. induction fuel as [|fuel IH]; intros st Hc Hf; simpl.
  { by rewrite decide_False by lia. }
  case_decide; [|done]. destruct (walk_step_safe st Hc) as [Hr Hp].
  destruct (walk_step rd jsb st) as [[st'|st']| | |]; try done. simpl.
  destruct (Hp st' eq_refl). apply IH; lia.
Qed.

Lemma walk_log_returns : 0 ≤ JournalSuperblock.start jsb → returns (walk_log rd jsb).
Proof.
  intros Hs. unfold walk_log. apply bind_returns; [|done]. apply walk_loop_returns; [done|]. simpl.
  pose proof (Z2Nat.id (limit jsb)). destruct (decide (0 ≤ limit jsb)); lia.
Qed.
End safety.

(** ** Revocation, by serial-number order *)

(** The TIDs of one log lie in a window of half the number space, where the
    wrapping order is the order of their distances from the window's start. *)
Definition tid_index (t0 t : Z) : Z := as_u32 (t - t0).
Definition in_window (t0 t : Z) : Prop := tid_index t0 t < 2 ^ 31.

Lemma sequence_after_index t0 a b : in_window t0 a → in_window t0 b →
  sequence_after a b = bool_decide (tid_index t0 b < tid_index t0 a).
Proof.
  unfold in_window, sequence_after. intros Ha Hb. apply bool_decide_ext.
  rewrite as_i32_as_u32. unfold tid_index, as_i32, as_u32 in *.
  pose proof (Z.mod_pos_bound (a - t0) (2 ^ 32) ltac:(lia)).
  pose proof (Z.mod_pos_bound (b - t0) (2 ^ 32) ltac:(lia)).
  replace ((a - b + 2 ^ 31) mod 2 ^ 32)
    with (((a - t0) mod 2 ^ 32 - (b - t0) mod 2 ^ 32 + 2 ^ 31) mod 2 ^ 32).
  { rewrite Z.mod_small; lia. }
  rewrite <-Z.add_mod_idemp_l, <-Zminus_mod, Z.add_mod_idemp_l by lia. f_equal. lia.
Qed.

(** A revoke record cancels a write to its block by its own transaction or an
    earlier one. *)
Definition survives (rs : list RevokeEntry.t) (w : ReplayEntry.t) : bool :=
  forallb (λ r, negb (bool_decide (RevokeEntry.fs_block r = ReplayEntry.fs_block w)) ||
                sequence_after (ReplayEntry.transaction w) (RevokeEntry.transaction r)) rs.

(** [m] maps each revoked block to the last TID that revoked it. *)
Definition is_highest (t0 : Z) (rs : list RevokeEntry.t) (m : gmap Z Z) : Prop :=
  ∀ b, match m !! b with
       | None => ∀ r, r ∈ rs → RevokeEntry.fs_block r ≠ b
       | Some t => (∃ r, r ∈ rs ∧ RevokeEntry.fs_block r = b ∧ RevokeEntry.transaction r = t) ∧
                   ∀ r, r ∈ rs → RevokeEntry.fs_block r = b →
                     tid_index t0 (RevokeEntry.transaction r) ≤ tid_index t0 t
       end.

Lemma note_revoke_highest t0 rs m r :
  Forall (λ r, in_window t0 (RevokeEntry.transaction r)) (rs ++ [r]) →
  is_highest t0 rs m → is_highest t0 (rs ++ [r]) (ReplayPlan.note_revoke m r).
Proof.
  intros Hw Hm b. unfold ReplayPlan.note_revoke. specialize (Hm b). rewrite Forall_forall in Hw.
  assert (Hr := Hw r ltac:(set_solver)).
  destruct (decide (RevokeEntry.fs_block r = b)) as [<-|Hne].
  2: { rewrite lookup_insert_ne by done. destruct (m !! b) as [t|].
       - destruct Hm as [(r0 & H1 & H2) H3]. split; [exists r0; set_solver|].
         intros r1 [Hi| ->%list_elem_of_singleton]%elem_of_app; auto; done.
       - intros r1 [Hi| ->%list_elem_of_singleton]%elem_of_app; auto. }
  rewrite lookup_insert_eq. destruct (m !! RevokeEntry.fs_block r) as [t|]; simpl.
  - destruct Hm as [(r0 & H1 & H2 & <-) H3]. assert (Hr0 := Hw r0 ltac:(set_solver)).
    rewrite (sequence_after_index t0) by done. case_bool_decide.
    + split; [exists r; set_solver|]. intros r1 [Hi| ->%list_elem_of_singleton]%elem_of_app Hb; [|done].
      specialize (H3 r1 Hi Hb). lia.
    + split; [exists r0; set_solver|]. intros r1 [Hi| ->%list_elem_of_singleton]%elem_of_app Hb; [auto|lia].
  - rewrite (sequence_after_index t0), bool_decide_false by (done || lia).
    split; [exists r; set_solver|].
    intros r1 [Hi| ->%list_elem_of_singleton]%elem_of_app Hb; [|done]. by destruct (Hm r1 Hi).
Qed.

Lemma highest_of_revokes t0 rs :
  Forall (λ r, in_window t0 (RevokeEntry.transaction r)) rs →
  is_highest t0 rs (foldl ReplayPlan.note_revoke ∅ rs).
Proof.
  induction rs as [|r rs IH] using rev_ind; intros Hw.
  { intros b. simpl. rewrite lookup_empty. set_solver. }
  rewrite foldl_snoc. apply note_revoke_highest; [done|]. apply IH.
  by apply Forall_app in Hw as [? _].
Qed.

Lemma retained_survives t0 rs m w :
  Forall (λ r, in_window t0 (RevokeEntry.transaction r)) rs → is_highest t0 rs m →
  in_window t0 (ReplayEntry.transaction w) →
  Is_true (ReplayPlan.retained m w) ↔ Is_true (survives rs w).
Proof.
  intros Hw Hm Ht. specialize (Hm (ReplayEntry.fs_block w)). rewrite Forall_forall in Hw.
  unfold ReplayPlan.retained, survives. rewrite !Is_true_true, forallb_forall.
  destruct (m !! ReplayEntry.fs_block w) as [t|].
  - destruct Hm as [(r0 & H1 & H2 & <-) H3]. rewrite (sequence_after_index t0), bool_decide_eq_true by auto.
    split.
    + intros Hlt r Hr%list_elem_of_In. apply orb_true_iff.
      destruct (decide (RevokeEntry.fs_block r = ReplayEntry.fs_block w)) as [Hb|Hb];
        [right|left; by rewrite bool_decide_false].
      rewrite (sequence_after_index t0), bool_decide_eq_true by auto. specialize (H3 r Hr Hb). lia.
    + intros Hall. specialize (Hall r0 ltac:(by apply list_elem_of_In)).
      rewrite bool_decide_true in Hall by done. simpl in Hall.
      by rewrite (sequence_after_index t0), bool_decide_eq_true in Hall by auto.
  - split; [|done]. intros _ r Hr%list_elem_of_In. by rewrite bool_decide_false by auto.
Qed.

Lemma filter_Forall_iff {A} (P Q : A → Prop) `{∀ x, Decision (P x), ∀ x, Decision (Q x)} l :
  Forall (λ x, P x ↔ Q x) l → filter P l = filter Q l.
Proof.
  induction 1 as [|x l Hx Hl IH]; [done|]. rewrite !filter_cons, IH.
  destruct (decide (P x)), (decide (Q x)); naive_solver.
Qed.

Lemma filter_revoked_writes t0 p :
  Forall (λ r, in_window t0 (RevokeEntry.transaction r)) (ReplayPlan.revokes p) →
  Forall (λ w, in_window t0 (ReplayEntry.transaction w)) (ReplayPlan.writes p) →
  ReplayPlan.writes (ReplayPlan.filter_revoked p)
  = filter (λ w, Is_true (survives (ReplayPlan.revokes p) w)) (ReplayPlan.writes p).
Proof.
  intros Hr Hw. unfold ReplayPlan.filter_revoked.
  destruct (ReplayPlan.revokes p) as [|r rs] eqn:E.
  { clear. induction (ReplayPlan.writes p) as [|w ws IH]; [done|].
    rewrite filter_cons_True by exact I. by rewrite <-IH. }
  cbv zeta. cbn [ReplayPlan.writes]. apply filter_Forall_iff.
  eapply Forall_impl; [exact Hw|]. intros w Hwin.
  apply (retained_survives t0 (r :: rs)); [done| |done]. by apply highest_of_revokes.
Qed.

(** ** Properties *)

Lemma inode_parse_block raw i : Inode.parse raw = Ok i → zlen (Inode.block i) = 60.
Proof.
  unfold Inode.parse. case_decide; [done|]. intros E. res_inv. cbn.
  match goal with H : context [slice] |- _ => apply slice_inv in H as (? & ? & ? & ->) end.
  unfold OFF_BLOCK in *. zl.
Qed.

Lemma inode_parse_returns raw : bytes_ok raw → returns (Inode.parse raw).
Proof.
  intros Hb. destruct (decide (zlen raw < INODE_BASE_SIZE)) as [Hs|Hs].
  - unfold Inode.parse. by rewrite decide_True.
  - rewrite parse_eq by (done || lia). by case_decide.
Qed.

Lemma read_jinode_spec `{Crc32c} fs dev `{!ReaderOk dev} : Superblock.geometry_ok (Filesystem.sb fs) →
  0 ≤ journal_ino fs → returns (read_jinode fs dev) ∧
  ∀ i, read_jinode fs dev = Ok i → zlen (Inode.block i) = 60.
Proof.
  intros Hg Hj. destruct Hg as [_ _ _ _ Hipg His _ _ _ _ _ _ _].
  destruct (Filesystem.read_inode_raw_spec fs dev (journal_ino fs)) as [Hr Hd]; [lia|lia|done|].
  unfold read_jinode. destruct (Filesystem.read_inode_raw fs dev (journal_ino fs)) as [raw| | |]; try done.
  rewrite bind_Ok. destruct (Hd raw eq_refl) as [_ Hb]. split; [by apply inode_parse_returns|].
  intros i. apply inode_parse_block.
Qed.

Lemma pow2_block_size sb : 0 ≤ Superblock.log_block_size sb ≤ 6 →
  Indirect.block_size_ok (Superblock.block_size sb).
Proof.
  intros Hl. split; [by apply Superblock.block_size_range|]. rewrite Superblock.block_size_eq by done.
  assert (Superblock.log_block_size sb ∈ [0; 1; 2; 3; 4; 5; 6]) as Hin by (set_unfold; lia).
  set_unfold in Hin. destruct_or? Hin; rewrite Hin; reflexivity.
Qed.

(** C22: walking the log of any image terminates without a panic.  Whatever the
    journal inode, its block map, the journal superblock and the ring's blocks
    hold (cyclic maps, tags that never end, revoke counts past the block,
    descriptors naming more blocks than the ring), [walk] returns a plan or an
    error, within one pass over the ring. *)
Theorem walk_safe `{Crc32c} fs dev `{!ReaderOk dev} jsb :
  Superblock.geometry_ok (Filesystem.sb fs) → 0 ≤ journal_ino fs →
  0 ≤ JournalSuperblock.first jsb → 0 ≤ JournalSuperblock.start jsb →
  returns (walk fs dev jsb).
Proof.
  intros Hg Hj Hf Hs. unfold walk. destruct (JournalSuperblock.is_clean jsb); [done|].
  apply bind_returns.
  { unfold check_walkable. case_decide; [done|]. destruct (JournalSuperblock.checksum_declaration_error jsb); [done|].
    case_decide; [done|]. by case_decide. }
  intros [] Hck. unfold check_walkable in Hck. case_decide; [done|].
  destruct (JournalSuperblock.checksum_declaration_error jsb); [done|]. case_decide as Hbs; [done|].
  assert (Hbs' : JournalSuperblock.block_size jsb = Filesystem.block_size fs) by lia. clear Hck.
  destruct (read_jinode_spec fs dev Hg Hj) as [Hr Hi]. apply bind_returns; [done|]. intros jinode Ej.
  pose proof (pow2_block_size _ (Superblock.geo_log _ Hg)) as Hok. specialize (Hi jinode Ej).
  fold (Filesystem.block_size fs) in Hok. rewrite Hbs'.
  apply walk_log_returns; [done| | |done].
  - intros j Hj0. unfold read_journal_block, journal_block_to_physical.
    apply bind_returns; [by apply Indirect.map_logical_any_returns|]. intros o _.
    apply bind_returns; [apply ok_or_returns|]. intros phys _. apply rd_returns.
  - intros j b. unfold read_journal_block. intros E. res_inv.
    destruct Hok as [Hrange _]. apply rd_len in E; lia.
Qed.

(** The one-group volume of Bgd.v with a journal: inode 8 maps four blocks,
    journal block 0 at block 19, by direct pointers. *)
Definition sample_journal_volume : bytes :=
  splice (splice (Bgd.sample_volume 128 50) (1024 + 0xE0) (le_split 4 8)) (10240 + 7 * 128 + 0x28)
    (le_split 4 19 ++ le_split 4 20 ++ le_split 4 21 ++ le_split 4 22).

Definition sample_dirty_jsb : JournalSuperblock.t :=
  JournalSuperblock.mk JBD2_SUPERBLOCK_V2 0 1024 4 1 1 1 0 0 0 0 (zrep 16 0) 1 0 0 0.

Lemma walk_safe_witness :
  ∃ sb groups, Superblock.parse (sub sample_journal_volume 1024 1024) = Ok sb ∧
    @Bgd.read_all castagnoli (image_reader sample_journal_volume) sb (mkChecksummer 0 false) = Ok groups ∧
    Superblock.journal_inode sb = 8 ∧
    returns (@walk castagnoli (Filesystem.mk sb groups (mkChecksummer 0 false))
               (image_reader sample_journal_volume) sample_dirty_jsb).
Proof.
  destruct (Superblock.parse (sub sample_journal_volume 1024 1024)) as [sb| | |] eqn:E;
    [|vm_compute in E; discriminate..].
  assert (Hgeo : Superblock.geometry_ok sb).
  { apply (Superblock.parse_geometry (sub sample_journal_volume 1024 1024)); [by_compute|exact E]. }
  assert (Hok : ReaderOk (image_reader sample_journal_volume)) by (apply image_reader_ok; by_compute).
  assert (Hj : Superblock.journal_inode sb = 8).
  { clear - E. vm_compute in E. injection E as <-. reflexivity. }
  destruct (@Bgd.read_all castagnoli (image_reader sample_journal_volume) sb (mkChecksummer 0 false))
    as [groups| | |] eqn:Er.
  - exists sb, groups. split; [reflexivity|]. split; [exact Er|]. split; [exact Hj|].
    apply (@walk_safe castagnoli); [exact Hok|exact Hgeo| |by_compute|by_compute].
    unfold journal_ino. cbn [Filesystem.sb]. rewrite Hj. by_compute.
  - clear - E Er. vm_compute in E. injection E as <-. vm_compute in Er. discriminate.
  - clear - E Er. vm_compute in E. injection E as <-. vm_compute in Er. discriminate.
  - clear - E Er. vm_compute in E. injection E as <-. vm_compute in Er. discriminate.
Defined.
