(* ===== verification/Transaction.v ===== *)
(** Transaction: the serialiser of a transaction into journal blocks
    (src/src/transaction.rs): building a transaction and laying it out as
    descriptor, data, revoke and commit blocks.  LogReplay proves that the walk
    of Journal.v reads the log back. *)
From S2P Require Import Prelude Errors Bytes Device Features Superblock Checksum Bgd Inode Indirect Filesystem Jbd2 Journal.

Module JournaledBlock.
Record t := mk { fs_block : Z; data : bytes }.
End JournaledBlock.

Record Layout := mkLayout {
  tag_bytes : Z; l_64bit : bool; tail_bytes : Z; l_seed : option Z; csum_v3 : bool
}.

Module Transaction.
Record t := mk {
  sequence : Z; block_size : Z; uses_64bit : bool; uses_csum_v3 : bool;
  writes : list JournaledBlock.t; revokes : list Z
}.

Definition begin (sequence block_size : Z) (uses_64bit uses_csum_v3 : bool) : t :=
  mk sequence block_size uses_64bit uses_csum_v3 [] [].

Definition set_writes (ws : list JournaledBlock.t) (tx : t) : t :=
  mk (sequence tx) (block_size tx) (uses_64bit tx) (uses_csum_v3 tx) ws (revokes tx).

Definition add_write (tx : t) (fs_block : Z) (data : bytes) : res t :=
  if decide (zlen data ≠ block_size tx) then Err (Corrupt "add_write: bytes size != block_size") else
  Ok (set_writes (writes tx ++ [JournaledBlock.mk fs_block data]) tx).

Definition add_revoke (tx : t) (fs_block : Z) : t :=
  mk (sequence tx) (block_size tx) (uses_64bit tx) (uses_csum_v3 tx) (writes tx) (revokes tx ++ [fs_block]).
End Transaction.

Definition needs_escape (data : bytes) : bool :=
  bool_decide (4 ≤ zlen data ∧ sub data 0 4 = be_split 4 JBD2_MAGIC_NUMBER).

Definition logged_copy (data : bytes) : bytes :=
  if needs_escape data then splice data 0 (zrep 4 0) else data.

Section serialize.
Context `{Crc32c} (tx : Transaction.t).

Definition tags_per_descriptor (layout : Layout) : Z :=
  let usable := Transaction.block_size tx - 12 - tail_bytes layout in
  Z.max 1 (usable / tag_bytes layout).

Definition record_size (layout : Layout) : Z := if l_64bit layout then 8 else 4.

Definition revokes_per_block (layout : Layout) : Z :=
  let usable := Transaction.block_size tx - 16 - tail_bytes layout in
  Z.max 1 (usable / record_size layout).

Definition write_header (blk : bytes) (block_type : Z) : res bytes :=
  blk ← put_be32 blk 0 JBD2_MAGIC_NUMBER;
  blk ← put_be32 blk 4 block_type;
  put_be32 blk 8 (Transaction.sequence tx).

Definition seal_tail (blk : bytes) (layout : Layout) : res bytes :=
  match l_seed layout with
  | Some seed => put_be32 blk (zlen blk - BLOCK_TAIL_BYTES) (block_tail_checksum seed blk)
  | None => Ok blk
  end.

Definition write_flags (last : bool) (data : bytes) : Z :=
  let flags := if last then TAG_LAST else 0 in
  let flags := Z.lor flags TAG_SAME_UUID in
  if needs_escape data then Z.lor flags TAG_ESCAPED else flags.

(** One tag, written at [pos]. *)
Definition put_tag (layout : Layout) (blk : bytes) (pos flags fs_block : Z) (checksum : option Z)
    : res bytes :=
  blk ← put_be32 blk pos (Z.land fs_block 0xFFFFFFFF);
  if csum_v3 layout then
    blk ← put_be32 blk (pos + 4) flags;
    blk ← (if l_64bit layout then put_be32 blk (pos + 8) (as_u32 (Z.shiftr fs_block 32)) else Ok blk);
    match checksum with Some c => put_be32 blk (pos + 12) c | None => Ok blk end
  else
    let c16 := match checksum with Some c => as_u16 c | None => 0 end in
    blk ← put_be16 blk (pos + 4) c16;
    blk ← put_be16 blk (pos + 6) (as_u16 flags);
    if l_64bit layout then put_be32 blk (pos + 8) (as_u32 (Z.shiftr fs_block 32)) else Ok blk.

Definition tag_csum (layout : Layout) (data : bytes) : option Z :=
  match l_seed layout with
  | Some seed => Some (tag_checksum seed (Transaction.sequence tx) (logged_copy data))
  | None => None
  end.

(** The loop over the writes; the last one left gets [TAG_LAST]. *)
Fixpoint put_tags (layout : Layout) (usable : Z) (ws : list JournaledBlock.t) (blk : bytes) (pos : Z)
    : res bytes :=
  match ws with
  | [] => Ok blk
  | w :: ws =>
      let flags := write_flags (match ws with [] => true | _ => false end) (JournaledBlock.data w) in
      if decide (usable < pos + tag_bytes layout)
      then Err (Corrupt "descriptor block overflow (too many tags)") else
      blk ← put_tag layout blk pos flags (JournaledBlock.fs_block w)
              (tag_csum layout (JournaledBlock.data w));
      put_tags layout usable ws blk (pos + tag_bytes layout)
  end.

Definition blank : bytes := zrep (Transaction.block_size tx) 0.

Definition build_descriptor_block (ws : list JournaledBlock.t) (layout : Layout) : res bytes :=
  blk ← write_header blank JBD2_DESCRIPTOR_BLOCK;
  blk ← put_tags layout (zlen blk - tail_bytes layout) ws blk 12;
  seal_tail blk layout.

Fixpoint put_records (layout : Layout) (rs : list Z) (blk : bytes) (pos : Z) : res bytes :=
  match rs with
  | [] => Ok blk
  | b :: rs =>
      blk ← (if l_64bit layout then put_be64 blk pos b else put_be32 blk pos (as_u32 b));
      put_records layout rs blk (pos + record_size layout)
  end.

Definition build_revoke_block (rs : list Z) (layout : Layout) : res bytes :=
  blk ← write_header blank JBD2_REVOKE_BLOCK;
  let total_bytes := 16 + zlen rs * record_size layout in
  if decide (zlen blk - tail_bytes layout < total_bytes) then Err (Corrupt "revoke block overflow") else
  blk ← put_be32 blk 12 (as_u32 total_bytes);
  blk ← put_records layout rs blk 16;
  seal_tail blk layout.

Definition build_commit_block (layout : Layout) : res bytes :=
  blk ← write_header blank JBD2_COMMIT_BLOCK;
  match l_seed layout with
  | Some seed =>
      c ← commit_block_checksum seed blk;
      put_be32 blk COMMIT_CHECKSUM_AT c
  | None => Ok blk
  end.

Definition descriptor_group (layout : Layout) (chunk : list JournaledBlock.t) : res (list bytes) :=
  d ← build_descriptor_block chunk layout;
  Ok (d :: ((λ w, logged_copy (JournaledBlock.data w)) <$> chunk)).

Definition serialize (layout : Layout) : res (list bytes) :=
  groups ← traverse (descriptor_group layout) (chunks (tags_per_descriptor layout) (Transaction.writes tx));
  rvs ← traverse (λ chunk, build_revoke_block chunk layout)
          (chunks (revokes_per_block layout) (Transaction.revokes tx));
  c ← build_commit_block layout;
  Ok (concat groups ++ rvs ++ [c]).

Definition commit_layout : Layout :=
  if Transaction.uses_csum_v3 tx
  then mkLayout 16 (Transaction.uses_64bit tx) BLOCK_TAIL_BYTES None true
  else mkLayout (if Transaction.uses_64bit tx then 12 else 8) (Transaction.uses_64bit tx) 0 None false.

Definition commit : res (list bytes) := serialize commit_layout.

Definition layout_for (jsb : JournalSuperblock.t) : Layout :=
  mkLayout (JournalSuperblock.tag_bytes jsb) (JournalSuperblock.uses_64bit jsb)
    (if JournalSuperblock.uses_csum_v2_or_v3 jsb then BLOCK_TAIL_BYTES else 0)
    (JournalSuperblock.seed_of jsb) (JournalSuperblock.uses_csum_v3 jsb).

Definition commit_for (jsb : JournalSuperblock.t) : res (list bytes) :=
  if decide (JournalSuperblock.unsupported_incompat jsb ≠ 0)
  then Err (Unsupported "journal declares an incompat feature this driver does not write") else
  match JournalSuperblock.checksum_declaration_error jsb with
  | Some why => Err (Corrupt why)
  | None =>
      if decide (Transaction.block_size tx ≠ JournalSuperblock.block_size jsb ∨
                 Transaction.uses_64bit tx ≠ JournalSuperblock.uses_64bit jsb ∨
                 Transaction.uses_csum_v3 tx ≠ JournalSuperblock.uses_csum_v3 jsb)
      then Err (InvalidArgument "transaction was begun for a different journal layout")
      else serialize (layout_for jsb)
  end.
End serialize.

(** ** Lemmas: the bytes of a descriptor block *)

Lemma put_be32_mid pre c post off o v : off = zlen pre + o → 0 ≤ o → o + 4 ≤ zlen c →
  put_be32 (pre ++ c ++ post) off v = Ok (pre ++ splice c o (be_split 4 v) ++ post).
Proof. intros -> ? ?. unfold put_be32. rewrite put_mid; [done|lia|zl]. Qed.
Lemma put_be16_mid pre c post off o v : off = zlen pre + o → 0 ≤ o → o + 2 ≤ zlen c →
  put_be16 (pre ++ c ++ post) off v = Ok (pre ++ splice c o (be_split 2 v) ++ post).
Proof. intros -> ? ?. unfold put_be16. rewrite put_mid; [done|lia|zl]. Qed.
Lemma put_be64_mid pre c post off o v : off = zlen pre + o → 0 ≤ o → o + 8 ≤ zlen c →
  put_be64 (pre ++ c ++ post) off v = Ok (pre ++ splice c o (be_split 8 v) ++ post).
Proof. intros -> ? ?. unfold put_be64. rewrite put_mid; [done|lia|zl]. Qed.

(** What [layout_for] makes of an accepted journal superblock. *)
Definition layout_ok (L : Layout) : Prop :=
  tag_bytes L ∈ (if csum_v3 L then [16] else if l_64bit L then [12; 14] else [8; 10]) ∧
  tail_bytes L = (match l_seed L with Some _ => 4 | None => 0 end) ∧
  match l_seed L with Some s => 0 ≤ s < 2 ^ 32 | None => True end.

Definition hi32 (b : Z) : Z := as_u32 (Z.shiftr b 32).
Definition lo32 (b : Z) : Z := Z.land b 0xFFFFFFFF.

Definition enc_tag (L : Layout) (flags fs_block : Z) (ck : option Z) : bytes :=
  be_split 4 (lo32 fs_block) ++
  if csum_v3 L then
    be_split 4 flags ++ (if l_64bit L then be_split 4 (hi32 fs_block) else zrep 4 0) ++
    (match ck with Some c => be_split 4 c | None => zrep 4 0 end)
  else
    be_split 2 (match ck with Some c => as_u16 c | None => 0 end) ++ be_split 2 (as_u16 flags) ++
    (if l_64bit L then be_split 4 (hi32 fs_block) else []) ++
    zrep (tag_bytes L - (if l_64bit L then 12 else 8)) 0.

#[global] Arguments enc_tag : simpl never.

Lemma zlen_enc_tag L flags b ck : layout_ok L → zlen (enc_tag L flags b ck) = tag_bytes L.
Proof.
  intros (Ht & _ & _). unfold enc_tag. destruct (csum_v3 L), (l_64bit L), ck;
    autorewrite with zlen; set_unfold in Ht; destruct_or?; lia.
Qed.

Ltac puts pre post :=
  repeat first
    [ rewrite (put_be32_mid pre _ post (zlen pre) 0) by (lia || zl)
    | rewrite (put_be32_mid pre _ post (zlen pre + 4) 4) by (lia || zl)
    | rewrite (put_be32_mid pre _ post (zlen pre + 8) 8) by (lia || zl)
    | rewrite (put_be32_mid pre _ post (zlen pre + 12) 12) by (lia || zl)
    | rewrite (put_be16_mid pre _ post (zlen pre + 4) 4) by (lia || zl)
    | rewrite (put_be16_mid pre _ post (zlen pre + 6) 6) by (lia || zl)
    | progress rewrite ?bind_Ok ].

Lemma put_tag_spec L pre post flags b ck pos : layout_ok L → pos = zlen pre →
  put_tag L (pre ++ zrep (tag_bytes L) 0 ++ post) pos flags b ck = Ok (pre ++ enc_tag L flags b ck ++ post).
Proof.
  intros (Ht & _ & _) ->. unfold put_tag, enc_tag, lo32, hi32.
  destruct (csum_v3 L), (l_64bit L); set_unfold in Ht; destruct_or? Ht; rewrite Ht;
    puts pre post; destruct ck; puts pre post; do 2 f_equal.
Qed.

Section blocks.
Context `{Crc32c} (tx : Transaction.t) (L : Layout) (HL : layout_ok L).

Definition header (bt : Z) : bytes :=
  be_split 4 JBD2_MAGIC_NUMBER ++ be_split 4 bt ++ be_split 4 (Transaction.sequence tx).

Lemma write_header_spec bt : 12 ≤ Transaction.block_size tx →
  write_header tx (blank tx) bt = Ok (header bt ++ zrep (Transaction.block_size tx - 12) 0).
Proof.
  intros Hb. unfold write_header, blank. rewrite (zrep_split 12) by lia.
  change (zrep 12 0 ++ zrep (Transaction.block_size tx - 12) 0)
    with ([] ++ zrep 12 0 ++ zrep (Transaction.block_size tx - 12) 0).
  rewrite (put_be32_mid [] _ _ 0 0) by (lia || zl). rewrite bind_Ok.
  rewrite (put_be32_mid [] _ _ 4 4) by (lia || zl). rewrite bind_Ok.
  rewrite (put_be32_mid [] _ _ 8 8) by (lia || zl). done.
Qed.

Lemma zlen_header bt : zlen (header bt) = 12.
Proof. unfold header. zl. Qed.

Definition is_nil {A} (l : list A) : bool := match l with [] => true | _ => false end.

Fixpoint enc_tags (ws : list JournaledBlock.t) : bytes :=
  match ws with
  | [] => []
  | w :: ws =>
      enc_tag L (write_flags (is_nil ws) (JournaledBlock.data w)) (JournaledBlock.fs_block w)
        (tag_csum tx L (JournaledBlock.data w)) ++ enc_tags ws
  end.

Lemma tag_bytes_ok : 8 ≤ tag_bytes L ≤ 16.
Proof. destruct HL as [Ht _]. destruct (csum_v3 L), (l_64bit L); set_unfold in Ht; destruct_or?; lia. Qed.

Lemma zlen_enc_tags ws : zlen (enc_tags ws) = zlen ws * tag_bytes L.
Proof. induction ws as [|w ws IH]; [done|]. cbn [enc_tags]. rewrite zlen_app, zlen_cons, zlen_enc_tag, IH by done. lia. Qed.

Lemma put_tags_spec usable ws pre r pos :
  pos = zlen pre → zlen pre + zlen ws * tag_bytes L ≤ usable → usable ≤ zlen pre + r →
  put_tags tx L usable ws (pre ++ zrep r 0) pos
  = Ok (pre ++ enc_tags ws ++ zrep (r - zlen ws * tag_bytes L) 0).
Proof.
  pose proof tag_bytes_ok as Ht. revert pre r pos.
  induction ws as [|w ws IH]; intros pre r pos -> Hu Hr.
  { cbn [put_tags enc_tags]. by replace (r - zlen (@nil JournaledBlock.t) * tag_bytes L) with r by (change (zlen (@nil JournaledBlock.t)) with 0; lia). }
  cbn [put_tags enc_tags]. rewrite zlen_cons in *. pose proof (zlen_nonneg ws). rewrite decide_False by lia.
  rewrite (zrep_split (tag_bytes L) r) by lia.
  rewrite put_tag_spec by done. rewrite bind_Ok, app_assoc, IH.
  - unfold is_nil. rewrite <-!app_assoc. do 5 f_equal. lia.
  - rewrite zlen_app, zlen_enc_tag by done. lia.
  - rewrite zlen_app, zlen_enc_tag by done. lia.
  - rewrite zlen_app, zlen_enc_tag by done. lia.
Qed.

(** The checksum tail of a block whose other bytes are [body]. *)
Definition tail_of (body : bytes) : bytes :=
  match l_seed L with
  | Some s => be_split 4 (linux_crc32c (linux_crc32c s body) (zrep 4 0))
  | None => []
  end.

Lemma zlen_tail_of body : zlen (tail_of body) = tail_bytes L.
Proof. destruct HL as (_ & -> & _). unfold tail_of. destruct (l_seed L); zl. Qed.

Lemma tail_checksum_body s body t : zlen t = 4 →
  block_tail_checksum s (body ++ t) = linux_crc32c (linux_crc32c s body) (zrep 4 0).
Proof.
  intros Ht. unfold block_tail_checksum, saturating_sub, BLOCK_TAIL_BYTES.
  pose proof (zlen_nonneg body). rewrite zlen_app, Ht, Z.max_r by lia.
  rewrite sub_app_l by lia. by rewrite sub_all by lia.
Qed.

Lemma seal_tail_spec body : seal_tail (body ++ zrep (tail_bytes L) 0) L = Ok (body ++ tail_of body).
Proof.
  destruct HL as (_ & Ht & _). unfold seal_tail, tail_of. rewrite Ht. destruct (l_seed L) as [s|].
  - rewrite tail_checksum_body by zl. pose proof (zlen_nonneg body). unfold BLOCK_TAIL_BYTES.
    rewrite <-(app_nil_r (zrep 4 0)) at 1.
    rewrite (put_be32_mid body (zrep 4 0) [] _ 0); [|zl|lia|zl]. rewrite app_nil_r. done.
  - rewrite zrep_0, app_nil_r. done.
Qed.

Lemma tail_torn_sealed body : tail_torn (l_seed L) (body ++ tail_of body) = Ok false.
Proof.
  unfold tail_torn, tail_of. destruct (l_seed L) as [s|] eqn:Es; [|done].
  unfold tail_checksum_matches, BLOCK_TAIL_BYTES. rewrite tail_checksum_body by zl.
  rewrite u32_be_app_r by zl. replace (zlen (body ++ _) - 4 - zlen body) with 0 by zl.
  set (c := linux_crc32c _ _). rewrite <-(app_nil_r (be_split 4 c)).
  rewrite u32_be_head by apply linux_crc32c_range. simpl. by rewrite bool_decide_true.
Qed.

(** A descriptor or revoke block: header, content, padding, tail. *)
Definition framed (bt : Z) (content : bytes) : bytes :=
  let body := header bt ++ content ++
              zrep (Transaction.block_size tx - 12 - tail_bytes L - zlen content) 0 in
  body ++ tail_of body.

Lemma zlen_framed bt content :
  12 + tail_bytes L + zlen content ≤ Transaction.block_size tx →
  zlen (framed bt content) = Transaction.block_size tx.
Proof.
  intros. unfold framed. rewrite zlen_app, zlen_tail_of, !zlen_app, zlen_header, zlen_zrep. lia.
Qed.

Lemma tail_bytes_range : 0 ≤ tail_bytes L ≤ 4.
Proof. destruct HL as (_ & -> & _). destruct (l_seed L); lia. Qed.

Lemma seal_framed bt content r :
  r = Transaction.block_size tx - 12 - zlen content → tail_bytes L ≤ r →
  seal_tail (header bt ++ content ++ zrep r 0) L = Ok (framed bt content).
Proof.
  intros -> Hr. pose proof tail_bytes_range.
  set (n := Transaction.block_size tx - 12 - tail_bytes L - zlen content).
  replace (Transaction.block_size tx - 12 - zlen content) with (n + tail_bytes L) by (unfold n; lia).
  rewrite zrep_app by (unfold n; lia).
  replace (header bt ++ content ++ zrep n 0 ++ zrep (tail_bytes L) 0)
    with ((header bt ++ content ++ zrep n 0) ++ zrep (tail_bytes L) 0) by (by rewrite <-!app_assoc).
  apply seal_tail_spec.
Qed.

Lemma build_descriptor_spec ws :
  12 + tail_bytes L + zlen ws * tag_bytes L ≤ Transaction.block_size tx →
  build_descriptor_block tx ws L = Ok (framed JBD2_DESCRIPTOR_BLOCK (enc_tags ws)).
Proof.
  intros Hb. pose proof tag_bytes_ok. pose proof tail_bytes_range. pose proof (zlen_nonneg ws).
  unfold build_descriptor_block. rewrite write_header_spec by lia. rewrite bind_Ok.
  rewrite (put_tags_spec _ ws (header JBD2_DESCRIPTOR_BLOCK)) by (rewrite ?zlen_app, ?zlen_header, ?zlen_zrep; lia).
  rewrite bind_Ok. apply seal_framed; rewrite ?zlen_enc_tags; lia.
Qed.

Fixpoint enc_records (rs : list Z) : bytes :=
  match rs with
  | [] => []
  | b :: rs => (if l_64bit L then be_split 8 b else be_split 4 (as_u32 b)) ++ enc_records rs
  end.

Lemma zlen_enc_records rs : zlen (enc_records rs) = zlen rs * record_size L.
Proof.
  induction rs as [|b rs IH]; [done|]. cbn [enc_records]. rewrite zlen_app, zlen_cons, IH.
  unfold record_size. destruct (l_64bit L); zl.
Qed.

Lemma record_size_ok : 4 ≤ record_size L ≤ 8.
Proof. unfold record_size. destruct (l_64bit L); lia. Qed.

Lemma put_records_spec rs pre r pos :
  pos = zlen pre → zlen rs * record_size L ≤ r →
  put_records L rs (pre ++ zrep r 0) pos
  = Ok (pre ++ enc_records rs ++ zrep (r - zlen rs * record_size L) 0).
Proof.
  pose proof record_size_ok as Hk. revert pre r pos.
  induction rs as [|b rs IH]; intros pre r pos -> Hr.
  { cbn [put_records enc_records].
    by replace (r - zlen (@nil Z) * record_size L) with r by (change (zlen (@nil Z)) with 0; lia). }
  cbn [put_records enc_records]. rewrite zlen_cons in *. pose proof (zlen_nonneg rs).
  rewrite (zrep_split (record_size L) r) by lia.
  set (e := if l_64bit L then be_split 8 b else be_split 4 (as_u32 b)).
  assert (He : zlen e = record_size L) by (unfold e, record_size; destruct (l_64bit L); zl).
  assert (Hput : (if l_64bit L
      then put_be64 (pre ++ zrep (record_size L) 0 ++ zrep (r - record_size L) 0) (zlen pre) b
      else put_be32 (pre ++ zrep (record_size L) 0 ++ zrep (r - record_size L) 0) (zlen pre) (as_u32 b))
      = Ok (pre ++ e ++ zrep (r - record_size L) 0)).
  { unfold e, record_size in *. destruct (l_64bit L).
    - rewrite (put_be64_mid pre _ _ _ 0) by (lia || zl). done.
    - rewrite (put_be32_mid pre _ _ _ 0) by (lia || zl). done. }
  rewrite Hput, bind_Ok, app_assoc, IH by (rewrite ?zlen_app; lia).
  rewrite <-!app_assoc. do 5 f_equal. lia.
Qed.

Definition revoke_content (rs : list Z) : bytes :=
  be_split 4 (16 + zlen rs * record_size L) ++ enc_records rs.

Lemma build_revoke_spec rs :
  16 + tail_bytes L + zlen rs * record_size L ≤ Transaction.block_size tx → Transaction.block_size tx < 2 ^ 32 →
  build_revoke_block tx rs L = Ok (framed JBD2_REVOKE_BLOCK (revoke_content rs)).
Proof.
  intros Hb Hb'. pose proof record_size_ok. pose proof tail_bytes_range. pose proof (zlen_nonneg rs).
  unfold build_revoke_block. rewrite write_header_spec by lia. rewrite bind_Ok.
  rewrite decide_False by (rewrite zlen_app, zlen_header, zlen_zrep; lia).
  rewrite (zrep_split 4) by lia.
  rewrite (put_be32_mid (header _) _ _ _ 0) by (rewrite ?zlen_header; lia || zl). rewrite bind_Ok.
  replace (as_u32 (16 + zlen rs * record_size L)) with (16 + zlen rs * record_size L)
    by (unfold as_u32; rewrite Z.mod_small; lia).
  change (splice (zrep 4 0) 0 (be_split 4 (16 + zlen rs * record_size L)))
    with (be_split 4 (16 + zlen rs * record_size L)).
  rewrite app_assoc, put_records_spec by (rewrite ?zlen_app, ?zlen_header, ?zlen_be_split; lia).
  rewrite bind_Ok. unfold revoke_content. rewrite <-app_assoc.
  rewrite (app_assoc (be_split 4 _) (enc_records rs)).
  apply seal_framed; rewrite ?zlen_app, ?zlen_be_split, ?zlen_enc_records; lia.
Qed.

(** The commit block; its checksum field takes the place of zeros. *)
Definition commit_sum (s : Z) : Z :=
  linux_crc32c (linux_crc32c (linux_crc32c s (header JBD2_COMMIT_BLOCK ++ zrep 4 0)) [0; 0; 0; 0])
    (zrep (Transaction.block_size tx - 20) 0).

Definition commit_block : bytes :=
  (header JBD2_COMMIT_BLOCK ++ zrep 4 0) ++
  (match l_seed L with Some s => be_split 4 (commit_sum s) | None => zrep 4 0 end) ++
  zrep (Transaction.block_size tx - 20) 0.

Lemma commit_checksum_spec s x : 20 ≤ Transaction.block_size tx → zlen x = 4 →
  commit_block_checksum s ((header JBD2_COMMIT_BLOCK ++ zrep 4 0) ++ x ++ zrep (Transaction.block_size tx - 20) 0)
  = Ok (commit_sum s).
Proof.
  intros Hb Hx. unfold commit_block_checksum, COMMIT_CHECKSUM_AT.
  assert (Hh : zlen (header JBD2_COMMIT_BLOCK ++ zrep 4 0) = 16) by (rewrite zlen_app, zlen_header; zl).
  rewrite slice_head by lia. rewrite bind_Ok.
  rewrite slice_app_r by lia. rewrite slice_app_r by lia. rewrite Hh, Hx, !zlen_app, zlen_header, Hx, !zlen_zrep.
  replace (16 + 4 - 16 - 4) with 0 by lia. rewrite slice_ok by (rewrite ?zlen_zrep; lia).
  rewrite sub_all by (rewrite zlen_zrep; lia). done.
Qed.

Lemma build_commit_spec : 20 ≤ Transaction.block_size tx → build_commit_block tx L = Ok commit_block.
Proof.
  intros Hb. unfold build_commit_block. rewrite write_header_spec by lia. rewrite bind_Ok.
  rewrite (zrep_split 8) by lia. change (zrep 8 0) with (zrep 4 0 ++ zrep 4 0).
  replace (Transaction.block_size tx - 12 - 8) with (Transaction.block_size tx - 20) by lia.
  rewrite <-(app_assoc (zrep 4 0)), (app_assoc (header _)). unfold commit_block.
  destruct (l_seed L) as [s|]; [|done].
  rewrite commit_checksum_spec by (done || zl). rewrite bind_Ok. unfold COMMIT_CHECKSUM_AT.
  by rewrite (put_be32_mid _ _ _ _ 0) by (rewrite ?zlen_app, ?zlen_header; zl).
Qed.
End blocks.
