(* ===== verification/JournalApply.v ===== *)
(** JournalApply: replaying a dirty journal (src/src/journal_apply.rs): the
    bounds on a replayed block number, the pass that writes the plan to the
    device or pins it in the cache, and the two superblock updates that record
    the replay as done. *)
From S2P Require Import Prelude Errors Bytes Device Features Superblock Checksum Bgd Inode Indirect Filesystem Jbd2 Journal.

(** Where a block number lands on the device, or a refusal. *)
Definition byte_offset_in (block blocks_count block_size device_bytes : Z) : res Z :=
  if decide (blocks_count ≤ block)
  then Err (Corrupt "journal: names a block past the end of the filesystem") else
  offset ← ok_or (checked_mul64 block block_size) (Corrupt "journal: block offset overflows");
  e ← ok_or (checked_add64 offset block_size) (Corrupt "journal: block offset overflows");
  if decide (device_bytes < e) then Err (Corrupt "journal: names a block past the end of the device")
  else Ok offset.

(** The first four bytes of an escaped block are the magic again. *)
Definition restore (flags : Z) (buf : bytes) : res bytes :=
  if decide (Z.land flags TAG_ESCAPED ≠ 0) then put_be32 buf 0 JBD2_MAGIC_NUMBER else Ok buf.

(** [needs_recovery] set or cleared in a superblock image. *)
Definition set_needs_recovery_in `{Crc32c} (sb : bytes) (on : bool) : res bytes :=
  let recover := Incompat.RECOVER in
  incompat ← u32_le sb 0x60;
  let incompat := if on then Z.lor incompat recover else Z.land incompat (lnot32 recover) in
  sb ← put_u32 sb 0x60 incompat;
  ro_compat ← u32_le sb 0x64;
  if has_bits ro_compat RoCompat.METADATA_CSUM then
    body ← slice sb 0 0x3FC;
    put_u32 sb 0x3FC (linux_crc32c u32_ones body)
  else Ok sb.

(** A read-only client run on the device's current contents. *)
Definition with_reader {D A} `{BlockDevice D} (f : reader → res A) : dev_m D A :=
  λ d, (f (snapshot d), d).

Section apply.
Context `{Crc32c} {D : Type} `{BlockDevice D} (fs : Filesystem.t).

Definition write_needs_recovery (on : bool) : dev_m D unit :=
  let at_ := Superblock.SUPERBLOCK_OFFSET in
  sb ← read_at at_ 1024;
  sb ← dev_lift (set_needs_recovery_in sb on);
  write_at at_ sb.

Definition byte_offset_of (device_bytes block : Z) : res Z :=
  byte_offset_in block (Superblock.blocks_count (Filesystem.sb fs)) (Filesystem.block_size fs) device_bytes.

Definition dev_size : dev_m D Z := λ d, (Ok (size_bytes d), d).
Definition dev_writable : dev_m D bool := λ d, (Ok (is_writable d), d).

Definition mark_journal_clean (jsb : JournalSuperblock.t) (plan : ReplayPlan.t) : dev_m D unit :=
  phys ← with_reader (λ r, jinode ← read_jinode fs r; journal_block_to_physical fs r jinode 0);
  phys ← dev_lift (ok_or phys (Corrupt "journal_apply: journal superblock unmapped"));
  size ← dev_size;
  at_ ← dev_lift (byte_offset_of size phys);
  buf ← read_at at_ 1024;
  magic ← dev_lift (u32_be buf 0);
  if decide (magic ≠ JBD2_MAGIC_NUMBER)
  then dev_lift (Err (Corrupt "journal_apply: journal superblock lost its magic during replay")) else
  let last := match ReplayPlan.next_sequence plan with
              | Some s => s | None => JournalSuperblock.sequence jsb end in
  buf ← dev_lift (put_be32 buf 0x18 (as_u32 (last + 1)));
  buf ← dev_lift (put_be32 buf 0x1C 0);
  buf ← dev_lift (if JournalSuperblock.uses_csum_v2_or_v3 jsb then
                    zeroed ← put buf 0xFC (zrep 4 0);
                    put_be32 zeroed 0xFC (linux_crc32c u32_ones zeroed)
                  else Ok buf);
  _ ← write_at at_ buf;
  flush.

(** Each entry's source and destination as device offsets. *)
Definition resolve (device_bytes : Z) (r : reader) (plan : ReplayPlan.t) : res (list (Z * Z)) :=
  jinode ← read_jinode fs r;
  traverse (λ w,
    o ← journal_block_to_physical fs r jinode (ReplayEntry.journal_block w);
    phys ← ok_or o (Corrupt "journal_apply: journal block unmapped");
    source ← byte_offset_of device_bytes phys;
    destination ← byte_offset_of device_bytes (ReplayEntry.fs_block w);
    Ok (source, destination)) (ReplayPlan.writes plan).

(** The write loop over the entries and their resolved offsets. *)
Fixpoint apply_loop (ws : list (ReplayEntry.t * (Z * Z))) (applied : Z) : dev_m D Z :=
  match ws with
  | [] => mret applied
  | (w, (source, destination)) :: ws =>
      buf ← read_at source (Filesystem.block_size fs);
      buf ← dev_lift (restore (ReplayEntry.flags w) buf);
      _ ← write_at destination buf;
      apply_loop ws (applied + 1)
  end.

Definition apply (plan : ReplayPlan.t) : dev_m D Z :=
  if decide (ReplayPlan.writes plan = []) then mret 0 else
  writable ← dev_writable;
  if negb writable
  then dev_lift (Err (Corrupt "journal_apply: device is not writable; cannot replay")) else
  size ← dev_size;
  resolved ← with_reader (λ r, resolve size r plan);
  applied ← apply_loop (zip (ReplayPlan.writes plan) resolved) 0;
  _ ← flush;
  mret applied.

(** Every source is read before any block is pinned. *)
Fixpoint read_sources (ws : list (ReplayEntry.t * (Z * Z))) : dev_m D (list (Z * bytes)) :=
  match ws with
  | [] => mret []
  | (w, (source, _)) :: ws =>
      buf ← read_at source (Filesystem.block_size fs);
      buf ← dev_lift (restore (ReplayEntry.flags w) buf);
      rest ← read_sources ws;
      mret ((ReplayEntry.fs_block w, buf) :: rest)
  end.

Definition pin_all (blocks : list (Z * bytes)) : dev_m D unit :=
  λ d, (Ok (), foldl (λ d kb, populate_cache (fst kb) (snd kb) d) d blocks).

Definition replay_into_cache : dev_m D Z :=
  jsb ← with_reader (read_superblock fs);
  match jsb with
  | None => mret 0
  | Some jsb =>
      if JournalSuperblock.is_clean jsb then mret 0 else
      plan ← with_reader (λ r, walk fs r jsb);
      if decide (ReplayPlan.writes plan = []) then mret 0 else
      size ← dev_size;
      resolved ← with_reader (λ r, resolve size r plan);
      blocks ← read_sources (zip (ReplayPlan.writes plan) resolved);
      _ ← pin_all blocks;
      mret (zlen blocks)
  end.

Definition replay_if_dirty : dev_m D Z :=
  writable ← dev_writable;
  if negb writable then mret 0 else
  jsb ← with_reader (read_superblock fs);
  match jsb with
  | None => mret 0
  | Some jsb =>
      let incompat := Superblock.feature_incompat (Filesystem.sb fs) in
      if JournalSuperblock.is_clean jsb then
        _ ← (if has_bits incompat Incompat.RECOVER then _ ← write_needs_recovery false; flush else mret ());
        mret 0
      else
      let write_breaking := write_breaking_incompat incompat in
      if decide (write_breaking ≠ 0) then dev_lift (Err (UnsupportedIncompat write_breaking)) else
      plan ← with_reader (λ r, walk fs r jsb);
      applied ← apply plan;
      _ ← mark_journal_clean jsb plan;
      _ ← write_needs_recovery false;
      _ ← flush;
      mret applied
  end.
End apply.

(** ** The state at rest before and after a replay *)
Record ReplaySummary := mkSummary {
  rs_clean : bool; rs_sequence : Z; rs_start : Z; rs_max_len : Z;
  rs_has_revoke : bool; rs_uses_64bit : bool; rs_uses_csum : bool
}.

Definition summary_of (j : JournalSuperblock.t) : ReplaySummary :=
  mkSummary (JournalSuperblock.is_clean j) (JournalSuperblock.sequence j) (JournalSuperblock.start j)
    (JournalSuperblock.max_len j) (JournalSuperblock.has_revoke j) (JournalSuperblock.uses_64bit j)
    (JournalSuperblock.uses_csum_v2_or_v3 j).

(** ** Lemmas *)

(** An accepted block number addresses a whole block inside both the
    filesystem and the device; the product has not wrapped. *)
Lemma byte_offset_in_ok b n bs dev o : 0 ≤ b → 0 < bs →
  byte_offset_in b n bs dev = Ok o → o = b * bs ∧ b < n ∧ 0 ≤ o ∧ o + bs ≤ dev ∧ o < 2 ^ 64.
Proof.
  intros Hb Hbs. unfold byte_offset_in, checked_mul64, checked_add64. intros E. res_inv.
  repeat case_decide; simplify_eq. nia.
Qed.

Lemma byte_offset_in_eq b n bs dev : 0 ≤ b < n → 0 < bs → n * bs ≤ dev → dev < 2 ^ 64 →
  byte_offset_in b n bs dev = Ok (b * bs).
Proof.
  intros Hb Hbs Hn Hd. assert (b * bs + bs ≤ dev) by nia.
  unfold byte_offset_in, checked_mul64, checked_add64.
  rewrite decide_False by lia. rewrite decide_True by lia. simpl.
  rewrite decide_True by lia. simpl. by rewrite decide_False by lia.
Qed.

Lemma byte_offset_in_returns b n bs dev : returns (byte_offset_in b n bs dev).
Proof.
  unfold byte_offset_in. case_decide; [done|]. apply bind_returns; [apply ok_or_returns|]. intros o _.
  apply bind_returns; [apply ok_or_returns|]. intros e _. by case_decide.
Qed.

(** *** The recovery flag *)

Lemma land_mod32 x m : 0 ≤ m < 2 ^ 32 → Z.land (x mod 2 ^ 32) m = Z.land x m.
Proof.
  intros Hm. rewrite <-land_ones_mod by lia. rewrite <-Z.land_assoc. f_equal.
  rewrite Z.land_comm, land_ones_mod by lia. by apply Z.mod_small.
Qed.

Lemma le32_splice_mod b off v : 0 ≤ off → off + 4 ≤ zlen b →
  le32 (splice b off (le_split 4 v)) off = v mod 2 ^ 32.
Proof.
  intros. unfold le32. rewrite sub_splice_same_len by (autorewrite with zlen; lia).
  by rewrite le_combine_split_mod.
Qed.

Lemma recover_flag_off i (on : bool) :
  Z.land (if on then Z.lor i Incompat.RECOVER else Z.land i (lnot32 Incompat.RECOVER)) (lnot32 Incompat.RECOVER)
  = Z.land i (lnot32 Incompat.RECOVER).
Proof.
  destruct on.
  - rewrite Z.land_lor_distr_l. change (Z.land Incompat.RECOVER (lnot32 Incompat.RECOVER)) with 0. apply Z.lor_0_r.
  - by rewrite <-Z.land_assoc, Z.land_diag.
Qed.

Lemma bytes_ok_put b off n v : bytes_ok b → bytes_ok (splice b off (le_split n v)).
Proof. intros. apply bytes_ok_splice; [done|apply bytes_ok_le_split]. Qed.

(** The flag set either way and then cleared is the flag cleared. *)
Lemma set_needs_recovery_spec `{Crc32c} sb on : zlen sb = 1024 → bytes_ok sb →
  ∃ sb', set_needs_recovery_in sb on = Ok sb' ∧ zlen sb' = 1024 ∧ bytes_ok sb' ∧
         set_needs_recovery_in sb' false = set_needs_recovery_in sb false.
Proof.
  intros Hl Hb. unfold set_needs_recovery_in. cbv iota. set (i := le32 sb 0x60).
  set (v := if on then Z.lor i Incompat.RECOVER else Z.land i (lnot32 Incompat.RECOVER)).
  set (s1 := splice sb 0x60 (le_split 4 v)).
  assert (H1 : zlen s1 = 1024) by (unfold s1; rewrite zlen_splice; zl).
  assert (B1 : bytes_ok s1) by (by apply bytes_ok_put).
  rewrite !(u32_le_ok sb) by lia. rewrite !bind_Ok. cbv zeta. rewrite !(put_u32_ok sb) by lia. rewrite !bind_Ok.
  fold i. fold v. fold s1.
  set (s0 := splice sb 0x60 (le_split 4 (Z.land i (lnot32 Incompat.RECOVER)))).
  assert (H0 : zlen s0 = 1024) by (unfold s0; rewrite zlen_splice; zl).
  rewrite (u32_le_ok s1), (u32_le_ok s0) by lia. rewrite !bind_Ok.
  assert (Hro1 : le32 s1 0x64 = le32 sb 0x64) by (unfold s1; rewrite le32_splice_ne; zl).
  assert (Hro0 : le32 s0 0x64 = le32 sb 0x64) by (unfold s0; rewrite le32_splice_ne; zl).
  rewrite Hro1, Hro0.
  assert (Hv1 : le32 s1 0x60 = v mod 2 ^ 32) by (unfold s1; apply le32_splice_mod; lia).
  assert (Hm : 0 ≤ lnot32 Incompat.RECOVER < 2 ^ 32) by (vm_compute; split; congruence).
  destruct (has_bits (le32 sb 0x64) RoCompat.METADATA_CSUM) eqn:Hro.
  - rewrite !slice_ok by lia. rewrite !bind_Ok, !put_u32_ok by lia.
    set (c1 := linux_crc32c _ (sub s1 _ _)). set (s2 := splice s1 0x3FC (le_split 4 c1)).
    assert (H2 : zlen s2 = 1024) by (unfold s2; rewrite zlen_splice; zl).
    exists s2. split_and!; [done|done|by apply bytes_ok_put|].
    rewrite (u32_le_ok s2) by lia. rewrite bind_Ok.
    replace (le32 s2 0x60) with (v mod 2 ^ 32) by (unfold s2; rewrite le32_splice_ne; [done|zl..]).
    rewrite land_mod32 by done. unfold v at 1. rewrite recover_flag_off, put_u32_ok, bind_Ok by lia.
    set (s3 := splice s2 0x60 _). assert (H3 : zlen s3 = 1024) by (unfold s3; rewrite zlen_splice; zl).
    rewrite u32_le_ok, bind_Ok by lia.
    replace (le32 s3 0x64) with (le32 sb 0x64)
      by (unfold s3, s2; rewrite !le32_splice_ne; [done|zl..]). rewrite Hro.
    rewrite slice_ok, bind_Ok, put_u32_ok by lia.
    assert (Hs3 : s3 = splice s0 0x3FC (le_split 4 c1)).
    { unfold s3, s2, s1, s0. rewrite splice_comm by (rewrite ?zlen_splice; zl). f_equal.
      apply splice_overwrite; zl. }
    rewrite Hs3. f_equal.
    rewrite splice_overwrite by zl. do 3 f_equal. apply sub_splice_disjoint; zl.
  - exists s1. split_and!; [done|done|done|].
    rewrite (u32_le_ok s1) by lia. rewrite bind_Ok, Hv1, land_mod32 by done. unfold v at 1.
    rewrite recover_flag_off, put_u32_ok, bind_Ok by lia.
    assert (Hs : splice s1 0x60 (le_split 4 (Z.land i (lnot32 Incompat.RECOVER))) = s0)
      by (unfold s1, s0; apply splice_overwrite; zl).
    rewrite Hs, (u32_le_ok s0) by lia. by rewrite bind_Ok, Hro0, Hro.
Qed.
