(* ===== verification/LogReplay.v ===== *)
(** LogReplay: the log written by Transaction.v and read by Journal.v.  The
    walk of a ring that holds serialised transactions yields exactly the
    writes that no later revoke cancels, each with the bytes it was given. *)
From S2P Require Import Prelude Errors Bytes Device Features Superblock Checksum Bgd Inode Indirect Filesystem Jbd2 Journal Transaction JournalApply.

#[local] Arguments be_split : simpl never.

(** ** Reading a built block *)

Lemma lo32_mod b : lo32 b = b mod 2 ^ 32.
Proof. unfold lo32. change 0xFFFFFFFF with (2 ^ 32 - 1). by rewrite land_ones_mod. Qed.

Lemma lo32_range b : 0 ≤ lo32 b < 2 ^ 32.
Proof. rewrite lo32_mod. apply Z.mod_pos_bound. lia. Qed.

Lemma join_halves b : 0 ≤ b < 2 ^ 64 → join32 (hi32 b) (lo32 b) = b.
Proof.
  intros Hb. rewrite join32_eq by apply lo32_range. rewrite lo32_mod.
  unfold hi32, as_u32. rewrite Z.shiftr_div_pow2 by lia.
  rewrite Z.mod_small by (split; [apply Z.div_pos; lia|apply Z.div_lt_upper_bound; lia]).
  rewrite (Z.div_mod b (2 ^ 32)) at 3 by lia. lia.
Qed.

(** A block number the tag or record width can hold. *)
Definition block_fits (w64 : bool) (b : Z) : Prop := 0 ≤ b < (if w64 then 2 ^ 64 else 2 ^ 32).

(** The checksum a reader finds in a tag. *)
Definition stored_csum (L : Layout) (ck : option Z) : Z :=
  match ck with Some c => if csum_v3 L then c else as_u16 c | None => 0 end.

Lemma as_u16_small x : 0 ≤ x < 2 ^ 16 → as_u16 x = x.
Proof. apply Z.mod_small. Qed.

Lemma zrep_be n : 0 ≤ n → zrep n 0 = be_split (Z.to_nat n) 0.
Proof.
  intros Hn. rewrite <-(Z2Nat.id n) at 1 by done. generalize (Z.to_nat n) as k. clear.
  induction k as [|k IH]; [done|]. unfold be_split in *.
  change (le_split (S k) 0) with (0 mod 256 :: le_split k (0 / 256)).
  change (0 mod 256) with 0. change (0 / 256) with 0. simpl rev. rewrite <-IH.
  rewrite Nat2Z.inj_succ, <-Z.add_1_r. by rewrite zrep_app by lia.
Qed.

Lemma u32_be_skip n v b k : Z.of_nat n ≤ k → u32_be (be_split n v ++ b) k = u32_be b (k - Z.of_nat n).
Proof. intros. rewrite u32_be_app_r by zl. by rewrite zlen_be_split. Qed.
Lemma u16_be_skip n v b k : Z.of_nat n ≤ k → u16_be (be_split n v ++ b) k = u16_be b (k - Z.of_nat n).
Proof. intros. rewrite u16_be_app_r by zl. by rewrite zlen_be_split. Qed.

(** Read the field at a constant offset of a concatenation of fields. *)
Ltac fields :=
  repeat first
    [ rewrite u32_be_head by lia | rewrite u16_be_head by lia
    | rewrite u32_be_skip by lia | rewrite u16_be_skip by lia
    | match goal with |- context [Z.sub (Zpos ?a) (Z.of_nat ?b)] =>
        let c := eval vm_compute in (Z.sub (Zpos a) (Z.of_nat b)) in
        change (Z.sub (Zpos a) (Z.of_nat b)) with c end
    | progress rewrite ?bind_Ok ].

Section tags.
Context `{Crc32c} (jsb : JournalSuperblock.t).
Local Abbreviation L := (layout_for jsb).

Lemma parse_tag_spec pre flags b ck post :
  layout_ok L → block_fits (l_64bit L) b → 0 ≤ flags < 2 ^ 16 →
  (match ck with Some c => 0 ≤ c < 2 ^ 32 | None => True end) →
  parse_tag (pre ++ enc_tag L flags b ck ++ post) (zlen pre) jsb = Ok (flags, stored_csum L ck, b).
Proof.
  intros (Ht & _) Hb Hf Hc. unfold parse_tag, enc_tag, stored_csum.
  pose proof (lo32_range b) as Hlo. assert (Hhi : 0 ≤ hi32 b < 2 ^ 32) by (apply Z.mod_pos_bound; lia).
  rewrite (as_u16_small flags Hf). cbn [layout_for l_64bit csum_v3 tag_bytes] in *.
  set (c32 := match ck with Some c => c | None => 0 end).
  set (c16 := match ck with Some c => as_u16 c | None => 0 end).
  assert (H32 : 0 ≤ c32 < 2 ^ 32) by (unfold c32; destruct ck; lia).
  assert (H16 : 0 ≤ c16 < 2 ^ 16) by (unfold c16, as_u16; destruct ck; [apply Z.mod_pos_bound|]; lia).
  replace (match ck with Some c => be_split 4 c | None => zrep 4 0 end) with (be_split 4 c32)
    by (unfold c32; by destruct ck).
  change (zrep 4 0) with (be_split 4 0).
  rewrite !(u32_be_app_r pre), !(u16_be_app_r pre) by lia.
  replace (zlen pre - zlen pre) with 0 by lia. replace (zlen pre + 4 - zlen pre) with 4 by lia.
  replace (zlen pre + 6 - zlen pre) with 6 by lia. replace (zlen pre + 8 - zlen pre) with 8 by lia.
  replace (zlen pre + 12 - zlen pre) with 12 by lia.
  destruct (JournalSuperblock.uses_csum_v3 jsb), (JournalSuperblock.uses_64bit jsb);
    rewrite <-!app_assoc; fields.
  - rewrite join_halves by done. by destruct ck.
  - rewrite lo32_mod, Z.mod_small by done. by destruct ck.
  - by rewrite join_halves by done.
  - by rewrite lo32_mod, Z.mod_small by done.
Qed.

Context (tx : Transaction.t).

(** What the walker decodes from the tags of [ws], the cursor being [cur]. *)
Fixpoint decoded (cur : Z) (ws : list JournaledBlock.t) : list (ReplayEntry.t * Z) :=
  match ws with
  | [] => []
  | w :: ws =>
      let cur := advance cur 1 jsb in
      (ReplayEntry.mk (Transaction.sequence tx) (JournaledBlock.fs_block w) cur
         (write_flags (is_nil ws) (JournaledBlock.data w)),
       stored_csum L (tag_csum tx L (JournaledBlock.data w))) :: decoded cur ws
  end.

(** The cursor [n] blocks further round the ring. *)
Definition ring (cur : Z) (n : nat) : Z := Nat.iter n (λ c, advance c 1 jsb) cur.

Lemma ring_S cur n : ring (advance cur 1 jsb) n = ring cur (S n).
Proof. unfold ring. by rewrite Nat.iter_succ_r. Qed.

Lemma write_flags_range last d : 0 ≤ write_flags last d < 2 ^ 16.
Proof. unfold write_flags. destruct last, (needs_escape d); vm_compute; split; congruence. Qed.
Lemma write_flags_same last d : Z.land (write_flags last d) TAG_SAME_UUID ≠ 0.
Proof. unfold write_flags. by destruct last, (needs_escape d). Qed.
Lemma write_flags_last last d : Z.land (write_flags last d) TAG_LAST ≠ 0 ↔ last = true.
Proof. unfold write_flags. by destruct last, (needs_escape d). Qed.
Lemma write_flags_escaped last d : Z.land (write_flags last d) TAG_ESCAPED ≠ 0 ↔ needs_escape d = true.
Proof. unfold write_flags. by destruct last, (needs_escape d). Qed.

Lemma tag_csum_range d : match tag_csum tx L d with Some c => 0 ≤ c < 2 ^ 32 | None => True end.
Proof. unfold tag_csum. destruct (l_seed L); [apply linux_crc32c_range|done]. Qed.

Lemma parse_tags_spec ws fuel pre post usable pos cur out :
  layout_ok L → ws ≠ [] → Forall (λ w, block_fits (l_64bit L) (JournaledBlock.fs_block w)) ws →
  pos = zlen pre → pos + zlen ws * tag_bytes L ≤ usable → (length ws ≤ fuel)%nat →
  parse_tags_loop fuel (pre ++ enc_tags tx L ws ++ post) usable jsb (Transaction.sequence tx) pos cur out
  = Ok (out ++ decoded cur ws, ring cur (length ws)).
Proof.
  intros HL. pose proof (tag_bytes_ok L HL) as Ht. revert fuel pre pos cur out.
  induction ws as [|w ws IH]; intros fuel pre pos cur out Hne Hfit -> Hu Hf; [done|].
  destruct fuel as [|fuel]; [simpl in Hf; lia|]. rewrite zlen_cons in Hu. pose proof (zlen_nonneg ws).
  apply Forall_cons in Hfit as [Hw Hws].
  cbn [parse_tags_loop enc_tags]. cbn [layout_for tag_bytes] in Ht, Hu.
  rewrite decide_False by lia. rewrite <-app_assoc.
  rewrite parse_tag_spec; [|done|done|apply write_flags_range|apply tag_csum_range].
  rewrite bind_Ok. cbv beta iota.
  rewrite (decide_True (P := Z.land _ TAG_SAME_UUID ≠ 0)) by apply write_flags_same. rewrite Z.add_0_r.
  destruct ws as [|w' ws].
  - cbn [is_nil decoded]. rewrite decide_True by by apply write_flags_last. done.
  - rewrite decide_False by (rewrite write_flags_last; done).
    rewrite zlen_cons in Hu. pose proof (zlen_nonneg ws). rewrite decide_False by lia.
    rewrite app_assoc, IH; [|done|done| | |].
    + by rewrite ring_S, <-(app_assoc out).
    + rewrite zlen_app, (zlen_enc_tag L) by exact HL. reflexivity.
    + rewrite zlen_cons. cbn [layout_for tag_bytes]. lia.
    + simpl in *. lia.
Qed.

(** ** Escaping *)

Lemma restore_logged last d : bytes_ok d → 4 ≤ zlen d →
  restore (write_flags last d) (logged_copy d) = Ok d.
Proof.
  intros Hd Hl. unfold restore, logged_copy. destruct (needs_escape d) eqn:E.
  - rewrite decide_True by by apply write_flags_escaped. unfold needs_escape in E.
    apply bool_decide_eq_true in E as [_ E].
    rewrite put_be32_ok by (rewrite ?zlen_splice; zl).
    rewrite splice_overwrite by zl. rewrite <-E. f_equal.
    apply list_eq. intros i. rewrite lookup_splice by zl. rewrite zlen_sub, lookup_sub.
    repeat case_decide; try done; try lia. f_equal. lia.
  - by rewrite decide_False by (rewrite write_flags_escaped; congruence).
Qed.
End tags.

(** ** The blocks of a serialised transaction *)

Section blocks.
Context `{Crc32c} (jsb : JournalSuperblock.t).
Local Abbreviation L := (layout_for jsb).

Lemma layout_for_ok : JournalSuperblock.checksum_declaration_error jsb = None → layout_ok L.
Proof.
  unfold JournalSuperblock.checksum_declaration_error, layout_ok, JournalSuperblock.seed_of,
    JournalSuperblock.uses_csum_v2_or_v3, JournalSuperblock.uses_csum_v3. cbn [layout_for csum_v3 tag_bytes tail_bytes l_seed l_64bit].
  unfold JournalSuperblock.seed_of, JournalSuperblock.tag_bytes, JournalSuperblock.tag_scheme, JournalSuperblock.uses_csum_v3,
    JournalSuperblock.uses_csum_v2_or_v3, has_bits. rewrite Z.land_lor_distr_r.
  intros _. split_and!.
  - destruct (bool_decide (Z.land (JournalSuperblock.feature_incompat jsb) JbdIncompat.CSUM_V3 ≠ 0)), (bool_decide (Z.land (JournalSuperblock.feature_incompat jsb) JbdIncompat.CSUM_V2 ≠ 0)),
      (JournalSuperblock.uses_64bit jsb); set_solver.
  - by case_bool_decide.
  - case_bool_decide; [apply linux_crc32c_range|done].
Qed.

(** A transaction [commit_for] accepts, whose writes are whole blocks. *)
Record tx_ok (tx : Transaction.t) : Prop := {
  tx_size : Transaction.block_size tx = JournalSuperblock.block_size jsb;
  tx_sizes : 1024 ≤ Transaction.block_size tx ≤ 65536;
  tx_64 : Transaction.uses_64bit tx = JournalSuperblock.uses_64bit jsb;
  tx_v3 : Transaction.uses_csum_v3 tx = JournalSuperblock.uses_csum_v3 jsb;
  tx_seq : u32_ok (Transaction.sequence tx);
  tx_writes : Forall (λ w, block_fits (JournalSuperblock.uses_64bit jsb) (JournaledBlock.fs_block w) ∧
                           bytes_ok (JournaledBlock.data w) ∧
                           zlen (JournaledBlock.data w) = Transaction.block_size tx) (Transaction.writes tx);
  tx_revokes : Forall (block_fits (JournalSuperblock.uses_64bit jsb)) (Transaction.revokes tx);
}.

Definition group_blocks (tx : Transaction.t) (chunk : list JournaledBlock.t) : list bytes :=
  framed tx L JBD2_DESCRIPTOR_BLOCK (enc_tags tx L chunk) ::
  ((λ w, logged_copy (JournaledBlock.data w)) <$> chunk).

Definition write_chunks (tx : Transaction.t) := chunks (tags_per_descriptor tx L) (Transaction.writes tx).
Definition revoke_chunks (tx : Transaction.t) := chunks (revokes_per_block tx L) (Transaction.revokes tx).

Definition tx_blocks (tx : Transaction.t) : list bytes :=
  concat (group_blocks tx <$> write_chunks tx) ++
  ((λ c, framed tx L JBD2_REVOKE_BLOCK (revoke_content L c)) <$> revoke_chunks tx) ++ [commit_block tx L].

Lemma tags_fit tx n : layout_ok L → tx_ok tx → n ≤ tags_per_descriptor tx L →
  12 + tail_bytes L + n * tag_bytes L ≤ Transaction.block_size tx.
Proof.
  intros HL [_ Hs _ _ _ _ _]. pose proof (tag_bytes_ok L HL). pose proof (tail_bytes_range L HL).
  unfold tags_per_descriptor. pose proof (Z.mul_div_le (Transaction.block_size tx - 12 - tail_bytes L) (tag_bytes L)).
  assert (1 ≤ (Transaction.block_size tx - 12 - tail_bytes L) / tag_bytes L) by (apply Z.div_le_lower_bound; lia).
  nia.
Qed.

Lemma records_fit tx n : layout_ok L → tx_ok tx → n ≤ revokes_per_block tx L →
  16 + tail_bytes L + n * record_size L ≤ Transaction.block_size tx.
Proof.
  intros HL [_ Hs _ _ _ _ _]. pose proof (record_size_ok L). pose proof (tail_bytes_range L HL).
  unfold revokes_per_block. pose proof (Z.mul_div_le (Transaction.block_size tx - 16 - tail_bytes L) (record_size L)).
  assert (1 ≤ (Transaction.block_size tx - 16 - tail_bytes L) / record_size L) by (apply Z.div_le_lower_bound; lia).
  nia.
Qed.

(** Every chunk the serialiser makes fits its block. *)
Lemma write_chunks_ok tx : layout_ok L → tx_ok tx →
  concat (write_chunks tx) = Transaction.writes tx ∧
  Forall (λ c, c ≠ [] ∧ 12 + tail_bytes L + zlen c * tag_bytes L ≤ Transaction.block_size tx ∧
               c ⊆ Transaction.writes tx) (write_chunks tx).
Proof.
  intros HL Htx. destruct (chunks_spec (tags_per_descriptor tx L) (Transaction.writes tx)) as [Hc Hf].
  { unfold tags_per_descriptor. lia. }
  split; [done|]. apply Forall_forall. intros c Hin. rewrite Forall_forall in Hf.
  destruct (Hf c Hin) as [Hne Hl]. split_and!; [done|by apply tags_fit|].
  intros w Hw. rewrite <-Hc. apply list_elem_of_In, in_concat. exists c. by rewrite <-!list_elem_of_In.
Qed.

Lemma revoke_chunks_ok tx : layout_ok L → tx_ok tx →
  concat (revoke_chunks tx) = Transaction.revokes tx ∧
  Forall (λ c, 16 + tail_bytes L + zlen c * record_size L ≤ Transaction.block_size tx ∧
               c ⊆ Transaction.revokes tx) (revoke_chunks tx).
Proof.
  intros HL Htx. destruct (chunks_spec (revokes_per_block tx L) (Transaction.revokes tx)) as [Hc Hf].
  { unfold revokes_per_block. lia. }
  split; [done|]. apply Forall_forall. intros c Hin. rewrite Forall_forall in Hf.
  destruct (Hf c Hin) as [Hne Hl]. split; [by apply records_fit|].
  intros w Hw. rewrite <-Hc. apply list_elem_of_In, in_concat. exists c. by rewrite <-!list_elem_of_In.
Qed.

Lemma serialize_eq tx : layout_ok L → tx_ok tx → serialize tx L = Ok (tx_blocks tx).
Proof.
  intros HL Htx. destruct (write_chunks_ok tx HL Htx) as [_ Hw]. destruct (revoke_chunks_ok tx HL Htx) as [_ Hr].
  rewrite Forall_forall in Hw. rewrite Forall_forall in Hr. destruct Htx as [_ Hs _ _ _ _ _]. unfold serialize.
  rewrite (traverse_ok _ (group_blocks tx)).
  2: { intros c Hc. destruct (Hw c Hc) as (_ & Hfit & _). unfold descriptor_group.
       by rewrite build_descriptor_spec by done. }
  rewrite bind_Ok, (traverse_ok _ (λ c, framed tx L JBD2_REVOKE_BLOCK (revoke_content L c))).
  2: { intros c Hc. destruct (Hr c Hc) as (Hfit & _). apply build_revoke_spec; [done|done|lia]. }
  rewrite bind_Ok, build_commit_spec by lia. done.
Qed.

Lemma commit_for_eq tx : tx_ok tx →
  JournalSuperblock.unsupported_incompat jsb = 0 → JournalSuperblock.checksum_declaration_error jsb = None →
  commit_for tx jsb = Ok (tx_blocks tx).
Proof.
  intros Htx Hu Hd. unfold commit_for. rewrite decide_False by lia. rewrite Hd.
  pose proof (serialize_eq tx (layout_for_ok Hd) Htx) as Hs.
  destruct Htx as [H1 _ H2 H3 _ _ _]. rewrite decide_False by naive_solver. done.
Qed.

Ltac bytes := repeat first [apply bytes_ok_be|apply bytes_ok_zrep; lia|apply bytes_ok_app; split|apply Forall_nil_2].

Lemma bytes_ok_enc_tags tx ws : bytes_ok (enc_tags tx L ws).
Proof.
  induction ws as [|w ws IH]; cbn [enc_tags]; [bytes|]. apply bytes_ok_app; split; [|done].
  unfold enc_tag. repeat case_match; bytes.
Qed.

Lemma bytes_ok_enc_records rs : bytes_ok (enc_records L rs).
Proof. induction rs as [|b rs IH]; cbn [enc_records]; [bytes|]. case_match; bytes; done. Qed.

Lemma bytes_ok_framed tx bt content : bytes_ok content → bytes_ok (framed tx L bt content).
Proof. intros. unfold framed, header, tail_of. repeat case_match; bytes; done. Qed.

(** Every block of a serialised transaction is one block of bytes. *)
Lemma tx_blocks_sized tx : layout_ok L → tx_ok tx →
  Forall (λ b, zlen b = Transaction.block_size tx ∧ bytes_ok b) (tx_blocks tx).
Proof.
  intros HL Htx. destruct (write_chunks_ok tx HL Htx) as [_ Hw]. destruct (revoke_chunks_ok tx HL Htx) as [_ Hr].
  pose proof (tx_writes _ Htx) as Hws. pose proof (tx_sizes _ Htx) as Hs.
  rewrite Forall_forall in Hws. unfold tx_blocks. apply Forall_app; split; [|apply Forall_app; split].
  - apply Forall_concat, Forall_fmap. eapply Forall_impl; [exact Hw|]. intros c (_ & Hfit & Hc).
    apply Forall_cons; split.
    + split; [apply zlen_framed; [done|rewrite zlen_enc_tags by done; lia]|apply bytes_ok_framed, bytes_ok_enc_tags].
    + apply Forall_fmap, Forall_forall. intros x Hx. destruct (Hws x (Hc x Hx)) as (_ & Hb & Hz).
      unfold compose, logged_copy. case_match; [|done].
      split; [by rewrite zlen_splice by (autorewrite with zlen; lia)|apply bytes_ok_splice; bytes; done].
  - apply Forall_fmap. eapply Forall_impl; [exact Hr|]. intros c (Hfit & _). split.
    + apply zlen_framed; [done|]. unfold revoke_content. rewrite zlen_app, zlen_enc_records. zl.
    + apply bytes_ok_framed. unfold revoke_content. bytes. apply bytes_ok_enc_records.
  - apply Forall_cons; split; [|apply Forall_nil_2]. split.
    + unfold commit_block. rewrite !zlen_app, zlen_header, !zlen_zrep. case_match; zl.
    + unfold commit_block, header. case_match; bytes.
Qed.
End blocks.

(** ** The walk over the blocks of a transaction *)

Section walking.
Context `{Crc32c} (rd : Z → res bytes) (jsb : JournalSuperblock.t) (tx : Transaction.t).
Local Abbreviation L := (layout_for jsb).
Local Abbreviation seq := (Transaction.sequence tx).
Context (HL : layout_ok L) (Htx : tx_ok jsb tx).
Context (Hring : JournalSuperblock.first jsb < JournalSuperblock.max_len jsb).

(** The ring holds [blocks] from [cur] on. *)
Fixpoint serves (cur : Z) (blocks : list bytes) : Prop :=
  match blocks with
  | [] => True
  | b :: blocks => rd cur = Ok b ∧ serves (advance cur 1 jsb) blocks
  end.

Lemma serves_app cur a b : serves cur (a ++ b) ↔ serves cur a ∧ serves (ring jsb cur (length a)) b.
Proof.
  revert cur. induction a as [|x a IH]; intros cur; simpl; [naive_solver|].
  rewrite IH, ring_S. naive_solver.
Qed.

(** The entry [e] of the plan restores the write [w], from a block of the ring. *)
Definition restores (tid : Z) (e : ReplayEntry.t) (w : JournaledBlock.t) : Prop :=
  ReplayEntry.transaction e = tid ∧ ReplayEntry.fs_block e = JournaledBlock.fs_block w ∧
  JournalSuperblock.first jsb ≤ ReplayEntry.journal_block e < JournalSuperblock.max_len jsb ∧
  ∃ logged, rd (ReplayEntry.journal_block e) = Ok logged ∧
            restore (ReplayEntry.flags e) logged = Ok (JournaledBlock.data w).

(** Inside a transaction: [w] blocks walked, cursor [c], plan so far [p]. *)
Definition mid (w c : Z) (p : ReplayPlan.t) (pw : list ReplayEntry.t) (pr : list RevokeEntry.t) : walk_state :=
  mkWalk (ReplayPlan.set_walked w p) c seq pw pr None.

(** The walk from [st] is the walk from [st'], with fuel to spare. *)
Definition walks (st st' : walk_state) : Prop :=
  ∀ F, limit jsb - ReplayPlan.blocks_walked (plan st) ≤ Z.of_nat F →
  ∃ F', limit jsb - ReplayPlan.blocks_walked (plan st') ≤ Z.of_nat F' ∧
        walk_loop rd jsb F st = walk_loop rd jsb F' st'.

Lemma walks_refl st : walks st st.
Proof. intros F HF. by exists F. Qed.
Lemma walks_trans s1 s2 s3 : walks s1 s2 → walks s2 s3 → walks s1 s3.
Proof.
  intros H12 H23 F HF. destruct (H12 F HF) as (F1 & HF1 & ->). by apply H23.
Qed.

Lemma walks_step st st' :
  ReplayPlan.blocks_walked (plan st) < limit jsb → walk_step rd jsb st = Ok (Continue st') →
  ReplayPlan.blocks_walked (plan st) + 1 ≤ ReplayPlan.blocks_walked (plan st') → walks st st'.
Proof.
  intros Hl Hs Hw F HF. destruct F as [|F]; [lia|]. exists F. split; [lia|].
  cbn [walk_loop]. rewrite decide_True by done. by rewrite Hs.
Qed.

Lemma header_parses bt rest : 0 ≤ bt < 2 ^ 32 →
  try_parse_header (header tx bt ++ rest) = Ok (Some (mkHeader bt seq)).
Proof.
  intros Hbt. pose proof (tx_seq _ _ Htx) as Hseq. unfold u32_ok in Hseq. pose proof (zlen_nonneg rest).
  unfold try_parse_header. rewrite decide_False by (rewrite zlen_app, zlen_header; lia).
  unfold header, JBD2_MAGIC_NUMBER. rewrite <-!app_assoc. fields. rewrite decide_False by (intros Hn; by apply Hn).
  fields. done.
Qed.

Lemma header_of_framed bt content : 0 ≤ bt < 2 ^ 32 →
  try_parse_header (framed tx L bt content) = Ok (Some (mkHeader bt seq)).
Proof. intros. unfold framed. rewrite <-!app_assoc. by apply header_parses. Qed.

Lemma usable_framed bt content :
  12 + tail_bytes L + zlen content ≤ Transaction.block_size tx →
  usable_bytes (framed tx L bt content) jsb = Transaction.block_size tx - tail_bytes L.
Proof.
  intros Hf. unfold usable_bytes, BLOCK_TAIL_BYTES. rewrite zlen_framed by done. cbn [layout_for tail_bytes].
  unfold BLOCK_TAIL_BYTES. destruct (JournalSuperblock.uses_csum_v2_or_v3 jsb); lia.
Qed.

Lemma framed_not_torn bt content : tail_torn (JournalSuperblock.seed_of jsb) (framed tx L bt content) = Ok false.
Proof. apply (tail_torn_sealed L). Qed.

Lemma tags_of_framed ws c : ws ≠ [] →
  12 + tail_bytes L + zlen ws * tag_bytes L ≤ Transaction.block_size tx →
  Forall (λ w, block_fits (JournalSuperblock.uses_64bit jsb) (JournaledBlock.fs_block w)) ws →
  parse_descriptor_tags (framed tx L JBD2_DESCRIPTOR_BLOCK (enc_tags tx L ws)) c jsb seq
  = Ok (decoded jsb tx c ws, ring jsb c (length ws)).
Proof.
  intros Hne Hfit Hw. pose proof (tag_bytes_ok L HL). pose proof (tail_bytes_range L HL).
  assert (Hlen := zlen_framed tx L HL JBD2_DESCRIPTOR_BLOCK (enc_tags tx L ws)).
  rewrite (zlen_enc_tags tx L HL) in Hlen. specialize (Hlen Hfit).
  unfold parse_descriptor_tags. rewrite usable_framed by (rewrite (zlen_enc_tags tx L HL); done).
  unfold framed at 2. rewrite <-!app_assoc.
  rewrite parse_tags_spec; [done|done|done|done|by rewrite zlen_header|lia|].
  pose proof (zlen_nonneg ws). assert (zlen ws ≤ zlen ws * tag_bytes L) by nia. unfold zlen in *. lia.
Qed.

Lemma check_tag_ok e d : rd (ReplayEntry.journal_block e) = Ok (logged_copy d) →
  check_data rd jsb (JournalSuperblock.seed_of jsb) seq None (e, stored_csum L (tag_csum tx L d)) = Ok None.
Proof.
  intros Hr. unfold check_data, stored_csum, tag_csum. cbn [layout_for l_seed csum_v3 fst snd].
  destruct (JournalSuperblock.seed_of jsb) as [s|]; [|done].
  rewrite Hr, bind_Ok, land_0xFFFF. rewrite decide_False; [done|]. by case_match; intros [].
Qed.

Lemma check_data_ok cur ws :
  serves (advance cur 1 jsb) ((λ w, logged_copy (JournaledBlock.data w)) <$> ws) →
  foldM (check_data rd jsb (JournalSuperblock.seed_of jsb) seq) None (decoded jsb tx cur ws) = Ok None.
Proof.
  revert cur. induction ws as [|w ws IH]; intros cur; [done|]. intros [Hr Hs].
  cbn [decoded foldM]. rewrite check_tag_ok by done. rewrite bind_Ok. by apply IH.
Qed.

Lemma advance_in_ring c n :
  JournalSuperblock.first jsb ≤ advance c n jsb < JournalSuperblock.max_len jsb.
Proof using Hring.
  unfold advance, saturating_sub. rewrite decide_False by lia.
  pose proof (Z.mod_pos_bound (as_u64 (as_u64 (c - JournalSuperblock.first jsb) + n))
    (Z.max 0 (JournalSuperblock.max_len jsb - JournalSuperblock.first jsb)) ltac:(lia)). lia.
Qed.

Lemma decoded_restores cur ws :
  Forall (λ w, bytes_ok (JournaledBlock.data w) ∧ 4 ≤ zlen (JournaledBlock.data w)) ws →
  serves (advance cur 1 jsb) ((λ w, logged_copy (JournaledBlock.data w)) <$> ws) →
  Forall2 (restores seq) (fst <$> decoded jsb tx cur ws) ws.
Proof.
  intros Hw. revert cur. induction Hw as [|w ws [Hb Hl] Hws IH]; intros cur; [constructor|].
  intros [Hr Hs]. cbn [decoded]. constructor; [|by apply IH]. split_and!; [done|done|by apply advance_in_ring..|].
  exists (logged_copy (JournaledBlock.data w)). split; [done|]. by apply restore_logged.
Qed.

Lemma length_decoded cur ws : length (decoded jsb tx cur ws) = length ws.
Proof. revert cur. induction ws; intros cur; simpl; auto. Qed.

Lemma walk_descriptor w c p pw pr ws : ws ≠ [] → ws ⊆ Transaction.writes tx →
  12 + tail_bytes L + zlen ws * tag_bytes L ≤ Transaction.block_size tx →
  serves c (group_blocks jsb tx ws) → w + 1 + zlen ws ≤ limit jsb →
  ∃ es, Forall2 (restores seq) es ws ∧
    walks (mid w c p pw pr) (mid (w + 1 + zlen ws) (ring jsb c (S (length ws))) p (pw ++ es) pr).
Proof.
  intros Hne Hsub Hfit [Hd Hs] Hlim. pose proof (zlen_nonneg ws). pose proof (tx_sizes _ _ Htx) as Hbs.
  pose proof (tx_writes _ _ Htx) as Hws. rewrite Forall_forall in Hws.
  exists (fst <$> decoded jsb tx c ws). split.
  { apply decoded_restores; [|done]. apply Forall_forall. intros x Hx.
    destruct (Hws x (Hsub x Hx)) as (_ & ? & ->). split; [done|lia]. }
  apply walks_step; cbn [mid plan ReplayPlan.set_walked ReplayPlan.blocks_walked]; [lia| |lia].
  unfold walk_step. cbn [mid cur]. rewrite Hd, bind_Ok. cbv zeta.
  rewrite header_of_framed, bind_Ok by (unfold JBD2_DESCRIPTOR_BLOCK; lia).
  cbn [h_sequence h_block_type]. rewrite decide_False by (intros Hn; by apply Hn).
  rewrite decide_True by done. unfold on_descriptor. rewrite framed_not_torn, bind_Ok.
  cbn [cur expect_seq set_plan mid plan]. rewrite tags_of_framed; [|done|done|].
  2: { apply Forall_forall. intros x Hx. by destruct (Hws x (Hsub x Hx)). }
  cbn [ReplayPlan.set_walked ReplayPlan.blocks_walked corrupt].
  replace (zlen (decoded jsb tx c ws)) with (zlen ws) by (unfold zlen; by rewrite length_decoded).
  rewrite decide_False by lia. rewrite check_data_ok by done. rewrite bind_Ok. reflexivity.
Qed.

Lemma revokes_parse rs c post : Forall (block_fits (JournalSuperblock.uses_64bit jsb)) rs →
  ∀ fuel pre pos e out, pos = zlen pre → e = pos + zlen rs * record_size L → (length rs ≤ fuel)%nat →
  parse_revokes_loop fuel (pre ++ enc_records L rs ++ post) jsb c e pos out
  = Ok (out ++ (RevokeEntry.mk c <$> rs)).
Proof.
  intros Hrs. induction Hrs as [|b rs Hb Hrs IH]; intros fuel pre pos e out -> -> Hf.
  - destruct fuel; cbn [parse_revokes_loop]; (rewrite decide_False; [by rewrite app_nil_r|]);
      change (zlen (@nil Z)) with 0; destruct (JournalSuperblock.uses_64bit jsb); lia.
  - destruct fuel as [|fuel]; [simpl in Hf; lia|]. cbn [parse_revokes_loop enc_records].
    pose proof (zlen_nonneg rs). rewrite zlen_cons. unfold record_size in *. cbn [layout_for l_64bit] in *.
    unfold block_fits in Hb.
    destruct (JournalSuperblock.uses_64bit jsb); rewrite decide_True by lia; rewrite <-app_assoc.
    + rewrite u64_be_app_r, Z.sub_diag, u64_be_head, bind_Ok by lia.
      rewrite app_assoc, IH; [by rewrite <-app_assoc|zl|lia|simpl in Hf; lia].
    + rewrite u32_be_app_r, Z.sub_diag by lia.
      replace (as_u32 b) with b by (unfold as_u32; rewrite Z.mod_small; lia).
      rewrite u32_be_head, bind_Ok by lia.
      rewrite app_assoc, IH; [by rewrite <-app_assoc|zl|lia|simpl in Hf; lia].
Qed.

Lemma revokes_of_framed rs :
  16 + tail_bytes L + zlen rs * record_size L ≤ Transaction.block_size tx →
  Forall (block_fits (JournalSuperblock.uses_64bit jsb)) rs →
  parse_revoke_block (framed tx L JBD2_REVOKE_BLOCK (revoke_content L rs)) jsb seq = Ok (RevokeEntry.mk seq <$> rs).
Proof.
  intros Hfit Hrs. pose proof (record_size_ok L). pose proof (tail_bytes_range L HL). pose proof (zlen_nonneg rs).
  pose proof (tx_sizes _ _ Htx).
  assert (Hc : zlen (revoke_content L rs) = 4 + zlen rs * record_size L).
  { unfold revoke_content. rewrite zlen_app, zlen_be_split, zlen_enc_records. lia. }
  assert (Hlen := zlen_framed tx L HL JBD2_REVOKE_BLOCK (revoke_content L rs)).
  rewrite Hc in Hlen. specialize (Hlen ltac:(lia)).
  unfold parse_revoke_block. rewrite decide_False by lia. rewrite usable_framed by lia.
  assert (Hr : u32_be (framed tx L JBD2_REVOKE_BLOCK (revoke_content L rs)) 12 = Ok (16 + zlen rs * record_size L)).
  { unfold framed, revoke_content. rewrite <-!app_assoc, u32_be_app_r, zlen_header by (rewrite zlen_header; lia).
    apply u32_be_head. lia. }
  rewrite Hr, bind_Ok, decide_False by lia.
  assert (zlen rs ≤ zlen rs * record_size L) by nia.
  assert (length rs ≤ length (framed tx L JBD2_REVOKE_BLOCK (revoke_content L rs)))%nat by (unfold zlen in *; lia).
  unfold framed, revoke_content in *. rewrite <-!app_assoc in *.
  rewrite app_assoc. rewrite revokes_parse; [done|done| |lia|rewrite <-app_assoc; done].
  rewrite zlen_app, zlen_header. zl.
Qed.

Lemma walk_revoke w c p pw pr rs : rs ⊆ Transaction.revokes tx →
  16 + tail_bytes L + zlen rs * record_size L ≤ Transaction.block_size tx →
  rd c = Ok (framed tx L JBD2_REVOKE_BLOCK (revoke_content L rs)) → w + 1 ≤ limit jsb →
  walks (mid w c p pw pr) (mid (w + 1) (advance c 1 jsb) p pw (pr ++ (RevokeEntry.mk seq <$> rs))).
Proof.
  intros Hsub Hfit Hd Hlim. pose proof (tx_revokes _ _ Htx) as Hrs. rewrite Forall_forall in Hrs.
  apply walks_step; cbn [mid plan ReplayPlan.set_walked ReplayPlan.blocks_walked]; [lia| |lia].
  unfold walk_step. cbn [mid cur]. rewrite Hd, bind_Ok. cbv zeta.
  rewrite header_of_framed, bind_Ok by (unfold JBD2_REVOKE_BLOCK; lia).
  cbn [h_sequence h_block_type]. rewrite decide_False by (intros Hn; by apply Hn).
  rewrite !decide_False by done. rewrite decide_True by done.
  unfold on_revoke. rewrite framed_not_torn, bind_Ok. cbn [expect_seq set_plan mid].
  rewrite revokes_of_framed; [|done|by apply Forall_forall; auto]. rewrite bind_Ok. reflexivity.
Qed.

Lemma walk_commit w c p pw pr :
  rd c = Ok (commit_block tx L) → w + 1 ≤ limit jsb →
  walks (mid w c p pw pr)
    (mkWalk (ReplayPlan.mk (ReplayPlan.writes p ++ pw) (ReplayPlan.revokes p ++ pr) seq
               (Some (as_u32 (seq + 1))) (w + 1))
       (advance c 1 jsb) (as_u32 (seq + 1)) [] [] None).
Proof.
  intros Hd Hlim. pose proof (tx_sizes _ _ Htx).
  apply walks_step; cbn [mid plan ReplayPlan.set_walked ReplayPlan.blocks_walked]; [lia| |lia].
  unfold walk_step. cbn [mid cur]. rewrite Hd, bind_Ok. cbv zeta.
  assert (Hh : try_parse_header (commit_block tx L) = Ok (Some (mkHeader JBD2_COMMIT_BLOCK seq))).
  { unfold commit_block. rewrite <-!app_assoc. apply header_parses. unfold JBD2_COMMIT_BLOCK. lia. }
  rewrite Hh, bind_Ok.
  cbn [h_sequence h_block_type]. rewrite decide_False by (intros Hn; by apply Hn).
  rewrite decide_False by done. rewrite decide_True by done.
  unfold on_commit, commit_block. cbn [layout_for l_seed].
  destruct (JournalSuperblock.seed_of jsb) as [s|]; [|reflexivity].
  assert (Hz : zlen (header tx JBD2_COMMIT_BLOCK ++ zrep 4 0) = 16) by (rewrite zlen_app, zlen_header; zl).
  unfold COMMIT_CHECKSUM_AT. rewrite u32_be_app_r, Hz by lia.
  rewrite u32_be_head, bind_Ok by apply linux_crc32c_range.
  rewrite commit_checksum_spec by (lia || zl). rewrite bind_Ok, bool_decide_true by done. reflexivity.
Qed.

Lemma zlen_group ws : zlen (group_blocks jsb tx ws) = 1 + zlen ws.
Proof. unfold group_blocks. by rewrite zlen_cons, zlen_fmap. Qed.

Lemma length_ring c a b : ring jsb (ring jsb c a) b = ring jsb c (a + b).
Proof. unfold ring. by rewrite Nat.add_comm, Nat.iter_add. Qed.

Lemma walk_groups cs w c p pw pr :
  Forall (λ ws, ws ≠ [] ∧ 12 + tail_bytes L + zlen ws * tag_bytes L ≤ Transaction.block_size tx ∧
                ws ⊆ Transaction.writes tx) cs →
  serves c (concat (group_blocks jsb tx <$> cs)) →
  w + zlen (concat (group_blocks jsb tx <$> cs)) ≤ limit jsb →
  ∃ es, Forall2 (restores seq) es (concat cs) ∧
    walks (mid w c p pw pr)
      (mid (w + zlen (concat (group_blocks jsb tx <$> cs)))
         (ring jsb c (length (concat (group_blocks jsb tx <$> cs)))) p (pw ++ es) pr).
Proof.
  intros Hcs. revert w c pw. induction Hcs as [|ws cs (Hne & Hfit & Hsub) Hcs IH]; intros w c pw Hs Hl.
  { exists []. split; [constructor|]. rewrite app_nil_r, Z.add_0_r. apply walks_refl. }
  cbn [fmap list_fmap concat] in *. apply serves_app in Hs as [Hs1 Hs2].
  rewrite zlen_app, zlen_group in *.
  set (rest := concat (group_blocks jsb tx <$> cs)) in *. pose proof (zlen_nonneg rest).
  destruct (walk_descriptor w c p pw pr ws) as (es1 & He1 & Hw1); [done|done|done|done|lia|].
  replace (S (length ws)) with (length (group_blocks jsb tx ws)) in Hw1
    by (pose proof (zlen_group ws) as Hg; unfold zlen in Hg; lia).
  destruct (IH (w + 1 + zlen ws) _ (pw ++ es1) Hs2) as (es2 & He2 & Hw2); [lia|].
  exists (es1 ++ es2). split; [by apply Forall2_app|].
  eapply walks_trans; [exact Hw1|]. rewrite length_ring, <-app_assoc in Hw2. rewrite length_app.
  replace (w + (1 + zlen ws + zlen rest)) with (w + 1 + zlen ws + zlen rest) by lia. exact Hw2.
Qed.

Lemma walk_revokes cs w c p pw pr :
  Forall (λ rs, 16 + tail_bytes L + zlen rs * record_size L ≤ Transaction.block_size tx ∧
                rs ⊆ Transaction.revokes tx) cs →
  serves c ((λ rs, framed tx L JBD2_REVOKE_BLOCK (revoke_content L rs)) <$> cs) →
  w + zlen cs ≤ limit jsb →
  walks (mid w c p pw pr)
    (mid (w + zlen cs) (ring jsb c (length cs)) p pw (pr ++ (RevokeEntry.mk seq <$> concat cs))).
Proof.
  intros Hcs. revert w c pr. induction Hcs as [|rs cs (Hfit & Hsub) Hcs IH]; intros w c pr Hs Hl.
  { cbn. rewrite app_nil_r, Z.add_0_r. apply walks_refl. }
  destruct Hs as [Hs1 Hs2]. rewrite zlen_cons in *. pose proof (zlen_nonneg cs).
  eapply walks_trans; [apply (walk_revoke w c p pw pr rs); [done|done|done|lia]|].
  specialize (IH (w + 1) _ (pr ++ (RevokeEntry.mk seq <$> rs)) Hs2 ltac:(lia)).
  rewrite ring_S, <-app_assoc in IH. cbn [concat]. rewrite fmap_app.
  replace (w + (1 + zlen cs)) with (w + 1 + zlen cs) by lia. exact IH.
Qed.

(** One committed transaction joins the plan. *)
Lemma walk_transaction w c p :
  serves c (tx_blocks jsb tx) → w + zlen (tx_blocks jsb tx) ≤ limit jsb →
  ∃ es, Forall2 (restores seq) es (Transaction.writes tx) ∧
    walks (mid w c p [] [])
      (mkWalk (ReplayPlan.mk (ReplayPlan.writes p ++ es)
                 (ReplayPlan.revokes p ++ (RevokeEntry.mk seq <$> Transaction.revokes tx)) seq
                 (Some (as_u32 (seq + 1))) (w + zlen (tx_blocks jsb tx)))
         (ring jsb c (length (tx_blocks jsb tx))) (as_u32 (seq + 1)) [] [] None).
Proof.
  intros Hs Hl. destruct (write_chunks_ok jsb tx HL Htx) as [Hwc Hw].
  destruct (revoke_chunks_ok jsb tx HL Htx) as [Hrc Hr]. unfold tx_blocks in *.
  apply serves_app in Hs as [Hs1 Hs]. apply serves_app in Hs as [Hs2 [Hs3 _]].
  rewrite !zlen_app, zlen_fmap in Hl. change (zlen [commit_block tx L]) with 1 in Hl.
  set (g := concat (group_blocks jsb tx <$> write_chunks jsb tx)) in *. pose proof (zlen_nonneg g).
  pose proof (zlen_nonneg (revoke_chunks jsb tx)).
  destruct (walk_groups _ w c p [] [] Hw Hs1) as (es & He & Hwalk); [fold g; lia|]. rewrite Hwc in He. fold g in Hwalk.
  exists es. split; [done|]. eapply walks_trans; [exact Hwalk|].
  eapply walks_trans; [apply (walk_revokes _ _ _ p _ [] Hr Hs2); lia|]. rewrite Hrc.
  rewrite length_fmap in Hs3.
  eapply walks_trans; [apply (walk_commit _ _ p _ _ Hs3); lia|]. cbn [app].
  rewrite !zlen_app, !length_app, zlen_fmap, length_fmap.
  change (zlen [commit_block tx L]) with 1. change (length [commit_block tx L]) with 1%nat.
  rewrite length_ring. replace (length g + (length (revoke_chunks jsb tx) + 1))%nat
    with (S (length g + length (revoke_chunks jsb tx))) by lia.
  replace (w + (zlen g + (zlen (revoke_chunks jsb tx) + 1))) with (w + zlen g + zlen (revoke_chunks jsb tx) + 1) by lia.
  apply walks_refl.
Qed.
End walking.

(** ** The walk over a log of committed transactions *)

Section log.
Context `{Crc32c} (rd : Z → res bytes) (jsb : JournalSuperblock.t).
Context (Hring : JournalSuperblock.first jsb < JournalSuperblock.max_len jsb).

(** Consecutive TIDs, wrapping at 2^32, from [s] on. *)
Fixpoint consecutive (s : Z) (txs : list Transaction.t) : Prop :=
  match txs with
  | [] => True
  | tx :: txs => Transaction.sequence tx = s ∧ consecutive (as_u32 (s + 1)) txs
  end.

Definition log_blocks (txs : list Transaction.t) : list bytes := concat (tx_blocks jsb <$> txs).
Definition all_revokes (txs : list Transaction.t) : list RevokeEntry.t :=
  concat ((λ tx, RevokeEntry.mk (Transaction.sequence tx) <$> Transaction.revokes tx) <$> txs).

(** Specification: the writes of a log that neither their own transaction nor
    a later one revokes, in log order. *)
Fixpoint surviving (txs : list Transaction.t) : list JournaledBlock.t :=
  match txs with
  | [] => []
  | tx :: rest =>
      filter (λ w, JournaledBlock.fs_block w ∉ concat (Transaction.revokes <$> (tx :: rest)))
        (Transaction.writes tx) ++ surviving rest
  end.

Lemma as_u32_add_l a b : as_u32 (as_u32 a + b) = as_u32 (a + b).
Proof. unfold as_u32. by rewrite Zplus_mod_idemp_l. Qed.

Lemma as_u32_small x : u32_ok x → as_u32 x = x.
Proof. apply Z.mod_small. Qed.

Lemma as_u32_ok x : u32_ok (as_u32 x).
Proof. apply Z.mod_pos_bound. lia. Qed.

Lemma set_walked_same p : ReplayPlan.set_walked (ReplayPlan.blocks_walked p) p = p.
Proof. by destruct p. Qed.

Lemma walk_transactions txs p c s : layout_ok (layout_for jsb) → Forall (tx_ok jsb) txs →
  u32_ok s → consecutive s txs →
  serves rd jsb c (log_blocks txs) → ReplayPlan.blocks_walked p + zlen (log_blocks txs) ≤ limit jsb →
  ∃ ess p', Forall2 (λ es tx, Forall2 (restores rd jsb (Transaction.sequence tx)) es (Transaction.writes tx)) ess txs ∧
    walks rd jsb (mkWalk p c s [] [] None)
      (mkWalk p' (ring jsb c (length (log_blocks txs))) (as_u32 (s + zlen txs)) [] [] None) ∧
    ReplayPlan.writes p' = ReplayPlan.writes p ++ concat ess ∧
    ReplayPlan.revokes p' = ReplayPlan.revokes p ++ all_revokes txs ∧
    ReplayPlan.blocks_walked p' = ReplayPlan.blocks_walked p + zlen (log_blocks txs) ∧
    ReplayPlan.next_sequence p' = (if is_nil txs then ReplayPlan.next_sequence p else Some (as_u32 (s + zlen txs))).
Proof.
  intros HL Htxs. revert p c s. induction Htxs as [|tx txs Htx Htxs IH]; intros p c s Hs Hseq Hsv Hl.
  { exists [], p. split; [constructor|]. change (zlen (@nil Transaction.t)) with 0.
    rewrite Z.add_0_r, !app_nil_r. replace (as_u32 s) with s by (unfold as_u32; by rewrite Z.mod_small).
    split_and!; [apply walks_refl|done|done|change (zlen (log_blocks [])) with 0; lia|done]. }
  destruct Hseq as [Hsq Hseq]. unfold log_blocks in *. cbn [fmap list_fmap concat] in *.
  apply serves_app in Hsv as [Hsv1 Hsv2]. rewrite zlen_app in *.
  set (rest := concat (tx_blocks jsb <$> txs)) in *. pose proof (zlen_nonneg rest).
  destruct (walk_transaction rd jsb tx HL Htx Hring (ReplayPlan.blocks_walked p) c p Hsv1) as (es & He & Hw); [lia|].
  unfold mid in Hw. rewrite set_walked_same, Hsq in Hw.
  match type of Hw with walks _ _ _ (mkWalk ?q _ _ _ _ _) => set (p1 := q) in Hw end.
  destruct (IH p1 _ (as_u32 (s + 1)) (as_u32_ok _) Hseq Hsv2) as (ess & p' & Hess & Hwalk & Hws & Hrs & Hbw & Hns).
  { unfold p1. cbn [ReplayPlan.blocks_walked]. lia. }
  exists (es :: ess), p'. split; [by constructor|].
  assert (Hs' : as_u32 (s + zlen (tx :: txs)) = as_u32 (as_u32 (s + 1) + zlen txs))
    by (rewrite as_u32_add_l, zlen_cons; f_equal; lia).
  rewrite Hs'. unfold p1 in *. cbn [ReplayPlan.writes ReplayPlan.revokes ReplayPlan.blocks_walked ReplayPlan.next_sequence] in *.
  split_and!.
  - eapply walks_trans; [exact Hw|]. rewrite length_ring, <-length_app in Hwalk. exact Hwalk.
  - rewrite Hws. cbn [concat]. by rewrite app_assoc.
  - rewrite Hrs. unfold all_revokes. cbn [fmap list_fmap concat]. rewrite Hsq. by rewrite app_assoc.
  - rewrite Hbw. lia.
  - rewrite Hns. cbn [is_nil]. destruct txs; cbn [is_nil]; [|done].
    change (zlen (@nil Transaction.t)) with 0. rewrite Z.add_0_r. by rewrite (as_u32_small (as_u32 (s + 1))) by apply as_u32_ok.
Qed.

(** *** Which entries survive *)

Lemma consecutive_lookup s txs k tx : u32_ok s → consecutive s txs → txs !! k = Some tx →
  Transaction.sequence tx = as_u32 (s + Z.of_nat k).
Proof.
  revert s k. induction txs as [|tx0 txs IH]; intros s k Hs Hc Hk; [done|].
  destruct Hc as [H0 Hc]. destruct k as [|k].
  - injection Hk as <-. rewrite H0, Z.add_0_r. symmetry. by apply Z.mod_small.
  - rewrite (IH _ k (as_u32_ok _) Hc Hk), as_u32_add_l. f_equal. lia.
Qed.

Lemma index_consecutive s k : 0 ≤ k < 2 ^ 32 → tid_index s (as_u32 (s + k)) = k.
Proof.
  intros Hk. unfold tid_index, as_u32. rewrite Zminus_mod_idemp_l.
  replace (s + k - s) with k by lia. by apply Z.mod_small.
Qed.

Lemma elem_of_all_revokes txs r : r ∈ all_revokes txs ↔
  ∃ k tx b, txs !! k = Some tx ∧ b ∈ Transaction.revokes tx ∧ r = RevokeEntry.mk (Transaction.sequence tx) b.
Proof.
  unfold all_revokes. rewrite list_elem_of_In, in_concat. split.
  - intros (x & Hx & Hr). apply list_elem_of_In, list_elem_of_fmap in Hx as (tx & -> & Htx).
    apply list_elem_of_In, list_elem_of_fmap in Hr as (b & -> & Hb).
    apply list_elem_of_lookup in Htx as (k & Hk). eauto 10.
  - intros (k & tx & b & Hk & Hb & ->). eexists. split; [apply list_elem_of_In, list_elem_of_fmap|].
    + exists tx. split; [done|]. by eapply list_elem_of_lookup_2.
    + apply list_elem_of_In, list_elem_of_fmap. eauto.
Qed.

Lemma survives_iff s pre tx rest e : u32_ok s → consecutive s (pre ++ tx :: rest) →
  zlen (pre ++ tx :: rest) < 2 ^ 31 → ReplayEntry.transaction e = Transaction.sequence tx →
  Is_true (survives (all_revokes (pre ++ tx :: rest)) e) ↔
  ReplayEntry.fs_block e ∉ concat (Transaction.revokes <$> (tx :: rest)).
Proof.
  intros Hs Hc Hl He. unfold survives. rewrite Is_true_true, forallb_forall.
  assert (Htx : (pre ++ tx :: rest) !! length pre = Some tx) by apply list_lookup_middle, eq_refl.
  assert (Hafter : ∀ k tx', (pre ++ tx :: rest) !! k = Some tx' →
    sequence_after (ReplayEntry.transaction e) (Transaction.sequence tx') = bool_decide (k < length pre)%nat).
  { intros k tx' Hk. apply lookup_lt_Some in Hk as Hlt. apply lookup_lt_Some in Htx as Hlt'. unfold zlen in Hl.
    rewrite He, (consecutive_lookup s _ _ _ Hs Hc Hk), (consecutive_lookup s _ _ _ Hs Hc Htx).
    rewrite (sequence_after_index s) by (unfold in_window; rewrite index_consecutive; lia).
    rewrite !index_consecutive by lia. apply bool_decide_ext. lia. }
  split.
  - intros Hall Hin. apply list_elem_of_In, in_concat in Hin as (bs & Hbs & Hb).
    apply list_elem_of_In, list_elem_of_fmap in Hbs as (tx' & -> & Htx').
    apply list_elem_of_lookup in Htx' as (j & Hj).
    assert (Hk : (pre ++ tx :: rest) !! (length pre + j)%nat = Some tx')
      by (rewrite lookup_app_r by lia; by replace (length pre + j - length pre)%nat with j by lia).
    specialize (Hall (RevokeEntry.mk (Transaction.sequence tx') (ReplayEntry.fs_block e))).
    rewrite <-list_elem_of_In, elem_of_all_revokes in Hall.
    rewrite <-list_elem_of_In in Hb. specialize (Hall ltac:(eauto 10)). cbn in Hall.
    rewrite bool_decide_true in Hall by done. cbn in Hall.
    rewrite (Hafter _ _ Hk), bool_decide_eq_true in Hall. lia.
  - intros Hnot r Hr. rewrite <-list_elem_of_In, elem_of_all_revokes in Hr.
    destruct Hr as (k & tx' & b & Hk & Hb & ->). cbn. rewrite (Hafter _ _ Hk). apply orb_true_iff.
    destruct (decide (b = ReplayEntry.fs_block e)) as [->|Hne]; [|left; by rewrite bool_decide_false].
    right. apply bool_decide_eq_true. apply Nat.nle_gt. intros Hge. apply Hnot.
    apply list_elem_of_In, in_concat. exists (Transaction.revokes tx'). rewrite <-!list_elem_of_In. split; [|done].
    apply list_elem_of_fmap. exists tx'. split; [done|]. rewrite lookup_app_r in Hk by done.
    by eapply list_elem_of_lookup_2.
Qed.

Lemma Forall2_filter {A B} (R : A → B → Prop) P Q `{∀ x, Decision (P x), ∀ x, Decision (Q x)} l k :
  Forall2 R l k → (∀ x y, R x y → P x ↔ Q y) → Forall2 R (filter P l) (filter Q k).
Proof.
  intros H2 HPQ. induction H2 as [|x y l k Hxy Hlk IH]; [constructor|]. rewrite !filter_cons.
  specialize (HPQ x y Hxy). destruct (decide (P x)), (decide (Q y)); [by constructor|naive_solver|naive_solver|done].
Qed.

(** The entry [e] puts the bytes of [w] at the block of [w]. *)
Definition rewrites (e : ReplayEntry.t) (w : JournaledBlock.t) : Prop :=
  restores rd jsb (ReplayEntry.transaction e) e w.

Lemma surviving_entries s pre txs ess : u32_ok s → consecutive s (pre ++ txs) → zlen (pre ++ txs) < 2 ^ 31 →
  Forall2 (λ es tx, Forall2 (restores rd jsb (Transaction.sequence tx)) es (Transaction.writes tx)) ess txs →
  Forall2 rewrites (filter (λ e, Is_true (survives (all_revokes (pre ++ txs)) e)) (concat ess)) (surviving txs).
Proof.
  intros Hs Hc Hl Hess. revert pre Hc Hl. induction Hess as [|es tx ess txs He Hess IH]; intros pre Hc Hl; [constructor|].
  cbn [concat surviving]. rewrite filter_app. apply Forall2_app.
  - apply (Forall2_impl (restores rd jsb (Transaction.sequence tx))); [|intros e w (_ & Hr); by split].
    apply Forall2_filter; [exact He|]. intros e w (Ht & Hb & _).
    by rewrite (survives_iff s), Hb by done.
  - specialize (IH (pre ++ [tx])). rewrite <-app_assoc in IH. by apply IH.
Qed.

(** The ring position [k] blocks after the start of the log. *)
Definition ring_pos (k : Z) : Z :=
  JournalSuperblock.first jsb +
  (JournalSuperblock.start jsb - JournalSuperblock.first jsb + k) mod limit jsb.

(** The walk meets nothing of the next transaction at [c]. *)
Definition log_ends (c tid : Z) : Prop :=
  ∃ b, rd c = Ok b ∧ ∀ h, try_parse_header b = Ok (Some h) → h_sequence h ≠ tid.

Lemma walk_ends fuel st : limit jsb - ReplayPlan.blocks_walked (plan st) ≤ Z.of_nat fuel →
  ReplayPlan.blocks_walked (plan st) = limit jsb ∨
    ReplayPlan.blocks_walked (plan st) < limit jsb ∧ log_ends (cur st) (expect_seq st) →
  ∃ st', walk_loop rd jsb fuel st = Ok st' ∧ ReplayPlan.writes (plan st') = ReplayPlan.writes (plan st) ∧
         ReplayPlan.revokes (plan st') = ReplayPlan.revokes (plan st) ∧
         ReplayPlan.next_sequence (plan st') = ReplayPlan.next_sequence (plan st).
Proof.
  intros Hf [He|[Hlt (b & Hb & Hh)]].
  { exists st. destruct fuel; cbn [walk_loop]; by rewrite decide_False by lia. }
  destruct fuel as [|fuel]; [lia|]. cbn [walk_loop]. rewrite decide_True by done.
  unfold walk_step. rewrite Hb, bind_Ok. cbv zeta.
  destruct (try_parse_header_returns b) as [[h|] Eh]; rewrite Eh, bind_Ok; [|by eexists].
  rewrite decide_True; [by eexists|]. by apply (Hh h Eh).
Qed.

Lemma ring_eq n : 0 < JournalSuperblock.first jsb ≤ JournalSuperblock.start jsb →
  JournalSuperblock.start jsb < JournalSuperblock.max_len jsb < 2 ^ 32 →
  ring jsb (JournalSuperblock.start jsb) n = ring_pos (Z.of_nat n).
Proof.
  intros Hg Hg'. unfold ring_pos. assert (Hlim : 0 < limit jsb < 2 ^ 32) by (unfold limit; lia).
  induction n as [|n IH].
  { cbn. rewrite Z.add_0_r, Z.mod_small by (unfold limit in *; lia). lia. }
  change (ring jsb (JournalSuperblock.start jsb) (S n))
    with (advance (ring jsb (JournalSuperblock.start jsb) n) 1 jsb). rewrite IH.
  set (first := JournalSuperblock.first jsb) in *. set (x := JournalSuperblock.start jsb - first).
  unfold advance, saturating_sub. fold first. replace (JournalSuperblock.max_len jsb - first) with (limit jsb) by done.
  rewrite Z.max_r by lia. rewrite decide_False by lia.
  pose proof (Z.mod_pos_bound (x + Z.of_nat n) (limit jsb) ltac:(lia)).
  unfold as_u64. rewrite (Z.mod_small (_ - first)) by lia. rewrite (Z.mod_small _ (2 ^ 64)) by lia.
  replace (first + (x + Z.of_nat n) mod limit jsb - first + 1) with ((x + Z.of_nat n) mod limit jsb + 1) by lia.
  rewrite Zplus_mod_idemp_l. do 2 f_equal. lia.
Qed.

Lemma serves_ring c blocks :
  (∀ k b, blocks !! k = Some b → rd (ring jsb c k) = Ok b) → serves rd jsb c blocks.
Proof.
  revert c. induction blocks as [|b blocks IH]; intros c Hk; [done|]. split; [exact (Hk 0%nat b eq_refl)|].
  apply IH. intros k x Hx. rewrite ring_S. by apply Hk.
Qed.

Lemma revokes_window s txs : u32_ok s → consecutive s txs → zlen txs < 2 ^ 31 →
  Forall (λ r, in_window s (RevokeEntry.transaction r)) (all_revokes txs).
Proof.
  intros Hs Hc Hl. apply Forall_forall. intros r Hr.
  apply elem_of_all_revokes in Hr as (k & tx & b & Hk & _ & ->). cbn.
  rewrite (consecutive_lookup s _ _ _ Hs Hc Hk). apply lookup_lt_Some in Hk. unfold zlen in Hl.
  unfold in_window. rewrite index_consecutive by lia. lia.
Qed.

Lemma entries_window s txs ess : u32_ok s → consecutive s txs → zlen txs < 2 ^ 31 →
  Forall2 (λ es tx, Forall2 (restores rd jsb (Transaction.sequence tx)) es (Transaction.writes tx)) ess txs →
  Forall (λ e, in_window s (ReplayEntry.transaction e)) (concat ess).
Proof.
  intros Hs Hc Hl Hess. apply Forall_forall. intros e He. apply list_elem_of_In, in_concat in He as (es & Hes & He).
  apply list_elem_of_In, list_elem_of_lookup in Hes as (k & Hk). apply list_elem_of_In, list_elem_of_lookup in He as (j & Hj).
  destruct (Forall2_lookup_l _ _ _ _ _ Hess Hk) as (tx & Htx & H2).
  destruct (Forall2_lookup_l _ _ _ _ _ H2 Hj) as (w & _ & Ht & _). rewrite Ht.
  rewrite (consecutive_lookup s _ _ _ Hs Hc Htx). apply lookup_lt_Some in Htx. unfold zlen in Hl.
  unfold in_window. rewrite index_consecutive by lia. lia.
Qed.
End log.

(** Serialising and walking a log, the core of the round trip. *)
Lemma walk_log_of_commits `{Crc32c} jsb bs txs :
  check_walkable jsb bs = Ok () → u32_ok (JournalSuperblock.sequence jsb) →
  0 ≤ JournalSuperblock.first jsb → JournalSuperblock.max_len jsb < 2 ^ 32 →
  Forall (tx_ok jsb) txs → consecutive (JournalSuperblock.sequence jsb) txs → zlen txs < 2 ^ 31 →
  traverse (λ tx, commit_for tx jsb) txs = Ok (tx_blocks jsb <$> txs) ∧
  ∀ rd, (∀ k b, log_blocks jsb txs !! k = Some b → rd (ring_pos jsb (Z.of_nat k)) = Ok b) →
    zlen (log_blocks jsb txs) = limit jsb ∨ zlen (log_blocks jsb txs) < limit jsb ∧
      log_ends rd (ring_pos jsb (zlen (log_blocks jsb txs)))
        (as_u32 (JournalSuperblock.sequence jsb + zlen txs)) →
    ∃ p, walk_log rd jsb = Ok p ∧
      Forall2 (rewrites rd jsb) (ReplayPlan.writes p) (surviving txs) ∧
      ReplayPlan.next_sequence p =
        (if is_nil txs then None else Some (as_u32 (JournalSuperblock.sequence jsb + zlen txs))).
Proof.
  intros Hck Hs Hfirst Hmax Htxs Hc Hl.
  unfold check_walkable in Hck. case_decide as Hu; [done|].
  destruct (JournalSuperblock.checksum_declaration_error jsb) eqn:Hd; [done|].
  case_decide; [done|]. case_decide as Hg; [done|]. clear Hck.
  pose proof (layout_for_ok jsb Hd) as HL. split.
  { apply traverse_ok. intros tx Htx. rewrite Forall_forall in Htxs. apply commit_for_eq; [by apply Htxs|lia|done]. }
  intros rd Hrd Hend.
  assert (Hlim : limit jsb - 0 ≤ Z.of_nat (Z.to_nat (limit jsb))) by (unfold limit; lia).
  assert (Hring : JournalSuperblock.first jsb < JournalSuperblock.max_len jsb) by lia.
  destruct (walk_transactions rd jsb Hring txs ReplayPlan.default (JournalSuperblock.start jsb)
              (JournalSuperblock.sequence jsb) HL Htxs Hs Hc) as (ess & p' & Hess & Hw & Hws & Hrs & Hbw & Hns).
  { apply serves_ring. intros k b Hk. rewrite ring_eq by lia. by apply Hrd. }
  { cbn. lia. }
  cbn in Hws, Hrs, Hns, Hbw. rewrite ring_eq in Hw by lia.
  destruct (Hw _ Hlim) as (F & HF & E).
  destruct (walk_ends rd jsb F _ HF) as (st & Est & E1 & E2 & E3); cbn [plan cur expect_seq] in *.
  { rewrite Hbw. fold (zlen (log_blocks jsb txs)). exact Hend. }
  exists (ReplayPlan.filter_revoked (plan st)). unfold walk_log, walk_start.
  split; [|split].
  - by rewrite E, Est.
  - rewrite (filter_revoked_writes (JournalSuperblock.sequence jsb)).
    + rewrite E1, E2, Hws, Hrs. by apply (surviving_entries rd jsb (JournalSuperblock.sequence jsb) []).
    + rewrite E2, Hrs. by apply revokes_window.
    + rewrite E1, Hws. by eapply entries_window.
  - unfold ReplayPlan.filter_revoked. rewrite <-Hns, <-E3. by destruct (ReplayPlan.revokes (plan st)).
Qed.

(** ** Properties *)

(** C4: a log round trip.  Transactions with consecutive TIDs (wrapping at
    2^32) serialise, one [commit_for] each; and whenever the journal ring holds
    the resulting blocks from [s_start] on, wrapping at the end of the ring,
    with nothing of a further transaction after them, the walk returns a plan
    whose entries are, in order, exactly the writes that neither their own nor
    a later transaction revokes: same filesystem block, and a journal block
    that [restore] turns back into the bytes written, with every v2 or v3
    checksum the journal declares verified on the way. *)
Theorem walk_replays_commits `{Crc32c} jsb bs txs :
  check_walkable jsb bs = Ok () → u32_ok (JournalSuperblock.sequence jsb) →
  0 ≤ JournalSuperblock.first jsb → JournalSuperblock.max_len jsb < 2 ^ 32 →
  Forall (tx_ok jsb) txs → consecutive (JournalSuperblock.sequence jsb) txs → zlen txs < 2 ^ 31 →
  ∃ groups, traverse (λ tx, commit_for tx jsb) txs = Ok groups ∧
    ∀ rd, let log := concat groups in
      (∀ k b, log !! k = Some b → rd (ring_pos jsb (Z.of_nat k)) = Ok b) →
      zlen log = limit jsb ∨ zlen log < limit jsb ∧
        log_ends rd (ring_pos jsb (zlen log)) (as_u32 (JournalSuperblock.sequence jsb + zlen txs)) →
      ∃ p, walk_log rd jsb = Ok p ∧
        Forall2 (rewrites rd jsb) (ReplayPlan.writes p) (surviving txs) ∧
        ReplayPlan.next_sequence p =
          (if is_nil txs then None else Some (as_u32 (JournalSuperblock.sequence jsb + zlen txs))).
Proof.
  intros Hck Hs Hfirst Hmax Htxs Hc Hl.
  destruct (walk_log_of_commits jsb bs txs Hck Hs Hfirst Hmax Htxs Hc Hl) as [E Hw].
  exists (tx_blocks jsb <$> txs). split; [exact E|]. intros rd log. apply Hw.
Qed.

(** ** Witness: a checksummed log that wraps both its ring and its TIDs *)

(** v3 checksums, 64-bit tags, sixteen 1 KiB blocks, the log starting four
    blocks from the end of the ring. *)
Definition sample_jsb : JournalSuperblock.t :=
  JournalSuperblock.mk JBD2_SUPERBLOCK_V2 0 1024 16 1 (2 ^ 32 - 1) 12 0 0
    (Z.lor (Z.lor JbdIncompat.REVOKE JbdIncompat.BIT64) JbdIncompat.CSUM_V3) 0 (zrep 16 7) 1
    JBD2_CRC32C_CHKSUM 0 0.

(** The first transaction writes blocks 7 (whose data begins with the journal
    magic) and 9; the second writes block 5 and revokes block 9. *)
Definition sample_txs : list Transaction.t :=
  [Transaction.mk (2 ^ 32 - 1) 1024 true true
     [JournaledBlock.mk 7 (be_split 4 JBD2_MAGIC_NUMBER ++ zrep 1020 3); JournaledBlock.mk 9 (zrep 1024 4)] [];
   Transaction.mk 0 1024 true true [JournaledBlock.mk 5 (zrep 1024 8)] [9]].

(** The journal's blocks, zeros where the log does not reach. *)
Definition sample_ring (log : list bytes) (j : Z) : res bytes :=
  Ok (match log !! Z.to_nat ((j - 12) mod 15) with Some b => b | None => zrep 1024 0 end).

Lemma sample_write_ok b d : 0 ≤ b < 2 ^ 64 → bytes_ok d → zlen d = 1024 →
  block_fits (JournalSuperblock.uses_64bit sample_jsb) b ∧ bytes_ok d ∧ zlen d = 1024.
Proof. intros Hb Hd Hl. split; [|by split]. exact Hb. Qed.

Lemma sample_txs_ok : Forall (tx_ok sample_jsb) sample_txs.
Proof.
  apply Forall_cons; split; [|apply Forall_cons; split; [|apply Forall_nil_2]].
  all: split; [reflexivity|simpl; lia|reflexivity|reflexivity|unfold u32_ok; simpl; lia| |].
  - apply Forall_cons; split; [|apply Forall_cons; split; [|apply Forall_nil_2]];
      (apply sample_write_ok; [by_compute|by_compute|vm_compute; reflexivity]).
  - apply Forall_nil_2.
  - apply Forall_cons; split; [|apply Forall_nil_2].
    apply sample_write_ok; [by_compute|by_compute|vm_compute; reflexivity].
  - apply Forall_cons; split; [|apply Forall_nil_2]. unfold block_fits.
    change (JournalSuperblock.uses_64bit sample_jsb) with true. lia.
Qed.

Lemma walk_replays_commits_witness :
  ∃ groups p, traverse (λ tx, @commit_for castagnoli tx sample_jsb) sample_txs = Ok groups ∧
    @walk_log castagnoli (sample_ring (concat groups)) sample_jsb = Ok p ∧
    ReplayEntry.fs_block <$> ReplayPlan.writes p = [7; 5] ∧ ReplayPlan.next_sequence p = Some 1.
Proof.
  destruct (@walk_replays_commits castagnoli sample_jsb 1024 sample_txs) as (groups & E & Hw);
    [vm_compute; reflexivity|unfold u32_ok; cbn; lia|cbn; lia|cbn; lia|apply sample_txs_ok|by_compute|by_compute|].
  exists groups.
  assert (Hlen : length (concat groups) = 8%nat).
  { clear Hw. vm_compute in E. injection E as <-. vm_compute. reflexivity. }
  destruct (Hw (sample_ring (concat groups))) as (p & Hp & H2 & Hn).
  - intros k b Hk. apply lookup_lt_Some in Hk as Hlt. rewrite Hlen in Hlt.
    assert (Hpos : (ring_pos sample_jsb (Z.of_nat k) - 12) mod 15 = Z.of_nat k).
    { change (ring_pos sample_jsb (Z.of_nat k)) with (1 + (11 + Z.of_nat k) mod 15).
      rewrite <-Zminus_mod_idemp_l, Zplus_mod_idemp_r, Zminus_mod_idemp_l.
      replace (1 + (11 + Z.of_nat k) - 12) with (Z.of_nat k) by lia. apply Z.mod_small. lia. }
    unfold sample_ring. by rewrite Hpos, Nat2Z.id, Hk.
  - right. unfold zlen. rewrite Hlen. split; [reflexivity|]. exists (zrep 1024 0). split.
    + unfold sample_ring, ring_pos. cbn -[zrep].
      by rewrite (lookup_ge_None_2 (concat groups)) by (rewrite Hlen; vm_compute; lia).
    + intros h Eh. vm_compute in Eh. discriminate Eh.
  - exists p. split; [exact E|]. split; [exact Hp|]. split; [|exact Hn].
    transitivity (JournaledBlock.fs_block <$> surviving sample_txs); [|vm_compute; reflexivity].
    clear -H2. induction H2 as [|e w es ws (_ & Hb & _) H2 IH]; [reflexivity|].
    cbn. by rewrite Hb, IH.
Defined.
