(* ===== verification/JournalWriter.v ===== *)
(** JournalWriter: the write side of the journal
    (src/src/journal_writer.rs).  A commit runs on the pair of the writer and
    the device, since both change and both keep their changes when a step
    fails. *)
From S2P Require Import Prelude Errors Bytes Device Features Superblock Checksum Bgd Inode Indirect Filesystem Jbd2 Journal Transaction JournalApply.

Definition journal_len_fits (max_len inode_size block_size device_bytes : Z) : res unit :=
  let block_size := Z.max 1 block_size in
  if decide (inode_size / block_size < max_len)
  then Err (Corrupt "journal declares more blocks than its inode holds") else
  if decide (device_bytes / block_size < max_len)
  then Err (Corrupt "journal declares more blocks than the device holds") else Ok ().

Module JournalWriter.
Record t := mk {
  healthy : bool; hold_needs_recovery : bool; physical_map : list Z;
  block_size : Z; jsb : JournalSuperblock.t; blocks_count : Z
}.

Definition set_healthy (h : bool) (w : t) : t :=
  mk h (hold_needs_recovery w) (physical_map w) (block_size w) (jsb w) (blocks_count w).
Definition set_jsb (j : JournalSuperblock.t) (w : t) : t :=
  mk (healthy w) (hold_needs_recovery w) (physical_map w) (block_size w) j (blocks_count w).

(** [jsb.start = s; jsb.sequence = n] *)
Definition at_log (s n : Z) (j : JournalSuperblock.t) : JournalSuperblock.t :=
  JournalSuperblock.mk (JournalSuperblock.block_type j) (JournalSuperblock.header_sequence j)
    (JournalSuperblock.block_size j) (JournalSuperblock.max_len j) (JournalSuperblock.first j)
    n s (JournalSuperblock.errno j) (JournalSuperblock.feature_compat j)
    (JournalSuperblock.feature_incompat j) (JournalSuperblock.feature_ro_compat j)
    (JournalSuperblock.uuid j) (JournalSuperblock.nr_users j) (JournalSuperblock.checksum_type j)
    (JournalSuperblock.num_fc_blocks j) (JournalSuperblock.checksum j).

Definition begin (w : t) : Transaction.t :=
  Transaction.begin (JournalSuperblock.sequence (jsb w)) (block_size w)
    (JournalSuperblock.uses_64bit (jsb w)) (JournalSuperblock.uses_csum_v3 (jsb w)).

Definition max_blocks_per_transaction (w : t) : Z :=
  saturating_sub (JournalSuperblock.max_len (jsb w)) 1.

Definition holding_needs_recovery (w : t) : t :=
  mk (healthy w) true (physical_map w) (block_size w) (jsb w) (blocks_count w).

Definition is_healthy (w : t) : bool := healthy w.

Definition sb_block (w : t) : Z := Superblock.SUPERBLOCK_OFFSET / block_size w.
Definition sb_offset_in_block (w : t) : Z := Superblock.SUPERBLOCK_OFFSET mod block_size w.

Section open.
Context `{Crc32c} (fs : Filesystem.t) (dev : reader).

(** One entry of the map, kept off block 0, the superblock and group 0's
    descriptors. *)
Definition map_block (jinode : Inode.t) (bs group0_metadata_end logical : Z) : res Z :=
  o ← Indirect.map_logical_any dev bs (Inode.block jinode) (Inode.flags jinode) logical;
  phys ← ok_or o (Corrupt "journal_writer: journal inode has unmapped logical block");
  if decide (phys < group0_metadata_end ∨ Superblock.blocks_count (Filesystem.sb fs) ≤ phys)
  then Err (Corrupt "journal_writer: journal inode maps a block onto the superblock, group 0's descriptor table, or past the end of the filesystem")
  else Ok phys.

Definition open : res (option t) :=
  jsb ← read_superblock fs dev;
  match jsb with
  | None => Ok None
  | Some jsb =>
      jinode ← read_jinode fs dev;
      let sb := Filesystem.sb fs in
      let bs := Filesystem.block_size fs in
      if decide (Superblock.blocks_count sb < JournalSuperblock.max_len jsb)
      then Err (Corrupt "journal declares more blocks than the filesystem holds") else
      _ ← journal_len_fits (JournalSuperblock.max_len jsb) (Inode.size jinode) bs (rd_size dev);
      let descriptor_bytes := as_u64 (Superblock.block_group_count sb * Superblock.desc_size sb) in
      let group0_metadata_end :=
        Superblock.first_data_block sb + 1 + div_ceil descriptor_bytes bs +
        Superblock.reserved_gdt_blocks sb in
      physical_map ← traverse (map_block jinode bs group0_metadata_end)
                       (seqZ 0 (JournalSuperblock.max_len jsb));
      Ok (Some (mk true false physical_map bs jsb (Superblock.blocks_count sb)))
  end.
End open.

Section commit.
Context `{Crc32c} {D : Type} `{BlockDevice D}.

(** *** Re-emitting the journal superblock *)

(** The fields patched into the block read back. *)
Definition patch_jsb (j : JournalSuperblock.t) (buf : bytes) : res bytes :=
  magic ← u32_be buf 0x00;
  if decide (magic ≠ JBD2_MAGIC_NUMBER)
  then Err (Corrupt "journal_writer: jsb block lost its magic between mount and commit") else
  block_type ← u32_be buf 0x04;
  if decide (block_type ≠ JournalSuperblock.block_type j)
  then Err (Corrupt "journal_writer: jsb block_type changed since mount") else
  buf ← put_be32 buf 0x08 (JournalSuperblock.sequence j);
  buf ← put_be32 buf 0x18 (JournalSuperblock.sequence j);
  buf ← put_be32 buf 0x1C (JournalSuperblock.start j);
  if JournalSuperblock.uses_csum_v2_or_v3 j then
    buf ← put_be32 buf 0xFC 0;
    body ← slice buf 0 1024;
    put_be32 buf 0xFC (linux_crc32c u32_ones body)
  else Ok buf.

Definition write_jsb (w : t) : dev_m D unit :=
  phys ← dev_lift (unwrap (physical_map w !! 0%nat));
  let at_ := as_u64 (phys * block_size w) in
  buf ← read_at at_ (block_size w);
  buf ← dev_lift (patch_jsb (jsb w) buf);
  write_at at_ buf.

(** *** The superblock block inside a transaction *)

Definition keep_recovery (w : t) (jb : JournaledBlock.t) : res JournaledBlock.t :=
  if decide (JournaledBlock.fs_block jb = sb_block w) then
    let off := sb_offset_in_block w in
    sb ← slice (JournaledBlock.data jb) off 1024;
    sb ← set_needs_recovery_in sb true;
    data ← put (JournaledBlock.data jb) off sb;
    Ok (JournaledBlock.mk (JournaledBlock.fs_block jb) data)
  else Ok jb.

(** A transaction that journals no superblock block is left as it is. *)
Definition patched_tx (w : t) (tx : Transaction.t) : res Transaction.t :=
  ws ← traverse (keep_recovery w) (Transaction.writes tx);
  Ok (Transaction.set_writes ws tx).

(** *** The refusals made before any I/O *)
Definition check_tx (w : t) (tx : Transaction.t) : res unit :=
  if decide (Transaction.sequence tx ≠ JournalSuperblock.sequence (jsb w))
  then Err (Corrupt "journal_writer: transaction sequence does not match writer state") else
  if decide (Transaction.block_size tx ≠ block_size w)
  then Err (InvalidArgument "journal_writer: transaction block size does not match the volume") else
  if existsb (λ jb, negb (bool_decide (zlen (JournaledBlock.data jb) = block_size w))) (Transaction.writes tx)
  then Err (InvalidArgument "journal_writer: a journaled write is not exactly one block") else Ok ().

(** *** The loops of steps 1 and 3 *)

Definition offset_of (w : t) (b : Z) : dev_m D Z := λ d,
  (byte_offset_in b (blocks_count w) (block_size w) (size_bytes d), d).

Fixpoint write_log (w : t) (jblock : Z) (blocks : list bytes) : dev_m D unit :=
  match blocks with
  | [] => mret ()
  | block :: blocks =>
      phys ← dev_lift (unwrap (physical_map w !! Z.to_nat jblock));
      at_ ← offset_of w phys;
      _ ← write_at at_ block;
      write_log w (jblock + 1) blocks
  end.

Fixpoint write_final (w : t) (ws : list JournaledBlock.t) : dev_m D unit :=
  match ws with
  | [] => mret ()
  | jb :: ws =>
      at_ ← offset_of w (JournaledBlock.fs_block jb);
      _ ← write_at at_ (JournaledBlock.data jb);
      write_final w ws
  end.

(** *** The commit *)

Definition on_dev {A} (m : dev_m D A) : dev_m (t * D) A := λ s,
  let '(r, d) := m (snd s) in (r, (fst s, d)).
Definition the_writer : dev_m (t * D) t := λ s, (Ok (fst s), s).
Definition modify (f : t → t) : dev_m (t * D) unit := λ s, (Ok (), (f (fst s), snd s)).

Definition commit_inner (tx : Transaction.t) : dev_m (t * D) unit :=
  writable ← on_dev dev_writable;
  if negb writable then dev_lift (Err ReadOnly) else
  w ← the_writer;
  _ ← dev_lift (check_tx w tx);
  tx ← dev_lift (patched_tx w tx);
  blocks ← dev_lift (commit_for tx (jsb w));
  if decide (blocks = []) then mret () else
  if decide (max_blocks_per_transaction w < zlen blocks)
  then dev_lift (Err (Corrupt "journal_writer: transaction too large for journal")) else
  _ ← modify (set_healthy false);
  (* step 1 *)
  _ ← on_dev (write_log w 1 blocks);
  _ ← on_dev (write_needs_recovery true);
  _ ← on_dev flush;
  (* step 2 *)
  let dirty := set_jsb (at_log 1 (JournalSuperblock.sequence (jsb w)) (jsb w)) (set_healthy false w) in
  _ ← modify (λ _, dirty);
  _ ← on_dev (write_jsb dirty);
  _ ← on_dev flush;
  (* step 3 *)
  _ ← on_dev (write_final dirty (Transaction.writes tx));
  _ ← on_dev flush;
  (* step 4 *)
  let clean := set_jsb (at_log 0 (as_u32 (JournalSuperblock.sequence (jsb w) + 1)) (jsb w)) (set_healthy false w) in
  _ ← modify (λ _, clean);
  _ ← on_dev (write_jsb clean);
  _ ← (if hold_needs_recovery clean then mret () else on_dev (write_needs_recovery false));
  _ ← on_dev flush;
  modify (set_healthy true).

Definition commit (tx : Transaction.t) : dev_m (t * D) unit :=
  w ← the_writer;
  if negb (healthy w)
  then dev_lift (Err (Corrupt "journal writer failed; reopen for recovery")) else
  commit_inner tx.
End commit.
End JournalWriter.

(** ** Lemmas: the journal superblock on disk *)

Lemma be32_splice_ne b off src o :
  0 ≤ off → off + zlen src ≤ zlen b → 0 ≤ o → o + 4 ≤ off ∨ off + zlen src ≤ o →
  be32 (splice b off src) o = be32 b o.
Proof. intros. unfold be32. by rewrite sub_splice_disjoint by lia. Qed.

Lemma byte_at_splice_ne b off src o :
  0 ≤ off → off + zlen src ≤ zlen b → 0 ≤ o → o < off ∨ off + zlen src ≤ o →
  byte_at (splice b off src) o = byte_at b o.
Proof. intros. unfold byte_at. rewrite lookup_splice by lia. by rewrite decide_False by lia. Qed.

Definition decode_jsb (raw : bytes) : JournalSuperblock.t :=
  let v2 := bool_decide (be32 raw 4 = JBD2_SUPERBLOCK_V2) in
  let f (x : Z) := if v2 then x else 0 in
  JournalSuperblock.mk (be32 raw 4) (be32 raw 8) (be32 raw 0x0C) (be32 raw 0x10) (be32 raw 0x14)
    (be32 raw 0x18) (be32 raw 0x1C) (be32 raw 0x20) (f (be32 raw 0x24)) (f (be32 raw 0x28))
    (f (be32 raw 0x2C)) (if v2 then sub raw 0x30 16 else zrep 16 0) (f (be32 raw 0x40))
    (f (byte_at raw 0x50)) (f (be32 raw 0x54)) (f (be32 raw 0xFC)).

Definition is_jsb (raw : bytes) : Prop :=
  be32 raw 0 = JBD2_MAGIC_NUMBER ∧ (be32 raw 4 = JBD2_SUPERBLOCK_V1 ∨ be32 raw 4 = JBD2_SUPERBLOCK_V2).

Lemma parse_jsb raw j : 0x100 ≤ zlen raw →
  JournalSuperblock.parse raw = Ok j ↔ is_jsb raw ∧ j = decode_jsb raw.
Proof.
  intros Hl. unfold JournalSuperblock.parse, is_jsb, decode_jsb. rewrite decide_False by lia. io.
  case_decide as Hm; [split; [done|intros [[? _] _]; done]|]. io.
  case_decide as Ht; [split; [done|intros [[_ ?] _]; naive_solver]|]. io.
  assert (Hor : be32 raw 4 = JBD2_SUPERBLOCK_V1 ∨ be32 raw 4 = JBD2_SUPERBLOCK_V2).
  { destruct (decide (be32 raw 4 = JBD2_SUPERBLOCK_V1)); [by left|].
    destruct (decide (be32 raw 4 = JBD2_SUPERBLOCK_V2)); [by right|naive_solver]. }
  case_decide as H2; io; [rewrite bool_decide_true by done|rewrite bool_decide_false by done];
    (split; [intros [= <-]; split; [split; [lia|done]|done]|intros [_ ->]; done]).
Qed.

(** [j] as a writer that has moved to [(s, n)] leaves it on disk. *)
Definition on_disk (s n ck : Z) (j : JournalSuperblock.t) : JournalSuperblock.t :=
  JournalSuperblock.mk (JournalSuperblock.block_type j) n
    (JournalSuperblock.block_size j) (JournalSuperblock.max_len j) (JournalSuperblock.first j)
    n s (JournalSuperblock.errno j) (JournalSuperblock.feature_compat j)
    (JournalSuperblock.feature_incompat j) (JournalSuperblock.feature_ro_compat j)
    (JournalSuperblock.uuid j) (JournalSuperblock.nr_users j) (JournalSuperblock.checksum_type j)
    (JournalSuperblock.num_fc_blocks j) ck.

Lemma decode_store raw s n : 0x100 ≤ zlen raw → u32_ok s → u32_ok n → is_jsb raw →
  let raw' := splice (splice (splice raw 8 (be_split 4 n)) 0x18 (be_split 4 n)) 0x1C (be_split 4 s) in
  zlen raw' = zlen raw ∧ is_jsb raw' ∧
  decode_jsb raw' = on_disk s n (JournalSuperblock.checksum (decode_jsb raw)) (decode_jsb raw).
Proof.
  intros Hl Hs Hn Hj raw'. unfold u32_ok in *.
  assert (Hz : zlen raw' = zlen raw) by (unfold raw'; zl).
  split; [done|]. unfold is_jsb, decode_jsb, on_disk. cbn.
  assert (Hne : ∀ o, 0 ≤ o → o + 4 ≤ 8 ∨ 12 ≤ o → o + 4 ≤ 0x18 ∨ 0x20 ≤ o → be32 raw' o = be32 raw o).
  { intros o H0 H1 H2. unfold raw'. rewrite !be32_splice_ne; try done; zl. }
  assert (H8 : be32 raw' 8 = n).
  { unfold raw'. rewrite !(be32_splice_ne _ _ _ 8) by zl. apply be32_splice; lia. }
  assert (H18 : be32 raw' 0x18 = n).
  { unfold raw'. rewrite (be32_splice_ne _ 0x1C) by zl.
    apply be32_splice; zl. }
  assert (H1C : be32 raw' 0x1C = s).
  { unfold raw'. apply be32_splice; zl. }
  rewrite H8, H18, H1C, !Hne by lia. split; [done|].
  f_equal.
  - unfold raw'. by rewrite !sub_splice_disjoint by zl.
  - unfold raw'. by rewrite !byte_at_splice_ne by zl.
Qed.

Lemma decode_checksum raw ck : 0x100 ≤ zlen raw → is_jsb raw →
  let raw' := splice raw 0xFC (be_split 4 ck) in
  zlen raw' = zlen raw ∧ is_jsb raw' ∧ ∃ ck', decode_jsb raw' =
    on_disk (JournalSuperblock.start (decode_jsb raw)) (JournalSuperblock.sequence (decode_jsb raw)) ck'
      (decode_jsb raw) ∨ JournalSuperblock.header_sequence (decode_jsb raw) ≠ JournalSuperblock.sequence (decode_jsb raw).
Proof.
  intros Hl Hj raw'.
  assert (Hz : zlen raw' = zlen raw) by (unfold raw'; zl). split; [done|].
  assert (Hne : ∀ o, 0 ≤ o → o + 4 ≤ 0xFC → be32 raw' o = be32 raw o).
  { intros o H0 H1. unfold raw'. apply be32_splice_ne; zl. }
  unfold is_jsb, decode_jsb, on_disk. cbn. rewrite !Hne by lia. split; [done|].
  eexists. destruct (decide (be32 raw 8 = be32 raw 0x18)) as [->|]; [left|by right].
  f_equal.
  - unfold raw'. by rewrite sub_splice_disjoint by zl.
  - unfold raw'. by rewrite byte_at_splice_ne by zl.
Qed.

(** A re-emitted journal superblock parses as the in-memory one. *)
Lemma patch_jsb_spec `{Crc32c} j buf :
  1024 ≤ zlen buf → bytes_ok buf → is_jsb buf → JournalSuperblock.block_type j = be32 buf 4 →
  u32_ok (JournalSuperblock.start j) → u32_ok (JournalSuperblock.sequence j) →
  ∃ buf' ck, JournalWriter.patch_jsb j buf = Ok buf' ∧ zlen buf' = zlen buf ∧ bytes_ok buf' ∧
    JournalSuperblock.parse buf' =
      Ok (on_disk (JournalSuperblock.start j) (JournalSuperblock.sequence j) ck (decode_jsb buf)).
Proof.
  intros Hl Hb Hj Hbt Hs Hn. unfold JournalWriter.patch_jsb. destruct Hj as [Hm Ht] eqn:Ej. clear Ej. io.
  rewrite decide_False by lia. io. rewrite decide_False by lia. io.
  destruct (decode_store buf _ _ ltac:(lia) Hs Hn (conj Hm Ht)) as (Hz & Hj' & Hd). cbv zeta in *.
  assert (Hbe : ∀ n v, bytes_ok (be_split n v)) by (intros; apply bytes_ok_rev, bytes_ok_le_split).
  rewrite !put_be32_ok by zl. rewrite !bind_Ok.
  rewrite put_be32_ok by zl. rewrite bind_Ok.
  set (b3 := splice (splice (splice buf 8 _) _ _) _ _) in *.
  assert (B3 : bytes_ok b3) by (unfold b3; auto using bytes_ok_splice).
  destruct (JournalSuperblock.uses_csum_v2_or_v3 j).
  - rewrite put_be32_ok, bind_Ok by lia.
    rewrite slice_ok, bind_Ok by zl.
    rewrite put_be32_ok by zl. set (c := linux_crc32c _ _).
    rewrite splice_overwrite by zl.
    destruct (decode_checksum b3 c ltac:(lia) Hj') as (Hz4 & Hj4 & ck & [Hd4|Hbad]).
    + do 2 eexists. split; [done|]. split; [lia|]. split; [auto using bytes_ok_splice|].
      apply parse_jsb; [lia|]. split; [done|]. rewrite Hd4, Hd. reflexivity.
    + rewrite Hd in Hbad. by destruct Hbad.
  - do 2 eexists. split; [done|]. split; [done|]. split; [done|].
    apply parse_jsb; [lia|]. split; [done|]. exact (eq_sym Hd).
Qed.
