(* ===== verification/CrashSafety.v ===== *)
(** CrashSafety: a commit of JournalWriter.v is atomic across power failures.
    The device is the write-cached [Disk]; recovery is [replay_if_dirty] of
    JournalApply.v on the image the failure left behind. *)
From S2P Require Import Prelude Errors Bytes Device Disk Features Superblock Checksum Bgd Inode Indirect Filesystem Jbd2 Journal Transaction JournalApply LogReplay JournalWriter.

Local Abbreviation blk := Disk.blk.

(** ** What an observer outside the journal sees of a block

    The recovery flag of the primary superblock (and the checksum that covers
    it) changes during a commit; the observer sees the block with the flag
    cleared. *)
Section observe.
Context `{Crc32c} (bs : Z).

Definition sb_blk : Z := Superblock.SUPERBLOCK_OFFSET / bs.
Definition sb_off : Z := Superblock.SUPERBLOCK_OFFSET mod bs.

(** The flag set or cleared in a superblock image, total. *)
Definition flag_sb (on : bool) (s : bytes) : bytes :=
  match set_needs_recovery_in s on with Ok s' => s' | _ => s end.

(** The same in the block that holds the superblock. *)
Definition flag_block (on : bool) (x : bytes) : bytes :=
  splice x sb_off (flag_sb on (sub x sb_off 1024)).

Definition view (b : Z) (x : bytes) : bytes := if decide (b = sb_blk) then flag_block false x else x.

Definition sb_fits : Prop := bs = 1024 ∨ 2048 ≤ bs.

Lemma sb_geometry : sb_fits → 0 ≤ sb_blk ∧ 0 ≤ sb_off ∧ sb_off + 1024 ≤ bs ∧ sb_blk * bs + sb_off = 1024.
Proof.
  unfold sb_blk, sb_off, Superblock.SUPERBLOCK_OFFSET. intros [->|H2].
  - split_and!; reflexivity || by_compute.
  - rewrite Z.div_small, Z.mod_small by lia. lia.
Qed.

Lemma flag_sb_spec on s : zlen s = 1024 → bytes_ok s →
  set_needs_recovery_in s on = Ok (flag_sb on s) ∧ zlen (flag_sb on s) = 1024 ∧ bytes_ok (flag_sb on s) ∧
  flag_sb false (flag_sb on s) = flag_sb false s.
Proof.
  intros Hl Hb. destruct (set_needs_recovery_spec s on Hl Hb) as (s' & E & H1 & H2 & H3).
  destruct (set_needs_recovery_spec s false Hl Hb) as (s0 & E0 & _).
  unfold flag_sb at 1 2 3 5. rewrite E. split_and!; [done|done|done|]. unfold flag_sb. by rewrite H3, E0.
Qed.

Lemma flag_block_spec on x : sb_fits → zlen x = bs → bytes_ok x →
  zlen (flag_block on x) = bs ∧ bytes_ok (flag_block on x) ∧ flag_block false (flag_block on x) = flag_block false x.
Proof.
  intros Hf Hl Hb. destruct (sb_geometry Hf) as (H0 & H1 & H2 & _).
  assert (Hs : zlen (sub x sb_off 1024) = 1024) by zl.
  destruct (flag_sb_spec on (sub x sb_off 1024)) as (_ & Hz & Hbo & Hff); [done|auto with ext4|].
  unfold flag_block. split; [rewrite zlen_splice; lia|]. split; [by apply bytes_ok_splice|].
  rewrite sub_splice_same_len by lia. rewrite Hff. apply splice_overwrite; [lia| |].
  - destruct (flag_sb_spec false (sub x sb_off 1024)) as (_ & -> & _); [done|auto with ext4|lia].
  - destruct (flag_sb_spec false (sub x sb_off 1024)) as (_ & -> & _); [done|auto with ext4|lia].
Qed.

(** *** The superblock write of [write_needs_recovery], on an image *)

Definition nr (on : bool) (img : bytes) : bytes := splice img 1024 (flag_sb on (sub img 1024 1024)).

Lemma blk_sb_write img s b : sb_fits → 0 ≤ b → zlen s = 1024 → (sb_blk + 1) * bs ≤ zlen img →
  blk bs (splice img 1024 s) b = if decide (b = sb_blk) then splice (blk bs img b) sb_off s else blk bs img b.
Proof.
  intros Hf Hb Hs Hz. destruct (sb_geometry Hf) as (H0 & H1 & H2 & H3). unfold Disk.blk.
  assert (Hzs : zlen (sub img (sb_blk * bs) bs) = bs) by zl.
  assert (0 ≤ sb_blk * bs) by (apply Z.mul_nonneg_nonneg; destruct Hf; lia).
  case_decide as Hd.
  - subst b. apply list_eq. intros i.
    rewrite lookup_sub, lookup_splice by lia. rewrite lookup_splice by lia. rewrite lookup_sub.
    repeat case_decide; try done; try lia; try (f_equal; lia).
  - apply sub_splice_disjoint; [lia|lia|nia|].
    assert (b < sb_blk ∨ sb_blk < b) as [Hlt|Hlt] by lia; [left|right]; nia.
Qed.

Lemma sub_sb img : sb_fits → (sb_blk + 1) * bs ≤ zlen img →
  sub img 1024 1024 = sub (blk bs img sb_blk) sb_off 1024.
Proof.
  intros Hf Hz. destruct (sb_geometry Hf) as (H0 & H1 & H2 & H3). unfold Disk.blk.
  assert (0 ≤ sb_blk * bs) by (apply Z.mul_nonneg_nonneg; destruct Hf; lia).
  rewrite sub_sub by lia. f_equal. lia.
Qed.

Lemma nr_spec on img b : sb_fits → 0 ≤ b → bytes_ok img → (sb_blk + 1) * bs ≤ zlen img →
  zlen (nr on img) = zlen img ∧ bytes_ok (nr on img) ∧
  blk bs (nr on img) b = (if decide (b = sb_blk) then flag_block on (blk bs img b) else blk bs img b) ∧
  view b (blk bs (nr on img) b) = view b (blk bs img b).
Proof.
  intros Hf Hb Hbo Hz. destruct (sb_geometry Hf) as (H0 & H1 & H2 & H3).
  assert (Hs : zlen (sub img 1024 1024) = 1024) by zl.
  destruct (flag_sb_spec on (sub img 1024 1024)) as (_ & Hfz & Hfb & _); [done|auto with ext4|].
  unfold nr. assert (Hblk := blk_sb_write img _ b Hf Hb Hfz Hz).
  split; [rewrite zlen_splice; lia|]. split; [by apply bytes_ok_splice|]. split.
  - rewrite Hblk. case_decide as Hd; [|done]. subst b. unfold flag_block. by rewrite (sub_sb img Hf Hz).
  - rewrite Hblk. unfold view. case_decide as Hd; [|done]. subst b. rewrite (sub_sb img Hf Hz).
    apply flag_block_spec; [done|unfold Disk.blk; zl|unfold Disk.blk; auto with ext4].
Qed.
End observe.

Lemma filter_all {A} (P : A → Prop) `{∀ x, Decision (P x)} l : Forall P l → filter P l = l.
Proof. induction 1 as [|x l Hx Hl IH]; [done|]. by rewrite filter_cons_True, IH. Qed.

(** ** Running on the recording disk *)

(** The recorded image has the size of the medium and holds bytes. *)
Definition disk_ok (d : Disk.t) : Prop :=
  zlen (Disk.contents d) = zlen (Disk.base d) ∧ bytes_ok (Disk.contents d).

(** [d] after the writes [ws]. *)
Definition record_all (ws : list (Z * bytes)) (d : Disk.t) : Disk.t :=
  Disk.mk (Disk.base d) (Disk.events d ++ ((λ w, Disk.EvWrite (fst w) (snd w)) <$> ws)).

Lemma contents_record_all ws d : Disk.contents (record_all ws d) = Disk.apply_writes (Disk.contents d) ws.
Proof.
  unfold Disk.contents, record_all. cbn [Disk.base Disk.events].
  by rewrite Disk.writes_of_app, Disk.apply_writes_app, Disk.writes_of_fmap.
Qed.

Lemma record_one off b d : Disk.record (Disk.EvWrite off b) d = record_all [(off, b)] d.
Proof. done. Qed.

Lemma record_all_nil d : record_all [] d = d.
Proof. unfold record_all. cbn. rewrite app_nil_r. by destruct d. Qed.

Lemma record_epoch ws d : Disk.record Disk.EvFlush (record_all ws d) =
  Disk.mk (Disk.base d) (Disk.events d ++ Disk.epoch ws).
Proof. unfold Disk.record, record_all, Disk.epoch. cbn. by rewrite app_assoc. Qed.

Lemma record_all_app a b d : record_all b (record_all a d) = record_all (a ++ b) d.
Proof. unfold record_all. cbn. by rewrite fmap_app, app_assoc. Qed.

(** Writes of byte lists inside the medium keep the disk well formed. *)
Definition wr_ok (size : Z) (w : Z * bytes) : Prop :=
  0 ≤ fst w ∧ fst w + zlen (snd w) ≤ size ∧ bytes_ok (snd w).

Lemma apply_writes_ok img ws : bytes_ok img → Forall (wr_ok (zlen img)) ws →
  zlen (Disk.apply_writes img ws) = zlen img ∧ bytes_ok (Disk.apply_writes img ws).
Proof.
  intros Hb Hws. split.
  - apply Disk.zlen_apply_writes. eapply Forall_impl; [exact Hws|]. intros w (? & ? & _). done.
  - revert img Hb Hws. induction ws as [|[o b] ws IH]; intros img Hb Hws; [done|].
    apply Forall_cons in Hws as [(H0 & H1 & H2) Hws]. cbn [fst snd] in *.
    change (Disk.apply_writes img ((o, b) :: ws)) with (Disk.apply_writes (splice img o b) ws).
    apply IH; [by apply bytes_ok_splice|]. by rewrite zlen_splice.
Qed.

Lemma record_all_ok ws d : disk_ok d → Forall (wr_ok (zlen (Disk.base d))) ws → disk_ok (record_all ws d).
Proof.
  intros [Hz Hb] Hws. unfold disk_ok. rewrite contents_record_all. cbn [Disk.base record_all].
  rewrite <-Hz in Hws |- *. by apply apply_writes_ok.
Qed.

Lemma snapshot_disk d : zlen (Disk.contents d) = zlen (Disk.base d) →
  snapshot d = image_reader (Disk.contents d).
Proof. intros Hz. unfold image_reader. rewrite Hz. reflexivity. Qed.

Lemma with_reader_disk {A} (f : reader → res A) d : disk_ok d →
  with_reader f d = (f (image_reader (Disk.contents d)), d).
Proof. intros [Hz _]. unfold with_reader. by rewrite snapshot_disk. Qed.

Lemma bind_dev {D A B} (m : dev_m D A) (f : A → dev_m D B) d a d' :
  m d = (Ok a, d') → (m ≫= f) d = f a d'.
Proof. intros E. unfold mbind, dev_bind. by rewrite E. Qed.

Lemma flush_disk d : flush d = (Ok (), Disk.record Disk.EvFlush d).
Proof. done. Qed.

Lemma contents_flush d : Disk.contents (Disk.record Disk.EvFlush d) = Disk.contents d.
Proof. by rewrite Disk.contents_record. Qed.

Lemma flush_ok d : disk_ok d → disk_ok (Disk.record Disk.EvFlush d).
Proof. unfold disk_ok. by rewrite contents_flush. Qed.

Lemma write_needs_recovery_disk `{Crc32c} on d : disk_ok d → 2048 ≤ zlen (Disk.base d) →
  let s := flag_sb on (sub (Disk.contents d) 1024 1024) in
  write_needs_recovery on d = (Ok (), record_all [(1024, s)] d) ∧
  disk_ok (record_all [(1024, s)] d) ∧ Disk.contents (record_all [(1024, s)] d) = nr on (Disk.contents d).
Proof.
  intros [Hz Hb] Hsz s. unfold write_needs_recovery. change Superblock.SUPERBLOCK_OFFSET with 1024.
  assert (Hs : zlen (sub (Disk.contents d) 1024 1024) = 1024) by zl.
  destruct (flag_sb_spec on (sub (Disk.contents d) 1024 1024)) as (E & Hl & Hbo & _); [done|auto with ext4|].
  fold s in E, Hl, Hbo. split; [|split].
  - erewrite bind_dev; [|apply Disk.read_disk; lia]. erewrite bind_dev; [|unfold dev_lift; by rewrite E].
    rewrite Disk.write_disk by lia. apply (f_equal (λ x, (Ok (), x))), record_one.
  - apply record_all_ok; [done|]. repeat constructor; cbn; [lia|lia|done].
  - by rewrite contents_record_all.
Qed.

(** The whole-block writes of steps 1 and 3. *)
Section loops.
Context (w : JournalWriter.t).
Local Abbreviation bs := (JournalWriter.block_size w).

Definition block_ok (kb : Z * bytes) : Prop :=
  0 ≤ fst kb < JournalWriter.blocks_count w ∧ zlen (snd kb) = bs ∧ bytes_ok (snd kb).

Definition medium_ok (d : Disk.t) : Prop :=
  0 < bs ∧ JournalWriter.blocks_count w * bs ≤ zlen (Disk.base d) < 2 ^ 64.

Lemma block_writes_ok d ws : medium_ok d → Forall block_ok ws →
  Forall (wr_ok (zlen (Disk.base d))) (Disk.block_writes bs ws).
Proof.
  intros [Hbs Hm] Hws. unfold Disk.block_writes. apply Forall_fmap. eapply Forall_impl; [exact Hws|].
  intros [b x] (H0 & H1 & H2). cbn [fst snd] in *. unfold compose, wr_ok. cbn [fst snd].
  assert ((b + 1) * bs ≤ JournalWriter.blocks_count w * bs) by (apply Z.mul_le_mono_nonneg_r; lia).
  split; [apply Z.mul_nonneg_nonneg; lia|]. split; [lia|done].
Qed.

Lemma block_write_disk b x d : medium_ok d → 0 ≤ b < JournalWriter.blocks_count w → zlen x = bs →
  JournalWriter.offset_of w b d = (Ok (b * bs), d) ∧
  write_at (b * bs) x d = (Ok (), record_all [(b * bs, x)] d).
Proof.
  intros [Hbs Hm] Hb Hx. split.
  - unfold JournalWriter.offset_of. change (size_bytes d) with (zlen (Disk.base d)).
    by rewrite byte_offset_in_eq by lia.
  - rewrite Disk.write_disk by nia. by rewrite record_one.
Qed.

Lemma write_log_disk i blocks d : medium_ok d → 0 ≤ i →
  Forall block_ok (zip (drop (Z.to_nat i) (JournalWriter.physical_map w)) blocks) →
  (Z.to_nat i + length blocks ≤ length (JournalWriter.physical_map w))%nat →
  JournalWriter.write_log w i blocks d =
    (Ok (), record_all (Disk.block_writes bs (zip (drop (Z.to_nat i) (JournalWriter.physical_map w)) blocks)) d).
Proof.
  revert i d. induction blocks as [|x blocks IH]; intros i d Hm Hi Hok Hlen.
  { rewrite zip_with_nil_r. unfold record_all. cbn. rewrite app_nil_r. by destruct d. }
  cbn [length] in Hlen.
  destruct (lookup_lt_is_Some_2 (JournalWriter.physical_map w) (Z.to_nat i) ltac:(lia)) as [p Hp].
  rewrite (drop_S _ _ _ Hp) in *. cbn [zip zip_with] in *. apply Forall_cons in Hok as [(Hb & Hx & _) Hok].
  cbn [fst snd] in *. destruct (block_write_disk p x d Hm Hb Hx) as [Ho Hw].
  cbn [JournalWriter.write_log]. rewrite Hp. cbn [unwrap].
  erewrite bind_dev; [|reflexivity]. erewrite bind_dev; [|exact Ho]. erewrite bind_dev; [|exact Hw].
  replace (S (Z.to_nat i)) with (Z.to_nat (i + 1)) in * by lia.
  rewrite IH; [|done|lia|exact Hok|lia]. by rewrite record_all_app.
Qed.

Lemma write_final_disk ws d : medium_ok d →
  Forall block_ok ((λ jb, (JournaledBlock.fs_block jb, JournaledBlock.data jb)) <$> ws) →
  JournalWriter.write_final w ws d =
    (Ok (), record_all (Disk.block_writes bs
              ((λ jb, (JournaledBlock.fs_block jb, JournaledBlock.data jb)) <$> ws)) d).
Proof.
  revert d. induction ws as [|jb ws IH]; intros d Hm Hok.
  { unfold record_all. cbn. rewrite app_nil_r. by destruct d. }
  cbn [fmap list_fmap] in *. apply Forall_cons in Hok as [(Hb & Hx & _) Hok]. cbn [fst snd] in *.
  destruct (block_write_disk _ _ d Hm Hb Hx) as [Ho Hw]. cbn [JournalWriter.write_final].
  erewrite bind_dev; [|exact Ho]. erewrite bind_dev; [|exact Hw].
  rewrite IH; [by rewrite record_all_app|done|exact Hok].
Qed.

(** The re-emitted journal superblock is one whole-block write. *)
Lemma write_jsb_disk `{Crc32c} p0 d : medium_ok d → disk_ok d → 1024 ≤ bs →
  JournalWriter.physical_map w !! 0%nat = Some p0 → 0 ≤ p0 < JournalWriter.blocks_count w →
  is_jsb (blk bs (Disk.contents d) p0) →
  JournalSuperblock.block_type (JournalWriter.jsb w) = be32 (blk bs (Disk.contents d) p0) 4 →
  u32_ok (JournalSuperblock.start (JournalWriter.jsb w)) →
  u32_ok (JournalSuperblock.sequence (JournalWriter.jsb w)) →
  ∃ buf ck, JournalWriter.write_jsb w d = (Ok (), record_all (Disk.block_writes bs [(p0, buf)]) d) ∧
    zlen buf = bs ∧ bytes_ok buf ∧
    JournalSuperblock.parse buf = Ok (on_disk (JournalSuperblock.start (JournalWriter.jsb w))
      (JournalSuperblock.sequence (JournalWriter.jsb w)) ck (decode_jsb (blk bs (Disk.contents d) p0))).
Proof.
  intros Hm [Hz Hb] Hbs Hp Hp0 Hj Ht Hs Hn. destruct Hm as [Hbs0 Hm].
  assert (Hl : zlen (blk bs (Disk.contents d) p0) = bs).
  { unfold Disk.blk. assert ((p0 + 1) * bs ≤ zlen (Disk.base d)) by nia. zl. }
  destruct (patch_jsb_spec (JournalWriter.jsb w) (blk bs (Disk.contents d) p0)) as (buf & ck & E & H1 & H2 & H3);
    [lia|unfold Disk.blk; auto with ext4|done|done|done|done|].
  exists buf, ck. split_and!; [|lia|done|done].
  unfold JournalWriter.write_jsb. rewrite Hp. cbn [unwrap].
  assert (as_u64 (p0 * bs) = p0 * bs) as Hu by (unfold as_u64; apply Z.mod_small; nia).
  erewrite bind_dev; [|reflexivity]. cbv zeta. rewrite Hu.
  erewrite bind_dev; [|apply Disk.read_disk; nia]. unfold Disk.blk in E.
  erewrite bind_dev; [|unfold dev_lift; by rewrite E].
  rewrite Disk.write_disk by nia. by rewrite record_one.
Qed.
End loops.

(** ** A commit, its writer and the volume it runs on *)

Section commit.
Context `{Crc32c} (w : JournalWriter.t) (tx : Transaction.t) (img0 : bytes) (p0 : Z).
Local Abbreviation bs := (JournalWriter.block_size w).
Local Abbreviation pm := (JournalWriter.physical_map w).
Local Abbreviation j := (JournalWriter.jsb w).
Local Abbreviation seq := (JournalSuperblock.sequence (JournalWriter.jsb w)).

(** The transaction as it is logged: the recovery flag set in every copy of
    the superblock's block. *)
Definition flag_write (jb : JournaledBlock.t) : JournaledBlock.t :=
  if decide (JournaledBlock.fs_block jb = sb_blk bs)
  then JournaledBlock.mk (JournaledBlock.fs_block jb) (flag_block bs true (JournaledBlock.data jb)) else jb.

Definition ptx : Transaction.t := Transaction.set_writes (flag_write <$> Transaction.writes tx) tx.

Definition block_of (jb : JournaledBlock.t) : Z * bytes := (JournaledBlock.fs_block jb, JournaledBlock.data jb).
Definition targets : list Z := JournaledBlock.fs_block <$> Transaction.writes tx.

(** An image of the same medium. *)
Definition image_ok (c : bytes) : Prop := zlen c = zlen img0 ∧ bytes_ok c.

(** Every block outside the journal holds its old contents or one of those
    the transaction writes to it. *)
Definition mixed (c : bytes) : Prop :=
  image_ok c ∧ ∀ b, 0 ≤ b → b ∉ pm →
    view bs b (blk bs c b) = view bs b (blk bs img0 b) ∨
    ∃ jb, jb ∈ Transaction.writes tx ∧ JournaledBlock.fs_block jb = b ∧
          view bs b (blk bs c b) = view bs b (JournaledBlock.data jb).

(** Nothing of the transaction, or all of it. *)
Definition old (c : bytes) : Prop :=
  image_ok c ∧ ∀ b, 0 ≤ b → b ∉ pm → view bs b (blk bs c b) = view bs b (blk bs img0 b).
Definition new (c : bytes) : Prop :=
  image_ok c ∧ ∀ b, 0 ≤ b → b ∉ pm →
    view bs b (blk bs c b) =
    view bs b (foldl Disk.put_block (blk bs img0) (block_of <$> Transaction.writes tx) b).

(** What a mounted writer between two commits and a transaction begun with it
    satisfy, whatever the transaction's size.  [p0] is the block of the journal
    superblock. *)
Record commit_sane : Prop := {
  cr_healthy : JournalWriter.healthy w = true;
  cr_bs : 1024 ≤ bs ≤ 65536 ∧ sb_fits bs;
  cr_medium : JournalWriter.blocks_count w * bs ≤ zlen img0 < 2 ^ 64;
  cr_bytes : bytes_ok img0;
  cr_len : zlen pm = JournalSuperblock.max_len j;
  cr_nodup : NoDup pm;
  cr_pm : Forall (λ p, sb_blk bs < p < JournalWriter.blocks_count w) pm;
  cr_p0 : pm !! 0%nat = Some p0;
  cr_disk : JournalSuperblock.parse (blk bs img0 p0) = Ok j;
  cr_clean : JournalSuperblock.start j = 0;
  cr_first : JournalSuperblock.first j = 1;
  cr_walkable : check_walkable (JournalWriter.at_log 1 seq j) bs = Ok ();
  cr_tx : tx_ok j tx;
  cr_tid : Transaction.sequence tx = seq;
  cr_targets : Forall (λ b, 0 ≤ b < JournalWriter.blocks_count w ∧ b ∉ pm ∧ b ∉ Transaction.revokes tx) targets;
}.

(** What it takes for the transaction to be logged: its blocks fit the log, and
    the log block after its last carries no transaction of the next sequence
    number. *)
Record commit_fits : Prop := {
  cr_fits : zlen (tx_blocks j ptx) ≤ JournalSuperblock.max_len j - 1;
  cr_stale : ∀ p h, pm !! S (length (tx_blocks j ptx)) = Some p →
    try_parse_header (blk bs img0 p) = Ok (Some h) → h_sequence h ≠ as_u32 (seq + 1);
}.

Definition commit_ready : Prop := commit_sane ∧ commit_fits.

(** A mount under which recovery runs: the writer's geometry, and a journal
    inode that maps the writer's journal whichever of the transaction's writes
    have reached the medium. *)
Record mount_ready (fs : Filesystem.t) : Prop := {
  mr_bs : Filesystem.block_size fs = bs;
  mr_count : Superblock.blocks_count (Filesystem.sb fs) = JournalWriter.blocks_count w;
  mr_journal : journal_ino fs ≠ 0;
  mr_writable : write_breaking_incompat (Superblock.feature_incompat (Filesystem.sb fs)) = 0;
  mr_map : ∀ c, mixed c → ∃ ji, read_jinode fs (image_reader c) = Ok ji ∧
    ∀ k p, pm !! k = Some p →
      journal_block_to_physical fs (image_reader c) ji (Z.of_nat k) = Ok (Some p);
}.

Context (R : commit_sane).

Lemma bs_range : 1024 ≤ bs ≤ 65536 ∧ sb_fits bs.
Proof using R. apply (cr_bs R). Qed.

Lemma pm_range p : p ∈ pm → sb_blk bs < p < JournalWriter.blocks_count w.
Proof using R. pose proof (cr_pm R) as Hp. rewrite Forall_forall in Hp. auto. Qed.

Lemma p0_in : p0 ∈ pm.
Proof using R. eapply list_elem_of_lookup_2, (cr_p0 R). Qed.

Lemma medium d : zlen (Disk.base d) = zlen img0 → medium_ok w d.
Proof using R. intros Hd. pose proof (cr_medium R). destruct bs_range. unfold medium_ok. rewrite Hd. lia. Qed.

Lemma sb_inside : (sb_blk bs + 1) * bs ≤ zlen img0 ∧ 2048 ≤ zlen img0.
Proof using R.
  destruct bs_range as [Hr Hf]. destruct (sb_geometry bs Hf) as (H0 & H1 & H2 & H3).
  pose proof (pm_range p0 p0_in). pose proof (cr_medium R).
  assert ((sb_blk bs + 1) * bs ≤ JournalWriter.blocks_count w * bs) by (apply Z.mul_le_mono_nonneg_r; lia). lia.
Qed.

(** *** The logged transaction *)

Lemma flag_write_spec jb : zlen (JournaledBlock.data jb) = bs → bytes_ok (JournaledBlock.data jb) →
  JournalWriter.keep_recovery w jb = Ok (flag_write jb) ∧
  JournaledBlock.fs_block (flag_write jb) = JournaledBlock.fs_block jb ∧
  zlen (JournaledBlock.data (flag_write jb)) = bs ∧ bytes_ok (JournaledBlock.data (flag_write jb)) ∧
  view bs (JournaledBlock.fs_block jb) (JournaledBlock.data (flag_write jb))
  = view bs (JournaledBlock.fs_block jb) (JournaledBlock.data jb).
Proof using R.
  intros Hz Hb. destruct bs_range as [Hr Hf]. destruct (sb_geometry bs Hf) as (H0 & H1 & H2 & H3).
  unfold flag_write, JournalWriter.keep_recovery, view.
  change (JournalWriter.sb_block w) with (sb_blk bs). change (JournalWriter.sb_offset_in_block w) with (sb_off bs).
  destruct (decide (JournaledBlock.fs_block jb = sb_blk bs)) as [Hs|Hs]; [|done]. cbn [JournaledBlock.fs_block JournaledBlock.data].
  rewrite slice_ok, bind_Ok by lia.
  destruct (flag_sb_spec true (sub (JournaledBlock.data jb) (sb_off bs) 1024)) as (E & Hl & _); [zl|auto with ext4|].
  rewrite E, bind_Ok, put_ok, bind_Ok by lia. rewrite Hs.
  destruct (flag_block_spec bs true (JournaledBlock.data jb) Hf Hz Hb) as (Z1 & B1 & F1).
  split_and!; [done|done|done|done|done].
Qed.

Lemma writes_ok jb : jb ∈ Transaction.writes tx →
  zlen (JournaledBlock.data jb) = bs ∧ bytes_ok (JournaledBlock.data jb) ∧
  0 ≤ JournaledBlock.fs_block jb < JournalWriter.blocks_count w ∧
  JournaledBlock.fs_block jb ∉ pm ∧ JournaledBlock.fs_block jb ∉ Transaction.revokes tx.
Proof using R.
  intros Hjb. pose proof (tx_writes _ _ (cr_tx R)) as Hw. pose proof (cr_targets R) as Ht.
  rewrite Forall_forall in Hw. rewrite Forall_forall in Ht. destruct (Hw jb Hjb) as (_ & Hb & Hz).
  assert (Hbs : Transaction.block_size tx = bs).
  { rewrite (tx_size _ _ (cr_tx R)). pose proof (cr_walkable R) as Hc. unfold check_walkable in Hc.
    case_decide; [done|]. case_match; [done|]. case_decide as Hbs; [done|]. cbn in Hbs. lia. }
  rewrite Hz, Hbs. split_and!; try done; apply Ht; unfold targets; apply list_elem_of_fmap; eauto.
Qed.

Lemma patched : JournalWriter.patched_tx w tx = Ok ptx.
Proof using R.
  unfold JournalWriter.patched_tx, ptx. rewrite (traverse_ok _ flag_write); [done|].
  intros jb Hjb. destruct (writes_ok jb Hjb) as (Hz & Hb & _). by apply flag_write_spec.
Qed.

Lemma ptx_ok : tx_ok j ptx.
Proof using R.
  destruct (cr_tx R) as [H1 H2 H3 H4 H5 H6 H7]. split; try done.
  rewrite Forall_forall in H6. apply Forall_forall. intros jb Hjb.
  unfold ptx in Hjb. cbn [Transaction.set_writes Transaction.writes] in Hjb.
  apply list_elem_of_fmap in Hjb as (jb0 & -> & Hjb0). destruct (writes_ok jb0 Hjb0) as (Hz & Hb & _).
  destruct (flag_write_spec jb0 Hz Hb) as (_ & Hf & Hz' & Hb' & _).
  destruct (H6 jb0 Hjb0) as (Hfit & _ & Hsz). rewrite Hf. split; [done|]. split; [done|].
  change (Transaction.block_size ptx) with (Transaction.block_size tx). lia.
Qed.

(** *** Steps on images *)

Lemma img0_ok : image_ok img0.
Proof using R. split; [done|apply (cr_bytes R)]. Qed.

Lemma image_inside c b : image_ok c → 0 ≤ b < JournalWriter.blocks_count w → (b + 1) * bs ≤ zlen c.
Proof using R.
  intros [Hz _] Hb. destruct bs_range. pose proof (cr_medium R).
  assert ((b + 1) * bs ≤ JournalWriter.blocks_count w * bs) by (apply Z.mul_le_mono_nonneg_r; lia). lia.
Qed.

Lemma image_blk c b : image_ok c → 0 ≤ b < JournalWriter.blocks_count w →
  zlen (blk bs c b) = bs ∧ bytes_ok (blk bs c b).
Proof using R.
  intros Hc Hb. pose proof (image_inside c b Hc Hb). destruct bs_range. destruct Hc as [_ Hbo].
  unfold Disk.blk. split; [zl|auto with ext4].
Qed.

(** Whole-block writes. *)
Lemma image_writes c ws : image_ok c → Forall (block_ok w) ws →
  image_ok (Disk.apply_writes c (Disk.block_writes bs ws)) ∧
  ∀ b, 0 ≤ b → blk bs (Disk.apply_writes c (Disk.block_writes bs ws)) b = foldl Disk.put_block (blk bs c) ws b.
Proof using R.
  intros Hc Hws. destruct bs_range as [Hr _]. split.
  - destruct Hc as [Hz Hb]. destruct (apply_writes_ok c (Disk.block_writes bs ws)) as [H1 H2]; [done| |].
    + rewrite Hz. apply (block_writes_ok w (Disk.start img0) ws); [by apply medium|done].
    + split; [by rewrite H1|done].
  - intros b Hb. apply Disk.blk_writes; [lia|done|]. eapply Forall_impl; [exact Hws|].
    intros [k x] (Hk & Hx & _). cbn in *. split; [lia|]. split; [by apply image_inside|done].
Qed.

Lemma image_write c b x : image_ok c → block_ok w (b, x) →
  image_ok (Disk.apply_writes c (Disk.block_writes bs [(b, x)])) ∧
  ∀ b', 0 ≤ b' → blk bs (Disk.apply_writes c (Disk.block_writes bs [(b, x)])) b' =
                  if decide (b = b') then x else blk bs c b'.
Proof using R. intros Hc Hx. apply image_writes; [done|]. apply Forall_cons; split; [done|apply Forall_nil_2]. Qed.

(** The flag write changes no block of the journal and no view. *)
Lemma image_nr on c : image_ok c → image_ok (nr on c) ∧
  (∀ b, 0 ≤ b → view bs b (blk bs (nr on c) b) = view bs b (blk bs c b)) ∧
  (∀ b, 0 ≤ b → b ≠ sb_blk bs → blk bs (nr on c) b = blk bs c b).
Proof using R.
  intros [Hz Hb]. destruct bs_range as [_ Hf]. pose proof sb_inside as [Hin _]. rewrite <-Hz in Hin.
  destruct (nr_spec bs on c 0 Hf ltac:(lia) Hb Hin) as (H1 & H2 & _). split_and!.
  - split; [by rewrite H1|done].
  - intros b Hb0. by apply (nr_spec bs on c b Hf Hb0 Hb Hin).
  - intros b Hb0 Hne. destruct (nr_spec bs on c b Hf Hb0 Hb Hin) as (_ & _ & E & _). by rewrite decide_False in E.
Qed.

(** The superblock bytes depend on the superblock's block alone. *)
Lemma nr_as_write on c c' : image_ok c → image_ok c' → blk bs c (sb_blk bs) = blk bs c' (sb_blk bs) →
  Disk.apply_writes c [(1024, flag_sb on (sub c' 1024 1024))] = nr on c.
Proof using R.
  intros [Hz _] [Hz' _] E. destruct bs_range as [_ Hf]. pose proof sb_inside as [Hin _].
  unfold nr. rewrite (sub_sb bs c), (sub_sb bs c'), E by (done || lia). done.
Qed.

Lemma sb_blk_journal : sb_blk bs ∉ pm.
Proof using R. intros Hin. apply pm_range in Hin. lia. Qed.

(** *** The log and the final writes *)

Definition jw : list (Z * bytes) := zip (drop 1 pm) (tx_blocks j ptx).
Definition fw : list (Z * bytes) := block_of <$> Transaction.writes ptx.

Lemma log_ok : layout_ok (layout_for j) ∧ JournalSuperblock.unsupported_incompat j = 0 ∧
  JournalSuperblock.checksum_declaration_error j = None ∧ JournalSuperblock.block_size j = bs ∧
  1 < JournalSuperblock.max_len j.
Proof using R.
  pose proof (cr_walkable R) as Hc. unfold check_walkable in Hc.
  case_decide as Hu; [done|]. destruct (JournalSuperblock.checksum_declaration_error _) eqn:Hd; [done|].
  case_decide as Hbs; [done|]. case_decide as Hg; [done|]. cbn in Hu, Hbs, Hg.
  change (JournalSuperblock.unsupported_incompat j ≠ 0) in Hu || idtac.
  change (JournalSuperblock.checksum_declaration_error j = None) in Hd.
  split; [by apply layout_for_ok|]. split_and!; [|done|lia|].
  - destruct (decide (JournalSuperblock.unsupported_incompat j = 0)) as [|Hn]; [done|]. by destruct Hu.
  - destruct (decide (1 < JournalSuperblock.max_len j)); [done|]. destruct Hg. lia.
Qed.

Lemma checks : JournalWriter.check_tx w tx = Ok () ∧ commit_for ptx j = Ok (tx_blocks j ptx).
Proof using R.
  destruct log_ok as (HL & Hu & Hd & Hbs & _). split.
  - unfold JournalWriter.check_tx. rewrite (cr_tid R), decide_False by naive_solver.
    rewrite (tx_size _ _ (cr_tx R)), Hbs, decide_False by naive_solver.
    destruct (existsb _ _) eqn:He; [|done]. apply existsb_exists in He as (jb & Hjb & Hne).
    apply list_elem_of_In in Hjb. destruct (writes_ok jb Hjb) as (Hz & _).
    by rewrite bool_decide_true in Hne.
  - by apply commit_for_eq; [apply ptx_ok| |].
Qed.

Lemma tx_blocks_nonempty : tx_blocks j ptx ≠ [].
Proof using Type. unfold tx_blocks. intros E. apply app_eq_nil in E as [_ E]. by apply app_eq_nil in E as [_ E]. Qed.

Lemma on_dev_run {A B} (m : dev_m Disk.t A) (f : A → dev_m (JournalWriter.t * Disk.t) B) v d a d' :
  m d = (Ok a, d') → (JournalWriter.on_dev m ≫= f) (v, d) = f a (v, d').
Proof using Type. intros E. apply bind_dev. unfold JournalWriter.on_dev. cbn [snd fst]. by rewrite E. Qed.

Lemma modify_run {B} g (f : unit → dev_m (JournalWriter.t * Disk.t) B) v d :
  (JournalWriter.modify g ≫= f) (v, d) = f () (g v, d).
Proof using Type. done. Qed.

(** A transaction too large for the log is refused before anything is written,
    and the writer stays healthy. *)
Lemma commit_oversized (d : Disk.t) : JournalWriter.max_blocks_per_transaction w < zlen (tx_blocks j ptx) →
  JournalWriter.commit tx (w, d) =
  (Err (Corrupt "journal_writer: transaction too large for journal"), (w, d)).
Proof using R.
  intros Hbig. destruct checks as [Hck Hcf]. unfold JournalWriter.commit, JournalWriter.the_writer.
  erewrite bind_dev; [|reflexivity]. cbn [fst]. rewrite (cr_healthy R). cbn [negb]. unfold JournalWriter.commit_inner.
  erewrite on_dev_run; [|reflexivity]. change (is_writable d) with true. cbn [negb]. unfold JournalWriter.the_writer.
  erewrite bind_dev; [|reflexivity]. cbn [fst].
  erewrite bind_dev; [|unfold dev_lift; by rewrite Hck]. erewrite bind_dev; [|unfold dev_lift; by rewrite patched].
  erewrite bind_dev; [|unfold dev_lift; by rewrite Hcf].
  rewrite decide_False by apply tx_blocks_nonempty. by rewrite decide_True by lia.
Qed.

(** From here on the transaction fits. *)
Context (F : commit_fits).

Lemma jw_map : fst <$> jw = take (length (tx_blocks j ptx)) (drop 1 pm) ∧ snd <$> jw = tx_blocks j ptx.
Proof using R F.
  pose proof (cr_fits F) as Hf. pose proof (cr_len R) as Hl. unfold zlen in *.
  assert (Hlen : (length (tx_blocks j ptx) ≤ length (drop 1 pm))%nat) by (rewrite length_drop; lia).
  unfold jw. split; [|by apply snd_zip]. rewrite <-(take_drop (length (tx_blocks j ptx)) (drop 1 pm)) at 1.
  rewrite <-(app_nil_r (tx_blocks j ptx)) at 3. rewrite zip_with_app by (rewrite length_take; lia).
  rewrite zip_with_nil_r, app_nil_r. apply fst_zip. rewrite length_take. lia.
Qed.

Lemma jw_lookup k p b : jw !! k = Some (p, b) ↔
  pm !! S k = Some p ∧ tx_blocks j ptx !! k = Some b.
Proof using Type.
  unfold jw. rewrite lookup_zip_with_Some. change 1%nat with (1 + 0)%nat. setoid_rewrite lookup_drop. split.
  - intros (p' & b' & [= <- <-] & H1 & H2). done.
  - intros [H1 H2]. eauto.
Qed.

Lemma jw_ok : Forall (block_ok w) jw.
Proof using R F.
  destruct log_ok as (HL & _ & _ & Hbs & _).
  pose proof (tx_blocks_sized j ptx HL ptx_ok) as Hsz. rewrite Forall_forall in Hsz.
  rewrite (tx_size _ _ ptx_ok), Hbs in Hsz. destruct bs_range as [Hr Hf]. destruct (sb_geometry bs Hf) as [H0 _].
  apply Forall_forall. intros [p b] Hin. apply list_elem_of_lookup in Hin as [k Hk]. apply jw_lookup in Hk as [Hp Hb].
  destruct (Hsz b (list_elem_of_lookup_2 _ _ _ Hb)) as [H1 H2].
  pose proof (pm_range p (list_elem_of_lookup_2 _ _ _ Hp)). unfold block_ok. cbn. lia || (split; [lia|done]).
Qed.

Lemma jw_journal b : b ∈ jw.*1 → b ∈ pm ∧ b ≠ p0.
Proof using R F.
  intros Hb. apply list_elem_of_fmap in Hb as ([p x] & -> & Hin). apply list_elem_of_lookup in Hin as [k Hk].
  apply jw_lookup in Hk as [Hp _]. split; [by eapply list_elem_of_lookup_2|]. cbn. intros ->.
  pose proof (NoDup_lookup _ _ _ _ (cr_nodup R) Hp (cr_p0 R)). done.
Qed.

Lemma fw_elem k x : (k, x) ∈ fw → ∃ jb, jb ∈ Transaction.writes tx ∧ k = JournaledBlock.fs_block jb ∧
  x = JournaledBlock.data (flag_write jb) ∧ view bs k x = view bs k (JournaledBlock.data jb).
Proof using R F.
  intros Hin. unfold fw, ptx in Hin. cbn [Transaction.set_writes Transaction.writes] in Hin.
  rewrite <-list_fmap_compose in Hin. apply list_elem_of_fmap in Hin as (jb & E & Hjb).
  destruct (writes_ok jb Hjb) as (Hz & Hb & _). destruct (flag_write_spec jb Hz Hb) as (_ & Hk & _ & _ & Hv).
  unfold compose, block_of in E. injection E as -> ->. exists jb. by rewrite Hk.
Qed.

Lemma fw_ok : Forall (block_ok w) fw.
Proof using R F.
  apply Forall_forall. intros [k x] Hin. destruct (fw_elem k x Hin) as (jb & Hjb & -> & -> & _).
  destruct (writes_ok jb Hjb) as (Hz & Hb & Hr & _). destruct (flag_write_spec jb Hz Hb) as (_ & _ & Hz' & Hb' & _).
  unfold block_ok. by cbn.
Qed.

Lemma fw_targets k x : (k, x) ∈ fw → k ∉ pm.
Proof using R F. intros Hin. destruct (fw_elem k x Hin) as (jb & Hjb & -> & _). by apply (writes_ok jb Hjb). Qed.

(** Seen from outside the journal, the logged writes are the transaction's. *)
Lemma view_fw m m' b : view bs b (m b) = view bs b (m' b) →
  view bs b (foldl Disk.put_block m fw b) =
  view bs b (foldl Disk.put_block m' (block_of <$> Transaction.writes tx) b).
Proof using R F.
  unfold fw, ptx. cbn [Transaction.set_writes Transaction.writes]. rewrite <-list_fmap_compose.
  assert (Hws : ∀ jb, jb ∈ Transaction.writes tx → jb ∈ Transaction.writes tx) by done. revert Hws.
  generalize (Transaction.writes tx) at 1 3 4 as ws. intros ws Hws Hm. revert Hws.
  induction ws as [|jb ws IH] using rev_ind; intros Hws; [done|].
  rewrite !fmap_app, !foldl_app. cbn [fmap list_fmap foldl].
  destruct (writes_ok jb (Hws jb ltac:(set_solver))) as (Hz & Hb & _).
  destruct (flag_write_spec jb Hz Hb) as (_ & Hk & _ & _ & Hv).
  change ((block_of ∘ flag_write) jb) with (JournaledBlock.fs_block (flag_write jb), JournaledBlock.data (flag_write jb)).
  change (block_of jb) with (JournaledBlock.fs_block jb, JournaledBlock.data jb). rewrite Hk.
  unfold Disk.put_block at 1 3. cbn [fst snd].
  case_decide as Hd; [by subst b|]. apply IH. set_solver.
Qed.

(** *** Images that differ only in the journal superblock and the flag *)

Definition alike (c c' : bytes) : Prop :=
  image_ok c' ∧ ∀ b, 0 ≤ b → b ≠ p0 → view bs b (blk bs c' b) = view bs b (blk bs c b).

(** The log holds the transaction. *)
Definition logged (c : bytes) : Prop :=
  image_ok c ∧ ∀ b, b ∈ pm → b ≠ p0 → blk bs c b = foldl Disk.put_block (blk bs img0) jw b.

Definition jsb_is (c : bytes) (s n : Z) : Prop :=
  ∃ ck, JournalSuperblock.parse (blk bs c p0) = Ok (on_disk s n ck j).

Lemma view_journal b x : b ∈ pm → view bs b x = x.
Proof using R F. intros Hb. unfold view. rewrite decide_False; [done|]. intros ->. by apply sb_blk_journal. Qed.

Lemma not_p0 b : b ∉ pm → b ≠ p0.
Proof using R F. intros Hb ->. apply Hb, p0_in. Qed.

Lemma alike_old c c' : alike c c' → old c → old c'.
Proof using R F. intros [Hc' E] [_ Ho]. split; [done|]. intros b H0 Hb. rewrite E by auto using not_p0. auto. Qed.

Lemma alike_new c c' : alike c c' → new c → new c'.
Proof using R F. intros [Hc' E] [_ Ho]. split; [done|]. intros b H0 Hb. rewrite E by auto using not_p0. auto. Qed.

Lemma alike_mixed c c' : alike c c' → mixed c → mixed c'.
Proof using R F. intros [Hc' E] [_ Ho]. split; [done|]. intros b H0 Hb. rewrite E by auto using not_p0. auto. Qed.

Lemma pm_nonneg b : b ∈ pm → 0 ≤ b.
Proof using R F. intros Hb%pm_range. destruct bs_range as [_ Hf]. destruct (sb_geometry bs Hf). lia. Qed.

Lemma alike_logged c c' : alike c c' → logged c → logged c'.
Proof using R F.
  intros [Hc' E] [_ Ho]. split; [done|]. intros b Hb Hne. rewrite <-Ho by done.
  rewrite <-(view_journal b (blk bs c' b)), <-(view_journal b (blk bs c b)) by done.
  apply E; [by apply pm_nonneg|done].
Qed.

Lemma alike_nr on c : image_ok c → alike c (nr on c) ∧ blk bs (nr on c) p0 = blk bs c p0.
Proof using R F.
  intros Hc. destruct (image_nr on c Hc) as (H1 & H2 & H3). split; [split; [done|auto]|].
  apply H3; [apply pm_nonneg, p0_in|]. intros E. apply sb_blk_journal. rewrite <-E. apply p0_in.
Qed.

Lemma p0_block x : zlen x = bs → bytes_ok x → Forall (block_ok w) [(p0, x)].
Proof using R F.
  intros Hz Hb. apply Forall_cons; split; [|apply Forall_nil_2]. pose proof (pm_range p0 p0_in).
  pose proof (pm_nonneg p0 p0_in). unfold block_ok. by cbn; split_and!; try lia.
Qed.

Lemma alike_jsb c x : image_ok c → zlen x = bs → bytes_ok x →
  alike c (Disk.apply_writes c (Disk.block_writes bs [(p0, x)])) ∧
  blk bs (Disk.apply_writes c (Disk.block_writes bs [(p0, x)])) p0 = x.
Proof using R F.
  intros Hc Hz Hb. pose proof (p0_block x Hz Hb) as Hx. apply Forall_cons in Hx as [Hx _].
  destruct (image_write c p0 x Hc Hx) as [H1 H2]. split; [split; [done|]|].
  - intros b H0 Hne. rewrite H2 by done. by rewrite decide_False by done.
  - rewrite H2 by apply pm_nonneg, p0_in. by rewrite decide_True by done.
Qed.

Lemma old_mixed c : old c → mixed c.
Proof using Type. intros [Hc Ho]. split; [done|]. intros b H0 Hb. left. auto. Qed.

Lemma new_mixed c : new c → mixed c.
Proof using Type.
  intros [Hc Ho]. split; [done|]. intros b H0 Hb. rewrite Ho by done.
  destruct (Disk.put_blocks_cases (block_of <$> Transaction.writes tx) (blk bs img0) b) as [->|Hin]; [by left|right].
  apply list_elem_of_fmap in Hin as (jb & E & Hjb). injection E as E1 E2. exists jb. rewrite E2. done.
Qed.

(** *** The writes of each step, any subset of them *)

Lemma log_subset ws : ws `sublist_of` jw →
  let c := Disk.apply_writes img0 (Disk.block_writes bs ws) in
  old c ∧ blk bs c p0 = blk bs img0 p0 ∧ blk bs c (sb_blk bs) = blk bs img0 (sb_blk bs).
Proof using R F.
  intros Hs c. destruct (image_writes img0 ws img0_ok) as [H1 H2].
  { rewrite Forall_forall. intros x Hx. pose proof jw_ok as Hj. rewrite Forall_forall in Hj.
    apply Hj. by eapply elem_of_sublist. }
  assert (Hout : ∀ b, 0 ≤ b → b ∉ pm ∨ b = p0 → blk bs c b = blk bs img0 b).
  { intros b H0 Hb. unfold c. rewrite H2 by done. apply Disk.put_blocks_other. intros Hin.
    assert (Hin' : b ∈ jw.*1).
    { apply list_elem_of_fmap in Hin as (x & -> & Hx). apply list_elem_of_fmap. exists x. split; [done|].
      by eapply elem_of_sublist. }
    apply jw_journal in Hin'. naive_solver. }
  split; [split; [done|]|].
  - intros b H0 Hb. by rewrite Hout by auto.
  - split; apply Hout; auto using pm_nonneg, p0_in, sb_blk_journal.
    destruct bs_range as [_ Hf]. by destruct (sb_geometry bs Hf).
Qed.

Lemma log_written : logged (Disk.apply_writes img0 (Disk.block_writes bs jw)).
Proof using R F.
  destruct (image_writes img0 jw img0_ok jw_ok) as [H1 H2]. split; [done|]. intros b Hb _. apply H2. by apply pm_nonneg.
Qed.

Lemma final_subset a ws : mixed a → logged a → ws `sublist_of` fw →
  let c := Disk.apply_writes a (Disk.block_writes bs ws) in
  mixed c ∧ logged c ∧ blk bs c p0 = blk bs a p0.
Proof using R F.
  intros Ho Hl Hs c.
  assert (Hin : ∀ x, x ∈ ws → x ∈ fw) by (intros x Hx; by eapply elem_of_sublist).
  destruct (image_writes a ws (proj1 Ho)) as [H1 H2].
  { rewrite Forall_forall. intros x Hx. pose proof fw_ok as Hj. rewrite Forall_forall in Hj. auto. }
  assert (Hj : ∀ b, b ∈ pm → blk bs c b = blk bs a b).
  { intros b Hb. unfold c. rewrite H2 by by apply pm_nonneg. apply Disk.put_blocks_other. intros Hk.
    apply list_elem_of_fmap in Hk as ([k x] & -> & Hx). by apply (fw_targets k x); [apply Hin|]. }
  split; [split; [done|]|split; [split; [done|]|]].
  - intros b H0 Hb. unfold c. rewrite H2 by done. destruct (Disk.put_blocks_cases ws (blk bs a) b) as [->|Hk].
    + by apply Ho.
    + right. destruct (fw_elem _ _ (Hin _ Hk)) as (jb & Hjb & -> & _ & Hv). eauto.
  - intros b Hb Hne. rewrite Hj by done. by apply Hl.
  - apply Hj, p0_in.
Qed.

Lemma final_written a : mixed a → new (Disk.apply_writes a (Disk.block_writes bs fw)).
Proof using R F.
  intros [Ha Hm]. destruct (image_writes a fw Ha fw_ok) as [H1 H2]. split; [done|].
  intros b H0 Hb. rewrite H2 by done. rewrite <-(view_fw (blk bs img0)) by done.
  destruct (decide (b ∈ fw.*1)) as [Hin|Hin]; [by rewrite (Disk.put_blocks_hit _ _ (blk bs img0))|].
  rewrite !Disk.put_blocks_other by done. destruct (Hm b H0 Hb) as [E|(jb & Hjb & Hk & _)]; [done|].
  destruct Hin. destruct (writes_ok jb Hjb) as (Hz & Hbo & _). destruct (flag_write_spec jb Hz Hbo) as (_ & Hf & _).
  unfold fw, ptx. cbn [Transaction.set_writes Transaction.writes]. rewrite <-!list_fmap_compose.
  apply list_elem_of_fmap. exists jb. split; [|done]. unfold compose, block_of. cbn. by rewrite Hf.
Qed.

(** *** The commit on the recording disk *)

(** The flag write a step ends with, made on the contents [c]. *)
Definition flag_at (on : bool) (c : bytes) : Z * bytes := (1024, flag_sb on (sub c 1024 1024)).

Definition c1 : bytes := nr true (Disk.apply_writes img0 (Disk.block_writes bs jw)).
Definition put_jsb (c buf : bytes) : bytes := Disk.apply_writes c (Disk.block_writes bs [(p0, buf)]).
Definition c3 (buf1 : bytes) : bytes := Disk.apply_writes (put_jsb c1 buf1) (Disk.block_writes bs fw).

(** What the device is sent: four fenced steps. *)
Definition trace (buf1 buf2 : bytes) : list Disk.event :=
  Disk.epoch (Disk.block_writes bs jw ++
    [flag_at true (Disk.apply_writes img0 (Disk.block_writes bs jw))]) ++
  Disk.epoch (Disk.block_writes bs [(p0, buf1)]) ++
  Disk.epoch (Disk.block_writes bs fw) ++
  Disk.epoch (Disk.block_writes bs [(p0, buf2)] ++
    if JournalWriter.hold_needs_recovery w then [] else [flag_at false (put_jsb (c3 buf1) buf2)]).

(** [buf] is the journal superblock of [j] moved to [(s, n)]. *)
Definition jsb_block (buf : bytes) (s n : Z) : Prop :=
  zlen buf = bs ∧ bytes_ok buf ∧ ∃ ck, JournalSuperblock.parse buf = Ok (on_disk s n ck j).

Lemma c1_ok : old c1 ∧ logged c1 ∧ blk bs c1 p0 = blk bs img0 p0.
Proof using R F.
  destruct (log_subset jw (reflexivity jw)) as (Ho & Hp & _).
  destruct (alike_nr true _ (proj1 Ho)) as [Ha Hp']. split_and!.
  - by eapply alike_old.
  - eapply alike_logged; [exact Ha|apply log_written].
  - by rewrite <-Hp.
Qed.

Lemma put_jsb_ok c buf s n : image_ok c → jsb_block buf s n →
  alike c (put_jsb c buf) ∧ jsb_is (put_jsb c buf) s n.
Proof using R F.
  intros Hc (Hz & Hb & ck & E). destruct (alike_jsb c buf Hc Hz Hb) as [Ha Hp]. split; [done|].
  exists ck. unfold put_jsb. by rewrite Hp.
Qed.

Lemma c3_ok buf1 : jsb_block buf1 1 seq → new (c3 buf1) ∧ logged (c3 buf1) ∧ jsb_is (c3 buf1) 1 seq.
Proof using R F.
  intros Hj. destruct c1_ok as (Ho & Hl & _). destruct (put_jsb_ok c1 buf1 _ _ (proj1 Ho) Hj) as [Ha (ck & E)].
  pose proof (alike_old _ _ Ha Ho) as Ho2. pose proof (alike_logged _ _ Ha Hl) as Hl2.
  pose proof (old_mixed _ Ho2) as Hm2. destruct (final_subset _ fw Hm2 Hl2 (reflexivity fw)) as (_ & H2 & Hp).
  split; [by apply final_written|]. split; [done|]. exists ck. unfold c3. by rewrite Hp.
Qed.

(** *** What a power failure can leave behind *)

(** The journal superblock says there is nothing to replay. *)
Definition clean (c : bytes) : Prop :=
  ∃ j', JournalSuperblock.parse (blk bs c p0) = Ok j' ∧ JournalSuperblock.start j' = 0.

Inductive outcome (c : bytes) : Prop :=
  | before : old c → clean c → outcome c
  | during : mixed c → logged c → jsb_is c 1 seq → outcome c
  | after : new c → clean c → outcome c.

Lemma jsb_is_clean c n : jsb_is c 0 n → clean c.
Proof using Type. intros (ck & E). by eexists. Qed.

Lemma singleton_subset {A} (x : A) l : l `sublist_of` [x] → l = [] ∨ l = [x].
Proof using Type.
  intros Hs. apply sublist_cons_r in Hs as [Hs|(k & -> & Hs)]; apply sublist_nil_r in Hs as ->; auto.
Qed.

Lemma flag_subset on c c' l : image_ok c → image_ok c' → blk bs c (sb_blk bs) = blk bs c' (sb_blk bs) →
  l `sublist_of` [flag_at on c'] → Disk.apply_writes c l = c ∨ Disk.apply_writes c l = nr on c.
Proof using R F.
  intros Hc Hc' E Hl. destruct (singleton_subset _ _ Hl) as [->| ->]; [by left|right]. by apply nr_as_write.
Qed.

Lemma jsb_subset c buf l : l `sublist_of` Disk.block_writes bs [(p0, buf)] →
  Disk.apply_writes c l = c ∨ Disk.apply_writes c l = put_jsb c buf.
Proof using Type. intros Hl. destruct (singleton_subset _ _ Hl) as [->| ->]; [by left|by right]. Qed.

Lemma outcome_nr on c : image_ok c → outcome c → outcome (nr on c).
Proof using R F.
  intros Hc Ho. destruct (alike_nr on c Hc) as [Ha Hp]. destruct Ho as [H1 H2|H1 H2 (ck & E)|H1 H2].
  - apply before; [by eapply alike_old|unfold clean; by rewrite Hp].
  - apply during; [by eapply alike_mixed|by eapply alike_logged|exists ck; by rewrite Hp].
  - apply after; [by eapply alike_new|unfold clean; by rewrite Hp].
Qed.

Lemma crash_outcome buf1 buf2 c : jsb_block buf1 1 seq → jsb_block buf2 0 (as_u32 (seq + 1)) →
  Disk.crash img0 (trace buf1 buf2) c → outcome c.
Proof using R F.
  intros Hj1 Hj2 Hc. destruct c1_ok as (Ho1 & Hl1 & Hp1).
  destruct (put_jsb_ok c1 buf1 _ _ (proj1 Ho1) Hj1) as [Ha2 Hs2].
  destruct (c3_ok buf1 Hj1) as (Hn3 & Hl3 & Hs3).
  destruct (put_jsb_ok (c3 buf1) buf2 _ _ (proj1 Hn3) Hj2) as [Ha4 Hs4].
  assert (Hd : clean img0) by (exists j; split; [apply (cr_disk R)|apply (cr_clean R)]).
  assert (Hdirty3 : outcome (c3 buf1)) by (apply during; [by apply new_mixed|done|done]).
  assert (Hclean4 : outcome (put_jsb (c3 buf1) buf2)) by (apply after; [by eapply alike_new|by eapply jsb_is_clean]).
  unfold trace in Hc. apply Disk.crash_epoch in Hc as [(kept & Hs & ->)|Hc].
  { (* step 1: nothing points at the log *)
    apply sublist_app_r in Hs as (l1 & l2 & -> & H1 & H2). rewrite Disk.apply_writes_app.
    apply Disk.block_writes_sublist in H1 as (ws & Hws & ->).
    destruct (log_subset ws Hws) as (Ho & Hp & Hsb). destruct (log_subset jw (reflexivity jw)) as (Ho' & _ & Hsb').
    assert (outcome (Disk.apply_writes img0 (Disk.block_writes bs ws))) by (apply before; [done|unfold clean; by rewrite Hp]).
    destruct (flag_subset true (Disk.apply_writes img0 (Disk.block_writes bs ws)) _ l2 (proj1 Ho) (proj1 Ho')
                (eq_trans Hsb (eq_sym Hsb')) H2) as [->| ->]; [done|]. by apply outcome_nr; [apply Ho|]. }
  rewrite Disk.apply_writes_app in Hc. unfold flag_at in Hc.
  destruct (log_subset jw (reflexivity jw)) as (Ho' & _ & _).
  rewrite nr_as_write in Hc by (apply Ho' || done). fold c1 in Hc.
  apply Disk.crash_epoch in Hc as [(kept & Hs & ->)|Hc].
  { (* step 2: the journal superblock is whole or absent *)
    destruct (jsb_subset c1 buf1 kept Hs) as [->| ->]; [apply before; [done|unfold clean; by rewrite Hp1]|].
    apply during; [apply old_mixed; by eapply alike_old|by eapply alike_logged|done]. }
  fold (put_jsb c1 buf1) in Hc. apply Disk.crash_epoch in Hc as [(kept & Hs & ->)|Hc].
  { (* step 3: the log covers every block being written *)
    apply Disk.block_writes_sublist in Hs as (ws & Hws & ->).
    destruct (final_subset (put_jsb c1 buf1) ws) as (H1 & H2 & Hp); [by eapply old_mixed, alike_old|by eapply alike_logged|done|].
    destruct Hs2 as (ck & E). apply during; [done|done|exists ck; by rewrite Hp]. }
  fold (c3 buf1) in Hc. rewrite <-(app_nil_r (Disk.epoch _)) in Hc.
  assert (Hsub : ∀ kept, kept `sublist_of` Disk.block_writes bs [(p0, buf2)] ++
      (if JournalWriter.hold_needs_recovery w then [] else [flag_at false (put_jsb (c3 buf1) buf2)]) →
    outcome (Disk.apply_writes (c3 buf1) kept)).
  { intros kept Hs. apply sublist_app_r in Hs as (l1 & l2 & -> & H1 & H2). rewrite Disk.apply_writes_app.
    assert (Hl2 : l2 `sublist_of` [flag_at false (put_jsb (c3 buf1) buf2)]).
    { destruct (JournalWriter.hold_needs_recovery w); [|done]. apply sublist_nil_r in H2 as ->. apply sublist_nil_l. }
    destruct (jsb_subset (c3 buf1) buf2 l1 H1) as [->| ->].
    - destruct (flag_subset false (c3 buf1) _ l2 (proj1 Hn3) (proj1 Ha4)) with (2 := Hl2) as [->| ->]; [|done|].
      + destruct (image_write (c3 buf1) p0 buf2 (proj1 Hn3)) as [_ E].
        { pose proof (p0_block buf2 (proj1 Hj2) (proj1 (proj2 Hj2))) as Hb. by apply Forall_cons in Hb as [Hb _]. }
        destruct bs_range as [_ Hf]. unfold put_jsb. rewrite E by by destruct (sb_geometry bs Hf).
        rewrite decide_False; [done|]. intros Hp. apply sb_blk_journal. rewrite <-Hp. apply p0_in.
      + by apply outcome_nr; [apply Hn3|].
    - destruct (flag_subset false (put_jsb (c3 buf1) buf2) _ l2 (proj1 Ha4) (proj1 Ha4) eq_refl Hl2) as [->| ->]; [done|].
      by apply outcome_nr; [apply Ha4|]. }
  apply Disk.crash_epoch in Hc as [(kept & Hs & ->)|Hc]; [by apply Hsub|].
  apply Disk.crash_nil in Hc as ->. apply Hsub. done.
Qed.

(** *** The run *)



(** The disk at a given image. *)
Definition disk_at (d : Disk.t) (c : bytes) : Prop :=
  zlen (Disk.base d) = zlen img0 ∧ Disk.contents d = c ∧ image_ok c.

Lemma disk_at_ok d c : disk_at d c → disk_ok d ∧ medium_ok w d ∧ 2048 ≤ zlen (Disk.base d).
Proof using R F.
  intros (Hb & Hc & Hz & Ho). pose proof sb_inside. split_and!; [|by apply medium|rewrite Hb; lia].
  unfold disk_ok. by rewrite Hc, Hb.
Qed.

Lemma disk_at_record d c ws : disk_at d c → image_ok (Disk.apply_writes c ws) →
  disk_at (record_all ws d) (Disk.apply_writes c ws).
Proof using Type. intros (Hb & Hc & _) Ho. split_and!; [done|by rewrite contents_record_all, Hc|done]. Qed.

Lemma disk_at_flush d c : disk_at d c → disk_at (Disk.record Disk.EvFlush d) c.
Proof using Type. intros (Hb & Hc & Ho). split_and!; [done|by rewrite contents_flush|done]. Qed.

Lemma run_flag on d c : disk_at d c →
  write_needs_recovery on d = (Ok (), record_all [flag_at on c] d) ∧ disk_at (record_all [flag_at on c] d) (nr on c).
Proof using R F.
  intros Hd. destruct (disk_at_ok d c Hd) as (H1 & _ & H2).
  destruct (write_needs_recovery_disk on d H1 H2) as (E & _ & Hc). destruct Hd as (Hb & Hcc & Ho).
  unfold flag_at. rewrite Hcc in *. split; [exact E|]. split_and!; [done|done|by apply image_nr].
Qed.

(** The journal superblock moved to [(s, n)], over one that parses as [j]. *)
Lemma run_jsb w' d c s0 n0 ck : disk_at d c →
  JournalWriter.physical_map w' = pm → JournalWriter.block_size w' = bs →
  JournalWriter.blocks_count w' = JournalWriter.blocks_count w →
  JournalSuperblock.block_type (JournalWriter.jsb w') = JournalSuperblock.block_type j →
  u32_ok (JournalSuperblock.start (JournalWriter.jsb w')) →
  u32_ok (JournalSuperblock.sequence (JournalWriter.jsb w')) →
  JournalSuperblock.parse (blk bs c p0) = Ok (on_disk s0 n0 ck j) ∨ JournalSuperblock.parse (blk bs c p0) = Ok j →
  ∃ buf, jsb_block buf (JournalSuperblock.start (JournalWriter.jsb w')) (JournalSuperblock.sequence (JournalWriter.jsb w')) ∧
    JournalWriter.write_jsb w' d = (Ok (), record_all (Disk.block_writes bs [(p0, buf)]) d) ∧
    disk_at (record_all (Disk.block_writes bs [(p0, buf)]) d) (put_jsb c buf).
Proof using R F.
  intros Hd Hpm Hbs Hbc Hbt Hs Hn Hp. destruct (disk_at_ok d c Hd) as (H1 & H2 & _).
  destruct bs_range as [Hr Hf]. pose proof Hd as (Hb & Hc & Ho).
  pose proof (pm_range p0 p0_in) as Hp0. pose proof (pm_nonneg p0 p0_in).
  destruct (image_blk c p0 Ho ltac:(lia)) as [Hz _].
  assert (Hj : ∃ s1 n1 ck1 h1, is_jsb (blk bs c p0) ∧ decode_jsb (blk bs c p0) =
     JournalSuperblock.mk (JournalSuperblock.block_type j) h1
    (JournalSuperblock.block_size j) (JournalSuperblock.max_len j) (JournalSuperblock.first j)
    n1 s1 (JournalSuperblock.errno j) (JournalSuperblock.feature_compat j)
    (JournalSuperblock.feature_incompat j) (JournalSuperblock.feature_ro_compat j)
    (JournalSuperblock.uuid j) (JournalSuperblock.nr_users j) (JournalSuperblock.checksum_type j)
    (JournalSuperblock.num_fc_blocks j) ck1).
  { destruct Hp as [Hp|Hp]; apply parse_jsb in Hp as [Hj E]; try lia; rewrite <-E.
    - by exists s0, n0, ck, n0.
    - exists (JournalSuperblock.start j), seq, (JournalSuperblock.checksum j), (JournalSuperblock.header_sequence j).
      split; [done|]. by destruct (JournalWriter.jsb w). }
  destruct Hj as (s1 & n1 & ck1 & h1 & Hj & E).
  destruct (write_jsb_disk w' p0 d) as (buf & ck' & E' & Hl & Hbo & Hparse).
  - unfold medium_ok. rewrite Hbs, Hbc. exact H2.
  - done.
  - rewrite Hbs. lia.
  - rewrite Hpm. apply (cr_p0 R).
  - rewrite Hbc. lia.
  - by rewrite Hbs, Hc.
  - rewrite Hbs, Hc, Hbt. by apply (f_equal JournalSuperblock.block_type) in E.
  - done.
  - done.
  - rewrite Hbs, ?Hc in *. exists buf.
    assert (Hjb : jsb_block buf (JournalSuperblock.start (JournalWriter.jsb w')) (JournalSuperblock.sequence (JournalWriter.jsb w'))).
    { split; [done|]. split; [done|]. exists ck'. by rewrite Hparse, E. }
    split; [done|]. split; [done|]. apply disk_at_record; [done|].
    by destruct (put_jsb_ok c buf _ _ Ho Hjb) as [[? _] _].
Qed.

(** The writer after a commit. *)
Definition committed : JournalWriter.t :=
  JournalWriter.set_healthy true
    (JournalWriter.set_jsb (JournalWriter.at_log 0 (as_u32 (seq + 1)) j) (JournalWriter.set_healthy false w)).

Lemma seq_ok : u32_ok seq ∧ u32_ok (as_u32 (seq + 1)).
Proof using R F.
  split; [rewrite <-(cr_tid R); apply (tx_seq _ _ (cr_tx R))|]. unfold u32_ok. apply Z.mod_pos_bound. lia.
Qed.

Lemma start_disk : disk_at (Disk.start img0) img0.
Proof using R F. split_and!; [done|done|apply img0_ok]. Qed.

(** The device steps of a commit, in order. *)
Lemma device_steps :
  let dirty := JournalWriter.set_jsb (JournalWriter.at_log 1 seq j) (JournalWriter.set_healthy false w) in
  let clean := JournalWriter.set_jsb (JournalWriter.at_log 0 (as_u32 (seq + 1)) j) (JournalWriter.set_healthy false w) in
  ∃ buf1 buf2 d1 d2 d3 d4 d5 d6 d7,
    jsb_block buf1 1 seq ∧ jsb_block buf2 0 (as_u32 (seq + 1)) ∧
    JournalWriter.write_log w 1 (tx_blocks j ptx) (Disk.start img0) = (Ok (), d1) ∧
    write_needs_recovery true d1 = (Ok (), d2) ∧
    JournalWriter.write_jsb dirty (Disk.record Disk.EvFlush d2) = (Ok (), d3) ∧
    JournalWriter.write_final dirty (Transaction.writes ptx) (Disk.record Disk.EvFlush d3) = (Ok (), d4) ∧
    JournalWriter.write_jsb clean (Disk.record Disk.EvFlush d4) = (Ok (), d5) ∧
    (if JournalWriter.hold_needs_recovery w then mret () else write_needs_recovery false) d5 = (Ok (), d6) ∧
    d7 = Disk.record Disk.EvFlush d6 ∧ d7 = Disk.mk img0 (trace buf1 buf2) ∧
    new (Disk.contents d7) ∧ jsb_is (Disk.contents d7) 0 (as_u32 (seq + 1)).
Proof using R F.
  intros dirty clean. destruct seq_ok as [Hs Hs1]. pose proof start_disk as Hd0.
  destruct (disk_at_ok _ _ Hd0) as (_ & Hm0 & _).
  destruct (image_writes img0 jw img0_ok jw_ok) as [Hi1 _].
  set (x1 := Disk.apply_writes img0 (Disk.block_writes bs jw)) in *.
  set (d1 := record_all (Disk.block_writes bs jw) (Disk.start img0)).
  assert (E1 : JournalWriter.write_log w 1 (tx_blocks j ptx) (Disk.start img0) = (Ok (), d1)).
  { apply (write_log_disk w 1 (tx_blocks j ptx) (Disk.start img0) Hm0); [lia|apply jw_ok|].
    change (Z.to_nat 1) with 1%nat. pose proof (cr_fits F). pose proof (cr_len R). unfold zlen in *. lia. }
  assert (Hd1 : disk_at d1 x1) by (by apply disk_at_record).
  destruct (run_flag true d1 x1 Hd1) as [E2 Hd2]. fold c1 in Hd2. apply disk_at_flush in Hd2.
  destruct c1_ok as (Ho1 & Hl1 & Hp1).
  destruct (run_jsb dirty _ c1 0 0 0 Hd2 eq_refl eq_refl eq_refl eq_refl) as (buf1 & Hb1 & E3 & Hd3);
    [by_compute|exact Hs|right; rewrite Hp1; apply (cr_disk R)|].
  apply disk_at_flush in Hd3. destruct (disk_at_ok _ _ Hd3) as (_ & Hm3 & _).
  pose proof (write_final_disk dirty (Transaction.writes ptx) _ Hm3 fw_ok) as E4.
  destruct (put_jsb_ok c1 buf1 _ _ (proj1 Ho1) Hb1) as [Ha2 _].
  destruct (image_writes (put_jsb c1 buf1) fw (proj1 Ha2) fw_ok) as [Hi4 _].
  pose proof (disk_at_record _ _ _ Hd3 Hi4) as Hd4. apply disk_at_flush in Hd4. fold (c3 buf1) in Hd4.
  destruct (c3_ok buf1 Hb1) as (Hn3 & _ & (ck3 & Hj3)).
  destruct (run_jsb clean _ (c3 buf1) 1 seq ck3 Hd4 eq_refl eq_refl eq_refl eq_refl) as (buf2 & Hb2 & E5 & Hd5);
    [by_compute|exact Hs1|by left|].
  destruct (put_jsb_ok (c3 buf1) buf2 _ _ (proj1 Hn3) Hb2) as [Ha4 Hj4].
  pose proof (alike_new _ _ Ha4 Hn3) as Hn4.
  destruct (run_flag false _ _ Hd5) as [E6 Hd6].
  set (last := if JournalWriter.hold_needs_recovery w then [] else [flag_at false (put_jsb (c3 buf1) buf2)]).
  match type of Hd5 with disk_at ?d _ => set (d5 := d) in * end.
  exists buf1, buf2. do 5 eexists. exists (record_all last d5), (Disk.record Disk.EvFlush (record_all last d5)).
  split; [exact Hb1|]. split; [exact Hb2|]. split; [exact E1|]. split; [exact E2|]. split; [exact E3|].
  split; [exact E4|]. split; [exact E5|]. split; [|split; [done|split]].
  - unfold last. destruct (JournalWriter.hold_needs_recovery w); [by rewrite record_all_nil|exact E6].
  - unfold d5, d1. rewrite !record_all_app. repeat (rewrite record_epoch; cbn [Disk.base Disk.events]).
    unfold trace. fold last. by rewrite <-!app_assoc.
  - assert (Hfin : ∀ d, disk_at d (put_jsb (c3 buf1) buf2) ∨ disk_at d (nr false (put_jsb (c3 buf1) buf2)) →
      new (Disk.contents d) ∧ jsb_is (Disk.contents d) 0 (as_u32 (seq + 1))).
    { destruct (alike_nr false _ (proj1 Ha4)) as [Han Hpn]. intros d [(_ & -> & _)|(_ & -> & _)]; [done|].
      split; [by eapply alike_new|]. destruct Hj4 as (ck & Hj4). exists ck. by rewrite Hpn. }
    apply Hfin. unfold last. destruct (JournalWriter.hold_needs_recovery w); [left|right]; apply disk_at_flush;
      [by rewrite record_all_nil|done].
Qed.

Lemma commit_run : ∃ buf1 buf2, jsb_block buf1 1 seq ∧ jsb_block buf2 0 (as_u32 (seq + 1)) ∧
  let d' := Disk.mk img0 (trace buf1 buf2) in
  JournalWriter.commit tx (w, Disk.start img0) = (Ok (), (committed, d')) ∧
  new (Disk.contents d') ∧ jsb_is (Disk.contents d') 0 (as_u32 (seq + 1)).
Proof using R F.
  destruct device_steps as (buf1 & buf2 & d1 & d2 & d3 & d4 & d5 & d6 & d7 & Hb1 & Hb2 & E1 & E2 & E3 & E4 & E5 & E6 & E7 & -> & Hn).
  exists buf1, buf2. split; [done|]. split; [done|]. intros d'. split; [|done].
  destruct checks as [Hck Hcf].
  assert (Hfit : zlen (tx_blocks j ptx) ≤ JournalWriter.max_blocks_per_transaction w)
    by (unfold JournalWriter.max_blocks_per_transaction, saturating_sub; pose proof (cr_fits F); lia).
  unfold JournalWriter.commit, JournalWriter.the_writer. erewrite bind_dev; [|reflexivity]. cbn [fst].
  rewrite (cr_healthy R). cbn [negb]. unfold JournalWriter.commit_inner.
  erewrite on_dev_run; [|reflexivity]. change (is_writable (Disk.start img0)) with true. cbn [negb]. unfold JournalWriter.the_writer.
  erewrite bind_dev; [|reflexivity]. cbn [fst].
  erewrite bind_dev; [|unfold dev_lift; by rewrite Hck]. erewrite bind_dev; [|unfold dev_lift; by rewrite patched].
  erewrite bind_dev; [|unfold dev_lift; by rewrite Hcf].
  rewrite decide_False by apply tx_blocks_nonempty. rewrite decide_False by lia.
  rewrite modify_run.
  erewrite on_dev_run; [|exact E1]. erewrite on_dev_run; [|exact E2]. erewrite on_dev_run; [|apply flush_disk].
  cbv zeta. rewrite modify_run.
  erewrite on_dev_run; [|exact E3]. erewrite on_dev_run; [|apply flush_disk].
  erewrite on_dev_run; [|exact E4]. erewrite on_dev_run; [|apply flush_disk].
  rewrite modify_run.
  erewrite on_dev_run; [|exact E5].
  assert (E6' : ∀ v, (if JournalWriter.hold_needs_recovery w then mret () else JournalWriter.on_dev (write_needs_recovery false)) (v, d5)
    = (Ok (), (v, d6))).
  { intros v. destruct (JournalWriter.hold_needs_recovery w); [by injection E6 as ->|].
    unfold JournalWriter.on_dev. cbn [fst snd]. by rewrite E6. }
  erewrite bind_dev; [|apply E6']. erewrite on_dev_run; [|apply flush_disk]. by rewrite <-E7.
Qed.

(** ** Recovery *)

Section mount.
Context (fs : Filesystem.t) (M : mount_ready fs).

Lemma read_image c p n : image_ok c → 0 ≤ p < JournalWriter.blocks_count w → 0 ≤ n ≤ bs →
  rd_read (image_reader c) (p * bs) n = Ok (sub c (p * bs) n).
Proof using R F.
  intros Hc Hp Hn. pose proof (image_inside c p Hc Hp). destruct bs_range as [Hr _].
  assert (0 ≤ p * bs) by (apply Z.mul_nonneg_nonneg; lia). cbn. by rewrite decide_True by lia.
Qed.

Lemma offset_u64 c p : image_ok c → 0 ≤ p < JournalWriter.blocks_count w → as_u64 (p * bs) = p * bs.
Proof using R F.
  intros Hc Hp. pose proof (image_inside c p Hc Hp). destruct bs_range as [Hr _]. pose proof (cr_medium R).
  destruct Hc as [Hz _]. unfold as_u64. apply Z.mod_small. split; [apply Z.mul_nonneg_nonneg; lia|lia].
Qed.

Lemma p0_range : 0 ≤ p0 < JournalWriter.blocks_count w.
Proof using R F. pose proof (pm_range p0 p0_in). pose proof (pm_nonneg p0 p0_in). lia. Qed.

Lemma offset_of_block d c b : disk_at d c → 0 ≤ b < JournalWriter.blocks_count w →
  byte_offset_of fs (size_bytes d) b = Ok (b * bs).
Proof using R F M.
  intros (Hd & _) Hb. unfold byte_offset_of. rewrite (mr_bs _ M), (mr_count _ M).
  destruct bs_range. pose proof (cr_medium R). change (size_bytes d) with (zlen (Disk.base d)).
  apply byte_offset_in_eq; lia.
Qed.

(** The journal superblock as a mount finds it. *)
Lemma mount_reads c j' : mixed c → JournalSuperblock.parse (blk bs c p0) = Ok j' →
  read_superblock fs (image_reader c) = Ok (Some j').
Proof using R F M.
  intros Hm E. destruct (mr_map _ M c Hm) as (ji & Ei & Ep). destruct Hm as [Hc _].
  unfold read_superblock. rewrite decide_False by apply (mr_journal _ M). rewrite Ei, bind_Ok.
  change 0 with (Z.of_nat 0). rewrite (Ep _ _ (cr_p0 R)), bind_Ok. cbn [ok_or]. rewrite bind_Ok.
  rewrite (mr_bs _ M), (offset_u64 c) by auto using p0_range. destruct bs_range as [Hr _].
  rewrite read_image, bind_Ok by (auto using p0_range || lia). unfold Disk.blk in E. by rewrite E.
Qed.

Lemma reader_run {A} (f : reader → res A) d c : disk_at d c → with_reader f d = (f (image_reader c), d).
Proof using R F. intros Hd. destruct (disk_at_ok d c Hd) as (Hok & _). rewrite with_reader_disk by done. by destruct Hd as (_ & -> & _). Qed.

Lemma read_run d c o n : disk_at d c → 0 ≤ o → o + n ≤ zlen img0 → read_at o n d = (Ok (sub c o n), d).
Proof using Type. intros (Hb & Hc & _) H0 H1. rewrite Disk.read_disk by lia. by rewrite Hc. Qed.

Lemma write_run d c o x : disk_at d c → 0 ≤ o → o + zlen x ≤ zlen img0 →
  write_at o x d = (Ok (), record_all [(o, x)] d).
Proof using Type. intros (Hb & Hc & _) H0 H1. rewrite Disk.write_disk by lia. by rewrite record_one. Qed.

(** *** Applying a plan *)

Definition resolved (e : ReplayEntry.t) : Z * Z :=
  (default 0 (pm !! Z.to_nat (ReplayEntry.journal_block e)) * bs, ReplayEntry.fs_block e * bs).

(** Entry [e] restores the write [jb] from the journal in [c0]. *)
Definition sources (c0 : bytes) (e : ReplayEntry.t) (jb : JournaledBlock.t) : Prop :=
  0 ≤ ReplayEntry.journal_block e ∧ ReplayEntry.fs_block e = JournaledBlock.fs_block jb ∧
  block_ok w (block_of jb) ∧ JournaledBlock.fs_block jb ∉ pm ∧
  ∃ p, pm !! Z.to_nat (ReplayEntry.journal_block e) = Some p ∧
       restore (ReplayEntry.flags e) (blk bs c0 p) = Ok (JournaledBlock.data jb).

Lemma apply_loop_run c0 es ws : Forall2 (sources c0) es ws → ∀ d c n, disk_at d c →
  (∀ p, p ∈ pm → blk bs c p = blk bs c0 p) →
  ∃ m, apply_loop fs (zip es (resolved <$> es)) n d = (Ok m, record_all (Disk.block_writes bs (block_of <$> ws)) d).
Proof using R F M.
  induction 1 as [|e jb es ws (Hj & Hf & Hok & Hpm & p & Hp & Er) H2 IH]; intros d c n Hd Hc.
  { exists n. cbn. by rewrite record_all_nil. }
  cbn [fmap list_fmap zip zip_with apply_loop]. unfold resolved at 1. rewrite Hp, Hf. cbn [default from_option id].
  destruct Hd as (Hd0 & Hd1 & Hi). assert (Hd : disk_at d c) by done.
  assert (Hpr : 0 ≤ p < JournalWriter.blocks_count w).
  { apply list_elem_of_lookup_2 in Hp. pose proof (pm_range p Hp). pose proof (pm_nonneg p Hp). lia. }
  destruct bs_range as [Hr _]. pose proof (image_inside c p Hi Hpr) as Hin. destruct Hi as [Hz Hb].
  rewrite (mr_bs _ M). erewrite bind_dev; [|apply (read_run d c); [done|apply Z.mul_nonneg_nonneg; lia|lia]].
  fold (blk bs c p). rewrite Hc by by eapply list_elem_of_lookup_2.
  erewrite bind_dev; [|unfold dev_lift; by rewrite Er].
  destruct Hok as (Hbr & Hbz & Hbb). cbn [block_of fst snd] in *.
  pose proof (image_inside c (JournaledBlock.fs_block jb) (conj Hz Hb) Hbr).
  erewrite bind_dev; [|apply (write_run d c); [done|apply Z.mul_nonneg_nonneg; lia|lia]].
  destruct (image_write c (JournaledBlock.fs_block jb) (JournaledBlock.data jb) (conj Hz Hb)) as [Hi' E']; [done|].
  assert (Hd' := disk_at_record d c _ Hd Hi').
  destruct (IH _ _ (n + 1) Hd') as (m & E).
  { intros q Hq. rewrite E' by by apply pm_nonneg. rewrite decide_False by (intros <-; done). by apply Hc. }
  exists m. etransitivity; [exact E|]. by rewrite record_all_app.
Qed.

(** *** The log of a dirty image *)

Lemma logged_at c k b : logged c → tx_blocks j ptx !! k = Some b →
  ∃ p, pm !! S k = Some p ∧ blk bs c p = b.
Proof using R F.
  intros [_ Hl] Hk. pose proof (cr_fits F) as Hf. pose proof (cr_len R) as Hlen. unfold zlen in *.
  pose proof (lookup_lt_Some _ _ _ Hk) as Hlt.
  destruct (lookup_lt_is_Some_2 pm (S k) ltac:(lia)) as [p Hp]. exists p. split; [done|].
  assert (Hpin : p ∈ pm) by by eapply list_elem_of_lookup_2.
  assert (Hjw : jw !! k = Some (p, b)) by by apply jw_lookup.
  rewrite Hl; [|done|].
  - apply Disk.put_blocks_nodup.
    + destruct jw_map as [-> _]. eapply sublist_NoDup; [apply (cr_nodup R)|].
      etransitivity; [apply sublist_take|apply sublist_drop].
    + by eapply list_elem_of_lookup_2.
  - intros ->. pose proof (NoDup_lookup _ _ _ _ (cr_nodup R) Hp (cr_p0 R)). done.
Qed.

Lemma past_log c p : logged c → pm !! S (length (tx_blocks j ptx)) = Some p → blk bs c p = blk bs img0 p.
Proof using R F.
  intros [_ Hl] Hp. rewrite Hl.
  - apply Disk.put_blocks_other. intros Hin. apply list_elem_of_fmap in Hin as ([q x] & -> & Hin).
    apply list_elem_of_lookup in Hin as [k Hk]. apply jw_lookup in Hk as [Hq Hx]. cbn [fst] in Hp.
    pose proof (NoDup_lookup _ _ _ _ (cr_nodup R) Hp Hq). apply lookup_lt_Some in Hx. lia.
  - by eapply list_elem_of_lookup_2.
  - intros ->. pose proof (NoDup_lookup _ _ _ _ (cr_nodup R) Hp (cr_p0 R)). done.
Qed.

Lemma journal_block_read c ji k p : image_ok c → pm !! k = Some p →
  (∀ k p, pm !! k = Some p → journal_block_to_physical fs (image_reader c) ji (Z.of_nat k) = Ok (Some p)) →
  read_journal_block fs (image_reader c) ji bs (Z.of_nat k) = Ok (blk bs c p).
Proof using R F M.
  intros Hc Hp Hm. unfold read_journal_block. rewrite (Hm _ _ Hp), bind_Ok. cbn [ok_or]. rewrite bind_Ok.
  apply list_elem_of_lookup_2 in Hp. pose proof (pm_range p Hp). pose proof (pm_nonneg p Hp).
  destruct bs_range. rewrite (offset_u64 c) by (done || lia). by rewrite read_image by (done || lia).
Qed.

Lemma ptx_write jb : jb ∈ Transaction.writes ptx →
  block_ok w (block_of jb) ∧ JournaledBlock.fs_block jb ∉ pm ∧ JournaledBlock.fs_block jb ∉ Transaction.revokes tx.
Proof using R F.
  intros Hjb. assert (Hin : block_of jb ∈ fw) by (unfold fw; apply list_elem_of_fmap; eauto).
  pose proof fw_ok as Hok. rewrite Forall_forall in Hok. split; [by apply Hok|].
  split; [by eapply fw_targets|]. destruct (fw_elem _ _ Hin) as (jb0 & Hjb0 & -> & _). by apply writes_ok.
Qed.

(** A transaction that revokes none of its own blocks loses none of them. *)
Lemma surviving_one : surviving [ptx] = Transaction.writes ptx.
Proof using R F.
  cbn [surviving fmap list_fmap concat]. rewrite !app_nil_r. apply filter_all.
  apply Forall_forall. intros jb Hjb. by apply ptx_write.
Qed.

Lemma max_len_u32 : JournalSuperblock.max_len j < 2 ^ 32.
Proof using R F.
  destruct bs_range as [Hr _]. destruct (image_blk img0 p0 img0_ok) as [Hz Hb]; [apply p0_range|].
  pose proof (cr_disk R) as E. apply parse_jsb in E as [_ E]; [|lia]. rewrite E. by apply be32_range.
Qed.

Lemma resolve_run c es ws : mixed c → Forall2 (sources c) es ws → ∀ p, ReplayPlan.writes p = es →
  resolve fs (zlen img0) (image_reader c) p = Ok (resolved <$> es).
Proof using R F M.
  intros Hm H2 p Hp. destruct (mr_map _ M c Hm) as (ji & Ei & Ep). unfold resolve. rewrite Ei, bind_Ok, Hp.
  apply traverse_ok. intros e He. apply list_elem_of_lookup in He as [i Hi].
  destruct (Forall2_lookup_l _ _ _ _ _ H2 Hi) as (jb & _ & Hj & Hf & (Hbr & _) & _ & q & Hq & _).
  pose proof (Ep _ _ Hq) as Eq. rewrite Z2Nat.id in Eq by done. rewrite Eq, bind_Ok. cbn [ok_or]. rewrite bind_Ok.
  change (zlen img0) with (size_bytes (Disk.start img0)). cbn [block_of fst] in Hbr.
  apply list_elem_of_lookup_2 in Hq as Hin. pose proof (pm_range q Hin). pose proof (pm_nonneg q Hin).
  rewrite !(offset_of_block (Disk.start img0) img0) by (apply start_disk || lia). rewrite !bind_Ok.
  unfold resolved. by rewrite Hq.
Qed.

(** Walking a dirty image finds the transaction's writes, each one's bytes in
    the journal. *)
Lemma walk_dirty c ck : mixed c → logged c →
  ∃ p, walk fs (image_reader c) (on_disk 1 seq ck j) = Ok p ∧
    resolve fs (zlen img0) (image_reader c) p = Ok (resolved <$> ReplayPlan.writes p) ∧
    Forall2 (sources c) (ReplayPlan.writes p) (Transaction.writes ptx).
Proof using R F M.
  intros Hm Hl. destruct (mr_map _ M c Hm) as (ji & Ei & Ep). pose proof Hm as [Hc _].
  destruct log_ok as (HL & _ & _ & Hjbs & Hmax). destruct seq_ok as [Hs _].
  set (j1 := on_disk 1 seq ck j). pose proof (cr_first R) as Hfirst.
  destruct (walk_log_of_commits j1 bs [ptx]) as [_ Hw].
  { exact (cr_walkable R). }
  { exact Hs. }
  { change (0 ≤ JournalSuperblock.first j). lia. }
  { exact max_len_u32. }
  { apply Forall_cons; split; [|apply Forall_nil_2]. destruct ptx_ok as [H1 H2 H3 H4 H5 H6 H7]. by split. }
  { split; [exact (cr_tid R)|done]. }
  { by_compute. }
  set (rd := read_journal_block fs (image_reader c) ji bs) in *.
  assert (Hring : ∀ k, Z.of_nat k < JournalSuperblock.max_len j - 1 → ring_pos j1 (Z.of_nat k) = Z.of_nat (S k)).
  { intros k Hk. unfold ring_pos, limit, j1. cbn. rewrite Hfirst, Z.mod_small by lia. lia. }
  assert (Hlog : log_blocks j1 [ptx] = tx_blocks j ptx) by (unfold log_blocks; cbn; apply app_nil_r).
  specialize (Hw rd). rewrite Hlog in Hw. pose proof (cr_fits F) as Hfit.
  destruct Hw as (p & E & H2 & _).
  { intros k b Hk. pose proof (lookup_lt_Some _ _ _ Hk) as Hlt. unfold zlen in Hfit.
    destruct (logged_at c k b Hl Hk) as (q & Hq & <-). rewrite Hring by lia. by apply journal_block_read. }
  { change (limit j1) with (JournalSuperblock.max_len j - JournalSuperblock.first j). rewrite Hfirst.
    destruct (decide (zlen (tx_blocks j ptx) = JournalSuperblock.max_len j - 1)) as [->|Hne]; [by left|right].
    split; [lia|]. unfold zlen in *. rewrite Hring by lia. pose proof (cr_len R) as Hlen. unfold zlen in Hlen.
    destruct (lookup_lt_is_Some_2 pm (S (length (tx_blocks j ptx))) ltac:(lia)) as [q Hq].
    exists (blk bs c q). split; [by apply journal_block_read|]. rewrite (past_log c q Hl Hq).
    intros h. apply (cr_stale F q h Hq). }
  rewrite surviving_one in H2.
  assert (Hsrc : Forall2 (sources c) (ReplayPlan.writes p) (Transaction.writes ptx)).
  { apply Forall2_same_length_lookup. split; [by eapply Forall2_length|]. intros i e jb Hi Hjb.
    destruct (Forall2_lookup_l _ _ _ _ _ H2 Hi) as (jb' & Hjb' & _ & Hf & Hrange & logged & Hrd & Hres).
    rewrite Hjb in Hjb'. injection Hjb' as <-. unfold sources. change (JournalSuperblock.first j1) with (JournalSuperblock.first j) in Hrange.
    change (JournalSuperblock.max_len j1) with (JournalSuperblock.max_len j) in Hrange.
    destruct (ptx_write jb (list_elem_of_lookup_2 _ _ _ Hjb)) as (Hok & Hpm & _).
    split; [lia|]. split; [done|]. split; [done|]. split; [done|].
    pose proof (cr_len R) as Hlen. unfold zlen in Hlen.
    destruct (lookup_lt_is_Some_2 pm (Z.to_nat (ReplayEntry.journal_block e)) ltac:(lia)) as [q Hq].
    exists q. split; [done|]. pose proof (journal_block_read c ji _ q Hc Hq Ep) as Eq.
    rewrite Z2Nat.id in Eq by lia. fold rd in Eq. rewrite Eq in Hrd. by injection Hrd as ->. }
  exists p. split; [|split; [|done]].
  - unfold walk. change (JournalSuperblock.is_clean j1) with false. cbv iota.
    change (check_walkable j1) with (check_walkable (JournalWriter.at_log 1 seq j)).
    rewrite (mr_bs _ M), (cr_walkable R), bind_Ok, Ei, bind_Ok.
    change (JournalSuperblock.block_size j1) with (JournalSuperblock.block_size j). by rewrite Hjbs.
  - by eapply resolve_run.
Qed.

(** *** Marking the journal clean *)

Lemma splice_block c buf : image_ok c → zlen buf ≤ bs →
  splice c (p0 * bs) buf = Disk.apply_writes c (Disk.block_writes bs [(p0, splice (blk bs c p0) 0 buf)]).
Proof using R F.
  intros Hc Hz. pose proof (image_inside c p0 Hc p0_range). destruct (image_blk c p0 Hc p0_range) as [Hbz _].
  pose proof p0_range. destruct bs_range as [Hr _]. assert (0 ≤ p0 * bs) by (apply Z.mul_nonneg_nonneg; lia).
  change (splice c (p0 * bs) buf = splice c (p0 * bs) (splice (blk bs c p0) 0 buf)).
  pose proof (zlen_nonneg buf). unfold Disk.blk in *.
  assert (zlen (splice (sub c (p0 * bs) bs) 0 buf) = bs) by (rewrite zlen_splice; lia). by_pos.
Qed.

(** The fields [mark_journal_clean] patches. *)
Lemma clean_fields jsb buf n : zlen buf = 1024 → bytes_ok buf →
  ∃ b1 b2 b3, put_be32 buf 0x18 n = Ok b1 ∧ put_be32 b1 0x1C 0 = Ok b2 ∧
    (if JournalSuperblock.uses_csum_v2_or_v3 jsb then
       zeroed ← put b2 0xFC (zrep 4 0); put_be32 zeroed 0xFC (linux_crc32c u32_ones zeroed)
     else Ok b2) = Ok b3 ∧
    zlen b3 = 1024 ∧ bytes_ok b3 ∧ be32 b3 0 = be32 buf 0 ∧ be32 b3 4 = be32 buf 4 ∧ be32 b3 0x1C = 0.
Proof using Type.
  intros Hz Hb. set (b1 := splice buf 0x18 (be_split 4 n)). set (b2 := splice b1 0x1C (be_split 4 0)).
  assert (Z1 : zlen b1 = 1024) by (unfold b1; zl). assert (Z2 : zlen b2 = 1024) by (unfold b2; zl).
  assert (B2 : bytes_ok b2) by (unfold b2, b1; auto using bytes_ok_splice, bytes_ok_be).
  assert (F2 : be32 b2 0 = be32 buf 0 ∧ be32 b2 4 = be32 buf 4 ∧ be32 b2 0x1C = 0).
  { unfold b2, b1. split_and!; [rewrite !be32_splice_ne; zl..|apply be32_splice; zl]. }
  exists b1, b2. rewrite put_be32_ok by lia. fold b1. rewrite put_be32_ok by lia. fold b2.
  destruct (JournalSuperblock.uses_csum_v2_or_v3 jsb); [|by exists b2].
  rewrite put_ok, bind_Ok by zl. rewrite put_be32_ok by zl. rewrite splice_overwrite by zl.
  eexists. split; [done|]. split; [done|]. split; [done|]. destruct F2 as (F0 & F4 & F1).
  split; [zl|]. split; [auto using bytes_ok_splice, bytes_ok_be|].
  rewrite !be32_splice_ne by zl. done.
Qed.

Lemma mark_run d c jsb plan : disk_at d c → mixed c → is_jsb (blk bs c p0) →
  ∃ buf, mark_journal_clean fs jsb plan d = (Ok (), Disk.record Disk.EvFlush (record_all [(p0 * bs, buf)] d)) ∧
    alike c (Disk.apply_writes c [(p0 * bs, buf)]) ∧ clean (Disk.apply_writes c [(p0 * bs, buf)]).
Proof using R F M.
  intros Hd Hm Hj. destruct (mr_map _ M c Hm) as (ji & Ei & Ep). destruct Hm as [Hc _].
  destruct (image_blk c p0 Hc p0_range) as [Hbz Hbb]. pose proof p0_range as Hp0. destruct bs_range as [Hr _].
  pose proof (image_inside c p0 Hc p0_range) as Hin. assert (0 ≤ p0 * bs) by (apply Z.mul_nonneg_nonneg; lia).
  assert (Hsub : sub c (p0 * bs) 1024 = sub (blk bs c p0) 0 1024).
  { unfold Disk.blk. rewrite sub_sub by lia. f_equal; lia. }
  assert (Hf : ∀ o, 0 ≤ o → o + 4 ≤ 1024 → be32 (sub c (p0 * bs) 1024) o = be32 (blk bs c p0) o).
  { intros o ? ?. rewrite Hsub. unfold be32. rewrite sub_sub by lia. done. }
  set (n := as_u32 (match ReplayPlan.next_sequence plan with Some s => s | None => JournalSuperblock.sequence jsb end + 1)).
  destruct (clean_fields jsb (sub c (p0 * bs) 1024) n) as (b1 & b2 & b3 & E1 & E2 & E3 & Z3 & B3 & F0 & F4 & F1);
    [zl|destruct Hc; auto with ext4|].
  destruct Hj as [Hmagic Htype]. exists b3. split; [|].
  - unfold mark_journal_clean. rewrite (bind_dev _ _ d (Some p0) d).
    2: { rewrite (reader_run _ d c) by done. rewrite Ei, bind_Ok. change 0 with (Z.of_nat 0). by rewrite (Ep _ _ (cr_p0 R)). }
    cbn [ok_or]. rewrite (bind_dev _ _ d p0 d) by done. unfold dev_size. rewrite (bind_dev _ _ d (size_bytes d) d) by done.
    rewrite (bind_dev _ _ d (p0 * bs) d) by (unfold dev_lift; by rewrite (offset_of_block d c)).
    rewrite (bind_dev _ _ d (sub c (p0 * bs) 1024) d) by (apply read_run; [done|lia|destruct Hc as [<- _]; lia]).
    rewrite (bind_dev _ _ d JBD2_MAGIC_NUMBER d) by (unfold dev_lift; rewrite u32_be_ok by zl; by rewrite Hf, Hmagic by lia).
    rewrite decide_False by naive_solver. cbv zeta. fold n.
    rewrite (bind_dev _ _ d b1 d) by (unfold dev_lift; by rewrite E1).
    rewrite (bind_dev _ _ d b2 d) by (unfold dev_lift; by rewrite E2).
    rewrite (bind_dev _ _ d b3 d) by (unfold dev_lift; by rewrite E3).
    rewrite (bind_dev _ _ d tt (record_all [(p0 * bs, b3)] d)) by (apply (write_run d c); [done|lia|destruct Hc as [<- _]; lia]).
    done.
  - change (Disk.apply_writes c [(p0 * bs, b3)]) with (splice c (p0 * bs) b3). rewrite splice_block by (done || lia).
    destruct (alike_jsb c (splice (blk bs c p0) 0 b3)) as [Ha Hp]; [done|rewrite zlen_splice; lia|by apply bytes_ok_splice|].
    split; [done|]. unfold clean. rewrite Hp. eexists.
    assert (Hg : ∀ o, 0 ≤ o → o + 4 ≤ 1024 → be32 (splice (blk bs c p0) 0 b3) o = be32 b3 o).
    { intros o ? ?. unfold be32. rewrite sub_splice_inside by lia. do 2 f_equal. lia. }
    split; [apply parse_jsb; [rewrite zlen_splice; lia|]; split; [|done]|].
    + unfold is_jsb. rewrite !Hg, F0, F4, !Hf by lia. done.
    + cbn. by rewrite Hg, F1 by lia.
Qed.

(** *** The recovery run *)

Lemma alike_refl c : image_ok c → alike c c.
Proof using Type. by split. Qed.

Lemma alike_trans c1 c2 c3 : alike c1 c2 → alike c2 c3 → alike c1 c3.
Proof using Type. intros [_ H1] [Hc H2]. split; [done|]. intros b Hb Hne. by rewrite H2, H1. Qed.

Lemma nr_clean on c : image_ok c → clean c → alike c (nr on c) ∧ clean (nr on c).
Proof using R F. intros Hc Hcl. destruct (alike_nr on c Hc) as [Ha Hp]. split; [done|]. unfold clean. by rewrite Hp. Qed.

Lemma start_at c : image_ok c → disk_at (Disk.start c) c.
Proof using Type. intros Hc. split_and!; [apply Hc|done|done]. Qed.

Lemma flag_crash on c c' : image_ok c → Disk.crash c (Disk.epoch [flag_at on c]) c' → c' = c ∨ c' = nr on c.
Proof using R F.
  intros Hc Hcr. rewrite <-(app_nil_r (Disk.epoch _)) in Hcr.
  apply Disk.crash_epoch in Hcr as [(kept & Hs & ->)|Hcr].
  - by apply (flag_subset on c c kept).
  - apply Disk.crash_nil in Hcr as ->. by apply (flag_subset on c c [flag_at on c]).
Qed.

(** A clean journal: recovery at most clears the flag. *)
Lemma recover_clean c : mixed c → clean c →
  ∃ d', replay_if_dirty fs (Disk.start c) = (Ok 0, d') ∧ alike c (Disk.contents d') ∧ clean (Disk.contents d') ∧
    ∀ c', Disk.crash c (Disk.events d') c' → alike c c' ∧ clean c'.
Proof using R F M.
  intros Hm Hcl. pose proof Hm as [Hc _]. destruct Hcl as (j' & Ej & Hj'). assert (Hcl : clean c) by by exists j'.
  pose proof (start_at c Hc) as Hd. unfold replay_if_dirty.
  rewrite (bind_dev _ _ _ true (Disk.start c)) by done. cbn [negb].
  rewrite (bind_dev _ _ _ (Some j') (Disk.start c)) by (rewrite (reader_run _ _ c) by done; by rewrite (mount_reads c j')).
  unfold JournalSuperblock.is_clean. rewrite Hj', bool_decide_true by done. cbv iota zeta.
  destruct (nr_clean false c Hc Hcl) as [Ha Hn]. destruct (has_bits _ Incompat.RECOVER).
  - destruct (run_flag false _ c Hd) as [E Hd']. exists (Disk.record Disk.EvFlush (record_all [flag_at false c] (Disk.start c))).
    split; [|split_and!].
    + rewrite (bind_dev _ _ _ tt (Disk.record Disk.EvFlush (record_all [flag_at false c] (Disk.start c)))); [done|].
      by rewrite (bind_dev _ _ _ tt (record_all [flag_at false c] (Disk.start c))).
    + apply disk_at_flush in Hd' as (_ & -> & _). done.
    + apply disk_at_flush in Hd' as (_ & -> & _). done.
    + rewrite record_epoch. cbn [Disk.events Disk.start app]. intros c' Hcr.
      destruct (flag_crash false c c' Hc Hcr) as [->| ->]; [split; [by apply alike_refl|done]|done].
  - exists (Disk.start c). split; [done|]. split; [by apply alike_refl|]. split; [done|].
    intros c' Hcr. apply Disk.crash_nil in Hcr as ->. split; [by apply alike_refl|done].
Qed.

(** What is on the medium while a dirty journal is replayed. *)
Definition replaying (c : bytes) : Prop := (mixed c ∧ logged c ∧ jsb_is c 1 seq) ∨ (new c ∧ clean c).

(** The writes [apply] sends, with the flush that follows them. *)
Definition applied : list Disk.event := if decide (fw = []) then [] else Disk.epoch (Disk.block_writes bs fw).

Lemma apply_run c p : mixed c → Forall2 (sources c) (ReplayPlan.writes p) (Transaction.writes ptx) →
  ∃ n d, apply fs p (Disk.start c) = (Ok n, d) ∧ d = Disk.mk c applied ∧
    disk_at d (Disk.apply_writes c (Disk.block_writes bs fw)).
Proof using R F M.
  intros Hm H2. pose proof Hm as [Hc _]. pose proof (start_at c Hc) as Hd.
  unfold apply, applied. case_decide as Hnil; [|].
  { rewrite Hnil in H2. apply Forall2_nil_inv_l in H2. unfold fw. rewrite H2.
    exists 0, (Disk.start c). split; [done|]. split; [by rewrite decide_True|done]. }
  rewrite decide_False.
  2: { unfold fw. intros E%fmap_nil_inv. rewrite E in H2. by apply Forall2_nil_inv_r in H2. }
  rewrite (bind_dev _ _ _ true (Disk.start c)) by done. cbn [negb]. unfold dev_size.
  rewrite (bind_dev _ _ _ (zlen c) (Disk.start c)) by done.
  destruct (apply_loop_run c _ _ H2 (Disk.start c) c 0 Hd) as (n & E); [done|].
  rewrite (bind_dev _ _ _ (resolved <$> ReplayPlan.writes p) (Disk.start c)).
  2: { rewrite (reader_run _ _ c) by done. rewrite (proj1 Hc). by erewrite (resolve_run c). }
  fold fw in E. destruct (image_writes c fw Hc fw_ok) as [Hi _].
  exists n. eexists. split; [|split; [|apply disk_at_flush; by apply (disk_at_record (Disk.start c) c)]].
  - rewrite (bind_dev _ _ _ _ _ E). by rewrite (bind_dev _ _ _ _ _ (flush_disk _)).
  - by rewrite record_epoch.
Qed.

(** The two updates that record the replay as done. *)
Lemma finish_crash a buf c' : new a → logged a → jsb_is a 1 seq →
  let a' := Disk.apply_writes a [(p0 * bs, buf)] in alike a a' → clean a' →
  Disk.crash a (Disk.epoch [(p0 * bs, buf)] ++ Disk.epoch [flag_at false a']) c' → replaying c'.
Proof using R F.
  intros Hn Hl Hj a' Ha Hcl Hcr. pose proof (alike_new _ _ Ha Hn) as Hn'.
  apply Disk.crash_epoch in Hcr as [(kept & Hs & ->)|Hcr].
  - destruct (singleton_subset _ _ Hs) as [->| ->]; [left; split; [by apply new_mixed|done]|by right].
  - fold a' in Hcr. right. destruct (nr_clean false a' (proj1 Ha) Hcl) as [Hnr Hcl'].
    destruct (flag_crash false a' c' (proj1 Ha) Hcr) as [->| ->]; [done|]. split; [by eapply alike_new|done].
Qed.

Lemma recover_dirty c : mixed c → logged c → jsb_is c 1 seq →
  ∃ n d', replay_if_dirty fs (Disk.start c) = (Ok n, d') ∧ new (Disk.contents d') ∧ clean (Disk.contents d') ∧
    ∀ c', Disk.crash c (Disk.events d') c' → replaying c'.
Proof using R F M.
  intros Hm Hl Hj. pose proof Hm as [Hc _]. destruct Hj as (ck & Ej). assert (Hj : jsb_is c 1 seq) by by exists ck.
  pose proof (start_at c Hc) as Hd.
  destruct (walk_dirty c ck Hm Hl) as (p & Ew & _ & H2).
  destruct (apply_run c p Hm H2) as (n & d1 & E1 & Ed1 & Hd1).
  set (a := Disk.apply_writes c (Disk.block_writes bs fw)) in *.
  destruct (final_subset c fw Hm Hl (reflexivity fw)) as (Hma & Hla & Hpa). fold a in Hma, Hla, Hpa.
  pose proof (final_written c Hm) as Hna. fold a in Hna.
  assert (Hja : jsb_is a 1 seq) by (exists ck; by rewrite Hpa).
  destruct (image_blk c p0 Hc p0_range) as [Hbz _]. destruct bs_range as [Hr _].
  destruct (mark_run d1 a (on_disk 1 seq ck j) p Hd1 Hma) as (buf & E2 & Ha & Hcl).
  { rewrite Hpa. apply parse_jsb in Ej as [? _]; [done|lia]. }
  set (a' := Disk.apply_writes a [(p0 * bs, buf)]) in *.
  pose proof (disk_at_flush _ _ (disk_at_record d1 a [(p0 * bs, buf)] Hd1 (proj1 Ha))) as Hd2.
  destruct (run_flag false _ a' Hd2) as [E3 Hd3]. apply disk_at_flush in Hd3.
  destruct (nr_clean false a' (proj1 Ha) Hcl) as [Hnr Hcl'].
  exists n, (Disk.record Disk.EvFlush (record_all [flag_at false a']
    (Disk.record Disk.EvFlush (record_all [(p0 * bs, buf)] d1)))).
  split; [|split; [|split]].
  - unfold replay_if_dirty. rewrite (bind_dev _ _ _ true (Disk.start c)) by done. cbn [negb].
    rewrite (bind_dev _ _ _ (Some (on_disk 1 seq ck j)) (Disk.start c))
      by (rewrite (reader_run _ _ c) by done; by rewrite (mount_reads c _ Hm Ej)).
    change (JournalSuperblock.is_clean (on_disk 1 seq ck j)) with false. cbv iota zeta.
    rewrite decide_False by (rewrite (mr_writable _ M); lia).
    rewrite (bind_dev _ _ _ p (Disk.start c)) by (rewrite (reader_run _ _ c) by done; by rewrite Ew).
    rewrite (bind_dev _ _ _ _ _ E1), (bind_dev _ _ _ _ _ E2), (bind_dev _ _ _ _ _ E3).
    by rewrite (bind_dev _ _ _ _ _ (flush_disk _)).
  - destruct Hd3 as (_ & -> & _). by eapply alike_new, alike_new.
  - by destruct Hd3 as (_ & -> & _).
  - rewrite record_epoch, record_epoch, Ed1. cbn [Disk.base Disk.events]. rewrite <-app_assoc. unfold applied.
    intros c' Hcr. case_decide as Hnil.
    + cbn [app] in Hcr. assert (Hac : a = c) by (unfold a; by rewrite Hnil). unfold a' in *. rewrite Hac in *.
      by eapply finish_crash.
    + apply Disk.crash_epoch in Hcr as [(kept & Hs & ->)|Hcr].
      * left. apply Disk.block_writes_sublist in Hs as (ws & Hws & ->).
        destruct (final_subset c ws Hm Hl Hws) as (? & ? & Hp). split; [done|]. split; [done|]. exists ck. by rewrite Hp.
      * fold a in Hcr. by eapply finish_crash.
Qed.
End mount.

(** *** Repeated failures *)

(** What the medium may hold after a power failure during a commit that sent
    the device [es], then any number of mounts, each cut short while it was
    recovering the journal. *)
Inductive left_behind (es : list Disk.event) : bytes → Prop :=
  | lb_commit c : Disk.crash img0 es c → left_behind es c
  | lb_replay fs c c' : left_behind es c → mount_ready fs →
      Disk.crash c (Disk.events (snd (replay_if_dirty fs (Disk.start c)))) c' → left_behind es c'.

(** Recovery of each outcome: success, a clean journal, all or nothing, and
    again an outcome wherever it is cut short. *)
Lemma outcome_recovers fs c : mount_ready fs → outcome c →
  ∃ n d', replay_if_dirty fs (Disk.start c) = (Ok n, d') ∧ clean (Disk.contents d') ∧
    (old (Disk.contents d') ∨ new (Disk.contents d')) ∧
    ∀ c', Disk.crash c (Disk.events d') c' → outcome c'.
Proof using R F.
  intros M [Ho Hcl|Hm Hl Hj|Hn Hcl].
  - destruct (recover_clean fs M c (old_mixed c Ho) Hcl) as (d' & E & Ha & Hcl' & Hcr).
    exists 0, d'. split_and!; [done|done|left; by eapply alike_old|]. intros c' Hc'.
    destruct (Hcr c' Hc') as [Ha' Hcl'']. apply before; [by eapply alike_old|done].
  - destruct (recover_dirty fs M c Hm Hl Hj) as (n & d' & E & Hn & Hcl & Hcr).
    exists n, d'. split_and!; [done|done|by right|]. intros c' Hc'.
    destruct (Hcr c' Hc') as [(? & ? & ?)|[? ?]]; [by apply during|by apply after].
  - destruct (recover_clean fs M c (new_mixed c Hn) Hcl) as (d' & E & Ha & Hcl' & Hcr).
    exists 0, d'. split_and!; [done|done|right; by eapply alike_new|]. intros c' Hc'.
    destruct (Hcr c' Hc') as [Ha' Hcl'']. apply after; [by eapply alike_new|done].
Qed.

Lemma left_behind_outcome buf1 buf2 c : jsb_block buf1 1 seq → jsb_block buf2 0 (as_u32 (seq + 1)) →
  left_behind (trace buf1 buf2) c → outcome c.
Proof using R F.
  intros H1 H2. induction 1 as [c Hc|fs c c' _ IH M Hc]; [by eapply crash_outcome|].
  destruct (outcome_recovers fs c M IH) as (n & d' & E & _ & _ & Hcr). rewrite E in Hc. by apply Hcr.
Qed.

(** What the medium may hold when mounts of [c0] were each cut short while
    they were recovering the journal. *)
Inductive recoveries (c0 : bytes) : bytes → Prop :=
  | rec_none : recoveries c0 c0
  | rec_cut fs c c' : recoveries c0 c → mount_ready fs →
      Disk.crash c (Disk.events (snd (replay_if_dirty fs (Disk.start c)))) c' → recoveries c0 c'.

Lemma recoveries_keep c0 c : new c0 → clean c0 → recoveries c0 c → new c ∧ clean c.
Proof using R F.
  intros Hn Hcl. induction 1 as [|fs c c' _ [IHn IHc] M Hc]; [done|].
  destruct (recover_clean fs M c (new_mixed c IHn) IHc) as (d' & E & _ & _ & Hcr). rewrite E in Hc.
  destruct (Hcr c' Hc) as [Ha Hcl']. split; [by eapply alike_new|done].
Qed.

(** The commit ends with a flush. *)
Lemma trace_flushed buf1 buf2 : ∃ es, trace buf1 buf2 = es ++ [Disk.EvFlush].
Proof using Type. unfold trace, Disk.epoch at 4. eexists. by rewrite !app_assoc. Qed.
End commit.

(** ** Properties *)

(** C1: a commit is atomic across power failures.  For a mounted writer and a
    transaction begun with it, the commit succeeds; and whatever subset of the
    writes since the last flush a power failure lets reach the medium, at any
    point of the commit and at any point of any number of recoveries after it,
    the next recovery succeeds, leaves the journal clean, and leaves the blocks
    outside the journal all as they were before the commit or all as the
    transaction writes them (the superblock up to its recovery flag). *)
Theorem commit_crash_atomic `{Crc32c} w tx img0 p0 : commit_ready w tx img0 p0 →
  ∃ w' d', JournalWriter.commit tx (w, Disk.start img0) = (Ok (), (w', d')) ∧
    ∀ fs c, left_behind w tx img0 (Disk.events d') c → mount_ready w tx img0 fs →
      ∃ n d'', replay_if_dirty fs (Disk.start c) = (Ok n, d'') ∧ clean w p0 (Disk.contents d'') ∧
        (old w img0 (Disk.contents d'') ∨ new w tx img0 (Disk.contents d'')).
Proof.
  intros [R F]. destruct (commit_run w tx img0 p0 R F) as (buf1 & buf2 & H1 & H2 & E & _).
  do 2 eexists. split; [exact E|]. intros fs c Hc M. cbn [Disk.events] in Hc.
  destruct (outcome_recovers w tx img0 p0 R F fs c M) as (n & d'' & Er & Hcl & Ho & _); [|eauto].
  by eapply left_behind_outcome.
Qed.

(** C2: a commit that returns is durable.  The writer is healthy and at the next
    sequence number; and whatever the medium holds when the power fails after
    the return, the writes of the commit included only as far as they were
    flushed, is the transaction whole, with a clean journal superblock of that
    sequence.  It stays so through any number of recoveries cut short, and each
    recovery replays nothing and keeps the transaction. *)
Theorem commit_durable `{Crc32c} w tx img0 p0 : commit_ready w tx img0 p0 →
  ∃ w' d', JournalWriter.commit tx (w, Disk.start img0) = (Ok (), (w', d')) ∧
    JournalWriter.is_healthy w' = true ∧
    JournalSuperblock.sequence (JournalWriter.jsb w') = as_u32 (JournalSuperblock.sequence (JournalWriter.jsb w) + 1) ∧
    ∀ c0, Disk.survives d' c0 →
      (∃ j, JournalSuperblock.parse (blk (JournalWriter.block_size w) c0 p0) = Ok j ∧
            JournalSuperblock.is_clean j = true ∧
            JournalSuperblock.sequence j = JournalSuperblock.sequence (JournalWriter.jsb w')) ∧
      ∀ c, recoveries w tx img0 c0 c → new w tx img0 c ∧
        ∀ fs, mount_ready w tx img0 fs →
          ∃ d'', replay_if_dirty fs (Disk.start c) = (Ok 0, d'') ∧ new w tx img0 (Disk.contents d'').
Proof.
  intros [R F]. destruct (commit_run w tx img0 p0 R F) as (buf1 & buf2 & _ & _ & E & Hn & Hj).
  do 2 eexists. split; [exact E|]. split; [done|]. split; [done|]. intros c0 Hc0.
  destruct (trace_flushed w tx img0 p0 buf1 buf2) as [es Hes]. rewrite Hes in *.
  apply Disk.survives_flush in Hc0 as ->. split.
  - destruct Hj as (ck & Hj). by eexists.
  - intros c Hc. destruct (recoveries_keep w tx img0 p0 R F _ c Hn (jsb_is_clean _ _ _ _ Hj) Hc) as [Hn' Hcl].
    split; [done|]. intros fs M. destruct (recover_clean w tx img0 p0 R F fs M c (new_mixed w tx img0 c Hn') Hcl) as (d'' & Er & Ha & _).
    exists d''. split; [exact Er|]. by eapply alike_new.
Qed.

(** ** Witnesses *)

(** A clean v3 journal superblock of six 1 KiB blocks, next sequence 7. *)
Definition sample_jsb_block : bytes :=
  be_split 4 JBD2_MAGIC_NUMBER ++ be_split 4 JBD2_SUPERBLOCK_V2 ++ be_split 4 0 ++ be_split 4 1024 ++
  be_split 4 6 ++ be_split 4 1 ++ be_split 4 7 ++ zrep 12 0 ++
  be_split 4 (Z.lor JbdIncompat.BIT64 JbdIncompat.CSUM_V3) ++ zrep 4 0 ++ zrep 16 7 ++ be_split 4 1 ++
  zrep 12 0 ++ [JBD2_CRC32C_CHKSUM] ++ zrep 943 0.

(** The volume of Bgd.v with a journal: inode 8 maps blocks 19 to 24 by direct
    pointers. *)
Definition sample_crash_volume : bytes :=
  splice (splice (splice (Bgd.sample_volume 128 50) (1024 + 0xE0) (le_split 4 8)) (10240 + 7 * 128 + 0x28)
    (le_split 4 19 ++ le_split 4 20 ++ le_split 4 21 ++ le_split 4 22 ++ le_split 4 23 ++ le_split 4 24))
    (19 * 1024) sample_jsb_block.

#[local] Opaque sample_crash_volume.

Definition sample_writer : JournalWriter.t :=
  JournalWriter.mk true false [19; 20; 21; 22; 23; 24] 1024 (decode_jsb sample_jsb_block) 50.

(** The superblock's block, rewritten, and block 30. *)
Definition sample_tx : Transaction.t :=
  Transaction.set_writes
    [JournaledBlock.mk 1 (splice (sub sample_crash_volume 1024 1024) 0x0C (le_split 4 3));
     JournaledBlock.mk 30 (zrep 1024 9)] (JournalWriter.begin sample_writer).

Lemma sample_commit_ready : @commit_ready castagnoli sample_writer sample_tx sample_crash_volume 19.
Proof.
  split; split.
  - reflexivity.
  - split; [by_compute|by left].
  - vm_compute. split; congruence.
  - by_compute.
  - reflexivity.
  - by_compute.
  - by_compute.
  - reflexivity.
  - vm_compute. reflexivity.
  - reflexivity.
  - reflexivity.
  - vm_compute. reflexivity.
  - split; [reflexivity|by_compute|reflexivity|reflexivity|unfold u32_ok; vm_compute; split; congruence| |apply Forall_nil_2].
    apply Forall_cons; split; [|apply Forall_cons; split; [|apply Forall_nil_2]];
      (split; [vm_compute; split; congruence|split; [by_compute|vm_compute; reflexivity]]).
  - reflexivity.
  - by_compute.
  - vm_compute. congruence.
  - intros p h Hp. assert (Hlen : length (@tx_blocks castagnoli (JournalWriter.jsb sample_writer) (@ptx castagnoli sample_writer sample_tx)) = 4%nat)
      by (vm_compute; reflexivity).
    rewrite Hlen in Hp. injection Hp as <-. intros E. vm_compute in E. discriminate E.
Qed.

(** The mount of the volume, with any superblock flag. *)
Definition sample_mount (sb : Superblock.t) (gs : list Bgd.t) : Filesystem.t :=
  Filesystem.mk sb gs (mkChecksummer 0 false).

(** The journal inode lies in block 10, which the transaction leaves alone. *)
Lemma sample_jinode fs c img : Filesystem.block_size fs = 1024 → zlen c = zlen img →
  Bgd.locate_inode (Filesystem.sb fs) (Filesystem.groups fs) (journal_ino fs) = Ok (10, 896) →
  Disk.blk 1024 c 10 = Disk.blk 1024 img 10 →
  read_jinode fs (image_reader c) = read_jinode fs (image_reader img).
Proof.
  intros Hbs Hz Hl Hb. unfold read_jinode, Filesystem.read_inode_raw, Filesystem.read_block.
  rewrite Hl, !bind_Ok, Hbs. change (checked_mul64 10 1024) with (Some 10240). cbn [ok_or]. rewrite !bind_Ok.
  unfold Disk.blk in Hb. change (10 * 1024) with 10240 in Hb. unfold image_reader. cbn [rd_read]. by rewrite Hz, Hb.
Qed.

Lemma sample_mount_ready sb gs :
  Superblock.parse (sub sample_crash_volume 1024 1024) = Ok sb →
  @Bgd.read_all castagnoli (image_reader sample_crash_volume) sb (mkChecksummer 0 false) = Ok gs →
  @mount_ready castagnoli sample_writer sample_tx sample_crash_volume (sample_mount sb gs).
Proof.
  intros Es Eg. vm_compute in Es. injection Es as <-. vm_compute in Eg. injection Eg as <-.
  split; [reflexivity|reflexivity|vm_compute; congruence|reflexivity|].
  intros c [[Hz _] Hv].
  assert (H10 : Disk.blk 1024 c 10 = Disk.blk 1024 sample_crash_volume 10).
  { destruct (Hv 10) as [E|(jb & Hjb & Hk & _)]; [lia|by_compute|exact E|].
    apply list_elem_of_fmap_2 with (f := JournaledBlock.fs_block) in Hjb. rewrite Hk in Hjb.
    vm_compute in Hjb. set_solver. }
  match goal with |- context [read_jinode ?f _] => assert (Ej := λ E1 E2, sample_jinode f c _ E1 Hz E2 H10) end.
  rewrite Ej by (vm_compute; reflexivity). clear Ej.
  destruct (read_jinode _ (image_reader sample_crash_volume)) as [ji| | |] eqn:Ei; vm_compute in Ei; [|discriminate..].
  injection Ei as <-. eexists. split; [reflexivity|]. intros k p Hp.
  do 6 (destruct k as [|k]; [injection Hp as <-; reflexivity|]). discriminate Hp.
Qed.

(** The mount exists. *)
Lemma sample_mounts : ∃ sb gs,
  Superblock.parse (sub sample_crash_volume 1024 1024) = Ok sb ∧
  @Bgd.read_all castagnoli (image_reader sample_crash_volume) sb (mkChecksummer 0 false) = Ok gs.
Proof.
  destruct (Superblock.parse (sub sample_crash_volume 1024 1024)) as [sb| | |] eqn:E; [|vm_compute in E; discriminate..].
  exists sb. vm_compute in E. injection E as <-. eexists. split; [reflexivity|]. vm_compute. reflexivity.
Qed.

Lemma commit_crash_atomic_witness :
  ∃ fs, Filesystem.block_size fs = 1024 ∧
  ∃ w' d', @JournalWriter.commit castagnoli _ _ sample_tx (sample_writer, Disk.start sample_crash_volume) = (Ok (), (w', d')) ∧
    ∀ c, @left_behind castagnoli sample_writer sample_tx sample_crash_volume (Disk.events d') c →
      ∃ n d'', @replay_if_dirty castagnoli _ _ fs (Disk.start c) = (Ok n, d'') ∧ clean sample_writer 19 (Disk.contents d'').
Proof.
  destruct sample_mounts as (sb & gs & Es & Eg). pose proof (sample_mount_ready sb gs Es Eg) as M.
  exists (sample_mount sb gs). split; [exact (@mr_bs castagnoli _ _ _ _ M)|].
  destruct (@commit_crash_atomic castagnoli sample_writer sample_tx sample_crash_volume 19 sample_commit_ready)
    as (w' & d' & E & Hr).
  exists w', d'. split; [exact E|]. intros c Hc.
  destruct (Hr _ c Hc M) as (n & d'' & Er & Hcl & _). exists n, d''. by split.
Defined.

Lemma commit_durable_witness :
  ∃ w' d', @JournalWriter.commit castagnoli _ _ sample_tx (sample_writer, Disk.start sample_crash_volume) = (Ok (), (w', d')) ∧
    JournalSuperblock.sequence (JournalWriter.jsb w') = 8 ∧
    ∀ c, Disk.survives d' c → Disk.blk 1024 c 30 = zrep 1024 9.
Proof.
  destruct (@commit_durable castagnoli sample_writer sample_tx sample_crash_volume 19 sample_commit_ready)
    as (w' & d' & E & _ & Hs & Hd).
  exists w', d'. split; [exact E|]. split; [exact Hs|]. intros c Hc. destruct (Hd c Hc) as [_ Hr].
  destruct (Hr c (rec_none _ _ _ _)) as [[_ Hn] _]. specialize (Hn 30 ltac:(lia) ltac:(by_compute)). exact Hn.
Defined.
