(* ===== verification/Mount.v ===== *)
(** Mount: the mounted volume as a state (src/src/fs.rs): the record a mount
    keeps, the guards before a write, committing a staged buffer through the
    journal or in three flushed stages, and the release of the mount.
    The mount sequence itself is in Lifecycle. *)
From stdpp Require Import sorting.
From S2P Require Import Prelude Errors Bytes Device Disk Features Superblock Checksum Bgd Jbd2 Journal Transaction JournalApply JournalWriter Filesystem BlockBuffer.

(** A map in the order a [BTreeMap] is iterated: by increasing key. *)
Definition by_block (w w' : Z * bytes) : Prop := fst w ≤ fst w'.
#[global] Instance by_block_dec : RelDecision by_block.
Proof. intros w w'. unfold by_block. apply _. Defined.
Definition in_order (m : gmap Z bytes) : list (Z * bytes) := merge_sort by_block (map_to_list m).

Module Mount.

(** The struct [Filesystem].  [fs] holds its snapshots of the superblock, the
    descriptors and the checksummer; [dev] is the device it routes through.
    The flavour is a function of the superblock ([InodeEdit.flavor]), and a
    lock poisoned by a panic is not modelled: a panic ends the run. *)
Record t (D : Type) := mk {
  dev : D; fs : Filesystem.t; alloc : AllocationState; journal : option JournalWriter.t;
  marked_not_clean : bool; state_found : Z; direct_commit_failed : bool;
  replay_pending : bool; managed_recovery : bool
}.
Arguments mk {D}. Arguments dev {D}. Arguments fs {D}. Arguments alloc {D}. Arguments journal {D}.
Arguments marked_not_clean {D}. Arguments state_found {D}. Arguments direct_commit_failed {D}.
Arguments replay_pending {D}. Arguments managed_recovery {D}.

Section fields.
Context {D : Type} (m : t D).
Definition set_dev (d : D) : t D :=
  mk d (fs m) (alloc m) (journal m) (marked_not_clean m) (state_found m) (direct_commit_failed m) (replay_pending m) (managed_recovery m).
Definition set_fs (f : Filesystem.t) : t D :=
  mk (dev m) f (alloc m) (journal m) (marked_not_clean m) (state_found m) (direct_commit_failed m) (replay_pending m) (managed_recovery m).
Definition set_alloc (a : AllocationState) : t D :=
  mk (dev m) (fs m) a (journal m) (marked_not_clean m) (state_found m) (direct_commit_failed m) (replay_pending m) (managed_recovery m).
Definition set_journal (w : option JournalWriter.t) : t D :=
  mk (dev m) (fs m) (alloc m) w (marked_not_clean m) (state_found m) (direct_commit_failed m) (replay_pending m) (managed_recovery m).
Definition set_marked (b : bool) : t D :=
  mk (dev m) (fs m) (alloc m) (journal m) b (state_found m) (direct_commit_failed m) (replay_pending m) (managed_recovery m).
Definition set_found (s : Z) : t D :=
  mk (dev m) (fs m) (alloc m) (journal m) (marked_not_clean m) s (direct_commit_failed m) (replay_pending m) (managed_recovery m).
Definition set_failed (b : bool) : t D :=
  mk (dev m) (fs m) (alloc m) (journal m) (marked_not_clean m) (state_found m) b (replay_pending m) (managed_recovery m).
Definition set_pending (b : bool) : t D :=
  mk (dev m) (fs m) (alloc m) (journal m) (marked_not_clean m) (state_found m) (direct_commit_failed m) b (managed_recovery m).
Definition set_managed (b : bool) : t D :=
  mk (dev m) (fs m) (alloc m) (journal m) (marked_not_clean m) (state_found m) (direct_commit_failed m) (replay_pending m) b.
End fields.

Section mount.
Context `{Crc32c} {D : Type} `{BlockDevice D}.

(** A field of the mount, a change of it, a device program on its device, and
    a read-only client of the two. *)
Definition ask {A} (f : t D → A) : dev_m (t D) A := λ m, (Ok (f m), m).
Definition update (f : t D → t D) : dev_m (t D) unit := λ m, (Ok (), f m).
Definition on_device {A} (p : dev_m D A) : dev_m (t D) A := λ m,
  let '(r, d) := p (dev m) in (r, set_dev m d).
Definition reading {A} (f : Filesystem.t → reader → res A) : dev_m (t D) A := λ m,
  (f (fs m) (snapshot (dev m)), m).

(** ** The state word of the superblock *)

(** [s_checksum] recomputed, where the volume has metadata checksums. *)
Definition stamp_superblock (csum : Checksummer) (s : bytes) : res bytes :=
  if enabled csum then body ← slice s 0 0x3FC; put_u32 s 0x3FC (linux_crc32c u32_max body) else Ok s.

Definition write_superblock_state (state : Z) : dev_m (t D) unit :=
  let at_ := Superblock.SUPERBLOCK_OFFSET in
  f ← ask fs;
  s ← on_device (read_at at_ 1024);
  s ← dev_lift (s ← put_u16 s 0x3A state; stamp_superblock (Filesystem.csum f) s);
  _ ← on_device (write_at at_ s);
  on_device Device.flush.

(** ** The guards before a write *)

Definition write_refusal (m : t D) : res unit :=
  let sb := Filesystem.sb (fs m) in
  if negb (is_writable (dev m)) then Err ReadOnly else
  if direct_commit_failed m then Err ReadOnly else
  if replay_pending m then Err JournalNotReplayed else
  let unmaintained := unmaintained_ro_compat (Superblock.feature_ro_compat sb) in
  if decide (unmaintained ≠ 0) then Err (UnsupportedRoCompat unmaintained) else
  let write_breaking := write_breaking_incompat (Superblock.feature_incompat sb) in
  if decide (write_breaking ≠ 0) then Err (UnsupportedIncompat write_breaking) else Ok ().

Definition mark_not_clean_once : dev_m (t D) unit :=
  marked ← ask marked_not_clean;
  if (marked : bool) then mret () else
  f ← ask fs;
  let state := Superblock.state (Filesystem.sb f) in
  _ ← update (λ m, set_found m state);
  _ ← write_superblock_state (Z.ldiff state Superblock.EXT4_VALID_FS);
  update (λ m, set_marked m true).

Definition refuse_write : dev_m (t D) unit :=
  r ← ask write_refusal;
  _ ← dev_lift r;
  mark_not_clean_once.

(** ** Committing a buffer *)

(** The writes of one stage, then a flush; nothing for an empty stage. *)
Fixpoint write_blocks (bs : Z) (ws : list (Z * bytes)) : dev_m D unit :=
  match ws with
  | [] => mret ()
  | (block, b) :: ws => _ ← write_at (as_u64 (block * bs)) b; write_blocks bs ws
  end.
Definition write_stage (bs : Z) (ws : list (Z * bytes)) : dev_m D unit :=
  if decide (ws = []) then mret () else _ ← write_blocks bs ws; Device.flush.

Definition write_direct (bs : Z) (dirty : gmap Z bytes) (descriptors : gset Z) : dev_m D unit :=
  let sb_block := Superblock.SUPERBLOCK_OFFSET / bs in
  let rest := in_order (delete sb_block dirty) in
  let early := filter (λ w, fst w ∉ descriptors) rest in
  let late := filter (λ w, fst w ∈ descriptors) rest in
  let last := match dirty !! sb_block with Some b => [(sb_block, b)] | None => [] end in
  _ ← write_stage bs early;
  _ ← write_stage bs late;
  write_stage bs last.

(** The blocks of the descriptors whose uninit flags the buffer cleared. *)
Definition flag_blocks (sb : Superblock.t) (cleared : gmap Z Z) : res (gset Z) :=
  foldM (λ s c, '(block, _) ← Superblock.descriptor_location sb (fst c); Ok ({[ block ]} ∪ s))
    ∅ (map_to_list cleared).

Fixpoint add_writes (tx : Transaction.t) (ws : list (Z * bytes)) : res Transaction.t :=
  match ws with
  | [] => Ok tx
  | (block, b) :: ws => tx ← Transaction.add_write tx block b; add_writes tx ws
  end.

(** The journal's half: the writer and the device both keep what a failed
    commit did to them. *)
Definition commit_journaled (w : JournalWriter.t) (ws : list (Z * bytes)) : dev_m (t D) unit := λ m,
  match add_writes (JournalWriter.begin w) ws with
  | Ok tx =>
      let '(r, (w', d')) := JournalWriter.commit tx (w, dev m) in
      (r, set_journal (set_dev m d') (Some w'))
  | Err e => (Err e, m) | Panic => (Panic, m) | OutOfFuel => (OutOfFuel, m)
  end.

(** [if let Err(e) = p { direct_commit_failed = true; return Err(e) }] *)
Definition or_retire (p : dev_m (t D) unit) : dev_m (t D) unit := λ m,
  match p m with
  | (Err e, m') => (Err e, set_failed m' true)
  | rm => rm
  end.

Definition commit_block_buffer (buf : BlockBuffer) : dev_m (t D) unit :=
  if decide (dirty buf = ∅) then mret () else
  let publish_cleared := update (λ m, set_alloc m (publish (alloc m) (uninit_cleared buf))) in
  j ← ask journal;
  match j with
  | Some w => _ ← commit_journaled w (in_order (dirty buf)); publish_cleared
  | None =>
      f ← ask fs;
      descriptors ← dev_lift (flag_blocks (Filesystem.sb f) (uninit_cleared buf));
      _ ← or_retire (on_device (write_direct (Filesystem.block_size f) (dirty buf) descriptors));
      publish_cleared
  end.

(** Every operation whose only change is one inode. *)
Definition commit_inode_write (ino : Z) (new_inode_raw : bytes) : dev_m (t D) unit :=
  buf ← reading (λ f r, buffer_write_inode f r new_buffer ino new_inode_raw);
  commit_block_buffer buf.

(** The uncommitted write of a raw inode. *)
Definition write_inode_raw (ino : Z) (raw : bytes) : dev_m (t D) unit :=
  f ← ask fs;
  if decide (zlen raw ≠ Superblock.inode_size (Filesystem.sb f))
  then dev_lift (Err (Corrupt "write_inode_raw: length != inode_size")) else
  _ ← refuse_write;
  '(block, offset) ← dev_lift (Bgd.locate_inode (Filesystem.sb f) (Filesystem.groups f) ino);
  on_device (write_at (as_u64 (block * Filesystem.block_size f + offset)) raw).

(** ** Rereading the metadata *)

(** The superblock read, checked to be mountable, and verified. *)
Definition read_checked_superblock (what : string) : dev_m D (Superblock.t * Checksummer) :=
  sb ← Superblock.read;
  _ ← dev_lift (check_mountable (Superblock.feature_incompat sb) (Superblock.feature_ro_compat sb));
  let csum := from_superblock sb in
  ok ← dev_lift (if enabled csum then verify_superblock csum (Superblock.raw sb) else Ok true);
  if negb (ok : bool) then dev_lift (Err (BadChecksum what)) else mret (sb, csum).

(** After a replay: the same checks, and the descriptors again.  The new
    descriptors stay when the size check after them fails. *)
Definition reload_geometry : dev_m (t D) unit :=
  '(sb, csum) ← on_device (read_checked_superblock "superblock");
  groups ← reading (λ _ r, Bgd.read_all r sb csum);
  _ ← update (λ m, set_fs m (Filesystem.mk (Filesystem.sb (fs m)) groups (Filesystem.csum (fs m))));
  size ← ask (λ m, size_bytes (dev m));
  _ ← dev_lift (Superblock.check_fits_device sb size);
  _ ← update (λ m, set_alloc m (mkAlloc (cleared (alloc m)) None));
  update (λ m, set_fs m (Filesystem.mk sb groups csum)).

(** The identity and the geometry a reread superblock must still have. *)
Definition same_identity (old new : Superblock.t) : res bool :=
  a ← slice (Superblock.raw old) 0xd0 (0xe8 - 0xd0);
  b ← slice (Superblock.raw new) 0xd0 (0xe8 - 0xd0);
  Ok (bool_decide (Superblock.block_size new = Superblock.block_size old) &&
      bool_decide (Superblock.blocks_count new = Superblock.blocks_count old) &&
      bool_decide (Superblock.uuid new = Superblock.uuid old) && bool_decide (b = a)).

Definition refresh_metadata : dev_m (t D) unit :=
  f ← ask fs;
  sb ← on_device Superblock.read;
  same ← dev_lift (same_identity (Filesystem.sb f) sb);
  if negb (same : bool) then dev_lift (Err (Corrupt "journal changed filesystem identity or geometry")) else
  _ ← dev_lift (check_mountable (Superblock.feature_incompat sb) (Superblock.feature_ro_compat sb));
  let csum := from_superblock sb in
  ok ← dev_lift (if enabled csum then verify_superblock csum (Superblock.raw sb) else Ok true);
  if negb (ok : bool) then dev_lift (Err (BadChecksum "replayed superblock")) else
  groups ← reading (λ _ r, Bgd.read_all r sb csum);
  _ ← update (λ m, set_fs m (Filesystem.mk sb groups csum));
  update (λ m, set_alloc m (reset (alloc m))).

Definition set_recovery_marker (needed : bool) : dev_m (t D) unit :=
  sb ← on_device Superblock.read;
  let on_disk := has_bits (Superblock.feature_incompat sb) Incompat.RECOVER in
  _ ← (if decide (on_disk ≠ needed) then
         _ ← on_device (write_needs_recovery needed); on_device Device.flush
       else mret ());
  refresh_metadata.

(** ** Replaying on request *)

Definition journal_failed (m : t D) : bool :=
  match journal m with Some w => negb (JournalWriter.is_healthy w) | None => false end.

Definition is_dirty (j : option JournalSuperblock.t) : bool :=
  match j with Some j => negb (JournalSuperblock.is_clean j) | None => false end.

Definition ok_unit {A} (r : res A) : bool := match r with Ok _ => true | _ => false end.

Definition replay_journal_if_dirty : dev_m (t D) Z :=
  writable ← ask (λ m, is_writable (dev m));
  dirty ← (if (writable : bool) then j ← reading read_superblock; mret (is_dirty j) else mret false);
  f ← ask fs;
  n ← on_device (replay_if_dirty f);
  writable ← ask (λ m, is_writable (dev m));
  _ ← (if (writable : bool) then update (λ m, set_pending m false) else mret ());
  _ ← (if decide (0 < n) then
         _ ← update (λ m, set_dev m (Device.unpin_all (dev m)));
         _ ← reload_geometry;
         update (λ m, set_alloc m (reset (alloc m)))
       else mret ());
  m ← ask id;
  let none := match journal m with None => true | Some _ => false end in
  _ ← (if ((dirty : bool) || none) && negb (journal_failed m) && ok_unit (write_refusal m) then
         w ← reading JournalWriter.open; update (λ m, set_journal m w)
       else mret ());
  mret n.

(** ** The volume label *)

Definition VOLUME_LABEL_MAX : Z := 16.

(** The superblock copy of one group, if it has one. *)
Definition label_group (f : Filesystem.t) (r : reader) (field : bytes) (buf : BlockBuffer) (g : Z) : res BlockBuffer :=
  let sb := Filesystem.sb f in
  let bs := Filesystem.block_size f in
  has ← Superblock.group_has_super sb g;
  if negb has then Ok buf else
  let '(block, at_) :=
    if decide (g = 0) then (Superblock.SUPERBLOCK_OFFSET / bs, Superblock.SUPERBLOCK_OFFSET mod bs)
    else (Superblock.first_data_block sb + g * Superblock.blocks_per_group sb, 0) in
  edit f r block (λ bytes,
    s ← slice bytes at_ Superblock.SUPERBLOCK_SIZE;
    magic ← u16_le s 0x38;
    if decide (magic ≠ Superblock.EXT4_MAGIC) then Ok bytes else
    s ← put s 0x78 field;
    s ← stamp_superblock (Filesystem.csum f) s;
    put bytes at_ s) buf.

Definition set_label (label raw : bytes) (sb : Superblock.t) : Superblock.t :=
  Superblock.mk (Superblock.inodes_count sb) (Superblock.blocks_count sb) (Superblock.free_blocks_count sb)
    (Superblock.free_inodes_count sb) (Superblock.r_blocks_count sb) (Superblock.first_data_block sb)
    (Superblock.log_block_size sb) (Superblock.blocks_per_group sb) (Superblock.inodes_per_group sb)
    (Superblock.magic sb) (Superblock.state sb) (Superblock.errors_behavior sb) (Superblock.minor_rev_level sb)
    (Superblock.rev_level sb) (Superblock.inode_size sb) (Superblock.first_inode sb) (Superblock.feature_compat sb)
    (Superblock.feature_incompat sb) (Superblock.feature_ro_compat sb) (Superblock.uuid sb) label
    (Superblock.last_mounted sb) (Superblock.desc_size sb) (Superblock.reserved_gdt_blocks sb)
    (Superblock.backup_bgs sb) (Superblock.hash_seed sb) (Superblock.default_hash_version sb)
    (Superblock.checksum_seed sb) (Superblock.journal_inode sb) (Superblock.last_orphan sb) (Superblock.mtime sb)
    (Superblock.wtime sb) (Superblock.mnt_count sb) (Superblock.max_mnt_count sb) (Superblock.lastcheck sb)
    (Superblock.checkinterval sb) (Superblock.creator_os sb) (Superblock.def_resuid sb) (Superblock.def_resgid sb) raw.

Definition set_volume_label (label : bytes) : dev_m (t D) unit :=
  if decide (VOLUME_LABEL_MAX < zlen label)
  then dev_lift (Err (InvalidArgument "volume label: longer than the 16 bytes s_volume_name holds")) else
  if decide (0 ∈ label)
  then dev_lift (Err (InvalidArgument "volume label: a NUL byte would end it early")) else
  _ ← refuse_write;
  let field := label ++ zrep (VOLUME_LABEL_MAX - zlen label) 0 in
  buf ← reading (λ f r,
    foldM (label_group f r field) new_buffer (seqZ 0 (Superblock.block_group_count (Filesystem.sb f))));
  _ ← commit_block_buffer buf;
  f ← ask fs;
  let raw := Superblock.raw (Filesystem.sb f) in
  raw ← dev_lift (if decide (0x88 ≤ zlen raw) then put raw 0x78 field else Ok raw);
  update (λ m, set_fs m (Filesystem.mk (set_label label raw (Filesystem.sb f)) (Filesystem.groups f) (Filesystem.csum f))).

(** ** Flush and release *)

Definition checkpointed (j : option JournalSuperblock.t) : res unit :=
  jsb ← ok_or j (Corrupt "journal disappeared");
  if negb (JournalSuperblock.is_clean jsb) || negb (bool_decide (JournalSuperblock.errno jsb = 0))
  then Err (Corrupt "journal is not checkpointed") else Ok ().

Definition flush : dev_m (t D) unit :=
  m ← ask id;
  if direct_commit_failed m
  then dev_lift (Err (Corrupt "direct commit failed; reopen and check the volume")) else
  if journal_failed m
  then dev_lift (Err (Corrupt "journal operation failed; reopen for recovery")) else
  _ ← on_device Device.flush;
  if negb (managed_recovery m) then mret () else
  jsb ← reading read_superblock;
  dev_lift (checkpointed jsb).

Definition fresh_read : dev_m (t D) unit :=
  _ ← flush;
  j ← ask journal;
  _ ← match j with
      | Some _ =>
          jsb ← reading read_superblock;
          _ ← dev_lift (checkpointed jsb);
          update (λ m, set_dev m (Device.unpin_all (dev m)))
      | None => mret ()
      end;
  _ ← on_device Device.invalidate_cache;
  refresh_metadata.

Definition restore_state_found : dev_m (t D) unit :=
  m ← ask id;
  if negb (marked_not_clean m) then mret () else
  _ ← write_superblock_state (state_found m);
  update (λ m, set_marked m false).

(** [drop]: the outcome of the write is ignored. *)
Definition drop (m : t D) : t D :=
  if marked_not_clean m && is_writable (dev m) && negb (journal_failed m) && negb (direct_commit_failed m)
  then snd (write_superblock_state (state_found m) m) else m.

(** [finish] consumes the mount, so the drop runs whatever it answers. *)
Definition finish_body : dev_m (t D) unit :=
  _ ← flush;
  m ← ask id;
  if managed_recovery m then
    _ ← refresh_metadata;
    f ← ask fs;
    if decide (Superblock.last_orphan (Filesystem.sb f) ≠ 0)
    then dev_lift (Err (Corrupt "orphan recovery remains incomplete")) else
    _ ← restore_state_found;
    set_recovery_marker false
  else restore_state_found.
Definition finish (m : t D) : res unit * D :=
  let '(r, m) := finish_body m in (r, dev (drop m)).

End mount.
End Mount.
