(* ===== verification/MountSafety.v ===== *)
(** MountSafety: what the guards and the commits of Mount guarantee: the order
    in which an unjournaled commit reaches the medium under power failures,
    the retirement of a mount whose commit failed, and the state word of the
    superblock taken down before the first write and put back at release. *)
From stdpp Require Import sorting.
From S2P Require Import Prelude Errors Bytes Device Disk Features Superblock Checksum Bgd Jbd2 Journal Transaction JournalApply JournalWriter Filesystem BlockBuffer FreeCounts CrashSafety Mount.

(** ** Maps in order *)

Lemma in_order_perm m : in_order m ≡ₚ map_to_list m.
Proof. apply merge_sort_Permutation. Qed.

Lemma in_order_elem m b x : (b, x) ∈ in_order m ↔ m !! b = Some x.
Proof. rewrite in_order_perm. apply elem_of_map_to_list. Qed.

Lemma in_order_nodup m : NoDup (in_order m).*1.
Proof. rewrite in_order_perm. apply NoDup_fst_map_to_list. Qed.

#[global] Instance by_block_total : Total by_block.
Proof. intros w w'. unfold by_block. lia. Qed.
#[global] Instance by_block_trans : Transitive by_block.
Proof. intros a b c. unfold by_block. lia. Qed.

Lemma nodup_filter_fst {B} (P : Z * B → Prop) `{∀ x, Decision (P x)} (l : list (Z * B)) :
  NoDup l.*1 → NoDup (filter P l).*1.
Proof.
  induction l as [|[k x] l IH]; intros Hnd; [done|]. cbn in Hnd. apply NoDup_cons in Hnd as [Hk Hnd].
  rewrite filter_cons. case_decide; [|by apply IH]. cbn. apply NoDup_cons. split; [|by apply IH].
  intros Hin. apply Hk. apply list_elem_of_fmap in Hin as ([k' y] & -> & Hin).
  apply list_elem_of_filter in Hin as [_ Hin]. apply list_elem_of_fmap. by eexists.
Qed.

Lemma sublist_forall {B} (P : B → Prop) (k l : list B) : k `sublist_of` l → Forall P l → Forall P k.
Proof.
  intros Hs Hl. rewrite Forall_forall in Hl |- *. intros x Hx. apply Hl.
  by eapply elem_of_submseteq, sublist_submseteq.
Qed.

(** ** Flushed stages of whole-block writes *)

Section stages.
Context (bs : Z) (Hbs : 0 < bs).

(** [c] holds some of the writes [ws] over [c0]; all of them. *)
Definition some_of (ws : list (Z * bytes)) (c0 c : bytes) : Prop :=
  ∀ b, 0 ≤ b → Disk.blk bs c b = Disk.blk bs c0 b ∨ (b, Disk.blk bs c b) ∈ ws.
Definition all_of (ws : list (Z * bytes)) (c0 c : bytes) : Prop :=
  ∀ b, 0 ≤ b → (b ∉ ws.*1 → Disk.blk bs c b = Disk.blk bs c0 b) ∧ (∀ x, (b, x) ∈ ws → Disk.blk bs c b = x).

Definition stage_events (ws : list (Z * bytes)) : list Disk.event :=
  if decide (ws = []) then [] else Disk.epoch (Disk.block_writes bs ws).

Lemma all_some ws c0 c : all_of ws c0 c → some_of ws c0 c.
Proof.
  intros H b Hb. destruct (H b Hb) as [H1 H2]. destruct (decide (b ∈ ws.*1)) as [Hin|]; [|auto].
  apply list_elem_of_fmap in Hin as ([b' x] & -> & Hin). right. cbn in *. by rewrite (H2 x Hin).
Qed.

Lemma ws_ok_size img img' ws : zlen img' = zlen img → Disk.ws_ok bs img ws → Disk.ws_ok bs img' ws.
Proof. unfold Disk.ws_ok. by intros ->. Qed.

Lemma zlen_block_writes img ws : Disk.ws_ok bs img ws → zlen (Disk.apply_writes img (Disk.block_writes bs ws)) = zlen img.
Proof using Hbs.
  intros Hws. apply Disk.zlen_apply_writes. apply Forall_fmap. eapply Forall_impl; [exact Hws|].
  intros [b x] (? & ? & ?). cbn in *. nia.
Qed.

Lemma subset_some img ws kept : Disk.ws_ok bs img ws → kept `sublist_of` ws →
  some_of ws img (Disk.apply_writes img (Disk.block_writes bs kept)).
Proof using Hbs.
  intros Hws Hk b Hb. rewrite (Disk.blk_writes bs Hbs); [|done|unfold Disk.ws_ok in *; by apply (sublist_forall _ kept ws)].
  destruct (Disk.put_blocks_cases kept (Disk.blk bs img) b) as [->|Hin]; [by left|right].
  by eapply elem_of_submseteq, sublist_submseteq.
Qed.

Lemma written_all img ws : Disk.ws_ok bs img ws → NoDup ws.*1 →
  all_of ws img (Disk.apply_writes img (Disk.block_writes bs ws)).
Proof using Hbs.
  intros Hws Hnd b Hb. rewrite (Disk.blk_writes bs Hbs) by done. split.
  - apply Disk.put_blocks_other.
  - intros x. by apply Disk.put_blocks_nodup.
Qed.

Lemma write_blocks_disk ws d : zlen (Disk.base d) < 2 ^ 64 → Disk.ws_ok bs (Disk.base d) ws →
  Mount.write_blocks bs ws d = (Ok (), record_all (Disk.block_writes bs ws) d).
Proof using Hbs.
  intros Hsz. revert d Hsz. induction ws as [|[b x] ws IH]; intros d Hsz Hws.
  { by rewrite record_all_nil. }
  apply Forall_cons in Hws as [(H0 & H1 & H2) Hws]. cbn [fst snd] in *. cbn [Mount.write_blocks].
  assert (as_u64 (b * bs) = b * bs) as -> by (unfold as_u64; apply Z.mod_small; nia).
  erewrite bind_dev; [|apply Disk.write_disk; nia]. rewrite record_one.
  rewrite IH; [|done|exact Hws]. by rewrite record_all_app.
Qed.

Lemma write_stage_disk ws d : zlen (Disk.base d) < 2 ^ 64 → Disk.ws_ok bs (Disk.base d) ws →
  Mount.write_stage bs ws d = (Ok (), Disk.mk (Disk.base d) (Disk.events d ++ stage_events ws)).
Proof using Hbs.
  intros Hsz Hws. unfold Mount.write_stage, stage_events. case_decide.
  { rewrite app_nil_r. by destruct d. }
  erewrite bind_dev; [|by apply write_blocks_disk]. rewrite flush_disk. by rewrite record_epoch.
Qed.

Lemma contents_stage d ws :
  Disk.contents (Disk.mk (Disk.base d) (Disk.events d ++ stage_events ws)) =
  Disk.apply_writes (Disk.contents d) (Disk.block_writes bs ws).
Proof.
  unfold Disk.contents, stage_events. cbn [Disk.base Disk.events]. rewrite Disk.writes_of_app, Disk.apply_writes_app.
  case_decide; [by subst|]. by rewrite Disk.writes_of_epoch.
Qed.

Lemma crash_stage img ws es c : Disk.crash img (stage_events ws ++ es) c →
  (∃ kept, kept `sublist_of` ws ∧ c = Disk.apply_writes img (Disk.block_writes bs kept)) ∨
  Disk.crash (Disk.apply_writes img (Disk.block_writes bs ws)) es c.
Proof.
  unfold stage_events. case_decide as Hn; [subst; by right|]. intros [(kept & Hk & ->)|]%Disk.crash_epoch; [left|by right].
  apply Disk.block_writes_sublist in Hk as (ws' & ? & ->). eauto.
Qed.

(** Three stages in a row: what a crash leaves. *)
Lemma three_stages img a b l c : Disk.ws_ok bs img a → Disk.ws_ok bs img b → Disk.ws_ok bs img l →
  NoDup a.*1 → NoDup b.*1 → NoDup l.*1 →
  Disk.crash img (stage_events a ++ stage_events b ++ stage_events l) c →
  some_of a img c ∨ (∃ i1, all_of a img i1 ∧ some_of b i1 c) ∨
  (∃ i1 i2, all_of a img i1 ∧ all_of b i1 i2 ∧ some_of l i2 c).
Proof using Hbs.
  intros Ha Hb Hl Na Nb Nl Hc.
  pose proof (zlen_block_writes _ _ Ha) as Z1.
  pose proof (ws_ok_size _ _ _ Z1 Hb) as Hb1. pose proof (zlen_block_writes _ _ Hb1) as Z2.
  assert (Hl2 := ws_ok_size _ _ _ (eq_trans Z2 Z1) Hl).
  apply crash_stage in Hc as [(k & Hk & ->)|Hc]; [left; by apply subset_some|right].
  apply crash_stage in Hc as [(k & Hk & ->)|Hc]; [left|right].
  { eexists. split; [by apply written_all|by apply subset_some]. }
  rewrite <-(app_nil_r (stage_events l)) in Hc.
  do 2 eexists. split; [by apply written_all|]. split; [by apply written_all|].
  apply crash_stage in Hc as [(k & Hk & ->)|Hc]; [by apply subset_some|].
  apply Disk.crash_nil in Hc as ->. by apply all_some, written_all.
Qed.
End stages.

(** ** An unjournaled commit *)

Section direct.
Context (bs : Z) (Hbs : 0 < bs) (img : bytes) (dirty : gmap Z bytes) (descriptors : gset Z).

(** Every staged block is a whole block of the volume. *)
Definition staged_ok : Prop :=
  zlen img < 2 ^ 64 ∧ ∀ b x, dirty !! b = Some x → 0 ≤ b ∧ (b + 1) * bs ≤ zlen img ∧ zlen x = bs.

Local Abbreviation sb_block := (Superblock.SUPERBLOCK_OFFSET / bs).
Local Abbreviation rest := (in_order (delete sb_block dirty)).
Definition early : list (Z * bytes) := filter (λ w, fst w ∉ descriptors) rest.
Definition late : list (Z * bytes) := filter (λ w, fst w ∈ descriptors) rest.
Definition last_stage : list (Z * bytes) := match dirty !! sb_block with Some b => [(sb_block, b)] | None => [] end.

Lemma early_elem b x : (b, x) ∈ early ↔ dirty !! b = Some x ∧ b ∉ descriptors ∧ b ≠ sb_block.
Proof. unfold early. rewrite list_elem_of_filter, in_order_elem, lookup_delete_Some. cbn. naive_solver. Qed.
Lemma late_elem b x : (b, x) ∈ late ↔ dirty !! b = Some x ∧ b ∈ descriptors ∧ b ≠ sb_block.
Proof. unfold late. rewrite list_elem_of_filter, in_order_elem, lookup_delete_Some. cbn. naive_solver. Qed.
Lemma last_elem b x : (b, x) ∈ last_stage ↔ dirty !! b = Some x ∧ b = sb_block.
Proof.
  unfold last_stage. destruct (dirty !! sb_block) as [y|] eqn:E; rewrite ?list_elem_of_singleton.
  - split; [intros [= -> ->]; done|intros [Hx ->]; congruence].
  - split; [intros Hin; by apply elem_of_nil in Hin|intros [Hx ->]; congruence].
Qed.

Lemma in_keys (ws : list (Z * bytes)) b : b ∈ ws.*1 ↔ ∃ x, (b, x) ∈ ws.
Proof.
  rewrite list_elem_of_fmap. split; [intros ([b' x] & -> & ?); eauto|intros [x ?]; by exists (b, x)].
Qed.

Lemma stages_ok (H : staged_ok) : Disk.ws_ok bs img early ∧ Disk.ws_ok bs img late ∧ Disk.ws_ok bs img last_stage.
Proof.
  destruct H as [_ Hd]. unfold Disk.ws_ok. rewrite !Forall_forall. split_and!; intros [b x] Hin; cbn.
  - apply early_elem in Hin as (Hx & _). by apply Hd.
  - apply late_elem in Hin as (Hx & _). by apply Hd.
  - apply last_elem in Hin as (Hx & _). by apply Hd.
Qed.

Lemma stages_nodup : NoDup early.*1 ∧ NoDup late.*1 ∧ NoDup last_stage.*1.
Proof.
  split_and!; [apply nodup_filter_fst, in_order_nodup|apply nodup_filter_fst, in_order_nodup|].
  unfold last_stage. destruct (dirty !! sb_block); cbn; [apply NoDup_singleton|constructor].
Qed.

(** The events of the commit, and the volume after it. *)
Definition direct_events : list Disk.event :=
  stage_events bs early ++ stage_events bs late ++ stage_events bs last_stage.

Lemma write_direct_disk (H : staged_ok) : Mount.write_direct bs dirty descriptors (Disk.start img) =
  (Ok (), Disk.mk img direct_events).
Proof using Hbs.
  destruct (stages_ok H) as (O1 & O2 & O3). destruct H as [Hsz _]. unfold Mount.write_direct.
  fold early late last_stage. unfold Disk.start.
  erewrite bind_dev; [|by apply write_stage_disk]. erewrite bind_dev; [|by apply write_stage_disk].
  rewrite write_stage_disk by done. unfold direct_events. cbn. by rewrite <-app_assoc.
Qed.

Lemma block_of_direct (H : staged_ok) b : 0 ≤ b →
  Disk.blk bs (Disk.contents (Disk.mk img direct_events)) b = default (Disk.blk bs img b) (dirty !! b).
Proof using Hbs.
  intros Hb. destruct (stages_ok H) as (O1 & O2 & O3). destruct stages_nodup as (N1 & N2 & N3).
  pose proof (zlen_block_writes bs Hbs _ _ O1) as Z1.
  pose proof (ws_ok_size bs _ _ _ Z1 O2) as P2. pose proof (zlen_block_writes bs Hbs _ _ P2) as Z2.
  pose proof (ws_ok_size bs _ _ _ (eq_trans Z2 Z1) O3) as P3.
  unfold direct_events. rewrite app_assoc.
  change (Disk.contents _) with (Disk.contents (Disk.mk (Disk.base (Disk.mk img (stage_events bs early ++ stage_events bs late)))
    (Disk.events (Disk.mk img (stage_events bs early ++ stage_events bs late)) ++ stage_events bs last_stage))).
  rewrite contents_stage.
  change (Disk.contents (Disk.mk img (stage_events bs early ++ stage_events bs late))) with
    (Disk.contents (Disk.mk (Disk.base (Disk.mk img (stage_events bs early)))
      (Disk.events (Disk.mk img (stage_events bs early)) ++ stage_events bs late))).
  rewrite contents_stage.
  change (Disk.contents (Disk.mk img (stage_events bs early))) with
    (Disk.contents (Disk.mk (Disk.base (Disk.start img)) (Disk.events (Disk.start img) ++ stage_events bs early))).
  rewrite contents_stage. change (Disk.contents (Disk.start img)) with img.
  destruct (written_all bs Hbs _ _ O1 N1 b Hb) as [A1 B1]. destruct (written_all bs Hbs _ _ P2 N2 b Hb) as [A2 B2].
  destruct (written_all bs Hbs _ _ P3 N3 b Hb) as [A3 B3].
  destruct (dirty !! b) as [x|] eqn:E; cbn.
  - destruct (decide (b = sb_block)) as [->|Hs]; [apply B3, last_elem; done|].
    rewrite A3 by (rewrite in_keys; intros [y [_ ?]%last_elem]; done).
    destruct (decide (b ∈ descriptors)) as [Hd|Hd]; [apply B2, late_elem; done|].
    rewrite A2 by (rewrite in_keys; intros [y (_ & ? & _)%late_elem]; done). apply B1, early_elem. done.
  - rewrite A3 by (rewrite in_keys; intros [y [? _]%last_elem]; congruence).
    rewrite A2 by (rewrite in_keys; intros [y [? _]%late_elem]; congruence).
    rewrite A1 by (rewrite in_keys; intros [y [? _]%early_elem]; congruence). done.
Qed.

(** What a power failure during the commit leaves: old or new blocks, a
    descriptor block only over all the blocks of the first stage, the
    superblock only over everything. *)
Definition ordered (c : bytes) : Prop :=
  (∀ b, 0 ≤ b → Disk.blk bs c b = Disk.blk bs img b ∨ dirty !! b = Some (Disk.blk bs c b)) ∧
  (∀ b, b ∈ descriptors → b ≠ sb_block → 0 ≤ b → Disk.blk bs c b ≠ Disk.blk bs img b →
     ∀ b' x, dirty !! b' = Some x → b' ∉ descriptors → b' ≠ sb_block → Disk.blk bs c b' = x) ∧
  (Disk.blk bs c sb_block ≠ Disk.blk bs img sb_block → ∀ b x, dirty !! b = Some x → Disk.blk bs c b = x).

Lemma some_elem ws i c b x : some_of bs ws i c → 0 ≤ b → Disk.blk bs i b = x → (∀ y, (b, y) ∈ ws → y = x) → Disk.blk bs c b = x.
Proof. intros Hs Hb Hi Hw. destruct (Hs b Hb) as [->|Hin]; [done|]. by apply Hw. Qed.
Lemma some_same ws i c b : some_of bs ws i c → 0 ≤ b → (∀ y, (b, y) ∉ ws) → Disk.blk bs c b = Disk.blk bs i b.
Proof. intros Hs Hb Hw. destruct (Hs b Hb) as [->|Hin]; [done|]. by apply Hw in Hin. Qed.

Lemma crash_ordered (H : staged_ok) c : Disk.crash img direct_events c → ordered c.
Proof using Hbs.
  intros Hc. destruct (stages_ok H) as (O1 & O2 & O3). destruct stages_nodup as (N1 & N2 & N3).
  assert (Hsb : 0 ≤ sb_block) by (apply Z.div_pos; [unfold Superblock.SUPERBLOCK_OFFSET|]; lia).
  destruct H as [_ Hd].
  assert (El := λ b x, proj1 (early_elem b x)). assert (Ll := λ b x, proj1 (late_elem b x)).
  assert (Sl := λ b x, proj1 (last_elem b x)).
  apply (three_stages bs Hbs) in Hc as [S1|[(i1 & A1 & S2)|(i1 & i2 & A1 & A2 & S3)]]; try done; split_and!.
  - intros b Hb. destruct (S1 b Hb) as [->|Hin]; [by left|right]. by apply El.
  - intros b Hb Hs Hb0 Hne. destruct Hne. eapply some_same; [done..|]. intros y [_ [? _]]%El. done.
  - intros Hne. destruct Hne. eapply some_same; [done..|]. intros y [_ [_ ?]]%El. done.
  - intros b Hb. destruct (S2 b Hb) as [->|Hin]; [|right; by apply Ll].
    destruct (all_some bs _ _ _ A1 b Hb) as [->|Hin]; [by left|right; by apply El].
  - intros _ _ _ _ _ b x Hx Hnd Hns. destruct (Hd b x Hx) as [Hb _].
    eapply some_elem; [done..| |intros y [_ [? _]]%Ll; done]. apply A1; [done|]. by apply early_elem.
  - intros Hne. destruct Hne. rewrite (some_same _ _ _ _ S2); [|done|intros y (_ & _ & ?)%Ll; done].
    apply (proj1 (A1 _ Hsb)). rewrite in_keys. intros [y (_ & _ & ?)%El]. done.
  - intros b Hb. destruct (S3 b Hb) as [->|Hin]; [|right; by apply Sl].
    destruct (all_some bs _ _ _ A2 b Hb) as [->|Hin]; [|right; by apply Ll].
    destruct (all_some bs _ _ _ A1 b Hb) as [->|Hin]; [by left|right; by apply El].
  - intros _ _ _ _ _ b x Hx Hnd Hns. destruct (Hd b x Hx) as [Hb _].
    rewrite (some_same _ _ _ _ S3); [|done|intros y [_ ?]%Sl; done].
    rewrite (proj1 (A2 b Hb)); [|rewrite in_keys; intros [y (_ & ? & _)%Ll]; done]. apply A1; [done|]. by apply early_elem.
  - intros Hne b x Hx. destruct (Hd b x Hx) as [Hb _].
    destruct (S3 sb_block Hsb) as [Hsame|Hin].
    { destruct Hne. rewrite Hsame, (proj1 (A2 _ Hsb)); [|rewrite in_keys; intros [y (_ & _ & ?)%Ll]; done].
      apply (proj1 (A1 _ Hsb)). rewrite in_keys. intros [y (_ & _ & ?)%El]. done. }
    destruct (decide (b = sb_block)) as [->|Hns]; [apply Sl in Hin as [Hin _]; congruence|].
    rewrite (some_same _ _ _ _ S3); [|done|intros y [_ ?]%Sl; done].
    destruct (decide (b ∈ descriptors)); [apply A2; [done|]; by apply late_elem|].
    rewrite (proj1 (A2 b Hb)); [|rewrite in_keys; intros [y (_ & ? & _)%Ll]; done]. apply A1; [done|]. by apply early_elem.
Qed.
End direct.

(** ** Running on the recording disk *)

Lemma ask_run `{BlockDevice D} {A B} (f : Mount.t D → A) (k : A → dev_m (Mount.t D) B) m :
  (Mount.ask f ≫= k) m = k (f m) m.
Proof. done. Qed.

Lemma update_run `{BlockDevice D} {B} f (k : unit → dev_m (Mount.t D) B) m :
  (Mount.update f ≫= k) m = k () (f m).
Proof. done. Qed.

Lemma lift_run {D A B} (a : A) (k : A → dev_m D B) m : (dev_lift (Ok a) ≫= k) m = k a m.
Proof. done. Qed.

Lemma on_device_run `{BlockDevice D} {A} (p : dev_m D A) m a d :
  p (Mount.dev m) = (Ok a, d) → Mount.on_device p m = (Ok a, Mount.set_dev m d).
Proof. unfold Mount.on_device. by intros ->. Qed.

Lemma splice_self {A} (l : list A) off n : 0 ≤ off → 0 ≤ n → off + n ≤ zlen l → splice l off (sub l off n) = l.
Proof.
  intros. apply list_eq. intros i. rewrite lookup_splice by zl. case_decide as Hi; [|done].
  rewrite lookup_sub. rewrite zlen_sub in Hi by lia. rewrite decide_True by lia. f_equal. lia.
Qed.

(** The superblock copy at byte 1024, with the state word [st]. *)
Section state_word.
Context `{Crc32c} (csum : Checksummer).

Definition stamped (s : bytes) : bytes :=
  if enabled csum then splice s 0x3FC (le_split 4 (linux_crc32c u32_max (sub s 0 0x3FC))) else s.
Definition stated (st : Z) (s : bytes) : bytes := stamped (splice s 0x3A (le_split 2 st)).

Lemma stamp_superblock_ok s : zlen s = 1024 → Mount.stamp_superblock csum s = Ok (stamped s).
Proof.
  intros Hl. unfold Mount.stamp_superblock, stamped. destruct (enabled csum); [|done].
  rewrite slice_ok, bind_Ok by lia. by rewrite put_u32_ok by lia.
Qed.

Lemma zlen_stamped s : zlen s = 1024 → zlen (stamped s) = 1024.
Proof. intros Hl. unfold stamped. destruct (enabled csum); [|done]. rewrite zlen_splice; zl. Qed.

Lemma zlen_stated st s : zlen s = 1024 → zlen (stated st s) = 1024.
Proof. intros Hl. unfold stated. apply zlen_stamped. rewrite zlen_splice; zl. Qed.

Lemma le16_stated st s : zlen s = 1024 → u16_ok st → le16 (stated st s) 0x3A = st.
Proof.
  intros Hl Hst. unfold stated, stamped. destruct (enabled csum).
  - rewrite le16_splice_ne; [|lia|rewrite zlen_splice; zl|lia|left; lia].
    apply le16_splice; [lia|lia|done].
  - apply le16_splice; [lia|lia|done].
Qed.

Lemma stated_verifies st s : zlen s = 1024 → verify_superblock csum (stated st s) = Ok true.
Proof.
  intros Hl. unfold verify_superblock. destruct (enabled csum) eqn:E; [|done]. cbn [negb].
  assert (Hz := zlen_stated st s Hl). rewrite decide_False by lia.
  rewrite u32_le_ok, slice_ok by lia. rewrite !bind_Ok. f_equal. apply bool_decide_eq_true.
  unfold stated, stamped. rewrite E. set (s1 := splice s 0x3A _).
  assert (H1 : zlen s1 = 1024) by (unfold s1; rewrite zlen_splice; zl).
  rewrite le32_splice; [|lia|lia|apply linux_crc32c_range].
  by rewrite sub_splice_disjoint by (rewrite ?zlen_le_split; lia).
Qed.

(** Putting the old state back restores a superblock whose checksum was right. *)
Lemma stated_restore st s : zlen s = 1024 → bytes_ok s → verify_superblock csum s = Ok true →
  stated (le16 s 0x3A) (stated st s) = s.
Proof.
  intros Hl Hb Hv.
  assert (E16 : le_split 2 (le16 s 0x3A) = sub s 0x3A 2) by (apply le_split_combine_len; [auto with ext4|zl]).
  unfold stated. rewrite E16.
  assert (Hn : zlen (le_split 2 st) = 2) by zl.
  destruct (enabled csum) eqn:E.
  - unfold verify_superblock in Hv. rewrite E in Hv. cbn [negb] in Hv. rewrite decide_False in Hv by lia.
    rewrite u32_le_ok, slice_ok, !bind_Ok in Hv by lia. injection Hv as Hv%bool_decide_eq_true.
    unfold stamped. rewrite E. set (c1 := le_split 4 (linux_crc32c u32_max (sub (splice s _ _) _ _))).
    assert (Hc1 : zlen c1 = 4) by (unfold c1; zl).
    set (s1 := splice s 0x3A (le_split 2 st)). assert (H1 : zlen s1 = 1024) by (unfold s1; rewrite zlen_splice; zl).
    rewrite (splice_comm s1 0x3FC c1 0x3A) by (rewrite ?zlen_sub; lia).
    assert (Es : splice s1 0x3A (sub s 0x3A 2) = s).
    { unfold s1. rewrite splice_overwrite by (rewrite ?zlen_sub; lia). apply splice_self; lia. }
    rewrite Es.
    rewrite (sub_splice_disjoint s 0x3FC c1 0 0x3FC) by lia.
    rewrite splice_overwrite by zl. change u32_max with u32_ones. rewrite <-Hv.
    replace (le_split 4 (le32 s 0x3FC)) with (sub s 0x3FC 4).
    + apply splice_self; lia.
    + symmetry. apply le_split_combine_len; [auto with ext4|zl].
  - unfold stamped. rewrite E. rewrite splice_overwrite by (rewrite ?zlen_sub; lia). apply splice_self; lia.
Qed.
End state_word.

Section state_run.
Context `{Crc32c}.
Local Abbreviation sb_copy m := (sub (Disk.contents (Mount.dev m)) 1024 1024).
Local Abbreviation csum_of m := (Filesystem.csum (Mount.fs m)).

(** The medium holds a superblock. *)
Definition medium (d : Disk.t) : Prop := disk_ok d ∧ 2048 ≤ zlen (Disk.base d).

Definition put_state (csum : Checksummer) (st : Z) (d : Disk.t) : Disk.t :=
  Disk.record Disk.EvFlush (record_all [(1024, stated csum st (sub (Disk.contents d) 1024 1024))] d).

Lemma write_state_disk st (m : Mount.t Disk.t) : medium (Mount.dev m) →
  Mount.write_superblock_state st m = (Ok (), Mount.set_dev m (put_state (csum_of m) st (Mount.dev m))).
Proof.
  intros [[Hz Hb] Hsz]. unfold Mount.write_superblock_state. rewrite ask_run.
  change Superblock.SUPERBLOCK_OFFSET with 1024.
  assert (Hs : zlen (sb_copy m) = 1024) by zl.
  erewrite bind_dev; [|apply on_device_run, Disk.read_disk; lia].
  assert (E : (s ← put_u16 (sb_copy m) 0x3A st; Mount.stamp_superblock (csum_of m) s) = Ok (stated (csum_of m) st (sb_copy m))).
  { rewrite put_u16_ok, bind_Ok by lia. apply stamp_superblock_ok. rewrite zlen_splice; zl. }
  rewrite E, lift_run. clear E.
  erewrite bind_dev; [|apply on_device_run, Disk.write_disk; [lia|rewrite zlen_stated by done; cbn; lia]].
  unfold Mount.on_device. rewrite flush_disk. by rewrite record_one.
Qed.

Lemma put_state_spec csum st d : medium d → u16_ok st →
  let d' := put_state csum st d in
  medium d' ∧ Disk.contents d' = splice (Disk.contents d) 1024 (stated csum st (sub (Disk.contents d) 1024 1024)) ∧
  sub (Disk.contents d') 1024 1024 = stated csum st (sub (Disk.contents d) 1024 1024) ∧
  Disk.events d' = Disk.events d ++ Disk.epoch [(1024, stated csum st (sub (Disk.contents d) 1024 1024))].
Proof.
  intros [[Hz Hb] Hsz] Hst d'. set (s := sub (Disk.contents d) 1024 1024).
  assert (Hs : zlen s = 1024) by (unfold s; zl).
  assert (Hl := zlen_stated csum st s Hs).
  assert (Hbo : bytes_ok (stated csum st s)).
  { unfold stated, stamped. destruct (enabled csum); unfold s; auto 10 with ext4. }
  assert (Hc : Disk.contents d' = splice (Disk.contents d) 1024 (stated csum st s)).
  { unfold d', put_state. rewrite contents_flush, contents_record_all. done. }
  split; [split; [apply flush_ok, record_all_ok; [done|]|done]|].
  { apply Forall_singleton. fold s. unfold wr_ok. cbn [fst snd]. split_and!; [lia|lia|done]. }
  split; [done|]. split.
  - rewrite Hc. apply sub_splice_same_len; lia.
  - unfold d', put_state. rewrite record_epoch. done.
Qed.
End state_run.

(** ** A commit that fails *)

Section failure.
Context `{Crc32c} {D : Type} `{BlockDevice D}.

(** The writer is left unhealthy; at least when the program fails. *)
Definition stays {A} (p : dev_m (JournalWriter.t * D) A) : Prop :=
  ∀ s, JournalWriter.healthy (fst s) = false → JournalWriter.healthy (fst (snd (p s))) = false.
Definition fails_unhealthy {A} (p : dev_m (JournalWriter.t * D) A) : Prop :=
  ∀ s, JournalWriter.healthy (fst s) = false →
    (∃ a s', p s = (Ok a, s')) ∨ JournalWriter.healthy (fst (snd (p s))) = false.

Lemma stays_fails {A} (p : dev_m (JournalWriter.t * D) A) : stays p → fails_unhealthy p.
Proof. intros Hp s Hs. right. by apply Hp. Qed.

Lemma stays_on_dev {A} (p : dev_m D A) : stays (JournalWriter.on_dev p).
Proof. intros [w d] Hs. unfold JournalWriter.on_dev. cbn in *. by destruct (p d). Qed.

Lemma fails_bind {A B} (p : dev_m (JournalWriter.t * D) A) (f : A → dev_m (JournalWriter.t * D) B) :
  stays p → (∀ a, fails_unhealthy (f a)) → fails_unhealthy (p ≫= f).
Proof.
  intros Hp Hf s Hs. specialize (Hp s Hs). unfold mbind, dev_bind.
  destruct (p s) as [[a|e| |] s1] eqn:E; [by apply Hf|by right..].
Qed.

Lemma stays_ret {A} (a : A) : stays (mret a).
Proof. by intros s. Qed.

Lemma stays_if {A} (b : bool) (p q : dev_m (JournalWriter.t * D) A) : stays p → stays q → stays (if b then p else q).
Proof. by destruct b. Qed.

Lemma lift_bind {S A B} (r : res A) (f : A → dev_m S B) s : (dev_lift r ≫= f) s =
  match r with Ok a => f a s | Err e => (Err e, s) | Panic => (Panic, s) | OutOfFuel => (OutOfFuel, s) end.
Proof. by destruct r. Qed.

Lemma writer_run {A} (f : JournalWriter.t → dev_m (JournalWriter.t * D) A) w d :
  (JournalWriter.the_writer ≫= f) (w, d) = f w (w, d).
Proof. done. Qed.

Lemma writable_run {A} (f : bool → dev_m (JournalWriter.t * D) A) w d :
  (JournalWriter.on_dev dev_writable ≫= f) (w, d) = f (is_writable d) (w, d).
Proof. done. Qed.

Lemma modify_runs {A} g (f : unit → dev_m (JournalWriter.t * D) A) w d :
  (JournalWriter.modify g ≫= f) (w, d) = f () (g w, d).
Proof. done. Qed.

(** A commit that fails either did nothing or left its writer unhealthy. *)
Lemma commit_failure tx w d e w' d' :
  JournalWriter.commit tx (w, d) = (Err e, (w', d')) → (w' = w ∧ d' = d) ∨ JournalWriter.healthy w' = false.
Proof.
  unfold JournalWriter.commit. rewrite writer_run.
  destruct (JournalWriter.healthy w) eqn:Hh; cbn [negb]; [|intros [= _ <- <-]; by left].
  unfold JournalWriter.commit_inner. rewrite writable_run.
  destruct (is_writable d); cbn [negb]; [|intros [= _ <- <-]; by left].
  rewrite writer_run, lift_bind.
  destruct (JournalWriter.check_tx w tx) as [[]|e1| |]; [|intros [= _ <- <-]; by left|discriminate..].
  rewrite lift_bind. destruct (JournalWriter.patched_tx w tx) as [tx'|e1| |]; [|intros [= _ <- <-]; by left|discriminate..].
  rewrite lift_bind. destruct (commit_for tx' (JournalWriter.jsb w)) as [blocks|e1| |]; [|intros [= _ <- <-]; by left|discriminate..].
  case_decide; [discriminate|]. case_decide; [intros [= _ <- <-]; by left|].
  rewrite modify_runs. match goal with |- ?p ?s = _ → _ => assert (Hp : fails_unhealthy p) end.
  { repeat first [apply fails_bind; [apply stays_on_dev|intros ?] | apply fails_bind; [by intros s|intros ?]
      | apply fails_bind; [apply stays_if; [apply stays_ret|apply stays_on_dev]|intros ?]]. left. by eexists _, _. }
  intros E. destruct (Hp (JournalWriter.set_healthy false w, d) eq_refl) as [(a & s' & Ea)|Hu].
  - rewrite Ea in E. discriminate.
  - rewrite E in Hu. by right.
Qed.
End failure.

(** ** The claims *)

(** C5: an unjournaled commit is ordered against power failures: it ends with
    every staged block in place and the cleared uninit flags published, and a
    failure during it leaves each block old or new, a descriptor block that
    clears an uninit flag new only once every block of the first stage is, and
    the superblock new only once everything is. *)
Theorem direct_commit_ordered `{Crc32c} (m : Mount.t Disk.t) buf img descriptors :
  Mount.journal m = None → Mount.dev m = Disk.start img → dirty buf ≠ ∅ →
  Mount.flag_blocks (Filesystem.sb (Mount.fs m)) (uninit_cleared buf) = Ok descriptors →
  let bs := Filesystem.block_size (Mount.fs m) in
  0 < bs → staged_ok bs img (dirty buf) →
  ∃ m', Mount.commit_block_buffer buf m = (Ok (), m') ∧
    Mount.alloc m' = publish (Mount.alloc m) (uninit_cleared buf) ∧
    (∀ b, 0 ≤ b → Disk.blk bs (Disk.contents (Mount.dev m')) b = default (Disk.blk bs img b) (dirty buf !! b)) ∧
    ∀ c, Disk.crash img (Disk.events (Mount.dev m')) c → ordered bs img (dirty buf) descriptors c.
Proof.
  intros Hj Hd Hne Hf bs Hbs Hok. eexists. split.
  - unfold Mount.commit_block_buffer. rewrite decide_False by done. rewrite ask_run, Hj, ask_run, Hf, lift_run.
    erewrite bind_dev; [reflexivity|]. unfold Mount.or_retire.
    erewrite on_device_run by (rewrite Hd; by apply write_direct_disk). reflexivity.
  - cbn. split; [done|]. split; [intros; by apply block_of_direct|]. intros c. by apply crash_ordered.
Qed.

(** C11: the state word.  The first write of a mount takes EXT4_VALID_FS down in
    the superblock, durably and with its checksum right; a second guard writes
    nothing; whatever is written in between, the drop puts the state word the
    mount found back, and over an unchanged superblock it restores the volume
    byte for byte, as a release by [finish] does. *)
Theorem state_word_roundtrip `{Crc32c} (m : Mount.t Disk.t) :
  medium (Mount.dev m) → let s := sub (Disk.contents (Mount.dev m)) 1024 1024 in
  let csum := Filesystem.csum (Mount.fs m) in
  let st := Superblock.state (Filesystem.sb (Mount.fs m)) in
  st = le16 s 0x3A → verify_superblock csum s = Ok true →
  Mount.marked_not_clean m = false → Mount.write_refusal m = Ok () → Mount.journal_failed m = false →
  ∃ m1, Mount.refuse_write m = (Ok (), m1) ∧ Mount.refuse_write m1 = (Ok (), m1) ∧
    (let s1 := sub (Disk.contents (Mount.dev m1)) 1024 1024 in
     le16 s1 0x3A = Z.ldiff st Superblock.EXT4_VALID_FS ∧ verify_superblock csum s1 = Ok true) ∧
    (∃ w, Disk.events (Mount.dev m1) = Disk.events (Mount.dev m) ++ Disk.epoch [w]) ∧
    (∀ d, medium d → let d' := Mount.dev (Mount.drop (Mount.set_dev m1 d)) in
       le16 (sub (Disk.contents d') 1024 1024) 0x3A = st) ∧
    Disk.contents (Mount.dev (Mount.drop m1)) = Disk.contents (Mount.dev m) ∧
    (Mount.managed_recovery m = false →
       ∃ d, Mount.finish m1 = (Ok (), d) ∧ Disk.contents d = Disk.contents (Mount.dev m)).
Proof.
  intros Hm s csum st Est Hv Hmark Hw Hjf. pose proof Hm as [[Hz Hb] Hsz].
  assert (Hs : zlen s = 1024) by (unfold s; zl). assert (Hsb : bytes_ok s) by (unfold s; auto with ext4).
  assert (Hst : u16_ok st) by (rewrite Est; apply le16_range; auto with ext4).
  set (st' := Z.ldiff st Superblock.EXT4_VALID_FS).
  assert (Hst' : u16_ok st') by (apply ldiff_spec_range; [exact Hst|lia|vm_compute; discriminate]).
  assert (Hfail : Mount.direct_commit_failed m = false).
  { unfold Mount.write_refusal in Hw. destruct (Mount.direct_commit_failed m); [by destruct (negb _)|done]. }
  destruct (put_state_spec csum st' (Mount.dev m) Hm Hst') as (M1 & C1 & S1 & E1). fold s in C1, S1, E1.
  set (d1 := put_state csum st' (Mount.dev m)) in *.
  set (m1 := Mount.set_marked (Mount.set_dev (Mount.set_found m st) d1) true).
  assert (Hdrop : ∀ d, medium d → Mount.drop (Mount.set_dev m1 d) =
                  Mount.set_dev (Mount.set_dev m1 d) (put_state csum st d)).
  { intros d Hd. unfold Mount.drop. cbn [Mount.marked_not_clean Mount.dev Mount.set_dev Mount.set_marked m1].
    change (Mount.journal_failed (Mount.set_dev m1 d)) with (Mount.journal_failed m). rewrite Hjf.
    change (Mount.direct_commit_failed (Mount.set_dev m1 d)) with (Mount.direct_commit_failed m). rewrite Hfail.
    cbn [is_writable Disk.disk_device negb andb]. by rewrite write_state_disk. }
  assert (Hback : Disk.contents (put_state csum st d1) = Disk.contents (Mount.dev m)).
  { destruct (put_state_spec csum st d1 M1 Hst) as (_ & C2 & _). rewrite C2, S1, Est, stated_restore by done.
    rewrite C1, splice_overwrite by (rewrite ?zlen_stated; lia). unfold s. apply splice_self; lia. }
  exists m1. split_and!.
  - unfold Mount.refuse_write. rewrite ask_run, Hw, lift_run. unfold Mount.mark_not_clean_once.
    rewrite ask_run, Hmark, ask_run, update_run. by erewrite bind_dev; [|by apply write_state_disk].
  - unfold Mount.refuse_write. rewrite ask_run. change (Mount.write_refusal m1) with (Mount.write_refusal m).
    rewrite Hw, lift_run. done.
  - change (Mount.dev m1) with d1. cbv zeta. rewrite S1. split; [by apply le16_stated|by apply stated_verifies].
  - eexists. exact E1.
  - intros d Hd. cbv zeta. rewrite Hdrop by done. cbn [Mount.dev Mount.set_dev].
    destruct (put_state_spec csum st d Hd Hst) as (_ & _ & S2 & _). rewrite S2. apply le16_stated; [|done].
    destruct Hd as [[Hzd _] Hsd]. zl.
  - pose proof (Hdrop d1 M1) as E. change (Mount.set_dev m1 d1) with m1 in E. rewrite E. exact Hback.
  - intros Hman. set (d2 := Disk.record Disk.EvFlush d1).
    assert (Hc2 : Disk.contents d2 = Disk.contents d1) by apply contents_flush.
    assert (M2 : medium d2) by (split; [by apply flush_ok, M1|apply M1]).
    assert (Ef : Mount.flush m1 = (Ok (), Mount.set_dev m1 d2)).
    { unfold Mount.flush. rewrite ask_run. cbn [id].
      change (Mount.direct_commit_failed m1) with (Mount.direct_commit_failed m). rewrite Hfail.
      change (Mount.journal_failed m1) with (Mount.journal_failed m). rewrite Hjf.
      erewrite bind_dev by (apply on_device_run, flush_disk).
      change (Mount.managed_recovery m1) with (Mount.managed_recovery m). by rewrite Hman. }
    exists (put_state csum st d2). split.
    + unfold Mount.finish, Mount.finish_body. rewrite (bind_dev _ _ _ _ _ Ef), ask_run. cbn [id].
      change (Mount.managed_recovery (Mount.set_dev m1 d2)) with (Mount.managed_recovery m). rewrite Hman.
      unfold Mount.restore_state_found. rewrite ask_run. cbn [id Mount.marked_not_clean Mount.set_dev m1 Mount.set_marked negb].
      rewrite (bind_dev _ _ _ _ _ (write_state_disk st (Mount.set_dev m1 d2) M2)). done.
    + destruct (put_state_spec csum st d2 M2 Hst) as (_ & Ca & _).
      destruct (put_state_spec csum st d1 M1 Hst) as (_ & Cb & _). by rewrite Ca, Hc2, <-Cb.
Qed.

(** C10: a commit that fails retires the mount.  Either it was refused before
    any I/O and the mount is as it was, or: its clears are not published, the
    drop writes nothing, a flush reports the failure, and no later write gets
    through -- the guard answers ReadOnly where there is no journal, and the
    failed writer refuses every commit where there is one. *)
Theorem failed_commit_retires `{Crc32c} {D} `{BlockDevice D} (m m' : Mount.t D) buf e :
  Mount.commit_block_buffer buf m = (Err e, m') →
  m' = m ∨
  (Mount.alloc m' = Mount.alloc m ∧ Mount.drop m' = m' ∧
   (∃ e', Mount.flush m' = (Err e', m')) ∧
   match Mount.journal m' with
   | None => Mount.refuse_write m' = (Err ReadOnly, m')
   | Some _ => ∀ buf', snd (Mount.commit_block_buffer buf' m') = m'
   end).
Proof.
  unfold Mount.commit_block_buffer at 1. case_decide; [discriminate|]. rewrite ask_run.
  destruct (Mount.journal m) as [w|] eqn:Hj.
  - unfold Mount.commit_journaled, mbind at 1, dev_bind at 1.
    destruct (Mount.add_writes _ _) as [tx|e1| |]; [|intros [= _ <-]; by left|discriminate..].
    destruct (JournalWriter.commit tx (w, Mount.dev m)) as [[u|e1| |] [w' d']] eqn:Ec; try discriminate.
    intros [= -> <-]. apply commit_failure in Ec as [[-> ->]|Hu].
    { left. unfold Mount.set_journal, Mount.set_dev. cbn. rewrite <-Hj. by destruct m. }
    right. cbn [Mount.alloc Mount.set_journal Mount.set_dev Mount.journal].
    assert (Hf : ∀ m' : Mount.t D, Mount.journal m' = Some w' → Mount.journal_failed m' = true).
    { intros m' E. unfold Mount.journal_failed. rewrite E. unfold JournalWriter.is_healthy. by rewrite Hu. }
    split; [done|]. split; [|split].
    + unfold Mount.drop. rewrite Hf by done. cbn [negb]. by rewrite andb_false_r, andb_false_l.
    + unfold Mount.flush. rewrite ask_run. cbn [id]. case_match; [by eexists|]. rewrite Hf by done. by eexists.
    + intros buf'. unfold Mount.commit_block_buffer. case_decide; [done|]. rewrite ask_run.
      cbn [Mount.journal Mount.set_journal]. unfold Mount.commit_journaled, mbind at 1, dev_bind at 1.
      destruct (Mount.add_writes _ _) as [tx'|e1| |]; try done.
      unfold JournalWriter.commit. rewrite writer_run, Hu. done.
  - rewrite ask_run, lift_bind. destruct (Mount.flag_blocks _ _) as [ds|e1| |]; [|intros [= _ <-]; by left|discriminate..].
    unfold Mount.or_retire, mbind at 1, dev_bind at 1.
    destruct (Mount.on_device _ m) as [[u|e1| |] m1] eqn:Ed; try discriminate. intros [= -> <-]. right.
    assert (Hm1 : ∃ d1, m1 = Mount.set_dev m d1).
    { revert Ed. unfold Mount.on_device. destruct (Mount.write_direct _ _ _ _) as [r d1]. intros [= _ <-]. by eexists. }
    destruct Hm1 as [d1 ->]. cbn [Mount.journal Mount.set_failed Mount.set_dev]. rewrite Hj.
    split; [done|]. split; [|split].
    + unfold Mount.drop. cbn [Mount.direct_commit_failed Mount.set_failed negb]. by rewrite andb_false_r.
    + unfold Mount.flush. rewrite ask_run. cbn. by eexists.
    + unfold Mount.refuse_write. rewrite ask_run. unfold Mount.write_refusal.
      cbn [Mount.direct_commit_failed Mount.set_failed Mount.dev Mount.set_dev]. by destruct (negb (is_writable d1)).
Qed.

(** ** Witnesses *)

(** A mount without a journal on a volume of sixty-four blocks. *)
Definition sample_fs : res Filesystem.t := sb ← Bgd.sample_sb 256 64; Ok (Filesystem.mk sb [] (mkChecksummer 0 false)).
Definition sample_state (f : Filesystem.t) (img : bytes) : Mount.t Disk.t :=
  Mount.mk (Disk.start img) f (mkAlloc ∅ None) None false 0 false false false.
Definition sample_buffer : BlockBuffer :=
  mkBuffer {[1 := zrep 1024 1; 2 := zrep 1024 2; 5 := zrep 1024 5]} {[0 := 0]}.

Lemma direct_commit_ordered_witness : ∃ f m', sample_fs = Ok f ∧
  @Mount.commit_block_buffer castagnoli _ _ sample_buffer (sample_state f (zrep (64 * 1024) 0)) = (Ok (), m') ∧
  ∀ c, Disk.crash (zrep (64 * 1024) 0) (Disk.events (Mount.dev m')) c →
    Disk.blk 1024 c 1 ≠ Disk.blk 1024 (zrep (64 * 1024) 0) 1 → Disk.blk 1024 c 5 = zrep 1024 5.
Proof.
  destruct sample_fs as [f| | |] eqn:Ef; try (vm_compute in Ef; discriminate Ef). exists f.
  assert (Hbs : Filesystem.block_size f = 1024) by (vm_compute in Ef; injection Ef as <-; vm_compute; reflexivity).
  destruct (@direct_commit_ordered castagnoli (sample_state f (zrep (64 * 1024) 0)) sample_buffer (zrep (64 * 1024) 0) {[2]})
    as (m' & E & _ & _ & Hc).
  - reflexivity.
  - reflexivity.
  - intros H. vm_compute in H. discriminate H.
  - vm_compute in Ef. injection Ef as <-. vm_compute. reflexivity.
  - cbn [sample_state Mount.fs]. rewrite Hbs. lia.
  - cbn [sample_state Mount.fs]. rewrite Hbs. split; [rewrite zlen_zrep; lia|]. intros b x.
    unfold sample_buffer. cbn [dirty].
    rewrite !lookup_insert_Some, lookup_singleton_Some, zlen_zrep. intros Hx.
    destruct Hx as [[<- <-]|[_ [[<- <-]|[_ [<- <-]]]]]; rewrite zlen_zrep; lia.
  - exists m'. split; [reflexivity|]. split; [exact E|]. intros c Hcr Hne. cbn [sample_state Mount.fs] in Hc. rewrite Hbs in Hc.
    destruct (Hc c Hcr) as (_ & _ & Hlast). apply Hlast; [exact Hne|]. vm_compute. reflexivity.
Defined.

Lemma state_word_roundtrip_witness : ∃ f m1, sample_fs = Ok f ∧
  @Mount.refuse_write castagnoli _ _ (sample_state f (Bgd.sample_volume 256 64)) = (Ok (), m1) ∧
  Disk.contents (Mount.dev (@Mount.drop castagnoli _ _ m1)) = Bgd.sample_volume 256 64.
Proof.
  destruct sample_fs as [f| | |] eqn:Ef; try (vm_compute in Ef; discriminate Ef). exists f.
  destruct (@state_word_roundtrip castagnoli (sample_state f (Bgd.sample_volume 256 64))) as (m1 & E & _ & _ & _ & _ & Hd & _).
  - split; [split; [reflexivity|]|]; cbn [Mount.dev sample_state]; change (Disk.contents (Disk.start ?i)) with i.
    + by_compute.
    + vm_compute. discriminate.
  - vm_compute in Ef. injection Ef as <-. vm_compute. reflexivity.
  - vm_compute in Ef. injection Ef as <-. vm_compute. reflexivity.
  - reflexivity.
  - vm_compute in Ef. injection Ef as <-. vm_compute. reflexivity.
  - reflexivity.
  - exists m1. split; [reflexivity|]. split; [exact E|]. rewrite Hd. cbn [Mount.dev sample_state].
    assert (Hs : ∀ img, Disk.contents (Disk.start img) = img) by (intros img; reflexivity). apply Hs.
Defined.

Lemma failed_commit_retires_witness : ∃ f e m', sample_fs = Ok f ∧
  @Mount.commit_block_buffer castagnoli _ _ (put_block new_buffer 90 (zrep 1024 9)) (sample_state f (Bgd.sample_volume 256 64)) = (Err e, m') ∧
  (m' = sample_state f (Bgd.sample_volume 256 64) ∨
   Mount.alloc m' = mkAlloc ∅ None ∧ @Mount.drop castagnoli _ _ m' = m' ∧
   (∃ e', @Mount.flush castagnoli _ _ m' = (Err e', m')) ∧
   match Mount.journal m' with
   | None => @Mount.refuse_write castagnoli _ _ m' = (Err ReadOnly, m')
   | Some _ => ∀ buf', snd (@Mount.commit_block_buffer castagnoli _ _ buf' m') = m'
   end).
Proof.
  destruct sample_fs as [f| | |] eqn:Ef; try (vm_compute in Ef; discriminate Ef). exists f.
  assert (Hr : match fst (@Mount.commit_block_buffer castagnoli _ _ (put_block new_buffer 90 (zrep 1024 9))
                 (sample_state f (Bgd.sample_volume 256 64))) with Err _ => true | _ => false end = true).
  { vm_compute in Ef. injection Ef as <-. vm_compute. reflexivity. }
  destruct (@Mount.commit_block_buffer castagnoli _ _ (put_block new_buffer 90 (zrep 1024 9)) (sample_state f (Bgd.sample_volume 256 64)))
    as [[u|e| |] m'] eqn:E; try discriminate Hr.
  exists e, m'. split; [reflexivity|]. split; [reflexivity|]. exact (@failed_commit_retires castagnoli _ _ _ _ _ _ E).
Defined.
