(* ===== verification/Stage.v ===== *)
(** Stage: building a transaction (src/src/fs.rs): the programs over a staged
    buffer that the operations of a mount are made of.  External attribute
    blocks, the release of a file's blocks, the reclaim of an orphan,
    truncation, and inline files.  Directories are in DirEdit; the operations
    that run these programs and commit what they staged are in Operations. *)
From S2P Require Import Prelude Errors Bytes Device Features Superblock Checksum Bgd Extent ExtentMut FileMut Inode Indirect IndirectMut Xattr InlineMut Alloc Filesystem InodeEdit FileIo BlockBuffer FsRead.

(** ** Programs over a transaction

    What a mutating operation threads: the buffer it stages into, and the
    mount's allocation state, whose memo a plan may fill.  As with a device, a
    failure keeps what was staged before it: a caller that goes on after an
    error goes on with that. *)
Record staged := mkStaged { buffer : BlockBuffer; space : AllocationState }.
Abbreviation tx := (dev_m staged).

Definition begin (st : AllocationState) : staged := mkStaged new_buffer st.

Definition on_buffer {A} (f : BlockBuffer → res (A * BlockBuffer)) : tx A := λ s,
  match f (buffer s) with
  | Ok (a, b) => (Ok a, mkStaged b (space s))
  | Err e => (Err e, s) | Panic => (Panic, s) | OutOfFuel => (OutOfFuel, s)
  end.
Definition staging (f : BlockBuffer → res BlockBuffer) : tx unit :=
  on_buffer (λ b, b ← f b; Ok ((), b)).
(** A read of what is staged, and of the allocation state. *)
Definition seeing {A} (f : BlockBuffer → res A) : tx A := λ s, (f (buffer s), s).
Definition planning {A} (f : AllocationState → BlockBuffer → res (A * AllocationState)) : tx A := λ s,
  match f (space s) (buffer s) with
  | Ok (a, st) => (Ok a, mkStaged (buffer s) st)
  | Err e => (Err e, s) | Panic => (Panic, s) | OutOfFuel => (OutOfFuel, s)
  end.

(** [for x in l { .. }] in a program, and with an accumulator. *)
Fixpoint fold_m {S A B} (f : B → A → dev_m S B) (b : B) (l : list A) : dev_m S B :=
  match l with
  | [] => mret b
  | x :: l => b ← f b x; fold_m f b l
  end.
Fixpoint each {S A} (f : A → dev_m S unit) (l : list A) : dev_m S unit :=
  match l with
  | [] => mret ()
  | x :: l => _ ← f x; each f l
  end.

(** [let Ok(x) = r else { .. }]: the error is dropped, a panic is not. *)
Definition attempt {A} (r : res A) : res (option A) :=
  match r with Ok a => Ok (Some a) | Err _ => Ok None | Panic => Panic | OutOfFuel => OutOfFuel end.
(** [match p { Ok(a) => .., Err(e) => .. }] *)
Definition catch {S A} (p : dev_m S A) : dev_m S (A + Error) := λ s,
  match p s with
  | (Ok a, s) => (Ok (inl a), s)
  | (Err e, s) => (Ok (inr e), s)
  | (Panic, s) => (Panic, s)
  | (OutOfFuel, s) => (OutOfFuel, s)
  end.

(** [u32::try_from(x)] *)
Definition try_u32 (x : Z) (e : Error) : res Z := if decide (x < 2 ^ 32) then Ok x else Err e.

Section fs.
Context `{Crc32c} (fs : Filesystem.t) (dev : reader) (now : Z).
Local Abbreviation sb := (Filesystem.sb fs).
Local Abbreviation csum := (Filesystem.csum fs).
Local Abbreviation bs := (Filesystem.block_size fs).

Definition put_staged (block : Z) (b : bytes) : tx unit := staging (λ buf, Ok (put_block buf block b)).
(** [buf.get_mut(block)?.clone()] *)
Definition fetch (block : Z) : tx bytes := on_buffer (λ buf, get_mut fs dev buf block).
Definition write_inode (ino : Z) (raw : bytes) : tx unit :=
  staging (λ buf, buffer_write_inode fs dev buf ino raw).
Definition free_run (start len : Z) : tx Z :=
  on_buffer (λ buf, buffer_free_block_run_and_bgd fs dev buf start len).
Definition free_runs (runs : list (Z * Z)) : tx Z := on_buffer (λ buf, buffer_free_runs fs dev buf runs).
Definition patch_sb_counters (blocks inodes : Z) : tx unit :=
  staging (λ buf, buffer_patch_sb_counters fs dev buf blocks inodes).
Definition allocate_block (ino : Z) : tx Z := λ s,
  match buffer_allocate_block fs dev (space s) (buffer s) ino with
  | Ok (block, buf, st) => (Ok block, mkStaged buf st)
  | Err e => (Err e, s) | Panic => (Panic, s) | OutOfFuel => (OutOfFuel, s)
  end.

Definition dtime_now : Z := as_u32 now.

(** ** The external attribute block *)

Definition buffer_read_xattr_block (block_nr : Z) : tx bytes :=
  block ← fetch block_nr;
  _ ← dev_lift (check_external_block csum block_nr block);
  mret block.

(** [if self.csum.enabled { self.csum.patch_xattr_block(..) }] *)
Definition stamp_xattr_block (block_nr : Z) (block : bytes) : res bytes :=
  if enabled csum then '(_, block) ← patch_xattr_block csum block_nr block; Ok block else Ok block.

Definition buffer_release_xattr_block (block_nr : Z) : tx Z :=
  block ← buffer_read_xattr_block block_nr;
  refs ← dev_lift (u32_le block 4);
  if decide (refs ≤ 1) then free_run block_nr 1 else
  block ← dev_lift (b ← put_u32 block 4 (refs - 1); stamp_xattr_block block_nr b);
  _ ← put_staged block_nr block;
  mret 0.

Definition buffer_unshare_xattr_block (ino old_nr : Z) (block : bytes) : tx Z :=
  new_nr ← allocate_block ino;
  block ← dev_lift (b ← put_u32 block 4 1; stamp_xattr_block new_nr b);
  _ ← put_staged new_nr block;
  _ ← buffer_release_xattr_block old_nr;
  mret new_nr.

(** Whether the name was there, and the inode image as it then is. *)
Definition buffer_remove_from_external_block (ino : Z) (inode : Inode.t) (raw name : bytes) : tx (bool * bytes) :=
  let block_nr := Inode.file_acl inode in
  if decide (block_nr = 0) then mret (false, raw) else
  block ← buffer_read_xattr_block block_nr;
  refs ← dev_lift (u32_le block 4);
  '(outcome, block) ← dev_lift (plan_remove_from_external_block block name 1);
  match outcome with
  | BlockNotFound => mret (false, raw)
  | BlockRemoved =>
      if decide (1 < refs) then
        new_nr ← buffer_unshare_xattr_block ino block_nr block;
        raw ← dev_lift (write_file_acl raw new_nr);
        mret (true, raw)
      else
        block ← dev_lift (stamp_xattr_block block_nr block);
        _ ← put_staged block_nr block;
        mret (true, raw)
  | RemovedNowEmpty =>
      freed ← buffer_release_xattr_block block_nr;
      _ ← patch_sb_counters (as_i64 freed) 0;
      raw ← dev_lift (raw ← write_file_acl raw 0;
        patch_inode_size_and_blocks raw (Inode.size inode) (saturating_sub (Inode.blocks inode) (bs / 512)));
      mret (true, raw)
  end.

(** The end of every attribute edit: the change time, the checksum, the
    inode. *)
Definition stamp_and_stage (ino : Z) (inode : Inode.t) (raw : bytes) : tx unit :=
  raw ← dev_lift (raw ← set_inode_time raw Ctime now; finalize_inode_raw fs ino (Inode.generation inode) raw);
  write_inode ino raw.

Definition apply_setxattr_external_block (ino : Z) (inode : Inode.t) (raw name value : bytes) : tx unit :=
  _ ← (if decide (Z.land (Superblock.feature_compat sb) Compat.EXT_ATTR = 0)
       then staging (λ buf, buffer_patch_sb_compat fs dev buf Compat.EXT_ATTR) else mret ());
  let block_nr := Inode.file_acl inode in
  if decide (block_nr ≠ 0) then
    block ← buffer_read_xattr_block block_nr;
    refs ← dev_lift (u32_le block 4);
    '(_, block) ← dev_lift (plan_set_in_external_block block name value 1);
    raw ← (if decide (1 < refs) then
             new_nr ← buffer_unshare_xattr_block ino block_nr block;
             dev_lift (write_file_acl raw new_nr)
           else
             block ← dev_lift (stamp_xattr_block block_nr block);
             _ ← put_staged block_nr block;
             mret raw);
    stamp_and_stage ino inode raw
  else
    let ipg := Superblock.inodes_per_group sb in
    if decide (ipg = 0) then dev_lift Panic else
    plan ← planning (λ st _,
      '(gs, st) ← allocation_groups (Filesystem.groups fs) st;
      plan ← plan_block_allocation sb gs (Filesystem.read_block fs dev) 1 (as_u32 (ino - 1) / ipg);
      Ok (plan, st));
    let block_nr := first_block plan in
    block ← dev_lift ('(_, b) ← plan_set_in_external_block (zrep bs 0) name value 1; stamp_xattr_block block_nr b);
    _ ← put_staged block_nr block;
    _ ← staging (λ buf, buffer_mark_block_run_used fs dev buf block_nr 1);
    let b := bp_bgd plan in
    _ ← staging (λ buf, buffer_patch_bgd_counters fs dev buf (group_idx b)
                  (bgd_free_blocks_delta b) (bgd_free_inodes_delta b) (used_dirs_delta b));
    _ ← patch_sb_counters (sb_free_blocks_delta (bp_sb plan)) (sb_free_inodes_delta (bp_sb plan));
    raw ← dev_lift (raw ← write_file_acl raw block_nr;
      patch_inode_size_and_blocks raw (Inode.size inode) (Z.min (Inode.blocks inode + bs / 512) u64_max));
    stamp_and_stage ino inode raw.

(** ** Releasing a block map *)

Definition xattr_block_sectors (inode : Inode.t) : Z :=
  if decide (Inode.file_acl inode ≠ 0) then bs / 512 else 0.

Definition holds_block_map (inode : Inode.t) : bool :=
  bool_decide (Z.land (Inode.flags inode) InodeFlags.INLINE_DATA = 0) &&
  bool_decide (xattr_block_sectors inode < Inode.blocks inode).

(** The blocks of a collected tree, given back. *)
Definition free_collected (freed : IndirectMut.FreedBlocks) : tx Z :=
  n ← fold_m (λ n r, k ← free_run (IndirectMut.start r) (IndirectMut.len r); mret (as_u64 (n + k))) 0
        (IndirectMut.data_runs freed);
  fold_m (λ n b, k ← free_run b 1; mret (as_u64 (n + k))) n (IndirectMut.indirect_blocks freed).

Definition buffer_free_block_map (inode : Inode.t) : tx Z :=
  if negb (holds_block_map inode) then mret 0 else
  freed ← dev_lift (IndirectMut.collect_for_free dev bs (Inode.block inode) (as_u32 (div_ceil (Inode.size inode) bs)));
  free_collected freed.

(** ** Truncation *)

(** The planned mutations of a truncated extent tree, its tree blocks carrying
    their checksums. *)
Definition plan_inode_truncate (ino : Z) (inode : Inode.t) (new_size : Z) : res (SizeChange * list ExtentMutation) :=
  if negb (Inode.has_extents inode) then Err (Unsupported "truncate of legacy block mappings") else
  let read block :=
    b ← Filesystem.read_block fs dev block;
    ok ← verify_extent_tail csum ino (Inode.generation inode) b;
    if negb ok then Err (BadChecksum "extent block") else Ok b in
  '(change, mutations) ← plan_truncate_shrink_deep (Inode.size inode) new_size (Inode.block inode) bs
                           (Superblock.blocks_count sb) read;
  mutations ← traverse (λ m,
    match m with
    | WriteTreeBlock block b => '(_, b) ← patch_extent_tail csum ino (Inode.generation inode) b; Ok (WriteTreeBlock block b)
    | _ => Ok m
    end) mutations;
  Ok (change, mutations).

(** The loop over the mutations: the raw inode, the blocks and the sectors
    freed so far. *)
Record truncating := mkTruncating { t_raw : bytes; freed_blocks : Z; freed_sectors : Z }.
Definition truncate_step (unexpected : string) (t : truncating) (m : ExtentMutation) : tx truncating :=
  match m with
  | WriteRoot b =>
      raw ← dev_lift (patch_inode_block_area (t_raw t) b);
      mret (mkTruncating raw (freed_blocks t) (freed_sectors t))
  | WriteTreeBlock block b => _ ← put_staged block b; mret t
  | FreePhysicalRun start len =>
      n ← free_run start len;
      mret (mkTruncating (t_raw t) (as_u64 (freed_blocks t + n)) (as_u64 (freed_sectors t + len * (bs / 512))))
  | _ => dev_lift (Err (Corrupt unexpected))
  end.

(** Clear what a retained partial block holds past the new end. *)
Definition clear_tail (inode : Inode.t) (new_size : Z) : tx unit :=
  let tail := new_size mod bs in
  if decide (tail = 0) then mret () else
  o ← dev_lift (map_inode_logical fs dev inode (new_size / bs));
  match o with
  | Some block => staging (edit fs dev block (λ b, put b tail (zrep (zlen b - tail) 0)))
  | None => mret ()
  end.

(** [apply_truncate_shrink] past its checks, for a file that is not inline. *)
Definition truncate_shrink (ino : Z) (inode : Inode.t) (raw : bytes) (new_size : Z) : tx unit :=
  '(_, muts) ← dev_lift (plan_inode_truncate ino inode new_size);
  t ← fold_m (truncate_step "apply_truncate_shrink: unexpected mutation type") (mkTruncating raw 0 0) muts;
  _ ← clear_tail inode new_size;
  raw ← dev_lift (raw ← patch_inode_size_and_blocks (t_raw t) new_size (saturating_sub (Inode.blocks inode) (freed_sectors t));
                  finalize_inode_raw fs ino (Inode.generation inode) raw);
  _ ← write_inode ino raw;
  if decide (0 < freed_blocks t) then patch_sb_counters (as_i64 (freed_blocks t)) 0 else mret ().

Definition refuse_truncate_of (inode : Inode.t) : res unit :=
  if Inode.is_dir inode then Err IsADirectory else
  if negb (Inode.is_file inode) then Err (InvalidArgument "truncate: only a regular file has a size to change") else Ok ().

(** ** Orphans *)

Definition buffer_stamp_dtime (ino dtime : Z) : tx unit :=
  '(block, offset) ← dev_lift (Bgd.locate_inode sb (Filesystem.groups fs) ino);
  staging (edit fs dev block (λ b,
    if decide (zlen b < offset + Superblock.inode_size sb) then Err (Corrupt "inode slice exceeds block data") else
    raw ← slice b offset (Superblock.inode_size sb);
    raw ← put_u32 raw 0x14 dtime;
    generation ← u32_le raw 0x64;
    raw ← finalize_inode_raw fs ino generation raw;
    put b offset raw)).

(** [None] when the truncate cannot be planned; nothing is staged then. *)
Definition buffer_finish_interrupted_truncate (ino : Z) (parsed : Inode.t) (raw : bytes) : tx (option Z) :=
  plan ← (if Inode.has_extents parsed
          then o ← dev_lift (attempt (plan_inode_truncate ino parsed (Inode.size parsed))); mret (snd <$> o)
          else mret (Some []));
  match plan with
  | None => mret None
  | Some muts =>
      t ← fold_m (truncate_step "orphan truncate: unexpected mutation type") (mkTruncating raw 0 0) muts;
      raw ← dev_lift (if Inode.has_extents parsed
                      then patch_inode_size_and_blocks (t_raw t) (Inode.size parsed)
                             (saturating_sub (Inode.blocks parsed) (freed_sectors t))
                      else Ok (t_raw t));
      raw ← dev_lift (raw ← put_u32 raw 0x14 0; finalize_inode_raw fs ino (Inode.generation parsed) raw);
      _ ← write_inode ino raw;
      mret (Some (freed_blocks t))
  end.

Definition in_range (start len : Z) : bool :=
  bool_decide (Superblock.first_data_block sb ≤ start) &&
  match checked_add64 start len with Some e => bool_decide (e ≤ Superblock.blocks_count sb) | None => false end.

(** The blocks of an orphan's pointer tree: [None] for a tree that cannot be
    read, or that names a block outside the volume. *)
Definition orphan_block_map (parsed : Inode.t) : res (option IndirectMut.FreedBlocks) :=
  if Inode.has_extents parsed || negb (holds_block_map parsed) then Ok (Some (IndirectMut.mkFreed [] [])) else
  data_blocks ← try_u32 (div_ceil (Inode.size parsed) bs) (Corrupt "orphan: indirect file too large to map");
  o ← attempt (IndirectMut.collect_for_free dev bs (Inode.block parsed) data_blocks);
  match o with
  | None => Ok None
  | Some tree =>
      if forallb (λ r, in_range (IndirectMut.start r) (IndirectMut.len r)) (IndirectMut.data_runs tree) &&
         forallb (λ b, in_range b 1) (IndirectMut.indirect_blocks tree)
      then Ok (Some tree) else Ok None
  end.

(** Free the inode itself, leaving [link] where the chain looks for it. *)
Definition free_orphan_inode (ino : Z) (parsed : Inode.t) (raw : bytes) (link : Z) : tx unit :=
  _ ← staging (λ buf, buffer_free_inode_slot fs dev buf ino);
  raw ← dev_lift (raw ← put raw 0 (zrep (Superblock.inode_size sb) 0);
                  raw ← put_u32 raw 0x14 link;
                  raw ← put_u32 raw 0x64 (Inode.generation parsed);
                  finalize_inode_raw fs ino (Inode.generation parsed) raw);
  write_inode ino raw.

(** The blocks freed, the [i_dtime] the member ends with and whether its inode
    was freed; [None], with nothing staged, for a member that stays. *)
Definition buffer_recover_orphan (orphan_ino link : Z) : tx (option (Z * Z * bool)) :=
  raw ← dev_lift (Filesystem.read_inode_raw fs dev orphan_ino);
  o ← dev_lift (attempt (Inode.parse raw));
  match o with
  | None => mret None
  | Some parsed =>
      if decide (Inode.links_count parsed ≠ 0) then
        o ← buffer_finish_interrupted_truncate orphan_ino parsed raw;
        match o with
        | None => mret None
        | Some freed => _ ← buffer_stamp_dtime orphan_ino link; mret (Some (freed, 0, false))
        end
      else
        map ← dev_lift (orphan_block_map parsed);
        match map with
        | None => mret None
        | Some tree =>
            freed ← free_collected tree;
            runs ← (if Inode.has_extents parsed
                    then dev_lift (attempt (extent_tree_runs fs dev orphan_ino parsed)) else mret (Some []));
            match runs with
            | None => mret None
            | Some runs =>
                n ← free_runs runs;
                let freed := as_u64 (freed + n) in
                n ← (if decide (Inode.file_acl parsed ≠ 0) then buffer_release_xattr_block (Inode.file_acl parsed)
                     else mret 0);
                _ ← free_orphan_inode orphan_ino parsed raw link;
                mret (Some (as_u64 (freed + n), dtime_now, true))
            end
        end
  end.

(** ** Inline files *)

Definition finalize_inode_raw_after_write (ino : Z) (raw : bytes) (orig : Inode.t) (new_size new_sectors : Z) : res bytes :=
  raw ← patch_inode_size_and_blocks raw new_size new_sectors;
  raw ← set_inode_time raw Ctime now;
  raw ← set_inode_time raw Mtime now;
  if enabled csum then patch_inode_checksum csum ino (Inode.generation orig) raw else Ok raw.

(** Whether the data fit in the inode; nothing is staged otherwise. *)
Definition buffer_store_inline_file (ino : Z) (inode : Inode.t) (raw data : bytes) : tx bool :=
  match InlineMut.store raw (Superblock.inode_size sb) data with
  | Ok raw =>
      raw ← dev_lift (finalize_inode_raw_after_write ino raw inode (zlen data) (Inode.blocks inode));
      _ ← write_inode ino raw;
      mret true
  | Err NoSpaceLeftOnDevice => mret false
  | Err e => dev_lift (Err e)
  | Panic => dev_lift Panic
  | OutOfFuel => dev_lift OutOfFuel
  end.

(** The root a mutation list leaves, if it writes one. *)
Definition root_after (root : bytes) (muts : list ExtentMutation) : bytes :=
  foldl (λ root m, match m with WriteRoot b => b | _ => root end) root muts.

(** The inode as an extent-mapped one, not yet staged. *)
Definition buffer_convert_inline_file (ino : Z) (inode : Inode.t) (raw : bytes) (keep : bool) : tx (Inode.t * bytes) :=
  if negb (has_bits (Superblock.feature_incompat sb) Incompat.EXTENTS)
  then dev_lift (Err (Unsupported "converting an inline-data file out of the inode on a volume without extents")) else
  content ← dev_lift (if keep then read_inline fs dev inode raw else Ok []);
  if decide (bs < zlen content) then dev_lift (Err (Corrupt "inline data larger than a block")) else
  raw ← dev_lift (raw ← InlineMut.strip raw (Superblock.inode_size sb);
                  flags ← u32_le raw 0x20;
                  put_u32 raw 0x20 (Z.lor flags InodeFlags.EXTENTS));
  root ← dev_lift (root ← put_u16 (zrep 60 0) 0 EXT4_EXT_MAGIC; put_u16 root 4 4);
  '(root, blocks) ← (if decide (content = []) then mret (root, Inode.blocks inode) else
    phys ← allocate_block ino;
    block ← dev_lift (put (zrep bs 0) 0 content);
    _ ← put_staged phys block;
    muts ← dev_lift (plan_insert_extent root (Extent.mk 0 1 phys false));
    mret (root_after root muts, as_u64 (Inode.blocks inode + bs / 512)));
  raw ← dev_lift (raw ← patch_inode_block_area raw root;
                  patch_inode_size_and_blocks raw (Inode.size inode) blocks);
  converted ← dev_lift (Inode.parse raw);
  mret (converted, raw).

(** [content.resize(n, 0)] *)
Definition resize (content : bytes) (n : Z) : bytes := take (Z.to_nat n) content ++ zrep (n - zlen content) 0.

Definition truncate_inline_file (ino : Z) (inode : Inode.t) (raw : bytes) (new_size : Z) : tx unit :=
  stored ← (if decide (new_size ≤ ceiling (Superblock.inode_size sb)) then
              content ← dev_lift (read_inline fs dev inode raw);
              buffer_store_inline_file ino inode raw (resize content new_size)
            else mret false);
  if (stored : bool) then mret () else
  '(converted, raw) ← buffer_convert_inline_file ino inode raw true;
  raw ← dev_lift (finalize_inode_raw_after_write ino raw converted new_size (Inode.blocks converted));
  write_inode ino raw.

(** ** Setting and removing an attribute *)

Definition i_extra_isize (raw : bytes) : res Z := if decide (0x82 ≤ zlen raw) then u16_le raw 0x80 else Ok 0.
(** Where the attribute area of a raw inode starts and ends. *)
Definition region_end (raw : bytes) : Z := Z.min (Superblock.inode_size sb) (zlen raw).

(** The name out of the area in the inode: whether it was there. *)
Definition remove_from_region (raw name : bytes) (start stop : Z) : res (bool * bytes) :=
  region ← slice raw start (stop - start);
  '(outcome, region) ← plan_remove_in_inode_region region name;
  raw ← put raw start region;
  Ok (match outcome with Removed => true | RemoveNotFound => false end, raw).

Definition removexattr (ino : Z) (name : bytes) : tx unit :=
  '(inode, raw) ← dev_lift (read_inode_verified fs dev ino);
  extra ← dev_lift (i_extra_isize raw);
  let start := 128 + extra in
  let stop := region_end raw in
  '(found, raw) ← dev_lift (if decide (extra ≠ 0 ∧ start + 4 ≤ stop) then remove_from_region raw name start stop
                            else Ok (false, raw));
  '(found', raw) ← buffer_remove_from_external_block ino inode raw name;
  if negb (found || found') then dev_lift (Err NotFound) else
  stamp_and_stage ino inode raw.

(** An inode with no extra fields is given them, zeroed, where it has room. *)
Definition with_extra_fields (raw : bytes) : res (bytes * Z) :=
  extra ← i_extra_isize raw;
  if decide (extra = 0 ∧ 128 + EXTRA_ISIZE_DEFAULT ≤ region_end raw) then
    raw ← put raw 0x80 (zrep EXTRA_ISIZE_DEFAULT 0);
    raw ← write_inode_extra_isize raw;
    Ok (raw, EXTRA_ISIZE_DEFAULT)
  else Ok (raw, extra).

Definition setxattr (ino : Z) (name value : bytes) : tx unit :=
  '(inode, raw) ← dev_lift (read_inode_verified fs dev ino);
  '(raw, extra) ← dev_lift (with_extra_fields raw);
  let start := 128 + extra in
  let stop := region_end raw in
  let inline_capable := bool_decide (extra ≠ 0) && bool_decide (start + 8 ≤ stop) in
  match (if inline_capable then region ← slice raw start (stop - start); plan_set_in_inode_region region name value
         else Err NoSpaceLeftOnDevice) with
  | Ok (_, region) =>
      raw ← dev_lift (put raw start region);
      '(moved, raw) ← buffer_remove_from_external_block ino inode raw name;
      raw ← dev_lift (if (moved : bool) then set_inode_time raw Ctime now else Ok raw);
      raw ← dev_lift (finalize_inode_raw fs ino (Inode.generation inode) raw);
      write_inode ino raw
  | Err NoSpaceLeftOnDevice =>
      raw ← dev_lift (if inline_capable then '(_, raw) ← remove_from_region raw name start stop; Ok raw else Ok raw);
      apply_setxattr_external_block ino inode raw name value
  | Err e => dev_lift (Err e)
  | Panic => dev_lift Panic
  | OutOfFuel => dev_lift OutOfFuel
  end.
End fs.
