(* ===== verification/DirEdit.v ===== *)
(** DirEdit: directories inside a transaction (src/src/fs.rs): finding, adding
    and removing an entry in a linear, an indexed or an inline directory,
    rewriting its [..], splitting a full leaf of the index, dropping the index,
    and growing the directory by a block under every kind of block map. *)
From S2P Require Import Prelude Errors Bytes Device Features Superblock Hash Checksum Bgd Extent ExtentMut ExtentTree Inode Indirect Dir InlineData InlineMut Htree HtreeMut Alloc Filesystem InodeEdit FileIo Path BlockBuffer FsRead Stage.

Inductive DirBlockRole := IndexRoot | IndexNode | Entries.
#[global] Instance DirBlockRole_eq_dec : EqDecision DirBlockRole.
Proof. solve_decision. Defined.

Definition EXT4_CASEFOLD_FL : Z := 0x40000000.
Definition EXT4_ENCRYPT_FL : Z := 0x00000800.

Definition dir_block_role (dir : Inode.t) (logical : Z) (block : bytes) : res DirBlockRole :=
  if negb (is_indexed dir) || bool_decide (zlen block < 8) then Ok Entries else
  if decide (logical = 0) then Ok IndexRoot else
  leading_inode ← u32_le block 0;
  leading_span ← u16_le block 4;
  Ok (if decide (leading_inode = 0 ∧ leading_span = zlen block) then IndexNode else Entries).

Definition is_htree_index_block (dir : Inode.t) (logical : Z) (block : bytes) : res bool :=
  role ← dir_block_role dir logical block; Ok (bool_decide (role ≠ Entries)).

Definition is_dot_or_dotdot (name : bytes) : bool := bool_decide (name = [46]) || bool_decide (name = [46; 46]).

(** [msg.contains(needle)] *)
Definition contains (needle msg : string) : bool :=
  match String.index 0 needle msg with Some _ => true | None => false end.
Definition needs_promotion (e : Error) : bool :=
  match e with CorruptExtentTree msg => contains "LEAF_FULL_NEEDS_PROMOTION" msg | _ => false end.

(** The image the first [WriteRoot] of a plan carries. *)
Definition first_root (muts : list ExtentMutation) : option bytes :=
  head (omap (λ m, match m with WriteRoot b => Some b | _ => None end) muts).

Section fs.
Context `{Crc32c} (fs : Filesystem.t) (dev : reader).
Local Abbreviation sb := (Filesystem.sb fs).
Local Abbreviation csum := (Filesystem.csum fs).
Local Abbreviation bs := (Filesystem.block_size fs).
Local Abbreviation has_ft := (has_bits (Superblock.feature_incompat sb) Incompat.FILETYPE).
Local Abbreviation map_logical dir l := (map_inode_logical fs dev dir l).

(** ** Blocks and inodes as the transaction has them *)

Definition buffered_block (block : Z) : tx bytes := seeing (λ buf, view fs dev buf block).

Definition buffered_inode (buf : BlockBuffer) (ino : Z) : res (Inode.t * bytes) :=
  '(block, offset) ← Bgd.locate_inode sb (Filesystem.groups fs) ino;
  match dirty buf !! block with
  | None => read_inode_verified fs dev ino
  | Some staged =>
      if decide (zlen staged < offset + Superblock.inode_size sb) then Err (Corrupt "inode slice exceeds block data") else
      raw ← slice staged offset (Superblock.inode_size sb);
      inode ← Inode.parse raw;
      ok ← (if enabled csum then verify_inode csum ino (Inode.generation inode) raw else Ok true);
      if negb ok then Err (BadChecksum "inode") else Ok (inode, raw)
  end.
Definition buffered_inode_verified (ino : Z) : tx (Inode.t * bytes) := seeing (λ buf, buffered_inode buf ino).

Definition buffer_write_dir_inode (ino generation : Z) (raw : bytes) : tx unit :=
  raw ← dev_lift (if enabled csum then patch_inode_checksum csum ino generation raw else Ok raw);
  write_inode fs dev ino raw.

Definition buffer_dir_block_alloc (plan : BlockAllocationPlan) : tx unit :=
  if decide (Alloc.count plan ≠ 1)
  then dev_lift (Err (Corrupt "buffer_dir_block_alloc: a directory block plan must allocate exactly one block")) else
  _ ← staging (λ buf, buffer_mark_block_run_used fs dev buf (first_block plan) 1);
  let b := bp_bgd plan in
  _ ← staging (λ buf, buffer_patch_bgd_counters fs dev buf (group_idx b)
                (bgd_free_blocks_delta b) (bgd_free_inodes_delta b) (used_dirs_delta b));
  patch_sb_counters fs dev (sb_free_blocks_delta (bp_sb plan)) (sb_free_inodes_delta (bp_sb plan)).

(** [(ino - 1) / self.sb.inodes_per_group] *)
Definition group_of (ino : Z) : res Z :=
  let ipg := Superblock.inodes_per_group sb in
  if decide (ipg = 0) then Panic else Ok (as_u32 (ino - 1) / ipg).

Definition plan_dir_block (parent_ino : Z) : tx BlockAllocationPlan :=
  parent_group ← dev_lift (group_of parent_ino);
  planning (λ st buf, plan_buffered_block_allocation fs dev st buf 1 parent_group).

Definition buffer_alloc_dir_block (parent_ino : Z) : tx Z :=
  plan ← plan_dir_block parent_ino;
  _ ← buffer_dir_block_alloc plan;
  mret (first_block plan).

(** ** Checks on a directory block *)

Definition check_dx_block (dir_ino : Z) (dir : Inode.t) (block : bytes) (root : bool) : res unit :=
  count_offset ← (if root
    then if decide (block !! 29%nat = Some 8) then Ok 32 else Err (Corrupt "htree root info_length is not 8")
    else Ok 8);
  ok ← verify_dx_tail csum dir_ino (Inode.generation dir) block count_offset;
  if decide (ok = Some false) then Err (BadChecksum "htree index block") else Ok ().

Definition refuse_unverified_dir_block (ino : Z) (dir : Inode.t) (logical : Z) (block : bytes) : res unit :=
  role ← dir_block_role dir logical block;
  match role with
  | IndexRoot => check_dx_block ino dir block true
  | IndexNode => Ok ()
  | Entries =>
      ok ← (if enabled csum && has_csum_tail block then verify_dir_entry_tail csum ino (Inode.generation dir) block else Ok true);
      if negb ok then Err (BadChecksum "directory block") else Ok ()
  end.

(** ** Finding *)

Fixpoint find_in_blocks (n : nat) (dir_ino : Z) (dir_inode : Inode.t) (name : bytes) (logical : Z) : res Z :=
  match n with
  | O => Err NotFound
  | S n =>
      o ← map_logical dir_inode logical;
      match o with
      | None => find_in_blocks n dir_ino dir_inode name (logical + 1)
      | Some phys =>
          block ← Filesystem.read_block fs dev phys;
          _ ← refuse_unverified_dir_block dir_ino dir_inode logical block;
          found ← scan_block block has_ft name;
          match found with
          | Some ino => Ok ino
          | None => find_in_blocks n dir_ino dir_inode name (logical + 1)
          end
      end
  end.

Definition n_blocks (dir : Inode.t) : nat := Z.to_nat (div_ceil (Inode.size dir) bs).

Definition find_entry_in_dir (dir_ino : Z) (dir_inode : Inode.t) (name : bytes) : res Z :=
  if Inode.has_inline_data dir_inode then Path.find_entry dev sb csum dir_ino dir_inode name else
  find_in_blocks (n_blocks dir_inode) dir_ino dir_inode name 0.

Definition entry_exists (dir_ino : Z) (dir_inode : Inode.t) (name : bytes) : res bool :=
  match find_entry_in_dir dir_ino dir_inode name with
  | Ok _ => Ok true
  | Err NotFound => Ok false
  | Err e => Err e
  | Panic => Panic
  | OutOfFuel => OutOfFuel
  end.

(** ** Inline directories *)

Local Abbreviation inode_size := (Superblock.inode_size sb).

Definition buffered_inline_dir (ino : Z) : tx (Inode.t * bytes * InlineDir.t) :=
  '(inode, raw) ← buffered_inode_verified ino;
  dir ← dev_lift (InlineDir.load dev inode raw inode_size bs);
  mret (inode, raw, dir).

Definition buffer_store_inline_dir (ino : Z) (inode : Inode.t) (raw : bytes) (dir : InlineDir.t) : tx unit :=
  raw ← dev_lift (InlineDir.store dir raw inode_size);
  buffer_write_dir_inode ino (Inode.generation inode) raw.

(** [.] and [..] in a block of their own, with its checksum tail. *)
Definition seed_directory_block (new_ino parent_ino new_generation : Z) : res bytes :=
  let reserved_tail := if enabled csum then 12 else 0 in
  let usable := bs - reserved_tail in
  let file_type := if has_ft then EntryType.to_u8 Directory else 0 in
  b ← put_u32 (zrep bs 0) 0 new_ino;
  b ← put_u16 b 4 12;
  b ← put b 6 [1; file_type; 46];
  let off := 12 in
  b ← put_u32 b off parent_ino;
  b ← put_u16 b (off + 4) (as_u16 (usable - off));
  b ← put b (off + 6) [2; file_type; 46; 46];
  if decide (reserved_tail = 12) then '(_, b) ← patch_dir_entry_tail csum new_ino new_generation b; Ok b else Ok b.

(** Every entry added to [block]; one that does not fit is a corruption. *)
Definition add_inline_entries (block : bytes) (entries : list DirEntry.t) (reserved_tail : Z) : res bytes :=
  foldM (λ block e,
    match add_entry_to_block block (DirEntry.inode e) (DirEntry.name e) (DirEntry.file_type e) has_ft reserved_tail with
    | Err OutOfBounds => Err (Corrupt "an inline directory's entries do not fit in one block")
    | r => r
    end) block entries.

Definition buffer_convert_inline_dir (ino : Z) (inode : Inode.t) (raw : bytes) (parent : Z) (entries : list DirEntry.t) : tx unit :=
  block ← dev_lift (
    block ← seed_directory_block ino parent (Inode.generation inode);
    block ← add_inline_entries block entries (if enabled csum then 12 else 0);
    if enabled csum then '(_, b) ← patch_dir_entry_tail csum ino (Inode.generation inode) block; Ok b else Ok block);
  phys ← buffer_alloc_dir_block ino;
  _ ← put_staged phys block;
  raw ← dev_lift (
    raw ← strip raw inode_size;
    raw ← map_one_block fs raw phys;
    patch_inode_size_and_blocks raw bs (as_u64 (Inode.blocks inode + bs / 512)));
  buffer_write_dir_inode ino (Inode.generation inode) raw.

(** [dir.add(..)? || (dir.expand(..) && dir.add(..)?)] *)
Definition add_or_expand (dir : InlineDir.t) (raw : bytes) (target : Z) (name : bytes) (file_type : DirEntryType) : res (bool * InlineDir.t) :=
  '(done, dir) ← InlineDir.add dir target name file_type has_ft;
  if (done : bool) then Ok (true, dir) else
  '(grown, dir) ← InlineDir.expand dir raw inode_size;
  if (grown : bool) then InlineDir.add dir target name file_type has_ft else Ok (false, dir).

Definition buffer_add_inline_dir_entry (ino : Z) (name : bytes) (target : Z) (file_type : DirEntryType) : tx unit :=
  '(inode, raw, dir) ← buffered_inline_dir ino;
  '(added, dir) ← dev_lift (add_or_expand dir raw target name file_type);
  if (added : bool) then buffer_store_inline_dir ino inode raw dir else
  entries ← dev_lift (InlineDir.entries dir has_ft);
  buffer_convert_inline_dir ino inode raw (InlineDir.parent dir) (entries ++ [DirEntry.mk target name file_type]).

Definition buffer_remove_inline_dir_entry (ino : Z) (name : bytes) : tx unit :=
  '(inode, raw, dir) ← buffered_inline_dir ino;
  '(removed, dir) ← dev_lift (InlineDir.remove dir name has_ft);
  if negb (removed : bool) then dev_lift (Err NotFound) else
  buffer_store_inline_dir ino inode raw dir.

Definition refuse_nonempty_inline_dir (ino : Z) (inode : Inode.t) (raw : bytes) : res unit :=
  entries ← InlineData.read_dir dev ino inode raw inode_size bs has_ft;
  if existsb (λ e, negb (is_dot_or_dotdot (DirEntry.name e))) entries then Err DirectoryNotEmpty else Ok ().

(** The directory as the transaction has it, where it may have been converted
    to a block since [inode] was read. *)
Definition current_dir (ino : Z) (inode : Inode.t) : tx Inode.t :=
  if Inode.has_inline_data inode then '(now, _) ← buffered_inode_verified ino; mret now else mret inode.

(** ** Linear blocks *)

Definition reserved_tail_of (block : bytes) : Z := if enabled csum && has_csum_tail block then 12 else 0.
Definition stamp_dir_block (ino : Z) (inode : Inode.t) (reserved_tail : Z) (block : bytes) : res bytes :=
  if enabled csum && bool_decide (reserved_tail = 12)
  then '(_, b) ← patch_dir_entry_tail csum ino (Inode.generation inode) block; Ok b else Ok block.

Fixpoint remove_from_blocks (n : nat) (parent_ino : Z) (parent : Inode.t) (name : bytes) (logical : Z) : tx unit :=
  match n with
  | O => dev_lift (Err NotFound)
  | S n =>
      let continue_ := remove_from_blocks n parent_ino parent name (logical + 1) in
      o ← dev_lift (map_logical parent logical);
      match o with
      | None => continue_
      | Some phys =>
          block ← fetch fs dev phys;
          index ← dev_lift (is_htree_index_block parent logical block);
          if (index : bool) then continue_ else
          let reserved_tail := reserved_tail_of block in
          '(block, removed) ← dev_lift (remove_entry_from_block block name has_ft reserved_tail);
          if (removed : bool) then
            block ← dev_lift (stamp_dir_block parent_ino parent reserved_tail block);
            put_staged phys block
          else continue_
      end
  end.

Definition buffer_remove_dir_entry (parent_ino : Z) (parent_inode : Inode.t) (name : bytes) : tx unit :=
  dir ← current_dir parent_ino parent_inode;
  if Inode.has_inline_data dir then buffer_remove_inline_dir_entry parent_ino name else
  remove_from_blocks (n_blocks dir) parent_ino dir name 0.

Definition buffer_update_dotdot (dir_ino : Z) (dir_inode : Inode.t) (new_parent_ino : Z) : tx unit :=
  dir ← current_dir dir_ino dir_inode;
  if Inode.has_inline_data dir then
    '(inode, raw, d) ← buffered_inline_dir dir_ino;
    buffer_store_inline_dir dir_ino inode raw (InlineDir.mk new_parent_ino (InlineDir.head d) (InlineDir.continuation d))
  else
    o ← dev_lift (map_logical dir 0);
    phys ← dev_lift (ok_or o (Corrupt "buffer_update_dotdot: dir block 0 missing"));
    block ← fetch fs dev phys;
    if decide (zlen block < 24) then dev_lift (Err (Corrupt "buffer_update_dotdot: dir block too small")) else
    block ← dev_lift (
      _ ← refuse_unverified_dir_block dir_ino dir 0 block;
      block ← put_u32 block 12 new_parent_ino;
      if is_indexed dir then '(_, b) ← patch_dx_tail csum dir_ino (Inode.generation dir) block 32; Ok b
      else stamp_dir_block dir_ino dir (reserved_tail_of block) block);
    put_staged phys block.

Fixpoint add_to_blocks (n : nat) (parent_ino : Z) (parent : Inode.t) (name : bytes) (target : Z) (file_type : DirEntryType)
    (logical : Z) : tx unit :=
  match n with
  | O => dev_lift (Err OutOfBounds)
  | S n =>
      let continue_ := add_to_blocks n parent_ino parent name target file_type (logical + 1) in
      o ← dev_lift (map_logical parent logical);
      match o with
      | None => continue_
      | Some phys =>
          block ← fetch fs dev phys;
          let reserved_tail := reserved_tail_of block in
          match add_entry_to_block block target name file_type has_ft reserved_tail with
          | Ok block => block ← dev_lift (stamp_dir_block parent_ino parent reserved_tail block); put_staged phys block
          | Err OutOfBounds => continue_
          | r => _ ← dev_lift r; mret ()
          end
      end
  end.

(** ** Indexed directories *)

Definition hashed_otherwise (dir : Inode.t) : bool :=
  bool_decide (Z.land (Inode.flags dir) (Z.lor EXT4_CASEFOLD_FL EXT4_ENCRYPT_FL) ≠ 0).

(** The closure the index walk reads with: every block it sees is staged. *)
Definition read_logical (dir : Inode.t) (logical : Z) : tx bytes :=
  o ← dev_lift (map_logical dir logical);
  phys ← dev_lift (ok_or o (CorruptDirEntry "htree block is not mapped"));
  fetch fs dev phys.

Definition read_node (dir_ino : Z) (dir : Inode.t) (logical : Z) : tx bytes :=
  node ← read_logical dir logical;
  _ ← dev_lift (check_dx_block dir_ino dir node false);
  mret node.

(** [lookup_leaf_with] of htree.rs run with that closure. *)
Fixpoint staged_descend (dir_ino : Z) (dir : Inode.t) (levels : nat) (target hash : Z) : tx (option Z) :=
  match levels with
  | O => mret (Some target)
  | S levels =>
      block ← read_node dir_ino dir target;
      '(_, entries) ← dev_lift (parse_node_entries block);
      if decide (entries = []) then mret None else
      e ← dev_lift (find_entry_for_hash entries hash);
      staged_descend dir_ino dir levels (DxEntry.block e) hash
  end.
Definition staged_lookup_leaf (dir_ino : Z) (dir : Inode.t) (name root_block : bytes) : tx (option Z) :=
  info ← dev_lift (parse_root_info root_block);
  let version := effective_version (DxRootInfo.hash_version info) (Superblock.unsigned_hash sb) in
  let hash := name_hash name version (Superblock.hash_seed sb) in
  '(_, entries) ← dev_lift (parse_root_entries root_block);
  if decide (entries = []) then mret None else
  e ← dev_lift (find_entry_for_hash entries (major hash));
  staged_descend dir_ino dir (Z.to_nat (DxRootInfo.indirect_levels info)) (DxEntry.block e) (major hash).

Definition buffer_add_dir_entry_indexed (parent_ino : Z) (parent : Inode.t) (name : bytes) (target : Z) (file_type : DirEntryType) : tx unit :=
  if hashed_otherwise parent then dev_lift (Err OutOfBounds) else
  root ← read_logical parent 0;
  _ ← dev_lift (check_dx_block parent_ino parent root true);
  o ← staged_lookup_leaf parent_ino parent name root;
  leaf ← dev_lift (ok_or o (CorruptDirEntry "htree root has no entries"));
  if decide (leaf = 0) then dev_lift (Err (CorruptDirEntry "htree routes a name to its own root")) else
  o ← dev_lift (map_logical parent leaf);
  phys ← dev_lift (ok_or o (CorruptDirEntry "htree leaf is not mapped"));
  block ← fetch fs dev phys;
  let reserved_tail := reserved_tail_of block in
  block ← dev_lift (
    block ← add_entry_to_block block target name file_type has_ft reserved_tail;
    stamp_dir_block parent_ino parent reserved_tail block);
  put_staged phys block.

Definition buffer_add_dir_entry_inplace (parent_ino : Z) (parent_inode : Inode.t) (name : bytes) (target : Z) (file_type : DirEntryType) : tx unit :=
  dir ← current_dir parent_ino parent_inode;
  if Inode.has_inline_data dir then buffer_add_inline_dir_entry parent_ino name target file_type else
  if is_indexed dir then buffer_add_dir_entry_indexed parent_ino dir name target file_type else
  add_to_blocks (n_blocks dir) parent_ino dir name target file_type 0.

(** *** Dropping the index *)

Definition physical (dir : Inode.t) (logical : Z) : res Z :=
  o ← map_logical dir logical; ok_or o (CorruptDirEntry "htree block is not mapped").

(** One level of nodes: the logical blocks below, and the nodes found. *)
Definition visit_level (buf : BlockBuffer) (dir_ino : Z) (dir : Inode.t) (level nodes : list Z) : res (list Z * list Z) :=
  foldM (λ '(next, nodes) logical,
    phys ← physical dir logical;
    block ← view fs dev buf phys;
    _ ← check_dx_block dir_ino dir block false;
    '(_, entries) ← parse_node_entries block;
    Ok (next ++ (DxEntry.block <$> entries), nodes ++ [phys])) ([], nodes) level.
Fixpoint interior_nodes (buf : BlockBuffer) (dir_ino : Z) (dir : Inode.t) (levels : nat) (level nodes : list Z) : res (list Z) :=
  match levels with
  | O => Ok nodes
  | S levels =>
      '(next, nodes) ← visit_level buf dir_ino dir level nodes;
      interior_nodes buf dir_ino dir levels next nodes
  end.

(** Shorten the record at [at_] that spans to the block's end, and write a
    tail after it. *)
Definition retail (dir_ino : Z) (dir : Inode.t) (spanning : Z * Z) : tx unit :=
  let '(phys, at_) := spanning in
  staging (edit fs dev phys (λ b,
    b ← put_u16 b (at_ + 4) (as_u16 (bs - at_ - 12));
    '(_, b) ← patch_dir_entry_tail csum dir_ino (Inode.generation dir) b; Ok b)).

Definition buffer_drop_htree_index (dir_ino : Z) : tx unit :=
  '(inode, raw) ← buffered_inode_verified dir_ino;
  if negb (is_indexed inode) then mret () else
  root_phys ← dev_lift (physical inode 0);
  root ← buffered_block root_phys;
  _ ← dev_lift (check_dx_block dir_ino inode root true);
  info ← dev_lift (attempt (parse_root_info root));
  entries ← dev_lift (attempt (parse_root_entries root));
  nodes ← seeing (λ buf,
    match info, entries with
    | Some info, Some (_, entries) =>
        interior_nodes buf dir_ino inode (Z.to_nat (DxRootInfo.indirect_levels info)) (DxEntry.block <$> entries) []
    | _, _ => Ok []
    end);
  _ ← (if enabled csum then each (retail dir_ino inode) ((root_phys, 12) :: ((λ p, (p, 0)) <$> nodes)) else mret ());
  raw ← dev_lift (put_u32 raw 0x20 (Z.ldiff (Inode.flags inode) InodeFlags.INDEX));
  buffer_write_dir_inode dir_ino (Inode.generation inode) raw.

(** ** Growing a directory by a block *)

(** A descent longer than the volume has blocks reads one twice, and then does
    not end in the source either. *)
Definition descent_fuel : nat := S (Z.to_nat (Superblock.blocks_count sb)).

(** The end of every way to grow: size, blocks, the inode, the block. *)
Definition grow_inode (parent_ino : Z) (parent : Inode.t) (raw : bytes) (consumed : Z) (new_phys : Z) (block : bytes) : tx unit :=
  raw ← dev_lift (patch_inode_size_and_blocks raw (as_u64 (Inode.size parent + bs))
                    (as_u64 (Inode.blocks parent + bs / 512 * consumed)));
  _ ← buffer_write_dir_inode parent_ino (Inode.generation parent) raw;
  put_staged new_phys block.

Definition stamp_extent_block (ino : Z) (inode : Inode.t) (b : bytes) : res bytes :=
  if enabled csum then '(_, b) ← patch_extent_tail csum ino (Inode.generation inode) b; Ok b else Ok b.

Definition DIRECT : Z := 12.

(** A block for the map of an ext2 or ext3 directory. *)
Definition allocate_mapped (parent_ino : Z) : tx Z :=
  phys ← buffer_alloc_dir_block parent_ino;
  dev_lift (try_u32 phys (Corrupt "directory block past a 32-bit block map")).

Definition buffer_extend_mapped_dir (parent_ino : Z) (parent : Inode.t) (raw : bytes) (new_logical_block : Z) (block : bytes) : tx unit :=
  let per_block := bs / 4 in
  if decide (DIRECT + per_block ≤ new_logical_block)
  then dev_lift (Err (Unsupported "growing an ext2/ext3 directory past its single-indirect block")) else
  new_phys ← allocate_mapped parent_ino;
  '(raw, consumed) ← (if decide (new_logical_block < DIRECT) then
    raw ← dev_lift (put_u32 raw (OFF_BLOCK + 4 * new_logical_block) new_phys);
    mret (raw, 1)
  else
    let slot := OFF_BLOCK + 4 * DIRECT in
    indirect_phys ← dev_lift (u32_le raw slot);
    '(raw, consumed, indirect_phys, indirect) ← (if decide (indirect_phys = 0) then
        indirect_phys ← allocate_mapped parent_ino;
        raw ← dev_lift (put_u32 raw slot indirect_phys);
        mret (raw, 2, indirect_phys, zrep bs 0)
      else
        indirect ← buffered_block indirect_phys;
        mret (raw, 1, indirect_phys, indirect));
    indirect ← dev_lift (put_u32 indirect (4 * (new_logical_block - DIRECT)) new_phys);
    _ ← put_staged indirect_phys indirect;
    mret (raw, consumed));
  grow_inode parent_ino parent raw consumed new_phys block.

(** The closure that hands out tree blocks while nothing is staged: what it
    has handed out, beside the allocation state. *)
Definition alloc_fn (buf : BlockBuffer) (parent_group : Z) (data_plan : BlockAllocationPlan)
    (a : list BlockAllocationPlan * AllocationState) : res (Z * (list BlockAllocationPlan * AllocationState)) :=
  let '(pending_meta, st) := a in
  let reserved := reserved_blocks data_plan pending_meta in
  '(meta_plan, st) ← plan_buffered_block_allocation_excluding fs dev st buf 1 parent_group reserved;
  Ok (first_block meta_plan, (pending_meta ++ [meta_plan], st)).

Definition buffer_extend_dir_deep (parent_ino : Z) (parent : Inode.t) (raw block : bytes) (new_extent : Extent.t)
    (data_plan : BlockAllocationPlan) : tx unit :=
  parent_group ← dev_lift (group_of parent_ino);
  '(deep_plan, pending_meta) ← planning (λ st buf,
    '(plan, (pending_meta, st)) ← plan_insert_extent_deep (alloc_fn buf parent_group data_plan) bs
       (Filesystem.read_block fs dev) descent_fuel (Inode.block parent) new_extent ([], st);
    Ok (plan, pending_meta, st));
  _ ← buffer_dir_block_alloc data_plan;
  _ ← each buffer_dir_block_alloc pending_meta;
  _ ← each (λ '(b, bytes), bytes ← dev_lift (stamp_extent_block parent_ino parent bytes); put_staged b bytes)
        (block_writes deep_plan);
  raw ← dev_lift (patch_inode_block_area raw (new_root deep_plan));
  grow_inode parent_ino parent raw (1 + zlen pending_meta) (first_block data_plan) block.

Definition buffer_extend_dir_depth1 (parent_ino : Z) (parent : Inode.t) (raw block : bytes) (new_extent : Extent.t)
    (plan : BlockAllocationPlan) : tx unit :=
  let deep := buffer_extend_dir_deep parent_ino parent raw block new_extent plan in
  header ← dev_lift (ExtentHeader.parse (Inode.block parent));
  if decide (ExtentHeader.entries header ≠ 1) then deep else
  idx ← dev_lift (b ← slice (Inode.block parent) 12 12; ExtentIdx.parse b);
  let leaf_phys := ExtentIdx.leaf_block idx in
  leaf ← buffered_block leaf_phys;
  ok ← dev_lift (if enabled csum then verify_extent_tail csum parent_ino (Inode.generation parent) leaf else Ok true);
  if negb (ok : bool) then dev_lift (Err (BadChecksum "extent block")) else
  match plan_insert_extent leaf new_extent with
  | Ok muts =>
      new_leaf ← dev_lift (ok_or (first_root muts) (Corrupt "buffer_extend_dir_depth1: plan produced no WriteRoot"));
      new_leaf ← dev_lift (stamp_extent_block parent_ino parent new_leaf);
      _ ← buffer_dir_block_alloc plan;
      _ ← put_staged leaf_phys new_leaf;
      grow_inode parent_ino parent raw 1 (first_block plan) block
  | Err e => if needs_promotion e then deep else dev_lift (Err e)
  | Panic => dev_lift Panic
  | OutOfFuel => dev_lift OutOfFuel
  end.

(** Insert into an inline root of depth 0, promoting it when it is full: the
    new root, and how many blocks the directory gains. *)
Definition insert_inline (parent_ino : Z) (parent : Inode.t) (new_extent : Extent.t) : tx (bytes * Z) :=
  match plan_insert_extent (Inode.block parent) new_extent with
  | Ok muts =>
      root ← dev_lift (ok_or (first_root muts) (Corrupt "extend_dir_and_add_entry: plan produced no WriteRoot"));
      mret (root, 1)
  | Err e =>
      if needs_promotion e then
        leaf_meta_phys ← buffer_alloc_dir_block parent_ino;
        promo ← dev_lift (plan_promote_leaf (Inode.block parent) new_extent bs leaf_meta_phys (enabled csum));
        leaf ← dev_lift (stamp_extent_block parent_ino parent (ExtentMut.leaf_bytes promo));
        _ ← put_staged leaf_meta_phys leaf;
        mret (new_root_bytes promo, 2)
      else dev_lift (Err e)
  | Panic => dev_lift Panic
  | OutOfFuel => dev_lift OutOfFuel
  end.

Definition buffer_append_dir_block (parent_ino : Z) (block : bytes) : tx unit :=
  '(parent, raw) ← buffered_inode_verified parent_ino;
  if negb (Inode.is_dir parent) then dev_lift (Err NotADirectory) else
  let new_logical_block := div_ceil (Inode.size parent) bs in
  if negb (Inode.has_extents parent)
  then buffer_extend_mapped_dir parent_ino parent raw new_logical_block block else
  plan ← plan_dir_block parent_ino;
  let new_phys := first_block plan in
  let new_extent := Extent.mk (as_u32 new_logical_block) 1 new_phys false in
  root_header ← dev_lift (ExtentHeader.parse (Inode.block parent));
  if decide (ExtentHeader.depth root_header = 1)
  then buffer_extend_dir_depth1 parent_ino parent raw block new_extent plan else
  if decide (1 < ExtentHeader.depth root_header)
  then buffer_extend_dir_deep parent_ino parent raw block new_extent plan else
  _ ← buffer_dir_block_alloc plan;
  '(root, consumed) ← insert_inline parent_ino parent new_extent;
  raw ← dev_lift (patch_inode_block_area raw root);
  grow_inode parent_ino parent raw consumed new_phys block.

(** ** Splitting a full leaf *)

(** Where a hash goes in the index: the index block over the leaf, its image,
    where its count is, and the leaf. *)
Record routing := mkRouting { parent_phys : Z; parent_block : bytes; count_offset : Z; leaf_logical : Z }.

(** [None] for an index of more than one interior level. *)
Definition route (buf : BlockBuffer) (dir_ino : Z) (dir : Inode.t) (name : bytes) : res (option (routing * HashVersion * Z)) :=
  root_phys ← physical dir 0;
  root ← view fs dev buf root_phys;
  _ ← check_dx_block dir_ino dir root true;
  info ← parse_root_info root;
  if decide (1 < DxRootInfo.indirect_levels info) then Ok None else
  let version := effective_version (DxRootInfo.hash_version info) (Superblock.unsigned_hash sb) in
  let hash := major (name_hash name version (Superblock.hash_seed sb)) in
  '(_, root_entries) ← parse_root_entries root;
  routed ← find_entry_for_hash root_entries hash;
  let routed := DxEntry.block routed in
  r ← (if decide (DxRootInfo.indirect_levels info = 0) then Ok (mkRouting root_phys root 32 routed)
       else
         node_phys ← physical dir routed;
         node ← view fs dev buf node_phys;
         _ ← check_dx_block dir_ino dir node false;
         '(_, entries) ← parse_node_entries node;
         leaf ← find_entry_for_hash entries hash;
         Ok (mkRouting node_phys node 8 (DxEntry.block leaf)));
  if decide (leaf_logical r = 0) then Err (CorruptDirEntry "htree routes a name to its own root") else
  Ok (Some (r, version, hash)).

(** The blocks of a split: the halved leaf, the new one, the index block. *)
Record split_blocks := mkBlocks { left_leaf : bytes; right_leaf : bytes; index_block : bytes }.

Definition add_to_half (split : LeafSplit) (hash target : Z) (name : bytes) (file_type : DirEntryType) (reserved_tail : Z)
    : res (option (bytes * bytes)) :=
  let into := bool_decide (split_out_hash split ≤ hash) in
  match add_entry_to_block (if into then right_bytes split else left_bytes split) target name file_type has_ft reserved_tail with
  | Ok b => Ok (Some (if into then (left_bytes split, b) else (b, right_bytes split)))
  | Err OutOfBounds => Ok None
  | Err e => Err e
  | Panic => Panic
  | OutOfFuel => OutOfFuel
  end.

(** A full index block, or a bound it already routes, is no split. *)
Definition insert_route (r : routing) (split_out_hash new_logical : Z) : res (option bytes) :=
  match (if decide (count_offset r = 32)
         then plan_insert_dx_entry_root (parent_block r) 32 split_out_hash new_logical
         else plan_insert_dx_entry_node (parent_block r) split_out_hash new_logical) with
  | Ok b => Ok (Some b)
  | Err (CorruptExtentTree _) => Ok None
  | Err e => Err e
  | Panic => Panic
  | OutOfFuel => OutOfFuel
  end.

(** Everything a split needs, worked out before anything is staged: the leaf
    to halve and the images of its halves and of the index block. *)
Definition plan_split (buf : BlockBuffer) (dir_ino : Z) (dir : Inode.t) (name : bytes) (target : Z) (file_type : DirEntryType)
    : res (option (Z * Z * split_blocks)) :=
  if negb (is_indexed dir) || hashed_otherwise dir then Ok None else
  o ← route buf dir_ino dir name;
  match o with
  | None => Ok None
  | Some (r, version, hash) =>
      leaf_phys ← physical dir (leaf_logical r);
      leaf ← view fs dev buf leaf_phys;
      let reserved_tail := reserved_tail_of leaf in
      ok ← (if decide (reserved_tail = 12) then verify_dir_entry_tail csum dir_ino (Inode.generation dir) leaf else Ok true);
      if negb ok then Err (BadChecksum "directory block") else
      o ← attempt (plan_leaf_split leaf version (Superblock.hash_seed sb) has_ft bs reserved_tail);
      match o with
      | None => Ok None
      | Some split =>
          new_logical ← try_u32 (div_ceil (Inode.size dir) bs) (Corrupt "directory too large to index another block");
          o ← insert_route r (split_out_hash split) new_logical;
          match o with
          | None => Ok None
          | Some index =>
              o ← add_to_half split hash target name file_type reserved_tail;
              match o with
              | None => Ok None
              | Some (l, r') =>
                  l ← stamp_dir_block dir_ino dir reserved_tail l;
                  r' ← stamp_dir_block dir_ino dir reserved_tail r';
                  '(_, index) ← patch_dx_tail csum dir_ino (Inode.generation dir) index (count_offset r);
                  Ok (Some (leaf_phys, parent_phys r, mkBlocks l r' index))
              end
          end
      end
  end.

Definition buffer_split_htree_leaf_and_add_entry (dir_ino : Z) (name : bytes) (target : Z) (file_type : DirEntryType) : tx bool :=
  '(dir, _) ← buffered_inode_verified dir_ino;
  o ← seeing (λ buf, plan_split buf dir_ino dir name target file_type);
  match o with
  | None => mret false
  | Some (leaf_phys, parent_phys, b) =>
      _ ← buffer_append_dir_block dir_ino (right_leaf b);
      _ ← put_staged leaf_phys (left_leaf b);
      _ ← put_staged parent_phys (index_block b);
      mret true
  end.

(** ** Adding an entry to a directory with no room for it *)

Definition seeded_dir_block (parent : Inode.t) (parent_ino : Z) (name : bytes) (target : Z) (file_type : DirEntryType) : res bytes :=
  let reserved_tail := if enabled csum then 12 else 0 in
  block ← put_u16 (zrep bs 0) 4 (as_u16 (bs - reserved_tail));
  block ← add_entry_to_block block target name file_type has_ft reserved_tail;
  if enabled csum then '(_, b) ← patch_dir_entry_tail csum parent_ino (Inode.generation parent) block; Ok b else Ok block.

Definition extend_dir_and_add_entry (parent_ino : Z) (name : bytes) (target : Z) (file_type : DirEntryType) : tx unit :=
  split ← buffer_split_htree_leaf_and_add_entry parent_ino name target file_type;
  if (split : bool) then mret () else
  _ ← buffer_drop_htree_index parent_ino;
  '(parent, _) ← buffered_inode_verified parent_ino;
  block ← dev_lift (seeded_dir_block parent parent_ino name target file_type);
  buffer_append_dir_block parent_ino block.

(** How every operation adds a name: in place, and where there is no room by
    growing the directory, on top of what the first attempt staged. *)
Definition add_name (parent_ino : Z) (parent_inode : Inode.t) (name : bytes) (target : Z) (file_type : DirEntryType) : tx unit :=
  r ← catch (buffer_add_dir_entry_inplace parent_ino parent_inode name target file_type);
  match r with
  | inl () => mret ()
  | inr OutOfBounds => extend_dir_and_add_entry parent_ino name target file_type
  | inr e => dev_lift (Err e)
  end.
End fs.
