(* ===== verification/Namespace.v ===== *)
(** Namespace: what the operations on names stage (src/src/fs.rs): creating
    files, special files, symbolic links and directories, linking, unlinking,
    removing directories and renaming.  Each is a program over one transaction;
    Operations commits it. *)
From S2P Require Import Prelude Errors Bytes Device Features Superblock Checksum Bgd Inode Dir InlineData InlineMut Alloc Filesystem InodeEdit Path BlockBuffer FsRead Stage DirEdit.

Section fs.
Context `{Crc32c} (fs : Filesystem.t) (dev : reader) (now : Z).
Local Abbreviation sb := (Filesystem.sb fs).
Local Abbreviation csum := (Filesystem.csum fs).
Local Abbreviation bs := (Filesystem.block_size fs).
Local Abbreviation has_ft := (has_bits (Superblock.feature_incompat sb) Incompat.FILETYPE).

(** Reads that look at the allocation state of the mount. *)
Definition live_inode_tx (r : InodeRef.t) : tx (Inode.t * bytes) := λ s, (live_inode fs dev (space s) r, s).
Definition live_dir_tx (r : InodeRef.t) : tx (Inode.t * bytes) := λ s, (live_dir fs dev (space s) r, s).

(** ** Taking an inode, taking a block *)

(** Both are planned on the device's bitmaps, not on the buffer's. *)
Definition plan_inode (is_dir : bool) (hint : Z) : tx InodeAllocationPlan :=
  planning (λ st _,
    '(gs, st) ← allocation_groups (Filesystem.groups fs) st;
    plan ← plan_inode_allocation sb gs (Filesystem.read_block fs dev) is_dir hint;
    Ok (plan, st)).
Definition plan_blocks (count hint : Z) : tx BlockAllocationPlan :=
  planning (λ st _,
    '(gs, st) ← allocation_groups (Filesystem.groups fs) st;
    plan ← plan_block_allocation sb gs (Filesystem.read_block fs dev) count hint;
    Ok (plan, st)).

Definition patch_group (b : BgdCounterUpdate) : tx unit :=
  staging (λ buf, buffer_patch_bgd_counters fs dev buf (group_idx b)
    (bgd_free_blocks_delta b) (bgd_free_inodes_delta b) (used_dirs_delta b)).

Definition use_inode (plan : InodeAllocationPlan) : tx unit :=
  _ ← staging (λ buf, buffer_mark_inode_used fs dev buf (ip_inode plan));
  _ ← patch_group (ip_bgd plan);
  patch_sb_counters fs dev (sb_free_blocks_delta (ip_sb plan)) (sb_free_inodes_delta (ip_sb plan)).

Definition use_block (plan : BlockAllocationPlan) : tx unit :=
  _ ← staging (λ buf, buffer_mark_block_run_used fs dev buf (first_block plan) 1);
  _ ← patch_group (bp_bgd plan);
  patch_sb_counters fs dev (sb_free_blocks_delta (bp_sb plan)) (sb_free_inodes_delta (bp_sb plan)).

(** ** Creating *)

(** The struct [NewInodePlan] but for its buffer, which is the program's. *)
Record NewInodePlan := mkNewInode { new_ino : Z; parent_ino : Z; parent_inode : Inode.t }.

Definition plan_new_inode_in_dir (dir : InodeRef.t) (name : bytes) : tx NewInodePlan :=
  _ ← dev_lift (check_new_entry_name name);
  let parent_ino := InodeRef.ino dir in
  '(parent_inode, _) ← live_dir_tx dir;
  exists_ ← dev_lift (entry_exists fs dev parent_ino parent_inode name);
  if (exists_ : bool) then dev_lift (Err AlreadyExists) else
  parent_group ← dev_lift (group_of fs parent_ino);
  plan ← plan_inode false parent_group;
  _ ← use_inode plan;
  mret (mkNewInode (ip_inode plan) parent_ino parent_inode).

(** The new inode's image and its name, into the transaction. *)
Definition install (p : NewInodePlan) (name raw : bytes) (file_type : DirEntryType) : tx Z :=
  _ ← write_inode fs dev (new_ino p) raw;
  _ ← add_name fs dev (parent_ino p) (parent_inode p) name (new_ino p) file_type;
  mret (new_ino p).

Definition create_at (generation : Z) (dir : InodeRef.t) (name : bytes) (mode : Z) : tx Z :=
  p ← plan_new_inode_in_dir dir name;
  raw ← dev_lift (build_regular_file_inode fs (new_ino p) mode generation now);
  install p name raw RegFile.

Definition mknod_entry_type (mode : Z) : res DirEntryType :=
  let file_type := Z.land mode S_IFMT in
  if decide (file_type = S_IFCHR ∨ file_type = S_IFBLK ∨ file_type = S_IFIFO ∨ file_type = S_IFSOCK)
  then Ok (EntryType.from_mode file_type)
  else Err (InvalidArgument "mknod: unsupported type; use create/mkdir for reg/dir").

Definition mknod_at (generation : Z) (dir : InodeRef.t) (name : bytes) (mode major minor : Z) : tx Z :=
  dir_entry_type ← dev_lift (mknod_entry_type mode);
  p ← plan_new_inode_in_dir dir name;
  raw ← dev_lift (build_special_file_inode fs (new_ino p) mode major minor generation now);
  install p name raw dir_entry_type.

Definition check_symlink_target (target : bytes) : res unit :=
  if decide (target = []) then Err (InvalidArgument "symlink target is empty") else
  if decide (0 ∈ target) then Err (InvalidArgument "a symlink target cannot contain a NUL byte") else
  if decide (Z.min 4096 bs < zlen target) then Err NameTooLong else Ok ().

Definition symlink_at (generation : Z) (dir : InodeRef.t) (name target : bytes) : tx Z :=
  _ ← dev_lift (check_symlink_target target);
  p ← plan_new_inode_in_dir dir name;
  parent_group ← dev_lift (group_of fs (parent_ino p));
  raw ← (if decide (zlen target < 60)
         then dev_lift (build_fast_symlink_inode fs (new_ino p) target generation now)
         else
           bplan ← plan_blocks 1 parent_group;
           let data_phys := first_block bplan in
           _ ← use_block bplan;
           block ← dev_lift (put (zrep bs 0) 0 target);
           _ ← put_staged data_phys block;
           dev_lift (build_slow_symlink_inode fs (new_ino p) target data_phys generation now));
  install p name raw Symlink.

(** One more or one fewer link to [ino], read through the buffer. *)
Definition bump_links (ino delta : Z) : tx unit :=
  '(inode, raw) ← buffered_inode_verified fs dev ino;
  raw ← dev_lift (patch_inode_nlink fs ino raw inode delta);
  write_inode fs dev ino raw.

Definition mkdir_at (generation : Z) (dir : InodeRef.t) (name : bytes) (mode : Z) : tx Z :=
  _ ← dev_lift (check_new_entry_name name);
  let parent_ino := InodeRef.ino dir in
  '(parent_inode, _) ← live_dir_tx dir;
  exists_ ← dev_lift (entry_exists fs dev parent_ino parent_inode name);
  if (exists_ : bool) then dev_lift (Err AlreadyExists) else
  _ ← dev_lift (check_link_room fs parent_inode);
  parent_group ← dev_lift (group_of fs parent_ino);
  iplan ← plan_inode true parent_group;
  let new_ino := ip_inode iplan in
  bplan ← plan_blocks 1 (group_idx (ip_bgd iplan));
  let data_block := first_block bplan in
  _ ← use_inode iplan;
  _ ← use_block bplan;
  raw ← dev_lift (build_directory_inode fs new_ino mode data_block generation now);
  gen ← dev_lift (u32_le raw 0x64);
  _ ← write_inode fs dev new_ino raw;
  seed ← dev_lift (seed_directory_block fs new_ino parent_ino gen);
  _ ← put_staged data_block seed;
  _ ← add_name fs dev parent_ino parent_inode name new_ino Directory;
  _ ← bump_links parent_ino 1;
  mret new_ino.

Definition link_at (target dir : InodeRef.t) (dst_name : bytes) : tx unit :=
  _ ← dev_lift (check_new_entry_name dst_name);
  let src_ino := InodeRef.ino target in
  '(src_inode, src_raw) ← live_inode_tx target;
  if Inode.is_dir src_inode then dev_lift (Err IsADirectory) else
  _ ← dev_lift (check_link_room fs src_inode);
  let dst_parent_ino := InodeRef.ino dir in
  '(dst_parent_inode, _) ← live_dir_tx dir;
  exists_ ← dev_lift (entry_exists fs dev dst_parent_ino dst_parent_inode dst_name);
  if (exists_ : bool) then dev_lift (Err AlreadyExists) else
  let dir_type := EntryType.from_mode (Inode.mode src_inode) in
  src_raw ← dev_lift (patch_inode_nlink fs src_ino src_raw src_inode 1);
  _ ← write_inode fs dev src_ino src_raw;
  add_name fs dev dst_parent_ino dst_parent_inode dst_name src_ino dir_type.

(** ** Removing *)

Definition content_runs (ino : Z) (inode : Inode.t) : res (list (Z * Z)) :=
  if Inode.has_extents inode then extent_tree_runs fs dev ino inode else Ok [].
(** The data and tree blocks of an inode, given back, and its attribute block:
    the blocks freed. *)
Definition free_content (inode : Inode.t) (runs : list (Z * Z)) : tx Z :=
  if Inode.has_extents inode then free_runs fs dev runs else buffer_free_block_map fs dev inode.
Definition free_attributes (inode : Inode.t) : tx Z :=
  if decide (Inode.file_acl inode ≠ 0) then buffer_release_xattr_block fs dev (Inode.file_acl inode) else mret 0.

(** The two counts summed as sectors, and divided again. *)
Definition through_sectors (content attributes : Z) : Z :=
  let sectors_per_block := bs / 512 in
  as_u64 (as_u64 (content * sectors_per_block) + attributes * sectors_per_block) / sectors_per_block.

(** The image of a deleted inode: its time of death and its generation. *)
Definition bury (ino : Z) (inode : Inode.t) (raw : bytes) : tx unit :=
  raw ← dev_lift (raw ← put raw 0 (zrep (Superblock.inode_size sb) 0);
                  raw ← put_u32 raw 0x14 (dtime_now now);
                  raw ← put_u32 raw 0x64 (Inode.generation inode);
                  finalize_inode_raw fs ino (Inode.generation inode) raw);
  write_inode fs dev ino raw.

Definition free_slot (ino : Z) : tx unit := staging (λ buf, buffer_free_inode_slot fs dev buf ino).

Definition unlink_at (dir : InodeRef.t) (name : bytes) : tx unit :=
  _ ← dev_lift (check_entry_name name);
  let parent_ino := InodeRef.ino dir in
  '(parent_inode, _) ← live_dir_tx dir;
  target_ino ← dev_lift (find_entry_in_dir fs dev parent_ino parent_inode name);
  '(target_inode, target_raw) ← live_inode_tx (InodeRef.any target_ino);
  if Inode.is_dir target_inode then dev_lift (Err IsADirectory) else
  _ ← buffer_remove_dir_entry fs dev parent_ino parent_inode name;
  let new_links := saturating_sub (Inode.links_count target_inode) 1 in
  target_raw ← dev_lift (put_u16 target_raw 0x1A new_links);
  if decide (0 < new_links) then
    target_raw ← dev_lift (finalize_inode_raw fs target_ino (Inode.generation target_inode) target_raw);
    write_inode fs dev target_ino target_raw
  else
    runs ← dev_lift (content_runs target_ino target_inode);
    content ← free_content target_inode runs;
    attributes ← free_attributes target_inode;
    _ ← free_slot target_ino;
    _ ← patch_sb_counters fs dev (as_i64 (through_sectors content attributes)) 1;
    bury target_ino target_inode target_raw.

(** Nothing but [.] and [..] in the blocks of a directory. *)
Fixpoint only_dots (fuel : nat) (block : bytes) (offset : Z) : res unit :=
  match fuel with
  | O => OutOfFuel
  | S fuel' =>
      o ← Dir.next fuel block has_ft offset;
      match o with
      | None => Ok ()
      | Some (e, offset) =>
          if is_dot_or_dotdot (DirEntry.name e) then only_dots fuel' block offset else Err DirectoryNotEmpty
      end
  end.
Fixpoint empty_blocks (n : nat) (ino : Z) (inode : Inode.t) (logical : Z) : res unit :=
  match n with
  | O => Ok ()
  | S n =>
      o ← map_inode_logical fs dev inode logical;
      _ ← match o with
          | None => Ok ()
          | Some phys =>
              block ← Filesystem.read_block fs dev phys;
              _ ← refuse_unverified_dir_block fs ino inode logical block;
              only_dots (S (length block)) block 0
          end;
      empty_blocks n ino inode (logical + 1)
  end.
Definition refuse_nonempty (ino : Z) (inode : Inode.t) (raw : bytes) : res unit :=
  if Inode.has_inline_data inode then refuse_nonempty_inline_dir fs dev ino inode raw
  else empty_blocks (n_blocks fs inode) ino inode 0.

Definition rmdir_at (dir : InodeRef.t) (name : bytes) : tx unit :=
  _ ← dev_lift (check_entry_name name);
  if decide (name = [46]) then dev_lift (Err (InvalidArgument "rmdir: cannot remove .")) else
  if decide (name = [46; 46]) then dev_lift (Err DirectoryNotEmpty) else
  let parent_ino := InodeRef.ino dir in
  '(parent_inode, _) ← live_dir_tx dir;
  target_ino ← dev_lift (find_entry_in_dir fs dev parent_ino parent_inode name);
  '(target_inode, target_raw) ← live_inode_tx (InodeRef.any target_ino);
  if negb (Inode.is_dir target_inode) then dev_lift (Err NotADirectory) else
  _ ← dev_lift (refuse_nonempty target_ino target_inode target_raw);
  runs ← dev_lift (content_runs target_ino target_inode);
  content ← free_content target_inode runs;
  attributes ← free_attributes target_inode;
  _ ← free_slot target_ino;
  target_gi ← dev_lift (group_of fs target_ino);
  _ ← staging (λ buf, buffer_patch_bgd_counters fs dev buf target_gi 0 0 (-1));
  _ ← patch_sb_counters fs dev (as_i64 (as_u64 (content + attributes))) 1;
  _ ← bury target_ino target_inode (zrep (Superblock.inode_size sb) 0);
  r ← catch (buffer_remove_dir_entry fs dev parent_ino parent_inode name);
  match r with
  | inl () => bump_links parent_ino (-1)
  | inr NotFound => dev_lift (Err (Corrupt "apply_rmdir: entry disappeared mid-operation"))
  | inr e => dev_lift (Err e)
  end.

(** ** Renaming *)

Fixpoint ancestor_loop (fuel : nat) (ancestor cur : Z) : res bool :=
  match fuel with
  | O => Err (Corrupt "directory `..` chain does not reach the root")
  | S fuel =>
      if decide (cur = ancestor) then Ok true else
      if decide (cur = EXT4_ROOT_INODE) then Ok false else
      '(inode, _) ← read_inode_verified fs dev cur;
      parent ← Path.find_entry dev sb csum cur inode [46; 46];
      ancestor_loop fuel ancestor parent
  end.
Definition is_ancestor_or_self (ancestor dir : Z) : res bool :=
  ancestor_loop (S (Z.to_nat (Superblock.inodes_count sb))) ancestor dir.

(** The summed changes of link counts: by increasing inode, zero ones not
    written. *)
Definition apply_parent_nlink_deltas (deltas : list (Z * Z)) : tx unit :=
  each (λ '(ino, delta), if decide (delta = 0) then mret () else bump_links ino delta) deltas.

(** Two counters of one map: one sum when they are the same directory's. *)
Definition sorted_deltas (a da b db : Z) : list (Z * Z) :=
  if decide (a = b) then [(a, da + db)] else if decide (a < b) then [(a, da); (b, db)] else [(b, db); (a, da)].

(** A rename, once both directories and the source are known. *)
Record Renaming := mkRenaming {
  src_parent : Z; src_name : bytes; r_src_ino : Z; r_src_inode : Inode.t;
  dst_parent : Z; dst_parent_inode : Inode.t; dst_name : bytes }.
Definition r_is_dir (r : Renaming) : bool := Inode.is_dir (r_src_inode r).
Definition moves_dir (r : Renaming) : bool := r_is_dir r && bool_decide (src_parent r ≠ dst_parent r).

(** The new name in, the old one out, [..] moved. *)
Definition move_entry (r : Renaming) : tx unit :=
  _ ← add_name fs dev (dst_parent r) (dst_parent_inode r) (dst_name r) (r_src_ino r) (EntryType.from_mode (Inode.mode (r_src_inode r)));
  '(src_parent_now, _) ← buffered_inode_verified fs dev (src_parent r);
  _ ← buffer_remove_dir_entry fs dev (src_parent r) src_parent_now (src_name r);
  if moves_dir r then buffer_update_dotdot fs dev (r_src_ino r) (r_src_inode r) (dst_parent r) else mret ().

(** What becomes of the inode the new name replaces: the change it makes to
    its directory's link count. *)
Definition drop_replaced (ino : Z) (inode : Inode.t) (raw : bytes) (runs : list (Z * Z)) : tx Z :=
  let is_dir := Inode.is_dir inode in
  let new_links := saturating_sub (Inode.links_count inode) 1 in
  if bool_decide (0 < new_links) && negb is_dir then
    raw ← dev_lift (raw ← put_u16 raw 0x1A new_links; finalize_inode_raw fs ino (Inode.generation inode) raw);
    _ ← write_inode fs dev ino raw;
    mret 0
  else
    content ← free_content inode runs;
    attributes ← free_attributes inode;
    _ ← free_slot ino;
    _ ← (if is_dir then
           gi ← dev_lift (group_of fs ino);
           staging (λ buf, buffer_patch_bgd_counters fs dev buf gi 0 0 (-1))
         else mret ());
    _ ← patch_sb_counters fs dev (as_i64 (through_sectors content attributes)) 1;
    _ ← bury ino inode raw;
    mret (if is_dir then -1 else 0).

Definition rename_over (r : Renaming) (old_ino : Z) : tx unit :=
  if decide (old_ino = r_src_ino r) then mret () else
  '(old_inode, old_raw) ← dev_lift (read_inode_verified fs dev old_ino);
  let dst_is_dir := Inode.is_dir old_inode in
  if negb (r_is_dir r) && dst_is_dir then dev_lift (Err IsADirectory) else
  if r_is_dir r && negb dst_is_dir then dev_lift (Err NotADirectory) else
  _ ← dev_lift (if dst_is_dir then refuse_nonempty old_ino old_inode old_raw else Ok ());
  runs ← dev_lift (if dst_is_dir || bool_decide (Inode.links_count old_inode ≤ 1)
                   then content_runs old_ino old_inode else Ok []);
  _ ← buffer_remove_dir_entry fs dev (dst_parent r) (dst_parent_inode r) (dst_name r);
  _ ← move_entry r;
  lost ← drop_replaced old_ino old_inode old_raw runs;
  apply_parent_nlink_deltas (if moves_dir r then sorted_deltas (src_parent r) (-1) (dst_parent r) (1 + lost)
                             else [(dst_parent r, lost)]).

(** [apply_rename_at] from where the volume is marked not clean. *)
Definition rename_at (src_dir : InodeRef.t) (src_nm : bytes) (src_ino : Z) (dst_dir : InodeRef.t) (dst_inode : Inode.t)
    (dst_nm : bytes) (replace_if_exists : bool) : tx unit :=
  let src_parent_ino := InodeRef.ino src_dir in
  let dst_parent_ino := InodeRef.ino dst_dir in
  existing ← dev_lift (
    match find_entry_in_dir fs dev dst_parent_ino dst_inode dst_nm with
    | Ok ino => Ok (Some ino)
    | Err NotFound => Ok None
    | Err e => Err e
    | Panic => Panic
    | OutOfFuel => OutOfFuel
    end);
  if bool_decide (existing ≠ None) && negb replace_if_exists then dev_lift (Err AlreadyExists) else
  '(src_inode, _) ← live_inode_tx (InodeRef.any src_ino);
  let r := mkRenaming src_parent_ino src_nm src_ino src_inode dst_parent_ino dst_inode dst_nm in
  cycle ← dev_lift (if r_is_dir r then is_ancestor_or_self src_ino dst_parent_ino else Ok false);
  if (cycle : bool) then dev_lift (Err (InvalidArgument "rename: cannot move directory into its own subtree")) else
  _ ← dev_lift (if moves_dir r && bool_decide (existing = None) then check_link_room fs dst_inode else Ok ());
  match existing with
  | Some old_ino => rename_over r old_ino
  | None =>
      _ ← move_entry r;
      apply_parent_nlink_deltas (if moves_dir r then sorted_deltas src_parent_ino (-1) dst_parent_ino 1 else [])
  end.
End fs.
