(* ===== verification/FileWrite.v ===== *)
(** FileWrite: what the operations on a file's content stage (src/src/fs.rs):
    replacing it whole, writing at an offset, preallocating and punching.
    Each is a program over one transaction; Operations commits it. *)
From S2P Require Import Prelude Errors Bytes Device Features Superblock Checksum Bgd Extent ExtentMut ExtentTree Inode Indirect IndirectMut InlineMut Alloc Filesystem InodeEdit FileIo BlockBuffer FsRead Stage DirEdit Namespace.

(** A program as the closure [FnMut() -> Result<u64>] a planner calls, counting
    its successes, and a planner run with it. *)
Definition as_alloc (p : tx Z) (a : staged * Z) : res (Z * (staged * Z)) :=
  match p (fst a) with
  | (Ok b, s) => Ok (b, (s, snd a + 1))
  | (Err e, _) => Err e
  | (Panic, _) => Panic
  | (OutOfFuel, _) => OutOfFuel
  end.
Definition with_alloc {A} (f : staged * Z → res (A * (staged * Z))) : tx (A * Z) := λ s,
  match f (s, 0) with
  | Ok (a, (s, n)) => (Ok (a, n), s)
  | Err e => (Err e, s) | Panic => (Panic, s) | OutOfFuel => (OutOfFuel, s)
  end.

Section fs.
Context `{Crc32c} (fs : Filesystem.t) (dev : reader) (now : Z).
Local Abbreviation sb := (Filesystem.sb fs).
Local Abbreviation csum := (Filesystem.csum fs).
Local Abbreviation bs := (Filesystem.block_size fs).

(** ** Replacing a file's content *)

Definition empty_leaf_root : res bytes := root ← put_u16 (zrep 60 0) 0 EXT4_EXT_MAGIC; put_u16 root 4 4.

(** Block [i] of [n] of the payload, zero-padded, at [first + i]. *)
Definition stage_payload (first n : Z) (data : bytes) : tx unit :=
  each (λ i,
    let off_in_data := i * bs in
    let chunk_end := Z.min ((i + 1) * bs) (zlen data) in
    block ← dev_lift (chunk ← slice data off_in_data (chunk_end - off_in_data); put (zrep bs 0) 0 chunk);
    put_staged (as_u64 (first + i)) block) (seqZ 0 n).

(** The end of an empty write: the inode, and what was freed. *)
Definition replace_with_nothing (ino : Z) (inode : Inode.t) (raw : bytes) (freed : Z) : tx Z :=
  raw ← dev_lift (finalize_inode_raw_after_write fs now ino raw inode 0 (xattr_block_sectors fs inode));
  _ ← (if decide (0 < freed) then patch_sb_counters fs dev (as_i64 freed) 0 else mret ());
  _ ← write_inode fs dev ino raw;
  mret 0.

(** Mark a planned run used, and the counts net of what was freed. *)
Definition take_run (plan : BlockAllocationPlan) (n freed : Z) : tx unit :=
  _ ← staging (λ buf, buffer_mark_block_run_used fs dev buf (first_block plan) n);
  _ ← patch_group fs dev (bp_bgd plan);
  patch_sb_counters fs dev (as_i64 (as_i64 freed - n)) 0.

Definition replace_extents (ino : Z) (inode : Inode.t) (raw data : bytes) : tx Z :=
  group ← dev_lift (group_of fs ino);
  runs ← dev_lift (extent_tree_runs fs dev ino inode);
  freed ← free_runs fs dev runs;
  root ← dev_lift empty_leaf_root;
  raw ← dev_lift (patch_inode_block_area raw root);
  if decide (data = []) then replace_with_nothing ino inode raw freed else
  let needed_blocks := as_u32 (div_ceil (zlen data) bs) in
  plan ← plan_blocks fs dev needed_blocks group;
  _ ← take_run plan needed_blocks freed;
  _ ← stage_payload (first_block plan) needed_blocks data;
  muts ← dev_lift (plan_insert_extent root (Extent.mk 0 (as_u16 needed_blocks) (first_block plan) false));
  raw ← dev_lift (foldM (λ raw m, match m with WriteRoot b => patch_inode_block_area raw b | _ => Ok raw end) raw muts);
  let new_size := zlen data in
  let new_sectors := needed_blocks * (bs / 512) + xattr_block_sectors fs inode in
  raw ← dev_lift (finalize_inode_raw_after_write fs now ino raw inode new_size new_sectors);
  _ ← write_inode fs dev ino raw;
  mret new_size.

Definition checked_add_u32 (x y : Z) : option Z := if decide (x + y < 2 ^ 32) then Some (x + y) else None.

Definition apply_replace_file_content_indirect (ino : Z) (inode : Inode.t) (raw data : bytes) : tx Z :=
  group ← dev_lift (group_of fs ino);
  freed ← (if decide (0 < Inode.size inode) then
             tree ← dev_lift (IndirectMut.collect_for_free dev bs (Inode.block inode) (as_u32 (div_ceil (Inode.size inode) bs)));
             free_collected fs dev tree
           else mret 0);
  raw ← dev_lift (patch_inode_block_area raw (zrep 60 0));
  if decide (data = []) then replace_with_nothing ino inode raw freed else
  let needed_data_blocks := as_u32 (div_ceil (zlen data) bs) in
  n_indirect ← dev_lift (try_u32 (IndirectMut.count_indirect_blocks needed_data_blocks bs)
                           (Corrupt "indirect_mut: indirect block count overflow"));
  total_run ← dev_lift (ok_or (checked_add_u32 needed_data_blocks n_indirect) (Corrupt "indirect_mut: total run count overflow"));
  plan ← plan_blocks fs dev total_run group;
  let first_indirect := first_block plan in
  let first_data := as_u64 (first_block plan + n_indirect) in
  '(i_plan, _) ← dev_lift (IndirectMut.plan_contiguous (λ next, Ok (next, as_u64 (next + 1))) first_data bs needed_data_blocks first_indirect);
  _ ← take_run plan total_run freed;
  _ ← stage_payload first_data needed_data_blocks data;
  _ ← each (λ '(blk, b), put_staged blk b) (IndirectMut.block_writes i_plan);
  raw ← dev_lift (patch_inode_block_area raw (IndirectMut.i_block i_plan));
  let new_size := zlen data in
  let new_sectors := (needed_data_blocks + n_indirect) * (bs / 512) + xattr_block_sectors fs inode in
  raw ← dev_lift (finalize_inode_raw_after_write fs now ino raw inode new_size new_sectors);
  _ ← write_inode fs dev ino raw;
  mret new_size.

(** A block-mapped inode is never one just converted, so nothing is staged
    when the branch for it starts its own buffer. *)
Definition replace_file_content (ino : Z) (data : bytes) : tx Z :=
  '(inode, raw) ← dev_lift (read_inode_verified fs dev ino);
  if negb (Inode.is_file inode) then dev_lift (Err (InvalidArgument "write_file target is not a regular file")) else
  stored ← (if Inode.has_inline_data inode then buffer_store_inline_file fs dev now ino inode raw data else mret false);
  if (stored : bool) then mret (zlen data) else
  '(inode, raw) ← (if Inode.has_inline_data inode then buffer_convert_inline_file fs dev ino inode raw false
                   else mret (inode, raw));
  if negb (Inode.has_extents inode) then apply_replace_file_content_indirect ino inode raw data
  else replace_extents ino inode raw data.

(** ** Tree blocks drawn by a planner *)

Definition node_block (group : Z) : tx Z :=
  p ← planning (λ st buf, plan_buffered_block_allocation fs dev st buf 1 group);
  _ ← staging (λ buf, buffer_mark_block_run_used fs dev buf (first_block p) 1);
  _ ← staging (λ buf, buffer_patch_bgd_counters fs dev buf (group_idx (bp_bgd p)) (bgd_free_blocks_delta (bp_bgd p)) 0 0);
  mret (first_block p).

Definition needs_deep (e : Error) : bool :=
  match e with
  | CorruptExtentTree msg => contains "LEAF_FULL_NEEDS_PROMOTION" msg || contains "multi-level tree mutation" msg
  | _ => false
  end.

(** Insert into the inline root, or into the tree below it: the new root, the
    tree blocks written and how many were drawn. *)
Definition insert_extent (ino : Z) (inode : Inode.t) (read : Z → res bytes) (group : Z) (root : bytes) (e : Extent.t)
    (root_of : list ExtentMutation → res bytes) : tx (bytes * list (Z * bytes) * Z) :=
  match plan_insert_extent root e with
  | Ok muts => root ← dev_lift (root_of muts); mret (root, [], 0)
  | Err er =>
      if needs_deep er then
        '(plan, drawn) ← with_alloc (plan_insert_extent_deep (as_alloc (node_block group)) bs read (descent_fuel fs) root e);
        writes ← dev_lift (traverse (λ '(b, bytes), bytes ← stamp_extent_block fs ino inode bytes; Ok (b, bytes)) (block_writes plan));
        _ ← each (λ '(b, bytes), put_staged b bytes) writes;
        mret (new_root plan, writes, drawn)
      else dev_lift (Err er)
  | Panic => dev_lift Panic
  | OutOfFuel => dev_lift OutOfFuel
  end.

(** ** Writing at an offset *)

(** The device with the tree blocks planned so far over it. *)
Definition overlay (nodes : gmap Z bytes) : reader :=
  mkReader (λ offset n,
    buf ← rd_read dev offset n;
    let stop := offset + n in
    let touched := filter (λ kb, offset / bs ≤ fst kb ∧ fst kb < div_ceil stop bs) (map_to_list nodes) in
    foldM (λ buf '(block, b),
      let lo := Z.max (block * bs) offset in
      let hi := Z.min ((block + 1) * bs) stop in
      if decide (lo < hi) then piece ← slice b (lo - block * bs) (hi - lo); put buf (lo - offset) piece
      else Ok buf) buf touched) (rd_size dev).
Definition overlay_block (nodes : gmap Z bytes) (block : Z) : res bytes :=
  match nodes !! block with
  | Some b => if decide (zlen b = bs) then Ok b
              else Err (Corrupt "StagedTreeNodes: block length mismatch (callers must pass a buffer sized to fs block_size)")
  | None => Filesystem.read_block fs dev block
  end.

(** What the write has planned: its inline root, its tree blocks, the logical
    blocks whose old bytes nobody may see, and the blocks it took. *)
Record writing := mkWriting { w_root : bytes; tree_nodes : gmap Z bytes; newly_alloc : gset Z; alloc_total_blocks : Z }.

Definition mapped (w : writing) (lb : Z) : res (option Z) := map_logical (overlay (tree_nodes w)) bs (w_root w) lb.

(** [for lb in first..last { if e.uninitialized { break } }] *)
Fixpoint any_preallocated (n : nat) (root : bytes) (lb : Z) : res bool :=
  match n with
  | O => Ok false
  | S n =>
      o ← Extent.lookup (overlay ∅) bs root lb;
      match o with
      | Some e => if Extent.uninitialized e then Ok true else any_preallocated n root (lb + 1)
      | None => any_preallocated n root (lb + 1)
      end
  end.

Definition refused_split (e : Error) : Error :=
  match e with
  | CorruptExtentTree msg =>
      if contains "multi-level" msg || contains "LEAF_FULL" msg
      then Unsupported "pwrite: writing into a preallocated range needs its extent split in a tree deeper than the inode's inline root"
      else e
  | _ => e
  end.

(** Preallocated blocks in the range become the file's, zeroed. *)
Definition claim_preallocated (root : bytes) (first_lb last_lb_excl : Z) : res writing :=
  let stop := Z.min last_lb_excl u32_max in
  preallocated ← any_preallocated (Z.to_nat (stop - first_lb)) root first_lb;
  if (preallocated : bool) then
    '(root, converted) ← match plan_initialize_range root (as_u32 first_lb) (as_u32 stop) with Err e => Err (refused_split e) | r => r end;
    Ok (mkWriting root ∅ (list_to_set converted) 0)
  else Ok (mkWriting root ∅ ∅ 0).

(** Ask for [want] blocks, for half as many while no run is that long. *)
Fixpoint plan_halving (fuel : nat) (group want : Z) : tx (BlockAllocationPlan * Z) :=
  match fuel with
  | O => dev_lift OutOfFuel
  | S fuel =>
      r ← catch (planning (λ st buf, plan_buffered_block_allocation fs dev st buf want group));
      match r with
      | inl p => mret (p, want)
      | inr (Corrupt msg) =>
          if contains "contiguous free run" msg then
            if decide (want = 1) then dev_lift (Err NoSpaceLeftOnDevice) else plan_halving fuel group (want / 2)
          else dev_lift (Err (Corrupt msg))
      | inr e => dev_lift (Err e)
      end
  end.

(** Blocks for [remaining] unmapped logical ones from [lb] on. *)
Fixpoint fill_run (fuel : nat) (ino : Z) (inode : Inode.t) (group lb remaining : Z) (w : writing) : tx writing :=
  if decide (0 < remaining) then
    match fuel with
    | O => dev_lift OutOfFuel
    | S fuel =>
        '(plan, got) ← plan_halving 33 group remaining;
        _ ← staging (λ buf, buffer_mark_block_run_used fs dev buf (first_block plan) got);
        _ ← patch_group fs dev (bp_bgd plan);
        let e := Extent.mk (as_u32 lb) (as_u16 got) (first_block plan) false in
        '(root, writes, drawn) ← insert_extent ino inode (overlay_block (tree_nodes w)) group (w_root w) e
                                   (λ muts, Ok (root_after (w_root w) muts));
        let w := mkWriting root (list_to_map (reverse writes) ∪ tree_nodes w)
                   (list_to_set (seqZ lb got) ∪ newly_alloc w) (as_u64 (alloc_total_blocks w + got + drawn)) in
        fill_run fuel ino inode group (lb + got) (remaining - got) w
    end
  else mret w.

(** The end of the unmapped run that [lb] is in. *)
Fixpoint run_end (n : nat) (w : writing) (lb : Z) : res Z :=
  match n with
  | O => Ok lb
  | S n => o ← mapped w lb; match o with Some _ => Ok lb | None => run_end n w (lb + 1) end
  end.

Fixpoint map_range (fuel : nat) (ino : Z) (inode : Inode.t) (group lb last_lb_excl : Z) (w : writing) : tx writing :=
  if decide (lb < last_lb_excl) then
    match fuel with
    | O => dev_lift OutOfFuel
    | S fuel =>
        o ← dev_lift (mapped w lb);
        match o with
        | Some _ => map_range fuel ino inode group (lb + 1) last_lb_excl w
        | None =>
            stop ← dev_lift (run_end (Z.to_nat (last_lb_excl - (lb + 1))) w (lb + 1));
            let run_len := stop - lb in
            if decide (u32_max < run_len)
            then dev_lift (Err (InvalidArgument "pwrite: unmapped run exceeds u32 block count")) else
            w ← fill_run (Z.to_nat run_len) ino inode group lb run_len w;
            map_range fuel ino inode group stop last_lb_excl w
        end
    end
  else mret w.

(** The part of the data that falls in logical block [lb]. *)
Definition splice_block (w : writing) (offset stop : Z) (data : bytes) (lb : Z) : tx unit :=
  let block_start := lb * bs in
  let chunk_start := Z.max offset block_start in
  let chunk_end := Z.min stop (block_start + bs) in
  o ← dev_lift (mapped w lb);
  phys ← dev_lift (ok_or o (Corrupt "pwrite Phase 2: logical block unmapped after Phase 1 (allocator/extent insert mismatch)"));
  chunk ← dev_lift (slice data (chunk_start - offset) (chunk_end - chunk_start));
  if decide (lb ∈ newly_alloc w) then
    block ← dev_lift (put (zrep bs 0) (chunk_start - block_start) chunk);
    put_staged phys block
  else
    block ← fetch fs dev phys;
    if decide (zlen block ≠ bs) then dev_lift (Err (Corrupt "pwrite Phase 2: existing block has wrong size")) else
    block ← dev_lift (put block (chunk_start - block_start) chunk);
    put_staged phys block.

(** [apply_pwrite_ino] from its buffer on, for a range one transaction can
    hold.  [writes] counts the blocks the data lies in. *)
Definition write_extents (ino : Z) (inode : Inode.t) (raw : bytes) (offset stop : Z) (data : bytes) : tx Z :=
  let first_lb := offset / bs in
  let last_lb_excl := div_ceil stop bs in
  let writes := last_lb_excl - first_lb in
  group ← dev_lift (group_of fs ino);
  w ← dev_lift (claim_preallocated (Inode.block inode) first_lb last_lb_excl);
  w ← map_range (Z.to_nat writes) ino inode group first_lb last_lb_excl w;
  _ ← each (splice_block w offset stop data) (seqZ first_lb writes);
  raw ← dev_lift (patch_inode_block_area raw (w_root w));
  let new_size := Z.max (Inode.size inode) stop in
  new_sectors ← dev_lift (ok_or (checked_add64 (Inode.blocks inode) (alloc_total_blocks w * (bs / 512)))
                            (Corrupt "pwrite: i_blocks overflow"));
  raw ← dev_lift (finalize_inode_raw_after_write fs now ino raw inode new_size new_sectors);
  _ ← write_inode fs dev ino raw;
  _ ← (if decide (0 < alloc_total_blocks w) then patch_sb_counters fs dev (- as_i64 (alloc_total_blocks w)) 0 else mret ());
  mret new_size.

(** The content of an inline file with the data in it. *)
Definition spliced (content : bytes) (offset stop : Z) (data : bytes) : res bytes :=
  put (if decide (zlen content < stop) then resize content stop else content) offset data.

Definition pwrite (ino : Z) (inode : Inode.t) (raw : bytes) (offset stop : Z) (data : bytes) : tx Z :=
  if Inode.has_inline_data inode then
    stored ← (if decide (stop ≤ ceiling (Superblock.inode_size sb)) then
                content ← dev_lift (read_inline fs dev inode raw);
                content ← dev_lift (spliced content offset stop data);
                done ← buffer_store_inline_file fs dev now ino inode raw content;
                mret (if (done : bool) then Some (zlen content) else None)
              else mret None);
    match stored with
    | Some size => mret size
    | None =>
        '(inode, raw) ← buffer_convert_inline_file fs dev ino inode raw true;
        write_extents ino inode raw offset stop data
    end
  else write_extents ino inode raw offset stop data.

(** ** Preallocating *)

Fixpoint refuse_mapped (n : nat) (inode : Inode.t) (log : Z) : res unit :=
  match n with
  | O => Ok ()
  | S n =>
      o ← map_logical dev bs (Inode.block inode) log;
      match o with
      | Some _ => Err (InvalidArgument "fallocate: range partially mapped (v1 limitation)")
      | None => refuse_mapped n inode (log + 1)
      end
  end.

Definition set_both_times (raw : bytes) : res bytes := raw ← set_inode_time raw Ctime now; set_inode_time raw Mtime now.

Definition fallocate_keep_size (ino offset len : Z) : tx unit :=
  let first_blk := offset / bs in
  stop ← dev_lift (ok_or (checked_add64 offset len) (InvalidArgument "fallocate: offset+len overflow"));
  let last_block_excl := div_ceil stop bs in
  let need_blocks := last_block_excl - first_blk in
  if decide (u32_max < need_blocks) then dev_lift (Err (InvalidArgument "fallocate: range exceeds u32 block count")) else
  '(inode, raw) ← dev_lift (read_inode_verified fs dev ino);
  if negb (Inode.is_file inode) then dev_lift (Err (InvalidArgument "fallocate: target is not a regular file")) else
  if negb (Inode.has_extents inode)
  then dev_lift (Err (InvalidArgument "fallocate: legacy (non-extents) inodes not supported")) else
  _ ← dev_lift (refuse_mapped (Z.to_nat need_blocks) inode first_blk);
  inode_group ← dev_lift (group_of fs ino);
  plan ← plan_blocks fs dev need_blocks inode_group;
  if decide (0x7FFF < need_blocks)
  then dev_lift (Err (InvalidArgument "fallocate: single-extent length > 32K blocks (split needed)")) else
  _ ← staging (λ buf, buffer_mark_block_run_used fs dev buf (first_block plan) need_blocks);
  _ ← patch_group fs dev (bp_bgd plan);
  let e := Extent.mk (as_u32 first_blk) (as_u16 need_blocks) (first_block plan) true in
  '(root, _, meta_blocks) ← insert_extent ino inode (Filesystem.read_block fs dev) inode_group (Inode.block inode) e
                              (λ muts, ok_or (first_root muts) (Corrupt "fallocate: extent insert wrote no root"));
  _ ← patch_sb_counters fs dev (sb_free_blocks_delta (bp_sb plan) - meta_blocks) (sb_free_inodes_delta (bp_sb plan));
  raw ← dev_lift (
    raw ← patch_inode_block_area raw root;
    raw ← patch_inode_size_and_blocks raw (Inode.size inode)
            (Z.min (Inode.blocks inode + (need_blocks + meta_blocks) * (bs / 512)) u64_max);
    raw ← set_both_times raw;
    finalize_inode_raw fs ino (Inode.generation inode) raw);
  write_inode fs dev ino raw.

(** ** Punching a hole *)

(** The part of an edge block the range covers, where it covers only part. *)
Definition zero_edge (inode : Inode.t) (offset stop lb : Z) : tx unit :=
  let lo := Z.max offset (lb * bs) in
  let hi := Z.min stop ((lb + 1) * bs) in
  if decide (hi ≤ lo ∨ hi - lo = bs) then mret () else
  o ← dev_lift (map_logical dev bs (Inode.block inode) lb);
  match o with
  | None => mret ()
  | Some phys => staging (edit fs dev phys (λ b, put b (lo - lb * bs) (zrep (hi - lo) 0)))
  end.

(** One extent of the file: what survives of it, and how many blocks go. *)
Definition punch_extent (first last : Z) (acc : list Extent.t * Z) (e : Extent.t) : tx (list Extent.t * Z) :=
  let '(kept, freed) := acc in
  let el := Extent.logical_block e in
  let er := el + Extent.length e in
  if decide (er ≤ first ∨ last ≤ el) then mret (kept ++ [e], freed) else
  if decide (first ≤ el ∧ er ≤ last) then
    n ← free_run fs dev (Extent.physical_block e) (Extent.length e);
    mret (kept, as_u64 (freed + n))
  else
    let free_lo := Z.max el first in
    let free_hi := Z.min er last in
    n ← free_run fs dev (as_u64 (Extent.physical_block e + (free_lo - el))) (as_u32 (free_hi - free_lo));
    let before := if decide (el < first)
      then [Extent.mk (as_u32 el) (as_u16 (first - el)) (Extent.physical_block e) (Extent.uninitialized e)] else [] in
    let after := if decide (last < er)
      then [Extent.mk (as_u32 last) (as_u16 (er - last)) (as_u64 (Extent.physical_block e + (last - el))) (Extent.uninitialized e)] else [] in
    mret (kept ++ before ++ after, as_u64 (freed + n)).

(** Lay the survivors out again over the tree's own blocks: the new root, the
    blocks freed in all and those drawn. *)
Definition repack (ino : Z) (inode : Inode.t) (survivors : list Extent.t) (nodes : list Z) (freed : Z) : tx (bytes * Z * Z) :=
  gen ← dev_lift (u32_le (Inode.block inode) 8);
  '(repacked, _) ← with_alloc (plan_repack_tree (as_alloc (allocate_block fs dev ino)) gen survivors bs nodes);
  _ ← each (λ '(b, bytes), bytes ← dev_lift (stamp_extent_block fs ino inode bytes); put_staged b bytes) (rp_block_writes repacked);
  freed ← fold_m (λ freed node,
    if decide (node ∈ rp_used_nodes repacked) then mret freed
    else n ← free_run fs dev node 1; mret (as_u64 (freed + n))) freed nodes;
  mret (rp_new_root repacked, freed, zlen (rp_allocated_blocks repacked)).

Definition fallocate_punch_hole (ino offset len : Z) : tx unit :=
  stop ← dev_lift (ok_or (checked_add64 offset len) (InvalidArgument "punch_hole: offset+len overflow"));
  let punch_first := div_ceil offset bs in
  let punch_last_excl := stop / bs in
  '(inode, raw) ← dev_lift (read_inode_verified fs dev ino);
  if negb (Inode.is_file inode) then dev_lift (Err (InvalidArgument "punch_hole: not a regular file")) else
  if negb (Inode.has_extents inode)
  then dev_lift (Err (InvalidArgument "punch_hole: legacy (non-extents) inodes not supported")) else
  '(extents, nodes) ← dev_lift (collect_all_with_nodes dev bs (Inode.block inode));
  let head_block := offset / bs in
  let tail_block := stop / bs in
  _ ← each (zero_edge inode offset stop) (if decide (head_block = tail_block) then [head_block] else [head_block; tail_block]);
  let frees_blocks := bool_decide (punch_first < punch_last_excl) in
  '(survivors, freed) ← fold_m (punch_extent punch_first punch_last_excl) ([], 0) (if frees_blocks then extents else []);
  '(raw, freed, allocated) ← (if frees_blocks then
      '(root, freed, allocated) ← repack ino inode survivors nodes freed;
      raw ← dev_lift (patch_inode_block_area raw root);
      mret (raw, freed, allocated)
    else mret (raw, freed, 0));
  let sectors_per_block := bs / 512 in
  let new_i_blocks := as_u64 (saturating_sub (Inode.blocks inode) (as_u64 (freed * sectors_per_block)) + allocated * sectors_per_block) in
  raw ← dev_lift (
    raw ← patch_inode_size_and_blocks raw (Inode.size inode) new_i_blocks;
    raw ← set_both_times raw;
    finalize_inode_raw fs ino (Inode.generation inode) raw);
  _ ← write_inode fs dev ino raw;
  if decide (0 < freed) then patch_sb_counters fs dev (as_i64 freed) 0 else mret ().
End fs.
