(* ===== verification/Operations.v ===== *)
(** Operations: the mutating calls of a mount (src/src/fs.rs): each refuses a
    volume it must not write, runs the program of Stage, Namespace or FileWrite
    over a new buffer, and commits what that staged. *)
From S2P Require Import Prelude Errors Bytes Device Features Superblock Checksum Bgd Extent Inode Dir Alloc Filesystem InodeEdit FileIo BlockBuffer FsRead JournalWriter Mount Stage DirEdit Namespace FileWrite.

Module Operations.
Import Mount.

Section ops.
Context `{Crc32c} {D : Type} `{BlockDevice D}.
(** The clock and the generation counter of the runtime.  One value stands for
    the readings of one call, which the source takes as it goes. *)
Context (now generation : Z).

(** Read what a mount keeps, allocation state included. *)
Definition reading_live {A} (f : Filesystem.t → reader → AllocationState → res A) : dev_m (Mount.t D) A := λ m,
  (f (fs m) (snapshot (dev m)) (alloc m), m).

(** Run a program over a new buffer and commit what it staged: nothing, when
    it staged nothing.  A failure drops the buffer. *)
Definition transact {A} (p : Filesystem.t → reader → tx A) : dev_m (Mount.t D) A := λ m,
  match p (fs m) (snapshot (dev m)) (begin (alloc m)) with
  | (Ok a, s) => (_ ← commit_block_buffer (buffer s); mret a) (set_alloc m (space s))
  | (Err e, s) => (Err e, set_alloc m (space s))
  | (Panic, s) => (Panic, set_alloc m (space s))
  | (OutOfFuel, s) => (OutOfFuel, set_alloc m (space s))
  end.

Definition at_path {A} (path : bytes) (k : Z → dev_m (Mount.t D) A) : dev_m (Mount.t D) A :=
  _ ← refuse_write;
  ino ← reading (λ f r, resolve f r path);
  k ino.
Definition at_new_name {A} (path : bytes) (k : InodeRef.t → bytes → dev_m (Mount.t D) A) : dev_m (Mount.t D) A :=
  _ ← refuse_write;
  '(parent, name) ← reading (λ f r, resolve_new_parent f r path);
  k (InodeRef.any parent) name.

(** The counters patched outside an operation: the descriptor's on the device,
    the superblock's in a transaction of their own. *)
Definition patch_bgd_counters (gi free_blocks_delta free_inodes_delta used_dirs_delta : Z) : dev_m (Mount.t D) unit :=
  f ← ask fs;
  '(bgt_block, off_in_block) ← dev_lift (Superblock.descriptor_location (Filesystem.sb f) gi);
  block ← reading (λ f r, Filesystem.read_block f r bgt_block);
  block ← dev_lift (
    block ← patch_bgd_counter_fields block off_in_block (Superblock.desc_size (Filesystem.sb f))
              free_blocks_delta free_inodes_delta used_dirs_delta;
    restamp_group_desc_csum f gi off_in_block block);
  on_device (Device.write_at (as_u64 (bgt_block * Filesystem.block_size f)) block).
Definition patch_sb_counters (free_blocks_delta free_inodes_delta : Z) : dev_m (Mount.t D) unit :=
  transact (λ f d, Stage.patch_sb_counters f d free_blocks_delta free_inodes_delta).

(** ** Attributes *)

(** [live_inode], a change to the raw image, and the inode committed alone. *)
Definition edit_live (r : InodeRef.t) (f : Filesystem.t → Inode.t → bytes → res (option bytes)) : dev_m (Mount.t D) unit :=
  '(inode, raw) ← reading_live (λ f d st, live_inode f d st r);
  o ← reading (λ fs _, f fs inode raw);
  match o with Some raw => commit_inode_write (InodeRef.ino r) raw | None => mret () end.

Definition apply_chmod_ino (r : InodeRef.t) (mode : Z) : dev_m (Mount.t D) unit :=
  _ ← refuse_write;
  edit_live r (λ f inode raw, Some <$> chmod_raw f (InodeRef.ino r) inode raw mode now).
Definition apply_chmod (path : bytes) (mode : Z) : dev_m (Mount.t D) unit :=
  at_path path (λ ino, apply_chmod_ino (InodeRef.any ino) mode).

Definition apply_chown_ino (r : InodeRef.t) (uid gid : Z) : dev_m (Mount.t D) unit :=
  _ ← refuse_write;
  edit_live r (λ f inode raw, Some <$> chown_raw f (InodeRef.ino r) inode raw uid gid now).
Definition apply_chown (path : bytes) (uid gid : Z) : dev_m (Mount.t D) unit :=
  at_path path (λ ino, apply_chown_ino (InodeRef.any ino) uid gid).

Definition apply_set_flags (path : bytes) (flags : Z) : dev_m (Mount.t D) unit :=
  at_path path (λ ino,
    raw ← reading (λ f d, '(inode, raw) ← read_inode_verified f d ino; set_flags_raw f ino inode raw flags now);
    commit_inode_write ino raw).

Definition apply_utimens_ino (r : InodeRef.t) (atime_sec atime_nsec mtime_sec mtime_nsec : Z) : dev_m (Mount.t D) unit :=
  _ ← refuse_write;
  atime ← dev_lift (TimeUpdate.resolve atime_sec atime_nsec now);
  mtime ← dev_lift (TimeUpdate.resolve mtime_sec mtime_nsec now);
  edit_live r (λ f inode raw, utimens_raw f (InodeRef.ino r) inode raw atime mtime now).
Definition apply_utimens (path : bytes) (atime_sec atime_nsec mtime_sec mtime_nsec : Z) : dev_m (Mount.t D) unit :=
  _ ← refuse_write;
  _ ← dev_lift (TimeUpdate.check atime_sec atime_nsec);
  _ ← dev_lift (TimeUpdate.check mtime_sec mtime_nsec);
  ino ← reading (λ f r, resolve f r path);
  apply_utimens_ino (InodeRef.any ino) atime_sec atime_nsec mtime_sec mtime_nsec.

Definition apply_setxattr (path name value : bytes) : dev_m (Mount.t D) unit :=
  at_path path (λ ino, transact (λ f d, setxattr f d now ino name value)).
Definition apply_removexattr (path name : bytes) : dev_m (Mount.t D) unit :=
  at_path path (λ ino, transact (λ f d, removexattr f d now ino name)).

(** ** Sizes *)

Definition apply_truncate_shrink (ino new_size : Z) : dev_m (Mount.t D) unit :=
  _ ← refuse_write;
  transact (λ f d,
    '(inode, raw) ← dev_lift (read_inode_verified f d ino);
    _ ← dev_lift (refuse_truncate_of inode);
    if decide (Inode.size inode < new_size)
    then dev_lift (Err (InvalidArgument "truncate: new_size > old_size (grow not supported)")) else
    if decide (new_size = Inode.size inode) then mret () else
    if Inode.has_inline_data inode then truncate_inline_file f d now ino inode raw new_size
    else truncate_shrink f d ino inode raw new_size).

(** The image of a file grown over a hole. *)
Definition grow_raw (f : Filesystem.t) (ino : Z) (inode : Inode.t) (raw : bytes) (new_size : Z) : res bytes :=
  raw ← patch_inode_size_and_blocks raw new_size (Inode.blocks inode);
  raw ← set_inode_time raw Ctime now;
  raw ← set_inode_time raw Mtime now;
  finalize_inode_raw f ino (Inode.generation inode) raw.

Definition apply_truncate_grow (ino new_size : Z) : dev_m (Mount.t D) unit :=
  _ ← refuse_write;
  '(inode, raw) ← reading (λ f d, read_inode_verified f d ino);
  _ ← dev_lift (refuse_truncate_of inode);
  if decide (new_size < Inode.size inode)
  then dev_lift (Err (InvalidArgument "apply_truncate_grow: new_size < old_size (use apply_truncate_shrink)")) else
  if Inode.has_inline_data inode then transact (λ f d, truncate_inline_file f d now ino inode raw new_size) else
  raw ← reading (λ f _, grow_raw f ino inode raw new_size);
  commit_inode_write ino raw.

Definition apply_truncate_ino (r : InodeRef.t) (new_size : Z) : dev_m (Mount.t D) unit :=
  _ ← refuse_write;
  '(inode, _) ← reading_live (λ f d st, live_inode f d st r);
  if Inode.is_dir inode then dev_lift (Err IsADirectory) else
  if negb (Inode.is_file inode) then dev_lift (Err (InvalidArgument "truncate target is not a regular file")) else
  if decide (Inode.size inode ≤ new_size) then apply_truncate_grow (InodeRef.ino r) new_size
  else apply_truncate_shrink (InodeRef.ino r) new_size.

Definition apply_fallocate_keep_size (ino offset len : Z) : dev_m (Mount.t D) unit :=
  _ ← refuse_write;
  if decide (len = 0) then mret () else transact (λ f d, fallocate_keep_size f d now ino offset len).
Definition apply_fallocate_punch_hole (ino offset len : Z) : dev_m (Mount.t D) unit :=
  _ ← refuse_write;
  if decide (len = 0) then mret () else transact (λ f d, fallocate_punch_hole f d now ino offset len).
Definition apply_fallocate_zero_range (ino offset len : Z) : dev_m (Mount.t D) unit :=
  if decide (len = 0) then mret () else
  _ ← apply_fallocate_punch_hole ino offset len;
  f ← ask fs;
  let bs := Filesystem.block_size f in
  stop ← dev_lift (ok_or (checked_add64 offset len) (InvalidArgument "zero_range: offset+len overflow"));
  let first := as_u64 (div_ceil offset bs * bs) in
  let last := stop / bs * bs in
  if decide (last ≤ first) then mret () else apply_fallocate_keep_size ino first (last - first).

(** ** Content *)

Definition apply_replace_file_content (path data : bytes) : dev_m (Mount.t D) Z :=
  at_path path (λ ino, transact (λ f d, replace_file_content f d now ino data)).

Definition PWRITE_CHUNK_MAX_BYTES : Z := 32 * 1024 * 1024.

(** Whether a transaction of [data] data blocks fits: the bound on the tree
    blocks, the bitmaps and the descriptors it may dirty. *)
Definition chunk_fits (bs ngroups desc_size capacity data : Z) : bool :=
  let tags_per_desc := Z.max ((bs - 12 - 4) / 16) 1 in
  let half_node := Z.max ((bs - 12) / 12 / 2) 1 in
  let gdt_blocks := div_ceil (ngroups * desc_size) bs in
  let '(tree, _) := foldl (λ '(tree, level) _, let level := div_ceil level half_node + 1 in (tree + level, level))
                      (0, data) (seqZ 0 5) in
  let allocations := data + tree in
  let metadata := 2 + Z.min allocations ngroups + Z.min allocations gdt_blocks + tree in
  let tagged := data + metadata in
  bool_decide (tagged + div_ceil tagged tags_per_desc + 1 ≤ capacity).

(** [while lo + 1 < hi { .. }] *)
Fixpoint bisect (fuel : nat) (fits : Z → bool) (lo hi : Z) : res Z :=
  if decide (lo + 1 < hi) then
    match fuel with
    | O => OutOfFuel
    | S fuel => let mid := lo + (hi - lo) / 2 in if fits mid then bisect fuel fits mid hi else bisect fuel fits lo mid
    end
  else Ok lo.

Definition pwrite_chunk_blocks (m : Mount.t D) : res Z :=
  let f := fs m in
  let bs := Filesystem.block_size f in
  let memory_bound := Z.max (PWRITE_CHUNK_MAX_BYTES / bs) 1 in
  match journal m with
  | None => Ok memory_bound
  | Some w =>
      let fits := chunk_fits bs (zlen (Filesystem.groups f)) (Superblock.desc_size (Filesystem.sb f))
                    (JournalWriter.max_blocks_per_transaction w) in
      if fits memory_bound then Ok memory_bound else bisect (Z.to_nat memory_bound) fits 1 memory_bound
  end.

(** The source calls itself on each chunk; what it computes the size of a chunk
    from does not change in between, so a second level cuts nothing. *)
Fixpoint pwrite_ino (fuel : nat) (r : InodeRef.t) (offset : Z) (data : bytes) : dev_m (Mount.t D) Z :=
  _ ← refuse_write;
  '(inode, raw) ← reading_live (λ f d st, live_inode f d st r);
  if negb (Inode.is_file inode) then dev_lift (Err (InvalidArgument "pwrite target is not a regular file")) else
  if negb (Inode.has_extents inode) && negb (Inode.has_inline_data inode)
  then dev_lift (Err (InvalidArgument "pwrite: legacy (non-extents) inodes not supported in v1")) else
  if decide (data = []) then mret (Inode.size inode) else
  f ← ask fs;
  let len := zlen data in
  stop ← dev_lift (ok_or (checked_add64 offset len) (InvalidArgument "pwrite: offset+len overflow"));
  m ← ask id;
  max_data_blocks ← dev_lift (pwrite_chunk_blocks m);
  let max_chunk := as_u64 (max_data_blocks * Filesystem.block_size f) in
  if decide (max_chunk < len) then
    match fuel with
    | O => dev_lift OutOfFuel
    | S fuel =>
        _ ← each (λ i,
              let chunk_off := i * max_chunk in
              chunk ← dev_lift (slice data chunk_off (Z.min max_chunk (len - chunk_off)));
              _ ← pwrite_ino fuel r (offset + chunk_off) chunk; mret ())
            (seqZ 0 (div_ceil len max_chunk));
        '(after, _) ← reading (λ f d, read_inode_verified f d (InodeRef.ino r));
        mret (Inode.size after)
    end
  else transact (λ f d, pwrite f d now (InodeRef.ino r) inode raw offset stop data).
Definition apply_pwrite_ino : InodeRef.t → Z → bytes → dev_m (Mount.t D) Z := pwrite_ino 1.
Definition apply_pwrite (path : bytes) (offset : Z) (data : bytes) : dev_m (Mount.t D) Z :=
  at_path path (λ ino, apply_pwrite_ino (InodeRef.any ino) offset data).

(** ** Names *)

Definition apply_create_at (dir : InodeRef.t) (name : bytes) (mode : Z) : dev_m (Mount.t D) Z :=
  _ ← refuse_write; transact (λ f d, create_at f d now generation dir name mode).
Definition apply_create (path : bytes) (mode : Z) : dev_m (Mount.t D) Z :=
  at_new_name path (λ dir name, apply_create_at dir name mode).

Definition apply_mknod_at (dir : InodeRef.t) (name : bytes) (mode major minor : Z) : dev_m (Mount.t D) Z :=
  _ ← refuse_write; transact (λ f d, mknod_at f d now generation dir name mode major minor).
Definition apply_mknod (path : bytes) (mode major minor : Z) : dev_m (Mount.t D) Z :=
  _ ← refuse_write;
  _ ← dev_lift (mknod_entry_type mode);
  '(parent, name) ← reading (λ f r, resolve_new_parent f r path);
  apply_mknod_at (InodeRef.any parent) name mode major minor.

Definition apply_symlink_at (dir : InodeRef.t) (name target : bytes) : dev_m (Mount.t D) Z :=
  _ ← refuse_write; transact (λ f d, symlink_at f d now generation dir name target).
Definition apply_symlink (target linkpath : bytes) : dev_m (Mount.t D) Z :=
  _ ← refuse_write;
  _ ← reading (λ f _, check_symlink_target f target);
  '(parent, name) ← reading (λ f r, resolve_new_parent f r linkpath);
  apply_symlink_at (InodeRef.any parent) name target.

Definition apply_mkdir_at (dir : InodeRef.t) (name : bytes) (mode : Z) : dev_m (Mount.t D) Z :=
  _ ← refuse_write; transact (λ f d, mkdir_at f d now generation dir name mode).
Definition apply_mkdir (path : bytes) (mode : Z) : dev_m (Mount.t D) Z :=
  at_new_name path (λ dir name, apply_mkdir_at dir name mode).

Definition apply_link_at (target dir : InodeRef.t) (dst_name : bytes) : dev_m (Mount.t D) unit :=
  _ ← refuse_write; transact (λ f d, link_at f d target dir dst_name).
Definition apply_link (src dst : bytes) : dev_m (Mount.t D) unit :=
  _ ← refuse_write;
  '(dst_parent_path, dst_name) ← dev_lift (split_parent_and_base dst);
  if decide (255 < zlen dst_name) then dev_lift (Err NameTooLong) else
  src_ino ← reading (λ f r, resolve f r src);
  '(src_inode, _) ← reading_live (λ f d st, live_inode f d st (InodeRef.any src_ino));
  if Inode.is_dir src_inode then dev_lift (Err IsADirectory) else
  dst_parent ← reading (λ f r, resolve f r dst_parent_path);
  apply_link_at (InodeRef.any src_ino) (InodeRef.any dst_parent) dst_name.

Definition apply_unlink_at (dir : InodeRef.t) (name : bytes) : dev_m (Mount.t D) unit :=
  _ ← refuse_write; transact (λ f d, Namespace.unlink_at f d now dir name).
Definition apply_unlink (path : bytes) : dev_m (Mount.t D) unit :=
  _ ← refuse_write;
  let trailing_slash := bool_decide (1 < zlen path) && bool_decide (last path = Some 47) in
  '(parent_path, base_name) ← dev_lift (split_parent_and_base path);
  parent_ino ← reading (λ f r, resolve f r parent_path);
  if trailing_slash then
    '(parent_inode, _) ← reading_live (λ f d st, live_dir f d st (InodeRef.any parent_ino));
    target_ino ← reading (λ f d, find_entry_in_dir f d parent_ino parent_inode base_name);
    '(target_inode, _) ← reading_live (λ f d st, live_inode f d st (InodeRef.any target_ino));
    dev_lift (Err (if Inode.is_dir target_inode then IsADirectory else NotADirectory))
  else apply_unlink_at (InodeRef.any parent_ino) base_name.

Definition apply_rmdir_at (dir : InodeRef.t) (name : bytes) : dev_m (Mount.t D) unit :=
  _ ← refuse_write; transact (λ f d, rmdir_at f d now dir name).
Definition apply_rmdir (path : bytes) : dev_m (Mount.t D) unit :=
  _ ← refuse_write;
  '(parent, name) ← reading (λ f r, resolve_parent f r path);
  apply_rmdir_at (InodeRef.any parent) name.

Definition apply_rename_at (src_dir : InodeRef.t) (src_name : bytes) (dst_dir : InodeRef.t) (dst_name : bytes)
    (replace_if_exists : bool) : dev_m (Mount.t D) unit :=
  r ← ask write_refusal;
  _ ← dev_lift r;
  _ ← dev_lift (check_entry_name src_name);
  _ ← dev_lift (check_new_entry_name dst_name);
  if is_dot_or_dotdot src_name || is_dot_or_dotdot dst_name
  then dev_lift (Err (InvalidArgument "rename: cannot rename . or ..")) else
  '(src_parent_inode, _) ← reading_live (λ f d st, live_dir f d st src_dir);
  '(dst_parent_inode, _) ← reading_live (λ f d st, live_dir f d st dst_dir);
  src_ino ← reading (λ f d, find_entry_in_dir f d (InodeRef.ino src_dir) src_parent_inode src_name);
  if decide (InodeRef.ino src_dir = InodeRef.ino dst_dir ∧ src_name = dst_name) then mret () else
  _ ← mark_not_clean_once;
  transact (λ f d, rename_at f d now src_dir src_name src_ino dst_dir dst_parent_inode dst_name replace_if_exists).
Definition apply_rename (src dst : bytes) (replace_if_exists : bool) : dev_m (Mount.t D) unit :=
  r ← ask write_refusal;
  _ ← dev_lift r;
  '(src_parent_path, src_name) ← dev_lift (split_parent_and_base src);
  '(dst_parent_path, dst_name) ← dev_lift (split_parent_and_base dst);
  if decide (255 < zlen dst_name) then dev_lift (Err NameTooLong) else
  src_parent ← reading (λ f r, resolve f r src_parent_path);
  dst_parent ← reading (λ f r, resolve f r dst_parent_path);
  apply_rename_at (InodeRef.any src_parent) src_name (InodeRef.any dst_parent) dst_name replace_if_exists.

(** ** Orphans *)

(** One member of the chain: the previous member's last time stamp, the
    member itself, and the head of the chain moved past it. *)
Definition recover_one (f : Filesystem.t) (d : reader) (unstamped : option (Z * Z)) (orphan_ino next : Z) : tx (option (Z * bool)) :=
  _ ← match unstamped with Some (ino, dtime) => buffer_stamp_dtime f d ino dtime | None => mret () end;
  o ← buffer_recover_orphan f d now orphan_ino next;
  match o with
  | None => mret None
  | Some (blocks, final_dtime, deleted) =>
      _ ← Stage.patch_sb_counters f d (as_i64 blocks) (if (deleted : bool) then 1 else 0);
      _ ← (if decide (next = 0) then buffer_stamp_dtime f d orphan_ino final_dtime else mret ());
      _ ← staging (λ buf, buffer_patch_sb_last_orphan f d buf next);
      mret (Some (final_dtime, deleted))
  end.

(** One transaction per member; a member that cannot be reclaimed ends the
    loop, with the chain's head still on it. *)
Fixpoint recover_chain (chain : list Z) (unstamped : option (Z * Z)) (reclaimed : Z) : dev_m (Mount.t D) Z :=
  match chain with
  | [] => mret reclaimed
  | orphan_ino :: chain =>
      let next := default 0 (head chain) in
      o ← transact (λ f d, recover_one f d unstamped orphan_ino next);
      match o with
      | None => mret reclaimed
      | Some (final_dtime, deleted) =>
          recover_chain chain (if decide (next = 0) then None else Some (orphan_ino, final_dtime))
            (reclaimed + if (deleted : bool) then 1 else 0)
      end
  end.

Definition recover_orphans : dev_m (Mount.t D) Z :=
  m ← ask id;
  if negb (ok_unit (write_refusal m)) then mret 0 else
  if decide (Superblock.last_orphan (Filesystem.sb (fs m)) = 0) then mret 0 else
  _ ← mark_not_clean_once;
  chain ← reading_live (λ f d st, orphan_chain_to_recover f d st);
  if decide (chain = []) then
    transact (λ f d, _ ← staging (λ buf, buffer_patch_sb_last_orphan f d buf 0); mret 0)
  else recover_chain chain None 0.
End ops.
End Operations.
