(* ===== verification/Lifecycle.v ===== *)
(** Lifecycle: bringing a mount up (src/src/fs.rs): the sequence of checks,
    replay, journal and orphan recovery behind every way to mount, and the
    checked recovery of an exclusively owned device.  Release is in Mount. *)
From S2P Require Import Prelude Errors Bytes Device BlockCache Features Superblock Checksum Bgd Jbd2 Journal JournalApply JournalWriter Filesystem BlockBuffer Mount Operations.

Module Lifecycle.
Import Mount Operations.

Definition DEFAULT_CACHE_BLOCKS : Z := 256.

(** What mounting leaves: a mount, or the device without one. *)
Inductive mounting (D : Type) :=
  | Mounted (m : Mount.t (@CachedDevice.t D))
  | Refused (why : Error) (d : D)
  | Crashed (why : res unit) (d : D).
Arguments Mounted {D}. Arguments Refused {D}. Arguments Crashed {D}.

Section lifecycle.
Context `{Crc32c} {D : Type} `{BlockDevice D} (now : Z).
Local Abbreviation C := (@CachedDevice.t D).

(** A run over the mount; a failure drops it. *)
Definition settle (run : res unit * Mount.t C) : mounting D :=
  match run with
  | (Ok _, m) => Mounted m
  | (Err e, m) => Refused e (CachedDevice.inner (dev (drop m)))
  | (r, m) => Crashed r (CachedDevice.inner (dev m))
  end.

(** What is read off the raw device before there is a mount. *)
Definition read_metadata : dev_m D Filesystem.t := λ d,
  ('(sb, csum) ← read_checked_superblock "superblock";
   groups ← with_reader (λ r, Bgd.read_all r sb csum);
   size ← dev_size;
   _ ← dev_lift (Superblock.check_fits_device sb size);
   mret (Filesystem.mk sb groups csum)) d.

Definition open_journal : dev_m (Mount.t C) unit :=
  w ← reading JournalWriter.open;
  match w with Some w => update (λ m, set_journal m (Some w)) | None => mret () end.

Definition mount_sequence (defer_replay : bool) : dev_m (Mount.t C) unit :=
  f ← ask fs;
  writable ← ask (λ m, is_writable (dev m));
  let write_breaking := write_breaking_incompat (Superblock.feature_incompat (Filesystem.sb f)) in
  if writable && bool_decide (write_breaking ≠ 0) then dev_lift (Err (UnsupportedIncompat write_breaking)) else
  replayed ← (if negb writable then on_device (replay_into_cache f)
              else if negb defer_replay then on_device (replay_if_dirty f) else mret 0);
  _ ← (if decide (0 < replayed) then reload_geometry else mret ());
  m ← ask id;
  _ ← (if ok_unit (write_refusal m) then open_journal else mret ());
  _ ← (if negb writable || defer_replay then
         j ← reading read_superblock;
         update (λ m, set_pending m (is_dirty j))
       else mret ());
  if defer_replay then mret () else
  _ ← recover_orphans now;
  refresh_metadata.

Definition mount_inner (defer_replay : bool) (cache_blocks : Z) (d : D) : mounting D :=
  match read_metadata d with
  | (Ok f, d) =>
      settle (mount_sequence defer_replay
        (Mount.mk (CachedDevice.new d (Filesystem.block_size f) cache_blocks) f (mkAlloc ∅ None) None false 0 false false false))
  | (Err e, d) => Refused e d
  | (Panic, d) => Crashed Panic d
  | (OutOfFuel, d) => Crashed OutOfFuel d
  end.

Definition mount : D → mounting D := mount_inner false DEFAULT_CACHE_BLOCKS.
Definition mount_with_cache (d : D) (blocks : Z) : mounting D := mount_inner false blocks d.
Definition mount_lazy : D → mounting D := mount_inner true DEFAULT_CACHE_BLOCKS.

(** The journal must be one the checked lifecycle qualifies. *)
Definition check_journal (missing : Error) : dev_m (Mount.t C) unit :=
  f ← ask fs;
  o ← reading read_superblock;
  jsb ← dev_lift (ok_or o missing);
  dev_lift (JournalSuperblock.validate_plain_recovery jsb (Filesystem.block_size f) (Superblock.blocks_count (Filesystem.sb f))).

Definition recovering_sequence : dev_m (Mount.t C) unit :=
  _ ← update (λ m, set_pending m false);
  _ ← refuse_write;
  _ ← check_journal (Unsupported "checked recovery requires an internal journal");
  f ← ask fs;
  if decide (Z.land (Superblock.state (Filesystem.sb f)) Superblock.EXT4_ERROR_FS ≠ 0)
  then dev_lift (Err (Corrupt "filesystem records an outstanding error")) else
  _ ← update (λ m, set_journal m None);
  _ ← set_recovery_marker true;
  f ← ask fs;
  _ ← on_device (replay_if_dirty f);
  _ ← refresh_metadata;
  _ ← refuse_write;
  _ ← check_journal (Corrupt "journal disappeared");
  _ ← set_recovery_marker true;
  w ← reading JournalWriter.open;
  _ ← update (λ m, set_journal m (JournalWriter.holding_needs_recovery <$> w));
  _ ← recover_orphans now;
  _ ← refresh_metadata;
  update (λ m, set_managed m true).

Definition mount_recovering (d : D) : mounting D :=
  match mount_lazy d with
  | Mounted m => settle (recovering_sequence m)
  | r => r
  end.
End lifecycle.
End Lifecycle.
