(* ===== verification/OperationSafety.v ===== *)
(** OperationSafety: what the mutating calls of Operations promise whatever the
    program they run: with a journal the whole call is atomic across power
    failures, a program that fails leaves the device alone, and the chunks a
    long write is cut into fit the journal. *)
From S2P Require Import Prelude Errors Bytes Device Disk Features Superblock Checksum Bgd Extent ExtentTree Inode Alloc Filesystem BlockBuffer FsRead Jbd2 Journal Transaction LogReplay JournalApply JournalWriter CrashSafety Mount MountSafety Stage FileWrite Operations.

(** ** Crash atomicity of an operation *)

Section atomic.
Context `{Crc32c}.

(** The transaction a staged buffer is committed in. *)
Definition buffer_tx (w : JournalWriter.t) (buf : BlockBuffer) : Transaction.t :=
  Transaction.set_writes (uncurry JournaledBlock.mk <$> in_order (dirty buf)) (JournalWriter.begin w).

(** What the volume holds outside the journal, up to the recovery flag: the
    contents [f] of each block. *)
Definition holds (w : JournalWriter.t) (img : bytes) (f : Z → bytes) (c : bytes) : Prop :=
  zlen c = zlen img ∧ bytes_ok c ∧
  ∀ b, 0 ≤ b → b ∉ JournalWriter.physical_map w →
    view (JournalWriter.block_size w) b (Disk.blk (JournalWriter.block_size w) c b) =
    view (JournalWriter.block_size w) b (f b).

(** The volume after the operation: the staged blocks over the old ones. *)
Definition staged_over (bs : Z) (img : bytes) (buf : BlockBuffer) (b : Z) : bytes :=
  default (Disk.blk bs img b) (dirty buf !! b).

Lemma add_writes_app tx ws : Forall (λ w, zlen (snd w) = Transaction.block_size tx) ws →
  Mount.add_writes tx ws =
  Ok (Transaction.set_writes (Transaction.writes tx ++ (uncurry JournaledBlock.mk <$> ws)) tx).
Proof.
  revert tx. induction ws as [|[b x] ws IH]; intros tx Hf; cbn.
  { rewrite app_nil_r. by destruct tx. }
  apply Forall_cons in Hf as [Hx Hf]. cbn in Hx. unfold Transaction.add_write. rewrite decide_False by (intros []; done).
  rewrite bind_Ok, IH by exact Hf. unfold Transaction.set_writes. cbn. by rewrite <-app_assoc.
Qed.

(** A mounted writer between two commits: nothing in the log carries the
    sequence number after its next one.  [p0] is the block of the journal
    superblock. *)
Record writer_ready (w : JournalWriter.t) (img : bytes) (p0 : Z) : Prop := {
  wr_sane : commit_sane w (JournalWriter.begin w) img p0;
  wr_unspent : ∀ k p h, JournalWriter.physical_map w !! S k = Some p →
    try_parse_header (Disk.blk (JournalWriter.block_size w) img p) = Ok (Some h) →
    h_sequence h ≠ as_u32 (JournalSuperblock.sequence (JournalWriter.jsb w) + 1);
}.

(** What a program may stage: whole blocks of the volume, outside the journal. *)
Definition stages_blocks (w : JournalWriter.t) (buf : BlockBuffer) : Prop := ∀ b x, dirty buf !! b = Some x →
  0 ≤ b < JournalWriter.blocks_count w ∧ b ∉ JournalWriter.physical_map w ∧
  block_fits (JournalSuperblock.uses_64bit (JournalWriter.jsb w)) b ∧ zlen x = JournalWriter.block_size w ∧ bytes_ok x.

(** The log blocks the transaction of a buffer takes. *)
Definition log_size (w : JournalWriter.t) (buf : BlockBuffer) : Z :=
  zlen (tx_blocks (JournalWriter.jsb w) (ptx w (buffer_tx w buf))).

Lemma buffer_sane w img p0 buf : writer_ready w img p0 → stages_blocks w buf → commit_sane w (buffer_tx w buf) img p0.
Proof.
  intros [S _] Hb. assert (Hin : ∀ bx, bx ∈ in_order (dirty buf) → dirty buf !! bx.1 = Some bx.2).
  { intros [b x] Hx. by apply in_order_elem in Hx. }
  destruct S as [S1 S2 S3 S4 S5 S6 S7 S8 S9 S10 S11 S12 [T1 T2 T3 T4 T5 _ T7] S14 _]. split; try done.
  - split; try done. unfold buffer_tx. cbn [Transaction.writes Transaction.set_writes]. rewrite Forall_fmap.
    apply Forall_forall. intros [b x] Hx. cbn. destruct (Hb b x (Hin (b, x) Hx)) as (_ & _ & Hf & Hz & Ho). done.
  - unfold targets, buffer_tx. cbn [Transaction.writes Transaction.set_writes]. rewrite !Forall_fmap. apply Forall_forall.
    intros [b x] Hx. cbn. destruct (Hb b x (Hin (b, x) Hx)) as (? & ? & _). split; [done|]. split; [done|]. apply not_elem_of_nil.
Qed.

Lemma buffer_fits w img p0 buf : writer_ready w img p0 →
  log_size w buf ≤ JournalWriter.max_blocks_per_transaction w → commit_fits w (buffer_tx w buf) img.
Proof.
  intros [S U] Hf. pose proof (log_ok _ _ _ _ S) as (_ & _ & _ & _ & Hmax). split.
  - unfold log_size, JournalWriter.max_blocks_per_transaction, saturating_sub in Hf. lia.
  - intros p h Hp. exact (U _ p h Hp).
Qed.

Lemma add_writes_buffer w img p0 buf : commit_sane w (buffer_tx w buf) img p0 →
  Mount.add_writes (JournalWriter.begin w) (in_order (dirty buf)) = Ok (buffer_tx w buf).
Proof.
  intros R. rewrite add_writes_app; [done|]. pose proof (tx_writes _ _ (cr_tx _ _ _ _ R)) as Hw.
  unfold buffer_tx in Hw. cbn in Hw. rewrite Forall_fmap in Hw. eapply Forall_impl; [exact Hw|].
  intros [b x] (_ & _ & E). exact E.
Qed.

Lemma buffer_tx_blocks w buf b img :
  foldl Disk.put_block (Disk.blk (JournalWriter.block_size w) img) (block_of <$> Transaction.writes (buffer_tx w buf)) b =
  staged_over (JournalWriter.block_size w) img buf b.
Proof.
  unfold buffer_tx. cbn [Transaction.writes Transaction.set_writes].
  assert (block_of <$> (uncurry JournaledBlock.mk <$> in_order (dirty buf)) = in_order (dirty buf)) as ->.
  { rewrite <-list_fmap_compose. transitivity (id <$> in_order (dirty buf)); [|apply list_fmap_id]. by apply list_fmap_ext; intros ? []. }
  unfold staged_over. destruct (dirty buf !! b) as [x|] eqn:E; cbn.
  - apply Disk.put_blocks_nodup; [apply in_order_nodup|by apply in_order_elem].
  - apply Disk.put_blocks_other. intros ([b' x] & -> & Hin)%list_elem_of_fmap. apply in_order_elem in Hin. cbn in E. congruence.
Qed.

Lemma commit_buffer_run {D} `{BlockDevice D} (m : Mount.t D) buf w w' d' tx :
  dirty buf ≠ ∅ → Mount.journal m = Some w → Mount.add_writes (JournalWriter.begin w) (in_order (dirty buf)) = Ok tx →
  JournalWriter.commit tx (w, Mount.dev m) = (Ok (), (w', d')) →
  Mount.commit_block_buffer buf m =
  (Ok (), Mount.set_alloc (Mount.set_journal (Mount.set_dev m d') (Some w')) (publish (Mount.alloc m) (uninit_cleared buf))).
Proof.
  intros Hne Hj Ha Hc. unfold Mount.commit_block_buffer. rewrite decide_False, ask_run, Hj by done.
  erewrite bind_dev by (unfold Mount.commit_journaled; by rewrite Ha, Hc). reflexivity.
Qed.

Lemma commit_buffer_fails {D} `{BlockDevice D} (m : Mount.t D) buf w tx e :
  dirty buf ≠ ∅ → Mount.journal m = Some w → Mount.add_writes (JournalWriter.begin w) (in_order (dirty buf)) = Ok tx →
  JournalWriter.commit tx (w, Mount.dev m) = (Err e, (w, Mount.dev m)) →
  Mount.commit_block_buffer buf m = (Err e, m).
Proof.
  intros Hne Hj Ha Hc. unfold Mount.commit_block_buffer. rewrite decide_False, ask_run, Hj by done.
  unfold mbind, dev_bind, Mount.commit_journaled. rewrite Ha, Hc. by destruct m; cbn in *; subst.
Qed.

(** C3: a journaled operation is atomic across power failures.  For any program
    that, when it succeeds, has staged whole blocks of the volume outside the
    journal, in any number, on a mount whose writer is between two commits: a
    program that staged nothing writes nothing; one that staged more than the
    log holds fails, with the device and the writer untouched; otherwise the
    call answers what the program answered and the staged blocks survive any
    power failure after it; and whatever part of the commit's writes a failure
    keeps, at any point of the commit and of any number of recoveries after
    it, the next recovery succeeds and the volume outside the journal holds
    either all its old blocks or all the staged ones.  When the program fails,
    the call fails with it and the device is untouched. *)
Theorem operation_crash_atomic {A} (p : Filesystem.t → reader → tx A) (m : Mount.t Disk.t) w img p0 :
  let bs := JournalWriter.block_size w in
  Mount.dev m = Disk.start img → Mount.journal m = Some w → writer_ready w img p0 →
  (∀ a s, p (Mount.fs m) (snapshot (Mount.dev m)) (begin (Mount.alloc m)) = (Ok a, s) → stages_blocks w (buffer s)) →
  match p (Mount.fs m) (snapshot (Mount.dev m)) (begin (Mount.alloc m)) with
  | (Ok a, s) =>
      if decide (dirty (buffer s) = ∅) then Operations.transact p m = (Ok a, Mount.set_alloc m (space s)) else
      if decide (JournalWriter.max_blocks_per_transaction w < log_size w (buffer s))
      then ∃ e, Operations.transact p m = (Err e, Mount.set_alloc m (space s)) else
      ∃ m', Operations.transact p m = (Ok a, m') ∧
        Mount.alloc m' = publish (space s) (uninit_cleared (buffer s)) ∧
        (∀ c, Disk.survives (Mount.dev m') c → holds w img (staged_over bs img (buffer s)) c) ∧
        ∀ c fs, left_behind w (buffer_tx w (buffer s)) img (Disk.events (Mount.dev m')) c →
          mount_ready w (buffer_tx w (buffer s)) img fs →
          ∃ n d, replay_if_dirty fs (Disk.start c) = (Ok n, d) ∧ clean w p0 (Disk.contents d) ∧
            (holds w img (Disk.blk bs img) (Disk.contents d) ∨
             holds w img (staged_over bs img (buffer s)) (Disk.contents d))
  | (r, _) => ∃ m', Operations.transact p m = (r, m') ∧ Mount.dev m' = Mount.dev m ∧ Mount.journal m' = Mount.journal m
  end.
Proof.
  intros bs Hd Hj W Hp. destruct (p _ _ _) as [[a|e| |] s] eqn:E.
  2-4: by unfold Operations.transact; rewrite E; eexists.
  pose proof (buffer_sane w img p0 (buffer s) W (Hp a s eq_refl)) as R.
  pose proof (add_writes_buffer w img p0 (buffer s) R) as Ha.
  case_decide as Hne; [by unfold Operations.transact; rewrite E; unfold Mount.commit_block_buffer; rewrite decide_True|].
  case_decide as Hbig.
  { eexists. unfold Operations.transact. rewrite E. unfold mbind, dev_bind.
    erewrite commit_buffer_fails; [reflexivity|done|exact Hj|exact Ha|]. exact (commit_oversized w _ img p0 R _ Hbig). }
  pose proof (buffer_fits w img p0 (buffer s) W ltac:(lia)) as F.
  destruct (commit_run w _ img p0 R F) as (buf1 & buf2 & H1 & H2 & Ec & Hn & _).
  assert (Hnew : ∀ c, new w (buffer_tx w (buffer s)) img c → holds w img (staged_over bs img (buffer s)) c).
  { intros c [[Hz Hb] Hv]. split; [done|]. split; [done|]. intros b Hb0 Hb1. rewrite Hv by done.
    by rewrite buffer_tx_blocks. }
  match type of Ec with _ = (_, (?w', ?d')) => exists (Mount.set_alloc (Mount.set_journal (Mount.set_dev m d') (Some w'))
    (publish (space s) (uninit_cleared (buffer s)))) end.
  split; [|split; [done|split]].
  - unfold Operations.transact. rewrite E.
    erewrite bind_dev by (eapply commit_buffer_run; [done|exact Hj|exact Ha|cbn; rewrite Hd; exact Ec]).
    reflexivity.
  - cbn [Mount.dev Mount.set_alloc Mount.set_journal Mount.set_dev]. intros c Hc. apply Hnew.
    destruct (trace_flushed w (buffer_tx w (buffer s)) img p0 buf1 buf2) as [es Hes]. rewrite Hes in *.
    by apply Disk.survives_flush in Hc as ->.
  - intros c fs Hc M.
    destruct (outcome_recovers w _ img p0 R F fs c M) as (n & d & Er & Hcl & Ho & _).
    { eapply left_behind_outcome; [exact R|exact F|exact H1|exact H2|exact Hc]. }
    exists n, d. split; [exact Er|]. split; [exact Hcl|]. destruct Ho as [[[Hz Hb] Hv]|Ho]; [left|right; by apply Hnew].
    by split_and!.
Qed.
End atomic.

(** ** The chunks of a long write *)

Section chunk.
Context (bs ngroups desc_size : Z) (Hbs : 1024 ≤ bs ≤ 65536) (Hg : 0 ≤ ngroups * desc_size) (Hn : 0 ≤ ngroups).

Local Abbreviation half_node := (Z.max ((bs - 12) / 12 / 2) 1).
Local Abbreviation tags_per_desc := (Z.max ((bs - 12 - 4) / 16) 1).

(** The tree blocks a write of [data] blocks may dirty, level by level. *)
Definition tree_blocks (data : Z) : Z :=
  fst (foldl (λ '(tree, level) _, let level := div_ceil level half_node + 1 in (tree + level, level)) (0, data) (seqZ 0 5)).

(** The blocks such a write may stage: the bound [chunk_fits] works with. *)
Definition chunk_writes (data : Z) : Z :=
  let tree := tree_blocks data in
  let allocations := data + tree in
  data + (2 + Z.min allocations ngroups + Z.min allocations (div_ceil (ngroups * desc_size) bs) + tree).

Lemma chunk_fits_eq capacity data : Operations.chunk_fits bs ngroups desc_size capacity data =
  bool_decide (chunk_writes data + div_ceil (chunk_writes data) tags_per_desc + 1 ≤ capacity).
Proof using Type.
  unfold Operations.chunk_fits, chunk_writes, tree_blocks. cbv zeta. by destruct (foldl _ _ _).
Qed.

Lemma tree_blocks_mono : ∀ x y, 0 ≤ x ≤ y → 0 ≤ tree_blocks x ≤ tree_blocks y.
Proof using Type.
  assert (∀ l (t t' v v' : Z), 0 ≤ t ≤ t' → 0 ≤ v ≤ v' →
    0 ≤ fst (foldl (λ '(tree, level) _, let level := div_ceil level half_node + 1 in (tree + level, level)) (t, v) l) ≤
    fst (foldl (λ '(tree, level) _, let level := div_ceil level half_node + 1 in (tree + level, level)) (t', v') (l : list Z))) as H.
  { induction l as [|x l IH]; intros t t' v v' Ht Hv; [done|]. cbn [foldl]. cbv zeta.
    pose proof (div_ceil_nonneg v half_node). pose proof (div_ceil_mono v v' half_node). apply IH; lia. }
  intros x y Hxy. apply H; lia.
Qed.

Lemma chunk_writes_mono x y : 0 ≤ x ≤ y → x ≤ chunk_writes x ≤ chunk_writes y.
Proof using Hbs Hg Hn.
  intros Hxy. pose proof (tree_blocks_mono x y Hxy). unfold chunk_writes. cbv zeta.
  pose proof (div_ceil_nonneg (ngroups * desc_size) bs). lia.
Qed.

Lemma chunk_fits_mono capacity x y : 0 ≤ x ≤ y →
  Operations.chunk_fits bs ngroups desc_size capacity y = true → Operations.chunk_fits bs ngroups desc_size capacity x = true.
Proof using Hbs Hg Hn.
  intros Hxy. rewrite !chunk_fits_eq, !bool_decide_eq_true. pose proof (chunk_writes_mono x y Hxy).
  pose proof (div_ceil_mono (chunk_writes x) (chunk_writes y) tags_per_desc). lia.
Qed.
End chunk.

(** The bisection ends with its fuel, between a size that fits and one that
    does not. *)
Lemma bisect_spec fits : ∀ fuel lo hi, hi - lo ≤ Z.of_nat fuel → (fits lo = true ∨ lo = 1) → fits hi = false →
  ∃ n, Operations.bisect fuel fits lo hi = Ok n ∧ (n = lo ∨ lo < n < hi) ∧ (fits n = true ∨ n = 1) ∧
       (lo < hi → fits (n + 1) = false).
Proof.
  induction fuel as [|fuel IH]; intros lo hi Hf Hlo Hhi; cbn [Operations.bisect]; case_decide as Hlt; try lia.
  - exists lo. split; [done|]. split; [by left|]. split; [done|]. lia.
  - cbv zeta. set (mid := lo + (hi - lo) / 2).
    assert (1 ≤ (hi - lo) / 2) by (apply Z.div_le_lower_bound; lia).
    assert ((hi - lo) / 2 < hi - lo) by (apply Z.div_lt_upper_bound; lia).
    destruct (fits mid) eqn:Em.
    + destruct (IH mid hi) as (n & -> & Hn & Hfn & Hn1); [unfold mid; lia|by left|done|]. exists n.
      split; [done|]. split; [unfold mid in *; lia|]. split; [done|]. intros _. apply Hn1. unfold mid. lia.
    + destruct (IH lo mid) as (n & -> & Hn & Hfn & Hn1); [unfold mid; lia|done|done|]. exists n.
      split; [done|]. split; [unfold mid in *; lia|]. split; [done|]. intros _. apply Hn1. unfold mid. lia.
  - exists lo. split; [done|]. split; [by left|]. split; [done|]. intros Hl. by replace (lo + 1) with hi by lia.
Qed.

(** The blocks a transaction without revokes is serialised into. *)
Lemma zlen_commit `{Crc32c} j tx blocks : tx_ok j tx → Transaction.revokes tx = [] → commit_for tx j = Ok blocks →
  zlen blocks = zlen (Transaction.writes tx) +
                div_ceil (zlen (Transaction.writes tx)) (tags_per_descriptor tx (layout_for j)) + 1.
Proof.
  intros Htx Hr Hc.
  assert (JournalSuperblock.unsupported_incompat j = 0 ∧ JournalSuperblock.checksum_declaration_error j = None) as [Hu Hd].
  { unfold commit_for in Hc. case_decide; [done|]. split; [lia|]. by destruct (JournalSuperblock.checksum_declaration_error j). }
  rewrite (commit_for_eq j tx Htx Hu Hd) in Hc. injection Hc as <-.
  unfold tx_blocks, revoke_chunks, write_chunks. rewrite Hr. cbn [chunks chunks_loop length fmap list_fmap app].
  rewrite zlen_app. change (zlen [_]) with 1.
  pose proof (chunks_length (tags_per_descriptor tx (layout_for j)) (Transaction.writes tx)) as Hl.
  destruct (chunks_spec (tags_per_descriptor tx (layout_for j)) (Transaction.writes tx)) as [Hcat _]; [unfold tags_per_descriptor; lia|].
  rewrite <-Hl by (unfold tags_per_descriptor; lia). rewrite <-Hcat at 2.
  generalize (chunks (tags_per_descriptor tx (layout_for j)) (Transaction.writes tx)) as cs. clear.
  induction cs as [|c cs IH]; [done|]. cbn [fmap list_fmap concat]. unfold group_blocks at 1.
  rewrite !zlen_app, !zlen_cons. rewrite zlen_fmap. lia.
Qed.

Section sizes.
Context `{Crc32c} {D : Type} `{BlockDevice D} (m : Mount.t D).
Local Abbreviation bs := (Filesystem.block_size (Mount.fs m)).
Local Abbreviation ngroups := (zlen (Filesystem.groups (Mount.fs m))).
Local Abbreviation desc_size := (Superblock.desc_size (Filesystem.sb (Mount.fs m))).

(** How much a transaction may stage for [n] blocks of data. *)
Definition staged_by (n : Z) : Z := chunk_writes bs ngroups desc_size n.
Definition memory_bound : Z := Z.max (Operations.PWRITE_CHUNK_MAX_BYTES / bs) 1.

(** C14: the size of a chunk.  It is between one block and the bound on memory,
    and the whole bound where there is no journal; with a journal it is the
    largest number of blocks, one at least, whose transaction fits the log:
    any transaction staging no more than the estimate is serialised into no
    more blocks than a commit accepts, and no larger chunk within the bound
    meets the estimate. *)
Theorem pwrite_chunk_blocks_spec : 1024 ≤ bs ≤ 65536 → 0 ≤ desc_size →
  ∃ n, Operations.pwrite_chunk_blocks m = Ok n ∧ 1 ≤ n ≤ memory_bound ∧
    match Mount.journal m with
    | None => n = memory_bound
    | Some w =>
        let capacity := JournalWriter.max_blocks_per_transaction w in
        let fits k := Operations.chunk_fits bs ngroups desc_size capacity k = true in
        (fits n ∨ n = 1) ∧ (∀ k, n < k ≤ memory_bound → ¬ fits k) ∧
        (fits n → ∀ tx blocks, tx_ok (JournalWriter.jsb w) tx → Transaction.block_size tx = bs →
           Transaction.revokes tx = [] → commit_for tx (JournalWriter.jsb w) = Ok blocks →
           zlen (Transaction.writes tx) ≤ staged_by n → zlen blocks ≤ capacity)
    end.
Proof.
  intros Hbs Hd. unfold Operations.pwrite_chunk_blocks. cbv zeta. fold memory_bound.
  assert (Hn : 0 ≤ ngroups) by apply zlen_nonneg. assert (Hg : 0 ≤ ngroups * desc_size) by nia.
  assert (Hmb : 1 ≤ memory_bound) by (unfold memory_bound; lia).
  destruct (Mount.journal m) as [w|]; [|exists memory_bound; split; [done|]; lia].
  set (capacity := JournalWriter.max_blocks_per_transaction w).
  set (fits := Operations.chunk_fits bs ngroups desc_size capacity).
  assert (Hsize : ∀ k, fits k = true → ∀ tx blocks, tx_ok (JournalWriter.jsb w) tx → Transaction.block_size tx = bs →
    Transaction.revokes tx = [] → commit_for tx (JournalWriter.jsb w) = Ok blocks →
    zlen (Transaction.writes tx) ≤ staged_by k → zlen blocks ≤ capacity).
  { intros k Hk tx blocks Htx Hb Hr Hc Hw. rewrite (zlen_commit _ _ _ Htx Hr Hc). unfold fits in Hk.
    rewrite chunk_fits_eq, bool_decide_eq_true in Hk. fold (staged_by k) in Hk.
    assert (HL : layout_ok (layout_for (JournalWriter.jsb w))).
    { apply layout_for_ok. unfold commit_for in Hc. case_decide; [done|].
      by destruct (JournalSuperblock.checksum_declaration_error (JournalWriter.jsb w)). }
    pose proof (tag_bytes_ok _ HL). pose proof (tail_bytes_range _ HL). pose proof (zlen_nonneg (Transaction.writes tx)).
    set (d := Z.max ((bs - 12 - 4) / 16) 1) in *. set (d' := tags_per_descriptor tx (layout_for (JournalWriter.jsb w))).
    assert (d ≤ d').
    { unfold d, d', tags_per_descriptor. cbv zeta. rewrite Hb.
      assert ((bs - 12 - 4) / 16 ≤ (bs - 12 - tail_bytes (layout_for (JournalWriter.jsb w))) / tag_bytes (layout_for (JournalWriter.jsb w))); [|lia].
      etransitivity; [apply (Z.div_le_compat_l _ (tag_bytes (layout_for (JournalWriter.jsb w))) 16); lia|].
      apply Z.div_le_mono; lia. }
    pose proof (div_ceil_anti (zlen (Transaction.writes tx)) d d'). pose proof (div_ceil_mono (zlen (Transaction.writes tx)) (staged_by k) d).
    lia. }
  destruct (fits memory_bound) eqn:Em.
  { exists memory_bound. split; [done|]. split; [lia|]. split; [by left|]. split; [lia|]. by apply Hsize. }
  destruct (bisect_spec fits (Z.to_nat memory_bound) 1 memory_bound) as (n & -> & Hnr & Hfn & Hn1); [lia|by right|done|].
  exists n. split; [done|]. split; [lia|]. split; [done|]. split; [|by apply Hsize].
  intros k Hk Hfk. assert (Hf1 := Hn1 ltac:(lia)). apply (chunk_fits_mono bs ngroups desc_size Hbs Hg Hn capacity (n + 1) k) in Hfk; [|lia].
  unfold fits in Hf1. congruence.
Qed.
End sizes.

(** ** Chunks do not nest *)

Section writer_log.
Context `{Crc32c} {D : Type} `{BlockDevice D}.
Local Abbreviation log_len w := (JournalSuperblock.max_len (JournalWriter.jsb w)).

(** A program over the journal's writer leaves the length of the log alone. *)
Definition keeps_log (n : Z) {A} (p : dev_m (JournalWriter.t * D) A) : Prop :=
  ∀ s, log_len (fst s) = n → log_len (fst (snd (p s))) = n.

Lemma keeps_log_bind n {A B} (p : dev_m (JournalWriter.t * D) A) (f : A → dev_m (JournalWriter.t * D) B) :
  keeps_log n p → (∀ a, keeps_log n (f a)) → keeps_log n (p ≫= f).
Proof.
  intros Hp Hf s Hs. specialize (Hp s Hs). unfold mbind, dev_bind. destruct (p s) as [[a|e| |] s']; cbn in *; [|done..].
  by apply Hf.
Qed.
Lemma keeps_log_on_dev n {A} (p : dev_m D A) : keeps_log n (JournalWriter.on_dev p).
Proof. intros s Hs. unfold JournalWriter.on_dev. by destruct (p (snd s)). Qed.
Lemma keeps_log_lift n {A} (r : res A) : keeps_log n (dev_lift r).
Proof. by intros s. Qed.
Lemma keeps_log_modify n f : (∀ w, log_len w = n → log_len (f w) = n) → keeps_log n (JournalWriter.modify f).
Proof. intros Hf s. apply Hf. Qed.
Lemma keeps_log_the_writer n {A} (k : JournalWriter.t → dev_m (JournalWriter.t * D) A) :
  (∀ w, log_len w = n → keeps_log n (k w)) → keeps_log n (JournalWriter.the_writer ≫= k).
Proof. intros Hk s Hs. by apply (Hk (fst s)). Qed.
Lemma keeps_log_if n {A} (b : bool) (p q : dev_m (JournalWriter.t * D) A) :
  keeps_log n p → keeps_log n q → keeps_log n (if b then p else q).
Proof. by destruct b. Qed.
Lemma keeps_log_decide n {A} (P : Prop) `{Decision P} (p q : dev_m (JournalWriter.t * D) A) :
  keeps_log n p → keeps_log n q → keeps_log n (if decide P then p else q).
Proof. by case_decide. Qed.

Lemma commit_keeps_log n tx : keeps_log n (JournalWriter.commit (D:=D) tx).
Proof.
  unfold JournalWriter.commit, JournalWriter.commit_inner.
  repeat first
    [ apply keeps_log_the_writer; intros ? ? | apply keeps_log_if | apply keeps_log_decide | apply keeps_log_on_dev
    | apply keeps_log_lift | by intros s | by apply keeps_log_modify; intros; cbn | apply keeps_log_bind; [|intros] ].
Qed.
End writer_log.

(** ** A long write cuts its data once *)

Section steady.
Context `{Crc32c} {D : Type} `{BlockDevice D}.

(** What the size of a chunk is computed from has not changed. *)
Definition steady (m m' : Mount.t D) : Prop :=
  Mount.fs m' = Mount.fs m ∧
  (JournalWriter.max_blocks_per_transaction <$> Mount.journal m') = (JournalWriter.max_blocks_per_transaction <$> Mount.journal m).
Definition keeps {A} (p : dev_m (Mount.t D) A) : Prop := ∀ m, steady m (snd (p m)).

#[global] Instance steady_preorder : PreOrder steady.
Proof. split; [by intros m|]. intros m1 m2 m3 [E1 F1] [E2 F2]. split; congruence. Qed.

Lemma steady_chunk m m' : steady m m' → Operations.pwrite_chunk_blocks m' = Operations.pwrite_chunk_blocks m.
Proof.
  intros [Ef Ej]. unfold Operations.pwrite_chunk_blocks. rewrite Ef.
  destruct (Mount.journal m), (Mount.journal m'); try done. cbn in Ej. by injection Ej as ->.
Qed.

Lemma keeps_bind {A B} (p : dev_m (Mount.t D) A) (f : A → dev_m (Mount.t D) B) : keeps p → (∀ a, keeps (f a)) → keeps (p ≫= f).
Proof.
  intros Hp Hf m. specialize (Hp m). unfold mbind, dev_bind. destruct (p m) as [[a|e| |] m']; cbn in *; [|done..].
  etransitivity; [exact Hp|apply Hf].
Qed.
Lemma keeps_pure {A} (p : dev_m (Mount.t D) A) : (∀ m, snd (p m) = m) → keeps p.
Proof. intros Hp m. by rewrite Hp. Qed.
Lemma keeps_if {A} (b : bool) (p q : dev_m (Mount.t D) A) : keeps p → keeps q → keeps (if b then p else q).
Proof. by destruct b. Qed.
Lemma keeps_decide {A} (P : Prop) `{Decision P} (p q : dev_m (Mount.t D) A) : keeps p → keeps q → keeps (if decide P then p else q).
Proof. by case_decide. Qed.
Lemma keeps_on_device {A} (p : dev_m D A) : keeps (Mount.on_device p).
Proof. intros m. unfold Mount.on_device. by destruct (p (Mount.dev m)). Qed.

Lemma refuse_write_keeps : keeps (Mount.refuse_write (D:=D)).
Proof.
  unfold Mount.refuse_write, Mount.mark_not_clean_once, Mount.write_superblock_state.
  repeat first [apply keeps_bind; [|intros] | apply keeps_if | apply keeps_on_device | by apply keeps_pure | by intros m].
Qed.

Lemma commit_keeps buf : keeps (Mount.commit_block_buffer (D:=D) buf).
Proof.
  unfold Mount.commit_block_buffer. apply keeps_decide; [by apply keeps_pure|]. intros m. rewrite ask_run.
  destruct (Mount.journal m) as [w|] eqn:Ej.
  - unfold Mount.commit_journaled. unfold mbind, dev_bind. destruct (Mount.add_writes _ _) as [tx|e| |]; try done.
    pose proof (commit_keeps_log (D:=D) (JournalSuperblock.max_len (JournalWriter.jsb w)) tx (w, Mount.dev m) eq_refl) as Hl.
    assert (∀ r w' d', JournalWriter.commit tx (w, Mount.dev m) = (r, (w', d')) →
      steady m (Mount.set_journal (Mount.set_dev m d') (Some w'))) as Hk.
    { intros r w' d' E. rewrite E in Hl. cbn in Hl. split; [done|]. cbn [Mount.journal Mount.set_journal]. rewrite Ej. cbn.
      unfold JournalWriter.max_blocks_per_transaction. by rewrite Hl. }
    destruct (JournalWriter.commit tx (w, Mount.dev m)) as [[u|e| |] [w' d']]; by eapply Hk.
  - assert (keeps (f ← Mount.ask Mount.fs; descriptors ← dev_lift (Mount.flag_blocks (Filesystem.sb f) (uninit_cleared buf));
      _ ← Mount.or_retire (Mount.on_device (Mount.write_direct (Filesystem.block_size f) (dirty buf) descriptors));
      Mount.update (λ m, Mount.set_alloc m (publish (Mount.alloc m) (uninit_cleared buf))))) as Hk; [|by apply (Hk m)].
    repeat first [apply keeps_bind; [|intros] | by apply keeps_pure | by intros m'].
    intros m1. unfold Mount.or_retire. pose proof (keeps_on_device (Mount.write_direct (Filesystem.block_size a) (dirty buf) a0) m1) as Hd.
    by destruct (Mount.on_device _ m1) as [[]].
Qed.

Lemma transact_keeps {A} (p : Filesystem.t → reader → tx A) : keeps (Operations.transact (D:=D) p).
Proof.
  intros m. unfold Operations.transact. destruct (p _ _ _) as [[a|e| |] s]; try done.
  transitivity (Mount.set_alloc m (space s)); [done|].
  apply (keeps_bind (Mount.commit_block_buffer (buffer s)) (λ _, mret a)); [apply commit_keeps|]. intros _. by apply keeps_pure.
Qed.

(** Two programs that agree wherever the first part leads. *)
Lemma bind_agree {A B} (p : dev_m (Mount.t D) A) (f g : A → dev_m (Mount.t D) B) m : keeps p →
  (∀ a m', steady m m' → f a m' = g a m') → (p ≫= f) m = (p ≫= g) m.
Proof.
  intros Hp Hfg. specialize (Hp m). unfold mbind, dev_bind. destruct (p m) as [[a|e| |] m']; [|done..]. by apply Hfg.
Qed.
End steady.

Section unroll.
Context `{Crc32c} {D : Type} `{BlockDevice D} (now : Z).

(** The bytes of a chunk. *)
Definition max_chunk (m : Mount.t D) (n : Z) : Z := as_u64 (n * Filesystem.block_size (Mount.fs m)).


Lemma chunk_blocks_range (m : Mount.t D) :
  1024 ≤ Filesystem.block_size (Mount.fs m) ≤ 65536 → 0 ≤ Superblock.desc_size (Filesystem.sb (Mount.fs m)) →
  ∃ n, Operations.pwrite_chunk_blocks m = Ok n ∧ 1 ≤ n ∧ max_chunk m n = n * Filesystem.block_size (Mount.fs m).
Proof.
  intros Hbs Hd. set (bs := Filesystem.block_size (Mount.fs m)) in *.
  set (mb := Z.max (Operations.PWRITE_CHUNK_MAX_BYTES / bs) 1).
  assert (Hmb : 1 ≤ mb ≤ 2 ^ 25).
  { unfold mb. assert (Operations.PWRITE_CHUNK_MAX_BYTES / bs ≤ Operations.PWRITE_CHUNK_MAX_BYTES) by (apply Z.div_le_upper_bound; unfold Operations.PWRITE_CHUNK_MAX_BYTES; nia).
    unfold Operations.PWRITE_CHUNK_MAX_BYTES in *. lia. }
  assert (Hall : ∀ n, 1 ≤ n ≤ mb → max_chunk m n = n * bs).
  { intros n Hn. unfold max_chunk. fold bs. apply Z.mod_small. nia. }
  unfold Operations.pwrite_chunk_blocks. cbv zeta. fold bs. fold mb.
  destruct (Mount.journal m) as [w|]; [|exists mb; split; [done|]; split; [lia|apply Hall; lia]].
  match goal with |- context [Operations.bisect _ ?f] => set (fits := f) end.
  destruct (fits mb) eqn:Em; [exists mb; split; [done|]; split; [lia|apply Hall; lia]|].
  destruct (bisect_spec fits (Z.to_nat mb) 1 mb) as (n & -> & Hnr & _); [lia|by right|done|].
  exists n. split; [done|]. split; [lia|apply Hall; lia].
Qed.

(** *** The write without recursion

    What every write checks first, and what it goes on with: the inode, its
    bytes and the end of the range. *)
Definition pwrite_checked (r : InodeRef.t) (offset : Z) (data : bytes) (k : Inode.t → bytes → Z → dev_m (Mount.t D) Z) : dev_m (Mount.t D) Z :=
  _ ← Mount.refuse_write;
  '(inode, raw) ← Operations.reading_live (λ f d st, live_inode f d st r);
  if negb (Inode.is_file inode) then dev_lift (Err (InvalidArgument "pwrite target is not a regular file")) else
  if negb (Inode.has_extents inode) && negb (Inode.has_inline_data inode)
  then dev_lift (Err (InvalidArgument "pwrite: legacy (non-extents) inodes not supported in v1")) else
  if decide (data = []) then mret (Inode.size inode) else
  stop ← dev_lift (ok_or (checked_add64 offset (zlen data)) (InvalidArgument "pwrite: offset+len overflow"));
  k inode raw stop.

(** One transaction for the whole range. *)
Definition pwrite_once (r : InodeRef.t) (offset : Z) (data : bytes) : dev_m (Mount.t D) Z :=
  pwrite_checked r offset data (λ inode raw stop, Operations.transact (λ f d, pwrite f d now (InodeRef.ino r) inode raw offset stop data)).

(** The data in pieces of [c] bytes, the last one shorter, each with its
    distance from the start. *)
Definition pieces (c : Z) (data : bytes) : list (Z * bytes) :=
  (λ i, (i * c, sub data (i * c) (Z.min c (zlen data - i * c)))) <$> seqZ 0 (div_ceil (zlen data) c).

(** The write: one transaction when the range is at most a chunk of [n]
    blocks, and one for each piece when it is longer. *)
Definition pwrite_cut (n : Z) (r : InodeRef.t) (offset : Z) (data : bytes) : dev_m (Mount.t D) Z :=
  pwrite_checked r offset data (λ inode raw stop, λ m,
    (if decide (max_chunk m n < zlen data) then
       _ ← each (λ '(at_, piece), _ ← pwrite_once r (offset + at_) piece; mret ()) (pieces (max_chunk m n) data);
       '(inode, _) ← Mount.reading (λ f d, read_inode_verified f d (InodeRef.ino r));
       mret (Inode.size inode)
     else Operations.transact (λ f d, pwrite f d now (InodeRef.ino r) inode raw offset stop data)) m).

Lemma pieces_prefix c (data : bytes) k : 0 < c → (Z.of_nat k - 1) * c < zlen data →
  concat (snd <$> ((λ i, (i * c, sub data (i * c) (Z.min c (zlen data - i * c)))) <$> seqZ 0 (Z.of_nat k))) =
  sub data 0 (Z.min (Z.of_nat k * c) (zlen data)).
Proof.
  intros Hc. induction k as [|k IH]; intros Hk; [by rewrite Z.min_l by (pose proof (zlen_nonneg data); lia)|].
  rewrite Nat2Z.inj_succ, <-Z.add_1_r, seqZ_app, !fmap_app, concat_app, IH by nia.
  change (seqZ _ 1) with [0 + Z.of_nat k]. cbn [fmap list_fmap concat snd]. rewrite app_nil_r, Z.add_0_l.
  rewrite Z.min_l by nia. replace (Z.min ((Z.of_nat k + 1) * c) (zlen data)) with (Z.of_nat k * c + Z.min c (zlen data - Z.of_nat k * c)) by nia.
  rewrite (sub_split data 0) by nia. by rewrite Z.add_0_l.
Qed.

Lemma pieces_spec c (data : bytes) : 0 < c → concat (snd <$> pieces c data) = data ∧ Forall (λ p, 0 < zlen p.2 ≤ c) (pieces c data).
Proof.
  intros Hc. pose proof (zlen_nonneg data) as Hz. pose proof (div_ceil_nonneg (zlen data) c Hz Hc) as Hn.
  pose proof (div_ceil_covers (zlen data) c Hc) as Hcov.
  assert (Hlast : (div_ceil (zlen data) c - 1) * c < zlen data).
  { unfold div_ceil. pose proof (Z.mul_div_le (zlen data + c - 1) c Hc). lia. }
  split.
  - unfold pieces. rewrite <-(Z2Nat.id (div_ceil (zlen data) c)) by done. rewrite pieces_prefix, Z2Nat.id by (rewrite ?Z2Nat.id by done; done).
    rewrite Z.min_r by lia. by apply sub_all.
  - unfold pieces. rewrite Forall_fmap. apply Forall_forall. intros i Hi. apply elem_of_seqZ in Hi. cbn.
    rewrite zlen_sub by nia. nia.
Qed.

(** A write of a chunk does not cut it again. *)
Lemma pwrite_one_chunk fuel r offset data (m : Mount.t D) n : Operations.pwrite_chunk_blocks m = Ok n → zlen data ≤ max_chunk m n →
  Operations.pwrite_ino now fuel r offset data m = pwrite_once r offset data m.
Proof.
  intros Hn Hd.
  assert (Hst : ∀ m', steady m m' → Operations.pwrite_chunk_blocks m' = Ok n ∧ max_chunk m' n = max_chunk m n).
  { intros m' S. rewrite (steady_chunk _ _ S). split; [done|]. destruct S as [E _]. unfold max_chunk. by rewrite E. }
  unfold pwrite_once, pwrite_checked. destruct fuel as [|fuel]; cbn [Operations.pwrite_ino].
  all: apply bind_agree; [apply refuse_write_keeps|]; intros _ m1 S1.
  all: apply bind_agree; [by apply keeps_pure|]; intros [inode raw] m2 S2.
  all: destruct (negb (Inode.is_file inode)); [done|]; destruct (_ && _); [done|]; case_decide; [done|].
  all: rewrite !ask_run; cbv zeta; apply bind_agree; [by apply keeps_pure|]; intros stop m3 S3; rewrite !ask_run; cbn [id].
  all: destruct (Hst m3) as [E1 E2]; [destruct S1, S2, S3; split; congruence|]; rewrite E1, !lift_run.
  all: assert (Filesystem.block_size (Mount.fs m2) = Filesystem.block_size (Mount.fs m3)) as -> by (destruct S3 as [-> _]; done).
  all: fold (max_chunk m3 n); by rewrite !decide_False by lia.
Qed.

Lemma pwrite_keeps r offset data : keeps (pwrite_once r offset data).
Proof.
  unfold pwrite_once, pwrite_checked.
  repeat first [ apply refuse_write_keeps | apply transact_keeps | apply keeps_bind; [|intros] | apply keeps_decide
    | apply keeps_if | by apply keeps_pure | by intros m | case_match ].
Qed.

Lemma each_agree {S A B} (R : S → Prop) (h : A → B) (f : A → dev_m S unit) (g : B → dev_m S unit) l : ∀ s, R s →
  (∀ x s, x ∈ l → R s → f x s = g (h x) s) → (∀ x s, x ∈ l → R s → R (snd (g (h x) s))) → each f l s = each g (h <$> l) s.
Proof.
  induction l as [|x l IH]; intros s Hs Hfg Hg; [done|]. cbn [each fmap list_fmap]. unfold mbind at 1 2, dev_bind at 1 2.
  rewrite Hfg by set_solver. specialize (Hg x s ltac:(set_solver) Hs) as Hx. destruct (g (h x) s) as [[u|e| |] s']; try done.
  apply IH; [done|intros; apply Hfg; [set_solver|done]|intros; apply Hg; [set_solver|done]].
Qed.

(** C15: the recursion of a write at an offset ends after one level, however
    long its data.  With any fuel but none, the write that calls itself on each
    chunk is the write without recursion, which takes no fuel: a single
    transaction for at most a chunk, and for longer data one transaction for
    each piece, in order.  The pieces put together are the data, none empty and
    none longer than a chunk. *)
Theorem pwrite_recursion_ends fuel r offset data (m : Mount.t D) :
  1024 ≤ Filesystem.block_size (Mount.fs m) ≤ 65536 → 0 ≤ Superblock.desc_size (Filesystem.sb (Mount.fs m)) →
  ∃ n, Operations.pwrite_chunk_blocks m = Ok n ∧ max_chunk m n = n * Filesystem.block_size (Mount.fs m) ∧
    Operations.pwrite_ino now (S fuel) r offset data m = pwrite_cut n r offset data m ∧
    concat (snd <$> pieces (max_chunk m n) data) = data ∧ Forall (λ p, 0 < zlen p.2 ≤ max_chunk m n) (pieces (max_chunk m n) data).
Proof.
  intros Hbs Hd. destruct (chunk_blocks_range m Hbs Hd) as (n & En & Hn & Hc).
  assert (Hpos : 0 < max_chunk m n) by (rewrite Hc; nia).
  exists n. split; [done|]. split; [done|]. split; [|by apply pieces_spec].
  unfold pwrite_cut, pwrite_checked. cbn [Operations.pwrite_ino].
  apply bind_agree; [apply refuse_write_keeps|]. intros _ m1 S1.
  apply bind_agree; [by apply keeps_pure|]. intros [inode raw] m2 S2.
  destruct (negb (Inode.is_file inode)); [done|]. destruct (_ && _); [done|]. case_decide; [done|].
  rewrite !ask_run. cbv zeta. apply bind_agree; [by apply keeps_pure|]. intros stop m3 S3. rewrite !ask_run. cbn [id].
  assert (S : steady m m3) by (destruct S1, S2, S3; split; congruence).
  rewrite (steady_chunk _ _ S), En, !lift_run.
  assert (Filesystem.block_size (Mount.fs m2) = Filesystem.block_size (Mount.fs m3)) as -> by (destruct S3 as [-> _]; done).
  fold (max_chunk m3 n). assert (max_chunk m3 n = max_chunk m n) as -> by (destruct S as [E _]; unfold max_chunk; by rewrite E).
  case_decide as Hlt; [|done]. set (c := max_chunk m n) in *.
  assert (Hlast : (div_ceil (zlen data) c - 1) * c < zlen data).
  { unfold div_ceil. pose proof (Z.mul_div_le (zlen data + c - 1) c Hpos). lia. }
  assert (Hin : ∀ i, i ∈ seqZ 0 (div_ceil (zlen data) c) → 0 ≤ i * c < zlen data).
  { intros i Hi. apply elem_of_seqZ in Hi. nia. }
  unfold mbind at 1 3, dev_bind at 1 3. unfold pieces.
  rewrite (each_agree (steady m3) (λ i, (i * c, sub data (i * c) (Z.min c (zlen data - i * c)))) _
             (λ '(at_, piece), _ ← pwrite_once r (offset + at_) piece; mret ())); [done|done| |].
  - intros i s Hi Ss. specialize (Hin i Hi). rewrite slice_ok by lia.
    unfold mbind, dev_bind, dev_lift.
    rewrite (pwrite_one_chunk fuel r _ _ s n); [done|rewrite (steady_chunk _ _ Ss), (steady_chunk _ _ S); exact En|].
    destruct Ss as [E _], S as [E' _]. unfold max_chunk. rewrite E, E'. fold (max_chunk m n). fold c. rewrite zlen_sub by lia. lia.
  - intros i s Hi Ss. etransitivity; [exact Ss|]. apply keeps_bind; [apply pwrite_keeps|]. intros _. by apply keeps_pure.
Qed.
End unroll.

(** ** Witnesses *)

(** A program that takes three blocks and an inode off the counts of the
    superblock and writes block 30. *)
Definition sample_program (f : Filesystem.t) (d : reader) : tx unit :=
  _ ← @Stage.patch_sb_counters castagnoli f d (-3) (-1); put_staged 30 (zrep 1024 9).

Definition sample_crash_state (f : Filesystem.t) : Mount.t Disk.t :=
  Mount.mk (Disk.start sample_crash_volume) f (mkAlloc ∅ None) (Some sample_writer) true 1 false false false.

#[local] Opaque sample_crash_volume.

Lemma sample_writer_ready : writer_ready sample_writer sample_crash_volume 19.
Proof.
  destruct sample_commit_ready as [[S1 S2 S3 S4 S5 S6 S7 S8 S9 S10 S11 S12 [T1 T2 T3 T4 T5 _ T7] S14 _] _]. split.
  - split; try assumption; [|apply Forall_nil_2]. split; try assumption. apply Forall_nil_2.
  - intros k p h Hp. do 5 (destruct k as [|k]; [injection Hp as <-; intros E; vm_compute in E; discriminate E|]). discriminate Hp.
Qed.

Lemma sample_program_stages sb gs s :
  Superblock.parse (sub sample_crash_volume 1024 1024) = Ok sb →
  @Bgd.read_all castagnoli (image_reader sample_crash_volume) sb (mkChecksummer 0 false) = Ok gs →
  sample_program (sample_mount sb gs) (image_reader sample_crash_volume) (begin (mkAlloc ∅ None)) = (Ok (), s) →
  stages_blocks sample_writer (buffer s) ∧ dirty (buffer s) ≠ ∅ ∧ @log_size castagnoli sample_writer (buffer s) = 4.
Proof.
  intros Es Eg Ep. vm_compute in Es. injection Es as <-. vm_compute in Eg. injection Eg as <-.
  vm_compute in Ep. injection Ep as <-. split; [|split; [intros E; vm_compute in E; discriminate E|vm_compute; reflexivity]].
  intros b x Hb. apply elem_of_map_to_list in Hb. revert Hb.
  match goal with |- ?P ∈ map_to_list ?m → _ => let l := eval vm_compute in (map_to_list m) in assert (El : map_to_list m = l) by (vm_compute; reflexivity); rewrite El; clear El end.
  intros Hb. apply elem_of_cons in Hb as [[= -> ->]|Hb]; [by_compute|].
  apply elem_of_cons in Hb as [[= -> ->]|Hb]; [by_compute|]. by apply not_elem_of_nil in Hb.
Qed.

(** The same mount under any transaction that leaves block 10 alone. *)
Lemma sample_buffer_mount sb gs s :
  Superblock.parse (sub sample_crash_volume 1024 1024) = Ok sb →
  @Bgd.read_all castagnoli (image_reader sample_crash_volume) sb (mkChecksummer 0 false) = Ok gs →
  dom (dirty (buffer s)) = {[1; 30]} →
  @mount_ready castagnoli sample_writer (buffer_tx sample_writer (buffer s)) sample_crash_volume (sample_mount sb gs).
Proof.
  intros Es Eg Hdom. pose proof (sample_mount_ready sb gs Es Eg) as [M1 M2 M3 M4 _].
  vm_compute in Es. injection Es as <-. vm_compute in Eg. injection Eg as <-.
  split; [done..|]. intros c [[Hz _] Hv].
  assert (H10 : Disk.blk 1024 c 10 = Disk.blk 1024 sample_crash_volume 10).
  { destruct (Hv 10) as [E|(jb & Hjb & Hk & _)]; [lia|by_compute|exact E|]. exfalso.
    apply list_elem_of_fmap in Hjb as ([b x] & -> & Hin). apply in_order_elem, elem_of_dom_2 in Hin.
    cbn in Hk. subst. rewrite Hdom in Hin. set_solver. }
  match goal with |- context [read_jinode ?f _] => assert (Ej := λ E1 E2, sample_jinode f c _ E1 Hz E2 H10) end.
  rewrite Ej by (vm_compute; reflexivity). clear Ej.
  destruct (read_jinode _ (image_reader sample_crash_volume)) as [ji| | |] eqn:Ei; vm_compute in Ei; [|discriminate..].
  injection Ei as <-. eexists. split; [reflexivity|]. intros k p Hp.
  do 6 (destruct k as [|k]; [injection Hp as <-; reflexivity|]). discriminate Hp.
Qed.

Lemma operation_crash_atomic_witness : ∃ f m',
  @Operations.transact castagnoli _ _ _ sample_program (sample_crash_state f) = (Ok (), m') ∧
  ∃ s, ∀ c, @left_behind castagnoli sample_writer (buffer_tx sample_writer (buffer s)) sample_crash_volume (Disk.events (Mount.dev m')) c →
    ∃ n d, @replay_if_dirty castagnoli _ _ f (Disk.start c) = (Ok n, d) ∧
      (@holds castagnoli sample_writer sample_crash_volume (Disk.blk 1024 sample_crash_volume) (Disk.contents d) ∨
       @holds castagnoli sample_writer sample_crash_volume (staged_over 1024 sample_crash_volume (buffer s)) (Disk.contents d)).
Proof.
  destruct sample_mounts as (sb & gs & Es & Eg). set (f := sample_mount sb gs).
  destruct (sample_program f (image_reader sample_crash_volume) (begin (mkAlloc ∅ None))) as [r s] eqn:Ep.
  assert (Hr : r = Ok () ∧ dom (dirty (buffer s)) = {[1; 30]}).
  { clear - Es Eg Ep. unfold f in Ep. vm_compute in Es. injection Es as <-. vm_compute in Eg. injection Eg as <-.
    vm_compute in Ep. injection Ep as <- <-. split; [reflexivity|]. vm_compute. reflexivity. }
  destruct Hr as [-> Hdom].
  assert (Hd : Mount.dev (sample_crash_state f) = Disk.start sample_crash_volume) by reflexivity.
  assert (Hj : Mount.journal (sample_crash_state f) = Some sample_writer) by reflexivity.
  pose proof (@operation_crash_atomic castagnoli unit sample_program (sample_crash_state f) sample_writer sample_crash_volume 19
    Hd Hj) as T. cbn [Mount.fs Mount.dev Mount.alloc sample_crash_state snapshot] in T.
  change (snapshot (Disk.start sample_crash_volume)) with (image_reader sample_crash_volume) in T.
  destruct (sample_program_stages sb gs s Es Eg Ep) as (Hs & Hne & Hsize).
  rewrite Ep, decide_False, decide_False in T; [|rewrite Hsize; by_compute|exact Hne]. destruct T as (m' & E & _ & _ & Hc).
  - exact sample_writer_ready.
  - intros a s' [= _ <-]. exact Hs.
  - exists f, m'. split; [exact E|]. exists s. intros c Hl.
    destruct (Hc c f Hl (sample_buffer_mount sb gs s Es Eg Hdom)) as (n & d & Er & _ & Ho).
    exists n, d. split; [exact Er|exact Ho].
Defined.

(** A journal of a thousand and twenty-four blocks. *)
Definition sample_large_writer : JournalWriter.t :=
  JournalWriter.mk true false [] 1024 (decode_jsb (splice sample_jsb_block 16 (be_split 4 1024))) 50.

Lemma pwrite_chunk_blocks_spec_witness : ∃ f, sample_fs = Ok f ∧
  let m := sample_state f (zrep 2048 0) in
  @Operations.pwrite_chunk_blocks Disk.t m = Ok 32768 ∧
  ∃ n, @Operations.pwrite_chunk_blocks Disk.t (Mount.set_journal m (Some sample_large_writer)) = Ok n ∧
    Operations.chunk_fits 1024 0 (Superblock.desc_size (Filesystem.sb f)) 1023 n = true ∧
    Operations.chunk_fits 1024 0 (Superblock.desc_size (Filesystem.sb f)) 1023 (n + 1) = false ∧ 900 < n.
Proof.
  destruct sample_fs as [f| | |] eqn:Ef; try (vm_compute in Ef; discriminate Ef). exists f. split; [reflexivity|]. intros m.
  assert (Hf : Filesystem.block_size f = 1024 ∧ 0 ≤ Superblock.desc_size (Filesystem.sb f)).
  { vm_compute in Ef. injection Ef as <-. split; vm_compute; [reflexivity|discriminate]. }
  destruct Hf as [Hb Hd]. split.
  - destruct (@pwrite_chunk_blocks_spec castagnoli Disk.t m) as (n & E & _ & Hn).
    + cbn [Mount.fs m sample_state]. lia.
    + exact Hd.
    + rewrite E. f_equal. cbn [Mount.journal m sample_state] in Hn. rewrite Hn. unfold memory_bound.
      cbn [Mount.fs m sample_state]. rewrite Hb. reflexivity.
  - destruct (@pwrite_chunk_blocks_spec castagnoli Disk.t (Mount.set_journal m (Some sample_large_writer))) as (n & E & Hr & Hn).
    + cbn [Mount.fs m sample_state Mount.set_journal]. lia.
    + exact Hd.
    + exists n. split; [exact E|]. cbn [Mount.journal Mount.set_journal] in Hn. destruct Hn as (Hfit & Hmax & _).
      assert (En : n = 971).
      { clear - E Ef. vm_compute in Ef. injection Ef as <-. vm_compute in E. injection E as <-. reflexivity. }
      subst n. specialize (Hmax 972). destruct Hfit as [Hfit|Hfit]; [|discriminate Hfit].
      clear - Hfit Hmax Ef. vm_compute in Ef. injection Ef as <-. split; [exact Hfit|]. split; [|lia].
      vm_compute. reflexivity.
Defined.

Lemma pwrite_recursion_ends_witness : ∃ f, sample_fs = Ok f ∧ ∀ fuel r data,
  ∃ n, @Operations.pwrite_ino castagnoli Disk.t _ 5 (S fuel) r 0 data (sample_state f (zrep 2048 0)) =
       @pwrite_cut castagnoli Disk.t _ 5 n r 0 data (sample_state f (zrep 2048 0)).
Proof.
  destruct sample_fs as [f| | |] eqn:Ef; try (vm_compute in Ef; discriminate Ef). exists f. split; [reflexivity|]. intros fuel r data.
  destruct (@pwrite_recursion_ends castagnoli Disk.t _ 5 fuel r 0 data (sample_state f (zrep 2048 0))) as (n & _ & _ & E & _).
  - cbn [Mount.fs sample_state]. clear fuel r data. vm_compute in Ef. injection Ef as <-. vm_compute. split; discriminate.
  - cbn [Mount.fs sample_state]. clear fuel r data. vm_compute in Ef. injection Ef as <-. vm_compute. discriminate.
  - exists n. exact E.
Defined.
