(* ===== verification/DirRefine.v ===== *)
(** DirRefine: a directory inside a transaction as the list of its entries: the
    blocks a linear directory maps, read through the staged buffer, and what
    finding, adding and removing a name in DirEdit do to the listing. *)
From S2P Require Import Prelude Errors Bytes Device Features Superblock Checksum Bgd Inode Indirect Dir Xattr Path Alloc Filesystem BlockBuffer FreeCounts FsRead Stage DirEdit.

Lemma tx_lift {S A B} (a : A) (k : A → dev_m S B) s : (dev_lift (Ok a) ≫= k) s = k a s.
Proof. done. Qed.
Lemma tx_bind {S A B} (p : dev_m S A) (k : A → dev_m S B) s a s' : p s = (Ok a, s') → (p ≫= k) s = k a s'.
Proof. intros E. unfold mbind, dev_bind. by rewrite E. Qed.

Section linear.
Context `{Crc32c} (fs : Filesystem.t) (dev : reader) (ino : Z) (dir : Inode.t).
Local Abbreviation csum := (Filesystem.csum fs).
Local Abbreviation hft := (has_bits (Superblock.feature_incompat (Filesystem.sb fs)) Incompat.FILETYPE).
Local Abbreviation view := (view fs dev).

(** ** A directory block and its tail *)

(** A block as its records and its tail. *)
Abbreviation contents := (list bytes * bytes)%type.
Definition image (c : contents) : bytes := concat c.1 ++ c.2.

(** On a volume with checksums a block ends with the twelve bytes of one; on
    any other its records fill it. *)
Definition block_wf (c : contents) : Prop :=
  dir_block hft c.1 c.2 ∧ zlen c.2 = if enabled csum then 12 else 0.

(** The tail verifies. *)
Definition sealed (block : bytes) : Prop :=
  verify_dir_entry_tail csum ino (Inode.generation dir) block = Ok true.

Lemma reserved_tail_wf c : block_wf c → reserved_tail_of fs (image c) = zlen c.2.
Proof using Type.
  destruct c as [cs rest]. intros [(_ & Ht & _) Hz]. cbn [fst snd] in *. unfold reserved_tail_of.
  destruct (enabled csum); [|by rewrite Hz]. cbn [andb].
  destruct Ht as [|(_ & H0 & H4 & H6 & H7)]; [lia|].
  assert (has_csum_tail (image (cs, rest)) = true) as ->; [|by rewrite Hz].
  unfold has_csum_tail, image. cbn [fst snd]. rewrite zlen_app, Hz. pose proof (zlen_nonneg (concat cs)).
  rewrite decide_False by lia. cbv zeta. set (p := concat cs) in *. replace (zlen p + 12 - 12) with (zlen p + 0) by lia.
  assert (Hs : ∀ k n, 0 ≤ k → 0 ≤ n → sub (p ++ rest) (zlen p + k) n = sub rest k n).
  { intros k n Hk Hn. rewrite sub_app_r by lia. f_equal. lia. }
  assert (Hb : ∀ k, 0 ≤ k → byte_at (p ++ rest) (zlen p + k) = byte_at rest k).
  { intros k Hk. unfold byte_at. f_equal. rewrite lookup_app_r by (unfold zlen; lia). f_equal. unfold zlen. lia. }
  rewrite <-!Z.add_assoc, !Hb by lia. unfold le16, le32 in *. rewrite !Hs by lia. change (0 + 4) with 4. change (0 + 6) with 6. change (0 + 7) with 7.
  by rewrite H0, H4, H6, H7.
Qed.

Lemma put_end {A} (p r : list A) k s : 0 ≤ k → k + zlen s ≤ zlen r → put (p ++ r) (zlen p + k) s = Ok (p ++ splice r k s).
Proof using Type. intros Hk Hs. rewrite <-(app_nil_r r) at 1. rewrite put_mid by lia. by rewrite app_nil_r. Qed.

(** Stamping a block rewrites its tail alone, and it verifies. *)
Lemma stamp_wf cs rest : block_wf (cs, rest) →
  ∃ rest', stamp_dir_block fs ino dir (zlen rest) (concat cs ++ rest) = Ok (concat cs ++ rest') ∧
    block_wf (cs, rest') ∧ sealed (concat cs ++ rest').
Proof using Type.
  intros [(Hc & Ht & Hb) Hz]. cbn [fst snd] in *. unfold stamp_dir_block.
  destruct (enabled csum) eqn:He; cbn [andb].
  2:{ exists rest. split; [done|]. split; [split; [done|by rewrite He]|]. unfold sealed, verify_dir_entry_tail. by rewrite He. }
  rewrite bool_decide_true by done. unfold patch_dir_entry_tail. rewrite zlen_app, Hz. pose proof (zlen_nonneg (concat cs)).
  rewrite decide_False by (rewrite He; intros [|]; [done|lia]). cbv zeta.
  set (p := concat cs) in *. set (v := linux_crc32c (ino_gen csum ino (Inode.generation dir)) p).
  do 12 (destruct rest as [|? rest]; [done|]). destruct rest as [|? rest]; [|rewrite !zlen_cons in Hz; pose proof (zlen_nonneg rest); lia].
  unfold put_u32, put_u16.
  replace (zlen p + 12 - 12) with (zlen p + 0) by lia. replace (zlen p + 12 - 8) with (zlen p + 4) by lia.
  replace (zlen p + 12 - 6) with (zlen p + 6) by lia. replace (zlen p + 12 - 5) with (zlen p + 7) by lia.
  replace (zlen p + 12 - 4) with (zlen p + 8) by lia.
  do 4 (rewrite put_end, bind_Ok by (vm_compute; discriminate)).
  set (r := splice (splice _ _ _) _ _). assert (Hr : zlen r = 12) by reflexivity.
  rewrite Z.add_0_r.
  rewrite slice_ok by (rewrite ?zlen_app; lia). rewrite bind_Ok. rewrite sub_app_l, sub_all by lia.
  fold v. rewrite put_end, bind_Ok by (vm_compute; discriminate). cbn beta iota.
  eexists. split; [reflexivity|]. set (rest' := splice r 8 (le_split 4 v)).
  assert (Hv : bytes_ok (le_split 4 v)) by auto with ext4.
  assert (Hr' : rest' = [0; 0; 0; 0; 12; 0; 0; 0xDE] ++ le_split 4 v).
  { unfold rest', r. rewrite <-(take_drop 8 (splice _ _ _)) at 1. reflexivity. }
  assert (Hz' : zlen rest' = 12) by (rewrite Hr', zlen_app, zlen_le_split; done).
  split; [split; [split; [exact Hc|split]|]|].
  - right. split; [cbn [snd]; lia|]. rewrite Hr'. repeat split.
  - rewrite Hr'. apply bytes_ok_app. split; [by_compute|done].
  - cbn [snd]. by rewrite He.
  - unfold sealed, verify_dir_entry_tail. rewrite He. cbn [negb]. rewrite zlen_app, Hz', decide_False by lia. cbv zeta.
    unfold u32_le. replace (zlen p + 12 - 4) with (zlen p + 8) by lia. replace (zlen p + 12 - 12) with (zlen p) by lia.
    assert (Hs : sub (p ++ rest') (zlen p + 8) 4 = le_split 4 v).
    { rewrite sub_app_r by lia. replace (zlen p + 8 - zlen p) with 8 by lia. rewrite Hr', sub_app_r by done.
      change (8 - zlen [_; _; _; _; _; _; _; _]) with 0. apply sub_all. by rewrite zlen_le_split. }
    rewrite (slice_ok _ (zlen p + 8)) by (rewrite ?zlen_app; lia). rewrite Hs, !bind_Ok.
    rewrite (slice_ok _ 0) by (rewrite ?zlen_app; lia). rewrite bind_Ok. rewrite sub_app_l, sub_all by lia. fold v.
    rewrite le_combine_split by apply linux_crc32c_range. by rewrite bool_decide_true.
Qed.

(** ** The listing a transaction has of a directory *)

(** The blocks of the directory, in order, and what the buffer has in them. *)
Definition stages (buf : BlockBuffer) (blocks : list Z) (cs : list contents) : Prop :=
  Forall2 (λ b c, view buf b = Ok (image c) ∧ block_wf c) blocks cs.
Definition entries (cs : list contents) : list DirEntry.t := concat ((λ c, entries_of hft c.1) <$> cs).

(** The directory maps the blocks [slots] names, holes left out, none twice. *)
Record maps_linearly (slots : list (option Z)) : Prop := {
  ml_length : length slots = n_blocks fs dir;
  ml_slots : ∀ i o, slots !! i = Some o → map_inode_logical fs dev dir (Z.of_nat i) = Ok o;
  ml_distinct : NoDup (omap id slots);
  ml_plain : is_indexed dir = false ∧ Inode.has_inline_data dir = false;
}.

(** Only the blocks [bs] of the buffer have changed. *)
Record changes_only (s s' : staged) (bs : list Z) : Prop := {
  co_view b : b ∉ bs → view (buffer s') b = view (buffer s) b;
  co_uninit : uninit_cleared (buffer s') = uninit_cleared (buffer s);
  co_space : space s' = space s;
}.

Lemma changes_refl s bs : changes_only s s bs.
Proof using Type. by split. Qed.
Lemma changes_trans s1 s2 s3 bs : changes_only s1 s2 [] → changes_only s2 s3 bs → changes_only s1 s3 bs.
Proof using Type.
  intros [V1 U1 S1] [V2 U2 S2]. split; [|congruence..]. intros b Hb. rewrite V2 by done. apply V1. apply not_elem_of_nil.
Qed.

Lemma stages_view s s' blocks cs : changes_only s s' [] → stages (buffer s) blocks cs → stages (buffer s') blocks cs.
Proof using Type.
  intros [V _ _] Hs. eapply Forall2_impl; [exact Hs|]. intros b c [Hv Hw]. split; [|done]. rewrite V by apply not_elem_of_nil. done.
Qed.

(** Fetching a block changes nothing that shows. *)
Lemma fetch_spec s b x : view (buffer s) b = Ok x → ∃ s', fetch fs dev b s = (Ok x, s') ∧ changes_only s s' [].
Proof using Type.
  intros Hv. destruct (get_mut_spec fs dev (buffer s) b x Hv) as (buf' & E & Hv' & Hu).
  exists (mkStaged buf' (space s)). unfold fetch, on_buffer. rewrite E. split; [done|]. by split.
Qed.

Lemma put_staged_spec s b x : ∃ s', put_staged b x s = (Ok tt, s') ∧ changes_only s s' [b] ∧ view (buffer s') b = Ok x.
Proof using Type.
  eexists. split; [reflexivity|]. unfold BlockBuffer.view, put_block. cbn [buffer dirty]. split; [split; [|done..]|by rewrite lookup_insert_eq].
  intros b' Hb. unfold BlockBuffer.view, put_block. cbn [buffer dirty]. rewrite lookup_insert_ne; [done|]. set_solver.
Qed.

(** What a change of one block of a listing is. *)
Record edited (s s' : staged) (blocks : list Z) (cs cs' : list contents) (b : Z) : Prop := {
  ed_stages : stages (buffer s') blocks cs';
  ed_frame : changes_only s s' [b];
  ed_block : b ∈ blocks;
  ed_sealed : ∃ x, view (buffer s') b = Ok x ∧ sealed x;
}.

Lemma edited_cons s s' b0 c0 blocks cs cs' b : b0 ∉ blocks →
  view (buffer s) b0 = Ok (image c0) ∧ block_wf c0 →
  edited s s' blocks cs cs' b → edited s s' (b0 :: blocks) (c0 :: cs) (c0 :: cs') b.
Proof using Type.
  intros Hb0 [Hv Hw] [E1 E2 E3 E4]. split; [|done|set_solver|done]. constructor; [|done]. split; [|done].
  rewrite (co_view _ _ _ E2) by set_solver. done.
Qed.

Lemma edited_from s1 s2 s3 blocks cs cs' b : changes_only s1 s2 [] → edited s2 s3 blocks cs cs' b → edited s1 s3 blocks cs cs' b.
Proof using Type. intros H1 [E1 E2 E3 E4]. split; [done|by eapply changes_trans|done|done]. Qed.

Lemma stages_frame s s' b blocks cs : changes_only s s' [b] → b ∉ blocks → stages (buffer s) blocks cs → stages (buffer s') blocks cs.
Proof using Type.
  intros Hc Hb Hs. induction Hs as [|b0 c0 blocks cs [Hv Hw] Hs IH]; constructor; [|apply IH; set_solver].
  split; [|done]. rewrite (co_view _ _ _ Hc) by set_solver. done.
Qed.

(** Stamping and staging new records for the first block. *)
Lemma restage s b rest new blocks cs c0 : block_wf (new, rest) → b ∉ blocks → stages (buffer s) (b :: blocks) (c0 :: cs) →
  ∃ s' rest', (block ← dev_lift (stamp_dir_block fs ino dir (zlen rest) (concat new ++ rest)); put_staged b block) s = (Ok tt, s') ∧
    edited s s' (b :: blocks) (c0 :: cs) ((new, rest') :: cs) b.
Proof using Type.
  intros Hw Hb Hs. inversion_clear Hs as [|? ? ? ? _ Hs']. destruct (stamp_wf new rest Hw) as (rest' & E & Hw' & Hsl).
  rewrite E, tx_lift. destruct (put_staged_spec s b (concat new ++ rest')) as (s' & Ep & Hc & Hv').
  exists s', rest'. split; [exact Ep|]. split; [|done|set_solver|by eexists].
  constructor; [by split|by eapply stages_frame].
Qed.

(** ** Adding *)

Section add.
Context (name : bytes) (target : Z) (ty : DirEntryType).
Context (Ht : 0 < target < 2 ^ 32) (Hb : bytes_ok name) (Hn : 1 ≤ zlen name ≤ 255).

(** No record of the directory has room for the name. *)
Definition full (cs : list contents) : Prop :=
  Forall (λ c, Forall (λ ch, room hft ch < entry_rec_len (zlen name)) c.1) cs.

Definition new_entry : DirEntry.t := DirEntry.mk target name (if hft then ty else Unknown).

Definition added (s : staged) (blocks : list Z) (cs : list contents) (r : res unit * staged) : Prop :=
  match r with
  | (Ok _, s') => ∃ b cs' es1 es2, edited s s' blocks cs cs' b ∧ entries cs = es1 ++ es2 ∧ entries cs' = es1 ++ new_entry :: es2
  | (Err e, s') => e = OutOfBounds ∧ changes_only s s' [] ∧ full cs
  | _ => False
  end.

Lemma add_to_blocks_spec sl : ∀ logical s cs, 0 ≤ logical →
  (∀ i o, sl !! i = Some o → map_inode_logical fs dev dir (logical + Z.of_nat i) = Ok o) →
  NoDup (omap id sl) → stages (buffer s) (omap id sl) cs →
  added s (omap id sl) cs (add_to_blocks fs dev (length sl) ino dir name target ty logical s).
Proof using Ht Hb Hn.
  induction sl as [|o sl IH]; intros logical s cs Hl Hm Hnd Hs.
  { inversion_clear Hs. cbn. split; [done|]. split; [apply changes_refl|constructor]. }
  cbn [length add_to_blocks]. pose proof (Hm 0%nat o eq_refl) as H0. rewrite Z.add_0_r in H0. rewrite H0, tx_lift.
  assert (Hm' : ∀ i o, sl !! i = Some o → map_inode_logical fs dev dir (logical + 1 + Z.of_nat i) = Ok o).
  { intros i o' Hi. rewrite <-(Hm (S i) o' Hi). f_equal. lia. }
  destruct o as [phys|]; [|apply IH; [lia|done..]].
  cbn [omap list_omap id] in *. apply NoDup_cons in Hnd as [Hp Hnd].
  destruct cs as [|c cs]; [by inversion Hs|]. pose proof Hs as Hs0. apply Forall2_cons in Hs as [[Hv Hw] Hs].
  destruct (fetch_spec s phys _ Hv) as (s1 & E1 & C1). rewrite (tx_bind _ _ _ _ _ E1). cbv zeta. rewrite (reserved_tail_wf c Hw).
  destruct c as [chunks rest]. unfold image. cbn [fst snd]. pose proof Hw as [Hd Hz]. cbn [fst snd] in Hd, Hz.
  pose proof (add_entry_result hft chunks rest target name ty Hd Ht Hb Hn) as Hadd.
  pose proof (stages_view _ _ _ _ C1 Hs0) as Hs1.
  destruct (add_entry_to_block _ _ _ _ _ _) as [buf'|e| |]; [|destruct Hadd as [-> Hroom]|done..].
  - destruct Hadd as (new & -> & Hdn & _ & es1 & es2 & En & En').
    destruct (restage s1 phys rest new (omap id sl) cs (chunks, rest)) as (s2 & rest' & E2 & Hed); [by split|done|done|].
    rewrite E2. exists phys, ((new, rest') :: cs), es1, (es2 ++ entries cs).
    split; [by eapply edited_from|]. unfold entries. cbn [fmap list_fmap concat fst]. rewrite En, En', <-!app_assoc. done.
  - specialize (IH (logical + 1) s1 cs ltac:(lia) Hm' Hnd (stages_view _ _ _ _ C1 Hs)).
    destruct (add_to_blocks _ _ _ _ _ _ _ _ _ s1) as [[[]|e| |] s2]; cbn [added] in *; [|..].
    + destruct IH as (b & cs' & es1 & es2 & Hed & En & En').
      exists b, ((chunks, rest) :: cs'), (entries_of hft chunks ++ es1), es2. split.
      * eapply edited_from; [exact C1|]. apply edited_cons; [done| |done]. by apply Forall2_cons in Hs1 as [? _].
      * unfold entries in *. cbn [fmap list_fmap concat fst]. rewrite En, En', <-!app_assoc. done.
    + destruct IH as (-> & C2 & Hf). split; [done|]. split; [by eapply changes_trans|]. by constructor.
    + done.
    + done.
Qed.
End add.

(** ** Removing *)

Definition lacks (name : bytes) (es : list DirEntry.t) : Prop := Forall (λ e, DirEntry.name e ≠ name) es.

Definition removed (name : bytes) (s : staged) (blocks : list Z) (cs : list contents) (r : res unit * staged) : Prop :=
  match r with
  | (Ok _, s') => ∃ b cs' es1 e es2, edited s s' blocks cs cs' b ∧ entries cs = es1 ++ e :: es2 ∧
      DirEntry.name e = name ∧ lacks name es1 ∧ entries cs' = es1 ++ es2
  | (Err e, s') => changes_only s s' [] ∧
      (e = NotFound ∧ lacks name (entries cs) ∨
       e = CorruptDirEntry "merged rec_len overflows u16" ∧ ∃ c, c ∈ cs ∧ u16_max < zlen (image c))
  | _ => False
  end.

Lemma remove_from_blocks_spec name sl : is_indexed dir = false → ∀ logical s cs, 0 ≤ logical →
  (∀ i o, sl !! i = Some o → map_inode_logical fs dev dir (logical + Z.of_nat i) = Ok o) →
  NoDup (omap id sl) → stages (buffer s) (omap id sl) cs →
  removed name s (omap id sl) cs (remove_from_blocks fs dev (length sl) ino dir name logical s).
Proof using Type.
  intros Hidx. induction sl as [|o sl IH]; intros logical s cs Hl Hm Hnd Hs.
  { inversion_clear Hs. cbn. split; [apply changes_refl|left]. split; [done|constructor]. }
  cbn [length remove_from_blocks]. pose proof (Hm 0%nat o eq_refl) as H0. rewrite Z.add_0_r in H0. rewrite H0, tx_lift.
  assert (Hm' : ∀ i o, sl !! i = Some o → map_inode_logical fs dev dir (logical + 1 + Z.of_nat i) = Ok o).
  { intros i o' Hi. rewrite <-(Hm (S i) o' Hi). f_equal. lia. }
  destruct o as [phys|]; [|apply IH; [lia|done..]].
  cbn [omap list_omap id] in *. apply NoDup_cons in Hnd as [Hp Hnd].
  destruct cs as [|c cs]; [by inversion Hs|]. pose proof Hs as Hs0. apply Forall2_cons in Hs as [[Hv Hw] Hs].
  destruct (fetch_spec s phys _ Hv) as (s1 & E1 & C1). rewrite (tx_bind _ _ _ _ _ E1).
  assert (Hrole : is_htree_index_block dir logical (image c) = Ok false).
  { unfold is_htree_index_block, dir_block_role. rewrite Hidx. done. }
  rewrite Hrole, tx_lift. cbv zeta. rewrite (reserved_tail_wf c Hw).
  destruct c as [chunks rest]. unfold image at 1. cbn [fst snd]. pose proof Hw as [Hd Hz]. cbn [fst snd] in Hd, Hz.
  pose proof (remove_entry_result hft chunks rest name Hd) as Hrem. cbv zeta in Hrem.
  pose proof (stages_view _ _ _ _ C1 Hs0) as Hs1.
  destruct (remove_entry_from_block _ _ _ _) as [[buf' []]|e| |]; [rewrite tx_lift|rewrite tx_lift| |done..].
  - destruct Hrem as (new & -> & Hdn & _ & es1 & e & es2 & En & Hname & Hfirst & En').
    destruct (restage s1 phys rest new (omap id sl) cs (chunks, rest)) as (s2 & rest' & E2 & Hed); [by split|done|done|].
    rewrite E2. exists phys, ((new, rest') :: cs), es1, e, (es2 ++ entries cs).
    split; [by eapply edited_from|]. unfold entries. cbn [fmap list_fmap concat fst]. rewrite En, En', <-!app_assoc. done.
  - destruct Hrem as [_ Hno]. specialize (IH (logical + 1) s1 cs ltac:(lia) Hm' Hnd (stages_view _ _ _ _ C1 Hs)).
    destruct (remove_from_blocks _ _ _ _ _ _ _ s1) as [[[]|e| |] s2]; cbn [removed] in *; [|..].
    + destruct IH as (b & cs' & es1 & e & es2 & Hed & En & Hname & Hfirst & En').
      exists b, ((chunks, rest) :: cs'), (entries_of hft chunks ++ es1), e, es2. split; [|split; [|split; [done|split]]].
      * eapply edited_from; [exact C1|]. apply edited_cons; [done| |done]. by apply Forall2_cons in Hs1 as [? _].
      * unfold entries in *. cbn [fmap list_fmap concat fst]. rewrite En, <-!app_assoc. done.
      * apply Forall_app. by split.
      * unfold entries in *. cbn [fmap list_fmap concat fst]. rewrite En', <-!app_assoc. done.
    + destruct IH as [C2 Hcase]. split; [by eapply changes_trans|]. destruct Hcase as [[-> Hl']|(-> & c & Hc & Hbig)]; [left|right].
      * split; [done|]. unfold entries, lacks. cbn [fmap list_fmap concat fst]. apply Forall_app. by split.
      * split; [done|]. exists c. split; [set_solver|done].
    + done.
    + done.
  - destruct Hrem as [-> Hbig]. cbn. split; [done|]. right. split; [done|]. exists (chunks, rest). split; [set_solver|exact Hbig].
Qed.

(** ** Finding *)

(** The entry a search of the whole directory ends at. *)
Lemma find_in_blocks_spec name sl : is_indexed dir = false → ∀ logical cs, 0 ≤ logical →
  (∀ i o, sl !! i = Some o → map_inode_logical fs dev dir (logical + Z.of_nat i) = Ok o) →
  Forall2 (λ b c, Filesystem.read_block fs dev b = Ok (image c) ∧ block_wf c ∧ sealed (image c)) (omap id sl) cs →
  find_in_blocks fs dev (length sl) ino dir name logical = ok_or (by_name name (entries cs)) NotFound.
Proof using Type.
  intros Hidx. induction sl as [|o sl IH]; intros logical cs Hl Hm Hs.
  { by inversion_clear Hs. }
  cbn [length find_in_blocks]. pose proof (Hm 0%nat o eq_refl) as H0. rewrite Z.add_0_r in H0. rewrite H0, bind_Ok.
  assert (Hm' : ∀ i o, sl !! i = Some o → map_inode_logical fs dev dir (logical + 1 + Z.of_nat i) = Ok o).
  { intros i o' Hi. rewrite <-(Hm (S i) o' Hi). f_equal. lia. }
  destruct o as [phys|]; [|apply IH; [lia|done..]]. cbn [omap list_omap id] in *.
  destruct cs as [|c cs]; [by inversion Hs|]. apply Forall2_cons in Hs as [(Hv & Hw & Hsl) Hs].
  rewrite Hv, bind_Ok.
  assert (Hchk : refuse_unverified_dir_block fs ino dir logical (image c) = Ok tt).
  { unfold refuse_unverified_dir_block, dir_block_role. rewrite Hidx. cbn [negb orb]. rewrite bind_Ok.
    destruct (enabled csum && has_csum_tail (image c)); [|done]. by rewrite Hsl, bind_Ok. }
  rewrite Hchk, bind_Ok. destruct c as [chunks rest]. destruct Hw as [Hd _]. cbn [fst snd] in Hd. unfold image. cbn [fst snd].
  rewrite (scan_block_spec _ _ _ _ (parse_dir_block _ _ _ Hd)), bind_Ok.
  unfold entries. cbn [fmap list_fmap concat fst]. rewrite by_name_app. destruct (by_name name (entries_of hft chunks)); [done|].
  by apply IH; [lia|..].
Qed.

Lemma by_name_other name e es1 es2 : DirEntry.name e ≠ name → by_name name (es1 ++ e :: es2) = by_name name (es1 ++ es2).
Proof using Type. intros Hne. rewrite !by_name_app. unfold by_name at 2. cbn [List.find]. by rewrite bool_decide_false. Qed.

Lemma by_name_lacks name es : by_name name es = None ↔ lacks name es.
Proof using Type. rewrite by_name_none. unfold lacks. by rewrite Forall_forall. Qed.
End linear.

Section claims.
Context `{Crc32c} (fs : Filesystem.t) (dev : reader) (ino : Z) (dir : Inode.t) (slots : list (option Z)).
Context (L : maps_linearly fs dev dir slots).
Local Abbreviation blocks := (omap id slots).

Lemma current_dir_plain s : current_dir fs dev ino dir s = (Ok dir, s).
Proof using L. unfold current_dir. by rewrite (proj2 (ml_plain _ _ _ _ L)). Qed.

(** C6: adding a name to a linear directory inside a transaction.  Either the
    directory's listing, read through the buffer, gains exactly the new entry,
    with one block of the directory rewritten and resealed and every other
    block of the volume as it was, so that a search for any other name answers
    what it did and, where the name was new, a search for it finds the inode;
    or no record has room, the answer is [OutOfBounds], and nothing shows. *)
Theorem add_dir_entry_spec name target ty s cs :
  0 < target < 2 ^ 32 → bytes_ok name → 1 ≤ zlen name ≤ 255 → stages fs dev (buffer s) blocks cs →
  match buffer_add_dir_entry_inplace fs dev ino dir name target ty s with
  | (Ok _, s') => ∃ b cs', edited fs dev ino dir s s' blocks cs cs' b ∧
      (∃ es1 es2, entries fs cs = es1 ++ es2 ∧ entries fs cs' = es1 ++ new_entry fs name target ty :: es2) ∧
      (∀ other, other ≠ name → by_name other (entries fs cs') = by_name other (entries fs cs)) ∧
      (by_name name (entries fs cs) = None → by_name name (entries fs cs') = Some target)
  | (Err e, s') => e = OutOfBounds ∧ changes_only fs dev s s' [] ∧ full fs name cs
  | _ => False
  end.
Proof using L.
  intros Ht Hb Hn Hs. pose proof (add_to_blocks_spec fs dev ino dir name target ty Ht Hb Hn slots 0 s cs ltac:(lia)
    (ml_slots _ _ _ _ L) (ml_distinct _ _ _ _ L) Hs) as Ha.
  unfold buffer_add_dir_entry_inplace. rewrite (tx_bind _ _ _ _ _ (current_dir_plain s)).
  destruct (ml_plain _ _ _ _ L) as [Hidx Hin]. rewrite Hin, Hidx, <-(ml_length _ _ _ _ L).
  destruct (add_to_blocks _ _ _ _ _ _ _ _ _ s) as [[u|e| |] s']; cbn [added] in Ha; try done.
  destruct Ha as (b & cs' & es1 & es2 & Hed & En & En'). exists b, cs'. split; [done|]. split; [by exists es1, es2|]. split.
  - intros other Ho. rewrite En, En'. apply by_name_other. cbn. congruence.
  - intros Hno. rewrite En'. rewrite En, by_name_app in Hno. rewrite by_name_app.
    destruct (by_name name es1); [done|]. unfold by_name. cbn. by rewrite bool_decide_true.
Qed.

(** C7: removing a name from a linear directory inside a transaction.  Either
    the listing loses exactly the first entry of that name, with one block
    rewritten and resealed and every other block as it was, so that a search
    for any other name answers what it did and, where the name was there once,
    a search for it finds nothing; or the name is nowhere in the listing, the
    answer is [NotFound] and nothing shows.  A merged record over 65535 bytes,
    which takes a larger block than that, is the one other error. *)
Theorem remove_dir_entry_spec name s cs : stages fs dev (buffer s) blocks cs →
  match buffer_remove_dir_entry fs dev ino dir name s with
  | (Ok _, s') => ∃ b cs', edited fs dev ino dir s s' blocks cs cs' b ∧
      (∃ es1 e es2, entries fs cs = es1 ++ e :: es2 ∧ DirEntry.name e = name ∧ lacks name es1 ∧ entries fs cs' = es1 ++ es2) ∧
      (∀ other, other ≠ name → by_name other (entries fs cs') = by_name other (entries fs cs)) ∧
      (NoDup (DirEntry.name <$> entries fs cs) → by_name name (entries fs cs') = None)
  | (Err e, s') => changes_only fs dev s s' [] ∧
      (e = NotFound ∧ lacks name (entries fs cs) ∨
       e = CorruptDirEntry "merged rec_len overflows u16" ∧ ∃ c, c ∈ cs ∧ u16_max < zlen (image c))
  | _ => False
  end.
Proof using L.
  intros Hs. destruct (ml_plain _ _ _ _ L) as [Hidx Hin].
  pose proof (remove_from_blocks_spec fs dev ino dir name slots Hidx 0 s cs ltac:(lia)
    (ml_slots _ _ _ _ L) (ml_distinct _ _ _ _ L) Hs) as Ha.
  unfold buffer_remove_dir_entry. rewrite (tx_bind _ _ _ _ _ (current_dir_plain s)), Hin, <-(ml_length _ _ _ _ L).
  destruct (remove_from_blocks _ _ _ _ _ _ _ s) as [[u|e| |] s']; cbn [removed] in Ha; try done.
  destruct Ha as (b & cs' & es1 & e & es2 & Hed & En & Hname & Hfirst & En'). exists b, cs'. split; [done|].
  split; [by exists es1, e, es2|]. split.
  - intros other Ho. rewrite En, En'. symmetry. apply by_name_other. congruence.
  - intros Hnd. apply by_name_lacks. rewrite En'. apply Forall_app. split; [done|]. apply Forall_forall. intros e' Hin' Hn'.
    rewrite En, fmap_app, fmap_cons in Hnd. apply NoDup_app in Hnd as (_ & _ & Hnd). apply NoDup_cons in Hnd as [Hnot _].
    destruct Hnot. rewrite Hname, <-Hn'. apply list_elem_of_fmap. by exists e'.
Qed.

(** C19: finding a name for an edit agrees with the listing: over blocks that
    verify, the inode of the first entry of that name, and [NotFound] where
    there is none. *)
Theorem find_entry_in_dir_spec name cs :
  Forall2 (λ b c, Filesystem.read_block fs dev b = Ok (image c) ∧ block_wf fs c ∧ sealed fs ino dir (image c)) blocks cs →
  find_entry_in_dir fs dev ino dir name = ok_or (by_name name (entries fs cs)) NotFound.
Proof using L.
  intros Hs. destruct (ml_plain _ _ _ _ L) as [Hidx Hin]. unfold find_entry_in_dir. rewrite Hin, <-(ml_length _ _ _ _ L).
  apply find_in_blocks_spec; [done|lia|apply (ml_slots _ _ _ _ L)|done].
Qed.
End claims.

(** ** Witnesses: the root directory of the volume of FsRead *)

Definition sample_contents : list bytes * bytes :=
  ([new_chunk true 2 12 (lit ".") Directory; new_chunk true 2 12 (lit "..") Directory; new_chunk true 12 1000 (lit "f") RegFile], []).

Lemma sample_linear f i : sample_mounted = Ok f → Inode.parse sample_root_inode = Ok i →
  @maps_linearly castagnoli f (image_reader sample_mounted_image) i [Some 40] ∧
  stages f (image_reader sample_mounted_image) new_buffer [40] [sample_contents] ∧
  @sealed castagnoli f 2 i (image sample_contents).
Proof.
  intros Ef Ei. vm_compute in Ef. injection Ef as <-. vm_compute in Ei. injection Ei as <-. split; [split|split].
  - vm_compute. reflexivity.
  - intros [|n] o Ho; [|done]. injection Ho as <-. vm_compute. reflexivity.
  - apply NoDup_singleton.
  - split; vm_compute; reflexivity.
  - constructor; [|constructor]. split; [vm_compute; reflexivity|]. split; [|vm_compute; reflexivity]. by_compute.
  - vm_compute. reflexivity.
Qed.

Lemma add_dir_entry_spec_witness : ∃ f i s', sample_mounted = Ok f ∧ Inode.parse sample_root_inode = Ok i ∧
  @buffer_add_dir_entry_inplace castagnoli f (image_reader sample_mounted_image) 2 i (lit "g") 13 RegFile
    (mkStaged new_buffer (mkAlloc ∅ None)) = (Ok tt, s') ∧
  ∃ cs', stages f (image_reader sample_mounted_image) (buffer s') [40] cs' ∧ by_name (lit "g") (entries f cs') = Some 13.
Proof.
  destruct sample_mounted as [f|e| |] eqn:Ef; try (vm_compute in Ef; discriminate Ef).
  destruct (Inode.parse sample_root_inode) as [i|e| |] eqn:Ei; try (vm_compute in Ei; discriminate Ei).
  destruct (sample_linear f i Ef Ei) as (HL & Hs & _).
  pose proof (@add_dir_entry_spec castagnoli f _ 2 i [Some 40] HL (lit "g") 13 RegFile (mkStaged new_buffer (mkAlloc ∅ None)) [sample_contents]
    ltac:(lia) ltac:(by_compute) ltac:(by_compute) Hs) as T.
  assert (Hr : match fst (@buffer_add_dir_entry_inplace castagnoli f (image_reader sample_mounted_image) 2 i (lit "g") 13 RegFile
    (mkStaged new_buffer (mkAlloc ∅ None))) with Ok _ => true | _ => false end = true).
  { clear - Ef Ei. vm_compute in Ef. injection Ef as <-. vm_compute in Ei. injection Ei as <-. vm_compute. reflexivity. }
  destruct (buffer_add_dir_entry_inplace _ _ _ _ _ _ _ _) as [[[]|e| |] s'] eqn:E; try discriminate Hr.
  exists f, i, s'. split; [reflexivity|]. split; [reflexivity|]. split; [exact E|].
  destruct T as (b & cs' & Hed & _ & _ & Hnew). exists cs'. split; [exact (ed_stages _ _ _ _ _ _ _ _ _ _ Hed)|].
  apply Hnew. clear - Ef. vm_compute in Ef. injection Ef as <-. vm_compute. reflexivity.
Defined.

Lemma remove_dir_entry_spec_witness : ∃ f i s', sample_mounted = Ok f ∧ Inode.parse sample_root_inode = Ok i ∧
  @buffer_remove_dir_entry castagnoli f (image_reader sample_mounted_image) 2 i (lit "f") (mkStaged new_buffer (mkAlloc ∅ None)) = (Ok tt, s') ∧
  ∃ cs', stages f (image_reader sample_mounted_image) (buffer s') [40] cs' ∧ by_name (lit "f") (entries f cs') = None.
Proof.
  destruct sample_mounted as [f|e| |] eqn:Ef; try (vm_compute in Ef; discriminate Ef).
  destruct (Inode.parse sample_root_inode) as [i|e| |] eqn:Ei; try (vm_compute in Ei; discriminate Ei).
  destruct (sample_linear f i Ef Ei) as (HL & Hs & _).
  pose proof (@remove_dir_entry_spec castagnoli f _ 2 i [Some 40] HL (lit "f") (mkStaged new_buffer (mkAlloc ∅ None)) [sample_contents] Hs) as T.
  assert (Hr : match fst (@buffer_remove_dir_entry castagnoli f (image_reader sample_mounted_image) 2 i (lit "f")
    (mkStaged new_buffer (mkAlloc ∅ None))) with Ok _ => true | _ => false end = true).
  { clear - Ef Ei. vm_compute in Ef. injection Ef as <-. vm_compute in Ei. injection Ei as <-. vm_compute. reflexivity. }
  destruct (buffer_remove_dir_entry _ _ _ _ _ _) as [[[]|e| |] s'] eqn:E; try discriminate Hr.
  exists f, i, s'. split; [reflexivity|]. split; [reflexivity|]. split; [exact E|].
  destruct T as (b & cs' & Hed & _ & _ & Hgone). exists cs'. split; [exact (ed_stages _ _ _ _ _ _ _ _ _ _ Hed)|].
  apply Hgone. clear - Ef. vm_compute in Ef. injection Ef as <-.
  match goal with |- NoDup ?l => let l' := eval vm_compute in l in change (NoDup l') end. by_compute.
Defined.

Lemma find_entry_in_dir_spec_witness : ∃ f i, sample_mounted = Ok f ∧ Inode.parse sample_root_inode = Ok i ∧
  @find_entry_in_dir castagnoli f (image_reader sample_mounted_image) 2 i (lit "f") = Ok 12 ∧
  @find_entry_in_dir castagnoli f (image_reader sample_mounted_image) 2 i (lit "g") = Err NotFound.
Proof.
  destruct sample_mounted as [f|e| |] eqn:Ef; try (vm_compute in Ef; discriminate Ef).
  destruct (Inode.parse sample_root_inode) as [i|e| |] eqn:Ei; try (vm_compute in Ei; discriminate Ei).
  destruct (sample_linear f i Ef Ei) as (HL & Hs & Hsl). exists f, i. split; [reflexivity|]. split; [reflexivity|].
  assert (Hr : Forall2 (λ b c, Filesystem.read_block f (image_reader sample_mounted_image) b = Ok (image c) ∧
    block_wf f c ∧ @sealed castagnoli f 2 i (image c)) [40] [sample_contents]).
  { apply Forall2_cons in Hs as [[Hv Hw] _]. constructor; [|constructor].
    split; [exact Hv|split; [exact Hw|exact Hsl]]. }
  split; (rewrite (@find_entry_in_dir_spec castagnoli f _ 2 i [Some 40] HL _ [sample_contents] Hr));
    clear - Ef; vm_compute in Ef; injection Ef as <-; vm_compute; reflexivity.
Defined.
