(* ===== verification/NamespaceSafety.v ===== *)
(** NamespaceSafety: what the operations on names keep of the directory tree:
    the check rename makes before it moves a directory ends, and a move it
    lets through leaves every directory reachable. *)
From stdpp Require Import relations.
From S2P Require Import Prelude Errors Bytes Device Features Superblock Checksum Bgd Extent Inode Indirect Dir Xattr Path PathSafety Alloc Filesystem BlockBuffer FsRead Stage DirEdit DirRefine Namespace.

Section tree.
Context `{Crc32c} (fs : Filesystem.t) (dev : reader).

(** [parent] is what the [..] of the directory [cur] names. *)
Definition dotdot (cur parent : Z) : Prop :=
  ∃ inode raw, read_inode_verified fs dev cur = Ok (inode, raw) ∧
    Path.find_entry dev (Filesystem.sb fs) (Filesystem.csum fs) cur inode [46; 46] = Ok parent.

(** The same tree with the [..] of [src] naming [dst]. *)
Definition moved (src dst : Z) (cur parent : Z) : Prop :=
  if decide (cur = src) then parent = dst else dotdot cur parent.

(** A chain of [..] that meets [a] at no directory. *)
Inductive avoids (a : Z) : Z → Z → Prop :=
  | avoids_here x : x ≠ a → avoids a x x
  | avoids_up x y z : x ≠ a → dotdot x y → avoids a y z → avoids a x z.

Lemma ancestor_loop_false fuel a : ∀ cur, ancestor_loop fs dev fuel a cur = Ok false → avoids a cur EXT4_ROOT_INODE.
Proof.
  induction fuel as [|fuel IH]; intros cur Hl; [done|]. cbn [ancestor_loop] in Hl. case_decide as Ha; [done|].
  case_decide as Hr; [subst; by apply avoids_here|].
  apply bind_ok_inv in Hl as ([inode raw] & Hi & Hl). apply bind_ok_inv in Hl as (parent & Hp & Hl).
  eapply avoids_up; [done|by exists inode, raw|by apply IH].
Qed.

Lemma ancestor_loop_true fuel a : ∀ cur, ancestor_loop fs dev fuel a cur = Ok true → rtc dotdot cur a.
Proof.
  induction fuel as [|fuel IH]; intros cur Hl; [done|]. cbn [ancestor_loop] in Hl. case_decide as Ha; [subst; constructor|].
  case_decide; [done|]. apply bind_ok_inv in Hl as ([inode raw] & Hi & Hl). apply bind_ok_inv in Hl as (parent & Hp & Hl).
  eapply rtc_l; [by exists inode, raw|by apply IH].
Qed.

Lemma ancestor_loop_returns `{!ReaderOk dev} fuel a : Superblock.geometry_ok (Filesystem.sb fs) → ∀ cur, 0 ≤ cur →
  returns (ancestor_loop fs dev fuel a cur).
Proof.
  intros Hg. induction fuel as [|fuel IH]; intros cur Hc; [done|]. cbn [ancestor_loop]. case_decide; [done|]. case_decide; [done|].
  destruct (read_inode_verified_safe fs dev Hg cur Hc) as [Hr Hok].
  destruct (read_inode_verified fs dev cur) as [[inode raw]|e| |]; try done. rewrite bind_Ok.
  destruct (Hok inode raw eq_refl) as [Hi _].
  assert (Hfind : returns (Path.find_entry dev (Filesystem.sb fs) (Filesystem.csum fs) cur inode [46; 46]) ∧
    ∀ i, Path.find_entry dev (Filesystem.sb fs) (Filesystem.csum fs) cur inode [46; 46] = Ok i → 0 ≤ i).
  { apply find_entry_safe; [done|done|by apply geometry_block_size|destruct Hg; lia|done|done]. }
  destruct Hfind as [Hf Hp].
  destruct (Path.find_entry _ _ _ _ _ _) as [p|e| |]; try done. rewrite bind_Ok. by apply IH, Hp.
Qed.

Lemma avoids_moved src dst x z : avoids src x z → rtc (moved src dst) x z.
Proof.
  induction 1 as [x Hx|x y z Hx Hd _ IH]; [constructor|]. eapply rtc_l; [|exact IH]. unfold moved. by rewrite decide_False.
Qed.

Lemma moved_reaches src dst x : avoids src dst EXT4_ROOT_INODE → rtc dotdot x EXT4_ROOT_INODE →
  rtc (moved src dst) x EXT4_ROOT_INODE.
Proof.
  intros Ha Hx. remember EXT4_ROOT_INODE as root eqn:Er. induction Hx as [x|x y root Hxy _ IH]; [constructor|].
  destruct (decide (x = src)) as [->|Hne].
  - eapply rtc_l; [|by apply avoids_moved]. unfold moved. by rewrite decide_True.
  - eapply rtc_l; [|by apply IH]. unfold moved. by rewrite decide_False.
Qed.
Lemma moved_toward src dst x : rtc dotdot x src → rtc (moved src dst) x src.
Proof.
  intros Hx. remember src as z eqn:Ez in Hx at 1 |- * at 2. induction Hx as [x|x y z Hxy _ IH]; [constructor|].
  destruct (decide (x = src)) as [->|Hne]; [subst; constructor|]. eapply rtc_l; [|by apply IH]. unfold moved. by rewrite decide_False.
Qed.
End tree.

(** C9: moving a directory.  The check before it ends on any volume, however its
    [..] chains run.  Where it answers that the directory to move is not at or
    above the target, every directory that could reach the root still can once
    its [..] names the target; where it answers that it is, the target's chain
    does lead to it, and the move would have closed a cycle. *)
Theorem rename_cycle_check `{Crc32c} fs dev `{!ReaderOk dev} src dst :
  Superblock.geometry_ok (Filesystem.sb fs) → 0 ≤ dst →
  returns (is_ancestor_or_self fs dev src dst) ∧
  (is_ancestor_or_self fs dev src dst = Ok false →
     ∀ x, rtc (dotdot fs dev) x EXT4_ROOT_INODE → rtc (moved fs dev src dst) x EXT4_ROOT_INODE) ∧
  (is_ancestor_or_self fs dev src dst = Ok true →
     rtc (dotdot fs dev) dst src ∧ (dst ≠ src → tc (moved fs dev src dst) src src)).
Proof.
  intros Hg Hd. split; [by apply ancestor_loop_returns|]. split.
  - intros E x Hx. eapply moved_reaches; [by eapply ancestor_loop_false|done].
  - intros E. unfold is_ancestor_or_self in E. pose proof (ancestor_loop_true fs dev _ _ _ E) as Et. clear E. rename Et into E. split; [done|]. intros Hne.
    pose proof (moved_toward fs dev src dst dst E) as Hto.
    eapply tc_rtc_r; [apply tc_once|exact Hto]. unfold moved. by rewrite decide_True.
Qed.

(** ** Witness: the volume of FsRead with a directory, inode 13, whose block is
    41 and whose parent is the root *)
Definition sample_tree_image : bytes :=
  splice (splice sample_mounted_image (10 * 1024 + 12 * 256)
    (le_split 2 0x41ED ++ zrep 2 0 ++ le_split 4 1024 ++ zrep 18 0 ++ le_split 2 2 ++ zrep 4 0 ++ le_split 4 InodeFlags.EXTENTS ++ zrep 4 0 ++
     Extent.sample_header 1 0 ++ Extent.sample_leaf 0 1 41 ++ zrep 36 0 ++ zrep 156 0))
    (41 * 1024) (concat [new_chunk true 13 12 (lit ".") Directory; new_chunk true 2 1012 (lit "..") Directory]).

Lemma rename_cycle_check_witness : ∃ f, sample_mounted = Ok f ∧
  @is_ancestor_or_self castagnoli f (image_reader sample_tree_image) 12 13 = Ok false ∧
  rtc (@moved castagnoli f (image_reader sample_tree_image) 12 13) 13 EXT4_ROOT_INODE ∧
  @is_ancestor_or_self castagnoli f (image_reader sample_tree_image) 2 13 = Ok true ∧
  rtc (@dotdot castagnoli f (image_reader sample_tree_image)) 13 2.
Proof.
  destruct sample_mounted as [f|e| |] eqn:Ef; try (vm_compute in Ef; discriminate Ef). exists f. split; [reflexivity|].
  assert (Hdev : ReaderOk (image_reader sample_tree_image)) by (apply image_reader_ok; by_compute).
  pose proof (sample_mounted_geometry f Ef) as Hg.
  destruct (@rename_cycle_check castagnoli f _ Hdev 12 13 Hg ltac:(lia)) as (_ & Hkeep & _).
  destruct (@rename_cycle_check castagnoli f _ Hdev 2 13 Hg ltac:(lia)) as (_ & _ & Hcycle).
  assert (E : @is_ancestor_or_self castagnoli f (image_reader sample_tree_image) 12 13 = Ok false ∧
              @is_ancestor_or_self castagnoli f (image_reader sample_tree_image) 2 13 = Ok true).
  { clear - Ef. vm_compute in Ef. injection Ef as <-. split; vm_compute; reflexivity. }
  destruct E as [E1 E2]. destruct (Hcycle E2) as [Hup _].
  split; [exact E1|]. split; [|split; [exact E2|exact Hup]]. exact (Hkeep E1 13 Hup).
Defined.
