(* ===== verification/ContentRefine.v ===== *)
(** ContentRefine: the bytes of a file inside a transaction: what its blocks,
    read through the staged buffer, hold under its block map, and what the
    operations of FileWrite do to them: punching a hole, splicing data in and
    laying a new content out. *)
From S2P Require Import Prelude Errors Bytes Device Features Superblock Checksum Bgd Extent Inode Indirect Alloc Filesystem FileIo BlockBuffer FreeCounts AllocRefine FsRead Stage DirEdit DirRefine Namespace FileWrite OperationSafety.

(** ** Extents and a hole *)

Section punch.
Context (first last : Z).

(** What survives of an extent, and the run given back. *)
Definition survive (e : Extent.t) : list Extent.t :=
  let el := Extent.logical_block e in
  let er := el + Extent.length e in
  if decide (er ≤ first ∨ last ≤ el) then [e] else
  (if decide (el < first) then [Extent.mk el (first - el) (Extent.physical_block e) (Extent.uninitialized e)] else []) ++
  (if decide (last < er) then [Extent.mk last (er - last) (Extent.physical_block e + (last - el)) (Extent.uninitialized e)] else []).
Definition given_back (e : Extent.t) : option (Z * Z) :=
  let el := Extent.logical_block e in
  let er := el + Extent.length e in
  if decide (er ≤ first ∨ last ≤ el) then None else
  let lo := Z.max el first in
  Some (Extent.physical_block e + (lo - el), Z.min er last - lo).

Definition survivors (es : list Extent.t) : list Extent.t := concat (survive <$> es).
Definition dropped (es : list Extent.t) : list (Z * Z) := omap given_back es.

(** An extent as a leaf can hold it. *)
Definition extent_ok (e : Extent.t) : Prop :=
  0 ≤ Extent.logical_block e ∧ 0 < Extent.length e ≤ 32768 ∧ Extent.logical_block e + Extent.length e ≤ 2 ^ 32 ∧
  0 ≤ Extent.physical_block e ∧ Extent.physical_block e + Extent.length e < 2 ^ 64.

Context (Hr : 0 ≤ first < last).

Lemma find_survive l e : ¬ (first ≤ l < last) →
  ∀ e', find_ext l (survive e) = Some e' → Extent.contains e l = true ∧ ext_target (Some e') l = ext_target (Some e) l.
Proof using Hr.
  intros Hl e'. unfold survive, find_ext. case_decide as Hd.
  { cbn. destruct (Extent.contains e l) eqn:E; [|done]. by intros [= <-]. }
  rewrite contains_true. destruct (decide (_ < first)), (decide (last < _)); cbn [app List.find]; repeat case_match; try done;
    repeat match goal with H : Extent.contains _ l = true |- _ => apply contains_true in H; cbn in H end;
    intros [= <-]; unfold ext_target, Extent.map; cbn; (split; [lia|]); case_match; try done; f_equal; lia.
Qed.

Lemma find_survive_none l e : find_ext l (survive e) = None ↔ first ≤ l < last ∨ Extent.contains e l = false.
Proof using Hr.
  assert (Hc : ∀ x, Extent.contains x l = false ↔ ¬ (Extent.logical_block x ≤ l < Extent.logical_block x + Extent.length x)).
  { intros x. rewrite <-contains_true. by destruct (Extent.contains x l). }
  unfold survive, find_ext. rewrite Hc. case_decide as Hd.
  { cbn. destruct (Extent.contains e l) eqn:E; [apply contains_true in E|apply Hc in E]; split; try done; lia. }
  destruct (decide (_ < first)), (decide (last < _)); cbn [app List.find]; repeat case_match; try done;
    repeat match goal with H : Extent.contains _ l = true |- _ => apply contains_true in H; cbn in H
      | H : Extent.contains _ l = false |- _ => apply Hc in H; cbn in H end; split; intros; try done; try lia.
Qed.

(** The survivors map what the extents mapped, outside the hole. *)
Lemma survivors_map es l :
  ext_target (find_ext l (survivors es)) l = if decide (first ≤ l < last) then None else ext_target (find_ext l es) l.
Proof using Hr.
  unfold survivors. induction es as [|e es IH]; [by case_decide|]. cbn [fmap list_fmap concat]. rewrite find_ext_app.
  destruct (find_ext l (survive e)) as [e'|] eqn:E.
  - assert (Hl : ¬ (first ≤ l < last)).
    { intros Hl. assert (find_ext l (survive e) = None) as E' by (apply find_survive_none; by left). congruence. }
    rewrite decide_False by done. destruct (find_survive l e Hl e' E) as [Hc ->]. unfold find_ext at 1. cbn [List.find]. by rewrite Hc.
  - rewrite IH. case_decide as Hl; [done|]. apply find_survive_none in E as [|Hc]; [done|]. unfold find_ext at 2. cbn [List.find]. by rewrite Hc.
Qed.

(** The runs given back are the blocks the extents hold in the hole. *)
Lemma dropped_blocks es p : (∃ r, r ∈ dropped es ∧ fst r ≤ p < fst r + snd r) ↔
  ∃ e l, e ∈ es ∧ Extent.contains e l = true ∧ first ≤ l < last ∧ Extent.map e l = p.
Proof using Hr.
  unfold dropped. split.
  - intros (r & Hin & Hp). apply list_elem_of_omap in Hin as (e & Hin & Hg). unfold given_back in Hg. case_decide; [done|].
    injection Hg as <-. cbn in Hp. exists e, (Extent.logical_block e + (p - Extent.physical_block e)).
    rewrite contains_true. unfold Extent.map. split; [done|]. lia.
  - intros (e & l & Hin & Hc & Hl & <-). apply contains_true in Hc.
    exists (Extent.physical_block e + (Z.max (Extent.logical_block e) first - Extent.logical_block e),
            Z.min (Extent.logical_block e + Extent.length e) last - Z.max (Extent.logical_block e) first).
    split; [|cbn; unfold Extent.map; lia]. apply list_elem_of_omap. exists e. split; [done|]. unfold given_back. rewrite decide_False by lia. done.
Qed.
End punch.

Lemma tx_assoc {S A B C} (p : dev_m S A) (f : A → dev_m S B) (g : B → dev_m S C) s :
  ((p ≫= f) ≫= g) s = (p ≫= λ a, f a ≫= g) s.
Proof. unfold mbind, dev_bind. by destruct (p s) as [[]]. Qed.
Lemma tx_bind_ext {S A B} (p : dev_m S A) (f g : A → dev_m S B) s : (∀ a s, f a s = g a s) → (p ≫= f) s = (p ≫= g) s.
Proof. intros Hfg. unfold mbind, dev_bind. by destruct (p s) as [[]]. Qed.

Lemma tx_ret {S A B} (a : A) (k : A → dev_m S B) s : (mret a ≫= k) s = k a s.
Proof. done. Qed.

Section fs.
Context `{Crc32c} (fs : Filesystem.t) (dev : reader).
Local Abbreviation bs := (Filesystem.block_size fs).
Local Abbreviation view := (view fs dev).

(** Giving back runs one at a time, summing what was freed. *)
Definition give_back_runs (freed : Z) (runs : list (Z * Z)) : tx Z :=
  fold_m (λ n r, k ← free_run fs dev (fst r) (snd r); mret (as_u64 (n + k))) freed runs.

Lemma punch_one first last kept freed e s : 0 ≤ first < last → extent_ok e →
  punch_extent fs dev first last (kept, freed) e s =
  match given_back first last e with
  | None => (Ok (kept ++ survive first last e, freed), s)
  | Some r => (n ← free_run fs dev (fst r) (snd r); mret (kept ++ survive first last e, as_u64 (freed + n))) s
  end.
Proof.
  intros Hr (H1 & H2 & H3 & H4 & H5). unfold punch_extent, given_back, survive. cbv zeta.
  set (el := Extent.logical_block e) in *. set (er := el + Extent.length e) in *.
  destruct (decide (er ≤ first ∨ last ≤ el)) as [Hout|Hin]; [done|]. cbn [fst snd].
  destruct (decide (first ≤ el ∧ er ≤ last)) as [[Ha Hb]|Hpart].
  - rewrite !(decide_False (P := el < first)), !(decide_False (P := last < er)) by lia.
    replace (Extent.physical_block e + (Z.max el first - el)) with (Extent.physical_block e) by lia.
    replace (Z.min er last - Z.max el first) with (Extent.length e) by lia. by rewrite app_nil_r.
  - assert (as_u64 (Extent.physical_block e + (Z.max el first - el)) = Extent.physical_block e + (Z.max el first - el)) as ->
      by (apply Z.mod_small; lia).
    assert (as_u32 (Z.min er last - Z.max el first) = Z.min er last - Z.max el first) as -> by (apply Z.mod_small; lia).
    assert (el < first → as_u32 el = el ∧ as_u16 (first - el) = first - el) as E1.
    { intros. split; apply Z.mod_small; lia. }
    assert (last < er → as_u32 last = last ∧ as_u16 (er - last) = er - last ∧
      as_u64 (Extent.physical_block e + (last - el)) = Extent.physical_block e + (last - el)) as E2.
    { intros. split; [|split]; apply Z.mod_small; lia. }
    destruct (decide (el < first)) as [Hl|Hl], (decide (last < er)) as [Hg|Hg];
      try (destruct (E1 Hl) as [-> ->]); try (destruct (E2 Hg) as (-> & -> & ->)); reflexivity.
Qed.

(** The loop over the extents of a file: the runs of the hole given back in
    order, and the survivors. *)
Lemma punch_fold first last es : 0 ≤ first < last → Forall extent_ok es → ∀ kept freed s,
  fold_m (punch_extent fs dev first last) (kept, freed) es s =
  (freed ← give_back_runs freed (dropped first last es); mret (kept ++ survivors first last es, freed)) s.
Proof.
  intros Hr. induction 1 as [|e es He _ IH]; intros kept freed s.
  { unfold survivors. cbn. by rewrite app_nil_r. }
  cbn [fold_m]. unfold dropped. cbn [omap list_omap]. change (omap _ es) with (dropped first last es).
  assert (Hs : survivors first last (e :: es) = survive first last e ++ survivors first last es) by done. rewrite Hs.
  unfold mbind at 1, dev_bind at 1. rewrite punch_one by done. destruct (given_back first last e) as [r|].
  - unfold give_back_runs. cbn [fold_m]. rewrite !tx_assoc. unfold mbind at 1 2, dev_bind at 1 2.
    destruct (free_run fs dev (fst r) (snd r) s) as [[n|er| |] s']; try done.
    cbn [mret dev_ret]. rewrite tx_ret, IH, <-app_assoc. reflexivity.
  - rewrite IH, <-app_assoc. reflexivity.
Qed.

(** The runs given back one after the other, as the buffer sees them. *)
Lemma give_back_runs_run runs : ∀ freed s n buf',
  foldM (λ '(freed, buf) '(start, len),
    '(k, buf) ← buffer_free_block_run_and_bgd fs dev buf start len; Ok (as_u64 (freed + k), buf)) (freed, buffer s) runs = Ok (n, buf') →
  give_back_runs freed runs s = (Ok n, mkStaged buf' (space s)).
Proof.
  induction runs as [|[start len] runs IH]; intros freed s n buf'; cbn [foldM].
  { intros [= <- <-]. unfold give_back_runs. cbn. by destruct s. }
  intros E. apply bind_ok_inv in E as ([f1 b1] & E1 & E). apply bind_ok_inv in E1 as ([k b] & Ek & E1). injection E1 as <- <-.
  unfold give_back_runs. cbn [fold_m fst snd]. rewrite tx_assoc.
  rewrite (tx_bind _ _ _ k (mkStaged b (space s))) by (unfold free_run, on_buffer; by rewrite Ek).
  rewrite tx_ret. apply (IH _ (mkStaged b (space s))). exact E.
Qed.

(** What the map says of a block once runs were given back. *)
Lemma give_back_spec runs : ∀ used p,
  (give_back used runs p = used p ∧ ∀ r, r ∈ runs → ¬ (fst r ≤ p < fst r + snd r)) ∨
  (give_back used runs p = false ∧ ∃ r, r ∈ runs ∧ fst r ≤ p < fst r + snd r).
Proof using Type.
  induction runs as [|[a n] runs IH]; intros used p; [left; split; [done|]; intros r Hr; by apply elem_of_nil in Hr|].
  unfold give_back. cbn [foldl]. change (foldl _ ?u runs) with (give_back u runs).
  destruct (IH (set_run a n false used) p) as [[-> Hno]|[-> (r & Hr & Hp)]]; [|right; split; [done|]; exists r; split; [set_solver|done]].
  unfold set_run. case_decide as Hd.
  - right. split; [done|]. exists (a, n). split; [set_solver|done].
  - left. split; [done|]. intros r [->|Hr]%elem_of_cons; [done|by apply Hno].
Qed.

(** ** The bytes of a file *)

(** What a block holds for the transaction, and the byte at [o] of a file that
    maps its blocks by [m]; a hole and a preallocated block read as zeros. *)
Definition held (s : staged) (b : Z) : bytes := match view (buffer s) b with Ok x => x | _ => [] end.
Definition content (s : staged) (m : Z → option Z) (o : Z) : Z :=
  match m (o / bs) with Some p => byte_at (held s p) (o mod bs) | None => 0 end.

(** Every block the map names can be read, and no two logical blocks share one. *)
Definition readable (s : staged) (m : Z → option Z) : Prop :=
  ∀ l p, 0 ≤ l → m l = Some p → ∃ x, view (buffer s) p = Ok x ∧ zlen x = bs.
Definition unshared (m : Z → option Z) : Prop :=
  ∀ l l' p, 0 ≤ l → 0 ≤ l' → m l = Some p → m l' = Some p → l = l'.

Context (Hbs : 0 < bs).

Lemma held_view s b x : view (buffer s) b = Ok x → held s b = x.
Proof using Type. unfold held. by intros ->. Qed.

Lemma block_of_nonneg o : 0 ≤ o → 0 ≤ o / bs ∧ 0 ≤ o mod bs < bs ∧ o = o / bs * bs + o mod bs.
Proof using Hbs.
  intros Ho. split; [by apply Z.div_pos; lia|]. split; [by apply Z.mod_pos_bound|].
  rewrite Z.mul_comm. by apply Z.div_mod; lia.
Qed.

(** Nothing that shows has changed. *)
Lemma content_same s s' m o : changes_only fs dev s s' [] → content s' m o = content s m o.
Proof using Type.
  intros [V _ _]. unfold content, held. destruct (m (o / bs)) as [p|]; [|done]. by rewrite V by apply not_elem_of_nil.
Qed.

(** One block of the file rewritten. *)
Lemma content_edit s s' m l p x o : 0 ≤ l → 0 ≤ o → m l = Some p → unshared m →
  changes_only fs dev s s' [p] → view (buffer s') p = Ok x →
  content s' m o = if decide (o / bs = l) then byte_at x (o mod bs) else content s m o.
Proof using Hbs.
  intros Hl Ho Hm Hu [V _ _] Hv. destruct (block_of_nonneg o Ho) as (Ho' & _). unfold content. case_decide as Hd.
  - rewrite Hd, Hm. by rewrite (held_view _ _ _ Hv).
  - destruct (m (o / bs)) as [p'|] eqn:E; [|done]. unfold held. rewrite V; [done|].
    intros Hin. apply list_elem_of_singleton in Hin as ->. apply Hd. by eapply Hu.
Qed.

Lemma readable_edit s s' m p x : readable s m → changes_only fs dev s s' [p] → view (buffer s') p = Ok x → zlen x = bs →
  readable s' m.
Proof using Hbs.
  intros Hr [V _ _] Hv Hx l p' Hl Hm. destruct (decide (p' = p)) as [->|Hne]; [by exists x|].
  rewrite V by set_solver. by apply (Hr l).
Qed.

Lemma byte_at_splice (b : bytes) k src j : 0 ≤ k → k + zlen src ≤ zlen b → 0 ≤ j →
  byte_at (splice b k src) j = if decide (k ≤ j < k + zlen src) then byte_at src (j - k) else byte_at b j.
Proof using Type.
  intros Hk Hl Hj. unfold byte_at. rewrite lookup_splice by done. rewrite Z2Nat.id by done. case_decide; [|done].
  f_equal. f_equal. lia.
Qed.
Lemma byte_at_zrep n j : byte_at (zrep n 0) j = 0.
Proof using Type. unfold byte_at, zrep. destruct (replicate _ _ !! _) as [z|] eqn:E; [|done]. by apply lookup_replicate in E as [-> _]. Qed.

(** An edit of a block that is there. *)
Lemma staging_edit_spec s b x f y : view (buffer s) b = Ok x → f x = Ok y →
  ∃ s', staging (edit fs dev b f) s = (Ok tt, s') ∧ changes_only fs dev s s' [b] ∧ view (buffer s') b = Ok y ∧
    (bytes_ok y → reader_ok (view (buffer s)) → reader_ok (view (buffer s'))).
Proof using Hbs.
  intros Hv Hf. destruct (edit_spec fs dev (buffer s) b f x y Hv Hf) as (buf' & E & [W U]).
  exists (mkStaged buf' (space s)). unfold staging, on_buffer. rewrite E, bind_Ok. split; [done|]. split; [|split; [|intros; by eapply wrote_ok]].
  - split; [|done|done]. intros b' Hb'. cbn [buffer]. rewrite W, decide_False; [done|]. set_solver.
  - cbn [buffer]. by rewrite W, decide_True.
Qed.

(** ** Zeroing the edges of a hole *)

Section edges.
Context (inode : Inode.t) (offset stop : Z) (Ho : 0 ≤ offset ≤ stop) (m : Z → option Z).
Context (Hm : ∀ l, map_logical dev bs (Inode.block inode) l = Ok (m l)) (Hu : unshared m).

(** The range covers part of block [l], and not all of it. *)
Definition partial (l : Z) : Prop :=
  let lo := Z.max offset (l * bs) in let hi := Z.min stop ((l + 1) * bs) in lo < hi ∧ hi - lo ≠ bs.
#[local] Instance partial_dec l : Decision (partial l).
Proof using Type. unfold partial. apply _. Defined.

Definition zeroed (ls : list Z) (s : staged) (o : Z) : Z :=
  if decide (o / bs ∈ ls ∧ partial (o / bs) ∧ offset ≤ o < stop) then 0 else content s m o.

Lemma zero_edge_spec l s : 0 ≤ l → readable s m →
  ∃ s', zero_edge fs dev inode offset stop l s = (Ok tt, s') ∧ readable s' m ∧
    (∃ bl, changes_only fs dev s s' bl ∧ ∀ b, b ∈ bl → m l = Some b) ∧
    (reader_ok (view (buffer s)) → reader_ok (view (buffer s'))) ∧
    ∀ o, 0 ≤ o → content s' m o = zeroed [l] s o.
Proof using Hbs Ho Hm Hu.
  intros Hl Hr. unfold zero_edge. cbv zeta. set (lo := Z.max offset (l * bs)). set (hi := Z.min stop ((l + 1) * bs)).
  assert (Hsame : ¬ partial l ∨ m l = None → ∀ o, 0 ≤ o → content s m o = zeroed [l] s o).
  { intros Hn o Ho'. unfold zeroed. case_decide as Hd; [|done]. destruct Hd as (Hin & Hp & _).
    apply list_elem_of_singleton in Hin. rewrite Hin in Hp. destruct Hn as [Hn|Hn]; [done|]. unfold content. by rewrite Hin, Hn. }
  destruct (decide (hi ≤ lo ∨ hi - lo = bs)) as [Hd|Hd].
  { exists s. split; [done|]. split; [done|]. split; [exists []; split; [apply changes_refl|intros b Hb; by apply elem_of_nil in Hb]|]. split; [done|].
    apply Hsame. left. unfold partial. fold lo hi. lia. }
  rewrite Hm, tx_lift. destruct (m l) as [p|] eqn:Ep.
  2:{ exists s. split; [done|]. split; [done|]. split; [exists []; split; [apply changes_refl|intros b Hb; by apply elem_of_nil in Hb]|]. split; [done|].
      apply Hsame. by right. }
  destruct (Hr l p Hl Ep) as (x & Hv & Hx).
  assert (Hz : zlen (zrep (hi - lo) 0) = hi - lo) by (rewrite zlen_zrep; lia).
  destruct (staging_edit_spec s p x (λ b, put b (lo - l * bs) (zrep (hi - lo) 0)) (splice x (lo - l * bs) (zrep (hi - lo) 0)))
    as (s' & E & Hc & Hv' & Hrd); [done|apply put_ok; lia|].
  exists s'. split; [exact E|]. split; [eapply readable_edit; [done..|rewrite zlen_splice; lia]|].
  split; [exists [p]; split; [done|]; intros b Hb; apply list_elem_of_singleton in Hb as ->; done|].
  split.
  { intros Hrok. apply Hrd; [|done]. specialize (Hrok p). rewrite Hv in Hrok.
    apply bytes_ok_splice; [exact Hrok|by apply bytes_ok_zrep]. }
  intros o Ho'. rewrite (content_edit s s' m l p _ o Hl Ho' Ep Hu Hc Hv'). destruct (block_of_nonneg o Ho') as (H1 & H2 & H3).
  unfold zeroed. destruct (decide (o / bs = l)) as [Eo|Eo].
  - rewrite byte_at_splice by lia. rewrite Hz, byte_at_zrep.
    assert (Hcond : lo - l * bs ≤ o mod bs < lo - l * bs + (hi - lo) ↔ offset ≤ o < stop) by (subst l; lia).
    assert (Hpart : partial (o / bs)) by (rewrite Eo; unfold partial; fold lo hi; lia).
    case_decide as Hd1; case_decide as Hd2; try done.
    + destruct Hd2. split; [set_solver|]. split; [done|]. by apply Hcond.
    + destruct Hd1. apply Hcond, Hd2.
    + unfold content. rewrite Eo, Ep. by rewrite (held_view _ _ _ Hv).
  - rewrite decide_False; [done|]. intros (Hin & _). by apply list_elem_of_singleton in Hin.
Qed.

Lemma zero_edges_spec ls : Forall (λ l, 0 ≤ l) ls → ∀ s, readable s m →
  ∃ s', each (zero_edge fs dev inode offset stop) ls s = (Ok tt, s') ∧ readable s' m ∧
    (∃ bl, changes_only fs dev s s' bl ∧ ∀ b, b ∈ bl → ∃ l, l ∈ ls ∧ m l = Some b) ∧
    (reader_ok (view (buffer s)) → reader_ok (view (buffer s'))) ∧
    ∀ o, 0 ≤ o → content s' m o = zeroed ls s o.
Proof using Hbs Ho Hm Hu.
  induction 1 as [|l ls Hl _ IH]; intros s Hr.
  { exists s. split; [done|]. split; [done|]. split; [exists []; split; [apply changes_refl|intros b Hb; by apply elem_of_nil in Hb]|]. split; [done|].
    intros o _. unfold zeroed. rewrite decide_False; [done|]. intros (Hin & _). by apply elem_of_nil in Hin. }
  cbn [each]. destruct (zero_edge_spec l s Hl Hr) as (s1 & E1 & Hr1 & (b1 & C1 & B1) & R1 & Z1). rewrite (tx_bind _ _ _ _ _ E1).
  destruct (IH s1 Hr1) as (s2 & E2 & Hr2 & (b2 & C2 & B2) & R2 & Z2). exists s2. split; [exact E2|]. split; [done|]. split; [|split; [auto|]].
  - exists (b1 ++ b2). split.
    + destruct C1 as [V1 U1 S1], C2 as [V2 U2 S2]. split; [|congruence..]. intros b Hb. rewrite V2, V1 by set_solver. done.
    + intros b [Hb|Hb]%elem_of_app; [exists l; split; [set_solver|by apply B1]|]. destruct (B2 b Hb) as (l' & ? & ?). exists l'. split; [set_solver|done].
  - intros o Ho'. rewrite Z2 by done. unfold zeroed at 1. rewrite Z1 by done. unfold zeroed.
    repeat case_decide; try done; exfalso; set_solver.
Qed.

(** A byte of the range lies in a block that goes whole, or in one of the two
    edges. *)
Lemma hole_or_edge s o : 0 ≤ o →
  (if decide (div_ceil offset bs ≤ o / bs < stop / bs) then 0
   else zeroed (if decide (offset / bs = stop / bs) then [offset / bs] else [offset / bs; stop / bs]) s o) =
  if decide (offset ≤ o < stop) then 0 else content s m o.
Proof using Hbs Ho.
  intros Ho'. destruct (block_of_nonneg o Ho') as (H1 & H2 & H3).
  pose proof (div_ceil_covers offset bs Hbs). pose proof (Z.mul_div_le stop bs Hbs).
  destruct (decide (div_ceil offset bs ≤ o / bs < stop / bs)) as [Hd|Hd]; [rewrite decide_True; [done|nia]|].
  unfold zeroed. destruct (decide (offset ≤ o < stop)) as [Hr|Hr]; [rewrite decide_True; [done|]|rewrite decide_False by tauto; done].
  assert (Hhead : offset / bs ≤ o / bs) by (apply Z.div_le_mono; lia).
  assert (Htail : o / bs ≤ stop / bs) by (apply Z.div_le_mono; lia).
  assert (Hup : div_ceil offset bs ≤ offset / bs + 1).
  { apply div_ceil_mult; [done|]. destruct (block_of_nonneg offset) as (_ & ? & ?); lia. }
  split; [|split; [|done]].
  - assert (o / bs = offset / bs ∨ o / bs = stop / bs) as Hor by lia.
    case_decide; [apply list_elem_of_singleton; lia|]. rewrite !elem_of_cons. destruct Hor; [by left|right; by left].
  - unfold partial. split; [nia|]. intros Hfull. apply Hd. split.
    + apply div_ceil_mult; lia.
    + assert (o / bs + 1 ≤ stop / bs); [|lia]. apply Z.div_le_lower_bound; lia.
Qed.
End edges.
End fs.

(** ** Claims *)

(** C8: punching a hole, up to the new layout of the tree.  Take a file with a
    well-formed extent tree, whose blocks can be read, are not shared and hold
    no bitmap and no group descriptor, on a volume whose staged bitmaps and
    descriptors represent the map [used], where the blocks of the hole are in
    use, no block twice, in groups whose bitmaps are on disk.  Then the partial
    blocks at the edges of the range are zeroed in the buffer; the loop over
    the file's extents succeeds, keeps what maps the rest and gives back
    exactly the blocks the extents hold wholly inside the range, which the
    bitmaps and descriptors then represent as free, their number added to the
    free count; and after it the file the survivors map reads as zeros in the
    range and as before everywhere else. *)
Theorem punch_hole_content `{Crc32c} fs dev `{!ReaderOk dev} inode h lo hi es nodes offset stop st used s :
  let sb := Filesystem.sb fs in
  let bs := Filesystem.block_size fs in
  let m l := ext_target (find_ext l es) l in
  let first := div_ceil offset bs in let last := stop / bs in
  let edges := if decide (offset / bs = stop / bs) then [offset / bs] else [offset / bs; stop / bs] in
  let kept := if decide (first < last) then survivors first last es else es in
  let hole := if decide (first < last) then dropped first last es else [] in
  Superblock.geometry_ok sb → layout_ok fs → groups_repr fs dev st (buffer s) used →
  0 ≤ offset ≤ stop → Forall extent_ok es →
  ExtentHeader.parse (Inode.block inode) = Ok h → ExtentHeader.depth h ≤ EXT4_EXT_MAX_DEPTH →
  tree dev bs None (Z.to_nat (ExtentHeader.depth h)) (Inode.block inode) lo hi es nodes →
  unshared m → readable fs dev s m →
  (∀ l p, 0 ≤ l → m l = Some p → ¬ is_desc_block fs p ∧ ¬ is_bitmap fs p) →
  runs_used fs used hole → runs_init fs dev (buffer s) hole →
  collect_all_with_nodes dev bs (Inode.block inode) = Ok (es, nodes) ∧
  ∃ s1 s2, each (zero_edge fs dev inode offset stop) edges s = (Ok tt, s1) ∧
    fold_m (punch_extent fs dev first last) ([], 0) (if decide (first < last) then es else []) s1 =
      (Ok (if decide (first < last) then kept else [], run_total hole), s2) ∧
    groups_repr fs dev st (buffer s2) (give_back used hole) ∧
    total_free fs (give_back used hole) = total_free fs used + run_total hole ∧
    (∀ p, give_back used hole p = false ↔ used p = false ∨
       ∃ e l, e ∈ es ∧ Extent.contains e l = true ∧ first ≤ l < last ∧ Extent.map e l = p) ∧
    (∀ o, 0 ≤ o → content fs dev s2 (λ l, ext_target (find_ext l kept) l) o =
       if decide (offset ≤ o < stop) then 0 else content fs dev s m o).
Proof.
  intros sb bs m first last edges kept hole Hgeo Hlay Hrep Ho Hes Hh Hdep Ht Hu Hr Hdata Hused Hinit.
  assert (Hbs : 0 < bs).
  { pose proof (Superblock.block_size_range sb (Superblock.geo_log sb Hgeo)) as Hs. change (1024 ≤ bs ≤ 65536) in Hs. lia. }
  split; [by eapply collect_spec|].
  assert (Hm : ∀ l, map_logical dev bs (Inode.block inode) l = Ok (m l)).
  { intros l. unfold map_logical, map_logical_verified. rewrite (lookup_verified_spec _ _ _ _ _ _ _ _ _ l Hh Hdep Ht), bind_Ok.
    unfold m, ext_target. destruct (find_ext l es) as [e|]; [|done]. by destruct (Extent.uninitialized e). }
  assert (H0 : 0 ≤ offset / bs ∧ 0 ≤ stop / bs ∧ 0 ≤ first) by (split_and!; [apply Z.div_pos; lia..|by apply div_ceil_nonneg; lia]).
  destruct (zero_edges_spec fs dev Hbs inode offset stop Ho m Hm Hu edges) with (s := s) as (s1 & E & Hr1 & (bl & [Cv Cu Cs] & B) & Hrd & Hz); [|done|].
  { unfold edges. case_decide; repeat constructor; lia. }
  assert (Hmeta : ∀ b, is_desc_block fs b ∨ is_bitmap fs b → view fs dev (buffer s1) b = view fs dev (buffer s) b).
  { intros b Hb. apply Cv. intros Hin. destruct (B b Hin) as (l & Hl & Hml).
    destruct (Hdata l b) as [? ?]; [|done|by destruct Hb].
    unfold edges in Hl. case_decide; rewrite ?elem_of_cons, ?elem_of_nil in Hl; destruct Hl as [-> |Hl]; try lia; destruct Hl as [-> |[]]; lia. }
  assert (Hrep1 : groups_repr fs dev st (buffer s1) used).
  { eapply groups_repr_data; [exact Hrep|apply Hrd, (gr_reader _ _ _ _ _ Hrep)|exact Cu|exact Hmeta]. }
  assert (Hinit1 : runs_init fs dev (buffer s1) hole).
  { intros gi x r Hgi Hin Hx Hxg. eapply init_group_data; [exact Hgi|intros b Hb; apply Hmeta; by left|]. by apply (Hinit gi x r). }
  pose proof (total_bounds fs dev Hgeo Hlay used) as Htot.
  destruct (give_runs fs dev Hgeo Hlay hole st (buffer s1) used 0 Hrep1 Hused Hinit1 ltac:(lia)) as (buf2 & Eg & Hrep2 & Htf & _ & _ & Hview).
  exists s1, (mkStaged buf2 (space s1)). split; [exact E|]. split; [|split; [exact Hrep2|split; [exact Htf|split]]].
  - unfold hole, kept in *. destruct (decide (first < last)) as [Hlt|Hge].
    + rewrite punch_fold by (done || lia). rewrite (tx_bind _ _ _ _ _ (give_back_runs_run fs dev _ 0 s1 _ _ Eg)). done.
    + cbn [foldM] in Eg. injection Eg as <-. cbn [fold_m]. by destruct s1.
  - intros p. assert (Hblocks : (∃ r, r ∈ hole ∧ fst r ≤ p < fst r + snd r) ↔
      ∃ e l, e ∈ es ∧ Extent.contains e l = true ∧ first ≤ l < last ∧ Extent.map e l = p).
    { unfold hole. destruct (decide (first < last)) as [Hlt|Hge]; [by apply dropped_blocks; lia|].
      split; [intros (r & Hin & _); by apply elem_of_nil in Hin|intros (e & l & _ & _ & Hl & _); lia]. }
    rewrite <-Hblocks. destruct (give_back_spec hole used p) as [[-> Hno]|[-> Hin]]; [|split; [by right|done]].
    split; [by left|]. intros [?|(r & Hin & Hp)]; [done|by destruct (Hno r Hin)].
  - intros o Ho'. specialize (Hz o Ho').
    assert (Hmap : ext_target (find_ext (o / bs) kept) (o / bs) = if decide (first ≤ o / bs < last) then None else m (o / bs)).
    { unfold kept. destruct (decide (first < last)); [by rewrite survivors_map by lia|]. by rewrite decide_False by lia. }
    assert (Hin : content fs dev (mkStaged buf2 (space s1)) (λ l, ext_target (find_ext l kept) l) o =
      if decide (first ≤ o / bs < last) then 0 else content fs dev s1 m o).
    { unfold content. cbv beta. fold bs. rewrite Hmap. case_decide; [done|]. destruct (m (o / bs)) as [p|] eqn:Ep; [|done].
      unfold held. cbn [buffer]. destruct (Hdata (o / bs) p) as [Hd1 Hd2]; [apply Z.div_pos; lia|done|]. by rewrite Hview. }
    rewrite Hin, Hz. clear Hin Hmap Hz. by apply (hole_or_edge fs dev Hbs).
Qed.

(** ** Witness: a file of three blocks, 7 to 9, on the volume of AllocRefine *)

Definition three_inode : bytes :=
  le_split 2 0x81A4 ++ zrep 2 0 ++ le_split 4 3072 ++ zrep 18 0 ++ le_split 2 1 ++ zrep 4 0 ++ le_split 4 InodeFlags.EXTENTS ++ zrep 4 0 ++
  Extent.sample_header 1 0 ++ Extent.sample_leaf 0 3 7 ++ zrep 36 0 ++ zrep 28 0.
Definition three_extents : list Extent.t := [Extent.mk 0 3 7 false].
Definition three_map (l : Z) : option Z := ext_target (find_ext l three_extents) l.
Definition three_start : staged := begin no_clears.

Lemma three_map_eq l : three_map l = if decide (0 ≤ l < 3) then Some (7 + l) else None.
Proof.
  unfold three_map, find_ext, three_extents. cbn [List.find]. destruct (Extent.contains _ l) eqn:E.
  - apply contains_true in E. cbn in E. rewrite decide_True by lia. cbn. f_equal. unfold Extent.map. cbn. lia.
  - rewrite decide_False; [done|]. intros Hl. assert (Extent.contains (Extent.mk 0 3 7 false) l = true); [|congruence].
    apply contains_true. cbn. lia.
Qed.

Lemma three_unshared : unshared three_map.
Proof. intros l l' p _ _. rewrite !three_map_eq. case_decide; case_decide; intros E E'; try done. injection E as <-. injection E' as E'. lia. Qed.

Lemma three_readable : readable small_fs small_dev three_start three_map.
Proof.
  intros l p _. rewrite three_map_eq. case_decide as Hl; [|done]. intros [= <-].
  assert (l = 0 ∨ l = 1 ∨ l = 2) as [-> |[-> | ->]] by lia; eexists; (split; [vm_compute; reflexivity|reflexivity]).
Qed.

Lemma three_data l p : 0 ≤ l → three_map l = Some p → ¬ is_desc_block small_fs p ∧ ¬ is_bitmap small_fs p.
Proof.
  intros _. rewrite three_map_eq. case_decide as Hl; [|done]. intros [= <-]. split.
  - intros (gi & off & Hgi & E). rewrite (small_slots gi Hgi) in E. injection E as E _. lia.
  - intros (g & Hg & Hb). change (Filesystem.groups small_fs) with [bgd_of 32 small_desc0; bgd_of 32 small_desc1] in Hg.
    rewrite !elem_of_cons, elem_of_nil in Hg. destruct Hg as [-> |[-> |[]]];
      change (7 + l = 3 ∨ 7 + l = 4) in Hb || change (7 + l = 20 ∨ 7 + l = 21) in Hb; lia.
Qed.

Lemma three_tree i : Inode.parse three_inode = Ok i →
  ∃ h, ExtentHeader.parse (Inode.block i) = Ok h ∧ ExtentHeader.depth h = 0 ∧
    @tree castagnoli small_dev 1024 None 0 (Inode.block i) 0 10 three_extents [].
Proof.
  intros Ei. vm_compute in Ei. injection Ei as <-. eexists. split; [vm_compute; reflexivity|]. split; [reflexivity|].
  eexists. split; [by vm_compute|]. split; [by vm_compute|]. split; [|done]. simpl. lia.
Qed.

(** Bytes 100 to 2499 punched out: block 8 is given back. *)
Lemma punch_hole_content_witness : ∃ i, Inode.parse three_inode = Ok i ∧
  let m := λ l, ext_target (find_ext l (survivors 1 2 three_extents)) l in
  ∃ s1 s2, @each _ _ (@zero_edge castagnoli small_fs small_dev i 100 2500) [0; 2] three_start = (Ok tt, s1) ∧
    fold_m (@punch_extent castagnoli small_fs small_dev 1 2) ([], 0) three_extents s1 = (Ok (survivors 1 2 three_extents, 1), s2) ∧
    groups_repr small_fs small_dev no_clears (buffer s2) (give_back small_used [(8, 1)]) ∧
    content small_fs small_dev s2 m 1500 = 0 ∧ content small_fs small_dev s2 m 2100 = 0 ∧
    content small_fs small_dev s2 m 12 = content small_fs small_dev three_start three_map 12.
Proof.
  destruct (Inode.parse three_inode) as [i|e| |] eqn:Ei; try (vm_compute in Ei; discriminate Ei).
  exists i. split; [reflexivity|]. intros m. destruct (three_tree i Ei) as (h & Hh & Hd & Ht). clear Ei.
  assert (Hbs : Filesystem.block_size small_fs = 1024) by (vm_compute; reflexivity).
  pose proof (@punch_hole_content castagnoli small_fs small_dev small_dev_ok i h 0 10 three_extents [] 100 2500
    no_clears small_used three_start) as T. cbv zeta in T. rewrite Hbs, Hd in T.
  destruct T as (_ & s1 & s2 & E1 & E2 & Hrep & _ & _ & Hc).
  - apply small_geo.
  - apply small_layout.
  - apply small_volume.
  - lia.
  - by_compute.
  - exact Hh.
  - vm_compute. discriminate.
  - exact Ht.
  - exact three_unshared.
  - exact three_readable.
  - exact three_data.
  - change (runs_used small_fs small_used [(8, 1)]). cbn [runs_used]. assert (Superblock.first_data_block (Filesystem.sb small_fs) = 1) as -> by (vm_compute; reflexivity).
    assert (Superblock.blocks_count (Filesystem.sb small_fs) = 33) as -> by (vm_compute; reflexivity).
    split; [lia|]. split; [lia|]. split; [lia|]. split; [|done]. intros x Hx. assert (x = 8) as -> by lia. vm_compute. reflexivity.
  - intros gi x r [-> | ->]%small_groups Hr Hx Hg; [apply small_init0|]. exfalso.
    assert (group_first_block (Filesystem.sb small_fs) 1 = 17) as Eg by (vm_compute; reflexivity). rewrite Eg in Hg.
    change (r ∈ [(8, 1)]) in Hr. apply list_elem_of_singleton in Hr as ->. cbn [fst snd] in Hx. lia.
  - exists s1, s2. split; [exact E1|]. split; [exact E2|]. split; [exact Hrep|]. split; [|split].
    + exact (Hc 1500 ltac:(lia)).
    + exact (Hc 2100 ltac:(lia)).
    + exact (Hc 12 ltac:(lia)).
Defined.
